(* ===== verification/_CoqProject ===== *)
-Q . S2P
Prelude.v
Text.v
Data.v
Ops.v
OpsFacts.v
Journal.v
Persist.v
Activity.v
Writer.v
WriterFacts.v
Samples.v
Editing.v
Commands.v
MemoryMap.v
Loader.v
Cfg.v
CfgDfs.v
CfgDom.v
CfgFrontier.v
Pdom.v
FlowGraph.v
Ssa.v
SsaFacts.v
SsaCorrect.v
Pcode.v
Simplify.v
SimplifyCorrect.v
Region.v
RegionCorrect.v
ModulePe.v
ModulePeCorrect.v
Serving.v
ServingCorrect.v
Targets.v
TargetsCorrect.v
CodeIndex.v
CodeIndexFacts.v
Discovery.v
DiscoveryFacts.v
Callees.v
DiscoveryCorrect.v
Unwind.v
UnwindCorrect.v
Analysis.v
Stackwalk.v
StackwalkCorrect.v
DumpSymbols.v
DumpSymbolsCorrect.v
Indirect.v
IndirectCorrect.v
Opening.v
OpeningCorrect.v
Semantic.v
Ast.v
AstSem.v
CfgAst.v
CfgAstCorrect.v
AlternativesCorrect.v
CheckAst.v
V2Engine.v
V2EngineCorrect.v
PrintParse.v
Hir.v
Reaching.v
HirCorrect.v
V2Whole.v
Bel.v
BelBuild.v
BelQuery.v
BelFacts.v
BelSurface.v
BelCorrect.v
BelBuildFacts.v
BelOverlay.v
BelPaging.v
BelClaims.v
BelCache.v
GlobalSearch.v
MemWalk.v
Queries.v
