(* ===== verification/Prelude.v ===== *)
(** * Verification of Windy

    Windy (src/) loads Windows images and crash dumps, analyses them and serves
    them to reverse-engineering agents. This library models the parts of it that
    decide what an analyst sees, as executable definitions, and proves what they
    compute. Source paths below are relative to src/src/.

    ** The editing core

    A project is an immutable analysis of an image (functions, strings, PDB
    data) and a mutable part that edits change: symbols, comments, memory cards,
    types, signatures, stack frames. Agents edit through one writer task per
    project, which applies an operation, journals it, and keeps undo and redo
    stacks per client. A snapshot (the IDB) is written every 256 requests and at
    close, and the journal is truncated to what the snapshot lacks; opening
    loads the snapshot and replays the rest.

    - [Data]: project/types.rs, symbols.rs, comments.rs, memory.rs, and the
      records of analysis/functions.rs, one Module each. Maps are [gmap]s, the
      type repository is a vector with its seed.
    - [Ops]: project/op.rs. [capture_and_apply] is the method of that name, with
      old values captured into the operation; [inverse] its compensation.
      [Ops.Project] is the part of Project the operations read and write.
    - [OpsFacts]: equality of projects up to the frame and type
      caches ([Proper] instances), undo and redo of one operation, the stack
      frame invariant, footprints and commutation.
    - [Journal]: project/op_log.rs and activity_log.rs over file contents. JSON
      is a class of codecs ([LineCodec]) with its documented round trip and
      the absence of a newline in a line.
    - [Persist]: project/persistence.rs and the opening sequence of
      project/mod.rs; postcard is a class of codecs ([Postcard]).
    - [Activity], [Writer]: project_manager.rs, the activity feed, [apply_one],
      [undo_one], [redo_one], [writer_loop], start and close.
    - [WriterFacts]: the invariant of the writer between requests ([durable]).
    - [Samples]: codecs that satisfy the classes, and the project of the
      witnesses.
    - [Editing]: the claims. The writer implements an in-memory editor across
      restarts; files always reopen to the live project; a crash inside a
      journal append loses at most the request served; undo with other clients'
      edits in between; bounds of the journal; round trips of the files; and
      four sequences of requests on which the code loses edits.
    - [Commands]: project/command.rs, the reversible commands and their stack,
      shown to implement a timeline; and the mutators of Project, compared with
      the durable operations.

    ** Loading

    - [MemoryMap]: loader/dump/memory_map.rs. The regions of a minidump, sorted
      and merged; reads return exactly the bytes mapped.
    - [Loader]: loader/address_space.rs and [Project::read_bytes]. Sections,
      file offsets and slices of the image with the dump behind it.
    - [ModulePe]: loader/dump/module_pe.rs, a PE file rebuilt from a module's
      memory. [ModulePeCorrect]: the copied image is the memory, and patches of
      little-endian fields change their range only; read
      through [Loader], the rebuilt file is the dump's memory of [MemoryMap];
      and a header on which the code panics.
    - [DumpSymbols]: loader/dump/exports.rs and the naming of import slots in
      project/mod.rs ([resolve_iat]), over [MemoryMap] and the symbols of
      [Data]. [DumpSymbolsCorrect]: the contents of the dump's memory ([window],
      [word]), of an export directory ([exports]), of a slot ([pointer_at]) and
      of an address ([symbol_at]) as relations of their own; a lookup returns the
      name they give, or panics; what each symbol is after the slots are
      resolved, whatever order a hash map lists them in; and a known name that
      is lost. Sums of addresses wrap there, as in a release build.
    - [Stackwalk]: loader/dump/stackwalk.rs. [StackwalkCorrect]: the chain of
      frame pointers refines a relation ([walks]), the scan is a filter of the
      stack's words, both bounded and numbered.

    ** The project manager

    - [Serving]: the parts of project_manager.rs every request passes through.
      [ServerActivity]: guards of running operations. [DecompileCache]: the
      bounded cache. [Guarded]: [decompile_artifact_guarded] as a step relation
      in which requests, jobs and the requests of [Writer] interleave; the
      decompiler is a parameter, and the permits, which all projects of a server
      share, are those of one project. [Recent]: paths and the recent list.
    - [ServingCorrect]: lists in order of last use ([recency]), shared by the cache
      and the recent list; no stale artifact, jobs finish, the
      cache is least-recently-used, the activity report is that of the oldest
      open guard, the recent list is the last eight paths.
    - [Targets]: opening and closing of projects, dumps and dump modules, module
      specifications, workspace membership. [TargetsCorrect]: one target per path
      while opens do not overlap, and two when they do; what closing a dump
      closes; and a module returned under the name of another.

    ** The analysis of an image

    Opening an image sweeps its executable sections, reads the exception
    directory, and discovers functions from the seeds both give.

    - [CodeIndex]: analysis/code_index.rs. The decoder is a class ([Decoder])
      with the laws of its documentation ([DecoderLaws]); an instruction is a
      record of its answers. [CodeIndexFacts]: the sweep
      tiles each section, and lookups and windows are right.
    - [Discovery]: analysis/functions.rs, the recursive descent with its block
      owners, trusted entries and the two sweeps after it. [DiscoveryFacts]: what
      one block claims, queues and has as edges ([advances], [block_made]), the
      loop of one function, and the invariants
      between functions, one that also survives the carving of filters ([core])
      and one of the state before it ([swept]). [DiscoveryCorrect]: discovery
      ends; blocks are the instructions they stand for; every address known to
      be reached starts a block, or lies in no function though a higher function
      reaches it ([placed], [reaches]); trusted entries are kept; and the images on which code,
      entries or calls are lost.
    - [Callees]: analysis/xrefs.rs and the callee query of llm/query.rs. The
      index holds the references of its instructions, each under its target and
      its origin, in order, and those to data lead to mapped addresses.
    - [Unwind]: analysis/unwind.rs. [UnwindCorrect]: a record is
      decided by its fixed prefix of at most 528 bytes, codes tile their slots,
      and the table is the accepted records of the directory in order.
    - [Analysis]: analysis/mod.rs, the composition: every entry of the exception
      directory is in the function table.
    - [Indirect]: analysis/indirect.rs and thunks.rs. The operands of an
      instruction are a class ([OperandView], its documented laws
      [OperandLaws]). [IndirectCorrect]: what a table yields, exactly
      ([pointer_run]), what adding edges does to blocks and references, and one contract for jumps and calls
      ([resolve_with_ok]).
    - [Opening]: analysis/stack_frame.rs and the stages of an open in
      project/mod.rs (frames, automatic names, the linker's map, thunks,
      indirect edges). [OpeningCorrect]: after [Analysis] no stage fails, and
      the project handed to [Writer] meets the invariant of [OpsFacts].

    ** Control flow and SSA

    The decompiler turns a function record into adjacency vectors, computes
    dominators and frontiers, places phis and renames.

    - [FlowGraph]: [Function::recompute_predecessors] of analysis/functions.rs
      and the adjacency of decompiler/ssa/mod.rs. A function whose predecessors
      were recomputed meets [CfgDom.wf_graph], the hypothesis of everything
      below.
    - [Cfg]: decompiler/ssa/cfg.rs and decompiler/structure/pdom.rs, loop by
      loop.
    - [CfgDfs]: the depth-first search ends and numbers the reachable nodes.
    - [CfgDom]: [build_idom] ends with the dominator tree. During the iteration
      the ancestors of a node include its dominators; after round [k] they lie
      on every path with fewer than [k] retreating edges. [idom_spec] is the
      interface the later files use.
    - [CfgFrontier]: [dominance_frontier] and [iterated_df] against their
      definitions; the second panics on a block out of range. [Pdom]: post-dominators through the reversed graph.
    - [Ssa]: decompiler/ssa/mod.rs (locations, definition blocks), phi.rs,
      rename.rs. The P-code operation is a type parameter.
    - [SsaFacts]: what a block of the renaming does to stacks,
      counters, phis and operations ([body_effect]), and the contract of the
      recursive walk ([walked]).
    - [SsaCorrect]: the claims. Running the renamed program along any path, each
      use reads the version assigned last; versions are unique; no use is
      undefined; and two situations in which the code is wrong: a location
      defined in one block, and an entry that is not block 0.
    - [Pcode]: the external P-code operation, seen through a class
      ([PcodeView]) that the passes below match on.
    - [Simplify]: decompiler/ssa/simplify.rs, pass by pass.
      [SimplifyCorrect]: the union-find as a function from variables to
      representatives ([tree]), merged by the copies and phis of the function;
      the work list marks what is reached from the seeds. Representatives equal their variables in every
      solution of the copies and phis, nothing with a side effect is lost,
      needed variables stay defined except in self-cycles, and a loop in which
      that exception loses a phi.
    - [Region]: decompiler/structure/region.rs, the jump collapsing of
      cfg_norm.rs and the block predicates of normalize/mod.rs.
      [RegionCorrect]: one contract for its graph searches ([reach_ok],
      [can_reach_ok], [natural_loop_ok]). Natural loops are
      those of the definition, the regions' arms and merges are right, jumps
      collapse to the first working block, and the connective of a compound
      condition is the opposite of the one the emitter needs.

    ** The second decompiler

    From the SSA form of a function the engine of decompiler/v2 makes candidates,
    syntax trees of C statements with a claim of what they cover, checks them and
    prints one.

    - [Semantic]: semantic.rs and observation.rs, the effects visible from
      outside, successors, terminators and exit classes; the parts agree with
      each other and with the function.
    - [Ast]: ast.rs, the data of contracts.rs, and print_ast.rs. [AstSem]: a
      reference semantics of the statements, a machine with continuations that
      emits effects and branches; traces of labelled steps and their simulation;
      and the statement a label finds.
    - [CfgAst]: cfg_ast.rs, the seed of labels and gotos and its alternatives.
      [CfgAstCorrect]: a reference that reads the P-code itself ([event_step]); a
      block of the seed does what the block of the graph does, both ways. [AlternativesCorrect]: the seed, the seed in a loop and the seed
      with its first branch inverted have the traces of the reference, and what
      the others do instead.
    - [CheckAst], [V2Engine]: check_ast.rs, engine.rs and artifact.rs.
      [V2EngineCorrect]: a report is accepted when every check passes
      ([check_accepts]), what an artifact may claim, and a candidate that is
      wrong and always wins.
    - [Hir]: hir.rs, with the search for return values of ssa/mod.rs. [Reaching]:
      that search against all ways into a block. [HirCorrect]:
      lowering loses nothing and is always valid; which calls and arguments are
      lifted. [V2Whole]: the engine on the semantic IR of its function.
    - [PrintParse]: a lexer that takes the longest C token and the grammar of
      C's expressions as a parser with precedences; the printed text is read back
      ([printable], [lexable]), and the texts that are not ([Misprints]).

    The candidate of the region tree, the contracts, the text of the first
    decompiler and the textual fold (emit_fold.rs) are inputs of the engine; of the semantic IR
    it sees the arguments of call sites and the verdict of its validation.

    ** The evidence index

    Agents search a project through an index (analysis/bel): entities (functions,
    symbols, strings, instructions, annotations, motifs, classes) with their
    texts, postings of names, tokens, syncmers and numbers, and relationships to
    functions. It is built once; annotations made later are in an overlay that
    every query reads through.

    - [Bel]: the data of bel/mod.rs, texts and hashes, the annotation slots of a
      project, the index, and the overlay with its steps. The transducer library
      is a class ([FstLib], its documented laws [FstLaws]).
    - [BelBuild]: [IndexBuilder], step by step, in a monad that may stop at the
      cancellation flag or the deadline. The instruction formatter is a class.
    - [BelQuery]: bel/query.rs, from the classification of a query to its pages
      and cursors, under a budget; and [linear_oracle_ids], the complete scan the
      repository's tests compare the search with. The library of regular
      expressions is a class.
    - [BelFacts]: orders, substrings, syncmers; loops under a budget ([gives],
      [finishes]); what a well-formed index and overlay are ([wf_index],
      [wf_overlay]). [BelSurface]: what each collector finds, and the expressions whose
      required literal every match contains ([Re], assumed of the library by
      [RegexLaws]). [BelCorrect]: a surface search is part of the linear scan
      ([sound]), and all of it when it is complete ([agrees]).
    - [BelBuildFacts]: the builder keeps its invariant ([good]) and ends with a
      well-formed index. [BelOverlay]: [from_project], slot by slot ([applied]).
    - [BelPaging]: cursors are read back as written, the heap keeps the best hits,
      following the cursors lists the ranking once.
    - [BelClaims]: the claims, on the index that was built and the overlay made of
      a later state of the project; and four things the code misses.
    - [BelCache]: the index on disk ([save_to], [load_from]; the postcard codec is
      a class, the order of hash maps another) and [get_or_build], where the
      callers of a project move by turns ([turn]) over the cell, its mutex and
      the file. Saved indexes are loaded back; callers are judged one by one
      under what a turn of another guarantees ([caller_ok], [guarantee]), so one
      builds at a time, all get one index, and none is stuck.

    ** Searches and reads without the index

    - [GlobalSearch]: analysis/search.rs and [search_summary_page] of
      llm/query.rs. In time a search finds what looking at every symbol, string
      and instruction finds ([everything]), and its pages list that; but the
      texts of instructions keep the names of the first search.
    - [MemWalk]: analysis/mem_walk.rs, with the strings of llm/query.rs; a
      document is a [Value]. A walk lists the chain of its nodes, each once
      ([walk_list_exact]).
    - [Queries]: the lists llm/query.rs gives of a function. Its callers are
      the direct calls of its entry and its text is that at the addresses its
      instructions name; but the callees of its summary are those of its first
      instruction, and the list of its imports can pass its limit.

    ** Conventions

    [Text] holds the string operations of Rust's standard library the sources
    use. Machine integers are [Z] with the source's saturation or wrap-around written
    out (below); block indices and lengths are [nat]. Panics and errors are
    [option] or [Result]. Loops without a structural measure take fuel and
    return [None] when it runs out, and each has a theorem that its fuel
    suffices: a depth-first search spends one unit per edge and per node; a
    dominator round finalises one more retreating edge of each path, so the
    number of nodes and one round bound the iteration, and twice the number of
    nodes bounds the two fingers of [intersect]; a climb is shorter than the
    tree; the frontier worklist is popped once per seed and per result; the
    renaming recursion is at most as deep as the tree is high; a chain of
    parents in the union-find visits a key of the map once, so the size of the
    map bounds [find]; the liveness work list takes each operation once; a
    region search takes one unit per edge and per start; a caller that is alone
    has its index after ten turns; the walk along a block
    goes to higher addresses and takes one unit per instruction of the index; a
    function's queue receives each address once, at most two per instruction
    and the entry; the worklist of functions receives at most one address per
    instruction beyond the seeds; the sweep of a section takes one unit per
    byte, and the unwind codes one per slot. Where the source has a bound of
    its own (4096 stack slots, 512 table entries, 12 prologue instructions, 64
    local slots) the loop runs on that bound.

    ** Not modelled

    Parsers and services the sources call (PE, minidump and PDB parsing, the
    instruction decoder and P-code lifter, serde, the file system beyond whole
    files), which are parameters where a component needs them; rendering
    (JSON views, decompiled text); the server front ends.

    Next: the trees the region extractor builds and the expressions of SSA
    definitions, the emitter of the regions, the compact indexes and
    caches, the cross-project index. *)

From Stdlib Require Export ZArith Lia.
From stdpp Require Export base strings sorting option gmap sets fin_maps list.

(** ** Machine integers

    The program's [u64], [i64], [u32] and [u8] values are [Z] with the bound
    written out where an operation wraps, saturates or checks. *)

Declare Scope windy_scope.
Delimit Scope windy_scope with windy.
Open Scope windy_scope.

Definition u64_max : Z := (2 ^ 64 - 1)%Z.
Definition u32_max : Z := (2 ^ 32 - 1)%Z.

(** [u64::saturating_add] *)
Definition sat_add (a b : Z) : Z := Z.min u64_max (a + b).
(** [u64::saturating_sub] *)
Definition sat_sub (a b : Z) : Z := Z.max 0 (a - b).
(** [u64::saturating_mul] *)
Definition sat_mul (a b : Z) : Z := Z.min u64_max (a * b).
(** [u64] addition in a release build: wraps modulo 2^64. *)
Definition wrap_add (a b : Z) : Z := ((a + b) mod 2 ^ 64)%Z.

Notation "a +sat b" := (sat_add a b) (at level 50, left associativity) : windy_scope.
Notation "a -sat b" := (sat_sub a b) (at level 50, left associativity) : windy_scope.
Notation "a *sat b" := (sat_mul a b) (at level 40, left associativity) : windy_scope.
Notation "a +wrap b" := (wrap_add a b) (at level 50, left associativity) : windy_scope.

Definition is_u64 (z : Z) : Prop := (0 ≤ z ≤ u64_max)%Z.
Definition is_u32 (z : Z) : Prop := (0 ≤ z ≤ u32_max)%Z.

#[export] Instance is_u64_dec z : Decision (is_u64 z).
Proof. unfold is_u64. apply _. Defined.
#[export] Instance is_u32_dec z : Decision (is_u32 z).
Proof. unfold is_u32. apply _. Defined.

(** Arithmetic on the machine integers is decided by unfolding to [Z]. *)
Ltac mach :=
  unfold is_u64, is_u32, sat_add, sat_sub, sat_mul, u64_max, u32_max in *; lia.

Create HintDb windy.

Lemma sat_add_u64 a b : is_u64 a → is_u64 b → is_u64 (a +sat b).
Proof. mach. Qed.
Lemma sat_sub_u64 a b : is_u64 a → is_u64 b → is_u64 (a -sat b).
Proof. mach. Qed.
Lemma sat_mul_u64 a b : is_u64 a → is_u64 b → is_u64 (a *sat b).
Proof. unfold is_u64, sat_mul, u64_max. nia. Qed.
Lemma sat_add_small a b : is_u64 a → is_u64 b → (a + b ≤ u64_max)%Z → a +sat b = (a + b)%Z.
Proof. mach. Qed.
Lemma wrap_add_u64 a b : is_u64 (a +wrap b).
Proof.
  unfold wrap_add, is_u64, u64_max.
  pose proof (Z.mod_pos_bound (a + b) (2 ^ 64)). lia.
Qed.
Lemma wrap_add_small a b : is_u64 a → (0 ≤ b)%Z → (a + b ≤ u64_max)%Z → a +wrap b = (a + b)%Z.
Proof.
  unfold is_u64, u64_max, wrap_add. intros ???. apply Z.mod_small. lia.
Qed.
#[export] Hint Resolve sat_add_u64 sat_sub_u64 sat_mul_u64 wrap_add_u64 : windy.

(** ** Vectors: first-match search, in-place update and stable sorting *)

(** [iter().find(p)] *)
Fixpoint find_first {A} (p : A → bool) (l : list A) : option A :=
  match l with
  | [] => None
  | x :: l' => if p x then Some x else find_first p l'
  end.

(** [iter_mut().find(p)] followed by a mutation of the element found; [None]
    when there is no such element. *)
Fixpoint update_first {A} (p : A → bool) (f : A → A) (l : list A) : option (list A) :=
  match l with
  | [] => None
  | x :: l' => if p x then Some (f x :: l') else cons x <$> update_first p f l'
  end.

(** [iter().position(p)] *)
Fixpoint position {A} (p : A → bool) (l : list A) : option nat :=
  match l with
  | [] => None
  | x :: l' => if p x then Some 0 else S <$> position p l'
  end.

(** [sort_by_key]: the standard library's stable sort by an integer key. *)
Fixpoint insert_by_key {A} (key : A → Z) (x : A) (l : list A) : list A :=
  match l with
  | [] => [x]
  | y :: l' => if (key x <=? key y)%Z then x :: y :: l' else y :: insert_by_key key x l'
  end.
Definition sort_by_key {A} (key : A → Z) (l : list A) : list A :=
  foldr (insert_by_key key) [] l.

Section vectors.
Context {A : Type}.
Implicit Types (p : A → bool) (l : list A) (key : A → Z).

Lemma find_first_Some p l x : find_first p l = Some x → x ∈ l ∧ p x = true.
Proof.
  induction l as [|y l IH]; simpl; [done|].
  destruct (p y) eqn:E; intros; simplify_eq; [by split; [left|]|].
  destruct IH; [done|]. split; [by right|done].
Qed.

Lemma find_first_None p l : find_first p l = None ↔ ∀ x, x ∈ l → p x = false.
Proof.
  induction l as [|y l IH]; simpl; [split; [intros _ x ?%not_elem_of_nil|]; done|].
  destruct (p y) eqn:E.
  - split; [done|]. intros H. rewrite (H y) in E; [done|by left].
  - rewrite IH. split; [intros H x [->|?]%elem_of_cons; auto|].
    intros H x Hx. apply H. by right.
Qed.

Lemma find_first_app p l1 l2 :
  find_first p (l1 ++ l2) =
    match find_first p l1 with Some x => Some x | None => find_first p l2 end.
Proof. induction l1 as [|y l1 IH]; simpl; [done|]. by destruct (p y). Qed.

Lemma update_first_None p f l : update_first p f l = None ↔ find_first p l = None.
Proof.
  induction l as [|y l IH]; simpl; [done|].
  destruct (p y); [split; done|]. rewrite <-IH. destruct (update_first p f l); split; done.
Qed.

(** An update keeps every field the update keeps. *)
Lemma update_first_map {B} (g : A → B) p f l l' :
  (∀ x, g (f x) = g x) → update_first p f l = Some l' → g <$> l' = g <$> l.
Proof.
  intros Hg. revert l'. induction l as [|y l IH]; simpl; intros l' H; [done|].
  destruct (p y); simplify_eq/=; [by rewrite Hg|].
  apply fmap_Some in H as (l1 & H1 & ->). csimpl. by rewrite (IH _ H1).
Qed.

Lemma update_first_Forall (P : A → Prop) p f l l' :
  (∀ x, P x → P (f x)) → Forall P l → update_first p f l = Some l' → Forall P l'.
Proof.
  intros Hf HP. revert l'. induction HP as [|y l Hy HP IH]; simpl; intros l' H; [done|].
  destruct (p y); simplify_eq/=; [constructor; auto|].
  apply fmap_Some in H as (l1 & H1 & ->). constructor; auto.
Qed.

(** Two updates at the same place compose, when the first keeps the match. *)
Lemma update_first_twice p f g l l1 :
  (∀ x, p x = true → p (f x) = true) →
  update_first p f l = Some l1 →
  update_first p g l1 = update_first p (g ∘ f) l.
Proof.
  intros Hp. revert l1. induction l as [|y l IH]; simpl; intros l1 H; [done|].
  destruct (p y) eqn:E; simplify_eq/=; [by rewrite Hp|].
  apply fmap_Some in H as (l2 & H2 & ->). simpl. rewrite E. by rewrite IH.
Qed.

Lemma update_first_id p f l x :
  find_first p l = Some x → f x = x → update_first p f l = Some l.
Proof.
  induction l as [|y l IH]; simpl; [done|].
  destruct (p y); intros; simplify_eq/=; [congruence|]. by rewrite IH.
Qed.

Lemma find_first_update p q f l l' :
  (∀ x, p (f x) = p x) → (∀ x, q (f x) = q x) →
  update_first p f l = Some l' →
  (∀ x, p x = q x) →
  find_first q l' = f <$> find_first q l.
Proof.
  intros Hp Hq. revert l'. induction l as [|y l IH]; simpl; intros l' H Hpq; [done|].
  destruct (p y) eqn:E.
  - simplify_eq/=. by rewrite Hq, <-Hpq, E.
  - apply fmap_Some in H as (l1 & H1 & ->). simpl. rewrite <-(Hpq y), E. eauto.
Qed.

Lemma insert_by_key_perm key x l : insert_by_key key x l ≡ₚ x :: l.
Proof.
  induction l as [|y l IH]; simpl; [done|].
  destruct (_ <=? _)%Z; [done|]. rewrite IH. apply Permutation_swap.
Qed.
Lemma sort_by_key_perm key l : sort_by_key key l ≡ₚ l.
Proof.
  induction l as [|x l IH]; simpl; [done|]. by rewrite insert_by_key_perm, IH.
Qed.

Definition key_le key : relation A := λ x y, (key x ≤ key y)%Z.
Definition key_lt key : relation A := λ x y, (key x < key y)%Z.

Lemma insert_by_key_sorted key x l :
  StronglySorted (key_le key) l → StronglySorted (key_le key) (insert_by_key key x l).
Proof.
  induction 1 as [|y l Hl IH Hy]; simpl; [repeat constructor|].
  destruct (Z.leb_spec (key x) (key y)).
  - constructor; [by constructor|].
    constructor; [done|]. rewrite Forall_forall in *.
    intros z Hz. specialize (Hy z Hz). unfold key_le in *. lia.
  - constructor; [done|].
    rewrite insert_by_key_perm. constructor; [unfold key_le; lia|done].
Qed.
Lemma sort_by_key_sorted key l : StronglySorted (key_le key) (sort_by_key key l).
Proof. induction l; simpl; [constructor|by apply insert_by_key_sorted]. Qed.

(** Strict ordering by key = sorted without two equal keys. *)
Lemma sorted_strict key l :
  StronglySorted (key_le key) l → NoDup (key <$> l) → StronglySorted (key_lt key) l.
Proof.
  induction 1 as [|y l Hl IH Hy]; simpl; intros ND; [constructor|].
  apply NoDup_cons in ND as [Hn ND]. constructor; [auto|].
  rewrite Forall_forall in *. intros x Hx. specialize (Hy x Hx).
  unfold key_le, key_lt in *.
  assert (key x ≠ key y); [|lia]. intros E. apply Hn. rewrite <-E.
  by apply list_elem_of_fmap_2.
Qed.
Lemma strict_NoDup key l : StronglySorted (key_lt key) l → NoDup (key <$> l).
Proof.
  induction 1 as [|y l Hl IH Hy]; simpl; [constructor|].
  constructor; [|done]. intros (x & E & Hx)%list_elem_of_fmap.
  rewrite Forall_forall in Hy. specialize (Hy x Hx). unfold key_lt in Hy. lia.
Qed.
(** Ordering by key only depends on the keys. *)
Lemma sorted_by_keys key (l l' : list A) :
  key <$> l = key <$> l' → StronglySorted (key_lt key) l → StronglySorted (key_lt key) l'.
Proof.
  intros E H. revert l' E. induction H as [|y l Hl IH Hy]; intros [|z l'] E; simplify_eq/=.
  { constructor. }
  constructor; [auto|]. rewrite Forall_forall in *. intros x Hx.
  assert (key x ∈ key <$> l) as (w & Ew & Hw)%list_elem_of_fmap
    by (rewrite H0; by apply list_elem_of_fmap_2).
  specialize (Hy w Hw). unfold key_lt in *. congruence || lia.
Qed.
End vectors.

Lemma position_split {A} (p : A → bool) l i :
  position p l = Some i →
  ∃ l1 x l2, l = l1 ++ x :: l2 ∧ length l1 = i ∧ p x = true ∧ Forall (λ y, p y = false) l1.
Proof.
  revert i. induction l as [|x l IH]; intros i E; [done|]. cbn in E.
  destruct (p x) eqn:Ex; simplify_eq/=; [by exists [], x, l|].
  apply fmap_Some in E as (j & (l1 & y & l2 & -> & <- & Ey & F)%IH & ->).
  exists (x :: l1), y, l2. split_and!; [done..|by constructor].
Qed.
Lemma position_none {A} (p : A → bool) l : position p l = None → Forall (λ y, p y = false) l.
Proof.
  induction l as [|x l IH]; intros E; [done|]. cbn in E. destruct (p x) eqn:Ex; [done|].
  constructor; [done|]. apply IH. by destruct (position p l).
Qed.

(** [Vec::pop]: the last element and the rest. *)
Definition vec_pop {A} (l : list A) : option (A * list A) :=
  match reverse l with
  | [] => None
  | x :: l' => Some (x, reverse l')
  end.

Lemma vec_pop_snoc {A} (l : list A) x : vec_pop (l ++ [x]) = Some (x, l).
Proof. unfold vec_pop. rewrite reverse_snoc. by rewrite reverse_involutive. Qed.
Lemma vec_pop_nil {A} : vec_pop (@nil A) = None.
Proof. done. Qed.

(** The last [n] elements, in order. *)
Definition last_n {A} (n : nat) (l : list A) : list A := drop (length l - n) l.

Lemma last_n_length {A} n (l : list A) : length (last_n n l) = Nat.min n (length l).
Proof. unfold last_n. rewrite length_drop. lia. Qed.
Lemma last_n_all {A} n (l : list A) : length l ≤ n → last_n n l = l.
Proof. intros. unfold last_n. by replace (length l - n) with 0 by lia. Qed.
Lemma last_n_snoc {A} n (l : list A) x :
  last_n n (l ++ [x]) = last_n n (last_n n l ++ [x]).
Proof.
  unfold last_n. rewrite !length_app, length_drop. simpl.
  destruct (decide (length l < n)) as [|Hn].
  { by replace (length l - n) with 0 by lia; rewrite drop_0, Nat.sub_0_r. }
  destruct n as [|n].
  { rewrite (drop_ge (l ++ [x])) by (rewrite length_app; simpl; lia).
    rewrite drop_ge by (rewrite length_app, length_drop; simpl; lia). done. }
  rewrite drop_app_le by lia. rewrite drop_app_le by (rewrite length_drop; lia).
  rewrite drop_drop. do 2 f_equal. lia.
Qed.

(** A fold that can stop. *)
Fixpoint fold_opt {A B} (f : A → B → option A) (a : A) (l : list B) : option A :=
  match l with
  | [] => Some a
  | b :: l => a ← f a b; fold_opt f a l
  end.

(** A fold that can stop keeps an invariant each step establishes. *)
Lemma fold_opt_inv {A B} (I : A → Prop) (f : A → B → option A) l a :
  (∀ a b, b ∈ l → I a → ∃ a', f a b = Some a' ∧ I a') → I a →
  ∃ a', fold_opt f a l = Some a' ∧ I a'.
Proof.
  intros F. revert a. induction l as [|b l IH]; intros a Ha; cbn [fold_opt]; [eauto|].
  destruct (F a b) as (a1 & -> & H1); [by left|done|]. cbn.
  apply IH; [|done]. intros a2 b2 H2. apply F. by right.
Qed.

(** ** Ordered maps, queues and minima *)

(** The entries of a [BTreeMap] with integer keys, in the order of its keys. *)
Definition btree_entries {A} (m : gmap Z A) : list (Z * A) := sort_by_key fst (map_to_list m).
Definition btree_values {A} (m : gmap Z A) : list A := (btree_entries m).*2.

(** [Iterator::min_by_key]: the first of the least elements. *)
Fixpoint min_by_key {A} (key : A → Z) (l : list A) : option A :=
  match l with
  | [] => None
  | x :: l =>
      match min_by_key key l with
      | Some y => if (key x <=? key y)%Z then Some x else Some y
      | None => Some x
      end
  end.

(** [while q.len() > cap { q.pop_front() }] *)
Fixpoint pop_front_to {A} (cap : nat) (q : list A) : list A :=
  match q with
  | [] => []
  | _ :: q' => if decide (cap < length q) then pop_front_to cap q' else q
  end.

Lemma pop_front_to_last_n {A} cap (q : list A) : pop_front_to cap q = last_n cap q.
Proof.
  unfold last_n. induction q as [|x q IH]; [done|].
  cbn [pop_front_to length]. case_decide.
  - rewrite IH. by replace (S (length q) - cap) with (S (length q - cap)) by lia.
  - by replace (S (length q) - cap) with 0 by lia.
Qed.

Lemma min_by_key_sorted {A} (key : A → Z) l :
  StronglySorted (key_le key) l → min_by_key key l = head l.
Proof.
  induction 1 as [|x l Hl IH Hx]; [done|]. cbn. rewrite IH.
  destruct l as [|y l]; [done|]. cbn.
  apply Forall_cons in Hx as [Hx _]. unfold key_le in Hx. by rewrite (proj2 (Z.leb_le _ _)).
Qed.

(** Ordering by key only depends on the keys, here too. *)
Lemma le_by_keys {A} (key : A → Z) (l l' : list A) :
  key <$> l = key <$> l' → StronglySorted (key_le key) l → StronglySorted (key_le key) l'.
Proof.
  intros E H. revert l' E. induction H as [|x l Hl IH Hx]; intros [|z l'] E; simplify_eq/=.
  { constructor. }
  constructor; [auto|]. apply (proj1 (Forall_fmap key (λ k, key z ≤ k)%Z _)).
  rewrite <-H0. apply (proj2 (Forall_fmap key _ _)). eapply Forall_impl; [exact Hx|].
  unfold key_le. simpl. intros. congruence || lia.
Qed.

Lemma strict_unique {A} (key : A → Z) (l l' : list A) :
  StronglySorted (key_lt key) l → StronglySorted (key_lt key) l' → l ≡ₚ l' → l = l'.
Proof.
  intros S1 S2 P. apply (StronglySorted_unique_strong (key_lt key)); [|done..].
  unfold key_lt. intros; lia.
Qed.

Lemma sorted_filter {A} (R : relation A) (P : A → Prop) `{∀ x, Decision (P x)} l :
  StronglySorted R l → StronglySorted R (filter P l).
Proof.
  induction 1 as [|x l S IH F]; [constructor|]. rewrite filter_cons. case_decide; [|done].
  constructor; [done|]. rewrite Forall_forall in *. intros y [_ Hy]%list_elem_of_filter. auto.
Qed.

Lemma btree_entries_perm {A} (m : gmap Z A) : btree_entries m ≡ₚ map_to_list m.
Proof. apply sort_by_key_perm. Qed.
Lemma btree_entries_sorted {A} (m : gmap Z A) : StronglySorted (key_lt fst) (btree_entries m).
Proof.
  apply sorted_strict; [apply sort_by_key_sorted|].
  rewrite btree_entries_perm. apply NoDup_fst_map_to_list.
Qed.
Lemma elem_of_btree_entries {A} (m : gmap Z A) k x : (k, x) ∈ btree_entries m ↔ m !! k = Some x.
Proof. rewrite btree_entries_perm. apply elem_of_map_to_list. Qed.

Lemma elem_of_btree_values {A} (m : gmap Z A) x : x ∈ btree_values m ↔ ∃ k, m !! k = Some x.
Proof.
  unfold btree_values. rewrite list_elem_of_fmap. split.
  - intros ([k y] & -> & H). exists k. by apply elem_of_btree_entries.
  - intros (k & H). exists (k, x). split; [done|]. by apply elem_of_btree_entries.
Qed.
Lemma btree_values_sorted {A} (key : A → Z) (m : gmap Z A) :
  (∀ k x, m !! k = Some x → key x = k) → StronglySorted (key_lt key) (btree_values m).
Proof.
  intros K. unfold btree_values. pose proof (btree_entries_sorted m) as S.
  assert (Forall (λ e, key e.2 = e.1) (btree_entries m)) as F
    by (apply Forall_forall; intros [k x] H; by apply K, elem_of_btree_entries).
  induction S as [|e l S IH G]; [constructor|]. apply Forall_cons in F as [Fe F]. simpl.
  constructor; [by apply IH|]. apply Forall_forall. intros x ([k y] & -> & Hy)%list_elem_of_fmap.
  rewrite Forall_forall in F, G. pose proof (F _ Hy). pose proof (G _ Hy).
  unfold key_lt in *. simpl in *. lia.
Qed.

(** A map built from entries in order lists them back. *)
Lemma btree_entries_list {A} (l : list (Z * A)) :
  StronglySorted (key_lt fst) l → btree_entries (list_to_map l) = l.
Proof.
  intros S. apply (strict_unique fst); [apply btree_entries_sorted|done|].
  rewrite btree_entries_perm. apply map_to_list_to_map. by apply strict_NoDup.
Qed.

(** ** Sets *)

Lemma size_list_to_set_le {A} `{Countable A} (l : list A) : size (list_to_set l : gset A) ≤ length l.
Proof.
  induction l as [|x l IH]; [done|]. cbn. rewrite size_union_alt, size_singleton.
  assert (size (list_to_set l ∖ {[x]} : gset A) ≤ size (list_to_set l : gset A)); [|lia].
  apply subseteq_size. set_solver.
Qed.

(** ** Fallible operations: [anyhow::Result] *)

Inductive Result (A : Type) : Type :=
  | Ok (a : A)
  | Err (message : string).
Arguments Ok {A} a.
Arguments Err {A} message.

Definition is_ok {A} (r : Result A) : bool := match r with Ok _ => true | Err _ => false end.

(** ** Tactics of the development *)

(** Reduce a hypothesis about a [let]-bound pair or a successful step. *)
Ltac step_simpl :=
  repeat match goal with
  | H : Some _ = Some _ |- _ => injection H as H
  | H : (_, _) = (_, _) |- _ => injection H as ? ?
  | H : _ ∧ _ |- _ => destruct H
  end; subst.

(** Split every [match] of the goal, discarding the impossible cases. *)
Ltac split_cases := repeat (case_match; simplify_eq/=; try done).
