(* ===== verification/Text.v ===== *)
(** Operations of Rust's [str] the components share, on ASCII text. *)

From Stdlib Require Import Strings.Ascii Strings.String.
From S2P Require Import Prelude.

Local Open Scope string_scope.

(** [str::contains] *)
Definition contains (needle hay : string) : bool :=
  match String.index 0 needle hay with Some _ => true | None => false end.

Definition is_space (c : ascii) : bool :=
  let n := nat_of_ascii c in bool_decide (9 ≤ n ≤ 13 ∨ n = 32)%nat.
Fixpoint trim_start (s : string) : string :=
  match s with
  | String c s' => if is_space c then trim_start s' else s
  | "" => ""
  end.
Fixpoint trim_end (s : string) : string :=
  match s with
  | "" => ""
  | String c s' =>
      let r := trim_end s' in
      if decide (r = "" ∧ is_space c = true) then "" else String c r
  end.
(** [str::trim], of ASCII white space. *)
Definition trim (s : string) : string := trim_end (trim_start s).

Definition strip_prefix (p s : string) : option string :=
  if String.prefix p s then Some (String.substring (String.length p) (String.length s) s) else None.

Definition digit_value (c : ascii) : Z :=
  let n := Z.of_nat (nat_of_ascii c) in
  (if (48 <=? n) && (n <=? 57) then n - 48
   else if (65 <=? n) && (n <=? 90) then n - 55
   else if (97 <=? n) && (n <=? 122) then n - 87
   else 99)%Z.
Fixpoint parse_digits (radix acc : Z) (s : string) : option Z :=
  match s with
  | "" => Some acc
  | String c s =>
      let d := digit_value c in
      if (radix <=? d)%Z then None
      else let acc := (acc * radix + d)%Z in
           if (u64_max <? acc)%Z then None else parse_digits radix acc s
  end.
(** [u64::from_str_radix]: an optional plus sign, at least one digit, no
    overflow. *)
Definition from_str_radix (radix : Z) (s : string) : option Z :=
  let s := default s (strip_prefix "+" s) in
  if decide (s = "") then None else parse_digits radix 0 s.

(** [str::lines]: split at line feeds, without a carriage return before them. *)
Definition strip_cr_string (s : string) : string :=
  let n := String.length s in
  if decide (String.get (n - 1) s = Some (ascii_of_nat 13)) then String.substring 0 (n - 1) s else s.
Fixpoint lines_of (cur s : string) : list string :=
  match s with
  | "" => if decide (cur = "") then [] else [cur]
  | String c s =>
      if decide (c = ascii_of_nat 10) then strip_cr_string cur :: lines_of "" s
      else lines_of (cur +:+ String c "") s
  end.
(** [str::split_whitespace], of ASCII white space *)
Fixpoint words_of (cur s : string) : list string :=
  match s with
  | "" => if decide (cur = "") then [] else [cur]
  | String c s =>
      if is_space c then (if decide (cur = "") then words_of "" s else cur :: words_of "" s)
      else words_of (cur +:+ String c "") s
  end.
Definition ends_with (suffix s : string) : bool :=
  let n := String.length s in let k := String.length suffix in
  bool_decide (k ≤ n)%nat && bool_decide (String.substring (n - k) k s = suffix).
Definition is_ident_char (c : ascii) : bool :=
  let n := nat_of_ascii c in
  bool_decide (48 ≤ n ≤ 57 ∨ 65 ≤ n ≤ 90 ∨ 97 ≤ n ≤ 122 ∨ n = 95)%nat.

Lemma string_app_assoc (a b c : string) : (a +:+ b) +:+ c = a +:+ b +:+ c.
Proof.
  induction a as [|x a IH]; [done|].
  change (String x ((a +:+ b) +:+ c) = String x (a +:+ b +:+ c)). by rewrite IH.
Qed.
Lemma string_app_nil_r (a : string) : a +:+ "" = a.
Proof. induction a as [|x a IH]; [done|]. change (String x (a +:+ "") = String x a). by rewrite IH. Qed.

(** ** Prefixes and parts *)

Local Open Scope nat_scope.

Lemma prefix_app p s : String.prefix p s = true ↔ ∃ r, s = p +:+ r.
Proof.
  revert s. induction p as [|x p IH]; intros s.
  { split; [intros _; by exists s|by destruct s]. }
  destruct s as [|y s]; [split; [done|intros (r & E); done]|].
  cbn [String.prefix]. destruct (ascii_dec x y) as [->|N].
  - rewrite IH. split; intros (r & E); exists r; [by rewrite E|by injection E].
  - split; [done|]. intros (r & E). by injection E.
Qed.
(** [contains] is to be a part. *)
Lemma index_from n p s :
  (∃ m, String.index n p s = Some m) ↔ ∃ a r, n ≤ String.length a ∧ s = a +:+ p +:+ r.
Proof.
  revert n. induction s as [|c s IH]; intros n.
  { cbn [String.index]. destruct n as [|n].
    - destruct p as [|x p].
      + split; [intros _; exists "", ""; done|by exists 0].
      + split; [by intros []|]. intros (a & r & _ & E). by destruct a.
    - split; [by intros []|]. intros (a & r & L & E). destruct a; simpl in *; [lia|done]. }
  destruct n as [|n]; cbn [String.index].
  - destruct (String.prefix p (String c s)) eqn:P.
    + split; [|by exists 0]. intros _. apply prefix_app in P as (r & ->). exists "", r. split; [simpl; lia|done].
    + split.
      * intros (m & E). destruct (String.index 0 p s) as [k|] eqn:Ek; [|done].
        destruct (proj1 (IH 0)) as (a & r & _ & ->); [by exists k|].
        exists (String c a), r. split; [lia|done].
      * intros (a & r & _ & E). destruct a as [|x a].
        { rewrite (proj2 (prefix_app _ _)) in P; [done|]. by exists r. }
        injection E as -> E. destruct (proj2 (IH 0)) as (k & ->); [|by exists (S k)].
        exists a, r. split; [lia|done].
  - split.
    + intros (m & E). destruct (String.index n p s) as [k|] eqn:Ek; [|done].
      destruct (proj1 (IH n)) as (a & r & L & ->); [by exists k|].
      exists (String c a), r. split; [simpl; lia|done].
    + intros (a & r & L & E). destruct a as [|x a]; [simpl in L; lia|]. injection E as -> E.
      destruct (proj2 (IH n)) as (k & ->); [|by exists (S k)]. exists a, r. split; [simpl in L; lia|done].
Qed.
Lemma contains_app p s : contains p s = true ↔ ∃ a r, s = a +:+ p +:+ r.
Proof.
  pose proof (index_from 0 p s) as H. unfold contains. destruct (String.index 0 p s) as [m|].
  - split; [|done]. intros _. destruct (proj1 H) as (a & r & _ & E); eauto.
  - split; [done|]. intros (a & r & E). destruct (proj2 H) as (m & ?); [|done].
    exists a, r. split; [lia|done].
Qed.
