(* ===== verification/Data.v ===== *)
(** The project's data model: [src/project/types.rs] (type nodes, signatures,
    stack frames, the type repository), [src/project/symbols.rs],
    [src/project/comments.rs], [src/project/memory.rs], and the CFG records of
    [src/analysis/functions.rs] that the project keeps in its function table.

    Maps keyed by a virtual address ([HashMap<u64,_>], [BTreeMap<u64,_>]) are
    [gmap Z]; Rust strings are byte strings, [string]. *)

From S2P Require Import Prelude.

(** ** [types.rs] *)
Module Types.

(** A compact type node; [Int], [Uint] and [Unknown] carry a [u8] width. *)
Inductive DataType : Type :=
  | Void
  | Bool
  | Int (bits : Z)
  | Uint (bits : Z)
  | Float
  | Double
  | Ptr (inner : DataType)
  | Array (elem : DataType) (count : Z)
  | FuncPtr (params : list DataType) (return_type : DataType)
  | Named (name : string)
  | Unknown (bits : Z).

(** Structural induction that reaches the parameters of a function pointer. *)
Section DataType_ind.
Variable P : DataType → Prop.
Hypothesis HVoid : P Void.
Hypothesis HBool : P Bool.
Hypothesis HInt : ∀ b, P (Int b).
Hypothesis HUint : ∀ b, P (Uint b).
Hypothesis HFloat : P Float.
Hypothesis HDouble : P Double.
Hypothesis HPtr : ∀ t, P t → P (Ptr t).
Hypothesis HArray : ∀ t n, P t → P (Array t n).
Hypothesis HFuncPtr : ∀ ps r, Forall P ps → P r → P (FuncPtr ps r).
Hypothesis HNamed : ∀ n, P (Named n).
Hypothesis HUnknown : ∀ b, P (Unknown b).

Fixpoint DataType_nested_ind (t : DataType) : P t :=
  match t with
  | Void => HVoid
  | Bool => HBool
  | Int b => HInt b
  | Uint b => HUint b
  | Float => HFloat
  | Double => HDouble
  | Ptr t' => HPtr t' (DataType_nested_ind t')
  | Array t' n => HArray t' n (DataType_nested_ind t')
  | FuncPtr ps r =>
      HFuncPtr ps r
        ((fix go (l : list DataType) : Forall P l :=
            match l with
            | [] => Forall_nil_2 P
            | t' :: l' => Forall_cons_2 P t' l' (DataType_nested_ind t') (go l')
            end) ps)
        (DataType_nested_ind r)
  | Named n => HNamed n
  | Unknown b => HUnknown b
  end.
End DataType_ind.

(** Type nodes as labelled trees: decidable equality and countability follow
    from the ones of trees. *)
Fixpoint to_tree (t : DataType) : gen_tree (Z + string) :=
  match t with
  | Void => GenNode 0 []
  | Bool => GenNode 1 []
  | Int b => GenNode 2 [GenLeaf (inl b)]
  | Uint b => GenNode 3 [GenLeaf (inl b)]
  | Float => GenNode 4 []
  | Double => GenNode 5 []
  | Ptr t' => GenNode 6 [to_tree t']
  | Array t' n => GenNode 7 [to_tree t'; GenLeaf (inl n)]
  | FuncPtr ps r => GenNode 8 (to_tree r :: map to_tree ps)
  | Named n => GenNode 9 [GenLeaf (inr n)]
  | Unknown b => GenNode 10 [GenLeaf (inl b)]
  end.

Fixpoint of_tree (t : gen_tree (Z + string)) : DataType :=
  match t with
  | GenNode 1 [] => Bool
  | GenNode 2 [GenLeaf (inl b)] => Int b
  | GenNode 3 [GenLeaf (inl b)] => Uint b
  | GenNode 4 [] => Float
  | GenNode 5 [] => Double
  | GenNode 6 [t'] => Ptr (of_tree t')
  | GenNode 7 [t'; GenLeaf (inl n)] => Array (of_tree t') n
  | GenNode 8 (r :: ps) => FuncPtr (map of_tree ps) (of_tree r)
  | GenNode 9 [GenLeaf (inr n)] => Named n
  | GenNode 10 [GenLeaf (inl b)] => Unknown b
  | _ => Void
  end.

Lemma of_to_tree t : of_tree (to_tree t) = t.
Proof.
  induction t using DataType_nested_ind; simpl; try congruence.
  f_equal; [|done]. rewrite map_map.
  match goal with H : Forall _ _ |- _ => induction H; simpl; congruence end.
Qed.

#[global] Instance DataType_eq_dec : EqDecision DataType.
Proof.
  refine (λ t1 t2, cast_if (decide (to_tree t1 = to_tree t2))).
  - by rewrite <-(of_to_tree t1), <-(of_to_tree t2), e.
  - by intros ->.
Defined.
#[global] Instance DataType_countable : Countable DataType :=
  inj_countable' to_tree of_tree of_to_tree.

(** [DataType::size]: bytes, [bitness] being 32 or 64. *)
Fixpoint size (t : DataType) (bitness : Z) : Z :=
  match t with
  | Void => 0
  | Bool => 1
  | Int b | Uint b | Unknown b => b / 8
  | Float => 4
  | Double => 8
  | Ptr _ | FuncPtr _ _ => bitness / 8
  | Array elem count => size elem bitness *sat count
  | Named _ => 0
  end%Z.

Inductive CompositeKind := Struct | Union | Enum.

(** One field of a struct or union. *)
Record Field := mkField {
  fd_name : string;
  fd_ty : DataType;
  fd_offset : Z;
  fd_bit_offset : option Z
}.

Record EnumVariant := mkVariant { ev_name : string; ev_value : Z }.

Record CompositeType := mkComposite {
  ct_kind : CompositeKind;
  ct_name : string;
  ct_size : Z;
  ct_align : Z;
  ct_fields : list Field;
  ct_variants : list EnumVariant
}.

Record FunctionSignature := mkSig {
  sig_name : string;
  sig_params : list (string * DataType);
  sig_ret : DataType;
  sig_calling_conv : option string
}.

Record StackVariable := mkVar {
  sv_name : option string;
  sv_ty : DataType;
  sv_offset : Z;
  sv_size : Z
}.

Record StackFrame := mkFrame {
  fr_local_size : Z;
  fr_arg_size : Z;
  fr_return_addr_offset : Z;
  fr_locals : list StackVariable;
  fr_args : list StackVariable
}.

(** [StackFrame::default()] *)
Definition StackFrame_default : StackFrame := mkFrame 0 0 0 [] [].

#[global] Instance CompositeKind_eq_dec : EqDecision CompositeKind.
Proof. solve_decision. Defined.
#[global] Instance Field_eq_dec : EqDecision Field.
Proof. solve_decision. Defined.
#[global] Instance EnumVariant_eq_dec : EqDecision EnumVariant.
Proof. solve_decision. Defined.
#[global] Instance CompositeType_eq_dec : EqDecision CompositeType.
Proof. solve_decision. Defined.
#[global] Instance FunctionSignature_eq_dec : EqDecision FunctionSignature.
Proof. solve_decision. Defined.
#[global] Instance FunctionSignature_countable : Countable FunctionSignature.
Proof.
  refine (inj_countable' (λ s, (sig_name s, sig_params s, sig_ret s, sig_calling_conv s))
    (λ '(n, ps, r, c), mkSig n ps r c) _). by intros [].
Defined.
#[global] Instance StackVariable_eq_dec : EqDecision StackVariable.
Proof. solve_decision. Defined.
#[global] Instance StackFrame_eq_dec : EqDecision StackFrame.
Proof. solve_decision. Defined.

(** The project-wide type repository. *)
Record DataTypeManager := mkTypes {
  named : gmap string DataType;
  composites : gmap string CompositeType;
  signatures : gmap string FunctionSignature
}.

#[global] Instance DataTypeManager_eq_dec : EqDecision DataTypeManager.
Proof. solve_decision. Defined.

(** [DataTypeManager::add] *)
Definition add (name : string) (ty : DataType) (m : DataTypeManager) : DataTypeManager :=
  mkTypes (<[name := ty]> (named m)) (composites m) (signatures m).

(** The table [DataTypeManager::seed_primitives] inserts. *)
Definition primitives : list (string * DataType) :=
  [
    ("void", Void);
    ("bool", Bool);
    ("char", Int 8);
    ("unsigned char", Uint 8);
    ("short", Int 16);
    ("unsigned short", Uint 16);
    ("int", Int 32);
    ("unsigned int", Uint 32);
    ("long", Int 32);
    ("unsigned long", Uint 32);
    ("long long", Int 64);
    ("unsigned long long", Uint 64);
    ("int8", Int 8);
    ("uint8", Uint 8);
    ("int16", Int 16);
    ("uint16", Uint 16);
    ("int32", Int 32);
    ("uint32", Uint 32);
    ("int64", Int 64);
    ("uint64", Uint 64);
    ("float", Float);
    ("double", Double);
    ("size_t", Uint 64);
    ("ssize_t", Int 64);
    ("HRESULT", Int 32);
    ("BOOL", Int 32);
    ("DWORD", Uint 32);
    ("WORD", Uint 16);
    ("BYTE", Uint 8);
    ("QWORD", Uint 64);
    ("UINT", Uint 32);
    ("ULONG", Uint 32);
    ("LONG", Int 32);
    ("SHORT", Int 16);
    ("USHORT", Uint 16);
    ("SIZE_T", Uint 64);
    ("ULONGLONG", Uint 64);
    ("ULONG_PTR", Uint 64);
    ("LONG_PTR", Int 64);
    ("INT_PTR", Int 64);
    ("UINT_PTR", Uint 64);
    ("NTSTATUS", Int 32);
    ("LSTATUS", Int 32);
    ("ACCESS_MASK", Uint 32);
    ("BOOLEAN", Uint 8);
    ("ATOM", Uint 16);
    ("WPARAM", Uint 64);
    ("LPARAM", Int 64);
    ("LRESULT", Int 64);
    ("HANDLE", Ptr Void);
    ("HMODULE", Ptr Void);
    ("HINSTANCE", Ptr Void);
    ("HWND", Ptr Void);
    ("HDC", Ptr Void);
    ("HMENU", Ptr Void);
    ("HICON", Ptr Void);
    ("HCURSOR", Ptr Void);
    ("HBRUSH", Ptr Void);
    ("HKEY", Ptr Void);
    ("HLOCAL", Ptr Void);
    ("HGLOBAL", Ptr Void);
    ("SC_HANDLE", Ptr Void);
    ("FARPROC", Ptr Void);
    ("LPVOID", Ptr Void);
    ("PVOID", Ptr Void);
    ("LPCVOID", Ptr Void);
    ("LPCSTR", Ptr (Int 8));
    ("LPSTR", Ptr (Int 8));
    ("PCSTR", Ptr (Int 8));
    ("LPWSTR", Ptr (Uint 16));
    ("LPCWSTR", Ptr (Uint 16));
    ("PCWSTR", Ptr (Uint 16));
    ("PWSTR", Ptr (Uint 16));
    ("LPDWORD", Ptr (Uint 32));
    ("PDWORD", Ptr (Uint 32));
    ("PHANDLE", Ptr (Ptr Void));
    ("PBOOL", Ptr (Int 32));
    ("LPBOOL", Ptr (Int 32))
  ].

(** [DataTypeManager::seed_primitives] *)
Definition seed_primitives (m : DataTypeManager) : DataTypeManager :=
  foldl (λ m '(name, ty), add name ty m) m primitives.

(** [DataTypeManager::new] *)
Definition new : DataTypeManager := seed_primitives (mkTypes ∅ ∅ ∅).

(** [DataTypeManager::get] *)
Definition get (m : DataTypeManager) (name : string) : option DataType := named m !! name.

(** [DataTypeManager::resolve] *)
Fixpoint resolve (m : DataTypeManager) (t : DataType) : DataType :=
  match t with
  | Named n => default (Unknown 0) (named m !! n)
  | Ptr inner => Ptr (resolve m inner)
  | Array inner count => Array (resolve m inner) count
  | FuncPtr params return_type => FuncPtr (map (resolve m) params) (resolve m return_type)
  | other => other
  end.

(** [DataTypeManager::add_composite]: the composite is also a named type. *)
Definition add_composite (c : CompositeType) (m : DataTypeManager) : DataTypeManager :=
  let name := ct_name c in
  mkTypes (<[name := Named name]> (named m)) (<[name := c]> (composites m)) (signatures m).

(** [DataTypeManager::composite] *)
Definition composite (m : DataTypeManager) (name : string) : option CompositeType :=
  composites m !! name.

(** [DataTypeManager::add_signature] *)
Definition add_signature (s : FunctionSignature) (m : DataTypeManager) : DataTypeManager :=
  mkTypes (named m) (composites m) (<[sig_name s := s]> (signatures m)).

(** [DataTypeManager::signature] *)
Definition signature (m : DataTypeManager) (name : string) : option FunctionSignature :=
  signatures m !! name.

End Types.
Export Types (DataType, Void, Bool, Int, Uint, Float, Double, Ptr, Array, FuncPtr, Named,
  Unknown, FunctionSignature, mkSig, sig_name, sig_params, sig_ret, sig_calling_conv,
  StackVariable, mkVar, sv_name, sv_ty, sv_offset, sv_size,
  StackFrame, mkFrame, fr_local_size, fr_arg_size, fr_return_addr_offset, fr_locals, fr_args,
  StackFrame_default, DataTypeManager, DataType_eq_dec, DataType_countable,
  FunctionSignature_eq_dec, FunctionSignature_countable, StackVariable_eq_dec,
  StackFrame_eq_dec, DataTypeManager_eq_dec).

(** ** [symbols.rs] *)
Module Symbols.

Inductive SymbolKind := Import_ | Export_ | Function_ | Data_ | User.

Record Symbol := mkSymbol { sym_name : string; sym_kind : SymbolKind }.

#[global] Instance SymbolKind_eq_dec : EqDecision SymbolKind.
Proof. solve_decision. Defined.
#[global] Instance SymbolKind_countable : Countable SymbolKind.
Proof.
  refine (inj_countable'
    (λ k, match k with Import_ => 0 | Export_ => 1 | Function_ => 2 | Data_ => 3 | User => 4 end)
    (λ n, match n with 0 => Import_ | 1 => Export_ | 2 => Function_ | 3 => Data_ | _ => User end)
    _). by intros [].
Defined.
#[global] Instance Symbol_eq_dec : EqDecision Symbol.
Proof. solve_decision. Defined.

(** [SymbolTable::insert], [get], [name], [remove]; [by_addr] is the map. *)
Definition insert (addr : Z) (name : string) (kind : SymbolKind) (t : gmap Z Symbol)
    : gmap Z Symbol := <[addr := mkSymbol name kind]> t.
Definition get (t : gmap Z Symbol) (addr : Z) : option Symbol := t !! addr.
Definition name (t : gmap Z Symbol) (addr : Z) : option string := sym_name <$> get t addr.
Definition remove (addr : Z) (t : gmap Z Symbol) : gmap Z Symbol := delete addr t.

(** [SymbolTable::entries]: every symbol once, in the map's own order. *)
Definition entries (t : gmap Z Symbol) : list (Z * string * SymbolKind) :=
  (λ '(a, s), (a, sym_name s, sym_kind s)) <$> map_to_list t.

(** One rename in the alias lineage. *)
Record AliasEvent := mkAlias {
  al_va : Z;
  al_old_name : string;
  al_new_name : string;
  al_source : string;
  al_seq : Z
}.

#[global] Instance AliasEvent_eq_dec : EqDecision AliasEvent.
Proof. solve_decision. Defined.

End Symbols.
Export Symbols (SymbolKind, Import_, Export_, Function_, Data_, User, Symbol, mkSymbol, sym_name,
  sym_kind, AliasEvent, mkAlias, al_va, al_old_name, al_new_name, al_source, al_seq,
  SymbolKind_eq_dec, SymbolKind_countable, Symbol_eq_dec, AliasEvent_eq_dec).

(** ** [comments.rs] *)
Module CommentMap.

Inductive CommentScope := Address | Function.

#[global] Instance CommentScope_eq_dec : EqDecision CommentScope.
Proof. solve_decision. Defined.
#[global] Instance CommentScope_countable : Countable CommentScope.
Proof.
  refine (inj_countable' (λ k, match k with Address => true | Function => false end)
    (λ b : bool, if b then Address else Function) _). by intros [].
Defined.

Record CommentStore := mkComments {
  by_addr : gmap Z string;
  by_function : gmap Z string
}.

#[global] Instance CommentStore_eq_dec : EqDecision CommentStore.
Proof. solve_decision. Defined.

(** [CommentStore::get] *)
Definition get (c : CommentStore) (va : Z) (scope : CommentScope) : option string :=
  match scope with
  | Address => by_addr c !! va
  | Function => by_function c !! va
  end.

(** [CommentStore::set] *)
Definition set (va : Z) (scope : CommentScope) (text : string) (c : CommentStore)
    : CommentStore :=
  match scope with
  | Address => mkComments (<[va := text]> (by_addr c)) (by_function c)
  | Function => mkComments (by_addr c) (<[va := text]> (by_function c))
  end.

(** [CommentStore::remove] *)
Definition remove (va : Z) (scope : CommentScope) (c : CommentStore) : CommentStore :=
  match scope with
  | Address => mkComments (delete va (by_addr c)) (by_function c)
  | Function => mkComments (by_addr c) (delete va (by_function c))
  end.

(** [CommentStore::addr_entries], [CommentStore::function_entries] *)
Definition addr_entries (c : CommentStore) : list (Z * string) := map_to_list (by_addr c).
Definition function_entries (c : CommentStore) : list (Z * string) :=
  map_to_list (by_function c).

Lemma get_set c va scope text va' scope' :
  get (set va scope text c) va' scope' =
    if decide (va = va' ∧ scope = scope') then Some text else get c va' scope'.
Proof.
  destruct scope, scope'; simpl; rewrite ?lookup_insert; repeat case_decide; naive_solver.
Qed.

Lemma comments_eq c c' :
  (∀ va scope, get c va scope = get c' va scope) → c = c'.
Proof.
  destruct c as [a f], c' as [a' f']. intros H. f_equal; apply map_eq; intros va.
  - apply (H va Address).
  - apply (H va Function).
Qed.

Lemma set_id c va scope text : get c va scope = Some text → set va scope text c = c.
Proof.
  intros H. apply comments_eq. intros va' scope'. rewrite get_set.
  case_decide as E; [|done]. destruct E as [<- <-]. done.
Qed.
Lemma set_set c va scope t1 t2 : set va scope t2 (set va scope t1 c) = set va scope t2 c.
Proof. apply comments_eq. intros. rewrite !get_set. by case_decide. Qed.
Lemma remove_set c va scope text :
  get c va scope = None → remove va scope (set va scope text c) = c.
Proof.
  destruct c as [a f], scope; simpl; intros H; f_equal; by apply delete_insert_id.
Qed.

End CommentMap.
Export CommentMap (CommentScope, Address, CommentStore, mkComments, by_addr, by_function,
  CommentScope_eq_dec, CommentScope_countable, CommentStore_eq_dec).

(** ** [memory.rs] *)
Module Memory.

Record FunctionMemoryCard := mkCard {
  mc_va : Z;
  mc_purpose : option string;
  mc_tags : list string;
  mc_key_apis : list string;
  mc_key_strings : list string;
  mc_purity : option string;
  mc_confidence : Z;
  mc_updated_seq : Z
}.

#[global] Instance FunctionMemoryCard_eq_dec : EqDecision FunctionMemoryCard.
Proof. solve_decision. Defined.
#[global] Instance FunctionMemoryCard_countable : Countable FunctionMemoryCard.
Proof.
  refine (inj_countable'
    (λ c, (mc_va c, mc_purpose c, mc_tags c, mc_key_apis c, mc_key_strings c, mc_purity c,
           mc_confidence c, mc_updated_seq c))
    (λ '(a, b, c, d, e, f, g, h), mkCard a b c d e f g h) _). by intros [].
Defined.

(** [card.va = va; card.updated_seq = seq] *)
Definition stamp (va seq : Z) (c : FunctionMemoryCard) : FunctionMemoryCard :=
  mkCard va (mc_purpose c) (mc_tags c) (mc_key_apis c) (mc_key_strings c) (mc_purity c)
    (mc_confidence c) seq.

End Memory.
Export Memory (FunctionMemoryCard, mkCard, mc_va, mc_purpose, mc_tags, mc_key_apis,
  mc_key_strings, mc_purity, mc_confidence, mc_updated_seq, FunctionMemoryCard_eq_dec,
  FunctionMemoryCard_countable).

(** ** [src/analysis/functions.rs]: the function table and its CFG records *)
Module Functions.

Inductive EdgeKind :=
  | Fallthrough | Unconditional | Conditional | Call | TailCall | Indirect | Return.

Record Edge := mkEdge { eg_target : Z; eg_kind : EdgeKind }.

Record BasicBlock := mkBlock {
  bb_entry_va : Z;
  bb_exit_va : Z;
  bb_instr_count : nat;
  bb_successors : list Edge;
  bb_predecessors : list Edge
}.

Record Function := mkFunction {
  fn_id : Z;
  fn_entry_va : Z;
  fn_blocks : list BasicBlock;
  fn_outgoing : list Z;
  fn_stack_frame : option StackFrame;
  fn_signature : option FunctionSignature
}.

#[global] Instance EdgeKind_eq_dec : EqDecision EdgeKind.
Proof. solve_decision. Defined.
#[global] Instance Edge_eq_dec : EqDecision Edge.
Proof. solve_decision. Defined.
#[global] Instance BasicBlock_eq_dec : EqDecision BasicBlock.
Proof. solve_decision. Defined.
#[global] Instance Function_eq_dec : EqDecision Function.
Proof. solve_decision. Defined.

(** [FunctionTable::get]; [by_entry] is the map. *)
Definition get (t : gmap Z Function) (va : Z) : option Function := t !! va.

(** [FunctionTable::insert] *)
Definition insert (f : Function) (t : gmap Z Function) : gmap Z Function :=
  <[fn_entry_va f := f]> t.

Definition with_stack_frame (fr : StackFrame) (f : Function) : Function :=
  mkFunction (fn_id f) (fn_entry_va f) (fn_blocks f) (fn_outgoing f) (Some fr)
    (fn_signature f).

(** [FunctionTable::apply_frames] *)
Definition apply_frames (frames : gmap Z StackFrame) (t : gmap Z Function) : gmap Z Function :=
  (λ f, match frames !! fn_entry_va f with
        | Some frame => with_stack_frame frame f
        | None => f
        end) <$> t.

Lemma apply_frames_dom frames t : dom (apply_frames frames t) =@{gset Z} dom t.
Proof. unfold apply_frames. by rewrite dom_fmap_L. Qed.

End Functions.
