(* ===== verification/Ops.v ===== *)
(** The serializable, undo-friendly project operations of
    [src/project/op.rs], over the part of [Project] (src/project/mod.rs) that
    operations, persistence and the writer task touch.

    [capture_and_apply] is the whole handler: it returns the operation with its
    captured old values together with the mutated project. *)

From S2P Require Import Prelude Data.

(** ** The project state *)

(** The mutable fields of [Project]. [functions] is [analysis.functions];
    [ssa_cache] is the set of function addresses with a cached optimized SSA
    (the cached values are never read by an operation, only dropped). *)
Record Project := mkProject {
  pe_path : string;
  image_sha256 : string;
  functions : gmap Z Functions.Function;
  symbols : gmap Z Symbol;
  comments : CommentStore;
  types : DataTypeManager;
  function_frames : gmap Z StackFrame;
  typed_globals : gmap Z DataType;
  function_signatures : gmap Z FunctionSignature;
  focus : option Z;
  op_seq : Z;
  function_memory : gmap Z FunctionMemoryCard;
  alias_history : list AliasEvent;
  ssa_cache : gset Z
}.

Definition with_symbols (f : gmap Z Symbol → gmap Z Symbol) (p : Project) : Project :=
  mkProject (pe_path p) (image_sha256 p) (functions p) (f (symbols p)) (comments p) (types p)
    (function_frames p) (typed_globals p) (function_signatures p) (focus p) (op_seq p)
    (function_memory p) (alias_history p) (ssa_cache p).
Definition with_comments (f : CommentStore → CommentStore) (p : Project) : Project :=
  mkProject (pe_path p) (image_sha256 p) (functions p) (symbols p) (f (comments p)) (types p)
    (function_frames p) (typed_globals p) (function_signatures p) (focus p) (op_seq p)
    (function_memory p) (alias_history p) (ssa_cache p).
Definition with_frames (f : gmap Z StackFrame → gmap Z StackFrame) (p : Project) : Project :=
  mkProject (pe_path p) (image_sha256 p) (functions p) (symbols p) (comments p) (types p)
    (f (function_frames p)) (typed_globals p) (function_signatures p) (focus p) (op_seq p)
    (function_memory p) (alias_history p) (ssa_cache p).
Definition with_globals (f : gmap Z DataType → gmap Z DataType) (p : Project) : Project :=
  mkProject (pe_path p) (image_sha256 p) (functions p) (symbols p) (comments p) (types p)
    (function_frames p) (f (typed_globals p)) (function_signatures p) (focus p) (op_seq p)
    (function_memory p) (alias_history p) (ssa_cache p).
Definition with_sigs (f : gmap Z FunctionSignature → gmap Z FunctionSignature) (p : Project)
    : Project :=
  mkProject (pe_path p) (image_sha256 p) (functions p) (symbols p) (comments p) (types p)
    (function_frames p) (typed_globals p) (f (function_signatures p)) (focus p) (op_seq p)
    (function_memory p) (alias_history p) (ssa_cache p).
Definition with_focus (f : option Z → option Z) (p : Project) : Project :=
  mkProject (pe_path p) (image_sha256 p) (functions p) (symbols p) (comments p) (types p)
    (function_frames p) (typed_globals p) (function_signatures p) (f (focus p)) (op_seq p)
    (function_memory p) (alias_history p) (ssa_cache p).
Definition with_op_seq (f : Z → Z) (p : Project) : Project :=
  mkProject (pe_path p) (image_sha256 p) (functions p) (symbols p) (comments p) (types p)
    (function_frames p) (typed_globals p) (function_signatures p) (focus p) (f (op_seq p))
    (function_memory p) (alias_history p) (ssa_cache p).
Definition with_memory (f : gmap Z FunctionMemoryCard → gmap Z FunctionMemoryCard)
    (p : Project) : Project :=
  mkProject (pe_path p) (image_sha256 p) (functions p) (symbols p) (comments p) (types p)
    (function_frames p) (typed_globals p) (function_signatures p) (focus p) (op_seq p)
    (f (function_memory p)) (alias_history p) (ssa_cache p).
Definition with_aliases (f : list AliasEvent → list AliasEvent) (p : Project) : Project :=
  mkProject (pe_path p) (image_sha256 p) (functions p) (symbols p) (comments p) (types p)
    (function_frames p) (typed_globals p) (function_signatures p) (focus p) (op_seq p)
    (function_memory p) (f (alias_history p)) (ssa_cache p).

(** [Project::function_at] *)
Definition function_at (p : Project) (va : Z) : option Functions.Function :=
  Functions.get (functions p) va.

(** [Project::invalidate_ssa_cache] *)
Definition invalidate_ssa_cache (va : option Z) (p : Project) : Project :=
  mkProject (pe_path p) (image_sha256 p) (functions p) (symbols p) (comments p) (types p)
    (function_frames p) (typed_globals p) (function_signatures p) (focus p) (op_seq p)
    (function_memory p) (alias_history p)
    (match va with Some v => ssa_cache p ∖ {[v]} | None => ∅ end).

(** ** Operations *)

Inductive Op : Type :=
  | RenameSymbol (va : Z) (name : string) (kind : SymbolKind)
      (old_name : option string) (old_kind : option SymbolKind)
  | SetComment (va : Z) (scope : CommentScope) (text : string) (old_text : option string)
  | SetFocus (va : Z) (old_focus : option Z)
  | SetGlobalType (va : Z) (ty : DataType) (old_ty : option DataType)
  | SetFunctionSignature (va : Z) (signature : FunctionSignature)
      (old_signature : option FunctionSignature)
  | SetStackLocalType (function_va offset : Z) (ty : DataType) (old_ty : option DataType)
  | SetStackLocalName (function_va offset : Z) (name : string)
      (old_name : option (option string))
  | SetParamName (function_va : Z) (index : nat) (name : string) (old_name : option string)
  | SetFunctionMemory (va : Z) (card : FunctionMemoryCard)
      (old : option (option FunctionMemoryCard))
  | Batch (ops : list Op).

(** Induction over an operation with a hypothesis for every child of a batch. *)
Lemma Op_nested_ind (P : Op → Prop) :
  (∀ va n k on ok, P (RenameSymbol va n k on ok)) →
  (∀ va s t o, P (SetComment va s t o)) →
  (∀ va o, P (SetFocus va o)) →
  (∀ va t o, P (SetGlobalType va t o)) →
  (∀ va s o, P (SetFunctionSignature va s o)) →
  (∀ f off t o, P (SetStackLocalType f off t o)) →
  (∀ f off n o, P (SetStackLocalName f off n o)) →
  (∀ f i n o, P (SetParamName f i n o)) →
  (∀ va c o, P (SetFunctionMemory va c o)) →
  (∀ ops, Forall P ops → P (Batch ops)) →
  ∀ op, P op.
Proof.
  intros H1 H2 H3 H4 H5 H6 H7 H8 H9 HB.
  fix go 1. intros [].
  1-9: clear go; auto.
  apply HB. induction ops as [|op ops IH]; constructor; [apply go|exact IH].
Qed.

(** *** Stack-frame slots *)

Definition at_offset (offset : Z) (v : StackVariable) : bool := (sv_offset v =? offset)%Z.

Definition set_sv_ty (ty : DataType) (v : StackVariable) : StackVariable :=
  mkVar (sv_name v) ty (sv_offset v) (sv_size v).
Definition set_sv_name (name : option string) (v : StackVariable) : StackVariable :=
  mkVar name (sv_ty v) (sv_offset v) (sv_size v).

(** The variable a new slot starts from. *)
Definition fresh_slot (offset : Z) : StackVariable := mkVar None (Unknown 0) offset 0.

(** The list that [upsert_stack_var] updates, after the update. *)
Definition upsert_list (offset : Z) (mutate : StackVariable → StackVariable)
    (l : list StackVariable) : list StackVariable :=
  match update_first (at_offset offset) mutate l with
  | Some l' => l'
  | None => sort_by_key sv_offset (l ++ [mutate (fresh_slot offset)])
  end.

(** [upsert_stack_var]: arguments live above the return address (positive
    offsets), locals below. *)
Definition upsert_stack_var (offset : Z) (mutate : StackVariable → StackVariable)
    (frame : StackFrame) : StackFrame :=
  if (0 <? offset)%Z then
    mkFrame (fr_local_size frame) (fr_arg_size frame) (fr_return_addr_offset frame)
      (fr_locals frame) (upsert_list offset mutate (fr_args frame))
  else
    mkFrame (fr_local_size frame) (fr_arg_size frame) (fr_return_addr_offset frame)
      (upsert_list offset mutate (fr_locals frame)) (fr_args frame).

(** [frame.locals.iter().chain(&frame.args).find(|v| v.offset == offset)] *)
Definition find_slot (offset : Z) (frame : StackFrame) : option StackVariable :=
  find_first (at_offset offset) (fr_locals frame ++ fr_args frame).

(** [function_frames.entry(va).or_default()] *)
Definition frame_of (p : Project) (va : Z) : StackFrame :=
  default StackFrame_default (function_frames p !! va).

(** *** Parameters *)

(** [format!("arg{i}")] *)
Definition arg_name (i : nat) : string := "arg" +:+ pretty.pretty i.

(** [while params.len() <= index { params.push(("arg{i}", Unknown(0))) }] *)
Fixpoint extend_params (fuel : nat) (index : nat) (params : list (string * DataType))
    : list (string * DataType) :=
  match fuel with
  | 0 => params
  | S fuel' =>
      if decide (length params ≤ index) then
        extend_params fuel' index (params ++ [(arg_name (length params), Unknown 0)])
      else params
  end.

(** Every round adds one parameter, so [S index] rounds reach the bound. *)
Definition ensure_param (index : nat) (params : list (string * DataType)) :=
  extend_params (S index) index params.

(** The signature [SetParamName] creates for a function without one. *)
Definition placeholder_signature (p : Project) (function_va : Z) : FunctionSignature :=
  mkSig (default "sub" (Symbols.name (symbols p) function_va)) [] (Unknown 0) None.

(** [sigs.entry(va).or_insert_with(..)], with the parameter list extended. *)
Definition signature_for_param (p : Project) (function_va : Z) (index : nat)
    : FunctionSignature :=
  let sig := default (placeholder_signature p function_va)
               (function_signatures p !! function_va) in
  mkSig (sig_name sig) (ensure_param index (sig_params sig)) (sig_ret sig)
    (sig_calling_conv sig).

Definition rename_param (index : nat) (name : string) (sig : FunctionSignature)
    : FunctionSignature :=
  mkSig (sig_name sig) (alter (λ '(_, ty), (name, ty)) index (sig_params sig)) (sig_ret sig)
    (sig_calling_conv sig).

(** *** Memory cards *)

(** The clear sentinel: [tags == ["__clear__"] && purpose.is_none()]. *)
Definition is_clear (card : FunctionMemoryCard) : bool :=
  bool_decide (mc_tags card = ["__clear__"%string] ∧ mc_purpose card = None).

(** The card [inverse] builds for "there was no card before". *)
Definition clear_card (va : Z) : FunctionMemoryCard :=
  mkCard va None ["__clear__"%string] [] [] None 0 0.

(** *** [Op::capture_and_apply] *)

(** [if old.is_none() { old = current }] *)
Definition capture {A} (old current : option A) : option A :=
  match old with None => current | Some _ => old end.

Fixpoint capture_and_apply (op : Op) (p : Project) : Op * Project :=
  match op with
  | RenameSymbol va name kind old_name old_kind =>
      let '(old_name, old_kind) :=
        match old_name with
        | None => (Symbols.name (symbols p) va, sym_kind <$> Symbols.get (symbols p) va)
        | Some _ => (old_name, old_kind)
        end in
      let p := match old_name with
               | Some prev =>
                   with_aliases (λ h, h ++ [mkAlias va prev name "user" (op_seq p +sat 1)]) p
               | None => p
               end in
      (RenameSymbol va name kind old_name old_kind,
       with_symbols (Symbols.insert va name kind) p)
  | SetComment va scope text old_text =>
      (SetComment va scope text (capture old_text (CommentMap.get (comments p) va scope)),
       with_comments (CommentMap.set va scope text) p)
  | SetFocus va old_focus =>
      (SetFocus va (capture old_focus (focus p)),
       match function_at p va with
       | Some _ => with_focus (λ _, Some va) p
       | None => p
       end)
  | SetGlobalType va ty old_ty =>
      (SetGlobalType va ty (capture old_ty (typed_globals p !! va)),
       with_globals <[va := ty]> p)
  | SetFunctionSignature va signature old_signature =>
      (SetFunctionSignature va signature
         (capture old_signature (function_signatures p !! va)),
       invalidate_ssa_cache (Some va) (with_sigs <[va := signature]> p))
  | SetStackLocalType function_va offset ty old_ty =>
      let frame := frame_of p function_va in
      (SetStackLocalType function_va offset ty
         (capture old_ty (sv_ty <$> find_slot offset frame)),
       invalidate_ssa_cache (Some function_va)
         (with_frames <[function_va := upsert_stack_var offset (set_sv_ty ty) frame]> p))
  | SetStackLocalName function_va offset name old_name =>
      let frame := frame_of p function_va in
      let new_name := if decide (name = ""%string) then None else Some name in
      (SetStackLocalName function_va offset name
         (capture old_name (Some (find_slot offset frame ≫= sv_name))),
       invalidate_ssa_cache (Some function_va)
         (with_frames <[function_va := upsert_stack_var offset (set_sv_name new_name) frame]> p))
  | SetParamName function_va index name old_name =>
      let sig := signature_for_param p function_va index in
      (SetParamName function_va index name
         (capture old_name (fst <$> sig_params sig !! index)),
       with_sigs <[function_va := rename_param index name sig]> p)
  | SetFunctionMemory va card old =>
      (SetFunctionMemory va card (capture old (Some (function_memory p !! va))),
       if is_clear card then with_memory (delete va) p
       else with_memory <[va := Memory.stamp va (op_seq p +sat 1) card]> p)
  | Batch ops =>
      let '(ops, p) :=
        (fix go (ops : list Op) (p : Project) : list Op * Project :=
           match ops with
           | [] => ([], p)
           | child :: ops =>
               let '(child, p) := capture_and_apply child p in
               let '(ops, p) := go ops p in
               (child :: ops, p)
           end) ops p in
      (Batch ops, p)
  end.

(** The loop of the [Batch] case, and of any sequence of operations. *)
Fixpoint apply_all (ops : list Op) (p : Project) : list Op * Project :=
  match ops with
  | [] => ([], p)
  | child :: ops =>
      let '(child, p) := capture_and_apply child p in
      let '(ops, p) := apply_all ops p in
      (child :: ops, p)
  end.

(** [Op::apply_to] *)
Definition apply_to (op : Op) (p : Project) : Op * Project := capture_and_apply op p.

(** The state component of an operation. *)
Definition exec (op : Op) (p : Project) : Project := snd (capture_and_apply op p).

(** *** [Op::inverse] *)
Fixpoint inverse (op : Op) : option Op :=
  match op with
  | RenameSymbol va name kind old_name old_kind =>
      Some (RenameSymbol va (default "" old_name) (default kind old_kind)
              (Some name) (Some kind))
  | SetComment va scope text old_text =>
      Some (SetComment va scope (default "" old_text) (Some text))
  | SetFocus va old_focus => Some (SetFocus (default va old_focus) (Some va))
  | SetGlobalType va ty old_ty =>
      Some (SetGlobalType va (default (Unknown 0) old_ty) (Some ty))
  | SetFunctionSignature va signature old_signature =>
      Some (SetFunctionSignature va (default (mkSig "" [] Void None) old_signature)
              (Some signature))
  | SetStackLocalType function_va offset ty old_ty =>
      Some (SetStackLocalType function_va offset (default (Unknown 0) old_ty) (Some ty))
  | SetStackLocalName function_va offset name old_name =>
      Some (SetStackLocalName function_va offset (default "" (default None old_name))
              (Some (Some name)))
  | SetParamName function_va index name old_name =>
      Some (SetParamName function_va index (default "" old_name) (Some name))
  | SetFunctionMemory va card old =>
      match default None old with
      | Some prev_card => Some (SetFunctionMemory va prev_card (Some (Some card)))
      | None => Some (SetFunctionMemory va (clear_card va) (Some (Some card)))
      end
  | Batch ops =>
      (* [ops.iter().rev().filter_map(Op::inverse)] *)
      let inverse_ops :=
        (fix go (ops : list Op) : list Op :=
           match ops with
           | [] => []
           | child :: ops => go ops ++ option_list (inverse child)
           end) ops in
      match inverse_ops with
      | [] => None
      | _ => Some (Batch inverse_ops)
      end
  end.

(** *** Equations of the nested recursions *)

Lemma capture_and_apply_batch ops p :
  capture_and_apply (Batch ops) p = let '(ops', p') := apply_all ops p in (Batch ops', p').
Proof.
  simpl. enough (∀ p,
    (fix go (ops : list Op) (p : Project) : list Op * Project :=
       match ops with
       | [] => ([], p)
       | child :: ops =>
           let '(child, p) := capture_and_apply child p in
           let '(ops, p) := go ops p in
           (child :: ops, p)
       end) ops p = apply_all ops p) as ->; [done|].
  induction ops as [|op ops IH]; simpl; intros q; [done|].
  destruct (capture_and_apply op q) as [op' q']. by rewrite IH.
Qed.

(** The compensating operations of a batch, last child first. *)
Fixpoint inverse_all (ops : list Op) : list Op :=
  match ops with
  | [] => []
  | child :: ops => inverse_all ops ++ option_list (inverse child)
  end.

Lemma inverse_batch ops :
  inverse (Batch ops) =
    match inverse_all ops with [] => None | _ => Some (Batch (inverse_all ops)) end.
Proof.
  simpl. enough (
    (fix go (ops : list Op) : list Op :=
       match ops with
       | [] => []
       | child :: ops => go ops ++ option_list (inverse child)
       end) ops = inverse_all ops) as ->; [done|].
  induction ops as [|op ops IH]; simpl; [done|]. by rewrite IH.
Qed.

Lemma inverse_all_omap ops : inverse_all ops = omap inverse (reverse ops).
Proof.
  induction ops as [|op ops IH]; simpl; [done|].
  rewrite reverse_cons, omap_app, IH. simpl. by destruct (inverse op).
Qed.

Lemma apply_all_app ops1 ops2 p :
  apply_all (ops1 ++ ops2) p =
    let '(r1, p1) := apply_all ops1 p in
    let '(r2, p2) := apply_all ops2 p1 in
    (r1 ++ r2, p2).
Proof.
  revert p. induction ops1 as [|op ops1 IH]; intros p; simpl.
  { by destruct (apply_all ops2 p). }
  destruct (capture_and_apply op p) as [op' p1]. rewrite IH.
  destruct (apply_all ops1 p1) as [r1 p2]. by destruct (apply_all ops2 p2).
Qed.

(** ** Decidable equality and countability of operations

    A batch is a node, every other operation a leaf carrying its fields. *)

Definition op_atom : Type :=
  (Z * string * SymbolKind * option string * option SymbolKind)
  + (Z * CommentScope * string * option string)
  + (Z * option Z)
  + (Z * DataType * option DataType)
  + (Z * FunctionSignature * option FunctionSignature)
  + (Z * Z * DataType * option DataType)
  + (Z * Z * string * option (option string))
  + (Z * nat * string * option string)
  + (Z * FunctionMemoryCard * option (option FunctionMemoryCard)).

Fixpoint op_to_tree (op : Op) : gen_tree op_atom :=
  match op with
  | RenameSymbol a b c d e => GenLeaf (inl (inl (inl (inl (inl (inl (inl (inl (a, b, c, d, e)))))))))
  | SetComment a b c d => GenLeaf (inl (inl (inl (inl (inl (inl (inl (inr (a, b, c, d)))))))))
  | SetFocus a b => GenLeaf (inl (inl (inl (inl (inl (inl (inr (a, b))))))))
  | SetGlobalType a b c => GenLeaf (inl (inl (inl (inl (inl (inr (a, b, c)))))))
  | SetFunctionSignature a b c => GenLeaf (inl (inl (inl (inl (inr (a, b, c))))))
  | SetStackLocalType a b c d => GenLeaf (inl (inl (inl (inr (a, b, c, d)))))
  | SetStackLocalName a b c d => GenLeaf (inl (inl (inr (a, b, c, d))))
  | SetParamName a b c d => GenLeaf (inl (inr (a, b, c, d)))
  | SetFunctionMemory a b c => GenLeaf (inr (a, b, c))
  | Batch ops => GenNode 0 (map op_to_tree ops)
  end.

Fixpoint op_of_tree (t : gen_tree op_atom) : Op :=
  match t with
  | GenLeaf (inl (inl (inl (inl (inl (inl (inl (inl (a, b, c, d, e))))))))) => RenameSymbol a b c d e
  | GenLeaf (inl (inl (inl (inl (inl (inl (inl (inr (a, b, c, d))))))))) => SetComment a b c d
  | GenLeaf (inl (inl (inl (inl (inl (inl (inr (a, b)))))))) => SetFocus a b
  | GenLeaf (inl (inl (inl (inl (inl (inr (a, b, c))))))) => SetGlobalType a b c
  | GenLeaf (inl (inl (inl (inl (inr (a, b, c)))))) => SetFunctionSignature a b c
  | GenLeaf (inl (inl (inl (inr (a, b, c, d))))) => SetStackLocalType a b c d
  | GenLeaf (inl (inl (inr (a, b, c, d)))) => SetStackLocalName a b c d
  | GenLeaf (inl (inr (a, b, c, d))) => SetParamName a b c d
  | GenLeaf (inr (a, b, c)) => SetFunctionMemory a b c
  | GenNode _ ts => Batch (map op_of_tree ts)
  end.

Lemma op_of_to_tree op : op_of_tree (op_to_tree op) = op.
Proof.
  induction op as [| | | | | | | | |ops IH] using Op_nested_ind; try done.
  simpl. f_equal. rewrite map_map. induction IH as [|op ops Hop _ IH]; simpl; congruence.
Qed.

#[export] Instance Op_eq_dec : EqDecision Op.
Proof.
  refine (λ o1 o2, cast_if (decide (op_to_tree o1 = op_to_tree o2))).
  - by rewrite <-(op_of_to_tree o1), <-(op_of_to_tree o2), e.
  - by intros ->.
Defined.
#[export] Instance Op_countable : Countable Op := inj_countable' op_to_tree op_of_tree op_of_to_tree.
