(* ===== verification/OpsFacts.v ===== *)
(** What [src/project/op.rs] promises: captured operations replay exactly,
    every operation preserves the well-formedness of frames and memory cards,
    the compensating operation restores the state, and re-application restores
    the undone edit.

    States are compared up to [≈], which ignores what an undo cannot and does
    not try to restore: the rename lineage, the operation counter, the sequence
    stamps of memory cards, and the contents of the SSA cache.

    Operations on different entities commute, so undoing a client's operation
    restores the state also when other clients have edited other entities in
    between. The entities an operation reads or writes are its [footprint]; an
    operation is first reduced to its plain effect [eff], which leaves out the
    lineage, the stamps and the SSA cache that [≈] ignores. *)

From S2P Require Import Prelude Data Ops.

(** ** The equivalence of project states *)

(** A memory card without its sequence stamp. *)
Definition unstamp (c : FunctionMemoryCard) : FunctionMemoryCard := Memory.stamp (mc_va c) 0 c.
(** A lineage event without its sequence stamp. *)
Definition unseq (e : AliasEvent) : AliasEvent :=
  mkAlias (al_va e) (al_old_name e) (al_new_name e) (al_source e) 0.

Record proj_equiv (p q : Project) : Prop := {
  eq_functions : dom (functions p) =@{gset Z} dom (functions q);
  eq_symbols : symbols p = symbols q;
  eq_comments : comments p = comments q;
  eq_types : types p = types q;
  eq_frames : function_frames p = function_frames q;
  eq_globals : typed_globals p = typed_globals q;
  eq_sigs : function_signatures p = function_signatures q;
  eq_focus : focus p = focus q;
  eq_memory : unstamp <$> function_memory p = unstamp <$> function_memory q
}.
Infix "≈" := proj_equiv (at level 70, no associativity) : windy_scope.

(** The finer comparison of a live state with its replay: the lineage agrees
    too, up to its stamps. *)
Definition replay_equiv (p q : Project) : Prop :=
  p ≈ q ∧ unseq <$> alias_history p = unseq <$> alias_history q.
Infix "≃" := replay_equiv (at level 70, no associativity) : windy_scope.

#[export] Instance proj_equiv_equivalence : Equivalence proj_equiv.
Proof.
  split.
  - intros p. by constructor.
  - intros p q []. by constructor.
  - intros p q r [] []. constructor; congruence.
Qed.
#[export] Instance replay_equiv_equivalence : Equivalence replay_equiv.
Proof.
  split.
  - intros p. by split.
  - intros p q []. split; by symmetry.
  - intros p q r [] []. split; [by transitivity q|congruence].
Qed.
#[export] Instance replay_proj_subrelation : subrelation replay_equiv proj_equiv.
Proof. by intros p q []. Qed.

Lemma function_at_equiv p q va :
  p ≈ q → is_Some (function_at p va) ↔ is_Some (function_at q va).
Proof.
  intros E. unfold function_at, Functions.get.
  rewrite <-!elem_of_dom, (eq_functions _ _ E). done.
Qed.

(** Two equivalent states, taken apart and identified wherever they agree. *)
Ltac unify_states p q E :=
  destruct p, q, E; simpl in *; subst.

Lemma unstamp_stamp va s c : unstamp (Memory.stamp va s c) = Memory.stamp va 0 c.
Proof. done. Qed.

(** ** Executing a list of operations *)

Definition execs (ops : list Op) (p : Project) : Project := snd (apply_all ops p).

Lemma execs_cons op ops p : execs (op :: ops) p = execs ops (exec op p).
Proof.
  unfold execs, exec. simpl. destruct (capture_and_apply op p) as [op' p'].
  simpl. by destruct (apply_all ops p').
Qed.
Lemma execs_app ops1 ops2 p : execs (ops1 ++ ops2) p = execs ops2 (execs ops1 p).
Proof.
  revert p. induction ops1 as [|op ops1 IH]; intros p; [done|].
  by rewrite <-app_comm_cons, !execs_cons, IH.
Qed.
Lemma exec_batch ops p : exec (Batch ops) p = execs ops p.
Proof.
  unfold exec, execs. rewrite capture_and_apply_batch. by destruct (apply_all ops p).
Qed.

(** A property of states that every operation keeps is kept by every list of
    operations, and by a batch. *)
Lemma execs_ind_rel (R : Project → Project → Prop) ops :
  Forall (λ op, ∀ p q, R p q → R (exec op p) (exec op q)) ops →
  ∀ p q, R p q → R (execs ops p) (execs ops q).
Proof.
  induction 1 as [|op ops Hop Hops IH]; intros p q H; [done|].
  rewrite !execs_cons. auto.
Qed.

Ltac exec_cases op :=
  destruct op; unfold exec; simpl; try (rewrite capture_and_apply_batch).

(** ** Operations respect the equivalence *)

(** One non-batch operation on two equivalent states, whose fields have been
    identified: only the function table and the stamped fields still differ. *)
Ltac equiv_step :=
  unfold exec, function_at in *; simpl in *;
  first [ by constructor | split; [by constructor|done] ].

Lemma exec_respects op :
  (∀ p q, p ≈ q → exec op p ≈ exec op q) ∧ (∀ p q, p ≃ q → exec op p ≃ exec op q).
Proof.
  induction op as [va n k on ok| |va o| | | | | |va c o|ops IH] using Op_nested_ind.
  10: {
    apply Forall_and in IH as [IH1 IH2].
    split; intros p q E; rewrite !exec_batch; by eapply execs_ind_rel. }
  all: split; intros p q; [intros E|intros [E A]];
    pose proof (λ va, function_at_equiv p q va E) as F; unify_states p q E;
    try equiv_step.
  1,2: destruct on as [prev|]; [|unfold exec; simpl; destruct (Symbols.name _ _)].
  1-3: equiv_step.
  1-3: split; [by constructor|simpl in *; rewrite ?fmap_app, ?A; done].
  1,2: specialize (F va); unfold exec; simpl; unfold function_at in *; simpl in *;
    destruct (Functions.get _ va), (Functions.get _ va); try equiv_step;
    destruct F as [F1 F2];
    first [by destruct (F1 (mk_is_Some _ _ eq_refl))|by destruct (F2 (mk_is_Some _ _ eq_refl))].
  all: unfold exec; simpl; destruct (is_clear c); try (split; [|done]); constructor; simpl;
    try done; rewrite ?fmap_delete, ?fmap_insert, ?unstamp_stamp; congruence.
Qed.

#[export] Instance exec_proper_equiv op : Proper (proj_equiv ==> proj_equiv) (exec op).
Proof. intros p q. apply exec_respects. Qed.
#[export] Instance exec_proper_replay op : Proper (replay_equiv ==> replay_equiv) (exec op).
Proof. intros p q. apply exec_respects. Qed.
#[export] Instance execs_proper_equiv ops : Proper (proj_equiv ==> proj_equiv) (execs ops).
Proof. intros p q. apply execs_ind_rel, Forall_true. intros op. apply exec_respects. Qed.
#[export] Instance execs_proper_replay ops : Proper (replay_equiv ==> replay_equiv) (execs ops).
Proof. intros p q. apply execs_ind_rel, Forall_true. intros op. apply exec_respects. Qed.

(** ** Captured operations replay exactly *)

Lemma capture_capture {A} (old cur : option A) :
  capture (capture old cur) cur = capture old cur.
Proof. by destruct old, cur. Qed.

(** Re-applying a captured operation to the state it was captured in changes
    neither the record nor the result. *)
Lemma capture_idempotent op p op' p' :
  capture_and_apply op p = (op', p') → capture_and_apply op' p = (op', p').
Proof.
  revert p op' p'. induction op as [va n k on ok| | | | | | | |va c o|ops IH] using Op_nested_ind;
    intros p op' p' H.
  10: {
    rewrite capture_and_apply_batch in H. destruct (apply_all ops p) as [r q] eqn:E.
    simplify_eq. rewrite capture_and_apply_batch.
    enough (apply_all r p = (r, p')) as ->; [done|].
    revert p r p' E. induction IH as [|op ops Hop Hops IH]; intros p r p' E; simplify_eq/=.
    { done. }
    destruct (capture_and_apply op p) as [op1 p1] eqn:E1.
    destruct (apply_all ops p1) as [r1 p2] eqn:E2. simplify_eq/=.
    by rewrite (Hop _ _ _ E1), (IH _ _ _ E2). }
  all: simpl in H; simplify_eq; simpl.
  { destruct on as [prev|]; simplify_eq/=; [done|]. by destruct (Symbols.name (symbols p) va). }
  all: by rewrite capture_capture.
Qed.

(** ** The invariant of frames and memory cards *)

Record wf_frame (fr : StackFrame) : Prop := {
  wf_locals_distinct : NoDup (sv_offset <$> fr_locals fr);
  wf_args_distinct : NoDup (sv_offset <$> fr_args fr);
  wf_locals_sign : Forall (λ v, sv_offset v ≤ 0)%Z (fr_locals fr);
  wf_args_sign : Forall (λ v, 0 < sv_offset v)%Z (fr_args fr)
}.

(** Frames the operations made have their slots in order as well. *)
Definition sorted_frame (fr : StackFrame) : Prop :=
  StronglySorted (key_lt sv_offset) (fr_locals fr) ∧ StronglySorted (key_lt sv_offset) (fr_args fr).

Definition wf_card (va : Z) (c : FunctionMemoryCard) : Prop :=
  mc_va c = va ∧ is_clear c = false.

Record wf_project (p : Project) : Prop := {
  wf_frames : ∀ va fr, function_frames p !! va = Some fr → wf_frame fr;
  wf_memory : ∀ va c, function_memory p !! va = Some c → wf_card va c
}.

Lemma wf_frame_default : wf_frame StackFrame_default.
Proof. split; simpl; by constructor. Qed.
Lemma wf_frame_of p va : wf_project p → wf_frame (frame_of p va).
Proof.
  intros [Hf _]. unfold frame_of.
  destruct (function_frames p !! va) eqn:E; [by apply (Hf va)|apply wf_frame_default].
Qed.
#[export] Hint Resolve wf_frame_default wf_frame_of : windy.

(** A mutation of a slot that keeps its offset. *)
Definition keeps_offset (f : StackVariable → StackVariable) : Prop :=
  ∀ v, sv_offset (f v) = sv_offset v.
Lemma set_sv_ty_offset ty : keeps_offset (set_sv_ty ty).
Proof. done. Qed.
Lemma set_sv_name_offset n : keeps_offset (set_sv_name n).
Proof. done. Qed.
#[export] Hint Resolve set_sv_ty_offset set_sv_name_offset : windy.

Lemma upsert_list_distinct off f l :
  keeps_offset f → NoDup (sv_offset <$> l) → NoDup (sv_offset <$> upsert_list off f l).
Proof.
  intros Hf Hl. unfold upsert_list. destruct (update_first _ _ _) as [l'|] eqn:E.
  - by rewrite (update_first_map sv_offset _ _ _ _ Hf E).
  - rewrite sort_by_key_perm, fmap_app. simpl.
    apply NoDup_app. split; [done|]. split; [|apply NoDup_singleton].
    rewrite update_first_None, find_first_None in E.
    intros o (v & -> & Hv)%list_elem_of_fmap Hoff%list_elem_of_singleton.
    specialize (E v Hv). rewrite Hf in Hoff. unfold at_offset in E. simpl in Hoff. lia.
Qed.

Lemma upsert_list_sorted off f l :
  keeps_offset f →
  StronglySorted (key_lt sv_offset) l → StronglySorted (key_lt sv_offset) (upsert_list off f l).
Proof.
  intros Hf Hl. pose proof (upsert_list_distinct off f l Hf (strict_NoDup _ _ Hl)) as ND.
  unfold upsert_list in *. destruct (update_first _ _ _) as [l'|] eqn:E.
  - eapply sorted_by_keys; [|exact Hl]. symmetry. by eapply update_first_map in E.
  - by apply sorted_strict; [apply sort_by_key_sorted|].
Qed.

Lemma upsert_list_Forall (P : StackVariable → Prop) off f l :
  (∀ v, P v → P (f v)) → P (f (fresh_slot off)) → Forall P l → Forall P (upsert_list off f l).
Proof.
  intros Hf H0 Hl. unfold upsert_list. destruct (update_first _ _ _) as [l'|] eqn:E.
  - by eapply update_first_Forall.
  - rewrite sort_by_key_perm. apply Forall_app. split; [done|by apply Forall_singleton].
Qed.

Lemma upsert_wf off f fr : keeps_offset f → wf_frame fr → wf_frame (upsert_stack_var off f fr).
Proof.
  intros Hf []. unfold upsert_stack_var. destruct (Z.ltb_spec 0 off); split; simpl; try done.
  1,3: by apply upsert_list_distinct.
  all: apply upsert_list_Forall; [|rewrite Hf; simpl; lia|done]; intros v; by rewrite Hf.
Qed.
#[export] Hint Resolve upsert_wf : windy.

Lemma sorted_frame_upsert off f fr :
  keeps_offset f → sorted_frame fr → sorted_frame (upsert_stack_var off f fr).
Proof.
  intros Hf [L A]. unfold upsert_stack_var. destruct (0 <? off)%Z; split; simpl; try done;
    by apply upsert_list_sorted.
Qed.

(** What holds of the frame of a new function and survives the update of a slot
    holds of every frame after every operation. *)
Section frames_all.
Variable Q : StackFrame → Prop.
Hypothesis Q_default : Q StackFrame_default.
Hypothesis Q_upsert : ∀ off f fr, keeps_offset f → Q fr → Q (upsert_stack_var off f fr).

Definition frames_all (p : Project) : Prop := ∀ va fr, function_frames p !! va = Some fr → Q fr.

Lemma frames_all_of p va : frames_all p → Q (frame_of p va).
Proof. intros H. unfold frame_of. destruct (function_frames p !! va) eqn:E; [by eapply H|done]. Qed.

Lemma exec_frames op p : frames_all p → frames_all (exec op p).
Proof using Q_default Q_upsert.
  revert p. induction op as [| | | | | | | |va c o|ops IH] using Op_nested_ind; intros p W.
  10: {
    rewrite exec_batch. revert p W. induction IH as [|op ops Hop _ IH]; intros p W; [done|].
    rewrite execs_cons. auto. }
  all: unfold exec; simpl; try done.
  - by destruct on; [|destruct (Symbols.name _ _)].
  - by destruct (function_at p va).
  - intros va fr H. simpl in H. apply lookup_insert_Some in H as [[<- <-]|[_ H]]; [|by eapply W].
    apply Q_upsert; [auto with windy|by apply frames_all_of].
  - intros va fr H. simpl in H. apply lookup_insert_Some in H as [[<- <-]|[_ H]]; [|by eapply W].
    apply Q_upsert; [auto with windy|by apply frames_all_of].
  - by destruct (is_clear c).
Qed.
End frames_all.

(** Every operation keeps a frame's slots apart, with locals below and arguments
    above the return address, and keeps memory cards filed under their own
    address. *)
Lemma exec_cards op p : (∀ va c, function_memory p !! va = Some c → wf_card va c) →
  ∀ va c, function_memory (exec op p) !! va = Some c → wf_card va c.
Proof.
  revert p. induction op as [| | | | | | | |va c o|ops IH] using Op_nested_ind; intros p W.
  10: {
    rewrite exec_batch. revert p W. induction IH as [|op ops Hop _ IH]; intros p W; [done|].
    rewrite execs_cons. apply IH, Hop, W. }
  all: unfold exec; simpl; try done.
  - by destruct on; [|destruct (Symbols.name _ _)].
  - by destruct (function_at p va).
  - destruct (is_clear c) eqn:E; simpl; intros va' c' H.
    + apply lookup_delete_Some in H as [_ H]. by apply W.
    + apply lookup_insert_Some in H as [[<- <-]|[_ H]]; [|by apply W]. by split.
Qed.
Lemma exec_wf op p : wf_project p → wf_project (exec op p).
Proof.
  intros [F M]. constructor; [|by apply exec_cards].
  apply (exec_frames wf_frame); [apply wf_frame_default|apply upsert_wf|done].
Qed.
Lemma execs_wf ops p : wf_project p → wf_project (execs ops p).
Proof.
  revert p. induction ops as [|op ops IH]; intros p W; [done|].
  rewrite execs_cons. auto using exec_wf.
Qed.
#[export] Hint Resolve exec_wf execs_wf : windy.

(** ** Undo *)

(** When the compensating operation can restore the previous state: the edited
    entity existed before, and nothing was captured yet. Renaming an unnamed
    address, commenting an uncommented one or retyping an unknown slot leaves a
    residue (see [undo_rename_residue]); memory cards are always restorable. *)
Fixpoint restorable (op : Op) (p : Project) : bool :=
  match op with
  | RenameSymbol va _ _ old_name _ =>
      bool_decide (old_name = None ∧ is_Some (symbols p !! va))
  | SetComment va scope _ old =>
      bool_decide (old = None ∧ is_Some (CommentMap.get (comments p) va scope))
  | SetFocus va old =>
      bool_decide (old = None ∧
        (is_Some (focus p) ∧ is_Some (function_at p (default va (focus p))) ∨
         function_at p va = None ∧ function_at p (default va (focus p)) = None))
  | SetGlobalType va _ old => bool_decide (old = None ∧ is_Some (typed_globals p !! va))
  | SetFunctionSignature va _ old =>
      bool_decide (old = None ∧ is_Some (function_signatures p !! va))
  | SetStackLocalType f off _ old =>
      bool_decide (old = None ∧ is_Some (find_slot off (frame_of p f)))
  | SetStackLocalName f off _ old =>
      bool_decide (old = None ∧ is_Some (find_slot off (frame_of p f)) ∧
        (find_slot off (frame_of p f) ≫= sv_name) ≠ Some ""%string)
  | SetParamName f i _ old =>
      bool_decide (old = None ∧
        is_Some (function_signatures p !! f ≫= λ sig, sig_params sig !! i))
  | SetFunctionMemory _ _ old => bool_decide (old = None)
  | Batch ops =>
      (fix go (ops : list Op) (p : Project) : bool :=
         match ops with
         | [] => true
         | op :: ops => restorable op p && go ops (exec op p)
         end) ops p
  end.

Fixpoint restorable_all (ops : list Op) (p : Project) : bool :=
  match ops with
  | [] => true
  | op :: ops => restorable op p && restorable_all ops (exec op p)
  end.

Lemma restorable_batch ops p : restorable (Batch ops) p = restorable_all ops p.
Proof. done. Qed.

(** Executing the compensating operation, if there is one. *)
Definition undo (op : Op) (p : Project) : Project := execs (option_list (inverse op)) p.

Lemma undo_some op inv p : inverse op = Some inv → undo op p = exec inv p.
Proof. unfold undo. intros ->. simpl. by rewrite execs_cons. Qed.

#[export] Instance undo_proper op : Proper (proj_equiv ==> proj_equiv) (undo op).
Proof. apply _. Qed.

Lemma undo_batch ops p : undo (Batch ops) p = execs (inverse_all ops) p.
Proof.
  unfold undo. rewrite inverse_batch. destruct (inverse_all ops) as [|i rest] eqn:E; [done|].
  simpl. by rewrite execs_cons, exec_batch.
Qed.

(** Undoing a slot update: the second update puts the found slot back. *)
Lemma upsert_list_undo off f g l v :
  keeps_offset f → find_first (at_offset off) l = Some v → g (f v) = v →
  upsert_list off g (upsert_list off f l) = l.
Proof.
  intros Hf Hv Hg. unfold upsert_list at 2.
  destruct (update_first _ f l) as [l1|] eqn:E.
  - unfold upsert_list.
    rewrite (update_first_twice _ _ _ _ _ (λ x H, eq_trans (f_equal (λ o, o =? off)%Z (Hf x)) H) E).
    by rewrite (update_first_id _ _ _ _ Hv).
  - apply update_first_None in E. congruence.
Qed.

(** In a well-formed frame the slot at an offset lives in the list that
    [upsert_stack_var] updates. *)
Lemma find_slot_side off fr :
  wf_frame fr →
  find_slot off fr =
    find_first (at_offset off) (if (0 <? off)%Z then fr_args fr else fr_locals fr).
Proof.
  intros [_ _ HL HA]. unfold find_slot. rewrite find_first_app.
  destruct (Z.ltb_spec 0 off).
  - assert (find_first (at_offset off) (fr_locals fr) = None) as ->; [|done].
    apply find_first_None. intros v Hv. rewrite Forall_forall in HL.
    specialize (HL v Hv). unfold at_offset. simpl in HL. lia.
  - destruct (find_first _ (fr_locals fr)); [done|].
    apply find_first_None. intros v Hv. rewrite Forall_forall in HA.
    specialize (HA v Hv). unfold at_offset. simpl in HA. lia.
Qed.

Lemma upsert_undo off f g fr v :
  wf_frame fr → keeps_offset f → find_slot off fr = Some v → g (f v) = v →
  upsert_stack_var off g (upsert_stack_var off f fr) = fr.
Proof.
  intros W Hf Hv Hg. rewrite (find_slot_side _ _ W) in Hv.
  unfold upsert_stack_var. destruct (0 <? off)%Z; destruct fr; simpl in *; f_equal;
    by eapply upsert_list_undo.
Qed.

Lemma frame_of_insert p f fr :
  frame_of (invalidate_ssa_cache (Some f) (with_frames <[f := fr]> p)) f = fr.
Proof. unfold frame_of. simpl. by rewrite lookup_insert_eq. Qed.

(** A slot that exists belongs to a recorded frame. *)
Lemma frame_recorded p f off :
  is_Some (find_slot off (frame_of p f)) → function_frames p !! f = Some (frame_of p f).
Proof.
  unfold frame_of. destruct (function_frames p !! f); [done|]. simpl. by intros [].
Qed.

(** Restoring the frame restores the state. *)
Lemma frames_restore p f fr1 fr2 :
  function_frames p !! f = Some fr2 →
  invalidate_ssa_cache (Some f) (with_frames <[f := fr2]>
    (invalidate_ssa_cache (Some f) (with_frames <[f := fr1]> p))) ≈ p.
Proof.
  intros H. constructor; simpl; try done. rewrite insert_insert_eq. by apply insert_id.
Qed.

Lemma extend_params_id n i ps : i < length ps → extend_params n i ps = ps.
Proof. destruct n; simpl; [done|]. intros. by rewrite decide_False by lia. Qed.

Lemma signature_for_param_existing p f i sig :
  function_signatures p !! f = Some sig → i < length (sig_params sig) →
  signature_for_param p f i = sig.
Proof.
  intros H Hi. unfold signature_for_param. rewrite H. simpl. unfold ensure_param.
  rewrite extend_params_id by done. by destruct sig.
Qed.

Lemma rename_param_undo i n n0 ty sig :
  sig_params sig !! i = Some (n0, ty) → rename_param i n0 (rename_param i n sig) = sig.
Proof.
  intros H. destruct sig as [nm ps r c]. unfold rename_param. simpl in *. f_equal.
  apply list_eq. intros j. destruct (decide (i = j)) as [<-|Hj].
  - by rewrite !list_lookup_alter_eq, H.
  - by rewrite !list_lookup_alter_ne by done.
Qed.

Lemma memory_restore p q :
  p ≈ with_memory (λ _, function_memory p) q →
  unstamp <$> function_memory p = unstamp <$> function_memory q → p ≈ q.
Proof. intros [] E. by constructor. Qed.

(** The compensating memory operation: reinstate the previous card, or clear. *)
Lemma undo_memory va c p :
  wf_project p →
  undo (SetFunctionMemory va c (Some (function_memory p !! va)))
       (exec (SetFunctionMemory va c None) p) ≈ p.
Proof.
  intros [_ W]. unfold undo. simpl.
  assert (∀ q, q ≈ with_memory (λ _, function_memory q) p →
    unstamp <$> function_memory q = unstamp <$> function_memory p → q ≈ p) as R.
  { intros q [] E. by constructor. }
  destruct (function_memory p !! va) as [prev|] eqn:E; simpl; rewrite execs_cons; simpl.
  - destruct (W _ _ E) as [Hva Hcl]. unfold exec. simpl. rewrite Hcl.
    apply R; [destruct (is_clear c); by constructor|].
    destruct (is_clear c); simpl;
      rewrite ?insert_delete_eq, ?insert_insert_eq, fmap_insert, unstamp_stamp;
      apply insert_id; rewrite lookup_fmap, E; simpl; unfold unstamp; by rewrite Hva.
  - unfold exec. simpl. apply R; [destruct (is_clear c); by constructor|].
    destruct (is_clear c); simpl; rewrite ?delete_insert_eq, ?delete_delete_eq;
      by rewrite delete_id.
Qed.

(** The compensating operation restores the state. *)
Lemma undo_restores op p op' p' :
  wf_project p → restorable op p = true → capture_and_apply op p = (op', p') →
  undo op' p' ≈ p.
Proof.
  revert p op' p'. induction op as [va n k on ok|va s t o|va o|va t o|va s o|f off t o|f off n o|f i n o|va c o|ops IH]
    using Op_nested_ind; intros p op' p' W R H.
  10: {
    rewrite restorable_batch in R. rewrite capture_and_apply_batch in H.
    destruct (apply_all ops p) as [r q] eqn:E. simplify_eq. rewrite undo_batch.
    revert p r p' W R E. induction IH as [|op ops Hop Hops IH]; intros p r p' W R E; simplify_eq/=.
    { done. }
    apply andb_true_iff in R as [R1 R2].
    destruct (capture_and_apply op p) as [op1 p1] eqn:E1.
    destruct (apply_all ops p1) as [r1 p2] eqn:E2. simplify_eq/=.
    assert (exec op p = p1) as Ep by (unfold exec; by rewrite E1).
    rewrite execs_app, (IH p1 r1); [by apply (Hop p)| |by rewrite <-Ep|done].
    rewrite <-Ep. by apply exec_wf. }
  all: simpl in R; apply bool_decide_eq_true in R.
  - destruct R as [-> [[n0 k0] Hs]]. simpl in H. unfold Symbols.name, Symbols.get in H.
    rewrite Hs in H. simplify_eq/=. unfold undo, execs; simpl. constructor; simpl; try done.
    unfold Symbols.insert. rewrite insert_insert_eq. by apply insert_id.
  - destruct R as [-> [t0 Ht]]. simpl in H. rewrite Ht in H. simplify_eq/=.
    unfold undo, execs; simpl. constructor; simpl; try done.
    rewrite CommentMap.set_set. by apply CommentMap.set_id.
  - destruct R as [-> R]. simpl in H. unfold undo, execs.
    destruct (focus p) as [f|] eqn:Ef; simplify_eq/=.
    + destruct (function_at p va) as [fv|] eqn:Ev.
      * destruct R as [[_ [ff Hff]]|[? _]]; [|done].
        unfold function_at in *. simpl in *. rewrite Hff. by constructor.
      * destruct (function_at p f) eqn:Eff; [by constructor|done].
    + destruct R as [[[] _]|[Ev _]]; [done|]. by rewrite !Ev.
  - destruct R as [-> [t0 Ht]]. simpl in H. rewrite Ht in H. simplify_eq/=.
    unfold undo, execs; simpl. constructor; simpl; try done.
    rewrite insert_insert_eq. by apply insert_id.
  - destruct R as [-> [t0 Ht]]. simpl in H. rewrite Ht in H. simplify_eq/=.
    unfold undo, execs; simpl. constructor; simpl; try done.
    rewrite insert_insert_eq. by apply insert_id.
  - destruct R as [-> [v Hv]]. simpl in H. rewrite Hv in H. simplify_eq/=.
    unfold undo, execs; simpl. rewrite frame_of_insert.
    rewrite (upsert_undo _ _ _ _ v); eauto with windy; [|by destruct v].
    apply frames_restore, (frame_recorded _ _ off). by rewrite Hv.
  - destruct R as (-> & [v Hv] & Hn). simpl in H. rewrite Hv in H, Hn. simplify_eq/=.
    unfold undo, execs; simpl. rewrite frame_of_insert.
    rewrite (upsert_undo _ _ _ _ v); eauto with windy.
    + apply frames_restore, (frame_recorded _ _ off). by rewrite Hv.
    + destruct v as [[nm|] ty o sz]; unfold set_sv_name; simpl in *; try case_decide; congruence.
  - destruct R as [-> [[n0 ty0] Hp]]. cbn [capture_and_apply] in H. cbv zeta in H.
    apply bind_Some in Hp as (sig & Hs & Hp).
    assert (i < length (sig_params sig)) by by eapply lookup_lt_Some.
    rewrite (signature_for_param_existing _ _ _ sig), Hp in H by done. simplify_eq/=.
    unfold undo, execs; simpl. constructor; simpl; try done.
    rewrite (signature_for_param_existing _ _ _ (rename_param i n sig));
      simpl; [|by rewrite lookup_insert_eq|by rewrite length_alter].
    rewrite insert_insert_eq, (rename_param_undo _ _ _ _ _ Hp). by apply insert_id.
  - subst o. simpl in H. simplify_eq. by apply undo_memory.
Qed.

(** Re-applying the captured operation after its undo restores the edit. *)
Lemma redo_restores op p op' p' :
  wf_project p → restorable op p = true → capture_and_apply op p = (op', p') →
  exec op' (undo op' p') ≈ p'.
Proof.
  intros W R H. rewrite (undo_restores _ _ _ _ W R H).
  unfold exec. by rewrite (capture_idempotent _ _ _ _ H).
Qed.

(** Undoing an edit that created its entity leaves a residue: the compensating
    operation can only overwrite, never remove. *)
Lemma undo_rename_created va n k p :
  symbols p !! va = None →
  symbols (undo (fst (apply_to (RenameSymbol va n k None None) p))
             (exec (RenameSymbol va n k None None) p)) !! va = Some (mkSymbol "" k).
Proof.
  intros H. unfold apply_to, undo, execs, exec. simpl.
  unfold Symbols.name, Symbols.get. rewrite H. simpl. unfold Symbols.insert. by rewrite lookup_insert_eq.
Qed.

(** ** Restorability only looks at what [≈] compares *)

Lemma function_at_equiv_None p q va :
  p ≈ q → function_at p va = None ↔ function_at q va = None.
Proof.
  intros E%(function_at_equiv p q va). rewrite !eq_None_not_Some. by rewrite E.
Qed.

Lemma restorable_equiv op p q : p ≈ q → restorable op p = restorable op q.
Proof.
  revert p q. induction op as [| |va o| | | | | | |ops IH] using Op_nested_ind; intros p q E.
  10: {
    rewrite !restorable_batch. revert p q E.
    induction IH as [|op ops Hop _ IH]; intros p q E; simpl; [done|].
    rewrite (Hop _ _ E). f_equal. apply IH. by rewrite E. }
  3: {
    simpl. apply bool_decide_ext.
    pose proof (function_at_equiv p q) as F. pose proof (function_at_equiv_None p q) as G.
    rewrite (eq_focus _ _ E). by rewrite !F, !G. }
  all: by unify_states p q E.
Qed.

Lemma option_list_nil {A} (o : option A) : option_list o = [] ↔ ¬ is_Some o.
Proof.
  destruct o as [x|]; simpl; [|split; [by intros _ []|done]].
  split; [done|]. intros N. destruct N. by eexists.
Qed.

(** Capturing does not change whether an operation has an inverse. *)
Lemma inverse_captured op p :
  is_Some (inverse (fst (capture_and_apply op p))) ↔ is_Some (inverse op).
Proof.
  revert p. induction op as [va n k on ok| | | | | | | |va c o|ops IH] using Op_nested_ind; intros p.
  10: {
    rewrite capture_and_apply_batch. destruct (apply_all ops p) as [r q] eqn:E. simpl fst.
    assert (inverse_all r = [] ↔ inverse_all ops = []) as A.
    { revert p r q E. induction IH as [|op ops Hop _ IH]; intros p r q E; simplify_eq/=; [done|].
      specialize (Hop p). destruct (capture_and_apply op p) as [op1 p1].
      destruct (apply_all ops p1) as [r1 p2] eqn:E2. simplify_eq/=.
      rewrite !app_nil, (IH _ _ _ E2), !option_list_nil. by rewrite Hop. }
    rewrite !inverse_batch. destruct A as [A1 A2].
    destruct (inverse_all r), (inverse_all ops); [done| | |by split; eexists];
      [by specialize (A1 eq_refl)|by specialize (A2 eq_refl)]. }
  all: simpl; try done.
  - by destruct on.
  - split; intros _; [destruct (default None o)|destruct (default None (capture _ _))]; done.
Qed.

(** ** Footprints *)

Inductive Key :=
  | KSymbol (va : Z)
  | KComment (scope : CommentScope) (va : Z)
  | KFocus
  | KGlobal (va : Z)
  | KSignature (va : Z)
  | KFrame (va : Z)
  | KMemory (va : Z).

#[export] Instance Key_eq_dec : EqDecision Key.
Proof. solve_decision. Defined.

(** [SetParamName] names a missing signature after the function's symbol. *)
Fixpoint footprint (op : Op) : list Key :=
  match op with
  | RenameSymbol va _ _ _ _ => [KSymbol va]
  | SetComment va scope _ _ => [KComment scope va]
  | SetFocus _ _ => [KFocus]
  | SetGlobalType va _ _ => [KGlobal va]
  | SetFunctionSignature va _ _ => [KSignature va]
  | SetStackLocalType f _ _ _ => [KFrame f]
  | SetStackLocalName f _ _ _ => [KFrame f]
  | SetParamName f _ _ _ => [KSignature f; KSymbol f]
  | SetFunctionMemory va _ _ => [KMemory va]
  | Batch ops => concat (map footprint ops)
  end.

Definition independent (a b : Op) : Prop := ∀ k, k ∈ footprint a → k ∉ footprint b.

#[export] Instance independent_dec a b : Decision (independent a b).
Proof.
  refine (cast_if (decide (Forall (λ k, k ∉ footprint b) (footprint a))));
    unfold independent; by rewrite <-Forall_forall.
Defined.

Lemma independent_sym a b : independent a b → independent b a.
Proof. intros D k Hb Ha. by apply (D k). Qed.

Lemma independent_Forall a b :
  independent a b ↔ Forall (λ k, k ∉ footprint b) (footprint a).
Proof. by rewrite Forall_forall. Qed.

(** ** Plain effects *)

(** [signature_for_param], from the two entries it reads. *)
Definition signature_from (sym : option Symbol) (sig : option FunctionSignature) (index : nat)
    : FunctionSignature :=
  let sig := default (mkSig (default "sub" (sym_name <$> sym)) [] (Unknown 0) None) sig in
  mkSig (sig_name sig) (ensure_param index (sig_params sig)) (sig_ret sig)
    (sig_calling_conv sig).

Definition eff (op : Op) (p : Project) : Project :=
  match op with
  | RenameSymbol va name kind _ _ => with_symbols (Symbols.insert va name kind) p
  | SetComment va scope text _ => with_comments (CommentMap.set va scope text) p
  | SetFocus va _ =>
      with_focus (λ f, match function_at p va with Some _ => Some va | None => f end) p
  | SetGlobalType va ty _ => with_globals <[va := ty]> p
  | SetFunctionSignature va sig _ => with_sigs <[va := sig]> p
  | SetStackLocalType f off ty _ =>
      with_frames (λ m, <[f := upsert_stack_var off (set_sv_ty ty)
                                (default StackFrame_default (m !! f))]> m) p
  | SetStackLocalName f off name _ =>
      with_frames (λ m, <[f := upsert_stack_var off
        (set_sv_name (if decide (name = ""%string) then None else Some name))
        (default StackFrame_default (m !! f))]> m) p
  | SetParamName f i name _ =>
      with_sigs (λ m, <[f := rename_param i name
                              (signature_from (symbols p !! f) (m !! f) i)]> m) p
  | SetFunctionMemory va card _ =>
      with_memory (λ m, if is_clear card then delete va m
                        else <[va := Memory.stamp va 0 card]> m) p
  | Batch ops => execs ops p
  end.

Lemma exec_eff op p : exec op p ≈ eff op p.
Proof.
  destruct op as [va n k on ok| |va o| | | | | |va c o|ops]; unfold exec; simpl; try by constructor.
  - destruct on; [|destruct (Symbols.name _ _)]; by constructor.
  - destruct (function_at p va); by constructor.
  - destruct (is_clear c); constructor; simpl; rewrite ?fmap_insert; done.
  - fold (exec (Batch ops) p). change (snd _) with (exec (Batch ops) p). by rewrite exec_batch.
Qed.

Lemma comments_set_comm v1 s1 t1 v2 s2 t2 c :
  KComment s1 v1 ≠ KComment s2 v2 →
  CommentMap.set v1 s1 t1 (CommentMap.set v2 s2 t2 c) = CommentMap.set v2 s2 t2 (CommentMap.set v1 s1 t1 c).
Proof.
  intros N. destruct c, s1, s2; simpl; try done; f_equal; apply insert_insert_ne; congruence.
Qed.

(** Different keys, from the independence of two operations. *)
Ltac distinct D :=
  intros ->; apply independent_Forall in D; simpl in D; repeat apply Forall_cons in D as [? D];
  set_solver.

(** Two single operations on different entities. *)
Lemma eff_comm a b p :
  (∀ ops, a ≠ Batch ops) → (∀ ops, b ≠ Batch ops) → independent a b →
  eff a (eff b p) = eff b (eff a p).
Proof.
  intros Na Nb D. destruct p.
  destruct a; [..|by edestruct Na]; (destruct b; [..|by edestruct Nb]);
    unfold eff, with_symbols, with_comments, with_globals, with_sigs, with_focus, with_frames,
      with_memory, Symbols.insert, function_at; simpl; try reflexivity; f_equal.
  all: repeat rewrite (lookup_insert_ne (M:=gmap Z)) by distinct D; try reflexivity.
  all: try (apply insert_insert_ne; distinct D).
  - apply comments_set_comm. intros E.
    apply (D (KComment scope va)); [by left|rewrite E; by left].
  - destruct (D KFocus); by left.
  - destruct (is_clear card), (is_clear card0).
    + apply delete_delete.
    + apply delete_insert_ne. distinct D.
    + symmetry. apply delete_insert_ne. distinct D.
    + apply insert_insert_ne. distinct D.
Qed.

Lemma exec_comm_single a b p :
  (∀ ops, a ≠ Batch ops) → (∀ ops, b ≠ Batch ops) → independent a b →
  exec a (exec b p) ≈ exec b (exec a p).
Proof.
  intros Na Nb D.
  rewrite (exec_eff b p), (exec_eff a p), !exec_eff. by rewrite eff_comm.
Qed.

(** An operation that commutes with every element commutes with the list. *)
Lemma execs_comm a ops p :
  (∀ b q, b ∈ ops → exec a (exec b q) ≈ exec b (exec a q)) →
  exec a (execs ops p) ≈ execs ops (exec a p).
Proof.
  revert p. induction ops as [|b ops IH]; intros p C; [done|].
  rewrite !execs_cons, IH by (intros; apply C; by right).
  by rewrite (C b) by left.
Qed.

Lemma independent_batch_r a ops b :
  independent a (Batch ops) → b ∈ ops → independent a b.
Proof.
  intros D Hb k Ha Hk. apply (D k Ha). simpl.
  apply list_elem_of_In, in_concat. exists (footprint b).
  split; apply list_elem_of_In; [by apply list_elem_of_fmap_2|done].
Qed.

(** Operations on different entities commute. *)
Lemma exec_comm a b p : independent a b → exec a (exec b p) ≈ exec b (exec a p).
Proof.
  assert (∀ a b p, (∀ ops, a ≠ Batch ops) → independent a b →
    exec a (exec b p) ≈ exec b (exec a p)) as S.
  { clear. intros a b p Na. revert p.
    induction b as [| | | | | | | | |ops IH] using Op_nested_ind; intros p D.
    10: {
      rewrite !exec_batch. apply execs_comm. intros b q Hb.
      rewrite Forall_forall in IH. apply IH; [done|]. by eapply independent_batch_r. }
    all: by apply exec_comm_single. }
  revert p. induction a as [| | | | | | | | |ops IH] using Op_nested_ind; intros p D.
  10: {
    rewrite !exec_batch. symmetry. apply execs_comm. intros a q Ha. symmetry.
    rewrite Forall_forall in IH. apply IH; [done|].
    apply independent_sym. eapply independent_batch_r; [|done]. by apply independent_sym. }
  all: by apply S.
Qed.

Lemma execs_independent a ops p :
  Forall (independent a) ops → exec a (execs ops p) ≈ execs ops (exec a p).
Proof.
  intros F. rewrite Forall_forall in F. apply execs_comm. intros. by apply exec_comm, F.
Qed.

(** ** Undo across other clients' edits *)

Lemma footprint_captured op p : footprint (fst (capture_and_apply op p)) = footprint op.
Proof.
  revert p. induction op as [va n k on ok| | | | | | | | |ops IH] using Op_nested_ind; intros p.
  10: {
    rewrite capture_and_apply_batch. destruct (apply_all ops p) as [r q] eqn:E. simpl.
    revert p r q E. induction IH as [|op ops Hop _ IH]; intros p r q E; simplify_eq/=; [done|].
    specialize (Hop p). destruct (capture_and_apply op p) as [op1 p1].
    destruct (apply_all ops p1) as [r1 p2] eqn:E2. simplify_eq/=.
    rewrite Hop. f_equal. by apply (IH _ _ _ E2). }
  all: simpl; try done.
  by destruct on.
Qed.

Lemma footprint_inverse op inv k : inverse op = Some inv → k ∈ footprint inv → k ∈ footprint op.
Proof.
  revert inv. induction op as [| | | | | | | |va c o|ops IH] using Op_nested_ind; intros inv E.
  10: {
    rewrite inverse_batch in E.
    assert (footprint inv = concat (map footprint (inverse_all ops))) as ->
      by (destruct (inverse_all ops); by simplify_eq).
    clear E inv. simpl. induction IH as [|op ops Hop _ IH]; [done|]. simpl.
    rewrite map_app, concat_app, !elem_of_app. intros [Hk|Hk]; [right; auto|left].
    destruct (inverse op) as [inv|]; simpl in Hk; [|by apply not_elem_of_nil in Hk].
    rewrite (right_id_L [] (++)) in Hk. by apply (Hop inv). }
  all: simpl in E; simplify_eq/=; try done.
  by destruct (default None o); simplify_eq/=.
Qed.

(** Undoing an operation restores the state under other independent edits. *)
Lemma undo_across op p op' p' ops :
  wf_project p → restorable op p = true → capture_and_apply op p = (op', p') →
  Forall (independent op) ops →
  undo op' (execs ops p') ≈ execs ops p.
Proof.
  intros W R C F.
  transitivity (execs ops (undo op' p')).
  - unfold undo. destruct (inverse op') as [inv|] eqn:I; [|done]. simpl.
    rewrite !execs_cons. apply execs_independent. eapply Forall_impl; [exact F|].
    intros b D k Hk. apply D. rewrite <-(footprint_captured op p), C.
    by apply (footprint_inverse _ inv).
  - apply execs_proper_equiv. by apply (undo_restores op p).
Qed.
