(* ===== verification/Journal.v ===== *)
(** The append-only line journals: [src/project/op_log.rs] (operations) and
    [src/project/activity_log.rs] (activity events) write one JSON document per
    line and read back every line up to the first one that does not parse.

    A journal file is its bytes ([None]: no such file). [serde_json] is not part
    of the program: [LineCodec] is the pair of functions it provides for a
    record type and [LineCodecLaws] what the journals rely on. *)

From Stdlib Require Import Strings.Byte.
From S2P Require Import Prelude Data Ops OpsFacts.

#[export] Instance byte_eq_dec : EqDecision byte := Byte.byte_eq_dec.

Notation bytes := (list byte).
Definition byte_val (b : byte) : Z := Z.of_N (Byte.to_N b).

Definition NL : byte := x0a.
Definition CR : byte := x0d.
Definition LBRACE : byte := x7b.

(** ** UTF-8 and lines, as [BufRead::lines] and [str::trim] see them *)

(** A continuation byte. *)
Definition is_cont (n : Z) : bool := (0x80 <=? n)%Z && (n <=? 0xBF)%Z.
Definition in_range (lo hi n : Z) : bool := (lo <=? n)%Z && (n <=? hi)%Z.

(** The range of the second byte of a three- or four-byte sequence: overlong
    forms, surrogates and code points above U+10FFFF are not UTF-8. *)
Definition second_ok (n0 n1 : Z) : bool :=
  if (n0 =? 0xE0)%Z then in_range 0xA0 0xBF n1
  else if (n0 =? 0xED)%Z then in_range 0x80 0x9F n1
  else if (n0 =? 0xF0)%Z then in_range 0x90 0xBF n1
  else if (n0 =? 0xF4)%Z then in_range 0x80 0x8F n1
  else is_cont n1.

(** The code points of a byte string; [None] when it is not UTF-8. *)
Fixpoint utf8_decode (bs : bytes) : option (list Z) :=
  match bs with
  | [] => Some []
  | b0 :: r0 =>
      let n0 := byte_val b0 in
      if (n0 <? 0x80)%Z then cons n0 <$> utf8_decode r0
      else
        match r0 with
        | [] => None
        | b1 :: r1 =>
            let n1 := byte_val b1 in
            if in_range 0xC2 0xDF n0 then
              if is_cont n1
              then cons (Z.land n0 0x1F * 0x40 + Z.land n1 0x3F)%Z <$> utf8_decode r1
              else None
            else
              match r1 with
              | [] => None
              | b2 :: r2 =>
                  let n2 := byte_val b2 in
                  if in_range 0xE0 0xEF n0 then
                    if second_ok n0 n1 && is_cont n2
                    then cons (Z.land n0 0x0F * 0x1000 + Z.land n1 0x3F * 0x40 + Z.land n2 0x3F)%Z
                           <$> utf8_decode r2
                    else None
                  else
                    match r2 with
                    | [] => None
                    | b3 :: r3 =>
                        let n3 := byte_val b3 in
                        if in_range 0xF0 0xF4 n0 && second_ok n0 n1 && is_cont n2 && is_cont n3
                        then cons (Z.land n0 0x07 * 0x40000 + Z.land n1 0x3F * 0x1000
                                   + Z.land n2 0x3F * 0x40 + Z.land n3 0x3F)%Z
                               <$> utf8_decode r3
                        else None
                    end
              end
        end
  end.

(** [char::is_whitespace]: the Unicode White_Space property. *)
Definition is_whitespace (c : Z) : bool :=
  in_range 9 13 c || bool_decide (c ∈ [0x20; 0x85; 0xA0; 0x1680; 0x2028; 0x2029; 0x202F; 0x205F;
                                       0x3000]%Z)
  || in_range 0x2000 0x200A c.

(** [line.trim().is_empty()] *)
Definition is_blank (chars : list Z) : bool := forallb is_whitespace chars.

Definition strip_cr (l : bytes) : bytes :=
  match reverse l with
  | b :: l' => if decide (b = CR) then reverse l' else l
  | [] => l
  end.

(** [BufRead::lines]: the terminator (LF or CRLF) is dropped; an unterminated
    last line is a line, an empty rest is not. [cur] is the current line, reversed. *)
Fixpoint lines_from (cur bs : bytes) : list bytes :=
  match bs with
  | [] => match cur with [] => [] | _ => [reverse cur] end
  | b :: bs =>
      if decide (b = NL) then strip_cr (reverse cur) :: lines_from [] bs
      else lines_from (b :: cur) bs
  end.
Definition lines (bs : bytes) : list bytes := lines_from [] bs.

(** ** The codec of a record type *)

Class LineCodec (R : Type) := {
  encode : R → bytes;         (** [serde_json::to_vec] *)
  decode : bytes → option R   (** [serde_json::from_str] *)
}.

(** [wire r] is what reading back a written [r] gives. A JSON object starts with
    a brace, has its control characters escaped, and is no longer a document
    when its end is cut off. *)
Class LineCodecLaws (R : Type) `{LineCodec R} (wire : R → R) : Prop := {
  decode_encode r : decode (encode r) = Some (wire r);
  encode_brace r : head (encode r) = Some LBRACE;
  encode_printable r : Forall (λ b, 0x20 ≤ byte_val b)%Z (encode r);
  encode_utf8 r : is_Some (utf8_decode (encode r));
  decode_cut r t : t `prefix_of` encode r → t ≠ encode r → decode t = None
}.

(** ** The line journal *)

Section journal.
Context {R : Type} `{LineCodec R}.

(** One record and its newline. *)
Definition line (r : R) : bytes := encode r ++ [NL].
(** The bytes of a journal holding [rs]. *)
Definition log (rs : list R) : bytes := concat (line <$> rs).

(** The reading loop: blank lines are skipped, the first line that is not
    UTF-8 or not a record ends the journal. *)
Fixpoint read_lines (ls : list bytes) : list R :=
  match ls with
  | [] => []
  | l :: ls =>
      match utf8_decode l with
      | None => []
      | Some chars =>
          if is_blank chars then read_lines ls
          else match decode l with
               | Some r => r :: read_lines ls
               | None => []
               end
      end
  end.

(** [read_all] *)
Definition read_all (file : option bytes) : list R :=
  match file with
  | None => []
  | Some bs => read_lines (lines bs)
  end.

(** [append], when every write succeeds. *)
Definition append (r : R) (file : option bytes) : option bytes :=
  Some (default [] file ++ line r).

(** An [append] that stops after [n] bytes reached the file. *)
Definition append_torn (n : nat) (r : R) (file : option bytes) : option bytes :=
  Some (default [] file ++ take n (line r)).
End journal.

(** ** Reading back what was written *)

Lemma lines_from_line cur l rest :
  NL ∉ l → lines_from cur (l ++ NL :: rest) = strip_cr (reverse cur ++ l) :: lines rest.
Proof.
  revert cur. induction l as [|b l IH]; intros cur Hl; simpl.
  - by rewrite (right_id_L [] (++)).
  - apply not_elem_of_cons in Hl as [Hb Hl]. rewrite decide_False by done.
    rewrite IH by done. by rewrite reverse_cons, <-app_assoc.
Qed.

Lemma lines_from_last cur l :
  NL ∉ l → lines_from cur l = match reverse cur ++ l with [] => [] | x => [x] end.
Proof.
  revert cur. induction l as [|b l IH]; intros cur Hl; simpl.
  - rewrite (right_id_L [] (++)). destruct cur as [|c cur]; [done|].
    rewrite reverse_cons. by destruct (reverse cur).
  - apply not_elem_of_cons in Hl as [Hb Hl]. rewrite decide_False by done.
    rewrite IH by done. by rewrite reverse_cons, <-app_assoc.
Qed.

Lemma lines_line l rest : NL ∉ l → lines (l ++ NL :: rest) = strip_cr l :: lines rest.
Proof. apply (lines_from_line []). Qed.
Lemma lines_last l : NL ∉ l → l ≠ [] → lines l = [l].
Proof. intros H1 H2. unfold lines. rewrite lines_from_last by done. by destruct l. Qed.

Lemma strip_cr_id l : CR ∉ l → strip_cr l = l.
Proof.
  intros H. unfold strip_cr. destruct (reverse l) as [|b l'] eqn:E; [done|].
  rewrite decide_False; [done|]. intros ->. apply H.
  apply elem_of_reverse. rewrite E. by left.
Qed.

Lemma brace_not_blank rest chars :
  utf8_decode (LBRACE :: rest) = Some chars → is_blank chars = false.
Proof. simpl. intros (cs & _ & ->)%fmap_Some. done. Qed.

Section journal_facts.
Context {R : Type} `{LineCodecLaws R wire}.
Implicit Types (r : R) (rs : list R).

Lemma encode_no_ctrl b r : b ∈ encode r → (0x20 ≤ byte_val b)%Z.
Proof. pose proof (encode_printable r) as P. rewrite Forall_forall in P. apply P. Qed.
Lemma encode_no_NL r : NL ∉ encode r.
Proof. intros Hb%encode_no_ctrl. done. Qed.
Lemma encode_no_CR r : CR ∉ encode r.
Proof. intros Hb%encode_no_ctrl. done. Qed.
Lemma encode_cons r : ∃ rest, encode r = LBRACE :: rest.
Proof. pose proof (encode_brace r). destruct (encode r); simplify_eq/=. eauto. Qed.

(** The line of a record reads as that record, whatever follows. *)
Lemma read_line r rest :
  read_lines (lines (line r ++ rest)) = wire r :: read_lines (lines rest).
Proof.
  unfold line. rewrite <-app_assoc. simpl.
  rewrite lines_line by apply encode_no_NL.
  rewrite strip_cr_id by apply encode_no_CR. simpl.
  destruct (encode_utf8 r) as [chars Hc]. rewrite Hc.
  destruct (encode_cons r) as [enc He]. rewrite He in Hc.
  rewrite (brace_not_blank _ _ Hc), decode_encode. done.
Qed.

Lemma log_app rs rs' : log (rs ++ rs') = log rs ++ log rs'.
Proof. unfold log. by rewrite fmap_app, concat_app. Qed.
Lemma log_single r : log [r] = line r.
Proof. unfold log. simpl. by rewrite (right_id_L [] (++)). Qed.
Lemma append_log r rs : append r (Some (log rs)) = Some (log (rs ++ [r])).
Proof. unfold append. simpl. by rewrite log_app, log_single. Qed.

Lemma read_log_app rs rest :
  read_lines (lines (log rs ++ rest)) = (wire <$> rs) ++ read_lines (lines rest).
Proof.
  induction rs as [|r rs IH]; simpl; [done|].
  change (log (r :: rs)) with (line r ++ log rs).
  by rewrite <-app_assoc, read_line, IH.
Qed.
Lemma read_log rs : read_all (Some (log rs)) = wire <$> rs.
Proof.
  pose proof (read_log_app rs []) as E. rewrite (right_id_L [] (++)) in E.
  simpl. rewrite E. apply (right_id_L [] (++)).
Qed.

(** The cut-off end of a record reads as nothing. *)
Lemma read_cut r t rest :
  t `prefix_of` encode r → t ≠ encode r → NL ∉ rest → t ≠ [] →
  decode (t ++ rest) = None →
  read_lines (lines (t ++ rest)) = [].
Proof.
  intros [t' Ht] Hne Hrest Ht0 Hd.
  assert (NL ∉ t) by (pose proof (encode_no_NL r) as N; rewrite Ht in N; set_solver).
  rewrite lines_last by (destruct t; set_solver). simpl.
  destruct (utf8_decode (t ++ rest)) as [chars|] eqn:U; [|done].
  destruct (encode_cons r) as [enc He]. destruct t as [|b t]; [done|].
  rewrite He in Ht. simplify_eq/=.
  assert (is_blank chars = false) as -> by by apply (brace_not_blank (t ++ rest)).
  by rewrite Hd.
Qed.

(** A crash while a record is appended: the journal reads as before, or, when
    only the newline is missing, as after. *)
Lemma read_torn rs r n :
  n < length (line r) →
  read_all (append_torn n r (Some (log rs))) =
    wire <$> (if decide (n = length (encode r)) then rs ++ [r] else rs).
Proof.
  unfold line. rewrite length_app. simpl. intros Hn.
  unfold append_torn. simpl. rewrite read_log_app. unfold line.
  rewrite take_app_le by lia. case_decide as E.
  - rewrite take_ge by lia. rewrite fmap_app. f_equal.
    rewrite lines_last; [|apply encode_no_NL|by destruct (encode_cons r) as [? ->]]. simpl.
    destruct (encode_utf8 r) as [chars Hc]. rewrite Hc.
    destruct (encode_cons r) as [enc He]. rewrite He in Hc.
    by rewrite (brace_not_blank _ _ Hc), decode_encode.
  - set (t := take n (encode r)).
    assert (t `prefix_of` encode r) by apply prefix_take.
    assert (t ≠ encode r).
    { intros Et. apply (f_equal length) in Et. unfold t in Et.
      rewrite length_take in Et. lia. }
    destruct (decide (t = [])) as [->|Ht]; [apply (right_id_L [] (++))|].
    rewrite <-(right_id_L [] (++) t) at 1.
    rewrite (read_cut r); [apply (right_id_L [] (++))|done..|set_solver|done|].
    rewrite (right_id_L [] (++)). by apply (decode_cut r).
Qed.
End journal_facts.

(** ** The operation journal *)

Record JournalRecord := mkRecord { rec_seq : Z; rec_op : Op }.

#[export] Instance JournalRecord_eq_dec : EqDecision JournalRecord.
Proof. solve_decision. Defined.
#[export] Instance JournalRecord_countable : Countable JournalRecord.
Proof.
  refine (inj_countable' (λ r, (rec_seq r, rec_op r)) (λ '(s, o), mkRecord s o) _). by intros [].
Defined.

(** What the derived serde code of [Op] keeps: a [Some(None)] in a nested option
    is written as [null] and read back as [None]. *)
Fixpoint wire_op (op : Op) : Op :=
  match op with
  | SetStackLocalName f off name (Some None) => SetStackLocalName f off name None
  | SetFunctionMemory va card (Some None) => SetFunctionMemory va card None
  | Batch ops => Batch (map wire_op ops)
  | _ => op
  end.
Definition wire_record (r : JournalRecord) : JournalRecord :=
  mkRecord (rec_seq r) (wire_op (rec_op r)).

(** The loss is invisible to the state: a nested option only feeds [inverse]. *)
Lemma exec_wire op p : exec (wire_op op) p = exec op p.
Proof.
  revert p. induction op as [| | | | | | f off n [[]|] | |va c [[]|]|ops IH] using Op_nested_ind;
    intros p; try done.
  simpl. rewrite !exec_batch. revert p.
  induction IH as [|op ops Hop _ IH]; intros p; simpl; [done|].
  by rewrite !execs_cons, Hop, IH.
Qed.

Lemma wire_op_idemp op : wire_op (wire_op op) = wire_op op.
Proof.
  induction op as [| | | | | | f off n [[]|] | |va c [[]|]|ops IH] using Op_nested_ind; try done.
  simpl. f_equal. rewrite map_map. induction IH as [|op ops Hop _ IH]; simpl; [done|].
  by rewrite Hop, IH.
Qed.
Lemma wire_record_idemp r : wire_record (wire_record r) = wire_record r.
Proof. unfold wire_record. simpl. by rewrite wire_op_idemp. Qed.

Section op_journal.
Context `{LineCodec JournalRecord}.

(** [Journal::truncate_through], on success: the surviving records are
    written to a temporary file which then replaces the journal. *)
Definition truncate_through (seq : Z) (file : option bytes) : option bytes :=
  Some (log (filter (λ r, (seq < rec_seq r)%Z) (read_all file))).

(** [Journal::head_seq] *)
Definition head_seq (file : option bytes) : option Z := rec_seq <$> last (read_all file).
End op_journal.

Section op_journal_facts.
Context `{LineCodecLaws JournalRecord wire_record}.

Lemma truncate_log seq rs :
  truncate_through seq (Some (log rs)) =
    Some (log (filter (λ r, (seq < rec_seq r)%Z) (wire_record <$> rs))).
Proof. unfold truncate_through. by rewrite read_log. Qed.

Lemma filter_wire seq (rs : list JournalRecord) :
  filter (λ r, (seq < rec_seq r)%Z) (wire_record <$> rs) =
    wire_record <$> filter (λ r, (seq < rec_seq r)%Z) rs.
Proof.
  induction rs as [|r rs IH]; [done|]. rewrite fmap_cons, !filter_cons. simpl.
  case_decide; [by rewrite fmap_cons, IH|done].
Qed.

(** Truncation keeps exactly the records above the snapshot. *)
Lemma read_truncate seq (rs : list JournalRecord) :
  read_all (truncate_through seq (Some (log rs))) =
    filter (λ r, (seq < rec_seq r)%Z) (read_all (Some (log rs))).
Proof.
  rewrite truncate_log, !read_log, filter_wire, <-list_fmap_compose.
  apply list_fmap_ext. intros i r _. apply wire_record_idemp.
Qed.
End op_journal_facts.

(** ** The activity journal *)

Record ActivityEvent := mkEvent {
  ae_timestamp : Z;
  ae_project_id : Z;
  ae_client_id : string;
  ae_op_summary : string;
  ae_seq : Z
}.

(** [ActivityJournal::read_tail] *)
Definition read_tail `{LineCodec ActivityEvent} (limit : nat) (file : option bytes)
    : list ActivityEvent :=
  let events := read_all file in drop (length events - limit) events.

(** ** A concrete codec

    The hypotheses of the journal theorems are satisfiable: the countable
    encoding of a record, written as binary digits between braces. *)
Module SampleCodec.

Fixpoint digits (p : positive) : bytes :=
  match p with
  | xH => []
  | xO p => x30 :: digits p
  | xI p => x31 :: digits p
  end.

(** The digits up to the closing brace, which must end the text. *)
Fixpoint parse_digits (bs : bytes) : option positive :=
  match bs with
  | [] => None
  | b :: bs =>
      if decide (b = x7d) then (match bs with [] => Some xH | _ => None end)
      else if decide (b = x30) then xO <$> parse_digits bs
      else if decide (b = x31) then xI <$> parse_digits bs
      else None
  end.

Lemma parse_digits_digits p : parse_digits (digits p ++ [x7d]) = Some p.
Proof. induction p as [p IH|p IH|]; simpl; rewrite ?IH; done. Qed.

Lemma digits_binary p : Forall (λ b, b = x30 ∨ b = x31) (digits p).
Proof. induction p; simpl; constructor; auto. Qed.

(** A text without the closing brace does not parse. *)
Lemma parse_digits_open bs : x7d ∉ bs → parse_digits bs = None.
Proof.
  induction bs as [|b bs IH]; simpl; [done|].
  intros [Hb Hbs]%not_elem_of_cons. rewrite decide_False by done.
  rewrite (IH Hbs). by repeat case_decide.
Qed.

Section codec.
Context {R : Type} `{Countable R} (wire : R → R).

Definition sample_encode (r : R) : bytes :=
  LBRACE :: digits (countable.encode (wire r)) ++ [x7d].
Definition sample_decode (bs : bytes) : option R :=
  match bs with
  | b :: bs => if decide (b = LBRACE) then parse_digits bs ≫= countable.decode else None
  | [] => None
  end.

Definition sample_codec : LineCodec R := {| encode := sample_encode; decode := sample_decode |}.

Lemma sample_ascii r : Forall (λ b, 0x20 ≤ byte_val b < 0x80)%Z (sample_encode r).
Proof.
  constructor; [done|]. apply Forall_app. split; [|by repeat constructor].
  eapply Forall_impl; [apply digits_binary|]. by intros b [->| ->].
Qed.

Lemma ascii_utf8 bs : Forall (λ b, 0x20 ≤ byte_val b < 0x80)%Z bs → is_Some (utf8_decode bs).
Proof.
  induction 1 as [|b bs Hb _ [cs IH]]; [by eexists|]. cbn [utf8_decode].
  rewrite (proj2 (Z.ltb_lt _ _)) by lia. rewrite IH. by eexists.
Qed.

Lemma sample_laws : @LineCodecLaws R sample_codec wire.
Proof.
  split.
  - intros r. simpl. rewrite parse_digits_digits. simpl. apply countable.decode_encode.
  - done.
  - intros r. eapply Forall_impl; [apply (sample_ascii r)|]. simpl; lia.
  - intros r. apply (ascii_utf8 (sample_encode r)), sample_ascii.
  - simpl. intros r t [t' Ht] Hne. destruct t as [|b t]; [done|].
    unfold sample_encode in Ht. simpl in Ht. injection Ht as <- Ht. simpl.
    destruct t' as [|c t' _] using rev_ind.
    { exfalso. apply Hne. unfold sample_encode. rewrite Ht. by rewrite (right_id_L [] (++)). }
    rewrite app_assoc in Ht. apply app_inj_2 in Ht as [Ht _]; [|done].
    rewrite parse_digits_open; [done|].
    pose proof (digits_binary (countable.encode (wire r))) as D.
    rewrite Ht, Forall_app, Forall_forall in D. destruct D as [D _].
    intros Hin. by destruct (D _ Hin).
Qed.
End codec.
End SampleCodec.
