(* ===== verification/Persist.v ===== *)
(** Snapshots: [src/project/persistence.rs] ([ProjectState], its two wire
    layouts, capture and re-application), and the parts of [Project::open] and
    [Project::save] (src/project/mod.rs) that use them together with the
    operation journal.

    [postcard] is not part of the program: [Postcard] is what it provides for
    the two snapshot layouts, [PostcardLaws] the round trip it guarantees. *)

From S2P Require Import Prelude Data Ops OpsFacts Journal.

(** ** The snapshot *)

Record ProjectState := mkState {
  st_image_path : string;
  st_image_sha256 : string;
  st_symbols : list (Z * string * SymbolKind);
  st_comments_addr : list (Z * string);
  st_comments_func : list (Z * string);
  st_types : DataTypeManager;
  st_function_frames : gmap Z StackFrame;
  st_typed_globals : gmap Z DataType;
  st_function_signatures : gmap Z FunctionSignature;
  st_focus : option Z;
  st_seq : Z;
  st_version : Z;
  st_function_memory : gmap Z FunctionMemoryCard;
  st_alias_history : list AliasEvent
}.

(** The layout before memory cards and the lineage. *)
Record ProjectStateV2 := mkStateV2 {
  v2_image_path : string;
  v2_image_sha256 : string;
  v2_symbols : list (Z * string * SymbolKind);
  v2_comments_addr : list (Z * string);
  v2_comments_func : list (Z * string);
  v2_types : DataTypeManager;
  v2_function_frames : gmap Z StackFrame;
  v2_typed_globals : gmap Z DataType;
  v2_function_signatures : gmap Z FunctionSignature;
  v2_focus : option Z;
  v2_seq : Z;
  v2_version : Z
}.

(** [impl From<ProjectStateV2> for ProjectState] *)
Definition from_v2 (v2 : ProjectStateV2) : ProjectState :=
  mkState (v2_image_path v2) (v2_image_sha256 v2) (v2_symbols v2) (v2_comments_addr v2)
    (v2_comments_func v2) (v2_types v2) (v2_function_frames v2) (v2_typed_globals v2)
    (v2_function_signatures v2) (v2_focus v2) (v2_seq v2) (v2_version v2) ∅ [].

Definition CURRENT_VERSION : Z := 3.

(** [ProjectState::from_project] *)
Definition from_project (p : Project) : ProjectState :=
  mkState (pe_path p) (image_sha256 p) (Symbols.entries (symbols p))
    (CommentMap.addr_entries (comments p)) (CommentMap.function_entries (comments p)) (types p)
    (function_frames p) (typed_globals p) (function_signatures p) (focus p) (op_seq p)
    CURRENT_VERSION (function_memory p) (alias_history p).

(** [ProjectState::apply]: other versions leave the project untouched. *)
Definition apply_state (s : ProjectState) (p : Project) : Project :=
  if decide (st_version s ≠ 2 ∧ st_version s ≠ CURRENT_VERSION)%Z then p
  else
    let symbols' := foldl (λ t '(va, name, kind), Symbols.insert va name kind t)
                      (symbols p) (st_symbols s) in
    let comments' := foldl (λ c '(va, text), CommentMap.set va Address text c)
                       (comments p) (st_comments_addr s) in
    let comments'' := foldl (λ c '(va, text), CommentMap.set va CommentMap.Function text c)
                        comments' (st_comments_func s) in
    mkProject (pe_path p) (image_sha256 p)
      (Functions.apply_frames (st_function_frames s) (functions p))
      symbols' comments'' (st_types s) (st_function_frames s) (st_typed_globals s)
      (st_function_signatures s)
      (match st_focus s with Some f => Some f | None => focus p end)
      (st_seq s) (st_function_memory s) (st_alias_history s) (ssa_cache p).

(** ** The wire format *)

Class Postcard := {
  to_allocvec : ProjectState → bytes;
  take_state : bytes → option (ProjectState * bytes);
  take_state_v2 : bytes → option (ProjectStateV2 * bytes)
}.

Class PostcardLaws `{Postcard} : Prop := {
  take_to_allocvec s : take_state (to_allocvec s) = Some (s, [])
}.

Section wire.
Context `{Postcard}.

(** [ProjectState::from_bytes] *)
Definition from_bytes (bs : bytes) : Result ProjectState :=
  let v2 :=
    match take_state_v2 bs with
    | Some (v2, _) => Ok (from_v2 v2)
    | None => Err "deserialize project state (v2/v3)"
    end in
  match take_state bs with
  | Some (state, []) => Ok state
  | Some (state, _) => if (CURRENT_VERSION <=? st_version state)%Z then Ok state else v2
  | None => v2
  end.

(** [ProjectState::load_from], of the IDB file of the image. *)
Definition load_from (idb : option bytes) : option ProjectState :=
  bs ← idb; match from_bytes bs with Ok s => Some s | Err _ => None end.
End wire.

(** ** Opening: analysis result, snapshot, journal *)

(** The project [Project::open] builds from the image before any saved state is
    applied: the analysis results, the entry point focused, no edits. *)
Definition open_base (path sha : string) (fns : gmap Z Functions.Function)
    (syms : gmap Z Symbol) (tys : DataTypeManager) (frames : gmap Z StackFrame)
    (globals : gmap Z DataType) (sigs : gmap Z FunctionSignature) (entry_va : Z) : Project :=
  mkProject path sha fns syms (mkComments ∅ ∅) tys frames globals sigs (Some entry_va) 0 ∅ [] ∅.

(** One round of the replay loop: [if record.seq > project.op_seq]. *)
Definition replay_record (p : Project) (r : JournalRecord) : Project :=
  if (op_seq p <? rec_seq r)%Z
  then with_op_seq (λ _, rec_seq r) (exec (rec_op r) p)
  else p.

Definition replay (p : Project) (rs : list JournalRecord) : Project := foldl replay_record p rs.

Section files.
Context `{LineCodec JournalRecord, Postcard}.

(** The durable files of one image. *)
Record Disk := mkDisk { dk_idb : option bytes; dk_oplog : option bytes }.

(** The end of [Project::open]: apply the snapshot, replay the journal. *)
Definition reopen (base : Project) (d : Disk) : Project :=
  let p := match load_from (dk_idb d) with
           | Some s => apply_state s base
           | None => base
           end in
  replay p (read_all (dk_oplog d)).

(** How [Project::save] can end. *)
Inductive SaveOutcome :=
  | SaveOk
  | TruncateFailed           (** the journal keeps its records: [.ok()] *)
  | IdbUnopened              (** the IDB could not be opened *)
  | IdbPartial (n : nat).    (** the IDB was truncated, [n] bytes written *)

(** [Project::save]: the snapshot first, then the journal truncation, whose
    failure is ignored; a failed snapshot write leaves the journal alone. *)
Definition save (p : Project) (o : SaveOutcome) (d : Disk) : Result () * Disk :=
  let bs := to_allocvec (from_project p) in
  match o with
  | SaveOk => (Ok (), mkDisk (Some bs) (truncate_through (op_seq p) (dk_oplog d)))
  | TruncateFailed => (Ok (), mkDisk (Some bs) (dk_oplog d))
  | IdbUnopened => (Err "write IDB", d)
  | IdbPartial n => (Err "write IDB", mkDisk (Some (take n bs)) (dk_oplog d))
  end.
End files.

(** ** Facts *)

Section facts.
Implicit Types (p q base : Project) (rs : list JournalRecord).

(** Re-inserting every entry of a map on top of a submap gives the map. *)
Lemma foldl_insert_list {A} (l : list (Z * A)) (m0 : gmap Z A) :
  NoDup l.*1 →
  foldl (λ t '(k, v), <[k := v]> t) m0 l = list_to_map l ∪ m0.
Proof.
  revert m0. induction l as [|[k v] l IH]; intros m0 ND; simpl.
  { by rewrite (left_id_L ∅ (∪)). }
  apply NoDup_cons in ND as [Hk ND]. rewrite IH by done.
  rewrite <-insert_union_r; [by rewrite insert_union_l|].
  by apply not_elem_of_list_to_map_1.
Qed.

Lemma union_covering {A} (m m0 : gmap Z A) : dom m0 ⊆@{gset Z} dom m → m ∪ m0 = m.
Proof.
  intros Hd. apply map_eq. intros i. destruct (m !! i) as [x|] eqn:E.
  - by erewrite lookup_union_Some_l.
  - rewrite lookup_union_r by done. apply not_elem_of_dom.
    apply not_elem_of_dom in E. set_solver.
Qed.

Lemma foldl_insert_all {A} (m m0 : gmap Z A) :
  dom m0 ⊆@{gset Z} dom m →
  foldl (λ t '(k, v), <[k := v]> t) m0 (map_to_list m) = m.
Proof.
  intros Hd. rewrite foldl_insert_list by apply NoDup_fst_map_to_list.
  rewrite list_to_map_to_list. by apply union_covering.
Qed.

Lemma foldl_symbols (m m0 : gmap Z Symbol) :
  foldl (λ t '(va, name, kind), Symbols.insert va name kind t) m0 (Symbols.entries m) =
  foldl (λ t '(k, v), <[k := v]> t) m0 (map_to_list m).
Proof.
  unfold Symbols.entries. revert m0.
  induction (map_to_list m) as [|[k [n kd]] l IH]; intros m0; [done|]. simpl. apply IH.
Qed.

Lemma foldl_comments_addr l (c : CommentStore) :
  foldl (λ c '(va, text), CommentMap.set va Address text c) c l =
  mkComments (foldl (λ t '(k, v), <[k := v]> t) (by_addr c) l) (by_function c).
Proof. revert c. induction l as [|[k v] l IH]; intros []; simpl; [done|]. apply IH. Qed.
Lemma foldl_comments_func l (c : CommentStore) :
  foldl (λ c '(va, text), CommentMap.set va CommentMap.Function text c) c l =
  mkComments (by_addr c) (foldl (λ t '(k, v), <[k := v]> t) (by_function c) l).
Proof. revert c. induction l as [|[k v] l IH]; intros []; simpl; [done|]. apply IH. Qed.

(** [p] extends [base]: what every sequence of operations from [base] keeps. *)
Record extends (base p : Project) : Prop := {
  ext_functions : dom (functions base) =@{gset Z} dom (functions p);
  ext_symbols : dom (symbols base) ⊆@{gset Z} dom (symbols p);
  ext_addr : dom (by_addr (comments base)) ⊆@{gset Z} dom (by_addr (comments p));
  ext_func : dom (by_function (comments base)) ⊆@{gset Z} dom (by_function (comments p));
  ext_focus : is_Some (focus base) → is_Some (focus p)
}.

#[export] Instance extends_preorder : PreOrder extends.
Proof.
  split.
  - intros p. by constructor.
  - intros p q r [] []. constructor; [congruence|set_solver..|auto].
Qed.

Lemma extends_equiv base p q : p ≈ q → extends base p → extends base q.
Proof. intros [? Es Ec _ _ _ _ Ef _] []. constructor; rewrite <-?Es, <-?Ec, <-?Ef; congruence || done. Qed.

Lemma exec_extends op p : extends p (exec op p).
Proof.
  revert p. induction op as [va n k on ok|va s t o|va o| | | | | |va c o|ops IH]
    using Op_nested_ind; intros p.
  10: {
    rewrite exec_batch. revert p.
    induction IH as [|op ops Hop _ IH]; intros p; [by constructor|].
    rewrite execs_cons. by transitivity (exec op p). }
  all: unfold exec; simpl; try by constructor.
  - destruct on; [|destruct (Symbols.name _ _)]; constructor; simpl; try done;
      unfold Symbols.insert; rewrite dom_insert_L; set_solver.
  - constructor; simpl; try done; destruct s; simpl; rewrite ?dom_insert_L; set_solver.
  - destruct (function_at p va); by constructor.
  - destruct (is_clear c); by constructor.
Qed.

(** Re-applying the snapshot of [p] to the base gives [p] back. *)
Lemma apply_from_project base p :
  extends base p →
  apply_state (from_project p) base ≃ p ∧
  op_seq (apply_state (from_project p) base) = op_seq p.
Proof.
  intros []. unfold apply_state. rewrite decide_False by (simpl; unfold CURRENT_VERSION; lia).
  simpl. split; [|done]. split; [|done]. constructor; simpl; try done.
  - by rewrite Functions.apply_frames_dom.
  - rewrite foldl_symbols. by apply foldl_insert_all.
  - rewrite foldl_comments_addr, foldl_comments_func. simpl.
    unfold CommentMap.addr_entries, CommentMap.function_entries.
    rewrite !foldl_insert_all by done. by destruct (comments p).
  - destruct (focus p) eqn:E; [done|]. destruct (focus base); [|done].
    by destruct (ext_focus0 ltac:(by eexists)).
Qed.

Lemma from_to_bytes `{PostcardLaws} s : from_bytes (to_allocvec s) = Ok s.
Proof. unfold from_bytes. by rewrite take_to_allocvec. Qed.
Lemma load_saved `{PostcardLaws} s : load_from (Some (to_allocvec s)) = Some s.
Proof. unfold load_from. simpl. by rewrite from_to_bytes. Qed.

Lemma replay_app p rs rs' : replay p (rs ++ rs') = replay (replay p rs) rs'.
Proof. apply foldl_app. Qed.

(** Records at or below the counter are skipped. *)
Lemma replay_skip p rs : Forall (λ r, rec_seq r ≤ op_seq p)%Z rs → replay p rs = p.
Proof.
  induction 1 as [|r rs Hr _ IH]; [done|]. unfold replay in *. simpl.
  unfold replay_record at 2. by rewrite (proj2 (Z.ltb_ge _ _)).
Qed.

Lemma replay_record_next p r q :
  (op_seq p < rec_seq r)%Z → exec (rec_op r) p ≃ q →
  replay_record p r ≃ with_op_seq (λ _, rec_seq r) q ∧
  op_seq (replay_record p r) = rec_seq r.
Proof.
  intros Hs [[] A]. unfold replay_record. rewrite (proj2 (Z.ltb_lt _ _)) by done.
  by split; [split; [constructor|]|].
Qed.

(** Replay only sees a record through its wire form. *)
Lemma replay_wire p rs : replay p (wire_record <$> rs) = replay p rs.
Proof.
  revert p. induction rs as [|r rs IH]; intros p; [done|]. unfold replay in *. simpl.
  rewrite IH. f_equal. unfold replay_record. simpl. by rewrite exec_wire.
Qed.
End facts.
