(* ===== verification/Activity.v ===== *)
(** The operator activity feed: [Op::summary] (src/project/op.rs), the activity
    ring and its journal ([record_activity], [merge_events] of
    src/project_manager.rs).

    Formatting follows Rust's [{:#x}], [{}] and [{:?}]; in [{:?}] of a string
    the characters outside ASCII are taken as printable. *)

From Stdlib Require Import Strings.Ascii Strings.String.
From stdpp Require Import pretty.
From S2P Require Import Prelude Text Data Ops Journal.

Local Open Scope string_scope.

(** ** Formatting *)

Definition hex_digit (n : Z) : ascii :=
  if (n <? 10)%Z then ascii_of_nat (48 + Z.to_nat n) else ascii_of_nat (87 + Z.to_nat n).

Fixpoint hex_go (fuel : nat) (n : Z) (acc : string) : string :=
  match fuel with
  | 0 => acc
  | S fuel =>
      let acc := String (hex_digit (n mod 16)%Z) acc in
      if (n / 16 =? 0)%Z then acc else hex_go fuel (n / 16)%Z acc
  end.
(** [{:x}] of a [u64]: sixteen digits suffice. *)
Definition hex (n : Z) : string := hex_go 16 n "".
(** [{:#x}] *)
Definition alt_hex (n : Z) : string := "0x" +:+ hex n.

(** A string of hexadecimal digits in lower case. *)
Definition is_hex (s : string) : Prop :=
  Forall (λ c, ∃ d, (0 ≤ d < 16)%Z ∧ c = hex_digit d) (list_ascii_of_string s).
Lemma is_hex_cons c s : is_hex (String c s) ↔ (∃ d, (0 ≤ d < 16)%Z ∧ c = hex_digit d) ∧ is_hex s.
Proof. unfold is_hex. cbn [list_ascii_of_string]. by rewrite Forall_cons. Qed.

(** The sixteen digits, one by one. *)
Lemma hex_digits_all (P : Z → Prop) :
  Forall P [0;1;2;3;4;5;6;7;8;9;10;11;12;13;14;15]%Z → ∀ d, (0 ≤ d < 16)%Z → P d.
Proof.
  intros F d L. rewrite Forall_forall in F. apply F.
  assert (d = 0 ∨ d = 1 ∨ d = 2 ∨ d = 3 ∨ d = 4 ∨ d = 5 ∨ d = 6 ∨ d = 7 ∨ d = 8 ∨ d = 9 ∨ d = 10 ∨ d = 11 ∨
          d = 12 ∨ d = 13 ∨ d = 14 ∨ d = 15)%Z as H by lia.
  repeat (destruct H as [->|H]; [set_solver|]). subst d. set_solver.
Qed.
Lemma hex_digit_value d : (0 ≤ d < 16)%Z → digit_value (hex_digit d) = d.
Proof. apply (hex_digits_all (λ d, digit_value (hex_digit d) = d)). repeat constructor. Qed.
Lemma hex_digit_plain d : (0 ≤ d < 16)%Z → Ascii.eqb (hex_digit d) "." = false ∧ Ascii.eqb "+" (hex_digit d) = false.
Proof.
  apply (hex_digits_all (λ d, Ascii.eqb (hex_digit d) "." = false ∧ Ascii.eqb "+" (hex_digit d) = false)).
  repeat constructor.
Qed.

Lemma hex_go_hex fuel n s : (0 ≤ n)%Z → is_hex s → is_hex (hex_go fuel n s).
Proof.
  revert n s. induction fuel as [|fuel IH]; intros n s L H; [done|]. cbn [hex_go].
  assert (is_hex (String (hex_digit (n mod 16)) s)) as H1.
  { apply is_hex_cons. split; [|done]. exists (n mod 16)%Z. split; [by apply Z.mod_pos_bound|done]. }
  destruct (_ =? _)%Z; [done|]. apply IH; [by apply Z.div_pos|done].
Qed.
Lemma parse_hex_go fuel n s :
  (0 ≤ n < 16 ^ Z.of_nat fuel)%Z → (n ≤ u64_max)%Z → 0 < fuel → parse_digits 16 0 (hex_go fuel n s) = parse_digits 16 n s.
Proof.
  revert n s. induction fuel as [|fuel IH]; intros n s L U F; [lia|]. cbn [hex_go].
  pose proof (Z.mod_pos_bound n 16 ltac:(lia)) as M. pose proof (Z.div_mod n 16 ltac:(lia)) as D.
  assert (∀ a, (a * 16 + n mod 16 = n)%Z → parse_digits 16 a (String (hex_digit (n mod 16)) s) = parse_digits 16 n s) as G.
  { intros a E. cbn [parse_digits]. rewrite hex_digit_value by done. cbv zeta. rewrite E.
    rewrite (proj2 (Z.leb_gt _ _)) by lia. by rewrite (proj2 (Z.ltb_ge _ _)) by lia. }
  destruct (Z.eqb_spec (n / 16) 0) as [E|E]; [apply G; lia|].
  rewrite IH; [apply G; lia| |lia|].
  - split; [lia|]. apply Z.div_lt_upper_bound; [lia|]. rewrite Nat2Z.inj_succ, Z.pow_succ_r in L by lia. lia.
  - destruct fuel; [|lia]. change (16 ^ Z.of_nat 1)%Z with 16%Z in L. lia.
Qed.
Lemma hex_not_empty n : hex n ≠ "".
Proof.
  assert (∀ fuel n s, s ≠ "" → hex_go fuel n s ≠ "") as G.
  { induction fuel as [|fuel IH]; intros m s N; [done|]. cbn [hex_go]. destruct (_ =? _)%Z; [done|by apply IH]. }
  change (hex n) with (let acc := String (hex_digit (n mod 16)) "" in
    if (n / 16 =? 0)%Z then acc else hex_go 15 (n / 16) acc).
  cbv zeta. destruct (_ =? _)%Z; [done|by apply G].
Qed.

Definition QUOTE : ascii := ascii_of_nat 34.

(** [char::escape_debug], inside a string literal. *)
Definition debug_char (c : ascii) : string :=
  let n := nat_of_ascii c in
  if decide (n = 0) then "\0"
  else if decide (n = 9) then "\t"
  else if decide (n = 10) then "\n"
  else if decide (n = 13) then "\r"
  else if decide (n = 34) then String "\"%char (String QUOTE "")
  else if decide (n = 92) then "\\"
  else if decide (n < 32 ∨ n = 127) then "\u{" +:+ hex (Z.of_nat n) +:+ "}"
  else String c "".
Fixpoint debug_chars (s : string) : string :=
  match s with
  | "" => ""
  | String c s => debug_char c +:+ debug_chars s
  end.
(** [{:?}] of a [str] *)
Definition debug_str (s : string) : string :=
  String QUOTE "" +:+ debug_chars s +:+ String QUOTE "".

Fixpoint join (sep : string) (l : list string) : string :=
  match l with
  | [] => ""
  | [x] => x
  | x :: l => x +:+ sep +:+ join sep l
  end.

(** The derived [Debug] of [DataType]. *)
Fixpoint debug_type (t : DataType) : string :=
  match t with
  | Void => "Void"
  | Bool => "Bool"
  | Int b => "Int(" +:+ pretty b +:+ ")"
  | Uint b => "Uint(" +:+ pretty b +:+ ")"
  | Float => "Float"
  | Double => "Double"
  | Ptr t => "Ptr(" +:+ debug_type t +:+ ")"
  | Array t n => "Array(" +:+ debug_type t +:+ ", " +:+ pretty n +:+ ")"
  | FuncPtr ps r =>
      "FuncPtr { params: [" +:+ join ", " (map debug_type ps) +:+ "], return_type: "
        +:+ debug_type r +:+ " }"
  | Named n => "Named(" +:+ debug_str n +:+ ")"
  | Unknown b => "Unknown(" +:+ pretty b +:+ ")"
  end.

(** The UTF-8 bytes of the arrow in the rename summary. *)
Definition ARROW : string :=
  String (ascii_of_nat 226) (String (ascii_of_nat 134) (String (ascii_of_nat 146) "")).

(** [Op::summary] *)
Definition summary (op : Op) : string :=
  match op with
  | RenameSymbol va name _ _ _ => "rename " +:+ alt_hex va +:+ " " +:+ ARROW +:+ " " +:+ name
  | SetComment va scope _ _ =>
      match scope with
      | Address => "comment at " +:+ alt_hex va
      | CommentMap.Function => "function comment at " +:+ alt_hex va
      end
  | SetFocus va _ => "focus " +:+ alt_hex va
  | SetGlobalType va ty _ => "retype " +:+ alt_hex va +:+ " -> " +:+ debug_type ty
  | SetFunctionSignature va signature _ =>
      "signature " +:+ alt_hex va +:+ " -> " +:+ sig_name signature
  | SetStackLocalType function_va offset ty _ =>
      "stack " +:+ alt_hex function_va +:+ "[" +:+ pretty offset +:+ "] -> " +:+ debug_type ty
  | SetStackLocalName function_va offset name _ =>
      "stack name " +:+ alt_hex function_va +:+ "[" +:+ pretty offset +:+ "] -> " +:+ name
  | SetParamName function_va index name _ =>
      "param " +:+ alt_hex function_va +:+ "[" +:+ pretty index +:+ "] -> " +:+ name
  | SetFunctionMemory va card _ =>
      "memory " +:+ alt_hex va +:+ ": " +:+ default "(memory)" (mc_purpose card)
  | Batch ops => "batch of " +:+ pretty (length ops) +:+ " ops"
  end.

Example summary_retype :
  summary (SetGlobalType 0x140001000 (Ptr (Int 8)) None) = "retype 0x140001000 -> Ptr(Int(8))".
Proof. reflexivity. Qed.

Local Close Scope string_scope.

(** ** The activity ring *)

Definition ACTIVITY_CAPACITY : nat := 200.

(** How an append to a journal file can end: nothing written, or an error after
    [n] bytes of the line. *)
Inductive AppendOutcome :=
  | AppendOk
  | AppendUnopened
  | AppendFailed (n : nat).

Definition journal_append `{LineCodec R} (o : AppendOutcome) (r : R) (file : option bytes)
    : Result () * option bytes :=
  match o with
  | AppendOk => (Ok (), append r file)
  | AppendUnopened => (Err "open oplog for append", file)
  | AppendFailed n => (Err "append op to oplog", append_torn n r file)
  end.

(** The in-memory half of [record_activity]: a bounded queue. *)
Definition push_activity (event : ActivityEvent) (log : list ActivityEvent)
    : list ActivityEvent :=
  (if decide (ACTIVITY_CAPACITY ≤ length log) then drop 1 log else log) ++ [event].

(** [record_activity]: the journal append comes first and may fail silently. *)
Definition record_activity `{LineCodec ActivityEvent} (o : AppendOutcome) (now : Z)
    (project_id : Z) (seq : Z) (client_id : string) (op : Op)
    (file : option bytes) (log : list ActivityEvent)
    : option bytes * list ActivityEvent :=
  let event := mkEvent now project_id client_id (summary op) seq in
  (snd (journal_append o event file), push_activity event log).

(** [merge_events]: backfill by timestamp, keeping the most recent. *)
Definition merge_events (log extra : list ActivityEvent) : list ActivityEvent :=
  match extra with
  | [] => log
  | _ => last_n ACTIVITY_CAPACITY (sort_by_key ae_timestamp (extra ++ log))
  end.

(** The ring is the last two hundred events of its history. *)
Lemma push_activity_last_n event log history :
  log = last_n ACTIVITY_CAPACITY history →
  push_activity event log = last_n ACTIVITY_CAPACITY (history ++ [event]).
Proof.
  intros ->. rewrite last_n_snoc. unfold push_activity.
  pose proof (last_n_length ACTIVITY_CAPACITY history) as L.
  set (log := last_n ACTIVITY_CAPACITY history) in *.
  unfold last_n. rewrite length_app. simpl. case_decide.
  - replace (length log + 1 - ACTIVITY_CAPACITY) with 1 by lia.
    rewrite drop_app_le; [done|]. unfold ACTIVITY_CAPACITY in *. lia.
  - by replace (length log + 1 - ACTIVITY_CAPACITY) with 0 by lia.
Qed.

Lemma push_activity_length event log :
  length log ≤ ACTIVITY_CAPACITY → length (push_activity event log) ≤ ACTIVITY_CAPACITY.
Proof.
  intros H. unfold push_activity. rewrite length_app. simpl.
  case_decide; [rewrite length_drop|]; unfold ACTIVITY_CAPACITY in *; lia.
Qed.

Lemma merge_events_sorted log extra :
  StronglySorted (key_le ae_timestamp) log →
  StronglySorted (key_le ae_timestamp) (merge_events log extra).
Proof.
  intros H. unfold merge_events. destruct extra as [|e extra]; [done|].
  set (s := sort_by_key _ _). unfold last_n.
  pose proof (sort_by_key_sorted ae_timestamp ((e :: extra) ++ log)) as S.
  fold s in S. rewrite <-(take_drop (length s - ACTIVITY_CAPACITY) s) in S.
  by eapply StronglySorted_app_1_r.
Qed.

Lemma merge_events_length log extra :
  length log ≤ ACTIVITY_CAPACITY → length (merge_events log extra) ≤ ACTIVITY_CAPACITY.
Proof. intros H. unfold merge_events. destruct extra; [done|]. rewrite last_n_length. lia. Qed.
