(* ===== verification/Writer.v ===== *)
(** The per-project writer task of [src/project_manager.rs]: [writer_loop],
    [apply_one], [undo_one], [redo_one], the per-client undo and redo stacks,
    the automatic checkpoint and the read state the other threads load.

    One request is one step: the task owns its state, so the requests of all
    clients are a sequence. What the file system does during a step is the
    step's [IoEnv]. *)

From S2P Require Import Prelude Data Ops OpsFacts Journal Persist Activity.

(** ** State and requests *)

Record UndoRedoStack := mkStack { undo_stack : list Op; redo_stack : list Op }.
Definition UndoRedoStack_default : UndoRedoStack := mkStack [] [].

Inductive WriteRequest :=
  | Apply (client_id : string) (op : Op)
  | UndoLast (client_id : string)
  | RedoLast (client_id : string).

Definition request_client (req : WriteRequest) : string :=
  match req with Apply c _ | UndoLast c | RedoLast c => c end.

Definition CHECKPOINT_OPS : nat := 256.

(** The outcome of the file operations of one step, and its clock. *)
Record IoEnv := mkIo {
  io_append : AppendOutcome;
  io_activity : AppendOutcome;
  io_now : Z;
  io_save : SaveOutcome
}.

(** The task's locals ([project], [history], [ops_since_save]), the shared
    read state, the files and the activity ring. *)
Record Writer := mkWriter {
  w_id : Z;
  w_project : Project;
  w_read_state : Project;
  w_disk : Disk;
  w_history : gmap string UndoRedoStack;
  w_ops_since_save : nat;
  w_activity_file : option bytes;
  w_activity_log : list ActivityEvent
}.

(** The client's stacks: [entry(client_id).or_default()]. *)
Definition stack_of (history : gmap string UndoRedoStack) (client_id : string) : UndoRedoStack :=
  default UndoRedoStack_default (history !! client_id).

Section writer.
Context `{LineCodec JournalRecord, LineCodec ActivityEvent, Postcard}.

(** [op_seq += 1], [apply_to], [journal.append]: common to the three requests.
    The state is edited before the append can fail. *)
Definition journaled (o : AppendOutcome) (op : Op) (project : Project) (disk : Disk)
    : Result () * Op * Project * Disk :=
  let project := with_op_seq (λ s, s +wrap 1) project in
  let '(applied, project) := apply_to op project in
  let '(r, oplog) := journal_append o (mkRecord (op_seq project) applied) (dk_oplog disk) in
  (r, applied, project, mkDisk (dk_idb disk) oplog).

(** [apply_one] *)
Definition apply_one (o : AppendOutcome) (client_id : string) (op : Op)
    (project : Project) (disk : Disk) (history : gmap string UndoRedoStack)
    : Result Op * Project * Disk * gmap string UndoRedoStack :=
  let '(r, applied, project, disk) := journaled o op project disk in
  match r with
  | Err e => (Err e, project, disk, history)
  | Ok _ =>
      let stack := stack_of history client_id in
      (Ok applied, project, disk,
       <[client_id := mkStack (undo_stack stack ++ [applied]) []]> history)
  end.

(** [undo_one]: the stack is popped before the operation is known to be
    invertible and before the append. *)
Definition undo_one (o : AppendOutcome) (client_id : string)
    (project : Project) (disk : Disk) (history : gmap string UndoRedoStack)
    : Result Op * Project * Disk * gmap string UndoRedoStack :=
  match history !! client_id with
  | None => (Err "no operations to undo", project, disk, history)
  | Some stack =>
      match vec_pop (undo_stack stack) with
      | None => (Err "no operations to undo", project, disk, history)
      | Some (last, undos) =>
          let popped := <[client_id := mkStack undos (redo_stack stack)]> history in
          match inverse last with
          | None => (Err "operation is not invertible", project, disk, popped)
          | Some inv =>
              let '(r, applied, project, disk) := journaled o inv project disk in
              match r with
              | Err e => (Err e, project, disk, popped)
              | Ok _ =>
                  (Ok applied, project, disk,
                   <[client_id := mkStack undos (redo_stack stack ++ [last])]> history)
              end
          end
      end
  end.

(** [redo_one] *)
Definition redo_one (o : AppendOutcome) (client_id : string)
    (project : Project) (disk : Disk) (history : gmap string UndoRedoStack)
    : Result Op * Project * Disk * gmap string UndoRedoStack :=
  match history !! client_id with
  | None => (Err "no operations to redo", project, disk, history)
  | Some stack =>
      match vec_pop (redo_stack stack) with
      | None => (Err "no operations to redo", project, disk, history)
      | Some (op, redos) =>
          let popped := <[client_id := mkStack (undo_stack stack) redos]> history in
          let '(r, applied, project, disk) := journaled o op project disk in
          match r with
          | Err e => (Err e, project, disk, popped)
          | Ok _ =>
              (Ok applied, project, disk,
               <[client_id := mkStack (undo_stack stack ++ [applied]) redos]> history)
          end
      end
  end.

Definition dispatch (o : AppendOutcome) (req : WriteRequest)
    (project : Project) (disk : Disk) (history : gmap string UndoRedoStack)
    : Result Op * Project * Disk * gmap string UndoRedoStack :=
  match req with
  | Apply client_id op => apply_one o client_id op project disk history
  | UndoLast client_id => undo_one o client_id project disk history
  | RedoLast client_id => redo_one o client_id project disk history
  end.

(** One round of [writer_loop]: the request, the published state, the activity
    event of a successful request, the answer, and the checkpoint. *)
Definition handle (io : IoEnv) (req : WriteRequest) (w : Writer) : Result Op * Writer :=
  let '(result, project, disk, history) :=
    dispatch (io_append io) req (w_project w) (w_disk w) (w_history w) in
  let '(afile, alog) :=
    match result with
    | Ok applied =>
        record_activity (io_activity io) (io_now io) (w_id w) (op_seq project)
          (request_client req) applied (w_activity_file w) (w_activity_log w)
    | Err _ => (w_activity_file w, w_activity_log w)
    end in
  let ops := S (w_ops_since_save w) in
  let '(disk, ops) :=
    if decide (CHECKPOINT_OPS ≤ ops) then (snd (save project (io_save io) disk), 0)
    else (disk, ops) in
  (result, mkWriter (w_id w) project project disk history ops afile alog).

(** [writer_loop] over the requests received until the channel closes. *)
Fixpoint writer_loop (reqs : list (IoEnv * WriteRequest)) (w : Writer)
    : list (Result Op) * Writer :=
  match reqs with
  | [] => ([], w)
  | (io, req) :: reqs =>
      let '(r, w) := handle io req w in
      let '(rs, w) := writer_loop reqs w in
      (r :: rs, w)
  end.

(** The task as [ProjectManager::open] starts it: the project read back from
    disk, no history, the activity journal backfilled into the ring. *)
Definition start (id : Z) (base : Project) (disk : Disk)
    (activity_file : option bytes) (activity_log : list ActivityEvent) : Writer :=
  let project := reopen base disk in
  mkWriter id project project disk ∅ 0 activity_file
    (merge_events activity_log (read_tail ACTIVITY_CAPACITY activity_file)).

(** [ProjectManager::close]: the published state is saved. *)
Definition close (o : SaveOutcome) (w : Writer) : Result () * Disk :=
  save (w_read_state w) o (w_disk w).
End writer.
