(* ===== verification/WriterFacts.v ===== *)
(** What the writer task of [src/project_manager.rs] guarantees: the files
    always reopen to the live state, a crash in the middle of an append loses at
    most the request being served, the journal tail is bounded, and each
    client's undo and redo restore the state and touch nobody else's stacks. *)

From stdpp Require Import relations.
From S2P Require Import Prelude Data Ops OpsFacts Journal Persist Activity Writer.

(** ** The operation counter *)

Lemma with_op_seq_equiv f p : with_op_seq f p ≃ p.
Proof. split; [by constructor|done]. Qed.
#[export] Hint Resolve with_op_seq_equiv : windy.

Lemma exec_op_seq op p : op_seq (exec op p) = op_seq p.
Proof.
  revert p. induction op as [va n k on ok| | va o| | | | | |va c o|ops IH] using Op_nested_ind;
    intros p.
  10: {
    rewrite exec_batch. revert p. induction IH as [|op ops Hop _ IH]; intros p; [done|].
    by rewrite execs_cons, IH. }
  all: unfold exec; simpl; try done.
  - destruct on; [|destruct (Symbols.name _ _)]; done.
  - by destruct (function_at p va).
  - by destruct (is_clear c).
Qed.

(** A captured operation has the same effect as the operation it came from. *)
Lemma exec_applied op p : exec (fst (apply_to op p)) p = exec op p.
Proof.
  unfold apply_to, exec. destruct (capture_and_apply op p) as [op' p'] eqn:E.
  simpl. by rewrite (capture_idempotent _ _ _ _ E).
Qed.

Lemma journal_append_ok `{LineCodec R} (r : R) file :
  journal_append AppendOk r file = (Ok (), Some (default [] file ++ line r)).
Proof. done. Qed.

Section durability.
Context `{LineCodecLaws JournalRecord wire_record, LineCodec ActivityEvent, PostcardLaws}.
Implicit Types (base p : Project) (d : Disk) (w : Writer).

(** The snapshot half of [reopen]. *)
Definition opened base d : Project :=
  match load_from (dk_idb d) with Some s => apply_state s base | None => base end.

(** The journal holds whole records only. *)
Definition journal_holds d (rs : list JournalRecord) : Prop :=
  default [] (dk_oplog d) = log rs.

Lemma read_all_default (f : option bytes) :
  read_all (R:=JournalRecord) f = read_all (R:=JournalRecord) (Some (default [] f)).
Proof. by destruct f. Qed.

Lemma reopen_holds base d rs :
  journal_holds d rs → reopen base d = replay (opened base d) rs.
Proof.
  intros E. unfold reopen. rewrite read_all_default, E, read_log. apply replay_wire.
Qed.

(** The files describe the live project [p]. *)
Record durable base p d : Prop := {
  dur_clean : ∃ rs, journal_holds d rs ∧ Forall (λ r, rec_seq r ≤ op_seq p)%Z rs;
  dur_extends : extends base p;
  dur_state : reopen base d ≃ p;
  dur_seq : op_seq (reopen base d) = op_seq p;
  dur_u64 : is_u64 (op_seq p)
}.

Lemma extends_replay base p rs : extends base p → extends base (replay p rs).
Proof.
  revert p. induction rs as [|r rs IH]; intros p E; [done|]. apply IH.
  unfold replay_record. destruct (_ <? _)%Z; [|done].
  transitivity (exec (rec_op r) p); [|by constructor]. etrans; [done|apply exec_extends].
Qed.

Lemma foldl_insert_dom {A} (l : list (Z * A)) (m : gmap Z A) :
  dom m ⊆@{gset Z} dom (foldl (λ t '(k, v), <[k := v]> t) m l).
Proof.
  revert m. induction l as [|[k v] l IH]; intros m; simpl; [done|].
  etrans; [|apply IH]. rewrite dom_insert_L. set_solver.
Qed.
Lemma foldl_symbols_dom l (m : gmap Z Symbol) :
  dom m ⊆@{gset Z} dom (foldl (λ t '(va, name, kind), Symbols.insert va name kind t) m l).
Proof.
  revert m. induction l as [|[[k n] kd] l IH]; intros m; simpl; [done|].
  etrans; [|apply IH]. unfold Symbols.insert. rewrite dom_insert_L. set_solver.
Qed.

(** Whatever the snapshot holds, applying it only adds to the base. *)
Lemma apply_state_extends s base : extends base (apply_state s base).
Proof.
  unfold apply_state. case_decide; [done|]. constructor; simpl.
  - by rewrite Functions.apply_frames_dom.
  - apply foldl_symbols_dom.
  - rewrite foldl_comments_addr, foldl_comments_func. apply foldl_insert_dom.
  - rewrite foldl_comments_addr, foldl_comments_func. apply foldl_insert_dom.
  - by destruct (st_focus s).
Qed.

Lemma replay_bound p rs :
  (op_seq p ≤ op_seq (replay p rs))%Z ∧
  Forall (λ r, rec_seq r ≤ op_seq (replay p rs))%Z rs.
Proof.
  revert p. induction rs as [|r rs IH]; intros p; [by split|].
  destruct (IH (replay_record p r)) as [IH1 IH2].
  change (replay p (r :: rs)) with (replay (replay_record p r) rs).
  assert (op_seq p ≤ op_seq (replay_record p r) ∧ rec_seq r ≤ op_seq (replay_record p r))%Z.
  { unfold replay_record. destruct (Z.ltb_spec (op_seq p) (rec_seq r)); simpl; lia. }
  split; [lia|]. constructor; [lia|done].
Qed.

Lemma durable_start base d rs :
  journal_holds d rs → is_u64 (op_seq (reopen base d)) → durable base (reopen base d) d.
Proof.
  intros E U. constructor; try done.
  - exists rs. split; [done|]. rewrite (reopen_holds _ _ rs) by done. apply replay_bound.
  - rewrite (reopen_holds _ _ rs) by done. apply extends_replay. unfold opened.
    destruct (load_from _); [apply apply_state_extends|done].
Qed.

Lemma seq_next p : is_u64 (op_seq p) → (op_seq p < u64_max)%Z →
  op_seq p +wrap 1 = (op_seq p + 1)%Z.
Proof. intros. apply wrap_add_small; [done|lia|unfold u64_max in *; lia]. Qed.

(** The record a request appends, and its effect. *)
Definition next_record op p : JournalRecord :=
  let p1 := with_op_seq (λ s, s +wrap 1) p in
  mkRecord (op_seq p1) (fst (apply_to op p1)).
Definition next_state op p : Project := exec op (with_op_seq (λ s, s +wrap 1) p).

Lemma next_state_equiv op p : next_state op p ≃ exec op p.
Proof. apply exec_proper_replay, with_op_seq_equiv. Qed.
Lemma next_state_seq op p : op_seq (next_state op p) = op_seq p +wrap 1.
Proof. unfold next_state. by rewrite exec_op_seq. Qed.

Lemma journaled_eq o op p d :
  journaled o op p d =
    (fst (journal_append o (next_record op p) (dk_oplog d)),
     rec_op (next_record op p), next_state op p,
     mkDisk (dk_idb d) (snd (journal_append o (next_record op p) (dk_oplog d)))).
Proof.
  unfold journaled, next_record, next_state.
  pose proof (exec_op_seq op (with_op_seq (λ s, s +wrap 1) p)) as S. revert S.
  unfold exec, apply_to. destruct (capture_and_apply op _) as [applied p'] eqn:E. simpl.
  intros ->. by destruct (journal_append _ _ _).
Qed.

(** Replaying the next record gives the next state. *)
Lemma replay_next base p d op :
  durable base p d → (op_seq p < u64_max)%Z →
  replay_record (reopen base d) (next_record op p) ≃ next_state op p ∧
  op_seq (replay_record (reopen base d) (next_record op p)) = op_seq (next_state op p).
Proof.
  intros D Hs. pose proof (seq_next _ (dur_u64 _ _ _ D) Hs) as N.
  unfold replay_record. rewrite (dur_seq _ _ _ D), next_state_seq, N. simpl. rewrite N.
  rewrite (proj2 (Z.ltb_lt _ _)) by lia. split; [|done].
  rewrite with_op_seq_equiv, (dur_state _ _ _ D). unfold next_state.
  rewrite <-(exec_applied op (with_op_seq _ p)).
  apply exec_proper_replay. symmetry. apply with_op_seq_equiv.
Qed.

Lemma durable_journaled base p d op :
  durable base p d → (op_seq p < u64_max)%Z →
  durable base (next_state op p)
    (mkDisk (dk_idb d) (snd (journal_append AppendOk (next_record op p) (dk_oplog d)))).
Proof.
  intros D Hs. pose proof (seq_next _ (dur_u64 _ _ _ D) Hs) as N.
  destruct (dur_clean _ _ _ D) as (rs & E & B).
  set (d' := mkDisk _ _).
  assert (journal_holds d' (rs ++ [next_record op p])) as E'.
  { unfold journal_holds. simpl. rewrite log_app, log_single. by f_equal. }
  assert (reopen base d' = replay_record (reopen base d) (next_record op p)) as R.
  { rewrite (reopen_holds _ _ _ E'), (reopen_holds _ _ _ E).
    change (opened base d') with (opened base d). apply replay_app. }
  destruct (replay_next base p d op D Hs) as [R1 R2].
  constructor; rewrite ?R; try done.
  - exists (rs ++ [next_record op p]). split; [done|].
    rewrite next_state_seq, N. apply Forall_app. split.
    + eapply Forall_impl; [done|]. simpl. lia.
    + apply Forall_singleton. simpl. lia.
  - etrans; [apply (dur_extends _ _ _ D)|].
    etrans; [|apply exec_extends]. by constructor.
  - rewrite next_state_seq, N. destruct (dur_u64 _ _ _ D). split; lia.
Qed.

Lemma durable_save base p d o :
  durable base p d → (∀ n, o ≠ IdbPartial n) → durable base p (snd (save p o d)).
Proof.
  intros D Ho. destruct (dur_clean _ _ _ D) as (rs & E & B).
  destruct (apply_from_project base p (dur_extends _ _ _ D)) as [A1 A2].
  assert (∀ d' rs', dk_idb d' = Some (to_allocvec (from_project p)) →
    journal_holds d' rs' → Forall (λ r, rec_seq r ≤ op_seq p)%Z rs' → durable base p d') as S.
  { intros d' rs' I E' B'.
    assert (reopen base d' = apply_state (from_project p) base) as R.
    { rewrite (reopen_holds _ _ _ E'). unfold opened. rewrite I, load_saved.
      apply replay_skip. by rewrite A2. }
    constructor; rewrite ?R; try done; [by exists rs'|apply D|apply D]. }
  destruct o; simpl; [|by apply (S _ rs)|done|by destruct (Ho n)].
  apply (S _ []); [done| |done].
  unfold journal_holds, truncate_through. simpl. f_equal.
  rewrite read_all_default, E, read_log, filter_wire.
  replace (filter _ rs) with (@nil JournalRecord); [done|].
  symmetry. clear -B. induction B as [|r rs Hr _ IH]; [done|].
  rewrite filter_cons. by rewrite decide_False by lia.
Qed.

(** *** Requests *)

(** What a request does to the project and the files: nothing, or one
    journaled operation. *)
Lemma dispatch_effect o req p d h r p' d' h' :
  dispatch o req p d h = (r, p', d', h') →
  (p' = p ∧ d' = d ∧ is_ok r = false) ∨
  ∃ op, p' = next_state op p ∧
    d' = mkDisk (dk_idb d) (snd (journal_append o (next_record op p) (dk_oplog d))) ∧
    is_ok r = is_ok (fst (journal_append o (next_record op p) (dk_oplog d))).
Proof.
  destruct req as [c op|c|c]; simpl; unfold apply_one, undo_one, redo_one.
  - rewrite journaled_eq. intros E. right. exists op.
    destruct (fst (journal_append _ _ _)); by simplify_eq/=.
  - destruct (h !! c) as [st|]; [|intros; simplify_eq; by left].
    destruct (vec_pop _) as [[last undos]|]; [|intros; simplify_eq; by left].
    destruct (inverse last) as [inv|]; [|intros; simplify_eq; by left].
    rewrite journaled_eq. intros E. right. exists inv.
    destruct (fst (journal_append _ _ _)); by simplify_eq/=.
  - destruct (h !! c) as [st|]; [|intros; simplify_eq; by left].
    destruct (vec_pop _) as [[op redos]|]; [|intros; simplify_eq; by left].
    rewrite journaled_eq. intros E. right. exists op.
    destruct (fst (journal_append _ _ _)); by simplify_eq/=.
Qed.

(** One round, with its parts named. *)
Lemma handle_inv io req w r w' :
  handle io req w = (r, w') →
  ∃ d h,
    dispatch (io_append io) req (w_project w) (w_disk w) (w_history w)
      = (r, w_project w', d, h) ∧
    w_read_state w' = w_project w' ∧ w_history w' = h ∧
    (w_ops_since_save w' = S (w_ops_since_save w) ∧ w_disk w' = d ∧
       S (w_ops_since_save w) < CHECKPOINT_OPS ∨
     w_ops_since_save w' = 0 ∧ w_disk w' = snd (save (w_project w') (io_save io) d) ∧
       CHECKPOINT_OPS ≤ S (w_ops_since_save w)).
Proof.
  unfold handle. destruct (dispatch _ _ _ _ _) as [[[r1 p1] d1] h1]. intros E. exists d1, h1.
  destruct (match r1 with Ok _ => _ | Err _ => _ end) as [af al].
  case_decide; simplify_eq/=; repeat split; [right|left]; repeat split; lia || done.
Qed.

(** A step the file system does not disturb: the append succeeds, and a
    checkpoint that fails has not touched the IDB. *)
Record benign (io : IoEnv) : Prop := {
  ben_append : io_append io = AppendOk;
  ben_save n : io_save io ≠ IdbPartial n
}.

(** A step in which every file operation succeeds. *)
Record smooth (io : IoEnv) : Prop := {
  smo_append : io_append io = AppendOk;
  smo_save : io_save io = SaveOk
}.

(** The writer serving one request under a file system satisfying [P]. *)
Inductive wstep (P : IoEnv → Prop) : Writer → Writer → Prop :=
  | wstep_handle io req w r w' :
      P io → (op_seq (w_project w) < u64_max)%Z →
      handle io req w = (r, w') → wstep P w w'.

Record writer_ok base w : Prop := {
  wok_durable : durable base (w_project w) (w_disk w);
  wok_read : w_read_state w = w_project w;
  wok_ops : w_ops_since_save w < CHECKPOINT_OPS
}.

Lemma start_ok base d rs id afile alog :
  journal_holds d rs → is_u64 (op_seq (reopen base d)) →
  writer_ok base (start id base d afile alog).
Proof.
  intros E U. constructor; simpl; [by eapply durable_start|done|unfold CHECKPOINT_OPS; lia].
Qed.

Lemma dispatch_durable base req p d h r p' d' h' :
  durable base p d → (op_seq p < u64_max)%Z →
  dispatch AppendOk req p d h = (r, p', d', h') → durable base p' d'.
Proof.
  intros D S [(-> & -> & _)|(op & -> & -> & _)]%dispatch_effect; [done|].
  by apply durable_journaled.
Qed.

Lemma wstep_ok base w w' : writer_ok base w → wstep benign w w' → writer_ok base w'.
Proof.
  intros W. destruct 1 as [io req w r w' [A S] U Hh].
  apply handle_inv in Hh as (d & h & E & R & _ & Hs). rewrite A in E.
  pose proof (dispatch_durable _ _ _ _ _ _ _ _ _ (wok_durable _ _ W) U E) as D.
  destruct Hs as [(Eo & Ed & L)|(Eo & Ed & L)]; constructor;
    rewrite ?R, ?Ed, ?Eo; try done; [by apply durable_save|unfold CHECKPOINT_OPS; lia].
Qed.

Lemma wsteps_ok base w w' : writer_ok base w → rtc (wstep benign) w w' → writer_ok base w'.
Proof. intros W Hr. induction Hr; eauto using wstep_ok. Qed.

(** *** The length of the journal tail *)

Definition tail_length d : nat := length (read_all (R:=JournalRecord) (dk_oplog d)).

Lemma tail_length_holds d rs : journal_holds d rs → tail_length d = length rs.
Proof. intros E. unfold tail_length. by rewrite read_all_default, E, read_log, length_fmap. Qed.

Lemma save_ok_tail base p d : durable base p d → tail_length (snd (save p SaveOk d)) = 0.
Proof.
  intros D. destruct (dur_clean _ _ _ D) as (rs & E & B).
  apply (tail_length_holds _ []). unfold journal_holds, truncate_through. simpl. f_equal.
  rewrite read_all_default, E, read_log, filter_wire. simpl.
  replace (filter _ rs) with (@nil JournalRecord); [done|].
  symmetry. clear -B. induction B as [|r rs Hr _ IH]; [done|].
  rewrite filter_cons. by rewrite decide_False by lia.
Qed.

Lemma dispatch_tail base req p d h r p' d' h' :
  durable base p d →
  dispatch AppendOk req p d h = (r, p', d', h') → tail_length d' ≤ S (tail_length d).
Proof.
  intros D [(-> & -> & _)|(op & -> & -> & _)]%dispatch_effect; [lia|].
  destruct (dur_clean _ _ _ D) as (rs & E & _).
  rewrite (tail_length_holds _ _ E), (tail_length_holds _ (rs ++ [next_record op p])).
  - rewrite length_app. simpl. lia.
  - unfold journal_holds. simpl. rewrite log_app, log_single. by f_equal.
Qed.

Lemma smooth_benign io : smooth io → benign io.
Proof. intros [A S]. split; [done|]. intros n. by rewrite S. Qed.

Lemma wsteps_tail base w w' n :
  writer_ok base w → rtc (wstep smooth) w w' →
  tail_length (w_disk w) ≤ n + w_ops_since_save w →
  writer_ok base w' ∧ tail_length (w_disk w') ≤ n + w_ops_since_save w'.
Proof.
  intros W Hr. revert W. induction Hr as [|w1 w2 w3 Hs _ IH]; intros W L; [done|].
  destruct Hs as [io req w r w' Sm U Hh].
  pose proof (wstep_ok _ _ _ W (wstep_handle _ _ _ _ _ _ (smooth_benign _ Sm) U Hh)) as W'.
  apply IH; [done|].
  apply handle_inv in Hh as (d & h & E & R & _ & Hs). rewrite (smo_append _ Sm) in E.
  pose proof (dispatch_tail _ _ _ _ _ _ _ _ _ (wok_durable _ _ W) E) as T.
  pose proof (dispatch_durable _ _ _ _ _ _ _ _ _ (wok_durable _ _ W) U E) as D.
  destruct Hs as [(Eo & Ed & _)|(Eo & Ed & _)]; rewrite Eo, Ed; [lia|].
  rewrite (smo_save _ Sm), (save_ok_tail _ _ _ D). lia.
Qed.

(** *** A crash in the middle of an append *)

Lemma durable_torn base p d op n :
  durable base p d → (op_seq p < u64_max)%Z →
  let d' := mkDisk (dk_idb d) (append_torn n (next_record op p) (dk_oplog d)) in
  reopen base d' ≃ p ∨ reopen base d' ≃ next_state op p.
Proof.
  intros D U d'. destruct (dur_clean _ _ _ D) as (rs & E & B).
  destruct (decide (n < length (line (next_record op p)))) as [Hn|Hn].
  - assert (read_all (dk_oplog d') =
      wire_record <$> (if decide (n = length (encode (next_record op p)))
                       then rs ++ [next_record op p] else rs)) as R.
    { rewrite <-read_torn by done. unfold d'. simpl. unfold append_torn.
      by rewrite E. }
    unfold reopen. rewrite R, replay_wire. change (load_from (dk_idb d')) with (load_from (dk_idb d)).
    change (match load_from (dk_idb d) with Some s => apply_state s base | None => base end)
      with (opened base d).
    case_decide; [right|left]; [rewrite replay_app|]; rewrite <-(reopen_holds _ _ _ E).
    + apply (proj1 (replay_next _ _ _ _ D U)).
    + apply D.
  - right. pose proof (durable_journaled _ _ _ op D U) as D'.
    unfold d', append_torn. rewrite take_ge by lia. apply D'.
Qed.

(** *** Undo and redo stacks *)

(** A request only touches its own client's stacks. *)
Lemma handle_other io req w r w' c :
  handle io req w = (r, w') → c ≠ request_client req →
  w_history w' !! c = w_history w !! c.
Proof.
  intros (d & h & E & _ & -> & _)%handle_inv N.
  destruct req as [c' op|c'|c']; simpl in *; unfold apply_one, undo_one, redo_one in E.
  - rewrite journaled_eq in E. destruct (fst _); simplify_eq/=; [|done].
    by rewrite lookup_insert_ne.
  - destruct (w_history w !! c') as [st|]; [|by simplify_eq].
    destruct (vec_pop _) as [[last undos]|]; [|by simplify_eq].
    destruct (inverse last); [rewrite journaled_eq in E; destruct (fst _)|];
      simplify_eq/=; by rewrite lookup_insert_ne.
  - destruct (w_history w !! c') as [st|]; [|by simplify_eq].
    destruct (vec_pop _) as [[op redos]|]; [|by simplify_eq].
    rewrite journaled_eq in E; destruct (fst _); simplify_eq/=; by rewrite lookup_insert_ne.
Qed.

Lemma stack_of_lookup h c st : h !! c = Some st → stack_of h c = st.
Proof. unfold stack_of. by intros ->. Qed.

(** An edit that reaches the journal. *)
Lemma handle_apply io c op w r w' :
  io_append io = AppendOk → handle io (Apply c op) w = (r, w') →
  let applied := rec_op (next_record op (w_project w)) in
  r = Ok applied ∧ w_project w' = next_state op (w_project w) ∧
  w_history w' !! c = Some (mkStack (undo_stack (stack_of (w_history w) c) ++ [applied]) []).
Proof.
  intros A (d & h & E & _ & -> & _)%handle_inv. simpl in *. rewrite A in E.
  unfold apply_one in E. rewrite journaled_eq in E. simpl fst in E.
  cbv iota beta in E. simplify_eq. by rewrite lookup_insert_eq.
Qed.

(** An undo whose last operation is invertible. *)
Lemma handle_undo io c w r w' undos last redos inv :
  io_append io = AppendOk → handle io (UndoLast c) w = (r, w') →
  w_history w !! c = Some (mkStack (undos ++ [last]) redos) → inverse last = Some inv →
  r = Ok (rec_op (next_record inv (w_project w))) ∧
  w_project w' = next_state inv (w_project w) ∧
  w_history w' !! c = Some (mkStack undos (redos ++ [last])).
Proof.
  intros A (d & h & E & _ & -> & _)%handle_inv Hc I. simpl in *. rewrite A in E.
  unfold undo_one in E. rewrite Hc in E. simpl in E. rewrite vec_pop_snoc, I in E.
  rewrite journaled_eq in E. simpl fst in E. cbv iota beta in E. simplify_eq.
  by rewrite lookup_insert_eq.
Qed.

Lemma handle_redo io c w r w' undos redos op :
  io_append io = AppendOk → handle io (RedoLast c) w = (r, w') →
  w_history w !! c = Some (mkStack undos (redos ++ [op])) →
  let applied := rec_op (next_record op (w_project w)) in
  r = Ok applied ∧ w_project w' = next_state op (w_project w) ∧
  w_history w' !! c = Some (mkStack (undos ++ [applied]) redos).
Proof.
  intros A (d & h & E & _ & -> & _)%handle_inv Hc. simpl in *. rewrite A in E.
  unfold redo_one in E. rewrite Hc in E. simpl in E. rewrite vec_pop_snoc in E.
  rewrite journaled_eq in E. simpl fst in E. cbv iota beta in E. simplify_eq.
  by rewrite lookup_insert_eq.
Qed.

(** The operation recorded for an edit, in terms of the edit. *)
Lemma next_record_capture op p :
  capture_and_apply op (with_op_seq (λ s, s +wrap 1) p) =
    (rec_op (next_record op p), next_state op p).
Proof.
  unfold next_record, next_state, exec, apply_to. simpl.
  by destruct (capture_and_apply _ _).
Qed.
Lemma next_restores op p :
  wf_project p → restorable op p = true →
  undo (rec_op (next_record op p)) (next_state op p) ≈ p.
Proof.
  intros W R. pose proof (with_op_seq_equiv (λ s, s +wrap 1) p) as E.
  rewrite <-E at 3. apply (undo_restores op); [|by rewrite (restorable_equiv _ _ p)|].
  - destruct W. by constructor.
  - apply next_record_capture.
Qed.
Lemma next_redoes op p :
  exec (rec_op (next_record op p)) p ≈ next_state op p.
Proof.
  pose proof (with_op_seq_equiv (λ s, s +wrap 1) p) as E. unfold next_record, next_state.
  cbn [rec_op]. rewrite <-(exec_applied op (with_op_seq _ p)).
  apply exec_proper_equiv. symmetry. apply E.
Qed.
End durability.
