(* ===== verification/Samples.v ===== *)
(** Concrete instances of the parameters of the model (the JSON line codec and
    [postcard]), a sample image and its project: they show that the hypotheses
    of the theorems can hold together. *)

From Stdlib Require Import Strings.Byte.
From S2P Require Import Prelude Data Ops OpsFacts Journal Persist Activity.
Import Data.Types.

(** ** Countable state *)

#[export] Instance CompositeKind_countable : Countable CompositeKind.
Proof.
  refine (inj_countable' (λ k, match k with Struct => 0 | Union => 1 | Enum => 2 end)
            (λ n, match n with 0 => Struct | 1 => Union | _ => Enum end) _). by intros [].
Defined.
#[export] Instance Field_countable : Countable Field.
Proof.
  refine (inj_countable' (λ f, (fd_name f, fd_ty f, fd_offset f, fd_bit_offset f))
            (λ '(a, b, c, d), mkField a b c d) _). by intros [].
Defined.
#[export] Instance EnumVariant_countable : Countable EnumVariant.
Proof.
  refine (inj_countable' (λ f, (ev_name f, ev_value f)) (λ '(a, b), mkVariant a b) _).
  by intros [].
Defined.
#[export] Instance CompositeType_countable : Countable CompositeType.
Proof.
  refine (inj_countable' (λ t, (ct_kind t, ct_name t, ct_size t, ct_align t, ct_fields t, ct_variants t))
            (λ '(a, b, c, d, e, f), mkComposite a b c d e f) _). by intros [].
Defined.
#[export] Instance DataTypeManager_countable : Countable DataTypeManager.
Proof.
  refine (inj_countable' (λ t, (named t, composites t, signatures t))
            (λ '(a, b, c), mkTypes a b c) _). by intros [].
Defined.
#[export] Instance StackVariable_countable : Countable StackVariable.
Proof.
  refine (inj_countable' (λ v, (sv_name v, sv_ty v, sv_offset v, sv_size v))
            (λ '(a, b, c, d), mkVar a b c d) _). by intros [].
Defined.
#[export] Instance StackFrame_countable : Countable StackFrame.
Proof.
  refine (inj_countable' (λ f, (fr_local_size f, fr_arg_size f, fr_return_addr_offset f,
                                fr_locals f, fr_args f))
            (λ '(a, b, c, d, e), mkFrame a b c d e) _). by intros [].
Defined.
#[export] Instance AliasEvent_countable : Countable AliasEvent.
Proof.
  refine (inj_countable' (λ e, (al_va e, al_old_name e, al_new_name e, al_source e, al_seq e))
            (λ '(a, b, c, d, e), mkAlias a b c d e) _). by intros [].
Defined.
#[export] Instance ActivityEvent_eq_dec : EqDecision ActivityEvent.
Proof. solve_decision. Defined.
#[export] Instance ActivityEvent_countable : Countable ActivityEvent.
Proof.
  refine (inj_countable' (λ e, (ae_timestamp e, ae_project_id e, ae_client_id e, ae_op_summary e, ae_seq e))
            (λ '(a, b, c, d, e), mkEvent a b c d e) _). by intros [].
Defined.

(** A snapshot as a tuple. *)
Definition state_fields (s : ProjectState) :=
  (st_image_path s, st_image_sha256 s, st_symbols s, st_comments_addr s, st_comments_func s,
   st_types s, st_function_frames s, st_typed_globals s, st_function_signatures s, st_focus s,
   st_seq s, st_version s, st_function_memory s, st_alias_history s).
Definition state_of_fields :=
  λ '(a, b, c, d, e, f, g, h, i, j, k, l, m, n), mkState a b c d e f g h i j k l m n.
Lemma state_of_fields_of s : state_of_fields (state_fields s) = s.
Proof. by destruct s. Qed.

(** ** The codecs *)

#[export] Instance sample_record_codec : LineCodec JournalRecord :=
  SampleCodec.sample_codec wire_record.
#[export] Instance sample_record_laws : LineCodecLaws JournalRecord wire_record :=
  SampleCodec.sample_laws wire_record.
#[export] Instance sample_event_codec : LineCodec ActivityEvent :=
  SampleCodec.sample_codec id.

(** A snapshot as the digits of its number, closed by a brace. *)
#[export] Instance sample_postcard : Postcard := {|
  to_allocvec s := SampleCodec.digits (countable.encode (state_fields s)) ++ [x7d];
  take_state bs :=
    p ← SampleCodec.parse_digits bs;
    f ← countable.decode p;
    Some (state_of_fields f, []);
  take_state_v2 _ := None
|}.

#[export] Instance sample_postcard_laws : PostcardLaws.
Proof.
  constructor. intros s. unfold take_state, to_allocvec. simpl.
  rewrite SampleCodec.parse_digits_digits. simpl.
  rewrite countable.decode_encode.
  change (Some (state_of_fields (state_fields s), @nil byte) = Some (s, [])).
  by rewrite state_of_fields_of.
Qed.

(** ** A sample image: one function with a named entry point *)

Definition sample_base : Project :=
  open_base "a.exe" "sha" {[ 0x1000%Z := Functions.mkFunction 0 0x1000 [] [] None None ]}
    {[ 0x1000%Z := mkSymbol "entry" Function_ ]} (mkTypes ∅ ∅ ∅) ∅ ∅ ∅ 0x1000.

Definition empty_disk : Disk := mkDisk None None.

Lemma sample_base_wf : wf_project sample_base.
Proof. split; intros ?? E; simpl in E; by rewrite lookup_empty in E. Qed.
