(* ===== verification/Editing.v ===== *)
(** The promises of the editing core (src/project/op.rs, src/project/op_log.rs,
    src/project/persistence.rs, src/project_manager.rs): the durable writer
    refines a volatile editor that a crash only costs its undo history; what a
    crash inside an append loses; undo and redo, alone and across clients; the
    bounded journal tail; and what goes wrong when an append fails. *)

From Stdlib Require Import Strings.Byte.
From stdpp Require Import relations.
From S2P Require Import Prelude Data Ops OpsFacts Journal Persist Activity Writer.
From S2P Require Import WriterFacts Samples.

(** ** The abstract editor

    A project in memory and the clients' undo and redo stacks. A request is
    served, dropped or refused; a crash keeps the project, up to what [≃]
    ignores, and forgets the stacks. *)

Definition Editor : Type := Project * gmap string UndoRedoStack.

Inductive edits : Editor → Editor → Prop :=
  | edits_apply p q p' h c op applied :
      q ≃ p → capture_and_apply op q = (applied, p') →
      edits (p, h) (p', <[c := mkStack (undo_stack (stack_of h c) ++ [applied]) []]> h)
  | edits_undo p p' h c undos last redos inv :
      h !! c = Some (mkStack (undos ++ [last]) redos) → inverse last = Some inv →
      p' ≃ exec inv p →
      edits (p, h) (p', <[c := mkStack undos (redos ++ [last])]> h)
  | edits_drop p h c undos last redos :
      h !! c = Some (mkStack (undos ++ [last]) redos) → inverse last = None →
      edits (p, h) (p, <[c := mkStack undos redos]> h)
  | edits_redo p q p' h c undos redos op applied :
      h !! c = Some (mkStack undos (redos ++ [op])) →
      q ≃ p → capture_and_apply op q = (applied, p') →
      edits (p, h) (p', <[c := mkStack (undos ++ [applied]) redos]> h)
  | edits_refuse p h : edits (p, h) (p, h)
  | edits_crash p q h : q ≃ p → edits (p, h) (q, ∅).

Definition editor (w : Writer) : Editor := (w_project w, w_history w).

Lemma vec_pop_inv {A} (l : list A) x l' : vec_pop l = Some (x, l') → l = l' ++ [x].
Proof.
  destruct l as [|y l0 _] using rev_ind; [done|]. rewrite vec_pop_snoc. by intros [= -> ->].
Qed.

Section editing.
Context `{LineCodecLaws JournalRecord wire_record, LineCodec ActivityEvent, PostcardLaws}.
Implicit Types (base p : Project) (d : Disk) (w : Writer).

(** The writer serving a request, or starting again from the files after a
    crash between two requests. *)
Inductive lives base : Writer → Writer → Prop :=
  | lives_serve w w' : wstep benign w w' → lives base w w'
  | lives_restart w id afile alog : lives base w (start id base (w_disk w) afile alog).

Lemma dispatch_edits req p d h r p' d' h' :
  dispatch AppendOk req p d h = (r, p', d', h') → edits (p, h) (p', h').
Proof.
  destruct req as [c op|c|c]; simpl; unfold apply_one, undo_one, redo_one.
  - rewrite journaled_eq. simpl. intros. simplify_eq.
    eapply edits_apply; [apply with_op_seq_equiv|apply next_record_capture].
  - destruct (h !! c) as [[us rs]|] eqn:Hc; [|intros; simplify_eq; apply edits_refuse].
    simpl. destruct (vec_pop us) as [[last undos]|] eqn:V; [|intros; simplify_eq; apply edits_refuse].
    apply vec_pop_inv in V as ->.
    destruct (inverse last) as [inv|] eqn:I; [|intros; simplify_eq; by eapply edits_drop].
    rewrite journaled_eq. simpl. intros. simplify_eq.
    eapply edits_undo; [done..|apply next_state_equiv].
  - destruct (h !! c) as [[us rs]|] eqn:Hc; [|intros; simplify_eq; apply edits_refuse].
    simpl. destruct (vec_pop rs) as [[op redos]|] eqn:V; [|intros; simplify_eq; apply edits_refuse].
    apply vec_pop_inv in V as ->.
    rewrite journaled_eq. simpl. intros. simplify_eq.
    eapply edits_redo; [done|apply with_op_seq_equiv|apply next_record_capture].
Qed.

Lemma lives_ok base w w' : writer_ok base w → lives base w w' → writer_ok base w'.
Proof.
  intros W Hl. destruct Hl as [? w2 Hs|w2 id afile alog]; [by eapply wstep_ok|].
  destruct (dur_clean _ _ _ (wok_durable _ _ W)) as (rs & E & _).
  apply (start_ok _ _ rs); [done|].
  rewrite (dur_seq _ _ _ (wok_durable _ _ W)). apply (dur_u64 _ _ _ (wok_durable _ _ W)).
Qed.

Lemma lives_edits base w w' :
  writer_ok base w → lives base w w' → edits (editor w) (editor w').
Proof.
  intros W Hl. destruct Hl as [? ? Hs|w2 id afile alog]; unfold editor.
  - destruct Hs as [io req w1 r w2 B _ Hh].
    apply handle_inv in Hh as (d & h & E & _ & -> & _).
    rewrite (ben_append _ B) in E. by eapply dispatch_edits.
  - simpl. apply edits_crash, (wok_durable _ _ W).
Qed.

Lemma lives_rtc base w w' :
  writer_ok base w → rtc (lives base) w w' → writer_ok base w' ∧ rtc edits (editor w) (editor w').
Proof.
  intros W Hr. revert W. induction Hr as [|w1 w2 w3 Hs _ IH]; intros W; [by split|].
  destruct IH as [W' E]; [by eapply lives_ok|]. split; [done|].
  eapply rtc_l; [by eapply lives_edits|done].
Qed.

(** Requests of other clients, all edits, served with working files. *)
Definition other_edit (c : string) (op : Op) (r : IoEnv * WriteRequest) : Prop :=
  io_append (fst r) = AppendOk ∧
  ∃ c' b, snd r = Apply c' b ∧ c' ≠ c ∧ independent op b.

Definition edit_of (r : IoEnv * WriteRequest) : list Op :=
  match snd r with Apply _ b => [b] | _ => [] end.

Lemma loop_other_edits c op reqs w rs w' :
  Forall (other_edit c op) reqs → writer_loop reqs w = (rs, w') →
  w_project w' ≈ execs (reqs ≫= edit_of) (w_project w) ∧
  w_history w' !! c = w_history w !! c ∧
  Forall (independent op) (reqs ≫= edit_of).
Proof.
  intros F. revert w rs. induction F as [|[io req] reqs [A (c' & b & E & N & I)] _ IH];
    intros w rs Hl; simplify_eq/=; [done|].
  destruct (handle io (Apply c' b) w) as [r w1] eqn:Hh.
  destruct (writer_loop reqs w1) as [rs1 w2] eqn:Hw. simplify_eq.
  destruct (IH _ _ Hw) as (P & Hc & D).
  pose proof (handle_other _ _ _ _ _ c Hh (not_eq_sym N)) as O.
  destruct (handle_apply _ _ _ _ _ _ A Hh) as (_ & P1 & _).
  split; [|split; [by rewrite Hc|by constructor]].
  rewrite P, P1. simpl. rewrite execs_cons.
  apply execs_proper_equiv, replay_proj_subrelation, next_state_equiv.
Qed.

(** C1: If every record of the journal on disk at the start is whole, the operation
    counter after reopening is a u64, and in every step served the journal append
    succeeds and no snapshot is written partially in place (a save may still fail
    without touching the file), then the per-project writer task with its journal,
    snapshots, checkpoints and restarts implements a volatile in-memory editor: every
    request is an edit, undo, redo or refusal of the editor, and a restart between two
    requests keeps the project and only forgets the undo stacks. Without those
    conditions the claim is false: a failed append leaves an edit in memory that the
    request refused (Editing.failed_append_diverges), and a record appended after a
    torn one is lost (Editing.append_after_torn_lost). *)
Theorem writer_refines_editor base d rs id afile alog w :
  journal_holds d rs → is_u64 (op_seq (reopen base d)) →
  rtc (lives base) (start id base d afile alog) w →
  rtc edits (reopen base d, ∅) (editor w).
Proof.
  intros E U Hr. exact (proj2 (lives_rtc _ _ _ (start_ok _ _ _ _ _ _ E U) Hr)).
Qed.

(** C8: If every record of the journal on disk at the start is whole, the operation
    counter after reopening is a u64, and in every step served so far the journal
    append succeeded and no snapshot was written partially in place (a save may fail
    without touching the file), then between any two requests the files on disk reopen
    to the live project (same state, rename lineage and operation counter), through
    checkpoints and restarts, and the published read state is the live one. A failed
    append breaks it (Editing.failed_append_diverges). *)
Theorem writer_durable base d rs id afile alog w :
  journal_holds d rs → is_u64 (op_seq (reopen base d)) →
  rtc (lives base) (start id base d afile alog) w →
  reopen base (w_disk w) ≃ w_project w ∧
  op_seq (reopen base (w_disk w)) = op_seq (w_project w) ∧
  w_read_state w = w_project w.
Proof.
  intros E U Hr. destruct (lives_rtc _ _ _ (start_ok _ _ _ _ afile alog E U) Hr) as [[D R _] _].
  repeat split; [apply D..|done].
Qed.

(** C7: If every record of the journal on disk at the start is whole, every append
    since then succeeded and no snapshot was written partially in place, the counter
    after reopening is a u64 and the live counter is below the largest u64, then a
    crash after any number of bytes of the journal append of the next request (the
    request is refused) reopens to the project before or after that request and to
    nothing else. It is about the first torn append only: what is appended after a
    torn record is lost (Editing.append_after_torn_lost). *)
Theorem writer_crash_atomic base d rs id afile alog w req n r p' d' h' :
  journal_holds d rs → is_u64 (op_seq (reopen base d)) →
  rtc (lives base) (start id base d afile alog) w →
  (op_seq (w_project w) < u64_max)%Z →
  dispatch (AppendFailed n) req (w_project w) (w_disk w) (w_history w) = (r, p', d', h') →
  is_ok r = false ∧ (reopen base d' ≃ w_project w ∨ reopen base d' ≃ p').
Proof.
  intros E U Hr B Hd. destruct (lives_rtc _ _ _ (start_ok _ _ _ _ afile alog E U) Hr) as [[D _ _] _].
  apply dispatch_effect in Hd as [(-> & -> & ?)|(op & -> & -> & Hok)].
  - split; [done|left]. apply D.
  - split; [done|]. exact (durable_torn _ _ _ op n D B).
Qed.

(** With working files the journal never holds more than 255 records
    beyond those it started with, and a close leaves it empty and reopens to
    the live project. *)
Theorem journal_tail_bounded base d rs id afile alog w :
  journal_holds d rs → is_u64 (op_seq (reopen base d)) →
  rtc (wstep smooth) (start id base d afile alog) w →
  tail_length (w_disk w) ≤ length rs + 255 ∧
  tail_length (snd (close SaveOk w)) = 0 ∧
  reopen base (snd (close SaveOk w)) ≃ w_project w.
Proof.
  intros E U Hr. pose proof (start_ok base _ _ id afile alog E U) as W.
  destruct (wsteps_tail _ _ _ (length rs) W Hr) as [[D R L] T].
  { simpl. rewrite (tail_length_holds _ _ E). lia. }
  unfold close. rewrite R. unfold CHECKPOINT_OPS in L.
  split; [lia|split; [by eapply save_ok_tail|]].
  apply (dur_state _ _ _ (durable_save _ _ _ SaveOk D ltac:(done))).
Qed.

(** A client's edit, undo and redo: the undo succeeds and restores the
    project, moving the operation to the redo stack; the redo succeeds,
    restores the edit and moves the operation back; the stacks of every other
    client stay as they were. *)
Theorem apply_undo_redo c op w io1 io2 io3 r1 r2 r3 w1 w2 w3 :
  wf_project (w_project w) → restorable op (w_project w) = true → is_Some (inverse op) →
  io_append io1 = AppendOk → io_append io2 = AppendOk → io_append io3 = AppendOk →
  handle io1 (Apply c op) w = (r1, w1) →
  handle io2 (UndoLast c) w1 = (r2, w2) →
  handle io3 (RedoLast c) w2 = (r3, w3) →
  is_ok r1 && is_ok r2 && is_ok r3 = true ∧
  w_project w2 ≈ w_project w ∧ w_project w3 ≈ w_project w1 ∧
  undo_stack (stack_of (w_history w2) c) = undo_stack (stack_of (w_history w) c) ∧
  redo_stack (stack_of (w_history w3) c) = [] ∧
  (∀ c', c' ≠ c → w_history w3 !! c' = w_history w !! c').
Proof.
  intros W R I A1 A2 A3 H1' H2' H3'.
  pose proof (λ c' N, eq_trans (handle_other _ _ _ _ _ c' H3' N)
    (eq_trans (handle_other _ _ _ _ _ c' H2' N) (handle_other _ _ _ _ _ c' H1' N))) as O.
  destruct (handle_apply _ _ _ _ _ _ A1 H1') as (-> & P1 & S1).
  set (applied := rec_op (next_record op (w_project w))) in *.
  assert (is_Some (inverse applied)) as [inv Hinv] by by apply inverse_captured.
  destruct (handle_undo _ _ _ _ _ _ _ _ _ A2 H2' S1 Hinv) as (-> & P2 & S2).
  destruct (handle_redo _ _ _ _ _ _ [] applied A3 H3' S2) as (-> & P3 & S3).
  assert (w_project w2 ≈ w_project w) as E2.
  { rewrite P2, (next_state_equiv inv _), P1, <-(undo_some _ _ _ Hinv). by apply next_restores. }
  split; [done|]. split; [done|]. split.
  { rewrite P3, (next_state_equiv applied _), E2, P1. apply next_redoes. }
  rewrite (stack_of_lookup _ _ _ S2), (stack_of_lookup _ _ _ S3). done.
Qed.

(** C17: On a well-formed project, if the operation has an inverse and is restorable
    there (it carries no old value yet and every entity it edits already had what the
    inverse puts back: a symbol, comment, focused function, global type, signature,
    stack slot or parameter; memory cards always), the journal appends of the edit and
    of the undo succeed, and the edits other clients make in between are independent
    of it (disjoint footprints), then that client's undo succeeds and leaves exactly
    the project in which only the other clients' edits were made. For an operation
    that is not restorable the undo leaves a residue
    (Editing.undo_created_name_residue). *)
Theorem undo_across_clients c op reqs w io1 io2 r1 rs r2 w1 w2 w3 :
  wf_project (w_project w) → restorable op (w_project w) = true → is_Some (inverse op) →
  io_append io1 = AppendOk → io_append io2 = AppendOk →
  Forall (other_edit c op) reqs →
  handle io1 (Apply c op) w = (r1, w1) →
  writer_loop reqs w1 = (rs, w2) →
  handle io2 (UndoLast c) w2 = (r2, w3) →
  is_ok r2 = true ∧ w_project w3 ≈ execs (reqs ≫= edit_of) (w_project w).
Proof.
  intros W R I A1 A2 F H1' Hl H2'.
  destruct (handle_apply _ _ _ _ _ _ A1 H1') as (-> & P1 & S1).
  destruct (loop_other_edits _ _ _ _ _ _ F Hl) as (P2 & C2 & D).
  set (applied := rec_op (next_record op (w_project w))) in *.
  assert (is_Some (inverse applied)) as [inv Hinv] by by apply inverse_captured.
  rewrite S1 in C2.
  destruct (handle_undo _ _ _ _ _ _ _ _ _ A2 H2' C2 Hinv) as (-> & P3 & _).
  split; [done|]. set (p1 := with_op_seq (λ s, s +wrap 1) (w_project w)).
  assert (p1 ≈ w_project w) as E1 by apply with_op_seq_equiv.
  rewrite P3, (next_state_equiv inv _), P2, P1, <-(undo_some _ _ _ Hinv).
  transitivity (execs (reqs ≫= edit_of) p1); [|by apply execs_proper_equiv].
  apply (undo_across op p1); [destruct W; by constructor| |apply next_record_capture|done].
  by rewrite (restorable_equiv _ _ _ E1).
Qed.

(** An append that fails leaves the edit in memory, with the counter
    advanced, but neither on the undo stack nor in the files: the request is
    refused, the live state has changed and a restart loses the change. *)
Theorem failed_append_diverges base w c op r p' d' h' :
  writer_ok base w →
  dispatch AppendUnopened (Apply c op) (w_project w) (w_disk w) (w_history w) = (r, p', d', h') →
  is_ok r = false ∧ p' ≃ exec op (w_project w) ∧ op_seq p' = op_seq (w_project w) +wrap 1 ∧
  h' = w_history w ∧ reopen base d' ≃ w_project w.
Proof.
  intros W. simpl. unfold apply_one. rewrite journaled_eq. simpl. intros. simplify_eq.
  split; [done|]. split; [apply next_state_equiv|]. split; [apply next_state_seq|].
  split; [done|]. destruct (w_disk w) eqn:E. simpl. rewrite <-E. apply (wok_durable _ _ W).
Qed.

(** The durable files are keyed by the image's hash but projects are opened
    by path: when the same image is open twice, the two writers number their
    records alike, and reopening keeps the first writer's edit and drops the
    second one's. *)
Theorem two_writers_lose_edit base d rs op1 op2 :
  journal_holds d rs → is_u64 (op_seq (reopen base d)) →
  (op_seq (reopen base d) < u64_max)%Z →
  let p := reopen base d in
  let d1 := mkDisk (dk_idb d) (append (next_record op1 p) (dk_oplog d)) in
  let d2 := mkDisk (dk_idb d) (append (next_record op2 p) (dk_oplog d1)) in
  reopen base d2 ≃ exec op1 p.
Proof.
  intros E U B p d1 d2. pose proof (durable_start _ _ _ E U) as D.
  assert (reopen base d2 =
    replay_record (replay_record (reopen base d) (next_record op1 p)) (next_record op2 p)) as ->.
  { rewrite (reopen_holds _ d2 ((rs ++ [next_record op1 p]) ++ [next_record op2 p])).
    - rewrite !replay_app, (reopen_holds _ _ _ E). done.
    - unfold journal_holds, d2, d1. simpl. rewrite E, !log_app, !log_single. done. }
  subst p. destruct (replay_next _ _ _ op1 D B) as [R1 R2].
  rewrite next_state_seq in R2.
  unfold replay_record at 1. rewrite R2. simpl. rewrite Z.ltb_irrefl.
  rewrite R1. apply next_state_equiv.
Qed.
End editing.

(** ** Operations *)

(** An operation returned by [apply_to] carries everything it needs: applied
    again to the same project, directly or after a round trip through the
    journal's JSON, it gives the same project, and it captures nothing new. *)
Theorem captured_op_replays op p :
  apply_to (fst (apply_to op p)) p = apply_to op p ∧
  exec (wire_op (fst (apply_to op p))) p = exec op p.
Proof.
  rewrite exec_wire, exec_applied. split; [|done]. unfold apply_to.
  destruct (capture_and_apply op p) as [op' p'] eqn:E. by apply (capture_idempotent op).
Qed.

(** C35: On a well-formed project, for an operation that is restorable there (it
    carries no old value yet and every entity it edits already had what the inverse
    puts back: a symbol, comment, focused function, global type, signature, stack slot
    or parameter; memory cards always; a batch if each operation is restorable where
    it runs), the compensating operation of the applied edit restores the project, and
    re-applying the captured edit after that restores its effect. For an operation
    that is not restorable, such as naming an unnamed address, undo leaves a residue
    (Editing.undo_created_name_residue). *)
Theorem op_undo_redo op p op' p' :
  wf_project p → restorable op p = true → apply_to op p = (op', p') →
  undo op' p' ≈ p ∧ exec op' (undo op' p') ≈ p'.
Proof. intros W R E. split; [by eapply undo_restores|by eapply redo_restores]. Qed.

(** C39: every operation keeps the slots of a frame apart, locals at or below
    and arguments above the return address, keeps the slots in order where they
    were, and keeps every memory card filed under its own address and never a
    clear sentinel. *)
Theorem op_preserves_invariant op p :
  wf_project p →
  wf_project (snd (apply_to op p)) ∧
  (frames_all sorted_frame p → frames_all sorted_frame (snd (apply_to op p))).
Proof.
  intros W. split; [by apply exec_wf|]. apply exec_frames; [|apply sorted_frame_upsert].
  split; constructor.
Qed.

(** Operations on different entities commute, batches included. *)
Theorem independent_ops_commute a b p :
  independent a b → snd (apply_to a (snd (apply_to b p))) ≈ snd (apply_to b (snd (apply_to a p))).
Proof. apply exec_comm. Qed.

(** Undoing the naming of an unnamed address does not remove the name: it
    leaves a symbol with an empty name behind. *)
Theorem undo_created_name_residue va n k p :
  symbols p !! va = None →
  symbols (undo (fst (apply_to (RenameSymbol va n k None None) p))
             (snd (apply_to (RenameSymbol va n k None None) p))) !! va = Some (mkSymbol "" k).
Proof. apply undo_rename_created. Qed.

(** ** The journal *)

Section journal_claims.
Context {R : Type} `{LineCodecLaws R wire}.

(** What was appended is what is read, record by record and in order, and
    an append adds its record at the end whatever the journal holds. *)
Theorem journal_roundtrip (rs : list R) r :
  read_all (foldl (λ f r, append r f) None rs) = wire <$> rs ∧
  read_all (append r (Some (log rs))) = (wire <$> rs) ++ [wire r].
Proof.
  split.
  - assert (∀ rs0, foldl (λ f r, append r f) (Some (log rs0)) rs = Some (log (rs0 ++ rs))) as A.
    { induction rs as [|r1 rs1 IH]; intros rs0; simpl foldl.
      - by rewrite (right_id_L [] (++)).
      - rewrite append_log, IH. by rewrite <-app_assoc. }
    destruct rs as [|r1 rs1]; [done|]. specialize (A []).
    change (foldl _ None (r1 :: rs1)) with (foldl (λ f r, append r f) (Some (log [])) (r1 :: rs1)).
    rewrite A. apply read_log.
  - by rewrite append_log, read_log, fmap_app.
Qed.

(** After a crash in the middle of an append the journal reads as before
    the append, or as after it when only the newline is missing. *)
Theorem journal_torn_append (rs : list R) r n :
  n < length (line r) →
  read_all (append_torn n r (Some (log rs))) =
    wire <$> (if decide (n = length (encode r)) then rs ++ [r] else rs).
Proof. apply read_torn. Qed.

(** A record appended after a torn one is glued to its line: that record
    and every later one are never read back. *)
Theorem append_after_torn_lost (rs : list R) r n r2 later :
  0 < n < length (encode r) →
  decode (take n (encode r) ++ encode r2) = None →
  read_all (foldl (λ f r, append r f) (append_torn n r (Some (log rs))) (r2 :: later))
    = wire <$> rs.
Proof.
  intros Hn D.
  assert (∀ l f, foldl (λ f r, append r f) (Some f) l = Some (f ++ log l)) as A.
  { induction l as [|r1 l IH]; intros f; simpl.
    - unfold log. simpl. by rewrite (right_id_L [] (++)).
    - unfold append at 2. simpl. rewrite IH, <-app_assoc. done. }
  unfold append_torn. rewrite A. simpl default.
  rewrite <-app_assoc. unfold read_all. rewrite read_log_app.
  assert (∀ l x, read_lines (lines l) = [] → x ++ read_lines (lines l) = x) as X
    by (intros l x ->; apply (right_id_L [] (++))).
  apply X. change (log (r2 :: later)) with (line r2 ++ log later). unfold line.
  rewrite take_app_le by lia. rewrite <-app_assoc, (app_assoc (take n _)). simpl.
  destruct (encode_cons r) as [enc He].
  assert (take n (encode r) ++ encode r2 = LBRACE :: (take (n - 1) enc ++ encode r2)) as Ht.
  { rewrite He. destruct n; [lia|]. simpl. by rewrite Nat.sub_0_r. }
  assert (∀ x, x ∈ take n (encode r) ++ encode r2 → (0x20 ≤ byte_val x)%Z) as P.
  { intros x [Hx|Hx]%elem_of_app; [|by eapply encode_no_ctrl].
    apply elem_of_take in Hx as (i & Hx & _). by eapply encode_no_ctrl, list_elem_of_lookup_2. }
  rewrite lines_line, strip_cr_id by (intros Hx%P; done). simpl.
  destruct (utf8_decode _) as [chars|] eqn:U; [|done]. rewrite D.
  by rewrite Ht in U; rewrite (brace_not_blank _ _ U).
Qed.
End journal_claims.

(** ** Snapshots *)

(** A saved project is loaded back exactly: its bytes decode to the
    snapshot, and applying the snapshot to a fresh analysis of the image gives
    the project back, with its lineage and its counter. *)
Theorem snapshot_roundtrip `{PostcardLaws} base p :
  extends base p →
  load_from (Some (to_allocvec (from_project p))) = Some (from_project p) ∧
  apply_state (from_project p) base ≃ p ∧
  op_seq (apply_state (from_project p) base) = op_seq p.
Proof. intros E. rewrite load_saved. split; [done|]. by apply apply_from_project. Qed.

(** A file in the layout before memory cards is migrated: every saved field
    is kept and there are no cards and no lineage; a snapshot of an unknown
    version leaves the project untouched. *)
Theorem snapshot_migration `{Postcard} bs v2 rest base :
  take_state bs = None → take_state_v2 bs = Some (v2, rest) →
  load_from (Some bs) = Some (from_v2 v2) ∧
  (v2_version v2 = 2%Z →
     types (apply_state (from_v2 v2) base) = v2_types v2 ∧
     typed_globals (apply_state (from_v2 v2) base) = v2_typed_globals v2 ∧
     function_signatures (apply_state (from_v2 v2) base) = v2_function_signatures v2 ∧
     function_frames (apply_state (from_v2 v2) base) = v2_function_frames v2 ∧
     op_seq (apply_state (from_v2 v2) base) = v2_seq v2 ∧
     function_memory (apply_state (from_v2 v2) base) = ∅ ∧
     alias_history (apply_state (from_v2 v2) base) = []) ∧
  (v2_version v2 ≠ 2%Z → v2_version v2 ≠ CURRENT_VERSION → apply_state (from_v2 v2) base = base).
Proof.
  intros E1 E2. split; [unfold load_from, from_bytes; simpl; by rewrite E1, E2|].
  split; [intros V|intros V1 V2]; unfold apply_state; simpl.
  - rewrite V, decide_False by (intros []; done). done.
  - by rewrite decide_True.
Qed.

(** ** The activity feed *)

(** Recording a list of events, with working files, from nothing. *)
Definition record_all `{LineCodec ActivityEvent} (evs : list (Z * Z * Z * string * Op))
    : option bytes * list ActivityEvent :=
  foldl (λ '(file, log) '(now, id, seq, client, op),
           record_activity AppendOk now id seq client op file log) (None, []) evs.

Definition event_of : Z * Z * Z * string * Op → ActivityEvent :=
  λ '(now, id, seq, client, op), mkEvent now id client (summary op) seq.

(** The in-memory feed is always the last two hundred events, and it is the
    feed a restart reads back from the activity journal. *)
Theorem activity_feed_survives `{LineCodecLaws ActivityEvent wire} evs :
  snd (record_all evs) = last_n ACTIVITY_CAPACITY (event_of <$> evs) ∧
  read_tail ACTIVITY_CAPACITY (fst (record_all evs)) =
    wire <$> last_n ACTIVITY_CAPACITY (event_of <$> evs).
Proof.
  assert (snd (record_all evs) = last_n ACTIVITY_CAPACITY (event_of <$> evs) ∧
    default [] (fst (record_all evs)) = log (event_of <$> evs)) as [E F].
  { induction evs as [|[[[[now id] seq] c] op] evs IH] using rev_ind; [done|].
    unfold record_all in *. rewrite foldl_app. simpl foldl.
    destruct (foldl _ _ evs) as [file ring]. destruct IH as [E F]. simpl in E, F |- *.
    rewrite fmap_app, (push_activity_last_n _ _ _ E). split; [done|].
    by rewrite log_app, F, <-log_single. }
  split; [done|]. unfold read_tail.
  assert (read_all (fst (record_all evs)) = wire <$> (event_of <$> evs)) as ->.
  { destruct (fst (record_all evs)) as [bs|]; simpl in F; [subst; apply read_log|].
    rewrite <-read_log, <-F. done. }
  rewrite length_fmap. unfold last_n. by rewrite fmap_drop.
Qed.

(** Backfilling the feed keeps it in time order and within its capacity. *)
Theorem merge_events_ordered log extra :
  StronglySorted (key_le ae_timestamp) log → length log ≤ ACTIVITY_CAPACITY →
  StronglySorted (key_le ae_timestamp) (merge_events log extra) ∧
  length (merge_events log extra) ≤ ACTIVITY_CAPACITY ∧
  (length (extra ++ log) ≤ ACTIVITY_CAPACITY → merge_events log extra ≡ₚ extra ++ log).
Proof.
  intros S L. split; [by apply merge_events_sorted|]. split; [by apply merge_events_length|].
  intros L2. unfold merge_events. destruct extra as [|e extra]; [done|].
  pose proof (sort_by_key_perm ae_timestamp ((e :: extra) ++ log)) as P.
  rewrite last_n_all; [done|]. by rewrite P.
Qed.

(** ** The theorems at concrete inputs *)

Definition sample_io : IoEnv := mkIo AppendOk AppendOk 1700000000 SaveOk.
Definition sample_op : Op := RenameSymbol 0x1000 "main" User None None.
Definition sample_start : Writer := start 7 sample_base empty_disk None [].
Definition sample_after : Writer := snd (handle sample_io (Apply "ui" sample_op) sample_start).

Lemma sample_smooth : smooth sample_io.
Proof. done. Qed.
Lemma sample_step (P : IoEnv → Prop) : P sample_io → wstep P sample_start sample_after.
Proof.
  intros HP. eapply (wstep_handle P sample_io (Apply "ui" sample_op)); [done|done|].
  apply surjective_pairing.
Qed.
Lemma sample_lives : rtc (lives sample_base) sample_start sample_after.
Proof. apply rtc_once, lives_serve, sample_step, smooth_benign, sample_smooth. Qed.
Lemma sample_clean : journal_holds empty_disk [].
Proof. done. Qed.
Lemma sample_u64 : is_u64 (op_seq (reopen sample_base empty_disk)).
Proof. split; done. Qed.

Lemma writer_refines_editor_witness : rtc edits (sample_base, ∅) (editor sample_after).
Proof.
  exact (writer_refines_editor sample_base empty_disk [] 7 None [] sample_after
           sample_clean sample_u64 sample_lives).
Defined.

Lemma writer_durable_witness : reopen sample_base (w_disk sample_after) ≃ w_project sample_after.
Proof.
  exact (proj1 (writer_durable sample_base empty_disk [] 7 None [] sample_after
                  sample_clean sample_u64 sample_lives)).
Defined.

Lemma writer_crash_atomic_witness :
  ∃ r p' d' h',
    dispatch (AppendFailed 3) (Apply "ui" sample_op) sample_base empty_disk ∅ = (r, p', d', h') ∧
    is_ok r = false.
Proof.
  destruct (dispatch (AppendFailed 3) (Apply "ui" sample_op) sample_base empty_disk ∅)
    as [[[r p'] d'] h'] eqn:E.
  exists r, p', d', h'. split; [done|].
  exact (proj1 (writer_crash_atomic sample_base empty_disk [] 7 None [] sample_start
    (Apply "ui" sample_op) 3 r p' d' h' sample_clean sample_u64 (rtc_refl _ _) eq_refl E)).
Defined.

Lemma journal_tail_bounded_witness : tail_length (w_disk sample_after) ≤ 255.
Proof.
  exact (proj1 (journal_tail_bounded sample_base empty_disk [] 7 None [] sample_after
    sample_clean sample_u64 (rtc_once _ _ (sample_step _ sample_smooth)))).
Defined.

Lemma apply_undo_redo_witness :
  ∃ w2, w_project w2 ≈ sample_base.
Proof.
  destruct (handle sample_io (Apply "ui" sample_op) sample_start) as [r1 w1] eqn:E1.
  destruct (handle sample_io (UndoLast "ui") w1) as [r2 w2] eqn:E2.
  destruct (handle sample_io (RedoLast "ui") w2) as [r3 w3] eqn:E3.
  exists w2.
  exact (proj1 (proj2 (apply_undo_redo "ui" sample_op sample_start sample_io sample_io sample_io
    r1 r2 r3 w1 w2 w3 sample_base_wf eq_refl (mk_is_Some _ _ eq_refl) eq_refl eq_refl eq_refl
    E1 E2 E3))).
Defined.

Definition sample_other : IoEnv * WriteRequest :=
  (sample_io, Apply "agent" (SetGlobalType 0x2000 (Int 32) None)).

Lemma sample_other_edit : Forall (other_edit "ui" sample_op) [sample_other].
Proof.
  apply Forall_singleton. split; [done|]. exists "agent", (SetGlobalType 0x2000 (Int 32) None).
  split; [done|]. split; [done|]. apply (bool_decide_unpack _). vm_compute. exact I.
Qed.

Lemma undo_across_clients_witness :
  ∃ w3, w_project w3 ≈ exec (SetGlobalType 0x2000 (Int 32) None) sample_base.
Proof.
  destruct (handle sample_io (Apply "ui" sample_op) sample_start) as [r1 w1] eqn:E1.
  destruct (writer_loop [sample_other] w1) as [rs w2] eqn:E2.
  destruct (handle sample_io (UndoLast "ui") w2) as [r2 w3] eqn:E3.
  exists w3.
  exact (proj2 (undo_across_clients "ui" sample_op [sample_other] sample_start sample_io sample_io
    r1 rs r2 w1 w2 w3 sample_base_wf eq_refl (mk_is_Some _ _ eq_refl) eq_refl eq_refl
    sample_other_edit E1 E2 E3)).
Defined.

Lemma failed_append_diverges_witness :
  ∃ r p' d' h',
    dispatch AppendUnopened (Apply "ui" sample_op) sample_base empty_disk ∅ = (r, p', d', h') ∧
    p' ≃ exec sample_op sample_base ∧ reopen sample_base d' ≃ sample_base.
Proof.
  destruct (dispatch AppendUnopened (Apply "ui" sample_op) sample_base empty_disk ∅)
    as [[[r p'] d'] h'] eqn:E.
  exists r, p', d', h'. split; [done|].
  pose proof (failed_append_diverges sample_base sample_start "ui" sample_op r p' d' h'
    (start_ok _ _ _ _ _ _ sample_clean sample_u64) E) as (_ & P & _ & _ & D).
  split; [exact P|exact D].
Defined.

Lemma two_writers_lose_edit_witness :
  let o1 := sample_op in let o2 := SetGlobalType 0x2000 (Int 32) None in
  reopen sample_base
    (mkDisk None (append (next_record o2 sample_base) (append (next_record o1 sample_base) None)))
  ≃ exec o1 sample_base.
Proof.
  exact (two_writers_lose_edit sample_base empty_disk [] sample_op
           (SetGlobalType 0x2000 (Int 32) None) sample_clean sample_u64 eq_refl).
Defined.

Lemma op_undo_redo_witness :
  undo (fst (apply_to sample_op sample_base)) (snd (apply_to sample_op sample_base)) ≈ sample_base.
Proof.
  exact (proj1 (op_undo_redo sample_op sample_base _ _ sample_base_wf eq_refl
                  (surjective_pairing _))).
Defined.

Lemma op_preserves_invariant_witness : wf_project (snd (apply_to sample_op sample_base)).
Proof. exact (proj1 (op_preserves_invariant sample_op sample_base sample_base_wf)). Defined.

Lemma independent_ops_commute_witness :
  let a := sample_op in let b := SetComment 0x1000 Address "hello" None in
  snd (apply_to a (snd (apply_to b sample_base))) ≈ snd (apply_to b (snd (apply_to a sample_base))).
Proof.
  apply independent_ops_commute. apply (bool_decide_unpack _). vm_compute. exact I.
Defined.

Lemma undo_created_name_residue_witness :
  let op := RenameSymbol 0x5000 "helper" User None None in
  symbols (undo (fst (apply_to op sample_base)) (snd (apply_to op sample_base))) !! 0x5000%Z
    = Some (mkSymbol "" User).
Proof. apply undo_created_name_residue. vm_compute. reflexivity. Defined.

Definition sample_record : JournalRecord := mkRecord 1 (SetFocus 0x1000 None).

Lemma journal_roundtrip_witness :
  read_all (foldl (λ f r, append r f) None [sample_record]) = [wire_record sample_record].
Proof. exact (proj1 (journal_roundtrip [sample_record] sample_record)). Defined.

Lemma journal_torn_append_witness :
  read_all (append_torn 2 sample_record (Some (log [sample_record]))) = [wire_record sample_record].
Proof.
  rewrite (journal_torn_append [sample_record] sample_record 2).
  - vm_compute. reflexivity.
  - apply Nat.ltb_lt. vm_compute. reflexivity.
Defined.

Lemma append_after_torn_lost_witness :
  read_all (foldl (λ f r, append r f) (append_torn 2 sample_record (Some (log [sample_record])))
    [sample_record; sample_record]) = [wire_record sample_record].
Proof.
  apply (append_after_torn_lost [sample_record] sample_record 2 sample_record [sample_record]).
  - split; apply Nat.ltb_lt; vm_compute; reflexivity.
  - vm_compute. reflexivity.
Defined.

Lemma snapshot_roundtrip_witness :
  apply_state (from_project (exec sample_op sample_base)) sample_base ≃ exec sample_op sample_base.
Proof.
  exact (proj1 (proj2 (snapshot_roundtrip sample_base (exec sample_op sample_base)
                         (exec_extends sample_op sample_base)))).
Defined.

(** A decoder that knows one file of the old layout. *)
Definition old_state : ProjectStateV2 :=
  mkStateV2 "a.exe" "sha" [] [] [] (Data.Types.mkTypes ∅ ∅ ∅) ∅ ∅ ∅ None 41 2.
Definition old_postcard : Postcard := {|
  to_allocvec _ := []; take_state _ := None; take_state_v2 bs := Some (old_state, []) |}.

Lemma snapshot_migration_witness :
  op_seq (apply_state (from_v2 old_state) sample_base) = 41%Z.
Proof.
  destruct (@snapshot_migration old_postcard [] old_state [] sample_base eq_refl eq_refl)
    as (_ & M & _).
  apply M. reflexivity.
Defined.

#[local] Instance sample_event_laws : LineCodecLaws ActivityEvent id := SampleCodec.sample_laws id.

Lemma activity_feed_survives_witness :
  snd (record_all [(5%Z, 7%Z, 1%Z, "ui", sample_op)])
    = [mkEvent 5 7 "ui" (summary sample_op) 1].
Proof. rewrite (proj1 (activity_feed_survives _)). vm_compute. reflexivity. Defined.

Lemma merge_events_ordered_witness :
  length (merge_events [mkEvent 5 7 "ui" "x" 1] [mkEvent 3 7 "ui" "y" 1]) ≤ ACTIVITY_CAPACITY.
Proof.
  refine (proj1 (proj2 (merge_events_ordered [mkEvent 5 7 "ui" "x" 1] [mkEvent 3 7 "ui" "y" 1] _ _))).
  - repeat constructor.
  - apply Nat.leb_le. vm_compute. reflexivity.
Defined.
