(* ===== verification/Commands.v ===== *)
(** The in-process command layer of [src/project/command.rs]: the commands, the
    two stacks and their refinement to a plain history of project states; and
    the direct mutation API of [Project] (src/project/mod.rs). *)

From Stdlib Require Import Strings.Ascii Strings.String.
From S2P Require Import Prelude Data Ops OpsFacts.

Module Commands.

(** ** Commands

    The trait's three implementors, each with the old value it captured. *)
Inductive Command : Type :=
  | SetName (addr : Z) (new_name : string) (kind : SymbolKind)
      (old : option (string * SymbolKind))
  | SetComment (addr : Z) (text : string) (scope : CommentScope) (old : option string)
  | BatchRename (commands : list Command).

(** [SetName::new], [SetComment::new] *)
Definition new_SetName (addr : Z) (name : string) (kind : SymbolKind) : Command :=
  SetName addr name kind None.
Definition new_SetComment (addr : Z) (text : string) (scope : CommentScope) : Command :=
  SetComment addr text scope None.

Lemma Command_nested_ind (P : Command → Prop) :
  (∀ a n k o, P (SetName a n k o)) →
  (∀ a t s o, P (SetComment a t s o)) →
  (∀ cs, Forall P cs → P (BatchRename cs)) →
  ∀ c, P c.
Proof.
  intros H1 H2 HB. fix go 1. intros [].
  1-2: clear go; auto.
  apply HB. induction commands as [|c cs IH]; constructor; [apply go|exact IH].
Qed.

(** [Command::apply]: the command keeps the value it overwrites. *)
Fixpoint apply (c : Command) (p : Project) : Command * Project :=
  match c with
  | SetName addr new_name kind _ =>
      let old := (λ s, (sym_name s, sym_kind s)) <$> Symbols.get (symbols p) addr in
      (SetName addr new_name kind old, with_symbols (Symbols.insert addr new_name kind) p)
  | SetComment addr text scope _ =>
      let old := CommentMap.get (comments p) addr scope in
      (SetComment addr text scope old, with_comments (CommentMap.set addr scope text) p)
  | BatchRename commands =>
      let '(commands, p) :=
        (fix go (cs : list Command) (p : Project) : list Command * Project :=
           match cs with
           | [] => ([], p)
           | cmd :: cs =>
               let '(cmd, p) := apply cmd p in
               let '(cs, p) := go cs p in
               (cmd :: cs, p)
           end) commands p in
      (BatchRename commands, p)
  end.

(** [Command::undo]; a batch goes through its commands in reverse. *)
Fixpoint undo (c : Command) (p : Project) : Project :=
  match c with
  | SetName addr _ _ (Some (name, kind)) => with_symbols (Symbols.insert addr name kind) p
  | SetName addr _ _ None => with_symbols (Symbols.remove addr) p
  | SetComment addr _ scope (Some t) => with_comments (CommentMap.set addr scope t) p
  | SetComment addr _ scope None => with_comments (CommentMap.remove addr scope) p
  | BatchRename commands =>
      (fix go (cs : list Command) (p : Project) : Project :=
         match cs with
         | [] => p
         | cmd :: cs => undo cmd (go cs p)
         end) commands p
  end.

(** ** The two stacks *)

Record CommandStack := mkStacks { cs_undo : list Command; cs_redo : list Command }.

(** [CommandStack::default] *)
Definition default_stack : CommandStack := mkStacks [] [].

(** [CommandStack::execute] *)
Definition execute (cmd : Command) (st : CommandStack) (p : Project) : CommandStack * Project :=
  let '(cmd, p) := apply cmd p in
  (mkStacks (cs_undo st ++ [cmd]) [], p).

(** [CommandStack::undo] *)
Definition undo_last (st : CommandStack) (p : Project) : CommandStack * Project :=
  match vec_pop (cs_undo st) with
  | Some (cmd, undos) => (mkStacks undos (cs_redo st ++ [cmd]), undo cmd p)
  | None => (st, p)
  end.

(** [CommandStack::redo] *)
Definition redo_last (st : CommandStack) (p : Project) : CommandStack * Project :=
  match vec_pop (cs_redo st) with
  | Some (cmd, redos) =>
      let '(cmd, p) := apply cmd p in
      (mkStacks (cs_undo st ++ [cmd]) redos, p)
  | None => (st, p)
  end.

(** [CommandStack::can_undo], [can_redo] *)
Definition can_undo (st : CommandStack) : bool := negb (bool_decide (cs_undo st = [])).
Definition can_redo (st : CommandStack) : bool := negb (bool_decide (cs_redo st = [])).

(** What the user does. *)
Inductive Action := Execute (cmd : Command) | Undo | Redo.

Definition act (a : Action) (sp : CommandStack * Project) : CommandStack * Project :=
  match a with
  | Execute cmd => execute cmd (fst sp) (snd sp)
  | Undo => undo_last (fst sp) (snd sp)
  | Redo => redo_last (fst sp) (snd sp)
  end.

(** ** The specification: a history of project states with a cursor *)

Record Timeline := mkTimeline { past : list Project; present : Project; future : list Project }.

Definition spec_act (a : Action) (t : Timeline) : Timeline :=
  match a with
  | Execute cmd => mkTimeline (present t :: past t) (snd (apply cmd (present t))) []
  | Undo =>
      match past t with
      | q :: past => mkTimeline past q (present t :: future t)
      | [] => t
      end
  | Redo =>
      match future t with
      | q :: future => mkTimeline (present t :: past t) q future
      | [] => t
      end
  end.

(** ** Facts *)

Fixpoint apply_list (cs : list Command) (p : Project) : list Command * Project :=
  match cs with
  | [] => ([], p)
  | cmd :: cs =>
      let '(cmd, p) := apply cmd p in
      let '(cs, p) := apply_list cs p in
      (cmd :: cs, p)
  end.

Lemma apply_batch cs p :
  apply (BatchRename cs) p = (BatchRename (fst (apply_list cs p)), snd (apply_list cs p)).
Proof.
  simpl. enough (∀ p,
    (fix go (cs : list Command) (p : Project) : list Command * Project :=
       match cs with
       | [] => ([], p)
       | cmd :: cs =>
           let '(cmd, p) := apply cmd p in
           let '(cs, p) := go cs p in
           (cmd :: cs, p)
       end) cs p = apply_list cs p) as ->; [by destruct (apply_list cs p)|].
  induction cs as [|c cs IH]; intros q; simpl; [done|].
  destruct (apply c q). by rewrite IH.
Qed.

Lemma undo_batch_cons c cs p : undo (BatchRename (c :: cs)) p = undo c (undo (BatchRename cs) p).
Proof. done. Qed.

(** Undo gives back the very project the command was applied to, and applying
    the command there again changes nothing about it. *)
Lemma apply_undo c p c' p' :
  apply c p = (c', p') → undo c' p' = p ∧ apply c' p = (c', p').
Proof.
  revert p c' p'. induction c as [a n k o|a t s o|cs IH] using Command_nested_ind;
    intros p c' p' E.
  - simpl in E. simplify_eq. simpl. split; [|done].
    unfold Symbols.get. destruct p as [? ? ? syms]. simpl.
    destruct (syms !! a) as [[n0 k0]|] eqn:L; simpl; unfold with_symbols, Symbols.insert, Symbols.remove; simpl; f_equal.
    + rewrite insert_insert_eq. by apply insert_id.
    + by rewrite delete_insert_id.
  - simpl in E. simplify_eq. simpl. split; [|done].
    destruct p as [? ? ? ? cm]. simpl. destruct (CommentMap.get cm a s) as [t0|] eqn:L;
      unfold with_comments; simpl; f_equal.
    + rewrite CommentMap.set_set. by apply CommentMap.set_id.
    + by apply CommentMap.remove_set.
  - rewrite apply_batch in E. simplify_eq. rewrite apply_batch.
    revert p. induction IH as [|c cs Hc _ IH]; intros p; [done|]. simpl apply_list.
    destruct (apply c p) as [c1 p1] eqn:E1. destruct (Hc _ _ _ E1) as [U1 A1].
    specialize (IH p1). destruct (apply_list cs p1) as [cs1 p2] eqn:E2.
    cbn [fst snd] in *. destruct IH as [U2 A2]. change (undo c1 (undo (BatchRename cs1) p2) = p ∧
      (BatchRename (fst (apply_list (c1 :: cs1) p)), snd (apply_list (c1 :: cs1) p))
        = (BatchRename (c1 :: cs1), p2)).
    rewrite U2, U1. split; [done|]. simpl. rewrite A1.
    destruct (apply_list cs1 p1). by simplify_eq/=.
Qed.

(** A command on a stack: applied at [q] it gives [r] and captures what it holds. *)
Definition link (c : Command) (q r : Project) : Prop := apply c q = (c, r).

Lemma link_undo c q r : link c q r → undo c r = q.
Proof. apply apply_undo. Qed.
Lemma apply_link c p : link (fst (apply c p)) p (snd (apply c p)).
Proof. unfold link. destruct (apply c p) as [c' p'] eqn:E. by apply apply_undo in E as [_ E]. Qed.

(** Commands, latest first, that lead from the earliest state to [p]. *)
Inductive leads : list Command → list Project → Project → Prop :=
  | leads_nil p : leads [] [] p
  | leads_snoc c cs q qs p : link c q p → leads cs qs q → leads (cs ++ [c]) (q :: qs) p.

(** Commands, next first, that lead on from [p]. *)
Inductive follows : list Command → list Project → Project → Prop :=
  | follows_nil p : follows [] [] p
  | follows_snoc c cs q qs p : link c p q → follows cs qs q → follows (cs ++ [c]) (q :: qs) p.

(** The stacks hold the timeline's transitions. *)
Definition implements (sp : CommandStack * Project) (t : Timeline) : Prop :=
  snd sp = present t ∧ leads (cs_undo (fst sp)) (past t) (present t) ∧
  follows (cs_redo (fst sp)) (future t) (present t).

Lemma act_implements a sp t : implements sp t → implements (act a sp) (spec_act a t).
Proof.
  destruct sp as [[us rs] p], t as [ps q fs]. intros (E & L & F). simpl in E, L, F. subst q.
  destruct a as [cmd| |]; simpl; unfold execute, undo_last, redo_last; simpl.
  - pose proof (apply_link cmd p) as Hl. destruct (apply cmd p) as [c p']. simpl in Hl.
    split; [done|]. split; simpl; [by eapply leads_snoc|constructor].
  - inversion L as [|c cs q qs ? Hl L']; subst.
    + by split.
    + rewrite vec_pop_snoc. split; [by apply link_undo|]. split; simpl; [done|].
      by eapply follows_snoc.
  - inversion F as [|c cs q qs ? Hl F']; subst.
    + by split.
    + rewrite vec_pop_snoc, Hl. split; [done|]. split; simpl; [|done]. by eapply leads_snoc.
Qed.
End Commands.
Import Commands.

(** ** The direct mutation API of [Project] *)
Module Facade.

(** [Project::rename] *)
Definition rename (va : Z) (name : string) (p : Project) : Project :=
  with_symbols (Symbols.insert va name User) p.
(** [Project::set_comment] *)
Definition set_comment (va : Z) (text : string) (p : Project) : Project :=
  with_comments (CommentMap.set va Address text) p.
(** [Project::set_focus] *)
Definition set_focus (va : Z) (p : Project) : Project :=
  match function_at p va with Some _ => with_focus (λ _, Some va) p | None => p end.
(** [Project::set_global_type] *)
Definition set_global_type (va : Z) (ty : DataType) (p : Project) : Project :=
  with_globals <[va := ty]> p.
(** [Project::set_function_signature] *)
Definition set_function_signature (va : Z) (signature : FunctionSignature) (p : Project)
    : Project := with_sigs <[va := signature]> p.
(** [Project::set_stack_local_type] *)
Definition set_stack_local_type (function_va offset : Z) (ty : DataType) (p : Project) : Project :=
  snd (apply_to (SetStackLocalType function_va offset ty None) p).
(** [Project::set_stack_local_name] *)
Definition set_stack_local_name (function_va offset : Z) (name : string) (p : Project) : Project :=
  snd (apply_to (SetStackLocalName function_va offset name None) p).
(** [Project::set_param_name] *)
Definition set_param_name (function_va : Z) (index : nat) (name : string) (p : Project) : Project :=
  snd (apply_to (SetParamName function_va index name None) p).

(** [Project::focused_function] *)
Definition focused_function (p : Project) : option Functions.Function :=
  focus p ≫= function_at p.

End Facade.

(** The direct mutation API has the effect of the durable operations, up to
    the lineage and the SSA cache; the one that leaves a cached SSA form behind
    is [set_function_signature], where the operation drops it. *)
Theorem facade_agrees_with_ops p va text off i ty sig :
  Facade.rename va text p ≈ snd (apply_to (RenameSymbol va text User None None) p) ∧
  Facade.set_comment va text p ≈ snd (apply_to (Ops.SetComment va Address text None) p) ∧
  Facade.set_focus va p ≈ snd (apply_to (SetFocus va None) p) ∧
  Facade.set_global_type va ty p ≈ snd (apply_to (SetGlobalType va ty None) p) ∧
  Facade.set_function_signature va sig p ≈ snd (apply_to (SetFunctionSignature va sig None) p) ∧
  ssa_cache (Facade.set_function_signature va sig p) = ssa_cache p ∧
  ssa_cache (snd (apply_to (SetFunctionSignature va sig None) p)) = ssa_cache p ∖ {[va]} ∧
  ssa_cache (Facade.set_stack_local_type va off ty p) = ssa_cache p ∖ {[va]} ∧
  ssa_cache (Facade.set_stack_local_name va off text p) = ssa_cache p ∖ {[va]} ∧
  ssa_cache (Facade.set_param_name va i text p) = ssa_cache p.
Proof.
  repeat split; try done; simpl.
  all: unfold Facade.set_focus; simpl; try (by destruct (Symbols.name _ _)); by destruct (function_at p va).
Qed.

(** The focus only ever moves to a known function. *)
Lemma focus_is_a_function p va :
  is_Some (Facade.focused_function p) →
  is_Some (Facade.focused_function (snd (apply_to (SetFocus va None) p))).
Proof.
  unfold Facade.focused_function, apply_to. simpl.
  destruct (function_at p va) eqn:E; [|done]. intros _. simpl.
  change (is_Some (function_at p va)). by rewrite E.
Qed.

(** The command stacks implement a plain history of project states with a
    cursor: after any sequence of executions, undos and redos the project is
    exactly the state the history says, the undo button is live exactly when
    there is a past, and the redo button exactly when there is a future. *)
Theorem command_stack_refines_timeline actions p :
  let t := foldl (λ t a, spec_act a t) (mkTimeline [] p []) actions in
  let sp := foldl (λ sp a, act a sp) (default_stack, p) actions in
  snd sp = present t ∧
  can_undo (fst sp) = negb (bool_decide (past t = [])) ∧
  can_redo (fst sp) = negb (bool_decide (future t = [])).
Proof.
  assert (∀ actions sp t, implements sp t →
    implements (foldl (λ sp a, act a sp) sp actions) (foldl (λ t a, spec_act a t) t actions)) as I.
  { clear. induction actions as [|a actions IH]; intros sp t Hi; [done|].
    simpl. by apply IH, act_implements. }
  destruct (I actions (default_stack, p) (mkTimeline [] p [])) as (E & L & F).
  { split; [done|]. split; simpl; constructor. }
  split; [done|]. unfold can_undo, can_redo.
  split; f_equal; apply bool_decide_ext.
  - inversion L; [done|]. split; [by intros []%app_nil|done].
  - inversion F; [done|]. split; [by intros []%app_nil|done].
Qed.
