(* ===== verification/MemoryMap.v ===== *)
(** The sparse process memory of a crash dump,
    [src/loader/dump/memory_map.rs]: building the region index, reading through
    it, and measuring coverage.

    The dump file's mapping is a list of bytes and a region's [data] pointer an
    index into it. [partition_point] is the number of leading elements that
    satisfy the predicate, which is what the binary search of the standard
    library returns on a partitioned vector. The single-precision division of
    [coverage_ratio] is not modelled, only its numerator. *)

From Stdlib Require Import Strings.Byte.
From S2P Require Import Prelude Journal.

Record IndexedRegion := mkRegion { va_start : Z; rg_size : Z; rg_data : Z }.

Inductive ReadStatus :=
  | ReadOk (b : bytes)
  | Partial (b : bytes)
  | Unmapped.

(** [ReadStatus::ok], [ReadStatus::as_slice] *)
Definition status_ok (s : ReadStatus) : option bytes :=
  match s with ReadOk b => Some b | _ => None end.
Definition as_slice (s : ReadStatus) : option bytes :=
  match s with ReadOk b | Partial b => Some b | Unmapped => None end.

Inductive MemorySource := SourceNone | MemoryList | Memory64List | Mixed.

Record ProcessMemoryMap := mkMap {
  regions : list IndexedRegion;
  total_bytes : Z;
  source : MemorySource
}.

Definition empty_map : ProcessMemoryMap := mkMap [] 0 SourceNone.

(** [r.va_start.saturating_add(r.size)] *)
Definition region_end (r : IndexedRegion) : Z := va_start r +sat rg_size r.

(** The loop of [merge_adjacent]; [cur] is the region being grown. *)
Fixpoint merge_from (cur : IndexedRegion) (rest : list IndexedRegion) : list IndexedRegion :=
  match rest with
  | [] => [cur]
  | next :: rest =>
      if (va_start next =? region_end cur)%Z && (rg_data next =? rg_data cur + rg_size cur)%Z
      then merge_from (mkRegion (va_start cur) (rg_size cur +sat rg_size next) (rg_data cur)) rest
      else cur :: merge_from next rest
  end.

(** [merge_adjacent] *)
Definition merge_adjacent (rs : list IndexedRegion) : list IndexedRegion :=
  match rs with
  | [] => []
  | cur :: rest => merge_from cur rest
  end.

(** One entry of the dump's memory list: which stream it comes from, its
    address, and its bytes' place in the mapping. *)
Record MemoryEntry := mkEntry { me_is64 : bool; me_base : Z; me_data : Z; me_len : Z }.

(** The indexing loop of [from_unified]: regions, byte total, and the two flags. *)
Definition index_entry (acc : list IndexedRegion * Z * bool * bool) (e : MemoryEntry)
    : list IndexedRegion * Z * bool * bool :=
  let '(rs, total, saw_32, saw_64) := acc in
  let '(saw_32, saw_64) := if me_is64 e then (saw_32, true) else (true, saw_64) in
  if (me_len e =? 0)%Z then (rs, total, saw_32, saw_64)
  else (rs ++ [mkRegion (me_base e) (me_len e) (me_data e)], total +sat me_len e, saw_32, saw_64).

(** [ProcessMemoryMap::from_unified] *)
Definition from_unified (entries : option (list MemoryEntry)) : ProcessMemoryMap :=
  match entries with
  | None => empty_map
  | Some es =>
      let '(rs, total, saw_32, saw_64) := foldl index_entry ([], 0%Z, false, false) es in
      let rs := merge_adjacent (sort_by_key va_start rs) in
      let src := match saw_32, saw_64 with
                 | false, false => SourceNone
                 | true, false => MemoryList
                 | false, true => Memory64List
                 | true, true => Mixed
                 end in
      mkMap rs total src
  end.

Definition region_count (m : ProcessMemoryMap) : nat := length (regions m).

(** [ProcessMemoryMap::source_label] *)
Definition source_label (m : ProcessMemoryMap) : string :=
  match source m with
  | SourceNone => "none"
  | MemoryList => "MemoryList"
  | Memory64List => "Memory64List"
  | Mixed => "mixed"
  end.

(** [ProcessMemoryMap::regions_page]: start and size of a page of regions. *)
Definition regions_page (m : ProcessMemoryMap) (offset limit : nat) : list (Z * Z) :=
  (λ r, (va_start r, rg_size r)) <$> take limit (drop offset (regions m)).

(** [slice::partition_point] *)
Fixpoint partition_point {A} (p : A → bool) (l : list A) : nat :=
  match l with
  | [] => 0
  | x :: l => if p x then S (partition_point p l) else 0
  end.

(** [slice_from_region], of the region [r]. *)
Definition slice_from_region (mmap : bytes) (r : IndexedRegion) (va : Z) (len : nat) : ReadStatus :=
  let offset := (va - va_start r)%Z in
  let avail := rg_size r -sat offset in
  if (avail =? 0)%Z then Unmapped
  else
    let n := Nat.min (Z.to_nat avail) len in
    let slice := take n (drop (Z.to_nat (rg_data r + offset)) mmap) in
    if decide (n = len) then ReadOk slice else Partial slice.

(** [ProcessMemoryMap::read_at] *)
Definition read_at (mmap : bytes) (m : ProcessMemoryMap) (va : Z) (len : nat) : ReadStatus :=
  if decide (len = 0) then ReadOk []
  else
    match regions m !! partition_point (λ r, (region_end r <=? va)%Z) (regions m) with
    | None => Unmapped
    | Some r =>
        if (va <? va_start r)%Z || (region_end r <=? va)%Z then Unmapped
        else slice_from_region mmap r va len
    end.

(** [ProcessMemoryMap::contains_va] *)
Definition contains_va (mmap : bytes) (m : ProcessMemoryMap) (va : Z) : bool :=
  match read_at mmap m va 1 with Unmapped => false | _ => true end.

(** The loop of [coverage_ratio]; it stops at the first region past the end. *)
Fixpoint covered_loop (base end_ : Z) (rs : list IndexedRegion) (covered : Z) : Z :=
  match rs with
  | [] => covered
  | r :: rs =>
      if (end_ <=? va_start r)%Z then covered
      else
        let lo := Z.max (va_start r) base in
        let hi := Z.min (region_end r) end_ in
        covered_loop base end_ rs (if (lo <? hi)%Z then covered +sat (hi - lo) else covered)
  end.

(** The numerator of [coverage_ratio]: the bytes of [base, base+size) in the dump. *)
Definition covered_bytes (m : ProcessMemoryMap) (base size : Z) : Z :=
  if (size =? 0)%Z then 0%Z
  else
    let start_idx := partition_point (λ r, (region_end r <=? base)%Z) (regions m) in
    covered_loop base (base +sat size) (drop start_idx (regions m)) 0.

(** ** The memory a region list describes *)

Definition in_region (va : Z) (r : IndexedRegion) : bool :=
  (va_start r <=? va)%Z && (va <? va_start r + rg_size r)%Z.

(** Is [va] in some region? *)
Definition mapped (rs : list IndexedRegion) (va : Z) : bool :=
  match find_first (in_region va) rs with Some _ => true | None => false end.

(** The byte at [va]. *)
Definition byte_at (mmap : bytes) (rs : list IndexedRegion) (va : Z) : option byte :=
  r ← find_first (in_region va) rs;
  mmap !! Z.to_nat (rg_data r + (va - va_start r)).

(** A region that fits in the address space and in the mapping. *)
Record wf_region (mmap : bytes) (r : IndexedRegion) : Prop := {
  wr_start : (0 ≤ va_start r)%Z;
  wr_size : (0 < rg_size r)%Z;
  wr_end : (va_start r + rg_size r ≤ u64_max)%Z;
  wr_data : (0 ≤ rg_data r)%Z;
  wr_mmap : (rg_data r + rg_size r ≤ Z.of_nat (length mmap))%Z
}.

Definition before (r r' : IndexedRegion) : Prop := (va_start r + rg_size r ≤ va_start r')%Z.

(** Sorted by address, without overlap. *)
Definition wf_regions (mmap : bytes) (rs : list IndexedRegion) : Prop :=
  Forall (wf_region mmap) rs ∧ StronglySorted before rs.

Lemma wf_regions_cons mmap r rs :
  wf_regions mmap (r :: rs) ↔ wf_region mmap r ∧ Forall (before r) rs ∧ wf_regions mmap rs.
Proof.
  unfold wf_regions. split.
  - intros [[W F]%Forall_cons S]. inversion S; subst. done.
  - intros (W & B & F & S). split; by constructor.
Qed.

Lemma region_end_eq mmap r : wf_region mmap r → region_end r = (va_start r + rg_size r)%Z.
Proof. intros []. unfold region_end. mach. Qed.

Lemma in_region_iff va r :
  in_region va r = true ↔ (va_start r ≤ va < va_start r + rg_size r)%Z.
Proof. unfold in_region. rewrite andb_true_iff, Z.leb_le, Z.ltb_lt. done. Qed.
Lemma in_region_false va r :
  in_region va r = false ↔ (va < va_start r ∨ va_start r + rg_size r ≤ va)%Z.
Proof. rewrite <-not_true_iff_false, in_region_iff. lia. Qed.

(** Addresses before every region of a list are unmapped. *)
Lemma find_before va r rs :
  (va < va_start r + rg_size r)%Z → Forall (before r) rs → find_first (in_region va) rs = None.
Proof.
  intros V B. apply find_first_None. intros r' Hr'. rewrite Forall_forall in B.
  specialize (B r' Hr'). apply in_region_false. unfold before in B. lia.
Qed.

(** The region the search stops at is the one containing the address, if any is. *)
Lemma search_spec mmap rs va :
  wf_regions mmap rs →
  match rs !! partition_point (λ r, (region_end r <=? va)%Z) rs with
  | None => find_first (in_region va) rs = None
  | Some r => r ∈ rs ∧ (va < region_end r)%Z ∧
      find_first (in_region va) rs = if (va <? va_start r)%Z then None else Some r
  end.
Proof.
  induction rs as [|r rs IH]; intros W; [done|].
  apply wf_regions_cons in W as (Wr & B & W). specialize (IH W).
  pose proof (region_end_eq _ _ Wr) as E. simpl.
  destruct (Z.leb_spec (region_end r) va) as [L|L]; simpl.
  - rewrite (proj2 (in_region_false va r)) by lia.
    destruct (rs !! _) as [r'|]; [|done]. destruct IH as (Hin & V & F). split; [by right|done].
  - split; [by left|]. split; [done|]. destruct (Z.ltb_spec va (va_start r)).
    + rewrite (proj2 (in_region_false va r)) by lia. apply (find_before _ r); [lia|done].
    + by rewrite (proj2 (in_region_iff va r)) by lia.
Qed.

Lemma lookup_slice (l : bytes) n a i :
  i < n → take n (drop a l) !! i = l !! (a + i).
Proof. intros. rewrite lookup_take_lt by done. by rewrite lookup_drop. Qed.

(** Reading inside one region. *)
Lemma slice_from_region_spec mmap r va len :
  wf_region mmap r → in_region va r = true → 0 < len →
  ∃ bs, as_slice (slice_from_region mmap r va len) = Some bs ∧
    length bs = Nat.min len (Z.to_nat (va_start r + rg_size r - va)) ∧
    (slice_from_region mmap r va len = ReadOk bs ↔ length bs = len) ∧
    (∀ i, i < length bs → bs !! i = mmap !! Z.to_nat (rg_data r + (va + Z.of_nat i - va_start r))).
Proof.
  intros W I L. apply in_region_iff in I. destruct W. unfold slice_from_region.
  assert (rg_size r -sat (va - va_start r) = va_start r + rg_size r - va)%Z as -> by mach.
  rewrite (proj2 (Z.eqb_neq _ _)) by lia.
  set (n := Nat.min _ len). exists (take n (drop (Z.to_nat (rg_data r + (va - va_start r))) mmap)).
  assert (length (take n (drop (Z.to_nat (rg_data r + (va - va_start r))) mmap)) = n) as Ln.
  { rewrite length_take, length_drop. unfold n. lia. }
  rewrite Ln. split; [by case_decide|]. split; [unfold n; lia|]. split.
  - case_decide; split; intros; done || congruence.
  - intros i Hi. rewrite lookup_slice by done. f_equal. lia.
Qed.

Lemma find_region mmap rs r va :
  wf_regions mmap rs → r ∈ rs → in_region va r = true → find_first (in_region va) rs = Some r.
Proof.
  induction rs as [|r0 rs IH]; intros W Hin I; [by apply not_elem_of_nil in Hin|].
  apply wf_regions_cons in W as (Wr & B & W). simpl.
  apply elem_of_cons in Hin as [->|Hin]; [by rewrite I|].
  rewrite Forall_forall in B. pose proof (B _ Hin) as Br. unfold before in Br.
  apply in_region_iff in I as I'. rewrite (proj2 (in_region_false va r0)) by lia. auto.
Qed.

Lemma byte_at_region mmap rs r va :
  wf_regions mmap rs → r ∈ rs → in_region va r = true →
  byte_at mmap rs va = mmap !! Z.to_nat (rg_data r + (va - va_start r)).
Proof. intros W Hin I. unfold byte_at. by rewrite (find_region _ _ _ _ W Hin I). Qed.

(** What a read returns, in every case. *)
Lemma read_at_cases mmap m va len :
  wf_regions mmap (regions m) → 0 < len →
  match read_at mmap m va len with
  | Unmapped => mapped (regions m) va = false
  | ReadOk bs =>
      length bs = len ∧ ∀ i, i < len → bs !! i = byte_at mmap (regions m) (va + Z.of_nat i)
  | Partial bs =>
      0 < length bs < len ∧
      (∀ i, i < length bs → bs !! i = byte_at mmap (regions m) (va + Z.of_nat i)) ∧
      ∃ r, r ∈ regions m ∧ (va + Z.of_nat (length bs) = va_start r + rg_size r)%Z
  end.
Proof.
  intros W L. pose proof (search_spec mmap (regions m) va W) as S.
  unfold read_at, mapped in *. rewrite decide_False by lia.
  destruct (regions m !! _) as [r|]; [|by rewrite S].
  destruct S as (Hin & V & F). rewrite F.
  destruct (Z.ltb_spec va (va_start r)) as [|Vs]; simpl; [done|].
  rewrite (proj2 (Z.leb_gt _ _)) by done.
  assert (wf_region mmap r) as Wr by (destruct W as [Wf _]; rewrite Forall_forall in Wf; auto).
  rewrite (region_end_eq _ _ Wr) in V.
  assert (in_region va r = true) as I by (apply in_region_iff; lia).
  destruct (slice_from_region_spec mmap r va len Wr I L) as (bs & E1 & E2 & E3 & E4).
  assert (∀ i, i < length bs → bs !! i = byte_at mmap (regions m) (va + Z.of_nat i)) as Bs.
  { intros i Hi. rewrite E4 by done. symmetry. apply byte_at_region; [done..|].
    apply in_region_iff. rewrite E2 in Hi. lia. }
  destruct (slice_from_region mmap r va len) as [bs'|bs'|] eqn:Es; simplify_eq/=.
  - destruct E3 as [E3 _]. specialize (E3 eq_refl). rewrite <-E3. done.
  - assert (length bs ≠ len) by (intros Hl; by apply E3 in Hl).
    split; [lia|]. split; [done|]. exists r. split; [done|lia].
Qed.

(** ** Building the index *)

Definition mergeable (a b : IndexedRegion) : bool :=
  (va_start b =? region_end a)%Z && (rg_data b =? rg_data a + rg_size a)%Z.

(** No two neighbours could be merged. *)
Fixpoint merged (rs : list IndexedRegion) : Prop :=
  match rs with
  | a :: (b :: _) as rest => mergeable a b = false ∧ merged rest
  | _ => True
  end.

Lemma merge_from_spec mmap cur rest :
  wf_regions mmap (cur :: rest) →
  wf_regions mmap (merge_from cur rest) ∧
  (∀ va, byte_at mmap (merge_from cur rest) va = byte_at mmap (cur :: rest) va) ∧
  (∀ va, mapped (merge_from cur rest) va = mapped (cur :: rest) va) ∧
  (∀ r, Forall (before r) (cur :: rest) → Forall (before r) (merge_from cur rest)).
Proof.
  revert cur. induction rest as [|next rest IH]; intros cur W; [done|].
  apply wf_regions_cons in W as (Wc & Bc & W). pose proof W as W0.
  apply wf_regions_cons in W as (Wn & Bn & W). simpl merge_from.
  rewrite (region_end_eq _ _ Wc).
  destruct ((va_start next =? _)%Z && _) eqn:M.
  - apply andb_true_iff in M as [M1 M2]. apply Z.eqb_eq in M1. apply Z.eqb_eq in M2.
    set (big := mkRegion _ _ _).
    assert (rg_size big = rg_size cur + rg_size next)%Z as Sz
      by (destruct Wc, Wn; unfold big; simpl; mach).
    assert (va_start big = va_start cur ∧ rg_data big = rg_data cur) as [Sv Sd] by done.
    assert (wf_regions mmap (big :: rest)) as Wb.
    { apply wf_regions_cons. split; [destruct Wc, Wn; split; lia|]. split; [|done].
      eapply Forall_impl; [exact Bn|]. unfold before. lia. }
    destruct (IH big Wb) as (I1 & I2 & I3 & I4). split; [done|].
    assert (∀ va, in_region va big = in_region va cur || in_region va next) as Ib.
    { intros va. apply eq_true_iff_eq. rewrite orb_true_iff, !in_region_iff.
      destruct Wc, Wn. lia. }
    split; [|split].
    + intros va. rewrite I2. unfold byte_at. simpl. rewrite Ib.
      destruct (in_region va cur) eqn:R2; simpl; [by rewrite ?Sv, ?Sd|].
      destruct (in_region va next) eqn:R3; simpl; [|done].
      f_equal. rewrite ?Sv, ?Sd. lia.
    + intros va. rewrite I3. unfold mapped. simpl. rewrite Ib.
      by destruct (in_region va cur), (in_region va next).
    + intros r Fr. apply I4. apply Forall_cons in Fr as [F1 Fr].
      apply Forall_cons in Fr as [F2 Fr]. by constructor.
  - destruct (IH next W0) as (I1 & I2 & I3 & I4). split; [|split; [|split]].
    + apply wf_regions_cons. split; [done|]. split; [by apply I4|done].
    + intros va. specialize (I2 va). unfold byte_at in *. simpl in *.
      destruct (in_region va cur); [done|exact I2].
    + intros va. specialize (I3 va). unfold mapped in *. simpl in *.
      destruct (in_region va cur); [done|exact I3].
    + intros r Fr. apply Forall_cons in Fr as [F1 Fr]. constructor; [done|]. by apply I4.
Qed.

Lemma merge_from_head cur rest :
  ∃ r tl, merge_from cur rest = r :: tl ∧ va_start r = va_start cur ∧ rg_data r = rg_data cur.
Proof.
  revert cur. induction rest as [|next rest IH]; intros cur; simpl; [by eexists _, _|].
  destruct (_ && _); [apply (IH (mkRegion _ _ _))|by eexists _, _].
Qed.

Lemma merge_from_merged mmap cur rest :
  wf_regions mmap (cur :: rest) → merged (merge_from cur rest).
Proof.
  revert cur. induction rest as [|next rest IH]; intros cur W; [done|]. simpl merge_from.
  pose proof W as W'. apply wf_regions_cons in W as (Wc & Bc & W). pose proof W as W0.
  apply wf_regions_cons in W as (Wn & Bn & W).
  destruct ((va_start next =? _)%Z && _) eqn:M.
  - apply IH. apply andb_true_iff in M as [M1 M2].
    rewrite (region_end_eq _ _ Wc) in M1. apply Z.eqb_eq in M1. apply Z.eqb_eq in M2.
    apply wf_regions_cons. split; [|split; [|done]].
    + destruct Wc, Wn; split; simpl; mach.
    + eapply Forall_impl; [exact Bn|]. unfold before. destruct Wc, Wn. simpl. mach.
  - specialize (IH next W0).
    destruct (merge_from_head next rest) as (r & tl & E & V & D). rewrite E in IH |- *.
    split; [|done]. unfold mergeable. by rewrite V, D.
Qed.

(** The raw regions of a memory list, in address order. *)
Definition entry_region (e : MemoryEntry) : IndexedRegion :=
  mkRegion (me_base e) (me_len e) (me_data e).
Definition raw_regions (es : list MemoryEntry) : list IndexedRegion :=
  sort_by_key va_start (entry_region <$> filter (λ e, me_len e ≠ 0%Z) es).

Lemma index_entries es rs total s32 s64 :
  let '(rs', total', s32', s64') := foldl index_entry (rs, total, s32, s64) es in
  rs' = rs ++ (entry_region <$> filter (λ e, me_len e ≠ 0%Z) es) ∧
  total' = foldl (λ t e, t +sat me_len e) total (filter (λ e, me_len e ≠ 0%Z) es) ∧
  s32' = s32 || existsb (λ e, negb (me_is64 e)) es ∧ s64' = s64 || existsb me_is64 es.
Proof.
  revert rs total s32 s64. induction es as [|e es IH]; intros rs total s32 s64; cbn [foldl existsb].
  { rewrite filter_nil, fmap_nil. by rewrite (right_id_L [] (++)), !orb_false_r. }
  assert (∀ rs1 t1 b1 b2,
    (rs1, t1, b1, b2) = index_entry (rs, total, s32, s64) e →
    b1 = s32 || negb (me_is64 e) ∧ b2 = s64 || me_is64 e ∧
    rs1 = (if decide (me_len e ≠ 0%Z) then rs ++ [entry_region e] else rs) ∧
    t1 = (if decide (me_len e ≠ 0%Z) then total +sat me_len e else total)) as X.
  { intros rs1 t1 b1 b2. unfold index_entry.
    destruct (me_is64 e), (Z.eqb_spec (me_len e) 0); intros [= -> -> -> ->]; simpl;
      rewrite ?orb_false_r, ?orb_true_r; by case_decide. }
  destruct (index_entry (rs, total, s32, s64) e) as [[[rs1 t1] b1] b2].
  destruct (X _ _ _ _ eq_refl) as (-> & -> & -> & ->).
  specialize (IH (if decide (me_len e ≠ 0%Z) then rs ++ [entry_region e] else rs)
    (if decide (me_len e ≠ 0%Z) then total +sat me_len e else total)
    (s32 || negb (me_is64 e)) (s64 || me_is64 e)).
  destruct (foldl _ _ es) as [[[rs2 t2] c1] c2]. destruct IH as (-> & -> & -> & ->).
  rewrite filter_cons, !orb_assoc. case_decide; simpl; [|done].
  by rewrite <-app_assoc.
Qed.

(** ** Coverage *)

(** How many of the [n] addresses from [base] satisfy [p]. *)
Fixpoint count (p : Z → bool) (base : Z) (n : nat) : Z :=
  match n with
  | 0 => 0
  | S n => count p base n + (if p (base + Z.of_nat n)%Z then 1 else 0)
  end.

(** The part of a region inside [base, end_). *)
Definition overlap (base end_ : Z) (r : IndexedRegion) : Z :=
  Z.max 0 (Z.min (va_start r + rg_size r) end_ - Z.max (va_start r) base).

Lemma count_region r base n :
  (0 < rg_size r)%Z → count (λ va, in_region va r) base n = overlap base (base + Z.of_nat n) r.
Proof.
  intros P. unfold overlap. induction n as [|n IH]; simpl count; [lia|]. rewrite IH.
  destruct (in_region (base + Z.of_nat n) r) eqn:E;
    [apply in_region_iff in E|apply in_region_false in E]; lia.
Qed.

Lemma count_or p q r base n :
  (∀ va, r va = p va || q va) → (∀ va, p va = true → q va = false) →
  count r base n = (count p base n + count q base n)%Z.
Proof.
  intros R D. induction n as [|n IH]; simpl count; [done|]. rewrite IH, R.
  specialize (D (base + Z.of_nat n)%Z).
  destruct (p _), (q _); simpl; [by specialize (D eq_refl)|lia..].
Qed.

Lemma count_none p base n :
  (∀ va, (base ≤ va < base + Z.of_nat n)%Z → p va = false) → count p base n = 0%Z.
Proof.
  induction n as [|n IH]; intros P; simpl count; [done|].
  rewrite P by lia. rewrite IH; [done|]. intros. apply P. lia.
Qed.

Lemma count_bounds p base n : (0 ≤ count p base n ≤ Z.of_nat n)%Z.
Proof. induction n as [|n IH]; simpl count; [done|]. destruct (p _); lia. Qed.

Lemma mapped_cons r rs va : mapped (r :: rs) va = in_region va r || mapped rs va.
Proof. unfold mapped. simpl. by destruct (in_region va r). Qed.

Lemma count_mapped_cons mmap r rs base n :
  wf_regions mmap (r :: rs) →
  count (mapped (r :: rs)) base n =
    (overlap base (base + Z.of_nat n) r + count (mapped rs) base n)%Z.
Proof.
  intros W. apply wf_regions_cons in W as (Wr & B & W).
  rewrite <-count_region by apply Wr. apply count_or; [apply mapped_cons|].
  intros va I%in_region_iff. unfold mapped.
  by rewrite (find_before va r rs) by (done || lia).
Qed.

Lemma covered_loop_spec mmap rs base n c :
  wf_regions mmap rs → (0 ≤ c)%Z → (c + count (mapped rs) base n ≤ u64_max)%Z →
  covered_loop base (base + Z.of_nat n) rs c = (c + count (mapped rs) base n)%Z.
Proof.
  revert c. induction rs as [|r rs IH]; intros c W C U; simpl covered_loop.
  { rewrite count_none by done. lia. }
  rewrite (count_mapped_cons _ _ _ base n W) in *.
  pose proof W as W0. apply wf_regions_cons in W as (Wr & B & W).
  pose proof (count_bounds (mapped rs) base n) as K.
  assert (0 ≤ overlap base (base + Z.of_nat n) r)%Z as O by (unfold overlap; lia).
  destruct (Z.leb_spec (base + Z.of_nat n) (va_start r)) as [L|L].
  - rewrite (count_none (mapped rs)).
    + unfold overlap. lia.
    + intros va V. unfold mapped. rewrite (find_before va r rs); [done| |done].
      destruct Wr. lia.
  - rewrite (region_end_eq _ _ Wr). unfold overlap in *.
    destruct (Z.ltb_spec (Z.max (va_start r) base)
                (Z.min (va_start r + rg_size r) (base + Z.of_nat n))).
    + rewrite IH; [|done|mach|mach]. mach.
    + rewrite IH; [|done|mach|mach]. mach.
Qed.

(** Regions ending before the range contribute nothing. *)
Lemma covered_skip mmap rs base n :
  wf_regions mmap rs →
  wf_regions mmap (drop (partition_point (λ r, (region_end r <=? base)%Z) rs) rs) ∧
  count (mapped (drop (partition_point (λ r, (region_end r <=? base)%Z) rs) rs)) base n =
    count (mapped rs) base n.
Proof.
  induction rs as [|r rs IH]; intros W; [done|]. simpl partition_point.
  destruct (Z.leb_spec (region_end r) base) as [L|L]; [|done].
  rewrite (count_mapped_cons _ _ _ base n W).
  apply wf_regions_cons in W as (Wr & B & W). rewrite (region_end_eq _ _ Wr) in L.
  simpl drop. destruct (IH W) as [I1 I2]. split; [done|]. rewrite I2. unfold overlap. lia.
Qed.

(** ** The claims *)

(** A read of dump memory returns only bytes the dump holds for the
    addresses asked: a full read holds every byte, a partial one a non-empty
    prefix that stops at the end of a region, and "unmapped" means the first
    address is in no region. *)
Theorem read_at_correct mmap m va len :
  wf_regions mmap (regions m) → 0 < len →
  match read_at mmap m va len with
  | Unmapped => mapped (regions m) va = false
  | ReadOk bs =>
      length bs = len ∧ ∀ i, i < len → bs !! i = byte_at mmap (regions m) (va + Z.of_nat i)
  | Partial bs =>
      0 < length bs < len ∧
      (∀ i, i < length bs → bs !! i = byte_at mmap (regions m) (va + Z.of_nat i)) ∧
      ∃ r, r ∈ regions m ∧ (va + Z.of_nat (length bs) = va_start r + rg_size r)%Z
  end.
Proof. apply read_at_cases. Qed.

(** The index built from the dump's memory list is sorted, without overlap
    and fully merged, and holds exactly the bytes of the list's entries. *)
Theorem from_unified_correct mmap es :
  wf_regions mmap (raw_regions es) →
  let m := from_unified (Some es) in
  wf_regions mmap (regions m) ∧ merged (regions m) ∧
  (∀ va, byte_at mmap (regions m) va = byte_at mmap (raw_regions es) va) ∧
  (∀ va, mapped (regions m) va = mapped (raw_regions es) va).
Proof.
  intros W. unfold from_unified.
  pose proof (index_entries es [] 0%Z false false) as X.
  destruct (foldl index_entry _ es) as [[[rs t] s32] s64]. destruct X as (-> & _ & _ & _).
  simpl. change (sort_by_key va_start _) with (raw_regions es).
  destruct (raw_regions es) as [|cur rest] eqn:E; [split; [by split; constructor|done]|].
  destruct (merge_from_spec _ _ _ W) as (I1 & I2 & I3 & _).
  split; [done|]. split; [by eapply merge_from_merged|]. done.
Qed.

(** The coverage numerator is the number of addresses of the range that the
    dump holds; in particular it never exceeds the range's size. *)
Theorem coverage_counts mmap m base n :
  wf_regions mmap (regions m) → 0 < n → (0 ≤ base)%Z → (base + Z.of_nat n ≤ u64_max)%Z →
  covered_bytes m base (Z.of_nat n) = count (mapped (regions m)) base n ∧
  (0 ≤ covered_bytes m base (Z.of_nat n) ≤ Z.of_nat n)%Z.
Proof.
  intros W N B U. destruct (covered_skip _ _ base n W) as [Wd Kd].
  pose proof (count_bounds (mapped (regions m)) base n) as K.
  assert (covered_bytes m base (Z.of_nat n) = count (mapped (regions m)) base n) as ->; [|done].
  unfold covered_bytes. rewrite (proj2 (Z.eqb_neq _ _)) by lia.
  rewrite sat_add_small by (mach || done).
  rewrite (covered_loop_spec mmap); [by rewrite Kd, Z.add_0_l|done|done|].
  rewrite Kd. mach.
Qed.

(** Two regions that meet in the address space but not in the file. *)
Definition split_map : ProcessMemoryMap :=
  mkMap [mkRegion 0x1000 2 4; mkRegion 0x1002 2 0] 4 MemoryList.
Definition split_mmap : bytes := [x00; x01; x02; x03; x04; x05].

(** A read across two regions that meet in memory but not in the file is
    reported as partial, although every byte of the range is mapped: there is no
    gap behind the partial data. *)
Theorem partial_without_gap :
  wf_regions split_mmap (regions split_map) ∧ merged (regions split_map) ∧
  read_at split_mmap split_map 0x1000 4 = Partial [x04; x05] ∧
  (∀ va, (0x1000 ≤ va < 0x1004)%Z → mapped (regions split_map) va = true).
Proof.
  split; [|split; [done|split; [done|]]].
  - split; [repeat constructor; simpl; unfold u64_max; lia|].
    repeat constructor; unfold before; simpl; lia.
  - intros va V. unfold split_map. cbn [regions]. rewrite !mapped_cons.
    destruct (decide (va < 0x1002)%Z).
    + by rewrite (proj2 (in_region_iff _ _)) by (simpl; lia).
    + rewrite (proj2 (in_region_iff va (mkRegion 0x1002 2 0))) by (simpl; lia).
      by rewrite orb_true_r.
Qed.

(** ** At concrete inputs *)

Lemma split_wf : wf_regions split_mmap (regions split_map).
Proof.
  split; [repeat constructor; simpl; unfold u64_max; lia|].
  repeat constructor; unfold before; simpl; lia.
Qed.

Lemma read_at_correct_witness :
  match read_at split_mmap split_map 0x1001 1 with ReadOk bs => length bs = 1 | _ => False end.
Proof.
  pose proof (read_at_correct split_mmap split_map 0x1001 1 split_wf ltac:(lia)) as R.
  change (read_at split_mmap split_map 0x1001 1) with (ReadOk [x05]) in *. exact (proj1 R).
Defined.

Definition sample_entries : list MemoryEntry :=
  [mkEntry true 0x1002 2 2; mkEntry true 0x1000 0 2; mkEntry true 0x5000 0 0].

Lemma from_unified_correct_witness :
  wf_regions split_mmap (regions (from_unified (Some sample_entries))).
Proof.
  apply (from_unified_correct split_mmap sample_entries).
  split; [repeat constructor; simpl; unfold u64_max; lia|].
  repeat constructor; unfold before; simpl; lia.
Defined.

Lemma coverage_counts_witness :
  covered_bytes split_map 0xfff 4 = count (mapped (regions split_map)) 0xfff 4.
Proof.
  refine (proj1 (coverage_counts split_mmap split_map 0xfff 4 split_wf _ _ _)); unfold u64_max; lia.
Defined.
