(* ===== verification/Loader.v ===== *)
(** Address translation: the PE address space of [src/loader/address_space.rs],
    the sparse process memory of [src/loader/dump/memory_map.rs], and the read
    that combines them, [Project::read_bytes] (src/project/mod.rs).

    Addresses and sizes are [u64]/[u32] held in [Z]; an image is the list of its
    bytes, and a pointer into the dump's mapping is an index into it. *)

From Stdlib Require Import Strings.Byte.
From S2P Require Import Prelude Journal MemoryMap.

(** ** [address_space.rs] *)
Module AddressSpace.

Record Section_ := mkSection {
  vaddr : Z;
  vsize : Z;
  raw_addr : Z;
  raw_size : Z;
  characteristics : Z
}.

Definition IMAGE_SCN_MEM_EXECUTE : Z := 0x20000000.

(** [Section::is_executable] *)
Definition is_executable (s : Section_) : bool :=
  negb (Z.land (characteristics s) IMAGE_SCN_MEM_EXECUTE =? 0)%Z.

(** [Section::contains_va]: the sum of the base is unchecked, the end saturates. *)
Definition contains_va (image_base : Z) (s : Section_) (va : Z) : bool :=
  let start := image_base +wrap vaddr s in
  let end_ := start +sat vsize s in
  (start <=? va)%Z && (va <? end_)%Z.

(** [Section::va_to_offset] *)
Definition va_to_offset (image_base : Z) (s : Section_) (va : Z) : option Z :=
  if negb (contains_va image_base s va) then None
  else
    let rva := va -sat image_base in
    let offset_in_section := rva -sat vaddr s in
    if (raw_size s <=? offset_in_section)%Z then None
    else Some (raw_addr s +sat offset_in_section).

Record AddressSpace := mkSpace { image_base : Z; sections : list Section_ }.

(** [AddressSpace::section_at_va] *)
Definition section_at_va (a : AddressSpace) (va : Z) : option Section_ :=
  find_first (λ s, contains_va (image_base a) s va) (sections a).

(** [AddressSpace::is_executable_va], [is_valid_va], [is_data_va] *)
Definition is_executable_va (a : AddressSpace) (va : Z) : bool :=
  default false (is_executable <$> section_at_va a va).
Definition is_valid_va (a : AddressSpace) (va : Z) : bool :=
  bool_decide (is_Some (section_at_va a va)).
Definition is_data_va (a : AddressSpace) (va : Z) : bool :=
  default false ((λ s, negb (is_executable s)) <$> section_at_va a va).

(** [u32::saturating_add] *)
Definition sat_add32 (x y : Z) : Z := Z.min u32_max (x + y).

(** [AddressSpace::offset_to_va] *)
Definition offset_to_va (a : AddressSpace) (offset : Z) : option Z :=
  if (u32_max <? offset)%Z then None
  else
    s ← find_first (λ s, (raw_addr s <=? offset)%Z &&
                          (offset <? sat_add32 (raw_addr s) (raw_size s))%Z) (sections a);
    let section_offset := offset -sat raw_addr s in
    Some (image_base a +wrap vaddr s +wrap section_offset).

(** [AddressSpace::exec_sections] *)
Definition exec_sections (a : AddressSpace) : list Section_ :=
  filter (λ s, is_executable s = true) (sections a).

(** [<[u8]>::get(start..end)] *)
Definition get_range (image : bytes) (start len : Z) : option bytes :=
  if (start + len <=? Z.of_nat (length image))%Z
  then Some (take (Z.to_nat len) (drop (Z.to_nat start) image)) else None.

(** [AddressSpace::slice_for_va]: the length is checked against the image, not
    against the section. *)
Definition slice_for_va (a : AddressSpace) (image : bytes) (va : Z) (len : Z) : option bytes :=
  s ← section_at_va a va;
  file_offset ← va_to_offset (image_base a) s va;
  if (u64_max <? file_offset + len)%Z then None
  else get_range image file_offset len.

(** *** Facts *)

Record wf_section (base : Z) (s : Section_) : Prop := {
  ws_vaddr : is_u32 (vaddr s);
  ws_vsize : is_u32 (vsize s);
  ws_raw_addr : is_u32 (raw_addr s);
  ws_raw_size : is_u32 (raw_size s);
  ws_fits : (base + vaddr s + vsize s ≤ u64_max)%Z;
  ws_raw_fits : (raw_addr s + raw_size s ≤ u32_max)%Z
}.

Definition wf_space (a : AddressSpace) : Prop :=
  is_u64 (image_base a) ∧ Forall (wf_section (image_base a)) (sections a).

(** The address range of a section. *)
Lemma contains_va_iff base s va :
  is_u64 base → wf_section base s →
  contains_va base s va = true ↔ (base + vaddr s ≤ va < base + vaddr s + vsize s)%Z.
Proof.
  intros B []. unfold contains_va.
  rewrite wrap_add_small by (mach || done).
  rewrite andb_true_iff, Z.leb_le, Z.ltb_lt. mach.
Qed.

Lemma va_to_offset_iff base s va off :
  is_u64 base → wf_section base s →
  va_to_offset base s va = Some off ↔
  (base + vaddr s ≤ va < base + vaddr s + Z.min (vsize s) (raw_size s))%Z ∧
  off = (raw_addr s + (va - base - vaddr s))%Z.
Proof.
  intros B W. unfold va_to_offset. pose proof (contains_va_iff base s va B W) as C.
  destruct W. destruct (contains_va base s va); simpl.
  - destruct C as [C _]. specialize (C eq_refl).
    destruct (Z.leb_spec (raw_size s) (va -sat base -sat vaddr s)).
    + split; [done|]. mach.
    + split; [intros [= <-]|intros [R ->]; f_equal]; mach.
  - split; [done|]. intros [R _]. destruct C as [_ C].
    assert (false = true) by (apply C; mach). done.
Qed.

Lemma section_at_va_spec a va s :
  wf_space a → section_at_va a va = Some s →
  s ∈ sections a ∧ wf_section (image_base a) s ∧
  (image_base a + vaddr s ≤ va < image_base a + vaddr s + vsize s)%Z.
Proof.
  intros [B W] [Hin C]%find_first_Some. rewrite Forall_forall in W. specialize (W s Hin).
  split; [done|]. split; [done|]. by apply contains_va_iff.
Qed.

(** The offsets of a section map back to its addresses. *)
Lemma offset_to_va_first a s off :
  wf_space a →
  find_first (λ s, (raw_addr s <=? off)%Z &&
                    (off <? sat_add32 (raw_addr s) (raw_size s))%Z) (sections a) = Some s →
  (off ≤ u32_max)%Z → (off - raw_addr s ≤ vsize s)%Z →
  offset_to_va a off = Some (image_base a + vaddr s + (off - raw_addr s))%Z.
Proof.
  intros [B W] F U V. unfold offset_to_va.
  rewrite (proj2 (Z.ltb_ge _ _)) by done. rewrite F. simpl.
  apply find_first_Some in F as [Hin C]. apply andb_true_iff in C as [C1 C2].
  rewrite Z.leb_le in C1. rewrite Forall_forall in W. destruct (W s Hin). f_equal.
  assert (off -sat raw_addr s = off - raw_addr s)%Z as -> by mach.
  rewrite (wrap_add_small (image_base a)) by (mach || done).
  apply wrap_add_small; mach.
Qed.

(** A slice is the file's bytes from the address's offset on. *)
Lemma slice_for_va_spec a image va len bs :
  wf_space a → (0 ≤ len)%Z → slice_for_va a image va len = Some bs →
  ∃ s, section_at_va a va = Some s ∧ Z.of_nat (length bs) = len ∧
    (va - image_base a - vaddr s < raw_size s)%Z ∧
    ∀ i, (0 ≤ i < len)%Z →
      bs !! Z.to_nat i = image !! Z.to_nat (raw_addr s + (va + i - image_base a - vaddr s)).
Proof.
  intros W L E. unfold slice_for_va in E.
  destruct (section_at_va a va) as [s|] eqn:S; [|done]. simpl in E.
  destruct (section_at_va_spec _ _ _ W S) as (_ & Ws & R). destruct W as [B _].
  destruct (va_to_offset (image_base a) s va) as [off|] eqn:O; [|done]. simpl in E.
  apply (va_to_offset_iff _ _ _ _ B Ws) in O as [O ->].
  destruct (_ <? _)%Z; [done|]. unfold get_range in E.
  destruct (Z.leb_spec (raw_addr s + (va - image_base a - vaddr s) + len)
              (Z.of_nat (length image))); [|done].
  simplify_eq. exists s. split; [done|]. destruct Ws.
  split; [rewrite length_take, length_drop; mach|]. split; [lia|].
  intros i Hi. rewrite lookup_take_lt by lia. rewrite lookup_drop. f_equal. mach.
Qed.

End AddressSpace.
Import AddressSpace.

(** ** [Project::read_bytes] *)

(** The dump a module project was extracted from: its mapping and its index. *)
Definition read_dump (dump : option (bytes * ProcessMemoryMap)) (va : Z) (len : nat) : option bytes :=
  match dump with
  | None => None
  | Some (mmap, m) =>
      match read_at mmap m va len with
      | ReadOk b => Some b
      | Partial b => if decide (b = []) then None else Some b
      | Unmapped => None
      end
  end.

Definition read_bytes (a : AddressSpace) (image : bytes)
    (dump : option (bytes * ProcessMemoryMap)) (va : Z) (len : nat) : option bytes :=
  if decide (len = 0) then Some []
  else
    match slice_for_va a image va (Z.of_nat len) with
    | Some slice =>
        if decide (length slice = len) then Some slice
        else if decide (slice ≠ [] ∧ dump = None) then Some slice
        else read_dump dump va len
    | None => read_dump dump va len
    end.

(** ** The claims *)

(** Sections whose file ranges do not overlap. *)
Definition raw_disjoint (a : AddressSpace) : Prop :=
  ∀ s s' off, s ∈ sections a → s' ∈ sections a →
    (raw_addr s ≤ off < raw_addr s + raw_size s)%Z →
    (raw_addr s' ≤ off < raw_addr s' + raw_size s')%Z → s = s'.

(** Converting an address to its file offset and back gives the address. *)
Theorem va_offset_roundtrip a va s off :
  wf_space a → raw_disjoint a →
  section_at_va a va = Some s → va_to_offset (image_base a) s va = Some off →
  offset_to_va a off = Some va ∧ (raw_addr s ≤ off < raw_addr s + raw_size s)%Z.
Proof.
  intros W D S O. destruct (section_at_va_spec _ _ _ W S) as (Hin & Ws & R).
  pose proof (proj1 W) as B. apply (va_to_offset_iff _ _ _ _ B Ws) in O as [O ->].
  split; [|lia]. set (off := (raw_addr s + _)%Z).
  assert (∀ s', s' ∈ sections a →
    (raw_addr s' <=? off)%Z && (off <? sat_add32 (raw_addr s') (raw_size s'))%Z = true ↔
    (raw_addr s' ≤ off < raw_addr s' + raw_size s')%Z) as C.
  { intros s' Hs'. destruct W as [_ W]. rewrite Forall_forall in W. destruct (W s' Hs').
    rewrite andb_true_iff, Z.leb_le, Z.ltb_lt. unfold sat_add32. mach. }
  destruct (find_first (λ s, (raw_addr s <=? off)%Z &&
    (off <? sat_add32 (raw_addr s) (raw_size s))%Z) (sections a)) as [s'|] eqn:F.
  - pose proof F as [Hin' C']%find_first_Some. apply (C _ Hin') in C'.
    assert (s' = s) as -> by (apply (D s' s off); [done|done|done|unfold off; lia]).
    rewrite (offset_to_va_first a s off W F); [f_equal; unfold off; lia| |unfold off; lia].
    destruct Ws. unfold off. mach.
  - rewrite find_first_None in F. specialize (F s Hin).
    assert (_ = true) as T by (apply (C s Hin); unfold off; lia). simpl in T. congruence.
Qed.

(** A slice for an address has the length asked for, and every byte of it
    that lies in the section's initialised data is the file byte that address
    maps to. *)
Theorem slice_reads_section a image va len bs s :
  wf_space a → (0 ≤ len)%Z → slice_for_va a image va len = Some bs →
  section_at_va a va = Some s →
  Z.of_nat (length bs) = len ∧
  ∀ i off, (0 ≤ i < len)%Z → va_to_offset (image_base a) s (va + i) = Some off →
    bs !! Z.to_nat i = image !! Z.to_nat off.
Proof.
  intros W L E S. destruct (slice_for_va_spec _ _ _ _ _ W L E) as (s' & S' & Lb & _ & R).
  simplify_eq. split; [done|]. intros i off Hi O.
  destruct (section_at_va_spec _ _ _ W S) as (_ & Ws & _).
  apply (va_to_offset_iff _ _ _ _ (proj1 W) Ws) in O as [_ ->].
  by rewrite R.
Qed.

(** Two sections whose data are neighbours in the file, a page apart in memory. *)
Definition overrun_space : AddressSpace :=
  mkSpace 0x400000 [mkSection 0x1000 0x1000 0 2 0x20000000; mkSection 0x2000 0x1000 2 2 0].

Lemma overrun_wf : wf_space overrun_space ∧ raw_disjoint overrun_space.
Proof.
  split; [split; [split; done|]; repeat constructor; simpl; done|].
  intros s s' off Hs Hs' R R'.
  apply elem_of_cons in Hs as [->|Hs%list_elem_of_singleton];
    apply elem_of_cons in Hs' as [->|Hs'%list_elem_of_singleton]; subst; simpl in *; done || lia.
Qed.

(** The length of a slice is not checked against the section: a read that
    starts in one section's data and is longer than it returns the next
    section's file bytes, for addresses that map to no file byte at all. *)
Theorem slice_overruns_section :
  wf_space overrun_space ∧ raw_disjoint overrun_space ∧
  slice_for_va overrun_space [x41; x42; x43; x44] 0x401001 2 = Some [x42; x43] ∧
  section_at_va overrun_space 0x401002 = Some (mkSection 0x1000 0x1000 0 2 0x20000000) ∧
  va_to_offset 0x400000 (mkSection 0x1000 0x1000 0 2 0x20000000) 0x401002 = None ∧
  offset_to_va overrun_space 2 = Some 0x402000%Z.
Proof.
  split; [apply overrun_wf|]. split; [apply overrun_wf|done].
Qed.

(** Reading project memory: the image's own bytes win, the dump is only
    asked when the image has none, a request is never answered by more bytes
    than asked for, and without a dump only by all of them. *)
Theorem read_bytes_sources a image dump va len bs :
  wf_space a →
  (∀ mmap m, dump = Some (mmap, m) → wf_regions mmap (regions m)) →
  read_bytes a image dump va len = Some bs →
  length bs ≤ len ∧
  (0 < len →
   slice_for_va a image va (Z.of_nat len) = Some bs ∧ length bs = len ∨
   slice_for_va a image va (Z.of_nat len) = None ∧ read_dump dump va len = Some bs ∧
     0 < length bs ∧ dump ≠ None).
Proof.
  intros W Wd E. unfold read_bytes in E. case_decide as L0; [simplify_eq; simpl; split; [done|lia]|].
  assert (∀ bs, read_dump dump va len = Some bs → 0 < length bs ≤ len ∧ dump ≠ None) as D.
  { intros bs0. unfold read_dump. destruct dump as [[mmap m]|]; [|done].
    pose proof (read_at_cases mmap m va len (Wd _ _ eq_refl) ltac:(lia)) as R.
    destruct (read_at mmap m va len); [|case_decide; [done|]|done]; intros; simplify_eq;
      destruct R as [R _]; (split; [lia|done]). }
  destruct (slice_for_va a image va (Z.of_nat len)) as [slice|] eqn:S.
  - destruct (slice_for_va_spec _ _ _ _ _ W (Nat2Z.is_nonneg len) S) as (s & _ & Ls & _).
    rewrite decide_True in E by lia. simplify_eq. split; [lia|]. intros _. left. split; [done|lia].
  - destruct (D _ E) as [? ?]. split; [lia|]. intros _. right. repeat split; try done. lia.
Qed.

(** ** At concrete inputs *)

Lemma va_offset_roundtrip_witness : offset_to_va overrun_space 3 = Some 0x402001%Z.
Proof.
  exact (proj1 (va_offset_roundtrip overrun_space 0x402001 (mkSection 0x2000 0x1000 2 2 0) 3
    (proj1 overrun_wf) (proj2 overrun_wf) eq_refl eq_refl)).
Defined.

Lemma slice_reads_section_witness :
  [x43; x44] !! 1 = [x41; x42; x43; x44] !! 3.
Proof.
  exact (proj2 (slice_reads_section overrun_space [x41; x42; x43; x44] 0x402000 2 [x43; x44]
    (mkSection 0x2000 0x1000 2 2 0) (proj1 overrun_wf) ltac:(lia) eq_refl eq_refl)
    1%Z 3%Z ltac:(lia) eq_refl).
Defined.

Lemma read_bytes_sources_witness :
  length [x05] ≤ 4.
Proof.
  refine (proj1 (read_bytes_sources overrun_space [x41; x42; x43; x44]
    (Some (split_mmap, split_map)) 0x1001 4 [x05] (proj1 overrun_wf) _ eq_refl)).
  intros ? ? [= <- <-]. exact split_wf.
Defined.
