(* ===== verification/Cfg.v ===== *)
(** Control-flow graph analyses over adjacency lists: [src/decompiler/ssa/cfg.rs]
    (reverse postorder, Cooper-Harvey-Kennedy dominators, dominance frontiers,
    iterated frontiers) and [src/decompiler/structure/pdom.rs] (post-dominators).

    A node is the [nat] of its index; the vectors indexed by nodes are lists.
    The loops run on fuel; [None] is running out of it, and the theorems of
    CfgDom, CfgFrontier and Pdom show the fuel given here is enough. *)

From S2P Require Import Prelude.

(** [succ[u]]; out of range is a panic, excluded by [wf_adj]. *)
Definition adj (g : list (list nat)) (u : nat) : list nat := default [] (g !! u).

(** *** [reverse_postorder] *)

Definition usize_max : Z := u64_max.

(** The state of the depth-first search: the stack of nodes with their cursors,
    top first. *)
Record Dfs := mkDfs {
  d_visited : list bool;
  d_postorder : list Z;
  d_order : list nat;
  d_stack : list (nat * nat)
}.

(** One round of [while let Some(top) = stack.last_mut()]. *)
Definition dfs_step (succ : list (list nat)) (s : Dfs) : option Dfs :=
  match d_stack s with
  | [] => None
  | (node, next) :: stack =>
      let visited :=
        if decide (d_visited s !! node = Some true) then d_visited s
        else <[node := true]> (d_visited s) in
      match adj succ node !! next with
      | Some t =>
          let stack := (node, S next) :: stack in
          Some (mkDfs visited (d_postorder s) (d_order s)
                  (if decide (visited !! t = Some true) then stack else (t, 0) :: stack))
      | None =>
          Some (mkDfs visited (<[node := Z.of_nat (length (d_order s))]> (d_postorder s))
                  (d_order s ++ [node]) stack)
      end
  end.

Fixpoint dfs_loop (fuel : nat) (succ : list (list nat)) (s : Dfs) : option Dfs :=
  match fuel with
  | 0 => None
  | S fuel =>
      match dfs_step succ s with
      | None => Some s
      | Some s => dfs_loop fuel succ s
      end
  end.

(** A round consumes an edge or finishes a node. *)
Definition dfs_fuel (succ : list (list nat)) : nat :=
  S (sum_list (map (λ l, S (length l)) succ)).

Definition reverse_postorder (succ : list (list nat)) (entry : nat)
    : option (list Z * list nat) :=
  let n := length succ in
  s ← dfs_loop (dfs_fuel succ) succ
        (mkDfs (replicate n false) (replicate n usize_max) [] [(entry, 0)]);
  Some (d_postorder s, reverse (d_order s)).

(** *** [build_idom] *)

Definition rank (postorder : list Z) (v : nat) : Z := default usize_max (postorder !! v).
Definition parent (idom : list (option nat)) (v : nat) : option nat := mjoin (idom !! v).

(** [while postorder[a] < postorder[b] { a = idom[a].unwrap_or(a) }] *)
Fixpoint climb (fuel : nat) (postorder : list Z) (idom : list (option nat)) (a b : nat)
    : option nat :=
  if (rank postorder a <? rank postorder b)%Z then
    match fuel with
    | 0 => None
    | S fuel => climb fuel postorder idom (default a (parent idom a)) b
    end
  else Some a.

(** [intersect] *)
Fixpoint intersect (fuel : nat) (postorder : list Z) (idom : list (option nat)) (a b : nat)
    : option nat :=
  if decide (a = b) then Some a
  else
    match fuel with
    | 0 => None
    | S fuel' =>
        a ← climb fuel postorder idom a b;
        b ← climb fuel postorder idom b a;
        intersect fuel' postorder idom a b
    end.

(** The loop over the predecessors of one node. *)
Fixpoint fold_preds (fuel : nat) (postorder : list Z) (idom : list (option nat))
    (preds : list nat) (new_idom : option nat) : option (option nat) :=
  match preds with
  | [] => Some new_idom
  | p :: preds =>
      match parent idom p with
      | None => fold_preds fuel postorder idom preds new_idom
      | Some _ =>
          match new_idom with
          | None => fold_preds fuel postorder idom preds (Some p)
          | Some cur =>
              m ← intersect fuel postorder idom p cur;
              fold_preds fuel postorder idom preds (Some m)
          end
      end
  end.

(** One node of a pass: the new vector and whether it changed. *)
Definition process_node (postorder : list Z) (pred : list (list nat)) (entry : nat)
    (idom : list (option nat)) (node : nat) : option (list (option nat) * bool) :=
  if decide (node = entry) then Some (idom, false)
  else
    match adj pred node with
    | [] => Some (idom, false)
    | preds =>
        new_idom ← fold_preds (2 * length idom) postorder idom preds None;
        match new_idom with
        | Some ni =>
            if decide (parent idom node = Some ni) then Some (idom, false)
            else Some (<[node := Some ni]> idom, true)
        | None => Some (idom, false)
        end
    end.

(** [for &node in &rpo] *)
Fixpoint pass (postorder : list Z) (pred : list (list nat)) (entry : nat)
    (rpo : list nat) (idom : list (option nat)) (changed : bool)
    : option (list (option nat) * bool) :=
  match rpo with
  | [] => Some (idom, changed)
  | node :: rpo =>
      '(idom, c) ← process_node postorder pred entry idom node;
      pass postorder pred entry rpo idom (changed || c)
  end.

(** [while changed] *)
Fixpoint idom_loop (fuel : nat) (postorder : list Z) (pred : list (list nat)) (entry : nat)
    (rpo : list nat) (idom : list (option nat)) : option (list (option nat)) :=
  match fuel with
  | 0 => None
  | S fuel =>
      '(idom, changed) ← pass postorder pred entry rpo idom false;
      if (changed : bool) then idom_loop fuel postorder pred entry rpo idom else Some idom
  end.

(** At most one round per node changes something, and one more sees no change. *)
Definition build_idom (succ pred : list (list nat)) (entry : nat) : option (list (option nat)) :=
  let n := length succ in
  '(postorder, rpo) ← reverse_postorder succ entry;
  idom_loop (S n) postorder pred entry rpo (<[entry := Some entry]> (replicate n None)).

(** *** [dominance_frontier] *)

(** [while Some(runner) != idom[b]]: every node passed gets [b]. *)
Fixpoint run_up (fuel : nat) (idom : list (option nat)) (b runner : nat)
    (df : list (gset nat)) : option (list (gset nat)) :=
  if decide (Some runner = parent idom b) then Some df
  else
    match fuel with
    | 0 => None
    | S fuel =>
        let df := alter (λ s, {[b]} ∪ s) runner df in
        match parent idom runner with
        | Some r => run_up fuel idom b r df
        | None => Some df
        end
    end.

Fixpoint frontier_preds (idom : list (option nat)) (b : nat) (preds : list nat)
    (df : list (gset nat)) : option (list (gset nat)) :=
  match preds with
  | [] => Some df
  | p :: preds =>
      df ← run_up (length idom) idom b p df;
      frontier_preds idom b preds df
  end.

Fixpoint frontier_nodes (pred : list (list nat)) (idom : list (option nat)) (nodes : list nat)
    (df : list (gset nat)) : option (list (gset nat)) :=
  match nodes with
  | [] => Some df
  | b :: nodes =>
      df ← (if decide (2 ≤ length (adj pred b)) then frontier_preds idom b (adj pred b) df
            else Some df);
      frontier_nodes pred idom nodes df
  end.

Definition dominance_frontier (succ pred : list (list nat)) (idom : list (option nat))
    : option (list (gset nat)) :=
  frontier_nodes pred idom (seq 0 (length succ)) (replicate (length succ) ∅).

(** *** [iterated_df] *)

(** [BTreeSet] iterates in ascending order. *)
Definition ascending (s : gset nat) : list nat := merge_sort le (elements s).

(** One popped block: the frontier's new blocks, pushed in ascending order. *)
Definition push_frontier (frontier : gset nat) (worklist : list nat) (result : gset nat)
    : list nat * gset nat :=
  foldl (λ '(worklist, result) y,
           if decide (y ∈ result) then (worklist, result)
           else (worklist ++ [y], {[y]} ∪ result))
    (worklist, result) (ascending frontier).

(** [None] when a block has no frontier in the vector: [df[b as usize]] panics. *)
Fixpoint idf_loop (fuel : nat) (df : list (gset nat)) (worklist : list nat) (result : gset nat)
    : option (gset nat) :=
  match vec_pop worklist with
  | None => Some result
  | Some (b, worklist) =>
      match fuel with
      | 0 => None
      | S fuel =>
          frontier ← df !! b;
          let '(worklist, result) := push_frontier frontier worklist result in
          idf_loop fuel df worklist result
      end
  end.

(** Every block enters the worklist once as a seed and once as a result. *)
Definition idf_fuel (df : list (gset nat)) (seed : gset nat) : nat :=
  size seed + size (⋃ df).

Definition iterated_df (df : list (gset nat)) (seed : gset nat) : option (gset nat) :=
  idf_loop (idf_fuel df seed) df (ascending seed) ∅.

(** *** [pdom.rs] *)

Definition virtual_exit (n_blocks : nat) : nat := n_blocks.

(** The loop that sends every exit block to the virtual exit: the extended
    successors and the virtual exit's predecessors. *)
Fixpoint glue_exits (i : nat) (ve : nat) (succ : list (list nat)) : list (list nat) * list nat :=
  match succ with
  | [] => ([], [])
  | s :: succ =>
      let '(succ, exits) := glue_exits (S i) ve succ in
      match s with
      | [] => ([ve] :: succ, i :: exits)
      | _ => (s :: succ, exits)
      end
  end.

(** [build_ipdom]: dominators of the reversed graph from the virtual exit. *)
Definition build_ipdom (succ pred : list (list nat)) : option (list (option nat)) :=
  let ve := virtual_exit (length succ) in
  let '(fwd_succ, exits) := glue_exits 0 ve succ in
  build_idom (pred ++ [exits]) (fwd_succ ++ [[]]) ve.

(** [pdt_children] *)
Definition pdt_children (ipdom : list (option nat)) : list (list nat) :=
  foldl (λ children '(i, p),
           match p with
           | Some parent => if decide (parent ≠ i) then alter (λ l, l ++ [i]) parent children
                            else children
           | None => children
           end)
    (replicate (length ipdom) []) (imap pair ipdom).

(** ** Examples of src/decompiler/ssa/cfg.rs and pdom.rs *)

Definition diamond_succ : list (list nat) := [[1; 2]; [3]; [3]; []].
Definition diamond_pred : list (list nat) := [[]; [0]; [0]; [1; 2]].

Example dominator_diamond :
  build_idom diamond_succ diamond_pred 0 = Some [Some 0; Some 0; Some 0; Some 0].
Proof. vm_compute. reflexivity. Qed.
Example frontier_diamond :
  dominance_frontier diamond_succ diamond_pred [Some 0; Some 0; Some 0; Some 0]
    = Some [∅; {[3]}; {[3]}; ∅].
Proof. vm_compute. reflexivity. Qed.
Example iterated_diamond : iterated_df [∅; {[3]}; {[3]}; ∅] {[1; 2]} = Some {[3]}.
Proof. vm_compute. reflexivity. Qed.
Example iterated_out_of_range : iterated_df [∅; {[5]}] {[1]} = None.
Proof. vm_compute. reflexivity. Qed.
Example post_dominator_diamond :
  build_ipdom diamond_succ diamond_pred = Some [Some 3; Some 3; Some 3; Some 4; Some 4].
Proof. vm_compute. reflexivity. Qed.
Example pdt_diamond :
  pdt_children [Some 3; Some 3; Some 3; Some 4; Some 4] = [[]; []; []; [0; 1; 2]; [3]].
Proof. vm_compute. reflexivity. Qed.
