(* ===== verification/CfgDfs.v ===== *)
(** The depth-first search of [src/decompiler/ssa/cfg.rs]: it ends, numbers
    exactly the reachable nodes, and every node but the entry has a predecessor
    with a higher number. *)

From stdpp Require Import relations.
From S2P Require Import Prelude Cfg.

(** ** Graphs *)

Definition edge (g : list (list nat)) (u v : nat) : Prop := v ∈ adj g u.
Definition reach (g : list (list nat)) (s v : nat) : Prop := rtc (edge g) s v.

(** Every edge stays in range. *)
Definition wf_adj (g : list (list nat)) : Prop := ∀ u v, edge g u v → v < length g.

Lemma edge_lt g u v : edge g u v → u < length g.
Proof.
  unfold edge, adj. destruct (g !! u) eqn:E; [intros _; by eapply lookup_lt_Some|].
  simpl. by intros ?%not_elem_of_nil.
Qed.
Lemma reach_lt g s v : wf_adj g → s < length g → reach g s v → v < length g.
Proof. intros W S. induction 1 as [|x y z H _ IH]; [done|]. apply IH. by eapply W. Qed.

(** ** The invariant of the search *)

Section dfs.
Context (succ : list (list nat)) (entry : nat).
Context (W : wf_adj succ) (Hentry : entry < length succ).

Definition nodes (s : Dfs) : list nat := (d_stack s).*1.

(** Each stack entry is a successor of the one below it; the entry is at the
    bottom. *)
Fixpoint linked (st : list (nat * nat)) : Prop :=
  match st with
  | [] => True
  | (v, _) :: rest =>
      match rest with
      | [] => v = entry
      | (u, _) :: _ => edge succ u v ∧ linked rest
      end
  end.

Record dfs_ok (s : Dfs) : Prop := {
  ok_vlen : length (d_visited s) = length succ;
  ok_plen : length (d_postorder s) = length succ;
  ok_nodup : NoDup (nodes s ++ d_order s);
  ok_reach : Forall (reach succ entry) (nodes s ++ d_order s);
  ok_linked : linked (d_stack s);
  ok_done : d_stack s = [] → entry ∈ d_order s;
  (** Everything below the top, and everything finished, is marked. *)
  ok_tail v : v ∈ tail (nodes s) → d_visited s !! v = Some true;
  ok_order v : v ∈ d_order s → d_visited s !! v = Some true;
  ok_seen v : d_visited s !! v = Some true → v ∈ nodes s ++ d_order s;
  ok_bound u k : (u, k) ∈ d_stack s → k ≤ length (adj succ u);
  ok_cursor u k i t : (u, k) ∈ d_stack s → i < k → adj succ u !! i = Some t →
    t ∈ nodes s ++ d_order s;
  ok_closed u t : u ∈ d_order s → edge succ u t → t ∈ nodes s ++ d_order s;
  ok_parent i v : d_order s !! i = Some v → v ≠ entry →
    ∃ u, edge succ u v ∧ (u ∈ nodes s ∨ ∃ j, i < j ∧ d_order s !! j = Some u);
  ok_post i v : d_order s !! i = Some v → d_postorder s !! v = Some (Z.of_nat i);
  ok_unpost v : v < length succ → v ∉ d_order s → d_postorder s !! v = Some usize_max
}.

Definition dfs_start : Dfs :=
  mkDfs (replicate (length succ) false) (replicate (length succ) usize_max) [] [(entry, 0)].

Lemma dfs_start_ok : dfs_ok dfs_start.
Proof.
  unfold dfs_start, nodes. constructor; unfold nodes; simpl.
  - by rewrite length_replicate.
  - by rewrite length_replicate.
  - apply NoDup_singleton.
  - apply Forall_singleton. apply rtc_refl.
  - done.
  - done.
  - intros v. by intros ?%not_elem_of_nil.
  - intros v. by intros ?%not_elem_of_nil.
  - intros v. intros [? _]%lookup_replicate. done.
  - intros u k [= -> ->]%list_elem_of_singleton. lia.
  - intros u k i t [= -> ->]%list_elem_of_singleton. lia.
  - intros u t. by intros ?%not_elem_of_nil.
  - done.
  - done.
  - intros v Hv _. by apply lookup_replicate_2.
Qed.

(** The marks after the top node has been marked. *)
Definition mark (s : Dfs) (node : nat) : list bool :=
  if decide (d_visited s !! node = Some true) then d_visited s
  else <[node := true]> (d_visited s).

Lemma mark_spec s node v :
  dfs_ok s → node < length succ →
  mark s node !! v = Some true ↔ d_visited s !! v = Some true ∨ v = node.
Proof.
  intros O N. unfold mark. case_decide as D.
  - split; [by left|intros [?| ->]; done].
  - destruct (decide (v = node)) as [->|Hv].
    + rewrite list_lookup_insert_eq by (by rewrite (ok_vlen s O)). split; [by right|done].
    + rewrite list_lookup_insert_ne by done. split; [by left|intros [?| ->]; done].
Qed.

Lemma mark_length s node : length (mark s node) = length (d_visited s).
Proof. unfold mark. case_decide; [done|]. by rewrite length_insert. Qed.

Lemma mark_top s node k rest v :
  dfs_ok s → d_stack s = (node, k) :: rest →
  mark s node !! v = Some true ↔ v ∈ nodes s ++ d_order s.
Proof.
  intros O E. assert (node ∈ nodes s) as Hn by (unfold nodes; rewrite E; by left).
  assert (node < length succ) as N.
  { pose proof (ok_reach s O) as R. rewrite Forall_forall in R.
    apply (reach_lt succ entry); [done..|]. apply R, elem_of_app. by left. }
  rewrite mark_spec by done. split.
  - intros [Hv| ->]; [by apply ok_seen|]. apply elem_of_app. by left.
  - rewrite elem_of_app. intros [Hv|Hv]; [|left; by apply ok_order].
    unfold nodes in Hv. rewrite E in Hv. simpl in Hv. apply elem_of_cons in Hv as [->|Hv]; [by right|].
    left. apply ok_tail; [done|]. unfold nodes. by rewrite E.
Qed.

(** A cursor moves past a node already seen. *)
Lemma step_skip vis post ord node next rest t :
  dfs_ok (mkDfs vis post ord ((node, next) :: rest)) →
  adj succ node !! next = Some t →
  mark (mkDfs vis post ord ((node, next) :: rest)) node !! t = Some true →
  dfs_ok (mkDfs (mark (mkDfs vis post ord ((node, next) :: rest)) node) post ord
            ((node, S next) :: rest)).
Proof.
  intros O T M. set (s := mkDfs vis post ord _) in *.
  pose proof (mark_top s node next rest) as MT. specialize (λ v, MT v O eq_refl).
  rewrite MT in M. pose proof (mark_length s node) as ML. destruct O. unfold nodes in *. csimpl in *.
  constructor; unfold nodes; csimpl; try done.
  - by rewrite ML.
  - intros v Hv. apply MT. right. apply elem_of_app. by left.
  - intros v Hv. apply MT. right. apply elem_of_app. by right.
  - intros v Hv. by apply MT.
  - intros u k [[= -> ->]|Hu]%elem_of_cons.
    + apply lookup_lt_Some in T. lia.
    + apply ok_bound0. by right.
  - intros u k i t' [[= -> ->]|Hu]%elem_of_cons Hi Ht.
    + destruct (decide (i = next)) as [->|]; [congruence|].
      eapply (ok_cursor0 node next i); [by left|lia|done].
    + eapply ok_cursor0; [by right|done|done].
Qed.

(** A new node is pushed. *)
Lemma step_push vis post ord node next rest t :
  dfs_ok (mkDfs vis post ord ((node, next) :: rest)) →
  adj succ node !! next = Some t →
  mark (mkDfs vis post ord ((node, next) :: rest)) node !! t ≠ Some true →
  dfs_ok (mkDfs (mark (mkDfs vis post ord ((node, next) :: rest)) node) post ord
            ((t, 0) :: (node, S next) :: rest)).
Proof.
  intros O T M. set (s := mkDfs vis post ord _) in *.
  pose proof (mark_top s node next rest) as MT. specialize (λ v, MT v O eq_refl).
  rewrite MT in M. pose proof (mark_length s node) as ML. destruct O. unfold nodes in *. csimpl in *.
  assert (edge succ node t) as Et by by eapply list_elem_of_lookup_2.
  assert (∀ v, v ∈ node :: rest.*1 ++ ord → v ∈ t :: node :: rest.*1 ++ ord) as Sub by (by right).
  constructor; unfold nodes; csimpl; try done.
  - by rewrite ML.
  - by constructor.
  - constructor; [|done]. eapply rtc_r; [|exact Et]. rewrite Forall_forall in ok_reach0.
    apply ok_reach0. by left.
  - intros v Hv. apply MT. apply elem_of_cons in Hv as [->|Hv]; [by left|].
    right. apply elem_of_app. by left.
  - intros v Hv. apply MT. right. apply elem_of_app. by right.
  - intros v Hv. apply Sub. by apply MT.
  - intros u k [[= -> ->]|[[= -> ->]|Hu]%elem_of_cons]%elem_of_cons.
    + lia.
    + apply lookup_lt_Some in T. lia.
    + apply ok_bound0. by right.
  - intros u k i t' [[= -> ->]|[[= -> ->]|Hu]%elem_of_cons]%elem_of_cons Hi Ht.
    + lia.
    + destruct (decide (i = next)) as [->|]; [simplify_eq; by left|].
      apply Sub. eapply (ok_cursor0 node next i); [by left|lia|done].
    + apply Sub. eapply ok_cursor0; [by right|done|done].
  - intros u t' Hu Ht. apply Sub. by eapply ok_closed0.
  - intros i v Hv Ne. destruct (ok_parent0 i v Hv Ne) as (u & Eu & [Hu|Hj]); exists u;
      (split; [done|]); [left; by right|by right].
Qed.

(** The top node is finished. *)
Lemma step_finish vis post ord node next rest :
  dfs_ok (mkDfs vis post ord ((node, next) :: rest)) →
  adj succ node !! next = None →
  dfs_ok (mkDfs (mark (mkDfs vis post ord ((node, next) :: rest)) node)
            (<[node := Z.of_nat (length ord)]> post) (ord ++ [node]) rest).
Proof.
  intros O T. set (s := mkDfs vis post ord _) in *.
  pose proof (mark_top s node next rest) as MT. specialize (λ v, MT v O eq_refl).
  pose proof (mark_length s node) as ML.
  assert (node < length succ) as N.
  { pose proof (ok_reach s O) as R. rewrite Forall_forall in R.
    apply (reach_lt succ entry); [done..|]. apply R. by left. }
  destruct O. unfold nodes in *. csimpl in *.
  assert (rest.*1 ++ ord ++ [node] ≡ₚ node :: rest.*1 ++ ord) as P.
  { rewrite app_assoc, Permutation_app_comm. done. }
  assert (∀ v, v ∈ rest.*1 ++ ord ++ [node] ↔ v ∈ node :: rest.*1 ++ ord) as Pe
    by (intros v; by rewrite P).
  apply lookup_ge_None in T.
  assert (node ∉ ord) as No.
  { apply NoDup_cons in ok_nodup0 as [No _]. set_solver. }
  constructor; unfold nodes; csimpl; try done.
  - by rewrite ML.
  - by rewrite length_insert.
  - by rewrite P.
  - by rewrite P.
  - destruct rest as [|[u k] rest]; [done|]. apply ok_linked0.
  - intros ->. simpl in ok_linked0. subst. apply elem_of_app. right. by left.
  - intros v Hv. apply MT. right. apply elem_of_app. left. destruct rest; [done|]. by right.
  - intros v [Hv|Hv%list_elem_of_singleton]%elem_of_app; apply MT; [|subst; by left].
    right. apply elem_of_app. by right.
  - intros v Hv. apply Pe. by apply MT.
  - intros u k Hu. apply ok_bound0. by right.
  - intros u k i t Hu Hi Ht. apply Pe. eapply ok_cursor0; [by right|done|done].
  - intros u t [Hu|Hu%list_elem_of_singleton]%elem_of_app Ht; apply Pe.
    + by eapply ok_closed0.
    + subst u. unfold edge in Ht. apply list_elem_of_lookup in Ht as [i Ht].
      pose proof (lookup_lt_Some _ _ _ Ht). eapply (ok_cursor0 node next i); [by left|lia|done].
  - intros i v Hv Ne. apply lookup_app_Some in Hv as [Hv|[Hi Hv]].
    + destruct (ok_parent0 i v Hv Ne) as (u & Eu & [Hu|(j & Hj & Hu)]); exists u; (split; [done|]).
      * apply elem_of_cons in Hu as [->|Hu]; [|by left].
        right. exists (length ord). split; [by eapply lookup_lt_Some|]. by apply list_lookup_middle.
      * right. exists j. split; [done|]. rewrite lookup_app_l; [done|]. by eapply lookup_lt_Some.
    + apply list_lookup_singleton_Some in Hv as [_ <-].
      destruct rest as [|[u k] rest]; [simpl in ok_linked0; congruence|].
      destruct ok_linked0 as [Eu _]. exists u. split; [done|]. left. by left.
  - intros i v Hv. apply lookup_app_Some in Hv as [Hv|[Hi Hv]].
    + rewrite list_lookup_insert_ne; [by apply ok_post0|].
      intros ->. apply No. by eapply list_elem_of_lookup_2.
    + apply list_lookup_singleton_Some in Hv as [Hi0 <-].
      rewrite list_lookup_insert_eq by lia. f_equal. lia.
  - intros v Hv Hn. rewrite list_lookup_insert_ne by set_solver. apply ok_unpost0; set_solver.
Qed.

(** Steps taken so far: cursors on the stack, and the edges of finished nodes
    with their finishing. *)
Definition weight (v : nat) : nat := S (length (adj succ v)).
Definition spent (s : Dfs) : nat :=
  sum_list (map weight (d_order s)) + sum_list (d_stack s).*2.

Lemma step_ok s :
  dfs_ok s →
  match dfs_step succ s with
  | None => d_stack s = []
  | Some s' => dfs_ok s' ∧ spent s' = S (spent s)
  end.
Proof.
  intros O. destruct s as [vis post ord [|[node next] rest]]; [done|]. unfold dfs_step. simpl.
  pose proof (ok_bound _ O node next ltac:(by left)) as B.
  change (if decide (vis !! node = Some true) then vis else <[node:=true]> vis)
    with (mark (mkDfs vis post ord ((node, next) :: rest)) node).
  destruct (adj succ node !! next) as [t|] eqn:T.
  - case_decide as D.
    + split; [by eapply step_skip|]. unfold spent; csimpl; lia.
    + split; [by eapply step_push|]. unfold spent; csimpl; lia.
  - split; [by eapply step_finish|]. apply lookup_ge_None in T. unfold spent; csimpl.
    rewrite map_app, sum_list_with_app; csimpl.
    change (weight node) with (S (length (adj succ node))). unfold id. lia.
Qed.
Lemma sum_list_perm l l' : l ≡ₚ l' → sum_list l = sum_list l'.
Proof. induction 1; simpl; unfold id in *; lia. Qed.

Lemma total_weight :
  sum_list (map (λ l, S (length l)) succ) = sum_list (map weight (seq 0 (length succ))).
Proof.
  f_equal. apply list_eq. intros i. rewrite !list_lookup_fmap.
  destruct (decide (i < length succ)) as [L|L].
  - rewrite lookup_seq_lt by done. destruct (lookup_lt_is_Some_2 _ _ L) as [l E].
    rewrite E. simpl. unfold weight, adj. by rewrite E.
  - rewrite lookup_seq_ge by lia. by rewrite lookup_ge_None_2 by lia.
Qed.

Lemma nodup_weight l :
  NoDup l → Forall (λ v, v < length succ) l →
  sum_list (map weight l) ≤ sum_list (map weight (seq 0 (length succ))).
Proof.
  intros N F. rewrite Forall_forall in F.
  assert (l ⊆+ seq 0 (length succ)) as [k P]%submseteq_Permutation.
  { apply NoDup_submseteq; [done|]. intros v Hv. apply elem_of_seq. split; [lia|]. by apply F. }
  rewrite (sum_list_perm (map weight (seq 0 (length succ))) (map weight (l ++ k))).
  - rewrite map_app, sum_list_with_app. lia.
  - by apply fmap_Permutation.
Qed.

Lemma spent_bound s : dfs_ok s → spent s ≤ sum_list (map (λ l, S (length l)) succ).
Proof.
  intros O. rewrite total_weight.
  pose proof (nodup_weight (nodes s ++ d_order s) (ok_nodup _ O)) as B.
  assert (sum_list (d_stack s).*2 ≤ sum_list (map weight (nodes s))) as C.
  { pose proof (ok_bound _ O) as Hb. unfold nodes. clear -Hb.
    induction (d_stack s) as [|[u k] st IH]; csimpl; [lia|].
    pose proof (Hb u k ltac:(by left)).
    assert (sum_list st.*2 ≤ sum_list (map weight st.*1)); [|unfold id in *; lia].
    apply IH. intros u' k' Hu. apply Hb. by right. }
  rewrite map_app, sum_list_with_app in B. unfold spent.
  enough (Forall (λ v, v < length succ) (nodes s ++ d_order s)) as F by (specialize (B F); lia).
  eapply Forall_impl; [apply (ok_reach _ O)|]. intros v Hv. by eapply reach_lt.
Qed.

Lemma dfs_loop_ends fuel s :
  dfs_ok s → sum_list (map (λ l, S (length l)) succ) < spent s + fuel →
  ∃ s', dfs_loop fuel succ s = Some s' ∧ dfs_ok s' ∧ d_stack s' = [].
Proof.
  revert s. induction fuel as [|fuel IH]; intros s O F.
  { pose proof (spent_bound s O). lia. }
  simpl. pose proof (step_ok s O) as S. destruct (dfs_step succ s) as [s1|]; [|by exists s].
  destruct S as [O1 S]. apply IH; [done|lia].
Qed.

(** *** What the search computes *)

Record dfs_spec (post : list Z) (rpo : list nat) : Prop := {
  sp_len : length post = length succ;
  sp_nodup : NoDup rpo;
  sp_reach v : v ∈ rpo ↔ reach succ entry v;
  (** Numbers go down along the list. *)
  sp_rank i v : rpo !! i = Some v → rank post v = (Z.of_nat (length rpo) - 1 - Z.of_nat i)%Z;
  sp_unreached v : v < length succ → ¬ reach succ entry v → rank post v = usize_max;
  (** Every node but the entry follows one of its predecessors. *)
  sp_parent v : reach succ entry v → v ≠ entry →
    ∃ u, edge succ u v ∧ reach succ entry u ∧ (rank post v < rank post u)%Z
}.

Lemma reverse_postorder_ok :
  ∃ post rpo, reverse_postorder succ entry = Some (post, rpo) ∧ dfs_spec post rpo.
Proof.
  destruct (dfs_loop_ends (dfs_fuel succ) dfs_start dfs_start_ok) as (s & E & O & D).
  { unfold dfs_fuel, spent. simpl. lia. }
  exists (d_postorder s), (reverse (d_order s)).
  unfold reverse_postorder. unfold dfs_start in E. rewrite E. split; [done|].
  assert (nodes s = []) as N by (unfold nodes; by rewrite D).
  pose proof (ok_reach s O) as R. rewrite N, Forall_forall in R. simpl in R.
  assert (∀ v, v ∈ d_order s ↔ reach succ entry v) as Re.
  { intros v. split; [apply R|]. pose proof (ok_done s O D) as He.
    revert v. apply (rtc_ind_r (λ v, v ∈ d_order s)); [done|]. intros u v _ Huv IH.
    pose proof (ok_closed s O _ _ IH Huv) as C. by rewrite N in C. }
  assert (∀ i v, d_order s !! i = Some v → rank (d_postorder s) v = Z.of_nat i) as Rk.
  { intros i v Hi. unfold rank. by rewrite (ok_post s O i v Hi). }
  constructor.
  - apply (ok_plen s O).
  - rewrite reverse_Permutation. pose proof (ok_nodup s O) as ND. by rewrite N in ND.
  - intros v. by rewrite elem_of_reverse.
  - intros i v Hi. rewrite length_reverse. pose proof (lookup_lt_Some _ _ _ Hi) as L.
    rewrite length_reverse in L. rewrite reverse_lookup in Hi by done.
    rewrite (Rk _ _ Hi). lia.
  - intros v Hv Hr. unfold rank. rewrite (ok_unpost s O v Hv); [done|]. by rewrite Re.
  - intros v Hr Ne. apply Re in Hr as Hv. apply list_elem_of_lookup in Hv as [i Hi].
    destruct (ok_parent s O i v Hi Ne) as (u & Eu & [Hu|(j & Hj & Hu)]).
    + rewrite N in Hu. by apply not_elem_of_nil in Hu.
    + exists u. split; [done|]. split; [apply Re; by eapply list_elem_of_lookup_2|].
      rewrite (Rk _ _ Hi), (Rk _ _ Hu). lia.
Qed.
End dfs.

(** ** The numbering *)

(** [reverse_postorder] ends on every graph whose edges stay in range. Its list
    holds every node reachable from the entry once and no other node; the
    numbers are positions from the end of that list, [usize::MAX] off it; and
    each reachable node but the entry follows one of its predecessors. *)
Theorem reverse_postorder_correct succ entry :
  wf_adj succ → entry < length succ →
  ∃ post rpo, reverse_postorder succ entry = Some (post, rpo) ∧
    length post = length succ ∧ NoDup rpo ∧ (∀ v, v ∈ rpo ↔ reach succ entry v) ∧
    (∀ i v, rpo !! i = Some v →
       post !! v = Some (Z.of_nat (length rpo) - 1 - Z.of_nat i)%Z) ∧
    (∀ v, v < length succ → ¬ reach succ entry v → post !! v = Some usize_max) ∧
    (∀ j v, rpo !! j = Some v → v ≠ entry → ∃ i u, i < j ∧ rpo !! i = Some u ∧ edge succ u v).
Proof.
  intros W He. destruct (reverse_postorder_ok succ entry W He) as (post & rpo & E & D).
  assert (∀ v, v < length succ → post !! v = Some (rank post v)) as Pr.
  { intros v Lv. unfold rank. rewrite <-(sp_len _ _ _ _ D) in Lv.
    by apply lookup_lt_is_Some_2 in Lv as [z ->]. }
  assert (∀ i v, rpo !! i = Some v → reach succ entry v ∧ v < length succ) as Rp.
  { intros i v Hi. assert (reach succ entry v) as R
      by (apply (sp_reach _ _ _ _ D); by eapply list_elem_of_lookup_2).
    split; [done|by eapply reach_lt]. }
  exists post, rpo. split; [done|]. split; [apply D|]. split; [apply D|]. split; [apply D|].
  split; [|split].
  - intros i v Hi. destruct (Rp i v Hi). by rewrite Pr, (sp_rank _ _ _ _ D i v Hi).
  - intros v Lv Nr. by rewrite Pr, (sp_unreached _ _ _ _ D v Lv Nr).
  - intros j v Hj Ne. destruct (Rp j v Hj) as [Rv _].
    destruct (sp_parent _ _ _ _ D v Rv Ne) as (u & Eu & Ru & L).
    apply (sp_reach _ _ _ _ D), list_elem_of_lookup in Ru as [i Hi]. exists i, u.
    rewrite (sp_rank _ _ _ _ D _ _ Hi), (sp_rank _ _ _ _ D _ _ Hj) in L.
    split; [lia|done].
Qed.

Lemma reverse_postorder_witness :
  ∃ post rpo, reverse_postorder [[1; 2]; [2]; [0]; []] 0 = Some (post, rpo) ∧
    length post = 4 ∧ NoDup rpo ∧ (∀ v, v ∈ rpo ↔ reach [[1; 2]; [2]; [0]; []] 0 v) ∧
    (∀ i v, rpo !! i = Some v →
       post !! v = Some (Z.of_nat (length rpo) - 1 - Z.of_nat i)%Z) ∧
    (∀ v, v < 4 → ¬ reach [[1; 2]; [2]; [0]; []] 0 v → post !! v = Some usize_max) ∧
    (∀ j v, rpo !! j = Some v → v ≠ 0 →
       ∃ i u, i < j ∧ rpo !! i = Some u ∧ edge [[1; 2]; [2]; [0]; []] u v).
Proof.
  apply (reverse_postorder_correct [[1; 2]; [2]; [0]; []] 0); [|simpl; lia].
  intros [|[|[|[|u]]]] v; unfold edge, adj; simpl; rewrite ?elem_of_cons, ?elem_of_nil; lia.
Defined.
