(* ===== verification/CfgDom.v ===== *)
(** Correctness of the dominator computation of [src/decompiler/ssa/cfg.rs]:
    [build_idom] ends, and the tree it returns is the dominator tree.

    The tree held during the iteration always over-approximates: every
    dominator of a node is among its ancestors, because an ancestor reaches the
    node without passing a node of higher number. After [k] rounds the ancestors
    of a node lie on every path to it with fewer than [k] retreating edges, so
    after as many rounds as there are nodes they are exactly the dominators. *)

From stdpp Require Import relations.
From S2P Require Import Prelude Cfg CfgDfs.

(** ** Paths and dominance *)

Section paths.
Context (succ : list (list nat)) (entry : nat).

(** A path from the entry to a node, as its nodes, last first. *)
Inductive path : nat → list nat → Prop :=
  | path_entry : path entry [entry]
  | path_snoc u v l : path u l → edge succ u v → path v (v :: l).

(** [x] dominates [b]: it is on every path to it. *)
Definition dom (x b : nat) : Prop := ∀ l, path b l → x ∈ l.

Lemma path_reach b l : path b l → reach succ entry b ∧ Forall (reach succ entry) l.
Proof.
  induction 1 as [|u v l _ [IH1 IH2] E]; [split; [apply rtc_refl|by constructor; [apply rtc_refl|]]|].
  assert (reach succ entry v) by (by eapply rtc_r). split; [done|by constructor].
Qed.
Lemma reach_path b : reach succ entry b → ∃ l, path b l.
Proof.
  revert b. apply (rtc_ind_r (λ b, ∃ l, path b l)).
  - exists [entry]. constructor.
  - intros u v _ E [l P]. exists (v :: l). by econstructor.
Qed.

Lemma path_head b l : path b l → ∃ l', l = b :: l'.
Proof. destruct 1; eauto. Qed.
Lemma path_entry_in b l : path b l → entry ∈ l.
Proof. induction 1; [by left|by right]. Qed.

(** A node on a path cuts it. *)
Lemma path_prefix b l x : path b l → x ∈ l → ∃ l1 l2, l = l2 ++ l1 ∧ path x l1.
Proof.
  induction 1 as [|u v l P IH E]; intros Hx.
  - apply list_elem_of_singleton in Hx as ->. exists [entry], []. split; [done|constructor].
  - apply elem_of_cons in Hx as [->|Hx].
    + exists (v :: l), []. split; [done|by econstructor].
    + destruct (IH Hx) as (l1 & l2 & -> & P1). by exists l1, (v :: l2).
Qed.

(** A path without repeated nodes, through nodes of the given one. *)
Lemma path_simple b l : path b l → ∃ l', path b l' ∧ NoDup l' ∧ l' ⊆ l.
Proof.
  induction 1 as [|u v l P (l' & P' & N & S) E].
  - exists [entry]. split; [constructor|]. split; [apply NoDup_singleton|done].
  - destruct (decide (v ∈ l')) as [Hv|Hv].
    + destruct (path_prefix _ _ _ P' Hv) as (l1 & l2 & -> & P1). exists l1.
      split; [done|]. split; [by apply NoDup_app in N as (_ & _ & ?)|]. set_solver.
    + exists (v :: l'). split; [by econstructor|]. split; [by constructor|]. set_solver.
Qed.

Lemma dom_refl b : dom b b.
Proof. intros l P. apply path_head in P as [l' ->]. by left. Qed.
Lemma dom_pred x b p : dom x b → edge succ p b → x ≠ b → dom x p.
Proof.
  intros D E N l P. pose proof (D _ (path_snoc _ _ _ P E)) as H.
  by apply elem_of_cons in H as [?|?].
Qed.
Lemma dom_preds x b :
  b ≠ entry → (∀ p, reach succ entry p → edge succ p b → dom x p) → dom x b.
Proof.
  intros Ne H l P. destruct P as [|u v l P E]; [done|]. right.
  apply (H u); [by apply path_reach in P as [? _]|done|done].
Qed.
End paths.

(** ** The iteration *)

Record wf_graph (succ pred : list (list nat)) (entry : nat) : Prop := {
  wg_entry : entry < length succ;
  wg_succ : wf_adj succ;
  wg_len : length pred = length succ;
  wg_pred u v : u ∈ adj pred v ↔ edge succ u v
}.

Section chk.
Context (succ pred : list (list nat)) (entry : nat) (G : wf_graph succ pred entry).
Context (post : list Z) (rpo : list nat) (D : dfs_spec succ entry post rpo).

Notation E := (edge succ).
Notation reachable := (reach succ entry).
Notation rk := (rank post).
Notation n := (length succ).

Lemma rank_range v : reachable v → (0 ≤ rk v < Z.of_nat n)%Z.
Proof.
  intros R. pose proof R as R'. apply (sp_reach _ _ _ _ D) in R.
  apply list_elem_of_lookup in R as [i Hi].
  rewrite (sp_rank _ _ _ _ D _ _ Hi). pose proof (lookup_lt_Some _ _ _ Hi).
  assert (length rpo ≤ n); [|lia].
  rewrite <-(length_seq n 0). apply submseteq_length, NoDup_submseteq; [apply D|].
  intros u Hu. apply (sp_reach _ _ _ _ D) in Hu. apply elem_of_seq. split; [lia|].
  apply (reach_lt succ entry); [apply G..|done].
Qed.

Lemma rank_inj u v : reachable u → reachable v → rk u = rk v → u = v.
Proof.
  intros Hu Hv. apply (sp_reach _ _ _ _ D) in Hu, Hv.
  apply list_elem_of_lookup in Hu as [i Hi], Hv as [j Hj].
  rewrite (sp_rank _ _ _ _ D _ _ Hi), (sp_rank _ _ _ _ D _ _ Hj). intros ?.
  assert (i = j) as -> by lia. congruence.
Qed.

Lemma reach_entry : reachable entry.
Proof. apply rtc_refl. Qed.

Lemma rank_entry v : reachable v → (rk v ≤ rk entry)%Z.
Proof.
  remember (Z.to_nat (Z.of_nat n - rk v)) as k eqn:K. revert v K.
  induction (lt_wf k) as [k _ IH]. intros v K R.
  destruct (decide (v = entry)) as [->|Ne]; [lia|].
  destruct (sp_parent _ _ _ _ D v R Ne) as (u & _ & Ru & L).
  pose proof (rank_range v R). pose proof (rank_range u Ru).
  specialize (IH (Z.to_nat (Z.of_nat n - rk u)) ltac:(lia) u eq_refl Ru). lia.
Qed.

(** *** Ancestors in the current tree *)

Definition up (σ : list (option nat)) (u v : nat) : Prop := parent σ u = Some v.
Definition anc (σ : list (option nat)) (x b : nat) : Prop :=
  parent σ b ≠ None ∧ rtc (up σ) b x.

(** [d] reaches [b] without passing a node of higher number. *)
Definition low (r : Z) (d b : nat) : Prop := rtc (λ u v, E u v ∧ (rk v ≤ r)%Z) d b.

Record inv (σ : list (option nat)) : Prop := {
  i_len : length σ = n;
  i_entry : parent σ entry = Some entry;
  i_reach b d : parent σ b = Some d → reachable b ∧ reachable d;
  i_up b d : parent σ b = Some d → parent σ d ≠ None;
  i_rank b d : parent σ b = Some d → b ≠ entry → (rk b < rk d)%Z;
  i_low b d : parent σ b = Some d → b ≠ entry → low (rk d) d b;
  i_dom x b : parent σ b ≠ None → dom succ entry x b → anc σ x b
}.

Section tree.
Context (σ : list (option nat)) (I : inv σ).

Lemma anc_refl b : parent σ b ≠ None → anc σ b b.
Proof. intros. split; [done|apply rtc_refl]. Qed.
Lemma anc_up x b d : parent σ b = Some d → anc σ x d → anc σ x b.
Proof. intros P [_ R]. split; [by rewrite P|by eapply rtc_l]. Qed.
Lemma anc_trans x y b : anc σ x y → anc σ y b → anc σ x b.
Proof. intros [_ R1] [N R2]. split; [done|by etrans]. Qed.

Lemma anc_processed x b : anc σ x b → parent σ x ≠ None.
Proof.
  intros [N R]. induction R as [|b d x P _ IH]; [done|]. apply IH. by apply (i_up _ I b d).
Qed.
Lemma processed_reach b : parent σ b ≠ None → reachable b.
Proof. destruct (parent σ b) as [d|] eqn:P; [|done]. intros _. by apply (i_reach _ I b d). Qed.
Lemma anc_reach x b : anc σ x b → reachable x.
Proof. intros A%anc_processed. by apply processed_reach. Qed.

(** An ancestor is the node itself or an ancestor of its parent. *)
Lemma anc_cases x b d : parent σ b = Some d → anc σ x b ↔ x = b ∨ anc σ x d.
Proof.
  intros P. split.
  - intros [N R]. apply rtc_inv in R as [->|(y & Py & R)]; [by left|right].
    unfold up in Py. simplify_eq. split; [by apply (i_up _ I b)|done].
  - intros [->|A]; [apply anc_refl; by rewrite P|by eapply anc_up].
Qed.

Lemma anc_of_entry x : anc σ x entry → x = entry.
Proof.
  intros [_ R]. remember entry as e eqn:He. induction R as [|b d x P R IH]; [done|]. subst.
  pose proof (i_entry _ I) as Pe. unfold up in P. rewrite Pe in P. simplify_eq. auto.
Qed.

Lemma anc_rank x b : anc σ x b → (rk b ≤ rk x)%Z ∧ (x ≠ b → (rk b < rk x)%Z).
Proof.
  intros [N R]. induction R as [|b d x P R IH]; [split; [lia|done]|].
  destruct (decide (b = entry)) as [->|Ne].
  { assert (x = entry) as ->; [|split; [lia|done]].
    apply anc_of_entry. split; [done|by eapply rtc_l]. }
  pose proof (i_rank _ I _ _ P Ne). destruct IH as [IH _]; [by apply (i_up _ I b)|]. lia.
Qed.

Lemma anc_antisym x y : anc σ x y → anc σ y x → x = y.
Proof.
  intros A B. destruct (decide (x = y)); [done|].
  pose proof (proj2 (anc_rank _ _ A) ltac:(done)). pose proof (proj1 (anc_rank _ _ B)). lia.
Qed.

Lemma low_mono r r' d b : (r ≤ r')%Z → low r d b → low r' d b.
Proof. intros L. apply rtc_subrel. intros u v [? ?]. split; [done|lia]. Qed.

Lemma anc_low x b : anc σ x b → low (rk x) x b.
Proof.
  intros [N R]. induction R as [|b d x P R IH]; [apply rtc_refl|].
  assert (anc σ x d) as A by (split; [by apply (i_up _ I b)|done]).
  destruct (decide (b = entry)) as [->|Ne].
  { assert (x = entry) as -> by (apply anc_of_entry; split; [done|by eapply rtc_l]).
    apply rtc_refl. }
  specialize (IH (proj1 A)). unfold low in *. etrans; [exact IH|].
  eapply low_mono; [|by apply (i_low _ I)]. by apply (anc_rank x d).
Qed.

Lemma anc_root b : parent σ b ≠ None → anc σ entry b.
Proof.
  remember (Z.to_nat (Z.of_nat n - rk b)) as k eqn:K. revert b K.
  induction (lt_wf k) as [k _ IH]. intros b K N.
  destruct (decide (b = entry)) as [->|Ne]; [by apply anc_refl|].
  destruct (parent σ b) as [d|] eqn:P; [|done].
  pose proof (i_rank _ I _ _ P Ne). destruct (i_reach _ I _ _ P) as [Rb Rd].
  pose proof (rank_range _ Rb). pose proof (rank_range _ Rd).
  eapply anc_up; [done|]. eapply (IH (Z.to_nat (Z.of_nat n - rk d))); [lia|done|].
  by apply (i_up _ I b).
Qed.

(** Ancestors of a node are ordered. *)
Lemma anc_total x y b : anc σ x b → anc σ y b → (rk x ≤ rk y)%Z → anc σ y x.
Proof.
  intros [N R]. induction R as [|b d x P R IH]; intros Ay L; [done|].
  apply (anc_cases y b d P) in Ay as [->|Ay].
  - assert (anc σ x b) as A by (split; [done|by eapply rtc_l]).
    destruct (decide (x = b)) as [->|Ne]; [by apply anc_refl|].
    pose proof (proj2 (anc_rank _ _ A) Ne). lia.
  - apply IH; [by apply (i_up _ I b)|done|done].
Qed.

(** *** [climb] and [intersect] *)

Lemma climb_ok fuel a b :
  parent σ a ≠ None → reachable b → (rk b - rk a ≤ Z.of_nat fuel)%Z →
  ∃ a', climb fuel post σ a b = Some a' ∧ anc σ a' a ∧ (rk b ≤ rk a')%Z ∧
    ((rk b ≤ rk a)%Z → a' = a) ∧ (∀ x, anc σ x a → (rk b ≤ rk x)%Z → anc σ x a').
Proof.
  revert a. induction fuel as [|fuel IH]; intros a N Rb F; simpl.
  - rewrite (proj2 (Z.ltb_ge _ _)) by lia. exists a. split; [done|]. split; [by apply anc_refl|].
    split; [lia|]. done.
  - destruct (Z.ltb_spec (rk a) (rk b)) as [L|L].
    + destruct (parent σ a) as [d|] eqn:P; [|done]. simpl.
      assert (a ≠ entry) as Ne by (intros ->; pose proof (rank_entry b Rb); lia).
      pose proof (i_rank _ I _ _ P Ne).
      destruct (IH d) as (a' & C & A & Rk & _ & X); [by apply (i_up _ I a)|done|lia|].
      exists a'. split; [done|]. split; [by eapply anc_up|]. split; [done|]. split; [lia|].
      intros x Ax Lx. apply X; [|done]. apply (anc_cases x a d P) in Ax as [->|?]; [lia|done].
    + exists a. split; [done|]. split; [by apply anc_refl|]. split; [lia|]. done.
Qed.

Lemma intersect_ok fuel a b :
  parent σ a ≠ None → parent σ b ≠ None →
  (2 * Z.of_nat n - rk a - rk b ≤ Z.of_nat fuel)%Z →
  ∃ m, intersect fuel post σ a b = Some m ∧ parent σ m ≠ None ∧
    (∀ x, anc σ x m ↔ anc σ x a ∧ anc σ x b).
Proof.
  revert a b. induction fuel as [|fuel IH]; intros a b Na Nb F.
  - pose proof (rank_range a (processed_reach a Na)).
    pose proof (rank_range b (processed_reach b Nb)). lia.
  - cbn [intersect]. case_decide as Eab.
    { subst. exists b. split; [done|]. split; [done|]. intros x. tauto. }
    pose proof (rank_range a (processed_reach a Na)) as Ra.
    pose proof (rank_range b (processed_reach b Nb)) as Rb.
    destruct (climb_ok (S fuel) a b Na (processed_reach b Nb) ltac:(lia))
      as (a' & C1 & A1 & L1 & S1 & X1).
    pose proof (anc_processed _ _ A1) as Na'.
    pose proof (rank_range a' (processed_reach a' Na')) as Ra'.
    destruct (climb_ok (S fuel) b a' Nb (processed_reach a' Na') ltac:(lia))
      as (b' & C2 & A2 & L2 & S2 & X2).
    pose proof (anc_processed _ _ A2) as Nb'.
    rewrite C1. cbn [mbind option_bind]. rewrite C2. cbn [mbind option_bind].
    pose proof (proj1 (anc_rank _ _ A1)). pose proof (proj1 (anc_rank _ _ A2)).
    destruct (IH a' b') as (m & C3 & Nm & X3); [done|done| |].
    { destruct (decide (rk a = rk b)) as [Er|Er].
      - exfalso. apply Eab, rank_inj; [by apply processed_reach..|done].
      - destruct (decide (a' = a)) as [->|Ne1].
        + destruct (decide (b' = b)) as [->|Ne2]; [lia|].
          pose proof (proj2 (anc_rank _ _ A2) Ne2). lia.
        + pose proof (proj2 (anc_rank _ _ A1) Ne1). lia. }
    exists m. split; [done|]. split; [done|]. intros x. rewrite X3. split.
    + intros [Y1 Y2]. split; [by apply (anc_trans x a' a)|by apply (anc_trans x b' b)].
    + intros [Y1 Y2]. assert (anc σ x a') as Y1'.
      { apply X1; [done|]. by apply anc_rank. }
      split; [done|]. apply X2; [done|]. by apply anc_rank.
Qed.

Lemma fold_preds_ok fuel ps acc :
  (2 * Z.of_nat n ≤ Z.of_nat fuel)%Z → (∀ c, acc = Some c → parent σ c ≠ None) →
  ∃ res, fold_preds fuel post σ ps acc = Some res ∧
    (res = None ↔ acc = None ∧ ∀ p, p ∈ ps → parent σ p = None) ∧
    (∀ m, res = Some m → parent σ m ≠ None ∧
      ∀ x, anc σ x m ↔ (∀ p, p ∈ ps → parent σ p ≠ None → anc σ x p) ∧
                       (∀ c, acc = Some c → anc σ x c)).
Proof.
  intros F. revert acc. induction ps as [|p ps IH]; intros acc Ha; simpl.
  { exists acc. split; [done|]. split.
    - split; [intros ->; split; [done|]; by intros p ?%not_elem_of_nil|by intros [? _]].
    - intros m ->. split; [by apply Ha|]. intros x. split.
      + intros A. split; [by intros p ?%not_elem_of_nil|]. by intros c [= <-].
      + intros [_ A]. by apply A. }
  destruct (parent σ p) as [d|] eqn:P.
  - assert (parent σ p ≠ None) as Np by by rewrite P.
    assert (∃ m, (match acc with
                  | None => fold_preds fuel post σ ps (Some p)
                  | Some cur => m ← intersect fuel post σ p cur; fold_preds fuel post σ ps (Some m)
                  end) = fold_preds fuel post σ ps (Some m) ∧ parent σ m ≠ None ∧
                 ∀ x, anc σ x m ↔ anc σ x p ∧ ∀ c, acc = Some c → anc σ x c) as (m & E0 & Nm & Xm).
    { destruct acc as [cur|].
      - pose proof (rank_range p (processed_reach p Np)).
        pose proof (rank_range cur (processed_reach cur (Ha _ eq_refl))).
        destruct (intersect_ok fuel p cur Np (Ha _ eq_refl) ltac:(lia)) as (m & C & Nm & X).
        exists m. rewrite C. split; [done|]. split; [done|]. intros x. rewrite X.
        split; [intros [? ?]; split; [done|]; by intros c [= <-]|intros [? Hc]; split; [done|by apply Hc]].
      - exists p. split; [done|]. split; [done|]. intros x. split; [done|by intros [? _]]. }
    rewrite E0. destruct (IH (Some m)) as (res & R1 & R2 & R3); [by intros c [= <-]|].
    exists res. split; [done|]. split.
    + rewrite R2. split; [by intros [? _]|]. intros [-> Hp].
      specialize (Hp p ltac:(by left)). congruence.
    + intros m' Hm'. destruct (R3 m' Hm') as [N' X']. split; [done|]. intros x. rewrite X'.
      split.
      * intros [Y1 Y2]. destruct (proj1 (Xm x) (Y2 m eq_refl)) as [Z1 Z2]. split; [|done].
        intros q [->|Hq]%elem_of_cons Nq; [done|by apply Y1].
      * intros [Y1 Y2]. split; [intros q Hq; apply Y1; by right|]. intros c [= <-].
        apply Xm. split; [apply Y1; [by left|done]|done].
  - destruct (IH acc Ha) as (res & R1 & R2 & R3). exists res. split; [done|]. split.
    + rewrite R2. split.
      * intros [-> Hp]. split; [done|]. intros q [->|Hq]%elem_of_cons; [done|by apply Hp].
      * intros [-> Hp]. split; [done|]. intros q Hq. apply Hp. by right.
    + intros m Hm. destruct (R3 m Hm) as [N' X']. split; [done|]. intros x. rewrite X'.
      split; intros [Y1 Y2]; (split; [|done]); intros q Hq Nq.
      * apply elem_of_cons in Hq as [->|Hq]; [congruence|by apply Y1].
      * apply Y1; [by right|done].
Qed.
End tree.

(** *** Dominance and low paths *)

Lemma low_path r d c l :
  low r d c → path succ entry d l →
  ∃ l2, path succ entry c (l2 ++ l) ∧ Forall (λ v, (rk v ≤ r)%Z) l2.
Proof.
  intros L P. revert c L. apply (rtc_ind_r (λ c, ∃ l2, path succ entry c (l2 ++ l) ∧
    Forall (λ v, (rk v ≤ r)%Z) l2)).
  - exists []. split; [done|constructor].
  - intros u v _ [Huv Rv] (l2 & P2 & F2). exists (v :: l2). split; [by econstructor|by constructor].
Qed.

(** A dominator numbered above a low path dominates its origin. *)
Lemma dom_low x r d c : dom succ entry x c → low r d c → (r < rk x)%Z → dom succ entry x d.
Proof.
  intros Dx L Lt l P. destruct (low_path _ _ _ _ L P) as (l2 & P2 & F).
  specialize (Dx _ P2). apply elem_of_app in Dx as [Hx|Hx]; [|done].
  rewrite Forall_forall in F. specialize (F _ Hx). lia.
Qed.

Lemma dom_entry x : dom succ entry x entry → x = entry.
Proof. intros Dx. specialize (Dx _ (path_entry _ _)). by apply list_elem_of_singleton in Dx. Qed.

(** *** One assignment of a pass *)

Lemma parent_insert σ b m v :
  b < length σ → parent (<[b := Some m]> σ) v = if decide (v = b) then Some m else parent σ v.
Proof.
  intros L. unfold parent. case_decide as Ev.
  - subst. by rewrite list_lookup_insert_eq.
  - by rewrite list_lookup_insert_ne.
Qed.

(** The new parent [m] of [b]: the lowest common ancestor of its processed
    predecessors, one of which has a higher number. *)
Record meet (σ : list (option nat)) (b m : nat) : Prop := {
  mt_reach : reachable b;
  mt_entry : b ≠ entry;
  mt_done : parent σ m ≠ None;
  mt_anc x : anc σ x m ↔ ∀ p, E p b → parent σ p ≠ None → anc σ x p;
  mt_pred : ∃ u, E u b ∧ parent σ u ≠ None ∧ (rk b < rk u)%Z
}.

Section assign.
Context (σ : list (option nat)) (I : inv σ) (b m : nat) (M : meet σ b m).

Notation σ' := (<[b := Some m]> σ).

Lemma assign_parent v : parent σ' v = if decide (v = b) then Some m else parent σ v.
Proof.
  apply parent_insert. rewrite (i_len _ I).
  apply (reach_lt succ entry); [apply G..|apply (mt_reach _ _ _ M)].
Qed.

Lemma meet_above : ∃ u, E u b ∧ anc σ m u ∧ (rk b < rk u ≤ rk m)%Z.
Proof.
  destruct (mt_pred _ _ _ M) as (u & Eu & Nu & L). exists u. split; [done|].
  assert (anc σ m u) as A.
  { apply (mt_anc _ _ _ M); [apply anc_refl, (mt_done _ _ _ M)|done..]. }
  split; [done|]. pose proof (proj1 (anc_rank σ I _ _ A)). lia.
Qed.
Lemma meet_rank : (rk b < rk m)%Z.
Proof. destruct meet_above as (u & _ & _ & ?). lia. Qed.

Lemma assign_parent_b : parent σ' b = Some m.
Proof. by rewrite assign_parent, decide_True. Qed.
Lemma assign_parent_ne v : v ≠ b → parent σ' v = parent σ v.
Proof. intros N. by rewrite assign_parent, decide_False. Qed.

Lemma assign_step c d : (rk b < rk c)%Z → up σ c d ↔ up σ' c d.
Proof. intros L. unfold up. rewrite assign_parent. case_decide as Ec; [rewrite Ec in L; lia|done]. Qed.
Lemma step_rank c d : (rk b < rk c)%Z → up σ c d → (rk b < rk d)%Z.
Proof.
  intros L U. destruct (decide (c = entry)) as [->|Ne].
  - unfold up in U. rewrite (i_entry _ I) in U. by simplify_eq.
  - pose proof (i_rank _ I _ _ U Ne). lia.
Qed.

(** Above [b] nothing changes. *)
Lemma assign_above x c : (rk b < rk c)%Z → anc σ x c ↔ anc σ' x c.
Proof.
  intros L. unfold anc. rewrite assign_parent. case_decide as Ec; [rewrite Ec in L; lia|].
  enough (rtc (up σ) c x ↔ rtc (up σ') c x) as -> by done.
  clear Ec. split; intros R; revert L; induction R as [|c d x U R IH]; intros L; [done| |done|].
  - pose proof (step_rank _ _ L U). eapply rtc_l; [by apply assign_step|]. by apply IH.
  - apply assign_step in U; [|done]. pose proof (step_rank _ _ L U).
    eapply rtc_l; [done|]. by apply IH.
Qed.

Lemma assign_anc_b x : anc σ' x b ↔ x = b ∨ anc σ x m.
Proof.
  rewrite (assign_above x m meet_rank). split.
  - intros [N R]. apply rtc_inv in R as [Eb|(y & Py & R)]; [by left|right].
    unfold up in Py. rewrite assign_parent_b in Py. injection Py as <-.
    split; [|done]. rewrite assign_parent.
    case_decide; [done|apply (mt_done _ _ _ M)].
  - pose proof assign_parent_b as Pb.
    intros [Ex|[N R]].
    + split; [by rewrite Pb|rewrite Ex; apply rtc_refl].
    + split; [by rewrite Pb|]. by eapply rtc_l.
Qed.

(** An ancestor gained below [b] is an ancestor of [b]. *)
Lemma assign_anc x c : c ≠ b → anc σ' x c → anc σ x c ∨ (anc σ b c ∧ anc σ' x b).
Proof.
  intros Nc [N R]. induction R as [c|c d x U R IH].
  - left. rewrite assign_parent_ne in N by done. by apply anc_refl.
  - unfold up in U. rewrite assign_parent_ne in U by done.
    destruct (decide (d = b)) as [Ed|Nd].
    + right. split.
      * rewrite Ed in U. split; [by rewrite U|by apply rtc_once].
      * rewrite Ed in R. split; [by rewrite assign_parent_b|done].
    + destruct IH as [A|[A B]]; [done| |left|right].
      * rewrite assign_parent_ne by done. by apply (i_up _ I c d).
      * by eapply anc_up.
      * split; [by eapply anc_up|done].
Qed.

Lemma assign_inv : inv σ'.
Proof.
  pose proof meet_rank as Lm. destruct meet_above as (u & Eu & Au & Lu).
  assert (parent σ' m ≠ None) as Nm.
  { rewrite assign_parent. case_decide; [done|apply (mt_done _ _ _ M)]. }
  assert (∀ x, dom succ entry x b → anc σ' x b) as Db.
  { intros x Dx. apply assign_anc_b. destruct (decide (x = b)) as [|Nx]; [by left|right].
    apply (mt_anc _ _ _ M). intros p Ep Np. apply (i_dom _ I); [done|].
    by apply (dom_pred succ entry x b p). }
  constructor.
  - by rewrite length_insert, (i_len _ I).
  - rewrite assign_parent_ne by (apply not_eq_sym, (mt_entry _ _ _ M)). apply (i_entry _ I).
  - intros c d. rewrite assign_parent. case_decide as Ec; [|apply (i_reach _ I)].
    intros [= <-]. rewrite Ec. split; [apply (mt_reach _ _ _ M)|].
    by apply (processed_reach σ I), (mt_done _ _ _ M).
  - intros c d. rewrite assign_parent. case_decide as Ec; [by intros [= <-]|].
    intros P. rewrite assign_parent. case_decide; [done|]. by apply (i_up _ I c d).
  - intros c d. rewrite assign_parent. case_decide as Ec; [|apply (i_rank _ I)].
    intros [= <-] _. by rewrite Ec.
  - intros c d. rewrite assign_parent. case_decide as Ec; [|apply (i_low _ I)].
    intros [= <-] _. rewrite Ec. unfold low. eapply rtc_r; [by apply (anc_low σ I)|].
    split; [done|]. lia.
  - intros x c N Dx. destruct (decide (c = b)) as [Ec|Nc]; [rewrite Ec in Dx |- *; by apply Db|].
    split; [done|]. rewrite assign_parent_ne in N by done.
    destruct (i_dom _ I x c N Dx) as [_ R]. clear N Nc.
    induction R as [|c d x U R IH]; [done|].
    destruct (decide (c = b)) as [Ec|Nc]; [rewrite Ec in Dx |- *; apply (Db x Dx)|].
    apply (rtc_l _ c d); [unfold up; by rewrite assign_parent_ne|]. apply IH.
    destruct (decide (c = entry)) as [Ee|Ne].
    { unfold up in U. rewrite Ee, (i_entry _ I) in U. injection U as <-. by rewrite Ee in Dx. }
    destruct (decide (x = d)) as [->|Nx]; [apply dom_refl|].
    apply (dom_low x (rk d) d c); [done|by apply (i_low _ I)|].
    apply (anc_rank σ I); [|done]. split; [|done]. by apply (i_up _ I c d).
Qed.
End assign.

(** *** Rounds *)

(** The edges of a path, last first, that do not go down in number. *)
Fixpoint retreats (l : list nat) : nat :=
  match l with
  | v :: ((u :: _) as l') => (if (rk u <=? rk v)%Z then 1 else 0) + retreats l'
  | _ => 0
  end.

Lemma retreats_suffix l2 l1 : retreats l1 ≤ retreats (l2 ++ l1).
Proof.
  induction l2 as [|v l2 IH]; [done|]. etrans; [exact IH|]. simpl.
  destruct (l2 ++ l1); simpl; lia.
Qed.
Lemma retreats_cons v u l :
  retreats (v :: u :: l) = (if (rk u <=? rk v)%Z then 1 else 0) + retreats (u :: l).
Proof. done. Qed.
Lemma retreats_lt v l : retreats (v :: l) < length (v :: l).
Proof.
  revert v. induction l as [|u l IH]; intros v; [simpl; lia|].
  specialize (IH u).
  rewrite retreats_cons. cbn [length] in *. destruct (rk u <=? rk v)%Z; lia.
Qed.

(** The ancestors of [b] are on every path to it with fewer than [k] retreats. *)
Definition good (σ : list (option nat)) (k b : nat) : Prop :=
  ∀ l x, path succ entry b l → retreats l < k → anc σ x b → x ∈ l.

Lemma good_le σ j k b : j ≤ k → good σ k b → good σ j b.
Proof. intros L Gd l x P R. apply Gd; [done|lia]. Qed.

Lemma good_entry σ k : inv σ → good σ k entry.
Proof. intros I l x P _ ->%(anc_of_entry σ I). by eapply path_entry_in. Qed.

Lemma good_assign σ b m c j k :
  inv σ → meet σ b m → c ≠ b → j ≤ k → good σ j c →
  good (<[b := Some m]> σ) k b → good (<[b := Some m]> σ) j c.
Proof.
  intros I M Nc L Gc Gb l x P R A.
  apply (assign_anc σ I b m M) in A as [A|[Ab A]]; [by apply Gc| |done].
  destruct (path_prefix _ _ _ _ _ P (Gc l b P R Ab)) as (l1 & l2 & -> & P1).
  apply elem_of_app. right. apply Gb; [done| |done].
  pose proof (retreats_suffix l2 l1). lia.
Qed.

(** Round [k]: what holds once the nodes of [done] are treated. *)
Record round (k : nat) (done : list nat) (σ : list (option nat)) : Prop := {
  r_inv : inv σ;
  r_done b : b ∈ done → parent σ b ≠ None ∧ good σ k b;
  r_all b : reachable b → good σ (k - 1) b ∧ (2 ≤ k → parent σ b ≠ None)
}.

Lemma good_meet σ b m k done :
  1 ≤ k → round k done σ → meet σ b m →
  (∀ u, reachable u → (rk b < rk u)%Z → u ∈ done) →
  good (<[b := Some m]> σ) k b.
Proof.
  intros Hk R M Hd l x P Lt A. pose proof (r_inv _ _ _ R) as I.
  apply (assign_anc_b σ I b m M) in A. inversion P as [E1 E2|u v l' P' Eu E1 E2]; subst.
  { by destruct (mt_entry _ _ _ M). }
  destruct A as [->|A]; [by left|right].
  destruct (path_head _ _ _ _ P') as [l0 ->].
  assert (reachable u) as Ru by (by apply path_reach in P' as [? _]).
  rewrite retreats_cons in Lt. destruct (Z.leb_spec (rk u) (rk b)) as [Lu|Lu].
  - destruct (r_all _ _ _ R u Ru) as [Gu Nu].
    apply Gu; [done|lia|]. apply (mt_anc _ _ _ M); [done|done|]. apply Nu. lia.
  - destruct (r_done _ _ _ R u (Hd u Ru Lu)) as [Nu Gu].
    apply Gu; [done|lia|]. by apply (mt_anc _ _ _ M).
Qed.

(** One node of a pass: its parent becomes the meet of its predecessors. *)
Lemma process_ok σ b :
  inv σ → reachable b → b ≠ entry →
  (∃ u, E u b ∧ parent σ u ≠ None ∧ (rk b < rk u)%Z) →
  ∃ m c, meet σ b m ∧ process_node post pred entry σ b = Some (<[b := Some m]> σ, c) ∧
    (c = false ↔ parent σ b = Some m) ∧ (c = false → <[b := Some m]> σ = σ).
Proof.
  intros I Rb Ne (u & Eu & Nu & Lu).
  assert (∀ p, p ∈ adj pred b ↔ E p b) as Pr by (intros p; apply (wg_pred _ _ _ G)).
  destruct (fold_preds_ok σ I (2 * length σ) (adj pred b) None) as (res & F & R0 & R1);
    [rewrite (i_len _ I); lia|done|].
  destruct res as [m|].
  2:{ destruct (proj1 R0 eq_refl) as [_ Hn]. by destruct Nu; apply Hn, Pr. }
  destruct (R1 m eq_refl) as [Nm Am].
  exists m, (negb (bool_decide (parent σ b = Some m))). split; [constructor; [done|done|done| |by eauto]|].
  { intros x. rewrite Am. split.
    - intros [A _] p Ep. apply A. by apply Pr.
    - intros A. split; [|done]. intros p Hp. apply A. by apply Pr. }
  split.
  - unfold process_node. rewrite decide_False by done.
    destruct (adj pred b) eqn:Ea; [apply Pr in Eu; by apply not_elem_of_nil in Eu|].
    rewrite F. cbn [mbind option_bind]. case_decide as Ed; [rewrite bool_decide_true by done|by rewrite bool_decide_false].
    rewrite list_insert_id; [done|]. unfold parent in Ed. destruct (σ !! b); simpl in Ed; congruence.
  - case_bool_decide as Ed; [|done]. split; [done|]. intros _.
    rewrite list_insert_id; [done|]. unfold parent in Ed. destruct (σ !! b); simpl in Ed; congruence.
Qed.

(** The nodes numbered above the next one are those before it. *)
Lemma rpo_before l1 b l2 u : rpo = l1 ++ b :: l2 → reachable u → (rk b < rk u)%Z → u ∈ l1.
Proof.
  intros -> Ru L. apply (sp_reach _ _ _ _ D) in Ru.
  apply elem_of_app in Ru as [?|Ru]; [done|exfalso].
  apply list_elem_of_lookup in Ru as [i Hi].
  assert ((l1 ++ b :: l2) !! (length l1 + i) = Some u) as Hu
    by (rewrite lookup_app_r by lia; by replace (length l1 + i - length l1) with i by lia).
  assert ((l1 ++ b :: l2) !! length l1 = Some b) as Hb by (by rewrite list_lookup_middle).
  rewrite (sp_rank _ _ _ _ D _ _ Hu), (sp_rank _ _ _ _ D _ _ Hb) in L. lia.
Qed.

Lemma round_node k l1 b l2 σ :
  1 ≤ k → rpo = l1 ++ b :: l2 → round k l1 σ →
  ∃ σ' c, process_node post pred entry σ b = Some (σ', c) ∧ round k (l1 ++ [b]) σ' ∧
    (c = false → σ' = σ).
Proof.
  intros Hk Er R. pose proof (r_inv _ _ _ R) as I.
  assert (reachable b) as Rb by (apply (sp_reach _ _ _ _ D); rewrite Er; set_solver).
  assert (∀ u, reachable u → (rk b < rk u)%Z → u ∈ l1) as Hd by (intros u; by eapply rpo_before).
  destruct (decide (b = entry)) as [Eb|Ne].
  { exists σ, false. unfold process_node. rewrite decide_True by done. split; [done|].
    split; [|done]. constructor; [done| |apply R].
    intros v [Hv| ->%list_elem_of_singleton]%elem_of_app; [by apply R|].
    rewrite Eb. split; [by rewrite (i_entry _ I)|by apply good_entry]. }
  destruct (process_ok σ b I Rb Ne) as (m & c & M & P & _ & Hc).
  { destruct (sp_parent _ _ _ _ D b Rb Ne) as (u & Eu & Ru & Lu). exists u.
    split; [done|]. split; [by apply (r_done _ _ _ R), Hd|done]. }
  exists (<[b := Some m]> σ), c. split; [done|]. split; [|done].
  pose proof (good_meet σ b m k l1 Hk R M Hd) as Gb.
  assert (∀ v, parent σ v ≠ None → parent (<[b := Some m]> σ) v ≠ None) as Np.
  { intros v. rewrite (assign_parent σ I b m M). by case_decide. }
  constructor.
  - by apply assign_inv.
  - intros v Hv. destruct (decide (v = b)) as [->|Nv].
    + split; [by rewrite (assign_parent_b σ I b m M)|done].
    + apply elem_of_app in Hv as [Hv|Hv%list_elem_of_singleton]; [|done].
      destruct (r_done _ _ _ R v Hv). split; [by apply Np|by apply (good_assign σ b m v k k)].
  - intros v Rv. destruct (r_all _ _ _ R v Rv) as [Gv Nv]. split; [|intros; by apply Np, Nv].
    destruct (decide (v = b)) as [->|]; [apply (good_le _ _ k); [lia|done]|].
    apply (good_assign σ b m v (k - 1) k); [done..|lia|done|done].
Qed.

Lemma pass_round k l1 l2 σ ch :
  1 ≤ k → rpo = l1 ++ l2 → round k l1 σ →
  ∃ σ' ch', pass post pred entry l2 σ ch = Some (σ', ch') ∧ round k rpo σ' ∧
    (ch' = false → ch = false ∧ σ' = σ).
Proof.
  intros Hk. revert l1 σ ch. induction l2 as [|b l2 IH]; intros l1 σ ch Er R; simpl.
  - exists σ, ch. rewrite app_nil_r in Er. subst. done.
  - destruct (round_node k l1 b l2 σ Hk Er R) as (σ1 & c & P & R1 & Hc). rewrite P. simpl.
    destruct (IH (l1 ++ [b]) σ1 (ch || c)) as (σ' & ch' & P' & R' & Hc').
    { by rewrite <-app_assoc. } { done. }
    exists σ', ch'. split; [done|]. split; [done|]. intros ->.
    destruct (Hc' eq_refl) as [[-> ->]%orb_false_iff ->]. split; [done|by apply Hc].
Qed.

(** A round done is the start of the next. *)
Lemma round_next k σ : 1 ≤ k → round k rpo σ → round (S k) [] σ.
Proof.
  intros Hk R. constructor; [apply R|by intros b ?%not_elem_of_nil|].
  intros b Rb. apply (sp_reach _ _ _ _ D) in Rb. destruct (r_done _ _ _ R b Rb).
  by replace (S k - 1) with k by lia.
Qed.

(** *** The fixpoint *)

Record exact (σ : list (option nat)) : Prop := {
  x_inv : inv σ;
  x_all b : reachable b → parent σ b ≠ None;
  x_anc x b : anc σ x b → dom succ entry x b
}.

Lemma path_length b l : path succ entry b l → NoDup l → length l ≤ n.
Proof.
  intros P N. rewrite <-(length_seq n 0). apply submseteq_length, NoDup_submseteq; [done|].
  intros u Hu. apply path_reach in P as [_ F]. rewrite Forall_forall in F.
  apply elem_of_seq. split; [lia|]. apply (reach_lt succ entry); [apply G..|by apply F].
Qed.

(** Simple paths have fewer retreats than there are nodes. *)
Lemma round_exact σ : round (S n) [] σ → exact σ.
Proof.
  intros R. pose proof (r_inv _ _ _ R) as I. constructor; [done| |].
  - intros b Rb. apply (r_all _ _ _ R b Rb). pose proof (wg_entry _ _ _ G). lia.
  - intros x b A l P. destruct (path_simple _ _ _ _ P) as (l' & P' & Nd & Hs).
    assert (reachable b) as Rb by (by apply path_reach in P as [? _]).
    apply Hs. apply (proj1 (r_all _ _ _ R b Rb) l' x P'); [|done].
    pose proof (path_length _ _ P' Nd). destruct (path_head _ _ _ _ P') as [l0 ->].
    pose proof (retreats_lt b l0). lia.
Qed.

(** At the dominator tree a node's meet is its parent. *)
Lemma exact_node σ b : exact σ → reachable b →
  process_node post pred entry σ b = Some (σ, false).
Proof.
  intros X Rb. pose proof (x_inv _ X) as I.
  destruct (decide (b = entry)) as [Eb|Ne].
  { unfold process_node. by rewrite decide_True. }
  destruct (process_ok σ b I Rb Ne) as (m & c & M & P & Hc & Hs).
  { destruct (sp_parent _ _ _ _ D b Rb Ne) as (u & Eu & Ru & Lu).
    exists u. split; [done|]. split; [by apply (x_all _ X)|done]. }
  assert (parent σ b = Some m) as Pm; [|rewrite P; apply Hc in Pm; by rewrite Hs, Pm].
  pose proof (x_all _ X b Rb) as Nb. destruct (parent σ b) as [d|] eqn:Pd; [|done]. f_equal.
  pose proof (i_rank _ I _ _ Pd Ne) as Ld. destruct (meet_above σ I b m M) as (u & _ & _ & Lm).
  assert (∀ x, x ≠ b → anc σ x b → anc σ x d) as Above.
  { intros x Nx A. apply (anc_cases σ I x b d Pd) in A as [|]; done. }
  apply (anc_antisym σ I).
  - apply (mt_anc _ _ _ M). intros p Ep Np. apply (i_dom _ I); [done|].
    apply (dom_pred succ entry d b p); [|done|intros ->; lia].
    apply (x_anc _ X). eapply anc_up; [done|]. by apply anc_refl, (i_up _ I b).
  - apply Above; [intros ->; lia|]. apply (i_dom _ I); [by rewrite Pd|].
    apply dom_preds; [done|]. intros p Rp Ep. apply (x_anc _ X).
    apply (mt_anc _ _ _ M); [by apply anc_refl, (mt_done _ _ _ M)|done|by apply (x_all _ X)].
Qed.

Lemma exact_pass σ l ch : exact σ → Forall reachable l →
  pass post pred entry l σ ch = Some (σ, ch).
Proof.
  intros X F. revert ch. induction F as [|b l Rb _ IH]; intros ch; simpl; [done|].
  rewrite (exact_node σ b X Rb). simpl. by rewrite IH, orb_false_r.
Qed.

(** A pass that changes nothing may be repeated. *)
Lemma stable_round k j σ :
  1 ≤ k → round k [] σ → pass post pred entry rpo σ false = Some (σ, false) →
  round (j + k) [] σ.
Proof.
  intros Hk R P. induction j as [|j IH]; [done|].
  destruct (pass_round (j + k) [] rpo σ false ltac:(lia) eq_refl IH) as (σ' & c & P' & R' & _).
  rewrite P in P'. simplify_eq. apply round_next in R'; [done|lia].
Qed.

Lemma idom_loop_ok k σ :
  1 ≤ k ≤ S n → round k [] σ →
  ∃ σ', idom_loop (S (S n - k)) post pred entry rpo σ = Some σ' ∧ exact σ'.
Proof.
  remember (S n - k) as f eqn:Hf. revert k σ Hf. induction f as [|f IH]; intros k σ Hf Hk R.
  - replace k with (S n) in * by lia. apply round_exact in R as X. exists σ.
    cbn [idom_loop]. rewrite exact_pass; [done|done|].
    apply Forall_forall. intros v. by apply (sp_reach _ _ _ _ D).
  - destruct (pass_round k [] rpo σ false ltac:(lia) eq_refl R) as (σ1 & c & P & R1 & Hc).
    cbn [idom_loop]. rewrite P. cbn [mbind option_bind]. destruct c.
    + destruct (IH (S k) σ1) as (σ' & L & X); [lia|lia|by apply round_next; [lia|]|].
      exists σ'. done.
    + destruct (Hc eq_refl) as [_ ->]. exists σ. split; [done|]. apply round_exact.
      replace (S n) with ((S n - k) + k) by lia. by apply stable_round; [lia| |].
Qed.

Lemma start_round : round 1 [] (<[entry := Some entry]> (replicate n None)).
Proof.
  pose proof (wg_entry _ _ _ G) as He.
  assert (∀ v, parent (<[entry := Some entry]> (replicate n None)) v =
               if decide (v = entry) then Some entry else None) as Pv.
  { intros v. rewrite parent_insert by (by rewrite length_replicate). case_decide; [done|].
    unfold parent. destruct (replicate n None !! v) eqn:Hr; [|done].
    by apply lookup_replicate in Hr as [-> _]. }
  constructor; [constructor| |].
  - by rewrite length_insert, length_replicate.
  - by rewrite Pv, decide_True.
  - intros b d. rewrite Pv. case_decide as Eb; [|done]. intros [= <-]. rewrite Eb.
    split; apply reach_entry.
  - intros b d. rewrite Pv. case_decide as Eb; [|done]. intros [= <-].
    by rewrite Pv, decide_True.
  - intros b d. rewrite Pv. by case_decide.
  - intros b d. rewrite Pv. by case_decide.
  - intros x b. rewrite Pv. case_decide as Eb; [|done]. intros _. rewrite Eb.
    intros ->%dom_entry. apply anc_refl. by rewrite Pv, decide_True.
  - by intros b ?%not_elem_of_nil.
  - intros b _. split; [intros l x _ ?; lia|lia].
Qed.
End chk.

(** ** The dominator tree *)

(** [d] is the immediate dominator of [b]. *)
Definition immediate (succ : list (list nat)) (entry d b : nat) : Prop :=
  d ≠ b ∧ dom succ entry d b ∧ ∀ x, dom succ entry x b → x ≠ b → dom succ entry x d.

(** What [build_idom] promises its callers. *)
Record idom_spec (succ : list (list nat)) (entry : nat) (idom : list (option nat)) : Prop := {
  is_len : length idom = length succ;
  is_entry : parent idom entry = Some entry;
  is_some b : parent idom b ≠ None ↔ reach succ entry b;
  is_idom b d : b ≠ entry → parent idom b = Some d ↔ reach succ entry b ∧ immediate succ entry d b;
  is_dom x b : reach succ entry b → dom succ entry x b ↔ rtc (up idom) b x;
  (** A numbering below the number of nodes that grows toward the root. *)
  is_rank : ∃ rk : nat → Z,
    (∀ v, reach succ entry v → (0 ≤ rk v < Z.of_nat (length succ))%Z) ∧
    ∀ b d, parent idom b = Some d → b ≠ entry → (rk b < rk d)%Z
}.

Lemma build_idom_ok succ pred entry :
  wf_graph succ pred entry →
  ∃ idom, build_idom succ pred entry = Some idom ∧ idom_spec succ entry idom.
Proof.
  intros G. destruct (reverse_postorder_ok succ entry) as (post & rpo & Er & D);
    [apply G..|].
  destruct (idom_loop_ok succ pred entry G post rpo D 1 _ ltac:(lia)
              (start_round succ pred entry G post)) as (σ & L & X).
  exists σ. unfold build_idom. rewrite Er. cbn [mbind option_bind].
  replace (S (S (length succ) - 1)) with (S (length succ)) in L by lia. split; [done|].
  pose proof (x_inv _ _ _ _ X) as I.
  assert (∀ x b, reach succ entry b → dom succ entry x b ↔ anc σ x b) as Dm.
  { intros x b Rb. split; [apply (i_dom _ _ _ _ I), (x_all _ _ _ _ X), Rb|apply (x_anc _ _ _ _ X)]. }
  constructor; [apply I|apply I| | | |].
  - intros b. split; [by apply (processed_reach succ entry post)|apply (x_all _ _ _ _ X)].
  - intros b d Ne.
    assert (∀ d, parent σ b = Some d → reach succ entry b ∧ immediate succ entry d b) as Im.
    { clear d. intros d P. destruct (i_reach _ _ _ _ I _ _ P) as [Rb Rd].
      pose proof (i_rank _ _ _ _ I _ _ P Ne). split; [done|].
      split; [intros ->; lia|]. split.
      - apply Dm; [done|]. eapply anc_up; [done|]. by apply anc_refl, (i_up _ _ _ _ I b).
      - intros x Dx Nx. apply Dm; [done|]. apply Dm in Dx; [|done].
        by apply (anc_cases succ entry post σ I x b d P) in Dx as [|]. }
    split; [apply Im|]. intros [Rb (Nd & Dd & Md)].
    pose proof (x_all _ _ _ _ X b Rb). destruct (parent σ b) as [d'|] eqn:P; [|done]. f_equal.
    destruct (i_reach _ _ _ _ I _ _ P) as [_ Rd'].
    destruct (Im _ eq_refl) as [_ (Nd' & Dd' & Md')].
    assert (reach succ entry d) as Rd.
    { apply (anc_reach succ entry post σ I d b). by apply Dm. }
    assert (anc σ d' d) by (apply Dm; auto). assert (anc σ d d') by (apply Dm; auto).
    by eapply anc_antisym.
  - intros x b Rb. rewrite Dm by done. split; [by intros [_ ?]|].
    intros R. split; [by apply (x_all _ _ _ _ X)|done].
  - exists (rank post). split; [intros v; by apply (rank_range succ pred entry G post rpo D)|].
    apply (i_rank _ _ _ _ I).
Qed.

(** ** Checking a graph *)

Definition consistent (g h : list (list nat)) : Prop :=
  Forall (λ u, Forall (λ v, v < length h ∧ u ∈ adj h v) (adj g u)) (seq 0 (length g)).
#[export] Instance consistent_dec g h : Decision (consistent g h).
Proof. unfold consistent. apply _. Defined.

Lemma consistent_edge g h u v : consistent g h → v ∈ adj g u → v < length h ∧ u ∈ adj h v.
Proof.
  intros C E. pose proof (edge_lt _ _ _ E) as L. unfold consistent in C.
  rewrite Forall_forall in C. specialize (C u ltac:(apply elem_of_seq; lia)).
  rewrite Forall_forall in C. by apply C.
Qed.

(** The vectors [build_idom] expects, by evaluation. *)
Lemma wf_graph_check succ pred entry :
  entry < length succ → length pred = length succ → consistent succ pred → consistent pred succ →
  wf_graph succ pred entry.
Proof.
  intros He Hl C1 C2. constructor; [done| |done|].
  - intros u v E. rewrite <-Hl. by eapply consistent_edge in E as [? _].
  - intros u v. split; intros E.
    + by eapply consistent_edge in E as [_ ?].
    + by eapply consistent_edge in E as [_ ?].
Qed.

Lemma diamond_wf : wf_graph diamond_succ diamond_pred 0.
Proof.
  apply wf_graph_check; [simpl; lia|done|..];
    (eapply bool_decide_unpack; vm_compute; exact I).
Qed.

(** ** The claim *)

(** C6: on every consistent control-flow graph [build_idom] ends within one round
    per block and one more, and its result is the dominator tree: the entry
    points to itself, unreachable blocks have no entry, a reachable block points
    to its immediate dominator, and the dominators of a block are exactly the
    blocks above it. *)
Theorem build_idom_correct succ pred entry :
  wf_graph succ pred entry →
  ∃ idom, build_idom succ pred entry = Some idom ∧ length idom = length succ ∧
    idom !! entry = Some (Some entry) ∧
    (∀ b, b < length succ → idom !! b = Some None ↔ ¬ reach succ entry b) ∧
    (∀ b d, b ≠ entry → idom !! b = Some (Some d) ↔
       reach succ entry b ∧ immediate succ entry d b) ∧
    (∀ x b, reach succ entry b →
       dom succ entry x b ↔ rtc (λ u v, idom !! u = Some (Some v)) b x).
Proof.
  intros G. destruct (build_idom_ok succ pred entry G) as (idom & B & T).
  assert (∀ b d, idom !! b = Some (Some d) ↔ parent idom b = Some d) as Pa.
  { intros b d. unfold parent. destruct (idom !! b) as [[x|]|]; simpl; naive_solver. }
  exists idom. split; [done|]. split; [apply T|]. split; [apply Pa, T|].
  split; [|split].
  - intros b Lb. rewrite <-(is_some _ _ _ T). unfold parent.
    rewrite <-(is_len _ _ _ T) in Lb. apply lookup_lt_is_Some_2 in Lb as [[d|] ->]; simpl.
    + split; [done|]. intros N. by destruct N.
    + split; [by intros _ N|done].
  - intros b d Ne. rewrite Pa. by apply (is_idom _ _ _ T).
  - intros x b Rb. rewrite (is_dom _ _ _ T) by done.
    split; apply rtc_subrel; intros u v U; by apply Pa.
Qed.

Lemma build_idom_witness :
  ∃ idom, build_idom diamond_succ diamond_pred 0 = Some idom ∧ length idom = 4 ∧
    idom !! 0 = Some (Some 0) ∧
    (∀ b, b < 4 → idom !! b = Some None ↔ ¬ reach diamond_succ 0 b) ∧
    (∀ b d, b ≠ 0 → idom !! b = Some (Some d) ↔
       reach diamond_succ 0 b ∧ immediate diamond_succ 0 d b) ∧
    (∀ x b, reach diamond_succ 0 b →
       dom diamond_succ 0 x b ↔ rtc (λ u v, idom !! u = Some (Some v)) b x).
Proof. apply (build_idom_correct diamond_succ diamond_pred 0 diamond_wf). Defined.
