(* ===== verification/CfgFrontier.v ===== *)
(** Dominance frontiers of [src/decompiler/ssa/cfg.rs]: the sets
    [dominance_frontier] fills are the frontiers of the definition, and
    [iterated_df] is their transitive closure. *)

From stdpp Require Import relations.
From S2P Require Import Prelude Cfg CfgDfs CfgDom.

(** ** The dominator tree, from its specification *)

Lemma dom_trans succ entry x y b : dom succ entry x y → dom succ entry y b → dom succ entry x b.
Proof.
  intros Dx Dy l P. destruct (path_prefix _ _ _ _ _ P (Dy l P)) as (l1 & l2 & -> & P1).
  apply elem_of_app. right. by apply Dx.
Qed.

Section tree.
Context (succ : list (list nat)) (entry : nat) (idom : list (option nat)).
Context (T : idom_spec succ entry idom).

Notation reachable := (reach succ entry).
Notation above := (rtc (up idom)).

Lemma up_entry x : above entry x → x = entry.
Proof.
  intros R. remember entry as e eqn:He. induction R as [|b d x U R IH]; [done|]. subst.
  unfold up in U. rewrite (is_entry _ _ _ T) in U. simplify_eq. auto.
Qed.

Lemma up_none b x : ¬ reachable b → above b x → x = b.
Proof.
  intros N R. apply rtc_inv in R as [->|(d & U & _)]; [done|].
  destruct N. apply (is_some _ _ _ T). unfold up in U. by rewrite U.
Qed.

Lemma up_reach b x : reachable b → above b x → reachable x.
Proof.
  intros Rb R. apply (is_dom _ _ _ T) in R as Dx; [|done].
  destruct (reach_path _ _ _ Rb) as [l P]. pose proof (Dx l P) as Hx.
  apply path_reach in P as [_ F]. rewrite Forall_forall in F. by apply F.
Qed.

Lemma up_parent b t : parent idom b = Some t → reachable b ∧ reachable t.
Proof.
  intros P. assert (reachable b) as Rb by (apply (is_some _ _ _ T); by rewrite P).
  split; [done|]. apply (up_reach b); [done|by apply rtc_once].
Qed.

(** The numbering of the tree. *)
Lemma up_rank : ∃ rk : nat → Z,
  (∀ v, reachable v → (0 ≤ rk v < Z.of_nat (length succ))%Z) ∧
  ∀ b x, above b x → (rk b ≤ rk x)%Z ∧ (x ≠ b → (rk b < rk x)%Z).
Proof.
  destruct (is_rank _ _ _ T) as (rk & Rr & Rp). exists rk. split; [done|].
  intros b x R. induction R as [|b d x U R IH]; [split; [lia|done]|].
  destruct (decide (b = entry)) as [->|Ne].
  { assert (x = entry) as -> by (apply up_entry; by eapply rtc_l). split; [lia|done]. }
  pose proof (Rp _ _ U Ne). lia.
Qed.

Lemma up_antisym b x : above b x → above x b → x = b.
Proof.
  intros R1 R2. destruct up_rank as (rk & _ & Rr). destruct (decide (x = b)); [done|].
  pose proof (proj2 (Rr _ _ R1) ltac:(done)). pose proof (proj1 (Rr _ _ R2)). lia.
Qed.

Lemma dom_antisym x b : reachable b → dom succ entry x b → dom succ entry b x → x = b.
Proof.
  intros Rb D1 D2. apply (is_dom _ _ _ T) in D1; [|done].
  apply (is_dom _ _ _ T) in D2; [|by apply (up_reach b)]. by apply up_antisym.
Qed.

(** The immediate dominator of a node is above its predecessors. *)
Lemma up_pred b t p :
  parent idom b = Some t → b ≠ entry → edge succ p b → reachable p → above p t.
Proof.
  intros P Ne E Rp. apply (is_dom _ _ _ T); [done|].
  apply (is_idom _ _ _ T) in P as [Rb (Nt & Dt & _)]; [|done].
  by apply (dom_pred succ entry t b p).
Qed.
End tree.

(** ** [dominance_frontier] *)

(** The frontier of block [r]. *)
Definition frontier (df : list (gset nat)) (r : nat) : gset nat := default ∅ (df !! r).

Section frontier.
Context (succ pred : list (list nat)) (entry : nat) (idom : list (option nat)).
Context (G : wf_graph succ pred entry) (T : idom_spec succ entry idom).

Notation reachable := (reach succ entry).
Notation above := (rtc (up idom)).
Notation n := (length succ).

(** [r] is passed on the way from [p] to the immediate dominator of [b]. *)
Definition passed (b p r : nat) : Prop :=
  above p r ∧ ∀ t, parent idom b = Some t → ¬ above t r.

Lemma frontier_alter df b r x : r < length df →
  frontier (alter (λ s, {[b]} ∪ s) r df) x = if decide (x = r) then {[b]} ∪ frontier df x else frontier df x.
Proof.
  intros L. unfold frontier. case_decide as Ex.
  - subst. rewrite list_lookup_alter_eq. apply lookup_lt_is_Some_2 in L as [s ->]. done.
  - by rewrite list_lookup_alter_ne.
Qed.

(** From a reachable node the climb meets the immediate dominator. *)
Lemma run_up_ok rk fuel b t p df :
  (∀ v, reachable v → (0 ≤ rk v < Z.of_nat n)%Z) →
  (∀ b x, above b x → (rk b ≤ rk x)%Z ∧ (x ≠ b → (rk b < rk x)%Z)) →
  parent idom b = Some t → above p t → reachable p → length df = n →
  (Z.of_nat n - rk p ≤ Z.of_nat fuel)%Z →
  ∃ df', run_up fuel idom b p df = Some df' ∧ length df' = n ∧
    ∀ r y, y ∈ frontier df' r ↔ y ∈ frontier df r ∨ (y = b ∧ passed b p r).
Proof.
  intros Hr Hk Pb. revert p df. induction fuel as [|fuel IH]; intros p df Ap Rp Ld F.
  { pose proof (Hr p Rp). lia. }
  cbn [run_up]. rewrite Pb. case_decide as Et; simplify_eq.
  { exists df. split; [done|]. split; [done|]. intros r y. split; [by left|].
    intros [?|[-> [A N]]]; [done|]. by destruct (N t Pb). }
  assert (p ≠ t) as Npt by congruence.
  apply rtc_inv in Ap as HA. destruct HA as [|(q & U & Aq)]; [done|].
  assert (p < n) as Lp by (by apply (reach_lt succ entry); [apply G..|]).
  assert (parent idom p = Some q) as Pq by done. rewrite Pq.
  assert (q ≠ p) as Nq.
  { intros ->. destruct (Hk _ _ Ap) as [_ Hlt].
    assert (∀ z, above p z → z = p) as Fix.
    { intros z R. remember p as p0 eqn:E0. induction R as [|c d z U' R IH']; [done|]. subst.
      unfold up in U'. rewrite Pq in U'. simplify_eq. auto. }
    by destruct Npt; rewrite (Fix t Ap). }
  assert (above p q) as Apq by by apply rtc_once.
  pose proof (proj2 (Hk _ _ Apq) Nq).
  destruct (IH q (alter (λ s, {[b]} ∪ s) p df)) as (df' & Er & L' & Sp);
    [done|by apply (up_reach succ entry idom T p)|by rewrite length_alter|lia|].
  exists df'. split; [done|]. split; [done|]. intros r y. rewrite Sp, frontier_alter by lia.
  assert (passed b p r ↔ r = p ∨ passed b q r) as ->.
  { unfold passed. split.
    - intros [A N]. apply rtc_inv in A as [->|(q' & U' & A)]; [by left|right].
      unfold up in U'. rewrite Pq in U'. by simplify_eq.
    - intros [->|[A N]]; [|split; [by eapply rtc_l|done]].
      split; [apply rtc_refl|]. intros t' Pt At. rewrite Pb in Pt. simplify_eq.
      pose proof (proj1 (Hk _ _ At)). pose proof (proj2 (Hk _ _ Ap) ltac:(done)). lia. }
  case_decide; set_solver.
Qed.

(** From an unreachable predecessor it marks that block and stops. *)
Lemma run_up_unreached fuel b p df :
  ¬ reachable p → p < n → length df = n → 0 < fuel →
  ∃ df', run_up fuel idom b p df = Some df' ∧ length df' = n ∧
    ∀ r y, y ∈ frontier df' r ↔ y ∈ frontier df r ∨ (y = b ∧ passed b p r).
Proof.
  intros Np Lp Ld Hf. destruct fuel as [|fuel]; [lia|]. cbn [run_up].
  case_decide as Et.
  { symmetry in Et. apply (up_parent succ entry idom T) in Et. tauto. }
  assert (parent idom p = None) as ->.
  { destruct (parent idom p) eqn:P; [|done]. apply (up_parent succ entry idom T) in P. tauto. }
  eexists. split; [done|]. split; [by rewrite length_alter|]. intros r y.
  rewrite frontier_alter by lia.
  assert (passed b p r ↔ r = p) as ->; [|case_decide; set_solver].
  split; [intros [A _]; by apply (up_none succ entry idom T)|].
  intros ->. split; [apply rtc_refl|]. intros t Pt A.
  apply (up_parent succ entry idom T) in Pt as [_ Rt]. destruct Np. by eapply up_reach.
Qed.

Lemma run_up_pred b p df :
  edge succ p b → length df = n →
  ∃ df', run_up (length idom) idom b p df = Some df' ∧ length df' = n ∧
    ∀ r y, y ∈ frontier df' r ↔ y ∈ frontier df r ∨ (y = b ∧ passed b p r).
Proof.
  intros E Ld. pose proof (edge_lt _ _ _ E) as Lp. rewrite (is_len _ _ _ T).
  destruct (parent idom p) as [q|] eqn:Pp.
  - apply (up_parent succ entry idom T) in Pp as [Rp _].
    assert (reachable b) as Rb by by eapply rtc_r.
    apply (is_some _ _ _ T) in Rb as Nb. destruct (parent idom b) as [t|] eqn:Pb; [|done].
    destruct (up_rank succ entry idom T) as (rk & Rr & Rk).
    eapply (run_up_ok rk); try done; [|pose proof (Rr p Rp); lia].
    destruct (decide (b = entry)) as [->|Ne]; [|by eapply up_pred].
    rewrite (is_entry _ _ _ T) in Pb. simplify_eq.
    apply (is_dom _ _ _ T); [done|]. intros l P. by eapply path_entry_in.
  - apply run_up_unreached; [|done|done|lia].
    intros Rp. by apply (is_some _ _ _ T) in Rp.
Qed.

Lemma frontier_preds_ok b ps df :
  (∀ p, p ∈ ps → edge succ p b) → length df = n →
  ∃ df', frontier_preds idom b ps df = Some df' ∧ length df' = n ∧
    ∀ r y, y ∈ frontier df' r ↔ y ∈ frontier df r ∨ (y = b ∧ ∃ p, p ∈ ps ∧ passed b p r).
Proof.
  revert df. induction ps as [|p ps IH]; intros df Hp Ld; simpl.
  { exists df. split; [done|]. split; [done|]. set_solver. }
  destruct (run_up_pred b p df) as (df1 & -> & L1 & S1); [apply Hp; by left|done|]. simpl.
  destruct (IH df1) as (df2 & E2 & L2 & S2); [intros; apply Hp; by right|done|].
  exists df2. split; [done|]. split; [done|]. intros r y. rewrite S2, S1. set_solver.
Qed.

Lemma frontier_nodes_ok l df :
  length df = n →
  ∃ df', frontier_nodes pred idom l df = Some df' ∧ length df' = n ∧
    ∀ r y, y ∈ frontier df' r ↔ y ∈ frontier df r ∨
      (y ∈ l ∧ 2 ≤ length (adj pred y) ∧ ∃ p, p ∈ adj pred y ∧ passed y p r).
Proof.
  revert df. induction l as [|b l IH]; intros df Ld; simpl.
  { exists df. split; [done|]. split; [done|]. set_solver. }
  assert (∃ df1, (if decide (2 ≤ length (adj pred b)) then frontier_preds idom b (adj pred b) df
                  else Some df) = Some df1 ∧ length df1 = n ∧
    ∀ r y, y ∈ frontier df1 r ↔ y ∈ frontier df r ∨
      (y = b ∧ 2 ≤ length (adj pred b) ∧ ∃ p, p ∈ adj pred b ∧ passed b p r))
    as (df1 & -> & L1 & S1).
  { case_decide as D.
    - destruct (frontier_preds_ok b (adj pred b) df) as (df1 & E1 & L1 & S1); [|done|].
      { intros p. apply (wg_pred _ _ _ G). }
      exists df1. split; [done|]. split; [done|]. intros r y. rewrite S1. naive_solver.
    - exists df. split; [done|]. split; [done|]. naive_solver. }
  destruct (IH df1 L1) as (df2 & E2 & L2 & S2). exists df2. split; [done|]. split; [done|].
  intros r y. rewrite S2, S1, elem_of_cons. naive_solver.
Qed.

Lemma dominance_frontier_ok :
  ∃ df, dominance_frontier succ pred idom = Some df ∧ length df = n ∧
    ∀ r y, y ∈ frontier df r ↔
      y < n ∧ 2 ≤ length (adj pred y) ∧ ∃ p, p ∈ adj pred y ∧ passed y p r.
Proof.
  destruct (frontier_nodes_ok (seq 0 n) (replicate n ∅)) as (df & E & L & Sp);
    [by rewrite length_replicate|].
  exists df. split; [done|]. split; [done|]. intros r y. rewrite Sp, elem_of_seq.
  assert (frontier (replicate n ∅) r = ∅) as ->.
  { unfold frontier. destruct (replicate n ∅ !! r) eqn:H0; [|done].
    by apply lookup_replicate in H0 as [-> _]. }
  split; [intros [?|(? & ?)]; [set_solver|]; split; [lia|done]|].
  intros (? & ?). right. split; [lia|done].
Qed.
End frontier.

(** The sets are the frontiers of the definition. The condition of two
    predecessors loses nothing. *)
Section meaning.
Context (succ pred : list (list nat)) (entry : nat) (idom : list (option nat)).
Context (G : wf_graph succ pred entry) (T : idom_spec succ entry idom).

Notation reachable := (reach succ entry).

(** [y] is in the dominance frontier of [r]. *)
Definition in_df (r y : nat) : Prop :=
  ∃ p, edge succ p y ∧ reachable p ∧ dom succ entry r p ∧ ¬ (r ≠ y ∧ dom succ entry r y).

Lemma last_edge b : reachable b → b ≠ entry → ∃ p, edge succ p b ∧ reachable p ∧ p ≠ b.
Proof.
  intros Rb Ne. destruct (reach_path _ _ _ Rb) as [l P].
  destruct (path_simple _ _ _ _ P) as (l' & P' & N & _).
  inversion P' as [E1 E2|u v l0 P0 E0 E1 E2]; subst; [done|].
  apply NoDup_cons in N as [N _]. exists u. split; [done|].
  split; [by apply path_reach in P0 as [? _]|]. intros ->. destruct N.
  apply path_head in P0 as [l1 ->]. by left.
Qed.

Lemma passed_in_df y p r :
  reachable r → y ≠ entry → edge succ p y → passed idom y p r →
  reachable p ∧ dom succ entry r p ∧ ¬ (r ≠ y ∧ dom succ entry r y).
Proof.
  intros Rr Ny Ep [A N].
  assert (reachable p) as Rp.
  { destruct (parent idom p) eqn:P; [by eapply up_parent in P as [? _]|].
    assert (¬ reachable p) as Np by (intros Rp; by apply (is_some _ _ _ T) in Rp).
    by rewrite <-(up_none succ entry idom T p r Np A). }
  split; [done|]. split; [by apply (is_dom _ _ _ T)|]. intros [Nr D].
  assert (reachable y) as Ry by by eapply rtc_r.
  apply (is_some _ _ _ T) in Ry as Py. destruct (parent idom y) as [t|] eqn:Pt; [|done].
  apply (N t eq_refl). apply (is_idom _ _ _ T) in Pt as Im; [|done].
  destruct Im as [_ (_ & _ & Im)]. eapply up_parent in Pt as [_ Rt]; [|done].
  apply (is_dom _ _ _ T); [done|]. by apply Im.
Qed.

Lemma in_df_passed y p r :
  y ≠ entry → edge succ p y → reachable p → dom succ entry r p →
  ¬ (r ≠ y ∧ dom succ entry r y) → passed idom y p r.
Proof.
  intros Ny Ep Rp D N. split; [by apply (is_dom _ _ _ T)|]. intros t Pt A.
  apply N. destruct (up_parent succ entry idom T _ _ Pt) as [Ry Rt].
  pose proof (proj1 (is_idom _ _ _ T y t Ny) Pt) as [_ (Nt & Dt & _)]. split.
  - intros ->. destruct Nt. symmetry.
    apply (up_antisym succ entry idom T); [done|by apply rtc_once].
  - eapply dom_trans; [|done]. by apply (is_dom _ _ _ T).
Qed.

Lemma single_pred y p r :
  reachable y → y ≠ entry → (∀ q, edge succ q y → q = p) → reachable p →
  dom succ entry r p → r ≠ y ∧ dom succ entry r y.
Proof.
  intros Ry Ny Hq Rp D.
  assert (dom succ entry r y) as Dy.
  { apply dom_preds; [done|]. intros q _ Eq. by rewrite (Hq q Eq). }
  split; [|done]. intros ->.
  assert (dom succ entry p y) as Dp.
  { apply dom_preds; [done|]. intros q _ Eq. rewrite (Hq q Eq). apply dom_refl. }
  assert (p = y) by (by apply (dom_antisym succ entry idom T)). subst.
  destruct (last_edge y Ry Ny) as (q & Eq & _ & Nq). by apply Nq, Hq.
Qed.

Lemma frontier_meaning df r y :
  (∀ r y, y ∈ frontier df r ↔
    y < length succ ∧ 2 ≤ length (adj pred y) ∧ ∃ p, p ∈ adj pred y ∧ passed idom y p r) →
  reachable r → y ≠ entry → y ∈ frontier df r ↔ in_df r y.
Proof.
  intros F Rr Ny. rewrite F. split.
  - intros (Ly & _ & p & Hp & Pa). apply (wg_pred _ _ _ G) in Hp. exists p. split; [done|].
    by apply passed_in_df.
  - intros (p & Ep & Rp & D & N). assert (reachable y) as Ry by by eapply rtc_r.
    assert (p ∈ adj pred y) as Hp by by apply (wg_pred _ _ _ G).
    split; [by apply (reach_lt succ entry); [apply G..|]|]. split.
    + destruct (adj pred y) as [|q [|q' l]] eqn:Ea; simpl; [by apply not_elem_of_nil in Hp| |lia].
      destruct N. apply list_elem_of_singleton in Hp as <-.
      apply (single_pred y p r); try done. intros q Eq.
      apply (wg_pred _ _ _ G) in Eq. rewrite Ea in Eq. by apply list_elem_of_singleton in Eq.
    + exists p. split; [done|]. by apply in_df_passed.
Qed.
End meaning.

(** ** [iterated_df] *)

Section iterated.
Context (df : list (gset nat)).

Notation all := (⋃ df).

Lemma frontier_all r : frontier df r ⊆ all.
Proof.
  unfold frontier. destruct (df !! r) as [s|] eqn:E; simpl; [|set_solver].
  intros y Hy. apply elem_of_union_list. exists s. split; [by eapply list_elem_of_lookup_2|done].
Qed.

Lemma ascending_sorted (s : gset nat) : StronglySorted lt (ascending s).
Proof.
  assert (NoDup (ascending s)) as N by (unfold ascending; rewrite merge_sort_Permutation; apply NoDup_elements).
  assert (StronglySorted le (ascending s)) as S by (apply StronglySorted_merge_sort; apply _).
  induction S as [|x l S IH F]; [constructor|]. apply NoDup_cons in N as [Nx N]. constructor; [by apply IH|].
  apply Forall_forall. intros y Hy. eapply Forall_forall in F; [|exact Hy].
  assert (x ≠ y) by (intros ->; done). lia.
Qed.
Lemma elem_of_ascending s x : x ∈ ascending s ↔ x ∈ s.
Proof. unfold ascending. by rewrite merge_sort_Permutation, elem_of_elements. Qed.
Lemma ascending_length s : length (ascending s) = size s.
Proof. unfold ascending. by rewrite merge_sort_Permutation. Qed.

Lemma size_without (U res : gset nat) y :
  y ∈ U → y ∉ res → size (U ∖ res) = S (size (U ∖ ({[y]} ∪ res))).
Proof.
  intros Hy Ny. assert (U ∖ res = {[y]} ∪ U ∖ ({[y]} ∪ res)) as ->.
  { apply set_eq. intros x.
    rewrite elem_of_union, !elem_of_difference, not_elem_of_union, elem_of_singleton.
    split; [intros [Hx Nx]; destruct (decide (x = y)); [by left|by right]|].
    intros [->|(Hx & _ & Nx)]; done. }
  rewrite size_union by set_solver. by rewrite size_singleton.
Qed.

(** The blocks a popped block adds. *)
Lemma push_ok (U : gset nat) l wl res :
  (∀ x, x ∈ l → x ∈ U) →
  ∃ new res', foldl (λ '(worklist, result) y,
           if decide (y ∈ result) then (worklist, result)
           else (worklist ++ [y], {[y]} ∪ result)) (wl, res) l = (wl ++ new, res') ∧
    (∀ x, x ∈ res' ↔ x ∈ res ∨ x ∈ l) ∧ (∀ x, x ∈ new ↔ x ∈ l ∧ x ∉ res) ∧
    length new + size (U ∖ res') ≤ size (U ∖ res).
Proof.
  revert wl res. induction l as [|y l IH]; intros wl res Hl; simpl.
  { exists [], res. rewrite app_nil_r. split; [done|].
    split; [set_solver|]. split; [set_solver|simpl; lia]. }
  case_decide as Hy.
  - destruct (IH wl res) as (new & res' & E & S1 & S2 & L); [intros; apply Hl; by right|].
    exists new, res'. split; [done|]. split; [set_solver|]. split; [set_solver|done].
  - destruct (IH (wl ++ [y]) ({[y]} ∪ res)) as (new & res' & E & S1 & S2 & L);
      [intros; apply Hl; by right|].
    exists (y :: new), res'. rewrite E, <-app_assoc. split; [done|].
    split; [set_solver|]. split.
    { intros x. rewrite !elem_of_cons, S2, not_elem_of_union, not_elem_of_singleton.
      destruct (decide (x = y)) as [->|]; naive_solver. }
    rewrite (size_without U res y) by (try done; apply Hl; by left). simpl. lia.
Qed.

(** One block's frontier reaches another. *)
Local Notation fstep := (λ x y, y ∈ frontier df x).

(** A block the loop takes the frontier of. *)
Definition visited (seed : gset nat) (x : nat) : Prop := x ∈ seed ∨ ∃ s, s ∈ seed ∧ tc fstep s x.

(** Every block added is reached from a seed through frontiers, and every block
    no longer waiting is in range and has given its frontier. *)
Record idf_inv (seed : gset nat) (wl : list nat) (res : gset nat) : Prop := {
  iv_wait x : x ∈ wl → x ∈ seed ∨ x ∈ res;
  iv_reached x : x ∈ res → ∃ s, s ∈ seed ∧ tc fstep s x;
  iv_closed x y : x ∈ seed ∨ x ∈ res → x ∉ wl → y ∈ frontier df x → y ∈ res;
  iv_range x : x ∈ seed ∨ x ∈ res → x ∉ wl → x < length df
}.

Lemma idf_inv_visited seed wl res x : idf_inv seed wl res → x ∈ seed ∨ x ∈ res → visited seed x.
Proof. intros I [?|?]; [by left|right]. by eapply iv_reached. Qed.

Lemma idf_inv_done seed res :
  idf_inv seed [] res →
  (∀ x, visited seed x → x < length df) ∧ ∀ y, y ∈ res ↔ ∃ s, s ∈ seed ∧ tc fstep s y.
Proof.
  intros I.
  assert (∀ x y, x ∈ seed ∨ x ∈ res → tc fstep x y → y ∈ res) as H.
  { intros x y Hx R'. induction R' as [x y R'|x z y R' _ IH'];
      [|apply IH'; right]; eapply (iv_closed _ _ _ I); eauto; apply not_elem_of_nil. }
  split.
  - intros x Hx. apply (iv_range _ _ _ I); [|apply not_elem_of_nil].
    destruct Hx as [?|(s & Hs & R)]; [by left|right]. by apply (H s); [left|].
  - intros y. split; [apply (iv_reached _ _ _ I)|]. intros (s & Hs & R). by apply (H s); [left|].
Qed.

(** Taking a block from the end of the worklist. *)
Lemma idf_inv_step seed wl b res new res' :
  idf_inv seed (wl ++ [b]) res → b < length df →
  (∀ x, x ∈ res' ↔ x ∈ res ∨ x ∈ frontier df b) →
  (∀ x, x ∈ new ↔ x ∈ frontier df b ∧ x ∉ res) →
  idf_inv seed (wl ++ new) res'.
Proof.
  intros I Lb S1 S2.
  assert (b ∈ seed ∨ b ∈ res) as Hb by (apply (iv_wait _ _ _ I), elem_of_app; right; by left).
  assert (∀ x, x ∈ seed ∨ x ∈ res' → x ∉ wl ++ new → x ≠ b →
            (x ∈ seed ∨ x ∈ res) ∧ x ∉ wl ++ [b]) as Old.
  { intros x Hx Nx Nb. split.
    - destruct Hx as [?|Hx]; [by left|]. apply S1 in Hx as [?|Hx]; [by right|].
      destruct (decide (x ∈ res)); [by right|]. destruct Nx. apply elem_of_app. right. by apply S2.
    - intros [?|?%list_elem_of_singleton]%elem_of_app; set_solver. }
  constructor.
  - intros x [Hx|Hx]%elem_of_app.
    + destruct (iv_wait _ _ _ I x) as [?|?]; [by apply elem_of_app; left|by left|right; apply S1; by left].
    + apply S2 in Hx as [Hx _]. right. apply S1. by right.
  - intros x Hx%S1. destruct Hx as [Hx|Hx]; [by apply (iv_reached _ _ _ I)|].
    destruct Hb as [Hb|Hb]; [exists b; split; [done|by apply tc_once]|].
    destruct (iv_reached _ _ _ I b Hb) as (s & Hs & R). exists s. split; [done|]. by eapply tc_r.
  - intros x y Hx Nx Hy. apply S1. destruct (decide (x = b)) as [->|Nb]; [by right|left].
    destruct (Old x Hx Nx Nb) as [Hx' Nx']. by apply (iv_closed _ _ _ I x).
  - intros x Hx Nx. destruct (decide (x = b)) as [->|Nb]; [done|].
    destruct (Old x Hx Nx Nb) as [Hx' Nx']. by apply (iv_range _ _ _ I x).
Qed.

(** With enough fuel the loop ends with the blocks reached, or at a block out of
    range. *)
Lemma idf_loop_ok (seed : gset nat) fuel wl res :
  length wl + size (⋃ df ∖ res) ≤ fuel → idf_inv seed wl res →
  (∃ R, idf_loop fuel df wl res = Some R ∧ (∀ x, visited seed x → x < length df) ∧
     ∀ y, y ∈ R ↔ ∃ s, s ∈ seed ∧ tc fstep s y) ∨
  (idf_loop fuel df wl res = None ∧ ∃ b, visited seed b ∧ length df ≤ b).
Proof.
  revert wl res. induction fuel as [|fuel IH]; intros wl res F I;
    destruct wl as [|b wl _] using rev_ind.
  1, 3: left; exists res; split; [done|]; by apply idf_inv_done.
  { rewrite length_app in F. simpl in F. lia. }
  cbn [idf_loop]. rewrite vec_pop_snoc.
  destruct (df !! b) as [fr|] eqn:Eb; cbn [mbind option_bind].
  2: { right. split; [done|]. exists b. apply lookup_ge_None in Eb. split; [|done].
       eapply idf_inv_visited; [done|]. apply (iv_wait _ _ _ I), elem_of_app. right. by left. }
  assert (frontier df b = fr) as Ef by (unfold frontier; by rewrite Eb).
  unfold push_frontier.
  destruct (push_ok (⋃ df) (ascending fr) wl res) as (new & res' & -> & S1 & S2 & L).
  { intros x Hx%elem_of_ascending. apply (frontier_all b). by rewrite Ef. }
  rewrite length_app in F. simpl in F. apply IH; [rewrite length_app; lia|].
  apply (idf_inv_step _ _ _ _ _ _ I); [by eapply lookup_lt_Some|..];
    intros x; rewrite ?S1, ?S2, elem_of_ascending, Ef; done.
Qed.

Lemma iterated_df_total seed :
  (∃ R, iterated_df df seed = Some R ∧ (∀ x, visited seed x → x < length df) ∧
     ∀ y, y ∈ R ↔ ∃ s, s ∈ seed ∧ tc fstep s y) ∨
  (iterated_df df seed = None ∧ ∃ b, visited seed b ∧ length df ≤ b).
Proof.
  apply idf_loop_ok.
  - unfold idf_fuel. rewrite ascending_length. apply Nat.add_le_mono_l.
    apply subseteq_size. set_solver.
  - constructor.
    + intros x Hx%elem_of_ascending. by left.
    + intros x Hx. by apply not_elem_of_empty in Hx.
    + intros x y [Hx|Hx] Nx; [|by apply not_elem_of_empty in Hx].
      by destruct Nx; apply elem_of_ascending.
    + intros x [Hx|Hx] Nx; [|by apply not_elem_of_empty in Hx].
      by destruct Nx; apply elem_of_ascending.
Qed.

(** In range it ends well: seeds in range, and frontiers of blocks in range. *)
Lemma iterated_df_ok seed :
  (∀ x, x ∈ seed → x < length df) → (∀ x y, y ∈ frontier df x → y < length df) →
  ∃ R, iterated_df df seed = Some R ∧ ∀ y, y ∈ R ↔ ∃ s, s ∈ seed ∧ tc fstep s y.
Proof.
  intros Hs Hf. destruct (iterated_df_total seed) as [(R & E & _ & H)|(_ & b & V & L)]; [by eauto|].
  assert (b < length df); [|lia]. destruct V as [V|(s & _ & V)]; [by apply Hs|]. clear L. induction V; eauto.
Qed.
End iterated.

(** ** The claims *)

(** C18: on every consistent control-flow graph [dominance_frontier] ends, and the set
    of a reachable block [r] holds, of the blocks other than the entry, exactly
    those in its dominance frontier: [r] dominates one of their predecessors
    and does not strictly dominate them. Skipping the blocks with one
    predecessor loses nothing. *)
Theorem dominance_frontier_correct succ pred entry :
  wf_graph succ pred entry →
  ∃ idom df, build_idom succ pred entry = Some idom ∧
    dominance_frontier succ pred idom = Some df ∧ length df = length succ ∧
    ∀ r y, reach succ entry r → y ≠ entry →
      y ∈ (default ∅ (df !! r) : gset nat) ↔
      ∃ p, edge succ p y ∧ reach succ entry p ∧ dom succ entry r p ∧
           ¬ (r ≠ y ∧ dom succ entry r y).
Proof.
  intros G. destruct (build_idom_ok succ pred entry G) as (idom & B & T).
  destruct (dominance_frontier_ok succ pred entry idom G T) as (df & E & L & F).
  exists idom, df. split; [done|]. split; [done|]. split; [done|]. intros r y Rr Ny.
  by apply (frontier_meaning succ pred entry idom G T df r y).
Qed.

Lemma dominance_frontier_witness :
  ∃ idom df, build_idom diamond_succ diamond_pred 0 = Some idom ∧
    dominance_frontier diamond_succ diamond_pred idom = Some df ∧ length df = 4 ∧
    ∀ r y, reach diamond_succ 0 r → y ≠ 0 →
      y ∈ (default ∅ (df !! r) : gset nat) ↔
      ∃ p, edge diamond_succ p y ∧ reach diamond_succ 0 p ∧ dom diamond_succ 0 r p ∧
           ¬ (r ≠ y ∧ dom diamond_succ 0 r y).
Proof. apply (dominance_frontier_correct diamond_succ diamond_pred 0 diamond_wf). Defined.


(** The entry is missing from frontiers: in a loop back to the entry from the one
    other block, that block's frontier contains the entry, but
    [dominance_frontier] returns empty sets, since the entry has fewer than two
    predecessors besides its implicit one. *)
Theorem entry_frontier_missing :
  wf_graph [[1]; [0]] [[1]; [0]] 0 ∧
  build_idom [[1]; [0]] [[1]; [0]] 0 = Some [Some 0; Some 0] ∧
  dominance_frontier [[1]; [0]] [[1]; [0]] [Some 0; Some 0] = Some [∅; ∅] ∧
  in_df [[1]; [0]] 0 1 0.
Proof.
  split; [apply wf_graph_check; [simpl; lia|done|..];
    (eapply bool_decide_unpack; vm_compute; exact I)|].
  split; [vm_compute; reflexivity|]. split; [vm_compute; reflexivity|].
  assert (edge [[1]; [0]] 0 1) as E by (by left).
  exists 1. split; [by left|]. split; [by apply rtc_once|]. split; [apply dom_refl|].
  intros [_ D]. specialize (D [0] (path_entry _ _)). by apply list_elem_of_singleton in D.
Qed.
