(* ===== verification/Pdom.v ===== *)
(** Post-dominators, [src/decompiler/structure/pdom.rs]: [build_ipdom] runs the
    dominator computation on the reversed graph, rooted at a virtual exit after
    every exit block. *)

From stdpp Require Import relations.
From S2P Require Import Prelude Cfg CfgDfs CfgDom.

(** ** Paths to an exit *)

(** The blocks from [b] to a block without successors. *)
Inductive to_exit (succ : list (list nat)) : nat → list nat → Prop :=
  | exit_here b : b < length succ → adj succ b = [] → to_exit succ b [b]
  | exit_step b c l : edge succ b c → to_exit succ c l → to_exit succ b (b :: l).

Definition exits (succ : list (list nat)) (b : nat) : Prop := ∃ l, to_exit succ b l.

(** [x] post-dominates [b]: every path from [b] to an exit passes it. *)
Definition postdom (succ : list (list nat)) (x b : nat) : Prop := ∀ l, to_exit succ b l → x ∈ l.

Lemma to_exit_head succ b l : to_exit succ b l → ∃ l', l = b :: l'.
Proof. destruct 1; eauto. Qed.
Lemma to_exit_lt succ b l : wf_adj succ → to_exit succ b l → Forall (λ v, v < length succ) l.
Proof.
  intros W. induction 1 as [b L _|b c l E _ IH]; constructor; try done.
  by apply edge_lt in E.
Qed.

(** Successors and predecessors of one graph. *)
Record wf_pair (succ pred : list (list nat)) : Prop := {
  wp_succ : wf_adj succ;
  wp_len : length pred = length succ;
  wp_pred u v : u ∈ adj pred v ↔ edge succ u v
}.

(** ** The glued graph *)

Lemma adj_nil : adj [] = λ _, [].
Proof. done. Qed.
Lemma adj_snoc g l v :
  adj (g ++ [l]) v = if decide (v = length g) then l else adj g v.
Proof.
  unfold adj. case_decide as E.
  - subst. by rewrite list_lookup_middle.
  - destruct (decide (v < length g)); [by rewrite lookup_app_l|].
    rewrite !lookup_ge_None_2; [done|lia|rewrite length_app; simpl; lia].
Qed.

Lemma glue_ok i ve succ :
  let '(fwd, ex) := glue_exits i ve succ in
  length fwd = length succ ∧
  (∀ v, v < length succ → adj fwd v = match adj succ v with [] => [ve] | l => l end) ∧
  (∀ v, v ∈ ex ↔ ∃ k, v = i + k ∧ k < length succ ∧ adj succ k = []).
Proof.
  revert i. induction succ as [|s succ IH]; intros i; simpl.
  { split; [done|]. split; [intros v; lia|]. intros v. split; [by intros ?%not_elem_of_nil|].
    intros (k & _ & ? & _). lia. }
  specialize (IH (S i)). destruct (glue_exits (S i) ve succ) as [fwd ex].
  destruct IH as (L & A & X).
  assert (∀ v, v ∈ (match s with [] => i :: ex | _ => ex end) ↔
    ∃ k, v = i + k ∧ k < S (length succ) ∧ adj (s :: succ) k = []) as X'.
  { intros v. assert ((∃ k, v = i + k ∧ k < S (length succ) ∧ adj (s :: succ) k = []) ↔
      (v = i ∧ s = []) ∨ v ∈ ex) as ->; [|destruct s; rewrite ?elem_of_cons; naive_solver].
    rewrite X. split.
    - intros (k & -> & Lk & Ak). destruct k as [|k]; [left; split; [lia|done]|right].
      exists k. split; [lia|]. split; [lia|done].
    - intros [[-> ->]|(k & -> & Lk & Ak)]; [exists 0; split; [lia|]; split; [lia|done]|].
      exists (S k). split; [lia|]. split; [lia|done]. }
  destruct s as [|t s]; simpl; (split; [lia|]); (split; [|exact X']);
    intros [|v] Lv; [done|by apply A; lia|done|by apply A; lia].
Qed.

Section glue.
Context (succ pred : list (list nat)) (W : wf_pair succ pred).

Notation n := (length succ).
Notation fwd := (glue_exits 0 n succ).1.
Notation ex := (glue_exits 0 n succ).2.

Lemma glue_len : length fwd = n.
Proof. pose proof (glue_ok 0 n succ) as H. destruct (glue_exits 0 n succ). by destruct H. Qed.
Lemma glue_adj v : v < n → adj fwd v = match adj succ v with [] => [n] | l => l end.
Proof.
  pose proof (glue_ok 0 n succ) as H. destruct (glue_exits 0 n succ).
  destruct H as (_ & H & _). apply H.
Qed.
Lemma glue_exits_in v : v ∈ ex ↔ v < n ∧ adj succ v = [].
Proof.
  pose proof (glue_ok 0 n succ) as H. destruct (glue_exits 0 n succ).
  destruct H as (_ & _ & H). simpl. rewrite H. split; [by intros (k & -> & ? & ?)|].
  intros [? ?]. by exists v.
Qed.

Notation rsucc := (pred ++ [ex]).
Notation rpred := (fwd ++ [[]]).

Lemma redge u v :
  edge rsucc u v ↔ v < n ∧ ((u = n ∧ adj succ v = []) ∨ edge succ v u).
Proof.
  unfold edge at 1. rewrite adj_snoc, (wp_len _ _ W). case_decide as E.
  - subst. rewrite glue_exits_in. split; [naive_solver|].
    intros [L [[_ A]|Ev]]; [done|]. apply (wp_succ _ _ W) in Ev. lia.
  - rewrite (wp_pred _ _ W). split; [|naive_solver]. intros Ev. split; [by apply edge_lt in Ev|by right].
Qed.

Lemma glue_wf : wf_graph rsucc rpred n.
Proof.
  pose proof (wp_len _ _ W) as Lp. pose proof glue_len as Lf.
  assert (length rsucc = S n) as Ls by (rewrite length_app; simpl; lia).
  constructor.
  - lia.
  - intros u v [Lv _]%redge. lia.
  - rewrite Ls, length_app. simpl. lia.
  - intros u v. rewrite adj_snoc, Lf, redge. case_decide as E.
    + subst. split; [by intros ?%not_elem_of_nil|lia].
    + split.
      * intros Hu. assert (v < n) as Lv.
        { destruct (decide (v < n)); [done|]. unfold adj in Hu.
          rewrite lookup_ge_None_2 in Hu by lia. by apply not_elem_of_nil in Hu. }
        split; [done|]. rewrite glue_adj in Hu by done. unfold edge.
        destruct (adj succ v) eqn:A; [left|by right]. by apply list_elem_of_singleton in Hu.
      * intros [Lv H]. rewrite glue_adj by done. destruct H as [[-> ->]|Ev]; [by left|].
        unfold edge in Ev. destruct (adj succ v); [by apply not_elem_of_nil in Ev|done].
Qed.

(** Paths of the reversed graph are the paths to an exit, and the virtual exit. *)
Lemma path_to_exit b l : path rsucc n b l → b = n ∧ l = [n] ∨ ∃ l', l = l' ++ [n] ∧ to_exit succ b l'.
Proof.
  induction 1 as [|u v l P IH E]; [by left|right]. apply redge in E as [Lv E].
  destruct IH as [[-> ->]|(l' & -> & X)].
  - destruct E as [[_ A]|E]; [|apply (wp_succ _ _ W) in E; lia].
    exists [v]. split; [done|by constructor].
  - assert (u < n) as Lu.
    { destruct (to_exit_head _ _ _ X) as [l0 ->].
      apply to_exit_lt in X; [|apply W]. by apply Forall_cons in X as [? _]. }
    destruct E as [[-> _]|E]; [lia|]. exists (v :: l'). split; [done|by econstructor].
Qed.
Lemma to_exit_path b l : to_exit succ b l → path rsucc n b (l ++ [n]).
Proof.
  induction 1 as [b L A|b c l E X IH]; simpl.
  - eapply path_snoc; [constructor|]. apply redge. split; [done|by left].
  - eapply path_snoc; [done|]. apply redge. split; [by apply edge_lt in E|by right].
Qed.

Lemma reach_exits b : b < n → reach rsucc n b ↔ exits succ b.
Proof.
  intros Lb. split.
  - intros (l & P)%reach_path. apply path_to_exit in P as [[-> _]|(l' & _ & X)]; [lia|by eexists].
  - intros (l & X%to_exit_path). by apply path_reach in X as [? _].
Qed.

(** Domination in the reversed graph is post-domination. *)
Lemma dom_postdom x b : x < n → b < n → dom rsucc n x b ↔ postdom succ x b.
Proof.
  intros Lx Lb. split.
  - intros D l X%to_exit_path. specialize (D _ X).
    apply elem_of_app in D as [?|?%list_elem_of_singleton]; [done|lia].
  - intros D l P. apply path_to_exit in P as [[-> _]|(l' & -> & X)]; [lia|].
    apply elem_of_app. left. by apply D.
Qed.
Lemma dom_virtual b : dom rsucc n n b.
Proof. intros l P. by apply path_entry_in in P. Qed.
Lemma dom_lt x b : dom rsucc n x b → reach rsucc n b → x ≤ n.
Proof.
  intros D (l & P)%reach_path. specialize (D _ P). apply path_reach in P as [_ F].
  rewrite Forall_forall in F. specialize (F _ D).
  apply (reach_lt rsucc n) in F; [|apply glue_wf..].
  rewrite length_app, (wp_len _ _ W) in F. simpl in F. lia.
Qed.
End glue.

(** ** The post-dominator tree *)

(** [d] is the nearest post-dominator of [b] other than [b]. *)
Definition immediate_post (succ : list (list nat)) (d b : nat) : Prop :=
  d ≠ b ∧ postdom succ d b ∧ ∀ x, postdom succ x b → x ≠ b → postdom succ x d.

Lemma postdom_lt succ x b : wf_adj succ → postdom succ x b → exits succ b → x < length succ.
Proof.
  intros W D [l X]. specialize (D l X). apply (to_exit_lt _ _ _ W) in X.
  rewrite Forall_forall in X. by apply X.
Qed.

Lemma build_ipdom_ok succ pred :
  wf_pair succ pred →
  ∃ ipdom, build_ipdom succ pred = Some ipdom ∧ length ipdom = S (length succ) ∧
    parent ipdom (length succ) = Some (length succ) ∧
    ∀ b, b < length succ →
      (parent ipdom b ≠ None ↔ exits succ b) ∧
      (∀ d, d < length succ → parent ipdom b = Some d ↔ exits succ b ∧ immediate_post succ d b) ∧
      (parent ipdom b = Some (length succ) ↔ exits succ b ∧ ∀ x, postdom succ x b → x = b).
Proof.
  intros W. destruct (build_idom_ok _ _ _ (glue_wf succ pred W)) as (ipdom & B & T).
  exists ipdom. unfold build_ipdom, virtual_exit.
  destruct (glue_exits 0 (length succ) succ) as [fwd ex] eqn:Eg. split; [exact B|].
  change fwd with (fwd, ex).1 in T. change ex with (fwd, ex).2 in T. rewrite <-Eg in T.
  split; [rewrite (is_len _ _ _ T), length_app, (wp_len _ _ W); simpl; lia|].
  split; [apply (is_entry _ _ _ T)|]. intros b Lb.
  assert (b ≠ length succ) as Nb by lia.
  pose proof (reach_exits succ pred W b Lb) as Rx.
  split; [by rewrite (is_some _ _ _ T)|]. split.
  - intros d Ld. rewrite (is_idom _ _ _ T), Rx by done. split.
    + intros [Ex (Nd & Dd & Md)]. split; [done|]. split; [done|].
      split; [by apply (dom_postdom succ pred W)|]. intros x Dx Nx.
      pose proof (postdom_lt _ _ _ (wp_succ _ _ W) Dx Ex).
      apply (dom_postdom succ pred W); [done..|]. apply Md; [|done]. by apply dom_postdom.
    + intros [Ex (Nd & Dd & Md)]. split; [done|]. split; [done|].
      split; [by apply dom_postdom|]. intros x Dx Nx.
      pose proof (dom_lt succ pred W x b Dx (proj2 Rx Ex)).
      destruct (decide (x = length succ)) as [->|]; [apply dom_virtual|].
      apply dom_postdom; [done|lia|done|]. apply Md; [|done]. apply (dom_postdom succ pred W); [lia|done..].
  - rewrite (is_idom _ _ _ T), Rx by done. split.
    + intros [Ex (_ & _ & Md)]. split; [done|]. intros x Dx.
      destruct (decide (x = b)) as [|Nx]; [done|exfalso].
      pose proof (postdom_lt _ _ _ (wp_succ _ _ W) Dx Ex).
      assert (dom (pred ++ [(glue_exits 0 (length succ) succ).2]) (length succ) x (length succ)) as H'
        by (apply Md; [by apply dom_postdom|done]).
      apply dom_entry in H'. lia.
    + intros [Ex Md]. split; [done|]. split; [done|]. split; [apply dom_virtual|].
      intros x Dx Nx. pose proof (dom_lt succ pred W x b Dx (proj2 Rx Ex)).
      destruct (decide (x = length succ)) as [->|]; [apply dom_refl|].
      destruct Nx. apply Md. apply (dom_postdom succ pred W); [lia|done..].
Qed.

Lemma build_ipdom_range succ pred ipdom b d :
  wf_pair succ pred → build_ipdom succ pred = Some ipdom → parent ipdom b = Some d →
  d ≤ length succ.
Proof.
  intros W B E. destruct (build_idom_ok _ _ _ (glue_wf succ pred W)) as (ipdom' & B' & T).
  unfold build_ipdom, virtual_exit in B.
  destruct (glue_exits 0 (length succ) succ) as [fwd ex] eqn:Eg. cbn [fst snd] in *.
  assert (ipdom' = ipdom) as -> by congruence.
  destruct (decide (b = length succ)) as [->|Nb].
  - rewrite (is_entry _ _ _ T) in E. injection E as <-. done.
  - pose proof E as R. apply (is_idom _ _ _ T) in R as [R (_ & D & _)]; [|done].
    apply (dom_lt succ pred W d b); by rewrite Eg.
Qed.

(** ** The claim *)

(** C22: on every consistent pair of adjacency vectors [build_ipdom] ends, and its
    result is the post-dominator tree: a block without a path to an exit has no
    entry, a block points to the nearest other block that every path to an exit
    passes, and to the virtual exit when there is none. *)
Theorem build_ipdom_correct succ pred :
  wf_pair succ pred →
  ∃ ipdom, build_ipdom succ pred = Some ipdom ∧ length ipdom = S (length succ) ∧
    parent ipdom (virtual_exit (length succ)) = Some (virtual_exit (length succ)) ∧
    ∀ b, b < length succ →
      (parent ipdom b ≠ None ↔ exits succ b) ∧
      (∀ d, d < length succ → parent ipdom b = Some d ↔ exits succ b ∧ immediate_post succ d b) ∧
      (parent ipdom b = Some (virtual_exit (length succ)) ↔
         exits succ b ∧ ∀ x, postdom succ x b → x = b).
Proof. exact (build_ipdom_ok succ pred). Qed.

Lemma diamond_pair : wf_pair diamond_succ diamond_pred.
Proof. destruct diamond_wf. by constructor. Qed.

Lemma build_ipdom_witness :
  ∃ ipdom, build_ipdom diamond_succ diamond_pred = Some ipdom ∧ length ipdom = 5 ∧
    parent ipdom (virtual_exit 4) = Some (virtual_exit 4) ∧
    ∀ b, b < 4 →
      (parent ipdom b ≠ None ↔ exits diamond_succ b) ∧
      (∀ d, d < 4 → parent ipdom b = Some d ↔
         exits diamond_succ b ∧ immediate_post diamond_succ d b) ∧
      (parent ipdom b = Some (virtual_exit 4) ↔
         exits diamond_succ b ∧ ∀ x, postdom diamond_succ x b → x = b).
Proof. apply (build_ipdom_correct diamond_succ diamond_pred diamond_pair). Defined.
