(* ===== verification/FlowGraph.v ===== *)
(** From a function record to the graph the analyses run on:
    [Function::recompute_predecessors] of [src/analysis/functions.rs] and the
    adjacency vectors of [src/decompiler/ssa/mod.rs]. Recomputed predecessors
    make the vectors consistent, which is what the analyses of CfgDom and Ssa
    require. *)

From S2P Require Import Prelude Data Cfg CfgDfs CfgDom.
Import Functions.

(** ** [recompute_predecessors] *)

Definition set_predecessors (l : list Edge) (b : BasicBlock) : BasicBlock :=
  mkBlock (bb_entry_va b) (bb_exit_va b) (bb_instr_count b) (bb_successors b) l.
Definition push_predecessor (e : Edge) (b : BasicBlock) : BasicBlock :=
  set_predecessors (bb_predecessors b ++ [e]) b.

Definition entry_is (va : Z) (b : BasicBlock) : bool := (bb_entry_va b =? va)%Z.

(** One successor edge of the block at [start]. *)
Definition add_predecessor (start : Z) (blocks : list BasicBlock) (edge : Edge) : list BasicBlock :=
  if (eg_target edge =? 0)%Z then blocks
  else default blocks
    (update_first (entry_is (eg_target edge)) (push_predecessor (mkEdge start (eg_kind edge))) blocks).

(** One block; [expect("block exists")] is the missing one. *)
Definition add_predecessors (blocks : option (list BasicBlock)) (start : Z)
    : option (list BasicBlock) :=
  blocks ← blocks;
  b ← find_first (entry_is start) blocks;
  Some (foldl (add_predecessor start) blocks (bb_successors b)).

Definition recompute_predecessors (f : Function) : option Function :=
  let cleared := map (set_predecessors []) (fn_blocks f) in
  blocks ← foldl add_predecessors (Some cleared) (map bb_entry_va cleared);
  Some (mkFunction (fn_id f) (fn_entry_va f) blocks (fn_outgoing f) (fn_stack_frame f)
          (fn_signature f)).

(** ** Adjacency, steps 3 of [build_ssa_with_call_abi_inputs] *)

(** Collecting into a map keeps the last block of an address. *)
Definition block_index_map (f : Function) : gmap Z nat :=
  foldl (λ m '(i, b), <[bb_entry_va b := i]> m) ∅ (imap pair (fn_blocks f)).

Definition add_edge (index_of : gmap Z nat) (l : list nat) (e : Edge) : list nat :=
  if (eg_target e =? 0)%Z then l
  else match index_of !! eg_target e with
       | Some j => if decide (j ∈ l) then l else l ++ [j]
       | None => l
       end.

Definition adjacency (f : Function) : nat * list (list nat) * list (list nat) :=
  let index_of := block_index_map f in
  (default 0 (index_of !! fn_entry_va f),
   map (λ b, foldl (add_edge index_of) [] (bb_successors b)) (fn_blocks f),
   map (λ b, foldl (add_edge index_of) [] (bb_predecessors b)) (fn_blocks f)).

(** ** The recomputed predecessors *)

(** What does not change. *)
Definition outline (b : BasicBlock) : Z * Z * nat * list Edge :=
  (bb_entry_va b, bb_exit_va b, bb_instr_count b, bb_successors b).
(** The predecessors of the block at an address. *)
Definition preds_at (blocks : list BasicBlock) (va : Z) : option (list Edge) :=
  bb_predecessors <$> find_first (entry_is va) blocks.
Definition succs_at (blocks : list BasicBlock) (va : Z) : option (list Edge) :=
  bb_successors <$> find_first (entry_is va) blocks.

(** The edges to [t] among the successors of [start]. *)
Definition back_edges (start t : Z) (edges : list Edge) : list Edge :=
  omap (λ e, if ((eg_target e =? t) && negb (t =? 0))%Z then Some (mkEdge start (eg_kind e)) else None)
    edges.

Lemma push_at p e blocks va :
  preds_at (default blocks (update_first (entry_is p) (push_predecessor e) blocks)) va =
    if (va =? p)%Z then (λ l, l ++ [e]) <$> preds_at blocks va else preds_at blocks va.
Proof.
  unfold preds_at, entry_is. induction blocks as [|b blocks IH]; cbn [find_first update_first].
  { simpl. by destruct (va =? p)%Z. }
  destruct (Z.eqb_spec (bb_entry_va b) p) as [Ep|Ep];
    [|destruct (update_first _ _ blocks) as [bs|]];
    simpl in *; destruct (Z.eqb_spec (bb_entry_va b) va) as [Ev|Ev]; simpl;
    destruct (Z.eqb_spec va p); try congruence; done.
Qed.

Lemma push_outline p e blocks :
  map outline (default blocks (update_first (entry_is p) (push_predecessor e) blocks)) =
    map outline blocks.
Proof.
  destruct (update_first _ _ blocks) as [bs|] eqn:E; [|done].
  by apply (update_first_map outline) in E.
Qed.

Lemma add_edges_at start edges blocks va :
  preds_at (foldl (add_predecessor start) blocks edges) va =
    (λ l, l ++ back_edges start va edges) <$> preds_at blocks va ∧
  map outline (foldl (add_predecessor start) blocks edges) = map outline blocks.
Proof.
  revert blocks. induction edges as [|e edges IH]; intros blocks; simpl.
  { split; [|done]. destruct (preds_at blocks va); simpl; [by rewrite app_nil_r|done]. }
  destruct (IH (add_predecessor start blocks e)) as [-> ->].
  unfold add_predecessor at 1 2. destruct (Z.eqb_spec (eg_target e) 0) as [E0|E0].
  - split; [|done]. destruct (Z.eqb_spec (eg_target e) va) as [<-|]; [|done].
    by rewrite E0.
  - rewrite push_at, push_outline. split; [|done].
    destruct (Z.eqb_spec va (eg_target e)) as [->|N].
    + rewrite Z.eqb_refl, (proj2 (Z.eqb_neq _ 0)) by done. simpl.
      destruct (preds_at blocks (eg_target e)); simpl; [|done]. by rewrite <-app_assoc.
    + by rewrite (proj2 (Z.eqb_neq (eg_target e) va)) by congruence.
Qed.

Lemma outline_find blocks blocks' va : map outline blocks = map outline blocks' →
  outline <$> find_first (entry_is va) blocks = outline <$> find_first (entry_is va) blocks'.
Proof.
  revert blocks'. induction blocks as [|b bs IH]; intros [|b' bs'] H; [done..|].
  cbn [map] in H. injection H as H1 H2 H3 H4 H5. cbn [find_first].
  unfold entry_is at 1 3. rewrite <-H1.
  destruct (bb_entry_va b =? va)%Z; [simpl; unfold outline; congruence|by apply IH].
Qed.
Lemma outline_succs blocks blocks' va : map outline blocks = map outline blocks' →
  succs_at blocks va = succs_at blocks' va.
Proof.
  intros H. apply (outline_find _ _ va) in H. unfold succs_at.
  destruct (find_first _ blocks), (find_first _ blocks'); simplify_eq/=; [|done].
  unfold outline in *. congruence.
Qed.

(** Every start adds its edges to the addresses they point to. *)
Lemma add_all_at starts blocks :
  (∀ s, s ∈ starts → is_Some (succs_at blocks s)) →
  ∃ blocks', foldl add_predecessors (Some blocks) starts = Some blocks' ∧
    map outline blocks' = map outline blocks ∧
    ∀ va, preds_at blocks' va = (λ l, l ++ concat (map (λ s, back_edges s va
      (default [] (succs_at blocks s))) starts)) <$> preds_at blocks va.
Proof.
  revert blocks. induction starts as [|s starts IH]; intros blocks Hs.
  { exists blocks. split; [done|]. split; [done|]. intros va. simpl.
    destruct (preds_at blocks va); simpl; [by rewrite app_nil_r|done]. }
  destruct (Hs s ltac:(by left)) as [edges Hedges]. pose proof Hedges as Hf.
  unfold succs_at in Hf. apply fmap_Some in Hf as (b & Hb & ->).
  set (blocks1 := foldl (add_predecessor s) blocks (bb_successors b)).
  assert (∀ va, succs_at blocks1 va = succs_at blocks va) as Sc.
  { intros va. apply outline_succs, (add_edges_at s _ _ 0). }
  destruct (IH blocks1) as (blocks' & E & O & A).
  { intros s' Hs'. rewrite Sc. apply Hs. by right. }
  exists blocks'. cbn [foldl]. unfold add_predecessors at 2. cbn [mbind option_bind].
  rewrite Hb. cbn [mbind option_bind]. split; [done|]. split.
  { rewrite O. apply (add_edges_at s _ _ 0). }
  intros va. rewrite A. unfold blocks1 at 2. rewrite (proj1 (add_edges_at s _ _ va)).
  cbn [map concat]. rewrite Hedges. simpl.
  destruct (preds_at blocks va); simpl; [|done]. rewrite <-app_assoc. do 3 f_equal.
  f_equal. apply map_ext. intros s'. by rewrite Sc.
Qed.

(** Addresses that identify blocks. *)
Definition distinct_blocks (f : Function) : Prop := NoDup (map bb_entry_va (fn_blocks f)).

Lemma find_block blocks b :
  NoDup (map bb_entry_va blocks) → b ∈ blocks →
  find_first (entry_is (bb_entry_va b)) blocks = Some b.
Proof.
  induction blocks as [|a blocks IH]; intros Nd Hb; [by apply not_elem_of_nil in Hb|].
  cbn [map] in Nd. apply NoDup_cons in Nd as [Na Nd]. cbn [find_first]. unfold entry_is at 1.
  apply elem_of_cons in Hb as [->|Hb]; [by rewrite Z.eqb_refl|].
  rewrite (proj2 (Z.eqb_neq _ _)); [by apply IH|]. intros E. apply Na. rewrite E.
  by apply list_elem_of_fmap_2.
Qed.

Lemma outline_entries blocks blocks' :
  map outline blocks = map outline blocks' → map bb_entry_va blocks = map bb_entry_va blocks'.
Proof.
  intros H. assert (∀ l, map bb_entry_va l = map (λ x, x.1.1.1) (map outline l)) as E
    by (intros l; by rewrite map_map).
  by rewrite !E, H.
Qed.

Lemma outline_member blocks blocks' a : a ∈ blocks → map outline blocks' = map outline blocks →
  ∃ a', a' ∈ blocks' ∧ outline a = outline a'.
Proof.
  intros Ha E. assert (outline a ∈ map outline blocks') as H
    by (rewrite E; by apply list_elem_of_fmap_2).
  apply list_elem_of_fmap in H as (a' & Ea & Ha'). by exists a'.
Qed.

Lemma entry_inj blocks a b : NoDup (map bb_entry_va blocks) → a ∈ blocks → b ∈ blocks →
  bb_entry_va a = bb_entry_va b → a = b.
Proof.
  intros Nd Ha Hb E. pose proof (find_block _ _ Nd Ha) as H1. pose proof (find_block _ _ Nd Hb) as H2.
  rewrite E in H1. congruence.
Qed.

Lemma back_edges_spec start t edges e :
  e ∈ back_edges start t edges ↔
    t ≠ 0%Z ∧ eg_target e = start ∧ mkEdge t (eg_kind e) ∈ edges.
Proof.
  unfold back_edges. rewrite list_elem_of_omap. split.
  - intros ([t' k] & Hx & E). simpl in E. destruct (Z.eqb_spec t' t), (Z.eqb_spec t 0); try done.
    simpl in E. simplify_eq. done.
  - intros (Ht & <- & Hin). exists (mkEdge t (eg_kind e)). split; [done|]. simpl.
    rewrite Z.eqb_refl, (proj2 (Z.eqb_neq t 0)) by done. by destruct e.
Qed.

Lemma recompute_ok f :
  distinct_blocks f →
  ∃ f', recompute_predecessors f = Some f' ∧
    map outline (fn_blocks f') = map outline (fn_blocks f) ∧ fn_entry_va f' = fn_entry_va f ∧
    ∀ b e, b ∈ fn_blocks f' → e ∈ bb_predecessors b ↔
      bb_entry_va b ≠ 0%Z ∧ ∃ a, a ∈ fn_blocks f' ∧ eg_target e = bb_entry_va a ∧
        mkEdge (bb_entry_va b) (eg_kind e) ∈ bb_successors a.
Proof.
  intros Nd. set (cl := map (set_predecessors []) (fn_blocks f)).
  assert (map outline cl = map outline (fn_blocks f)) as Oc by (unfold cl; by rewrite map_map).
  pose proof (outline_entries _ _ Oc) as Ec.
  assert (NoDup (map bb_entry_va cl)) as Ndc by by rewrite Ec.
  assert (∀ b, b ∈ cl → succs_at cl (bb_entry_va b) = Some (bb_successors b)) as Hs.
  { intros b Hb. unfold succs_at. by rewrite find_block. }
  destruct (add_all_at (map bb_entry_va cl) cl) as (bs & E & O & A).
  { intros s Hin. apply list_elem_of_fmap in Hin as (b & -> & Hb). by rewrite Hs. }
  unfold recompute_predecessors. fold cl. rewrite E. cbn [mbind option_bind].
  eexists. split; [done|]. cbn [fn_blocks fn_entry_va]. split; [by rewrite O|]. split; [done|].
  assert (NoDup (map bb_entry_va bs)) as Ndb by by rewrite (outline_entries _ _ O).
  intros b e Hb. pose proof (A (bb_entry_va b)) as Ab. unfold preds_at in Ab.
  rewrite (find_block bs b Ndb Hb) in Ab.
  destruct (find_first (entry_is (bb_entry_va b)) cl) as [b0|] eqn:Hf; [|done].
  apply find_first_Some in Hf as [Hb0 _]. unfold cl in Hb0.
  apply list_elem_of_fmap in Hb0 as (b1 & -> & _). simpl in Ab. injection Ab as ->.
  rewrite list_elem_of_In, in_concat. split.
  - intros (l & Hl & He). apply in_map_iff in Hl as (s & <- & Hin).
    apply list_elem_of_In, back_edges_spec in He as (Nz & Et & He). split; [done|].
    apply list_elem_of_In, list_elem_of_fmap in Hin as (a & -> & Ha). rewrite Hs in He by done.
    apply (outline_member cl bs) in Ha as (a' & Ha' & Oa); [|done].
    injection Oa as E1 _ _ E4. exists a'. simpl in He. split; [done|]. rewrite <-E1, <-E4. done.
  - intros (Nz & a' & Ha' & Et & He).
    apply (outline_member bs cl) in Ha' as (a & Ha & Oa); [|done].
    injection Oa as E1 _ _ E4. exists (back_edges (bb_entry_va a) (bb_entry_va b) (bb_successors a)). split.
    + apply in_map_iff. exists (bb_entry_va a). rewrite Hs by done. split; [done|].
      by apply list_elem_of_In, list_elem_of_fmap_2.
    + apply list_elem_of_In, back_edges_spec. split; [done|]. split; congruence.
Qed.

(** ** Adjacency *)

Lemma index_map_ok blocks va i :
  NoDup (map bb_entry_va blocks) →
  foldl (λ m '(i, b), <[bb_entry_va b := i]> m) (∅ : gmap Z nat) (imap pair blocks) !! va = Some i ↔
    ∃ b, blocks !! i = Some b ∧ bb_entry_va b = va.
Proof.
  assert (∀ k (m : gmap Z nat), (∀ b, b ∈ blocks → m !! bb_entry_va b = None) →
    NoDup (map bb_entry_va blocks) →
    foldl (λ m '(i, b), <[bb_entry_va b := i]> m) m (imap (λ i b, (k + i, b)) blocks) !! va = Some i ↔
      m !! va = Some i ∨ ∃ j b, i = k + j ∧ blocks !! j = Some b ∧ bb_entry_va b = va) as H.
  { induction blocks as [|b blocks IH]; intros k m Hm Nd.
    { simpl. split; [by left|]. by intros [?|(j & b & _ & ? & _)]. }
    cbn [map] in Nd. apply NoDup_cons in Nd as [Nb Nd]. rewrite imap_cons. cbn [foldl].
    replace (imap ((λ i b, (k + i, b)) ∘ S) blocks) with (imap (λ i b, (S k + i, b)) blocks)
      by (apply imap_ext; intros j x _; simpl; f_equal; lia).
    rewrite IH; [|intros b' Hb'; rewrite lookup_insert_ne;
      [apply Hm; by right|intros E; apply Nb; rewrite E; by apply list_elem_of_fmap_2]|done].
    rewrite Nat.add_0_r. split.
    - intros [E|(j & b' & -> & Hj & Ev)].
      + destruct (decide (bb_entry_va b = va)) as [Ev|Ev].
        * rewrite Ev, lookup_insert_eq in E. simplify_eq. right. exists 0, b. split; [lia|done].
        * rewrite lookup_insert_ne in E by done. by left.
      + right. exists (S j), b'. split; [lia|done].
    - intros [E|([|j] & b' & -> & Hj & Ev)].
      + left. rewrite lookup_insert_ne; [done|]. intros Ev. rewrite <-Ev, Hm in E; [done|by left].
      + simpl in Hj. simplify_eq. left. rewrite lookup_insert_eq. f_equal. lia.
      + right. exists j, b'. split; [lia|done]. }
  intros Nd. specialize (H 0 ∅). simpl in H. rewrite H; [|intros; apply lookup_empty|done].
  rewrite lookup_empty. naive_solver.
Qed.

Lemma add_edges_ok idx l edges v :
  v ∈ foldl (add_edge idx) l edges ↔
    v ∈ l ∨ ∃ e, e ∈ edges ∧ eg_target e ≠ 0%Z ∧ idx !! eg_target e = Some v.
Proof.
  revert l. induction edges as [|e edges IH]; intros l; cbn [foldl].
  { split; [by left|]. intros [?|(e & ?%not_elem_of_nil & _)]; done. }
  rewrite IH. assert (v ∈ add_edge idx l e ↔ v ∈ l ∨ (eg_target e ≠ 0%Z ∧ idx !! eg_target e = Some v)) as ->.
  { unfold add_edge. destruct (Z.eqb_spec (eg_target e) 0) as [E0|E0]; [naive_solver|].
    destruct (idx !! eg_target e) as [j|] eqn:Ej; [|naive_solver].
    case_decide; [naive_solver|]. rewrite elem_of_app, list_elem_of_singleton. naive_solver. }
  setoid_rewrite elem_of_cons. naive_solver.
Qed.

Lemma adj_map (h : BasicBlock → list nat) blocks u v :
  v ∈ adj (map h blocks) u ↔ ∃ b, blocks !! u = Some b ∧ v ∈ h b.
Proof.
  unfold adj. rewrite list_lookup_fmap. destruct (blocks !! u); simpl; [naive_solver|].
  split; [by intros ?%not_elem_of_nil|naive_solver].
Qed.

(** Predecessor edges that mirror the successor edges. *)
Definition mirrored (f : Function) : Prop :=
  ∀ b e, b ∈ fn_blocks f → e ∈ bb_predecessors b ↔
    bb_entry_va b ≠ 0%Z ∧ ∃ a, a ∈ fn_blocks f ∧ eg_target e = bb_entry_va a ∧
      mkEdge (bb_entry_va b) (eg_kind e) ∈ bb_successors a.

Lemma adjacency_ok f :
  distinct_blocks f → fn_blocks f ≠ [] → mirrored f →
  (∀ b, b ∈ fn_blocks f → bb_entry_va b ≠ 0%Z) →
  let '(entry, succ, pred) := adjacency f in
  wf_graph succ pred entry ∧ length succ = length (fn_blocks f) ∧
  ∀ u v, edge succ u v ↔ ∃ a b, fn_blocks f !! u = Some a ∧ fn_blocks f !! v = Some b ∧
    ∃ e, e ∈ bb_successors a ∧ eg_target e = bb_entry_va b.
Proof.
  intros Nd Ne Mi Nz. unfold adjacency, block_index_map. cbv zeta.
  set (idx := foldl _ _ _).
  assert (∀ va i, idx !! va = Some i ↔ ∃ b, fn_blocks f !! i = Some b ∧ bb_entry_va b = va) as Hi
    by (intros va i; by apply index_map_ok).
  set (succ := map _ (fn_blocks f)). set (pred := map _ (fn_blocks f)).
  assert (∀ u v, edge succ u v ↔ ∃ a b, fn_blocks f !! u = Some a ∧ fn_blocks f !! v = Some b ∧
    ∃ e, e ∈ bb_successors a ∧ eg_target e = bb_entry_va b) as Es.
  { intros u v. unfold edge, succ. rewrite adj_map. setoid_rewrite add_edges_ok.
    setoid_rewrite Hi. split.
    - intros (a & Ha & [?%not_elem_of_nil|(e & He & _ & b & Hb & Et)]); [done|].
      exists a, b. split; [done|]. split; [done|]. by exists e.
    - intros (a & b & Ha & Hb & e & He & Et). exists a. split; [done|]. right. exists e.
      split; [done|]. rewrite Et. split; [|by exists b].
      apply Nz. by eapply list_elem_of_lookup_2. }
  assert (length succ = length (fn_blocks f)) as Ls by apply length_map.
  split; [|done]. constructor.
  - rewrite Ls. destruct (idx !! fn_entry_va f) as [i|] eqn:E; simpl.
    + apply Hi in E as (b & Hb & _). by eapply lookup_lt_Some.
    + destruct (fn_blocks f); simpl; [done|lia].
  - intros u v (a & b & _ & Hb & _)%Es. rewrite Ls. by eapply lookup_lt_Some.
  - unfold pred. by rewrite Ls, length_map.
  - intros u v. rewrite Es. unfold pred. rewrite adj_map. setoid_rewrite add_edges_ok.
    setoid_rewrite Hi. split.
    + intros (b & Hb & [?%not_elem_of_nil|(e & He & _ & a & Ha & Et)]); [done|].
      apply Mi in He as (_ & a' & Ha' & Et' & He); [|by eapply list_elem_of_lookup_2].
      exists a, b. split; [done|]. split; [done|]. exists (mkEdge (bb_entry_va b) (eg_kind e)). split; [|done].
      assert (a = a') as ->; [|done].
      eapply entry_inj; [exact Nd|by eapply list_elem_of_lookup_2|done|congruence].
    + intros (a & b & Ha & Hb & e & He & Et). exists b. split; [done|]. right.
      exists (mkEdge (bb_entry_va a) (eg_kind e)).
      assert (a ∈ fn_blocks f) as Ha' by by eapply list_elem_of_lookup_2.
      split; [|split; [by apply Nz|by exists a]].
      apply Mi; [by eapply list_elem_of_lookup_2|].
      split; [apply Nz; by eapply list_elem_of_lookup_2|].
      exists a. split; [done|]. split; [done|]. simpl. rewrite <-Et. by destruct e.
Qed.

(** ** The claims *)

(** [recompute_predecessors] never misses a block, changes nothing but the
    predecessor lists, and leaves there exactly the successor edges turned
    around: [b] has a predecessor edge to [a] of some kind when [a] is a block
    with a successor edge of that kind to [b], address 0 meaning none. *)
Theorem recompute_predecessors_correct f :
  distinct_blocks f →
  ∃ f', recompute_predecessors f = Some f' ∧
    map outline (fn_blocks f') = map outline (fn_blocks f) ∧ fn_entry_va f' = fn_entry_va f ∧
    ∀ b e, b ∈ fn_blocks f' → e ∈ bb_predecessors b ↔
      bb_entry_va b ≠ 0%Z ∧ ∃ a, a ∈ fn_blocks f' ∧ eg_target e = bb_entry_va a ∧
        mkEdge (bb_entry_va b) (eg_kind e) ∈ bb_successors a.
Proof. exact (recompute_ok f). Qed.

(** A loop of two blocks with an edge out of the function and a stale
    predecessor. *)
Definition two_blocks : Function :=
  mkFunction 0x1000 0x1000
    [mkBlock 0x1000 0x1008 3 [mkEdge 0x1010 Conditional; mkEdge 0x9000 TailCall; mkEdge 0 Indirect]
       [mkEdge 0x5000 Unconditional];
     mkBlock 0x1010 0x1014 2 [mkEdge 0x1000 Unconditional; mkEdge 0x1000 Fallthrough] []]
    [] None None.

Lemma two_blocks_distinct : distinct_blocks two_blocks.
Proof. eapply bool_decide_unpack. vm_compute. exact I. Qed.

Example two_blocks_recomputed :
  map bb_predecessors (default [] (fn_blocks <$> recompute_predecessors two_blocks)) =
    [[mkEdge 0x1010 Unconditional; mkEdge 0x1010 Fallthrough]; [mkEdge 0x1000 Conditional]].
Proof. vm_compute. reflexivity. Qed.

Lemma recompute_predecessors_witness :
  ∃ f', recompute_predecessors two_blocks = Some f' ∧
    map outline (fn_blocks f') = map outline (fn_blocks two_blocks) ∧ fn_entry_va f' = 0x1000%Z ∧
    ∀ b e, b ∈ fn_blocks f' → e ∈ bb_predecessors b ↔
      bb_entry_va b ≠ 0%Z ∧ ∃ a, a ∈ fn_blocks f' ∧ eg_target e = bb_entry_va a ∧
        mkEdge (bb_entry_va b) (eg_kind e) ∈ bb_successors a.
Proof. exact (recompute_predecessors_correct two_blocks two_blocks_distinct). Defined.

(** A function with distinct, non-zero block addresses whose predecessors were
    recomputed gives consistent adjacency vectors, as the dominator, frontier
    and SSA passes need: an edge between two indices is a successor edge
    between the blocks there, edges out of the function are dropped, and the
    predecessor vector is the inverse of the successor vector. *)
Theorem function_graph_consistent f f' :
  distinct_blocks f → fn_blocks f ≠ [] → (∀ b, b ∈ fn_blocks f → bb_entry_va b ≠ 0%Z) →
  recompute_predecessors f = Some f' →
  let '(entry, succ, pred) := adjacency f' in
  wf_graph succ pred entry ∧ length succ = length (fn_blocks f) ∧
  ∀ u v, edge succ u v ↔ ∃ a b, fn_blocks f !! u = Some a ∧ fn_blocks f !! v = Some b ∧
    ∃ e, e ∈ bb_successors a ∧ eg_target e = bb_entry_va b.
Proof.
  intros Nd Ne Nz E. destruct (recompute_ok f Nd) as (f1 & E1 & O & _ & Mi). simplify_eq.
  assert (∀ i, outline <$> fn_blocks f' !! i = outline <$> fn_blocks f !! i) as Oi
    by (intros i; pose proof (f_equal (lookup i) O) as Oi; by rewrite !list_lookup_fmap in Oi).
  assert (length (fn_blocks f') = length (fn_blocks f)) as L
    by (pose proof (f_equal length O) as Ol; by rewrite !length_map in Ol).
  pose proof (adjacency_ok f') as A. destruct (adjacency f') as [[entry succ] pred].
  destruct A as (W & Ls & Ed).
  - unfold distinct_blocks. by rewrite (outline_entries _ _ O).
  - intros H. rewrite H in L. by destruct (fn_blocks f).
  - exact Mi.
  - intros b Hb. destruct (outline_member _ (fn_blocks f) b Hb) as (b' & Hb' & Eo); [done|].
    injection Eo as -> _ _ _. by apply Nz.
  - split; [done|]. split; [congruence|]. intros u v. rewrite Ed. split.
    + intros (a & b & Ha & Hb & e & He & Et). pose proof (Oi u) as Ou. pose proof (Oi v) as Ov.
      rewrite Ha in Ou. rewrite Hb in Ov. symmetry in Ou, Ov.
      apply fmap_Some in Ou as (a' & Ha' & Oa), Ov as (b' & Hb' & Ob).
      injection Oa as _ _ _ Ea. injection Ob as Eb _ _ _.
      exists a', b'. split; [done|]. split; [done|]. exists e. by rewrite <-Ea, <-Eb.
    + intros (a & b & Ha & Hb & e & He & Et). pose proof (Oi u) as Ou. pose proof (Oi v) as Ov.
      rewrite Ha in Ou. rewrite Hb in Ov.
      apply fmap_Some in Ou as (a' & Ha' & Oa), Ov as (b' & Hb' & Ob).
      injection Oa as _ _ _ Ea. injection Ob as Eb _ _ _.
      exists a', b'. split; [done|]. split; [done|]. exists e. by rewrite <-Ea, <-Eb.
Qed.

Lemma function_graph_consistent_witness :
  let '(entry, succ, pred) := adjacency (default two_blocks (recompute_predecessors two_blocks)) in
  wf_graph succ pred entry ∧ length succ = 2 ∧
  ∀ u v, edge succ u v ↔ ∃ a b, fn_blocks two_blocks !! u = Some a ∧
    fn_blocks two_blocks !! v = Some b ∧
    ∃ e, e ∈ bb_successors a ∧ eg_target e = bb_entry_va b.
Proof.
  apply (function_graph_consistent two_blocks); [apply two_blocks_distinct|done| |reflexivity].
  intros b Hb. unfold two_blocks in Hb. simpl in Hb.
  repeat (apply elem_of_cons in Hb as [->|Hb]; [done|]). by apply not_elem_of_nil in Hb.
Defined.
