(* ===== verification/Ssa.v ===== *)
(** Function-level SSA construction, [src/decompiler/ssa/]: locations and
    versioned variables ([mod.rs]), phi placement ([phi.rs]) and the renaming
    walk ([rename.rs]).

    The lifted operations are carried unchanged, so the P-code type of the
    decoder crate is a parameter. Blocks are indices ([nat]); versions are [u32]
    and wrap. Fallible steps run on fuel, and the theorems of SsaFacts show it
    suffices. *)

From S2P Require Import Prelude Cfg.

(** ** Locations, [mod.rs] *)

Inductive Location :=
  | Register (base_offset : Z)
  | StackSlot (base_reg disp : Z)
  | Unique (instruction_va offset size : Z)
  | RawRam.

#[export] Instance Location_eq_dec : EqDecision Location.
Proof. solve_decision. Defined.
#[export] Instance Location_countable : Countable Location.
Proof.
  refine (inj_countable'
    (λ l, match l with
          | Register b => inl (inl b)
          | StackSlot r d => inl (inr (r, d))
          | Unique v o s => inr (inl (v, o, s))
          | RawRam => inr (inr tt)
          end)
    (λ x, match x with
          | inl (inl b) => Register b
          | inl (inr (r, d)) => StackSlot r d
          | inr (inl (v, o, s)) => Unique v o s
          | inr (inr tt) => RawRam
          end) _).
  by intros [].
Defined.

Definition is_instruction_scoped (l : Location) : bool :=
  match l with Unique _ _ _ => true | _ => false end.

(** The derived order: the variants in order, then their fields. *)
Definition location_key (l : Location) : list Z :=
  match l with
  | Register b => [0; b]
  | StackSlot r d => [1; r; d]
  | Unique v o s => [2; v; o; s]
  | RawRam => [3]
  end%Z.

Fixpoint lex_le (a b : list Z) : bool :=
  match a, b with
  | [], _ => true
  | _ :: _, [] => false
  | x :: a, y :: b => (x <? y)%Z || ((x =? y)%Z && lex_le a b)
  end.

Definition location_le (a b : Location) : Prop := lex_le (location_key a) (location_key b) = true.
#[export] Instance location_le_dec a b : Decision (location_le a b).
Proof. unfold location_le. apply _. Defined.

(** Iteration of an ordered set of locations. *)
Definition in_order (s : gset Location) : list Location := merge_sort location_le (elements s).

Record SsaVar := mkVar { location : Location; version : Z }.
Record PhiNode := mkPhi { out : SsaVar; args : list (option SsaVar) }.

Section ops.
Context {P : Type}.

Record FlatOp := mkFlat { f_va : Z; f_op : P; f_def : option Location; f_uses : list Location }.

Inductive SsaOpKind := Phi (p : PhiNode) | Pcode (op : P).
Record SsaOp := mkOp { va : Z; kind : SsaOpKind; def : option SsaVar; uses : list SsaVar }.

(** *** [collect_def_blocks] *)

Definition add_def_block (i : nat) (m : gmap Location (gset nat)) (op : FlatOp)
    : gmap Location (gset nat) :=
  match f_def op with
  | Some loc =>
      if is_instruction_scoped loc then m
      else <[loc := {[i]} ∪ default ∅ (m !! loc)]> m
  | None => m
  end.

Definition collect_def_blocks (block_flat : list (list FlatOp)) : gmap Location (gset nat) :=
  foldl (λ m '(i, flat), foldl (add_def_block i) m flat) ∅ (imap pair block_flat).

(** *** [place_phis], [phi.rs] *)

Definition place_at (loc : Location) (phi_locs : list (list Location)) (b : nat)
    : list (list Location) :=
  match phi_locs !! b with
  | Some locs => if decide (loc ∈ locs) then phi_locs else <[b := locs ++ [loc]]> phi_locs
  | None => phi_locs
  end.

Definition place_loc (df : list (gset nat)) (phi_locs : list (list Location))
    (x : Location * gset nat) : option (list (list Location)) :=
  let '(loc, blocks) := x in
  if decide (size blocks < 2) then Some phi_locs
  else idf ← iterated_df df blocks; Some (foldl (place_at loc) phi_locs (ascending idf)).

Definition place_phis (def_blocks : gmap Location (gset nat)) (df : list (gset nat))
    : option (list (list Location)) :=
  fold_opt (place_loc df) (replicate (length df) [])
    (map (λ loc, (loc, default ∅ (def_blocks !! loc))) (in_order (dom def_blocks))).

(** ** The renaming, [rename.rs] *)

(** The mutable arguments of [rename_block]. *)
Record Ren := mkRen {
  current_def : gmap Location (list Z);
  next_ver : gmap Location Z;
  phis : list (list PhiNode);
  pcode_ops : list (list SsaOp)
}.

Definition new_version (next_ver : gmap Location Z) (loc : Location) : Z * gmap Location Z :=
  let cur := default 1%Z (next_ver !! loc) in
  (cur, <[loc := ((cur + 1) mod 2 ^ 32)%Z]> next_ver).

Definition stack (current_def : gmap Location (list Z)) (loc : Location) : list Z :=
  default [] (current_def !! loc).
Definition top (current_def : gmap Location (list Z)) (loc : Location) : Z :=
  default 0%Z (last (stack current_def loc)).

(** A fresh version of [loc], pushed on its stack. *)
Definition define (loc : Location) (s : Ren) : Z * Ren :=
  let '(v, next) := new_version (next_ver s) loc in
  (v, mkRen (<[loc := stack (current_def s) loc ++ [v]]> (current_def s)) next
        (phis s) (pcode_ops s)).

Definition set_phis (p : list (list PhiNode)) (s : Ren) : Ren :=
  mkRen (current_def s) (next_ver s) p (pcode_ops s).
Definition set_ops (o : list (list SsaOp)) (s : Ren) : Ren :=
  mkRen (current_def s) (next_ver s) (phis s) o.
Definition set_defs (d : gmap Location (list Z)) (s : Ren) : Ren :=
  mkRen d (next_ver s) (phis s) (pcode_ops s).

Definition set_out_version (v : Z) (p : PhiNode) : PhiNode :=
  mkPhi (mkVar (location (out p)) v) (args p).
Definition set_arg (slot : nat) (a : option SsaVar) (p : PhiNode) : PhiNode :=
  mkPhi (out p) (<[slot := a]> (args p)).

(** 1) One phi output. *)
Definition rename_phi (bi : nat) (s : Ren) (x : nat * Location) : Ren :=
  let '(idx, loc) := x in
  let '(v, s) := define loc s in
  set_phis (alter (alter (set_out_version v) idx) bi (phis s)) s.

(** 2) One operation: its uses read the stacks, its definition pushes. *)
Definition rename_op (bi : nat) (s : Ren) (flat : FlatOp) : Ren :=
  let uses := map (λ u, mkVar u (top (current_def s) u)) (f_uses flat) in
  let '(d, s) :=
    match f_def flat with
    | Some loc => let '(v, s) := define loc s in (Some (mkVar loc v), s)
    | None => (None, s)
    end in
  set_ops (alter (λ ops, ops ++ [mkOp (f_va flat) (Pcode (f_op flat)) d uses]) bi (pcode_ops s)) s.

Definition pred_slot (pred : list (list nat)) (si block : nat) : nat :=
  default 0 (position (λ p, bool_decide (p = block)) (adj pred si)).

(** 3) The slots of one successor. *)
Definition fill_args (pred : list (list nat)) (block : nat) (s : Ren) (si : nat) : Ren :=
  set_phis (alter (map (λ phi,
      set_arg (pred_slot pred si block)
        (Some (mkVar (location (out phi)) (top (current_def s) (location (out phi))))) phi))
    si (phis s)) s.

(** 5) One pop. *)
Definition pop (d : gmap Location (list Z)) (loc : Location) : gmap Location (list Z) :=
  match d !! loc with
  | Some st => <[loc := removelast st]> d
  | None => d
  end.

Section walk.
Context (block_flat : list (list FlatOp)) (phi_locs : list (list Location)).
Context (succ pred dom_children : list (list nat)).

(** The locations a block pushes, in order. *)
Definition pushed (bi : nat) : list Location :=
  default [] (phi_locs !! bi) ++ omap f_def (default [] (block_flat !! bi)).

(** 1) to 3): the block itself. *)
Definition rename_body (bi : nat) (s : Ren) : Ren :=
  let s := foldl (rename_phi bi) s (imap pair (default [] (phi_locs !! bi))) in
  let s := foldl (rename_op bi) s (default [] (block_flat !! bi)) in
  foldl (fill_args pred bi) s (adj succ bi).

Fixpoint rename_block (fuel : nat) (s : Ren) (block : nat) : option Ren :=
  match fuel with
  | 0 => None
  | S fuel =>
      s ← fold_opt (rename_block fuel) (rename_body block s) (adj dom_children block);
      Some (set_defs (foldl pop (current_def s) (pushed block)) s)
  end.
End walk.

(** The locations that get an entry version. *)
Definition flat_locs (op : FlatOp) : list Location :=
  filter (λ l, is_instruction_scoped l = false) (option_list (f_def op) ++ f_uses op).
Definition all_locs (block_flat : list (list FlatOp)) : gset Location :=
  list_to_set (concat (map (λ flat, concat (map flat_locs flat)) block_flat)).

Definition dom_children (n : nat) (idom : list (option nat)) : list (list nat) :=
  foldl (λ children i,
           match mjoin (idom !! i) with
           | Some p => if decide (p ≠ i) then alter (λ l, l ++ [i]) p children else children
           | None => children
           end)
    (replicate n []) (seq 0 n).

Definition blank_phis (phi_locs : list (list Location)) (pred : list (list nat)) : list (list PhiNode) :=
  imap (λ i locs, map (λ loc, mkPhi (mkVar loc 0) (replicate (length (adj pred i)) None)) locs)
    phi_locs.

Definition seeded (block_flat : list (list FlatOp)) (phi_locs : list (list Location))
    (pred : list (list nat)) : Ren :=
  foldl (λ s loc, (define loc s).2)
    (mkRen ∅ ∅ (blank_phis phi_locs pred) (replicate (length block_flat) []))
    (in_order (all_locs block_flat)).

(** The walk goes down the dominator tree, whose height is below the number of
    blocks. *)
Definition rename (block_flat : list (list FlatOp)) (phi_locs : list (list Location))
    (succ pred : list (list nat)) (idom : list (option nat))
    : option (list (list PhiNode) * list (list SsaOp)) :=
  let n := length block_flat in
  s ← rename_block block_flat phi_locs succ pred (dom_children n idom) (S n)
        (seeded block_flat phi_locs pred) 0;
  Some (phis s, pcode_ops s).

(** ** [build_ssa_with_call_abi_inputs], from the adjacency on *)

Definition build_ssa (block_flat : list (list FlatOp)) (succ pred : list (list nat))
    (entry_idx : nat) : option (list (list PhiNode) * list (list SsaOp)) :=
  idom ← build_idom succ pred entry_idx;
  df ← dominance_frontier succ pred idom;
  phi_locs ← place_phis (collect_def_blocks block_flat) df;
  rename block_flat phi_locs succ pred idom.

(** The operations of one assembled block: the phis, then the P-code. *)
Definition assemble (phis : list PhiNode) (ops : list SsaOp) : list SsaOp :=
  map (λ p, mkOp 0 (Phi p) (Some (out p)) []) phis ++ ops.
End ops.

Arguments FlatOp : clear implicits.
Arguments SsaOp : clear implicits.
Arguments SsaOpKind : clear implicits.
Arguments Ren : clear implicits.

(** ** The test of rename.rs, and the renaming of a diamond *)

Definition rax : Location := Register 0.
Definition temp : Location := Unique 0x14000010 0x40 8.

Example unique_from_intra_instruction :
  rename [[mkFlat 0x14000010 tt (Some temp) [Register 8];
           mkFlat 0x14000010 tt (Some rax) [temp]]] [[]] [[]] [[]] [None]
  = Some ([[]], [[mkOp 0x14000010 (Pcode tt) (Some (mkVar temp 1)) [mkVar (Register 8) 1];
                  mkOp 0x14000010 (Pcode tt) (Some (mkVar rax 2)) [mkVar temp 1]]]).
Proof. vm_compute. reflexivity. Qed.

(** Both arms define rax; the join reads the phi. *)
Example diamond_phi :
  build_ssa [[]; [mkFlat 1 tt (Some rax) []]; [mkFlat 2 tt (Some rax) []];
             [mkFlat 3 tt None [rax]]] diamond_succ diamond_pred 0
  = Some ([[]; []; []; [mkPhi (mkVar rax 4) [Some (mkVar rax 2); Some (mkVar rax 3)]]],
          [[]; [mkOp 1 (Pcode tt) (Some (mkVar rax 2)) []];
           [mkOp 2 (Pcode tt) (Some (mkVar rax 3)) []];
           [mkOp 3 (Pcode tt) None [mkVar rax 4]]]).
Proof. vm_compute. reflexivity. Qed.

(** ** The function, [mod.rs] *)

Section function.
Context {P : Type}.

Record SsaBlock := mkSsaBlock {
  sb_id : nat;
  sb_entry_va : Z;
  sb_ops : list (SsaOp P);
  predecessor_ids : list nat;
  successor_ids : list nat
}.

Record SsaFunction := mkSsaFunction {
  sf_entry_va : Z;
  bitness : Z;
  blocks : list SsaBlock;
  image_base : Z
}.
End function.
Arguments SsaBlock : clear implicits.
Arguments SsaFunction : clear implicits.
