(* ===== verification/SsaFacts.v ===== *)
(** The renaming walk of [src/decompiler/ssa/rename.rs]: what one call of
    [rename_block] does to the stacks, the phi nodes and the operations; then
    the walk of [rename] over the dominator tree, where every reachable block is
    renamed once, with the stacks its dominators leave. *)

From stdpp Require Import relations.
From S2P Require Import Prelude Cfg CfgDfs CfgDom CfgFrontier Ssa.

(** ** Environments: the version of each location last assigned *)

Notation env := (Location → Z).

Definition assign (e : env) (x : SsaVar) : env :=
  λ l, if decide (l = location x) then version x else e l.
Definition assigns (e : env) (xs : list SsaVar) : env := foldl assign e xs.

Lemma assigns_app e xs ys : assigns e (xs ++ ys) = assigns (assigns e xs) ys.
Proof. apply foldl_app. Qed.
Lemma assigns_ext e e' xs l : e l = e' l → assigns e xs l = assigns e' xs l.
Proof.
  revert e e'. induction xs as [|x xs IH]; intros e e' E; simpl; [done|].
  apply IH. unfold assign. by case_decide.
Qed.
Lemma assigns_other e xs l : l ∉ map location xs → assigns e xs l = e l.
Proof.
  revert e. induction xs as [|x xs IH]; intros e N; simpl; [done|].
  apply not_elem_of_cons in N as [N1 N2]. rewrite IH by done. unfold assign.
  by rewrite decide_False.
Qed.
Lemma assigns_set e e' xs l : l ∈ map location xs → assigns e xs l = assigns e' xs l.
Proof.
  revert e e'. induction xs as [|x xs IH]; intros e e' H; simpl in *; [by apply not_elem_of_nil in H|].
  destruct (decide (l ∈ map location xs)) as [H'|N]; [by apply IH|].
  apply elem_of_cons in H as [->|?]; [|done]. rewrite !assigns_other by done.
  unfold assign. by rewrite !decide_True.
Qed.

Section facts.
Context {P : Type}.
Implicit Types (ops : list (SsaOp P)) (s : Ren P).

(** Each use of a location in [L] reads the version current before its
    operation. *)
Fixpoint reads (L : Location → Prop) (e : env) ops : Prop :=
  match ops with
  | [] => True
  | o :: ops =>
      (∀ u, u ∈ uses o → L (location u) → version u = e (location u)) ∧
      reads L (assigns e (option_list (def o))) ops
  end.

Lemma reads_ext (L L' : Location → Prop) e e' ops :
  (∀ l, L' l → L l ∧ e l = e' l) → reads L e ops → reads L' e' ops.
Proof.
  revert e e'. induction ops as [|o ops IH]; intros e e' H; simpl; [done|].
  intros [Hu Ho]. split.
  - intros u Hin Hl. destruct (H _ Hl) as [Hl' <-]. by apply Hu.
  - apply (IH (assigns e (option_list (def o)))); [|done]. intros l Hl.
    destruct (H _ Hl). split; [done|]. by apply assigns_ext.
Qed.

Lemma reads_app L e ops1 ops2 :
  reads L e (ops1 ++ ops2) ↔ reads L e ops1 ∧ reads L (assigns e (omap def ops1)) ops2.
Proof.
  revert e. induction ops1 as [|o ops1 IH]; intros e; simpl; [tauto|].
  rewrite IH. destruct (def o); simpl; tauto.
Qed.

(** The renamed operation carries the lifted one. *)
Definition lifts (f : FlatOp P) (o : SsaOp P) : Prop :=
  va o = f_va f ∧ kind o = Pcode (f_op f) ∧ location <$> def o = f_def f ∧
  map location (uses o) = f_uses f.

(** *** Stacks *)

(** [s'] has pushed the versions of [xs]. *)
Definition pushes (d d' : gmap Location (list Z)) (xs : list SsaVar) : Prop :=
  ∀ l, stack d' l = stack d l ++ map version (filter (λ x, location x = l) xs).

Lemma pushes_nil d : pushes d d [].
Proof. intros l. by rewrite app_nil_r. Qed.
Lemma pushes_app d d1 d2 xs ys : pushes d d1 xs → pushes d1 d2 ys → pushes d d2 (xs ++ ys).
Proof. intros H1 H2 l. by rewrite H2, H1, filter_app, map_app, app_assoc. Qed.

Lemma stack_insert d l st l' :
  stack (<[l := st]> d) l' = if decide (l' = l) then st else stack d l'.
Proof.
  unfold stack. case_decide; subst; [by rewrite lookup_insert_eq|by rewrite lookup_insert_ne].
Qed.

Lemma pushes_one d l v : pushes d (<[l := stack d l ++ [v]]> d) [mkVar l v].
Proof.
  intros l'. rewrite stack_insert, filter_cons, filter_nil. simpl.
  case_decide; [subst; by rewrite decide_True|].
  rewrite decide_False by congruence. by rewrite app_nil_r.
Qed.

Lemma top_pushes d d' xs l : pushes d d' xs → top d' l = assigns (top d) xs l.
Proof.
  intros H. unfold top at 1. rewrite (H l). clear H.
  induction xs as [|x xs IH] using rev_ind.
  { simpl. by rewrite app_nil_r. }
  rewrite assigns_app. simpl. unfold assign. rewrite filter_app, filter_cons, filter_nil.
  case_decide as E.
  - subst. rewrite decide_True by done. rewrite map_app. simpl.
    by rewrite app_assoc, last_snoc.
  - rewrite decide_False by done. by rewrite app_nil_r.
Qed.

(** Popping what a block pushed restores the stacks. *)
Lemma pops_ok (base w : Location → list Z) locs d :
  (∀ l, stack d l = base l ++ w l ∧ length (w l) = length (filter (λ x, x = l) locs)) →
  ∀ l, stack (foldl pop d locs) l = base l.
Proof.
  revert d w. induction locs as [|x locs IH]; intros d w H l; simpl.
  { destruct (H l) as [-> Hw]. simpl in Hw. apply nil_length_inv in Hw as ->. by rewrite app_nil_r. }
  apply (IH _ (λ l, if decide (l = x) then removelast (w l) else w l)). clear l. intros l.
  destruct (H x) as [Hx Lx]. rewrite filter_cons, decide_True in Lx by done. simpl in Lx.
  assert (w x ≠ []) as Nx by (intros E; by rewrite E in Lx).
  assert (stack (pop d x) l = if decide (l = x) then removelast (stack d x) else stack d l) as ->.
  { unfold pop. destruct (d !! x) as [st|] eqn:E.
    - rewrite stack_insert. unfold stack. by rewrite E.
    - unfold stack in Hx. rewrite E in Hx. simpl in Hx. symmetry in Hx.
      apply app_eq_nil in Hx as [_ ?]. done. }
  destruct (H l) as [Hl Ll]. rewrite filter_cons in Ll. destruct (decide (l = x)) as [E|E].
  - rewrite ?E in *. rewrite Hx, removelast_app by done. split; [done|].
    destruct (exists_last Nx) as (w0 & v & Ew). rewrite Ew in *.
    rewrite removelast_last. rewrite length_app in Lx. simpl in Lx. lia.
  - rewrite decide_False in Ll by congruence. done.
Qed.

Lemma pushes_pops d d' xs :
  pushes d d' xs → ∀ l, stack (foldl pop d' (map location xs)) l = stack d l.
Proof.
  intros H. eapply (pops_ok _ (λ l, map version (filter (λ x, location x = l) xs))). intros l.
  split; [apply H|]. rewrite length_map. clear H.
  induction xs as [|x xs IH]; [done|]. simpl. rewrite !filter_cons. case_decide; simpl; lia.
Qed.

(** *** Numbering *)

(** The versions of a location in a list of definitions. *)
Definition versions (l : Location) (xs : list SsaVar) : list Z :=
  map version (filter (λ x, location x = l) xs).

(** The definitions made so far have the versions 1, 2, 3, ... of their
    locations, and the counters hold the next ones; all wrap at 32 bits. *)
Definition numbered (nv : gmap Location Z) (xs : list SsaVar) : Prop :=
  ∀ l, versions l xs = map (λ k, (1 + Z.of_nat k) `mod` 2 ^ 32)%Z (seq 0 (length (versions l xs))) ∧
    default 1%Z (nv !! l) = ((1 + Z.of_nat (length (versions l xs))) `mod` 2 ^ 32)%Z.

Definition numbers (nv nv' : gmap Location Z) (xs : list SsaVar) : Prop :=
  ∀ before, numbered nv before → numbered nv' (before ++ xs).

Lemma versions_app l xs ys : versions l (xs ++ ys) = versions l xs ++ versions l ys.
Proof. unfold versions. by rewrite filter_app, map_app. Qed.
Lemma versions_one l l' v : versions l [mkVar l' v] = if decide (l' = l) then [v] else [].
Proof. unfold versions. rewrite filter_cons, filter_nil. simpl. by case_decide. Qed.

Lemma numbers_nil nv : numbers nv nv [].
Proof. intros xs H. by rewrite app_nil_r. Qed.
Lemma numbers_app nv nv1 nv2 xs ys : numbers nv nv1 xs → numbers nv1 nv2 ys → numbers nv nv2 (xs ++ ys).
Proof. intros H1 H2 b Hb. rewrite app_assoc. by apply H2, H1. Qed.

Lemma numbers_one nv l :
  let '(v, nv') := new_version nv l in numbers nv nv' [mkVar l v].
Proof.
  simpl. intros b Hb l'. rewrite versions_app, versions_one. destruct (Hb l') as [Hv Hn].
  destruct (decide (l = l')) as [->|N].
  - rewrite lookup_insert_eq, length_app, seq_app, map_app, <-Hv. simpl. rewrite Hn.
    split; [done|]. rewrite Zplus_mod_idemp_l. f_equal. lia.
  - rewrite lookup_insert_ne, app_nil_r by done. done.
Qed.

(** The step from [s] to [s'] defines [xs]. *)
Definition defined s s' (xs : list SsaVar) : Prop :=
  pushes (current_def s) (current_def s') xs ∧ numbers (next_ver s) (next_ver s') xs.

Lemma defined_nil s : defined s s [].
Proof. split; [apply pushes_nil|apply numbers_nil]. Qed.
Lemma defined_app s s1 s2 xs ys : defined s s1 xs → defined s1 s2 ys → defined s s2 (xs ++ ys).
Proof. intros [] []. split; [by eapply pushes_app|by eapply numbers_app]. Qed.
Lemma top_defined s s' xs l :
  defined s s' xs → top (current_def s') l = assigns (top (current_def s)) xs l.
Proof. intros [H _]. by apply top_pushes. Qed.

Lemma define_ok l s :
  let '(v, s') := define l s in
  defined s s' [mkVar l v] ∧ phis s' = phis s ∧ pcode_ops s' = pcode_ops s.
Proof. simpl. split; [split; [apply pushes_one|apply (numbers_one (next_ver s))]|done]. Qed.

(** *** The three folds of a block *)

Lemma alter_middle {A} (f : A → A) l1 x l2 : alter f (length l1) (l1 ++ x :: l2) = l1 ++ f x :: l2.
Proof. induction l1 as [|y l1 IH]; [done|]. csimpl. by rewrite <-IH. Qed.
Lemma alter_lookup {A} (f : A → A) i (l : list A) x : l !! i = Some x → alter f i l = <[i := f x]> l.
Proof.
  intros H. apply list_eq. intros j. destruct (decide (i = j)) as [->|N].
  - rewrite list_lookup_alter_eq, H, list_lookup_insert_eq; [done|by eapply lookup_lt_Some].
  - by rewrite list_lookup_alter_ne, list_lookup_insert_ne.
Qed.

(** The phis not yet numbered get their versions; their arguments stay. *)
Lemma rename_phis_ok bi ps2 s k ps1 :
  length ps1 = k → phis s !! bi = Some (ps1 ++ ps2) →
  ∃ ps2', let s' := foldl (rename_phi bi) s
            (imap (λ i l, (k + i, l)) (map (location ∘ out) ps2)) in
    phis s' = <[bi := ps1 ++ ps2']> (phis s) ∧ pcode_ops s' = pcode_ops s ∧
    map (location ∘ out) ps2' = map (location ∘ out) ps2 ∧ map args ps2' = map args ps2 ∧
    defined s s' (map out ps2').
Proof.
  revert s k ps1. induction ps2 as [|p ps2 IH]; intros s k ps1 Lk Hp; cbv zeta in *.
  { exists []. simpl. rewrite list_insert_id by done. split; [done|]. repeat (split; [done|]).
    apply defined_nil. }
  set (s1 := rename_phi bi s (k + 0, (location ∘ out) p)).
  destruct (define (location (out p)) s) as [v s0] eqn:Ed.
  pose proof (define_ok (location (out p)) s) as Hd. rewrite Ed in Hd.
  destruct Hd as (Hs & Hph & Hop).
  assert (phis s1 = <[bi := (ps1 ++ [set_out_version v p]) ++ ps2]> (phis s)) as E1.
  { unfold s1, rename_phi, compose. rewrite Ed. simpl. rewrite Hph, (alter_lookup _ _ _ _ Hp).
    rewrite Nat.add_0_r, <-Lk, alter_middle, <-app_assoc. done. }
  assert (pcode_ops s1 = pcode_ops s ∧ defined s s1 [mkVar (location (out p)) v]) as [E2 E3].
  { unfold s1, rename_phi, compose. by rewrite Ed. }
  assert (bi < length (phis s)) as Lb by by eapply lookup_lt_Some.
  destruct (IH s1 (S k) (ps1 ++ [set_out_version v p])) as (ps2' & H1 & H2 & H3 & H4 & H5).
  { rewrite length_app. simpl. lia. } { by rewrite E1, list_lookup_insert_eq. }
  exists (set_out_version v p :: ps2'). cbn [map]. rewrite imap_cons. cbn [foldl].
  replace (imap ((λ i l, (k + i, l)) ∘ S) (map (location ∘ out) ps2))
    with (imap (λ i l, (S k + i, l)) (map (location ∘ out) ps2))
    by (apply imap_ext; intros i x _; simpl; f_equal; lia).
  fold s1. rewrite H1, E1, list_insert_insert_eq, <-app_assoc. split; [done|].
  split; [congruence|]. split; [by rewrite H3|]. split; [by rewrite H4|].
  apply (defined_app _ s1 _ [mkVar (location (out p)) v]); done.
Qed.

Lemma omap_step {A B} (f : A → option B) x l : omap f (x :: l) = option_list (f x) ++ omap f l.
Proof. cbn. by destruct (f x). Qed.

Lemma rename_ops_ok bi fs s ops0 :
  pcode_ops s !! bi = Some ops0 →
  ∃ ops, let s' := foldl (rename_op bi) s fs in
    pcode_ops s' = <[bi := ops0 ++ ops]> (pcode_ops s) ∧ phis s' = phis s ∧
    Forall2 lifts fs ops ∧ defined s s' (omap def ops) ∧
    reads (λ _, True) (top (current_def s)) ops.
Proof.
  revert s ops0. induction fs as [|f fs IH]; intros s ops0 Ho; simpl.
  { exists []. rewrite app_nil_r, list_insert_id by done. split; [done|]. split; [done|].
    split; [constructor|]. split; [apply defined_nil|done]. }
  set (s1 := rename_op bi s f).
  assert (∃ o, pcode_ops s1 = <[bi := ops0 ++ [o]]> (pcode_ops s) ∧ phis s1 = phis s ∧
    lifts f o ∧ defined s s1 (option_list (def o)) ∧
    ∀ u, u ∈ uses o → version u = top (current_def s) (location u))
    as (o & H1 & H2 & H3 & H4 & H5).
  { unfold s1, rename_op. destruct (f_def f) as [loc|] eqn:Ef; simpl;
      rewrite (alter_lookup _ _ _ _ Ho); (eexists; split; [done|]; split; [done|]);
      (split; [split; [done|]; split; [done|]; split; [done|]; simpl;
               rewrite map_map; apply map_id|]); simpl.
    all: split; [first [exact (proj1 (define_ok loc s))|apply (defined_nil s)]|].
    all: by intros u (l & -> & _)%list_elem_of_fmap. }
  assert (bi < length (pcode_ops s)) as Lb by by eapply lookup_lt_Some.
  destruct (IH s1 (ops0 ++ [o])) as (ops & I1 & I2 & I3 & I4 & I5).
  { by rewrite H1, list_lookup_insert_eq. }
  exists (o :: ops). cbv zeta in *. cbn [foldl]. fold s1. rewrite I1, H1, list_insert_insert_eq, <-app_assoc.
  split; [done|]. split; [congruence|]. split; [by constructor|]. split.
  - rewrite omap_step. by eapply defined_app.
  - split; [by intros u Hu _; apply H5|]. eapply reads_ext; [|exact I5].
    intros l _. split; [done|]. by rewrite (top_defined _ _ _ _ H4).
Qed.

(** The argument one block gives to a phi of its successor [d]. *)
Definition fill_arg (pred : list (list nat)) (block : nat) (e : env) (d : nat) (p : PhiNode)
    : PhiNode :=
  set_arg (pred_slot pred d block) (Some (mkVar (location (out p)) (e (location (out p))))) p.

Lemma fill_arg_twice pred b e d p : fill_arg pred b e d (fill_arg pred b e d p) = fill_arg pred b e d p.
Proof. unfold fill_arg, set_arg. simpl. by rewrite list_insert_insert_eq. Qed.

Lemma fill_ok pred b ss s :
  let s' := foldl (fill_args pred b) s ss in
  current_def s' = current_def s ∧ next_ver s' = next_ver s ∧ pcode_ops s' = pcode_ops s ∧
  length (phis s') = length (phis s) ∧
  ∀ d, phis s' !! d =
    (if decide (d ∈ ss) then map (fill_arg pred b (top (current_def s)) d) else id) <$> phis s !! d.
Proof.
  revert s. induction ss as [|x ss IH]; intros s; simpl.
  { repeat (split; [done|]). intros d. by destruct (phis s !! d). }
  destruct (IH (fill_args pred b s x)) as (H1 & HN & H2 & HL & H3). simpl in *.
  split; [by rewrite H1|]. split; [by rewrite HN|]. split; [by rewrite H2|].
  split; [by rewrite HL, length_alter|]. intros d. rewrite H3. clear H1 HN H2 HL H3 IH.
  simpl. destruct (decide (x = d)) as [->|N].
  - rewrite list_lookup_alter_eq, (decide_True (P := d ∈ d :: ss)) by by left.
    destruct (phis s !! d) as [ps|]; simpl; [|done]. f_equal.
    case_decide; [|done]. rewrite map_map. apply map_ext. intros p. apply fill_arg_twice.
  - rewrite list_lookup_alter_ne by done.
    assert (d ∈ x :: ss ↔ d ∈ ss) as E by set_solver.
    by rewrite (decide_ext _ _ _ _ E).
Qed.
End facts.

(** ** The children of the dominator tree *)

Lemma adj_alter g d i x :
  d < length g → adj (alter (λ l, l ++ [i]) d g) x = if decide (x = d) then adj g d ++ [i] else adj g x.
Proof.
  intros L. unfold adj. case_decide; subst.
  - rewrite list_lookup_alter_eq. by apply lookup_lt_is_Some_2 in L as [l ->].
  - by rewrite list_lookup_alter_ne.
Qed.

Lemma dom_children_ok n idom :
  (∀ i p, parent idom i = Some p → p < n) →
  ∀ d, NoDup (adj (dom_children n idom) d) ∧
    ∀ x, x ∈ adj (dom_children n idom) d ↔ x < n ∧ parent idom x = Some d ∧ d ≠ x.
Proof.
  intros Hp. unfold dom_children.
  assert (∀ l g, NoDup l → length g = n → (∀ d, NoDup (adj g d)) →
    (∀ d x, x ∈ adj g d → x ∉ l) →
    ∀ d, let g' := foldl (λ children i,
           match mjoin (idom !! i) with
           | Some p => if decide (p ≠ i) then alter (λ l, l ++ [i]) p children else children
           | None => children
           end) g l in
      NoDup (adj g' d) ∧ ∀ x, x ∈ adj g' d ↔ x ∈ adj g d ∨ (x ∈ l ∧ parent idom x = Some d ∧ d ≠ x)) as H.
  { induction l as [|i l IH]; intros g Nl Lg Ng Hg d; simpl.
    { split; [done|]. intros x. split; [by left|]. intros [?|[?%not_elem_of_nil _]]; done. }
    apply NoDup_cons in Nl as [Ni Nl].
    assert (∃ g1, (match mjoin (idom !! i) with
           | Some p => if decide (p ≠ i) then alter (λ l, l ++ [i]) p g else g
           | None => g
           end) = g1 ∧ length g1 = n ∧
           (∀ d, NoDup (adj g1 d)) ∧
           ∀ d x, x ∈ adj g1 d ↔ x ∈ adj g d ∨ (x = i ∧ parent idom x = Some d ∧ d ≠ x))
      as (g1 & -> & L1 & N1 & M1).
    { fold (parent idom i). destruct (parent idom i) as [p|] eqn:Pi; [|exists g; naive_solver].
      case_decide as Ed; [|exists g; naive_solver].
      assert (p < length g) as Lp by (rewrite Lg; by eapply Hp).
      eexists. split; [done|]. split; [by rewrite length_alter|]. split.
      - intros x. rewrite adj_alter by done. case_decide; [|done].
        apply NoDup_app. split; [done|]. split; [|apply NoDup_singleton].
        intros y Hy ->%list_elem_of_singleton. apply (Hg _ _ Hy). by left.
      - intros x y. rewrite adj_alter by done. case_decide as Ex; subst.
        + rewrite elem_of_app, list_elem_of_singleton. naive_solver.
        + naive_solver. }
    destruct (IH g1 Nl L1 N1) with (d := d) as [R1 R2].
    { intros d' x [Hx|(-> & _)]%M1; [|done]. intros Hl. apply (Hg _ _ Hx). by right. }
    split; [done|]. intros x. rewrite R2, M1, elem_of_cons. naive_solver. }
  intros d. assert (∀ d, adj (replicate n []) d = []) as Hr.
  { intros d'. unfold adj. destruct (replicate n [] !! d') eqn:E; [|done].
    by apply lookup_replicate in E as [-> _]. }
  destruct (H (seq 0 n) (replicate n []) (NoDup_seq _ _) (length_replicate _ _)) with (d := d)
    as [R1 R2].
  { intros d'. rewrite Hr. constructor. } { intros d' x. rewrite Hr. by intros ?%not_elem_of_nil. }
  split; [done|]. intros x. rewrite R2, Hr, elem_of_seq. split.
  - intros [?%not_elem_of_nil|(? & ?)]; [done|]. split; [lia|done].
  - intros (? & ?). right. split; [lia|done].
Qed.

(** ** What a state says of a block *)

Section walk.
Context {P : Type}.
Context (block_flat : list (list (FlatOp P))) (phi_locs : list (list Location)).
Context (succ pred : list (list nat)) (idom : list (option nat)).
Implicit Types (s : Ren P) (e : env).

Notation n := (length succ).
Notation kids := (dom_children n idom).

Definition flats (c : nat) : list (FlatOp P) := default [] (block_flat !! c).
Definition heads (c : nat) : list Location := default [] (phi_locs !! c).
Definition phis_of s (c : nat) : list PhiNode := default [] (phis s !! c).
Definition outs s (c : nat) : list SsaVar := map out (phis_of s c).
Definition ops_of s (c : nat) : list (SsaOp P) := default [] (pcode_ops s !! c).
(** The arguments the phis of [d] have from [c]. *)
Definition args_from s (c d : nat) : list (option (option SsaVar)) :=
  map (λ p, args p !! pred_slot pred d c) (phis_of s d).

(** The environment after a block entered with [e]. *)
Definition block_out s e (c : nat) : env :=
  assigns (assigns e (outs s c)) (omap def (ops_of s c)).

(** The variables the block defines, in order. *)
Definition defs_of s (c : nat) : list SsaVar := outs s c ++ omap def (ops_of s c).

(** The block is renamed for the entry environment [e]. *)
Record block_ok s e (c : nat) : Prop := {
  b_outs : map location (outs s c) = heads c;
  b_ops : Forall2 lifts (flats c) (ops_of s c);
  b_reads : reads (λ _, True) (assigns e (outs s c)) (ops_of s c);
  b_args d : edge succ c d →
    args_from s c d = map (λ l, Some (Some (mkVar l (block_out s e c l)))) (heads d)
}.

(** The vectors have the shape they were allocated with. *)
Record shaped s : Prop := {
  sh_phis : length (phis s) = n;
  sh_ops : length (pcode_ops s) = n;
  sh_heads c : map location (outs s c) = heads c;
  sh_args c : Forall (λ p, length (args p) = length (adj pred c)) (phis_of s c)
}.

(** The blocks of [X] are the same in both states. *)
Definition frame (X : nat → Prop) s s' : Prop :=
  ∀ c, X c → outs s' c = outs s c ∧ ops_of s' c = ops_of s c ∧
    ∀ d, edge succ c d → args_from s' c d = args_from s c d.

Lemma frame_trans (X Y Z : nat → Prop) s s1 s2 :
  (∀ c, Z c → X c ∧ Y c) → frame X s s1 → frame Y s1 s2 → frame Z s s2.
Proof.
  intros I F1 F2 c Hc. destruct (I c Hc) as [Hx Hy].
  destruct (F1 c Hx) as (-> & -> & A1) || destruct (F1 c Hx) as (E1 & E2 & A1).
  destruct (F2 c Hy) as (E3 & E4 & A2). split; [congruence|]. split; [congruence|].
  intros d Hd. by rewrite A2, A1.
Qed.

Lemma frame_out X s s' e c : frame X s s' → X c → block_out s' e c = block_out s e c.
Proof. intros F Hc. destruct (F c Hc) as (E1 & E2 & _). unfold block_out. by rewrite E1, E2. Qed.

Lemma frame_defs X s s' c : frame X s s' → X c → defs_of s' c = defs_of s c.
Proof. intros F Hc. destruct (F c Hc) as (E1 & E2 & _). unfold defs_of. by rewrite E1, E2. Qed.

Lemma frame_block X s s' e c : frame X s s' → X c → block_ok s e c → block_ok s' e c.
Proof.
  intros F Hc [B1 B2 B3 B4]. pose proof (frame_out _ _ _ e _ F Hc) as Eo.
  destruct (F c Hc) as (E1 & E2 & E3). constructor; rewrite ?E1, ?E2; try done.
  intros d Hd. by rewrite E3, Eo, B4.
Qed.

Lemma block_out_ext s e e' c l : e l = e' l → block_out s e c l = block_out s e' c l.
Proof. intros E. unfold block_out. by apply assigns_ext, assigns_ext. Qed.

Lemma block_ok_ext s e e' c : (∀ l, e l = e' l) → block_ok s e c → block_ok s e' c.
Proof.
  intros E [B1 B2 B3 B4]. constructor; [done|done| |].
  - eapply reads_ext; [|exact B3]. intros l _. split; [done|]. by apply assigns_ext.
  - intros d Hd. rewrite B4 by done. apply map_ext. intros l. do 3 f_equal.
    by apply block_out_ext.
Qed.

(** ** One block *)

Lemma pred_slot_lookup c d : (∀ u v, u ∈ adj pred v ↔ edge succ u v) → edge succ c d →
  adj pred d !! pred_slot pred d c = Some c.
Proof.
  intros Hp E. apply Hp in E. unfold pred_slot.
  induction (adj pred d) as [|x l IH]; [by apply not_elem_of_nil in E|]. simpl.
  case_bool_decide as Ex; [by subst|]. apply elem_of_cons in E as [->|E]; [done|].
  specialize (IH E). destruct (position (λ p, bool_decide (p = c)) l) eqn:Ep; simpl in *; [done|].
  exfalso. clear IH. induction l as [|y l IH']; [by apply not_elem_of_nil in E|].
  simpl in Ep. case_bool_decide; [done|]. destruct (position _ l); [done|].
  apply elem_of_cons in E as [->|E]; [done|]. by apply IH'.
Qed.

Lemma outs_fill b e d ps : map out (map (fill_arg pred b e d) ps) = map out ps.
Proof. rewrite map_map. by apply map_ext. Qed.

Context (G : wf_graph succ pred 0).

(** What [rename_body] changes: the phis of the block are numbered and the
    arguments of its successors filled; its operations are written. *)
Record body_effect b s s' (ps : list PhiNode) (os : list (SsaOp P)) : Prop := {
  be_phis d : phis_of s' d =
    (if decide (d ∈ adj succ b) then map (fill_arg pred b (top (current_def s')) d) else id)
      (if decide (d = b) then ps else phis_of s d);
  be_ops d : ops_of s' d = if decide (d = b) then os else ops_of s d;
  be_len : length (phis s') = length (phis s) ∧ length (pcode_ops s') = length (pcode_ops s);
  be_heads : map (location ∘ out) ps = heads b;
  be_args : map args ps = map args (phis_of s b);
  be_lifts : Forall2 lifts (flats b) os;
  be_defined : defined s s' (map out ps ++ omap def os);
  be_reads : reads (λ _, True) (assigns (top (current_def s)) (map out ps)) os
}.

Lemma default_insert {A} (l : list (list A)) b x d :
  b < length l → default [] (<[b := x]> l !! d) = if decide (d = b) then x else default [] (l !! d).
Proof.
  intros L. case_decide; subst; [by rewrite list_lookup_insert_eq|by rewrite list_lookup_insert_ne].
Qed.

Lemma body_effect_ok b s :
  shaped s → b < n → ops_of s b = [] →
  ∃ ps os, body_effect b s (rename_body block_flat phi_locs succ pred b s) ps os.
Proof.
  intros Sh Lb Ob.
  assert (is_Some (phis s !! b)) as [ps Hps]
    by (apply lookup_lt_is_Some_2; by rewrite (sh_phis _ Sh)).
  assert (pcode_ops s !! b = Some []) as Hob.
  { unfold ops_of in Ob. destruct (pcode_ops s !! b) eqn:E; [by simplify_eq/=|].
    apply lookup_ge_None in E. rewrite (sh_ops _ Sh) in E. lia. }
  assert (map (location ∘ out) ps = heads b) as Hh.
  { rewrite <-(sh_heads _ Sh). unfold outs, phis_of. rewrite Hps. simpl. by rewrite map_map. }
  destruct (rename_phis_ok b ps s 0 [] eq_refl Hps) as (ps1 & A1 & A2 & A3 & A4 & A5).
  cbv zeta in *. rewrite Hh in A1, A2, A3, A5. simpl in A1.
  unfold rename_body. cbv zeta. fold (heads b) (flats b).
  change (imap (λ i l, (0 + i, l)) (heads b)) with (imap pair (heads b)) in *.
  set (s1 := foldl (rename_phi b) s (imap pair (heads b))) in *.
  assert (pcode_ops s1 !! b = Some []) as Hob1 by by rewrite A2.
  destruct (rename_ops_ok b (flats b) s1 [] Hob1) as (os & B1 & B2 & B3 & B4 & B5).
  cbv zeta in *. simpl in B1.
  set (s2 := foldl (rename_op b) s1 (flats b)) in *.
  destruct (fill_ok pred b (adj succ b) s2) as (C1 & CN & C2 & CL & C3). cbv zeta in *.
  set (s3 := foldl (fill_args pred b) s2 (adj succ b)) in *.
  exists ps1, os. constructor.
  - intros d. unfold phis_of. rewrite C3, B2, A1, C1, <-default_insert by by eapply lookup_lt_Some.
    destruct (<[b:=ps1]> (phis s) !! d); simpl; [done|by case_decide].
  - intros d. unfold ops_of. rewrite C2, B1, A2. apply default_insert. by eapply lookup_lt_Some.
  - by rewrite CL, C2, B2, B1, A1, A2, !length_insert.
  - done.
  - rewrite A4. unfold phis_of. by rewrite Hps.
  - done.
  - destruct (defined_app _ _ _ _ _ A5 B4). split; [by rewrite C1|by rewrite CN].
  - eapply reads_ext; [|exact B5]. intros l _. split; [done|]. by rewrite (top_defined _ _ _ _ A5).
Qed.

Lemma Forall_map_args (Q : nat → Prop) ps :
  Forall (λ p, Q (length (args p))) ps ↔ Forall (λ a, Q (length a)) (map args ps).
Proof. by rewrite Forall_map. Qed.

(** The operations define what was lifted. *)
Lemma lifts_defs fs (os : list (SsaOp P)) :
  Forall2 lifts fs os → map location (omap def os) = omap f_def fs.
Proof.
  induction 1 as [|f o fs os (_ & _ & Hd & _) _ IH]; [done|].
  rewrite !omap_step, map_app, IH. f_equal. rewrite <-Hd. by destruct (def o).
Qed.

Lemma map_args {A} (f : list (option SsaVar) → A) ps ps' :
  map args ps = map args ps' → map (λ p, f (args p)) ps = map (λ p, f (args p)) ps'.
Proof. intros E. by rewrite <-!(map_map args f), E. Qed.

Lemma body_ok b s :
  shaped s → b < n → ops_of s b = [] →
  let s' := rename_body block_flat phi_locs succ pred b s in
  shaped s' ∧ frame (λ c, c ≠ b) s s' ∧ block_ok s' (top (current_def s)) b ∧
  defined s s' (defs_of s' b) ∧
    map location (defs_of s' b) = pushed block_flat phi_locs b ∧
    ∀ l, top (current_def s') l = block_out s' (top (current_def s)) b l.
Proof.
  intros Sh Lb Ob s'. destruct (body_effect_ok b s Sh Lb Ob) as (ps & os & B). fold s' in B.
  assert (∀ d, outs s' d = if decide (d = b) then map out ps else outs s d) as Po.
  { intros d. unfold outs. rewrite (be_phis _ _ _ _ _ B).
    case_decide; [rewrite outs_fill|]; simpl; by case_decide. }
  assert (outs s' b = map out ps) as Pb by by rewrite Po, decide_True.
  assert (ops_of s' b = os) as Obs by by rewrite (be_ops _ _ _ _ _ B), decide_True.
  assert (∀ l, top (current_def s') l = block_out s' (top (current_def s)) b l) as Tp.
  { intros l. rewrite (top_defined _ _ _ _ (be_defined _ _ _ _ _ B)). unfold block_out.
    by rewrite Pb, Obs, assigns_app. }
  assert (map location (map out ps) = heads b) as Hh.
  { rewrite map_map. apply (be_heads _ _ _ _ _ B). }
  assert (∀ d, Forall (λ p, length (args p) = length (adj pred d))
    (if decide (d = b) then ps else phis_of s d)) as Fa.
  { intros d. case_decide as E; [|apply Sh]. rewrite E.
    apply (Forall_map_args (λ k, k = length (adj pred b))).
    rewrite (be_args _ _ _ _ _ B). apply (Forall_map_args (λ k, k = length (adj pred b))), Sh. }
  split; [|split; [|split]].
  - destruct (be_len _ _ _ _ _ B) as [L1 L2]. constructor.
    + by rewrite L1, (sh_phis _ Sh).
    + by rewrite L2, (sh_ops _ Sh).
    + intros c. rewrite Po. case_decide as E; [by rewrite E|apply Sh].
    + intros c. rewrite (be_phis _ _ _ _ _ B). specialize (Fa c).
      destruct (decide (c ∈ adj succ b)); [|exact Fa]. apply Forall_map. eapply Forall_impl; [exact Fa|].
      intros p Hp. simpl. by rewrite length_insert.
  - intros c Nc. rewrite Po, (be_ops _ _ _ _ _ B), !decide_False by done.
    split; [done|]. split; [done|]. intros d Ed. unfold args_from.
    trans (map (λ p, args p !! pred_slot pred d c) (if decide (d = b) then ps else phis_of s d)).
    + rewrite (be_phis _ _ _ _ _ B). destruct (decide (d ∈ adj succ b)) as [Eb|]; [|done].
      rewrite map_map. apply map_ext. intros p. simpl. rewrite list_lookup_insert_ne; [done|].
      intros Es. assert (adj pred d !! pred_slot pred d c = Some c) as H1
        by (by apply pred_slot_lookup; [apply G|]).
      assert (adj pred d !! pred_slot pred d b = Some b) as H2
        by (by apply pred_slot_lookup; [apply G|]). congruence.
    + case_decide as Eb; [|done]. rewrite Eb.
      by apply (map_args (λ a, a !! pred_slot pred b c)), (be_args _ _ _ _ _ B).
  - constructor.
    + by rewrite Pb.
    + rewrite Obs. apply (be_lifts _ _ _ _ _ B).
    + rewrite Pb, Obs. apply (be_reads _ _ _ _ _ B).
    + intros d Ed. unfold args_from. rewrite (be_phis _ _ _ _ _ B), decide_True by done.
      rewrite map_map. specialize (Fa d).
      trans (map (λ p, Some (Some (mkVar (location (out p))
        (block_out s' (top (current_def s)) b (location (out p))))))
        (if decide (d = b) then ps else phis_of s d)).
      * apply map_ext_Forall. eapply Forall_impl; [exact Fa|]. intros p Hp. simpl.
        rewrite list_lookup_insert_eq; [by rewrite Tp|]. rewrite Hp.
        eapply lookup_lt_Some, pred_slot_lookup; [apply G|done].
      * case_decide as Eb.
        { rewrite Eb, <-Hh, !map_map. done. }
        { rewrite <-(sh_heads _ Sh d). unfold outs. by rewrite !map_map. }
  - unfold defs_of. rewrite Pb, Obs. split; [apply (be_defined _ _ _ _ _ B)|].
    split; [|done]. rewrite map_app, Hh. unfold pushed. f_equal.
    by apply lifts_defs, (be_lifts _ _ _ _ _ B).
Qed.

(** ** One subtree *)

Context (T : idom_spec succ 0 idom).

Definition child (d c : nat) : Prop := c ∈ adj kids d.
Definition sub (b c : nat) : Prop := rtc child b c.

Lemma parent_lt i p : parent idom i = Some p → p < n.
Proof.
  intros [_ Rp]%(up_parent succ 0 idom T). apply (reach_lt succ 0); [apply G..|done].
Qed.
Lemma child_spec d c : child d c ↔ c < n ∧ parent idom c = Some d ∧ d ≠ c.
Proof. apply (dom_children_ok n idom parent_lt d). Qed.
Lemma child_reach d c : child d c → reach succ 0 d ∧ reach succ 0 c.
Proof.
  intros (_ & Pc & _)%child_spec. apply (up_parent succ 0 idom T) in Pc. tauto.
Qed.
Lemma sub_above b c : sub b c → rtc (up idom) c b.
Proof.
  induction 1 as [|b d c Hc _ IH]; [done|]. apply child_spec in Hc as (_ & Pc & _).
  by eapply rtc_r.
Qed.
Lemma above_sub b c : rtc (up idom) c b → c < n → sub b c.
Proof.
  intros R Lc. induction R as [|c d b U R IH]; [apply rtc_refl|].
  destruct (decide (d = c)) as [->|N]; [by apply IH|].
  eapply rtc_r; [apply IH; by eapply parent_lt|]. by apply child_spec.
Qed.

(** Subtrees of two children are apart, and from their root. *)
Lemma child_not_above d c : child d c → ¬ sub c d.
Proof.
  intros Hc A%sub_above. apply child_spec in Hc as (_ & Pc & N).
  apply N. apply (up_antisym succ 0 idom T); [by apply rtc_once|done].
Qed.
Lemma children_apart d c1 c2 x : child d c1 → child d c2 → sub c1 x → sub c2 x → c1 = c2.
Proof.
  intros H1 H2 A1%sub_above A2%sub_above.
  assert (rtc (up idom) c1 c2 ∨ rtc (up idom) c2 c1) as [A|A].
  { clear H1 H2. induction A1 as [|x y c1 U A1 IH]; [by left|].
    apply rtc_inv in A2 as [->|(z & U' & A2)]; [right; by eapply rtc_l|].
    unfold up in *. rewrite U in U'. simplify_eq. by apply IH. }
  all: apply rtc_inv in A as [->|(z & U & A)]; [done|exfalso].
  - pose proof (proj1 (child_spec _ _) H1) as (_ & Pc & _). unfold up in U. rewrite Pc in U.
    simplify_eq. apply (child_not_above z c2 H2). apply above_sub; [done|].
    by eapply parent_lt.
  - pose proof (proj1 (child_spec _ _) H2) as (_ & Pc & _). unfold up in U. rewrite Pc in U.
    simplify_eq. apply (child_not_above z c1 H1). apply above_sub; [done|].
    by eapply parent_lt.
Qed.

(** [c] is entered with [e] when [b] is entered with [e0]. *)
Inductive visits s : nat → env → nat → env → Prop :=
  | visit_here b e : visits s b e b e
  | visit_down b e x c e' :
      child b x → visits s x (block_out s e b) c e' → visits s b e c e'.

Lemma visits_sub s b e c e' : visits s b e c e' → sub b c.
Proof. induction 1; [apply rtc_refl|by eapply rtc_l]. Qed.

Lemma visits_frame (X : nat → Prop) s s' b e c e' :
  frame X s s' → (∀ d, sub b d → X d) → visits s' b e c e' → visits s b e c e'.
Proof.
  intros F HX V. induction V as [|b e x c e' Hc V IH]; [constructor|].
  rewrite (frame_out X s s') in IH by (done || apply HX, rtc_refl).
  eapply visit_down; [done|]. apply IH. intros d Hd. apply HX. by eapply rtc_l.
Qed.

(** The contract of a call on block [b]. *)
Definition walked b s s' : Prop :=
  shaped s' ∧ (∀ l, stack (current_def s') l = stack (current_def s) l) ∧
  frame (λ c, ¬ sub b c) s s' ∧
  (∃ order, NoDup order ∧ (∀ c, c ∈ order ↔ sub b c) ∧
    numbers (next_ver s) (next_ver s') (concat (map (defs_of s') order))) ∧
  ∀ e0 c e, (∀ l, e0 l = top (current_def s) l) → visits s' b e0 c e → block_ok s' e c.

Lemma walk_children b cs (f : Ren P → nat → option (Ren P)) s :
  (∀ x, x ∈ cs → child b x) → NoDup cs → shaped s →
  (∀ x s, x ∈ cs → shaped s → (∀ c, sub x c → ops_of s c = []) →
    ∃ s', f s x = Some s' ∧ walked x s s') →
  (∀ x c, x ∈ cs → sub x c → ops_of s c = []) →
  ∃ s', fold_opt f s cs = Some s' ∧ shaped s' ∧
    (∀ l, stack (current_def s') l = stack (current_def s) l) ∧
    frame (λ c, ∀ x, x ∈ cs → ¬ sub x c) s s' ∧
    (∃ order, NoDup order ∧ (∀ c, c ∈ order ↔ ∃ x, x ∈ cs ∧ sub x c) ∧
      numbers (next_ver s) (next_ver s') (concat (map (defs_of s') order))) ∧
    ∀ x e0 c e, x ∈ cs → (∀ l, e0 l = top (current_def s) l) → visits s' x e0 c e → block_ok s' e c.
Proof.
  intros Hc Nd. revert s. induction cs as [|x cs IH]; intros s Sh Hf Ho; simpl.
  { exists s. split; [done|]. split; [done|]. split; [done|].
    split; [by intros c _|]. split; [|by intros x e0 c e ?%not_elem_of_nil].
    exists []. split; [constructor|]. split; [set_solver|apply numbers_nil]. }
  apply NoDup_cons in Nd as [Nx Nd].
  destruct (Hf x s ltac:(by left) Sh) as (s1 & -> & S1 & K1 & F1 & O1 & V1).
  { intros c. apply Ho. by left. }
  simpl. assert (∀ y c, y ∈ cs → sub y c → ¬ sub x c) as Apart.
  { intros y c Hy Sy Sx. destruct Nx.
    by rewrite (children_apart b x y c (Hc x ltac:(by left)) (Hc y ltac:(by right)) Sx Sy). }
  destruct (IH ltac:(intros; apply Hc; by right) Nd s1) as (s2 & -> & S2 & K2 & F2 & O2 & V2); [done| | |].
  { intros y s' Hy. apply Hf. by right. }
  { intros y c Hy Sy. destruct (F1 c (Apart y c Hy Sy)) as (_ & -> & _).
    apply (Ho y); [by right|done]. }
  exists s2. split; [done|]. split; [done|]. split; [intros l; by rewrite K2|]. split.
  { eapply frame_trans; [|exact F1|exact F2]. intros c Hn. split; [apply Hn; by left|].
    intros y Hy. apply Hn. by right. }
  split.
  { destruct O1 as (o1 & N1 & M1 & B1), O2 as (o2 & N2 & M2 & B2). exists (o1 ++ o2). split; [|split].
    - apply NoDup_app. split; [done|]. split; [|done]. intros c Hc1 Hc2.
      apply M1 in Hc1. apply M2 in Hc2 as (y & Hy & Sy). by eapply Apart.
    - intros c. rewrite elem_of_app, M1, M2. setoid_rewrite elem_of_cons. naive_solver.
    - rewrite map_app, concat_app. eapply numbers_app; [|exact B2].
      rewrite (map_ext_Forall _ (defs_of s1)); [done|]. apply Forall_forall. intros c Hin.
      apply M1 in Hin. apply (frame_defs _ _ _ _ F2). intros y Hy Sy. by eapply Apart. }
  intros y e0 c e [->|Hy]%elem_of_cons He V.
  - assert (∀ d, sub x d → ∀ y, y ∈ cs → ¬ sub y d) as Ap by (intros d Sd y Hy Sy; by eapply Apart).
    eapply frame_block; [exact F2|intros z Hz; apply (Ap c); [by eapply visits_sub|done]|].
    apply (V1 e0); [done|]. by eapply visits_frame.
  - eapply V2; [done| |done]. intros l. rewrite He. unfold top. by rewrite K1.
Qed.

Lemma rename_block_ok rk fuel b s :
  (∀ b, reach succ 0 b → (0 ≤ rk b)%Z) → (∀ b c, child b c → (rk c < rk b)%Z) →
  (rk b < Z.of_nat fuel)%Z → reach succ 0 b → shaped s →
  (∀ c, sub b c → ops_of s c = []) →
  ∃ s', rename_block block_flat phi_locs succ pred kids fuel s b = Some s' ∧ walked b s s'.
Proof.
  intros Hr Hk. revert b s. induction fuel as [|fuel IH]; intros b s Lf Rb Sh Ho.
  { pose proof (Hr b Rb). lia. }
  assert (b < n) as Lb by (apply (reach_lt succ 0); [apply G..|done]).
  destruct (body_ok b s Sh Lb (Ho b (rtc_refl _ _))) as (Sh1 & F1 & B1 & P1 & Px & T1).
  set (s1 := rename_body block_flat phi_locs succ pred b s) in *.
  assert (∀ x c, child b x → sub x c → c ≠ b) as Nb.
  { intros x c Hx Sx ->. by eapply child_not_above. }
  destruct (walk_children b (adj kids b)
    (rename_block block_flat phi_locs succ pred kids fuel) s1) as (s2 & E2 & Sh2 & K2 & F2 & O2 & V2).
  - done.
  - apply (dom_children_ok n idom parent_lt b).
  - done.
  - intros x s' Hx Sh' Ho'. apply IH; [|by eapply child_reach|done|done].
    pose proof (Hk b x Hx). lia.
  - intros x c Hx Sx. destruct (F1 c (Nb x c Hx Sx)) as (_ & -> & _). apply Ho.
    by eapply rtc_l.
  - cbn [rename_block]. fold s1. rewrite E2. cbn [mbind option_bind].
    set (s3 := set_defs _ s2). exists s3. split; [done|].
    assert (shaped s3) as Sh3 by (by destruct Sh2; constructor).
    assert (∀ l, stack (current_def s3) l = stack (current_def s) l) as K3.
    { intros l. simpl. rewrite <-Px. apply pushes_pops. intros l'.
      by rewrite K2, (proj1 P1). }
    assert (frame (λ c, ∀ x, x ∈ adj kids b → ¬ sub x c) s1 s3) as F3 by exact F2.
    split; [done|]. split; [done|]. split.
    + eapply frame_trans; [|exact F1|exact F3]. intros c Nc. simpl. split.
      * intros ->. apply Nc, rtc_refl.
      * intros x Hx Sx. apply Nc. by eapply rtc_l.
    + assert (∀ x, x ∈ adj kids b → ¬ sub x b) as Nsb
        by (intros x Hx; by apply child_not_above).
      split.
      { destruct O2 as (o2 & N2 & M2 & B2). exists (b :: o2). split; [|split].
        - constructor; [|done]. intros Hb. apply M2 in Hb as (x & Hx & Sx). by apply (Nsb x).
        - intros c. rewrite elem_of_cons, M2. split.
          + intros [->|(x & Hx & Sx)]; [apply rtc_refl|by eapply rtc_l].
          + intros [->|(x & Hx & Sx)]%rtc_inv; [by left|right; by exists x].
        - simpl. rewrite (frame_defs _ s1 s3 _ F3 Nsb). eapply numbers_app; [apply P1|exact B2]. }
      intros e0 c e He V. inversion V; subst.
      * eapply block_ok_ext; [intros l; symmetry; apply He|]. by eapply frame_block.
      * assert (frame (λ _, True) s2 s3) as F23 by (intros c' _; done).
        eapply frame_block; [exact F23|done|].
        eapply V2; [done| |eapply visits_frame; [exact F23|done|done]]. intros l. rewrite T1.
        rewrite (frame_out _ s1 s3 _ _ F3 Nsb). by apply block_out_ext.
Qed.
End walk.
