(* ===== verification/SsaCorrect.v ===== *)
(** The SSA form is correct along every path of the control-flow graph: a use
    reads the version last assigned on the path, whichever path it is. Phi
    placement ([src/decompiler/ssa/phi.rs]) is the iterated dominance frontier,
    and its exception for locations defined in one block loses the property. *)

From stdpp Require Import relations.
From S2P Require Import Prelude Cfg CfgDfs CfgDom CfgFrontier Ssa SsaFacts.

(** ** [collect_def_blocks] *)

Notation def_set m loc := (default ∅ (m !! loc)).

Section placement.
Context {P : Type}.
Implicit Types (fs : list (FlatOp P)) (bf : list (list (FlatOp P))).

(** The block defines the location, across instructions. *)
Definition defines fs (loc : Location) : Prop :=
  is_instruction_scoped loc = false ∧ Some loc ∈ map f_def fs.

Lemma add_def_blocks_ok i m fs loc j :
  j ∈ (def_set (foldl (add_def_block i) m fs) loc : gset nat) ↔
    j ∈ (def_set m loc : gset nat) ∨ (j = i ∧ defines fs loc).
Proof.
  unfold defines. revert m. induction fs as [|f fs IH]; intros m; simpl.
  { split; [by left|]. intros [?|(_ & _ & ?%not_elem_of_nil)]; done. }
  rewrite IH, elem_of_cons. clear IH. unfold add_def_block.
  destruct (f_def f) as [l|]; [|intuition congruence].
  destruct (is_instruction_scoped l) eqn:El; [intuition congruence|].
  destruct (decide (l = loc)) as [->|N].
  - rewrite lookup_insert_eq. simpl. rewrite elem_of_union, elem_of_singleton.
    intuition congruence.
  - rewrite lookup_insert_ne by done. intuition congruence.
Qed.

Lemma collect_def_blocks_ok bf loc j :
  j ∈ (def_set (collect_def_blocks bf) loc : gset nat) ↔ ∃ fs, bf !! j = Some fs ∧ defines fs loc.
Proof.
  unfold collect_def_blocks.
  assert (∀ bf k m, j ∈ (def_set (foldl (λ m '(i, flat), foldl (add_def_block i) m flat) m
      (imap (λ i x, (k + i, x)) bf)) loc : gset nat) ↔
    j ∈ (def_set m loc : gset nat) ∨ ∃ i fs, j = k + i ∧ bf !! i = Some fs ∧ defines fs loc) as H.
  { clear bf. induction bf as [|fs bf IH]; intros k m.
    { simpl. split; [by left|]. by intros [?|(i & fs & _ & ? & _)]. }
    rewrite imap_cons. cbn [foldl].
    replace (imap ((λ i x, (k + i, x)) ∘ S) bf) with (imap (λ i x, (S k + i, x)) bf)
      by (apply imap_ext; intros i x _; simpl; f_equal; lia).
    rewrite IH, add_def_blocks_ok, Nat.add_0_r. split.
    - intros [[?|[-> ?]]|(i & fs' & -> & ? & ?)]; [by left| |].
      + right. exists 0, fs. split; [lia|done].
      + right. exists (S i), fs'. split; [lia|done].
    - intros [?|([|i] & fs' & -> & Hf & ?)]; [by left; left| |].
      + simpl in Hf. simplify_eq. left. right. split; [lia|done].
      + right. exists i, fs'. split; [lia|done]. }
  specialize (H bf 0 ∅). simpl in H. rewrite H, lookup_empty. simpl. set_solver.
Qed.

(** ** [place_phis] *)

Notation heads_of pl b := (default [] (pl !! b)).

Lemma place_at_ok loc pl b l c :
  l ∈ (heads_of (place_at loc pl b) c : list Location) ↔
    l ∈ (heads_of pl c : list Location) ∨ (l = loc ∧ c = b ∧ b < length pl).
Proof.
  unfold place_at. destruct (pl !! b) as [locs|] eqn:E.
  - pose proof (lookup_lt_Some _ _ _ E) as L. case_decide as D.
    + split; [by left|]. intros [?|(-> & -> & _)]; [done|]. by rewrite E.
    + destruct (decide (c = b)) as [->|N].
      * rewrite list_lookup_insert_eq, E by done. simpl.
        rewrite elem_of_app, list_elem_of_singleton. naive_solver.
      * rewrite list_lookup_insert_ne by done. naive_solver.
  - apply lookup_ge_None in E. split; [by left|]. intros [?|(_ & _ & ?)]; [done|lia].
Qed.
Lemma place_at_length loc pl b : length (place_at loc pl b) = length pl.
Proof. unfold place_at. split_cases. by rewrite length_insert. Qed.

Lemma place_ats_ok loc pl bs l c :
  let pl' := foldl (place_at loc) pl bs in
  length pl' = length pl ∧
  (l ∈ (heads_of pl' c : list Location) ↔
    l ∈ (heads_of pl c : list Location) ∨ (l = loc ∧ c ∈ bs ∧ c < length pl)).
Proof.
  revert pl. induction bs as [|b bs IH]; intros pl; simpl.
  { split; [done|]. split; [by left|]. intros [?|(_ & ?%not_elem_of_nil & _)]; done. }
  destruct (IH (place_at loc pl b)) as [L ->]. rewrite place_at_length in *.
  split; [done|]. rewrite place_at_ok, elem_of_cons. naive_solver.
Qed.

(** A block of the iterated frontier of the defining blocks. *)
Definition in_idf (df : list (gset nat)) (blocks : gset nat) (b : nat) : Prop :=
  ∃ d, d ∈ blocks ∧ tc (λ x y, y ∈ frontier df x) d b.

Lemma place_locs_ok df xs pl :
  (∀ x y, y ∈ frontier df x → y < length df) →
  (∀ l blocks d, (l, blocks) ∈ xs → d ∈ (blocks : gset nat) → d < length df) →
  length pl = length df →
  ∃ pl', fold_opt (place_loc df) pl xs = Some pl' ∧ length pl' = length df ∧
    ∀ l c, l ∈ (heads_of pl' c : list Location) ↔
      l ∈ (heads_of pl c : list Location) ∨
      (∃ blocks, (l, blocks) ∈ xs ∧ 2 ≤ size blocks ∧ c < length df ∧ in_idf df blocks c).
Proof.
  intros Hf. revert pl. induction xs as [|[loc blocks] xs IH]; intros pl Hd Lp; cbn [fold_opt].
  { exists pl. split; [done|]. split; [done|]. set_solver. }
  assert (∃ pl1, place_loc df pl (loc, blocks) = Some pl1 ∧ length pl1 = length df ∧
    ∀ l c, l ∈ (heads_of pl1 c : list Location) ↔ l ∈ (heads_of pl c : list Location) ∨
      (l = loc ∧ 2 ≤ size blocks ∧ c < length df ∧ in_idf df blocks c)) as (pl1 & -> & L1 & M1).
  { unfold place_loc. case_decide as D.
    - exists pl. split; [done|]. split; [done|]. intros l c. split; [by left|].
      intros [?|(_ & ? & _)]; [done|lia].
    - destruct (iterated_df_ok df blocks) as (R & -> & HR); [intros x Hx; eapply Hd; [by left|done]|exact Hf|]. simpl. eexists. split; [done|].
      split; [by rewrite (proj1 (place_ats_ok loc pl (ascending R) loc 0))|].
      intros l c. rewrite (proj2 (place_ats_ok loc pl (ascending R) l c)).
      rewrite elem_of_ascending, HR, Lp. unfold in_idf. split; [|naive_solver].
      intros [?|(-> & ? & ?)]; [by left|right]. split; [done|]. split; [lia|done]. }
  cbn [mbind option_bind]. destruct (IH pl1) as (pl2 & E2 & L2 & M2); [intros l' bl d ? ?; eapply Hd; [by right|done]|done|]. exists pl2. split; [done|].
  split; [done|]. intros l c. rewrite M2, M1. setoid_rewrite elem_of_cons. naive_solver.
Qed.

Lemma place_phis_ok (m : gmap Location (gset nat)) df :
  (∀ x y, y ∈ frontier df x → y < length df) →
  (∀ l d, d ∈ (def_set m l : gset nat) → d < length df) →
  ∃ pl, place_phis m df = Some pl ∧ length pl = length df ∧
    ∀ l c, l ∈ (heads_of pl c : list Location) ↔
      2 ≤ size (def_set m l : gset nat) ∧ c < length df ∧ in_idf df (def_set m l) c.
Proof.
  intros Hf Hd.
  destruct (place_locs_ok df (map (λ loc, (loc, def_set m loc)) (in_order (base.dom m)))
    (replicate (length df) []) Hf) as (pl & E & L & M).
  { intros l bl d (l' & E' & _)%list_elem_of_fmap. simplify_eq. apply Hd. }
  { by rewrite length_replicate. }
  exists pl. split; [done|]. split; [done|]. intros l c. rewrite M.
  assert (heads_of (replicate (length df) []) c = ([] : list Location)) as ->.
  { destruct (replicate (length df) [] !! c) eqn:Er; [|done].
    by apply lookup_replicate in Er as [-> _]. }
  split.
  - intros [?%not_elem_of_nil|(bl & Hb & ?)]; [done|].
    apply list_elem_of_fmap in Hb as (l' & E' & _). by simplify_eq.
  - intros (Hs & Hc & Hi). right. exists (def_set m l). split; [|done].
    apply list_elem_of_fmap. exists l. split; [done|]. unfold in_order.
    rewrite merge_sort_Permutation, elem_of_elements. apply elem_of_dom.
    destruct (m !! l); [done|]. change (2 ≤ 0) in Hs. lia.
Qed.
End placement.

(** ** The entry versions *)

Section seed.
Context {P : Type}.
Implicit Types (s : Ren P) (bf : list (list (FlatOp P))).

(** Version 1 of every function-scoped location in sight, 0 of the others. *)
Definition live_in bf : env := λ l, if decide (l ∈ all_locs bf) then 1%Z else 0%Z.

Lemma seeds_ok (ls : list Location) s :
  NoDup ls → (∀ l, l ∈ ls → next_ver s !! l = None ∧ stack (current_def s) l = []) →
  let s' := foldl (λ s loc, (define loc s).2) s ls in
  phis s' = phis s ∧ pcode_ops s' = pcode_ops s ∧
  ∀ l, stack (current_def s') l = (if decide (l ∈ ls) then [1%Z] else stack (current_def s) l) ∧
    next_ver s' !! l = (if decide (l ∈ ls) then Some 2%Z else next_ver s !! l).
Proof.
  intros Nd. revert s. induction Nd as [|x ls Nx Nd IH]; intros s Hs; cbn [foldl].
  { split; [done|]. split; [done|]. intros l. by rewrite !decide_False by apply not_elem_of_nil. }
  destruct (Hs x ltac:(by left)) as [Hn Hst].
  destruct (IH (define x s).2) as (-> & -> & H).
  { intros l Hl. simpl. rewrite stack_insert, lookup_insert_ne by (intros ->; done).
    rewrite decide_False by (intros ->; done). apply Hs. by right. }
  split; [done|]. split; [done|]. intros l. destruct (H l) as [-> ->]. simpl.
  rewrite Hn, Hst, stack_insert.
  destruct (decide (l ∈ ls)) as [Hl|Hl].
  - by rewrite !(decide_True (P := l ∈ x :: ls)) by by right.
  - destruct (decide (l = x)) as [->|N].
    + rewrite !(decide_True (P := x ∈ x :: ls)) by by left. by rewrite lookup_insert_eq.
    + rewrite !(decide_False (P := l ∈ x :: ls)) by set_solver. by rewrite lookup_insert_ne.
Qed.

Lemma in_order_spec (X : gset Location) : NoDup (in_order X) ∧ ∀ l, l ∈ in_order X ↔ l ∈ X.
Proof.
  unfold in_order. split.
  - rewrite merge_sort_Permutation. apply NoDup_elements.
  - intros l. by rewrite merge_sort_Permutation, elem_of_elements.
Qed.

Lemma seeded_ok bf phi_locs pred :
  let s := seeded bf phi_locs pred in
  phis s = blank_phis phi_locs pred ∧ pcode_ops s = replicate (length bf) [] ∧
  (∀ l, stack (current_def s) l = if decide (l ∈ all_locs bf) then [1%Z] else []) ∧
  ∀ l, top (current_def s) l = live_in bf l.
Proof.
  unfold seeded. destruct (in_order_spec (all_locs bf)) as [Nd Hin].
  destruct (seeds_ok (in_order (all_locs bf))
    (mkRen ∅ ∅ (blank_phis phi_locs pred) (replicate (length bf) []))) as (-> & -> & H).
  { done. } { intros l _. split; [apply lookup_empty|]. unfold stack. simpl. by rewrite lookup_empty. }
  split; [done|]. split; [done|].
  assert (∀ l, stack (current_def (foldl (λ s loc, (define loc s).2)
    (mkRen ∅ ∅ (blank_phis phi_locs pred) (replicate (length bf) []))
    (in_order (all_locs bf)))) l = if decide (l ∈ all_locs bf) then [1%Z] else []) as K.
  { intros l. rewrite (proj1 (H l)), (decide_ext _ _ _ _ (Hin l)).
    unfold stack. simpl. by rewrite lookup_empty. }
  split; [done|]. intros l. unfold top, live_in. rewrite K. by case_decide.
Qed.

Lemma blank_shaped bf phi_locs succ pred :
  length bf = length succ → length phi_locs = length succ →
  shaped phi_locs succ pred (seeded bf phi_locs pred) ∧
  ∀ c, ops_of (seeded bf phi_locs pred) c = [].
Proof.
  intros L1 L2. destruct (seeded_ok bf phi_locs pred) as (Hp & Ho & _). split.
  - assert (∀ c, phis_of (seeded bf phi_locs pred) c =
      map (λ loc, mkPhi (mkVar loc 0) (replicate (length (adj pred c)) None)) (heads phi_locs c)) as Pc.
    { intros c. unfold phis_of, heads. rewrite Hp. unfold blank_phis.
      rewrite list_lookup_imap. by destruct (phi_locs !! c). }
    constructor.
    + rewrite Hp. unfold blank_phis. by rewrite length_imap.
    + by rewrite Ho, length_replicate.
    + intros c. unfold outs. rewrite Pc, !map_map. apply map_id.
    + intros c. rewrite Pc. apply Forall_map, Forall_true. intros l. simpl. apply length_replicate.
  - intros c. unfold ops_of. rewrite Ho.
    destruct (replicate (length bf) [] !! c) eqn:E; [|done].
    by apply lookup_replicate in E as [-> _].
Qed.
End seed.

(** ** The renamed program along a path *)

Section correct.
Context {P : Type}.
Context (bf : list (list (FlatOp P))) (phi_locs : list (list Location)).
Context (succ pred : list (list nat)) (idom : list (option nat)) (df : list (gset nat)).
Context (G : wf_graph succ pred 0) (T : idom_spec succ 0 idom).
Context (Hentry : adj pred 0 = []).

(** The versions current when a path (last block first) enters its last block. *)
Fixpoint path_env (s : Ren P) (e : env) (l : list nat) : env :=
  match l with
  | [] | [_] => e
  | _ :: (u :: _) as l => block_out s (path_env s e l) u
  end.

Implicit Types (s : Ren P) (e : env).

Notation visits := (visits succ idom).

Lemma visits_last s b e c ec :
  visits s b e c ec → (c = b ∧ ec = e) ∨
    ∃ d ed, visits s b e d ed ∧ child succ idom d c ∧ ec = block_out s ed d.
Proof.
  induction 1 as [b e|b e x c e' Hx V [[-> ->]|(d & ed & V' & Hc & ->)]]; [by left| |].
  - right. exists b, e. split; [constructor|done].
  - right. exists d, ed. split; [by eapply visit_down|done].
Qed.

Lemma visits_snoc s b e d ed c :
  visits s b e d ed → child succ idom d c → visits s b e c (block_out s ed d).
Proof.
  induction 1 as [b e|b e x d ed Hx V IH]; intros Hc.
  - eapply visit_down; [done|constructor].
  - eapply visit_down; [done|]. by apply IH.
Qed.

Lemma visits_all s e c : c < length succ → rtc (up idom) c 0 → ∃ ec, visits s 0 e c ec.
Proof.
  intros Lc R. apply (above_sub succ pred idom G T) in R; [|done]. revert c R Lc.
  apply (rtc_ind_r (λ c, c < length succ → ∃ ec, visits s 0 e c ec)).
  - intros _. exists e. constructor.
  - intros d c _ Hc IH Lc. destruct IH as [ed V].
    { apply (child_spec succ pred idom G T) in Hc as (_ & Pc & _). by eapply parent_lt. }
    eexists. by eapply visits_snoc.
Qed.

Lemma visits_inj s e c e1 e2 : visits s 0 e c e1 → visits s 0 e c e2 → e1 = e2.
Proof.
  assert (∀ d, ¬ child succ idom d 0) as N0.
  { intros d (_ & P0 & N)%(child_spec succ pred idom G T).
    rewrite (is_entry _ _ _ T) in P0. by simplify_eq. }
  intros V1. apply visits_sub in V1 as S1. revert c S1 e1 e2 V1.
  apply (rtc_ind_r (λ c, ∀ e1 e2, visits s 0 e c e1 → visits s 0 e c e2 → e1 = e2)).
  - intros e1 e2 [[_ ->]|(d & ? & _ & Hd & _)]%visits_last; [|by destruct (N0 d)].
    intros [[_ ->]|(d & ? & _ & Hd & _)]%visits_last; [done|by destruct (N0 d)].
  - intros d c _ Hc IH e1 e2 [[-> _]|(d1 & ed1 & V1 & H1 & ->)]%visits_last; [by destruct (N0 d)|].
    intros [[-> _]|(d2 & ed2 & V2 & H2 & ->)]%visits_last; [by destruct (N0 d)|].
    apply (child_spec succ pred idom G T) in Hc as (_ & Pc & _),
      H1 as (_ & P1 & _), H2 as (_ & P2 & _).
    simplify_eq. by rewrite (IH _ _ V1 V2).
Qed.

Notation n := (length succ).
Notation defs l := (def_set (collect_def_blocks bf) l : gset nat).

(** The locations whose merges all have a phi: those defined in several blocks,
    and those whose only definition has no dominance frontier. *)
Definition merged (l : Location) : Prop :=
  is_instruction_scoped l = false ∧
  (2 ≤ size (defs l) ∨ ∀ d y, d ∈ defs l → reach succ 0 d → y ∉ frontier df d).

Lemma visits_reach s e c ec : visits s 0 e c ec → reach succ 0 c.
Proof.
  intros [[-> _]|(d & ed & _ & Hc & _)]%visits_last; [apply rtc_refl|].
  by apply (child_reach succ pred idom G T) in Hc as [_ ?].
Qed.

Section final.
Context (F : Ren P) (e0 : env).
Context (HB : ∀ c e, visits F 0 e0 c e → block_ok bf phi_locs succ pred F e c).
Context (Ldf : length df = n).
Context (Hdf : ∀ r y, y ∈ frontier df r ↔
  y < n ∧ 2 ≤ length (adj pred y) ∧ ∃ p, p ∈ adj pred y ∧ passed idom y p r).
Context (Hphi : ∀ l c, l ∈ heads phi_locs c ↔
  2 ≤ size (defs l) ∧ c < length df ∧ in_idf df (defs l) c).

(** A block passed on the way to a block without phi does not touch the location. *)
Lemma block_silent l c r e :
  merged l → l ∉ heads phi_locs c → c ∈ frontier df r → c < n → visits F 0 e0 r e →
  block_out F e r l = e l.
Proof.
  intros [Sc M] Nh Fr Lc V. destruct (HB _ _ V) as [B1 B2 _ _]. unfold block_out.
  assert (r ∈ defs l → False) as Nd.
  { intros Hr. assert (reach succ 0 r) as Rr by by eapply visits_reach.
    destruct M as [M|M]; [|by apply (M r c)]. apply Nh, Hphi. split; [done|].
    split; [lia|]. exists r. split; [done|by apply tc_once]. }
  rewrite !assigns_other; [done| |].
  - rewrite B1. intros Hr. apply Hphi in Hr as (Hs & _ & (d & Hd & R)).
    apply Nh, Hphi. split; [done|]. split; [lia|]. exists d. split; [done|by eapply tc_r].
  - rewrite (lifts_defs _ _ B2). intros Hl. apply Nd.
    apply list_elem_of_omap in Hl as (f & Hf & Hl). apply collect_def_blocks_ok.
    unfold flats in Hf. destruct (bf !! r) as [fs|] eqn:Eb; [|by apply not_elem_of_nil in Hf].
    exists fs. split; [done|]. split; [done|]. rewrite <-Hl. by apply list_elem_of_fmap_2.
Qed.

Lemma visits_parent c e d : visits F 0 e0 c e → c ≠ 0 → parent idom c = Some d →
  ∃ ed, visits F 0 e0 d ed ∧ e = block_out F ed d.
Proof.
  intros [[-> _]|(d' & ed & V & Hc & ->)]%visits_last N Pd; [done|].
  apply (child_spec succ pred idom G T) in Hc as (_ & Pc & _). simplify_eq. by exists ed.
Qed.

Lemma climb_silent l c t p et :
  merged l → l ∉ heads phi_locs c → c < n → 2 ≤ length (adj pred c) →
  parent idom c = Some t → p ∈ adj pred c → visits F 0 e0 t et →
  ∀ q, rtc (up idom) q t → rtc (up idom) p q → ∀ eq, visits F 0 e0 q eq →
  block_out F eq q l = block_out F et t l.
Proof.
  intros M Nh Lc L2 Pt Hp Vt q R. induction R as [q|q q' t U R IH]; intros Rp eq V.
  { by assert (eq = et) as -> by by eapply visits_inj. }
  assert (rtc (up idom) q t) as Rq by by eapply rtc_l.
  destruct (decide (q = t)) as [->|Nq]; [by assert (eq = et) as -> by by eapply visits_inj|].
  assert (q ≠ 0) as Nz by (intros ->; by destruct Nq; symmetry; apply (up_entry succ 0 idom T)).
  destruct (visits_parent _ _ _ V Nz U) as (eq' & V' & ->).
  rewrite <-(IH Pt Vt ltac:(by eapply rtc_r) eq' V').
  apply (block_silent l c q); try done. apply Hdf. split; [done|]. split; [done|].
  exists p. split; [done|]. split; [done|]. intros t' Pt' A. rewrite Pt in Pt'. simplify_eq.
  by destruct Nq; symmetry; apply (up_antisym succ 0 idom T).
Qed.

(** A single predecessor is the immediate dominator. *)
Lemma single_pred_up c t p :
  reach succ 0 c → c ≠ 0 → parent idom c = Some t → (∀ q, edge succ q c → q = p) →
  reach succ 0 p → edge succ p c → p = t.
Proof.
  intros Rc Nc Pt Hq Rp Ep.
  pose proof (proj1 (is_idom _ _ _ T c t Nc) Pt) as [_ (_ & _ & Im)].
  assert (p ≠ c ∧ dom succ 0 p c) as [Npc Dp] by (eapply single_pred; eauto using dom_refl).
  apply (dom_antisym succ 0 idom T); [by eapply up_parent in Pt as [_ ?]|by apply Im|].
  apply (is_dom _ _ _ T); [done|]. by apply (up_pred succ 0 idom T c).
Qed.

Lemma path_silent l c p t ep et :
  merged l → l ∉ heads phi_locs c → reach succ 0 p → edge succ p c → c ≠ 0 →
  parent idom c = Some t → visits F 0 e0 p ep → visits F 0 e0 t et →
  block_out F ep p l = block_out F et t l.
Proof.
  intros M Nh Rp Ep Nc Pt Vp Vt.
  assert (reach succ 0 c) as Rc by by eapply rtc_r.
  assert (c < n) as Lc by (apply (reach_lt succ 0); [apply G..|done]).
  assert (p ∈ adj pred c) as Hp by by apply (wg_pred _ _ _ G).
  destruct (decide (2 ≤ length (adj pred c))) as [L2|L2].
  - eapply climb_silent; try done. by eapply (up_pred succ 0 idom T).
  - assert (p = t) as ->; [|by assert (ep = et) as -> by by eapply visits_inj].
    apply (single_pred_up c); try done. intros q Eq. apply (wg_pred _ _ _ G) in Eq.
    destruct (adj pred c) as [|x [|y xs]]; simpl in L2; [by apply not_elem_of_nil in Hp| |lia].
    apply list_elem_of_singleton in Hp, Eq. congruence.
Qed.

(** Entering a block along any path, a merged location without a phi there has
    the version the walk had. *)
Lemma path_version c l :
  path succ 0 c l → ∀ e, visits F 0 e0 c e → ∀ x, merged x →
  x ∈ heads phi_locs c ∨ path_env F e0 l x = e x.
Proof.
  induction 1 as [|u c l Pu IH Eu]; intros e V x M.
  { right. assert (e = e0) as -> by (eapply visits_inj; [done|constructor]). done. }
  destruct (decide (x ∈ heads phi_locs c)) as [|Nh]; [by left|right].
  assert (c ≠ 0) as Nc.
  { intros ->. apply (wg_pred _ _ _ G) in Eu. rewrite Hentry in Eu. by apply not_elem_of_nil in Eu. }
  assert (reach succ 0 u) as Ru by (by apply path_reach in Pu as [? _]).
  assert (reach succ 0 c) as Rc by by eapply rtc_r.
  apply (is_some _ _ _ T) in Rc as Pc. destruct (parent idom c) as [t|] eqn:Pt; [|done].
  destruct (visits_parent _ _ _ V Nc Pt) as (et & Vt & ->).
  destruct (visits_all F e0 u) as [eu Vu].
  { apply (reach_lt succ 0); [apply G..|done]. }
  { apply (is_dom _ _ _ T); [done|]. intros l' P'. by eapply path_entry_in. }
  rewrite <-(path_silent x c u t eu et) by done.
  destruct (path_head _ _ _ _ Pu) as [l0 ->]. cbn [path_env]. unfold block_out.
  apply assigns_ext. destruct (IH eu Vu x M) as [Hx|Hx]; [|by apply assigns_ext].
  apply assigns_set. by rewrite (b_outs _ _ _ _ _ _ _ (HB _ _ Vu)).
Qed.

Lemma path_block_out c l e x :
  path succ 0 c l → visits F 0 e0 c e → merged x →
  assigns (path_env F e0 l) (outs F c) x = assigns e (outs F c) x.
Proof.
  intros Pl V M. destruct (path_version c l Pl e V x M) as [Hx|Hx]; [|by apply assigns_ext].
  apply assigns_set. by rewrite (b_outs _ _ _ _ _ _ _ (HB _ _ V)).
Qed.
End final.
End correct.

(** ** The whole construction *)

Section build.
Context {P : Type}.
Implicit Types (bf : list (list (FlatOp P))) (phis : list (list PhiNode)) (ops : list (list (SsaOp P))).

(** The phis and operations of a block, run on an environment. *)
Definition run_phis phis (e : env) (c : nat) : env := assigns e (map out (default [] (phis !! c))).
Definition run_block phis ops (e : env) (c : nat) : env :=
  assigns (run_phis phis e c) (omap def (default [] (ops !! c))).

(** The versions current when a path, last block first, enters its last block. *)
Fixpoint along phis ops (e : env) (l : list nat) : env :=
  match l with
  | [] | [_] => e
  | _ :: (u :: _) as l => run_block phis ops (along phis ops e l) u
  end.

(** Every merge of the location has a phi: it is defined in several blocks, or
    its one defining block dominates all it reaches. *)
Definition has_phis bf succ (x : Location) : Prop :=
  is_instruction_scoped x = false ∧
  (2 ≤ size (def_set (collect_def_blocks bf) x : gset nat) ∨
   ∀ d y, d ∈ (def_set (collect_def_blocks bf) x : gset nat) → reach succ 0 d → ¬ in_df succ 0 d y).

Lemma along_path_env (F : Ren P) e l : along (Ssa.phis F) (pcode_ops F) e l = path_env F e l.
Proof.
  induction l as [|c [|u l] IH]; [done|done|].
  change (run_block (Ssa.phis F) (pcode_ops F) (along (Ssa.phis F) (pcode_ops F) e (u :: l)) u =
          block_out F (path_env F e (u :: l)) u). by rewrite IH.
Qed.

(** What the construction computed on the way to its final state. *)
Record built bf succ pred (idom : list (option nat)) (df : list (gset nat))
    (pl : list (list Location)) (F : Ren P) : Prop := {
  bt_idom : idom_spec succ 0 idom;
  bt_df r y : y ∈ frontier df r ↔
    y < length succ ∧ 2 ≤ length (adj pred y) ∧ ∃ p, p ∈ adj pred y ∧ passed idom y p r;
  bt_len : length df = length succ;
  bt_phis l c : l ∈ heads pl c ↔
    2 ≤ size (def_set (collect_def_blocks bf) l : gset nat) ∧ c < length df ∧
    in_idf df (def_set (collect_def_blocks bf) l) c;
  bt_shaped : shaped pl succ pred F;
  bt_block c e : visits succ idom F 0 (live_in bf) c e → block_ok bf pl succ pred F e c;
  bt_order : ∃ order, NoDup order ∧ (∀ c, c ∈ order ↔ sub succ idom 0 c) ∧
    numbers (next_ver (seeded bf pl pred)) (next_ver F) (concat (map (defs_of F) order))
}.

Lemma build_ssa_built bf succ pred :
  wf_graph succ pred 0 → length bf = length succ →
  ∃ idom df pl F, build_ssa bf succ pred 0 = Some (Ssa.phis F, pcode_ops F) ∧
    built bf succ pred idom df pl F.
Proof.
  intros G Lb. destruct (build_idom_ok succ pred 0 G) as (idom & E1 & T).
  destruct (dominance_frontier_ok succ pred 0 idom G T) as (df & E2 & Ldf & Hdf).
  destruct (place_phis_ok (collect_def_blocks bf) df) as (pl & E3 & Lpl & Hpl).
  { intros x y Hy%Hdf. rewrite Ldf. apply Hy. }
  { intros l d (fs & Hd & _)%collect_def_blocks_ok. apply lookup_lt_Some in Hd. congruence. }
  destruct (is_rank _ _ _ T) as (rk & Rr & Rk).
  destruct (blank_shaped bf pl succ pred) as [Sh Bl]; [done|congruence|].
  destruct (rename_block_ok bf pl succ pred idom G T rk (S (length bf)) 0 (seeded bf pl pred))
    as (F & E4 & ShF & _ & _ & Or & W); try done.
  { intros b Rb. by apply Rr. }
  { intros b c Hc. apply (child_spec succ pred idom G T) in Hc as (Lc & Pc & Nc).
    apply Rk; [done|]. intros ->. rewrite (is_entry _ _ _ T) in Pc. by simplify_eq. }
  { rewrite Lb. pose proof (Rr 0 ltac:(apply rtc_refl)). lia. }
  { apply rtc_refl. }
  destruct (seeded_ok bf pl pred) as (_ & _ & _ & Top).
  exists idom, df, pl, F. split.
  { unfold build_ssa. rewrite E1. cbn [mbind option_bind]. rewrite E2. cbn [mbind option_bind].
    rewrite E3. cbn [mbind option_bind]. unfold rename. rewrite Lb in *. by rewrite E4. }
  constructor; try done. intros c e. apply W. intros l. by rewrite Top.
Qed.

Section run.
Context (bf : list (list (FlatOp P))) (succ pred : list (list nat)).
Context (idom : list (option nat)) (df : list (gset nat)) (pl : list (list Location)) (F : Ren P).
Context (G : wf_graph succ pred 0) (B : built bf succ pred idom df pl F).

Lemma has_phis_merged x : adj pred 0 = [] → has_phis bf succ x → merged bf succ df x.
Proof.
  intros He [Sc [M|M]]; (split; [done|]); [by left|right]. intros d y Hd Rd Hy.
  apply (M d y Hd Rd). assert (y ≠ 0).
  { intros ->. apply (bt_df _ _ _ _ _ _ _ B) in Hy as (_ & H2 & _).
    rewrite He in H2. simpl in H2. lia. }
  eapply (frontier_meaning succ pred 0 idom G (bt_idom _ _ _ _ _ _ _ B) df d y); try done.
  apply (bt_df _ _ _ _ _ _ _ B).
Qed.

Lemma visited c : reach succ 0 c → ∃ e, visits succ idom F 0 (live_in bf) c e.
Proof.
  intros Rc. pose proof (bt_idom _ _ _ _ _ _ _ B) as T.
  apply (visits_all succ pred idom G T).
  - apply (reach_lt succ 0); [apply G..|done].
  - apply (is_dom _ _ _ T); [done|]. intros l' P'. by eapply path_entry_in.
Qed.

Lemma phi_arg c d p e :
  visits succ idom F 0 (live_in bf) c e → edge succ c d → p ∈ phis_of F d →
  args p !! pred_slot pred d c =
    Some (Some (mkVar (location (out p)) (block_out F e c (location (out p))))).
Proof.
  intros V Ed Hp. pose proof (b_args _ _ _ _ _ _ _ (bt_block _ _ _ _ _ _ _ B c e V) d Ed) as B4.
  apply list_elem_of_lookup in Hp as [i Hi].
  assert (args_from pred F c d !! i = Some (args p !! pred_slot pred d c)) as H1
    by (unfold args_from; by rewrite list_lookup_fmap, Hi).
  rewrite B4, list_lookup_fmap in H1.
  rewrite <-(sh_heads _ _ _ _ (bt_shaped _ _ _ _ _ _ _ B) d) in H1. unfold outs in H1.
  rewrite !list_lookup_fmap, Hi in H1. simpl in H1. by injection H1.
Qed.

Lemma run_path c l :
  adj pred 0 = [] → path succ 0 c l →
  let e := along (Ssa.phis F) (pcode_ops F) (live_in bf) l in
  Forall2 lifts (default [] (bf !! c)) (default [] (pcode_ops F !! c)) ∧
  reads (has_phis bf succ) (run_phis (Ssa.phis F) e c) (default [] (pcode_ops F !! c)) ∧
  ∀ d p, edge succ c d → p ∈ default [] (Ssa.phis F !! d) → has_phis bf succ (location (out p)) →
    args p !! pred_slot pred d c =
      Some (Some (mkVar (location (out p))
        (run_block (Ssa.phis F) (pcode_ops F) e c (location (out p))))).
Proof.
  intros He Pa. cbv zeta. rewrite along_path_env.
  assert (reach succ 0 c) as Rc by (by apply path_reach in Pa as [? _]).
  destruct (visited c Rc) as [e V].
  assert (∀ x, has_phis bf succ x →
    run_phis (Ssa.phis F) (path_env F (live_in bf) l) c x = run_phis (Ssa.phis F) e c x) as Hr.
  { intros x Hx%has_phis_merged; [|done]. destruct B as [T Hdf Ldf Hpl _ HB _].
    eapply (path_block_out bf pl succ pred idom df G T He F (live_in bf)); done. }
  destruct (bt_block _ _ _ _ _ _ _ B c e V) as [B1 B2 B3 B4]. split; [exact B2|]. split.
  - eapply reads_ext; [|exact B3]. intros x Hx. split; [done|]. symmetry. by apply Hr.
  - intros d p Ed Hp Hx. rewrite (phi_arg c d p e V Ed Hp). do 3 f_equal.
    unfold run_block. apply assigns_ext. symmetry. by apply Hr.
Qed.

(** *** Single assignment *)

Lemma seeds_numbered : numbered (next_ver (seeded bf pl pred))
  (map (λ l, mkVar l 1) (in_order (all_locs bf))).
Proof.
  destruct (in_order_spec (all_locs bf)) as [Nd Hin].
  destruct (seeds_ok (in_order (all_locs bf))
    (mkRen ∅ ∅ (blank_phis pl pred) (replicate (length bf) []) : Ren P)) as (_ & _ & H); [done| |].
  { intros l _. split; [apply lookup_empty|]. unfold stack. simpl. by rewrite lookup_empty. }
  intros l. fold (seeded bf pl pred) in H. rewrite (proj2 (H l)).
  cbn [next_ver]. rewrite lookup_empty.
  assert (versions l (map (λ l, mkVar l 1) (in_order (all_locs bf))) =
    if decide (l ∈ in_order (all_locs bf)) then [1%Z] else []) as ->; [|by case_decide].
  clear H Hin. induction Nd as [|x ls Nx Nd IH]; [done|].
  pose proof (versions_app l [mkVar x 1] (map (λ l, mkVar l 1) ls)) as Ea.
  simpl in Ea. simpl. rewrite Ea, versions_one, IH. clear Ea.
  destruct (decide (x = l)) as [->|N].
  - rewrite decide_False, decide_True by (done || by left). done.
  - assert (l ∈ x :: ls ↔ l ∈ ls) as El by (rewrite elem_of_cons; naive_solver).
    by rewrite (decide_ext _ _ [1%Z] [] El).
Qed.

Lemma run_numbered : ∃ order, NoDup order ∧ (∀ c, c ∈ order ↔ reach succ 0 c) ∧
  numbered (next_ver F) (map (λ l, mkVar l 1) (in_order (all_locs bf)) ++
    concat (map (defs_of F) order)).
Proof.
  pose proof (bt_idom _ _ _ _ _ _ _ B) as T.
  destruct (bt_order _ _ _ _ _ _ _ B) as (order & Nd & M & Nu). exists order. split; [done|].
  split; [|by apply Nu, seeds_numbered]. intros c. rewrite M. split.
  - intros S. apply (sub_above succ pred idom G T) in S.
    destruct (parent idom c) as [d|] eqn:Pc; [by eapply up_parent in Pc as [? _]|].
    apply rtc_inv in S as [->|(y & U & _)]; [apply rtc_refl|]. unfold up in U. congruence.
  - intros Rc. apply (above_sub succ pred idom G T).
    + apply (is_dom _ _ _ T); [done|]. intros l' P'. by eapply path_entry_in.
    + apply (reach_lt succ 0); [apply G..|done].
Qed.
End run.

(** Numbered definitions are distinct while the counters do not wrap. *)
Lemma numbered_versions nv xs l :
  numbered nv xs → (Z.of_nat (length (versions l xs)) < 2 ^ 32 - 1)%Z →
  versions l xs = map (λ k, 1 + Z.of_nat k)%Z (seq 0 (length (versions l xs))).
Proof.
  intros H L. destruct (H l) as [E _]. rewrite E at 1. apply map_ext_in. intros k Hk.
  apply in_seq in Hk. rewrite Z.mod_small; lia.
Qed.

Lemma versions_lookup l (xs : list SsaVar) i x :
  xs !! i = Some x → location x = l →
  versions l xs !! length (versions l (take i xs)) = Some (version x).
Proof.
  intros Hi Hl. pose proof (take_drop_middle _ _ _ Hi) as E.
  generalize dependent (take i xs). generalize dependent (drop (S i) xs). intros xs2 xs1 <-.
  rewrite versions_app, lookup_app_r, Nat.sub_diag by done.
  change (x :: xs2) with ([x] ++ xs2). rewrite versions_app.
  destruct x as [lx vx]. rewrite versions_one, decide_True by done. done.
Qed.

Lemma numbered_NoDup nv xs :
  numbered nv xs → (∀ l, Z.of_nat (length (versions l xs)) < 2 ^ 32 - 1)%Z →
  NoDup xs ∧ Forall (λ x, version x ≠ 0%Z) xs.
Proof.
  intros H L.
  assert (∀ i x, xs !! i = Some x →
    version x = (1 + Z.of_nat (length (versions (location x) (take i xs))))%Z) as Hv.
  { intros i x Hi. pose proof (versions_lookup _ _ _ _ Hi eq_refl) as Hk.
    rewrite (numbered_versions nv _ _ H (L _)), list_lookup_fmap in Hk.
    apply fmap_Some in Hk as (k & Hk & ->). apply lookup_seq in Hk as [-> _]. lia. }
  split.
  - apply NoDup_alt. intros i j x Hi Hj.
    pose proof (Hv _ _ Hi) as V1. pose proof (Hv _ _ Hj) as V2.
    assert (∀ i j, xs !! i = Some x → i < j →
      length (versions (location x) (take i xs)) < length (versions (location x) (take j xs))) as Mono.
    { clear i j Hi Hj V1 V2. intros i j Hi Lij.
      replace (take j xs) with (take i xs ++ [x] ++ take (j - S i) (drop (S i) xs)).
      - rewrite !versions_app, !length_app. destruct x as [lx vx].
        rewrite versions_one, decide_True by done. simpl. lia.
      - rewrite app_assoc, <-(take_S_r _ _ _ Hi).
        rewrite <-(take_drop (S i) (take j xs)), take_take, Nat.min_l by lia.
        by rewrite skipn_firstn_comm. }
    destruct (Nat.lt_trichotomy i j) as [Lt|[->|Lt]]; [|done|].
    + pose proof (Mono _ _ Hi Lt). lia.
    + pose proof (Mono _ _ Hj Lt). lia.
  - apply Forall_lookup. intros i x Hi. rewrite (Hv _ _ Hi). lia.
Qed.
End build.

(** ** No undefined use *)

Lemma assigns_from (e : env) xs l :
  assigns e xs l = e l ∨ ∃ x, x ∈ xs ∧ location x = l ∧ version x = assigns e xs l.
Proof.
  induction xs as [|x xs IH] using rev_ind; [by left|].
  rewrite assigns_app. simpl. unfold assign. case_decide as E.
  - right. exists x. split; [apply elem_of_app; right; by left|]. by subst.
  - destruct IH as [IH|(y & Hy & IH)]; [by left|right].
    exists y. split; [apply elem_of_app; by left|done].
Qed.

Lemma reads_from {P} (e : env) (ops : list (SsaOp P)) o u :
  reads (λ _, True) e ops → o ∈ ops → u ∈ uses o →
  version u = e (location u) ∨ ∃ x, x ∈ omap def ops ∧ location x = location u ∧ version x = version u.
Proof.
  revert e. induction ops as [|o' ops IH]; intros e R Ho Hu; [by apply not_elem_of_nil in Ho|].
  destruct R as [R1 R2]. rewrite omap_step. apply elem_of_cons in Ho as [<-|Ho].
  - left. by apply R1.
  - destruct (IH _ R2 Ho Hu) as [E|(x & Hx & ?)].
    + destruct (assigns_from e (option_list (def o')) (location u)) as [E'|(x & Hx & Lx & Vx)].
      * left. congruence.
      * right. exists x. split; [apply elem_of_app; by left|]. split; [done|congruence].
    + right. exists x. split; [apply elem_of_app; by right|done].
Qed.

Section undefined.
Context {P : Type} (bf : list (list (FlatOp P))) (succ pred : list (list nat)).
Context (idom : list (option nat)) (df : list (gset nat)) (pl : list (list Location)) (F : Ren P).
Context (G : wf_graph succ pred 0) (B : built bf succ pred idom df pl F).

(** A version at the entry of a block is the live-in one or was defined. *)
Lemma visits_from c e l :
  visits succ idom F 0 (live_in bf) c e →
  e l = live_in bf l ∨ ∃ d x, reach succ 0 d ∧ x ∈ defs_of F d ∧ location x = l ∧ version x = e l.
Proof.
  pose proof (bt_idom _ _ _ _ _ _ _ B) as T. intros V.
  pose proof (visits_sub _ _ _ _ _ _ _ V) as S. revert c S e V.
  apply (rtc_ind_r (λ c, ∀ e, visits succ idom F 0 (live_in bf) c e →
    e l = live_in bf l ∨ ∃ d x, reach succ 0 d ∧ x ∈ defs_of F d ∧ location x = l ∧ version x = e l)).
  - intros e [[_ ->]|(d & ed & _ & Hd & _)]%visits_last; [by left|].
    apply (child_spec succ pred idom G T) in Hd as (_ & P0 & N).
    rewrite (is_entry _ _ _ T) in P0. by simplify_eq.
  - intros d c _ Hc IH e [[-> ->]|(d' & ed & V & Hc' & ->)]%visits_last; [by left|].
    apply (child_spec succ pred idom G T) in Hc as (_ & Pc & _).
    apply (child_spec succ pred idom G T) in Hc' as (_ & Pc' & _). simplify_eq.
    unfold block_out. rewrite <-assigns_app.
    destruct (assigns_from ed (defs_of F d) l) as [E|(x & Hx & Lx & Vx)].
    + unfold defs_of in E. rewrite E. by apply IH.
    + right. exists d, x. split; [by apply (visits_reach succ pred idom G T) in V|done].
Qed.

Lemma use_from c o u :
  reach succ 0 c → o ∈ ops_of F c → u ∈ uses o →
  version u = live_in bf (location u) ∨
  ∃ d x, reach succ 0 d ∧ x ∈ defs_of F d ∧ location x = location u ∧ version x = version u.
Proof.
  intros Rc Ho Hu. destruct (visited bf succ pred idom df pl F G B c Rc) as [e V].
  destruct (bt_block _ _ _ _ _ _ _ B c e V) as [_ _ R _].
  destruct (reads_from _ _ _ _ R Ho Hu) as [E|(x & Hx & Lx)].
  - destruct (assigns_from e (outs F c) (location u)) as [E'|(x & Hx & Lx & Vx)].
    + destruct (visits_from c e (location u) V) as [E2|(d & x & Rd & Hx & Lx & Vx)].
      * left. congruence.
      * right. exists d, x. split; [done|]. split; [done|]. split; [done|congruence].
    + right. exists c, x. split; [done|]. split; [apply elem_of_app; by left|].
      split; [done|congruence].
  - right. exists c, x. split; [done|]. split; [apply elem_of_app; by right|done].
Qed.

Lemma use_live_in c o u :
  reach succ 0 c → o ∈ ops_of F c → u ∈ uses o → is_instruction_scoped (location u) = false →
  live_in bf (location u) = 1%Z.
Proof.
  intros Rc Ho Hu Sc. destruct (visited bf succ pred idom df pl F G B c Rc) as [e V].
  destruct (bt_block _ _ _ _ _ _ _ B c e V) as [_ L _ _].
  apply list_elem_of_lookup in Ho as [i Hi].
  destruct (Forall2_lookup_r _ _ _ _ _ L Hi) as (f & Hf & _ & _ & _ & Hl).
  unfold live_in. rewrite decide_True; [done|]. unfold all_locs, flats in *.
  destruct (bf !! c) as [fs|] eqn:Eb; [|done]. apply elem_of_list_to_set.
  rewrite list_elem_of_In, in_concat. exists (concat (map flat_locs fs)).
  split; [apply in_map_iff; exists fs; split; [done|]; by eapply list_elem_of_In, list_elem_of_lookup_2|].
  apply in_concat. exists (flat_locs f).
  split; [apply in_map_iff; exists f; split; [done|]; by eapply list_elem_of_In, list_elem_of_lookup_2|].
  apply list_elem_of_In. unfold flat_locs. apply list_elem_of_filter. split; [done|].
  apply elem_of_app. right. rewrite <-Hl. by apply list_elem_of_fmap_2.
Qed.
End undefined.

(** ** The claims *)

(** C2: the SSA form is correct along every path. For a graph whose entry is block 0
    and has no predecessors, the construction ends; every reachable block keeps
    its lifted operations; and on every path to it, each use of a location whose
    merges have phis reads the version last assigned on that path, the live-in
    version where there is none, and each phi argument for an edge out of the
    block is the version current at its end. *)
Theorem ssa_uses_reach {P} (bf : list (list (FlatOp P))) succ pred :
  wf_graph succ pred 0 → adj pred 0 = [] → length bf = length succ →
  ∃ phis ops, build_ssa bf succ pred 0 = Some (phis, ops) ∧
    ∀ c l, path succ 0 c l →
      let e := along phis ops (live_in bf) l in
      Forall2 lifts (default [] (bf !! c)) (default [] (ops !! c)) ∧
      reads (has_phis bf succ) (run_phis phis e c) (default [] (ops !! c)) ∧
      ∀ d p, edge succ c d → p ∈ default [] (phis !! d) → has_phis bf succ (location (out p)) →
        args p !! pred_slot pred d c =
          Some (Some (mkVar (location (out p)) (run_block phis ops e c (location (out p))))).
Proof.
  intros G He Lb. destruct (build_ssa_built bf succ pred G Lb) as (idom & df & pl & F & E & B).
  exists (Ssa.phis F), (pcode_ops F). split; [done|]. intros c l Pa. by eapply run_path.
Qed.

(** The diamond whose arms both define rax. *)
Definition two_arms : list (list (FlatOp unit)) :=
  [[]; [mkFlat 1 tt (Some rax) []]; [mkFlat 2 tt (Some rax) []]; [mkFlat 3 tt None [rax]]].

Lemma ssa_uses_reach_witness :
  ∃ phis ops, build_ssa two_arms diamond_succ diamond_pred 0 = Some (phis, ops) ∧
    ∀ c l, path diamond_succ 0 c l →
      let e := along phis ops (live_in two_arms) l in
      Forall2 lifts (default [] (two_arms !! c)) (default [] (ops !! c)) ∧
      reads (has_phis two_arms diamond_succ) (run_phis phis e c) (default [] (ops !! c)) ∧
      ∀ d p, edge diamond_succ c d → p ∈ default [] (phis !! d) →
        has_phis two_arms diamond_succ (location (out p)) →
        args p !! pred_slot diamond_pred d c =
          Some (Some (mkVar (location (out p)) (run_block phis ops e c (location (out p))))).
Proof. exact (ssa_uses_reach two_arms diamond_succ diamond_pred diamond_wf eq_refl eq_refl). Defined.

(** C20: the form is single-assignment. While no location has 2^32 - 1 versions, the
    variables defined by the phis and the operations of the reachable blocks,
    each block once, and the live-in variables are pairwise different, and none
    has the version 0 of undefined values. *)
Theorem ssa_single_assignment {P} (bf : list (list (FlatOp P))) succ pred :
  wf_graph succ pred 0 → length bf = length succ →
  ∃ phis ops order, build_ssa bf succ pred 0 = Some (phis, ops) ∧
    NoDup order ∧ (∀ c, c ∈ order ↔ reach succ 0 c) ∧
    let xs := map (λ l, mkVar l 1) (in_order (all_locs bf)) ++
      concat (map (λ c, map out (default [] (phis !! c)) ++ omap def (default [] (ops !! c))) order) in
    (∀ l, Z.of_nat (length (versions l xs)) < 2 ^ 32 - 1)%Z →
    NoDup xs ∧ Forall (λ x, version x ≠ 0%Z) xs.
Proof.
  intros G Lb. destruct (build_ssa_built bf succ pred G Lb) as (idom & df & pl & F & E & B).
  destruct (run_numbered bf succ pred idom df pl F G B) as (order & Nd & M & Nu).
  exists (Ssa.phis F), (pcode_ops F), order. split; [done|]. split; [done|]. split; [done|].
  cbv zeta. intros L. by eapply numbered_NoDup.
Qed.

Lemma ssa_single_assignment_witness :
  ∃ phis ops order, build_ssa two_arms diamond_succ diamond_pred 0 = Some (phis, ops) ∧
    NoDup order ∧ (∀ c, c ∈ order ↔ reach diamond_succ 0 c) ∧
    let xs := map (λ l, mkVar l 1) (in_order (all_locs two_arms)) ++
      concat (map (λ c, map out (default [] (phis !! c)) ++ omap def (default [] (ops !! c))) order) in
    (∀ l, Z.of_nat (length (versions l xs)) < 2 ^ 32 - 1)%Z →
    NoDup xs ∧ Forall (λ x, version x ≠ 0%Z) xs.
Proof. exact (ssa_single_assignment two_arms diamond_succ diamond_pred diamond_wf eq_refl). Defined.

(** What [verify_no_uninitialized_register_uses] checks. While no location has
    2^32 - 1 versions, no use of a function-scoped location in a reachable block
    has version 0; it is the live-in variable or one defined in a reachable block. *)
Theorem ssa_no_undefined_use {P} (bf : list (list (FlatOp P))) succ pred :
  wf_graph succ pred 0 → length bf = length succ →
  ∃ phis ops order, build_ssa bf succ pred 0 = Some (phis, ops) ∧
    (∀ c, c ∈ order ↔ reach succ 0 c) ∧
    let xs := map (λ l, mkVar l 1) (in_order (all_locs bf)) ++
      concat (map (λ c, map out (default [] (phis !! c)) ++ omap def (default [] (ops !! c))) order) in
    (∀ l, Z.of_nat (length (versions l xs)) < 2 ^ 32 - 1)%Z →
    ∀ c o u, c ∈ order → o ∈ default [] (ops !! c) → u ∈ uses o →
      is_instruction_scoped (location u) = false → version u ≠ 0%Z ∧ u ∈ xs.
Proof.
  intros G Lb. destruct (build_ssa_built bf succ pred G Lb) as (idom & df & pl & F & E & B).
  destruct (run_numbered bf succ pred idom df pl F G B) as (order & Nd & M & Nu).
  exists (Ssa.phis F), (pcode_ops F), order. split; [done|]. split; [done|].
  cbv zeta. intros L c o u Hc%M Ho Hu Sc.
  destruct (numbered_NoDup _ _ Nu L) as [_ Nz]. rewrite Forall_forall in Nz.
  assert (u ∈ map (λ l, mkVar l 1) (in_order (all_locs bf)) ++ concat (map (defs_of F) order)) as Hin;
    [|split; [by apply Nz|done]].
  pose proof (use_live_in bf succ pred idom df pl F G B c o u Hc Ho Hu Sc) as Li.
  destruct u as [l v]. simpl in *. apply elem_of_app.
  destruct (use_from bf succ pred idom df pl F G B c o _ Hc Ho Hu) as [V|(d & x & Rd & Hx & Lx & Vx)].
  - left. simpl in V. rewrite Li in V. subst. apply list_elem_of_fmap. exists l. split; [done|].
    apply in_order_spec. unfold live_in in Li. by case_decide.
  - right. destruct x as [lx vx]. simpl in *. subst. apply list_elem_of_In, in_concat.
    exists (defs_of F d). split; [apply in_map; by apply list_elem_of_In, M|by apply list_elem_of_In].
Qed.

Lemma ssa_no_undefined_use_witness :
  ∃ phis ops order, build_ssa two_arms diamond_succ diamond_pred 0 = Some (phis, ops) ∧
    (∀ c, c ∈ order ↔ reach diamond_succ 0 c) ∧
    let xs := map (λ l, mkVar l 1) (in_order (all_locs two_arms)) ++
      concat (map (λ c, map out (default [] (phis !! c)) ++ omap def (default [] (ops !! c))) order) in
    (∀ l, Z.of_nat (length (versions l xs)) < 2 ^ 32 - 1)%Z →
    ∀ c o u, c ∈ order → o ∈ default [] (ops !! c) → u ∈ uses o →
      is_instruction_scoped (location u) = false → version u ≠ 0%Z ∧ u ∈ xs.
Proof. exact (ssa_no_undefined_use two_arms diamond_succ diamond_pred diamond_wf eq_refl). Defined.

(** [place_phis] places a location at the head of a block exactly when several
    blocks define it, across instructions, and the block is in the iterated
    dominance frontier of those blocks. *)
Theorem place_phis_iterated {P} (bf : list (list (FlatOp P))) df :
  length bf = length df → Forall (set_Forall (λ y, y < length df)) df →
  ∃ pl, place_phis (collect_def_blocks bf) df = Some pl ∧ length pl = length df ∧
    ∀ l c, l ∈ (default [] (pl !! c) : list Location) ↔
      ∃ blocks : gset nat,
        (∀ j, j ∈ blocks ↔ ∃ fs, bf !! j = Some fs ∧ is_instruction_scoped l = false ∧
           Some l ∈ map f_def fs) ∧
        2 ≤ size blocks ∧ c < length df ∧
        ∃ d, d ∈ blocks ∧ tc (λ x y, y ∈ (default ∅ (df !! x) : gset nat)) d c.
Proof.
  intros Lb Hf. destruct (place_phis_ok (collect_def_blocks bf) df) as (pl & E & L & M).
  { intros x y. unfold frontier. destruct (df !! x) as [fr|] eqn:Ex; [|set_solver].
    intros Hy. rewrite Forall_lookup in Hf. exact (Hf _ _ Ex _ Hy). }
  { intros l d (fs & Hd & _)%collect_def_blocks_ok. rewrite <-Lb. by eapply lookup_lt_Some. }
  exists pl. split; [done|]. split; [done|]. intros l c. rewrite M. split.
  - intros H. exists (def_set (collect_def_blocks bf) l). split; [|done].
    intros j. apply collect_def_blocks_ok.
  - intros (blocks & Hb & H).
    assert (blocks = def_set (collect_def_blocks bf) l) as ->; [|done].
    apply set_eq. intros j. rewrite Hb, collect_def_blocks_ok. done.
Qed.

(** A location with one defining block gets no phi, although the live-in version
    is a second definition. When one arm of a diamond defines rax and the join
    reads it, the use reads the live-in version 1, also on the path through the
    arm, where the version last assigned is 2. *)
Theorem single_definition_misses_phi :
  let bf := [[]; [mkFlat 1 tt (Some rax) []]; []; [mkFlat 3 tt None [rax]]] in
  ∃ phis ops, build_ssa bf diamond_succ diamond_pred 0 = Some (phis, ops) ∧
    path diamond_succ 0 3 [3; 1; 0] ∧ path diamond_succ 0 3 [3; 2; 0] ∧
    concat (map uses (default [] (ops !! 3))) = [mkVar rax 1] ∧
    run_phis phis (along phis ops (live_in bf) [3; 1; 0]) 3 rax = 2%Z ∧
    run_phis phis (along phis ops (live_in bf) [3; 2; 0]) 3 rax = 1%Z.
Proof.
  cbv zeta. eexists _, _. split; [vm_compute; reflexivity|].
  assert (path diamond_succ 0 0 [0]) as P0 by constructor.
  assert (path diamond_succ 0 1 [1; 0]) as P1 by (eapply path_snoc; [done|by left]).
  assert (path diamond_succ 0 2 [2; 0]) as P2 by (eapply path_snoc; [done|by right; left]).
  split; [by eapply path_snoc; [done|left]|]. split; [by eapply path_snoc; [done|left]|].
  split; [reflexivity|]. split; vm_compute; reflexivity.
Qed.

(** The walk starts at block 0 whatever the entry. When the entry is block 1 and
    block 0 follows it, the dominator tree is rooted at block 1 but only block 0
    is renamed: the operations of the entry block are missing from the result. *)
Theorem nonzero_entry_loses_block :
  let bf := [[mkFlat 2 tt None [rax]]; [mkFlat 1 tt (Some rax) []]] in
  wf_graph [[]; [0]] [[1]; []] 1 ∧ reach [[]; [0]] 1 1 ∧
  ∃ phis ops, build_ssa bf [[]; [0]] [[1]; []] 1 = Some (phis, ops) ∧
    ops !! 1 = Some [] ∧ concat (map uses (default [] (ops !! 0))) = [mkVar rax 1].
Proof.
  cbv zeta. split; [apply wf_graph_check; [simpl; lia|done|..];
    (eapply bool_decide_unpack; vm_compute; exact I)|].
  split; [apply rtc_refl|]. eexists _, _. split; [vm_compute; reflexivity|]. done.
Qed.
