(* ===== verification/Pcode.v ===== *)
(** What the passes over the SSA form observe of an operation of the decoder
    crate ([rsleigh_api::PcodeOp], a library): its variant, for the variants
    they match on, and the operands they look at.

    The operation type itself stays a parameter of the SSA form; [PcodeView] is
    the observation. *)

From S2P Require Import Prelude.

(** [pcode_ir::AddressSpaceId], as decompiler/hir.rs lists it. *)
Inductive AddressSpaceId := Const | RegisterSpace | UniqueSpace | Ram.

(** [rsleigh_api::Varnode] *)
Record Varnode := mkVarnode { space : AddressSpaceId; offset : Z; vn_size : Z }.

Inductive PcodeOp :=
  | Copy (input : Varnode)
  | Load (ptr : Varnode)
  | Store (ptr : Varnode)
  | IntAdd (left right : Varnode)
  | IntSub (left right : Varnode)
  | IntXor
  | IntSLess
  | IntLess
  | Branch (dest : Varnode)
  | CBranch
  | BranchInd (dest : Varnode)
  | Call (dest : Varnode)
  | CallInd (dest : Varnode)
  | CallOther
  | Return
  | OtherOp.

Class PcodeView (P : Type) := view : P → PcodeOp.

#[export] Instance pcode_view : PcodeView PcodeOp := id.
