(* ===== verification/Simplify.v ===== *)
(** SSA simplification, [src/decompiler/ssa/simplify.rs]: copy and constant
    propagation through a union-find, collapse of trivial phis, and removal of
    dead operations.

    The pass looks at a P-code operation through [PcodeView]. *)

From S2P Require Import Prelude Cfg Ssa Pcode.

#[export] Instance SsaVar_eq_dec : EqDecision SsaVar.
Proof. solve_decision. Defined.
#[export] Instance SsaVar_countable : Countable SsaVar.
Proof.
  refine (inj_countable' (λ v, (location v, version v)) (λ x, mkVar x.1 x.2) _). by intros [].
Defined.

(** ** The report *)

Record SsaConstant := mkConstant { sc_va : Z; sc_value : Z; sc_size : Z }.
Record SsaCopy := mkCopy { def_va : Z; target_va : Z }.
Record SsaAnalysis := mkAnalysis {
  op_count_before : nat;
  op_count_after : nat;
  copies_propagated : nat;
  constants_propagated : nat;
  phis_collapsed : nat;
  dead_ops_removed : nat;
  constants : list SsaConstant;
  copies : list SsaCopy
}.

Definition count_constant (c : SsaConstant) (a : SsaAnalysis) : SsaAnalysis :=
  mkAnalysis (op_count_before a) (op_count_after a) (copies_propagated a)
    (S (constants_propagated a)) (phis_collapsed a) (dead_ops_removed a) (constants a ++ [c]) (copies a).
Definition count_copy (c : SsaCopy) (a : SsaAnalysis) : SsaAnalysis :=
  mkAnalysis (op_count_before a) (op_count_after a) (S (copies_propagated a))
    (constants_propagated a) (phis_collapsed a) (dead_ops_removed a) (constants a) (copies a ++ [c]).
Definition count_phi (a : SsaAnalysis) : SsaAnalysis :=
  mkAnalysis (op_count_before a) (op_count_after a) (copies_propagated a)
    (constants_propagated a) (S (phis_collapsed a)) (dead_ops_removed a) (constants a) (copies a).
Definition count_after (after : nat) (a : SsaAnalysis) : SsaAnalysis :=
  mkAnalysis (op_count_before a) after (copies_propagated a) (constants_propagated a)
    (phis_collapsed a) (op_count_before a - after - copies_propagated a - phis_collapsed a)
    (constants a) (copies a).

(** ** Union-find *)

Notation Parents := (gmap SsaVar SsaVar).

(** [find], with path compression. *)
Fixpoint find_root (fuel : nat) (parent : Parents) (v : SsaVar) : option (SsaVar * Parents) :=
  match parent !! v with
  | Some next =>
      if decide (next = v) then Some (v, parent)
      else
        match fuel with
        | 0 => None
        | S fuel =>
            '(root, parent) ← find_root fuel parent next;
            Some (root, <[v := root]> parent)
        end
  | None => Some (v, parent)
  end.

(** A chain of parents has no repetitions. *)
Definition find (parent : Parents) (v : SsaVar) : option (SsaVar * Parents) :=
  find_root (size parent) parent v.

(** Links the root of [d] to the root of [t]; [true] when they differed. *)
Definition union (parent : Parents) (d t : SsaVar) : option (bool * Parents) :=
  '(rd, parent) ← find parent d;
  '(rt, parent) ← find parent t;
  if decide (rd = rt) then Some (false, parent) else Some (true, <[rd := rt]> parent).

Inductive Resolved := RVar (v : SsaVar) | RConst (c : Z * Z).
#[export] Instance Resolved_eq_dec : EqDecision Resolved.
Proof. solve_decision. Defined.

Notation Consts := (gmap SsaVar (Z * Z)).

Definition resolve_var (parent : Parents) (const_val : Consts) (v : SsaVar)
    : option (Resolved * Parents) :=
  '(f, parent) ← find parent v;
  match (match const_val !! f with Some c => Some c | None => const_val !! v end) with
  | Some c => Some (RConst c, parent)
  | None => Some (RVar f, parent)
  end.

(** ** The passes *)

Section passes.
Context {P : Type} `{PcodeView P}.
Notation SsaOp := (SsaOp P).

Definition is_side_effect (op : SsaOp) : bool :=
  match kind op with
  | Phi _ => false
  | Pcode p =>
      match view p with
      | Store _ | Load _ | Branch _ | CBranch | BranchInd _ | Call _ | CallInd _ | Return | CallOther => true
      | _ => false
      end
  end.
Definition is_return (op : SsaOp) : bool :=
  match kind op with
  | Pcode p => match view p with Return => true | _ => false end
  | _ => false
  end.
Definition is_copy (op : SsaOp) : bool :=
  match kind op with
  | Pcode p => match view p with Copy _ => true | _ => false end
  | _ => false
  end.
Definition phi_args (op : SsaOp) : list SsaVar :=
  match kind op with Phi p => omap id (args p) | _ => [] end.

(** Where each variable is defined; the last definition wins. *)
Definition def_to_idx (work : list SsaOp) : gmap SsaVar nat :=
  foldl (λ m '(i, op), match def op with Some d => <[d := i]> m | None => m end)
    ∅ (imap pair work).

(** Pass 1, one operation. *)
Definition analyse_copy (work : list SsaOp) (s : Parents * Consts * SsaAnalysis) (op : SsaOp)
    : option (Parents * Consts * SsaAnalysis) :=
  let '(parent, const_val, an) := s in
  match kind op, def op with
  | Pcode p, Some d =>
      match view p with
      | Copy input =>
          match space input with
          | Const =>
              Some (parent, <[d := (offset input, vn_size input)]> const_val,
                    count_constant (mkConstant (va op) (offset input) (vn_size input)) an)
          | _ =>
              match uses op with
              | target :: _ =>
                  '(linked, parent) ← union parent d target;
                  if (linked : bool) then
                    let target_va :=
                      default 0%Z (i ← def_to_idx work !! target; va <$> work !! i) in
                    Some (parent, const_val, count_copy (mkCopy (va op) target_va) an)
                  else Some (parent, const_val, an)
              | [] => Some (parent, const_val, an)
              end
          end
      | _ => Some s
      end
  | _, _ => Some s
  end.

(** The loop over the arguments of one phi: the common value, if all agree. *)
Fixpoint common_arg (parent : Parents) (const_val : Consts) (args : list (option SsaVar))
    (resolved : option Resolved) : option (option Resolved * Parents) :=
  match args with
  | [] => Some (resolved, parent)
  | None :: _ => Some (None, parent)
  | Some v :: args =>
      '(rv, parent) ← resolve_var parent const_val v;
      match resolved with
      | Some r => if decide (r = rv) then common_arg parent const_val args resolved
                  else Some (None, parent)
      | None => common_arg parent const_val args (Some rv)
      end
  end.

(** Pass 2, one operation; the flag is [changed]. *)
Definition collapse_phi (s : Parents * Consts * SsaAnalysis * bool) (op : SsaOp)
    : option (Parents * Consts * SsaAnalysis * bool) :=
  let '(parent, const_val, an, changed) := s in
  match kind op with
  | Phi phi =>
      '(r, parent) ← common_arg parent const_val (args phi) None;
      match r with
      | Some (RVar t) =>
          '(linked, parent) ← union parent (out phi) t;
          if (linked : bool) then Some (parent, const_val, count_phi an, true)
          else Some (parent, const_val, an, changed)
      | Some (RConst c) => Some (parent, <[out phi := c]> const_val, an, changed)
      | None => Some (parent, const_val, an, changed)
      end
  | Pcode _ => Some s
  end.

(** [while changed && guard <= work.len()] *)
Fixpoint collapse_rounds (rounds : nat) (work : list SsaOp) (s : Parents * Consts * SsaAnalysis)
    : option (Parents * Consts * SsaAnalysis) :=
  match rounds with
  | 0 => Some s
  | S rounds =>
      let '(parent, const_val, an) := s in
      '(parent, const_val, an, changed) ← fold_opt collapse_phi (parent, const_val, an, false) work;
      if (changed : bool) then collapse_rounds rounds work (parent, const_val, an)
      else Some (parent, const_val, an)
  end.

(** Pass 3. *)
Fixpoint find_all (parent : Parents) (vs : list SsaVar) : option (list SsaVar * Parents) :=
  match vs with
  | [] => Some ([], parent)
  | v :: vs =>
      '(r, parent) ← find parent v;
      '(rs, parent) ← find_all parent vs;
      Some (r :: rs, parent)
  end.
Fixpoint find_args (parent : Parents) (vs : list (option SsaVar))
    : option (list (option SsaVar) * Parents) :=
  match vs with
  | [] => Some ([], parent)
  | None :: vs =>
      '(rs, parent) ← find_args parent vs;
      Some (None :: rs, parent)
  | Some v :: vs =>
      '(r, parent) ← find parent v;
      '(rs, parent) ← find_args parent vs;
      Some (Some r :: rs, parent)
  end.

Definition repoint (parent : Parents) (op : SsaOp) : option (SsaOp * Parents) :=
  '(us, parent) ← find_all parent (uses op);
  match kind op with
  | Phi phi =>
      '(rs, parent) ← find_args parent (args phi);
      Some (mkOp (va op) (Phi (mkPhi (out phi) rs)) (def op) us, parent)
  | Pcode p => Some (mkOp (va op) (Pcode p) (def op) us, parent)
  end.

Fixpoint repoint_all (parent : Parents) (work : list SsaOp) : option (list SsaOp * Parents) :=
  match work with
  | [] => Some ([], parent)
  | op :: work =>
      '(op, parent) ← repoint parent op;
      '(work, parent) ← repoint_all parent work;
      Some (op :: work, parent)
  end.

(** Pass 4. [live.insert(i)], pushing when it is new. *)
Definition mark (s : gset nat * list nat) (i : nat) : gset nat * list nat :=
  let '(live, stack) := s in
  if decide (i ∈ live) then s else ({[i]} ∪ live, stack ++ [i]).

Definition is_rax (v : SsaVar) : bool := bool_decide (location v = Register 0).

Definition seed_effect (s : gset nat * list nat) (x : nat * SsaOp) : gset nat * list nat :=
  let '(i, op) := x in if is_side_effect op then mark s i else s.

(** A definition of RAX and the root it was propagated to. *)
Definition seed_rax (defs : gmap SsaVar nat) (s : gset nat * list nat * Parents) (x : nat * SsaOp)
    : option (gset nat * list nat * Parents) :=
  let '(live, stack, parent) := s in
  let '(i, op) := x in
  match def op with
  | Some d =>
      if is_rax d then
        let m := mark (live, stack) i in
        '(root, parent) ← find parent d;
        Some (match defs !! root with
              | Some di => if decide (root = d) then m else if is_rax root then m else mark m di
              | None => m
              end, parent)
      else Some s
  | None => Some s
  end.

Definition mark_def (defs : gmap SsaVar nat) (s : gset nat * list nat) (v : SsaVar)
    : gset nat * list nat :=
  match defs !! v with Some di => mark s di | None => s end.

(** [while let Some(i) = stack.pop()] *)
Fixpoint mark_loop (fuel : nat) (defs : gmap SsaVar nat) (work : list SsaOp)
    (s : gset nat * list nat) : option (gset nat) :=
  let '(live, stack) := s in
  match vec_pop stack with
  | None => Some live
  | Some (i, stack) =>
      match fuel with
      | 0 => None
      | S fuel =>
          op ← work !! i;
          mark_loop fuel defs work
            (foldl (mark_def defs) (foldl (mark_def defs) (live, stack) (uses op)) (phi_args op))
      end
  end.

(** Unmarks an operation that uses its own definition. *)
Definition drop_self (s : gset nat * Parents) (x : nat * SsaOp) : option (gset nat * Parents) :=
  let '(live, parent) := s in
  let '(i, op) := x in
  if is_side_effect op || is_copy op then Some s
  else
    match def op with
    | Some d =>
        '(d, parent) ← find parent d;
        if decide (d ∈ uses op ∨ d ∈ phi_args op) then Some (live ∖ {[i]}, parent)
        else Some (live, parent)
    | None => Some s
    end.

(** The operations of block [bi], given where each comes from. *)
Definition rebuild (work : list (nat * SsaOp)) (block_of : list nat) (live : gset nat) (bi : nat)
    (b : SsaBlock P) : SsaBlock P :=
  mkSsaBlock bi (sb_entry_va b)
    (map snd (filter (λ x, block_of !! x.1 = Some bi ∧ x.1 ∈ live) work))
    (predecessor_ids b) (successor_ids b).

Definition flatten (ssa : SsaFunction P) : list SsaOp := concat (map sb_ops (blocks ssa)).
Definition block_of (ssa : SsaFunction P) : list nat :=
  concat (imap (λ bi b, replicate (length (sb_ops b)) bi) (blocks ssa)).

Definition simplify (ssa : SsaFunction P) : option (SsaFunction P * SsaAnalysis) :=
  let work := flatten ssa in
  let defs := def_to_idx work in
  let an := mkAnalysis (length work) 0 0 0 0 0 [] [] in
  '(parent, const_val, an) ← fold_opt (analyse_copy work) (∅, ∅, an) work;
  '(parent, const_val, an) ← collapse_rounds (S (length work)) work (parent, const_val, an);
  '(work, parent) ← repoint_all parent work;
  let s := foldl seed_effect (∅, []) (imap pair work) in
  '(s, parent) ← (if existsb is_return work
                  then fold_opt (seed_rax defs) (s, parent) (imap pair work)
                  else Some (s, parent));
  live ← mark_loop (length work) defs work s;
  '(live, parent) ← fold_opt drop_self (live, parent) (imap pair work);
  let out := imap (rebuild (imap pair work) (block_of ssa) live) (blocks ssa) in
  Some (mkSsaFunction (sf_entry_va ssa) (bitness ssa) out (image_base ssa),
        count_after (length (concat (map sb_ops out))) an).
End passes.

(** ** Tests of simplify.rs *)

Module SamplePcode.
Definition op (va : Z) (v : PcodeOp) (d : option SsaVar) (us : list SsaVar) : SsaOp PcodeOp :=
  mkOp va (Pcode v) d us.
Definition vn (offset : Z) : Varnode := mkVarnode RegisterSpace offset 8.
Definition reg (offset v : Z) : SsaVar := mkVar (Register offset) v.
Definition one_block (ops : list (SsaOp PcodeOp)) : SsaFunction PcodeOp :=
  mkSsaFunction 0x1000 64 [mkSsaBlock 0 0x1000 ops [] []] 0x140000000.
End SamplePcode.
Import SamplePcode.

(** B = A; C = B; return C. *)
Example copy_chain :
  option_map (λ r, (map (λ o, (va o, uses o)) (concat (map sb_ops (blocks r.1))), copies_propagated r.2))
    (simplify (one_block [op 1 (Copy (vn 16)) (Some (reg 8 2)) [reg 16 1];
                          op 2 (Copy (vn 8)) (Some (reg 24 2)) [reg 8 2];
                          op 3 Return None [reg 24 2]]))
  = Some ([(3%Z, [reg 16 1])], 2).
Proof. vm_compute. reflexivity. Qed.
