(* ===== verification/SimplifyCorrect.v ===== *)
(** What [simplify] of decompiler/ssa/simplify.rs guarantees. First the parts of
    [Simplify]: the union-find implements a function to representatives, the
    passes end, and what they compute. [tree p rep] says that the map [p] is a
    forest in which the root of every variable [v] is [rep v]; the passes are
    described through [rep] only. The claims follow. *)

From S2P Require Import Prelude Cfg Ssa SsaFacts Pcode Simplify.

(** ** The union-find *)

Inductive root (p : Parents) : SsaVar → SsaVar → Prop :=
  | root_here v : p !! v = None → root p v v
  | root_up v w r : p !! v = Some w → root p w r → root p v r.

Definition ranked (p : Parents) (rank : SsaVar → nat) : Prop :=
  ∀ x y, p !! x = Some y → rank y < rank x.

Definition tree (p : Parents) (rep : SsaVar → SsaVar) : Prop :=
  (∃ rank, ranked p rank) ∧ ∀ v, root p v (rep v).

(** The representatives after [union d t]. *)
Definition merge (rep : SsaVar → SsaVar) (d t v : SsaVar) : SsaVar :=
  if decide (rep v = rep d) then rep t else rep v.

Lemma tree_empty : tree ∅ id.
Proof. split; [exists (λ _, 0); by intros ??|]. intros v. by constructor. Qed.

Lemma root_det p v r s : root p v r → root p v s → r = s.
Proof.
  intros H. revert s. induction H as [v E|v w r E H IH]; intros s Hs; inversion Hs; simplify_eq; auto.
Qed.

Lemma root_none p v r : root p v r → p !! r = None.
Proof. by induction 1. Qed.

Lemma root_rank p rank v r : ranked p rank → root p v r → v = r ∨ rank r < rank v.
Proof.
  intros R. induction 1 as [|v w r E H [->|L]]; [by left|right; by apply R|].
  right. specialize (R _ _ E). lia.
Qed.

Section forest.
Context (p : Parents) (rep : SsaVar → SsaVar) (T : tree p rep).

Lemma tree_rep v r : root p v r → rep v = r.
Proof. destruct T as [_ H]. intros. by eapply root_det. Qed.

Lemma tree_up v w : p !! v = Some w → rep v = rep w.
Proof. intros E. apply tree_rep. eapply root_up; [done|]. apply T. Qed.

Lemma tree_root v : p !! rep v = None.
Proof. destruct T as [_ H]. by eapply root_none. Qed.

Lemma tree_here v : p !! v = None → rep v = v.
Proof. intros. apply tree_rep. by constructor. Qed.

Lemma tree_idem v : rep (rep v) = rep v.
Proof. apply tree_here, tree_root. Qed.

Lemma tree_compress v w : p !! v = Some w → tree (<[v := rep v]> p) rep.
Proof.
  intros E. destruct T as [[rank R] H]. split.
  - exists rank. intros x y [[<- <-]|[N Exy]]%lookup_insert_Some; [|by apply R].
    destruct (root_rank p rank v (rep v)) as [L|L]; auto.
    pose proof (tree_root v) as N. rewrite <-L in N. congruence.
  - intros x. generalize (H x). generalize (rep x). intros r Hr.
    assert (∀ u, v ≠ u → p !! u = None → root (<[v:=rep v]> p) u u) as Here.
    { intros. constructor. by rewrite lookup_insert_ne. }
    induction Hr as [u Eu|u y r Eu Hr IH].
    + apply Here; [congruence|done].
    + destruct (decide (v = u)) as [<-|Ne].
      * assert (rep v = r) as <- by (apply tree_rep; by eapply root_up).
        eapply root_up; [apply lookup_insert_eq|]. apply Here; [|apply tree_root].
        intros L. pose proof (tree_root v) as N. rewrite <-L in N. congruence.
      * eapply root_up; [by rewrite lookup_insert_ne|done].
Qed.
End forest.

(** The variables of rank at most [n] bound the length of a chain. *)
Definition below (p : Parents) (rank : SsaVar → nat) (n : nat) : gset SsaVar :=
  filter (λ x, rank x ≤ n) (base.dom p).

Lemma below_step p rank v w :
  ranked p rank → p !! v = Some w → size (below p rank (rank w)) < size (below p rank (rank v)).
Proof.
  intros R E. pose proof (R _ _ E). apply subset_size. split.
  - intros x. unfold below. rewrite !elem_of_filter. intros [? ?]. split; [lia|done].
  - intros S. assert (v ∈ below p rank (rank w)) as [? _]%elem_of_filter; [|lia].
    apply S, elem_of_filter. split; [done|]. by eapply elem_of_dom_2.
Qed.

Lemma find_root_ok fuel p rep rank v :
  tree p rep → ranked p rank → size (below p rank (rank v)) ≤ fuel →
  ∃ p', find_root fuel p v = Some (rep v, p') ∧ tree p' rep ∧ base.dom p' = base.dom p.
Proof.
  intros T R. revert v. induction fuel as [|fuel IH]; intros v F; cbn [find_root].
  all: destruct (p !! v) as [w|] eqn:E;
    [|exists p; rewrite (tree_here p rep T) by done; split_and!; try done; by f_equal].
  all: pose proof (below_step _ _ _ _ R E); rewrite decide_False by (intros ->; specialize (R _ _ E); lia).
  { lia. }
  destruct (IH w) as (p1 & -> & T1 & D1); [lia|]. cbn.
  rewrite <-(tree_up p rep T v w E). eexists. split; [done|].
  assert (v ∈ base.dom p1) as [w1 E1]%elem_of_dom by (rewrite D1; by eapply elem_of_dom_2).
  split; [by eapply tree_compress|]. rewrite dom_insert_L, D1.
  apply subseteq_union_1_L, singleton_subseteq_l. by eapply elem_of_dom_2.
Qed.

Lemma find_ok p rep v :
  tree p rep → ∃ p', find p v = Some (rep v, p') ∧ tree p' rep.
Proof.
  intros T. destruct (T) as [[rank R] _].
  destruct (find_root_ok (size p) p rep rank v) as (p' & ? & ? & _); [done..| |eauto].
  rewrite <-size_dom. apply subseteq_size. unfold below. intros x. rewrite elem_of_filter. tauto.
Qed.

Lemma tree_link p rep d t :
  tree p rep → rep d ≠ rep t → tree (<[rep d := rep t]> p) (merge rep d t).
Proof.
  intros T N. destruct (T) as [[rank R] H]. split.
  - exists (λ x, if decide (x = rep t) then 0 else S (rank x)).
    intros x y [[<- <-]|[Nx E]]%lookup_insert_Some.
    + rewrite decide_True, decide_False by done. lia.
    + specialize (R _ _ E). pose proof (tree_root p rep T t).
      rewrite (decide_False (P := x = rep t)) by congruence. case_decide; lia.
  - intros v. unfold merge.
    assert (root (<[rep d := rep t]> p) (rep t) (rep t)) as Ht.
    { constructor. rewrite lookup_insert_ne by done. by eapply tree_root. }
    generalize (H v). generalize (rep v). intros r Hr. induction Hr as [v E|v w r E Hr IH].
    + case_decide as Ed; [|constructor; by rewrite lookup_insert_ne].
      subst. eapply root_up; [apply lookup_insert_eq|done].
    + eapply root_up; [|done]. rewrite lookup_insert_ne; [done|].
      intros <-. rewrite (tree_root p rep T) in E. done.
Qed.

Lemma tree_ext p rep rep' : (∀ v, rep v = rep' v) → tree p rep → tree p rep'.
Proof. intros E [R H]. split; [done|]. intros v. rewrite <-E. apply H. Qed.

Lemma union_ok p rep d t :
  tree p rep →
  ∃ p', union p d t = Some (bool_decide (rep d ≠ rep t), p') ∧ tree p' (merge rep d t).
Proof.
  intros T. unfold union.
  destruct (find_ok p rep d T) as (p1 & -> & T1). cbn.
  destruct (find_ok p1 rep t T1) as (p2 & -> & T2). cbn.
  case_decide as E.
  - rewrite bool_decide_false by tauto. eexists. split; [done|].
    eapply tree_ext; [|done]. intros v. unfold merge. case_decide; congruence.
  - rewrite bool_decide_true by done. eexists. split; [done|]. by apply tree_link.
Qed.

(** ** Passes 1 and 2 *)

Section passes.
Context {P : Type} `{PcodeView P}.
Implicit Types (op : SsaOp P) (work : list (SsaOp P)).

(** A valuation of the variables satisfies the equation of an operation: a copy
    defines the value it copies, and a phi has the value of one of its
    arguments. [κ] is the value of a constant of an offset and size. *)
Definition equation {V} (ρ : SsaVar → V) (κ : Z * Z → V) op : Prop :=
  match kind op, def op with
  | Phi phi, _ =>
      args phi ≠ [] → Forall is_Some (args phi) →
      ∃ v, Some v ∈ args phi ∧ ρ (out phi) = ρ v
  | Pcode p, Some d =>
      match view p with
      | Copy input =>
          match space input, uses op with
          | Const, _ => ρ d = κ (offset input, vn_size input)
          | _, t :: _ => ρ d = ρ t
          | _, [] => True
          end
      | _ => True
      end
  | _, None => True
  end.

(** What passes 1 and 2 have derived follows from the equations. *)
Definition sound work (rep : SsaVar → SsaVar) (const_val : Consts) : Prop :=
  ∀ (V : Type) (ρ : SsaVar → V) κ, (∀ op, op ∈ work → equation ρ κ op) →
    (∀ v, ρ (rep v) = ρ v) ∧ (∀ v c, const_val !! v = Some c → ρ v = κ c).

Definition analysed work (before : nat) (s : Parents * Consts * SsaAnalysis) : Prop :=
  ∃ rep, tree s.1.1 rep ∧ sound work rep s.1.2 ∧ op_count_before s.2 = before.

Lemma sound_merge work rep cv d t :
  sound work rep cv →
  (∀ (V : Type) (ρ : SsaVar → V) κ, (∀ op, op ∈ work → equation ρ κ op) → ρ d = ρ t) →
  sound work (merge rep d t) cv.
Proof.
  intros S E V ρ κ HE. destruct (S V ρ κ HE) as [S1 S2]. split; [|done].
  intros v. unfold merge. case_decide as D; [|done].
  rewrite S1, <-(E V ρ κ HE), <-(S1 d), <-D. apply S1.
Qed.

Lemma sound_const work rep cv d c :
  sound work rep cv →
  (∀ (V : Type) (ρ : SsaVar → V) κ, (∀ op, op ∈ work → equation ρ κ op) → ρ d = κ c) →
  sound work rep (<[d := c]> cv).
Proof.
  intros S E V ρ κ HE. destruct (S V ρ κ HE) as [S1 S2]. split; [done|].
  intros v c' [[<- <-]|[_ ?]]%lookup_insert_Some; eauto.
Qed.

Lemma analyse_copy_ok work before s op :
  op ∈ work → analysed work before s →
  ∃ s', analyse_copy work s op = Some s' ∧ analysed work before s'.
Proof.
  intros Hop (rep & T & S & B). destruct s as [[p cv] an]. cbn [fst snd] in *.
  unfold analyse_copy. assert (Keep : analysed work before (p, cv, an)) by (by exists rep).
  destruct (kind op) as [|pc] eqn:K; [by eauto|]. destruct (def op) as [d|] eqn:D; [|by eauto].
  destruct (view pc) as [input| | | | | | | | | | | | | | |] eqn:Vw; try by eauto.
  assert (∀ t us, space input ≠ Const → uses op = t :: us →
    ∀ (V : Type) (ρ : SsaVar → V) κ, (∀ op, op ∈ work → equation ρ κ op) → ρ d = ρ t) as Eq.
  { intros t us Sp U V ρ κ HE. specialize (HE op Hop). unfold equation in HE.
    rewrite K, D, Vw, U in HE. by destruct (space input). }
  destruct (space input) eqn:Sp.
  { eexists. split; [done|]. exists rep. split; [done|]. split; [|done]. apply sound_const; [done|].
    intros V ρ κ HE. specialize (HE op Hop). unfold equation in HE. by rewrite K, D, Vw, Sp in HE. }
  all: destruct (uses op) as [|t us] eqn:U; [by eauto|];
    destruct (union_ok p rep d t T) as (p' & -> & T'); cbn;
    assert (sound work (merge rep d t) cv) as S' by (apply sound_merge; [done|]; by eapply Eq);
    case_match; eexists; (split; [done|]); by exists (merge rep d t).
Qed.

(** What [resolve_var] answers. *)
Definition resolution (rep : SsaVar → SsaVar) (cv : Consts) (v : SsaVar) : Resolved :=
  match (match cv !! rep v with Some c => Some c | None => cv !! v end) with
  | Some c => RConst c
  | None => RVar (rep v)
  end.

Lemma resolve_var_ok p rep cv v :
  tree p rep → ∃ p', resolve_var p cv v = Some (resolution rep cv v, p') ∧ tree p' rep.
Proof.
  intros T. unfold resolve_var, resolution. destruct (find_ok p rep v T) as (p' & -> & T'). cbn.
  case_match; eauto.
Qed.

Lemma common_arg_ok p rep cv vs r0 :
  tree p rep →
  ∃ r p', common_arg p cv vs r0 = Some (r, p') ∧ tree p' rep ∧
    ∀ x, r = Some x →
      (r0 = None ∧ vs ≠ [] ∨ r0 = Some x) ∧
      Forall (λ a, ∃ v, a = Some v ∧ resolution rep cv v = x) vs.
Proof.
  revert p r0. induction vs as [|[v|] vs IH]; intros p r0 T; cbn [common_arg].
  - exists r0, p. split_and!; [done..|]. intros x ->. split; [by right|constructor].
  - destruct (resolve_var_ok p rep cv v T) as (p1 & -> & T1). cbn.
    destruct r0 as [r|]; [destruct (decide (r = resolution rep cv v)) as [->|]|].
    + destruct (IH p1 (Some (resolution rep cv v)) T1) as (r & p2 & E & T2 & Hr).
      exists r, p2. split_and!; [done..|]. intros x Hx.
      destruct (Hr x Hx) as [[[? ?]|?] Hall]; simplify_eq. split; [by right|].
      constructor; eauto.
    + exists None, p1. by split_and!.
    + destruct (IH p1 (Some (resolution rep cv v)) T1) as (r & p2 & E & T2 & Hr).
      exists r, p2. split_and!; [done..|]. intros x Hx.
      destruct (Hr x Hx) as [[[? ?]|?] Hall]; simplify_eq. split; [by left|].
      constructor; eauto.
  - exists None, p. by split_and!.
Qed.

(** A phi whose arguments agree has their value. *)
Lemma common_value work rep cv op phi x :
  op ∈ work → kind op = Phi phi → sound work rep cv → args phi ≠ [] →
  Forall (λ a, ∃ v, a = Some v ∧ resolution rep cv v = x) (args phi) →
  ∀ (V : Type) (ρ : SsaVar → V) κ, (∀ op, op ∈ work → equation ρ κ op) →
    ρ (out phi) = match x with RVar t => ρ t | RConst c => κ c end.
Proof.
  intros Hop K S NE Hall V ρ κ HE. destruct (S V ρ κ HE) as [S1 S2].
  specialize (HE op Hop). unfold equation in HE. rewrite K in HE.
  destruct HE as (v & Hv & ->); [done| |].
  { eapply Forall_impl; [done|]. intros a (v & -> & _). by eexists. }
  rewrite Forall_forall in Hall. destruct (Hall _ Hv) as (v' & [= <-] & <-).
  unfold resolution. destruct (cv !! rep v) as [c|] eqn:E; [rewrite <-S1; by apply S2|].
  destruct (cv !! v) as [c|] eqn:E2; [by apply S2|]. by rewrite S1.
Qed.

Lemma collapse_phi_ok work before s b op :
  op ∈ work → analysed work before s →
  ∃ s' b', collapse_phi (s, b) op = Some (s', b') ∧ analysed work before s'.
Proof.
  intros Hop (rep & T & S & B). destruct s as [[p cv] an]. cbn [fst snd] in *.
  unfold collapse_phi. destruct (kind op) as [phi|pc] eqn:K; [|by do 2 eexists; split; [done|exists rep]].
  destruct (common_arg_ok p rep cv (args phi) None T) as (r & p1 & -> & T1 & Hr). cbn.
  destruct r as [x|]; [|by do 2 eexists; split; [done|exists rep]].
  destruct (Hr x) as [[[_ NE]|?] Hall]; [done| |done].
  pose proof (common_value work rep cv op phi x Hop K S NE Hall) as Val. destruct x as [t|c].
  - destruct (union_ok p1 rep (out phi) t T1) as (p2 & -> & T2). cbn.
    apply sound_merge with (d := out phi) (t := t) in S; [|done].
    case_match; do 2 eexists; (split; [done|]); by exists (merge rep (out phi) t).
  - do 2 eexists. split; [done|]. exists rep. split; [done|]. split; [|done]. by apply sound_const.
Qed.

Lemma collapse_rounds_ok rounds work before s :
  analysed work before s →
  ∃ s', collapse_rounds rounds work s = Some s' ∧ analysed work before s'.
Proof.
  revert s. induction rounds as [|n IH]; intros s A; cbn [collapse_rounds]; [eauto|].
  destruct s as [[p cv] an].
  destruct (fold_opt_inv (λ x, analysed work before x.1) collapse_phi work ((p, cv, an), false))
    as ([s' b'] & -> & A'); [|done|].
  { intros [s b] op Hop Hs. destruct (collapse_phi_ok work before s b op Hop Hs) as (s' & b' & ? & ?).
    by exists (s', b'). }
  cbn. destruct s' as [[p' cv'] an']. destruct b'; [by apply IH|eauto].
Qed.

(** Both passes. *)
Lemma analyse_ok work an :
  ∃ p cv an' rep,
    (s ← fold_opt (analyse_copy work) (∅, ∅, an) work; collapse_rounds (S (length work)) work s)
      = Some (p, cv, an') ∧
    tree p rep ∧ sound work rep cv ∧ op_count_before an' = op_count_before an.
Proof.
  destruct (fold_opt_inv (analysed work (op_count_before an)) (analyse_copy work) work (∅, ∅, an))
    as (s1 & -> & A1).
  { intros s op Hop. by apply analyse_copy_ok. }
  { exists id. split; [apply tree_empty|]. split; [|done]. intros V ρ κ _. by split. }
  destruct (collapse_rounds_ok (S (length work)) work _ s1 A1) as ([[p cv] an'] & E & rep & T & S & B).
  exists p, cv, an', rep. cbn in *. by rewrite E.
Qed.
End passes.

(** ** Pass 3 *)

Section repointing.
Context {P : Type} `{PcodeView P}.
Implicit Types (op : SsaOp P) (work : list (SsaOp P)).

(** An operation with its uses and phi arguments replaced. *)
Definition subst_op (rep : SsaVar → SsaVar) op : SsaOp P :=
  mkOp (va op)
    (match kind op with
     | Phi phi => Phi (mkPhi (out phi) (map (option_map rep) (args phi)))
     | Pcode p => Pcode p
     end)
    (def op) (map rep (uses op)).

Lemma find_all_ok p rep vs :
  tree p rep → ∃ p', find_all p vs = Some (map rep vs, p') ∧ tree p' rep.
Proof.
  revert p. induction vs as [|v vs IH]; intros p T; cbn [find_all]; [by eauto|].
  destruct (find_ok p rep v T) as (p1 & -> & T1). cbn.
  destruct (IH p1 T1) as (p2 & -> & T2). cbn. eauto.
Qed.

Lemma find_args_ok p rep vs :
  tree p rep → ∃ p', find_args p vs = Some (map (option_map rep) vs, p') ∧ tree p' rep.
Proof.
  revert p. induction vs as [|[v|] vs IH]; intros p T; cbn [find_args]; [by eauto| |].
  - destruct (find_ok p rep v T) as (p1 & -> & T1). cbn.
    destruct (IH p1 T1) as (p2 & -> & T2). cbn. eauto.
  - destruct (IH p T) as (p2 & -> & T2). cbn. eauto.
Qed.

Lemma repoint_ok p rep op :
  tree p rep → ∃ p', repoint p op = Some (subst_op rep op, p') ∧ tree p' rep.
Proof.
  intros T. unfold repoint, subst_op. destruct (find_all_ok p rep (uses op) T) as (p1 & -> & T1). cbn.
  destruct (kind op) as [phi|pc]; [|by eauto].
  destruct (find_args_ok p1 rep (args phi) T1) as (p2 & -> & T2). cbn. eauto.
Qed.

Lemma repoint_all_ok p rep work :
  tree p rep → ∃ p', repoint_all p work = Some (map (subst_op rep) work, p') ∧ tree p' rep.
Proof.
  revert p. induction work as [|op work IH]; intros p T; cbn [repoint_all]; [by eauto|].
  destruct (repoint_ok p rep op T) as (p1 & -> & T1). cbn.
  destruct (IH p1 T1) as (p2 & -> & T2). cbn. eauto.
Qed.

Lemma subst_effect rep op : is_side_effect (subst_op rep op) = is_side_effect op.
Proof. unfold is_side_effect, subst_op. simpl. by destruct (kind op). Qed.
Lemma subst_return rep op : is_return (subst_op rep op) = is_return op.
Proof. unfold is_return, subst_op. simpl. by destruct (kind op). Qed.
Lemma subst_copy rep op : is_copy (subst_op rep op) = is_copy op.
Proof. unfold is_copy, subst_op. simpl. by destruct (kind op). Qed.
Lemma subst_phi_args rep op : phi_args (subst_op rep op) = map rep (phi_args op).
Proof.
  unfold phi_args, subst_op. simpl. destruct (kind op) as [phi|]; [|done]. simpl.
  induction (args phi) as [|[v|] l IH]; simpl; [done|by f_equal|done].
Qed.

(** ** Pass 4 *)

Lemma def_to_idx_snoc work op :
  def_to_idx (work ++ [op]) =
    match def op with
    | Some d => <[d := length work]> (def_to_idx work)
    | None => def_to_idx work
    end.
Proof.
  unfold def_to_idx. rewrite imap_app, foldl_app. simpl. by rewrite Nat.add_0_r.
Qed.

(** [def_to_idx] finds the last definition. *)
Lemma def_to_idx_Some work d i :
  def_to_idx work !! d = Some i →
  ∃ op, work !! i = Some op ∧ def op = Some d.
Proof.
  induction work as [|op work IH] using rev_ind; [done|]. rewrite def_to_idx_snoc. intros E.
  assert (def_to_idx work !! d = Some i → ∃ op0, (work ++ [op]) !! i = Some op0 ∧ def op0 = Some d) as Old.
  { intros (op0 & E0 & ?)%IH. exists op0. split; [by apply lookup_app_l_Some|done]. }
  destruct (def op) as [d'|] eqn:D; [|by auto].
  apply lookup_insert_Some in E as [[<- <-]|[_ E]]; [|by auto].
  exists op. by rewrite lookup_app_r, Nat.sub_diag by lia.
Qed.

Lemma def_to_idx_is_Some work d op :
  op ∈ work → def op = Some d → is_Some (def_to_idx work !! d).
Proof.
  intros Hop D. induction work as [|o work IH] using rev_ind; [by apply elem_of_nil in Hop|].
  rewrite def_to_idx_snoc. apply elem_of_app in Hop as [Hop| ->%list_elem_of_singleton].
  - specialize (IH Hop). destruct (def o) as [d'|]; [|done].
    destruct (decide (d' = d)) as [->|]; [rewrite lookup_insert_eq|rewrite lookup_insert_ne by done]; eauto.
  - rewrite D, lookup_insert_eq. eauto.
Qed.

(** Marking: [live] and [stack] after marking the indices of a list. *)
Definition fresh (s : gset nat * list nat) : Prop := NoDup s.2 ∧ ∀ i, i ∈ s.2 → i ∈ s.1.

Lemma mark_elem s i :
  fresh s → fresh (mark s i) ∧ (mark s i).1 = {[i]} ∪ s.1 ∧
    (∀ j, j ∈ (mark s i).2 ↔ j ∈ s.2 ∨ j = i ∧ i ∉ s.1) ∧
    size (mark s i).1 + length s.2 = size s.1 + length (mark s i).2.
Proof.
  destruct s as [live st]. intros [ND Sub]. unfold mark. cbn in *. case_decide as L; cbn.
  - split_and!; [done| |intros j; tauto|lia].
    apply set_eq. intros x. rewrite elem_of_union, elem_of_singleton. naive_solver.
  - split_and!; [split; cbn| done| |].
    + apply NoDup_app. split_and!; [done| |apply NoDup_singleton].
      intros j Hj ->%list_elem_of_singleton. by apply L, Sub.
    + intros j. rewrite elem_of_app, list_elem_of_singleton, elem_of_union, elem_of_singleton.
      intros [?| ->]; auto.
    + intros j. rewrite elem_of_app, list_elem_of_singleton. split; [intros [?| ->]|intros [?|[-> _]]]; auto.
    + rewrite size_union by (apply disjoint_singleton_l; done). rewrite size_singleton, length_app. simpl. lia.
Qed.

Lemma mark_list_spec s l :
  fresh s → let s' := foldl mark s l in
  fresh s' ∧ (∀ j, j ∈ s'.1 ↔ j ∈ s.1 ∨ j ∈ l) ∧
    (∀ j, j ∈ s'.2 ↔ j ∈ s.2 ∨ j ∈ l ∧ j ∉ s.1) ∧
    size s'.1 + length s.2 = size s.1 + length s'.2.
Proof.
  revert s. induction l as [|i l IH]; intros s F; cbn zeta; cbn [foldl].
  { split_and!; [done| | |done]; intros j; rewrite elem_of_nil; tauto. }
  destruct (mark_elem s i F) as (F1 & L1 & S1 & N1).
  destruct (IH _ F1) as (F2 & L2 & S2 & N2). split_and!; [done| | |lia].
  - intros j. rewrite L2, L1, elem_of_union, elem_of_singleton, elem_of_cons. tauto.
  - intros j. rewrite S2, S1, L1, elem_of_union, elem_of_singleton, elem_of_cons.
    destruct (decide (j = i)) as [->|]; tauto.
Qed.

(** The operations an operation reads. *)
Definition reads op (v : SsaVar) : Prop := v ∈ uses op ∨ v ∈ phi_args op.
#[export] Instance reads_dec op v : Decision (reads op v).
Proof. unfold reads. apply _. Defined.
Definition deps (defs : gmap SsaVar nat) op : list nat := omap (defs !!.) (uses op ++ phi_args op).

Lemma mark_defs_foldl defs s vs : foldl (mark_def defs) s vs = foldl mark s (omap (defs !!.) vs).
Proof.
  revert s. induction vs as [|v vs IH]; intros s; [done|]. csimpl. unfold mark_def at 2.
  destruct (defs !! v); by rewrite IH.
Qed.

Lemma elem_of_deps defs op i : i ∈ deps defs op ↔ ∃ v, reads op v ∧ defs !! v = Some i.
Proof.
  unfold deps, reads. rewrite list_elem_of_omap. setoid_rewrite elem_of_app. done.
Qed.

(** What the loop marks: the seeds and, transitively, their dependencies. *)
Inductive reached (defs : gmap SsaVar nat) work (seeds : nat → Prop) : nat → Prop :=
  | reached_seed i : seeds i → reached defs work seeds i
  | reached_dep i op v j :
      reached defs work seeds i → work !! i = Some op → reads op v → defs !! v = Some j →
      reached defs work seeds j.

Lemma mark_loop_ok defs work (seeds : nat → Prop) fuel s :
  (∀ v i, defs !! v = Some i → i < length work) →
  fresh s → (∀ i, seeds i → i ∈ s.1) →
  (∀ i, i ∈ s.1 → i < length work ∧ reached defs work seeds i) →
  (∀ i op j, i ∈ s.1 → i ∉ s.2 → work !! i = Some op → j ∈ deps defs op → j ∈ s.1) →
  length work + length s.2 ≤ fuel + size s.1 →
  ∃ live, mark_loop fuel defs work s = Some live ∧ ∀ i, i ∈ live ↔ reached defs work seeds i.
Proof.
  intros Hd. revert s. induction fuel as [|fuel IH]; intros [live st] F Sd In Cl Fu; cbn [mark_loop].
  all: destruct st as [|i st _] using rev_ind; [rewrite vec_pop_nil|rewrite vec_pop_snoc].
  1,3: eexists; split; [done|]; intros i; split; [by intros [_ ?]%In|];
    induction 1 as [i Hi|i op v j _ IHr Hop Hv Hj]; [by apply Sd|];
    eapply Cl; [done|by apply not_elem_of_nil|done|apply elem_of_deps; eauto].
  - exfalso. cbn [fst snd] in *. rewrite length_app in Fu. simpl in Fu.
    assert (size live ≤ length work); [|lia].
    rewrite <-(length_seq (length work) 0), <-(size_list_to_set (C := gset nat)) by apply NoDup_seq.
    apply (subseteq_size (C := gset nat)). intros j [Hj _]%In.
    apply elem_of_list_to_set, elem_of_seq. lia.
  - cbn [fst snd] in *. destruct (In i) as [Hi Ri]; [apply F; cbn; set_solver|].
    destruct (lookup_lt_is_Some_2 work i Hi) as [op Hop]. rewrite Hop. cbn.
    rewrite <-foldl_app, mark_defs_foldl. fold (deps defs op).
    assert (fresh (live, st)) as F0.
    { destruct F as [ND Sub]. apply NoDup_app in ND as (ND & _ & _). split; cbn in *; set_solver. }
    assert (i ∉ st) as Hst.
    { destruct F as [ND _]. apply NoDup_app in ND as (_ & ND & _). cbn. intros Hi'.
      apply (ND i Hi'). by left. }
    destruct (mark_list_spec (live, st) (deps defs op) F0) as (F1 & L1 & S1 & N1).
    revert F1 L1 S1 N1. generalize (foldl mark (live, st) (deps defs op)). intros s1 F1 L1 S1 N1.
    cbn in *. apply IH; [done|intros j Hj; rewrite L1; auto|..].
    + intros j [Hj|Hj]%L1; [by apply In|]. apply elem_of_deps in Hj as (v & Hv & Ej).
      split; [by eapply Hd|]. by eapply reached_dep.
    + intros j op' k Hj Nj Hop' Hk. rewrite L1 in Hj. rewrite S1 in Nj. rewrite L1.
      destruct (decide (j = i)) as [->|]; [right; congruence|].
      destruct (decide (j ∈ live)) as [Hl|]; [|tauto]. left.
      eapply Cl; [exact Hl| |exact Hop'|exact Hk].
      rewrite elem_of_app, list_elem_of_singleton. tauto.
    + rewrite length_app in Fu. simpl in Fu. lia.
Qed.
End repointing.

(** ** The seeds, the self-cycles and the whole pass *)

Section whole.
Context {P : Type} `{PcodeView P}.
Implicit Types (op : SsaOp P) (work : list (SsaOp P)) (xs : list (nat * SsaOp P)).

Definition effect_seeds xs : list nat := omap (λ x, if is_side_effect x.2 then Some x.1 else None) xs.

Lemma seed_effect_foldl s xs : foldl seed_effect s xs = foldl mark s (effect_seeds xs).
Proof.
  revert s. induction xs as [|[i op] xs IH]; intros s; [done|]. csimpl.
  destruct (is_side_effect op); by rewrite IH.
Qed.

(** The indices a definition of RAX seeds. *)
Definition rax_seed (rep : SsaVar → SsaVar) (defs : gmap SsaVar nat) (x : nat * SsaOp P) : list nat :=
  match def x.2 with
  | Some d =>
      if is_rax d then
        x.1 :: match defs !! rep d with
               | Some di => if decide (rep d = d) then [] else if is_rax (rep d) then [] else [di]
               | None => []
               end
      else []
  | None => []
  end.

Lemma seed_rax_fold rep defs s p xs :
  tree p rep →
  ∃ p', fold_opt (seed_rax defs) (s, p) xs = Some (foldl mark s (xs ≫= rax_seed rep defs), p') ∧
    tree p' rep.
Proof.
  revert s p. induction xs as [|[i op] xs IH]; intros [live st] p T; [by exists p|].
  cbn [fold_opt]. rewrite bind_cons, foldl_app.
  assert (∃ p', seed_rax defs (live, st, p) (i, op)
      = Some (foldl mark (live, st) (rax_seed rep defs (i, op)), p') ∧ tree p' rep) as (p1 & -> & T1).
  { unfold seed_rax, rax_seed. cbn [fst snd]. destruct (def op) as [d|]; [|by exists p].
    destruct (is_rax d); [|by exists p].
    destruct (find_ok p rep d T) as (p1 & -> & T1). exists p1. split; [|done]. cbn [mbind option_bind].
    destruct (defs !! rep d); [|done]. by repeat case_match. }
  cbn. by apply IH.
Qed.

(** An operation that reads what it defines, in the sense of the pass. *)
Definition self_ref (rep : SsaVar → SsaVar) op : bool :=
  negb (is_side_effect op || is_copy op) &&
  match def op with Some d => bool_decide (reads op (rep d)) | None => false end.

Lemma drop_self_fold rep live p xs :
  tree p rep →
  ∃ live' p', fold_opt drop_self (live, p) xs = Some (live', p') ∧ tree p' rep ∧
    ∀ i, i ∈ live' ↔ i ∈ live ∧ ∀ op, (i, op) ∈ xs → self_ref rep op = false.
Proof.
  revert live p. induction xs as [|[k op] xs IH]; intros live p T; cbn [fold_opt].
  { exists live, p. split_and!; [done..|]. intros i. split; [|tauto].
    intros ?. split; [done|]. by intros op ?%elem_of_nil. }
  assert (∃ live1 p1, drop_self (live, p) (k, op) = Some (live1, p1) ∧ tree p1 rep ∧
      ∀ i, i ∈ live1 ↔ i ∈ live ∧ (i = k → self_ref rep op = false)) as (live1 & p1 & -> & T1 & L1).
  { unfold drop_self, self_ref. destruct (is_side_effect op || is_copy op); cbn.
    { exists live, p. split_and!; [done..|tauto]. }
    destruct (def op) as [d|]; [|exists live, p; split_and!; [done..|tauto]].
    destruct (find_ok p rep d T) as (p1 & -> & T1). cbn. fold (reads op (rep d)).
    change (decide _) with (reads_dec op (rep d)). rewrite bool_decide_decide.
    change (decide (reads op (rep d))) with (reads_dec op (rep d)).
    destruct (reads_dec op (rep d)); eexists _, p1; (split_and!; [done..|]); intros i; [|tauto].
    rewrite elem_of_difference, elem_of_singleton. naive_solver. }
  cbn. destruct (IH live1 p1 T1) as (live' & p' & -> & T' & L'). eexists _, _. split_and!; [done..|].
  intros i. rewrite L', L1. setoid_rewrite elem_of_cons. split.
  - intros [[? ?] ?]. split; [done|]. intros o [[= -> ->]|?]; auto.
  - intros [? HA]. split_and!; [done| |auto]. intros ->. apply HA. by left.
Qed.

(** The operations the pass keeps, on the re-pointed operations. *)
Definition seeded (rep : SsaVar → SsaVar) (defs : gmap SsaVar nat) work (i : nat) : Prop :=
  (∃ op, work !! i = Some op ∧ is_side_effect op = true) ∨
  (existsb is_return work = true ∧
   ∃ j op d, work !! j = Some op ∧ def op = Some d ∧ is_rax d = true ∧
     (i = j ∨ rep d ≠ d ∧ is_rax (rep d) = false ∧ defs !! rep d = Some i)).

Definition kept (rep : SsaVar → SsaVar) work (i : nat) : Prop :=
  let defs := def_to_idx work in
  reached defs work (seeded rep defs work) i ∧
  ∀ op, work !! i = Some op → self_ref rep op = false.

Lemma elem_of_indexed work i op : (i, op) ∈ imap pair work ↔ work !! i = Some op.
Proof. rewrite elem_of_lookup_imap. naive_solver. Qed.

Lemma elem_of_effect_seeds work i :
  i ∈ effect_seeds (imap pair work) ↔ ∃ op, work !! i = Some op ∧ is_side_effect op = true.
Proof.
  unfold effect_seeds. rewrite list_elem_of_omap. split.
  - intros ([j op] & Hj%elem_of_indexed & E). simpl in E. case_match; simplify_eq. eauto.
  - intros (op & Hi & E). exists (i, op). rewrite elem_of_indexed. simpl. by rewrite E.
Qed.

Lemma elem_of_rax_seeds rep defs work i :
  i ∈ (imap pair work ≫= rax_seed rep defs) ↔
  ∃ j op d, work !! j = Some op ∧ def op = Some d ∧ is_rax d = true ∧
    (i = j ∨ rep d ≠ d ∧ is_rax (rep d) = false ∧ defs !! rep d = Some i).
Proof.
  rewrite list_elem_of_bind. split.
  - intros ([j op] & Hi & Hj%elem_of_indexed). unfold rax_seed in Hi. cbn in Hi.
    destruct (def op) as [d|] eqn:D; [|by apply elem_of_nil in Hi].
    destruct (is_rax d) eqn:X; [|by apply elem_of_nil in Hi].
    exists j, op, d. split_and!; try done. apply elem_of_cons in Hi as [|Hi]; [by left|right].
    repeat case_match; try by apply elem_of_nil in Hi. apply list_elem_of_singleton in Hi as ->. done.
  - intros (j & op & d & Hj & D & X & Hi). exists (j, op). rewrite elem_of_indexed. split; [|done].
    unfold rax_seed. cbn. rewrite D, X, elem_of_cons. destruct Hi as [->|(N & X' & E)]; [by left|right].
    rewrite E, decide_False, X' by done. by apply list_elem_of_singleton.
Qed.

Lemma def_to_idx_subst rep work : def_to_idx (map (subst_op rep) work) = def_to_idx work.
Proof.
  induction work as [|op work IH] using rev_ind; [done|].
  rewrite map_app. cbn [map]. rewrite !def_to_idx_snoc, length_map, IH. done.
Qed.

(** Pass 4 ends and keeps exactly [kept]. *)
Lemma eliminate_ok rep p work :
  tree p rep →
  let defs := def_to_idx work in
  ∃ live p',
    ('(s, parent) ← (let s := foldl seed_effect (∅, []) (imap pair work) in
                     if existsb is_return work then fold_opt (seed_rax defs) (s, p) (imap pair work)
                     else Some (s, p));
     live ← mark_loop (length work) defs work s;
     fold_opt drop_self (live, parent) (imap pair work)) = Some (live, p') ∧
    ∀ i, i ∈ live ↔ kept rep work i.
Proof.
  intros T defs.
  set (seeds := effect_seeds (imap pair work)
     ++ (if existsb is_return work then imap pair work ≫= rax_seed rep defs else [])).
  assert (∃ p1, (let s := foldl seed_effect (∅, []) (imap pair work) in
                 if existsb is_return work then fold_opt (seed_rax defs) (s, p) (imap pair work)
                 else Some (s, p)) = Some (foldl mark (∅, []) seeds, p1) ∧ tree p1 rep)
    as (p1 & -> & T1).
  { cbn zeta. rewrite seed_effect_foldl. subst seeds. rewrite foldl_app.
    destruct (existsb is_return work); [by apply seed_rax_fold|by exists p]. }
  assert (∀ i, i ∈ seeds ↔ seeded rep defs work i) as Hs.
  { intros i. subst seeds. unfold seeded. rewrite elem_of_app, elem_of_effect_seeds.
    destruct (existsb is_return work); [rewrite elem_of_rax_seeds|rewrite elem_of_nil]; naive_solver. }
  assert (∀ v i, defs !! v = Some i → i < length work) as Hd.
  { intros v i (op & ? & _)%def_to_idx_Some. by eapply lookup_lt_Some. }
  assert (∀ i, seeded rep defs work i → i < length work) as Hlt.
  { intros i [(op & ? & _)|(_ & j & op & d & ? & _ & _ & [->|(_ & _ & ?)])];
      [by eapply lookup_lt_Some..|by eapply Hd]. }
  cbn [mbind option_bind].
  destruct (mark_list_spec (∅, []) seeds) as (F & L & St & N).
  { split; [constructor|]. intros i. cbn. by intros ?%elem_of_nil. }
  revert F L St N. generalize (foldl mark (∅, []) seeds). intros s F L St N. cbn in *.
  destruct (mark_loop_ok defs work (seeded rep defs work) (length work) s) as (live & -> & Hl).
  - done.
  - done.
  - intros i ?%Hs. apply L. by right.
  - intros i [?%elem_of_empty|?%Hs]%L; [done|]. split; [by apply Hlt|by apply reached_seed].
  - intros i op j Hi Ni. exfalso. apply Ni, St. right.
    apply L in Hi as [?%elem_of_empty|]; [done|]. split; [done|]. apply not_elem_of_empty.
  - rewrite size_empty in N. lia.
  - cbn. destruct (drop_self_fold rep live p1 (imap pair work) T1) as (live' & p' & -> & _ & L').
    exists live', p'. split; [done|]. intros i. rewrite L', Hl. unfold kept.
    setoid_rewrite elem_of_indexed. done.
Qed.

(** The result of [simplify], through the representatives. *)
Definition reassembled (ssa : SsaFunction P) (rep : SsaVar → SsaVar) (live : gset nat)
    : SsaFunction P :=
  mkSsaFunction (sf_entry_va ssa) (bitness ssa)
    (imap (rebuild (imap pair (map (subst_op rep) (flatten ssa))) (block_of ssa) live) (blocks ssa))
    (image_base ssa).

Theorem simplify_ok (ssa : SsaFunction P) :
  ∃ rep p cv live an,
    simplify ssa = Some (reassembled ssa rep live, an) ∧
    tree p rep ∧ sound (flatten ssa) rep cv ∧
    (∀ i, i ∈ live ↔ kept rep (map (subst_op rep) (flatten ssa)) i) ∧
    op_count_before an = length (flatten ssa) ∧
    op_count_after an = length (flatten (reassembled ssa rep live)).
Proof.
  unfold simplify. set (an0 := mkAnalysis _ _ _ _ _ _ _ _).
  destruct (analyse_ok (flatten ssa) an0) as (p & cv & an & rep & E & T & S & B).
  apply bind_Some in E as ([[p0 cv0] an1] & -> & E). cbn zeta. cbn [mbind option_bind].
  rewrite E. cbn [mbind option_bind].
  destruct (repoint_all_ok p rep (flatten ssa) T) as (p1 & -> & T1). cbn [mbind option_bind].
  destruct (eliminate_ok rep p1 (map (subst_op rep) (flatten ssa)) T1) as (live & p2 & EL & HL).
  cbn zeta in EL. rewrite def_to_idx_subst in EL.
  apply bind_Some in EL as ([s p3] & -> & EL). cbn [mbind option_bind].
  apply bind_Some in EL as (l0 & -> & EL). cbn [mbind option_bind].
  rewrite EL. cbn [mbind option_bind].
  exists rep, p, cv, live. eexists. split; [reflexivity|]. by split_and!.
Qed.
End whole.

(** ** Reassembly *)

Section reassembly.
Context {P : Type} `{PcodeView P}.
Implicit Types (bs : list (SsaBlock P)) (b : SsaBlock P) (op : SsaOp P).

(** The blocks of the operations of [bs], the first block being [k]. *)
Definition block_from (k : nat) bs : list nat :=
  concat (imap (λ bi b, replicate (length (sb_ops b)) (k + bi)) bs).

Lemma block_from_cons k b bs :
  block_from k (b :: bs) = replicate (length (sb_ops b)) k ++ block_from (S k) bs.
Proof.
  unfold block_from. rewrite imap_cons. cbn [concat]. rewrite Nat.add_0_r. do 2 f_equal.
  apply imap_ext. intros i b' _. cbn. by rewrite Nat.add_succ_r.
Qed.

Lemma block_from_length k bs : length (block_from k bs) = length (concat (map sb_ops bs)).
Proof.
  revert k. induction bs as [|b bs IH]; intros k; [done|].
  rewrite block_from_cons. cbn [map concat]. by rewrite !length_app, length_replicate, IH.
Qed.

Lemma block_from_range k bs i j : block_from k bs !! i = Some j → k ≤ j < k + length bs.
Proof.
  revert k i. induction bs as [|b bs IH]; intros k i; [done|]. rewrite block_from_cons.
  intros [E|[_ E]]%lookup_app_Some; cbn [length].
  - apply lookup_replicate in E as [-> _]. lia.
  - apply IH in E. lia.
Qed.

Lemma block_from_app k bs bs' :
  block_from k (bs ++ bs') = block_from k bs ++ block_from (k + length bs) bs'.
Proof.
  revert k. induction bs as [|b bs IH]; intros k; cbn [app length]; [by rewrite Nat.add_0_r|].
  rewrite !block_from_cons, IH, app_assoc. do 2 f_equal. lia.
Qed.

Lemma block_of_from (ssa : SsaFunction P) : block_of ssa = block_from 0 (blocks ssa).
Proof. done. Qed.

Lemma filter_none {A} (Q : A → Prop) `{∀ x, Decision (Q x)} (xs : list A) :
  (∀ x, x ∈ xs → ¬ Q x) → filter Q xs = [].
Proof.
  induction xs as [|x xs IH]; intros N; [done|].
  rewrite filter_cons_False by (apply N; by left). apply IH. intros y ?. apply N. by right.
Qed.

Lemma filter_agree {A} (Q R : A → Prop) `{∀ x, Decision (Q x), ∀ x, Decision (R x)} (xs : list A) :
  (∀ x, x ∈ xs → Q x ↔ R x) → filter Q xs = filter R xs.
Proof.
  induction xs as [|x xs IH]; intros E; [done|]. rewrite !filter_cons, IH by (intros; apply E; by right).
  specialize (E x (ltac:(by left))). do 2 case_decide; tauto.
Qed.

Lemma imap_pair_snd {A} (k : nat) (l : list A) : map snd (imap (λ i x, (k + i, x)) l) = l.
Proof.
  revert k. induction l as [|x l IH]; intros k; [done|]. rewrite imap_cons. cbn [map snd]. f_equal.
  rewrite <-(IH (S k)) at 2. f_equal. apply imap_ext. intros i y _. cbn. f_equal. lia.
Qed.

(** The operations rebuilt for one block come from that block. *)
Lemma rebuild_segment (f : SsaOp P → SsaOp P) bs live bi b :
  bs !! bi = Some b →
  ∃ k,
    filter (λ x, block_from 0 bs !! x.1 = Some bi ∧ x.1 ∈ live)
      (imap pair (map f (concat (map sb_ops bs)))) =
    filter (λ x, x.1 ∈ (live : gset nat)) (imap (λ i op, (k + i, op)) (map f (sb_ops b))) ∧
    ∀ i op, sb_ops b !! i = Some op → concat (map sb_ops bs) !! (k + i) = Some op.
Proof.
  intros E. apply list_elem_of_split_length in E as (l1 & l2 & -> & ->).
  set (A := concat (map sb_ops l1)). set (C := concat (map sb_ops l2)).
  assert (concat (map sb_ops (l1 ++ b :: l2)) = A ++ sb_ops b ++ C) as ->
    by (rewrite map_app, concat_app; done).
  rewrite block_from_app, block_from_cons. cbn [Nat.add].
  assert (LA : length (block_from 0 l1) = length A) by apply block_from_length.
  exists (length A). split; [|intros i op Hi; rewrite lookup_app_r by lia;
    replace (length A + i - length A) with i by lia; by apply lookup_app_l_Some].
  rewrite !map_app, !imap_app, !filter_app, !length_map.
  rewrite (filter_none _ (imap pair (map f A))), (filter_none _ (imap _ (map f C))).
  - rewrite app_nil_r. cbn [app].
    apply filter_agree. intros x (i & op & -> & Hi)%elem_of_lookup_imap. cbn.
    assert (i < length (sb_ops b)) by (rewrite <-(length_map f); by eapply lookup_lt_Some).
    rewrite lookup_app_r, lookup_app_l by (rewrite ?length_replicate; lia).
    rewrite (lookup_replicate_2 _ _ (length A + i - _)) by lia. tauto.
  - intros x (i & op & -> & Hi)%elem_of_lookup_imap [B _]. cbn in B. apply lookup_lt_Some in Hi.
    rewrite !lookup_app_r in B by (rewrite ?length_replicate; lia).
    apply block_from_range in B. lia.
  - intros x (i & op & -> & Hi)%elem_of_lookup_imap [B _]. cbn in B.
    apply lookup_lt_Some in Hi. rewrite length_map in Hi.
    rewrite lookup_app_l in B by lia. apply block_from_range in B. lia.
Qed.

Lemma filter_snd_kept (E : SsaOp P → Prop) (Q : nat * SsaOp P → Prop)
    `{∀ x, Decision (E x), ∀ x, Decision (Q x)} xs :
  (∀ x, x ∈ xs → E x.2 → Q x) → filter E (map snd (filter Q xs)) = filter E (map snd xs).
Proof.
  induction xs as [|x xs IH]; intros HE; [done|]. cbn [map].
  specialize (IH ltac:(intros; apply HE; [by right|done])).
  rewrite (filter_cons E), filter_cons. specialize (HE x ltac:(by left)).
  destruct (decide (Q x)), (decide (E x.2)); cbn [map]; rewrite ?filter_cons;
    repeat case_decide; try tauto; by rewrite IH.
Qed.

Lemma filter_map_effect rep (l : list (SsaOp P)) :
  filter (λ op, is_side_effect op = true) (map (subst_op rep) l) =
  map (subst_op rep) (filter (λ op, is_side_effect op = true) l).
Proof.
  induction l as [|op l IH]; [done|]. cbn [map]. rewrite !filter_cons, subst_effect.
  case_decide; cbn [map]; by rewrite IH.
Qed.

Lemma kept_effect rep (work : list (SsaOp P)) i op :
  work !! i = Some op → is_side_effect op = true → kept rep work i.
Proof.
  intros Hi E. split; [apply reached_seed; left; eauto|].
  intros op' Hi'. simplify_eq. unfold self_ref. by rewrite E.
Qed.

(** The operations of one block of the result. *)
Lemma reassembled_block (ssa : SsaFunction P) rep live bi b :
  blocks ssa !! bi = Some b →
  (∀ i, i ∈ live ↔ kept rep (map (subst_op rep) (flatten ssa)) i) →
  ∃ b', blocks (reassembled ssa rep live) !! bi = Some b' ∧
    sb_id b' = bi ∧ sb_entry_va b' = sb_entry_va b ∧
    predecessor_ids b' = predecessor_ids b ∧ successor_ids b' = successor_ids b ∧
    sb_ops b' `sublist_of` map (subst_op rep) (sb_ops b) ∧
    filter (λ op, is_side_effect op = true) (sb_ops b') =
      map (subst_op rep) (filter (λ op, is_side_effect op = true) (sb_ops b)).
Proof.
  intros Hb HL. eexists. split; [cbn; rewrite list_lookup_imap, Hb; reflexivity|].
  split_and!; try done; cbn [rebuild sb_ops]; rewrite block_of_from; unfold flatten.
  all: destruct (rebuild_segment (subst_op rep) (blocks ssa) live bi b Hb) as (k & -> & Hk).
  - rewrite <-(imap_pair_snd k (map (subst_op rep) (sb_ops b))) at 2.
    apply fmap_sublist, sublist_filter.
  - rewrite filter_snd_kept, imap_pair_snd; [apply filter_map_effect|].
    intros x (i & op & -> & (o & -> & Hi)%list_lookup_fmap_Some)%elem_of_lookup_imap E. cbn in *.
    apply HL. eapply kept_effect; [|done]. rewrite list_lookup_fmap. unfold flatten.
    by rewrite (Hk _ _ Hi).
Qed.

Lemma sublist_concat_length (l l' : list (SsaBlock P)) (f : SsaOp P → SsaOp P) :
  length l = length l' →
  (∀ i b b', l !! i = Some b → l' !! i = Some b' → sb_ops b' `sublist_of` map f (sb_ops b)) →
  length (concat (map sb_ops l')) ≤ length (concat (map sb_ops l)).
Proof.
  revert l'. induction l as [|b l IH]; intros [|b' l'] L S; try done. cbn [map concat].
  rewrite !length_app. pose proof (sublist_length _ _ (S 0 b b' eq_refl eq_refl)) as S0.
  rewrite length_map in S0.
  enough (length (concat (map sb_ops l')) ≤ length (concat (map sb_ops l))) by lia.
  apply IH; [by injection L|]. intros i c c' ? ?. by apply (S (Datatypes.S i)).
Qed.

(** Which operations the result has. *)
Lemma elem_of_reassembled (ssa : SsaFunction P) rep live op :
  op ∈ flatten (reassembled ssa rep live) ↔
  ∃ i, map (subst_op rep) (flatten ssa) !! i = Some op ∧ i ∈ live.
Proof.
  unfold flatten at 1. rewrite list_elem_of_In, in_concat. setoid_rewrite <-list_elem_of_In. split.
  - intros (ops & (b' & -> & Hb)%list_elem_of_fmap & Hop).
    apply elem_of_lookup_imap in Hb as (bi & b & -> & _). cbn in Hop.
    apply list_elem_of_fmap in Hop as ([i o] & -> & Hf).
    apply list_elem_of_filter in Hf as [[_ Hl] Hi%elem_of_indexed]. cbn in *. eauto.
  - intros (i & Hi & Hl).
    assert (is_Some (block_of ssa !! i)) as [bi Hbi].
    { apply lookup_lt_is_Some. rewrite block_of_from, block_from_length.
      apply lookup_lt_Some in Hi. by rewrite length_map in Hi. }
    pose proof (block_from_range 0 (blocks ssa) i bi Hbi) as [_ Hlt].
    destruct (lookup_lt_is_Some_2 (blocks ssa) bi Hlt) as [b Hb].
    eexists. split; [apply list_elem_of_fmap; eexists; split; [reflexivity|];
      by apply elem_of_lookup_imap_2|].
    cbn. apply list_elem_of_fmap. exists (i, op). split; [done|].
    apply list_elem_of_filter. split; [done|]. by apply elem_of_indexed.
Qed.
End reassembly.

(** ** The claims *)

Section claims.
Context {P : Type} `{PcodeView P}.
Implicit Types (op d : SsaOp P).

(** C25: [simplify] always returns. Each block of the result has the block's
    index, address and edges; its operations are, in order, operations of the
    original block whose variables were replaced by representatives, and none
    with a side effect is missing. A variable and its representative have the
    same value under every valuation that satisfies the copies and phis. *)
Theorem simplify_preserves (ssa : SsaFunction P) :
  ∃ out an rep,
    simplify ssa = Some (out, an) ∧
    sf_entry_va out = sf_entry_va ssa ∧ bitness out = bitness ssa ∧ image_base out = image_base ssa ∧
    length (blocks out) = length (blocks ssa) ∧
    (∀ bi b, blocks ssa !! bi = Some b →
       ∃ b', blocks out !! bi = Some b' ∧
         sb_id b' = bi ∧ sb_entry_va b' = sb_entry_va b ∧
         predecessor_ids b' = predecessor_ids b ∧ successor_ids b' = successor_ids b ∧
         sb_ops b' `sublist_of` map (subst_op rep) (sb_ops b) ∧
         filter (λ op, is_side_effect op = true) (sb_ops b') =
           map (subst_op rep) (filter (λ op, is_side_effect op = true) (sb_ops b))) ∧
    (∀ (V : Type) (ρ : SsaVar → V) κ,
       (∀ op, op ∈ flatten ssa → equation ρ κ op) → ∀ v, ρ (rep v) = ρ v) ∧
    op_count_before an = length (flatten ssa) ∧
    op_count_after an = length (flatten out) ∧
    op_count_after an ≤ op_count_before an.
Proof.
  destruct (simplify_ok ssa) as (rep & p & cv & live & an & E & T & S & L & B & A).
  assert (length (blocks (reassembled ssa rep live)) = length (blocks ssa)) as Len by apply length_imap.
  exists (reassembled ssa rep live), an, rep. split_and!; try done.
  - intros bi b Hb. by apply reassembled_block.
  - intros V ρ κ HE. apply (S V ρ κ HE).
  - rewrite A, B. apply (sublist_concat_length _ _ (subst_op rep)); [done|].
    intros i b b' Hb Hb'. destruct (reassembled_block ssa rep live i b Hb L)
      as (b1 & Hb1 & _ & _ & _ & _ & ? & _). congruence.
Qed.

(** What the result needs: the variables it reads and, in a function that
    returns, the return register. *)
Definition needed (ssa out : SsaFunction P) (v : SsaVar) : Prop :=
  (∃ op, op ∈ flatten out ∧ reads op v) ∨
  existsb is_return (flatten ssa) = true ∧ is_rax v = true.

Lemma reads_subst rep op v : reads (subst_op rep op) v → ∃ u, reads op u ∧ v = rep u.
Proof.
  unfold reads. rewrite subst_phi_args. cbn [subst_op uses].
  intros [(u & -> & ?)%list_elem_of_fmap|(u & -> & ?)%list_elem_of_fmap]; eauto.
Qed.

Lemma existsb_subst rep (work : list (SsaOp P)) :
  existsb is_return (map (subst_op rep) work) = existsb is_return work.
Proof. induction work as [|op work IH]; [done|]. cbn. by rewrite subst_return, IH. Qed.

(** A variable the result needs and the function defined is still defined,
    unless an operation that defines it also reads a variable equal to it. *)
Theorem simplify_defined (ssa out : SsaFunction P) an v d :
  simplify ssa = Some (out, an) →
  d ∈ flatten ssa → def d = Some v → needed ssa out v →
  (∃ d', d' ∈ flatten out ∧ def d' = Some v) ∨
  (∃ d' u, d' ∈ flatten ssa ∧ def d' = Some v ∧ is_side_effect d' = false ∧ is_copy d' = false ∧
     reads d' u ∧
     ∀ (V : Type) (ρ : SsaVar → V) κ, (∀ op, op ∈ flatten ssa → equation ρ κ op) → ρ u = ρ v).
Proof.
  intros E Hd Dv Nv.
  destruct (simplify_ok ssa) as (rep & p & cv & live & an' & E' & T & S & L & _).
  rewrite E in E'. injection E' as -> _. set (work := map (subst_op rep) (flatten ssa)) in *.
  enough (∃ i o, flatten ssa !! i = Some o ∧ def o = Some v ∧
    reached (def_to_idx work) work (seeded rep (def_to_idx work) work) i) as (i & o & Hi & Do & R).
  { assert (work !! i = Some (subst_op rep o)) as Wi by (unfold work; by rewrite list_lookup_fmap, Hi).
    destruct (self_ref rep (subst_op rep o)) eqn:Sr.
    - right. unfold self_ref in Sr. rewrite subst_effect, subst_copy in Sr.
      apply andb_prop in Sr as [[Ef Co]%negb_true_iff%orb_false_elim Sr]. cbn in Sr. rewrite Do in Sr.
      apply bool_decide_eq_true in Sr as (u & Hu & Eu)%reads_subst.
      exists o, u. split_and!; try done; [by eapply list_elem_of_lookup_2|].
      intros V ρ κ HE. destruct (S V ρ κ HE) as [S1 _]. by rewrite <-(S1 u), <-Eu, S1.
    - left. exists (subst_op rep o). split; [|done]. apply elem_of_reassembled. exists i.
      split; [done|]. apply L. split; [done|]. intros op ?. by simplify_eq. }
  destruct Nv as [(op & Hop & Rv)|[Ret Rax]].
  - apply elem_of_reassembled in Hop as (j & Hj & [Rj _]%L). fold work in Hj, Rj.
    destruct (def_to_idx_is_Some (flatten ssa) v d Hd Dv) as [i Ei].
    destruct (def_to_idx_Some _ _ _ Ei) as (o & Hi & Do). exists i, o. split_and!; try done.
    eapply reached_dep; [exact Rj|exact Hj|exact Rv|].
    unfold work. by rewrite def_to_idx_subst.
  - apply list_elem_of_lookup in Hd as [i Hi]. exists i, d. split_and!; try done.
    apply reached_seed. right. unfold work. rewrite existsb_subst. split; [done|].
    exists i, (subst_op rep d), v. split_and!; [|done..|by left].
    by rewrite list_lookup_fmap, Hi.
Qed.
End claims.

Import SamplePcode.

(** A loop that saves a register, overwrites it and restores it:
    [x1 := φ(x0, x2); t := x1; store x1; x2 := t; goto loop], then a store of
    [x1] after the loop. *)
Definition saving_loop : SsaFunction PcodeOp :=
  let x v := mkVar (Register 24) v in
  let t := mkVar (Register 16) 1 in
  mkSsaFunction 0x1000 64
    [mkSsaBlock 0 0x1000 [op 0x1000 OtherOp (Some (x 1%Z)) []] [] [1];
     mkSsaBlock 1 0x1010
       [mkOp 0 (Phi (mkPhi (x 2%Z) [Some (x 1%Z); Some (x 3%Z)])) (Some (x 2%Z)) [];
        op 0x1010 (Copy (vn 24)) (Some t) [x 2%Z];
        op 0x1014 (Copy (vn 16)) (Some (x 3%Z)) [t];
        op 0x1018 CBranch None []] [0; 1] [1; 2];
     mkSsaBlock 2 0x1020 [op 0x1020 (Store (vn 32)) (Some (mkVar RawRam 1)) [x 2%Z]] [1] []] 0x140000000.

(** [simplify] removes the phi of a loop that saves and restores a register
    as a self-cycle, although its other argument comes from before the loop and
    a store still reads it: the result reads a variable nothing defines. *)
Theorem simplify_drops_loop_phi :
  ∃ out an op,
    simplify saving_loop = Some (out, an) ∧
    op ∈ flatten out ∧ reads op (mkVar (Register 24) 2) ∧
    (∃ d, d ∈ flatten saving_loop ∧ def d = Some (mkVar (Register 24) 2)) ∧
    ∀ d, d ∈ flatten out → def d ≠ Some (mkVar (Register 24) 2).
Proof.
  destruct (simplify saving_loop) as [[out an]|] eqn:E; [|vm_compute in E; done].
  vm_compute in E. injection E as <- <-.
  eexists _, _, (op 0x1020 (Store (vn 32)) (Some (mkVar RawRam 1)) [mkVar (Register 24) 2]).
  split_and!; [reflexivity|apply list_elem_of_In; cbn; tauto|left; by left| |].
  - eexists (mkOp 0 (Phi _) _ _). split; [right; left|done].
  - intros d Hd. revert d Hd. apply Forall_forall. repeat constructor; discriminate.
Qed.

Definition returning_copy : SsaFunction PcodeOp :=
  one_block [op 1 OtherOp (Some (reg 16 1)) []; op 2 (Copy (vn 16)) (Some (reg 8 2)) [reg 16 1];
             op 3 Return None [reg 8 2]].

Lemma simplify_defined_witness :
  match simplify returning_copy with
  | Some (out, an) =>
      map va (flatten out) = [1; 3]%Z ∧
      ((∃ d', d' ∈ flatten out ∧ def d' = Some (reg 16 1)) ∨
       (∃ d' u, d' ∈ flatten returning_copy ∧ def d' = Some (reg 16 1) ∧
          is_side_effect d' = false ∧ is_copy d' = false ∧ reads d' u ∧
          ∀ (V : Type) (ρ : SsaVar → V) κ,
            (∀ op, op ∈ flatten returning_copy → equation ρ κ op) → ρ u = ρ (reg 16 1)))
  | None => False
  end.
Proof.
  destruct (simplify returning_copy) as [[out an]|] eqn:E; [|vm_compute in E; discriminate].
  assert (E' := E). vm_compute in E'. injection E' as <- <-. split; [reflexivity|].
  eapply (simplify_defined returning_copy _ _ (reg 16 1) _ E); [left|reflexivity|].
  left. exists (op 3 Return None [reg 16 1]). split; [right; left|left; left].
Defined.

Lemma simplify_preserves_witness :
  ∃ out an rep, simplify returning_copy = Some (out, an) ∧ rep (reg 8 2) = reg 16 1 ∧
    length (flatten out) ≤ 3.
Proof.
  destruct (simplify_preserves returning_copy) as (out & an & rep & E & _ & _ & _ & _ & HB & HV & Bf & Af & Le).
  exists out, an, rep. split; [done|]. rewrite Af, Bf in Le. split; [|exact Le].
  assert (E' := E). vm_compute in E'. injection E' as <- <-.
  destruct (HB 0 _ eq_refl) as (b' & Hb & _ & _ & _ & _ & _ & Fe).
  injection Hb as <-. vm_compute in Fe. injection Fe as Fe. by symmetry.
Defined.
