(* ===== verification/Region.v ===== *)
(** Region classification: decompiler/structure/region.rs, with the predicates
    of decompiler/normalize/mod.rs and the jump collapsing of
    decompiler/structure/cfg_norm.rs it uses. *)

From S2P Require Import Prelude Cfg Ssa Pcode.

Section regions.
Context {P : Type} `{PcodeView P}.
Notation SsaOp := (SsaOp P).
Notation SsaBlock := (SsaBlock P).
Notation SsaFunction := (SsaFunction P).
Implicit Types (op : SsaOp) (block : SsaBlock) (ssa : SsaFunction).

Definition pcode_is (f : PcodeOp → bool) op : bool :=
  match kind op with Pcode p => f (view p) | Phi _ => false end.

(** ** Predicates of normalize/mod.rs *)

Definition is_win64_home_disp (disp : Z) : bool :=
  ((disp =? 0x8) || (disp =? 0x10) || (disp =? 0x18) || (disp =? 0x20))%Z.

Definition gpr_param_rank (base_offset : Z) : option nat :=
  if (base_offset =? 0x08)%Z then Some 0
  else if (base_offset =? 0x10)%Z then Some 1
  else if (base_offset =? 0x80)%Z then Some 2
  else if (base_offset =? 0x88)%Z then Some 3
  else None.

Definition is_param_home_store op : bool :=
  match def op with
  | Some d =>
      match location d with
      | StackSlot _ disp =>
          is_win64_home_disp disp &&
          match uses op with
          | val :: _ =>
              match location val with
              | Register base_offset => bool_decide (is_Some (gpr_param_rank base_offset))
              | _ => false
              end
          | [] => false
          end
      | _ => false
      end
  | None => false
  end.

(** Offsets 0x20 and 0x28 are the stack and frame pointers. *)
Definition is_frame_register (offset : Z) : bool := ((offset =? 0x20) || (offset =? 0x28))%Z.
Definition is_sp (v : Varnode) : bool :=
  match space v with RegisterSpace => is_frame_register (offset v) | _ => false end.
Definition def_sp op : bool :=
  match def op with
  | Some d => match location d with Register b => is_frame_register b | _ => false end
  | None => false
  end.

Definition is_frame_pointer_adjust op : bool :=
  pcode_is (λ p,
    match p with
    | IntAdd l r | IntSub l r => def_sp op && (is_sp l || is_sp r)
    | Copy input => is_sp input && def_sp op
    | _ => false
    end) op.

Definition is_noise_stack_reload op : bool :=
  pcode_is (λ p, match p with Load _ => true | _ => false end) op &&
  match uses op with
  | u :: _ =>
      match location u with
      | StackSlot _ disp => (disp =? 0)%Z
      | Register b => is_frame_register b
      | _ => false
      end
  | [] => false
  end.

(** ** cfg_norm.rs *)

Definition is_forwarding_block block : bool :=
  negb (existsb (λ op,
    negb match kind op with
         | Phi _ => true
         | Pcode p => match view p with Branch _ | CBranch | BranchInd _ | Return => true | _ => false end
         end
    && negb (is_frame_pointer_adjust op)
    && negb (is_param_home_store op)
    && negb (is_noise_stack_reload op)) (sb_ops block)).

Definition has_pcode (f : PcodeOp → bool) block : bool := existsb (pcode_is f) (sb_ops block).

Definition is_jump_only block : bool :=
  if decide (length (successor_ids block) ≠ 1) then false
  else if has_pcode (λ p, match p with Return => true | _ => false end) block then false
  else if has_pcode (λ p, match p with
                          | CBranch | BranchInd _ | Call _ | CallInd _ | Store _ => true
                          | _ => false
                          end) block then false
  else is_forwarding_block block.

Fixpoint resolve_jump_target ssa (b limit : nat) : nat :=
  match limit with
  | 0 => b
  | S limit =>
      match blocks ssa !! b with
      | None => b
      | Some block =>
          if negb (is_jump_only block) then b
          else
            match successor_ids block with
            | [] => b
            | next :: _ => if decide (next = b) then b else resolve_jump_target ssa next limit
            end
      end
  end.

(** [sort_unstable] and [dedup]: ascending, each value once. *)
Definition presentation_successors ssa : list (list nat) :=
  map (λ block, ascending (list_to_set (map (λ s, resolve_jump_target ssa s 16) (successor_ids block))))
    (blocks ssa).

Definition presentation_canon ssa : list nat :=
  map (λ i, resolve_jump_target ssa i 16) (seq 0 (length (blocks ssa))).

(** ** region.rs *)

Inductive Region :=
  | IfElse (then_entry else_entry merge : nat) (invert : bool)
  | If (body_entry merge : nat) (invert : bool)
  | IfThenFallthrough (then_entry cont_entry merge : nat) (invert : bool)
  | While (body_entry exit : nat)
  | DoWhile (body_entry cond_block exit : nat)
  | Switch (cases : list (Z * nat)) (merge : nat)
  | RReturn.

Record SwitchInfo := mkSwitchInfo { branch_va : Z; cases : list (Z * nat) }.

(** [reach]: the loop over the stack. *)
Fixpoint reach_loop (fuel : nat) (stop : nat) (succ : list (list nat)) (seen : gset nat)
    (stack : list nat) : option (gset nat) :=
  match vec_pop stack with
  | None => Some seen
  | Some (b, stack) =>
      match fuel with
      | 0 => None
      | S fuel =>
          if decide (b = stop ∨ length succ ≤ b) then reach_loop fuel stop succ seen stack
          else if decide (b ∈ seen) then reach_loop fuel stop succ seen stack
          else reach_loop fuel stop succ ({[b]} ∪ seen)
                 (stack ++ filter (λ s, s ≠ stop) (adj succ b))
      end
  end.

(** Every edge is pushed at most once. *)
Definition edge_fuel (succ : list (list nat)) : nat := sum_list (map length succ).

Definition reach (start stop : nat) (succ : list (list nat)) : option (gset nat) :=
  if decide (length succ ≤ start ∨ start = stop) then Some ∅
  else reach_loop (S (edge_fuel succ)) stop succ ∅ [start].

Fixpoint dominates_loop (limit : nat) (a cur : nat) (idom : list (option nat)) : bool :=
  match limit with
  | 0 => false
  | S limit =>
      match parent idom cur with
      | Some p =>
          if decide (p = cur) then false
          else if decide (p = a) then true
          else dominates_loop limit a p idom
      | None => false
      end
  end.
Definition dominates (a b : nat) (idom : list (option nat)) : bool :=
  if decide (a = b) then true else dominates_loop (S (length idom)) a b idom.

Definition is_back_edge (from to : nat) (idom : list (option nat)) : bool := dominates to from idom.

Definition is_cbranch block : bool :=
  has_pcode (λ p, match p with CBranch => true | _ => false end) block.
Definition is_branch_ind block : bool :=
  has_pcode (λ p, match p with BranchInd _ => true | _ => false end) block.
Definition is_return_block block : bool :=
  has_pcode (λ p, match p with Return => true | _ => false end) block.

(** The fallthrough and the taken successor. *)
Definition cbranch_arms block : option (nat * nat) :=
  if negb (is_cbranch block) then None
  else
    match successor_ids block with
    | fall :: taken :: _ => Some (fall, taken)
    | [only] => Some (only, only)
    | [] => None
    end.

(** [natural_loop_nodes]: the walk over predecessors. *)
Fixpoint loop_nodes_loop (fuel : nat) (header : nat) (pred : list (list nat)) (nodes : gset nat)
    (stack : list nat) : option (gset nat) :=
  match vec_pop stack with
  | None => Some nodes
  | Some (b, stack) =>
      match fuel with
      | 0 => None
      | S fuel =>
          if decide (b ∈ nodes) then loop_nodes_loop fuel header pred nodes stack
          else loop_nodes_loop fuel header pred ({[b]} ∪ nodes)
                 (stack ++ filter (λ p, p ≠ header) (adj pred b))
      end
  end.
Definition natural_loop_nodes (header : nat) (latches : list nat) (pred : list (list nat))
    : option (gset nat) :=
  loop_nodes_loop (length latches + edge_fuel pred) header pred {[header]} latches.

Fixpoint can_reach_loop (fuel : nat) (start target : nat) (succ : list (list nat))
    (avoid : option nat) (seen : gset nat) (stack : list nat) : option bool :=
  match vec_pop stack with
  | None => Some false
  | Some (b, stack) =>
      match fuel with
      | 0 => None
      | S fuel =>
          if decide (Some b = avoid ∧ b ≠ start) then
            can_reach_loop fuel start target succ avoid seen stack
          else if decide (b ∈ seen) then can_reach_loop fuel start target succ avoid seen stack
          else if decide (b = target) then Some true
          else can_reach_loop fuel start target succ avoid ({[b]} ∪ seen) (stack ++ adj succ b)
      end
  end.
Definition can_reach (start target : nat) (succ : list (list nat)) (avoid : option nat)
    : option bool :=
  if decide (start = target) then Some true
  else can_reach_loop (S (edge_fuel succ)) start target succ avoid ∅ [start].

(** The first answer of [f] that is [Some true], in order. *)
Fixpoint any_opt {A} (f : A → option bool) (l : list A) : option bool :=
  match l with
  | [] => Some false
  | x :: l => b ← f x; if (b : bool) then Some true else any_opt f l
  end.

(** *** [classify_with_adj] *)

Definition push_latch (idom : list (option nat)) (b : nat) (m : gmap nat (list nat)) (s : nat)
    : gmap nat (list nat) :=
  if is_back_edge b s idom then <[s := default [] (m !! s) ++ [b]]> m else m.
Definition back_edge_preds (succ : list (list nat)) (idom : list (option nat)) (n : nat)
    : gmap nat (list nat) :=
  foldl (λ m b, foldl (push_latch idom b) m (adj succ b)) ∅ (seq 0 n).

Definition return_regions ssa : gmap nat Region :=
  foldl (λ m '(i, block), if is_return_block block then <[i := RReturn]> m else m)
    ∅ (imap pair (blocks ssa)).

(** [switches] by the address of their block; the last one wins. *)
Definition switch_by_va (switches : list SwitchInfo) : gmap Z SwitchInfo :=
  foldl (λ m s, <[branch_va s := s]> m) ∅ switches.

Definition switch_region (switches : gmap Z SwitchInfo) (ipdom : list (option nat)) (ve : nat)
    (m : gmap nat Region) (x : nat * SsaBlock) : gmap nat Region :=
  let '(i, block) := x in
  if negb (is_branch_ind block) then m
  else if decide (length (successor_ids block) < 2) then m
  else
    let merge := default ve (p ← parent ipdom i; if decide (p ≠ ve) then Some p else None) in
    let cases :=
      match switches !! sb_entry_va block with
      | Some info => cases info
      | None => imap (λ k t, (Z.of_nat k, t)) (successor_ids block)
      end in
    <[i := Switch cases merge]> m.

(** A header whose branch goes back to the header. *)
Definition self_loop (arms : option (nat * nat)) (header : nat) : option Region :=
  '(fall, taken) ← arms;
  if decide (fall = header ∨ taken = header) then
    Some (DoWhile header header (if decide (fall = header) then taken else fall))
  else None.

(** A header whose branch leaves the loop, or of whose arms only one reaches a
    latch. *)
Definition top_tested (succ : list (list nat)) (arms : option (nat * nat)) (header : nat)
    (latches : list nat) (loop_nodes : gset nat) : option (option Region) :=
  match arms with
  | None => Some None
  | Some (fall, taken) =>
      let fall_in := bool_decide (fall ∈ loop_nodes ∨ fall = header) in
      let taken_in := bool_decide (taken ∈ loop_nodes ∨ taken = header) in
      if negb (eqb fall_in taken_in) then
        Some (Some (if (taken_in : bool) then While taken fall else While fall taken))
      else if fall_in && taken_in then
        fall_to_latch ← any_opt (λ l, can_reach fall l succ (Some header)) latches;
        taken_to_latch ← any_opt (λ l, can_reach taken l succ (Some header)) latches;
        Some (if negb (eqb fall_to_latch taken_to_latch) then
                Some (if (taken_to_latch : bool) then While taken fall else While fall taken)
              else None)
      else Some None
  end.

(** The first latch other than the header whose branch goes back to it. *)
Fixpoint bottom_tested ssa (header : nat) (latches : list nat) : option (option Region) :=
  match latches with
  | [] => Some None
  | latch :: latches =>
      if decide (latch = header) then bottom_tested ssa header latches
      else
        lblock ← blocks ssa !! latch;
        match cbranch_arms lblock with
        | Some (fall, taken) =>
            if decide (fall = header ∨ taken = header) then
              Some (Some (DoWhile header latch (if decide (fall = header) then taken else fall)))
            else bottom_tested ssa header latches
        | None => bottom_tested ssa header latches
        end
  end.

(** Any latch that ends in a branch. *)
Fixpoint residual_loop ssa (header : nat) (loop_nodes : gset nat) (latches : list nat)
    : option (option Region) :=
  match latches with
  | [] => Some None
  | latch :: latches =>
      lblock ← blocks ssa !! latch;
      match cbranch_arms lblock with
      | Some (fall, taken) =>
          let exit :=
            if decide (fall = header) then taken
            else if decide (taken = header) then fall
            else if decide (fall ∈ loop_nodes) then taken
            else fall in
          Some (Some (DoWhile header latch exit))
      | None => residual_loop ssa header loop_nodes latches
      end
  end.

(** The region of one loop header. *)
Definition header_region ssa (succ pred : list (list nat)) (map_arm : nat → nat)
    (regions : gmap nat Region) (header : nat) (latches : list nat) : option (option Region) :=
  hblock ← blocks ssa !! header;
  loop_nodes ← natural_loop_nodes header latches pred;
  let arms := (λ '(fall, taken), (map_arm fall, map_arm taken)) <$> cbranch_arms hblock in
  match self_loop arms header with
  | Some r => Some (Some r)
  | None =>
      w ← top_tested succ arms header latches loop_nodes;
      match w with
      | Some r => Some (Some r)
      | None =>
          d ← bottom_tested ssa header latches;
          match d with
          | Some r => Some (Some r)
          | None =>
              match regions !! header with
              | Some _ => Some None
              | None => residual_loop ssa header loop_nodes latches
              end
          end
      end
  end.

(** The headers in ascending order; the program's order does not matter, since
    each header reads and writes only its own region. *)
Definition loop_region ssa (succ pred : list (list nat)) (map_arm : nat → nat)
    (back : gmap nat (list nat)) (regions : gmap nat Region) (header : nat)
    : option (gmap nat Region) :=
  match back !! header with
  | None => Some regions
  | Some latches =>
      r ← header_region ssa succ pred map_arm regions header latches;
      Some match r with Some r => <[header := r]> regions | None => regions end
  end.

(** If and if-else for a branch that has no region yet. *)
Definition branch_region (succ : list (list nat)) (map_arm : nat → nat) (ipdom : list (option nat))
    (ve : nat) (regions : gmap nat Region) (x : nat * SsaBlock) : option (gmap nat Region) :=
  let '(bi, block) := x in
  match regions !! bi, cbranch_arms block with
  | None, Some (fall0, taken0) =>
      let fall := map_arm fall0 in
      let taken := map_arm taken0 in
      let merge := default ve (parent ipdom bi) in
      then_reach ← (if decide (taken = merge) then Some ∅ else reach taken merge succ);
      else_reach ← (if decide (fall = merge) then Some ∅ else reach fall merge succ);
      Some match decide (then_reach = ∅), decide (else_reach = ∅) with
           | right _, right _ => <[bi := IfElse taken fall merge false]> regions
           | right _, left _ => <[bi := If taken merge false]> regions
           | left _, right _ => <[bi := If fall merge true]> regions
           | left _, left _ => regions
           end
  | _, _ => Some regions
  end.

Definition entry_index ssa : nat :=
  default 0 (position (λ b, sb_entry_va b =? sf_entry_va ssa)%Z (blocks ssa)).

Definition map_arm ssa (resolve_arms : bool) (arm : nat) : nat :=
  if resolve_arms then resolve_jump_target ssa arm 16 else arm.

Definition classify_with_adj ssa (switches : list SwitchInfo) (succ pred : list (list nat))
    (resolve_arms : bool) : option (gmap nat Region) :=
  let n := length (blocks ssa) in
  if decide (n = 0) then Some ∅
  else
    ipdom ← build_ipdom succ pred;
    idom ← build_idom succ pred (entry_index ssa);
    let ve := virtual_exit n in
    let back := back_edge_preds succ idom n in
    let regions := foldl (switch_region (switch_by_va switches) ipdom ve) (return_regions ssa)
                     (imap pair (blocks ssa)) in
    regions ← fold_opt (loop_region ssa succ pred (map_arm ssa resolve_arms) back) regions
                (ascending (dom back));
    fold_opt (branch_region succ (map_arm ssa resolve_arms) ipdom ve) regions
      (imap pair (blocks ssa)).

Definition adj_from_ssa ssa : list (list nat) * list (list nat) :=
  (map successor_ids (blocks ssa), map predecessor_ids (blocks ssa)).

Definition classify ssa (switches : list SwitchInfo) : option (gmap nat Region) :=
  let '(succ, pred) := adj_from_ssa ssa in classify_with_adj ssa switches succ pred false.

(** *** Short circuits *)

Inductive Connective := And | Or.

(** The connective, the second block, the target both blocks share, and the
    target of the combined condition. *)
Definition detect_short_circuit block ssa : option (Connective * nat * nat * nat) :=
  '(f1, t1) ← cbranch_arms block;
  let and :=
    if decide (f1 ≠ sb_id block) then
      b2 ← blocks ssa !! f1;
      '(f2, t2) ← cbranch_arms b2;
      if decide (t1 = t2 ∧ f1 ≠ t1 ∧ f2 ≠ sb_id block) then Some (And, f1, t1, f2) else None
    else None in
  let or :=
    if decide (t1 ≠ sb_id block) then
      b2 ← blocks ssa !! t1;
      '(f2, t2) ← cbranch_arms b2;
      if decide (f1 = f2 ∧ t1 ≠ f1 ∧ t2 ≠ sb_id block) then Some (Or, t1, f1, t2) else None
    else None in
  match and with Some r => Some r | None => or end.
End regions.
