(* ===== verification/RegionCorrect.v ===== *)
(** What region classification guarantees. The searches of [Region] (reach,
    natural loops, can_reach) against the sets they compute, and [dominates]
    against domination: the three searches are one walk that pops a node, skips
    it or marks it and pushes its neighbours. Then the claims. *)

From stdpp Require Import relations.
From S2P Require Import Prelude Cfg CfgDfs CfgDom CfgFrontier Pdom Ssa SsaFacts Pcode Simplify Region.

(** ** The walk *)

Section walk.
Context (g : list (list nat)) (keep : nat → bool) (skip : nat → Prop) `{∀ b, Decision (skip b)}.
Context (start : list nat) (seen0 : gset nat).

(** The neighbours pushed. *)
Definition next (b : nat) : list nat := filter (λ v, keep v = true) (adj g b).

(** The nodes the walk pops. *)
Inductive walked : nat → Prop :=
  | walked_start b : b ∈ start → walked b
  | walked_next u v : walked u → ¬ skip u → u ∉ seen0 → v ∈ next u → walked v.

Record walking (seen : gset nat) (stack : list nat) : Prop := {
  wk_seen0 : seen0 ⊆ seen;
  wk_seen b : b ∈ seen → b ∉ seen0 → walked b ∧ ¬ skip b;
  wk_stack b : b ∈ stack → walked b;
  wk_start b : b ∈ start → b ∈ seen ∨ b ∈ stack ∨ skip b;
  wk_closed u v : u ∈ seen → u ∉ seen0 → v ∈ next u → v ∈ seen ∨ v ∈ stack ∨ skip v
}.

Lemma walking_start : walking seen0 start.
Proof.
  constructor; [done|by intros b ? ?|by constructor|by intros b ?; right; left|by intros u v ? ?].
Qed.

Lemma walking_end seen b : walking seen [] → b ∈ seen ↔ b ∈ seen0 ∨ walked b ∧ ¬ skip b.
Proof.
  intros W. split.
  - intros Hb. destruct (decide (b ∈ seen0)); [by left|right]. by apply (wk_seen _ _ W).
  - intros [?|[Wb Nb]]; [by apply (wk_seen0 _ _ W)|].
    assert (b ∈ seen ∨ b ∈ [] ∨ skip b) as [?|[?%elem_of_nil|?]]; [|done..]. clear Nb.
    induction Wb as [b Hb|u v Wu IH Nu N0 Hv]; [by apply (wk_start _ _ W)|].
    destruct IH as [?|[?%elem_of_nil|?]]; [|done..]. by apply (wk_closed _ _ W u).
Qed.

Lemma walking_drop seen stack b :
  walking seen (stack ++ [b]) → b ∈ seen ∨ skip b → walking seen stack.
Proof.
  intros W Hb. constructor; try apply W.
  - intros c ?. apply (wk_stack _ _ W). apply elem_of_app. by left.
  - intros c Hc. destruct (wk_start _ _ W _ Hc) as [?|[[?| ->%list_elem_of_singleton]%elem_of_app|?]]; tauto.
  - intros u v Hu Hu0 Hv.
    destruct (wk_closed _ _ W _ _ Hu Hu0 Hv) as [?|[[?| ->%list_elem_of_singleton]%elem_of_app|?]]; tauto.
Qed.

Lemma walking_visit seen stack b :
  walking seen (stack ++ [b]) → b ∉ seen → ¬ skip b → walking ({[b]} ∪ seen) (stack ++ next b).
Proof.
  intros W Nb Sb.
  assert (walked b) as Wb by (apply (wk_stack _ _ W), elem_of_app; right; by left).
  assert (b ∉ seen0) as N0 by (intros ?; apply Nb; by apply (wk_seen0 _ _ W)).
  assert (∀ c, c ∈ stack ++ [b] → c ∈ {[b]} ∪ seen ∨ c ∈ stack ++ next b) as Mv.
  { intros c [?| ->%list_elem_of_singleton]%elem_of_app; [right; apply elem_of_app; by left|].
    left. apply elem_of_union. left. by apply elem_of_singleton. }
  constructor.
  - etrans; [apply (wk_seen0 _ _ W)|]. apply union_subseteq_r.
  - intros c [->%elem_of_singleton|Hc]%elem_of_union Hc0; [done|]. by apply (wk_seen _ _ W).
  - intros c [Hc|Hc]%elem_of_app; [apply (wk_stack _ _ W), elem_of_app; by left|].
    by eapply walked_next.
  - intros c Hc. destruct (wk_start _ _ W _ Hc) as [?|[?%Mv|?]]; [|tauto..].
    left. apply elem_of_union. by right.
  - intros u v [->%elem_of_singleton|Hu]%elem_of_union Hu0 Hv.
    + right. left. apply elem_of_app. by right.
    + destruct (wk_closed _ _ W _ _ Hu Hu0 Hv) as [?|[?%Mv|?]]; [|tauto..].
      left. apply elem_of_union. by right.
Qed.
End walk.

(** The edges out of unseen nodes bound what is still pushed. *)
Definition unspent (g : list (list nat)) (seen : gset nat) (b : nat) : nat :=
  if decide (b ∈ seen) then 0 else length (adj g b).
Definition budget (g : list (list nat)) (seen : gset nat) : nat :=
  sum_list (map (unspent g seen) (seq 0 (length g))).

Lemma budget_all g : budget g ∅ = edge_fuel g.
Proof.
  unfold budget, edge_fuel. induction g as [|s g IH] using rev_ind; [done|].
  rewrite length_app, seq_app, !map_app. cbn [length map seq].
  assert (∀ l1 l2, sum_list (l1 ++ l2) = sum_list l1 + sum_list l2) as Sa.
  { intros l1 l2. induction l1 as [|x l1 IH1]; simpl; lia. }
  rewrite !Sa, <-IH. f_equal.
  - f_equal. apply map_ext_in. intros b Hb%list_elem_of_In%elem_of_seq.
    unfold unspent, adj. by rewrite lookup_app_l by lia.
  - unfold unspent, adj. simpl. by rewrite list_lookup_middle.
Qed.

Lemma budget_visit g seen b : b ∉ seen → budget g ({[b]} ∪ seen) + length (adj g b) ≤ budget g seen.
Proof.
  intros Nb. unfold budget.
  assert (∀ l, NoDup l →
    sum_list (map (unspent g ({[b]} ∪ seen)) l) + (if decide (b ∈ l) then length (adj g b) else 0) =
    sum_list (map (unspent g seen) l)) as Hl.
  { induction 1 as [|c l Nc ND IH]; [done|]. cbn [map sum_list_with id].
    rewrite <-IH. destruct (decide (c = b)) as [->|Ne].
    - rewrite (decide_True (P := b ∈ b :: l)) by by left.
      rewrite (decide_False (P := b ∈ l)) by done. unfold unspent at 1 3.
      rewrite decide_True, decide_False by set_solver. lia.
    - assert ((if decide (b ∈ c :: l) then length (adj g b) else 0) =
              (if decide (b ∈ l) then length (adj g b) else 0)) as ->.
      { repeat case_decide; try done; set_solver. }
      assert (unspent g ({[b]} ∪ seen) c = unspent g seen c) as ->; [|lia].
      unfold unspent. repeat case_decide; try done; set_solver. }
  rewrite <-(Hl (seq 0 (length g))) by apply NoDup_seq.
  case_decide as D; [lia|].
  assert (length (adj g b) = 0); [|lia]. unfold adj. rewrite elem_of_seq in D.
  by rewrite lookup_ge_None_2 by lia.
Qed.

Lemma budget_mono g seen : budget g seen ≤ edge_fuel g.
Proof.
  rewrite <-budget_all. unfold budget. induction (seq 0 (length g)) as [|b l IH]; simpl; [done|].
  assert (unspent g seen b ≤ unspent g ∅ b); [|lia].
  unfold unspent. rewrite (decide_False (P := b ∈ ∅)) by apply not_elem_of_empty. case_decide; lia.
Qed.

Lemma next_length g keep b : length (next g keep b) ≤ length (adj g b).
Proof. unfold next. apply length_filter. Qed.

(** ** The searches *)

Section searches.
Context (g : list (list nat)).

(** One step of a search spends its fuel. *)
Lemma fuel_visit (keep : nat → bool) fuel seen (stack : list nat) b :
  b ∉ seen → length (stack ++ [b]) + budget g seen ≤ S fuel →
  length (stack ++ next g keep b) + budget g ({[b]} ∪ seen) ≤ fuel.
Proof.
  intros Nb. rewrite !length_app. simpl.
  pose proof (budget_visit g seen b Nb). pose proof (next_length g keep b). lia.
Qed.

Lemma reach_loop_ok stop fuel seen stack start :
  walking g (λ v, bool_decide (v ≠ stop)) (λ b, b = stop ∨ length g ≤ b) start ∅ seen stack →
  length stack + budget g seen ≤ fuel →
  ∃ r, reach_loop fuel stop g seen stack = Some r ∧
    ∀ b, b ∈ r ↔ walked g (λ v, bool_decide (v ≠ stop)) (λ b, b = stop ∨ length g ≤ b) start ∅ b ∧
                 b ≠ stop ∧ b < length g.
Proof.
  set (keep := λ v, bool_decide (v ≠ stop)). set (skip := λ b, b = stop ∨ length g ≤ b).
  revert seen stack. induction fuel as [|fuel IH]; intros seen stack W F; cbn [reach_loop].
  all: destruct stack as [|b stack _] using rev_ind; [rewrite vec_pop_nil|rewrite vec_pop_snoc].
  1,3: eexists; split; [done|]; intros b; rewrite (walking_end _ _ _ _ _ _ _ W), elem_of_empty;
    unfold skip; split; [intros [[]|[? ?]]|intros (? & ? & ?); right]; (split; [done|lia]).
  - rewrite length_app in F. simpl in F. lia.
  - destruct (decide (b = stop ∨ length g ≤ b)) as [Sk|Sk].
    { apply IH; [eapply walking_drop; [done|by right]|]. rewrite length_app in F. simpl in F. lia. }
    destruct (decide (b ∈ seen)) as [Sn|Sn].
    { apply IH; [eapply walking_drop; [done|by left]|]. rewrite length_app in F. simpl in F. lia. }
    assert (filter (λ s, s ≠ stop) (adj g b) = next g keep b) as ->.
    { unfold next, keep. apply list_filter_iff. intros v. by rewrite bool_decide_eq_true. }
    apply IH; [by apply walking_visit|]. by apply fuel_visit.
Qed.

Lemma loop_nodes_loop_ok header fuel nodes stack start :
  walking g (λ v, bool_decide (v ≠ header)) (λ _, False) start {[header]} nodes stack →
  length stack + budget g nodes ≤ fuel →
  ∃ r, loop_nodes_loop fuel header g nodes stack = Some r ∧
    ∀ b, b ∈ r ↔ b = header ∨ walked g (λ v, bool_decide (v ≠ header)) (λ _, False) start {[header]} b.
Proof.
  set (keep := λ v, bool_decide (v ≠ header)).
  revert nodes stack. induction fuel as [|fuel IH]; intros nodes stack W F; cbn [loop_nodes_loop].
  all: destruct stack as [|b stack _] using rev_ind; [rewrite vec_pop_nil|rewrite vec_pop_snoc].
  1,3: eexists; split; [done|]; intros b; rewrite (walking_end _ _ _ _ _ _ _ W), elem_of_singleton; tauto.
  - rewrite length_app in F. simpl in F. lia.
  - destruct (decide (b ∈ nodes)) as [Sn|Sn].
    { apply IH; [eapply walking_drop; [done|by left]|]. rewrite length_app in F. simpl in F. lia. }
    assert (filter (λ p, p ≠ header) (adj g b) = next g keep b) as ->.
    { unfold next, keep. apply list_filter_iff. intros v. by rewrite bool_decide_eq_true. }
    apply IH; [by apply walking_visit; [|done|intros []]|]. by apply fuel_visit.
Qed.

Lemma can_reach_loop_ok start target avoid fuel seen stack :
  let skip b := Some b = avoid ∧ b ≠ start in
  walking g (λ _, true) skip [start] ∅ seen stack →
  target ∉ seen → length stack + budget g seen ≤ fuel →
  ∃ r, can_reach_loop fuel start target g avoid seen stack = Some r ∧
    (r = true ↔ walked g (λ _, true) skip [start] ∅ target ∧ ¬ skip target).
Proof.
  intros skip. revert seen stack. induction fuel as [|fuel IH]; intros seen stack W Nt F; cbn [can_reach_loop].
  all: destruct stack as [|b stack _] using rev_ind; [rewrite vec_pop_nil|rewrite vec_pop_snoc].
  1,3: eexists; split; [done|]; split; [done|]; intros Hw; exfalso; apply Nt;
    by apply (walking_end _ _ _ _ _ _ _ W); right.
  - rewrite length_app in F. simpl in F. lia.
  - destruct (decide (Some b = avoid ∧ b ≠ start)) as [Sk|Sk].
    { apply IH; [eapply walking_drop; [done|by right]|done|]. rewrite length_app in F. simpl in F. lia. }
    destruct (decide (b ∈ seen)) as [Sn|Sn].
    { apply IH; [eapply walking_drop; [done|by left]|done|]. rewrite length_app in F. simpl in F. lia. }
    destruct (decide (b = target)) as [->|Ne].
    { eexists. split; [done|]. split; [intros _|done]. split; [|done].
      apply (wk_stack _ _ _ _ _ _ _ W). apply elem_of_app. right. by left. }
    assert (adj g b = next g (λ _, true) b) as ->.
    { unfold next. clear. induction (adj g b) as [|x l IH]; [done|].
      by rewrite filter_cons_True, <-IH. }
    apply IH; [by apply walking_visit|set_solver|]. by apply fuel_visit.
Qed.
End searches.

(** ** What the searches compute *)

Lemma reach_ok succ start stop :
  ∃ r, Region.reach start stop succ = Some r ∧
    ∀ b, b ∈ r ↔ start < length succ ∧ start ≠ stop ∧
      rtc (λ u v, edge succ u v ∧ v ≠ stop ∧ v < length succ) start b.
Proof.
  unfold Region.reach. case_decide as D.
  { exists ∅. split; [done|]. intros b. rewrite elem_of_empty. split; [done|]. lia. }
  destruct (reach_loop_ok succ stop (S (edge_fuel succ)) ∅ [start] [start]) as (r & -> & Hr).
  { apply walking_start. }
  { simpl. rewrite budget_all. lia. }
  exists r. split; [done|]. intros b. rewrite Hr. split.
  - intros (W & Nb & Lb). split; [lia|]. split; [lia|].
    induction W as [b ->%list_elem_of_singleton|u v W IH Sk _ Hv]; [done|].
    unfold next in Hv. apply list_elem_of_filter in Hv as [Kv Hv]. apply bool_decide_eq_true in Kv.
    eapply rtc_r; [apply IH; [tauto|lia]|]. done.
  - intros (Ls & Ns & R). revert b R. refine (rtc_ind_r _ _ _ _).
    + split; [constructor; by left|lia].
    + intros u v _ (E & Nv & Lv) [W Lu]. split; [|done]. eapply walked_next; [done|lia|apply not_elem_of_empty|].
      unfold next. apply list_elem_of_filter. by rewrite bool_decide_eq_true.
Qed.

Lemma can_reach_ok succ start target avoid :
  ∃ r, can_reach start target succ avoid = Some r ∧
    (r = true ↔ rtc (λ u v, edge succ u v ∧ (Some v ≠ avoid ∨ v = start)) start target).
Proof.
  unfold can_reach. case_decide as D.
  { subst. exists true. split; [done|]. split; [done|]. done. }
  destruct (can_reach_loop_ok succ start target avoid (S (edge_fuel succ)) ∅ [start]) as (r & -> & Hr).
  { apply walking_start. }
  { apply not_elem_of_empty. }
  { simpl. rewrite budget_all. lia. }
  exists r. split; [done|]. rewrite Hr. clear Hr D. split.
  - intros [W Nt]. revert Nt. induction W as [b ->%list_elem_of_singleton|u v W IH Sk _ Hv]; [done|].
    intros Nv. unfold next in Hv. apply list_elem_of_filter in Hv as [_ Hv].
    eapply rtc_r; [by apply IH|]. split; [done|].
    destruct (decide (v = start)); [by right|left]. intros ?. by apply Nv.
  - revert target. refine (rtc_ind_r _ _ _ _).
    + split; [constructor; by left|]. by intros [_ []].
    + intros u v _ (E & Nv) [W Nu]. split; [|intros [? ?]; by destruct Nv]. eapply walked_next; [done|done|apply not_elem_of_empty|].
      unfold next. by apply list_elem_of_filter.
Qed.

(** Inside the loop of [header]: the header, and the nodes that reach a latch
    without passing it. *)
Definition in_loop (succ : list (list nat)) (header : nat) (latches : list nat) (b : nat) : Prop :=
  b = header ∨
  b ≠ header ∧ ∃ l, l ∈ latches ∧ rtc (λ u v, edge succ u v ∧ v ≠ header) b l.

Lemma natural_loop_ok succ pred header latches :
  (∀ u v, u ∈ adj pred v ↔ edge succ u v) →
  ∃ r, natural_loop_nodes header latches pred = Some r ∧ ∀ b, b ∈ r ↔ in_loop succ header latches b.
Proof.
  intros Hp. unfold natural_loop_nodes.
  destruct (loop_nodes_loop_ok pred header (length latches + edge_fuel pred) {[header]} latches latches)
    as (r & -> & Hr).
  { apply walking_start. }
  { pose proof (budget_mono pred {[header]}). lia. }
  exists r. split; [done|]. intros b. rewrite Hr. unfold in_loop. split.
  - destruct (decide (b = header)) as [|Nb]; [by left|]. intros [?|W]; [done|right]. split; [done|].
    induction W as [b Hb|u v W IH _ Nu Hv]; [by exists b|].
    rewrite elem_of_singleton in Nu. destruct (IH Nu) as (l & Hl & R). exists l. split; [done|].
    unfold next in Hv. apply list_elem_of_filter in Hv as [_ Hv%Hp]. by eapply rtc_l.
  - intros [->|(Nb & l & Hl & R)]; [by left|right].
    revert Nb. induction R as [b|b c l [E Nc] R IH]; intros Nb; [by constructor|].
    eapply walked_next; [by apply IH|intros []|by rewrite elem_of_singleton|].
    unfold next. apply list_elem_of_filter. rewrite bool_decide_eq_true, Hp. done.
Qed.

(** ** Domination *)

Section dominates.
Context (succ : list (list nat)) (entry : nat) (idom : list (option nat)).
Context (T : idom_spec succ entry idom).

Lemma dominates_loop_ok (rk : nat → Z) limit a cur :
  (∀ v, CfgDfs.reach succ entry v → (0 ≤ rk v < Z.of_nat (length succ))%Z) →
  (∀ b d, parent idom b = Some d → b ≠ entry → (rk b < rk d)%Z) →
  CfgDfs.reach succ entry cur → (Z.of_nat (length succ) - rk cur ≤ Z.of_nat limit)%Z →
  dominates_loop limit a cur idom = true ↔
    ∃ p, parent idom cur = Some p ∧ p ≠ cur ∧ rtc (up idom) p a.
Proof.
  intros Rk Up. revert cur. induction limit as [|limit IH]; intros cur Rc L; cbn [dominates_loop].
  { specialize (Rk _ Rc). lia. }
  destruct (parent idom cur) as [p|] eqn:Ep; [|naive_solver].
  destruct (decide (p = cur)) as [->|Np]; [naive_solver|].
  destruct (decide (p = a)) as [->|Na]; [split; [intros _; by exists a|done]|].
  assert (cur ≠ entry) as Ne by (intros ->; rewrite (is_entry _ _ _ T) in Ep; congruence).
  assert (CfgDfs.reach succ entry p) as Rp.
  { destruct (up_parent succ entry idom T cur p Ep) as [_ ?]. done. }
  specialize (Up _ _ Ep Ne). rewrite IH; [|done|lia]. split.
  - intros (q & Eq & Nq & R). exists p. split_and!; [done..|]. by eapply rtc_l.
  - intros (q & [= <-] & _ & R). inversion R as [|? q ? Hq R']; simplify_eq.
    exists q. split_and!; [done| |done]. intros ->.
    destruct (decide (p = entry)) as [->|Npe].
    + apply (up_entry succ entry idom T) in R. congruence.
    + pose proof (is_rank _ _ _ T) as (rk' & _ & Up'). specialize (Up' _ _ Hq Npe). lia.
Qed.

Lemma dominates_ok a b :
  CfgDfs.reach succ entry b → dominates a b idom = true ↔ dom succ entry a b.
Proof.
  intros Rb. unfold dominates. rewrite (is_dom _ _ _ T) by done.
  case_decide as E; [subst; done|].
  destruct (is_rank _ _ _ T) as (rk & Rk & Up).
  rewrite (dominates_loop_ok rk); [|done..|rewrite (is_len _ _ _ T); specialize (Rk _ Rb); lia].
  split.
  - intros (p & Ep & _ & R). by eapply rtc_l.
  - intros R. inversion R as [|? p ? Ep R']; simplify_eq. exists p. split_and!; [done| |done].
    intros ->. destruct (decide (b = entry)) as [->|Ne].
    + apply (up_entry succ entry idom T) in R. congruence.
    + specialize (Up _ _ Ep Ne). lia.
Qed.

Lemma dominates_unreached a b : ¬ CfgDfs.reach succ entry b → dominates a b idom = true ↔ a = b.
Proof.
  intros Nb. unfold dominates. case_decide as E; [done|]. split; [|done].
  cbn [dominates_loop]. destruct (parent idom b) eqn:Ep; [|done].
  exfalso. apply Nb, (is_some _ _ _ T). congruence.
Qed.

(** A natural loop: when the header dominates the latches, it dominates every
    reachable node of the loop. *)
Lemma in_loop_dominated header latches b :
  (∀ l, l ∈ latches → dom succ entry header l) →
  in_loop succ header latches b → dom succ entry header b.
Proof.
  intros HL [->|(Nb & l & Hl & R)]; [apply dom_refl|]. specialize (HL _ Hl). clear Hl.
  revert Nb. induction R as [b|b c l [E Nc] R IH]; intros Nb; [done|].
  eapply dom_pred; [by apply IH|done|done].
Qed.
End dominates.

(** ** Latches *)

Section latches.
Context (succ : list (list nat)) (idom : list (option nat)).

(** [l] closes a loop at [h]. *)
Definition latch (h l : nat) : Prop := edge succ l h ∧ is_back_edge l h idom = true.

(** Both directions by cases on the disjunctions. *)
Local Ltac by_cases :=
  split; intros;
  repeat match goal with
  | H : _ ∨ _ |- _ => destruct H
  | H : _ ∧ _ |- _ => destruct H
  end; subst; try congruence; tauto.

Definition lists (m : gmap nat (list nat)) (Q : nat → nat → Prop) : Prop :=
  ∀ h, (∀ l, l ∈ default [] (m !! h) ↔ Q h l) ∧ m !! h ≠ Some [].

Lemma push_latch_ok m Q b s :
  lists m Q → lists (push_latch idom b m s)
    (λ h l, Q h l ∨ l = b ∧ h = s ∧ is_back_edge b h idom = true).
Proof.
  intros Hm h. destruct (Hm h) as [H1 H2]. unfold push_latch.
  destruct (is_back_edge b s idom) eqn:Bk; [|split; [|done]; intros l; rewrite H1; by_cases].
  destruct (decide (s = h)) as [->|Ne].
  - rewrite lookup_insert_eq. cbn. split; [|intros [= E]; by destruct (default [] (m !! h))].
    intros l. rewrite elem_of_app, H1, list_elem_of_singleton. by_cases.
  - rewrite lookup_insert_ne by done. split; [|done]. intros l. rewrite H1. by_cases.
Qed.

Lemma push_latches_ok m Q b ss :
  lists m Q → lists (foldl (push_latch idom b) m ss)
    (λ h l, Q h l ∨ l = b ∧ h ∈ ss ∧ is_back_edge b h idom = true).
Proof.
  revert m Q. induction ss as [|s ss IH]; intros m Q Hm h; cbn [foldl].
  { destruct (Hm h) as [H1 H2]. split; [|done]. intros l. rewrite H1, elem_of_nil. tauto. }
  destruct (IH _ _ (push_latch_ok m Q b s Hm) h) as [H1 H2]. split; [|done].
  intros l. rewrite H1, elem_of_cons. by_cases.
Qed.

Lemma back_edge_preds_ok : lists (back_edge_preds succ idom (length succ)) latch.
Proof.
  unfold back_edge_preds.
  assert (∀ bs m Q, lists m Q →
    lists (foldl (λ m b, foldl (push_latch idom b) m (adj succ b)) m bs)
      (λ h l, Q h l ∨ l ∈ bs ∧ edge succ l h ∧ is_back_edge l h idom = true)) as Hf.
  { induction bs as [|b bs IH]; intros m Q Hm h; cbn [foldl].
    { destruct (Hm h) as [H1 H2]. split; [|done]. intros l. rewrite H1, elem_of_nil. tauto. }
    destruct (IH _ _ (push_latches_ok m Q b (adj succ b) Hm) h) as [H1 H2]. split; [|done].
    intros l. rewrite H1, elem_of_cons. unfold edge. by_cases. }
  intros h. destruct (Hf (seq 0 (length succ)) ∅ (λ _ _, False)) with (h := h) as [H1 H2].
  { intros k. rewrite lookup_empty. split; [|done]. intros l. cbn. by rewrite elem_of_nil. }
  split; [|done]. intros l. rewrite H1, elem_of_seq. unfold latch.
  split; [tauto|]. intros [E B]. right. split; [|done]. apply edge_lt in E. lia.
Qed.
End latches.

Lemma any_opt_ok {A} (f : A → option bool) (Q : A → Prop) l :
  (∀ x, x ∈ l → ∃ b, f x = Some b ∧ (b = true ↔ Q x)) →
  ∃ b, any_opt f l = Some b ∧ (b = true ↔ ∃ x, x ∈ l ∧ Q x).
Proof.
  induction l as [|x l IH]; intros Hf; cbn [any_opt].
  { exists false. split; [done|]. split; [done|]. by intros (x & ?%elem_of_nil & _). }
  destruct (Hf x) as (b & -> & Hb); [by left|]. cbn.
  destruct IH as (b' & E' & Hb'); [intros; apply Hf; by right|].
  setoid_rewrite elem_of_cons. destruct b.
  - exists true. split; [done|]. split; [|done]. intros _. exists x. naive_solver.
  - exists b'. split; [done|]. rewrite Hb'. naive_solver.
Qed.

(** A member of the loop other than the header reaches a latch around it. *)
Lemma in_loop_reaches succ h ls b :
  in_loop succ h ls b → b ≠ h →
  ∃ l, l ∈ ls ∧ rtc (λ u v, edge succ u v ∧ (Some v ≠ Some h ∨ v = b)) b l.
Proof.
  intros [->|(_ & l & Hl & R)] Nb; [done|]. exists l. split; [done|].
  eapply rtc_subrel; [|exact R]. intros u v [E Nv]. split; [done|]. left. congruence.
Qed.

Section classify.
Context {P : Type} `{PcodeView P}.
Context (ssa : SsaFunction P) (switches : list SwitchInfo) (succ pred : list (list nat)).
Context (resolve_arms : bool).

Notation n := (length (blocks ssa)).
Notation arm := (map_arm ssa resolve_arms).
Notation entry := (entry_index ssa).

(** The adjacency belongs to the function: one vector per block, inverse to
    each other, and a branch has no successors but its two arms. *)
Record fits : Prop := {
  fit_graph : wf_graph succ pred entry;
  fit_len : length succ = n;
  fit_arms b block fall taken :
    blocks ssa !! b = Some block → cbranch_arms block = Some (fall, taken) →
    ∀ v, edge succ b v ↔ v = arm fall ∨ v = arm taken
}.

(** The block an if at [b] merges into: the nearest block that every way from
    [b] to an exit passes, or the virtual exit when there is none. *)
Definition merges (b m : nat) : Prop :=
  (m < n ∧ exits succ b ∧ immediate_post succ m b) ∨
  (m = virtual_exit n ∧ (exits succ b → ∀ x, postdom succ x b → x = b)).

(** The two arms of the branch that ends [block], in either order. *)
Definition arms_are (f : nat → nat) (block : SsaBlock P) (x y : nat) : Prop :=
  ∃ fall taken, cbranch_arms block = Some (fall, taken) ∧
    ((x = f fall ∧ y = f taken) ∨ (x = f taken ∧ y = f fall)).

(** What a region says of the block it is rooted at. *)
Definition region_sound (idom : list (option nat)) (b : nat) (r : Region) : Prop :=
  ∃ block, blocks ssa !! b = Some block ∧
  match r with
  | RReturn => is_return_block block = true
  | Switch _ merge => is_branch_ind block = true ∧ merges b merge
  | IfElse t e merge invert =>
      invert = false ∧ merges b merge ∧ t ≠ merge ∧ e ≠ merge ∧
      ∃ fall taken, cbranch_arms block = Some (fall, taken) ∧ t = arm taken ∧ e = arm fall
  | If body merge invert =>
      merges b merge ∧ body ≠ merge ∧
      ∃ fall taken, cbranch_arms block = Some (fall, taken) ∧
        if invert then body = arm fall ∧ merge = arm taken else body = arm taken ∧ merge = arm fall
  | While body exit =>
      arms_are arm block body exit ∧
      ∃ latches, (∀ l, l ∈ latches ↔ latch succ idom b l) ∧
        in_loop succ b latches body ∧ ¬ in_loop succ b latches exit
  | DoWhile body cond exit =>
      body = b ∧ latch succ idom b cond ∧
      ∃ cblock other, blocks ssa !! cond = Some cblock ∧
        (arms_are arm cblock other exit ∨ arms_are id cblock other exit) ∧
        (resolve_arms = false → other = b)
  | IfThenFallthrough _ _ _ _ => False
  end.

Context (F : fits) (idom ipdom : list (option nat)).
Context (T : idom_spec succ entry idom).
Context (Pd : ∀ b, b < length succ →
      (parent ipdom b ≠ None ↔ exits succ b) ∧
      (∀ d, d < length succ → parent ipdom b = Some d ↔ exits succ b ∧ immediate_post succ d b) ∧
      (parent ipdom b = Some (length succ) ↔ exits succ b ∧ ∀ x, postdom succ x b → x = b)).
Context (Pl : ∀ b d, parent ipdom b = Some d → d ≤ length succ).

Definition all_sound (m : gmap nat Region) : Prop :=
  ∀ b r, m !! b = Some r → region_sound idom b r.

Lemma all_sound_insert m b r : all_sound m → region_sound idom b r → all_sound (<[b := r]> m).
Proof. intros S R b' r' [[<- <-]|[_ ?]]%lookup_insert_Some; [done|by apply S]. Qed.

Lemma merges_parent b m : b < n → parent ipdom b = Some m → merges b m.
Proof.
  intros Lb E. rewrite <-(fit_len F) in Lb. destruct (Pd b Lb) as (P1 & P2 & P3).
  pose proof (Pl _ _ E) as Lm. unfold merges. rewrite <-(fit_len F).
  destruct (decide (m = length succ)) as [->|Ne].
  - right. split; [done|]. intros _. by apply P3.
  - left. assert (m < length succ) as Lt by lia. split; [done|]. by apply P2.
Qed.

Lemma merges_none b : b < n → parent ipdom b = None → merges b (virtual_exit n).
Proof.
  intros Lb E. right. split; [done|]. intros Ex. rewrite <-(fit_len F) in Lb.
  destruct (Pd b Lb) as (P1 & _ & _). by apply P1 in Ex.
Qed.

Lemma merges_default b : b < n → merges b (default (virtual_exit n) (parent ipdom b)).
Proof.
  intros Lb. destruct (parent ipdom b) as [m|] eqn:E; [by apply merges_parent|by apply merges_none].
Qed.

(** *** Returns and switches *)

Lemma return_regions_sound : all_sound (return_regions ssa).
Proof.
  unfold return_regions.
  assert (∀ xs m, (∀ i block, (i, block) ∈ xs → blocks ssa !! i = Some block) → all_sound m →
    all_sound (foldl (λ m '(i, block), if is_return_block block then <[i := RReturn]> m else m) m xs))
    as Hl; [|apply Hl; [|by intros b r ?%lookup_empty_Some]].
  - induction xs as [|[i block] xs IH]; intros m Hx S; [done|]. cbn [foldl].
    apply IH; [intros ???; apply Hx; by right|].
    destruct (is_return_block block) eqn:Rt; [|done]. apply all_sound_insert; [done|].
    exists block. split; [apply Hx; by left|done].
  - intros i block (j & b' & [= -> ->] & ?)%elem_of_lookup_imap. done.
Qed.

Lemma switch_regions_sound sw m xs :
  (∀ i block, (i, block) ∈ xs → blocks ssa !! i = Some block) → all_sound m →
  all_sound (foldl (switch_region sw ipdom (virtual_exit n)) m xs).
Proof.
  revert m. induction xs as [|[i block] xs IH]; intros m Hx S; [done|]. cbn [foldl].
  assert (blocks ssa !! i = Some block) as Hi by (apply Hx; by left).
  assert (i < n) as Li by (by eapply lookup_lt_Some).
  apply IH; [intros ???; apply Hx; by right|]. unfold switch_region.
  destruct (is_branch_ind block) eqn:Bi; cbn [negb]; [|done]. case_decide; [done|].
  apply all_sound_insert; [done|]. exists block. split; [done|]. split; [done|].
  destruct (parent ipdom i) as [m0|] eqn:E; cbn [mbind option_bind].
  - destruct (decide (m0 = virtual_exit n)) as [->|Ne].
    + rewrite decide_False by tauto. by apply merges_parent.
    + rewrite decide_True by done. by apply merges_parent.
  - by apply merges_none.
Qed.

(** *** Loops *)

Lemma back_edge_latches h ls :
  back_edge_preds succ idom n !! h = Some ls → (∀ l, l ∈ ls ↔ latch succ idom h l) ∧ ls ≠ [].
Proof.
  intros E. destruct (back_edge_preds_ok succ idom h) as [H1 H2].
  rewrite (fit_len F), E in H1, H2. split; [done|congruence].
Qed.

(** A header is a block: it is the block of its latch or dominates it. *)
Lemma latch_header h l : latch succ idom h l → h < n.
Proof.
  intros (E & _). apply (wg_succ _ _ _ (fit_graph F)) in E. by rewrite (fit_len F) in E.
Qed.

Lemma self_loop_sound h block r :
  blocks ssa !! h = Some block →
  self_loop ((λ '(fall, taken), (arm fall, arm taken)) <$> cbranch_arms block) h = Some r →
  (∀ l, edge succ l h → l = h → latch succ idom h l) → region_sound idom h r.
Proof.
  intros Hb E HL. unfold self_loop in E. destruct (cbranch_arms block) as [[fall taken]|] eqn:A; [|done].
  cbn in E. case_decide as D; [|done]. injection E as <-. exists block. split; [done|].
  pose proof (fit_arms F h block fall taken Hb A) as Ea.
  split; [done|]. split; [apply HL; [apply Ea; intuition congruence|done]|].
  exists block. case_decide as D2; [exists (arm fall)|exists (arm taken)];
    (split; [done|]); (split; [left; exists fall, taken; split; [done|]; tauto|]); intros; tauto.
Qed.

Lemma top_tested_sound h block ls nodes :
  blocks ssa !! h = Some block →
  (∀ l, l ∈ ls ↔ latch succ idom h l) →
  (∀ b, b ∈ nodes ↔ in_loop succ h ls b) →
  let arms := (λ '(fall, taken), (arm fall, arm taken)) <$> cbranch_arms block in
  self_loop arms h = None →
  ∃ o, top_tested succ arms h ls nodes = Some o ∧ ∀ r, o = Some r → region_sound idom h r.
Proof.
  intros Hb HL HN arms Sl. subst arms. unfold self_loop, top_tested in *.
  destruct (cbranch_arms block) as [[fall taken]|] eqn:A; cbn in *; [|by exists None].
  case_decide as D; [done|].
  assert (∀ b, bool_decide (b ∈ nodes ∨ b = h) = true ↔ in_loop succ h ls b) as In.
  { intros b. rewrite bool_decide_eq_true, HN. split; [|by left].
    intros [?| ->]; [done|by left]. }
  assert (∀ b e, arms_are arm block b e → in_loop succ h ls b → ¬ in_loop succ h ls e →
    region_sound idom h (While b e)) as Wh.
  { intros b e ???. exists block. split; [done|]. split; [done|]. by exists ls. }
  assert (∀ b, in_loop succ h ls b → b ≠ h →
    any_opt (λ l, can_reach b l succ (Some h)) ls = Some true) as Rc.
  { intros b Ib Nb.
    destruct (any_opt_ok (λ l, can_reach b l succ (Some h))
      (λ l, rtc (λ u v, edge succ u v ∧ (Some v ≠ Some h ∨ v = b)) b l) ls) as (r & -> & Hr).
    - intros l _. apply can_reach_ok.
    - f_equal. by apply Hr, (in_loop_reaches succ h ls). }
  destruct (bool_decide (arm fall ∈ nodes ∨ arm fall = h)) eqn:Bf;
    destruct (bool_decide (arm taken ∈ nodes ∨ arm taken = h)) eqn:Bt; cbn.
  - apply In in Bf, Bt. rewrite !Rc by tauto. by exists None.
  - apply In in Bf. eexists. split; [done|]. intros r [= <-].
    apply Wh; [exists fall, taken; tauto|done|]. by rewrite <-In, Bt.
  - apply In in Bt. eexists. split; [done|]. intros r [= <-].
    apply Wh; [exists fall, taken; tauto|done|]. by rewrite <-In, Bf.
  - by exists None.
Qed.

Lemma latch_block h l : latch succ idom h l → ∃ block, blocks ssa !! l = Some block.
Proof.
  intros [E _]. apply edge_lt in E. rewrite (fit_len F) in E. by apply lookup_lt_is_Some_2.
Qed.

Lemma do_while_sound h l hblock lblock other exit :
  blocks ssa !! h = Some hblock → latch succ idom h l → blocks ssa !! l = Some lblock →
  arms_are id lblock other exit → (resolve_arms = false → other = h) →
  region_sound idom h (DoWhile h l exit).
Proof.
  intros Hb HL Lb A O. exists hblock. split; [done|]. split; [done|]. split; [done|].
  exists lblock, other. split; [done|]. split; [by right|done].
Qed.

Lemma bottom_tested_sound h hblock ls :
  blocks ssa !! h = Some hblock → (∀ l, l ∈ ls → latch succ idom h l) →
  ∃ o, bottom_tested ssa h ls = Some o ∧ ∀ r, o = Some r → region_sound idom h r.
Proof.
  intros Hb. induction ls as [|l ls IH]; intros HL; cbn [bottom_tested]; [by exists None|].
  specialize (IH ltac:(intros; apply HL; by right)). case_decide as D; [done|].
  assert (latch succ idom h l) as Ll by (apply HL; by left).
  destruct (latch_block h l Ll) as [lblock Lb]. rewrite Lb. cbn.
  destruct (cbranch_arms lblock) as [[fall taken]|] eqn:A; [|done].
  case_decide as D2; [|done]. eexists. split; [done|]. intros r [= <-].
  apply (do_while_sound h l hblock lblock h); try done. exists fall, taken. split; [done|].
  unfold id. case_decide as D3; [left; by subst|right]. split; [destruct D2; congruence|done].
Qed.

Lemma residual_loop_sound h hblock nodes ls :
  blocks ssa !! h = Some hblock → (∀ l, l ∈ ls → latch succ idom h l) →
  ∃ o, residual_loop ssa h nodes ls = Some o ∧ ∀ r, o = Some r → region_sound idom h r.
Proof.
  intros Hb. induction ls as [|l ls IH]; intros HL; cbn [residual_loop]; [by exists None|].
  specialize (IH ltac:(intros; apply HL; by right)).
  assert (latch succ idom h l) as Ll by (apply HL; by left).
  destruct (latch_block h l Ll) as [lblock Lb]. rewrite Lb. cbn.
  destruct (cbranch_arms lblock) as [[fall taken]|] eqn:A; [|done].
  eexists. split; [done|]. intros r [= <-].
  assert (resolve_arms = false → h = fall ∨ h = taken) as Two.
  { intros R. destruct Ll as [E _]. apply (fit_arms F l lblock fall taken Lb A) in E.
    unfold map_arm in E. by rewrite R in E. }
  repeat case_decide.
  - apply (do_while_sound h l hblock lblock fall); try done. exists fall, taken. auto.
  - apply (do_while_sound h l hblock lblock taken); try done. exists fall, taken. auto.
  - apply (do_while_sound h l hblock lblock fall); try done; [exists fall, taken; auto|].
    intros R. destruct (Two R); congruence.
  - apply (do_while_sound h l hblock lblock taken); try done; [exists fall, taken; auto|].
    intros R. destruct (Two R); congruence.
Qed.

Lemma header_region_sound m h ls :
  (∀ l, l ∈ ls ↔ latch succ idom h l) → ls ≠ [] →
  ∃ o, header_region ssa succ pred arm m h ls = Some o ∧ ∀ r, o = Some r → region_sound idom h r.
Proof.
  intros HL NE. destruct ls as [|l0 ls0] eqn:El; [done|]. rewrite <-El in *. clear NE.
  assert (h < n) as Lh by (apply (latch_header h l0), HL; subst; by left).
  destruct (lookup_lt_is_Some_2 _ _ Lh) as [hblock Hb].
  unfold header_region. rewrite Hb. cbn [mbind option_bind].
  destruct (natural_loop_ok succ pred h ls) as (nodes & -> & Hn); [apply (fit_graph F)|].
  cbn [mbind option_bind].
  destruct (self_loop _ h) as [r|] eqn:Sl.
  { exists (Some r). split; [done|]. intros r' [= <-]. eapply self_loop_sound; [done..|].
    intros l E ->. split; [done|]. unfold is_back_edge, dominates. by rewrite decide_True. }
  destruct (top_tested_sound h hblock ls nodes Hb HL Hn Sl) as (o & -> & Ho). cbn [mbind option_bind].
  destruct o as [r|]; [by eexists|].
  destruct (bottom_tested_sound h hblock ls Hb) as (o & -> & Ho2); [by intros l ?%HL|].
  cbn [mbind option_bind]. destruct o as [r|]; [by eexists|].
  destruct (m !! h); [by exists None|].
  apply (residual_loop_sound h hblock); [done|]. by intros l ?%HL.
Qed.

Lemma loop_regions_sound m hs :
  all_sound m →
  ∃ m', fold_opt (loop_region ssa succ pred arm (back_edge_preds succ idom n)) m hs = Some m' ∧ all_sound m'.
Proof.
  intros S. apply (fold_opt_inv all_sound); [|done]. intros m1 h _ S1. unfold loop_region.
  destruct (back_edge_preds succ idom n !! h) as [ls|] eqn:E; [|by exists m1].
  apply back_edge_latches in E as [HL NE].
  destruct (header_region_sound m1 h ls HL NE) as (o & -> & Ho). cbn.
  eexists. split; [done|]. destruct o; [|done]. by apply all_sound_insert; [|apply Ho].
Qed.

(** *** Ifs *)

(** An arm is empty exactly when it is the merge. *)
Lemma arm_reach b block fall taken a m :
  blocks ssa !! b = Some block → cbranch_arms block = Some (fall, taken) →
  a = arm fall ∨ a = arm taken →
  ∃ r, (if decide (a = m) then Some ∅ else Region.reach a m succ) = Some r ∧ (r = ∅ ↔ a = m).
Proof.
  intros Hb A Ha. case_decide as D; [by exists ∅|].
  destruct (reach_ok succ a m) as (r & -> & Hr). exists r. split; [done|]. split; [|done].
  intros ->. exfalso. apply (not_elem_of_empty (C := gset nat) a), Hr.
  split; [|done]. apply (wg_succ _ _ _ (fit_graph F) b). by apply (fit_arms F b block fall taken).
Qed.

Lemma branch_region_sound m b block :
  blocks ssa !! b = Some block → all_sound m →
  ∃ m', branch_region succ arm ipdom (virtual_exit n) m (b, block) = Some m' ∧ all_sound m' ∧
    (∀ c, is_Some (m !! c) → is_Some (m' !! c)) ∧
    ∀ fall taken, cbranch_arms block = Some (fall, taken) →
      is_Some (m' !! b) ∨ arm fall = arm taken ∧ merges b (arm fall).
Proof.
  intros Hb S. unfold branch_region.
  destruct (m !! b) as [r|] eqn:Em.
  { exists m. split_and!; [done..|]. intros ???. left. by rewrite Em. }
  destruct (cbranch_arms block) as [[fall taken]|] eqn:A; [|by exists m].
  pose proof (merges_default b ltac:(by eapply lookup_lt_Some)) as Mg.
  revert Mg. generalize (default (virtual_exit n) (parent ipdom b)). intros mg Mg.
  destruct (arm_reach b block fall taken (arm taken) mg Hb A) as (tr & -> & Ht); [by right|].
  destruct (arm_reach b block fall taken (arm fall) mg Hb A) as (er & -> & He); [by left|].
  cbn [mbind option_bind].
  assert (∀ r, region_sound idom b r →
    all_sound (<[b := r]> m) ∧ (∀ c, is_Some (m !! c) → is_Some (<[b := r]> m !! c)) ∧
    ∀ fall' taken', Some (fall, taken) = Some (fall', taken') →
      is_Some (<[b := r]> m !! b) ∨ arm fall' = arm taken' ∧ merges b (arm fall')) as Ins.
  { intros r Hr. split_and!; [by apply all_sound_insert| |intros; left; rewrite lookup_insert_eq; eauto].
    intros c ?. apply lookup_insert_is_Some'. by right. }
  destruct (decide (tr = ∅)) as [Te|Te], (decide (er = ∅)) as [Ee|Ee]; rewrite ?Ht, ?He in *.
  - exists m. split_and!; [done..|]. intros ?? [= <- <-]. right. split; [congruence|]. by rewrite Ee.
  - eexists. split; [done|]. apply Ins. exists block. split; [done|]. split; [done|]. split; [done|].
    exists fall, taken. split; [done|]. split; [done|congruence].
  - eexists. split; [done|]. apply Ins. exists block. split; [done|]. split; [done|]. split; [done|].
    exists fall, taken. split; [done|]. split; [done|congruence].
  - eexists. split; [done|]. apply Ins. exists block. split; [done|]. split_and!; try done.
    exists fall, taken. split_and!; done.
Qed.

Lemma branch_regions_sound m xs :
  (∀ i block, (i, block) ∈ xs → blocks ssa !! i = Some block) → all_sound m →
  ∃ m', fold_opt (branch_region succ arm ipdom (virtual_exit n)) m xs = Some m' ∧ all_sound m' ∧
    (∀ c, is_Some (m !! c) → is_Some (m' !! c)) ∧
    ∀ i block fall taken, (i, block) ∈ xs → cbranch_arms block = Some (fall, taken) →
      is_Some (m' !! i) ∨ arm fall = arm taken ∧ merges i (arm fall).
Proof.
  revert m. induction xs as [|[b block] xs IH]; intros m Hx S; cbn [fold_opt].
  { exists m. split_and!; try done. by intros ???? ?%elem_of_nil. }
  destruct (branch_region_sound m b block) as (m1 & -> & S1 & K1 & C1); [apply Hx; by left|done|].
  cbn. destruct (IH m1) as (m' & -> & S' & K' & C'); [intros; apply Hx; by right|done|].
  exists m'. split_and!; [done|done|by intros c ?%K1%K'|].
  intros i blk fall taken [[= -> ->]|Hi]%elem_of_cons A; [|by eapply C'].
  destruct (C1 _ _ A) as [?%K'|?]; [by left|by right].
Qed.
End classify.

(** ** The claims *)

Section claims.
Context {P : Type} `{PcodeView P}.
Implicit Types (ssa : SsaFunction P) (switches : list SwitchInfo).

Lemma fits_pair ssa succ pred resolve : fits ssa succ pred resolve → wf_pair succ pred.
Proof. intros F. destruct (fit_graph _ _ _ _ F). by constructor. Qed.


(** The adjacency of the function itself, where a conditional branch has at most
    two successors. *)
Lemma adj_fits ssa :
  wf_graph (adj_from_ssa ssa).1 (adj_from_ssa ssa).2 (entry_index ssa) →
  (∀ b block, blocks ssa !! b = Some block → is_cbranch block = true →
     length (successor_ids block) ≤ 2) →
  fits ssa (adj_from_ssa ssa).1 (adj_from_ssa ssa).2 false.
Proof.
  intros G L. constructor; [done|by cbn; rewrite length_map|].
  intros b block fall taken Hb A v. unfold edge, adj, adj_from_ssa. cbn.
  rewrite list_lookup_fmap, Hb. cbn. unfold map_arm, cbranch_arms in *.
  destruct (is_cbranch block) eqn:C; [|done]. specialize (L _ _ Hb C).
  destruct (successor_ids block) as [|x [|y [|]]]; cbn in *; simplify_eq; [| |lia].
  - rewrite list_elem_of_singleton. tauto.
  - rewrite !elem_of_cons, elem_of_nil. tauto.
Qed.

(** The natural loop of a reachable header and its latches is the header and
    the blocks that reach a latch without passing it; the walk over
    predecessors ends, and the header dominates the whole loop. *)
Theorem natural_loop_correct succ pred entry idom header latches :
  wf_graph succ pred entry → build_idom succ pred entry = Some idom →
  CfgDfs.reach succ entry header →
  (∀ l, l ∈ latches → latch succ idom header l) →
  ∃ nodes, natural_loop_nodes header latches pred = Some nodes ∧
    ∀ b, b ∈ nodes ↔ in_loop succ header latches b ∧ dom succ entry header b.
Proof.
  intros G B Rh HL. destruct (build_idom_ok _ _ _ G) as (idom' & B' & T).
  rewrite B in B'. injection B' as <-.
  destruct (natural_loop_ok succ pred header latches) as (nodes & -> & Hn); [apply G|].
  exists nodes. split; [done|]. intros b. rewrite Hn. split; [|tauto]. intros Hb. split; [done|].
  eapply in_loop_dominated; [|done].
  intros l [E D]%HL. unfold is_back_edge in D.
  destruct (decide (l = header)) as [->|Ne]; [apply dom_refl|].
  assert (CfgDfs.reach succ entry l ∨ ¬ CfgDfs.reach succ entry l) as [Rl|Nl].
  { pose proof (is_some _ _ _ T l) as Hl. destruct (parent idom l); [left; by apply Hl|right; by intros ?%Hl]. }
  - by apply (dominates_ok succ entry idom T).
  - apply (dominates_unreached succ entry idom T) in D; [congruence|done].
Qed.

Lemma existsb_false {A} (f : A → bool) (l : list A) x : existsb f l = false → x ∈ l → f x = false.
Proof.
  intros E Hx. destruct (f x) eqn:Fx; [|done]. rewrite <-E. symmetry. apply existsb_exists.
  exists x. by rewrite <-list_elem_of_In.
Qed.

(** [b] is a jump-only block and [c] its target. *)
Definition jump ssa (b c : nat) : Prop :=
  ∃ block, blocks ssa !! b = Some block ∧ is_jump_only block = true ∧
    head (successor_ids block) = Some c ∧ c ≠ b.

(** Collapsing jumps follows jump-only blocks and stops early only at a block
    that is not one (or jumps to itself). The blocks skipped have no side effect
    but their jump, reloads of the return-address slot and echoes of parameters
    into their home slots. *)
Theorem resolve_jump_target_correct ssa b limit :
  (∃ k, k ≤ limit ∧ nsteps (jump ssa) k b (resolve_jump_target ssa b limit) ∧
     (k < limit → ∀ c, ¬ jump ssa (resolve_jump_target ssa b limit) c)) ∧
  ∀ c d block op, jump ssa c d → blocks ssa !! c = Some block → op ∈ sb_ops block →
    is_side_effect op = true →
    pcode_is (λ p, match p with Branch _ => true | _ => false end) op = true ∨
    is_noise_stack_reload op = true ∨ is_param_home_store op = true.
Proof.
  split.
  - revert b. induction limit as [|limit IH]; intros b; cbn [resolve_jump_target].
    { exists 0. split; [done|]. split; [constructor|lia]. }
    assert ((∀ c, ¬ jump ssa b c) → ∃ k, k ≤ S limit ∧ nsteps (jump ssa) k b b ∧
      (k < S limit → ∀ c, ¬ jump ssa b c)) as Stop.
    { intros N. exists 0. split; [lia|]. split; [constructor|done]. }
    destruct (blocks ssa !! b) as [block|] eqn:Hb; [|apply Stop; intros c (? & ? & _); congruence].
    destruct (is_jump_only block) eqn:J; cbn [negb];
      [|apply Stop; intros c (? & ? & ? & _); congruence].
    destruct (successor_ids block) as [|c cs] eqn:S;
      [apply Stop; intros c (? & ? & _ & Hd & _); simplify_eq; by rewrite S in Hd|].
    destruct (decide (c = b)) as [->|Nc].
    { apply Stop. intros c (? & ? & _ & Hd & Ne). simplify_eq. rewrite S in Hd. by simplify_eq/=. }
    destruct (IH c) as (k & Lk & Hk & Ek). exists (Datatypes.S k). split; [lia|].
    split; [|intros; apply Ek; lia]. eapply nsteps_l; [|done].
    exists block. by rewrite S.
  - intros c d block op (block' & Hb & J & _) Hb' Hop E. rewrite Hb in Hb'. injection Hb' as ->.
    unfold is_jump_only in J. repeat case_decide; try done.
    destruct (has_pcode _ block) eqn:Rt in J; [done|]. destruct (has_pcode _ block) eqn:Ot in J; [done|].
    apply (existsb_false _ _ op) in Rt, Ot; [|done..].
    unfold is_forwarding_block in J. apply negb_true_iff in J. apply (existsb_false _ _ op) in J; [|done].
    unfold is_side_effect, pcode_is, is_frame_pointer_adjust, pcode_is in *.
    destruct (kind op) as [|p]; [done|].
    destruct (is_noise_stack_reload op); [by auto|]. destruct (is_param_home_store op); [by auto|].
    destruct (view p); cbn in *; auto; done.
Qed.
End claims.

(** ** Short circuits *)

Section short_circuit.
Context {P : Type} `{PcodeView P}.

(** Where the branch of a block goes, by the value of its condition. *)
Definition step_branch (block : SsaBlock P) (cond : bool) : option nat :=
  (λ '(fall, taken), if cond then taken else fall) <$> cbranch_arms block.

(** When two branches are recognised as one condition, the second is reached
    from the first and both share a target; but the other target is reached
    exactly when both conditions are false (for the connective "and") or both
    true (for "or"), while the emitter guards it with the connective itself. *)
Theorem short_circuit_target (ssa : SsaFunction P) b1 conn second shared target :
  detect_short_circuit b1 ssa = Some (conn, second, shared, target) → target ≠ shared →
  ∃ b2, blocks ssa !! second = Some b2 ∧
    ∀ c1 c2,
      (t ← step_branch b1 c1; if decide (t = second) then step_branch b2 c2 else Some t) =
      Some (if (match conn with And => negb c1 && negb c2 | Or => c1 && c2 end)
            then target else shared).
Proof.
  unfold detect_short_circuit, step_branch. destruct (cbranch_arms b1) as [[f1 t1]|]; [|done]. cbn.
  intros D N.
  assert (∀ x y : option (Connective * nat * nat * nat),
    match x with Some r => Some r | None => y end = Some (conn, second, shared, target) →
    x = Some (conn, second, shared, target) ∨ y = Some (conn, second, shared, target)) as Or'
    by (intros [|] ?; auto).
  apply Or' in D as [D|D]; case_decide; try done.
  all: apply bind_Some in D as (b2 & Hb & D); apply bind_Some in D as ([f2 t2] & A & D).
  all: case_decide as C; [|done]; injection D as <- <- <- <-; destruct C as (-> & Nt & _).
  all: exists b2; split; [done|]; intros [] []; rewrite A; cbn;
    rewrite ?(decide_True (P := _ = _)) by done; cbn; try done;
    case_decide; cbn; congruence.
Qed.
End short_circuit.

(** ** Functions of the tests of region.rs, and one with a loop *)

Module RegionSamples.
Definition bop (p : PcodeOp) : SsaOp PcodeOp := mkOp 0 (Pcode p) None [].
Definition block (id : nat) (p : list PcodeOp) (preds succs : list nat) : SsaBlock PcodeOp :=
  mkSsaBlock id (0x1000 + 16 * Z.of_nat id) (map bop p) preds succs.
Definition func (bs : list (SsaBlock PcodeOp)) : SsaFunction PcodeOp := mkSsaFunction 0x1000 64 bs 0.

(** Fallthrough to the else (2), taken to the then (1), join at 3. *)
Definition diamond : SsaFunction PcodeOp :=
  func [block 0 [CBranch] [] [2; 1]; block 1 [] [0] [3]; block 2 [] [0] [3]; block 3 [Return] [1; 2] []].
Definition if_then : SsaFunction PcodeOp :=
  func [block 0 [CBranch] [] [2; 1]; block 1 [] [0] [2]; block 2 [Return] [0; 1] []].
Definition self_loop_fn : SsaFunction PcodeOp :=
  func [block 0 [CBranch] [0] [1; 0]; block 1 [Return] [0] []].
(** A header that leaves to 3, a body of two blocks. *)
Definition while_loop : SsaFunction PcodeOp :=
  func [block 0 [] [] [1]; block 1 [CBranch] [0; 2] [2; 3]; block 2 [Branch (mkVarnode Const 0x1010 8)] [1] [1]; block 3 [Return] [1] []].
(** Two branches that share their taken target 3. *)
Definition two_tests : SsaFunction PcodeOp :=
  func [block 0 [CBranch] [] [1; 3]; block 1 [CBranch] [0] [2; 3]; block 2 [Return] [1] [];
        block 3 [Return] [0; 1] []].
End RegionSamples.

Example classify_diamond :
  option_map (λ m, m !! 0) (classify RegionSamples.diamond []) = Some (Some (IfElse 1 2 3 false)).
Proof. vm_compute. reflexivity. Qed.
Example classify_if_then :
  option_map (λ m, m !! 0) (classify RegionSamples.if_then []) = Some (Some (If 1 2 false)).
Proof. vm_compute. reflexivity. Qed.
Example classify_self_loop :
  option_map (λ m, m !! 0) (classify RegionSamples.self_loop_fn []) = Some (Some (DoWhile 0 0 1)).
Proof. vm_compute. reflexivity. Qed.
Example classify_while :
  option_map (λ m, m !! 1) (classify RegionSamples.while_loop []) = Some (Some (While 2 3)).
Proof. vm_compute. reflexivity. Qed.

Lemma while_loop_wf :
  wf_graph (adj_from_ssa RegionSamples.while_loop).1 (adj_from_ssa RegionSamples.while_loop).2 0.
Proof.
  apply wf_graph_check; [simpl; lia|done|..]; (eapply bool_decide_unpack; vm_compute; exact I).
Qed.


Lemma natural_loop_witness :
  ∃ nodes, natural_loop_nodes 1 [2] (adj_from_ssa RegionSamples.while_loop).2 = Some nodes ∧
    ∀ b, b ∈ nodes ↔ in_loop (adj_from_ssa RegionSamples.while_loop).1 1 [2] b ∧
                     dom (adj_from_ssa RegionSamples.while_loop).1 0 1 b.
Proof.
  apply (natural_loop_correct _ _ 0 [Some 0; Some 0; Some 1; Some 1] 1 [2] while_loop_wf).
  - vm_compute. reflexivity.
  - eapply rtc_l; [|apply rtc_refl]. by left.
  - intros l ->%list_elem_of_singleton. split; [by left|vm_compute; reflexivity].
Defined.

Lemma short_circuit_witness :
  detect_short_circuit (RegionSamples.block 0 [CBranch] [] [1; 3]) RegionSamples.two_tests = Some (And, 1, 3, 2) ∧
  ∃ b2, blocks RegionSamples.two_tests !! 1 = Some b2 ∧
    ∀ c1 c2,
      (t ← step_branch (RegionSamples.block 0 [CBranch] [] [1; 3]) c1;
       if decide (t = 1) then step_branch b2 c2 else Some t) =
      Some (if negb c1 && negb c2 then 2 else 3).
Proof.
  split; [vm_compute; reflexivity|].
  exact (short_circuit_target RegionSamples.two_tests (RegionSamples.block 0 [CBranch] [] [1; 3]) And 1 3 2
    eq_refl ltac:(discriminate)).
Defined.
