(* ===== verification/ModulePe.v ===== *)
(** Rebuilding a PE file from a module's memory in a crash dump,
    [src/loader/dump/module_pe.rs]: copying the mapped bytes and patching the
    headers so that file offsets are section addresses.

    A slice out of range panics; [None] is a panic. Writing the file is not
    modelled: the result is its contents and name. *)

From Stdlib Require Import Strings.Byte Strings.Ascii Strings.String.
From S2P Require Import Prelude Journal Activity MemoryMap.

(** [LoadedDump::modules]; [presence] in thousandths, as [resolve_module_spec]
    ranks it. *)
Record DumpModule := mkModule {
  dm_base : Z;
  dm_size : Z;
  dm_name : string;
  dm_path : string;
  dm_timestamp : Z;
  dm_checksum : Z;
  dm_presence : Z;
  has_pe_headers : bool;
  is_main : bool;
  is_exception_module : bool
}.

Definition MAX_MODULE_IMAGE_BYTES : Z := 256 * 1024 * 1024.

(** ** Slices and little-endian integers *)

(** [&image[off..off + len]] *)
Definition slice (image : bytes) (off len : nat) : option bytes :=
  if decide (off + len ≤ length image) then Some (take len (drop off image)) else None.
(** [image[off..off + bs.len()].copy_from_slice(bs)] *)
Definition patch_at (image : bytes) (off : nat) (bs : bytes) : option bytes :=
  if decide (off + length bs ≤ length image)
  then Some (take off image ++ bs ++ drop (off + length bs) image) else None.

Definition val_byte (z : Z) : byte := default x00 (Byte.of_N (Z.to_N z)).
(** [from_le_bytes], [to_le_bytes] *)
Definition from_le (bs : bytes) : Z := foldr (λ b v, byte_val b + 256 * v)%Z 0%Z bs.
Fixpoint to_le (n : nat) (v : Z) : bytes :=
  match n with
  | 0 => []
  | S n => val_byte (v mod 256)%Z :: to_le n (v / 256)%Z
  end.
Definition read_le (image : bytes) (off len : nat) : option Z := from_le <$> slice image off len.

(** ** The image *)

(** One region of the copying loop, with the bytes copied so far. *)
Definition copy_region (mmap : bytes) (m : ProcessMemoryMap) (base size : Z)
    (acc : bytes * Z) (region : Z * Z) : option (bytes * Z) :=
  let '(image, present) := acc in
  let mod_end := base +sat size in
  let r_end := region.1 +sat region.2 in
  if (r_end <=? base)%Z || (mod_end <=? region.1)%Z then Some acc
  else
    let lo := Z.max region.1 base in
    let hi := Z.min r_end mod_end in
    let copy_len := Z.to_nat (hi - lo) in
    let dst_off := Z.to_nat (lo - base) in
    match as_slice (read_at mmap m lo copy_len) with
    | Some bs =>
        let n := Nat.min (Nat.min (length bs) copy_len) (Z.to_nat size - dst_off) in
        if decide (0 < n) then
          image ← patch_at image dst_off (take n bs);
          Some (image, present + Z.of_nat n)%Z
        else Some acc
    | None => Some acc
    end.

Definition copy_image (mmap : bytes) (m : ProcessMemoryMap) (base size : Z) : option (bytes * Z) :=
  fold_opt (copy_region mmap m base size) (replicate (Z.to_nat size) x00, 0%Z)
    (regions_page m 0 (region_count m)).

(** ** The headers *)

Definition PE_SIGNATURE : bytes := [x50; x45; x00; x00].
Definition SECTION_SIZE : nat := 40.

(** Offsets of [FileAlignment], [SectionAlignment] and [ImageBase] in the
    optional header, and the width of the last. *)
Definition header_fields (magic : Z) : option (nat * nat * nat * nat) :=
  if (magic =? 0x10b)%Z then Some (0x24, 0x20, 0x1c, 4)
  else if (magic =? 0x20b)%Z then Some (0x24, 0x20, 0x18, 8)
  else None.

(** One round of the loop over the section table; [None] on the left is the
    [break]. *)
Definition patch_section (image : bytes) (sh : nat) : option bytes :=
  virtual_size ← read_le image (sh + 8) 4;
  virtual_address ← read_le image (sh + 12) 4;
  size_of_raw ← read_le image (sh + 16) 4;
  let size_of_raw := if (size_of_raw <? virtual_size)%Z then virtual_size else size_of_raw in
  image ← patch_at image (sh + 20) (to_le 4 virtual_address);
  patch_at image (sh + 16) (to_le 4 size_of_raw).

Fixpoint patch_sections (n : nat) (image : bytes) (sh : nat) : option bytes :=
  match n with
  | 0 => Some image
  | S n =>
      if decide (length image < sh + SECTION_SIZE) then Some image
      else image ← patch_section image sh; patch_sections n image (sh + SECTION_SIZE)
  end.

(** The fields of the optional header at [opt]. *)
Definition patch_optional (image : bytes) (opt : nat) (fields : nat * nat * nat * nat)
    (runtime_base : Z) : option bytes :=
  let '(file_align_off, sect_align_off, image_base_off, image_base_size) := fields in
  sect_align ← read_le image (opt + sect_align_off) 4;
  image ← (if (0 <? sect_align)%Z then patch_at image (opt + file_align_off) (to_le 4 sect_align)
           else Some image);
  patch_at image (opt + image_base_off) (to_le image_base_size runtime_base).

(** [patch_memory_image_as_pe] *)
Definition patch_memory_image_as_pe (image : bytes) (runtime_base : Z) : option (Result bytes) :=
  if decide (length image < 0x40) then Some (Err "image too small for DOS header")
  else
    e_lfanew ← read_le image 0x3c 4;
    if (Z.of_nat (length image) <? e_lfanew + 24)%Z then Some (Err "invalid e_lfanew")
    else
      let e_lfanew := Z.to_nat e_lfanew in
      signature ← slice image e_lfanew 4;
      if decide (signature ≠ PE_SIGNATURE) then Some (Err "missing PE signature")
      else
        let coff := e_lfanew + 4 in
        num_sections ← read_le image (coff + 2) 2;
        size_of_optional_header ← read_le image (coff + 16) 2;
        let opt := coff + 20 in
        if decide (length image < opt + 2) then Some (Err "truncated optional header")
        else
          magic ← read_le image opt 2;
          match header_fields magic with
          | None => Some (Err "unknown optional header magic")
          | Some fields =>
              let size_of_optional_header := Z.to_nat size_of_optional_header in
              if decide (length image < opt + size_of_optional_header)
              then Some (Err "optional header extends past image")
              else
                image ← patch_optional image opt fields runtime_base;
                image ← patch_sections (Z.to_nat num_sections) image (opt + size_of_optional_header);
                Some (Ok image)
          end.

(** ** The module *)

Definition is_name_char (c : ascii) : bool :=
  let n := nat_of_ascii c in
  bool_decide (48 ≤ n ≤ 57 ∨ 65 ≤ n ≤ 90 ∨ 97 ≤ n ≤ 122 ∨ n = 45 ∨ n = 46 ∨ n = 95).
Definition map_string (f : ascii → ascii) : string → string :=
  fix go s := match s with EmptyString => EmptyString | String c s => String (f c) (go s) end.

(** [sanitize_module_filename], of a name without directories. *)
Definition sanitize_module_filename (base : string) : string :=
  let out := map_string (λ c, if is_name_char c then c else "_"%char) base in
  if decide (out = ""%string) then "module"%string else out.

Definition lower_char (c : ascii) : ascii :=
  let n := nat_of_ascii c in if decide (65 ≤ n ≤ 90) then ascii_of_nat (n + 32) else c.
(** [str::to_ascii_lowercase] *)
Definition lowercase : string → string := map_string lower_char.

Record ExtractedModulePe := mkExtracted {
  ex_image : bytes;
  ex_file_name : string;
  ex_runtime_base : Z;
  ex_present : Z;
  ex_identity_key : string
}.

Definition identity_key (session_key : string) (m : DumpModule) : string :=
  "dmpmod:" +:+ session_key +:+ ":" +:+ lowercase (sanitize_module_filename (dm_name m)) +:+ ":"
    +:+ hex (dm_timestamp m) +:+ ":" +:+ hex (dm_size m) +:+ ":" +:+ hex (dm_checksum m).

(** [LoadedDump::extract_module_pe], up to the file it writes. *)
Definition extract_module_pe (mmap : bytes) (m : ProcessMemoryMap) (session_key : string)
    (module : DumpModule) : option (Result ExtractedModulePe) :=
  if (dm_size module =? 0)%Z then Some (Err "module has zero size")
  else if (MAX_MODULE_IMAGE_BYTES <? dm_size module)%Z then Some (Err "refuse full extract")
  else if negb (has_pe_headers module) then Some (Err "no PE headers in the dump")
  else
    '(image, present) ← copy_image mmap m (dm_base module) (dm_size module);
    if (present =? 0)%Z then Some (Err "no pages present in dump")
    else if decide (length image < 0x40) then Some (Err "extracted image is not a PE (missing MZ)")
    else if decide (take 2 image ≠ [x4d; x5a]) then Some (Err "extracted image is not a PE (missing MZ)")
    else
      patched ← patch_memory_image_as_pe image (dm_base module);
      Some match patched with
           | Err e => Err e
           | Ok image =>
               Ok (mkExtracted image
                     (sanitize_module_filename (dm_name module) +:+ "_" +:+ hex (dm_base module) +:+ ".pe.bin")
                     (dm_base module) present (identity_key session_key module))
           end.
