(* ===== verification/ModulePeCorrect.v ===== *)
(** Modules rebuilt from a dump: little-endian fields, patches that change a range
    only, and the copying loop. Read through the PE address space of the rebuilt
    file, they give the memory of the dump; and a malformed header makes the
    rebuilding panic. *)

From Stdlib Require Import Strings.Byte.
From S2P Require Import Prelude Journal Activity MemoryMap Loader ModulePe.
Import AddressSpace.

(** ** Little-endian integers *)

Lemma byte_val_bound b : (0 ≤ byte_val b < 256)%Z.
Proof. unfold byte_val. pose proof (Byte.to_N_bounded b). lia. Qed.
Lemma byte_val_byte z : (0 ≤ z < 256)%Z → byte_val (val_byte z) = z.
Proof.
  intros R. unfold val_byte, byte_val. destruct (Byte.of_N (Z.to_N z)) as [b|] eqn:E; cbn.
  - apply Byte.to_of_N in E. lia.
  - apply Byte.of_N_None_iff in E. lia.
Qed.
Lemma to_le_length n v : length (to_le n v) = n.
Proof. revert v. induction n; intros; simpl; auto. Qed.
Lemma from_to_le n v : from_le (to_le n v) = (v mod 256 ^ Z.of_nat n)%Z.
Proof.
  revert v. induction n as [|n IH]; intros v; [by rewrite Z.mod_1_r|].
  cbn [to_le from_le foldr]. fold (from_le (to_le n (v / 256))). rewrite IH, byte_val_byte by (apply Z.mod_pos_bound; lia).
  rewrite Nat2Z.inj_succ, Z.pow_succ_r by lia. rewrite Z.rem_mul_r by lia. lia.
Qed.
Lemma from_le_bound bs : (0 ≤ from_le bs < 256 ^ Z.of_nat (length bs))%Z.
Proof.
  induction bs as [|b bs IH]; [done|]. cbn [from_le foldr length]. fold (from_le bs).
  rewrite Nat2Z.inj_succ, Z.pow_succ_r by lia. pose proof (byte_val_bound b). lia.
Qed.

(** ** Slices and patches *)

Lemma slice_length image off len bs : slice image off len = Some bs → length bs = len.
Proof.
  unfold slice. intros E. case_decide; [|done]. simplify_eq. rewrite length_take, length_drop. lia.
Qed.
Lemma slice_lookup image off len bs i :
  slice image off len = Some bs → i < len → bs !! i = image !! (off + i).
Proof. unfold slice. intros E Hi. case_decide; [|done]. simplify_eq. by apply lookup_slice. Qed.
Lemma slice_agree im im' off len :
  length im' = length im → (∀ i, off ≤ i < off + len → im' !! i = im !! i) →
  slice im' off len = slice im off len.
Proof.
  intros L A. unfold slice. rewrite L. case_decide; [|done]. f_equal.
  apply list_eq. intros i. destruct (decide (i < len)) as [Hi|Hi].
  - rewrite !lookup_slice by done. apply A. lia.
  - by rewrite !lookup_take_ge by lia.
Qed.

(** [im'] differs from [im] in [[lo, hi)] only. *)
Definition same_outside (lo hi : nat) (im im' : bytes) : Prop :=
  length im' = length im ∧ ∀ i, ¬ (lo ≤ i < hi) → im' !! i = im !! i.

Lemma same_refl lo hi im : same_outside lo hi im im.
Proof. done. Qed.
Lemma same_trans lo hi im1 im2 im3 :
  same_outside lo hi im1 im2 → same_outside lo hi im2 im3 → same_outside lo hi im1 im3.
Proof. intros [L1 A1] [L2 A2]. split; [congruence|]. intros i Hi. by rewrite A2, A1. Qed.
Lemma same_mono lo hi lo' hi' im im' :
  same_outside lo hi im im' → lo' ≤ lo → hi ≤ hi' → same_outside lo' hi' im im'.
Proof. intros [L A] ??. split; [done|]. intros i Hi. apply A. lia. Qed.
Lemma same_read lo hi im im' off len :
  same_outside lo hi im im' → off + len ≤ lo ∨ hi ≤ off → read_le im' off len = read_le im off len.
Proof.
  intros [L A] D. unfold read_le. f_equal. apply slice_agree; [done|]. intros i Hi. apply A. lia.
Qed.

Lemma patch_at_Some im off bs :
  off + length bs ≤ length im →
  ∃ im', patch_at im off bs = Some im' ∧ same_outside off (off + length bs) im im' ∧
    (∀ i, i < length bs → im' !! (off + i) = bs !! i) ∧
    read_le im' off (length bs) = Some (from_le bs).
Proof.
  intros L. unfold patch_at. rewrite decide_True by done. eexists. split; [done|].
  set (im' := take _ _ ++ _).
  assert (length im' = length im) as L'.
  { unfold im'. rewrite !length_app, length_take, length_drop. lia. }
  assert (∀ i, i < length bs → im' !! (off + i) = bs !! i) as Hin.
  { intros i Hi. unfold im'. rewrite lookup_app_r by (rewrite length_take; lia).
    rewrite length_take, Nat.min_l by lia. rewrite lookup_app_l by lia. f_equal. lia. }
  split_and!; [split; [done|]|done|].
  - intros i Hi. unfold im'. destruct (decide (i < off)).
    + rewrite lookup_app_l by (rewrite length_take; lia). by apply lookup_take_lt.
    + rewrite lookup_app_r by (rewrite length_take; lia). rewrite length_take, Nat.min_l by lia.
      rewrite lookup_app_r by lia. rewrite lookup_drop. f_equal. lia.
  - unfold read_le, slice. rewrite decide_True by lia. simpl. do 2 f_equal.
    apply list_eq. intros i. destruct (decide (i < length bs)).
    + rewrite lookup_slice by done. auto.
    + rewrite lookup_take_ge by lia. by rewrite lookup_ge_None_2 by lia.
Qed.
Lemma patch_at_inv im off bs im' :
  patch_at im off bs = Some im' →
  same_outside off (off + length bs) im im' ∧ read_le im' off (length bs) = Some (from_le bs).
Proof.
  intros E. assert (off + length bs ≤ length im) as L
    by (unfold patch_at in E; case_decide; done || lia).
  destruct (patch_at_Some _ _ _ L) as (im1 & E1 & S & _ & R). naive_solver.
Qed.

(** A little-endian patch of [n] bytes reads back modulo their range. *)
Lemma patch_le_inv im off n v im' :
  patch_at im off (to_le n v) = Some im' →
  same_outside off (off + n) im im' ∧ read_le im' off n = Some (v mod 256 ^ Z.of_nat n)%Z.
Proof.
  intros [S R]%patch_at_inv. rewrite to_le_length in *. by rewrite from_to_le in R.
Qed.
Lemma patch_le_Some im off n v :
  off + n ≤ length im → is_Some (patch_at im off (to_le n v)).
Proof.
  intros L. destruct (patch_at_Some im off (to_le n v)) as (im' & -> & _); [by rewrite to_le_length|].
  by eexists.
Qed.
Lemma read_le_Some im off n : off + n ≤ length im → is_Some (read_le im off n).
Proof. intros L. unfold read_le, slice. rewrite decide_True by done. by eexists. Qed.
Lemma read_le_bound im off n v : read_le im off n = Some v → (0 ≤ v < 256 ^ Z.of_nat n)%Z ∧ off + n ≤ length im.
Proof.
  unfold read_le. intros (bs & E & ->)%fmap_Some. pose proof (slice_length _ _ _ _ E) as L.
  pose proof (from_le_bound bs) as B. rewrite L in B. split; [done|].
  unfold slice in E. case_decide; done.
Qed.

(** ** The copying loop *)

Section copy.
Variables (mmap : bytes) (m : ProcessMemoryMap) (base : Z) (n : nat).
Hypothesis wf : wf_regions mmap (regions m).
Hypothesis base_nat : (0 ≤ base)%Z.
Hypothesis size_pos : 0 < n.
Hypothesis fits : (base + Z.of_nat n ≤ u64_max)%Z.

(** A read inside one region returns all its bytes. *)
Lemma read_inside r va len :
  r ∈ regions m → (va_start r ≤ va)%Z → 0 < len → (va + Z.of_nat len ≤ va_start r + rg_size r)%Z →
  ∃ bs, as_slice (read_at mmap m va len) = Some bs ∧ length bs = len ∧
    ∀ i, i < len → bs !! i = byte_at mmap (regions m) (va + Z.of_nat i).
Proof.
  intros Hin Hs Hl He. assert (wf_region mmap r) as Wr
    by (destruct wf as [F _]; rewrite Forall_forall in F; auto).
  assert (in_region va r = true) as I by (apply in_region_iff; lia).
  pose proof (search_spec mmap (regions m) va wf) as S. unfold read_at. rewrite decide_False by lia.
  rewrite (find_region _ _ _ _ wf Hin I) in S.
  destruct (regions m !! _) as [r'|]; [|done]. destruct S as (_ & V & F).
  destruct (Z.ltb_spec va (va_start r')); [done|]. injection F as <-. simpl.
  rewrite (proj2 (Z.leb_gt _ _)) by done.
  destruct (slice_from_region_spec mmap r va len Wr I Hl) as (bs & E1 & E2 & _ & E4).
  exists bs. split; [done|]. split; [lia|]. intros i Hi. rewrite E4 by lia. symmetry.
  apply byte_at_region; [done..|]. apply in_region_iff. lia.
Qed.

Lemma copy_region_spec r im p :
  r ∈ regions m → length im = n →
  ∃ im', copy_region mmap m base (Z.of_nat n) (im, p) (va_start r, rg_size r) =
      Some (im', (p + overlap base (base + Z.of_nat n) r)%Z) ∧
    length im' = n ∧
    ∀ i, i < n → im' !! i = if in_region (base + Z.of_nat i) r
                            then byte_at mmap (regions m) (base + Z.of_nat i) else im !! i.
Proof.
  intros Hin Hn. assert (wf_region mmap r) as Wr
    by (destruct wf as [F _]; rewrite Forall_forall in F; auto).
  pose proof (region_end_eq _ _ Wr) as Er. unfold region_end in Er. unfold copy_region, overlap. simpl.
  rewrite Er, (sat_add_small base) by (mach || done). destruct Wr.
  set (e := (va_start r + rg_size r)%Z) in *. set (e' := (base + Z.of_nat n)%Z) in *.
  destruct (Z.leb_spec e base) as [|L1]; simpl.
  { exists im. split; [do 2 f_equal; lia|]. split; [done|]. intros i Hi.
    rewrite (proj2 (in_region_false _ r)) by lia. done. }
  destruct (Z.leb_spec e' (va_start r)) as [|L2].
  { exists im. split; [do 2 f_equal; lia|]. split; [done|]. intros i Hi.
    rewrite (proj2 (in_region_false _ r)) by lia. done. }
  set (lo := Z.max (va_start r) base). set (hi := Z.min e e').
  destruct (decide (hi ≤ lo)%Z) as [Hle|Hlt].
  { exfalso. unfold lo, hi, e, e' in *. lia. }
  destruct (read_inside r lo (Z.to_nat (hi - lo)) Hin) as (bs & -> & Lb & Hb);
    [unfold lo; lia|lia|unfold hi, e; lia|].
  rewrite Lb, Nat.min_id, Nat2Z.id.
  assert (Nat.min (Z.to_nat (hi - lo)) (n - Z.to_nat (lo - base)) = Z.to_nat (hi - lo)) as ->
    by (unfold lo, hi, e' in *; lia).
  rewrite decide_True by lia. rewrite take_ge by lia.
  destruct (patch_at_Some im (Z.to_nat (lo - base)) bs) as (im' & -> & [L' Out] & Ins & _).
  { unfold lo, hi, e' in *. lia. }
  exists im'. simpl. split; [do 2 f_equal; lia|]. split; [congruence|]. intros i Hi.
  destruct (in_region (base + Z.of_nat i) r) eqn:E;
    [apply in_region_iff in E|apply in_region_false in E].
  - replace i with (Z.to_nat (lo - base) + (i - Z.to_nat (lo - base))) at 1
      by (unfold lo; lia).
    rewrite Ins, Hb by (unfold lo, hi, e, e' in *; lia). f_equal. unfold lo. lia.
  - apply Out. rewrite Lb. unfold lo, hi, e, e' in *. lia.
Qed.

Lemma copy_regions_spec rs im p :
  wf_regions mmap rs → (∀ r, r ∈ rs → r ∈ regions m) → length im = n →
  ∃ im', fold_opt (copy_region mmap m base (Z.of_nat n)) (im, p) ((λ r, (va_start r, rg_size r)) <$> rs) =
      Some (im', (p + count (mapped rs) base n)%Z) ∧
    length im' = n ∧
    ∀ i, i < n → im' !! i = if mapped rs (base + Z.of_nat i)
                            then byte_at mmap (regions m) (base + Z.of_nat i) else im !! i.
Proof.
  revert im p. induction rs as [|r rs IH]; intros im p W Sub Hn.
  { exists im. rewrite count_none by done. split; [simpl; do 2 f_equal; lia|]. split; done. }
  rewrite (count_mapped_cons _ _ _ _ _ W). pose proof W as (Wr & B & W')%wf_regions_cons.
  destruct (copy_region_spec r im p) as (im1 & E1 & L1 & H1); [set_solver|done|].
  destruct (IH im1 (p + overlap base (base + Z.of_nat n) r)%Z W') as (im2 & E2 & L2 & H2);
    [set_solver|done|].
  exists im2. rewrite fmap_cons. cbn [fold_opt]. rewrite E1. cbn [mbind option_bind]. rewrite E2.
  split; [do 2 f_equal; lia|]. split; [done|]. intros i Hi. rewrite H2, mapped_cons, H1 by done.
  destruct (in_region (base + Z.of_nat i) r), (mapped rs _); done.
Qed.

(** The image is the module's memory, zero where the dump holds nothing. *)
Lemma copy_image_spec :
  ∃ im, copy_image mmap m base (Z.of_nat n) = Some (im, count (mapped (regions m)) base n) ∧
    length im = n ∧
    ∀ i, i < n → im !! i = Some (default x00 (byte_at mmap (regions m) (base + Z.of_nat i))).
Proof.
  unfold copy_image, regions_page, region_count. rewrite drop_0, take_ge by done.
  destruct (copy_regions_spec (regions m) (replicate n x00) 0 wf) as (im & E & L & Hi);
    [done|apply length_replicate|].
  rewrite Nat2Z.id, E. exists im. split_and!; [done..|]. intros i Hl. rewrite Hi by done.
  unfold mapped, byte_at. destruct (find_first _ _) as [r|] eqn:F; simpl.
  - apply find_first_Some in F as [Hin I%in_region_iff].
    destruct wf as [Wf _]. rewrite Forall_forall in Wf. destruct (Wf r Hin).
    destruct (mmap !! _) as [b|] eqn:Em; [done|]. apply lookup_ge_None in Em. lia.
  - by rewrite lookup_replicate_2.
Qed.
End copy.

(** ** The headers as a PE parser reads them *)

(** Where the optional header starts, its size, how many sections follow, and
    the offsets of the patched fields. *)
Record PeView := mkView {
  pv_opt : nat;
  pv_opt_size : nat;
  pv_sections : nat;
  pv_fields : nat * nat * nat * nat
}.
Definition pe_view (image : bytes) : option PeView :=
  e ← read_le image 0x3c 4;
  let e := Z.to_nat e in
  n ← read_le image (e + 6) 2;
  s ← read_le image (e + 20) 2;
  magic ← read_le image (e + 24) 2;
  fields ← header_fields magic;
  Some (mkView (e + 24) (Z.to_nat s) (Z.to_nat n) fields).
Definition pv_table (v : PeView) : nat := pv_opt v + pv_opt_size v.
Definition pv_end (v : PeView) : nat := pv_table v + 40 * pv_sections v.

Definition section_header (image : bytes) (sh : nat) : option Section_ :=
  vs ← read_le image (sh + 8) 4;
  va ← read_le image (sh + 12) 4;
  rs ← read_le image (sh + 16) 4;
  ra ← read_le image (sh + 20) 4;
  ch ← read_le image (sh + 36) 4;
  Some (mkSection va vs ra rs ch).
Fixpoint section_table (n : nat) (image : bytes) (sh : nat) : list Section_ :=
  match n with
  | 0 => []
  | S n =>
      if decide (length image < sh + 40) then []
      else option_list (section_header image sh) ++ section_table n image (sh + 40)
  end.
(** The image base stored in the headers. *)
Definition stored_base (image : bytes) (v : PeView) : option Z :=
  let '(_, _, off, size) := pv_fields v in read_le image (pv_opt v + off) size.

(** A section at the same place in the file and in memory. *)
Definition file_aligned (s : Section_) : Section_ :=
  mkSection (vaddr s) (vsize s) (vaddr s) (Z.max (vsize s) (raw_size s)) (characteristics s).

Lemma same_section_header lo hi im im' sh :
  same_outside lo hi im im' → sh + 40 ≤ lo ∨ hi ≤ sh → section_header im' sh = section_header im sh.
Proof.
  intros S D. unfold section_header. by rewrite !(same_read _ _ _ _ _ 4 S) by lia.
Qed.
Lemma same_section_table lo hi im im' n sh :
  same_outside lo hi im im' → sh + 40 * n ≤ lo ∨ hi ≤ sh →
  section_table n im' sh = section_table n im sh.
Proof.
  intros S. revert sh. induction n as [|n IH]; intros sh D; [done|]. simpl.
  rewrite (proj1 S), (same_section_header _ _ _ _ _ S), IH by lia. done.
Qed.

Lemma patch_section_spec im sh :
  sh + 40 ≤ length im →
  ∃ im' s, patch_section im sh = Some im' ∧ same_outside sh (sh + 40) im im' ∧
    section_header im sh = Some s ∧ section_header im' sh = Some (file_aligned s).
Proof.
  intros L. unfold patch_section, section_header.
  destruct (read_le_Some im (sh + 8) 4) as [vs Evs]; [lia|].
  destruct (read_le_Some im (sh + 12) 4) as [va Eva]; [lia|].
  destruct (read_le_Some im (sh + 16) 4) as [rs Ers]; [lia|].
  destruct (read_le_Some im (sh + 20) 4) as [ra Era]; [lia|].
  destruct (read_le_Some im (sh + 36) 4) as [ch Ech]; [lia|].
  rewrite Evs, Eva, Ers, Era, Ech. cbn [mbind option_bind].
  set (size := if (rs <? vs)%Z then vs else rs).
  assert (size = Z.max vs rs) as Esz by (unfold size; destruct (Z.ltb_spec rs vs); lia).
  pose proof (read_le_bound _ _ _ _ Evs) as [Bvs _].
  pose proof (read_le_bound _ _ _ _ Eva) as [Bva _].
  pose proof (read_le_bound _ _ _ _ Ers) as [Brs _].
  destruct (patch_le_Some im (sh + 20) 4 va) as [im1 E1]; [lia|]. rewrite E1. cbn [mbind option_bind].
  apply patch_le_inv in E1 as [S1 R1].
  destruct (patch_le_Some im1 (sh + 16) 4 size) as [im2 E2]; [rewrite (proj1 S1); lia|].
  apply patch_le_inv in E2 as E2'. destruct E2' as [S2 R2].
  exists im2, (mkSection va vs ra rs ch). split_and!; [done| |done|].
  - eapply same_trans; eapply same_mono; [exact S1| | |exact S2| |]; lia.
  - rewrite (same_read _ _ _ _ (sh + 8) 4 S2), (same_read _ _ _ _ _ _ S1), Evs by lia.
    rewrite (same_read _ _ _ _ (sh + 12) 4 S2), (same_read _ _ _ _ (sh + 12) 4 S1), Eva by lia.
    rewrite R2, (same_read _ _ _ _ (sh + 20) 4 S2), R1 by lia.
    rewrite (same_read _ _ _ _ (sh + 36) 4 S2), (same_read _ _ _ _ (sh + 36) 4 S1), Ech by lia.
    cbn [mbind option_bind]. unfold file_aligned. simpl. rewrite !Z.mod_small by lia. by rewrite Esz, Z.max_comm.
Qed.

Lemma patch_sections_spec n im sh :
  ∃ im', patch_sections n im sh = Some im' ∧ same_outside sh (sh + 40 * n) im im' ∧
    section_table n im' sh = file_aligned <$> section_table n im sh.
Proof.
  revert im sh. induction n as [|n IH]; intros im sh; simpl.
  { exists im. split_and!; [done|apply same_refl|done]. }
  unfold SECTION_SIZE. case_decide as L.
  { exists im. split_and!; [done|apply same_refl|]. by rewrite decide_True. }
  destruct (patch_section_spec im sh) as (im1 & s & E1 & S1 & H1 & H1'); [lia|].
  destruct (IH im1 (sh + 40)) as (im2 & E2 & S2 & T2).
  exists im2. rewrite E1. cbn [mbind option_bind]. split_and!; [done| |].
  - eapply same_trans; eapply same_mono; [exact S1| | |exact S2| |]; lia.
  - rewrite (proj1 S2), (proj1 S1), decide_False by done. rewrite T2.
    rewrite (same_section_header _ _ _ _ _ S2), H1, H1' by lia. simpl. f_equal. f_equal.
    eapply same_section_table; [exact S1|]. lia.
Qed.

Lemma header_fields_cases magic fields :
  header_fields magic = Some fields →
  fields = (0x24, 0x20, 0x1c, 4) ∨ fields = (0x24, 0x20, 0x18, 8).
Proof. unfold header_fields. repeat case_match; intros; simplify_eq; auto. Qed.

Lemma patch_optional_spec im opt fields base :
  fields = (0x24, 0x20, 0x1c, 4) ∨ fields = (0x24, 0x20, 0x18, 8) →
  opt + 0x28 ≤ length im →
  ∃ im', patch_optional im opt fields base = Some im' ∧
    same_outside (opt + 0x18) (opt + 0x28) im im' ∧
    let '(_, _, off, size) := fields in
    read_le im' (opt + off) size = Some (base mod 256 ^ Z.of_nat size)%Z.
Proof.
  intros F L. assert (∃ off size, fields = (0x24, 0x20, off, size) ∧ 0x18 ≤ off ∧ off + size = 0x20)
    as (off & size & -> & F1 & F2) by (destruct F as [->| ->]; do 2 eexists; (split; [done|lia])).
  unfold patch_optional.
  destruct (read_le_Some im (opt + 0x20) 4) as [sa Esa]; [lia|]. rewrite Esa. cbn [mbind option_bind].
  assert (∃ im1, (if (0 <? sa)%Z then patch_at im (opt + 0x24) (to_le 4 sa) else Some im) = Some im1 ∧
    same_outside (opt + 0x18) (opt + 0x28) im im1) as (im1 & -> & S1).
  { destruct (0 <? sa)%Z; [|exists im; split; [done|apply same_refl]].
    destruct (patch_le_Some im (opt + 0x24) 4 sa) as [im1 E1]; [lia|]. exists im1. split; [done|].
    apply patch_le_inv in E1 as [S _]. eapply same_mono; [exact S|lia..]. }
  cbn [mbind option_bind].
  destruct (patch_le_Some im1 (opt + off) size base) as [im2 E2]; [rewrite (proj1 S1); lia|].
  exists im2. split; [done|]. apply patch_le_inv in E2 as [S2 R2]. split; [|done].
  eapply same_trans; [exact S1|]. eapply same_mono; [exact S2|lia..].
Qed.

(** Headers with room for the fields that are patched, before the section
    table. *)
Record good_headers (im : bytes) (v : PeView) : Prop := {
  gh_view : pe_view im = Some v;
  gh_signature : slice im (pv_opt v - 24) 4 = Some PE_SIGNATURE;
  gh_after : 0x40 ≤ pv_opt v + 0x18;
  gh_size : 0x28 ≤ pv_opt_size v;
  gh_fits : pv_table v ≤ length im
}.

(** Patching succeeds; it changes nothing outside the optional header's tail and
    the section table. *)
Lemma patch_spec im v base :
  good_headers im v →
  ∃ im', patch_memory_image_as_pe im base = Some (Ok im') ∧
    same_outside (pv_opt v + 0x18) (pv_end v) im im' ∧
    pe_view im' = Some v ∧
    stored_base im' v = Some (base mod 256 ^ Z.of_nat (pv_fields v).2)%Z ∧
    section_table (pv_sections v) im' (pv_table v) =
      file_aligned <$> section_table (pv_sections v) im (pv_table v).
Proof.
  intros [V Sig A Sz Fit]. unfold pv_end, pv_table in *. unfold pe_view in V.
  destruct (read_le im 0x3c 4) as [e|] eqn:Ee; [|done]. cbn [mbind option_bind] in V.
  pose proof (read_le_bound _ _ _ _ Ee) as [Be Le].
  destruct (read_le im (Z.to_nat e + 6) 2) as [ns|] eqn:En; [|done]. cbn [mbind option_bind] in V.
  destruct (read_le im (Z.to_nat e + 20) 2) as [so|] eqn:Eso; [|done]. cbn [mbind option_bind] in V.
  destruct (read_le im (Z.to_nat e + 24) 2) as [mg|] eqn:Em; [|done]. cbn [mbind option_bind] in V.
  destruct (header_fields mg) as [fields|] eqn:Ef; [|done]. cbn [mbind option_bind] in V.
  injection V as <-. simpl in *. set (opt := Z.to_nat e + 24) in *.
  unfold patch_memory_image_as_pe. rewrite decide_False by lia. rewrite Ee. cbn [mbind option_bind].
  rewrite (proj2 (Z.ltb_ge _ _)) by (unfold opt in *; lia).
  replace (opt - 24) with (Z.to_nat e) in Sig by (unfold opt; lia). rewrite Sig. cbn [mbind option_bind].
  rewrite decide_False by tauto.
  replace (Z.to_nat e + 4 + 2) with (Z.to_nat e + 6) by lia. rewrite En. cbn [mbind option_bind].
  replace (Z.to_nat e + 4 + 16) with (Z.to_nat e + 20) by lia. rewrite Eso. cbn [mbind option_bind].
  replace (Z.to_nat e + 4 + 20) with opt by (unfold opt; lia).
  rewrite decide_False by lia. rewrite Em. cbn [mbind option_bind]. rewrite Ef.
  rewrite decide_False by lia.
  destruct (patch_optional_spec im opt fields base (header_fields_cases _ _ Ef)) as (im1 & E1 & S1 & B1); [lia|].
  destruct (patch_sections_spec (Z.to_nat ns) im1 (opt + Z.to_nat so)) as (im2 & E2 & S2 & T2).
  rewrite E1. cbn [mbind option_bind]. rewrite E2. cbn [mbind option_bind]. exists im2.
  assert (same_outside (opt + 0x18) (opt + Z.to_nat so + 40 * Z.to_nat ns) im im2) as S.
  { eapply same_trans; eapply same_mono; [exact S1| | |exact S2| |]; lia. }
  split_and!; [done|done| | |].
  - unfold pe_view. rewrite (same_read _ _ _ _ 0x3c 4 S), Ee by lia. cbn [mbind option_bind].
    rewrite (same_read _ _ _ _ (Z.to_nat e + 6) 2 S), En by (unfold opt; lia). cbn [mbind option_bind].
    rewrite (same_read _ _ _ _ (Z.to_nat e + 20) 2 S), Eso by (unfold opt; lia). cbn [mbind option_bind].
    change (Z.to_nat e + 24) with opt. rewrite (same_read _ _ _ _ opt 2 S), Em by lia. cbn [mbind option_bind].
    by rewrite Ef.
  - unfold stored_base. simpl. destruct (header_fields_cases _ _ Ef) as [->| ->]; simpl in *;
      by rewrite (same_read _ _ _ _ _ _ S2) by lia.
  - rewrite T2. f_equal. eapply same_section_table; [exact S1|]. lia.
Qed.

(** The module's memory: zero where the dump holds nothing. *)
Definition module_memory (mmap : bytes) (m : ProcessMemoryMap) (base : Z) (n : nat) : bytes :=
  map (λ i, default x00 (byte_at mmap (regions m) (base + Z.of_nat i))) (seq 0 n).

Lemma module_memory_length mmap m base n : length (module_memory mmap m base n) = n.
Proof. unfold module_memory. by rewrite length_map, length_seq. Qed.
Lemma module_memory_lookup mmap m base n i :
  i < n → module_memory mmap m base n !! i =
          Some (default x00 (byte_at mmap (regions m) (base + Z.of_nat i))).
Proof.
  intros Hi. unfold module_memory. rewrite list_lookup_fmap, lookup_seq_lt by done. done.
Qed.
Lemma copied_memory mmap m base n :
  wf_regions mmap (regions m) → (0 ≤ base)%Z → 0 < n → (base + Z.of_nat n ≤ u64_max)%Z →
  copy_image mmap m base (Z.of_nat n) =
    Some (module_memory mmap m base n, count (mapped (regions m)) base n).
Proof.
  intros W B N F. destruct (copy_image_spec mmap m base n W B N F) as (im & -> & L & H).
  do 2 f_equal. apply list_eq. intros i. destruct (decide (i < n)) as [Hi|Hi].
  - by rewrite H, module_memory_lookup.
  - rewrite !lookup_ge_None_2; [done| |]; rewrite ?module_memory_length; lia.
Qed.

Lemma count_pos p base n : 0 < n → p base = true → (0 < count p base n)%Z.
Proof.
  intros N P. induction n as [|[|n] IH]; [lia|simpl; rewrite Z.add_0_r, P; lia|].
  specialize (IH ltac:(lia)). set (k := S n) in *. cbn [count]. clearbody k. case_match; lia.
Qed.

(** Sections laid out as in memory: the file offset of an address is its
    distance from the base. *)
Lemma aligned_slice base secs image va len :
  wf_space (mkSpace base (file_aligned <$> secs)) →
  is_Some (section_at_va (mkSpace base (file_aligned <$> secs)) va) →
  (0 ≤ len)%Z → (va - base + len ≤ Z.of_nat (length image))%Z → (Z.of_nat (length image) ≤ u32_max)%Z →
  slice_for_va (mkSpace base (file_aligned <$> secs)) image va len =
    Some (take (Z.to_nat len) (drop (Z.to_nat (va - base)) image)).
Proof.
  intros W [s S] L F U. destruct (section_at_va_spec _ _ _ W S) as (Hin & Ws & R). simpl in *.
  apply list_elem_of_fmap in Hin as (s0 & -> & _). unfold slice_for_va. rewrite S. simpl.
  rewrite (proj2 (va_to_offset_iff base _ va (va - base)%Z (proj1 W) Ws)).
  2: { simpl in *. destruct Ws. simpl in *. split; lia. }
  simpl. rewrite (proj2 (Z.ltb_ge _ _)) by mach. unfold get_range.
  by rewrite (proj2 (Z.leb_le _ _)).
Qed.

(** A module with sound headers is extracted without panic: the file holds
    the module's memory with the section table moved to the addresses of the
    sections and the runtime base stored; and any range of a section, read
    through the address space of that file, is the dump's memory at that address,
    zero where the dump has none. *)
Theorem extracted_module_reads mmap m session_key module v :
  let base := dm_base module in
  let n := Z.to_nat (dm_size module) in
  let memory := module_memory mmap m base n in
  wf_regions mmap (regions m) → (0 ≤ base)%Z → (base + dm_size module ≤ u64_max)%Z →
  (0x40 ≤ dm_size module ≤ MAX_MODULE_IMAGE_BYTES)%Z → has_pe_headers module = true →
  take 2 memory = [x4d; x5a] → good_headers memory v →
  ∃ x, extract_module_pe mmap m session_key module = Some (Ok x) ∧
    ex_present x = count (mapped (regions m)) base n ∧ length (ex_image x) = n ∧
    pe_view (ex_image x) = Some v ∧
    stored_base (ex_image x) v = Some (base mod 256 ^ Z.of_nat (pv_fields v).2)%Z ∧
    let sections := file_aligned <$> section_table (pv_sections v) memory (pv_table v) in
    section_table (pv_sections v) (ex_image x) (pv_table v) = sections ∧
    (wf_space (mkSpace base sections) →
     ∀ va len, is_Some (section_at_va (mkSpace base sections) va) →
       (base + Z.of_nat (pv_end v) ≤ va)%Z → (0 ≤ len)%Z → (va + len ≤ base + dm_size module)%Z →
       ∃ bs, slice_for_va (mkSpace base sections) (ex_image x) va len = Some bs ∧
         Z.of_nat (length bs) = len ∧
         ∀ i, (0 ≤ i < len)%Z →
           bs !! Z.to_nat i = Some (default x00 (byte_at mmap (regions m) (va + i)))).
Proof.
  intros base n memory W B F Sz Hp Mz G.
  assert (dm_size module = Z.of_nat n) as En by (unfold n; lia).
  assert (length memory = n) as Lm by apply module_memory_length.
  unfold extract_module_pe. rewrite (proj2 (Z.eqb_neq _ _)), (proj2 (Z.ltb_ge _ _)) by lia.
  rewrite Hp. cbn [negb]. fold base. rewrite En, copied_memory by (done || lia). fold memory.
  cbn [mbind option_bind].
  assert (0 < count (mapped (regions m)) base n)%Z as Pc.
  { apply count_pos; [lia|]. unfold mapped. destruct (find_first _ _) eqn:E; [done|]. exfalso.
    assert (memory !! 0 = Some x4d) as H0
      by (rewrite <-(lookup_take_lt memory 2 0), Mz by lia; done).
    unfold memory in H0. rewrite module_memory_lookup in H0 by lia. unfold byte_at in H0.
    rewrite Z.add_0_r, E in H0. done. }
  rewrite (proj2 (Z.eqb_neq _ _)), decide_False by lia. rewrite Mz, decide_False by tauto.
  destruct (patch_spec memory v base G) as (im & -> & [L A] & V & Sb & T). cbn [mbind option_bind].
  eexists. split; [done|]. simpl. split_and!; [done|congruence|done..|].
  intros Ws va len Hs Hva Hl Hf. exists (take (Z.to_nat len) (drop (Z.to_nat (va - base)) im)).
  unfold MAX_MODULE_IMAGE_BYTES in *.
  rewrite aligned_slice by (done || rewrite ?L; mach). split; [done|]. split.
  { rewrite length_take, length_drop. lia. }
  intros i Hi. rewrite lookup_slice by lia. rewrite A by lia. unfold memory.
  rewrite module_memory_lookup by lia. do 3 f_equal. lia.
Qed.

(** ** A module in a dump *)

Definition zeros (n : nat) : bytes := replicate n x00.
(** Headers at 0x40, one section of 16 bytes at 0xb0. *)
Definition sample_memory : bytes :=
  [x4d; x5a] ++ zeros 58 ++ to_le 4 0x40 ++
  PE_SIGNATURE ++ zeros 2 ++ to_le 2 1 ++ zeros 12 ++ to_le 2 0x28 ++ zeros 2 ++
  to_le 2 0x20b ++ zeros 30 ++ to_le 4 0x10 ++ to_le 4 2 ++
  zeros 8 ++ to_le 4 0x10 ++ to_le 4 0xb0 ++ to_le 4 2 ++ to_le 4 0x90 ++ zeros 12 ++ to_le 4 0x20000000 ++
  zeros 8 ++ [x01; x02; x03; x04; x05; x06; x07; x08; x09; x0a; x0b; x0c; x0d; x0e; x0f; x10].
Definition sample_dump : ProcessMemoryMap :=
  mkMap [mkRegion 0x10000 (Z.of_nat (length sample_memory)) 0] 0xc0 Memory64List.
Definition sample_module : DumpModule :=
  mkModule 0x10000 0xc0 "a.dll" "a.dll" 0 0 1000 true true false.
Definition sample_view : PeView := mkView 0x58 0x28 1 (0x24, 0x20, 0x18, 8).

(** A header in the dump whose optional header is smaller than the fields the
    patch reads passes every check, and the extraction panics instead of
    refusing the module. *)
Theorem extract_panics :
  ∃ mmap m module,
    wf_regions mmap (regions m) ∧ has_pe_headers module = true ∧
    pe_view (module_memory mmap m (dm_base module) (Z.to_nat (dm_size module))) =
      Some (mkView 0x58 2 0 (0x24, 0x20, 0x18, 8)) ∧
    extract_module_pe mmap m "session" module = None.
Proof.
  set (image := [x4d; x5a] ++ zeros 58 ++ to_le 4 0x40 ++
    PE_SIGNATURE ++ zeros 2 ++ to_le 2 0 ++ zeros 12 ++ to_le 2 2 ++ zeros 2 ++ to_le 2 0x20b ++ zeros 6).
  exists image, (mkMap [mkRegion 0x10000 0x60 0] 0x60 Memory64List),
    (mkModule 0x10000 0x60 "a.dll" "a.dll" 0 0 1000 true true false).
  split_and!; [|done|by vm_compute|by vm_compute].
  split; [|repeat constructor]. repeat constructor; simpl; unfold u64_max; try lia.
Qed.

Lemma extracted_module_reads_witness :
  ∃ x bs, extract_module_pe sample_memory sample_dump "session" sample_module = Some (Ok x) ∧
    slice_for_va (mkSpace 0x10000 [mkSection 0xb0 0x10 0xb0 0x10 0x20000000]) (ex_image x) 0x100b2 3 =
      Some bs ∧ bs !! 0 = Some x03.
Proof.
  destruct (extracted_module_reads sample_memory sample_dump "session" sample_module sample_view)
    as (x & E & _ & _ & _ & _ & _ & R).
  - split; [|repeat constructor]. repeat constructor; simpl; unfold u64_max; lia.
  - simpl. lia.
  - simpl. unfold u64_max. lia.
  - unfold MAX_MODULE_IMAGE_BYTES. simpl. lia.
  - done.
  - by vm_compute.
  - constructor; [by vm_compute..|simpl; lia|simpl; lia|].
    rewrite module_memory_length. unfold pv_table. simpl. lia.
  - assert (file_aligned <$> section_table (pv_sections sample_view)
      (module_memory sample_memory sample_dump (dm_base sample_module) (Z.to_nat (dm_size sample_module)))
      (pv_table sample_view) = [mkSection 0xb0 0x10 0xb0 0x10 0x20000000]) as Es by (by vm_compute).
    rewrite Es in R. destruct (R) with (va := 0x100b2%Z) (len := 3%Z) as (bs & E1 & E2 & E3).
    + split; [split; done|]. repeat constructor; simpl; unfold u64_max, u32_max; lia.
    + by eexists.
    + by vm_compute.
    + done.
    + simpl. lia.
    + exists x, bs. split; [exact E|]. split; [exact E1|]. specialize (E3 0%Z ltac:(lia)).
      change (bs !! 0) with (bs !! Z.to_nat 0). rewrite E3. by vm_compute.
Defined.
