(* ===== verification/Serving.v ===== *)
(** How the project manager of [src/project_manager.rs] answers requests: the
    guards of running operations and the activity it reports, the bounded cache
    of decompiled functions with the jobs that fill it, and the list of recent
    projects.

    The mutexes make each definition here one atomic step. Ids ([Uuid]) and
    instants are integers. *)

From S2P Require Import Prelude Data Ops Journal Persist Activity Writer.

(** ** Whole files of JSON *)

(** [serde_json::to_vec_pretty] and [serde_json::from_slice]. *)
Class JsonFile (A : Type) := {
  to_vec_pretty : A → bytes;
  from_slice : bytes → option A
}.
Class JsonFileLaws (A : Type) `{JsonFile A} : Prop := {
  from_to_vec x : from_slice (to_vec_pretty x) = Some x
}.

(** [std::fs::write] truncates the file before it writes. *)
Inductive WriteOutcome := WriteOk | WriteFailed | WriteTorn (n : nat).
Definition write_file (o : WriteOutcome) (data : bytes) (file : option bytes) : option bytes :=
  match o with
  | WriteOk => Some data
  | WriteFailed => file
  | WriteTorn n => Some (take n data)
  end.

(** ** Running operations *)

Module ServerActivity.
Record ActiveOperation := mkActive { name : string; started : Z }.
Record ServerActivity := mkActivity { next_id : Z; active : gmap Z ActiveOperation }.
Definition ServerActivity_default : ServerActivity := mkActivity 0 ∅.

Record ServerActivitySnapshot := mkSnapshot {
  state : string;
  busy : bool;
  active_operations : nat;
  operation : option string;
  elapsed : option Z
}.

(** [begin_operation]: the id of the guard and the new state. *)
Definition begin_operation (now : Z) (name : string) (a : ServerActivity) : Z * ServerActivity :=
  let id := next_id a +sat 1 in
  (id, mkActivity id (<[id := mkActive name now]> (active a))).

(** [OperationGuard::update] *)
Definition update (id : Z) (name : string) (a : ServerActivity) : ServerActivity :=
  match active a !! id with
  | Some o => mkActivity (next_id a) (<[id := mkActive name (started o)]> (active a))
  | None => a
  end.

(** [OperationGuard::drop] *)
Definition drop (id : Z) (a : ServerActivity) : ServerActivity :=
  mkActivity (next_id a) (delete id (active a)).

(** [ProjectManager::server_activity]; [Instant::elapsed] saturates at zero. *)
Definition server_activity (now : Z) (a : ServerActivity) : ServerActivitySnapshot :=
  let oldest := min_by_key started (btree_values (active a)) in
  mkSnapshot (match oldest with Some _ => "busy" | None => "idle" end) (bool_decide (is_Some oldest))
    (size (active a)) (name <$> oldest) ((λ o, Z.max 0 (now - started o)) <$> oldest).
End ServerActivity.

(** ** The decompile cache *)

Module DecompileCache.
Inductive DecompileMode := Legacy | ShadowV2 | V2.
Record DecompileOptions := mkOptions {
  mode : DecompileMode;
  allow_legacy_fallback : bool;
  shadow_only : bool;
  max_candidates : Z;
  beam_width : Z
}.
#[export] Instance DecompileMode_eq_dec : EqDecision DecompileMode.
Proof. solve_decision. Defined.
#[export] Instance DecompileOptions_eq_dec : EqDecision DecompileOptions.
Proof. solve_decision. Defined.

(** The constructors of [DecompileOptions] in decompiler/v2/artifact.rs. *)
Definition production : DecompileOptions := mkOptions V2 true false 2048 8.
Definition pure_no_fallback : DecompileOptions := mkOptions V2 false false 2048 8.
Definition legacy_only : DecompileOptions := mkOptions Legacy true false 2048 8.
Definition shadow_v2 : DecompileOptions := mkOptions ShadowV2 true true 2048 8.

(** The options of a request to the agent server (mcp.rs). *)
Inductive DecompilePolicy := Product | PureV2 | LegacyPolicy.
Definition policy_options (policy : DecompilePolicy) : DecompileOptions :=
  match policy with
  | Product => production
  | PureV2 => pure_no_fallback
  | LegacyPolicy => legacy_only
  end.

Definition decompile_cache_discriminant (options : DecompileOptions) : Z :=
  (match mode options with Legacy => 0 | ShadowV2 => 1 | V2 => 2 end * 2
     + if allow_legacy_fallback options then 1 else 0)%Z.

Record DecompileCacheKey := mkKey { key_op_seq : Z; key_va : Z; lane : Z }.
#[export] Instance DecompileCacheKey_eq_dec : EqDecision DecompileCacheKey.
Proof. solve_decision. Defined.

Definition DECOMPILE_CACHE_CAP : nat := 64.

Section cache.
Context {Artifact : Type}.
Notation Cache := (list (DecompileCacheKey * Artifact)).

(** [decompile_cache_get]: a hit moves the entry to the back. *)
Definition decompile_cache_get (key : DecompileCacheKey) (cache : Cache) : option Artifact * Cache :=
  match position (λ e, bool_decide (e.1 = key)) cache with
  | None => (None, cache)
  | Some i =>
      match cache !! i with
      | Some e => (Some e.2, delete i cache ++ [e])
      | None => (None, cache)
      end
  end.

(** [decompile_cache_put] *)
Definition decompile_cache_put (key : DecompileCacheKey) (artifact : Artifact) (cache : Cache) : Cache :=
  pop_front_to DECOMPILE_CACHE_CAP (filter (λ e, e.1 ≠ key) cache ++ [(key, artifact)]).
End cache.
End DecompileCache.

(** ** Guarded decompilation

    [decompile_artifact_guarded] interleaved with the writer task. A request
    loads the project and looks in the cache, then waits for one of two permits;
    the job loads the project again, and stores what it computed under the key of
    the request. What a job computes is a parameter. *)

Module Guarded.
Import DecompileCache.

Record Job := mkJob { jb_key : DecompileCacheKey; jb_va : Z; jb_options : DecompileOptions }.
Definition PERMITS : nat := 2.

Section guarded.
Context `{LineCodec JournalRecord, LineCodec ActivityEvent, Postcard}.
Context {Artifact : Type}.
Variable function_decompile_artifact : Project → Z → DecompileOptions → option Artifact.

(** [sv_asked]: requests between the load of the project and the cache lookup;
    [sv_queue]: requests waiting for a permit; [sv_running]: jobs with the
    project they loaded. *)
Record Serving := mkServing {
  sv_writer : Writer;
  sv_cache : list (DecompileCacheKey * Artifact);
  sv_asked : list Job;
  sv_queue : list Job;
  sv_running : list (Job * Project)
}.

(** The request up to its key; [None] is [NotFound]. *)
Definition ask (va : Z) (options : DecompileOptions) (project : Project) : option Job :=
  match function_at project va with
  | None => None
  | Some _ =>
      Some (mkJob (mkKey (op_seq project) va (decompile_cache_discriminant options)) va options)
  end.

(** The body of the blocking task, from the project it loaded; [None] is
    [NotFound], and a result stays in the cache when nobody waits for it. *)
Definition compute (job : Job) (project : Project) (cache : list (DecompileCacheKey * Artifact))
    : option Artifact * list (DecompileCacheKey * Artifact) :=
  match function_decompile_artifact project (jb_va job) (jb_options job) with
  | Some artifact => (Some artifact, decompile_cache_put (jb_key job) artifact cache)
  | None => (None, cache)
  end.

(** What a step answers: the job and its artifact, or nothing yet. *)
Notation Answer := (option (Job * option Artifact)).

(** A job takes a permit and loads the project, or ends. *)
Inductive job_step : Serving → Answer → Serving → Prop :=
  | step_start job w cache asked queue1 queue2 running :
      length running < PERMITS →
      job_step (mkServing w cache asked (queue1 ++ job :: queue2) running) None
           (mkServing w cache asked (queue1 ++ queue2) (running ++ [(job, w_read_state w)]))
  | step_finish job project artifact cache' w cache asked queue running1 running2 :
      compute job project cache = (artifact, cache') →
      job_step (mkServing w cache asked queue (running1 ++ (job, project) :: running2))
           (Some (job, artifact))
           (mkServing w cache' asked queue (running1 ++ running2)).

(** The writer task serves an edit (the operation counter has room), a request
    arrives, or it looks in the cache; or a job moves. *)
Inductive step : Serving → Answer → Serving → Prop :=
  | step_write io req r w' w cache asked queue running :
      (op_seq (w_project w) < u64_max)%Z → handle io req w = (r, w') →
      step (mkServing w cache asked queue running) None (mkServing w' cache asked queue running)
  | step_ask va policy job w cache asked queue running :
      ask va (policy_options policy) (w_read_state w) = Some job →
      step (mkServing w cache asked queue running) None
           (mkServing w cache (asked ++ [job]) queue running)
  | step_hit job artifact cache' w cache asked1 asked2 queue running :
      decompile_cache_get (jb_key job) cache = (Some artifact, cache') →
      step (mkServing w cache (asked1 ++ job :: asked2) queue running)
           (Some (job, Some artifact))
           (mkServing w cache' (asked1 ++ asked2) queue running)
  | step_miss job cache' w cache asked1 asked2 queue running :
      decompile_cache_get (jb_key job) cache = (None, cache') →
      step (mkServing w cache (asked1 ++ job :: asked2) queue running) None
           (mkServing w cache' (asked1 ++ asked2) (queue ++ [job]) running)
  | step_job s answer s' : job_step s answer s' → step s answer s'.
End guarded.
End Guarded.

(** ** Paths and recent projects *)

Module Recent.
(** A path is its code units: UTF-16 on Windows, bytes elsewhere. *)
Notation Path := (list Z).

Definition BACKSLASH : Z := 92.
Definition VERBATIM : Path := [92; 92; 63; 92]%Z.

(** [user_visible_path] on Windows. *)
Definition user_visible_path (path : Path) : Path :=
  if decide (take 4 path = VERBATIM) then
    let rest := drop 4 path in
    match rest with
    | u :: n :: c :: s :: tail =>
        if decide (u ∈ [85; 117]%Z ∧ n ∈ [78; 110]%Z ∧ c ∈ [67; 99]%Z ∧ s = BACKSLASH)
        then [BACKSLASH; BACKSLASH] ++ tail
        else if decide (n = 58%Z) then rest else path
    | _ :: n :: _ => if decide (n = 58%Z) then rest else path
    | _ => path
    end
  else path.

(** [to_string_lossy]: unpaired surrogates become U+FFFD. *)
Fixpoint to_string_lossy (w : Path) : list Z :=
  match w with
  | [] => []
  | u :: rest =>
      if ((0xD800 <=? u) && (u <? 0xDC00))%Z then
        match rest with
        | l :: rest' =>
            if ((0xDC00 <=? l) && (l <? 0xE000))%Z
            then (0x10000 + (u - 0xD800) * 0x400 + (l - 0xDC00))%Z :: to_string_lossy rest'
            else 0xFFFD%Z :: to_string_lossy rest
        | [] => [0xFFFD%Z]
        end
      else (if ((0xDC00 <=? u) && (u <? 0xE000))%Z then 0xFFFD%Z else u) :: to_string_lossy rest
  end.

Definition to_ascii_lowercase (c : Z) : Z := if ((65 <=? c) && (c <=? 90))%Z then (c + 32)%Z else c.
Definition eq_ignore_ascii_case (a b : list Z) : bool :=
  bool_decide (map to_ascii_lowercase a = map to_ascii_lowercase b).

(** [Path::components] on Unix, which the equality of paths compares: empty
    components do not count, nor does a dot that is not the first of a relative
    path. *)
Fixpoint split_slash (acc p : Path) : list Path :=
  match p with
  | [] => [acc]
  | c :: p => if decide (c = 47%Z) then acc :: split_slash [] p else split_slash (acc ++ [c]) p
  end.
Definition components (p : Path) : bool * list Path :=
  let rooted := bool_decide (head p = Some 47%Z) in
  let parts := split_slash [] p in
  let dots := filter (λ c, c ≠ [] ∧ c ≠ [46%Z]) parts in
  (rooted, if decide (head parts = Some [46%Z]) then [46%Z] :: dots else dots).

Section recent.
(** [cfg!(windows)], and [fs::canonicalize] on the paths in use. *)
Variable windows : bool.
Variable canonicalize : Path → option Path.

Definition normalize_local_path (path : Path) : Path :=
  let p := default path (canonicalize path) in
  if windows then user_visible_path p else p.

Definition paths_match (left right : Path) : bool :=
  if windows then
    eq_ignore_ascii_case (to_string_lossy (normalize_local_path left))
      (to_string_lossy (normalize_local_path right))
  else bool_decide (components left = components right).

Record RecentProject := mkRecent { path : Path; last_project_id : Z; last_opened_unix_secs : Z }.
Definition RECENT_PROJECT_CAPACITY : nat := 8.

(** The in-memory half of [record_recent_project]. *)
Definition push_recent (p : Path) (id now : Z) (recent : list RecentProject) : list RecentProject :=
  take RECENT_PROJECT_CAPACITY
    (mkRecent p id now :: filter (λ e, paths_match (path e) p = false) recent).

(** [ProjectManager::recent_projects] *)
Definition recent_projects (limit : nat) (recent : list RecentProject) : list RecentProject :=
  take (limit `min` RECENT_PROJECT_CAPACITY) recent.
End recent.

(** The file: [serde_json] on the list and its version. *)
Record RecentProjectsFile := mkFile { version : Z; projects : list RecentProject }.

Section file.
Context `{JsonFile RecentProjectsFile}.

(** [save_recent_projects], by how the write ended; its error is only logged. *)
Definition save_recent_projects (o : WriteOutcome) (recent : list RecentProject)
    (file : option bytes) : option bytes :=
  write_file o (to_vec_pretty (mkFile 1 recent)) file.

Definition load_recent_projects (file : option bytes) : list RecentProject :=
  match file ≫= from_slice with
  | Some f => take RECENT_PROJECT_CAPACITY (projects f)
  | None => []
  end.

Definition record_recent_project (windows : bool) (canonicalize : Path → option Path)
    (o : WriteOutcome) (p : Path) (id now : Z) (recent : list RecentProject) (file : option bytes)
    : list RecentProject * option bytes :=
  let recent := push_recent windows canonicalize p id now recent in
  (recent, save_recent_projects o recent file).
End file.
End Recent.
