(* ===== verification/ServingCorrect.v ===== *)
(** Serving: what the decompile cache, the jobs that fill it and the recent
    projects keep. First the cache as a list of distinct keys, the measures of
    the jobs, and the invariants of the steps; then the claims. *)

From Stdlib Require Import Strings.Byte.
From stdpp Require Import relations.
From S2P Require Import Prelude Data Ops Journal Persist Activity Writer WriterFacts Samples Serving.

(** ** Order of last use *)

Lemma filter_all {A} (P : A → Prop) `{∀ x, Decision (P x)} (l : list A) :
  (∀ x, x ∈ l → P x) → filter P l = l.
Proof.
  induction l as [|x l IH]; [done|]. intros Hl. rewrite filter_cons_True by (apply Hl; left).
  by rewrite IH by (intros; apply Hl; by right).
Qed.
Lemma last_n_sub {A} n (l : list A) x : x ∈ last_n n l → x ∈ l.
Proof. apply subseteq_drop. Qed.

Lemma length_remove_dups_le {A} `{EqDecision A} (l : list A) : length (remove_dups l) ≤ length l.
Proof. induction l as [|x l IH]; simpl; [lia|]. case_decide; simpl; lia. Qed.

Section recency.
Context {A K : Type} `{EqDecision K} (key : A → K).
Implicit Types (x e : A) (r log : list A).

(** Moves [x] to the end, replacing what had its key. *)
Definition touch x r : list A := filter (λ e, key e ≠ key x) r ++ [x].
(** The last use of each key, by time. *)
Definition recency log : list A := foldl (λ r x, touch x r) [] log.

Lemma recency_snoc log x : recency (log ++ [x]) = touch x (recency log).
Proof. unfold recency. by rewrite foldl_app. Qed.

Lemma keys_filter (P : A → Prop) `{∀ x, Decision (P x)} r :
  NoDup (key <$> r) → NoDup (key <$> filter P r).
Proof.
  induction r as [|x r IH]; [done|]. intros [Hn N]%NoDup_cons.
  rewrite filter_cons. case_decide; [|auto]. csimpl. constructor; [|auto].
  intros (e & E & [_ He]%list_elem_of_filter)%list_elem_of_fmap. apply Hn. rewrite E.
  by apply list_elem_of_fmap_2.
Qed.
Lemma touch_NoDup x r : NoDup (key <$> r) → NoDup (key <$> touch x r).
Proof.
  intros N. unfold touch. rewrite fmap_app. apply NoDup_app. split; [by apply keys_filter|].
  split; [|apply NoDup_singleton].
  intros k (e & -> & [He _]%list_elem_of_filter)%list_elem_of_fmap. set_solver.
Qed.
Lemma recency_NoDup log : NoDup (key <$> recency log).
Proof.
  induction log as [|x log IH] using rev_ind; [constructor|].
  rewrite recency_snoc. by apply touch_NoDup.
Qed.

Lemma key_inj r x y : NoDup (key <$> r) → x ∈ r → y ∈ r → key x = key y → x = y.
Proof.
  intros N [i Hi]%list_elem_of_lookup [j Hj]%list_elem_of_lookup E.
  assert (i = j) as ->; [|congruence].
  eapply NoDup_lookup; [exact N| |]; rewrite list_lookup_fmap.
  - by rewrite Hi.
  - by rewrite Hj, E.
Qed.

(** A filter by one key removes one element at most. *)
Lemma filter_one_length x r :
  NoDup (key <$> r) → length r ≤ S (length (filter (λ e, key e ≠ key x) r)).
Proof.
  induction r as [|e r IH]; csimpl; [lia|]. intros [Hn N]%NoDup_cons.
  rewrite filter_cons. destruct (decide (key e ≠ key x)) as [|Ee]; csimpl; [specialize (IH N); lia|].
  rewrite (filter_all _ r); [lia|]. intros e' He' E'. apply Hn.
  apply dec_stable in Ee. rewrite Ee, <-E'. by apply list_elem_of_fmap_2.
Qed.

Lemma last_n_app_r n r1 r2 : n ≤ length r2 → last_n n (r1 ++ r2) = last_n n r2.
Proof.
  intros L. unfold last_n. rewrite length_app, drop_app_ge by lia. f_equal. lia.
Qed.

(** A capacity does not change what is used last. *)
Lemma touch_last_n n x r :
  NoDup (key <$> r) → last_n n (touch x (last_n n r)) = last_n n (touch x r).
Proof.
  intros N. destruct (decide (length r ≤ n)); [by rewrite (last_n_all n r)|].
  assert (r = take (length r - n) r ++ last_n n r) as Er by (unfold last_n; by rewrite take_drop).
  set (r1 := take _ _) in *. set (r2 := last_n n r) in *.
  assert (length r2 = n) as L2 by (unfold r2; rewrite last_n_length; lia).
  rewrite Er at 1. unfold touch. rewrite filter_app, <-app_assoc. symmetry. apply last_n_app_r.
  rewrite length_app. simpl. rewrite Er, fmap_app in N. apply NoDup_app in N as (_ & _ & N).
  pose proof (filter_one_length x r2 N). lia.
Qed.

Lemma touch_all r log :
  foldl (λ r x, touch x r) r log = filter (λ e, key e ∉ key <$> log) r ++ recency log.
Proof.
  induction log as [|x log IH] using rev_ind.
  { simpl. rewrite app_nil_r, filter_all; [done|]. intros e _. csimpl. apply not_elem_of_nil. }
  rewrite foldl_app, recency_snoc. simpl. rewrite IH. unfold touch at 1.
  rewrite filter_app, <-app_assoc. f_equal. rewrite list_filter_filter.
  apply list_filter_iff. intros e. rewrite fmap_app. set_solver.
Qed.

Lemma elem_of_recency_sub x log : x ∈ recency log → x ∈ log.
Proof.
  induction log as [|y log IH] using rev_ind; [by intros ?%not_elem_of_nil|].
  rewrite recency_snoc. unfold touch. rewrite !elem_of_app, list_elem_of_filter. naive_solver.
Qed.
Lemma recency_keys log k : k ∈ key <$> recency log ↔ k ∈ key <$> log.
Proof.
  induction log as [|y log IH] using rev_ind; [done|].
  rewrite recency_snoc. unfold touch. rewrite !fmap_app, !elem_of_app. split.
  - intros [(e & -> & [_ He]%list_elem_of_filter)%list_elem_of_fmap|]; [|by right].
    left. apply IH. by apply list_elem_of_fmap_2.
  - intros [H|]; [|by right]. apply IH in H.
    destruct (decide (k = key y)) as [->|Ne]; [by right; left|].
    apply list_elem_of_fmap in H as (e & -> & He). left. apply list_elem_of_fmap_2.
    by apply list_elem_of_filter.
Qed.
(** How many keys a log uses. *)
Lemma recency_length log : length (recency log) = length (remove_dups (key <$> log)).
Proof.
  rewrite <-(length_fmap key (recency log)). apply Permutation_length, NoDup_Permutation.
  - apply recency_NoDup.
  - apply NoDup_remove_dups.
  - intros k. by rewrite recency_keys, elem_of_remove_dups.
Qed.

Lemma recency_split before x after :
  key x ∉ key <$> after →
  ∃ r, recency (before ++ x :: after) = r ++ x :: recency after.
Proof.
  intros Hn. rewrite cons_middle, app_assoc. unfold recency at 1. rewrite foldl_app.
  fold (recency (before ++ [x])). rewrite touch_all, recency_snoc. unfold touch.
  rewrite filter_app, filter_cons, decide_True by done. rewrite filter_nil, <-app_assoc.
  by eexists.
Qed.

(** The last use of its key. *)
Lemma elem_of_recency x log :
  x ∈ recency log ↔ ∃ before after, log = before ++ x :: after ∧ key x ∉ key <$> after.
Proof.
  split.
  - induction log as [|y log IH] using rev_ind; [by intros ?%not_elem_of_nil|].
    rewrite recency_snoc. unfold touch. rewrite elem_of_app, list_elem_of_filter.
    intros [[Ne (b & a & -> & Ha)%IH]|Hx].
    + exists b, (a ++ [y]). rewrite <-app_assoc. split; [done|]. rewrite fmap_app. set_solver.
    + apply list_elem_of_singleton in Hx as ->. exists log, []. split; [done|]. by intros ?%not_elem_of_nil.
  - intros (b & a & -> & Ha). destruct (recency_split b x a Ha) as [r ->]. set_solver.
Qed.

(** What a capacity [n] keeps: keys used within the last [n] distinct keys. *)
Lemma elem_of_last_used n x log :
  x ∈ last_n n (recency log) ↔
  ∃ before after, log = before ++ x :: after ∧ (key x ∉ key <$> after) ∧
    length (remove_dups (key <$> after)) < n.
Proof.
  split.
  - intros Hx.
    assert (x ∈ recency log) as (b & a & E & Ha)%elem_of_recency.
    { by eapply last_n_sub. }
    exists b, a. split_and!; [done..|]. rewrite <-recency_length.
    destruct (decide (length (recency a) < n)) as [|Hge]; [done|]. exfalso.
    destruct (recency_split b x a Ha) as [r Er]. pose proof (recency_NoDup log) as N.
    rewrite E, Er in Hx, N. rewrite cons_middle, app_assoc in Hx.
    rewrite last_n_app_r in Hx by lia.
    rewrite fmap_app in N. apply NoDup_app in N as (_ & _ & N). csimpl in N.
    apply NoDup_cons in N as [N _]. apply N, list_elem_of_fmap_2.
    by eapply last_n_sub.
  - intros (b & a & -> & Ha & L). destruct (recency_split b x a Ha) as [r ->].
    rewrite <-recency_length in L. unfold last_n. rewrite length_app. simpl.
    destruct (decide (length r ≤ length r + S (length (recency a)) - n)) as [Hle|Hgt].
    + replace (length r + S (length (recency a)) - n) with (length r) by lia.
      rewrite drop_app_length. by left.
    + rewrite drop_app_le by lia. set_solver.
Qed.
End recency.

(** ** The decompile cache *)

Section cache.
Import DecompileCache.
Context {Artifact : Type}.
Notation Cache := (list (DecompileCacheKey * Artifact)).
Implicit Types (c log : Cache) (k : DecompileCacheKey) (a : Artifact).

Lemma get_hit k a c :
  NoDup c.*1 → (k, a) ∈ c → decompile_cache_get k c = (Some a, touch fst (k, a) c).
Proof.
  intros N Hin. unfold decompile_cache_get. destruct (position _ _) as [i|] eqn:E.
  - apply position_split in E as (l1 & [k' a'] & l2 & -> & <- & Ek & F).
    apply bool_decide_eq_true in Ek. simpl in Ek. subst k'.
    assert ((k, a') = (k, a)) as [= ->] by (eapply (key_inj fst); [done|set_solver|done|done]).
    rewrite list_lookup_middle by done. simpl. f_equal. unfold touch. f_equal.
    rewrite delete_middle, filter_app, filter_cons_False by (simpl; tauto).
    rewrite fmap_app in N. csimpl in N. apply NoDup_app in N as (_ & D & [Hk _]%NoDup_cons).
    rewrite !filter_all; [done| |].
    + intros e He Ek. apply Hk. change k with (k, a).1. rewrite <-Ek.
      by apply list_elem_of_fmap_2.
    + intros e He Ek. rewrite Forall_forall in F. specialize (F e He).
      by rewrite bool_decide_eq_false in F.
  - apply position_none in E. rewrite Forall_forall in E. specialize (E _ Hin).
    by rewrite bool_decide_eq_false in E.
Qed.
Lemma get_miss k c : k ∉ c.*1 → decompile_cache_get k c = (None, c).
Proof.
  intros Hk. unfold decompile_cache_get. destruct (position _ _) as [i|] eqn:E; [|done].
  apply position_split in E as (l1 & [k' a'] & l2 & -> & <- & Ek & F).
  apply bool_decide_eq_true in Ek. simpl in Ek. subst k'. exfalso. apply Hk.
  apply list_elem_of_fmap. exists (k, a'). set_solver.
Qed.
(** Every case of a lookup. *)
Lemma get_cases k c r c' :
  NoDup c.*1 → decompile_cache_get k c = (r, c') →
  match r with
  | Some a => (k, a) ∈ c ∧ c' = touch fst (k, a) c
  | None => k ∉ c.*1 ∧ c' = c
  end.
Proof.
  intros N. destruct (decide (k ∈ c.*1)) as [([k' a] & -> & Hin)%list_elem_of_fmap|Hn].
  - cbn. rewrite (get_hit _ a) by done. intros; by simplify_eq.
  - rewrite get_miss by done. intros; by simplify_eq.
Qed.
Lemma put_touch k a c :
  decompile_cache_put k a c = last_n DECOMPILE_CACHE_CAP (touch fst (k, a) c).
Proof. apply pop_front_to_last_n. Qed.

(** The cache is what was used last. *)
Definition lru c log : Prop := c = last_n DECOMPILE_CACHE_CAP (recency fst log).

Lemma lru_NoDup c log : lru c log → NoDup c.*1.
Proof.
  intros ->. pose proof (recency_NoDup fst log) as N.
  eapply sublist_NoDup; [exact N|].
  unfold last_n. rewrite fmap_drop. apply sublist_drop.
Qed.
Lemma lru_length c log : lru c log → length c ≤ DECOMPILE_CACHE_CAP.
Proof. intros ->. rewrite last_n_length. lia. Qed.
Lemma touch_length e c : NoDup c.*1 → e ∈ c → length (touch fst e c) = length c.
Proof.
  intros N Hin. unfold touch. rewrite length_app. simpl.
  pose proof (filter_one_length fst e c N).
  pose proof (length_filter_lt (λ x, x.1 ≠ e.1) c e Hin) as L. simpl in *.
  specialize (L ltac:(tauto)). lia.
Qed.
Lemma lru_use k a c log :
  lru c log → lru (last_n DECOMPILE_CACHE_CAP (touch fst (k, a) c)) (log ++ [(k, a)]).
Proof.
  intros ->. unfold lru. rewrite recency_snoc. apply touch_last_n, recency_NoDup.
Qed.
Lemma lru_put k a c log : lru c log → lru (decompile_cache_put k a c) (log ++ [(k, a)]).
Proof. rewrite put_touch. apply lru_use. Qed.
Lemma lru_get k a c c' log :
  lru c log → decompile_cache_get k c = (Some a, c') → (k, a) ∈ c ∧ lru c' (log ++ [(k, a)]).
Proof.
  intros L E. pose proof (lru_NoDup _ _ L) as N. apply (get_cases _ _ _ _ N) in E as [Hin ->].
  split; [done|]. rewrite <-(last_n_all DECOMPILE_CACHE_CAP (touch _ _ _)); [by apply lru_use|].
  rewrite touch_length by done. by eapply lru_length.
Qed.
End cache.

(** ** Running operations *)

Section activity.
Import ServerActivity.

(** What callers do with guards. *)
Inductive Event :=
  | Begin (now : Z) (name : string)
  | Update (id : Z) (name : string)
  | Drop (id : Z).
Definition act (a : ServerActivity) (e : Event) : ServerActivity :=
  match e with
  | Begin now name => (begin_operation now name a).2
  | Update id name => update id name a
  | Drop id => drop id a
  end.

(** The specification: the operations still open, in the order they began, and
    how many ever did. *)
Notation Open := (Z * list (Z * ActiveOperation))%type.
Definition rename (id : Z) (name : string) (x : Z * ActiveOperation) : Z * ActiveOperation :=
  if decide (x.1 = id) then (x.1, mkActive name (started x.2)) else x.
Definition open_step (s : Open) (e : Event) : Open :=
  match e with
  | Begin now name => (s.1 + 1, s.2 ++ [(s.1 + 1, mkActive name now)])%Z
  | Update id name => (s.1, map (rename id name) s.2)
  | Drop id => (s.1, filter (λ x, x.1 ≠ id) s.2)
  end.
(** The report of the longest open operation. *)
Definition report (now : Z) (s : Open) : ServerActivitySnapshot :=
  match s.2 with
  | [] => mkSnapshot "idle" false 0 None None
  | (_, o) :: _ => mkSnapshot "busy" true (length s.2) (Some (name o)) (Some (Z.max 0 (now - started o)))
  end.

(** Instants do not go back. *)
Fixpoint clock_from (t : Z) (es : list Event) : Prop :=
  match es with
  | [] => True
  | Begin now _ :: es => (t ≤ now)%Z ∧ clock_from now es
  | _ :: es => clock_from t es
  end.

Record guards (a : ServerActivity) (s : Open) (t : Z) : Prop := {
  gd_next : next_id a = s.1;
  gd_nat : (0 ≤ s.1)%Z;
  gd_active : active a = list_to_map s.2;
  gd_ids : StronglySorted (key_lt fst) s.2;
  gd_below : Forall (λ x, x.1 ≤ s.1)%Z s.2;
  gd_started : StronglySorted (key_le started) s.2.*2;
  gd_past : Forall (λ o, started o ≤ t)%Z s.2.*2
}.

Lemma sorted_snoc {A} (R : relation A) l x :
  StronglySorted R l → Forall (λ y, R y x) l → StronglySorted R (l ++ [x]).
Proof.
  intros S F. apply StronglySorted_app_2; [|done|repeat constructor].
  intros y z Hy ->%list_elem_of_singleton. rewrite Forall_forall in F. auto.
Qed.
Lemma filter_snd_sorted (gs : list (Z * ActiveOperation)) id :
  StronglySorted (key_le started) gs.*2 →
  StronglySorted (key_le started) (filter (λ x, x.1 ≠ id) gs).*2.
Proof.
  induction gs as [|[i o] gs IH]; [done|]. csimpl. intros [S F]%StronglySorted_inv.
  rewrite filter_cons. case_decide; [|auto]. csimpl. constructor; [auto|].
  rewrite Forall_forall in *. intros y (x & -> & [_ Hx]%list_elem_of_filter)%list_elem_of_fmap.
  apply F. by apply list_elem_of_fmap_2.
Qed.

Lemma rename_ids id name gs : fst <$> map (rename id name) gs = fst <$> gs.
Proof.
  induction gs as [|[i o] gs IH]; [done|]. csimpl. rewrite IH. unfold rename. by case_decide.
Qed.
Lemma rename_started id name gs :
  started <$> (snd <$> map (rename id name) gs) = started <$> (snd <$> gs).
Proof.
  induction gs as [|[i o] gs IH]; [done|]. csimpl. rewrite IH. unfold rename. by case_decide.
Qed.
Lemma list_to_map_rename gs id name :
  (list_to_map (map (rename id name) gs) : gmap Z ActiveOperation) =
  match (list_to_map gs : gmap Z ActiveOperation) !! id with
  | Some o => <[id := mkActive name (started o)]> (list_to_map gs)
  | None => list_to_map gs
  end.
Proof.
  induction gs as [|[i o] gs IH]; [done|]. cbn. rewrite IH. unfold rename. simpl.
  destruct (decide (i = id)) as [->|Ne]; simpl.
  - rewrite lookup_insert_eq. case_match; by rewrite ?insert_insert_eq.
  - rewrite lookup_insert_ne by done. case_match; [|done]. by rewrite insert_insert_ne.
Qed.
Lemma list_to_map_filter gs id :
  (list_to_map (filter (λ x, x.1 ≠ id) gs) : gmap Z ActiveOperation) = delete id (list_to_map gs).
Proof.
  induction gs as [|[i o] gs IH]; [symmetry; apply delete_empty|]. cbn [list_to_map foldr].
  rewrite filter_cons. simpl. case_decide as D; simpl in *.
  - by rewrite IH, delete_insert_ne.
  - subst. by rewrite IH, delete_insert_eq.
Qed.

Lemma guards_report a s t now : guards a s t → server_activity now a = report now s.
Proof.
  intros G. unfold server_activity, report.
  rewrite (gd_active _ _ _ G). unfold btree_values.
  rewrite (btree_entries_list _ (gd_ids _ _ _ G)), min_by_key_sorted by apply (gd_started _ _ _ G).
  rewrite <-length_map_to_list.
  rewrite (Permutation_length (map_to_list_to_map _ (strict_NoDup _ _ (gd_ids _ _ _ G)))).
  destruct (s.2) as [|[i o] gs]; done.
Qed.

Lemma guards_step a s t e es :
  guards a s t → (s.1 < u64_max)%Z → clock_from t (e :: es) →
  ∃ t', guards (act a e) (open_step s e) t' ∧ clock_from t' es ∧
    (s.1 ≤ (open_step s e).1 ≤ s.1 + 1)%Z.
Proof.
  intros [Gn G0 Ga Gi Gb Gs Gp] Hmax. destruct a as [n m], s as [c gs]. simpl in *. subst n m.
  destruct e as [now name|id name|id]; cbn [clock_from].
  - intros [Ht Hc]. exists now. split_and!; [|done|simpl; lia..].
    unfold act, begin_operation, sat_add. simpl. rewrite Z.min_r by lia. constructor; simpl.
    + done.
    + lia.
    + rewrite list_to_map_snoc; [done|]. intros (x & E & Hx)%list_elem_of_fmap.
      rewrite Forall_forall in Gb. specialize (Gb x Hx). lia.
    + apply sorted_snoc; [done|]. eapply Forall_impl; [exact Gb|]. unfold key_lt. simpl. lia.
    + apply Forall_app. split; [|repeat constructor; simpl; lia].
      eapply Forall_impl; [exact Gb|]. simpl. lia.
    + rewrite fmap_app. apply sorted_snoc; [done|].
      eapply Forall_impl; [exact Gp|]. unfold key_le. simpl. lia.
    + rewrite fmap_app. apply Forall_app. split; [|repeat constructor; simpl; lia].
      eapply Forall_impl; [exact Gp|]. simpl. lia.
  - intros Hc. exists t. split_and!; [|done|simpl; lia..].
    pose proof (rename_ids id name gs) as E1. pose proof (rename_started id name gs) as E2.
    assert (active (update id name (mkActivity c (list_to_map gs))) =
            list_to_map (map (rename id name) gs)) as Em.
    { rewrite list_to_map_rename. unfold update. simpl. by destruct (_ !! id). }
    constructor; simpl.
    + unfold update. simpl. by destruct (_ !! id).
    + done.
    + done.
    + by eapply sorted_by_keys; [symmetry; exact E1|].
    + apply (proj1 (Forall_fmap fst (λ i, i ≤ c)%Z _)). rewrite E1. by apply (proj2 (Forall_fmap fst _ _)).
    + by eapply le_by_keys; [symmetry; exact E2|].
    + apply (proj1 (Forall_fmap started (λ i, i ≤ t)%Z _)). rewrite E2. by apply (proj2 (Forall_fmap started _ _)).
  - intros Hc. exists t. split_and!; [|done|simpl; lia..]. constructor; simpl.
    + done.
    + done.
    + by rewrite list_to_map_filter.
    + by apply sorted_filter.
    + rewrite Forall_forall in *. intros x [_ Hx]%list_elem_of_filter. auto.
    + by apply filter_snd_sorted.
    + rewrite Forall_forall in *. intros o ([i o'] & -> & [_ Hx]%list_elem_of_filter)%list_elem_of_fmap.
      apply Gp. by apply list_elem_of_fmap_2.
Qed.

(** After any sequence of events. *)
Lemma guards_run es a s t :
  guards a s t → (s.1 + Z.of_nat (length es) ≤ u64_max)%Z → clock_from t es →
  ∃ t', guards (foldl act a es) (foldl open_step s es) t'.
Proof.
  revert a s t. induction es as [|e es IH]; intros a s t G L C; [by exists t|].
  simpl in L. destruct (guards_step a s t e es G) as (t' & G' & C' & B); [lia|done|].
  simpl. eapply IH; [done| |done]. lia.
Qed.
End activity.

(** ** Recent projects *)

Section recents.
Import Recent.
Variable windows : bool.
Variable canonicalize : list Z → option (list Z).
Notation match_paths := (paths_match windows canonicalize).

(** What the comparison of paths compares. *)
Definition path_key (p : list Z) : list Z + bool * list (list Z) :=
  if windows then inl (map to_ascii_lowercase (to_string_lossy (normalize_local_path windows canonicalize p)))
  else inr (components p).
Lemma paths_match_key l r : match_paths l r = bool_decide (path_key l = path_key r).
Proof.
  unfold paths_match, path_key, eq_ignore_ascii_case. destruct windows;
    apply bool_decide_ext; (split; intros E; congruence).
Qed.

Lemma reverse_last_n {A} n (l : list A) : reverse (last_n n l) = take n (reverse l).
Proof.
  symmetry. apply take_reverse.
Qed.

Lemma push_recent_touch p id now recent :
  push_recent windows canonicalize p id now recent =
  reverse (last_n RECENT_PROJECT_CAPACITY
    (touch (path_key ∘ path) (mkRecent p id now) (reverse recent))).
Proof.
  rewrite reverse_last_n. unfold touch, push_recent. f_equal.
  rewrite reverse_snoc. f_equal. rewrite <-filter_reverse, reverse_involutive.
  apply list_filter_iff. intros e. rewrite paths_match_key. simpl.
  by rewrite bool_decide_eq_false.
Qed.
End recents.

(** ** Decompile jobs *)

Section jobs.
Import DecompileCache Guarded.
Context `{LineCodec JournalRecord, LineCodec ActivityEvent, Postcard}.
Context {Artifact : Type}.
Variable decompile : Project → Z → DecompileOptions → option Artifact.
Notation Serving := (@Serving Artifact).
Notation step := (step decompile).
Notation job_step := (job_step decompile).
Implicit Types (s : Serving) (w : Writer) (p : Project) (k : DecompileCacheKey).

Definition published s : Project := w_read_state (sv_writer s).
Definition next s s' : Prop := ∃ answer, step s answer s'.
Definition job_next s s' : Prop := ∃ answer, job_step s answer s'.
(** A project published during an execution that led from [s0] to [s]. *)
Definition seen s0 s p : Prop := ∃ s1, rtc next s0 s1 ∧ rtc next s1 s ∧ published s1 = p.

(** Nothing is cached or under way. *)
Definition idle s : Prop :=
  w_read_state (sv_writer s) = w_project (sv_writer s) ∧ is_u64 (op_seq (published s)) ∧
  sv_cache s = [] ∧ sv_asked s = [] ∧ sv_queue s = [] ∧ sv_running s = [].

(** ** The counter of operations *)

Lemma dispatch_project o req p d h r p' d' h' :
  dispatch o req p d h = (r, p', d', h') → p' = p ∨ op_seq p' = op_seq p +wrap 1.
Proof.
  destruct req as [c op|c|c]; unfold dispatch, apply_one, undo_one, redo_one; intros E;
    repeat (rewrite ?journaled_eq in E; case_match; simplify_eq/=);
    first [by left | right; apply next_state_seq].
Qed.
Lemma handle_project io req w r w' :
  handle io req w = (r, w') →
  w_read_state w' = w_project w' ∧
  (w_project w' = w_project w ∨ op_seq (w_project w') = op_seq (w_project w) +wrap 1).
Proof.
  unfold handle. destruct (dispatch _ _ _ _ _) as [[[res project] disk] history] eqn:E.
  apply dispatch_project in E. intros Hh. repeat case_match; simplify_eq/=; auto.
Qed.

(** The project of a state is what readers load, its counter is a [u64], and it
    changes only when the counter grows. *)
Definition loaded s : Prop :=
  w_read_state (sv_writer s) = w_project (sv_writer s) ∧ is_u64 (op_seq (published s)).
Lemma next_published s s' :
  loaded s → next s s' →
  loaded s' ∧ (published s' = published s ∨ op_seq (published s) < op_seq (published s'))%Z.
Proof.
  intros [E U] [answer N]. unfold loaded, published in *.
  destruct N as [io req r w' w cache asked queue running Hw Hh|w|w|w|s answer s' [w|w]]; simpl in *;
    [|by auto..].
  rewrite E in *. destruct (handle_project _ _ _ _ _ Hh) as [-> [->|Hp]]; [auto|].
  rewrite wrap_add_small in Hp by (done || lia). rewrite Hp. unfold is_u64 in *.
  split; [split; [done|lia]|right; lia].
Qed.
Lemma run_published s s' :
  loaded s → rtc next s s' →
  loaded s' ∧ (published s' = published s ∨ op_seq (published s) < op_seq (published s'))%Z.
Proof.
  intros L R. revert L. induction R as [s|s s1 s' N R IH]; intros L; [auto|].
  destruct (next_published _ _ L N) as [L1 P1]. destruct (IH L1) as [L2 P2].
  split; [done|]. destruct P1 as [<-|], P2 as [->|]; auto. right. lia.
Qed.
(** ** Invariants of the jobs *)

(** A job comes from a request made no later than [s]. *)
Definition requested s (job : Job) : Prop :=
  ∃ policy, jb_options job = policy_options policy ∧ key_va (jb_key job) = jb_va job ∧
    lane (jb_key job) = decompile_cache_discriminant (policy_options policy) ∧
    (key_op_seq (jb_key job) ≤ op_seq (published s))%Z.
(** A cached artifact is that of a project published when its key was current or
    later. *)
Definition computed s0 s (x : DecompileCacheKey * Artifact) : Prop :=
  ∃ p policy, seen s0 s p ∧ (key_op_seq x.1 ≤ op_seq p)%Z ∧
    lane x.1 = decompile_cache_discriminant (policy_options policy) ∧
    decompile p (key_va x.1) (policy_options policy) = Some x.2.

Record served s0 s : Prop := {
  sd_run : rtc next s0 s;
  sd_loaded : loaded s;
  sd_cache : ∃ log, lru (sv_cache s) log ∧ ∀ x, x ∈ log → computed s0 s x;
  sd_permits : length (sv_running s) ≤ PERMITS;
  sd_jobs : ∀ job, job ∈ sv_asked s ++ sv_queue s → requested s job;
  sd_running : ∀ job p, (job, p) ∈ sv_running s →
    requested s job ∧ seen s0 s p ∧ (key_op_seq (jb_key job) ≤ op_seq p)%Z
}.

Lemma policy_lanes a b :
  decompile_cache_discriminant (policy_options a) = decompile_cache_discriminant (policy_options b) →
  a = b.
Proof. by destruct a, b. Qed.

Lemma seen_next s0 s s' p : seen s0 s p → next s s' → seen s0 s' p.
Proof. intros (s1 & R1 & R2 & E) N. exists s1. split_and!; [done| |done]. by eapply rtc_r. Qed.
Lemma seen_now s0 s : rtc next s0 s → seen s0 s (published s).
Proof. by exists s. Qed.
(** A project seen before is older than the present one, or the same. *)
Lemma seen_older s0 s p :
  loaded s0 → seen s0 s p → published s = p ∨ (op_seq p < op_seq (published s))%Z.
Proof.
  intros L (s1 & R1 & R2 & <-). destruct (run_published _ _ L R1) as [L1 _].
  by destruct (run_published _ _ L1 R2) as [_ ?].
Qed.
Lemma requested_next s s' job : loaded s → next s s' → requested s job → requested s' job.
Proof.
  intros L N (policy & Eo & Ev & El & Le). exists policy. split_and!; [done..|].
  destruct (next_published _ _ L N) as [_ [->|]]; lia.
Qed.
Lemma computed_next s0 s s' x : next s s' → computed s0 s x → computed s0 s' x.
Proof.
  intros N (p & policy & S & R). exists p, policy. split; [|done]. by eapply seen_next.
Qed.

Lemma idle_served s0 : idle s0 → served s0 s0.
Proof.
  intros (E & U & Ec & Ea & Eq & Er). constructor; rewrite ?Ec, ?Ea, ?Eq, ?Er.
  - done.
  - done.
  - exists []. split; [done|]. by intros ? ?%not_elem_of_nil.
  - simpl. lia.
  - by intros ? ?%not_elem_of_nil.
  - by intros ? ? ?%not_elem_of_nil.
Qed.
(** What a finished job leaves in the cache. *)
Lemma compute_cases s0 s job p r cache cache' log :
  requested s job → seen s0 s p → (key_op_seq (jb_key job) ≤ op_seq p)%Z →
  lru cache log → compute decompile job p cache = (r, cache') →
  decompile p (jb_va job) (jb_options job) = r ∧
  match r with
  | Some a => lru cache' (log ++ [(jb_key job, a)]) ∧ computed s0 s (jb_key job, a)
  | None => cache' = cache
  end.
Proof.
  intros (policy & Eo & Ev & El & _) S Le L E. unfold compute in E.
  destruct (decompile _ _ _) as [a|] eqn:D; simplify_eq; [|done].
  split_and!; [done|by apply lru_put|]. exists p, policy. split_and!; [done..|].
  simpl. by rewrite Ev, <-Eo.
Qed.

Lemma served_next s0 s s' : loaded s0 → served s0 s → next s s' → served s0 s'.
Proof.
  intros L0 V N. pose proof (rtc_r _ _ _ (sd_run _ _ V) N) as R'.
  destruct (next_published _ _ (sd_loaded _ _ V) N) as [L' _].
  assert (∀ job, requested s job → requested s' job) as Hreq
    by (intros job; apply requested_next; [apply V|done]).
  assert (∀ p, seen s0 s p → seen s0 s' p) as Hseen by (intros p S; by eapply seen_next).
  assert (∀ x, computed s0 s x → computed s0 s' x) as Hcomp by (intros x C; by eapply computed_next).
  destruct (sd_cache _ _ V) as (log & Llog & Clog). pose proof (sd_permits _ _ V) as P.
  pose proof (sd_jobs _ _ V) as J. pose proof (sd_running _ _ V) as Run.
  assert (∀ job p, (job, p) ∈ sv_running s →
    requested s' job ∧ seen s0 s' p ∧ (key_op_seq (jb_key job) ≤ op_seq p)%Z) as Run'
    by (intros job p Hin; destruct (Run job p Hin) as (? & ? & ?); auto).
  destruct N as [answer N]. destruct N as
    [io req r w' w cache asked queue running Hw Hh
    |va policy job w cache asked queue running Ha
    |job a cache' w cache asked1 asked2 queue running Hg
    |job cache' w cache asked1 asked2 queue running Hg
    |s answer s' [job w cache asked queue1 queue2 running Hl
                 |job p r cache' w cache asked queue running1 running2 Hc]]; simpl in *.
  - constructor; simpl; auto. exists log. auto.
  - constructor; simpl; auto; [exists log; auto|]. intros job' Hin.
    assert (job' ∈ asked ++ queue ∨ job' = job) as [Hj| ->] by set_solver; [auto|].
    unfold ask in Ha. destruct (function_at _ _); simplify_eq. exists policy. simpl.
    split_and!; [done..|]. unfold published. simpl. lia.
  - apply lru_get with (log := log) in Hg as [Hin L2]; [|done]. constructor; simpl; auto; [|set_solver].
    exists (log ++ [(jb_key job, a)]). split; [done|].
    intros x [Hx| ->%list_elem_of_singleton]%elem_of_app; [auto|].
    apply Hcomp, Clog, (elem_of_recency_sub fst). rewrite Llog in Hin. by eapply last_n_sub.
  - apply get_cases in Hg as [_ ->]; [|by eapply lru_NoDup].
    constructor; simpl; auto; [exists log; auto|set_solver].
  - constructor; simpl; auto.
    + exists log. auto.
    + rewrite length_app. unfold PERMITS in *. simpl. lia.
    + set_solver.
    + intros job' p [Hin|[= -> ->]%list_elem_of_singleton]%elem_of_app; [auto|].
      assert (requested (mkServing w cache asked (queue1 ++ job :: queue2) running) job) as Rj
        by (apply J; set_solver).
      split_and!; [by apply Hreq|apply Hseen; by apply (seen_now s0), V|].
      by destruct Rj as (policy & _ & _ & _ & Le).
  - destruct (Run job p ltac:(set_solver)) as (Rj & Sp & Le).
    destruct (compute_cases _ _ _ _ _ _ _ _ Rj Sp Le Llog Hc) as [Hd Hr].
    constructor; simpl; auto.
    + destruct r as [a|]; [|subst; exists log; auto]. destruct Hr as [L2 C2].
      eexists. split; [done|]. intros x [Hx| ->%list_elem_of_singleton]%elem_of_app; auto.
    + rewrite length_app in *. simpl in P. lia.
    + intros job' p' Hin. apply Run'. set_solver.
Qed.
Lemma run_served s0 s : idle s0 → rtc next s0 s → served s0 s.
Proof.
  intros I R. assert (loaded s0) as L by (destruct I as (? & ? & _); by split).
  revert s R. refine (rtc_ind_r _ _ _ _); [by apply idle_served|].
  intros s s' _ N V. by eapply served_next.
Qed.
(** ** Jobs run to their end *)

Definition pending s : nat := length (sv_queue s) + length (sv_running s).
Definition steps_left s : nat := 2 * length (sv_queue s) + length (sv_running s).

Lemma job_next_left s t : job_next s t → steps_left s = S (steps_left t) ∧ pending t ≤ pending s.
Proof.
  intros [answer [w cache|w cache]]; unfold steps_left, pending; simpl; rewrite !length_app; simpl; lia.
Qed.
Lemma job_next_writer s t : job_next s t → sv_writer t = sv_writer s.
Proof. by intros [answer []]. Qed.
Lemma job_next_next s t : job_next s t → next s t.
Proof. intros [answer N]. exists answer. by constructor. Qed.
Lemma jobs_bounded n s t : nsteps job_next n s t → n ≤ steps_left s.
Proof.
  induction 1 as [s|n s s1 t N _ IH]; [lia|]. destruct (job_next_left _ _ N) as [E _]. lia.
Qed.
Lemma stuck_done s : (∀ t, ¬ job_next s t) → sv_queue s = [] ∧ sv_running s = [].
Proof.
  destruct s as [w cache asked queue running]. intros Hs. simpl.
  destruct running as [|[job p] running].
  - destruct queue as [|job queue]; [done|]. exfalso.
    refine (Hs _ (ex_intro _ _ (step_start decompile job w cache asked [] queue [] _))).
    unfold PERMITS. simpl. lia.
  - exfalso. destruct (compute decompile job p cache) as [r cache'] eqn:E.
    exact (Hs _ (ex_intro _ _ (step_finish decompile job p r cache' w cache asked queue [] running E))).
Qed.

(** The job is pending, or its artifact was used so recently that the jobs left
    cannot evict it. *)
Definition tracked (job : Job) (a : Artifact) s : Prop :=
  job ∈ sv_queue s ++ (sv_running s).*1 ∧ pending s ≤ DECOMPILE_CACHE_CAP ∨
  ∃ log before after, lru (sv_cache s) log ∧ log = before ++ (jb_key job, a) :: after ∧
    (jb_key job ∉ after.*1) ∧ length after + pending s < DECOMPILE_CACHE_CAP.

Section tracking.
Variables (s0 : Serving) (job : Job) (a : Artifact) (p : Project).
Hypothesis loaded0 : loaded s0.
Hypothesis job_now : key_op_seq (jb_key job) = op_seq p.
Hypothesis job_artifact : decompile p (jb_va job) (jb_options job) = Some a.

(** A running job under the same key computes the same artifact. *)
Lemma same_key_artifact s job' p' :
  served s0 s → published s = p → requested s job → (job', p') ∈ sv_running s →
  jb_key job' = jb_key job → decompile p' (jb_va job') (jb_options job') = Some a.
Proof.
  intros V E (b & Eo & Ev & El & _) Hin Ek.
  destruct (sd_running _ _ V _ _ Hin) as ((b' & Eo' & Ev' & El' & _) & S & Le).
  assert (p' = p) as -> by (destruct (seen_older _ _ _ loaded0 S); [congruence|rewrite Ek in Le; subst; lia]).
  rewrite Ek in *. rewrite <-Ev', Ev, Eo', <-(policy_lanes b b'), <-Eo; [done|congruence].
Qed.

Lemma tracked_next s t :
  served s0 s → published s = p → requested s job → job_next s t →
  tracked job a s → tracked job a t.
Proof.
  intros V E Rj N T. pose proof (job_next_left _ _ N) as [_ Lp].
  pose proof (same_key_artifact s) as Same.
  destruct N as [answer N].
  destruct N as [job' w cache asked queue1 queue2 running Hl
                |job' p' r cache' w cache asked queue running1 running2 Hc].
  { destruct T as [[Hin P]|(log & before & after & L & El & Hn & P)].
    - left. split; [|lia]. simpl in *. rewrite fmap_app. csimpl. set_solver.
    - right. exists log, before, after. split_and!; [done..|]. lia. }
  set (s := mkServing w cache asked queue (running1 ++ (job', p') :: running2)) in *.
  set (t := mkServing w cache' asked queue (running1 ++ running2)) in *.
  assert ((job', p') ∈ sv_running s) as Hrun by (simpl; set_solver).
  assert (pending s = S (pending t)) as Ep
    by (unfold pending, s, t; simpl; rewrite !length_app; simpl; lia).
  destruct (sd_running _ _ V _ _ Hrun) as (Rj' & Sp' & Le').
  assert (∀ log, lru cache log → decompile p' (jb_va job') (jb_options job') = r ∧
    match r with
    | Some x => lru cache' (log ++ [(jb_key job', x)])
    | None => cache' = cache
    end) as Cases.
  { intros log L. destruct (compute_cases _ _ _ _ _ _ _ _ Rj' Sp' Le' L Hc) as [D C].
    split; [done|]. by destruct r as [x|]; [destruct C|]. }
  destruct (decide (jb_key job' = jb_key job)) as [Ek|Nk].
  - destruct (sd_cache _ _ V) as (log & L & _). destruct (Cases log L) as [D C].
    rewrite (Same _ _ V E Rj Hrun Ek) in D. subst r. rewrite Ek in C.
    right. exists (log ++ [(jb_key job, a)]), log, []. split_and!; [done..| |].
    + apply not_elem_of_nil.
    + simpl. destruct T as [[_ P]|(? & ? & ? & _ & _ & _ & P)]; lia.
  - destruct T as [[Hin P]|(log & before & after & L & El & Hn & P)].
    + left. split; [|lia]. simpl in *. rewrite fmap_app in *. csimpl in Hin.
      assert (job ≠ job') by congruence. set_solver.
    + right. destruct (Cases log L) as [_ C]. destruct r as [x|].
      * exists (log ++ [(jb_key job', x)]), before, (after ++ [(jb_key job', x)]).
        split_and!; [done| | |].
        -- by rewrite El, <-app_assoc.
        -- rewrite fmap_app. set_solver.
        -- rewrite length_app. simpl. lia.
      * exists log, before, after. split_and!; [|done..|lia]. simpl in *. by rewrite C.
Qed.

Lemma tracked_run s t :
  served s0 s → published s = p → requested s job → rtc job_next s t →
  tracked job a s → tracked job a t.
Proof.
  intros V E Rj R. revert V E Rj. induction R as [s|s s1 t N R IH]; [done|].
  intros V E Rj T. pose proof (job_next_next _ _ N) as Nx.
  apply IH.
  - by eapply served_next.
  - unfold published. by rewrite (job_next_writer _ _ N).
  - apply requested_next with (s := s); [apply V|done..].
  - by eapply tracked_next.
Qed.
End tracking.

(** C32: a decompilation is never stale: whether it comes from the cache or from
    a job, it is what the decompiler returns for a project published no earlier
    than the request, however edits, requests and jobs interleave; and for the
    present project when nothing was edited since. *)
Theorem decompile_never_stale s0 s job r s' :
  idle s0 → rtc next s0 s → step s (Some (job, r)) s' →
  ∃ p, seen s0 s p ∧ (key_op_seq (jb_key job) ≤ op_seq p)%Z ∧
    decompile p (jb_va job) (jb_options job) = r ∧
    (op_seq (published s) = key_op_seq (jb_key job) → p = published s).
Proof.
  intros I R N. pose proof (run_served _ _ I R) as V.
  assert (loaded s0) as L0 by (destruct I as (? & ? & _); by split).
  assert (∀ p, seen s0 s p → (key_op_seq (jb_key job) ≤ op_seq p)%Z →
    op_seq (published s) = key_op_seq (jb_key job) → p = published s) as Now.
  { intros p Sp Le E. destruct (seen_older _ _ _ L0 Sp); [done|lia]. }
  inversion N as [| |job' a cache' w cache asked1 asked2 queue running Hg| |? ? ? N' ]; subst.
  - destruct (sd_cache _ _ V) as (log & Llog & Clog). eapply lru_get in Hg as [Hin _]; [|exact Llog].
    destruct (Clog (jb_key job, a)) as (p & policy & Sp & Le & El & D).
    { apply (elem_of_recency_sub fst). simpl in Llog. rewrite Llog in Hin. by eapply last_n_sub. }
    destruct (sd_jobs _ _ V job) as (b & Eo & Ev & El' & _); [simpl; set_solver|].
    exists p. split_and!; [done..| |auto].
    rewrite Eo, <-Ev, <-(policy_lanes policy b); [done|]. simpl in El. congruence.
  - inversion N' as [|? p ? cache' w cache asked queue running1 running2 Hc]; subst.
    destruct (sd_running _ _ V job p) as (Rj & Sp & Le); [simpl; set_solver|].
    destruct (sd_cache _ _ V) as (log & Llog & _).
    destruct (compute_cases _ _ _ _ _ _ _ _ Rj Sp Le Llog Hc) as [D _]. exists p. auto.
Qed.

(** C37: From any state reached by the server, let only the worker run (job steps:
    pending jobs start, compute and store, in any order; no requests and no edits come
    in between). The pending decompilations end within a bounded number of steps under
    every schedule, and none waits for a permit for ever. When none is left, if at
    most 64 were pending, then repeating the request of each of them that was made for
    the operation counter of the published project (no edit since) and for which the
    decompiler has a result (the function is found) is a cache hit with that result.
    *)
Theorem decompile_retry_ready s0 s t :
  idle s0 → rtc next s0 s → rtc job_next s t →
  (∀ n u, nsteps job_next n s u → n ≤ 2 * length (sv_queue s) + length (sv_running s)) ∧
  ((∀ u, ¬ job_next t u) →
   sv_queue t = [] ∧ sv_running t = [] ∧
   (length (sv_queue s) + length (sv_running s) ≤ DECOMPILE_CACHE_CAP →
    ∀ job a, job ∈ sv_queue s ++ (sv_running s).*1 →
      key_op_seq (jb_key job) = op_seq (published s) →
      decompile (published s) (jb_va job) (jb_options job) = Some a →
      ∃ cache, decompile_cache_get (jb_key job) (sv_cache t) = (Some a, cache))).
Proof.
  intros I R J. split; [intros n u Hn; by apply jobs_bounded in Hn|]. intros Hstuck.
  destruct (stuck_done t Hstuck) as [Eq Er]. split_and!; [done..|].
  intros Hcap job a Hin Hnow D. pose proof (run_served _ _ I R) as V.
  assert (loaded s0) as L0 by (destruct I as (? & ? & _); by split).
  assert (requested s job) as Rj.
  { apply elem_of_app in Hin as [Hin|([j p] & -> & Hin)%list_elem_of_fmap].
    - apply (sd_jobs _ _ V). set_solver.
    - by destruct (sd_running _ _ V _ _ Hin). }
  assert (tracked job a t) as [[Hp _]|(log & before & after & L & El & Hn & P)]
    by (apply (tracked_run s0 job a (published s) L0 Hnow D s t); [done..|left; by split]).
  { rewrite Eq, Er in Hp. by apply not_elem_of_nil in Hp. }
  eexists. apply get_hit; [by eapply lru_NoDup|]. rewrite L.
  apply elem_of_last_used. exists before, after. split_and!; [done..|].
  pose proof (length_remove_dups_le (fst <$> after)) as Ld. rewrite length_fmap in Ld.
  unfold pending in P. simpl in *. lia.
Qed.
End jobs.

(** ** The cache by itself *)

Section cache.
Import DecompileCache.
Context {Artifact : Type}.
Notation Cache := (list (DecompileCacheKey * Artifact)).

Inductive Use := Get (k : DecompileCacheKey) | Put (k : DecompileCacheKey) (a : Artifact).

(** The cache, and the keys used so far with their artifacts: a put, or a get
    that hit. *)
Definition use_cache (s : Cache * Cache) (u : Use) : Cache * Cache :=
  match u with
  | Get k =>
      match decompile_cache_get k s.1 with
      | (Some a, c) => (c, s.2 ++ [(k, a)])
      | (None, c) => (c, s.2)
      end
  | Put k a => (decompile_cache_put k a s.1, s.2 ++ [(k, a)])
  end.
Definition last_put (k : DecompileCacheKey) (us : list Use) : option Artifact :=
  last (omap (λ u, match u with
                   | Put k' a => if decide (k' = k) then Some a else None
                   | Get _ => None
                   end) us).

Lemma use_cache_lru us :
  lru (foldl use_cache ([], []) us).1 (foldl use_cache ([], []) us).2.
Proof.
  induction us as [|u us IH] using rev_ind; [done|]. rewrite foldl_app. simpl.
  set (s := foldl _ _ us) in *. destruct u as [k|k a]; simpl; [|by apply lru_put].
  destruct (decompile_cache_get k s.1) as [[a|] c] eqn:E; simpl.
  - by eapply lru_get in E as [_ ?].
  - apply get_cases in E as [_ ->]; [done|]. by eapply lru_NoDup.
Qed.
Lemma last_put_snoc k us u :
  last_put k (us ++ [u]) =
  match u with
  | Put k' a => if decide (k' = k) then Some a else last_put k us
  | Get _ => last_put k us
  end.
Proof.
  unfold last_put. rewrite omap_app. destruct u as [k'|k' a]; simpl; [by rewrite app_nil_r|].
  case_decide; [by rewrite last_snoc|by rewrite app_nil_r].
Qed.
(** What was used under a key last is what was put under it last. *)
Lemma used_last_put us k a :
  (k, a) ∈ recency fst (foldl use_cache ([], []) us).2 → last_put k us = Some a.
Proof.
  revert k a. induction us as [|u us IH] using rev_ind; [by intros k a ?%not_elem_of_nil|].
  intros k a. rewrite foldl_app, last_put_snoc. simpl. pose proof (use_cache_lru us) as L.
  set (s := foldl _ _ us) in *. destruct u as [k'|k' a']; simpl.
  - destruct (decompile_cache_get k' s.1) as [[a'|] c] eqn:E; simpl; [|auto].
    rewrite recency_snoc. unfold touch. rewrite elem_of_app, list_elem_of_filter.
    intros [[_ Hin]| [= -> ->]%list_elem_of_singleton]; [auto|]. apply IH.
    eapply lru_get in E as [Hin _]; [|done]. rewrite L in Hin. by eapply last_n_sub.
  - rewrite recency_snoc. unfold touch. rewrite elem_of_app, list_elem_of_filter. simpl.
    intros [[Ne Hin]| [= -> ->]%list_elem_of_singleton].
    + rewrite decide_False by done. auto.
    + by rewrite decide_True.
Qed.

(** C40: the decompile cache never holds more than 64 artifacts, and a lookup
    finds the artifact put under the key last, exactly when fewer than 64 other
    keys were used (put, or found) since the key was. *)
Theorem decompile_cache_lru us k a :
  let s := foldl use_cache ([], []) us in
  length s.1 ≤ DECOMPILE_CACHE_CAP ∧
  ((decompile_cache_get k s.1).1 = Some a ↔
   last_put k us = Some a ∧
   ∃ before b after, s.2 = before ++ (k, b) :: after ∧ (k ∉ after.*1) ∧
     length (remove_dups after.*1) < DECOMPILE_CACHE_CAP).
Proof.
  intros s. pose proof (use_cache_lru us) as L. fold s in L. split; [by eapply lru_length|].
  pose proof (lru_NoDup _ _ L) as N. split.
  - intros E. destruct (decompile_cache_get k s.1) as [r c] eqn:G. simpl in E. subst r.
    apply get_cases in G as [Hin _]; [|done]. rewrite L in Hin. split.
    + apply used_last_put. by eapply last_n_sub.
    + apply elem_of_last_used in Hin as (before & after & ? & ? & ?). by exists before, a, after.
  - intros (P & before & b & after & E & Hn & Hl).
    assert ((k, b) ∈ s.1) as Hin by (rewrite L; apply elem_of_last_used; by exists before, after).
    rewrite (get_hit _ b) by done. simpl. rewrite <-P. symmetry. apply used_last_put.
    rewrite L in Hin. by eapply last_n_sub.
Qed.
End cache.

(** ** Running operations *)

(** With fewer than 2^64 operations begun and a clock that does not go back,
    the reported activity is that of the operation open the longest: busy exactly
    while some guard is alive, under the last name given to it. *)
Theorem server_activity_oldest es now :
  clock_from 0 es → (Z.of_nat (length es) ≤ u64_max)%Z →
  ServerActivity.server_activity now (foldl act ServerActivity.ServerActivity_default es) =
  report now (foldl open_step (0%Z, []) es).
Proof.
  intros C L. edestruct (guards_run es ServerActivity.ServerActivity_default (0%Z, []) 0)
    as [t G]; [|done|done|by eapply guards_report].
  constructor; simpl; (done || constructor).
Qed.

(** ** Recent projects *)

Section recents.
Import Recent.
Context `{JsonFileLaws RecentProjectsFile}.
Variable windows : bool.
Variable canonicalize : list Z → option (list Z).

(** A project is opened, or the manager starts again from its file. *)
Inductive RecentEvent := Opened (p : list Z) (id now : Z) | Restarted.
Definition recent_event (s : list RecentProject * option bytes) (e : RecentEvent)
    : list RecentProject * option bytes :=
  match e with
  | Opened p id now => record_recent_project windows canonicalize WriteOk p id now s.1 s.2
  | Restarted => (load_recent_projects s.2, s.2)
  end.
Definition opened_projects (es : list RecentEvent) : list RecentProject :=
  omap (λ e, match e with Opened p id now => Some (mkRecent p id now) | Restarted => None end) es.

Lemma load_save recent file :
  length recent ≤ RECENT_PROJECT_CAPACITY →
  load_recent_projects (save_recent_projects WriteOk recent file) = recent.
Proof.
  intros L. unfold load_recent_projects, save_recent_projects, write_file.
  cbn [mbind option_bind]. rewrite from_to_vec. by apply take_ge.
Qed.
Lemma recents_kept es :
  let s := foldl recent_event ([], None) es in
  reverse s.1 = last_n RECENT_PROJECT_CAPACITY
    (recency (path_key windows canonicalize ∘ path) (opened_projects es)) ∧
  load_recent_projects s.2 = s.1.
Proof.
  induction es as [|e es IH] using rev_ind; [done|]. rewrite foldl_app. simpl in *.
  set (s := foldl recent_event ([], None) es) in *. destruct IH as [E1 E2].
  unfold opened_projects in *. rewrite omap_app. destruct e as [p id now|]; simpl.
  - split.
    + rewrite push_recent_touch, reverse_involutive, E1, recency_snoc.
      apply touch_last_n, recency_NoDup.
    + apply (load_save _ None). unfold push_recent. rewrite length_take. lia.
  - by rewrite app_nil_r, E2.
Qed.

(** Over opens and restarts whose file writes succeed, the recent projects
    are the last eight distinct paths opened, latest first, each with its last
    id and time. *)
Theorem recent_projects_latest es :
  let recent := (foldl recent_event ([], None) es).1 in
  recent = take RECENT_PROJECT_CAPACITY
    (reverse (recency (path_key windows canonicalize ∘ path) (opened_projects es))) ∧
  ∀ x, x ∈ recent ↔ ∃ before after, opened_projects es = before ++ x :: after ∧
    (∀ y, y ∈ after → paths_match windows canonicalize (path y) (path x) = false) ∧
    length (remove_dups (path_key windows canonicalize <$> (path <$> after))) < RECENT_PROJECT_CAPACITY.
Proof.
  intros recent. destruct (recents_kept es) as [E _]. fold recent in E. split.
  { by rewrite <-reverse_last_n, <-E, reverse_involutive. }
  intros x. rewrite <-elem_of_reverse, E, elem_of_last_used.
  repeat (f_equiv; intros ?). rewrite <-list_fmap_compose.
  split; intros (Eo & Hn & Hl); split_and!; try done.
  - intros y Hy. rewrite paths_match_key, bool_decide_eq_false. intros Ek. apply Hn.
    apply list_elem_of_fmap. by exists y.
  - intros (y & Ek & Hy)%list_elem_of_fmap. specialize (Hn y Hy).
    rewrite paths_match_key, bool_decide_eq_false in Hn. by apply Hn.
Qed.
End recents.

(** ** Concrete instances *)

Section samples.
Import DecompileCache Guarded.

(** A decompiler that prints the counter of its project. *)
Definition sample_decompile (p : Project) (va : Z) (o : DecompileOptions) : option Z := Some (op_seq p).
Definition sample_w0 : Writer := start 7 sample_base empty_disk None [].
Definition sample_edit : Result Op * Writer :=
  handle (mkIo AppendOk AppendOk 5 SaveOk) (Apply "ui" (SetFocus 0x1000 None)) sample_w0.
Definition sample_job : Job := mkJob (mkKey 0 0x1000 5) 0x1000 production.

Definition sample_idle : @Serving Z := mkServing sample_w0 [] [] [] [].
Definition sample_asked : @Serving Z := mkServing sample_w0 [] [sample_job] [] [].
Definition sample_queued : @Serving Z := mkServing sample_w0 [] [] [sample_job] [].
Definition sample_started (w : Writer) : @Serving Z :=
  mkServing w [] [] [] [(sample_job, w_read_state sample_w0)].
Definition sample_done (w : Writer) : @Serving Z :=
  mkServing w [(jb_key sample_job, 0%Z)] [] [] [].

Lemma sample_is_idle : idle sample_idle.
Proof. unfold idle. split_and!; [done| |done..]. vm_compute. by split. Qed.
Lemma sample_run_queued : rtc (next sample_decompile) sample_idle sample_queued.
Proof.
  eapply rtc_l; [|apply rtc_once].
  - exists None. eapply (step_ask sample_decompile 0x1000 Product sample_job sample_w0 [] [] [] []).
    by vm_compute.
  - exists None. by apply (step_miss sample_decompile sample_job [] sample_w0 [] [] [] [] []).
Qed.
Lemma sample_start_step w :
  w_read_state w = w_read_state sample_w0 →
  job_step sample_decompile (mkServing w [] [] [sample_job] []) None (sample_started w).
Proof.
  intros E. unfold sample_started. rewrite <-E.
  apply (step_start sample_decompile sample_job w [] [] [] [] []). unfold PERMITS. simpl. lia.
Qed.
Lemma sample_finish_step w :
  job_step sample_decompile (sample_started w) (Some (sample_job, Some 0%Z)) (sample_done w).
Proof.
  apply (step_finish sample_decompile sample_job _ (Some 0%Z) _ w [] [] [] [] []). by vm_compute.
Qed.
Lemma sample_run_edited : rtc (next sample_decompile) sample_idle (sample_started sample_edit.2).
Proof.
  etrans; [apply sample_run_queued|]. eapply rtc_l; [|apply rtc_once].
  - exists None. apply step_job. by apply sample_start_step.
  - exists None. apply (step_write sample_decompile (mkIo AppendOk AppendOk 5 SaveOk)
      (Apply "ui" (SetFocus 0x1000 None)) (sample_edit.1)); [by vm_compute|].
    unfold sample_edit. by destruct (handle _ _ _).
Qed.
Lemma sample_done_stuck u : ¬ job_next sample_decompile (sample_done sample_w0) u.
Proof.
  intros [answer N]. inversion N; match goal with E : ?l ++ _ :: _ = [] |- _ => by destruct l end.
Qed.
End samples.

(** A file of recent projects as the digits of its number. *)
#[export] Instance RecentProject_eq_dec : EqDecision Recent.RecentProject.
Proof. solve_decision. Defined.
#[export] Instance RecentProject_countable : Countable Recent.RecentProject.
Proof.
  refine (inj_countable' (λ e, (Recent.path e, Recent.last_project_id e, Recent.last_opened_unix_secs e))
            (λ '(a, b, c), Recent.mkRecent a b c) _). by intros [].
Defined.
#[export] Instance sample_recent_codec : JsonFile Recent.RecentProjectsFile := {|
  to_vec_pretty f := SampleCodec.digits (countable.encode (Recent.version f, Recent.projects f)) ++ [x7d];
  from_slice bs :=
    p ← SampleCodec.parse_digits bs;
    f ← countable.decode p;
    Some (Recent.mkFile f.1 f.2)
|}.
#[export] Instance sample_recent_laws : JsonFileLaws Recent.RecentProjectsFile.
Proof.
  constructor. intros [v l]. unfold from_slice, to_vec_pretty. simpl.
  rewrite SampleCodec.parse_digits_digits. simpl. by rewrite countable.decode_encode.
Qed.

Lemma recent_projects_latest_witness :
  map Recent.last_project_id
    (foldl (recent_event false Some) ([], None)
       [Opened [47; 97] 1 10; Restarted; Opened [47; 98] 2 20; Opened [47; 47; 97] 3 30; Restarted]%Z).1
  = [3; 2]%Z.
Proof.
  rewrite (proj1 (recent_projects_latest false Some _)). by vm_compute.
Defined.

Lemma decompile_never_stale_witness :
  ∃ p, op_seq p = 0%Z ∧ op_seq (published (sample_started sample_edit.2)) = 1%Z.
Proof.
  destruct (decompile_never_stale sample_decompile sample_idle _ _ _ _ sample_is_idle sample_run_edited
    (Guarded.step_job _ _ _ _ (sample_finish_step sample_edit.2))) as (p & _ & _ & E & _).
  exists p. split; [by injection E|by vm_compute].
Defined.

Lemma decompile_retry_ready_witness :
  ∃ cache, DecompileCache.decompile_cache_get (Guarded.jb_key sample_job)
    (Guarded.sv_cache (sample_done sample_w0)) = (Some 0%Z, cache).
Proof.
  refine (proj2 (proj2 (proj2 (decompile_retry_ready sample_decompile sample_idle sample_queued
    (sample_done sample_w0) sample_is_idle sample_run_queued _) sample_done_stuck)) _ sample_job 0%Z _ _ _).
  - eapply rtc_l; [exists None; by apply sample_start_step|].
    apply rtc_once. exists (Some (sample_job, Some 0%Z)). apply sample_finish_step.
  - simpl. unfold DecompileCache.DECOMPILE_CACHE_CAP. lia.
  - simpl. left.
  - by vm_compute.
  - by vm_compute.
Defined.

Lemma server_activity_oldest_witness :
  ServerActivity.server_activity 30
    (foldl act ServerActivity.ServerActivity_default
      [Begin 10 "open"; Begin 20 "scan"; Update 2 "sweep"; Drop 1]) =
  ServerActivity.mkSnapshot "busy" true 1 (Some "sweep"%string) (Some 10%Z).
Proof.
  refine (eq_trans (server_activity_oldest _ _ _ _) _); [simpl; lia|vm_compute; congruence|].
  by vm_compute.
Defined.
