(* ===== verification/Targets.v ===== *)
(** The registry of open targets of [src/project_manager.rs]: opening and closing
    projects and dumps, the modules of a dump as projects, and workspaces
    ([src/project/workspace.rs]).

    Each mutex section is a step; what reads or analyses a file is a parameter.
    The recent list's file is in [Serving]. *)

From Stdlib Require Import Strings.Byte Strings.Ascii Strings.String.
From S2P Require Import Prelude Text Data Ops Journal Persist Activity Writer MemoryMap ModulePe Serving.
Import Recent.

Local Open Scope string_scope.

(** ** Modules of a dump *)

(** [LoadedDump::primary_module] *)
Definition primary_module (modules : list DumpModule) : option DumpModule :=
  match find_first is_exception_module modules with
  | Some m => Some m
  | None =>
      match find_first is_main modules with
      | Some m => Some m
      | None => head modules
      end
  end.

(** The sort key of the hits as one integer: the module of the exception, then
    the main module, then by presence. *)
Definition hit_rank (m : DumpModule) : Z :=
  ((if is_exception_module m then 0 else 2 ^ 41) + (if is_main m then 0 else 2 ^ 40)
     - dm_presence m)%Z.

Definition by_base (modules : list DumpModule) (base : Z) : Result DumpModule :=
  match find_first (λ m, (dm_base m =? base)%Z) modules with
  | Some m => Ok m
  | None => Err "no module at base"
  end.
Definition by_name (modules : list DumpModule) (spec : string) : Result DumpModule :=
  match find_first (λ m, bool_decide (lowercase (dm_name m) = lowercase spec)) modules with
  | Some m => Ok m
  | None =>
      let needle := lowercase spec in
      let hits := filter (λ m, contains needle (lowercase (dm_name m)) = true ∨
                               contains needle (lowercase (dm_path m)) = true) modules in
      match sort_by_key hit_rank hits with
      | m :: _ => Ok m
      | [] => Err "no module matching"
      end
  end.

Definition resolve_module_spec (modules : list DumpModule) (spec : string) : Result DumpModule :=
  let spec := trim spec in
  if decide (spec = "") then
    match primary_module modules with
    | Some m => Ok m
    | None => Err "dump has no modules"
    end
  else
    let hex := match strip_prefix "0x" spec with
               | Some h => Some h
               | None => strip_prefix "0X" spec
               end in
    match hex ≫= from_str_radix 16 with
    | Some base => by_base modules base
    | None =>
        match from_str_radix 10 spec with
        | Some base => by_base modules base
        | None => by_name modules spec
        end
    end.

(** ** The state *)

Record ProjectHandle := mkHandle {
  ph_id : Z; ph_path : list Z; ph_sha256 : string; ph_kind : string }.
Record WorkspaceMember := mkMember { wm_sha256 : string; wm_path : list Z }.
Record Workspace := mkWorkspace {
  ws_id : Z; ws_name : option string; members : list WorkspaceMember;
  created_at : Z; updated_at : Z }.
(** A loaded dump: its session key, modules, mapping and memory index. *)
Record LoadedDump := mkDump {
  session_key : string; modules : list DumpModule; ld_mmap : bytes; ld_memory : ProcessMemoryMap }.
Record DumpSession := mkSession {
  ds_id : Z; ds_path : list Z; ds_dump : LoadedDump; ds_workspace : option Z;
  module_projects : list (string * Z) }.
Record Manager := mkManager {
  projects : gmap Z ProjectHandle;
  dump_sessions : gmap Z DumpSession;
  workspaces : gmap Z Workspace;
  recent : list RecentProject
}.
Definition empty_manager : Manager := mkManager ∅ ∅ ∅ [].

Definition set_projects (f : gmap Z ProjectHandle → gmap Z ProjectHandle) (m : Manager) : Manager :=
  mkManager (f (projects m)) (dump_sessions m) (workspaces m) (recent m).
Definition set_sessions (f : gmap Z DumpSession → gmap Z DumpSession) (m : Manager) : Manager :=
  mkManager (projects m) (f (dump_sessions m)) (workspaces m) (recent m).
Definition set_workspaces (f : gmap Z Workspace → gmap Z Workspace) (m : Manager) : Manager :=
  mkManager (projects m) (dump_sessions m) (f (workspaces m)) (recent m).
Definition set_recent (f : list RecentProject → list RecentProject) (m : Manager) : Manager :=
  mkManager (projects m) (dump_sessions m) (workspaces m) (f (recent m)).

(** Fresh ids, the clock, and whether a workspace file can be written. *)
Record Env := mkEnv { ev_id : Z; ev_ws_id : Z; ev_now : Z; ev_ws_save : bool }.

(** [BTreeMap<String, _>::insert], keys in byte order. *)
Fixpoint insert_key {A} (k : string) (a : A) (l : list (string * A)) : list (string * A) :=
  match l with
  | [] => [(k, a)]
  | (k', a') :: l' =>
      match String.compare k k' with
      | Lt => (k, a) :: l
      | Eq => (k, a) :: l'
      | Gt => (k', a') :: insert_key k a l'
      end
  end.

Section targets.
(** [cfg!(windows)] and [fs::canonicalize]; whether a path names a dump (its
    extension or its magic); loading an image ([pe.path] and its hash) and a
    dump; the file name [extract_module_pe] writes under the home directory. *)
Variable windows : bool.
Variable canonicalize : list Z → option (list Z).
Variable is_dump_file : list Z → bool.
Variable load_pe : list Z → Result string.
Variable load_dump : list Z → Result LoadedDump.
Variable module_file : string → string → list Z.

Notation matches := (paths_match windows canonicalize).
Notation normalized := (normalize_local_path windows canonicalize).

Definition record_recent (p : list Z) (id now : Z) : Manager → Manager :=
  set_recent (push_recent windows canonicalize p id now).

(** [WorkspaceStore::save] is durable or fails; the map in memory is changed
    either way. *)
Definition push_member (id : Z) (member : WorkspaceMember) (now : Z) : Manager → Manager :=
  set_workspaces (alter (λ w, mkWorkspace (ws_id w) (ws_name w) (members w ++ [member])
                                (created_at w) now) id).

(** [create_workspace] *)
Definition create_workspace (name : option string) (env : Env) (m : Manager) : Result Z * Manager :=
  if ev_ws_save env then
    (Ok (ev_ws_id env),
     set_workspaces (insert (ev_ws_id env) (mkWorkspace (ev_ws_id env) name [] (ev_now env) (ev_now env))) m)
  else (Err "save workspace", m).

(** [open] of an image in two critical sections: the lookup, and the insertion
    after the analysis. *)
Definition open_check (path : list Z) (now : Z) (m : Manager) : option Z * Manager :=
  match find_first (λ h, matches (ph_path h) (normalized path)) (btree_values (projects m)) with
  | Some h => (Some (ph_id h), record_recent (ph_path h) (ph_id h) now m)
  | None => (None, m)
  end.
Definition install (path : list Z) (sha256 kind : string) (env : Env) (m : Manager) : Z * Manager :=
  (ev_id env,
   record_recent path (ev_id env) (ev_now env)
     (set_projects (insert (ev_id env) (mkHandle (ev_id env) path sha256 kind)) m)).

Definition open_pe (path : list Z) (env : Env) (m : Manager) : Result Z * Manager :=
  match open_check path (ev_now env) m with
  | (Some id, m) => (Ok id, m)
  | (None, m) =>
      match load_pe (normalized path) with
      | Err e => (Err e, m)
      | Ok sha256 =>
          let '(id, m) := install (normalized path) sha256 "pe" env m in (Ok id, m)
      end
  end.

(** [open_dump]; [stem] names the workspace. *)
Definition open_dump (stem : option string) (path : list Z) (env : Env) (m : Manager)
    : Result Z * Manager :=
  match find_first (λ h, matches (ds_path h) (normalized path)) (btree_values (dump_sessions m)) with
  | Some h => (Ok (ds_id h), record_recent (ds_path h) (ds_id h) (ev_now env) m)
  | None =>
      match load_dump (normalized path) with
      | Err e => (Err e, m)
      | Ok dump =>
          let id := ev_id env in
          let '(workspace, m) :=
            match create_workspace stem env m with
            | (Ok ws, m) =>
                (Some ws, push_member ws (mkMember (session_key dump) (normalized path)) (ev_now env) m)
            | (Err _, m) => (None, m)
            end in
          (Ok id, record_recent (normalized path) id (ev_now env)
                    (set_sessions (insert id (mkSession id (normalized path) dump workspace [])) m))
      end
  end.

(** [open_with_progress] *)
Definition open (stem : option string) (path : list Z) (env : Env) (m : Manager) : Result Z * Manager :=
  if is_dump_file (normalized path) then open_dump stem (normalized path) env m
  else open_pe path env m.

(** The cache scan of [open_dump_module]. *)
Definition key_hint (module : DumpModule) : string :=
  lowercase (dm_name module) +:+ ":" +:+ hex (dm_timestamp module) +:+ ":" +:+ hex (dm_size module).
Definition cached_module (module : DumpModule) (cache : list (string * Z)) (m : Manager) : option Z :=
  snd <$> find_first (λ x, (contains (key_hint module) x.1 || contains (lowercase (dm_name module)) x.1)
                           && bool_decide (is_Some (projects m !! x.2))) cache.

(** Joining the dump's workspace, unless a member has the hash already. *)
Definition join_workspace (workspace : option Z) (member : WorkspaceMember) (now : Z) (m : Manager)
    : Manager :=
  match workspace ≫= λ id, workspaces m !! id with
  | Some w =>
      if existsb (λ x, bool_decide (wm_sha256 x = wm_sha256 member)) (members w) then m
      else push_member (ws_id w) member now m
  | None => m
  end.

(** [open_dump_module]; [None] is a panic of the extraction. *)
Definition open_dump_module (dump_session_id : Z) (spec : string) (env : Env) (m : Manager)
    : option (Result Z * Manager) :=
  match dump_sessions m !! dump_session_id with
  | None => Some (Err "dump session not found", m)
  | Some session =>
      match resolve_module_spec (modules (ds_dump session)) spec with
      | Err e => Some (Err e, m)
      | Ok module =>
          match cached_module module (module_projects session) m with
          | Some id => Some (Ok id, m)
          | None =>
              let dump := ds_dump session in
              extracted ← extract_module_pe (ld_mmap dump) (ld_memory dump) (session_key dump) module;
              Some match extracted with
                   | Err e => (Err e, m)
                   | Ok x =>
                       let path := module_file (session_key dump) (ex_file_name x) in
                       match load_pe path with
                       | Err e => (Err e, m)
                       | Ok sha256 =>
                           let '(id, m) := install path sha256 "dump_module" env m in
                           let m := join_workspace (ds_workspace session) (mkMember sha256 path) (ev_now env) m in
                           (Ok id, set_sessions (alter (λ s,
                              mkSession (ds_id s) (ds_path s) (ds_dump s) (ds_workspace s)
                                (insert_key (ex_identity_key x) id (module_projects s))) dump_session_id) m)
                       end
                   end
          end
      end
  end.

Record ClosedTarget := mkClosed { ct_id : Z; ct_kind : string; ct_path : list Z; child_projects : nat }.

(** The children of a closed dump; [saves] tells whose save succeeds. *)
Fixpoint close_children (saves : Z → bool) (ids : list Z) (m : Manager) (count : nat)
    : Result nat * Manager :=
  match ids with
  | [] => (Ok count, m)
  | id :: ids =>
      match projects m !! id with
      | Some _ =>
          let m := set_projects (delete id) m in
          if saves id then close_children saves ids m (S count)
          else (Err "save dump module before close", m)
      | None => close_children saves ids m count
      end
  end.

(** [close] *)
Definition close (saves : Z → bool) (id : Z) (m : Manager) : Result ClosedTarget * Manager :=
  match projects m !! id with
  | Some h =>
      let m := set_projects (delete id) m in
      if saves id then (Ok (mkClosed id (ph_kind h) (ph_path h) 0), m)
      else (Err "save project before close", m)
  | None =>
      match dump_sessions m !! id with
      | None => (Err "target not found", m)
      | Some session =>
          let m := set_sessions (delete id) m in
          match close_children saves (map snd (module_projects session)) m 0 with
          | (Ok n, m) => (Ok (mkClosed id "dump_session" (ds_path session) n), m)
          | (Err e, m) => (Err e, m)
          end
      end
  end.

(** [list]: projects, then dump sessions. *)
Definition list_targets (m : Manager) : list (Z * list Z) :=
  map (λ h, (ph_id h, ph_path h)) (btree_values (projects m)) ++
  map (λ s, (ds_id s, ds_path s)) (btree_values (dump_sessions m)).

(** ** Workspaces *)

(** [add_project_to_workspace] *)
Definition add_project_to_workspace (workspace_id project_id : Z) (env : Env) (m : Manager)
    : Result () * Manager :=
  match projects m !! project_id with
  | None => (Err "project not found", m)
  | Some h =>
      match workspaces m !! workspace_id with
      | None => (Err "workspace not found", m)
      | Some _ =>
          let m := push_member workspace_id (mkMember (ph_sha256 h) (ph_path h)) (ev_now env) m in
          (if ev_ws_save env then Ok () else Err "save workspace", m)
      end
  end.

(** [remove_from_workspace]; [Path] equality is by components. *)
Definition remove_from_workspace (workspace_id : Z) (path : list Z) (env : Env) (m : Manager)
    : Result () * Manager :=
  match workspaces m !! workspace_id with
  | None => (Err "workspace not found", m)
  | Some w =>
      let kept := filter (λ x, components (wm_path x) ≠ components path) (members w) in
      (if ev_ws_save env then Ok () else Err "save workspace",
       set_workspaces (insert workspace_id
         (mkWorkspace (ws_id w) (ws_name w) kept (created_at w) (ev_now env))) m)
  end.
End targets.
