(* ===== verification/TargetsCorrect.v ===== *)
(** The claims about the registry of targets. *)

From Stdlib Require Import Strings.Byte Strings.Ascii Strings.String.
From S2P Require Import Prelude Text Data Ops Journal Persist Activity Writer MemoryMap Loader.
From S2P Require Import ModulePe ModulePeCorrect Serving ServingCorrect Targets.
Import Recent Targets.

(** ** One target per path *)

Section registry.
Variable windows : bool.
Variable canonicalize : list Z → option (list Z).
Variable is_dump_file : list Z → bool.
Variable load_pe : list Z → Result string.
Variable load_dump : list Z → Result LoadedDump.

Notation matches := (paths_match windows canonicalize).
Notation normalized := (normalize_local_path windows canonicalize).
Notation open := (open windows canonicalize is_dump_file load_pe load_dump).
Implicit Types m : Manager.

Inductive Request :=
  | Open (stem : option string) (path : list Z) (env : Env)
  | Close (saves : Z → bool) (id : Z).
Definition serve (r : Request) m : Manager :=
  match r with
  | Open stem path env => (open stem path env m).2
  | Close saves id => (close saves id m).2
  end.
(** A new id is new. *)
Definition fresh (r : Request) m : Prop :=
  match r with
  | Open _ _ env => projects m !! ev_id env = None ∧ dump_sessions m !! ev_id env = None
  | Close _ _ => True
  end.
Fixpoint all_fresh (rs : list Request) m : Prop :=
  match rs with
  | [] => True
  | r :: rs => fresh r m ∧ all_fresh rs (serve r m)
  end.

(** No two entries of a map of handles are for one path. *)
Definition one_per_path {A} (path : A → list Z) (t : gmap Z A) : Prop :=
  ∀ i j x y, t !! i = Some x → t !! j = Some y → matches (path x) (path y) = true → i = j.
Record registered m : Prop := {
  rg_ids : ∀ i h, projects m !! i = Some h → ph_id h = i;
  rg_session_ids : ∀ i s, dump_sessions m !! i = Some s → ds_id s = i;
  rg_paths : one_per_path ph_path (projects m);
  rg_session_paths : one_per_path ds_path (dump_sessions m)
}.

Lemma matches_sym l r : matches l r = matches r l.
Proof. rewrite !paths_match_key. apply bool_decide_ext. naive_solver. Qed.

Lemma find_handle {A} (p : A → bool) (t : gmap Z A) :
  match find_first p (btree_values t) with
  | Some x => ∃ i, t !! i = Some x ∧ p x = true
  | None => ∀ i x, t !! i = Some x → p x = false
  end.
Proof.
  unfold btree_values. destruct (find_first p _) as [x|] eqn:E.
  - apply find_first_Some in E as [([i y] & -> & Hin)%list_elem_of_fmap P].
    apply elem_of_btree_entries in Hin. by exists i.
  - rewrite find_first_None in E. intros i x Hx. apply E, list_elem_of_fmap.
    exists (i, x). by rewrite elem_of_btree_entries.
Qed.

Lemma one_per_path_insert {A} (path : A → list Z) (t : gmap Z A) i x :
  one_per_path path t → (∀ j y, t !! j = Some y → matches (path y) (path x) = false) →
  one_per_path path (<[i := x]> t).
Proof.
  intros O N j k y z Hj Hk M. rewrite lookup_insert_Some in Hj, Hk.
  destruct Hj as [[<- <-]|[Nj Hj]], Hk as [[<- <-]|[Nk Hk]]; [done| | |by eapply O].
  - rewrite matches_sym, (N _ _ Hk) in M. done.
  - by rewrite (N _ _ Hj) in M.
Qed.
Lemma one_per_path_sub {A} (path : A → list Z) (t t' : gmap Z A) :
  one_per_path path t → t' ⊆ t → one_per_path path t'.
Proof. intros O S i j x y Hi Hj. by apply O; eapply lookup_weaken. Qed.

(** Closing keeps part of the handles. *)
Lemma close_children_sub saves ids m n :
  projects (close_children saves ids m n).2 ⊆ projects m ∧
  dump_sessions (close_children saves ids m n).2 = dump_sessions m.
Proof.
  revert m n. induction ids as [|id ids IH]; intros m n; simpl; [done|].
  destruct (projects m !! id) as [h|]; [|apply IH].
  destruct (saves id); simpl; [|split; [apply delete_subseteq|done]].
  destruct (IH (set_projects (delete id) m) (S n)) as [S E]. split; [|done].
  etrans; [exact S|]. apply delete_subseteq.
Qed.
Lemma close_sub saves id m :
  projects (close saves id m).2 ⊆ projects m ∧ dump_sessions (close saves id m).2 ⊆ dump_sessions m.
Proof.
  unfold close. destruct (projects m !! id) as [h|].
  { destruct (saves id); (split; [apply delete_subseteq|done]). }
  destruct (dump_sessions m !! id) as [s|]; [|done].
  destruct (close_children_sub saves (map snd (module_projects s)) (set_sessions (delete id) m) 0) as [S E].
  destruct (close_children _ _ _ _) as [[n|e] m'] eqn:C; simpl in *; rewrite E;
    (split; [done|apply delete_subseteq]).
Qed.

Lemma open_check_keeps path now m :
  projects (open_check windows canonicalize path now m).2 = projects m ∧
  dump_sessions (open_check windows canonicalize path now m).2 = dump_sessions m.
Proof. unfold open_check. by destruct (find_first _ _). Qed.

(** The target [id] is open for [path]. *)
Definition target (path : list Z) (id : Z) m : Prop :=
  if is_dump_file (normalized path) then
    ∃ s, dump_sessions m !! id = Some s ∧ matches (ds_path s) (normalized (normalized path)) = true
  else ∃ h, projects m !! id = Some h ∧ matches (ph_path h) (normalized path) = true.

(** What an open does to the handles. *)
Lemma open_cases stem path env m :
  registered m → fresh (Open stem path env) m →
  registered (open stem path env m).2 ∧
  match (open stem path env m).1 with
  | Ok id => target path id (open stem path env m).2
  | Err _ => projects (open stem path env m).2 = projects m ∧
             dump_sessions (open stem path env m).2 = dump_sessions m
  end.
Proof.
  intros R [F1 F2]. pose proof R as [Ri Rs Rp Rd]. unfold Targets.open, target.
  destruct (is_dump_file _).
  - unfold open_dump. set (p := normalized (normalized path)).
    pose proof (find_handle (λ h, matches (ds_path h) p) (dump_sessions m)) as Find.
    destruct (find_first _ _) as [s|].
    { destruct Find as (i & Hi & M). split; [by constructor|]. simpl.
      rewrite (Rs _ _ Hi). by exists s. }
    destruct (load_dump p) as [dump|e]; [|done].
    assert (∃ ws m1, (match create_workspace stem env m with
      | (Ok ws, m) => (Some ws, push_member ws (mkMember (session_key dump) p) (ev_now env) m)
      | (Err _, m) => (None, m) end) = (ws, m1) ∧
      projects m1 = projects m ∧ dump_sessions m1 = dump_sessions m) as (ws & m1 & -> & E1 & E2).
    { unfold create_workspace. destruct (ev_ws_save env); do 2 eexists; by split. }
    simpl. split.
    + constructor; simpl; rewrite ?E1, ?E2; [done| |done|].
      * intros i s. rewrite lookup_insert_Some. intros [[<- <-]|[_ Hs]]; [done|by apply Rs].
      * by apply one_per_path_insert.
    + eexists. rewrite lookup_insert_eq. split; [done|]. simpl. rewrite paths_match_key.
      by apply bool_decide_eq_true.
  - unfold open_pe, open_check. set (p := normalized path).
    pose proof (find_handle (λ h, matches (ph_path h) p) (projects m)) as Find.
    destruct (find_first _ _) as [h|].
    { destruct Find as (i & Hi & M). split; [by constructor|]. simpl.
      rewrite (Ri _ _ Hi). by exists h. }
    destruct (load_pe p) as [sha|e]; [|done]. simpl. split.
    + constructor; simpl; [|done| |done].
      * intros i h. rewrite lookup_insert_Some. intros [[<- <-]|[_ Hh]]; [done|by apply Ri].
      * by apply one_per_path_insert.
    + eexists. rewrite lookup_insert_eq. split; [done|]. simpl. rewrite paths_match_key.
      by apply bool_decide_eq_true.
Qed.

Lemma serve_registered r m : registered m → fresh r m → registered (serve r m).
Proof.
  intros R F. destruct r as [stem path env|saves id]; [by apply open_cases|].
  destruct (close_sub saves id m) as [S1 S2]. destruct R as [Ri Rs Rp Rd]. constructor; simpl.
  - intros i h Hh. by eapply Ri, lookup_weaken.
  - intros i s Hs. by eapply Rs, lookup_weaken.
  - by eapply one_per_path_sub.
  - by eapply one_per_path_sub.
Qed.
Lemma run_registered rs m : registered m → all_fresh rs m → registered (foldl (λ m r, serve r m) m rs).
Proof.
  revert m. induction rs as [|r rs IH]; intros m R F; [done|]. destruct F as [F Fs].
  simpl. apply IH; [by apply serve_registered|done].
Qed.

(** Opening an open target again finds it. *)
Lemma open_again stem path env m id :
  registered m → target path id m → (open stem path env m).1 = Ok id.
Proof.
  intros [Ri Rs Rp Rd] T. unfold target in T. unfold Targets.open.
  destruct (is_dump_file _); [unfold open_dump|unfold open_pe, open_check].
  - destruct T as (s & Hs & M). set (p := normalized (normalized path)) in *.
    pose proof (find_handle (λ h, matches (ds_path h) p) (dump_sessions m)) as Find.
    destruct (find_first _ _) as [s'|]; [|by rewrite (Find _ _ Hs) in M].
    destruct Find as (i & Hi & M'). simpl. rewrite (Rs _ _ Hi). f_equal.
    eapply (Rd i id s' s); [done..|]. rewrite paths_match_key in *.
    rewrite bool_decide_eq_true in *. congruence.
  - destruct T as (h & Hh & M). set (p := normalized path) in *.
    pose proof (find_handle (λ h, matches (ph_path h) p) (projects m)) as Find.
    destruct (find_first _ _) as [h'|]; [|by rewrite (Find _ _ Hh) in M].
    destruct Find as (i & Hi & M'). simpl. rewrite (Ri _ _ Hi). f_equal.
    eapply (Rp i id h' h); [done..|]. rewrite paths_match_key in *.
    rewrite bool_decide_eq_true in *. congruence.
Qed.

Lemma empty_registered : registered empty_manager.
Proof. constructor; unfold one_per_path; simpl; intros; by simplify_map_eq. Qed.

(** C38: over opens and closes one after another, no two open projects, and no two
    open dumps, are for one path. An open that succeeds returns the id of a
    target for its path, which opening the path again returns too; one that fails
    changes no target. *)
Theorem targets_one_per_path rs stem path env :
  all_fresh rs empty_manager →
  let m := foldl (λ m r, serve r m) empty_manager rs in
  fresh (Open stem path env) m →
  one_per_path ph_path (projects m) ∧ one_per_path ds_path (dump_sessions m) ∧
  let '(r, m') := open stem path env m in
  match r with
  | Ok id => target path id m' ∧ ∀ env', (open stem path env' m').1 = Ok id
  | Err _ => projects m' = projects m ∧ dump_sessions m' = dump_sessions m
  end.
Proof.
  intros A m F. pose proof (run_registered rs _ empty_registered A) as R. fold m in R.
  split; [apply R|]. split; [apply R|]. destruct (open_cases stem path env m R F) as [R' C].
  destruct (open stem path env m) as [[id|e] m'] eqn:E; simpl in *; [|done].
  split; [done|]. intros env'. by apply open_again.
Qed.

(** Two opens of one path that interleave, both looking before either has
    inserted, install two projects for it, whose writers then share the files. *)
Theorem racing_opens_duplicate path sha e1 e2 :
  ev_id e1 ≠ ev_id e2 → load_pe (normalized path) = Ok sha →
  let '(found1, m) := open_check windows canonicalize path (ev_now e1) empty_manager in
  let '(found2, m) := open_check windows canonicalize path (ev_now e2) m in
  let '(id1, m) := install windows canonicalize (normalized path) sha "pe" e1 m in
  let '(id2, m) := install windows canonicalize (normalized path) sha "pe" e2 m in
  found1 = None ∧ found2 = None ∧ id1 ≠ id2 ∧
  ∃ h1 h2, projects m !! id1 = Some h1 ∧ projects m !! id2 = Some h2 ∧
    matches (ph_path h1) (ph_path h2) = true ∧ ph_sha256 h1 = ph_sha256 h2.
Proof.
  intros Ne L.
  assert (∀ now, open_check windows canonicalize path now empty_manager = (None, empty_manager))
    as E by done.
  rewrite !E. simpl. split_and!; [done..|]. do 2 eexists.
  split_and!; [by rewrite lookup_insert_ne, lookup_insert_eq|by rewrite lookup_insert_eq| |done].
  rewrite paths_match_key. by apply bool_decide_eq_true.
Qed.
End registry.

(** ** Naming a module *)

Lemma sort_by_key_head {A} (key : A → Z) l x l' :
  sort_by_key key l = x :: l' → x ∈ l ∧ ∀ y, y ∈ l → (key x ≤ key y)%Z.
Proof.
  intros E. pose proof (sort_by_key_perm key l) as P. pose proof (sort_by_key_sorted key l) as S.
  rewrite E in P, S. apply StronglySorted_inv in S as [_ F]. rewrite Forall_forall in F. split.
  - rewrite <-P. by left.
  - intros y Hy. rewrite <-P in Hy. apply elem_of_cons in Hy as [->|Hy]; [done|]. by apply F.
Qed.

Definition named (spec : string) (m : DumpModule) : Prop := lowercase (dm_name m) = lowercase spec.
Definition mentions (spec : string) (m : DumpModule) : Prop :=
  contains (lowercase spec) (lowercase (dm_name m)) = true ∨
  contains (lowercase spec) (lowercase (dm_path m)) = true.
(** The base address a specification gives, in hexadecimal or decimal. *)
Definition spec_base (spec : string) : option Z :=
  match (match strip_prefix "0x" spec with Some h => Some h | None => strip_prefix "0X" spec end)
          ≫= from_str_radix 16 with
  | Some base => Some base
  | None => from_str_radix 10 spec
  end.

Lemma by_base_cases modules base :
  match by_base modules base with
  | Ok m => m ∈ modules ∧ dm_base m = base
  | Err _ => ∀ m, m ∈ modules → dm_base m ≠ base
  end.
Proof.
  unfold by_base. destruct (find_first _ _) as [m|] eqn:E.
  - apply find_first_Some in E as [? ?%Z.eqb_eq]. done.
  - rewrite find_first_None in E. intros m Hm. by apply Z.eqb_neq, E.
Qed.
Lemma by_name_cases modules spec :
  match by_name modules spec with
  | Ok m => m ∈ modules ∧
      (named spec m ∨ (∀ m', m' ∈ modules → ¬ named spec m') ∧ mentions spec m ∧
       ∀ m', m' ∈ modules → mentions spec m' → (hit_rank m ≤ hit_rank m')%Z)
  | Err _ => ∀ m, m ∈ modules → ¬ named spec m ∧ ¬ mentions spec m
  end.
Proof.
  unfold by_name. destruct (find_first _ _) as [m|] eqn:E.
  { apply find_first_Some in E as [? ?%bool_decide_eq_true]. by auto. }
  rewrite find_first_None in E.
  assert (∀ m, m ∈ modules → ¬ named spec m) as N.
  { intros m Hm. specialize (E m Hm). by apply bool_decide_eq_false in E. }
  destruct (sort_by_key _ _) as [|m hits] eqn:S.
  - intros m Hm. split; [auto|]. intros M. pose proof (sort_by_key_perm hit_rank
      (filter (λ m, contains (lowercase spec) (lowercase (dm_name m)) = true ∨
                    contains (lowercase spec) (lowercase (dm_path m)) = true) modules)) as P.
    rewrite S in P. assert (m ∈ @nil DumpModule) as ?%not_elem_of_nil; [|done].
    rewrite P. by apply list_elem_of_filter.
  - apply sort_by_key_head in S as [[M Hm]%list_elem_of_filter Min]. split; [done|]. right.
    split_and!; [done..|]. intros m' Hm' M'. apply Min, list_elem_of_filter. by split.
Qed.

(** A module specification finds a module of the dump, and fails only when
    none fits: empty, the module of the exception, else the main one, else the
    first; a number, the module at that base; otherwise a module of that name,
    and only without one the best-ranked whose name or path contains it. *)
Theorem resolve_module_spec_correct modules spec :
  let s := trim spec in
  match resolve_module_spec modules spec with
  | Ok m =>
      m ∈ modules ∧
      ((s = ""%string ∧
        (is_exception_module m = true ∨
         (∀ m', m' ∈ modules → is_exception_module m' = false) ∧
         (is_main m = true ∨ (∀ m', m' ∈ modules → is_main m' = false) ∧ head modules = Some m))) ∨
       (s ≠ ""%string ∧ spec_base s = Some (dm_base m)) ∨
       (s ≠ ""%string ∧ spec_base s = None ∧
        (named s m ∨ (∀ m', m' ∈ modules → ¬ named s m') ∧ mentions s m ∧
         ∀ m', m' ∈ modules → mentions s m' → (hit_rank m ≤ hit_rank m')%Z)))
  | Err _ =>
      (s = ""%string ∧ modules = []) ∨
      (s ≠ ""%string ∧ ∃ base, spec_base s = Some base ∧ ∀ m, m ∈ modules → dm_base m ≠ base) ∨
      (s ≠ ""%string ∧ spec_base s = None ∧ ∀ m, m ∈ modules → ¬ named s m ∧ ¬ mentions s m)
  end.
Proof.
  intros s. unfold resolve_module_spec, spec_base. fold s. destruct (decide (s = ""%string)) as [Es|Ne].
  - unfold primary_module.
    destruct (find_first is_exception_module modules) as [m|] eqn:E1.
    { apply find_first_Some in E1 as [? ?]. split; [done|]. left. auto. }
    rewrite find_first_None in E1. destruct (find_first is_main modules) as [m|] eqn:E2.
    { apply find_first_Some in E2 as [? ?]. split; [done|]. left. auto. }
    rewrite find_first_None in E2. destruct modules as [|m modules]; simpl; [by left|].
    split; [by left|]. left. auto 10.
  - set (hexed := _ ≫= _). destruct hexed as [base|].
    { pose proof (by_base_cases modules base) as B. destruct (by_base modules base) as [m|e].
      - destruct B as [? <-]. split; [done|]. right. left. done.
      - right. left. split; [done|]. by exists base. }
    destruct (from_str_radix 10 s) as [base|].
    { pose proof (by_base_cases modules base) as B. destruct (by_base modules base) as [m|e].
      - destruct B as [? <-]. split; [done|]. right. left. done.
      - right. left. split; [done|]. by exists base. }
    pose proof (by_name_cases modules s) as B. destruct (by_name modules s) as [m|e].
    + destruct B. split; [done|]. right. right. done.
    + right. right. done.
Qed.

(** ** Closing a dump *)

Lemma close_children_cases saves ids m n :
  match close_children saves ids m n with
  | (Ok k, m') =>
      (∀ j, projects m' !! j = if decide (j ∈ ids) then None else projects m !! j) ∧
      k + size (projects m') = n + size (projects m)
  | (Err _, m') =>
      ∃ before id after, ids = before ++ id :: after ∧ saves id = false ∧ is_Some (projects m !! id) ∧
        ∀ j, projects m' !! j = if decide (j ∈ before ++ [id]) then None else projects m !! j
  end.
Proof.
  revert m n. induction ids as [|id ids IH]; intros m n; simpl.
  { by split. }
  destruct (projects m !! id) as [h|] eqn:E.
  - assert (∀ j l, (if decide (j ∈ l) then None else delete id (projects m) !! j) =
      if decide (j ∈ id :: l) then None else projects m !! j) as D.
    { intros j l. destruct (decide (j = id)) as [->|Ne].
      - rewrite lookup_delete_eq. do 2 case_decide; done || set_solver.
      - rewrite lookup_delete_ne by done. do 2 case_decide; set_solver. }
    destruct (saves id) eqn:Es; simpl.
    + specialize (IH (set_projects (delete id) m) (S n)). simpl in IH.
      pose proof (map_size_delete_Some id (projects m) (ex_intro _ h E)) as Sz.
      assert (size (projects m) ≠ 0) as Np.
      { intros Z0. apply map_size_empty_inv in Z0. rewrite Z0, lookup_empty in E. done. }
      destruct (close_children _ _ _ _) as [[k|e] m'].
      * destruct IH as [L K]. split; [|lia]. intros j. by rewrite L, D.
      * destruct IH as (b & i & a & -> & F & [h' Hi] & L). exists (id :: b), i, a. split_and!; [done..| |].
        -- apply lookup_delete_Some in Hi as [_ Hi]. by exists h'.
        -- intros j. rewrite L. apply D.
    + exists [], id, ids. split_and!; [done..|by exists h|].
      intros j. change ([] ++ [id]) with [id]. by rewrite <-D.
  - specialize (IH m n).
    assert (∀ j l, (if decide (j ∈ l) then None else projects m !! j) =
      if decide (j ∈ id :: l) then None else projects m !! j) as D.
    { intros j l. destruct (decide (j = id)) as [->|Ne]; [rewrite E; by do 2 case_decide|].
      do 2 case_decide; set_solver. }
    destruct (close_children _ _ _ _) as [[k|e] m'].
    + destruct IH as [L K]. split; [|done]. intros j. by rewrite L, D.
    + destruct IH as (b & i & a & -> & F & Hi & L). exists (id :: b), i, a. split_and!; [done..|].
      intros j. rewrite L. apply D.
Qed.

(** Closing a dump removes its session whatever happens. When every child
    project saves, exactly the open children are closed and counted; when one
    fails, it is closed unsaved, and the children after it stay open with no
    session left that leads to them. *)
Theorem close_dump_children saves id m s :
  projects m !! id = None → dump_sessions m !! id = Some s →
  let children := (module_projects s).*2 in
  let '(r, m') := close saves id m in
  dump_sessions m' = delete id (dump_sessions m) ∧
  match r with
  | Ok c =>
      child_projects c + size (projects m') = size (projects m) ∧
      ∀ j, projects m' !! j = if decide (j ∈ children) then None else projects m !! j
  | Err _ =>
      ∃ before j after, children = before ++ j :: after ∧ saves j = false ∧ is_Some (projects m !! j) ∧
        ∀ i, projects m' !! i = if decide (i ∈ before ++ [j]) then None else projects m !! i
  end.
Proof.
  intros Ep Es children. unfold close. rewrite Ep, Es.
  pose proof (close_children_cases saves children (set_sessions (delete id) m) 0) as C.
  pose proof (proj2 (close_children_sub saves children (set_sessions (delete id) m) 0)) as D.
  change (map snd (module_projects s)) with children.
  destruct (close_children _ _ _ _) as [[k|e] m']; simpl in *; (split; [done|]); [|done].
  destruct C as [L K]. done.
Qed.

(** ** A module under the name of another *)

Section same_name.
(** Two modules of one name in the sample dump: the second is mapped again
    behind the first. *)
Definition twin_module : DumpModule :=
  mkModule 0x20000 0xc0 "a.dll" "b/a.dll" 1 0 1000 true false false.
Definition twin_dump : LoadedDump :=
  mkDump "session" [sample_module; twin_module] sample_memory
    (mkMap [mkRegion 0x10000 0xc0 0; mkRegion 0x20000 0xc0 0] 0x180 Memory64List).
Definition twin_manager : Manager :=
  mkManager ∅ {[ 1%Z := mkSession 1 [100%Z] twin_dump None [] ]} ∅ [].
Definition path_of_name (session name : string) : list Z :=
  map (λ c, Z.of_nat (nat_of_ascii c)) (list_ascii_of_string name).
Definition twin_open : string → Env → Manager → option (Result Z * Manager) :=
  open_dump_module false Some (λ p, Ok "sha") path_of_name 1.

(** With one module of a dump open, asking for another module of the same
    name by its base returns the project of the first: the cache key holds the
    time stamp and size, but the name alone is accepted too. *)
Theorem same_name_module_confused :
  resolve_module_spec (modules twin_dump) "0x20000" = Ok twin_module ∧
  ∃ m1, twin_open "0x10000" (mkEnv 7 0 10 true) twin_manager = Some (Ok 7%Z, m1) ∧
    ∃ m2, twin_open "0x20000" (mkEnv 8 0 20 true) m1 = Some (Ok 7%Z, m2).
Proof.
  split; [by vm_compute|]. eexists. split; [vm_compute; reflexivity|].
  eexists. vm_compute. reflexivity.
Qed.
End same_name.

(** ** Concrete instances *)

Section samples.
Definition env_of (id : Z) : Env := mkEnv id 0 10 true.
Definition open_two : list Request :=
  [Open None [47; 97]%Z (env_of 1); Open None [47; 98]%Z (env_of 2); Close (λ _, true) 1].
Definition no_dump (p : list Z) : Result LoadedDump := Err "not a dump".
Definition closing_manager : Manager :=
  mkManager {[ 7%Z := mkHandle 7 [1%Z] "a" "dump_module"; 8%Z := mkHandle 8 [2%Z] "b" "dump_module" ]}
    {[ 1%Z := mkSession 1 [100%Z] twin_dump None [("a", 7%Z); ("b", 8%Z)] ]} ∅ [].
End samples.

Lemma targets_one_per_path_witness :
  ∃ m, (open false Some (λ _, false) (λ _, Ok "sha"%string) no_dump None [47; 97]%Z (env_of 3) m).1 = Ok 3%Z.
Proof.
  set (m := foldl (λ m r, serve false Some (λ _, false) (λ _, Ok "sha"%string) no_dump r m)
              empty_manager open_two).
  pose proof (targets_one_per_path false Some (λ _, false) (λ _, Ok "sha"%string) no_dump open_two None
    [47; 97]%Z (env_of 3)) as T.
  exists m. destruct T as (_ & _ & T).
  - by vm_compute.
  - by vm_compute.
  - fold m in T. destruct (open _ _ _ _ _ _ _ (env_of 3) m) as [r m'] eqn:E.
    assert (r = Ok 3%Z) as -> by (change r with (r, m').1; rewrite <-E; by vm_compute). done.
Defined.

Lemma racing_opens_duplicate_witness :
  ∃ m h1 h2, projects m !! 1%Z = Some h1 ∧ projects m !! 2%Z = Some h2 ∧ ph_sha256 h1 = ph_sha256 h2.
Proof.
  pose proof (racing_opens_duplicate false Some (λ _, Ok "sha"%string) [47; 97]%Z "sha"
    (env_of 1) (env_of 2) ltac:(done) eq_refl) as T.
  destruct (open_check _ _ _ _ empty_manager) as [f1 m1]. destruct (open_check _ _ _ _ m1) as [f2 m2].
  destruct T as (_ & _ & _ & h1 & h2 & E1 & E2 & _ & E).
  eexists _, h1, h2. split; [exact E1|]. split; [exact E2|exact E].
Defined.

Lemma close_dump_children_witness :
  ∃ before after, [7; 8]%Z = before ++ 7%Z :: after ∧
    projects (close (λ j, negb (j =? 7)%Z) 1 closing_manager).2 !! 8%Z ≠ None.
Proof.
  pose proof (close_dump_children (λ j, negb (j =? 7)%Z) 1 closing_manager _ eq_refl eq_refl) as T.
  destruct (close _ 1 closing_manager) as [r m'] eqn:E.
  assert (∃ e, r = Err e) as [e ->].
  { eexists. change r with (r, m').1. rewrite <-E. vm_compute. reflexivity. }
  destruct T as [_ (before & j & after & Ec & Es & _ & L)]. exists before, after.
  apply negb_false_iff, Z.eqb_eq in Es. subst j. split; [done|]. simpl. rewrite L.
  destruct before as [|b before]; [|exfalso].
  - rewrite decide_False by set_solver. done.
  - destruct before as [|c [|d before]]; simplify_eq/=.
Defined.
