(* ===== verification/CodeIndex.v ===== *)
(** The linear sweep over the executable sections and its index,
    [src/analysis/code_index.rs].

    The instruction decoder is a library: [Decoder] is the interface the sweep
    uses and [DecoderLaws] what its documentation says of it. An instruction is
    what the analyses ask about one. [None] is a panic or missing fuel;
    CodeIndexFacts shows neither happens. *)

From Stdlib Require Import Strings.Byte.
From S2P Require Import Prelude Journal Loader.
Import AddressSpace.

(** ** Instructions *)

Module FlowControl.
Inductive FlowControl :=
  | Next | UnconditionalBranch | IndirectBranch | ConditionalBranch | Return | Call
  | IndirectCall | Interrupt | XbeginXabortXend | Exception.
#[global] Instance FlowControl_eq_dec : EqDecision FlowControl.
Proof. solve_decision. Defined.
End FlowControl.

(** The operand kinds the analyses tell apart. *)
Inductive OpKind :=
  | Immediate8 | Immediate8to16 | Immediate8to32 | Immediate8to64 | Immediate16 | Immediate32
  | Immediate32to64 | Immediate64 | MemoryOperand | OtherOperand.
#[global] Instance OpKind_eq_dec : EqDecision OpKind.
Proof. solve_decision. Defined.

(** What the decoder answers about an instruction; an operand has a kind and
    [immediate(i)]. *)
Record Instruction := mkInstruction {
  ins_ip : Z;
  ins_len : nat;
  is_invalid : bool;
  flow_control : FlowControl.FlowControl;
  near_branch_target : Z;
  operands : list (OpKind * Z)
}.
#[global] Instance Instruction_eq_dec : EqDecision Instruction.
Proof. solve_decision. Defined.

Record DecodedInstr := mkDecoded {
  ip : Z;
  len : nat;
  di_bytes : bytes;
  instr : Instruction
}.
#[global] Instance DecodedInstr_eq_dec : EqDecision DecodedInstr.
Proof. solve_decision. Defined.

Definition bytes_slice (d : DecodedInstr) : bytes := take (len d) (di_bytes d).
Definition next_ip (d : DecodedInstr) : Z := ip d +sat Z.of_nat (len d).

(** ** The decoder *)

(** [Decoder::with_ip], [can_decode], [decode]; position, address and data are
    the state its documentation speaks of. *)
Class Decoder (D : Type) := {
  with_ip : Z → bytes → Z → D;
  can_decode : D → bool;
  decode : D → Instruction * D;
  dec_position : D → nat;
  dec_ip : D → Z;
  dec_data : D → bytes
}.

Class DecoderLaws (D : Type) `{!Decoder D} := {
  with_ip_position b bs a : dec_position (with_ip b bs a) = 0;
  with_ip_ip b bs a : dec_ip (with_ip b bs a) = a;
  with_ip_data b bs a : dec_data (with_ip b bs a) = bs;
  can_decode_iff d : can_decode d = true ↔ dec_position d < length (dec_data d);
  decode_data d : dec_data (decode d).2 = dec_data d;
  decode_ip d : ins_ip (decode d).1 = dec_ip d;
  decode_advance d : dec_position (decode d).2 = dec_position d + ins_len (decode d).1;
  decode_advance_ip d : dec_ip (decode d).2 = dec_ip d +wrap Z.of_nat (ins_len (decode d).1);
  decode_len d : can_decode d = true →
    1 ≤ ins_len (decode d).1 ≤ 15 ∧
    dec_position d + ins_len (decode d).1 ≤ length (dec_data d)
}.

(** ** The sweep *)

Section sweep.
Context {D : Type} `{!Decoder D}.

(** The loop of [decode_section]. *)
Fixpoint decode_loop (fuel : nat) (section_bytes : bytes) (base_ip : Z) (decoder : D)
    : option (list DecodedInstr) :=
  match fuel with
  | 0 => None
  | S fuel =>
      if can_decode decoder then
        let '(i, decoder) := decode decoder in
        let offset := Z.to_nat (ins_ip i -sat base_ip) in
        if is_invalid i && (ins_len i =? 0) then Some []
        else if ins_len i =? 0 then Some []
        else if decide (length section_bytes < offset) then None
        else
          let rest := drop offset section_bytes in
          let available := Nat.min (Nat.min (length rest) 16) (ins_len i) in
          let d := mkDecoded (ins_ip i) (ins_len i)
                     (take available rest ++ replicate (16 - available) x00) i in
          cons d <$> decode_loop fuel section_bytes base_ip decoder
      else Some []
  end.

(** The bytes of a section in the file. *)
Definition section_bytes (image : bytes) (s : Section_) : option bytes :=
  let raw_start := raw_addr s in
  let raw_end := Z.min (raw_start +sat raw_size s) (Z.of_nat (length image)) in
  if (Z.of_nat (length image) <=? raw_start)%Z || (raw_end <=? raw_start)%Z then None
  else Some (take (Z.to_nat (raw_end - raw_start)) (drop (Z.to_nat raw_start) image)).

Definition decode_section (image : bytes) (image_base bitness : Z) (s : Section_)
    : option (list DecodedInstr) :=
  match section_bytes image s with
  | None => Some []
  | Some bs =>
      let base_ip := image_base +sat vaddr s in
      decode_loop (S (length bs)) bs base_ip (with_ip bitness bs base_ip)
  end.

(** [CodeIndex::build]. Sections at one address come in the order of the file. *)
Definition build (image : bytes) (a : AddressSpace) (bitness : Z) : option (list DecodedInstr) :=
  fold_opt (λ instrs s, app instrs <$> decode_section image (image_base a) bitness s) []
    (sort_by_key vaddr (exec_sections a)).
End sweep.

(** ** The index *)

(** [slice::binary_search_by_key]: [inl] is [Ok], [inr] is [Err]. [size] bounds
    the halvings. *)
Fixpoint search_base {A} (key : A → Z) (l : list A) (k : Z) (fuel base size : nat) : nat :=
  match fuel with
  | 0 => base
  | S fuel =>
      if decide (size ≤ 1) then base
      else
        let half := size / 2 in
        let base :=
          match l !! (base + half) with
          | Some x => if (k <? key x)%Z then base else base + half
          | None => base
          end in
        search_base key l k fuel base (size - half)
  end.

Definition binary_search_by_key {A} (key : A → Z) (l : list A) (k : Z) : nat + nat :=
  let base := search_base key l k (length l) 0 (length l) in
  match l !! base with
  | None => inr 0
  | Some x =>
      if (key x =? k)%Z then inl base
      else inr (if (key x <? k)%Z then S base else base)
  end.

Notation CodeIndex := (list DecodedInstr).

Definition idx_for_va (ci : CodeIndex) (va : Z) : option nat :=
  match binary_search_by_key ip ci va with inl i => Some i | inr _ => None end.
Definition at_va (ci : CodeIndex) (va : Z) : option DecodedInstr :=
  i ← idx_for_va ci va; ci !! i.

Definition window (ci : CodeIndex) (va : Z) (count : nat) : list DecodedInstr :=
  let idx := match binary_search_by_key ip ci va with
             | inl i => i
             | inr 0 => 0
             | inr (S i) => i
             end in
  let end_ := Nat.min (idx + count) (length ci) in
  take (end_ - idx) (drop idx ci).

Definition instruction_before (ci : CodeIndex) (va : Z) : option DecodedInstr :=
  match idx_for_va ci va with
  | Some (S i) => ci !! i
  | _ => None
  end.
