(* ===== verification/CodeIndexFacts.v ===== *)
(** The sweep of CodeIndex covers every executable section without gaps, and
    its index answers lookups: the binary search, the tiling of one section and
    of the image, and theorem [code_index_correct], for any decoder that does
    what its documentation says. *)

From Stdlib Require Import Strings.Byte.
From S2P Require Import Prelude Journal Loader CodeIndex.
Import AddressSpace.

(** ** The binary search *)

Lemma strict_lookup {A} (key : A → Z) (l : list A) i j x y :
  StronglySorted (key_lt key) l → l !! i = Some x → l !! j = Some y → i < j → (key x < key y)%Z.
Proof.
  intros S. revert i j. induction S as [|z l Hl IH Hz]; intros i j Hi Hj L; [done|].
  destruct j as [|j]; [lia|]. destruct i as [|i]; simpl in *; [|apply (IH i j); auto with lia].
  simplify_eq. rewrite Forall_forall in Hz. apply Hz. by eapply list_elem_of_lookup_2.
Qed.

Section search.
Context {A : Type} (key : A → Z) (l : list A) (k : Z) (S : StronglySorted (key_lt key) l).

(** The element sought is in [base, base + size). *)
Definition narrowed (base size : nat) : Prop :=
  base + size ≤ length l ∧
  (base = 0 ∨ ∃ x, l !! base = Some x ∧ (key x ≤ k)%Z) ∧
  ∀ j x, base + size ≤ j → l !! j = Some x → (k < key x)%Z.

Lemma search_base_narrows fuel base size :
  1 ≤ size → size ≤ Datatypes.S fuel → narrowed base size →
  narrowed (search_base key l k fuel base size) 1.
Proof.
  revert base size. induction fuel as [|fuel IH]; intros base size L1 L2 N; cbn [search_base].
  { by replace size with 1 in N by lia. }
  case_decide as D; [by replace size with 1 in N by lia|].
  assert (1 ≤ size / 2 < size) as [H1 H2].
  { split; [apply (Nat.div_le_lower_bound size 2 1); lia|apply Nat.div_lt; lia]. }
  pose proof (Nat.Div0.mul_div_le size 2). destruct N as (N1 & N2 & N3).
  destruct (lookup_lt_is_Some_2 l (base + size / 2)) as [x Hx]; [lia|]. rewrite Hx.
  apply IH; [lia..|]. destruct (Z.ltb_spec k (key x)) as [C|C].
  - split_and!; [lia|done|]. intros j y Hj Hy.
    destruct (decide (j = base + size / 2)) as [->|]; [congruence|].
    assert (key x < key y)%Z by (apply (strict_lookup key l (base + size / 2) j); auto; lia). lia.
  - split_and!; [lia|right; eauto|]. intros j y Hj. apply N3. lia.
Qed.

(** An index found is the element's; otherwise it is the number of smaller
    elements. *)
Lemma binary_search_spec :
  match binary_search_by_key key l k with
  | inl i => ∃ x, l !! i = Some x ∧ key x = k
  | inr i => i ≤ length l ∧ ∀ j x, l !! j = Some x → (j < i ↔ (key x < k)%Z) ∧ key x ≠ k
  end.
Proof.
  unfold binary_search_by_key. set (r := search_base _ _ _ _ _ _).
  destruct (decide (length l = 0)) as [E|E].
  { rewrite (nil_length_inv l) by done. simpl. split; [lia|]. by intros j x H; rewrite lookup_nil in H. }
  assert (narrowed r 1) as (N1 & N2 & N3).
  { apply search_base_narrows; [lia..|]. split_and!; [lia|by left|].
    intros j x ? ?%lookup_lt_Some. lia. }
  destruct (lookup_lt_is_Some_2 l r) as [x Hx]; [lia|]. rewrite Hx.
  destruct (Z.eqb_spec (key x) k) as [|Ne]; [eauto|].
  assert (∀ j y, l !! j = Some y → r < j → (k < key y)%Z) as Hi by (intros; apply (N3 j); auto; lia).
  assert (∀ j y, l !! j = Some y → j < r → (key y < key x)%Z) as Lo
    by (intros; by apply (strict_lookup key l j r)).
  assert (r = 0 ∨ (key x < k)%Z) as Hr.
  { destruct N2 as [|(y & Hy & Ly)]; [by left|]. simplify_eq. right; lia. }
  destruct (Z.ltb_spec (key x) k) as [C|C].
  - split; [lia|]. intros j y Hy. destruct (Nat.lt_trichotomy j r) as [O|[->|O]].
    + pose proof (Lo j y Hy O). split; lia.
    + simplify_eq. split; lia.
    + pose proof (Hi j y Hy O). split; lia.
  - destruct Hr as [Hr|]; [|lia]. split; [lia|]. intros j y Hy.
    destruct (Nat.lt_trichotomy j r) as [O|[->|O]]; [lia|simplify_eq; split; lia|].
    pose proof (Hi j y Hy O). split; lia.
Qed.
End search.

(** Sound on any vector. *)
Lemma binary_search_sound {A} (key : A → Z) l k i :
  binary_search_by_key key l k = inl i → ∃ x, l !! i = Some x ∧ key x = k.
Proof.
  unfold binary_search_by_key. cbv zeta. set (b := search_base _ _ _ _ _ _).
  destruct (l !! b) as [x|] eqn:E; [|done].
  destruct (Z.eqb_spec (key x) k); [|done]. intros [= <-]. eauto.
Qed.
Lemma at_va_Some (ci : CodeIndex) va d : at_va ci va = Some d → d ∈ ci ∧ ip d = va.
Proof.
  unfold at_va, idx_for_va. destruct (binary_search_by_key ip ci va) as [i|] eqn:E; [|done].
  apply binary_search_sound in E as (x & Hx & E). simpl. rewrite Hx. intros [= <-].
  split; [by eapply list_elem_of_lookup_2|done].
Qed.

Lemma idx_for_va_strict ci i d :
  StronglySorted (key_lt ip) ci → ci !! i = Some d → idx_for_va ci (ip d) = Some i.
Proof.
  intros S Hd. unfold idx_for_va. pose proof (binary_search_spec ip ci (ip d) S) as B.
  destruct (binary_search_by_key ip ci (ip d)) as [j|j].
  - destruct B as (x & Hx & E). destruct (Nat.lt_trichotomy i j) as [O|[->|O]]; [|done|].
    + pose proof (strict_lookup ip ci i j d x S Hd Hx O). lia.
    + pose proof (strict_lookup ip ci j i x d S Hx Hd O). lia.
  - destruct B as [_ B]. by destruct (B i d Hd) as [_ []].
Qed.
Lemma at_va_strict ci d : StronglySorted (key_lt ip) ci → d ∈ ci → at_va ci (ip d) = Some d.
Proof.
  intros S [i Hi]%list_elem_of_lookup. unfold at_va. by rewrite (idx_for_va_strict _ i).
Qed.

(** ** One section *)

(** Instructions one after the other from [a]. *)
Fixpoint contiguous (a : Z) (ds : list DecodedInstr) : Prop :=
  match ds with
  | [] => True
  | d :: ds => ip d = a ∧ ins_ip (instr d) = a ∧ 1 ≤ len d ≤ 15 ∧
      contiguous (a + Z.of_nat (len d)) ds
  end.
Definition covers (ds : list DecodedInstr) (bs : bytes) : Prop := concat (bytes_slice <$> ds) = bs.

Lemma contiguous_bounds a ds d :
  contiguous a ds → d ∈ ds →
  (a ≤ ip d ∧ ip d + Z.of_nat (len d) ≤ a + Z.of_nat (sum_list (len <$> ds)))%Z ∧ 1 ≤ len d.
Proof.
  revert a. induction ds as [|x ds IH]; intros a; [by intros _ ?%not_elem_of_nil|].
  cbn [contiguous]. change (sum_list (len <$> x :: ds)) with (len x + sum_list (len <$> ds)).
  intros (E & _ & L & C) [->|H]%elem_of_cons; [lia|]. apply IH in C; [|done]. lia.
Qed.
Lemma contiguous_strict a ds : contiguous a ds → StronglySorted (key_lt ip) ds.
Proof.
  revert a. induction ds as [|x ds IH]; intros a; simpl; [constructor|].
  intros (E & _ & L & C). constructor; [by eapply IH|]. apply Forall_forall. intros d Hd.
  destruct (contiguous_bounds _ _ d C Hd). unfold key_lt. lia.
Qed.

Section sweep.
Context {D : Type} `{!Decoder D, !DecoderLaws D}.

Lemma decode_loop_tiles fuel bs base d :
  is_u64 base → (base + Z.of_nat (length bs) ≤ 2 ^ 64)%Z → dec_data d = bs →
  (dec_position d < length bs → dec_ip d = (base + Z.of_nat (dec_position d))%Z) →
  dec_position d ≤ length bs → length bs - dec_position d < fuel →
  ∃ ds, decode_loop fuel bs base d = Some ds ∧ contiguous (base + Z.of_nat (dec_position d)) ds ∧
    covers ds (drop (dec_position d) bs) ∧
    sum_list (len <$> ds) = length bs - dec_position d.
Proof.
  intros B Nb. revert d. induction fuel as [|fuel IH]; intros d Ed Hip Hp Hf; [lia|].
  cbn [decode_loop]. pose proof (can_decode_iff d) as Ci. rewrite Ed in Ci.
  destruct (can_decode d) eqn:C.
  2:{ exists []. assert (¬ dec_position d < length bs) by (by rewrite <-Ci).
      assert (dec_position d = length bs) as -> by lia.
      split_and!; [done..|unfold covers; by rewrite drop_all|simpl; lia]. }
  pose proof (decode_len d C) as [L1 L2]. rewrite Ed in L2.
  assert (dec_position d < length bs) as Lp by tauto. specialize (Hip Lp).
  pose proof (decode_ip d) as Ei. pose proof (decode_advance d) as Ea.
  pose proof (decode_advance_ip d) as Ew. pose proof (decode_data d) as Edd.
  destruct (decode d) as [i d']. simpl in *.
  replace (Z.to_nat (ins_ip i -sat base)) with (dec_position d)
    by (unfold sat_sub; lia).
  rewrite (proj2 (Nat.eqb_neq (ins_len i) 0)), andb_false_r by lia.
  rewrite decide_False by lia. rewrite length_drop.
  destruct (IH d') as (ds & Eds & Cds & Tds & Sds); [congruence| |lia..|].
  { intros Lp'. rewrite Ew, Hip, Ea, wrap_add_small; unfold is_u64, u64_max in *; lia. }
  rewrite Eds. eexists. split; [done|]. cbn [contiguous ip len instr].
  split_and!.
  - lia.
  - lia.
  - lia.
  - lia.
  - by replace (base + Z.of_nat (dec_position d) + Z.of_nat (ins_len i))%Z
      with (base + Z.of_nat (dec_position d'))%Z by lia.
  - unfold covers in *. rewrite fmap_cons. cbn [concat]. rewrite Tds. unfold bytes_slice. simpl.
    replace (Nat.min (Nat.min (length bs - dec_position d) 16) (ins_len i)) with (ins_len i) by lia.
    rewrite take_app_le by (rewrite length_take, length_drop; lia).
    rewrite take_take, Nat.min_id. rewrite <-(take_drop (ins_len i) (drop (dec_position d) bs)) at 2.
    f_equal. rewrite drop_drop. f_equal. lia.
  - rewrite fmap_cons. simpl. lia.
Qed.

(** ** The image *)

(** The executable sections neither wrap nor overlap in memory. *)
Record sweepable (a : AddressSpace) : Prop := {
  sw_base : is_u64 (image_base a);
  sw_sections s : s ∈ exec_sections a →
    is_u32 (vaddr s) ∧ is_u32 (raw_addr s) ∧ is_u32 (raw_size s) ∧
    (image_base a + vaddr s + raw_size s ≤ 2 ^ 64)%Z;
  sw_apart : StronglySorted (λ s s', vaddr s + raw_size s ≤ vaddr s')%Z
    (sort_by_key vaddr (exec_sections a))
}.

Lemma section_bytes_len image s bs :
  is_u32 (raw_addr s) → is_u32 (raw_size s) → section_bytes image s = Some bs →
  1 ≤ length bs ∧ (Z.of_nat (length bs) ≤ raw_size s)%Z.
Proof.
  unfold is_u32, section_bytes. intros P Q. destruct (orb _ _) eqn:E; [done|]. intros [= <-].
  apply orb_false_iff in E as [E1%Z.leb_gt E2%Z.leb_gt]. rewrite length_take, length_drop.
  unfold sat_add, u64_max, u32_max in *. lia.
Qed.

(** What the sweep of a section is. *)
Definition swept (image : bytes) (base : Z) (s : Section_) (ds : list DecodedInstr) : Prop :=
  contiguous (base + vaddr s) ds ∧ covers ds (default [] (section_bytes image s)) ∧
  (Z.of_nat (sum_list (len <$> ds)) ≤ raw_size s)%Z.

Lemma decode_section_swept image base bitness s :
  is_u64 base → is_u32 (vaddr s) → is_u32 (raw_addr s) → is_u32 (raw_size s) →
  (base + vaddr s + raw_size s ≤ 2 ^ 64)%Z →
  ∃ ds, decode_section image base bitness s = Some ds ∧ swept image base s ds.
Proof.
  intros B V Ra R O. unfold decode_section, swept.
  destruct (section_bytes image s) as [bs|] eqn:E.
  2:{ exists []. simpl. split; [done|]. split_and!; [done..|]. unfold is_u32 in *. lia. }
  destruct (section_bytes_len _ _ _ Ra R E) as [L1 L2].
  assert (base +sat vaddr s = base + vaddr s)%Z as Eb
    by (unfold sat_add, is_u64, is_u32, u64_max in *; lia).
  rewrite Eb.
  destruct (decode_loop_tiles (S (length bs)) bs (base + vaddr s) (with_ip bitness bs (base + vaddr s)))
    as (ds & Eds & C & T & Sm); rewrite ?with_ip_data, ?with_ip_position, ?with_ip_ip in *;
    [unfold is_u64, is_u32, u64_max in *; lia|unfold is_u32 in *; lia|done|intros; lia|lia|lia|].
  exists ds. split; [done|]. rewrite Z.add_0_r in C. simpl.
  split_and!; [done|exact T|]. lia.
Qed.

Lemma build_swept image base bitness ss acc :
  (∀ s, s ∈ ss → ∃ ds, decode_section image base bitness s = Some ds ∧ swept image base s ds) →
  ∃ dss, fold_opt (λ instrs s, app instrs <$> decode_section image base bitness s) acc ss =
      Some (acc ++ concat dss) ∧ Forall2 (swept image base) ss dss.
Proof.
  revert acc. induction ss as [|s ss IH]; intros acc H; cbn [fold_opt].
  { exists []. simpl. rewrite app_nil_r. split; [done|constructor]. }
  destruct (H s) as (ds & Eds & W); [by left|]. rewrite Eds. simpl.
  destruct (IH (acc ++ ds)) as (dss & E & F); [intros; apply H; by right|].
  exists (ds :: dss). rewrite E. simpl. rewrite <-app_assoc. split; [done|by constructor].
Qed.

Lemma swept_strict image base ss dss :
  StronglySorted (λ s s', vaddr s + raw_size s ≤ vaddr s')%Z ss →
  Forall2 (swept image base) ss dss → StronglySorted (key_lt ip) (concat dss).
Proof.
  intros S. revert dss. induction S as [|s ss Hss IH Hs]; intros dss F.
  { inversion_clear F. constructor. }
  apply Forall2_cons_inv_l in F as (ds & dss' & (C & _ & B) & F & ->). simpl.
  apply StronglySorted_app_2; [|by eapply contiguous_strict|by apply IH].
  intros d d' Hd Hd'. apply list_elem_of_In, in_concat in Hd' as (ds' & Hds' & Hd').
  apply list_elem_of_In in Hd'. apply list_elem_of_In, list_elem_of_lookup in Hds' as [i Hi].
  destruct (Forall2_lookup_r _ _ _ _ _ F Hi) as (s' & Hs' & C' & _ & _).
  rewrite Forall_forall in Hs. pose proof (Hs s' ltac:(by eapply list_elem_of_lookup_2)) as Hb.
  destruct (contiguous_bounds _ _ d C Hd). destruct (contiguous_bounds _ _ d' C' Hd').
  unfold key_lt. lia.
Qed.
End sweep.

(** What the analyses need of an index: addresses in order, lookups exact, no
    empty instruction. *)
Record wf_index (ci : CodeIndex) : Prop := {
  wi_strict : StronglySorted (key_lt ip) ci;
  wi_len d : d ∈ ci → 1 ≤ len d;
  wi_ip d : d ∈ ci → is_u64 (ip d)
}.

(** The window starts at the floor of the address, or at the first
    instruction. *)
Lemma window_floor (ci : CodeIndex) va n w ws :
  StronglySorted (key_lt ip) ci → window ci va (S n) = w :: ws →
  w ∈ ci ∧ (∀ d, d ∈ ci → (ip d ≤ va)%Z → (ip d ≤ ip w)%Z) ∧
  ((ip w ≤ va)%Z ∨ ∀ d, d ∈ ci → (va < ip d ∧ ip w ≤ ip d)%Z).
Proof.
  intros S E. unfold window in E. set (b := binary_search_by_key ip ci va) in *.
  set (i := match b with inl i => i | inr 0 => 0 | inr (Datatypes.S i) => i end) in *.
  assert (ci !! i = Some w) as Hi.
  { apply (f_equal (lookup 0)) in E. rewrite lookup_take_lt in E; [|].
    - by rewrite lookup_drop, Nat.add_0_r in E.
    - destruct (decide (length ci ≤ i)); [|lia]. by rewrite drop_ge, take_nil in E. }
  assert (∀ j d, ci !! j = Some d → j < i → (ip d < ip w)%Z) as Lo
    by (intros; by apply (strict_lookup ip ci j i)).
  assert (∀ j d, ci !! j = Some d → i < j → (ip w < ip d)%Z) as Hi'
    by (intros; by apply (strict_lookup ip ci i j)).
  pose proof (binary_search_spec ip ci va S) as B. fold b in B.
  split; [by eapply list_elem_of_lookup_2|].
  assert (∀ d, d ∈ ci → ∃ j, ci !! j = Some d) as Mem by (intros; by apply list_elem_of_lookup).
  destruct b as [k|[|k]]; subst i; simpl in *.
  - destruct B as (x & Hx & Ex). simplify_eq. split; [|left; lia]. intros d _ Hd. lia.
  - destruct B as [_ B]. split.
    + intros d (j & Hj)%Mem Hd. destruct (B j d Hj). lia.
    + right. intros d (j & Hj)%Mem. destruct (B j d Hj).
      destruct j as [|j]; [simplify_eq|pose proof (Hi' _ _ Hj)]; lia.
  - destruct B as [_ B]. destruct (B k w Hi). split; [|left; lia].
    intros d (j & Hj)%Mem Hd. destruct (B j d Hj).
    destruct (Nat.lt_trichotomy j k) as [O|[->|O]]; [pose proof (Lo j d Hj O); lia| |lia].
    simplify_eq. lia.
Qed.

Section correct.
Context {D : Type} `{!Decoder D, !DecoderLaws D}.

Lemma build_ok image a bitness :
  sweepable a →
  ∃ ci dss, build image a bitness = Some ci ∧ ci = concat dss ∧
    Forall2 (swept image (image_base a)) (sort_by_key vaddr (exec_sections a)) dss ∧ wf_index ci.
Proof.
  intros [B W P]. destruct (build_swept image (image_base a) bitness
    (sort_by_key vaddr (exec_sections a)) []) as (dss & E & F).
  { intros s Hs. rewrite sort_by_key_perm in Hs. destruct (W s Hs) as (? & ? & ? & ?).
    by apply decode_section_swept. }
  exists (concat dss), dss. split_and!; [exact E|done..|].
  assert (∀ d, d ∈ concat dss → ∃ s ds, s ∈ exec_sections a ∧ d ∈ ds ∧ swept image (image_base a) s ds) as M.
  { intros d Hd. apply list_elem_of_In, in_concat in Hd as (ds & Hds & Hd).
    apply list_elem_of_In in Hd. apply list_elem_of_In, list_elem_of_lookup in Hds as [i Hi].
    destruct (Forall2_lookup_r _ _ _ _ _ F Hi) as (s & Hs & Sw). exists s, ds.
    split_and!; [|done..]. apply list_elem_of_lookup_2 in Hs. by rewrite sort_by_key_perm in Hs. }
  constructor.
  - by eapply swept_strict.
  - intros d (s & ds & Hs & Hd & C & _ & _)%M. by destruct (contiguous_bounds _ _ d C Hd).
  - intros d (s & ds & Hs & Hd & C & _ & Bd)%M. destruct (contiguous_bounds _ _ d C Hd).
    destruct (W s Hs) as (V & _ & _ & ?). unfold is_u64, is_u32, u64_max in *. lia.
Qed.

(** For executable sections that neither overlap nor wrap, the sweep returns
    an index whose instructions cover each section's bytes one after the other
    from its address, sorted by address; a lookup finds exactly the instruction
    at the address, and a window starts at the last instruction not after it. *)
Theorem code_index_correct image a bitness :
  sweepable a →
  ∃ ci, build image a bitness = Some ci ∧ wf_index ci ∧
    (∀ s, s ∈ exec_sections a → ∃ before ds after, ci = before ++ ds ++ after ∧
       contiguous (image_base a + vaddr s) ds ∧ covers ds (default [] (section_bytes image s))) ∧
    (∀ va d, at_va ci va = Some d ↔ d ∈ ci ∧ ip d = va) ∧
    (∀ va n w ws, window ci va (S n) = w :: ws →
       w ∈ ci ∧ (∀ d, d ∈ ci → (ip d ≤ va)%Z → (ip d ≤ ip w)%Z) ∧
       ((ip w ≤ va)%Z ∨ ∀ d, d ∈ ci → (va < ip d ∧ ip w ≤ ip d)%Z)).
Proof.
  intros Sw. destruct (build_ok image a bitness Sw) as (ci & dss & E & Ec & F & W).
  exists ci. split_and!; [done|done|..].
  - intros s Hs. rewrite <-(sort_by_key_perm vaddr) in Hs.
    apply list_elem_of_lookup in Hs as [i Hi].
    destruct (Forall2_lookup_l _ _ _ _ _ F Hi) as (ds & Hds & C & T & _).
    exists (concat (take i dss)), ds, (concat (drop (S i) dss)). split_and!; [|done..].
    rewrite Ec, <-(take_drop_middle _ _ _ Hds) at 1. by rewrite concat_app.
  - intros va d. split; [apply at_va_Some|]. intros [Hd <-]. by apply at_va_strict, Hd; destruct W.
  - intros va n w ws. by apply window_floor, W.
Qed.
End correct.

(** ** A decoder of one-byte instructions *)

Module ByteDecoder.
Record t := mk { position : nat; at_ip : Z; data : bytes }.

Definition flow_of (b : byte) : FlowControl.FlowControl :=
  match b with
  | xc3 => FlowControl.Return
  | xcc => FlowControl.Interrupt
  | _ => FlowControl.Next
  end.
Definition instruction (d : t) : Instruction :=
  mkInstruction (at_ip d) (if decide (position d < length (data d)) then 1 else 0)
    false (flow_of (default x90 (data d !! position d))) 0 [].

#[global] Instance decoder : Decoder t := {
  with_ip _ bs a := mk 0 a bs;
  can_decode d := bool_decide (position d < length (data d));
  decode d := let i := instruction d in
    (i, mk (position d + ins_len i) (at_ip d +wrap Z.of_nat (ins_len i)) (data d));
  dec_position := position;
  dec_ip := at_ip;
  dec_data := data
}.
#[global] Instance decoder_laws : DecoderLaws t.
Proof.
  constructor; try done.
  - intros d. apply bool_decide_eq_true.
  - intros d H%bool_decide_eq_true. simpl. rewrite decide_True by done. simpl in *. lia.
Qed.
End ByteDecoder.

(** The two sections of the test of code_index.rs, out of order in the file. *)
Definition two_sections : AddressSpace :=
  mkSpace 0x140000000
    [mkSection 0x2000 2 4 2 0x60000020; mkSection 0x1000 2 0 2 0x60000020].
Definition two_sections_image : bytes := [x90; xc3; x00; x00; x90; xc3].

Lemma two_sections_sweepable : sweepable two_sections.
Proof.
  constructor.
  - by vm_compute.
  - change (exec_sections two_sections) with (sections two_sections).
    intros s [->|[->|?%not_elem_of_nil]%elem_of_cons]%elem_of_cons; [by vm_compute..|done].
  - change (sort_by_key vaddr (exec_sections two_sections)) with (rev (sections two_sections)).
    repeat constructor. by vm_compute.
Qed.

Lemma code_index_correct_witness :
  let a := two_sections in
  ∃ ci, build (D := ByteDecoder.t) two_sections_image a 64 = Some ci ∧ wf_index ci ∧
    (∀ s, s ∈ exec_sections a → ∃ before ds after, ci = before ++ ds ++ after ∧
       contiguous (image_base a + vaddr s) ds ∧
       covers ds (default [] (section_bytes two_sections_image s))) ∧
    (∀ va d, at_va ci va = Some d ↔ d ∈ ci ∧ ip d = va) ∧
    (∀ va n w ws, window ci va (S n) = w :: ws →
       w ∈ ci ∧ (∀ d, d ∈ ci → (ip d ≤ va)%Z → (ip d ≤ ip w)%Z) ∧
       ((ip w ≤ va)%Z ∨ ∀ d, d ∈ ci → (va < ip d ∧ ip w ≤ ip d)%Z)).
Proof. exact (code_index_correct two_sections_image two_sections 64 two_sections_sweepable). Defined.

Example two_sections_index :
  map ip (default [] (build (D := ByteDecoder.t) two_sections_image two_sections 64)) =
    [0x140001000; 0x140001001; 0x140002000; 0x140002001]%Z.
Proof. vm_compute. reflexivity. Qed.
