(* ===== verification/Discovery.v ===== *)
(** Function discovery by recursive descent, [src/analysis/functions.rs]:
    [discover_functions], [Discovery] and its methods.

    The loops of the code take fuel here, chosen from the size of the index and
    the queue; [None] is a loop that did not end with it. DiscoveryFacts shows
    that it is enough when no instruction reaches the last address of the
    address space, and DiscoveryCorrect that it never is when one does. The
    panic of [compute_predecessors] is [None] too. *)

From Stdlib Require Import Strings.Byte.
From S2P Require Import Prelude Data Journal Loader FlowGraph CodeIndex.
Import AddressSpace Functions.

(** The sets and maps of [Discovery] that change. *)
Record Discovery := mkDiscovery {
  function_entries : gset Z;
  block_owners : gmap Z Z;
  functions : gmap Z Function
}.

(** With the queues the methods pass around; the head is the front. *)
Record Work := mkWork {
  disc : Discovery;
  block_queue : list Z;
  function_worklist : list Z
}.

Definition add_entry (va : Z) (d : Discovery) : Discovery :=
  mkDiscovery ({[va]} ∪ function_entries d) (block_owners d) (functions d).
Definition set_owner (va owner : Z) (d : Discovery) : Discovery :=
  mkDiscovery (function_entries d) (<[va := owner]> (block_owners d)) (functions d).
Definition add_function (f : Function) (d : Discovery) : Discovery :=
  mkDiscovery (function_entries d) (block_owners d) (<[fn_entry_va f := f]> (functions d)).

Section discovery.
Context (code_index : CodeIndex) (address_space : AddressSpace).
Context (hard_function_entries : gset Z).

(** ** Tests *)

Definition is_owned_by_other (d : Discovery) (va function_entry : Z) : bool :=
  match block_owners d !! va with
  | Some owner => negb (owner =? function_entry)%Z
  | None => false
  end.
Definition is_function_entry (d : Discovery) (va : Z) : bool :=
  bool_decide (va ∈ function_entries d).
Definition is_hard_function_entry (va : Z) : bool := bool_decide (va ∈ hard_function_entries).
Definition is_executable_target (va : Z) : bool :=
  negb (va =? 0)%Z && is_executable_va address_space va.

(** ** One block *)

Definition claim_or_queue_block (va function_entry : Z) (w : Work) : Work :=
  if decide (block_owners (disc w) !! va ≠ Some function_entry ∧ block_owners (disc w) !! va = None)
  then mkWork (set_owner va function_entry (disc w)) (block_queue w ++ [va]) (function_worklist w)
  else w.

(** The edge to [va] that the conditional branches and calls make: a tail call
    when it is a trusted entry of another function. *)
Definition hard_edge (va function_entry : Z) (kind : EdgeKind) (w : Work) : Work * list Edge :=
  if is_executable_target va then
    let foreign_entry := is_hard_function_entry va && negb (va =? function_entry)%Z in
    (if foreign_entry then w else claim_or_queue_block va function_entry w,
     [mkEdge va (if foreign_entry then TailCall else kind)])
  else (w, []).

(** [function_entries.insert(va)] with the push when it is new. *)
Definition queue_function (va : Z) (w : Work) : Work :=
  if decide (va ∈ function_entries (disc w)) then w
  else mkWork (add_entry va (disc w)) (block_queue w) (function_worklist w ++ [va]).

(** The last instruction of a block: its successors, or [None] to go on. *)
Definition end_of_block (dec : DecodedInstr) (function_entry : Z) (w : Work)
    : option (Work * list Edge) :=
  let target := near_branch_target (instr dec) in
  match flow_control (instr dec) with
  | FlowControl.Next => None
  | FlowControl.UnconditionalBranch => Some
      (if is_executable_target target then
         let foreign_entry :=
           (is_function_entry (disc w) target && negb (target =? function_entry)%Z)
           || (target <? function_entry)%Z in
         if foreign_entry then (w, [mkEdge target TailCall])
         else (claim_or_queue_block target function_entry w, [mkEdge target Unconditional])
       else (w, []))
  | FlowControl.ConditionalBranch => Some
      (let '(w, next) := hard_edge (next_ip dec) function_entry Fallthrough w in
       let '(w, taken) := hard_edge target function_entry Conditional w in
       (w, next ++ taken))
  | FlowControl.Call => Some
      (let '(w, next) := hard_edge (next_ip dec) function_entry Fallthrough w in
       if is_executable_target target
       then (queue_function target w, next ++ [mkEdge target Call])
       else (w, next))
  | FlowControl.IndirectBranch => Some (w, [mkEdge 0 Indirect])
  | FlowControl.IndirectCall => Some
      (if is_executable_target (next_ip dec)
       then (claim_or_queue_block (next_ip dec) function_entry w,
             [mkEdge (next_ip dec) Fallthrough; mkEdge 0 Indirect])
       else (w, [mkEdge 0 Indirect]))
  | FlowControl.Return | FlowControl.Interrupt | FlowControl.Exception =>
      Some (w, [mkEdge 0 Return])
  | FlowControl.XbeginXabortXend => Some (w, [])
  end.

(** The loop of [decode_block]: last address, instructions, successors. *)
Fixpoint decode_walk (fuel : nat) (start function_entry : Z) (blocks : gmap Z BasicBlock)
    (va exit_va : Z) (count : nat) (w : Work) : option (Work * Z * nat * list Edge) :=
  match fuel with
  | 0 => None
  | S fuel =>
      match at_va code_index va with
      | None => Some (w, exit_va, count, [])
      | Some dec =>
          if negb (va =? start)%Z && is_hard_function_entry va && negb (va =? function_entry)%Z
          then Some (w, exit_va, count, [mkEdge va TailCall])
          else if is_owned_by_other (disc w) va function_entry then Some (w, exit_va, count, [])
          else if negb (va =? start)%Z && bool_decide (is_Some (blocks !! va))
          then Some (w, exit_va, count, [mkEdge va Fallthrough])
          else
            match end_of_block dec function_entry w with
            | None => decode_walk fuel start function_entry blocks (next_ip dec) va (S count) w
            | Some (w, successors) => Some (w, va, S count, successors)
            end
      end
  end.

Definition decode_block (start function_entry : Z) (blocks : gmap Z BasicBlock) (w : Work)
    : option (Work * gmap Z BasicBlock) :=
  '(w, exit_va, count, successors) ←
    decode_walk (S (length code_index)) start function_entry blocks start start 0 w;
  Some (w, <[start := mkBlock start exit_va count successors []]> blocks).

(** ** One function *)

(** The check before a start is decoded: owned by another function, or claimed
    now. *)
Definition claim (va function_entry : Z) (d : Discovery) : option Discovery :=
  match block_owners d !! va with
  | Some owner => if (owner =? function_entry)%Z then Some d else None
  | None => Some (set_owner va function_entry d)
  end.

Fixpoint block_loop (fuel : nat) (entry : Z) (blocks : gmap Z BasicBlock) (w : Work)
    : option (Work * gmap Z BasicBlock) :=
  match fuel with
  | 0 => None
  | S fuel =>
      match block_queue w with
      | [] => Some (w, blocks)
      | start :: queue =>
          let w := mkWork (disc w) queue (function_worklist w) in
          if decide (is_Some (blocks !! start)) then block_loop fuel entry blocks w
          else
            match claim start entry (disc w) with
            | None => block_loop fuel entry blocks w
            | Some d =>
                '(w, blocks) ← decode_block start entry blocks
                                 (mkWork d queue (function_worklist w));
                block_loop fuel entry blocks w
            end
      end
  end.

(** Edges to code before the entry. *)
Definition rewrite_edge (entry : Z) (e : Edge) : Edge :=
  if negb (eg_target e =? 0)%Z && (eg_target e <? entry)%Z
  then mkEdge (eg_target e) TailCall else e.
Definition rewrite_foreign (entry : Z) (b : BasicBlock) : BasicBlock :=
  mkBlock (bb_entry_va b) (bb_exit_va b) (bb_instr_count b)
    (map (rewrite_edge entry) (bb_successors b)) (bb_predecessors b).

(** [compute_predecessors], on blocks without predecessors. *)
Definition compute_predecessors (f : Function) : option Function :=
  blocks ← foldl add_predecessors (Some (fn_blocks f)) (map bb_entry_va (fn_blocks f));
  Some (mkFunction (fn_id f) (fn_entry_va f) blocks (fn_outgoing f) (fn_stack_frame f)
          (fn_signature f)).

(** Two addresses per instruction can be queued, and the entry. *)
Definition block_fuel : nat := 2 * length code_index + 2.

Definition discover_function (entry : Z) (d : Discovery) (worklist : list Z)
    : option (Discovery * list Z) :=
  match claim entry entry d with
  | None => Some (d, worklist)
  | Some d =>
      '(w, blocks) ← block_loop block_fuel entry ∅ (mkWork d [entry] worklist);
      let block_list :=
        map (rewrite_foreign entry)
          (filter (λ b, entry ≤ bb_entry_va b)%Z (btree_values blocks)) in
      f ← compute_predecessors (mkFunction entry entry block_list [] None None);
      Some (add_function f (disc w), function_worklist w)
  end.

(** ** The worklist *)

(** The loop of [run], repeated in both sweeps. *)
Fixpoint run_loop (fuel : nat) (d : Discovery) (worklist : list Z) : option Discovery :=
  match fuel with
  | 0 => None
  | S fuel =>
      match worklist with
      | [] => Some d
      | entry :: worklist =>
          if decide (is_Some (functions d !! entry)) then run_loop fuel d worklist
          else if negb (is_executable_va address_space entry) then run_loop fuel d worklist
          else
            '(d, worklist) ← discover_function entry d worklist;
            run_loop fuel d worklist
      end
  end.

Definition run (worklist : list Z) (d : Discovery) : option Discovery :=
  run_loop (length worklist + length code_index + 1) d worklist.

(** ** Code after padding *)

Definition is_int3 (dec : DecodedInstr) : bool :=
  (len dec =? 1) && bool_decide (bytes_slice dec = [xcc]).

Definition int3_candidates (d : Discovery) : list Z :=
  (foldl (λ '(prev_was_int3, candidates) dec,
     if is_int3 dec then (true, candidates)
     else if prev_was_int3 && bool_decide (functions d !! ip dec = None)
             && bool_decide (block_owners d !! ip dec = None)
             && is_executable_va address_space (ip dec)
     then (false, candidates ++ [ip dec])
     else (false, candidates)) (false, []) code_index).2.

(** Candidates that are not entries yet, made entries. *)
Definition insert_entries (candidates : list Z) (d : Discovery) : Discovery * list Z :=
  foldl (λ '(d, worklist) va,
    if decide (va ∈ function_entries d) then (d, worklist)
    else (add_entry va d, worklist ++ [va])) (d, []) candidates.

Definition seed_int3_gap_leaves (d : Discovery) : option Discovery :=
  match int3_candidates d with
  | [] => Some d
  | candidates => let '(d, worklist) := insert_entries candidates d in run worklist d
  end.

(** ** Filters of access violations *)

Definition AV : Z := 0xc0000005.
Definition AV_NEG : Z := 0xffffffffc0000005.

Definition is_av_operand (op : OpKind * Z) : bool :=
  match op.1 with
  | MemoryOperand | OtherOperand => false
  | _ => (op.2 =? AV)%Z || (op.2 =? AV_NEG)%Z || (op.2 mod 2 ^ 32 =? AV)%Z
  end.
Definition imm_vas : list Z :=
  omap (λ dec, if existsb is_av_operand (operands (instr dec)) then Some (ip dec) else None)
    code_index.

(** [by_ip]: the instructions in the order of their addresses. *)
Definition by_ip : list (Z * DecodedInstr) :=
  btree_entries (foldl (λ m dec, <[ip dec := dec]> m) ∅ code_index).

(** The walk back over the [j] instructions before. *)
Fixpoint walk_back (ips : list (Z * DecodedInstr)) (j : nat) (entry : Z) : Z :=
  match j with
  | 0 => entry
  | S j =>
      match ips !! j with
      | None => entry
      | Some (prev, dec) =>
          if is_int3 dec then default entry (fst <$> ips !! S j) else walk_back ips j prev
      end
  end.

Definition filter_entry (imm_va : Z) : option Z :=
  match binary_search_by_key fst by_ip imm_va with
  | inr _ => None
  | inl idx => Some (walk_back by_ip idx imm_va)
  end.

Fixpoint dedup (l : list Z) : list Z :=
  match l with
  | x :: (y :: _) as l' => if (x =? y)%Z then dedup l' else x :: dedup l'
  | _ => l
  end.

Definition av_candidates : list Z :=
  dedup (sort_by_key id
    (filter (λ va, is_executable_va address_space va = true) (omap filter_entry imm_vas))).

(** A candidate inside another function is cut out of it. *)
Definition carve (d : Discovery) (entry : Z) : Discovery :=
  if decide (is_Some (functions d !! entry)) then d
  else
    match block_owners d !! entry with
    | Some owner =>
        if (owner =? entry)%Z then d
        else mkDiscovery (function_entries d)
          (filter (λ '(va, o), ¬ (o = owner ∧ entry ≤ va)%Z) (block_owners d))
          (alter (λ f, mkFunction (fn_id f) (fn_entry_va f)
                         (filter (λ b, bb_entry_va b < entry)%Z (fn_blocks f))
                         (fn_outgoing f) (fn_stack_frame f) (fn_signature f))
             owner (functions d))
    | None => d
    end.

Definition seed_access_violation_filter_leaves (d : Discovery) : option Discovery :=
  match av_candidates with
  | [] => Some d
  | candidates =>
      let '(d, worklist) := insert_entries candidates (foldl carve d candidates) in
      run worklist d
  end.
End discovery.

(** ** Entry points *)

Definition discover (code_index : CodeIndex) (address_space : AddressSpace)
    (seeds entry_hints : list Z) : option Discovery :=
  let hard := list_to_set entry_hints in
  d ← run code_index address_space hard seeds (mkDiscovery (list_to_set seeds) ∅ ∅);
  d ← seed_int3_gap_leaves code_index address_space hard d;
  seed_access_violation_filter_leaves code_index address_space hard d.

(** [by_entry] of the table returned. *)
Definition discover_functions_with_entry_hints (code_index : CodeIndex)
    (address_space : AddressSpace) (seeds entry_hints : list Z) : option (gmap Z Function) :=
  functions <$> discover code_index address_space seeds entry_hints.
Definition discover_functions (code_index : CodeIndex) (address_space : AddressSpace)
    (seeds : list Z) : option (gmap Z Function) :=
  discover_functions_with_entry_hints code_index address_space seeds [].
