(* ===== verification/DiscoveryFacts.v ===== *)
(** One function of Discovery: what decoding a block claims and queues, that
    its loops end, and what the blocks found are; the loops of one function: the
    walk along a block, the queue of blocks, and the function made of them; and
    the run over all functions: the invariants between functions, one that also
    survives the carving of filters ([core]) and one of the state before it
    ([swept]). *)

From Stdlib Require Import Strings.Byte.
From S2P Require Import Prelude Data Journal Loader FlowGraph CodeIndex CodeIndexFacts Discovery.
Import AddressSpace Functions.

(** ** Counting *)

(** How many elements of a list satisfy a predicate; fewer when one less does. *)
Section count.
Context {A : Type}.
Definition count (P : A → Prop) `{∀ x, Decision (P x)} (l : list A) : nat := length (filter P l).

Lemma count_length P `{∀ x, Decision (P x)} l : count P l ≤ length l.
Proof. apply length_filter. Qed.
Lemma count_mono P Q `{∀ x, Decision (P x)} `{∀ x, Decision (Q x)} l :
  (∀ x, P x → Q x) → count P l ≤ count Q l.
Proof.
  intros I. unfold count. induction l as [|x l IH]; [done|]. rewrite !filter_cons.
  destruct (decide (P x)); [rewrite decide_True by auto; simpl; lia|].
  case_decide; simpl; lia.
Qed.
Lemma count_less P Q `{∀ x, Decision (P x)} `{∀ x, Decision (Q x)} l y :
  (∀ x, P x → Q x) → y ∈ l → Q y → ¬ P y → count P l < count Q l.
Proof.
  intros I Hy Qy Py. unfold count. induction l as [|x l IH]; [by apply not_elem_of_nil in Hy|].
  rewrite !filter_cons. apply elem_of_cons in Hy as [<-|Hy].
  - rewrite decide_False, decide_True by done. simpl.
    pose proof (count_mono P Q l I). unfold count in *. lia.
  - specialize (IH Hy). destruct (decide (P x)); [rewrite decide_True by auto; simpl; lia|].
    case_decide; simpl; lia.
Qed.
End count.

Section facts.
Context (ci : CodeIndex) (space : AddressSpace) (hard : gset Z).

(** ** What a block may claim and queue *)

(** Addresses that can be queued as blocks, and as functions. *)
Definition block_targets : list Z :=
  (next_ip <$> ci) ++ ((λ d, near_branch_target (instr d)) <$> ci).
Definition call_targets : list Z := (λ d, near_branch_target (instr d)) <$> ci.

Definition unowned (d : Discovery) : nat := count (λ va, block_owners d !! va = None) block_targets.
Definition unseen (d : Discovery) : nat := count (λ va, va ∉ function_entries d) call_targets.

(** After an indirect call the trusted entries are not asked. *)
Definition after_indirect_call (va : Z) : Prop :=
  ∃ d, d ∈ ci ∧ flow_control (instr d) = FlowControl.IndirectCall ∧ next_ip d = va.

(** A later state keeps owners and entries. *)
Record later (d d' : Discovery) : Prop := {
  lt_kept va o : block_owners d !! va = Some o → block_owners d' !! va = Some o;
  lt_entries : function_entries d ⊆ function_entries d'
}.

(** From one state of the work on function [fe] to a later one. *)
Record advances (fe : Z) (w w' : Work) : Prop := {
  av_kept va o : block_owners (disc w) !! va = Some o → block_owners (disc w') !! va = Some o;
  av_new va o : block_owners (disc w') !! va = Some o →
    block_owners (disc w) !! va = Some o ∨ o = fe ∧ va ∈ block_queue w' ∧ va ≠ 0%Z ∧
      (hard ⊆ function_entries (disc w) → va = fe ∨ va ∉ hard ∨ after_indirect_call va);
  av_queue : ∃ q, block_queue w' = block_queue w ++ q ∧
    Forall (λ va, block_owners (disc w') !! va = Some fe) q;
  av_worklist : ∃ l, function_worklist w' = function_worklist w ++ l ∧
    function_entries (disc w') = function_entries (disc w) ∪ list_to_set l;
  av_functions : functions (disc w') = functions (disc w);
  av_blocks_left : unowned (disc w') + length (block_queue w') ≤
    unowned (disc w) + length (block_queue w);
  av_functions_left : unseen (disc w') + length (function_worklist w') ≤
    unseen (disc w) + length (function_worklist w)
}.

Lemma advances_later fe w w' : advances fe w w' → later (disc w) (disc w').
Proof.
  intros A. constructor; [apply (av_kept _ _ _ A)|].
  destruct (av_worklist _ _ _ A) as (l & _ & ->). set_solver.
Qed.
Lemma advances_refl fe w : advances fe w w.
Proof.
  constructor; auto.
  - exists []. by rewrite app_nil_r.
  - exists []. rewrite app_nil_r. split; [done|]. set_solver.
Qed.
Lemma advances_trans fe w1 w2 w3 : advances fe w1 w2 → advances fe w2 w3 → advances fe w1 w3.
Proof.
  intros A B. destruct (av_queue _ _ _ A) as (q1 & Eq1 & F1), (av_queue _ _ _ B) as (q2 & Eq2 & F2).
  destruct (av_worklist _ _ _ A) as (l1 & El1 & Ef1), (av_worklist _ _ _ B) as (l2 & El2 & Ef2).
  constructor.
  - intros va o H. by apply (av_kept _ _ _ B), (av_kept _ _ _ A).
  - intros va o [H|(-> & Q & N & H)]%(av_new _ _ _ B).
    + apply (av_new _ _ _ A) in H as [H|(-> & Q & N & H)]; [by left|right].
      split_and!; [done| |done..]. rewrite Eq2. apply elem_of_app. by left.
    + right. split_and!; [done..|]. intros S. apply H. rewrite Ef1. set_solver.
  - exists (q1 ++ q2). rewrite Eq2, Eq1, app_assoc. split; [done|]. apply Forall_app. split; [|done].
    eapply Forall_impl; [exact F1|]. intros va. apply (av_kept _ _ _ B).
  - exists (l1 ++ l2). rewrite El2, El1, app_assoc. split; [done|].
    rewrite Ef2, Ef1, list_to_set_app_L. set_solver.
  - rewrite (av_functions _ _ _ B). apply (av_functions _ _ _ A).
  - pose proof (av_blocks_left _ _ _ A). pose proof (av_blocks_left _ _ _ B). lia.
  - pose proof (av_functions_left _ _ _ A). pose proof (av_functions_left _ _ _ B). lia.
Qed.

Lemma unowned_set_owner va o d :
  block_owners d !! va = None → va ∈ block_targets → unowned (set_owner va o d) < unowned d.
Proof.
  intros N T. unfold unowned. apply count_less with va; [|done..|]; simpl.
  - intros x. destruct (decide (x = va)) as [->|]; [by rewrite lookup_insert_eq|].
    by rewrite lookup_insert_ne.
  - by rewrite lookup_insert_eq.
Qed.
Lemma unowned_set_owner_le va o d : unowned (set_owner va o d) ≤ unowned d.
Proof.
  unfold unowned. apply count_mono. simpl. intros x.
  destruct (decide (x = va)) as [->|]; [by rewrite lookup_insert_eq|by rewrite lookup_insert_ne].
Qed.
Lemma unseen_add_entry va d :
  va ∉ function_entries d → va ∈ call_targets → unseen (add_entry va d) < unseen d.
Proof.
  intros N T. unfold unseen. apply count_less with va; [|done..|]; simpl; set_solver.
Qed.

Lemma claim_advances va fe w :
  va ∈ block_targets → va ≠ 0%Z →
  (hard ⊆ function_entries (disc w) → va = fe ∨ va ∉ hard ∨ after_indirect_call va) →
  advances fe w (claim_or_queue_block va fe w).
Proof.
  intros T Nz M. unfold claim_or_queue_block. case_decide as D; [|apply advances_refl].
  destruct D as [_ D]. pose proof (unowned_set_owner va fe _ D T) as L.
  constructor; cbn [disc block_queue function_worklist].
  - intros x o H. simpl. rewrite lookup_insert_ne; [done|congruence].
  - simpl. intros x o H. destruct (decide (x = va)) as [->|N].
    + rewrite lookup_insert_eq in H. simplify_eq. right. split_and!; [done|set_solver|done..].
    + rewrite lookup_insert_ne in H by done. by left.
  - exists [va]. split; [done|]. apply Forall_singleton. simpl. by rewrite lookup_insert_eq.
  - exists []. rewrite app_nil_r. simpl. set_solver.
  - done.
  - rewrite length_app. cbn [length]. lia.
  - done.
Qed.
Lemma claim_owned va fe w :
  is_Some (block_owners (disc (claim_or_queue_block va fe w)) !! va).
Proof.
  unfold claim_or_queue_block. case_decide as D; simpl.
  - by rewrite lookup_insert_eq.
  - destruct (block_owners (disc w) !! va); [done|]. destruct D. done.
Qed.

Lemma executable_nonzero va : is_executable_target space va = true → va ≠ 0%Z.
Proof. unfold is_executable_target. intros [H _]%andb_true_iff ->. done. Qed.

(** The same for the edge that asks the trusted entries. *)
Lemma hard_edge_advances va fe k w w' es :
  va ∈ block_targets → hard_edge space hard va fe k w = (w', es) → advances fe w w'.
Proof.
  intros T. unfold hard_edge. destruct (is_executable_target _ _) eqn:X.
  2:{ intros [= <- <-]. apply advances_refl. }
  destruct (_ && _) eqn:F; intros [= <- <-]; [apply advances_refl|].
  apply claim_advances; [done|by apply executable_nonzero|]. intros _.
  apply andb_false_iff in F as [F|F].
  - right; left. by apply bool_decide_eq_false in F.
  - left. apply negb_false_iff, Z.eqb_eq in F. done.
Qed.

Lemma queue_function_advances va fe w :
  va ∈ call_targets → advances fe w (queue_function va w).
Proof.
  intros T. unfold queue_function. case_decide as D; [apply advances_refl|].
  pose proof (unseen_add_entry va _ D T) as L.
  constructor; cbn [disc block_queue function_worklist].
  - done.
  - intros. by left.
  - exists []. by rewrite app_nil_r.
  - exists [va]. simpl. set_solver.
  - done.
  - done.
  - rewrite length_app. cbn [length]. lia.
Qed.

Lemma targets_of d : d ∈ ci →
  next_ip d ∈ block_targets ∧ near_branch_target (instr d) ∈ block_targets ∧
  near_branch_target (instr d) ∈ call_targets.
Proof.
  intros H. unfold block_targets, call_targets. rewrite !elem_of_app.
  split_and!; [left; by apply list_elem_of_fmap_2|right; by eapply (list_elem_of_fmap_2 (λ d, near_branch_target (instr d)))
    |by apply (list_elem_of_fmap_2 (λ d, near_branch_target (instr d)))].
Qed.

Lemma end_of_block_advances d fe w w' es :
  d ∈ ci → end_of_block space hard d fe w = Some (w', es) → advances fe w w'.
Proof.
  intros Hd. destruct (targets_of d Hd) as (Tn & Tb & Tc). unfold end_of_block.
  destruct (flow_control (instr d)) eqn:F; try done;
    try (intros [= <- <-]; apply advances_refl).
  - destruct (is_executable_target _ _) eqn:X; [|intros [= <- <-]; apply advances_refl].
    destruct (_ || _) eqn:O; intros [= <- <-]; [apply advances_refl|].
    apply claim_advances; [done|by apply executable_nonzero|]. intros H.
    apply orb_false_iff in O as [O _]. unfold is_function_entry in O.
    apply andb_false_iff in O as [O|O].
    + right; left. apply bool_decide_eq_false in O. set_solver.
    + left. by apply negb_false_iff, Z.eqb_eq in O.
  - destruct (hard_edge _ _ (next_ip d) _ _ _) as [w1 e1] eqn:E1.
    destruct (hard_edge _ _ (near_branch_target _) _ _ _) as [w2 e2] eqn:E2.
    apply hard_edge_advances in E1, E2; [|done..].
    intros [= <- <-]. by eapply advances_trans.
  - destruct (hard_edge _ _ (next_ip d) _ _ _) as [w1 e1] eqn:E1.
    apply hard_edge_advances in E1; [|done].
    destruct (is_executable_target _ _); intros [= <- <-]; [|done].
    eapply advances_trans; [exact E1|]. by apply queue_function_advances.
  - destruct (is_executable_target _ _) eqn:X; intros [= <- <-]; [|apply advances_refl].
    apply claim_advances; [done|by apply executable_nonzero|].
    intros _. right; right. by exists d.
Qed.

(** ** What a block is *)

Definition executable_edges (l : list (Z * EdgeKind)) : list (Z * EdgeKind) :=
  filter (λ c, is_executable_target space c.1 = true) l.

(** Where control goes after an instruction that ends a block. *)
Definition continuations (d : DecodedInstr) : list (Z * EdgeKind) :=
  let target := near_branch_target (instr d) in
  match flow_control (instr d) with
  | FlowControl.Next | FlowControl.XbeginXabortXend => []
  | FlowControl.UnconditionalBranch => executable_edges [(target, Unconditional)]
  | FlowControl.ConditionalBranch =>
      executable_edges [(next_ip d, Fallthrough); (target, Conditional)]
  | FlowControl.Call => executable_edges [(next_ip d, Fallthrough); (target, Call)]
  | FlowControl.IndirectBranch => [(0%Z, Indirect)]
  | FlowControl.IndirectCall => executable_edges [(next_ip d, Fallthrough)] ++ [(0%Z, Indirect)]
  | FlowControl.Return | FlowControl.Interrupt | FlowControl.Exception => [(0%Z, Return)]
  end.

Definition intra (k : EdgeKind) : Prop := k = Fallthrough ∨ k = Unconditional ∨ k = Conditional.

(** The edge made for a continuation of function [fe]: of its kind, or a tail
    call when it leads to another function or before this one. *)
Definition edge_made (fe : Z) (entries : gset Z) (c : Z * EdgeKind) (e : Edge) : Prop :=
  eg_target e = c.1 ∧
  (eg_kind e = c.2 ∨
   eg_kind e = TailCall ∧ intra c.2 ∧ c.1 ≠ 0%Z ∧ c.1 ≠ fe ∧ (c.1 ∈ hard ∨ c.1 ∈ entries ∨ (c.1 < fe)%Z)).

(** The targets of edges that stay are claimed, those of calls are entries. *)
Definition edge_closed (d : Discovery) (e : Edge) : Prop :=
  (intra (eg_kind e) → is_Some (block_owners d !! eg_target e)) ∧
  (eg_kind e = Call → eg_target e ∈ function_entries d).

(** Instructions of the index in sequence from [va], all but the last falling
    through. *)
Fixpoint linear (va : Z) (ds : list DecodedInstr) : Prop :=
  match ds with
  | [] => True
  | d :: ds => at_va ci va = Some d ∧ (ds ≠ [] → flow_control (instr d) = FlowControl.Next) ∧
      linear (next_ip d) ds
  end.
Definition last_ip (va : Z) (ds : list DecodedInstr) : Z := default va (ip <$> last ds).

(** How the walk from [va] in state [d] stops before an instruction at [v]. *)
Definition stops (fe : Z) (d : Discovery) (v : Z) (es : list Edge) : Prop :=
  (es = [] ∧ at_va ci v = None) ∨
  (es = [] ∧ ∃ o, block_owners d !! v = Some o ∧ o ≠ fe) ∨
  (es = [mkEdge v TailCall] ∧ v ≠ fe ∧ v ∈ hard) ∨
  es = [mkEdge v Fallthrough].

(** The edges of a walk: those of its last instruction, or of its stop. *)
Definition leaves (fe : Z) (d : Discovery) (start : Z) (ds : list DecodedInstr)
    (es : list Edge) : Prop :=
  match last ds with
  | None => stops fe d start es
  | Some x =>
      if decide (flow_control (instr x) = FlowControl.Next) then stops fe d (next_ip x) es
      else Forall2 (edge_made fe (function_entries d)) (continuations x) es
  end.

(** A block, as far as later states [d] know it. *)
Definition block_made (fe : Z) (d : Discovery) (start exit_va : Z) (n : nat) (es : list Edge) : Prop :=
  ∃ ds, linear start ds ∧ exit_va = last_ip start ds ∧ n = length ds ∧
    (∀ x, x ∈ ds → ip x ≠ start → ip x ∈ hard → ip x = fe) ∧
    leaves fe d start ds es ∧
    Forall (edge_closed d) es.
Lemma edge_made_same fe entries va k : edge_made fe entries (va, k) (mkEdge va k).
Proof. split; [done|by left]. Qed.
Lemma edge_made_tail fe entries va k :
  intra k → va ≠ 0%Z → va ≠ fe → va ∈ hard ∨ va ∈ entries ∨ (va < fe)%Z →
  edge_made fe entries (va, k) (mkEdge va TailCall).
Proof. intros. split; [done|]. right. by split_and!. Qed.
#[local] Hint Resolve edge_made_same : core.

Lemma executable_edges_cons va k l :
  executable_edges ((va, k) :: l) =
    if is_executable_target space va then (va, k) :: executable_edges l else executable_edges l.
Proof.
  unfold executable_edges. rewrite filter_cons. simpl.
  by destruct (is_executable_target space va).
Qed.
Lemma executable_edges_nil : executable_edges [] = [].
Proof. done. Qed.

Lemma closed_mono d d' e : later d d' → edge_closed d e → edge_closed d' e.
Proof.
  intros [K E] [H1 H2]. split; [|set_solver].
  intros I. destruct (H1 I) as [o Ho]. exists o. by apply K.
Qed.

Lemma hard_edge_made va fe k w w' es :
  intra k → hard_edge space hard va fe k w = (w', es) →
  (∀ entries, Forall2 (edge_made fe entries) (executable_edges [(va, k)]) es) ∧
  Forall (edge_closed (disc w')) es.
Proof.
  intros Ik. unfold hard_edge. rewrite executable_edges_cons, executable_edges_nil.
  destruct (is_executable_target _ _) eqn:X; [|by intros [= <- <-]].
  destruct (_ && _) eqn:F; intros [= <- <-].
  - apply andb_true_iff in F as [F1%bool_decide_eq_true F2%negb_true_iff%Z.eqb_neq]. split.
    + intros. constructor; [|done]. apply edge_made_tail; auto. by apply executable_nonzero in X.
    + apply Forall_singleton. split; simpl; [by intros [?|[?|?]]|done].
  - split; [by repeat constructor|]. apply Forall_singleton.
    split; simpl; [intros _; apply claim_owned|]. intros ->. destruct Ik as [?|[?|?]]; done.
Qed.

Lemma end_of_block_edges d fe w w' es :
  d ∈ ci → end_of_block space hard d fe w = Some (w', es) →
  flow_control (instr d) ≠ FlowControl.Next ∧
  Forall2 (edge_made fe (function_entries (disc w))) (continuations d) es ∧
  Forall (edge_closed (disc w')) es.
Proof.
  intros Hd. destruct (targets_of d Hd) as (Tn & Tb & Tc). unfold end_of_block, continuations.
  assert (∀ va k, ¬ intra k → k ≠ Call → edge_closed (disc w) (mkEdge va k)) as Out
    by (intros; split; done).
  assert (∀ k, ¬ intra Indirect ∧ ¬ intra Return ∧ ¬ intra TailCall ∧ (k = Call → ¬ intra k)) as Ik
    by (unfold intra; naive_solver).
  destruct (Ik Call) as (I1 & I2 & I3 & I4). specialize (I4 eq_refl).
  destruct (flow_control (instr d)) eqn:F; try done;
    try (intros [= <- <-]; split; [done|]; split; [by repeat constructor|]; repeat constructor; by apply Out).
  - rewrite executable_edges_cons, executable_edges_nil.
    destruct (is_executable_target _ _) eqn:X; [|by intros [= <- <-]].
    destruct (_ || _) eqn:O; intros [= <- <-]; (split; [done|]).
    + split; [|repeat constructor; by apply Out].
      constructor; [|done]. apply edge_made_tail; [by right; left|by apply executable_nonzero in X|..].
      * apply orb_true_iff in O as [[_ O%negb_true_iff%Z.eqb_neq]%andb_true_iff|O%Z.ltb_lt]; [done|lia].
      * apply orb_true_iff in O as [[O%bool_decide_eq_true _]%andb_true_iff|O%Z.ltb_lt]; auto.
    + split; [by repeat constructor|]. apply Forall_singleton. split; [intros _; apply claim_owned|done].
  - destruct (hard_edge _ _ (next_ip d) _ _ _) as [w1 e1] eqn:E1.
    destruct (hard_edge _ _ (near_branch_target _) _ _ _) as [w2 e2] eqn:E2.
    intros [= <- <-]. split; [done|].
    destruct (hard_edge_made _ _ _ _ _ _ (or_introl eq_refl) E1) as [M1 C1].
    destruct (hard_edge_made _ _ _ _ _ _ (or_intror (or_intror eq_refl)) E2) as [M2 C2].
    apply hard_edge_advances in E2; [|done]. split.
    + specialize (M1 (function_entries (disc w))). specialize (M2 (function_entries (disc w))).
      pose proof (Forall2_app M1 M2) as M. unfold executable_edges in *.
      by rewrite <-filter_app in M.
    + apply Forall_app. split; [|done]. eapply Forall_impl; [exact C1|]. intros e. by apply closed_mono, advances_later with fe.
  - destruct (hard_edge _ _ (next_ip d) _ _ _) as [w1 e1] eqn:E1.
    destruct (hard_edge_made _ _ _ _ _ _ (or_introl eq_refl) E1) as [M1 C1].
    specialize (M1 (function_entries (disc w))).
    assert (executable_edges [(next_ip d, Fallthrough); (near_branch_target (instr d), Call)] =
      executable_edges [(next_ip d, Fallthrough)] ++ executable_edges [(near_branch_target (instr d), Call)]) as ->
      by (unfold executable_edges; by rewrite <-filter_app).
    rewrite (executable_edges_cons (near_branch_target _)), executable_edges_nil.
    destruct (is_executable_target _ _) eqn:X; intros [= <- <-]; (split; [done|]);
      [|by rewrite app_nil_r].
    split; [apply Forall2_app; [done|by repeat constructor]|]. apply Forall_app. split.
    + eapply Forall_impl; [exact C1|]. intros e. apply closed_mono, (advances_later fe). by apply queue_function_advances.
    + apply Forall_singleton. split; [done|]. intros _. simpl. unfold queue_function.
      case_decide; simpl; set_solver.
  - rewrite executable_edges_cons, executable_edges_nil.
    destruct (is_executable_target _ _) eqn:X; intros [= <- <-]; (split; [done|]);
      (split; [by repeat constructor|]); repeat constructor; try done.
    intros _. apply claim_owned.
Qed.
End facts.

Section blocks.
Context (ci : CodeIndex) (space : AddressSpace) (hard : gset Z).
Notation advances := (advances ci hard).
Notation block_made := (block_made ci space hard).
Notation leaves := (leaves ci space hard).
Notation stops := (stops ci hard).

(** Every instruction makes progress: the premise of the walk's end. *)
Definition progresses : Prop := ∀ d, d ∈ ci → 1 ≤ len d ∧ (ip d < u64_max)%Z.

(** ** The walk *)

Lemma stops_mono fe d d' v es : later d d' → stops fe d v es → stops fe d' v es.
Proof.
  unfold stops. intros [K _] [H|[(? & o & Ho & ?)|H]]; [by left| |by right; right].
  right; left. split; [done|]. exists o. auto.
Qed.
Lemma edge_made_mono fe d d' c e :
  later d d' → edge_made hard fe (function_entries d) c e →
  edge_made hard fe (function_entries d') c e.
Proof. intros [_ ?]. unfold edge_made. set_solver. Qed.
Lemma leaves_mono fe d d' v ds es : later d d' → leaves fe d v ds es → leaves fe d' v ds es.
Proof.
  intros A. unfold leaves, DiscoveryFacts.leaves.
  destruct (last ds) as [x|]; [|by apply stops_mono]. case_decide; [by apply stops_mono|].
  intros F. eapply Forall2_impl; [exact F|]. intros c e. by apply edge_made_mono.
Qed.
Lemma block_made_mono fe d d' start ex n es :
  later d d' → block_made fe d start ex n es → block_made fe d' start ex n es.
Proof.
  intros A (ds & L & E & N & H & Lv & C). exists ds. split_and!; [done..| |].
  - by eapply leaves_mono.
  - eapply Forall_impl; [exact C|]. intros e. by apply closed_mono.
Qed.

Lemma last_cons_default {A} (x : A) l : last (x :: l) = Some (default x (last l)).
Proof. rewrite last_cons. by destruct (last l). Qed.

(** What [decode_walk] returns. *)
Definition walk_ok (start fe va exit_va : Z) (n : nat) (w w' : Work) (exit' : Z) (n' : nat)
    (es : list Edge) : Prop :=
  advances fe w w' ∧
  ∃ ds, linear ci va ds ∧ exit' = last_ip exit_va ds ∧ n' = n + length ds ∧
    (∀ x, x ∈ ds → ip x ≠ start → ip x ∈ hard → ip x = fe) ∧
    leaves fe (disc w') va ds es ∧ Forall (edge_closed (disc w')) es.

Lemma walk_stop start fe va exit_va n w es :
  stops fe (disc w) va es → Forall (edge_closed (disc w)) es →
  walk_ok start fe va exit_va n w w exit_va n es.
Proof.
  intros St C. split; [apply advances_refl|]. exists []. split_and!; [done|done|simpl; lia| |exact St|done].
  by intros x ?%not_elem_of_nil.
Qed.

Lemma decode_walk_ok fuel start fe blocks va exit_va n w w' exit' n' es :
  (∀ k, is_Some (blocks !! k) → block_owners (disc w) !! k = Some fe) →
  decode_walk ci space hard fuel start fe blocks va exit_va n w = Some (w', exit', n', es) →
  walk_ok start fe va exit_va n w w' exit' n' es.
Proof.
  intros Bl. revert va exit_va n. induction fuel as [|fuel IH]; intros va exit_va n E; [done|].
  cbn [decode_walk] in E. destruct (at_va ci va) as [d|] eqn:At.
  2:{ simplify_eq. apply walk_stop; [by left|done]. }
  destruct (at_va_Some ci va d At) as [Hd Ip].
  destruct (_ && _ && _) eqn:Hh in E.
  { simplify_eq. apply andb_true_iff in Hh as [[_ Hh%bool_decide_eq_true]%andb_true_iff N%negb_true_iff%Z.eqb_neq].
    apply walk_stop; [right; right; left; done|]. apply Forall_singleton.
    split; simpl; [by intros [?|[?|?]]|done]. }
  destruct (is_owned_by_other _ _ _) eqn:Ow.
  { simplify_eq. unfold is_owned_by_other in Ow.
    destruct (block_owners (disc w') !! ip d) as [o|] eqn:Eo; [|done].
    apply negb_true_iff, Z.eqb_neq in Ow. apply walk_stop; [|done]. right; left. eauto. }
  destruct (_ && _) eqn:Hb in E.
  { simplify_eq. apply andb_true_iff in Hb as [_ Hb%bool_decide_eq_true].
    apply walk_stop; [by right; right; right|]. apply Forall_singleton.
    split; simpl; [|done]. intros _. rewrite (Bl _ Hb). eauto. }
  assert (ip d ≠ start → ip d ∈ hard → ip d = fe) as Hin.
  { intros N H. rewrite Ip in *. rewrite (proj2 (Z.eqb_neq va start)) in Hh by done.
    unfold is_hard_function_entry in Hh. rewrite bool_decide_true in Hh by done. simpl in Hh.
    by apply negb_false_iff, Z.eqb_eq in Hh. }
  destruct (end_of_block space hard d fe w) as [[w1 es1]|] eqn:En.
  - simplify_eq. destruct (end_of_block_edges ci space hard d fe w w' es Hd En) as (Fl & M & C).
    pose proof (end_of_block_advances ci space hard d fe w w' es Hd En) as A.
    split; [done|]. exists [d]. split_and!.
    + by split_and!.
    + done.
    + simpl. lia.
    + by intros x ->%list_elem_of_singleton.
    + unfold leaves, DiscoveryFacts.leaves. simpl. rewrite decide_False by done.
      eapply Forall2_impl; [exact M|]. intros c e. by apply edge_made_mono, advances_later with ci hard fe.
    + done.
  - apply IH in E as (A & ds & L & Ex & Nn & H & Lv & C). split; [done|]. exists (d :: ds).
    assert (flow_control (instr d) = FlowControl.Next) as Fl.
    { unfold end_of_block in En. by destruct (flow_control (instr d)). }
    split_and!.
    + by split_and!.
    + rewrite Ex. unfold last_ip. rewrite last_cons_default. by destruct (last ds).
    + simpl. lia.
    + by intros x [->|Hx]%elem_of_cons; [|apply H].
    + unfold leaves, DiscoveryFacts.leaves in *. rewrite last_cons_default.
      destruct (last ds) as [x|]; [done|]. simpl. by rewrite decide_True.
    + done.
Qed.

(** The walk goes to higher addresses. *)
Lemma decode_walk_total fuel start fe blocks va exit_va n w :
  progresses → count (λ d, va ≤ ip d)%Z ci < fuel →
  is_Some (decode_walk ci space hard fuel start fe blocks va exit_va n w).
Proof.
  intros P. revert va exit_va n. induction fuel as [|fuel IH]; intros va exit_va n L; [lia|].
  cbn [decode_walk]. destruct (at_va ci va) as [d|] eqn:At; [|eauto].
  destruct (at_va_Some ci va d At) as [Hd Ip]. destruct (P d Hd).
  destruct (_ && _ && _); [eauto|]. destruct (is_owned_by_other _ _ _); [eauto|].
  destruct (_ && _); [eauto|]. destruct (end_of_block _ _ _ _ _) as [[??]|]; [eauto|].
  apply IH. assert (va < next_ip d)%Z by (unfold next_ip, sat_add, u64_max in *; lia).
  enough (count (λ x, next_ip d ≤ ip x)%Z ci < count (λ x, va ≤ ip x)%Z ci) by lia.
  apply count_less with d; [|done|simpl; lia..]. simpl. intros; lia.
Qed.

(** ** The queue of blocks *)

(** The blocks of [fe] decoded so far, and its claims. *)
Record blocks_ok (fe : Z) (w : Work) (blocks : gmap Z BasicBlock) : Prop := {
  bo_block k b : blocks !! k = Some b → bb_entry_va b = k ∧ bb_predecessors b = [] ∧
    block_owners (disc w) !! k = Some fe ∧
    block_made fe (disc w) k (bb_exit_va b) (bb_instr_count b) (bb_successors b);
  bo_owned va : block_owners (disc w) !! va = Some fe → is_Some (blocks !! va) ∨ va ∈ block_queue w;
  bo_queue va : va ∈ block_queue w → block_owners (disc w) !! va = Some fe
}.

(** One block taken from the queue. *)
Lemma decode_block_ok fe start queue d wl blocks :
  progresses → blocks_ok fe (mkWork d (start :: queue) wl) blocks →
  ∃ w' b, decode_block ci space hard start fe blocks (mkWork d queue wl) = Some (w', <[start := b]> blocks) ∧
    advances fe (mkWork d queue wl) w' ∧ blocks_ok fe w' (<[start := b]> blocks).
Proof.
  intros P B. set (w := mkWork d queue wl).
  destruct (decode_walk_total (S (length ci)) start fe blocks start start 0 w) as [[[[w1 ex] n] es] D];
    [done|pose proof (count_length (λ d, start ≤ ip d)%Z ci); lia|].
  assert (∀ k, is_Some (blocks !! k) → block_owners (disc w) !! k = Some fe) as Bk.
  { intros k [b Hk]. by destruct (bo_block _ _ _ B k b Hk) as (_ & _ & ? & _). }
  pose proof (decode_walk_ok _ _ _ _ _ _ _ _ _ _ _ _ Bk D) as (A & ds & Ln & Ex & N & H & Lv & C).
  eexists w1, _. unfold decode_block. rewrite D. split; [done|]. split; [done|]. constructor.
  - intros k b Hk. destruct (decide (k = start)) as [->|Nk].
    + rewrite lookup_insert_eq in Hk. simplify_eq. simpl. split_and!; [done..| |].
      * apply (av_kept _ _ _ _ _ A), (bo_queue _ _ _ B). by left.
      * exists ds. by split_and!.
    + rewrite lookup_insert_ne in Hk by done.
      destruct (bo_block _ _ _ B k b Hk) as (? & ? & ? & M). split_and!; [done..| |].
      * by apply (av_kept _ _ _ _ _ A).
      * apply (block_made_mono fe (disc w)); [by apply (advances_later ci hard fe)|done].
  - intros va [Ho|(_ & Q & _)]%(av_new _ _ _ _ _ A); [|by right].
    destruct (decide (va = start)) as [->|Nk]; [left; by rewrite lookup_insert_eq|].
    rewrite lookup_insert_ne by done.
    apply (bo_owned _ _ _ B) in Ho as [?|[->|Q]%elem_of_cons]; [by left|done|right].
    destruct (av_queue _ _ _ _ _ A) as (q & -> & _). apply elem_of_app. by left.
  - intros va Hv. destruct (av_queue _ _ _ _ _ A) as (q & Eq & Fq). rewrite Eq in Hv.
    apply elem_of_app in Hv as [Hv|Hv].
    + apply (av_kept _ _ _ _ _ A), (bo_queue _ _ _ B). by right.
    + rewrite Forall_forall in Fq. by apply Fq.
Qed.

(** From one state to a later one, the queue aside. *)
Record grows (fe : Z) (d d' : Discovery) (wl wl' : list Z) : Prop := {
  gr_kept va o : block_owners d !! va = Some o → block_owners d' !! va = Some o;
  gr_new va o : block_owners d' !! va = Some o → block_owners d !! va = Some o ∨
    o = fe ∧ (hard ⊆ function_entries d → va = fe ∨ va ∉ hard ∨ after_indirect_call ci va);
  gr_worklist : ∃ l, wl' = wl ++ l ∧ function_entries d' = function_entries d ∪ list_to_set l;
  gr_functions : functions d' = functions d;
  gr_left : unseen ci d' + length wl' ≤ unseen ci d + length wl
}.
Lemma grows_later fe d d' wl wl' : grows fe d d' wl wl' → later d d'.
Proof.
  intros G. constructor; [apply (gr_kept _ _ _ _ _ G)|].
  destruct (gr_worklist _ _ _ _ _ G) as (l & _ & ->). set_solver.
Qed.
Lemma grows_refl fe d wl : grows fe d d wl wl.
Proof.
  constructor; auto. exists []. rewrite app_nil_r. split; [done|]. set_solver.
Qed.
Lemma grows_trans fe d1 d2 d3 l1 l2 l3 :
  grows fe d1 d2 l1 l2 → grows fe d2 d3 l2 l3 → grows fe d1 d3 l1 l3.
Proof.
  intros G H. destruct (gr_worklist _ _ _ _ _ G) as (k1 & El1 & Ef1).
  destruct (gr_worklist _ _ _ _ _ H) as (k2 & El2 & Ef2). constructor.
  - intros va o E. by apply (gr_kept _ _ _ _ _ H), (gr_kept _ _ _ _ _ G).
  - intros va o [E|(-> & M)]%(gr_new _ _ _ _ _ H); [by apply (gr_new _ _ _ _ _ G)|].
    right. split; [done|]. intros S. apply M. rewrite Ef1. set_solver.
  - exists (k1 ++ k2). rewrite El2, El1, app_assoc. split; [done|].
    rewrite Ef2, Ef1, list_to_set_app_L. set_solver.
  - rewrite (gr_functions _ _ _ _ _ H). apply (gr_functions _ _ _ _ _ G).
  - pose proof (gr_left _ _ _ _ _ G). pose proof (gr_left _ _ _ _ _ H). lia.
Qed.
Lemma advances_grows fe w w' d0 wl0 :
  grows fe d0 (disc w) wl0 (function_worklist w) → advances fe w w' →
  grows fe d0 (disc w') wl0 (function_worklist w').
Proof.
  intros G A. apply (grows_trans fe _ (disc w) _ _ (function_worklist w)); [done|].
  destruct A as [Kept New _ Wl Fn _ Left]. constructor; try done.
  intros va o [H|(-> & _ & _ & M)]%New; auto.
Qed.

Lemma blocks_ok_pop fe d start queue wl blocks :
  blocks_ok fe (mkWork d (start :: queue) wl) blocks → is_Some (blocks !! start) →
  blocks_ok fe (mkWork d queue wl) blocks.
Proof.
  intros [B1 B2 B3] Hs. constructor; simpl in *; [done| |intros; apply B3; by right].
  intros va H. destruct (B2 va H) as [?|[->|?]%elem_of_cons]; auto.
Qed.

(** The loop ends with every claim of the function decoded. *)
Lemma block_loop_ok fuel fe blocks w d0 wl0 :
  progresses → blocks_ok fe w blocks → grows fe d0 (disc w) wl0 (function_worklist w) →
  unowned ci (disc w) + length (block_queue w) < fuel →
  ∃ w' blocks', block_loop ci space hard fuel fe blocks w = Some (w', blocks') ∧
    blocks_ok fe w' blocks' ∧ block_queue w' = [] ∧
    grows fe d0 (disc w') wl0 (function_worklist w').
Proof.
  intros P. revert blocks w. induction fuel as [|fuel IH]; intros blocks w B G L; [lia|].
  cbn [block_loop]. destruct w as [d [|start queue] wl]; simpl in *.
  { exists (mkWork d [] wl), blocks. by split_and!. }
  assert (block_owners d !! start = Some fe) as Hs by (apply (bo_queue _ _ _ B); by left).
  destruct (decide (is_Some (blocks !! start))) as [Hb|Hb].
  { apply IH; [by eapply blocks_ok_pop|done|simpl in *; lia]. }
  unfold claim. rewrite Hs, Z.eqb_refl.
  destruct (decode_block_ok fe start queue d wl blocks P B) as (w1 & b & E & A & B1).
  rewrite E. apply IH; [done|by apply (advances_grows fe (mkWork d queue wl))|].
  pose proof (av_blocks_left _ _ _ _ _ A). simpl in *. lia.
Qed.
End blocks.

(** ** The record of a function *)

(** Predecessors are the inverse of the successor edges of the blocks. *)
Definition predecessors_ok (blocks : list BasicBlock) : Prop :=
  ∀ b e, b ∈ blocks → e ∈ bb_predecessors b ↔
    bb_entry_va b ≠ 0%Z ∧ ∃ a, a ∈ blocks ∧ eg_target e = bb_entry_va a ∧
      mkEdge (bb_entry_va b) (eg_kind e) ∈ bb_successors a.

(** Keyed by its entry, without a frame. *)
Definition bare (fe : Z) (f : Function) : Prop := fn_id f = fe ∧ fn_stack_frame f = None.

Lemma compute_predecessors_ok f :
  StronglySorted (key_lt bb_entry_va) (fn_blocks f) →
  (∀ b, b ∈ fn_blocks f → bb_predecessors b = []) →
  ∃ f', compute_predecessors f = Some f' ∧ fn_entry_va f' = fn_entry_va f ∧ fn_id f' = fn_id f ∧ fn_stack_frame f' = fn_stack_frame f ∧
    map outline (fn_blocks f') = map outline (fn_blocks f) ∧ predecessors_ok (fn_blocks f').
Proof.
  intros S N. assert (map (set_predecessors []) (fn_blocks f) = fn_blocks f) as E.
  { rewrite <-(list_fmap_id (fn_blocks f)) at 2. apply list_fmap_ext.
    intros i [] Hb. simpl. apply list_elem_of_lookup_2, N in Hb. simpl in Hb. by subst. }
  destruct (recompute_ok f) as (f' & R & O & _ & M); [by apply (strict_NoDup bb_entry_va) in S|].
  unfold recompute_predecessors in R. rewrite E in R. unfold compute_predecessors.
  destruct (foldl _ _ _) as [bs|]; [|done]. simpl in R. simplify_eq. eexists. split; [done|].
  by split_and!.
Qed.

Section run.
Context (ci : CodeIndex) (space : AddressSpace) (hard : gset Z).
Notation block_made := (block_made ci space hard).
Notation grows := (grows ci hard).

(** A block of function [fe]: as decoded, with the edges to lower addresses
    rewritten. *)
Definition made (fe : Z) (d : Discovery) (b : BasicBlock) : Prop :=
  ∃ es, block_made fe d (bb_entry_va b) (bb_exit_va b) (bb_instr_count b) es ∧
    bb_successors b = map (rewrite_edge fe) es.

(** A function just made from its claims. *)
Record function_made (fe : Z) (d : Discovery) (f : Function) : Prop := {
  fm_entry : fn_entry_va f = fe;
  fm_id : bare fe f;
  fm_sorted : StronglySorted (key_lt bb_entry_va) (fn_blocks f);
  fm_block b : b ∈ fn_blocks f →
    (fe ≤ bb_entry_va b)%Z ∧ block_owners d !! bb_entry_va b = Some fe ∧ made fe d b;
  fm_all va : block_owners d !! va = Some fe → (fe ≤ va)%Z →
    ∃ b, b ∈ fn_blocks f ∧ bb_entry_va b = va;
  fm_preds : predecessors_ok (fn_blocks f)
}.

Lemma function_of_blocks fe w blocks :
  blocks_ok ci space hard fe w blocks → block_queue w = [] →
  ∃ f, compute_predecessors
      (mkFunction fe fe (map (rewrite_foreign fe)
         (filter (λ b, fe ≤ bb_entry_va b)%Z (btree_values blocks))) [] None None) = Some f ∧
    function_made fe (disc w) f.
Proof.
  intros B Q. set (l := filter _ _).
  assert (∀ b, b ∈ l ↔ (fe ≤ bb_entry_va b)%Z ∧ blocks !! bb_entry_va b = Some b) as M.
  { intros b. unfold l. rewrite list_elem_of_filter, elem_of_btree_values. split.
    - intros (L & k & Hk). by destruct (bo_block _ _ _ _ _ _ B k b Hk) as (<- & _).
    - intros (L & H). eauto. }
  assert (StronglySorted (key_lt bb_entry_va) l) as S.
  { apply sorted_filter, btree_values_sorted. intros k b Hk.
    by destruct (bo_block _ _ _ _ _ _ B k b Hk). }
  assert (StronglySorted (key_lt bb_entry_va) (map (rewrite_foreign fe) l)) as S'
    by (apply (sorted_by_keys bb_entry_va l); [exact (eq_sym (map_map (rewrite_foreign fe) bb_entry_va l))|done]).
  destruct (compute_predecessors_ok (mkFunction fe fe (map (rewrite_foreign fe) l) [] None None))
    as (f & E & Ef & Ei & Es & O & P); [done| |].
  { simpl. intros b (b0 & -> & Hb)%list_elem_of_fmap. apply M in Hb as [_ Hb].
    by destruct (bo_block _ _ _ _ _ _ B _ _ Hb) as (_ & ? & _). }
  exists f. split; [done|]. simpl in *. constructor; [done|by split| | | |done].
  - apply (sorted_by_keys bb_entry_va (map (rewrite_foreign fe) l)); [|done].
    symmetry. by apply outline_entries.
  - intros b Hb. apply (outline_member _ (map (rewrite_foreign fe) l)) in Hb as (b1 & Hb & Ob); [|done].
    apply list_elem_of_fmap in Hb as (b0 & -> & Hb). apply M in Hb as [L Hb].
    injection Ob as E1 E2 E3 E4.
    destruct (bo_block _ _ _ _ _ _ B _ _ Hb) as (_ & _ & Ho & Hm).
    unfold made. rewrite E1, E2, E3, E4. split_and!; [done..|]. by exists (bb_successors b0).
  - intros va Ho L. destruct (bo_owned _ _ _ _ _ _ B va Ho) as [[b Hb]|Hq];
      [|rewrite Q in Hq; by apply not_elem_of_nil in Hq].
    destruct (bo_block _ _ _ _ _ _ B va b Hb) as (<- & _).
    assert (rewrite_foreign fe b ∈ map (rewrite_foreign fe) l) as Hl
      by (apply list_elem_of_fmap_2, M; by split).
    apply (outline_member _ (fn_blocks f)) in Hl as (b1 & Hb1 & Ob); [|done].
    exists b1. split; [done|]. by injection Ob as ->.
Qed.

(** ** One entry *)

Lemma discover_function_ok entry d wl :
  progresses ci → (∀ va, block_owners d !! va ≠ Some entry) →
  (∃ o, o ≠ entry ∧ block_owners d !! entry = Some o ∧
     discover_function ci space hard entry d wl = Some (d, wl)) ∨
  (block_owners d !! entry = None ∧ ∃ d1 wl1 f,
     discover_function ci space hard entry d wl = Some (add_function f d1, wl1) ∧
     grows entry d d1 wl wl1 ∧ block_owners d1 !! entry = Some entry ∧ function_made entry d1 f).
Proof.
  intros P N. unfold discover_function, claim.
  destruct (block_owners d !! entry) as [o|] eqn:Ho.
  { left. exists o. assert (o ≠ entry) by (intros ->; by apply (N entry)).
    by rewrite (proj2 (Z.eqb_neq o entry)). }
  right. split; [done|]. set (d0 := set_owner entry entry d).
  assert (grows entry d d0 wl wl) as G0.
  { constructor; simpl.
    - intros va o H. rewrite lookup_insert_ne; [done|congruence].
    - intros va o H. destruct (decide (va = entry)) as [->|].
      + rewrite lookup_insert_eq in H. simplify_eq. right. auto.
      + rewrite lookup_insert_ne in H by done. by left.
    - exists []. rewrite app_nil_r. split; [done|]. set_solver.
    - done.
    - done. }
  destruct (block_loop_ok ci space hard (block_fuel ci) entry ∅ (mkWork d0 [entry] wl) d0 wl)
    as (w & blocks & E & B & Q & G); [done| |apply grows_refl| |].
  - constructor; simpl; [done| |].
    + intros va H. destruct (decide (va = entry)) as [->|]; [right; by left|].
      rewrite lookup_insert_ne in H by done. by apply N in H.
    + intros va ->%list_elem_of_singleton. by rewrite lookup_insert_eq.
  - pose proof (count_length (λ va, block_owners d0 !! va = None) (block_targets ci)) as L.
    unfold block_fuel, unowned. unfold block_targets in L at 2.
    rewrite length_app, !length_fmap in L. cbn [disc block_queue length]. lia.
  - rewrite E. destruct (function_of_blocks entry w blocks B Q) as (f & Ef & F).
    cbn [mbind option_bind]. rewrite Ef. exists (disc w), (function_worklist w), f.
    split_and!; [done|by apply (grows_trans _ _ _ _ d0 _ _ wl)| |done].
    apply (gr_kept _ _ _ _ _ _ _ G). simpl. by rewrite lookup_insert_eq.
Qed.

(** ** Between entries *)

Lemma made_mono fe d d' b : later d d' → made fe d b → made fe d' b.
Proof. intros L (es & M & E). exists es. split; [|done]. by apply (block_made_mono ci space hard fe d). Qed.

Lemma function_made_later fe d d' f :
  later d d' → (∀ va, block_owners d' !! va = Some fe → block_owners d !! va = Some fe) →
  function_made fe d f → function_made fe d' f.
Proof.
  intros L N []. constructor; try done; [|auto].
  intros b Hb. destruct (fm_block0 b Hb) as (?&?&M). split_and!; [done|by apply (lt_kept _ _ L)|].
  by apply (made_mono fe d).
Qed.

(** The functions and entries known stay. *)
Record keeps (d d' : Discovery) : Prop := {
  kp_functions fe : is_Some (functions d !! fe) → is_Some (functions d' !! fe);
  kp_entries : function_entries d ⊆ function_entries d'
}.
Lemma keeps_refl d : keeps d d.
Proof. by constructor. Qed.
Lemma keeps_trans d1 d2 d3 : keeps d1 d2 → keeps d2 d3 → keeps d1 d3.
Proof. intros [F1 E1] [F2 E2]. constructor; [auto|set_solver]. Qed.
#[local] Hint Resolve keeps_refl : core.

(** What holds of the functions at any time: block starts have one owner, which
    is a function; blocks are as decoded in some earlier state. *)
Record core (d : Discovery) : Prop := {
  co_function fe f : functions d !! fe = Some f →
    fn_entry_va f = fe ∧ bare fe f ∧ StronglySorted (key_lt bb_entry_va) (fn_blocks f) ∧
    ∀ b, b ∈ fn_blocks f → (fe ≤ bb_entry_va b)%Z ∧ block_owners d !! bb_entry_va b = Some fe ∧
      ∃ d1, function_entries d1 ⊆ function_entries d ∧ made fe d1 b;
  co_owner va o : block_owners d !! va = Some o → is_Some (functions d !! o)
}.

(** And before anything is carved out: every claim is a block, entries are
    dealt with or waiting, trusted entries are their own. *)
Record swept (d : Discovery) (wl : list Z) : Prop := {
  sw_function fe f : functions d !! fe = Some f →
    function_made fe d f ∧ block_owners d !! fe = Some fe;
  sw_owner va o : block_owners d !! va = Some o → is_Some (functions d !! o);
  sw_entries va : va ∈ function_entries d →
    va ∈ wl ∨ is_executable_va space va = false ∨ is_Some (block_owners d !! va);
  sw_hard va o : block_owners d !! va = Some o → va ∈ hard → o = va ∨ after_indirect_call ci va;
  sw_trusted : hard ⊆ function_entries d
}.

Lemma swept_core d wl : swept d wl → core d.
Proof.
  intros S. constructor; [|apply (sw_owner _ _ S)].
  intros fe f Hf. destruct (sw_function _ _ S fe f Hf) as [F _].
  split_and!; [by destruct F..|]. intros b Hb. destruct (fm_block _ _ _ F b Hb) as (?&?&?).
  split_and!; [done..|]. by exists d.
Qed.

Lemma not_owner d entry : core d → functions d !! entry = None →
  ∀ va, block_owners d !! va ≠ Some entry.
Proof. intros C N va H. apply (co_owner _ C) in H as [f Hf]. congruence. Qed.

Lemma discover_function_core entry d wl :
  progresses ci → core d → functions d !! entry = None →
  ∃ d' wl', discover_function ci space hard entry d wl = Some (d', wl') ∧ core d' ∧
    keeps d d' ∧ unseen ci d' + length wl' ≤ unseen ci d + length wl.
Proof.
  intros P C N.
  destruct (discover_function_ok entry d wl P (not_owner _ _ C N))
    as [(o & _ & _ & E)|(_ & d1 & wl1 & f & E & G & He & F)].
  { exists d, wl. by split_and!. }
  exists (add_function f d1), wl1. split; [done|]. pose proof (gr_functions _ _ _ _ _ _ _ G) as Fn.
  split; [|split; [|exact (gr_left _ _ _ _ _ _ _ G)]].
  2:{ constructor; [|apply (grows_later _ _ _ _ _ _ _ G)].
      intros fe H. simpl. rewrite Fn, lookup_insert_is_Some. destruct (decide (fn_entry_va f = fe)); auto. }
  destruct F. constructor; simpl; rewrite Fn, fm_entry0.
  - intros fe g Hg. destruct (decide (fe = entry)) as [->|Ne].
    + rewrite lookup_insert_eq in Hg. simplify_eq. split_and!; [done..|].
      intros b Hb. destruct (fm_block0 b Hb) as (?&?&?). split_and!; [done..|]. by exists d1.
    + rewrite lookup_insert_ne in Hg by done.
      destruct (co_function _ C fe g Hg) as (?&?&?&B). split_and!; [done..|].
      intros b Hb. destruct (B b Hb) as (?&Ho&d2&?&?).
      split_and!; [done|by apply (gr_kept _ _ _ _ _ _ _ G)|]. exists d2. split; [|done].
      destruct (grows_later _ _ _ _ _ _ _ G). set_solver.
  - intros va o [Ho|[-> _]]%(gr_new _ _ _ _ _ _ _ G).
    + destruct (decide (o = entry)) as [->|]; [by rewrite lookup_insert_eq|].
      rewrite lookup_insert_ne by done. by apply (co_owner _ C va).
    + by rewrite lookup_insert_eq.
Qed.

Lemma discover_function_swept entry d wl d' wl' :
  progresses ci → swept d (entry :: wl) → functions d !! entry = None →
  discover_function ci space hard entry d wl = Some (d', wl') → swept d' wl'.
Proof.
  intros P S N E'. pose proof (swept_core _ _ S) as C.
  destruct (discover_function_ok entry d wl P (not_owner _ _ C N))
    as [(o & _ & Ho & E)|(Ho & d1 & wl1 & f & E & G & He & F)]; rewrite E in E'; simplify_eq.
  { destruct S as [Sf So Se Sh St]. constructor; try done.
    intros va Hva. destruct (Se va Hva) as [[->|?]%elem_of_cons|?]; eauto. }
  pose proof (gr_functions _ _ _ _ _ _ _ G) as Fn. pose proof (grows_later _ _ _ _ _ _ _ G) as L.
  destruct (gr_worklist _ _ _ _ _ _ _ G) as (l & El & Ef).
  constructor; cbn [add_function functions block_owners function_entries];
    rewrite ?Fn, ?(fm_entry _ _ _ F).
  - intros fe g Hg. destruct (decide (fe = entry)) as [->|Ne].
    + rewrite lookup_insert_eq in Hg. simplify_eq. split; [|done].
      by apply (function_made_later entry d1).
    + rewrite lookup_insert_ne in Hg by done. destruct (sw_function _ _ S fe g Hg) as [Fg Hs].
      split; [|by apply (lt_kept _ _ L)]. apply (function_made_later fe d); [|
        |done].
      * constructor; [apply (lt_kept _ _ L)|apply (lt_entries _ _ L)].
      * by intros va [Hv|[-> _]]%(gr_new _ _ _ _ _ _ _ G).
  - intros va o [Hv|[-> _]]%(gr_new _ _ _ _ _ _ _ G); [|by rewrite lookup_insert_eq].
    destruct (decide (o = entry)) as [->|]; [by rewrite lookup_insert_eq|].
    rewrite lookup_insert_ne by done. by apply (sw_owner _ _ S va).
  - rewrite Ef, El. intros va [Hv|Hv]%elem_of_union.
    + destruct (sw_entries _ _ S va Hv) as [[->|?]%elem_of_cons|[?|[o ?]]].
      * right; right. eauto.
      * left. apply elem_of_app. by left.
      * auto.
      * right; right. exists o. by apply (lt_kept _ _ L).
    + left. apply elem_of_app. right. by apply elem_of_list_to_set in Hv.
  - intros va o [Hv|[-> M]]%(gr_new _ _ _ _ _ _ _ G) Hh; [by apply (sw_hard _ _ S)|].
    destruct (M (sw_trusted _ _ S)) as [->|[?|?]]; auto. done.
  - rewrite Ef. pose proof (sw_trusted _ _ S). set_solver.
Qed.

(** ** The worklist *)

(** The loop ends; it keeps the invariants. *)
Lemma run_loop_ok fuel d wl :
  progresses ci → core d → unseen ci d + length wl < fuel →
  ∃ d', run_loop ci space hard fuel d wl = Some d' ∧ core d' ∧ keeps d d' ∧
    (swept d wl → swept d' []).
Proof.
  intros P. revert d wl. induction fuel as [|fuel IH]; intros d wl C L; [lia|].
  cbn [run_loop]. destruct wl as [|entry wl]; [exists d; by split_and!|]. simpl in L.
  assert (is_executable_va space entry = false ∨ is_Some (block_owners d !! entry) →
    swept d (entry :: wl) → swept d wl) as Skip.
  { intros H [Sf So Se Sh St]. constructor; try done.
    intros va Hva. destruct (Se va Hva) as [[->|?]%elem_of_cons|?]; auto. }
  destruct (decide (is_Some (functions d !! entry))) as [[f Hf]|Hn].
  { destruct (IH d wl C) as (d' & E & C' & K & S'); [lia|]. exists d'. split_and!; [done..|].
    intros S. apply S', Skip; [|done]. right. destruct (sw_function _ _ S _ _ Hf). eauto. }
  apply eq_None_not_Some in Hn. destruct (is_executable_va space entry) eqn:X; simpl.
  2:{ destruct (IH d wl C) as (d' & E & C' & K & S'); [lia|]. exists d'. split_and!; [done..|].
      intros S. apply S', Skip; [by left|done]. }
  destruct (discover_function_core entry d wl P C Hn) as (d1 & wl1 & E & C1 & K1 & L1).
  rewrite E. simpl. destruct (IH d1 wl1 C1) as (d' & E' & C' & K & S'); [lia|].
  exists d'. split_and!; [done..| |].
  - by eapply keeps_trans.
  - intros S. apply S'. by eapply discover_function_swept.
Qed.

Lemma run_ok d wl :
  progresses ci → core d →
  ∃ d', run ci space hard wl d = Some d' ∧ core d' ∧ keeps d d' ∧ (swept d wl → swept d' []).
Proof.
  intros P C. apply run_loop_ok; [done..|].
  pose proof (count_length (λ va, va ∉ function_entries d) (call_targets ci)) as L.
  unfold unseen. unfold call_targets in *. rewrite length_fmap in L. lia.
Qed.

(** ** The two sweeps after it *)

Lemma insert_entries_ok cs d d' wl :
  insert_entries cs d = (d', wl) →
  block_owners d' = block_owners d ∧ functions d' = functions d ∧
  function_entries d' = function_entries d ∪ list_to_set cs ∧
  ∀ va, va ∈ function_entries d' → va ∈ function_entries d ∨ va ∈ wl.
Proof.
  unfold insert_entries.
  enough (∀ d0 wl0, (∀ va, va ∈ function_entries d0 → va ∈ function_entries d ∨ va ∈ wl0) →
    foldl (λ '(d, worklist) va, if decide (va ∈ function_entries d) then (d, worklist)
      else (add_entry va d, worklist ++ [va])) (d0, wl0) cs = (d', wl) →
    block_owners d' = block_owners d0 ∧ functions d' = functions d0 ∧
    function_entries d' = function_entries d0 ∪ list_to_set cs ∧
    ∀ va, va ∈ function_entries d' → va ∈ function_entries d ∨ va ∈ wl) as H
    by (intros E; apply H in E; [done|auto]).
  induction cs as [|c cs IH]; intros d0 wl0 I E; simpl in E.
  { simplify_eq. split_and!; [done..|set_solver|done]. }
  case_decide as D; apply IH in E as (-> & -> & Ee & I').
  - rewrite Ee. split_and!; [done..|set_solver|set_solver].
  - done.
  - rewrite Ee. simpl in *. split_and!; [done..|set_solver|set_solver].
  - simpl. set_solver.
Qed.

Lemma insert_entries_core cs d d' wl : insert_entries cs d = (d', wl) → core d → core d'.
Proof.
  intros (Eo & Ef & Ee & _)%insert_entries_ok [Cf Co]. constructor; rewrite ?Eo, ?Ef; [|done].
  intros fe f Hf. destruct (Cf fe f Hf) as (?&?&?&B). split_and!; [done..|].
  intros b Hb. destruct (B b Hb) as (?&?&d1&?&?).
  split_and!; [done..|]. exists d1. split; [set_solver|done].
Qed.
Lemma insert_entries_swept cs d d' wl : insert_entries cs d = (d', wl) → swept d [] → swept d' wl.
Proof.
  intros (Eo & Ef & Ee & I)%insert_entries_ok [Sf So Se Sh St].
  assert (later d d') as L by (constructor; [by rewrite Eo|set_solver]).
  constructor; rewrite ?Eo, ?Ef; try done; [| |set_solver].
  - intros fe f Hf. destruct (Sf fe f Hf). split; [|done].
    apply (function_made_later fe d); [done|by rewrite Eo|done].
  - intros va [Hv|?]%I; [|by left]. destruct (Se va Hv) as [H|H]; [by apply not_elem_of_nil in H|by right].
Qed.

Lemma seed_int3_ok d :
  progresses ci → core d →
  ∃ d', seed_int3_gap_leaves ci space hard d = Some d' ∧ core d' ∧ keeps d d' ∧
    (swept d [] → swept d' []).
Proof.
  intros P C. unfold seed_int3_gap_leaves.
  destruct (int3_candidates ci space d) as [|c cs]; [exists d; by split_and!|].
  destruct (insert_entries (c :: cs) d) as [d1 wl] eqn:E.
  destruct (run_ok d1 wl P (insert_entries_core _ _ _ _ E C)) as (d' & R & C' & K & S).
  exists d'. split_and!; [done..| |].
  - apply insert_entries_ok in E as (_ & Ef & Ee & _). eapply keeps_trans; [|exact K].
    constructor; [by rewrite Ef|set_solver].
  - intros H. by apply S, (insert_entries_swept (c :: cs) d).
Qed.

Lemma carve_ok d entry : core d → core (carve d entry) ∧ keeps d (carve d entry).
Proof.
  intros [Cf Co]. unfold carve. case_decide; [by split|].
  destruct (block_owners d !! entry) as [o|]; [|by split]. destruct (o =? entry)%Z; [by split|].
  split.
  - constructor; simpl.
    + intros fe f Hf. destruct (decide (fe = o)) as [->|N].
      * rewrite lookup_alter_eq in Hf. apply fmap_Some in Hf as (f0 & Hf & ->).
        destruct (Cf o f0 Hf) as (?&?&?&B). simpl. split_and!; [done..|by apply sorted_filter|].
        intros b [L Hb]%list_elem_of_filter. destruct (B b Hb) as (?&?&?).
        split_and!; [done| |done]. apply map_lookup_filter_Some. split; [done|]. lia.
      * rewrite lookup_alter_ne in Hf by done. destruct (Cf fe f Hf) as (?&?&?&B).
        split_and!; [done..|]. intros b Hb. destruct (B b Hb) as (?&?&?).
        split_and!; [done| |done]. apply map_lookup_filter_Some. split; [done|]. intros [? _]. done.
    + intros va q [Hq _]%map_lookup_filter_Some. apply Co in Hq as [f Hf].
      destruct (decide (q = o)) as [->|]; [rewrite lookup_alter_eq, Hf; eauto|].
      rewrite lookup_alter_ne by done. eauto.
  - constructor; [|done]. intros fe [f Hf]. simpl. destruct (decide (fe = o)) as [->|].
    + rewrite lookup_alter_eq, Hf. eauto.
    + rewrite lookup_alter_ne by done. eauto.
Qed.
Lemma carve_all_ok cs d : core d → core (foldl carve d cs) ∧ keeps d (foldl carve d cs).
Proof.
  revert d. induction cs as [|c cs IH]; intros d C; simpl; [by split|].
  destruct (carve_ok d c C) as [C1 K1]. destruct (IH _ C1) as [C2 K2]. split; [done|].
  by eapply keeps_trans.
Qed.

Lemma seed_av_ok d :
  progresses ci → core d →
  ∃ d', seed_access_violation_filter_leaves ci space hard d = Some d' ∧ core d' ∧ keeps d d'.
Proof.
  intros P C. unfold seed_access_violation_filter_leaves.
  destruct (av_candidates ci space) as [|c cs]; [exists d; by split_and!|].
  destruct (carve_all_ok (c :: cs) d C) as [C1 K1].
  destruct (insert_entries (c :: cs) _) as [d1 wl] eqn:E.
  destruct (run_ok d1 wl P (insert_entries_core _ _ _ _ E C1)) as (d' & R & C' & K & _).
  exists d'. split_and!; [done..|]. apply insert_entries_ok in E as (_ & Ef & Ee & _).
  eapply keeps_trans; [exact K1|]. eapply keeps_trans; [|exact K].
  constructor; [by rewrite Ef|set_solver].
Qed.
End run.
