(* ===== verification/Callees.v ===== *)
(** Who refers to whom: the cross-reference index of [src/analysis/xrefs.rs] and
    the callees [src/llm/query.rs] reports. What an instruction does with memory
    is answered by a library, [MemoryUse]. *)

From Stdlib Require Import Strings.String.
From S2P Require Import Prelude Data Ops Journal Activity Loader CodeIndex.
Import AddressSpace Symbols.
Local Open Scope string_scope.

(** ** Cross references *)

Inductive XrefKind := Call | JumpUnconditional | JumpTaken | DataRead | DataWrite | Indirect.
#[global] Instance XrefKind_eq_dec : EqDecision XrefKind.
Proof. solve_decision. Defined.

Record Xref := mkXref { from_va : Z; to_va : Z; x_kind : XrefKind }.
#[global] Instance Xref_eq_dec : EqDecision Xref.
Proof. solve_decision. Defined.

Record XrefIndex := mkXrefs { to : gmap Z (list Xref); from : gmap Z (list Xref) }.

(** [XrefIndex::add]: pushed at the end of both lists. *)
Definition add (x : Xref) (idx : XrefIndex) : XrefIndex :=
  mkXrefs (<[to_va x := (default [] (to idx !! to_va x) ++ [x])%list]> (to idx))
    (<[from_va x := (default [] (from idx !! from_va x) ++ [x])%list]> (from idx)).

(** The reference an instruction makes. *)
Definition branch_xref (dec : DecodedInstr) : option Xref :=
  kind ← match flow_control (instr dec) with
         | FlowControl.Call => Some Call
         | FlowControl.UnconditionalBranch => Some JumpUnconditional
         | FlowControl.ConditionalBranch => Some JumpTaken
         | _ => None
         end;
  let target := near_branch_target (instr dec) in
  if (target =? 0)%Z then None else Some (mkXref (ip dec) target kind).

(** [XrefIndex::build_code] *)
Definition build_code (code_index : CodeIndex) : XrefIndex :=
  foldl (λ idx dec, match branch_xref dec with Some x => add x idx | None => idx end)
    (mkXrefs ∅ ∅) code_index.

(** ** References to data *)

(** What the decoder's library says of a place in memory an instruction uses:
    base and index register, displacement, and how it is accessed. *)
Inductive Register := NoRegister | RIP | EIP | RBP | EBP | RSP | ESP | OtherRegister.
#[global] Instance Register_eq_dec : EqDecision Register.
Proof. solve_decision. Defined.
Module OpAccess.
Inductive OpAccess :=
  | NoAccess | Read | CondRead | Write | CondWrite | ReadWrite | ReadCondWrite | NoMemAccess.
#[global] Instance OpAccess_eq_dec : EqDecision OpAccess.
Proof. solve_decision. Defined.
End OpAccess.
Record UsedMemory := mkUsed { um_base : Register; um_index : Register; um_displacement : Z; um_access : OpAccess.OpAccess }.
Class MemoryUse := { used_memory : Instruction → list UsedMemory }.

(** [as i32 as i64] *)
Definition as_i32 (z : Z) : Z := ((z + 2 ^ 31) mod 2 ^ 32 - 2 ^ 31)%Z.
(** [Instruction::next_ip], which wraps around. *)
Definition instr_next_ip (i : Instruction) : Z := ins_ip i +wrap Z.of_nat (ins_len i).

(** [has_memory_operand] *)
Definition has_memory_operand (i : Instruction) : bool :=
  existsb (λ o, bool_decide (o.1 = MemoryOperand)) (operands i).
(** [is_write_access] *)
Definition is_write_access (access : OpAccess.OpAccess) : bool :=
  match access with
  | OpAccess.Write | OpAccess.CondWrite | OpAccess.ReadWrite | OpAccess.ReadCondWrite => true
  | _ => false
  end.
(** [used_memory_target_va] *)
Definition used_memory_target_va (i : Instruction) (um : UsedMemory) (bitness : Z) : option Z :=
  if decide (um_base um = RIP ∧ um_index um = NoRegister ∧ bitness = 64%Z)
  then Some (instr_next_ip i +wrap as_i32 (um_displacement um))
  else if decide (um_base um = NoRegister ∧ um_index um = NoRegister)
  then Some (um_displacement um)
  else None.

Section build.
Context `{!MemoryUse}.
Variable a : AddressSpace.
Variable bitness : Z.

(** One round of the loop of [add_memory_xrefs]. *)
Definition memory_xref (dec : DecodedInstr) (um : UsedMemory) : option Xref :=
  target ← used_memory_target_va (instr dec) um bitness;
  if (target =? 0)%Z || negb (is_valid_va a target) then None
  else Some (mkXref (ip dec) target (if is_write_access (um_access um) then DataWrite else DataRead)).
Definition memory_xrefs (dec : DecodedInstr) : list Xref :=
  if has_memory_operand (instr dec) then omap (memory_xref dec) (used_memory (instr dec)) else [].
(** [add_memory_xrefs] *)
Definition add_memory_xrefs (dec : DecodedInstr) (idx : XrefIndex) : XrefIndex :=
  foldl (λ idx x, add x idx) idx (memory_xrefs dec).

(** One round of the loop of [add_immediate_xrefs]. *)
Definition immediate_xref (dec : DecodedInstr) (o : OpKind * Z) : option Xref :=
  if bool_decide (o.1 = Immediate64) && negb (o.2 =? 0)%Z && is_valid_va a o.2
  then Some (mkXref (ip dec) o.2 DataRead) else None.
Definition immediate_xrefs (dec : DecodedInstr) : list Xref :=
  if (bitness =? 64)%Z then omap (immediate_xref dec) (operands (instr dec)) else [].
(** [add_immediate_xrefs] *)
Definition add_immediate_xrefs (dec : DecodedInstr) (idx : XrefIndex) : XrefIndex :=
  foldl (λ idx x, add x idx) idx (immediate_xrefs dec).

(** [XrefIndex::build] *)
Definition build_xrefs (code_index : CodeIndex) : XrefIndex :=
  foldl (λ idx dec, add_immediate_xrefs dec (add_memory_xrefs dec idx)) (build_code code_index) code_index.
End build.

(** [XrefIndex::to], [XrefIndex::from] *)
Definition xrefs_to (idx : XrefIndex) (va : Z) : list Xref := default [] (to idx !! va).
Definition xrefs_from (idx : XrefIndex) (va : Z) : list Xref := default [] (from idx !! va).

(** ** Callees *)

(** [format!("FUN_{va:08x}")] *)
Fixpoint zeros (n : nat) : string := match n with 0 => "" | S n => "0" +:+ zeros n end.
Definition hex8 (va : Z) : string := zeros (8 - String.length (hex va)) +:+ hex va.
Definition symbol_or_hex (symbols : gmap Z Symbol) (va : Z) : string :=
  default ("FUN_" +:+ hex8 va) (Symbols.name symbols va).

(** [Vec::dedup_by] on the first component. *)
Fixpoint dedup_from (va : Z) (l : list (Z * string)) : list (Z * string) :=
  match l with
  | [] => []
  | x :: l => if (x.1 =? va)%Z then dedup_from va l else x :: dedup_from x.1 l
  end.
Definition dedup_by (l : list (Z * string)) : list (Z * string) :=
  match l with [] => [] | x :: l => x :: dedup_from x.1 l end.

Definition MAX_LIST : nat := 32.

Definition call_edge (symbols : gmap Z Symbol) (e : Functions.Edge) : option (Z * string) :=
  if bool_decide (Functions.eg_kind e = Functions.Call) && negb (Functions.eg_target e =? 0)%Z
  then Some (Functions.eg_target e, symbol_or_hex symbols (Functions.eg_target e)) else None.

Definition function_callees (project : Project) (va : Z) : list (Z * string) :=
  match function_at project va with
  | None => []
  | Some func =>
      take MAX_LIST
        (dedup_by (concat (map (λ b, omap (call_edge (symbols project)) (Functions.bb_successors b))
                              (Functions.fn_blocks func))))
  end.

(** ** Facts *)

Local Close Scope string_scope.

(** Adding references one after the other. *)
Definition add_all (l : list Xref) (idx : XrefIndex) : XrefIndex := foldl (λ idx x, add x idx) idx l.

Lemma xrefs_add x idx va :
  xrefs_to (add x idx) va = xrefs_to idx va ++ filter (λ x, to_va x = va) [x] ∧
  xrefs_from (add x idx) va = xrefs_from idx va ++ filter (λ x, from_va x = va) [x].
Proof.
  unfold xrefs_to, xrefs_from, add. cbn [to from]. rewrite !filter_cons, !filter_nil.
  split; case_decide as E; subst.
  1,3: by rewrite lookup_insert_eq.
  all: by rewrite lookup_insert_ne, app_nil_r.
Qed.

Lemma xrefs_add_all l idx va :
  xrefs_to (add_all l idx) va = xrefs_to idx va ++ filter (λ x, to_va x = va) l ∧
  xrefs_from (add_all l idx) va = xrefs_from idx va ++ filter (λ x, from_va x = va) l.
Proof.
  revert idx. induction l as [|x l IH]; intros idx.
  - by rewrite !filter_nil, !app_nil_r.
  - change (add_all (x :: l) idx) with (add_all l (add x idx)).
    destruct (IH (add x idx)) as [-> ->], (xrefs_add x idx va) as [-> ->].
    by rewrite <-!app_assoc, <-!filter_app.
Qed.

Lemma build_code_all ci : build_code ci = add_all (omap branch_xref ci) (mkXrefs ∅ ∅).
Proof.
  unfold build_code, add_all. generalize (mkXrefs ∅ ∅). induction ci as [|d ci IH]; intros idx; [done|].
  cbn [foldl omap list_omap]. destruct (branch_xref d); apply IH.
Qed.

(** The references of an index are those of its instructions, in order. *)
Lemma build_code_to ci va :
  xrefs_to (build_code ci) va = filter (λ x, to_va x = va) (omap branch_xref ci) ∧
  xrefs_from (build_code ci) va = filter (λ x, from_va x = va) (omap branch_xref ci).
Proof. rewrite build_code_all. apply xrefs_add_all. Qed.

Section build_facts.
Context `{MU : !MemoryUse}.
Variable a : AddressSpace.
Variable bitness : Z.

(** The references of an instruction to data. *)
Definition data_xrefs (dec : DecodedInstr) : list Xref :=
  memory_xrefs a bitness dec ++ immediate_xrefs a bitness dec.
(** All references of an index: branches first, then data, by instruction. *)
Definition all_xrefs (ci : CodeIndex) : list Xref := omap branch_xref ci ++ concat (map data_xrefs ci).

Lemma build_xrefs_all ci : build_xrefs a bitness ci = add_all (all_xrefs ci) (mkXrefs ∅ ∅).
Proof.
  unfold build_xrefs, all_xrefs. rewrite build_code_all.
  generalize (mkXrefs ∅ ∅), (omap branch_xref ci). intros idx l. unfold add_all. rewrite foldl_app.
  generalize (foldl (λ idx x, add x idx) idx l). clear idx l.
  induction ci as [|d ci IH]; intros idx; [done|]. cbn [foldl map concat]. rewrite IH, foldl_app.
  unfold data_xrefs. by rewrite foldl_app.
Qed.

(** The index holds the references of its instructions, each under its target
    and under its origin, in order: branches first, then data. *)
Theorem build_xrefs_exact ci va :
  xrefs_to (build_xrefs a bitness ci) va = filter (λ x, to_va x = va) (all_xrefs ci) ∧
  xrefs_from (build_xrefs a bitness ci) va = filter (λ x, from_va x = va) (all_xrefs ci).
Proof. rewrite build_xrefs_all. apply xrefs_add_all. Qed.

(** The two tables hold the same references. *)
Corollary xrefs_mutual ci x :
  x ∈ xrefs_to (build_xrefs a bitness ci) (to_va x) ↔ x ∈ xrefs_from (build_xrefs a bitness ci) (from_va x).
Proof.
  destruct (build_xrefs_exact ci (to_va x)) as [-> _], (build_xrefs_exact ci (from_va x)) as [_ ->].
  rewrite !list_elem_of_filter. naive_solver.
Qed.

Lemma data_xref_ok dec x :
  x ∈ data_xrefs dec →
  from_va x = ip dec ∧ to_va x ≠ 0%Z ∧ is_valid_va a (to_va x) = true ∧ (x_kind x = DataRead ∨ x_kind x = DataWrite).
Proof.
  unfold data_xrefs, memory_xrefs, immediate_xrefs. intros [H|H]%elem_of_app.
  - destruct (has_memory_operand _); [|by apply not_elem_of_nil in H].
    apply list_elem_of_omap in H as (um & _ & Hm). unfold memory_xref in Hm.
    destruct (used_memory_target_va _ _ _) as [t|]; [|done]. cbn [mbind option_bind] in Hm.
    destruct (Z.eqb_spec t 0); [done|]. destruct (is_valid_va a t) eqn:V; simplify_eq/=.
    split_and!; [done..|]. case_match; auto.
  - destruct (bitness =? 64)%Z; [|by apply not_elem_of_nil in H].
    apply list_elem_of_omap in H as (o & _ & Ho). unfold immediate_xref in Ho.
    destruct (_ && _) eqn:E; simplify_eq/=.
    apply andb_true_iff in E as [[_ N%negb_true_iff%Z.eqb_neq]%andb_true_iff V]. auto.
Qed.

(** A reference to data comes from an instruction of the index and leads to a
    mapped address. *)
Theorem data_refs_mapped ci va x :
  x ∈ xrefs_to (build_xrefs a bitness ci) va → x_kind x = DataRead ∨ x_kind x = DataWrite →
  to_va x = va ∧ va ≠ 0%Z ∧ is_valid_va a va = true ∧ ∃ dec, dec ∈ ci ∧ ip dec = from_va x ∧ x ∈ data_xrefs dec.
Proof.
  rewrite (proj1 (build_xrefs_exact ci va)), list_elem_of_filter. intros [<- H] K.
  apply elem_of_app in H as [(d & _ & Hd)%list_elem_of_omap|Hc].
  { exfalso. revert Hd. unfold branch_xref. destruct (flow_control _); simpl; try done; case_match; intros; simplify_eq/=; naive_solver. }
  apply list_elem_of_In, in_concat in Hc as (l & Hl & Hx). apply in_map_iff in Hl as (d & <- & Hd).
  apply list_elem_of_In in Hd, Hx. destruct (data_xref_ok d x Hx) as (F & N & V & _).
  split_and!; [done..|]. by exists d.
Qed.
End build_facts.

Lemma dedup_from_sub va l x : x ∈ dedup_from va l → x ∈ l.
Proof.
  revert va. induction l as [|y l IH]; intros va; simpl; [done|].
  destruct (y.1 =? va)%Z; [intros H; right; by eapply IH|].
  intros [->|H]%elem_of_cons; [by left|right; by eapply IH].
Qed.
(** A callee reported is the target of a call edge. *)
Lemma callee_edge project va x name :
  (x, name) ∈ function_callees project va →
  ∃ f b e, function_at project va = Some f ∧ b ∈ Functions.fn_blocks f ∧
    e ∈ Functions.bb_successors b ∧ Functions.eg_kind e = Functions.Call ∧
    Functions.eg_target e = x ∧ x ≠ 0%Z.
Proof.
  unfold function_callees. destruct (function_at project va) as [f|]; [|by intros ?%not_elem_of_nil].
  intros H%elem_of_take. destruct H as (i & H & _). apply list_elem_of_lookup_2 in H.
  assert ((x, name) ∈ concat (map (λ b, omap (call_edge (symbols project)) (Functions.bb_successors b))
    (Functions.fn_blocks f))) as Hc.
  { destruct (concat _) as [|y l]; [by apply not_elem_of_nil in H|]. simpl in H.
    apply elem_of_cons in H as [->|H%dedup_from_sub]; [by left|by right]. }
  apply list_elem_of_In, in_concat in Hc as (l & Hl & Hx). apply in_map_iff in Hl as (b & <- & Hb).
  apply list_elem_of_In, list_elem_of_omap in Hx as (e & He & Ec). apply list_elem_of_In in Hb.
  unfold call_edge in Ec. destruct (_ && _) eqn:E; [|done]. simplify_eq.
  apply andb_true_iff in E as [K%bool_decide_eq_true N%negb_true_iff%Z.eqb_neq].
  exists f, b, e. by split_and!.
Qed.
