(* ===== verification/DiscoveryCorrect.v ===== *)
(** What function discovery finds, of Discovery and Callees: the theorems, and
    the images on which it loses code. *)

From Stdlib Require Import Strings.Byte Strings.String.
From S2P Require Import Prelude Data Ops Journal Persist Samples Loader FlowGraph CodeIndex CodeIndexFacts Discovery DiscoveryFacts Callees.
Import AddressSpace Functions.

(** ** The statements *)

Section statements.
Context (ci : CodeIndex) (space : AddressSpace) (hard : gset Z).

(** The edge of function [fe] for a continuation: to a lower address it is a
    tail call whatever it was, and it may be one to a known entry. *)
Definition edge_faithful (fe : Z) (entries : gset Z) (c : Z * EdgeKind) (e : Edge) : Prop :=
  eg_target e = c.1 ∧
  (eg_kind e = (if bool_decide (c.1 ≠ 0 ∧ c.1 < fe)%Z then TailCall else c.2) ∨
   eg_kind e = TailCall ∧ intra c.2 ∧ c.1 ≠ fe ∧ (c.1 ∈ hard ∨ c.1 ∈ entries)).

(** A block that stops before [v]: nothing, or one edge to it. *)
Definition falls_to (fe : Z) (v : Z) (es : list Edge) : Prop :=
  es = [] ∨ es = [mkEdge v Fallthrough] ∧ (v = 0 ∨ fe ≤ v)%Z ∨
  es = [mkEdge v TailCall] ∧ ((v < fe)%Z ∨ v ≠ fe ∧ v ∈ hard).

(** A block is a run of instructions of the index, ended by the first that does
    not fall through, and its edges are where that one goes. *)
Definition block_faithful (fe : Z) (entries : gset Z) (b : BasicBlock) : Prop :=
  ∃ ds, linear ci (bb_entry_va b) ds ∧ bb_exit_va b = last_ip (bb_entry_va b) ds ∧
    bb_instr_count b = length ds ∧
    (∀ x, x ∈ ds → ip x ≠ bb_entry_va b → ip x ∈ hard → ip x = fe) ∧
    match last ds with
    | None => falls_to fe (bb_entry_va b) (bb_successors b)
    | Some x =>
        if decide (flow_control (instr x) = FlowControl.Next)
        then falls_to fe (next_ip x) (bb_successors b)
        else Forall2 (edge_faithful fe entries) (continuations space x) (bb_successors b)
    end.

Lemma rewrite_falls fe d v es :
  stops ci hard fe d v es → falls_to fe v (map (rewrite_edge fe) es).
Proof.
  unfold stops, falls_to, rewrite_edge. intros [(-> & _)|[(-> & _)|[(-> & N & H)| ->]]]; simpl.
  - by left.
  - by left.
  - right; right. destruct (_ && _); auto.
  - destruct (Z.eqb_spec v 0) as [->|]; simpl; [right; left; auto|].
    destruct (Z.ltb_spec v fe); [by right; right; auto|by right; left; auto].
Qed.
Lemma rewrite_faithful fe entries entries' c e :
  entries ⊆ entries' → edge_made hard fe entries c e →
  edge_faithful fe entries' c (rewrite_edge fe e).
Proof.
  intros S [E K]. unfold edge_faithful, rewrite_edge. rewrite E.
  destruct (Z.eqb_spec c.1 0) as [Z0|Z0]; simpl.
  { split; [done|]. rewrite bool_decide_false by tauto. destruct K as [|(_ & _ & ? & _)]; [by left|done]. }
  destruct (Z.ltb_spec c.1 fe).
  { split; [done|]. rewrite bool_decide_true by done. by left. }
  split; [done|]. rewrite bool_decide_false by lia.
  destruct K as [|(K & I & _ & N & H')]; [by left|]. right. split_and!; [done..|].
  destruct H' as [?|[?|?]]; [by left|right; by apply S|lia].
Qed.

Lemma made_faithful fe d b entries :
  function_entries d ⊆ entries → made ci space hard fe d b → block_faithful fe entries b.
Proof.
  intros S (es & (ds & L & Ex & N & H & Lv & _) & Es). exists ds. rewrite Es.
  split_and!; [done..|]. unfold leaves in Lv. destruct (last ds) as [x|]; [|by eapply rewrite_falls].
  case_decide; [by eapply rewrite_falls|]. apply Forall2_fmap_r.
  eapply Forall2_impl; [exact Lv|]. intros c e. by apply rewrite_faithful.
Qed.
End statements.

(** ** The whole discovery *)

(** Every instruction of the index is before the last address. *)
Lemma build_progresses (ci : CodeIndex) :
  wf_index ci → (∀ d, d ∈ ci → ip d ≠ u64_max) → progresses ci.
Proof.
  intros W N d Hd. pose proof (wi_len ci W d Hd). pose proof (wi_ip ci W d Hd).
  specialize (N d Hd). unfold is_u64 in *. split; [done|lia].
Qed.

Definition start_of (seeds : list Z) : Discovery := mkDiscovery (list_to_set seeds) ∅ ∅.

Lemma start_core ci space hard seeds : core ci space hard (start_of seeds).
Proof. constructor; simpl; intros ??; by rewrite lookup_empty. Qed.
Lemma start_swept ci space (hints seeds : list Z) :
  hints ⊆ seeds → swept ci space (list_to_set hints) (start_of seeds) seeds.
Proof.
  intros S. constructor; simpl; try (intros ??; by rewrite lookup_empty).
  - intros va Hva%elem_of_list_to_set. by left.
  - intros va. rewrite !elem_of_list_to_set. apply S.
Qed.

(** The three stages. *)
Lemma discover_ok ci space seeds hints :
  progresses ci →
  ∃ d1 d, discover ci space seeds hints = Some d ∧ core ci space (list_to_set hints) d ∧
    keeps (start_of seeds) d1 ∧ keeps d1 d ∧ (av_candidates ci space = [] → d1 = d) ∧
    (hints ⊆ seeds → swept ci space (list_to_set hints) d1 []).
Proof.
  intros P. unfold discover. fold (start_of seeds).
  destruct (run_ok ci space (list_to_set hints) (start_of seeds) seeds P (start_core _ _ _ _))
    as (d0 & -> & C0 & K0 & S0). cbn [mbind option_bind].
  destruct (seed_int3_ok ci space (list_to_set hints) d0 P C0) as (d1 & -> & C1 & K1 & S1).
  cbn [mbind option_bind].
  destruct (seed_av_ok ci space (list_to_set hints) d1 P C1) as (d & E & C & K).
  exists d1, d. split_and!; [done|done|by eapply keeps_trans|done|..].
  - intros A. unfold seed_access_violation_filter_leaves in E. rewrite A in E. congruence.
  - intros S. by apply S1, S0, start_swept.
Qed.

(** C9: discovery ends for every index whose instructions lie before the last
    address; each function it returns is keyed by its entry and lists blocks in
    strict address order from it; a block is a run of instructions of the index
    that stops at the first one that branches, calls or returns, never runs
    into a trusted entry of another function, and has the edges of its last
    instruction; no two functions have a block at the same address. *)
Theorem discovery_faithful ci space seeds hints :
  progresses ci →
  ∃ d, discover ci space seeds hints = Some d ∧
    ∀ fe f, functions d !! fe = Some f →
      fn_entry_va f = fe ∧ StronglySorted (key_lt bb_entry_va) (fn_blocks f) ∧
      ∀ b, b ∈ fn_blocks f →
        (fe ≤ bb_entry_va b)%Z ∧
        block_faithful ci space (list_to_set hints) fe (function_entries d) b ∧
        ∀ fe' f' b', functions d !! fe' = Some f' → b' ∈ fn_blocks f' →
          bb_entry_va b' = bb_entry_va b → fe' = fe.
Proof.
  intros P. destruct (discover_ok ci space seeds hints P) as (_ & d & E & C & _).
  exists d. split; [done|]. intros fe f Hf.
  destruct (co_function _ _ _ _ C fe f Hf) as (Ee & _ & S & B). split_and!; [done..|].
  intros b Hb. destruct (B b Hb) as (L & O & d1 & Se & M). split_and!; [done| |].
  - by apply (made_faithful ci space _ fe d1).
  - intros fe' f' b' Hf' Hb' Eb. destruct (co_function _ _ _ _ C fe' f' Hf') as (_ & _ & _ & B').
    destruct (B' b' Hb') as (_ & O' & _). rewrite Eb in O'. congruence.
Qed.

(** ** What is claimed *)

Section reached.
Context (ci : CodeIndex) (space : AddressSpace) (hard : gset Z).

(** Control flow of the instructions, within a function: to the next
    instruction, or where a branch or the instruction after a call continues. *)
Definition flow_step (va va' : Z) : Prop :=
  ∃ d, at_va ci va = Some d ∧
    (flow_control (instr d) = FlowControl.Next ∧ va' = next_ip d ∨
     ∃ k, (va', k) ∈ continuations space d ∧ intra k).
Definition reaches : Z → Z → Prop := rtc flow_step.

(** Whatever a function claims, control reaches from its entry. *)
Definition owners_reached (d : Discovery) : Prop :=
  ∀ va o, block_owners d !! va = Some o → reaches o va.
Definition work_reached (fe : Z) (w : Work) : Prop :=
  owners_reached (disc w) ∧ Forall (reaches fe) (block_queue w).

Lemma set_owner_reached va fe d : reaches fe va → owners_reached d → owners_reached (set_owner va fe d).
Proof.
  intros R O x o. cbn [set_owner block_owners].
  intros [[<- <-]|[_ H]]%lookup_insert_Some; [done|by apply O].
Qed.
Lemma claim_or_queue_reached va fe w :
  reaches fe va → work_reached fe w → work_reached fe (claim_or_queue_block va fe w).
Proof.
  intros R [O Q]. unfold claim_or_queue_block. case_decide; [|done].
  split; cbn; [by apply set_owner_reached|]. apply Forall_app. by repeat constructor.
Qed.
Lemma hard_edge_reached va fe k w w' es :
  (is_executable_target space va = true → reaches fe va) → work_reached fe w →
  hard_edge space hard va fe k w = (w', es) → work_reached fe w'.
Proof.
  intros R W. unfold hard_edge. destruct (is_executable_target _ _); [|by intros [= <- <-]].
  intros [= <- <-]. destruct (_ && _); [done|]. apply claim_or_queue_reached; auto.
Qed.
Lemma queue_function_reached va fe w : work_reached fe w → work_reached fe (queue_function va w).
Proof. intros [O Q]. unfold queue_function. case_decide; by split. Qed.

Lemma continues d va va' fe k :
  reaches fe va → at_va ci va = Some d → (va', k) ∈ continuations space d → intra k → reaches fe va'.
Proof. intros R A C I. eapply rtc_r; [exact R|]. exists d. eauto. Qed.

Lemma end_of_block_reached d va fe w w' es :
  reaches fe va → at_va ci va = Some d → work_reached fe w →
  end_of_block space hard d fe w = Some (w', es) → work_reached fe w'.
Proof.
  intros R A W. pose proof (λ va' k, continues d va va' fe k R A) as C.
  unfold end_of_block, continuations in *.
  destruct (flow_control (instr d)); try done; try (by intros [= <- <-]).
  - destruct (is_executable_target _ _) eqn:X; [|by intros [= <- <-]].
    destruct (_ || _); intros [= <- <-]; [done|]. apply claim_or_queue_reached; [|done].
    apply (C _ Unconditional); [|right; by left].
    unfold executable_edges. apply list_elem_of_filter. split; [done|by left].
  - destruct (hard_edge _ _ (next_ip d) _ _ _) as [w1 e1] eqn:E1.
    destruct (hard_edge _ _ (near_branch_target _) _ _ _) as [w2 e2] eqn:E2.
    intros [= <- <-]. eapply hard_edge_reached; [|eapply hard_edge_reached; [|exact W|exact E1]|exact E2];
      intros X; [apply (C _ Conditional)|apply (C _ Fallthrough)]; unfold intra; auto;
      unfold executable_edges; apply list_elem_of_filter; (split; [done|set_solver]).
  - destruct (hard_edge _ _ (next_ip d) _ _ _) as [w1 e1] eqn:E1.
    assert (work_reached fe w1) as W1.
    { eapply hard_edge_reached; [|exact W|exact E1]. intros X. apply (C _ Fallthrough); [|by left].
      unfold executable_edges. apply list_elem_of_filter. split; [done|set_solver]. }
    destruct (is_executable_target _ _); intros [= <- <-]; [|done]. by apply queue_function_reached.
  - destruct (is_executable_target _ _) eqn:X; intros [= <- <-]; [|done].
    apply claim_or_queue_reached; [|done]. apply (C _ Fallthrough); [|by left].
    apply elem_of_app. left. unfold executable_edges. apply list_elem_of_filter. split; [done|set_solver].
Qed.

Lemma decode_walk_reached fuel start fe blocks va exit_va n w w' x m es :
  reaches fe va → work_reached fe w →
  decode_walk ci space hard fuel start fe blocks va exit_va n w = Some (w', x, m, es) → work_reached fe w'.
Proof.
  revert va exit_va n w. induction fuel as [|fuel IH]; intros va exit_va n w R W; [done|].
  cbn [decode_walk]. destruct (at_va ci va) as [d|] eqn:A; [|by intros [= <- <- <- <-]].
  destruct (_ && _ && _); [by intros [= <- <- <- <-]|].
  destruct (is_owned_by_other _ _ _); [by intros [= <- <- <- <-]|].
  destruct (_ && _); [by intros [= <- <- <- <-]|].
  destruct (end_of_block _ _ _ _ _) as [[w1 e1]|] eqn:E.
  - intros [= <- <- <- <-]. by eapply end_of_block_reached.
  - apply IH; [|done]. eapply rtc_r; [exact R|]. exists d. split; [done|left]. split; [|done].
    unfold end_of_block in E. by destruct (flow_control (instr d)).
Qed.

Lemma block_loop_reached fuel fe blocks w w' blocks' :
  work_reached fe w → block_loop ci space hard fuel fe blocks w = Some (w', blocks') → work_reached fe w'.
Proof.
  revert blocks w. induction fuel as [|fuel IH]; intros blocks w W; [done|]. cbn [block_loop].
  destruct W as [O Q]. destruct (block_queue w) as [|start queue] eqn:Eq.
  { intros [= <- <-]. split; [done|by rewrite Eq]. }
  apply Forall_cons in Q as [R Q]. case_decide; [by apply IH|].
  unfold claim. cbn [disc]. destruct (block_owners (disc w) !! start) as [o|] eqn:Eo.
  - destruct (o =? fe)%Z; [|by apply IH]. unfold decode_block.
    destruct (decode_walk _ _ _ _ _ _ _ _ _ _ _) as [[[[w1 x] m] es]|] eqn:E; [|done].
    cbn [mbind option_bind]. apply IH. eapply decode_walk_reached; [exact R| |exact E]. by split.
  - unfold decode_block.
    destruct (decode_walk _ _ _ _ _ _ _ _ _ _ _) as [[[[w1 x] m] es]|] eqn:E; [|done].
    cbn [mbind option_bind]. apply IH. eapply decode_walk_reached; [exact R| |exact E].
    split; [by apply set_owner_reached|done].
Qed.

Lemma discover_function_reached entry d wl d' wl' :
  owners_reached d → discover_function ci space hard entry d wl = Some (d', wl') → owners_reached d'.
Proof.
  intros O. unfold discover_function.
  destruct (claim entry entry d) as [d0|] eqn:Ec; [|by intros [= <- <-]].
  assert (owners_reached d0) as O0.
  { unfold claim in Ec. destruct (block_owners d !! entry) as [o|].
    - destruct (o =? entry)%Z; [|done]. by injection Ec as <-.
    - injection Ec as <-. by apply set_owner_reached; [apply rtc_refl|]. }
  destruct (block_loop _ _ _ _ _ _ _) as [[w blocks]|] eqn:E; [|done]. cbn [mbind option_bind].
  destruct (compute_predecessors _) as [f|]; [|done]. intros [= <- <-].
  apply block_loop_reached in E as [O' _]; [exact O'|]. split; [done|]. repeat constructor.
Qed.

Lemma run_loop_reached fuel d wl d' :
  owners_reached d → run_loop ci space hard fuel d wl = Some d' → owners_reached d'.
Proof.
  revert d wl. induction fuel as [|fuel IH]; intros d wl O; [done|]. cbn [run_loop].
  destruct wl as [|entry wl]; [by intros [= <-]|]. case_decide; [by apply IH|].
  destruct (negb _); [by apply IH|].
  destruct (discover_function _ _ _ _ _ _) as [[d1 wl1]|] eqn:E; [|done]. cbn [mbind option_bind].
  apply IH. by eapply discover_function_reached.
Qed.

Lemma insert_run_reached cs d d' :
  owners_reached d → (let '(d, wl) := insert_entries cs d in run ci space hard wl d) = Some d' →
  owners_reached d'.
Proof.
  intros O. destruct (insert_entries cs d) as [d1 wl] eqn:E.
  apply insert_entries_ok in E as (Eo & _). apply run_loop_reached.
  intros va o. rewrite Eo. apply O.
Qed.

Lemma carve_reached cs d : owners_reached d → owners_reached (foldl carve d cs).
Proof.
  revert d. induction cs as [|c cs IH]; intros d O; [done|]. cbn [foldl]. apply IH.
  unfold carve. case_decide; [done|]. destruct (block_owners d !! c) as [o|]; [|done].
  destruct (o =? c)%Z; [done|]. intros va x [Hx _]%map_lookup_filter_Some. by apply O.
Qed.
End reached.

Lemma discover_reached ci space seeds hints d :
  discover ci space seeds hints = Some d → owners_reached ci space d.
Proof.
  unfold discover. destruct (run _ _ _ _ _) as [d0|] eqn:E0; [|done]. cbn [mbind option_bind].
  apply run_loop_reached in E0; [|intros va o H; cbn in H; by rewrite lookup_empty in H].
  destruct (seed_int3_gap_leaves _ _ _ _) as [d1|] eqn:E1; [|done]. cbn [mbind option_bind].
  assert (owners_reached ci space d1) as O1.
  { unfold seed_int3_gap_leaves in E1. destruct (int3_candidates _ _ _); [by injection E1 as <-|].
    by eapply insert_run_reached. }
  unfold seed_access_violation_filter_leaves. destruct (av_candidates _ _); [by intros [= <-]|].
  apply insert_run_reached. by apply carve_reached.
Qed.

(** Where control can go stays known: a block of a function starts there, or
    control reaches it from a function with a higher entry, which claimed it and
    dropped it, and no function has a block there. *)
Definition placed (ci : CodeIndex) (space : AddressSpace) (table : gmap Z Function) (va : Z) : Prop :=
  (∃ fe f b, table !! fe = Some f ∧ b ∈ fn_blocks f ∧ bb_entry_va b = va) ∨
  ((∃ fe, is_Some (table !! fe) ∧ (va < fe)%Z ∧ reaches ci space fe va) ∧
   ∀ fe f b, table !! fe = Some f → b ∈ fn_blocks f → bb_entry_va b ≠ va).

Lemma swept_placed ci space hard d va :
  swept ci space hard d [] → owners_reached ci space d → is_Some (block_owners d !! va) →
  placed ci space (functions d) va.
Proof.
  intros S O [fe Ho]. destruct (sw_owner _ _ _ _ _ S va fe Ho) as [f Hf].
  destruct (sw_function _ _ _ _ _ S fe f Hf) as [F _].
  destruct (Z.lt_ge_cases va fe) as [Lt|Ge].
  - right. split; [by exists fe; split_and!; [eauto|done|apply O]|].
    intros fe' f' b Hf' Hb <-. destruct (sw_function _ _ _ _ _ S fe' f' Hf') as [F' _].
    destruct (fm_block _ _ _ _ _ _ F' b Hb) as (L & Ob & _). simplify_eq. lia.
  - left. destruct (fm_all _ _ _ _ _ _ F va) as (b & Hb & Eb); [done|done|]. by exists fe, f, b.
Qed.

Lemma map_rewrite_intra fe es e :
  e ∈ map (rewrite_edge fe) es → eg_kind e ≠ TailCall → e ∈ es.
Proof.
  intros (e0 & -> & He)%list_elem_of_fmap K. unfold rewrite_edge in *. by destruct (_ && _).
Qed.

(** When no instruction compares with the access-violation code, the table
    is closed: every function has a block at its entry; predecessor lists are
    the inverse of the successor lists; and every executable seed, every
    executable target of a call edge, and every target of an edge within a
    function is the start of a block of some function, or control reaches it
    from a function with a higher entry and it is in no function. *)
Theorem discovery_closed ci space seeds hints :
  progresses ci → hints ⊆ seeds → av_candidates ci space = [] →
  ∃ table, discover_functions_with_entry_hints ci space seeds hints = Some table ∧
    (∀ va, va ∈ seeds → is_executable_va space va = true → placed ci space table va) ∧
    ∀ fe f, table !! fe = Some f →
      (∃ b, b ∈ fn_blocks f ∧ bb_entry_va b = fe) ∧ predecessors_ok (fn_blocks f) ∧
      ∀ b e, b ∈ fn_blocks f → e ∈ bb_successors b →
        (intra (eg_kind e) ∨ eg_kind e = Call ∧ is_executable_va space (eg_target e) = true →
         placed ci space table (eg_target e)).
Proof.
  intros P Sub A. destruct (discover_ok ci space seeds hints P) as (d1 & d & E & _ & K & _ & Ed & S).
  specialize (S Sub). rewrite (Ed A) in S, K. pose proof (discover_reached _ _ _ _ _ E) as O. exists (functions d).
  unfold discover_functions_with_entry_hints. rewrite E. split; [done|].
  assert (∀ va, va ∈ function_entries d → is_executable_va space va = true → placed ci space (functions d) va) as En.
  { intros va Hva X. destruct (sw_entries _ _ _ _ _ S va Hva) as [H|[H|H]];
      [by apply not_elem_of_nil in H|congruence|by eapply swept_placed]. }
  split.
  { intros va Hva. apply En, (kp_entries _ _ K). by apply elem_of_list_to_set. }
  intros fe f Hf. destruct (sw_function _ _ _ _ _ S fe f Hf) as [F Ho]. split_and!.
  - by apply (fm_all _ _ _ _ _ _ F).
  - apply (fm_preds _ _ _ _ _ _ F).
  - intros b e Hb He I. destruct (fm_block _ _ _ _ _ _ F b Hb) as (_ & _ & es & (ds & _ & _ & _ & _ & _ & Cl) & Es).
    rewrite Es in He. apply map_rewrite_intra in He; [|intros Kt; rewrite Kt in I; unfold intra in I; naive_solver].
    rewrite Forall_forall in Cl. destruct (Cl e He) as [C1 C2].
    destruct I as [I|[I X]]; [by eapply swept_placed; auto|auto].
Qed.

(** A trusted entry is a function of the table, whatever else is found, when
    it is executable and does not directly follow an indirect call. *)
Theorem trusted_entries_kept ci space seeds hints :
  progresses ci → hints ⊆ seeds →
  ∃ table, discover_functions_with_entry_hints ci space seeds hints = Some table ∧
    ∀ h, h ∈ hints → is_executable_va space h = true → ¬ after_indirect_call ci h →
      is_Some (table !! h).
Proof.
  intros P Sub. destruct (discover_ok ci space seeds hints P) as (d1 & d & E & _ & _ & K & _ & S).
  specialize (S Sub). exists (functions d). unfold discover_functions_with_entry_hints.
  rewrite E. split; [done|]. intros h Hh X N. apply (kp_functions _ _ K).
  destruct (sw_entries _ _ _ _ _ S h) as [H|[H|[o H]]];
    [|by apply not_elem_of_nil in H|congruence|].
  { apply (sw_trusted _ _ _ _ _ S). by apply elem_of_list_to_set. }
  destruct (sw_hard _ _ _ _ _ S h o H) as [->|?]; [by apply elem_of_list_to_set| |done].
  by apply (sw_owner _ _ _ _ _ S h).
Qed.

(** ** The walk back from an access-violation compare *)

Lemma by_ip_strict ci :
  StronglySorted (key_lt ip) ci → by_ip ci = (λ d, (ip d, d)) <$> ci.
Proof.
  intros S. unfold by_ip.
  assert (∀ m : gmap Z DecodedInstr, foldl (λ m dec, <[ip dec := dec]> m) m ci =
    list_to_map (reverse ((λ d, (ip d, d)) <$> ci)) ∪ m) as E.
  { clear S. induction ci as [|d l IH]; intros m; simpl; [by rewrite (left_id_L ∅ (∪))|].
    rewrite IH. rewrite reverse_cons, list_to_map_app.
    rewrite <-(assoc_L (∪)). f_equal. simpl. by rewrite insert_union_singleton_l, insert_empty. }
  rewrite E, (right_id_L ∅ (∪)).
  assert (StronglySorted (key_lt fst) ((λ d, (ip d, d)) <$> ci)) as S2.
  { clear E. induction S as [|d l S IH F]; [constructor|]. simpl. constructor; [done|].
    apply Forall_fmap. eapply Forall_impl; [exact F|]. done. }
  rewrite (list_to_map_proper _ ((λ d, (ip d, d)) <$> ci)); [by apply btree_entries_list| |].
  - rewrite reverse_Permutation. by apply (strict_NoDup fst).
  - apply reverse_Permutation.
Qed.

Lemma walk_back_ok ci i d :
  ci !! i = Some d →
  ∃ before body, take i ci = before ++ body ∧ Forall (λ x, is_int3 x = false) body ∧
    (∀ x, last before = Some x → is_int3 x = true) ∧
    walk_back ((λ d, (ip d, d)) <$> ci) i (ip d) = ip (default d (head body)).
Proof.
  revert d. induction i as [|i IH]; intros d Hd; simpl.
  { exists [], []. by split_and!. }
  destruct (lookup_lt_is_Some_2 ci i) as [x Hx]; [apply lookup_lt_Some in Hd; lia|].
  rewrite list_lookup_fmap, Hx. cbn [fmap option_fmap option_map].
  destruct (is_int3 x) eqn:I.
  - exists (take (S i) ci), []. rewrite app_nil_r. split_and!; [done..| |].
    + intros y Hy. rewrite (take_S_r _ _ _ Hx), last_snoc in Hy. by simplify_eq.
    + rewrite list_lookup_fmap, Hd. done.
  - destruct (IH x Hx) as (before & body & E & F & L & W). exists before, (body ++ [x]).
    rewrite (take_S_r _ _ _ Hx), E, app_assoc. split_and!; [done| |done|].
    + apply Forall_app. split; [done|]. by apply Forall_singleton.
    + rewrite W. by destruct body.
Qed.

(** From an instruction comparing with the access-violation code, the entry
    taken for its filter is the first instruction after the last padding
    before it, or the first of the index. *)
Theorem filter_entry_correct ci d :
  wf_index ci → d ∈ ci →
  ∃ before body after, ci = before ++ body ++ d :: after ∧
    Forall (λ x, is_int3 x = false) body ∧ (∀ x, last before = Some x → is_int3 x = true) ∧
    filter_entry ci (ip d) = Some (ip (default d (head body))).
Proof.
  intros [Ss _ _] Hd. unfold filter_entry. rewrite (by_ip_strict ci Ss).
  assert (StronglySorted (key_lt fst) ((λ d, (ip d, d)) <$> ci)) as S2.
  { rewrite <-(by_ip_strict ci Ss). apply btree_entries_sorted. }
  pose proof (binary_search_spec fst _ (ip d) S2) as B. apply list_elem_of_lookup in Hd as [i Hi].
  assert (((λ d, (ip d, d)) <$> ci) !! i = Some (ip d, d)) as Hi2 by by rewrite list_lookup_fmap, Hi.
  destruct (binary_search_by_key _ _ _) as [j|j].
  2:{ by destruct (proj2 B i _ Hi2). }
  destruct B as (x & Hx & Ex).
  assert (i = j) as <-.
  { destruct (Nat.lt_trichotomy i j) as [O|[O|O]]; [|done|];
      [pose proof (strict_lookup fst _ _ _ _ _ S2 Hi2 Hx O)|pose proof (strict_lookup fst _ _ _ _ _ S2 Hx Hi2 O)];
      simpl in *; lia. }
  destruct (walk_back_ok ci i d Hi) as (before & body & E & F & L & ->).
  exists before, body, (drop (S i) ci). split_and!; [|done..].
  rewrite app_assoc, <-E. by rewrite take_drop_middle.
Qed.

(** ** Images *)

Module Images.
Import FlowControl.
Definition space : AddressSpace := mkSpace 0x10000 [mkSection 0 0x1000 0 0x1000 0x60000020].
Definition code (a : Z) (n : nat) (f : FlowControl) (target : Z) : DecodedInstr :=
  mkDecoded a n (replicate 16 x90) (mkInstruction a n false f target []).
Definition int3 (a : Z) : DecodedInstr :=
  mkDecoded a 1 (xcc :: replicate 15 x00) (mkInstruction a 1 false Interrupt 0 []).
(** [cmp eax, 0xC0000005] *)
Definition compare_av (a : Z) : DecodedInstr :=
  mkDecoded a 5 (replicate 16 x3d) (mkInstruction a 5 false Next 0 [(OtherOperand, 0%Z); (Immediate32, AV)]).

(** Two functions; the first branches, calls the second, and returns. *)
Definition two_functions : CodeIndex :=
  [code 0x10000 2 ConditionalBranch 0x10007; code 0x10002 5 Call 0x10010; code 0x10007 1 Return 0;
   int3 0x10008; code 0x10010 1 Next 0; code 0x10011 1 Return 0].
(** An indirect call as the last instruction before a trusted entry. *)
Definition tail_of_indirect_call : CodeIndex :=
  [code 0x10000 6 IndirectCall 0; code 0x10006 1 Return 0].
(** A function that branches to code before it and calls it. *)
Definition branch_back : CodeIndex :=
  [code 0x10000 1 Return 0; code 0x10010 2 ConditionalBranch 0x10000; code 0x10012 5 Call 0x10000;
   code 0x10017 1 Return 0].
(** A function and the exception filter it can also jump to. *)
Definition shared_filter : CodeIndex :=
  [code 0x10000 2 ConditionalBranch 0x10010; code 0x10002 1 Return 0; int3 0x1000f;
   compare_av 0x10010; code 0x10015 1 Return 0].
(** [if] without [else]. *)
Definition if_then : CodeIndex :=
  [code 0x10000 2 ConditionalBranch 0x10003; code 0x10002 1 Next 0; code 0x10003 1 Next 0;
   code 0x10004 1 Return 0].
(** A function that calls one at a lower address. *)
Definition call_back : CodeIndex :=
  [code 0x10000 1 Return 0; code 0x10010 5 Call 0x10000; code 0x10015 1 Return 0].

Lemma progresses_of ci :
  bool_decide (Forall (λ d, 1 ≤ len d ∧ (ip d < u64_max)%Z) ci) = true → progresses ci.
Proof. intros H%bool_decide_eq_true d Hd. rewrite Forall_forall in H. by apply H. Qed.

(** Entries, with the start, last address and length of each block. *)
Definition outline_of (table : gmap Z Function) : list (Z * list (Z * Z * nat)) :=
  map (λ '(fe, f), (fe, map (λ b, (bb_entry_va b, bb_exit_va b, bb_instr_count b)) (fn_blocks f)))
    (btree_entries table).
End Images.
Import Images.

Lemma discovery_faithful_witness :
  ∃ d, discover two_functions space [0x10000%Z] [] = Some d ∧
    ∀ fe f, functions d !! fe = Some f →
      fn_entry_va f = fe ∧ StronglySorted (key_lt bb_entry_va) (fn_blocks f) ∧
      ∀ b, b ∈ fn_blocks f →
        (fe ≤ bb_entry_va b)%Z ∧
        block_faithful two_functions space (list_to_set []) fe (function_entries d) b ∧
        ∀ fe' f' b', functions d !! fe' = Some f' → b' ∈ fn_blocks f' →
          bb_entry_va b' = bb_entry_va b → fe' = fe.
Proof. apply discovery_faithful, progresses_of. vm_compute. reflexivity. Defined.

Example two_functions_found :
  (outline_of <$> discover_functions two_functions space [0x10000] =
    Some [(0x10000, [(0x10000, 0x10000, 1%nat); (0x10002, 0x10002, 1%nat); (0x10007, 0x10007, 1%nat)]);
          (0x10010, [(0x10010, 0x10011, 2%nat)])])%Z.
Proof. vm_compute. reflexivity. Qed.

Lemma trusted_entries_kept_witness :
  ∃ table, discover_functions_with_entry_hints two_functions space [0x10000; 0x10007]%Z [0x10007%Z] = Some table ∧
    ∀ h, h ∈ [0x10007%Z] → is_executable_va space h = true → ¬ after_indirect_call two_functions h →
      is_Some (table !! h).
Proof.
  apply trusted_entries_kept.
  - apply progresses_of. vm_compute. reflexivity.
  - intros ? ->%list_elem_of_singleton. by right; left.
Defined.

Lemma filter_entry_correct_witness :
  ∃ before body after, shared_filter = before ++ body ++ compare_av 0x10010 :: after ∧
    Forall (λ x, is_int3 x = false) body ∧ (∀ x, last before = Some x → is_int3 x = true) ∧
    filter_entry shared_filter (ip (compare_av 0x10010)) =
      Some (ip (default (compare_av 0x10010) (head body))).
Proof.
  apply filter_entry_correct.
  - constructor.
    + repeat constructor.
    + intros d Hd. eapply (proj1 (Forall_forall (λ d, 1 ≤ len d) shared_filter)); [|exact Hd].
      repeat constructor.
    + intros d Hd. eapply (proj1 (Forall_forall (λ d, is_u64 (ip d)) shared_filter)); [|exact Hd].
      repeat constructor; by vm_compute.
  - do 3 right. by left.
Defined.

(** ** Where the code loses something *)

(** The instruction after an indirect call is claimed without asking the
    trusted entries: one there is absorbed and is not a function. *)
Theorem trusted_entry_absorbed :
  is_executable_va space 0x10006 = true ∧
  outline_of <$> discover_functions_with_entry_hints tail_of_indirect_call space
      [0x10000; 0x10006]%Z [0x10006%Z] =
    Some [(0x10000, [(0x10000, 0x10000, 1%nat); (0x10006, 0x10006, 1%nat)])%Z].
Proof. split; vm_compute; reflexivity. Qed.

(** A conditional branch to code before the entry claims it, and the block is
    dropped: the code is in no function, although it is called, and the call
    edge leads to no function. *)
Theorem branch_back_loses_function :
  outline_of <$> discover_functions branch_back space [0x10010%Z] =
    Some [(0x10010, [(0x10010, 0x10010, 1%nat); (0x10012, 0x10012, 1%nat); (0x10017, 0x10017, 1%nat)])%Z] ∧
  xrefs_to (build_code branch_back) 0x10000 =
    [mkXref 0x10010 0x10000 JumpTaken; mkXref 0x10012 0x10000 Callees.Call].
Proof. split; vm_compute; reflexivity. Qed.

(** A filter that is an entry already (a seed) but was reached as a block of
    another function is cut out of that function and not discovered again: its
    code is in no function, and the edge to it dangles. *)
Theorem carved_filter_lost :
  outline_of <$> discover_functions shared_filter space [0x10000; 0x10010]%Z =
    Some [(0x10000, [(0x10000, 0x10000, 1%nat); (0x10002, 0x10002, 1%nat)])%Z] ∧
  outline_of <$> discover_functions shared_filter space [0x10000%Z] =
    Some [(0x10000, [(0x10000, 0x10000, 1%nat); (0x10002, 0x10002, 1%nat)]);
          (0x10010, [(0x10010, 0x10015, 2%nat)])]%Z.
Proof. split; vm_compute; reflexivity. Qed.

(** The join of an [if] without [else] is decoded twice: the block before it
    runs on through it, since only blocks decoded earlier stop it. *)
Theorem join_block_overlaps :
  outline_of <$> discover_functions if_then space [0x10000%Z] =
    Some [(0x10000, [(0x10000, 0x10000, 1%nat); (0x10002, 0x10004, 3%nat); (0x10003, 0x10004, 2%nat)])%Z].
Proof. vm_compute. reflexivity. Qed.

(** No callee below its caller is reported: call edges to lower addresses
    have become tail calls. *)
Theorem callees_not_below ci space seeds hints table project va x name :
  progresses ci →
  discover_functions_with_entry_hints ci space seeds hints = Some table →
  Ops.functions project = table →
  (x, name) ∈ function_callees project va → (va ≤ x)%Z.
Proof.
  intros P E <- H. destruct (discover_ok ci space seeds hints P) as (_ & d & Ed & C & _).
  unfold discover_functions_with_entry_hints in E. rewrite Ed in E. simpl in E. injection E as E.
  apply callee_edge in H as (f & b & e & Hf & Hb & He & K & <- & Nz).
  unfold function_at, Functions.get in Hf. rewrite <-E in Hf.
  destruct (co_function _ _ _ _ C va f Hf) as (_ & _ & _ & B).
  destruct (B b Hb) as (_ & _ & d1 & _ & es & _ & Es).
  rewrite Es in He. apply list_elem_of_fmap in He as (e0 & -> & _).
  unfold rewrite_edge in *. destruct (Z.eqb_spec (eg_target e0) 0); simpl in *; [done|].
  by destruct (Z.ltb_spec (eg_target e0) va).
Qed.

(** The project opened on an image. *)
Definition project_of (table : gmap Z Function) : Project :=
  open_base "a.exe" "sha" table ∅ (Types.mkTypes ∅ ∅ ∅) ∅ ∅ ∅ 0x10000.

Lemma callees_not_below_witness :
  let table := default ∅ (discover_functions two_functions space [0x10000%Z]) in
  (0x10010%Z, "FUN_00010010"%string) ∈ function_callees (project_of table) 0x10000 ∧
  (0x10000 ≤ 0x10010)%Z.
Proof.
  set (table := default ∅ _).
  assert ((0x10010%Z, "FUN_00010010"%string) ∈ function_callees (project_of table) 0x10000) as H
    by (eapply bool_decide_unpack; vm_compute; exact I).
  split; [exact H|].
  apply (callees_not_below two_functions space [0x10000%Z] [] table (project_of table) _ _ "FUN_00010010"%string).
  - apply progresses_of. vm_compute. reflexivity.
  - vm_compute. reflexivity.
  - reflexivity.
  - exact H.
Defined.

(** A function whose only call goes to the function before it is reported to
    call nothing, although both are functions and the cross references list the
    call. *)
Theorem call_back_unreported :
  let table := default ∅ (discover_functions call_back space [0x10000; 0x10010]%Z) in
  outline_of table = [(0x10000, [(0x10000, 0x10000, 1%nat)]);
                      (0x10010, [(0x10010, 0x10010, 1%nat); (0x10015, 0x10015, 1%nat)])]%Z ∧
  xrefs_from (build_code call_back) 0x10010 = [mkXref 0x10010 0x10000 Callees.Call] ∧
  function_callees (project_of table) 0x10010 = [].
Proof. split_and!; vm_compute; reflexivity. Qed.

(** An executable section of two bytes at the end of the address space. *)
Definition top_space : AddressSpace :=
  mkSpace 0xfffffffffffff000 [mkSection 0xffe 2 0 2 0x60000020].
Definition top_index : CodeIndex :=
  default [] (build (D := ByteDecoder.t) [x90; x90] top_space 64).

(** From the last two bytes of the address space, no amount of fuel ends the
    walk along a block: the address after the last one saturates to itself. The
    index is that of the sweep, and the entry is executable. *)
Theorem top_of_memory_never_ends :
  build (D := ByteDecoder.t) [x90; x90] top_space 64 = Some top_index ∧
  is_executable_va top_space (u64_max - 1) = true ∧
  ∀ fuel, decode_walk top_index top_space ∅ fuel (u64_max - 1) (u64_max - 1) ∅
    (u64_max - 1) (u64_max - 1) 0
    (mkWork (set_owner (u64_max - 1) (u64_max - 1) (start_of [u64_max - 1]%Z)) [] []) = None.
Proof.
  split; [vm_compute; reflexivity|]. split; [vm_compute; reflexivity|].
  set (w := mkWork _ _ _).
  assert (∀ fuel n, decode_walk top_index top_space ∅ fuel (u64_max - 1) (u64_max - 1) ∅ u64_max u64_max n w = None) as H.
  { intros fuel. induction fuel as [|fuel IH]; intros n; [done|]. rewrite <-(IH (S n)). reflexivity. }
  assert (∀ fuel n, decode_walk top_index top_space ∅ fuel (u64_max - 1) (u64_max - 1) ∅ u64_max (u64_max - 1) n w = None) as H'.
  { intros [|fuel] n; [done|]. rewrite <-(H fuel (S n)). reflexivity. }
  intros [|fuel]; [done|]. rewrite <-(H' fuel 1). reflexivity.
Qed.
