(* ===== verification/Unwind.v ===== *)
(** x64 unwind metadata, [src/analysis/unwind.rs]: [UNWIND_INFO] records and the
    exception directory of a PE image.

    Offsets are [nat]: they come from 32-bit fields, so the checked additions of
    the code do not overflow. Bytes and fields are [Z]. *)

From Stdlib Require Import Strings.Byte.
From stdpp Require Import sorting.
From S2P Require Import Prelude Journal MemoryMap Loader ModulePe.
Import AddressSpace.

Definition IMAGE_FILE_MACHINE_AMD64 : Z := 0x8664.
Definition IMAGE_NT_OPTIONAL_HDR64_MAGIC : Z := 0x20b.
Definition IMAGE_DIRECTORY_ENTRY_EXCEPTION : nat := 3.
Definition IMAGE_RUNTIME_FUNCTION_ENTRY_SIZE : nat := 12.
Definition UNWIND_INFO_HEADER_SIZE : nat := 4.
Definition MAX_UNWIND_INFO_FIXED_BYTES : nat := 528.
Definition UNW_FLAG_EHANDLER : Z := 1.
Definition UNW_FLAG_UHANDLER : Z := 2.
Definition UNW_FLAG_CHAININFO : Z := 4.
Definition UNWIND_KNOWN_FLAGS : Z :=
  Z.lor (Z.lor UNW_FLAG_EHANDLER UNW_FLAG_UHANDLER) UNW_FLAG_CHAININFO.
Definition OPTIONAL_HEADER64_NUMBER_OF_RVA_AND_SIZES : nat := 108.
Definition OPTIONAL_HEADER64_DATA_DIRECTORIES : nat := 112.

(** ** Records *)

Inductive UnwindOperation :=
  | PushNonVol (register : Z)
  | AllocLarge (size : Z)
  | AllocSmall (size : Z)
  | SetFpReg
  | SaveNonVol (register stack_offset : Z)
  | SaveNonVolFar (register stack_offset : Z)
  | Epilog (epilog_size offset_from_function_end : Z)
  | Spare (payload : Z)
  | SaveXmm128 (register stack_offset : Z)
  | SaveXmm128Far (register stack_offset : Z)
  | PushMachFrame (has_error_code : bool).

Record UnwindCode := mkCode {
  slot_index : nat;
  code_offset : Z;
  operation_code : Z;
  operation_info : Z;
  slots_used : nat;
  operation : UnwindOperation
}.

Inductive UnwindInfoTail :=
  | NoTail
  | Handler (handler_rva : Z) (handler_data_offset : nat)
  | Chained (begin_rva end_rva unwind_info_rva : Z).

Record UnwindInfo := mkUnwind {
  version : Z;
  flags : Z;
  prolog_size : Z;
  code_slots : nat;
  frame_register : option Z;
  frame_offset : Z;
  frame_offset_bytes : Z;
  codes : list UnwindCode;
  tail_offset : nat;
  tail : UnwindInfoTail
}.

Definition has_exception_handler (u : UnwindInfo) : bool :=
  negb (Z.land (flags u) UNW_FLAG_EHANDLER =? 0)%Z.
Definition has_termination_handler (u : UnwindInfo) : bool :=
  negb (Z.land (flags u) UNW_FLAG_UHANDLER =? 0)%Z.
Definition is_chained (u : UnwindInfo) : bool :=
  negb (Z.land (flags u) UNW_FLAG_CHAININFO =? 0)%Z.

#[global] Instance UnwindOperation_eq_dec : EqDecision UnwindOperation.
Proof. solve_decision. Defined.
#[global] Instance UnwindCode_eq_dec : EqDecision UnwindCode.
Proof. solve_decision. Defined.
#[global] Instance UnwindInfoTail_eq_dec : EqDecision UnwindInfoTail.
Proof. solve_decision. Defined.
#[global] Instance UnwindInfo_eq_dec : EqDecision UnwindInfo.
Proof. solve_decision. Defined.

(** ** One unwind code *)

(** [align_to_dword]: [(value + 3) & !3]. *)
Definition align_to_dword (value : nat) : nat := 4 * ((value + 3) / 4).

Definition unwind_code_slots (version operation_code operation_info : Z) : option nat :=
  match operation_code with
  | 0 | 2 => Some 1%nat
  | 3 => if (operation_info =? 0)%Z then Some 1%nat else None
  | 10 => if (operation_info <=? 1)%Z then Some 1%nat else None
  | 1 => if (operation_info =? 0)%Z then Some 2%nat
         else if (operation_info =? 1)%Z then Some 3%nat else None
  | 4 | 8 => Some 2%nat
  | 5 | 9 => Some 3%nat
  | 6 => if (version =? 2)%Z && (operation_info <=? 1)%Z then Some 2%nat else None
  | 7 => if (version =? 2)%Z then Some 3%nat else None
  | _ => None
  end%Z.

Definition code_slots_available (slot_index total_slots needed_slots : nat) : bool :=
  bool_decide (slot_index ≤ total_slots ∧ needed_slots ≤ total_slots - slot_index).

Definition unwind_code_byte (bs : bytes) (slot_index byte_index : nat) : option Z :=
  byte_val <$> bs !! (UNWIND_INFO_HEADER_SIZE + slot_index * 2 + byte_index).
Definition unwind_code_u16 (bs : bytes) (slot_index : nat) : option Z :=
  read_le bs (UNWIND_INFO_HEADER_SIZE + slot_index * 2) 2.
Definition unwind_code_u32 (bs : bytes) (slot_index : nat) : option Z :=
  low ← unwind_code_u16 bs slot_index;
  high ← unwind_code_u16 bs (S slot_index);
  Some (Z.lor low (Z.shiftl high 16)).

(** The payload of an operation. *)
Definition unwind_operation (bs : bytes) (slot_index : nat) (code_offset operation_code operation_info : Z)
    : option UnwindOperation :=
  match operation_code with
  | 0 => Some (PushNonVol operation_info)
  | 1 => if (operation_info =? 0)%Z
         then (λ v, AllocLarge (v * 8)%Z) <$> unwind_code_u16 bs (S slot_index)
         else AllocLarge <$> unwind_code_u32 bs (S slot_index)
  | 2 => Some (AllocSmall (operation_info * 8 + 8)%Z)
  | 3 => Some SetFpReg
  | 4 => (λ v, SaveNonVol operation_info (v * 8)%Z) <$> unwind_code_u16 bs (S slot_index)
  | 5 => SaveNonVolFar operation_info <$> unwind_code_u32 bs (S slot_index)
  | 6 => next_code_offset ← unwind_code_byte bs (S slot_index) 0%nat;
         next_packed ← unwind_code_byte bs (S slot_index) 1%nat;
         let next_info := Z.shiftr next_packed 4 in
         Some (Epilog code_offset
                 (if (operation_info =? 0)%Z then Z.lor (Z.shiftl next_info 8) next_code_offset
                  else code_offset))
  | 7 => Spare <$> unwind_code_u32 bs (S slot_index)
  | 8 => (λ v, SaveXmm128 operation_info (v * 16)%Z) <$> unwind_code_u16 bs (S slot_index)
  | 9 => SaveXmm128Far operation_info <$> unwind_code_u32 bs (S slot_index)
  | 10 => Some (PushMachFrame (operation_info =? 1)%Z)
  | _ => None
  end%Z.

Definition parse_unwind_code (bs : bytes) (version : Z) (slot_index total_slots : nat) : option UnwindCode :=
  code_offset ← unwind_code_byte bs slot_index 0;
  packed ← unwind_code_byte bs slot_index 1;
  let operation_code := Z.land packed 0x0f in
  let operation_info := Z.shiftr packed 4 in
  slots_used ← unwind_code_slots version operation_code operation_info;
  if negb (code_slots_available slot_index total_slots slots_used) then None
  else
    operation ← unwind_operation bs slot_index code_offset operation_code operation_info;
    if decide (slot_index ≤ 255)
    then Some (mkCode slot_index code_offset operation_code operation_info slots_used operation)
    else None.

(** ** One record *)

(** The loop over the slots; the fuel is their number and one. *)
Fixpoint parse_codes (fuel : nat) (bs : bytes) (version : Z) (total_slots slot_index : nat)
    : option (list UnwindCode) :=
  match fuel with
  | 0 => None
  | S fuel =>
      if decide (slot_index < total_slots) then
        code ← parse_unwind_code bs version slot_index total_slots;
        cons code <$> parse_codes fuel bs version total_slots (slot_index + slots_used code)
      else Some []
  end.

Definition parse_tail (bs : bytes) (is_chained has_handler : bool) (tail_offset : nat)
    : option UnwindInfoTail :=
  if is_chained then
    begin_rva ← read_le bs tail_offset 4;
    end_rva ← read_le bs (tail_offset + 4) 4;
    unwind_info_rva ← read_le bs (tail_offset + 8) 4;
    Some (Chained begin_rva end_rva unwind_info_rva)
  else if has_handler then
    handler_rva ← read_le bs tail_offset 4;
    Some (Handler handler_rva (tail_offset + 4))
  else Some NoTail.

Definition parse_unwind_info (bs : bytes) : option UnwindInfo :=
  b0 ← byte_val <$> bs !! 0;
  b1 ← byte_val <$> bs !! 1;
  b2 ← byte_val <$> bs !! 2;
  b3 ← byte_val <$> bs !! 3;
  let version := Z.land b0 0x07 in
  let flags := Z.shiftr b0 3 in
  if negb ((version =? 1) || (version =? 2))%Z
     || negb (Z.land flags (Z.lxor UNWIND_KNOWN_FLAGS 0xff) =? 0)%Z then None
  else
    let has_handler := negb (Z.land flags (Z.lor UNW_FLAG_EHANDLER UNW_FLAG_UHANDLER) =? 0)%Z in
    let is_chained := negb (Z.land flags UNW_FLAG_CHAININFO =? 0)%Z in
    if has_handler && is_chained then None
    else
      let code_slots := Z.to_nat b2 in
      let frame_register_number := Z.land b3 0x0f in
      let frame_offset := Z.shiftr b3 4 in
      if (frame_register_number =? 0)%Z && negb (frame_offset =? 0)%Z then None
      else
        let codes_end := UNWIND_INFO_HEADER_SIZE + code_slots * 2 in
        let tail_offset := align_to_dword codes_end in
        if decide (length bs < codes_end) then None
        else if decide (length bs < tail_offset) then None
        else
          codes ← parse_codes (S code_slots) bs version code_slots 0;
          tail ← parse_tail bs is_chained has_handler tail_offset;
          Some (mkUnwind version flags b1 code_slots
                  (if (frame_register_number =? 0)%Z then None else Some frame_register_number)
                  frame_offset (frame_offset * 16) codes tail_offset tail).

Definition unwind_info_minimum_size (header : bytes) : option nat :=
  if decide (length header < UNWIND_INFO_HEADER_SIZE) then None
  else
    b0 ← byte_val <$> header !! 0;
    b2 ← byte_val <$> header !! 2;
    let tail_offset := align_to_dword (UNWIND_INFO_HEADER_SIZE + Z.to_nat b2 * 2) in
    let flags := Z.shiftr b0 3 in
    let minimum_size :=
      if negb (Z.land flags UNW_FLAG_CHAININFO =? 0)%Z
      then tail_offset + IMAGE_RUNTIME_FUNCTION_ENTRY_SIZE
      else if negb (Z.land flags (Z.lor UNW_FLAG_EHANDLER UNW_FLAG_UHANDLER) =? 0)%Z
      then tail_offset + 4
      else tail_offset in
    if decide (minimum_size ≤ MAX_UNWIND_INFO_FIXED_BYTES) then Some minimum_size else None.

Definition parse_unwind_info_at (image : bytes) (a : AddressSpace) (unwind_info_va : Z) : option UnwindInfo :=
  header ← slice_for_va a image unwind_info_va (Z.of_nat UNWIND_INFO_HEADER_SIZE);
  minimum_size ← unwind_info_minimum_size header;
  bs ← slice_for_va a image unwind_info_va (Z.of_nat minimum_size);
  parse_unwind_info bs.

(** ** The exception directory *)

Record RuntimeFunction := mkRuntime {
  begin_rva : Z;
  end_rva : Z;
  unwind_info_rva : Z;
  begin_va : Z;
  end_va : Z;
  unwind_info_va : Z;
  unwind_info : option UnwindInfo
}.
#[global] Instance RuntimeFunction_eq_dec : EqDecision RuntimeFunction.
Proof. solve_decision. Defined.

Definition rf_contains_va (f : RuntimeFunction) (va : Z) : bool :=
  (begin_va f <=? va)%Z && (va <? end_va f)%Z.
Definition rf_size (f : RuntimeFunction) : Z := end_va f -sat begin_va f.

Record RuntimeFunctionTable := mkTable { entries : list RuntimeFunction; rejected_entries : nat }.
Definition is_complete (t : RuntimeFunctionTable) : bool := rejected_entries t =? 0.
Definition entry_points (t : RuntimeFunctionTable) : list Z := begin_va <$> entries t.

(** [u64::checked_add] *)
Definition checked_add (x y : Z) : option Z := if (u64_max <? x + y)%Z then None else Some (x + y)%Z.

Definition optional_field_offset (optional_offset optional_end relative_offset width : nat) : option nat :=
  if decide (optional_offset + relative_offset + width ≤ optional_end)
  then Some (optional_offset + relative_offset) else None.

(** [Some None] is an image without a directory. *)
Definition exception_directory (image : bytes) : option (option (Z * Z)) :=
  mz ← slice image 0 2;
  if decide (mz ≠ [x4d; x5a]) then None
  else
    pe_offset ← Z.to_nat <$> read_le image 0x3c 4;
    signature ← slice image pe_offset 4;
    if decide (signature ≠ PE_SIGNATURE) then None
    else
      let coff_offset := pe_offset + 4 in
      machine ← read_le image coff_offset 2;
      if negb (machine =? IMAGE_FILE_MACHINE_AMD64)%Z then None
      else
        optional_header_size ← Z.to_nat <$> read_le image (coff_offset + 16) 2;
        let optional_offset := coff_offset + 20 in
        let optional_end := optional_offset + optional_header_size in
        if decide (length image < optional_end) then None
        else
          magic_offset ← optional_field_offset optional_offset optional_end 0 2;
          magic ← read_le image magic_offset 2;
          if negb (magic =? IMAGE_NT_OPTIONAL_HDR64_MAGIC)%Z then None
          else
            number_of_directories_offset ← optional_field_offset optional_offset optional_end
              OPTIONAL_HEADER64_NUMBER_OF_RVA_AND_SIZES 4;
            number_of_directories ← read_le image number_of_directories_offset 4;
            if (number_of_directories <=? Z.of_nat IMAGE_DIRECTORY_ENTRY_EXCEPTION)%Z then Some None
            else
              directory_offset ← optional_field_offset optional_offset optional_end
                (OPTIONAL_HEADER64_DATA_DIRECTORIES + IMAGE_DIRECTORY_ENTRY_EXCEPTION * 8) 8;
              rva ← read_le image directory_offset 4;
              size ← read_le image (directory_offset + 4) 4;
              if (rva =? 0)%Z && (size =? 0)%Z then Some None
              else if (rva =? 0)%Z || (size =? 0)%Z then None
              else Some (Some (rva, size)).

Definition executable_range (a : AddressSpace) (begin_rva end_rva : Z) : option (Z * Z) :=
  if (end_rva <=? begin_rva)%Z then None
  else
    begin_va ← checked_add (image_base a) begin_rva;
    end_va ← checked_add (image_base a) end_rva;
    section ← section_at_va a begin_va;
    if negb (is_executable section) then None
    else
      section_begin_va ← checked_add (image_base a) (vaddr section);
      section_end_va ← checked_add section_begin_va (Z.max (vsize section) (raw_size section));
      if (section_begin_va <=? begin_va)%Z && (end_va <=? section_end_va)%Z
      then Some (begin_va, end_va) else None.

(** [chunks_exact(12)], of a slice whose length is a multiple. *)
Fixpoint chunks (n : nat) (directory : bytes) : list bytes :=
  match n with
  | 0 => []
  | S n => take IMAGE_RUNTIME_FUNCTION_ENTRY_SIZE directory
             :: chunks n (drop IMAGE_RUNTIME_FUNCTION_ENTRY_SIZE directory)
  end.

(** One record: rejected, or an entry; the outer [None] is the [?]. *)
Definition parse_record (image : bytes) (a : AddressSpace) (record : bytes)
    : option (option RuntimeFunction) :=
  begin_rva ← read_le record 0 4;
  end_rva ← read_le record 4 4;
  unwind_info_rva ← read_le record 8 4;
  Some ('(begin_va, end_va) ← executable_range a begin_rva end_rva;
        unwind_info_va ← checked_add (image_base a) unwind_info_rva;
        Some (mkRuntime begin_rva end_rva unwind_info_rva begin_va end_va unwind_info_va
                (parse_unwind_info_at image a unwind_info_va))).

Definition push_record (image : bytes) (a : AddressSpace) (t : RuntimeFunctionTable) (record : bytes)
    : option RuntimeFunctionTable :=
  r ← parse_record image a record;
  Some match r with
       | None => mkTable (entries t) (S (rejected_entries t))
       | Some e => mkTable (entries t ++ [e]) (rejected_entries t)
       end.

(** The order of the sort: [begin_va], then [end_va], then [unwind_info_va].
    Entries equal in it are equal, so an unstable sort is a sort. *)
Definition entry_le (e f : RuntimeFunction) : Prop :=
  (begin_va e < begin_va f ∨
   begin_va e = begin_va f ∧
     (end_va e < end_va f ∨ end_va e = end_va f ∧ unwind_info_va e ≤ unwind_info_va f))%Z.
#[global] Instance entry_le_dec : RelDecision entry_le.
Proof. intros e f. unfold entry_le. apply _. Defined.

Definition parse_runtime_functions (image : bytes) (a : AddressSpace) : option RuntimeFunctionTable :=
  directory ← exception_directory image;
  match directory with
  | None => Some (mkTable [] 0)
  | Some (directory_rva, directory_size) =>
      if (directory_size =? 0)%Z
         || negb (directory_size mod Z.of_nat IMAGE_RUNTIME_FUNCTION_ENTRY_SIZE =? 0)%Z then None
      else
        directory_va ← checked_add (image_base a) directory_rva;
        directory ← slice_for_va a image directory_va directory_size;
        table ← fold_opt (push_record image a) (mkTable [] 0)
          (chunks (length directory / IMAGE_RUNTIME_FUNCTION_ENTRY_SIZE) directory);
        Some (mkTable (merge_sort entry_le (entries table)) (rejected_entries table))
  end.
