(* ===== verification/UnwindCorrect.v ===== *)
(** What the unwind metadata parsed is. The parser of Unwind reads the fixed
    prefix only: the codes stay within their slots, and the prefix a virtual
    address is parsed from is long enough. Then theorems on one record, on its
    bounded read and on the table of runtime functions. *)

From Stdlib Require Import Strings.Byte.
From stdpp Require Import sorting.
From S2P Require Import Prelude Journal MemoryMap Loader ModulePe ModulePeCorrect Unwind.
Import AddressSpace.

(** ** Prefixes *)

(** Both start with the same [n] bytes. *)
Definition agree (n : nat) (bs bs' : bytes) : Prop := n ≤ length bs ∧ n ≤ length bs' ∧ take n bs = take n bs'.

Lemma agree_sym n bs bs' : agree n bs bs' → agree n bs' bs.
Proof. intros (?&?&?). by split_and!. Qed.
Lemma agree_take n bs : n ≤ length bs → agree n bs (take n bs).
Proof. intros. split_and!; [done|rewrite length_take; lia|by rewrite take_take, Nat.min_id]. Qed.
Lemma agree_le n m bs bs' : m ≤ n → agree n bs bs' → agree m bs bs'.
Proof.
  intros L (?&?&E). split_and!; [lia..|]. apply (f_equal (take m)) in E.
  by rewrite !take_take, !Nat.min_l in E.
Qed.
Lemma agree_lookup n bs bs' i : agree n bs bs' → i < n → bs !! i = bs' !! i.
Proof.
  intros (_ & _ & E) L. rewrite <-(lookup_take_lt bs n i), <-(lookup_take_lt bs' n i) by done. by rewrite E.
Qed.
Lemma agree_read n bs bs' off len : agree n bs bs' → off + len ≤ n → read_le bs off len = read_le bs' off len.
Proof.
  intros A L. unfold read_le, slice. pose proof A as (?&?&_).
  rewrite !decide_True by lia. do 2 f_equal. apply list_eq. intros i.
  destruct (decide (i < len)); [rewrite !lookup_slice by done; apply (agree_lookup n); [done|lia]|].
  by rewrite !lookup_take_ge by lia.
Qed.

(** ** Codes *)

Lemma code_slots_range v oc oi n : unwind_code_slots v oc oi = Some n → 1 ≤ n ≤ 3.
Proof.
  unfold unwind_code_slots. intros E.
  repeat (case_match; simplify_eq; try lia).
Qed.

Section codes.
Context (total : nat) (bs bs' : bytes) (A : agree (4 + total * 2) bs bs').

Lemma byte_agree i k : i < total → k < 2 → unwind_code_byte bs i k = unwind_code_byte bs' i k.
Proof.
  intros. unfold unwind_code_byte, UNWIND_INFO_HEADER_SIZE. f_equal. apply (agree_lookup _ _ _ _ A). lia.
Qed.
Lemma u16_agree i : i < total → unwind_code_u16 bs i = unwind_code_u16 bs' i.
Proof.
  intros. unfold unwind_code_u16, UNWIND_INFO_HEADER_SIZE. apply (agree_read _ _ _ _ _ A). lia.
Qed.
Lemma u32_agree i : S i < total → unwind_code_u32 bs i = unwind_code_u32 bs' i.
Proof. intros. unfold unwind_code_u32. by rewrite !u16_agree by lia. Qed.

(** The payload lies in the slots of the operation. *)
Lemma operation_agree v i co oc oi n :
  unwind_code_slots v oc oi = Some n → i + n ≤ total →
  unwind_operation bs i co oc oi = unwind_operation bs' i co oc oi.
Proof.
  unfold unwind_code_slots, unwind_operation. intros E L.
  repeat (case_match; simplify_eq; try done);
    rewrite ?u16_agree, ?u32_agree, ?byte_agree by lia; done.
Qed.

Lemma parse_code_agree v i :
  i < total → parse_unwind_code bs v i total = parse_unwind_code bs' v i total.
Proof.
  intros L. unfold parse_unwind_code. rewrite !byte_agree by lia.
  destruct (unwind_code_byte bs' i 0) as [co|]; [|done]. simpl.
  destruct (unwind_code_byte bs' i 1) as [p|]; [|done]. simpl.
  destruct (unwind_code_slots _ _ _) as [n|] eqn:E; [|done]. simpl.
  destruct (code_slots_available i total n) eqn:C; [|done]. simpl.
  apply bool_decide_eq_true in C. by rewrite (operation_agree v i co _ _ n) by (done || lia).
Qed.

Lemma parse_codes_agree fuel v i :
  parse_codes fuel bs v total i = parse_codes fuel bs' v total i.
Proof.
  revert i. induction fuel as [|fuel IH]; intros i; [done|]. cbn [parse_codes].
  case_decide; [|done]. rewrite parse_code_agree by done.
  destruct (parse_unwind_code bs' v i total) as [c|]; [|done]. simpl. by rewrite IH.
Qed.
End codes.

(** ** The codes found *)

(** Codes one after the other over the slots [[from, to)]. *)
Fixpoint tiled (from to : nat) (cs : list UnwindCode) : Prop :=
  match cs with
  | [] => from = to
  | c :: cs => slot_index c = from ∧ 1 ≤ slots_used c ≤ 3 ∧ tiled (from + slots_used c) to cs
  end.

Lemma parse_code_slots bs v i total c :
  parse_unwind_code bs v i total = Some c →
  slot_index c = i ∧ 1 ≤ slots_used c ≤ 3 ∧ i + slots_used c ≤ total ∧
  (0 ≤ operation_info c < 16)%Z ∧ (0 ≤ operation_code c ≤ 10)%Z.
Proof.
  unfold parse_unwind_code. intros E.
  destruct (unwind_code_byte bs i 0) as [co|]; [|done]. simpl in E.
  destruct (unwind_code_byte bs i 1) as [p|] eqn:Ep; [|done]. simpl in E.
  destruct (unwind_code_slots _ _ _) as [n|] eqn:En; [|done]. simpl in E.
  destruct (code_slots_available i total n) eqn:C; [|done]. simpl in E.
  destruct (unwind_operation _ _ _ _ _) as [op|] eqn:Eo; [|done]. simpl in E.
  case_decide; [|done]. simplify_eq. simpl. apply code_slots_range in En.
  apply bool_decide_eq_true in C. unfold unwind_code_byte in Ep.
  apply fmap_Some in Ep as (b & _ & ->). pose proof (byte_val_bound b).
  split_and!; [done|lia|lia|lia| |..].
  - rewrite Z.shiftr_div_pow2 by lia. apply Z.div_pos; lia.
  - rewrite Z.shiftr_div_pow2 by lia. apply Z.div_lt_upper_bound; lia.
  - apply Z.land_nonneg. lia.
  - unfold unwind_operation in Eo. destruct (Z.land (byte_val b) 15) as [|q|q]; [lia| |done].
    do 4 (try destruct q as [q|q|]); try done; lia.
Qed.

Lemma parse_codes_tiled fuel bs v total i cs :
  i ≤ total → parse_codes fuel bs v total i = Some cs →
  tiled i total cs ∧ Forall (λ c, (0 ≤ operation_info c < 16)%Z) cs.
Proof.
  revert i cs. induction fuel as [|fuel IH]; intros i cs L E; [done|]. cbn [parse_codes] in E.
  case_decide as D; [|simplify_eq; split; [simpl; lia|done]].
  destruct (parse_unwind_code bs v i total) as [c|] eqn:Ec; [|done]. simpl in E.
  apply parse_code_slots in Ec as (Es & R & L' & O & _).
  destruct (parse_codes fuel bs v total _) as [cs'|] eqn:Ecs; [|done]. simplify_eq/=.
  apply IH in Ecs as [T F]; [|lia]. split; [split_and!; [done|lia|lia|done]|by constructor].
Qed.

(** Running out of fuel is not why a parse fails. *)
Lemma parse_codes_fuel fuel fuel' bs v total i :
  total - i < fuel → total - i < fuel' →
  parse_codes fuel bs v total i = parse_codes fuel' bs v total i.
Proof.
  revert fuel' i. induction fuel as [|fuel IH]; intros fuel' i L L'; [lia|].
  destruct fuel' as [|fuel']; [lia|]. cbn [parse_codes]. case_decide; [|done].
  destruct (parse_unwind_code bs v i total) as [c|] eqn:Ec; [|done]. simpl.
  apply parse_code_slots in Ec as (_ & R & _). f_equal. apply IH; lia.
Qed.

(** ** The fixed prefix *)

Lemma align_spec n : n ≤ align_to_dword n < n + 4 ∧ align_to_dword n mod 4 = 0.
Proof.
  unfold align_to_dword. pose proof (Nat.div_mod_eq (n + 3) 4).
  pose proof (Nat.mod_upper_bound (n + 3) 4). split; [lia|].
  by rewrite Nat.mul_comm, Nat.Div0.mod_mul.
Qed.

Lemma b2_bound (bs : bytes) b : byte_val <$> bs !! 2 = Some b → (0 ≤ b < 256)%Z.
Proof. intros (x & _ & ->)%fmap_Some. apply byte_val_bound. Qed.

(** It exists for every header, within the cap. *)
Lemma minimum_size_Some bs :
  4 ≤ length bs → ∃ m b2, unwind_info_minimum_size bs = Some m ∧ byte_val <$> bs !! 2 = Some b2 ∧
    align_to_dword (4 + Z.to_nat b2 * 2) ≤ m ≤ 528.
Proof.
  intros L. unfold unwind_info_minimum_size, UNWIND_INFO_HEADER_SIZE.
  rewrite decide_False by lia.
  destruct (lookup_lt_is_Some_2 bs 0) as [x0 ->]; [lia|].
  destruct (lookup_lt_is_Some_2 bs 2) as [x2 ->]; [lia|].
  cbn [fmap option_fmap option_map mbind option_bind].
  pose proof (byte_val_bound x2). pose proof (align_spec (4 + Z.to_nat (byte_val x2) * 2)) as [A _].
  assert (align_to_dword (4 + Z.to_nat (byte_val x2) * 2) ≤ 516) as Cap.
  { transitivity (align_to_dword 514); [|done]. unfold align_to_dword.
    apply Nat.mul_le_mono_l, Nat.Div0.div_le_mono. lia. }
  unfold MAX_UNWIND_INFO_FIXED_BYTES, IMAGE_RUNTIME_FUNCTION_ENTRY_SIZE in *.
  destruct (negb (Z.land _ UNW_FLAG_CHAININFO =? 0)%Z);
    [|destruct (negb (Z.land _ (Z.lor _ _) =? 0)%Z)];
    rewrite decide_True by lia; eexists _, _; (split; [done|]); (split; [done|]); lia.
Qed.
Lemma minimum_size_agree bs bs' : agree 4 bs bs' → unwind_info_minimum_size bs = unwind_info_minimum_size bs'.
Proof.
  intros A. unfold unwind_info_minimum_size, UNWIND_INFO_HEADER_SIZE. pose proof A as (?&?&_).
  rewrite !decide_False by lia. by rewrite (agree_lookup 4 bs bs' 0), (agree_lookup 4 bs bs' 2) by (done || lia).
Qed.

(** ** The fixed prefix *)

Lemma tail_agree n bs bs' ch ha off :
  agree n bs bs' → (ch = true → off + 12 ≤ n) → (ha = true → off + 4 ≤ n) →
  parse_tail bs ch ha off = parse_tail bs' ch ha off.
Proof.
  intros A C H. unfold parse_tail. destruct ch; [|destruct ha; [|done]].
  - specialize (C eq_refl). by rewrite !(agree_read _ _ _ _ _ A) by lia.
  - specialize (H eq_refl). by rewrite !(agree_read _ _ _ _ _ A) by lia.
Qed.

(** What lies behind the prefix does not matter. *)
Lemma parse_prefix bs bs' m :
  unwind_info_minimum_size bs = Some m → agree m bs bs' →
  parse_unwind_info bs = parse_unwind_info bs'.
Proof.
  intros M A. assert (4 ≤ length bs) as L4
    by (unfold unwind_info_minimum_size, UNWIND_INFO_HEADER_SIZE in M; case_decide; [done|lia]).
  destruct (minimum_size_Some bs L4) as (m' & b2 & M' & E2 & B). rewrite M in M'. simplify_eq.
  pose proof (align_spec (4 + Z.to_nat b2 * 2)) as [Al _].
  unfold unwind_info_minimum_size in M. rewrite decide_False in M by (unfold UNWIND_INFO_HEADER_SIZE; lia).
  rewrite E2 in M. unfold parse_unwind_info. pose proof A as (?&?&_).
  rewrite <-(agree_lookup m' bs bs' 0), <-(agree_lookup m' bs bs' 1), <-(agree_lookup m' bs bs' 2),
    <-(agree_lookup m' bs bs' 3) by (done || lia). rewrite E2.
  destruct (byte_val <$> bs !! 0) as [b0|]; [|done]. destruct (byte_val <$> bs !! 1) as [b1|]; [|done].
  destruct (byte_val <$> bs !! 3) as [b3|]; [|done]. cbn [mbind option_bind] in *.
  set (ch := negb (Z.land _ UNW_FLAG_CHAININFO =? 0)%Z) in *.
  set (ha := negb (Z.land _ (Z.lor _ _) =? 0)%Z) in *.
  destruct (negb _ || negb _); [done|]. destruct (ha && ch) eqn:Both; [done|].
  destruct ((_ =? 0)%Z && negb _); [done|].
  unfold UNWIND_INFO_HEADER_SIZE in *. rewrite !decide_False by lia.
  rewrite (parse_codes_agree (Z.to_nat b2) bs bs') by (apply (agree_le m'); [lia|done]).
  rewrite (tail_agree m' bs bs'); [done|done| |].
  - intros C. rewrite C in M. unfold IMAGE_RUNTIME_FUNCTION_ENTRY_SIZE in M. case_decide; simplify_eq. lia.
  - intros C. rewrite C in M, Both. simpl in Both. rewrite Both in M. case_decide; simplify_eq. lia.
Qed.

(** What a successful parse has checked. *)
Lemma parse_inv bs u :
  parse_unwind_info bs = Some u →
  ∃ x0 x1 x2 x3, bs !! 0 = Some x0 ∧ bs !! 1 = Some x1 ∧ bs !! 2 = Some x2 ∧ bs !! 3 = Some x3 ∧
    let fl := Z.shiftr (byte_val x0) 3 in
    let ha := negb (Z.land fl (Z.lor UNW_FLAG_EHANDLER UNW_FLAG_UHANDLER) =? 0)%Z in
    let ch := negb (Z.land fl UNW_FLAG_CHAININFO =? 0)%Z in
    let reg := Z.land (byte_val x3) 0x0f in
    let fo := Z.shiftr (byte_val x3) 4 in
    let n := Z.to_nat (byte_val x2) in
    (Z.land (byte_val x0) 7 = 1 ∨ Z.land (byte_val x0) 7 = 2)%Z ∧ ha && ch = false ∧
    (reg = 0 → fo = 0)%Z ∧ align_to_dword (4 + n * 2) ≤ length bs ∧
    ∃ cs tl, parse_codes (S n) bs (Z.land (byte_val x0) 7) n 0 = Some cs ∧
      parse_tail bs ch ha (align_to_dword (4 + n * 2)) = Some tl ∧
      u = mkUnwind (Z.land (byte_val x0) 7) fl (byte_val x1) n
            (if (reg =? 0)%Z then None else Some reg) fo (fo * 16) cs (align_to_dword (4 + n * 2)) tl.
Proof.
  unfold parse_unwind_info. intros E.
  destruct (bs !! 0) as [x0|]; [|done]. destruct (bs !! 1) as [x1|]; [|done].
  destruct (bs !! 2) as [x2|]; [|done]. destruct (bs !! 3) as [x3|]; [|done].
  cbn [fmap option_fmap option_map mbind option_bind] in E. exists x0, x1, x2, x3.
  do 4 (split; [done|]). cbv zeta in E |- *.
  set (ha := negb (Z.land _ (Z.lor _ _) =? 0)%Z) in *.
  set (ch := negb (Z.land _ UNW_FLAG_CHAININFO =? 0)%Z) in *.
  destruct (negb (_ || _) || negb _) eqn:V in E; [done|]. destruct (ha && ch); [done|].
  destruct ((_ =? 0)%Z && negb _) eqn:F in E; [done|]. unfold UNWIND_INFO_HEADER_SIZE in E.
  case_decide; [done|]. case_decide; [done|].
  destruct (parse_codes _ _ _ _ _) as [cs|]; [|done]. cbn [mbind option_bind] in E.
  destruct (parse_tail _ _ _ _) as [tl|]; [|done]. cbn [mbind option_bind] in E. simplify_eq.
  apply orb_false_iff in V as [V _]. apply negb_false_iff, orb_true_iff in V.
  rewrite !Z.eqb_eq in V. split; [done|]. split; [done|]. split; [|split; [lia|by exists cs, tl]].
  intros R. rewrite R in F. simpl in F. by apply negb_false_iff, Z.eqb_eq in F.
Qed.

(** A parse needs the prefix. *)
Lemma parse_long_enough bs u m :
  parse_unwind_info bs = Some u → unwind_info_minimum_size bs = Some m → m ≤ length bs.
Proof.
  intros (x0 & x1 & x2 & x3 & E0 & _ & E2 & _ & _ & _ & _ & L & cs & tl & _ & T & _)%parse_inv M.
  unfold unwind_info_minimum_size, UNWIND_INFO_HEADER_SIZE in M. case_decide; [done|].
  rewrite E0, E2 in M. cbn [fmap option_fmap option_map mbind option_bind] in M.
  unfold IMAGE_RUNTIME_FUNCTION_ENTRY_SIZE in M. unfold parse_tail in T.
  destruct (negb (Z.land _ UNW_FLAG_CHAININFO =? 0)%Z).
  - case_decide; simplify_eq.
    apply bind_Some in T as (v1 & _ & T). apply bind_Some in T as (v2 & _ & T).
    apply bind_Some in T as (v3 & R & _). apply read_le_bound in R as [_ R]. lia.
  - destruct (negb (Z.land _ (Z.lor _ _) =? 0)%Z); case_decide; simplify_eq; [|lia].
    apply bind_Some in T as (v1 & R & _). apply read_le_bound in R as [_ R]. lia.
Qed.

Lemma get_range_prefix image off n m bs :
  (0 ≤ m ≤ n)%Z → get_range image off n = Some bs → get_range image off m = Some (take (Z.to_nat m) bs).
Proof.
  intros L E. unfold get_range in *. destruct (Z.leb_spec (off + n) (Z.of_nat (length image))); [|done].
  rewrite (proj2 (Z.leb_le _ _)) by lia. simplify_eq. rewrite take_take. do 2 f_equal. lia.
Qed.
Lemma slice_prefix a image va n m bs :
  (0 ≤ m ≤ n)%Z → slice_for_va a image va n = Some bs →
  slice_for_va a image va m = Some (take (Z.to_nat m) bs).
Proof.
  intros L E. unfold slice_for_va in *.
  destruct (section_at_va a va) as [s|]; [|done]. cbn [mbind option_bind] in *.
  destruct (va_to_offset _ _ _) as [off|]; [|done]. cbn [mbind option_bind] in *.
  destruct (Z.ltb_spec u64_max (off + n)); [done|]. rewrite (proj2 (Z.ltb_ge _ _)) by lia.
  by apply (get_range_prefix _ _ n).
Qed.

(** Parsing at a virtual address reads at most 528 bytes and gives what
    parsing any longer slice from there gives: all of it when the slice has 528
    bytes, and whatever parses when it is shorter. The cap rejects no header. *)
Theorem unwind_prefix_enough a image va n bs :
  wf_space a → slice_for_va a image va (Z.of_nat n) = Some bs → 4 ≤ n →
  (528 ≤ n ∨ is_Some (parse_unwind_info bs)) →
  parse_unwind_info_at image a va = parse_unwind_info bs ∧
  ∃ m, unwind_info_minimum_size bs = Some m ∧ m ≤ MAX_UNWIND_INFO_FIXED_BYTES ∧
    parse_unwind_info (take m bs) = parse_unwind_info bs.
Proof.
  intros W E L4 H. pose proof (slice_prefix a image va (Z.of_nat n) 4 bs ltac:(lia) E) as E4.
  destruct (slice_for_va_spec a image va (Z.of_nat n) bs W ltac:(lia) E) as (_ & _ & Ln & _).
  assert (length bs = n) as Lb by lia.
  destruct (minimum_size_Some bs) as (m & b2 & M & _ & _ & Cap); [lia|].
  assert (m ≤ length bs) as Lm.
  { destruct H as [H|[u H]]; [lia|]. by eapply parse_long_enough. }
  pose proof (parse_prefix bs (take m bs) m M (agree_take m bs Lm)) as P.
  pose proof (slice_prefix a image va (Z.of_nat n) (Z.of_nat m) bs ltac:(lia) E) as Em.
  split; [|exists m; by split_and!]. unfold parse_unwind_info_at.
  change (Z.of_nat UNWIND_INFO_HEADER_SIZE) with 4%Z. rewrite E4. cbn [mbind option_bind].
  rewrite <-(minimum_size_agree bs) by (apply agree_take; lia). rewrite M. cbn [mbind option_bind].
  rewrite Em. cbn [mbind option_bind]. by rewrite Nat2Z.id.
Qed.

(** ** One record *)

Lemma flags_split fl :
  negb (Z.land fl (Z.lor UNW_FLAG_EHANDLER UNW_FLAG_UHANDLER) =? 0)%Z =
    negb (Z.land fl UNW_FLAG_EHANDLER =? 0)%Z || negb (Z.land fl UNW_FLAG_UHANDLER =? 0)%Z.
Proof.
  rewrite Z.land_lor_distr_r. apply eq_true_iff_eq.
  rewrite orb_true_iff, !negb_true_iff, !Z.eqb_neq, Z.lor_eq_0_iff. lia.
Qed.

(** The tail and the flags agree. *)
Lemma parse_tail_ok bs fl off tl :
  let ha := negb (Z.land fl (Z.lor UNW_FLAG_EHANDLER UNW_FLAG_UHANDLER) =? 0)%Z in
  let ch := negb (Z.land fl UNW_FLAG_CHAININFO =? 0)%Z in
  let eh := negb (Z.land fl UNW_FLAG_EHANDLER =? 0)%Z in
  let uh := negb (Z.land fl UNW_FLAG_UHANDLER =? 0)%Z in
  ha && ch = false → parse_tail bs ch ha off = Some tl →
  match tl with
  | Chained b e w => ch = true ∧ eh = false ∧ uh = false ∧ is_u32 b ∧ is_u32 e ∧ is_u32 w
  | Handler h o => ch = false ∧ o = off + 4 ∧ is_u32 h ∧ eh || uh = true
  | NoTail => ch = false ∧ eh = false ∧ uh = false
  end.
Proof.
  intros ha ch eh uh Both T. pose proof (flags_split fl) as S. fold ha eh uh in S. clearbody ha ch eh uh.
  assert (∀ o v, read_le bs o 4 = Some v → is_u32 v) as R32.
  { intros o v R. apply read_le_bound in R as [R _]. unfold is_u32, u32_max.
    change (256 ^ Z.of_nat 4)%Z with (2 ^ 32)%Z in R. lia. }
  unfold parse_tail in T. destruct ch.
  - rewrite andb_true_r in Both. subst. symmetry in S. apply orb_false_iff in S as [-> ->].
    apply bind_Some in T as (v1 & ?%R32 & T). apply bind_Some in T as (v2 & ?%R32 & T).
    apply bind_Some in T as (v3 & ?%R32 & T). by simplify_eq.
  - destruct ha.
    + apply bind_Some in T as (v1 & ?%R32 & T). by simplify_eq.
    + symmetry in S. apply orb_false_iff in S as [-> ->]. by simplify_eq.
Qed.

(** A record parsed has version 1 or 2 and consistent flags; its codes cover
    its slots one after the other without gap or overlap, each within the array;
    the tail starts at the next multiple of four and is a chained entry, a
    handler or nothing exactly as the flags say; registers and scaled offsets
    are in their ranges. *)
Theorem unwind_info_well_formed bs u :
  parse_unwind_info bs = Some u →
  (version u = 1 ∨ version u = 2)%Z ∧ code_slots u < 256 ∧ tiled 0 (code_slots u) (codes u) ∧
  Forall (λ c, 0 ≤ operation_info c < 16)%Z (codes u) ∧
  4 + 2 * code_slots u ≤ tail_offset u < 4 + 2 * code_slots u + 4 ∧ tail_offset u mod 4 = 0 ∧
  tail_offset u ≤ length bs ∧
  match frame_register u with Some r => 0 < r < 16 | None => frame_offset u = 0 end%Z ∧
  (frame_offset_bytes u = 16 * frame_offset u ∧ 0 ≤ frame_offset u < 16)%Z ∧
  match tail u with
  | Chained b e w => is_chained u = true ∧ has_exception_handler u = false ∧
      has_termination_handler u = false ∧ is_u32 b ∧ is_u32 e ∧ is_u32 w
  | Handler h off => is_chained u = false ∧ off = tail_offset u + 4 ∧ is_u32 h ∧
      (has_exception_handler u || has_termination_handler u) = true
  | NoTail => is_chained u = false ∧ has_exception_handler u = false ∧ has_termination_handler u = false
  end.
Proof.
  intros (x0 & x1 & x2 & x3 & E0 & E1 & E2 & E3 & V & Both & F & L & cs & tl & Cs & T & ->)%parse_inv.
  unfold has_exception_handler, has_termination_handler, is_chained.
  cbn [version flags code_slots frame_register frame_offset frame_offset_bytes codes tail_offset tail].
  pose proof (byte_val_bound x2). pose proof (byte_val_bound x3).
  pose proof (align_spec (4 + Z.to_nat (byte_val x2) * 2)) as [Al Am].
  destruct (parse_codes_tiled _ _ _ _ _ _ (Nat.le_0_l _) Cs) as [Ti Op].
  set (al := align_to_dword _) in *.
  assert (0 ≤ Z.shiftr (byte_val x3) 4 < 16)%Z as Fo.
  { rewrite Z.shiftr_div_pow2 by lia. split; [apply Z.div_pos; lia|apply Z.div_lt_upper_bound; lia]. }
  assert (0 ≤ Z.land (byte_val x3) 15 < 16)%Z as Re.
  { change 15%Z with (Z.ones 4). rewrite Z.land_ones by lia. apply Z.mod_pos_bound. lia. }
  do 4 (split; [done || lia|]). split; [lia|]. do 2 (split; [done|]). split; [|split; [lia|]].
  { destruct (Z.eqb_spec (Z.land (byte_val x3) 15) 0); [by apply F|lia]. }
  by apply (parse_tail_ok bs (Z.shiftr (byte_val x0) 3) al tl).
Qed.

(** ** The table *)

Lemma checked_add_Some x y z : checked_add x y = Some z ↔ z = (x + y)%Z ∧ (x + y ≤ u64_max)%Z.
Proof. unfold checked_add. destruct (Z.ltb_spec u64_max (x + y)); naive_solver lia. Qed.

(** A range accepted begins in an executable section and ends within it. *)
Lemma executable_range_spec a b e bv ev :
  executable_range a b e = Some (bv, ev) →
  (b < e)%Z ∧ bv = (image_base a + b)%Z ∧ ev = (image_base a + e)%Z ∧
  is_executable_va a bv = true ∧
  ∃ s, s ∈ sections a ∧ is_executable s = true ∧ (image_base a + vaddr s ≤ bv)%Z ∧
    (ev ≤ image_base a + vaddr s + Z.max (vsize s) (raw_size s))%Z.
Proof.
  unfold executable_range. destruct (Z.leb_spec e b); [done|]. intros E.
  apply bind_Some in E as (x & [-> _]%checked_add_Some & E).
  apply bind_Some in E as (y & [-> _]%checked_add_Some & E).
  apply bind_Some in E as (s & Hs & E). destruct (is_executable s) eqn:X; [|done]. simpl in E.
  apply bind_Some in E as (z & [-> _]%checked_add_Some & E).
  apply bind_Some in E as (w & [-> _]%checked_add_Some & E).
  destruct (_ && _) eqn:R; [|done]. injection E as <- <-.
  apply andb_true_iff in R as [R1%Z.leb_le R2%Z.leb_le].
  split_and!; [done..| |].
  - unfold is_executable_va. by rewrite Hs.
  - exists s. apply find_first_Some in Hs as [Hs _]. by split_and!.
Qed.

Lemma chunks_length n dir : 12 * n ≤ length dir →
  length (chunks n dir) = n ∧ Forall (λ r, length r = 12) (chunks n dir).
Proof.
  revert dir. induction n as [|n IH]; intros dir L; [done|]. simpl.
  unfold IMAGE_RUNTIME_FUNCTION_ENTRY_SIZE in *.
  destruct (IH (drop 12 dir)) as [E F]; [rewrite length_drop; lia|]. split; [by rewrite E|].
  constructor; [rewrite length_take; lia|done].
Qed.

(** The entries of the records. *)
Definition record_entries (image : bytes) (a : AddressSpace) (records : list bytes) : list RuntimeFunction :=
  omap (λ r, mjoin (parse_record image a r)) records.

Lemma push_records image a t records :
  Forall (λ r, length r = 12) records →
  ∃ t', fold_opt (push_record image a) t records = Some t' ∧
    entries t' = entries t ++ record_entries image a records ∧
    rejected_entries t' + length (record_entries image a records) = rejected_entries t + length records.
Proof.
  intros F. revert t. induction F as [|r l Hr F IH]; intros t; cbn [fold_opt].
  { exists t. simpl. rewrite app_nil_r. split_and!; [done..|lia]. }
  destruct (read_le_Some r 0 4) as [b Eb]; [lia|]. destruct (read_le_Some r 4 4) as [e Ee]; [lia|].
  destruct (read_le_Some r 8 4) as [w Ew]; [lia|].
  assert (∃ x, parse_record image a r = Some x) as [x Ex].
  { unfold parse_record. rewrite Eb, Ee, Ew. by eexists. }
  assert (record_entries image a (r :: l) =
    match x with Some f => f :: record_entries image a l | None => record_entries image a l end) as ->
    by (unfold record_entries; cbn [omap list_omap]; rewrite Ex; by destruct x).
  assert (push_record image a t r = Some match x with
    | None => mkTable (entries t) (S (rejected_entries t))
    | Some f => mkTable (entries t ++ [f]) (rejected_entries t) end) as ->
    by (unfold push_record; by rewrite Ex).
  cbn [mbind option_bind]. destruct x as [f|].
  - destruct (IH (mkTable (entries t ++ [f]) (rejected_entries t))) as (t' & E & Ee' & Er).
    exists t'. rewrite E, Ee'. simpl in *. split_and!; [done|by rewrite <-app_assoc|lia].
  - destruct (IH (mkTable (entries t) (S (rejected_entries t)))) as (t' & E & Ee' & Er).
    exists t'. rewrite E, Ee'. simpl in *. split_and!; [done..|lia].
Qed.

#[global] Instance entry_le_trans : Transitive entry_le.
Proof. intros x y z. unfold entry_le. lia. Qed.
#[global] Instance entry_le_total : Total entry_le.
Proof. intros x y. unfold entry_le. lia. Qed.

(** Every entry came from an accepted range. *)
Lemma record_entry_spec image a records e :
  e ∈ record_entries image a records →
  executable_range a (begin_rva e) (end_rva e) = Some (begin_va e, end_va e) ∧
  unwind_info e = parse_unwind_info_at image a (image_base a + unwind_info_rva e).
Proof.
  intros He. unfold record_entries in He.
  apply list_elem_of_omap in He as (r & _ & He). unfold parse_record in He.
  destruct (read_le r 0 4) as [b|]; [|done]. destruct (read_le r 4 4) as [en|]; [|done].
  destruct (read_le r 8 4) as [w|]; [|done]. cbn [mbind option_bind mjoin option_join] in He.
  apply bind_Some in He as ([bv ev] & Er & He).
  apply bind_Some in He as (uv & [-> _]%checked_add_Some & He). injection He as <-. by split.
Qed.

Lemma fold_records image a t records t' :
  fold_opt (push_record image a) t records = Some t' →
  entries t' = entries t ++ record_entries image a records.
Proof.
  revert t. induction records as [|r l IH]; intros t; cbn [fold_opt].
  { intros [= <-]. unfold record_entries. simpl. by rewrite app_nil_r. }
  destruct (push_record image a t r) as [t1|] eqn:E1; [|done]. intros ->%IH.
  unfold push_record in E1. destruct (parse_record image a r) as [x|] eqn:Ex; [|done].
  cbn [mbind option_bind] in E1. injection E1 as <-. unfold record_entries.
  cbn [omap list_omap]. rewrite Ex. destruct x as [f|]; [|done]. cbn. by rewrite <-app_assoc.
Qed.
Lemma entry_executable image a t e :
  parse_runtime_functions image a = Some t → e ∈ entries t → is_executable_va a (begin_va e) = true.
Proof.
  unfold parse_runtime_functions. intros E He. apply bind_Some in E as ([[rva size]|] & _ & E).
  2:{ injection E as <-. by apply not_elem_of_nil in He. }
  destruct (_ || _) in E; [done|]. apply bind_Some in E as (dv & _ & E).
  apply bind_Some in E as (dir & _ & E). apply bind_Some in E as (t1 & E1 & E). injection E as <-.
  cbn [entries] in He. rewrite merge_sort_Permutation, (fold_records _ _ _ _ _ E1) in He.
  apply record_entry_spec in He as [He _]. by apply executable_range_spec in He as (_ & _ & _ & ? & _).
Qed.

(** For a mapped exception directory of whole records the table lists, in
    order of begin, end and unwind address, exactly the records whose range
    starts in an executable section and ends within it; the others are counted.
    Entries keep their RVAs and the unwind metadata read at their address. *)
Theorem runtime_functions_correct image a rva size dir :
  exception_directory image = Some (Some (rva, size)) →
  (size mod 12 = 0)%Z → (0 < size)%Z → (image_base a + rva ≤ u64_max)%Z →
  slice_for_va a image (image_base a + rva) size = Some dir →
  ∃ t, parse_runtime_functions image a = Some t ∧
    let records := chunks (length dir / 12) dir in
    Sorted entry_le (entries t) ∧ entries t ≡ₚ record_entries image a records ∧
    rejected_entries t + length (entries t) = length dir / 12 ∧
    ∀ e, e ∈ entries t →
      (begin_rva e < end_rva e)%Z ∧ begin_va e = (image_base a + begin_rva e)%Z ∧
      end_va e = (image_base a + end_rva e)%Z ∧
      unwind_info e = parse_unwind_info_at image a (image_base a + unwind_info_rva e) ∧
      is_executable_va a (begin_va e) = true ∧
      ∃ s, s ∈ sections a ∧ is_executable s = true ∧ (image_base a + vaddr s ≤ begin_va e)%Z ∧
        (end_va e ≤ image_base a + vaddr s + Z.max (vsize s) (raw_size s))%Z.
Proof.
  intros Ed M P B Sl. unfold parse_runtime_functions. rewrite Ed. change (Z.of_nat IMAGE_RUNTIME_FUNCTION_ENTRY_SIZE) with 12%Z.
  cbn [mbind option_bind]. rewrite M, (proj2 (Z.eqb_neq size 0)) by lia. cbn [Z.eqb negb orb].
  rewrite (proj2 (checked_add_Some _ _ _)) by (by split). cbn [mbind option_bind]. rewrite Sl.
  cbn [mbind option_bind]. change IMAGE_RUNTIME_FUNCTION_ENTRY_SIZE with 12.
  destruct (chunks_length (length dir / 12) dir) as [Lc Fc]; [apply Nat.Div0.mul_div_le|].
  destruct (push_records image a (mkTable [] 0) _ Fc) as (t & E & Ee & Er). rewrite E. cbn [entries rejected_entries mbind option_bind] in *.
  eexists. split; [done|]. cbn [entries rejected_entries]. rewrite Ee. rewrite Lc in Er.
  change ([] ++ ?l) with l. set (es := record_entries _ _ _) in *.
  pose proof (merge_sort_Permutation entry_le es) as Pm.
  split_and!; [apply Sorted_merge_sort; apply _|done|rewrite Pm; lia|].
  intros e He. rewrite Pm in He. apply record_entry_spec in He as [Hr Hu].
  apply executable_range_spec in Hr as (?&?&?&?&?). by split_and!.
Qed.

(** ** An image *)

(** The records of the tests: a frame pointer, a save and two allocations; a
    chained entry. *)
Definition frame_record : bytes := [x01; x0f; x04; x25; x0c; x34; x04; x00; x07; x72; x03; x50].

Example frame_record_parsed :
  (λ u, (map operation (codes u), frame_register u, frame_offset_bytes u, tail_offset u))
    <$> parse_unwind_info frame_record =
  Some ([SaveNonVol 3 32; AllocSmall 64; PushNonVol 5], Some 5%Z, 32%Z, 12).
Proof. vm_compute. reflexivity. Qed.

Lemma unwind_info_well_formed_witness :
  match parse_unwind_info frame_record with
  | Some u => tiled 0 (code_slots u) (codes u)
  | None => False
  end.
Proof.
  destruct (parse_unwind_info frame_record) as [u|] eqn:E; [|vm_compute in E; discriminate].
  by destruct (unwind_info_well_formed frame_record u E) as (_ & _ & ? & _).
Defined.

(** An image with one runtime function and one record of an empty range. *)
Definition u16 (off : nat) (v : Z) (image : bytes) : bytes := default image (patch_at image off (to_le 2 v)).
Definition u32 (off : nat) (v : Z) (image : bytes) : bytes := default image (patch_at image off (to_le 4 v)).
Definition pdata_image : bytes :=
  u16 0 0x5a4d (u32 0x3c 0x40 (u32 0x40 0x4550 (u16 0x44 0x8664 (u16 0x54 0xf0
    (u16 0x58 0x20b (u32 (0x58 + 108) 16 (u32 (0x58 + 136) 0x2000 (u32 (0x58 + 140) 24
      (u32 0x180 0x1010 (u32 0x184 0x1040 (u32 0x188 0x3000
        (u32 0x18c 0x1050 (u32 0x190 0x1050 (u32 0x194 0x3000
          (u32 0x1a0 0x00010301 (u32 0x1a4 0x00000203 (replicate 0x1c0 x00))))))))))))))))).
Definition pdata_space : AddressSpace :=
  mkSpace 0x140000000
    [mkSection 0x1000 0x300 0x100 0x10 0x60000020; mkSection 0x2000 0x100 0x180 0x20 0x40000040;
     mkSection 0x3000 0x100 0x1a0 0x20 0x40000040].

Lemma pdata_space_wf : wf_space pdata_space.
Proof.
  split; [by vm_compute|]. repeat (constructor; [constructor; by vm_compute|]). constructor.
Qed.

Lemma unwind_prefix_enough_witness :
  match slice_for_va pdata_space pdata_image 0x140003000 8 with
  | Some bs => parse_unwind_info_at pdata_image pdata_space 0x140003000 = parse_unwind_info bs
  | None => False
  end.
Proof.
  destruct (slice_for_va pdata_space pdata_image 0x140003000 8) as [bs|] eqn:E;
    [|vm_compute in E; discriminate].
  apply (unwind_prefix_enough pdata_space pdata_image 0x140003000 8 bs);
    [exact pdata_space_wf|exact E|lia|right].
  vm_compute in E. injection E as <-. vm_compute. eexists. reflexivity.
Defined.

Definition pdata_directory : bytes :=
  default [] (slice_for_va pdata_space pdata_image 0x140002000 24).

Lemma runtime_functions_correct_witness :
  ∃ t, parse_runtime_functions pdata_image pdata_space = Some t ∧
    Sorted entry_le (entries t) ∧ rejected_entries t + length (entries t) = length pdata_directory / 12.
Proof.
  destruct (runtime_functions_correct pdata_image pdata_space 0x2000 24 pdata_directory)
    as (t & Et & So & _ & L & _).
  - vm_compute. reflexivity.
  - reflexivity.
  - reflexivity.
  - vm_compute. discriminate.
  - vm_compute. reflexivity.
  - exists t. split; [exact Et|]. split; [exact So|exact L].
Defined.

Example pdata_table :
  (λ t, (map (λ e, (begin_va e, end_va e, codes <$> unwind_info e)) (entries t), rejected_entries t))
    <$> parse_runtime_functions pdata_image pdata_space =
  Some ([(0x140001010%Z, 0x140001040%Z, Some [mkCode 0 3 2 0 1 (AllocSmall 8)])], 1).
Proof. vm_compute. reflexivity. Qed.
