(* ===== verification/Analysis.v ===== *)
(** The analysis of an image, [src/analysis/mod.rs]: the sweep, the runtime
    functions, the seeds, the discovery and the cross references put together.
    What the code builds later on request (search indexes, sketches, the evidence
    index) is not part of the record here. *)

From Stdlib Require Import Strings.Byte.
From S2P Require Import Prelude Data Ops Journal Loader FlowGraph CodeIndex CodeIndexFacts Discovery DiscoveryFacts Callees DiscoveryCorrect Unwind UnwindCorrect.
Import Images.
Import AddressSpace Functions Symbols.

(** ** [Analysis] *)

Record Analysis := mkAnalysis {
  an_code_index : CodeIndex;
  an_runtime_functions : RuntimeFunctionTable;
  an_functions : gmap Z Function;
  an_xrefs : XrefIndex
}.

(** [parse_runtime_functions(..).unwrap_or_default()] on 64-bit images. *)
Definition runtime_functions_of (image : bytes) (a : AddressSpace) (bitness : Z) : RuntimeFunctionTable :=
  if (bitness =? 64)%Z then default (mkTable [] 0) (parse_runtime_functions image a)
  else mkTable [] 0.

(** The roots before they are sorted: entry point, exported and function
    symbols, runtime functions, hints. *)
Definition roots (entry_va : Z) (symbols : gmap Z Symbol) (runtime_functions : RuntimeFunctionTable)
    (entry_hints : list Z) : list Z :=
  entry_va ::
  omap (λ '(addr, sym), if bool_decide (sym_kind sym = Export_ ∨ sym_kind sym = Function_)
                        then Some addr else None) (btree_entries symbols)
  ++ entry_points runtime_functions ++ entry_hints.
Definition seeds_of (entry_va : Z) (symbols : gmap Z Symbol) (runtime_functions : RuntimeFunctionTable)
    (entry_hints : list Z) : list Z :=
  dedup (sort_by_key id (roots entry_va symbols runtime_functions entry_hints)).

(** [build_with_entry_hints] *)
Definition build_analysis {D : Type} `{!Decoder D, !MemoryUse} (image : bytes) (a : AddressSpace) (bitness entry_va : Z)
    (symbols : gmap Z Symbol) (entry_hints : list Z) : option Analysis :=
  code_index ← build (D := D) image a bitness;
  let runtime_functions := runtime_functions_of image a bitness in
  let seeds := seeds_of entry_va symbols runtime_functions entry_hints in
  functions ← (if decide (entry_hints = []) then discover_functions code_index a seeds
               else discover_functions_with_entry_hints code_index a seeds entry_hints);
  Some (mkAnalysis code_index runtime_functions functions (build_xrefs a bitness code_index)).

(** ** Facts *)

Lemma dedup_elem l x : x ∈ dedup l ↔ x ∈ l.
Proof.
  induction l as [|y [|z l] IH]; [done..|]. cbn [dedup].
  destruct (Z.eqb_spec y z) as [->|].
  - rewrite IH. split; [by right|]. intros [->|?]%elem_of_cons; [by left|done].
  - by rewrite !(elem_of_cons _ x y), IH.
Qed.
Lemma elem_of_seeds entry_va symbols rf hints va :
  va ∈ seeds_of entry_va symbols rf hints ↔ va ∈ roots entry_va symbols rf hints.
Proof. unfold seeds_of. by rewrite dedup_elem, sort_by_key_perm. Qed.
Lemma hints_are_seeds entry_va symbols rf hints : hints ⊆ seeds_of entry_va symbols rf hints.
Proof.
  intros va H. apply elem_of_seeds. right. apply elem_of_app. right. apply elem_of_app. by right.
Qed.

Lemma runtime_entry_executable image a bitness va :
  va ∈ entry_points (runtime_functions_of image a bitness) → is_executable_va a va = true.
Proof.
  unfold runtime_functions_of, entry_points. destruct (bitness =? 64)%Z; [|by intros ?%not_elem_of_nil].
  intros (e & -> & He)%list_elem_of_fmap.
  destruct (parse_runtime_functions image a) as [t|] eqn:E; [|by apply not_elem_of_nil in He].
  by eapply entry_executable.
Qed.

(** The end of the address space is in no executable section. *)
Definition below_top (a : AddressSpace) : Prop :=
  Forall (λ s, image_base a + vaddr s + raw_size s ≤ u64_max)%Z (exec_sections a).

Section analysis.
Context {D : Type} `{!Decoder D, !DecoderLaws D, !MemoryUse}.

Lemma swept_progresses image a bitness :
  sweepable a → below_top a →
  ∃ ci, build image a bitness = Some ci ∧ progresses ci.
Proof.
  intros Sw T. destruct (build_ok image a bitness Sw) as (ci & dss & E & -> & F & W).
  exists (concat dss). split; [done|]. intros d Hd. split; [by apply (wi_len _ W)|].
  apply list_elem_of_In, in_concat in Hd as (ds & Hds & Hd).
  apply list_elem_of_In in Hd. apply list_elem_of_In, list_elem_of_lookup in Hds as [i Hi].
  destruct (Forall2_lookup_r _ _ _ _ _ F Hi) as (s & Hs & C & _ & Bd).
  apply list_elem_of_lookup_2 in Hs. rewrite sort_by_key_perm in Hs.
  unfold below_top in T. rewrite Forall_forall in T. specialize (T s Hs).
  destruct (contiguous_bounds _ _ d C Hd). lia.
Qed.

(** C10: If the executable sections neither overlap nor reach the last address, and no
    instruction compares with the access-violation code (there are no filters to carve
    out; Analysis loses code otherwise, see DiscoveryCorrect.carved_filter_lost), the
    analysis of an image returns, and everything control is known to reach is placed:
    the executable roots (entry point, symbols, exception directory, hints), and for
    every block the targets of its edges within the function and of its calls to
    executable code. Placed means that a block of a function starts there; or else no
    function has a block there and control flow (next instruction, branch, return of a
    call) leads there from the entry of a function at a higher address, which drops
    the blocks below its entry. Each function has a block at its entry and predecessor
    lists inverse to its successor lists. *)
Theorem analysis_closed image a bitness entry_va symbols hints :
  sweepable a → below_top a →
  (∀ ci, build image a bitness = Some ci → av_candidates ci a = []) →
  ∃ an, build_analysis image a bitness entry_va symbols hints = Some an ∧
    (∀ va, va ∈ roots entry_va symbols (an_runtime_functions an) hints →
       is_executable_va a va = true → placed (an_code_index an) a (an_functions an) va) ∧
    (∀ va, va ∈ entry_points (an_runtime_functions an) → placed (an_code_index an) a (an_functions an) va) ∧
    ∀ fe f, an_functions an !! fe = Some f →
      (∃ b, b ∈ fn_blocks f ∧ bb_entry_va b = fe) ∧ predecessors_ok (fn_blocks f) ∧
      ∀ b e, b ∈ fn_blocks f → e ∈ bb_successors b →
        (intra (eg_kind e) ∨ eg_kind e = Call ∧ is_executable_va a (eg_target e) = true →
         placed (an_code_index an) a (an_functions an) (eg_target e)).
Proof.
  intros Sw T Av. destruct (swept_progresses image a bitness Sw T) as (ci & E & P).
  set (rf := runtime_functions_of image a bitness).
  destruct (discovery_closed ci a (seeds_of entry_va symbols rf hints) hints P
    (hints_are_seeds _ _ _ _) (Av ci E)) as (table & Et & Se & Fn).
  unfold build_analysis. rewrite E. cbn [mbind option_bind]. fold rf.
  exists (mkAnalysis ci rf table (build_xrefs a bitness ci)). cbn [an_runtime_functions an_functions an_code_index].
  split.
  { case_decide as Dh; [|by rewrite Et]. unfold discover_functions. subst hints. by rewrite Et. }
  assert (∀ va, va ∈ roots entry_va symbols rf hints → is_executable_va a va = true → placed ci a table va) as R
    by (intros va Hva; by apply Se, elem_of_seeds).
  split_and!; [exact R| |exact Fn]. intros va Hva. apply R.
  - right. apply elem_of_app. right. apply elem_of_app. by left.
  - by eapply runtime_entry_executable.
Qed.
End analysis.

(** ** The image of UnwindCorrect *)

Lemma pdata_sweepable : sweepable pdata_space ∧ below_top pdata_space.
Proof.
  assert (exec_sections pdata_space = [mkSection 0x1000 0x300 0x100 0x10 0x60000020]) as E by reflexivity.
  split; [constructor|]; unfold below_top; rewrite ?E.
  - by vm_compute.
  - intros s ->%list_elem_of_singleton. by vm_compute.
  - repeat constructor.
  - repeat constructor. by vm_compute.
Qed.

#[local] Instance no_memory_use : MemoryUse := {| used_memory := λ _, [] |}.

Lemma analysis_closed_witness :
  ∃ an, build_analysis (D := ByteDecoder.t) pdata_image pdata_space 64 0x140001000 ∅ [] = Some an ∧
    ∀ va, va ∈ entry_points (an_runtime_functions an) → placed (an_code_index an) pdata_space (an_functions an) va.
Proof.
  destruct (analysis_closed (D := ByteDecoder.t) pdata_image pdata_space 64 0x140001000 ∅ [])
    as (an & E & _ & R & _).
  - apply pdata_sweepable.
  - apply pdata_sweepable.
  - intros ci E. vm_compute in E. injection E as <-. vm_compute. reflexivity.
  - exists an. split; [exact E|exact R].
Defined.

Example pdata_functions :
  (λ an, (map fst (outline_of (an_functions an)), entry_points (an_runtime_functions an)))
    <$> build_analysis (D := ByteDecoder.t) pdata_image pdata_space 64 0x140001000 ∅ [] =
  Some ([0x140001000; 0x140001010], [0x140001010])%Z.
Proof. vm_compute. reflexivity. Qed.
