(* ===== verification/Stackwalk.v ===== *)
(** Walking the stacks of a dump's threads, [src/loader/dump/stackwalk.rs]:
    the chain of frame pointers, the scan of the stack for return addresses,
    and the choice between them.

    Memory is read through [MemoryMap]. A frame keeps its addresses as the
    hexadecimal text the code gives them, and the scan compares those texts. *)

From Stdlib Require Import Strings.Byte Strings.Ascii Strings.String.
From S2P Require Import Prelude Journal Activity MemoryMap ModulePe ModulePeCorrect Serving Targets.
Import Targets.

Definition MAX_FRAMES_HARD : nat := 256.
Definition MAX_SCAN_SLOTS : nat := 4096.

(** ** Dumps *)

(** [DumpThread], the fields a walk reads. *)
Record DumpThread := mkThread {
  thread_id : Z;
  instruction_pointer : option Z;
  stack_pointer : option Z;
  frame_pointer : option Z;
  is_exception_thread : bool
}.

(** [LoadedDump] with what a walk reads of it: [Targets.LoadedDump] has modules
    and memory; beside them the bitness, the thread of the exception record and
    the threads. *)
Record ProcessDump := mkProcess {
  pd_dump : LoadedDump;
  pd_bitness : Z;
  exception_thread : option Z;
  threads : list DumpThread
}.

(** [LoadedDump::module_at] *)
Definition module_at (dump : LoadedDump) (va : Z) : option DumpModule :=
  find_first (λ m, (dm_base m <=? va)%Z && (va <? dm_base m +sat dm_size m)%Z) (modules dump).

(** [LoadedDump::read_at] *)
Definition dump_read_at (dump : LoadedDump) (va : Z) (len : nat) : ReadStatus :=
  read_at (ld_mmap dump) (ld_memory dump) va len.

(** ** Frames *)

Record StackFrame := mkFrame {
  sf_index : nat;
  sf_ip : string;
  sf_sp : option string;
  sf_module : option string;
  sf_module_base : option string;
  sf_offset : option string;
  sf_method : string;
  sf_confidence : string
}.

Record ThreadStack := mkStack {
  ts_thread_id : Z;
  ts_frames : list StackFrame;
  ts_died : string;
  ts_is_exception_thread : bool
}.

(** [read_ptr] *)
Definition read_ptr (dump : LoadedDump) (va : Z) (ptr_size : nat) : option Z :=
  match dump_read_at dump va ptr_size with
  | ReadOk b | Partial b =>
      if decide (ptr_size ≤ length b) then Some (from_le (take ptr_size b)) else None
  | Unmapped => None
  end.

(** [looks_like_stack_ptr] *)
Definition looks_like_stack_ptr (dump : LoadedDump) (va : Z) : bool :=
  match dump_read_at dump va 8 with Unmapped => false | _ => true end.

(** [frame_for_ip] *)
Definition frame_for_ip (dump : LoadedDump) (index : nat) (ip : Z) (sp : option Z)
    (method confidence : string) : StackFrame :=
  let module := module_at dump ip in
  mkFrame index (alt_hex ip) (alt_hex <$> sp) (dm_name <$> module)
    ((λ m, alt_hex (dm_base m)) <$> module)
    ((λ m, alt_hex (ip -sat dm_base m)) <$> module) method confidence.

(** [StackFrame { index, ..f }] over a list, indices from [k]. *)
Fixpoint renumber (k : nat) (l : list StackFrame) : list StackFrame :=
  match l with
  | [] => []
  | f :: l =>
      mkFrame k (sf_ip f) (sf_sp f) (sf_module f) (sf_module_base f) (sf_offset f)
        (sf_method f) (sf_confidence f) :: renumber (S k) l
  end.

(** ** The chain of frame pointers *)

Definition ptr_size_of (d : ProcessDump) : nat := if (pd_bitness d =? 32)%Z then 4 else 8.

(** The loop of [walk_fp_chain]; [n] turns are left. *)
Fixpoint fp_loop (dump : LoadedDump) (ptr_size n : nat) (fp : Z) (seen : gset Z)
    (frames : list StackFrame) : list StackFrame * string :=
  match n with
  | 0 => (frames, "depth_cap")
  | S n =>
      if decide (fp ∈ seen) then (frames, "broken_fp")
      else
        match read_ptr dump fp ptr_size with
        | None => (frames, "missing_memory")
        | Some saved_fp =>
            match read_ptr dump (fp +sat Z.of_nat ptr_size) ptr_size with
            | None => (frames, "missing_memory")
            | Some ret =>
                if (ret =? 0)%Z then (frames, "done")
                else
                  let frames := frames ++
                    [frame_for_ip dump (length frames) ret
                       (Some (fp +sat Z.of_nat (ptr_size * 2))) "fp_chain"
                       (match module_at dump ret with Some _ => "high" | None => "medium" end)] in
                  if (saved_fp <=? fp)%Z || negb (looks_like_stack_ptr dump saved_fp)
                  then (frames, "broken_fp")
                  else fp_loop dump ptr_size n saved_fp ({[fp]} ∪ seen) frames
            end
        end
  end.

(** [walk_fp_chain] *)
Definition walk_fp_chain (d : ProcessDump) (fp : Z) (max_more : nat) : list StackFrame * string :=
  fp_loop (pd_dump d) (ptr_size_of d) max_more fp ∅ [].

(** ** The scan of the stack *)

(** The loop of [walk_sp_scan]; [slots] of the [MAX_SCAN_SLOTS] are left. *)
Fixpoint sp_loop (dump : LoadedDump) (ptr_size max_more slots : nat) (addr : Z)
    (frames : list StackFrame) : list StackFrame :=
  match slots with
  | 0 => frames
  | S slots =>
      if decide (max_more ≤ length frames) then frames
      else
        let next := addr +sat Z.of_nat ptr_size in
        match read_ptr dump addr ptr_size with
        | None => sp_loop dump ptr_size max_more slots next frames
        | Some val =>
            if (val <? 0x10000)%Z then sp_loop dump ptr_size max_more slots next frames
            else
              match module_at dump val with
              | None => sp_loop dump ptr_size max_more slots next frames
              | Some _ =>
                  if decide (sf_ip <$> last frames = Some (alt_hex val))
                  then sp_loop dump ptr_size max_more slots next frames
                  else
                    sp_loop dump ptr_size max_more slots next
                      (frames ++ [frame_for_ip dump (length frames) val (Some next) "sp_scan" "low"])
              end
        end
  end.

(** [walk_sp_scan] *)
Definition walk_sp_scan (d : ProcessDump) (sp : Z) (max_more : nat) : list StackFrame * string :=
  let frames := sp_loop (pd_dump d) (ptr_size_of d) max_more MAX_SCAN_SLOTS sp [] in
  (frames, if decide (max_more ≤ length frames) then "depth_cap" else "done").

(** ** The walk *)

(** [select_thread] *)
Definition select_thread (d : ProcessDump) (tid : option Z) : option DumpThread :=
  match tid with
  | Some tid => find_first (λ t, (thread_id t =? tid)%Z) (threads d)
  | None =>
      match (exc ← exception_thread d; find_first (λ t, (thread_id t =? exc)%Z) (threads d)) with
      | Some t => Some t
      | None =>
          match find_first is_exception_thread (threads d) with
          | Some t => Some t
          | None =>
              match find_first (λ t, bool_decide (is_Some (instruction_pointer t))) (threads d) with
              | Some t => Some t
              | None => head (threads d)
              end
          end
      end
  end.

(** [max_frames.clamp(1, MAX_FRAMES_HARD)] *)
Definition clamp_frames (max_frames : nat) : nat := Nat.max 1 (Nat.min max_frames MAX_FRAMES_HARD).

(** [LoadedDump::walk_thread_stack] *)
Definition walk_thread_stack (d : ProcessDump) (tid : option Z) (max_frames : nat) : ThreadStack :=
  let max_frames := clamp_frames max_frames in
  match select_thread d tid with
  | None => mkStack (default 0%Z tid) [] "no_context" false
  | Some thread =>
      let stack := λ frames died, mkStack (thread_id thread) frames died (is_exception_thread thread) in
      match instruction_pointer thread with
      | None => stack [] "no_context"
      | Some ip =>
          let frame0 := frame_for_ip (pd_dump d) 0 ip (stack_pointer thread) "thread_context" "high" in
          let scan := match stack_pointer thread with
                      | Some sp =>
                          let '(more, reason) := walk_sp_scan d sp (max_frames - 1) in
                          stack (frame0 :: renumber 1 more) reason
                      | None => stack [frame0] "missing_memory"
                      end in
          match frame_pointer thread, stack_pointer thread with
          | Some fp, Some sp =>
              if (sp <=? fp)%Z && looks_like_stack_ptr (pd_dump d) fp
              then let '(more, reason) := walk_fp_chain d fp (max_frames - 1) in
                   stack (frame0 :: renumber 1 more) reason
              else scan
          | _, _ => scan
          end
      end
  end.
