(* ===== verification/StackwalkCorrect.v ===== *)
(** Stack walks: the chain of frame pointers refines a relation without a set of
    visited frames, the scan is a filter of the stack's slots, and both are
    numbered and bounded. *)

From Stdlib Require Import Strings.Byte Strings.Ascii Strings.String.
From S2P Require Import Prelude Journal Activity MemoryMap ModulePe ModulePeCorrect Serving Targets Stackwalk.
Import Targets.

(** ** Hexadecimal text *)

Definition digit_value (c : ascii) : Z :=
  let n := Z.of_nat (nat_of_ascii c) in if (n <? 58)%Z then n - 48 else n - 87.
Fixpoint unhex (s : string) (v : Z) : Z :=
  match s with
  | EmptyString => v
  | String c s => unhex s (16 * v + digit_value c)
  end.

Lemma digit_value_digit n : (0 ≤ n < 16)%Z → digit_value (hex_digit n) = n.
Proof.
  intros R. replace n with (Z.of_nat (Z.to_nat n)) by lia.
  assert (Z.to_nat n < 16) as H by lia. revert H. generalize (Z.to_nat n).
  do 16 (intros [|k]; [intros _; vm_compute; reflexivity|revert k]). intros k ?. lia.
Qed.
Lemma unhex_go fuel n acc :
  (0 ≤ n < 16 ^ Z.of_nat fuel)%Z → unhex (hex_go fuel n acc) 0 = unhex acc n.
Proof.
  revert n acc. induction fuel as [|fuel IH]; intros n acc R.
  { cbn in *. by replace n with 0%Z by lia. }
  rewrite Nat2Z.inj_succ, Z.pow_succ_r in R by lia.
  pose proof (Z.div_mod n 16). pose proof (Z.mod_pos_bound n 16).
  cbn [hex_go]. destruct (Z.eqb_spec (n / 16) 0) as [E|E].
  - cbn [unhex]. rewrite digit_value_digit by lia. f_equal. lia.
  - rewrite IH by lia. cbn [unhex]. rewrite digit_value_digit by lia. f_equal. lia.
Qed.
Lemma alt_hex_inj a b : is_u64 a → is_u64 b → alt_hex a = alt_hex b → a = b.
Proof.
  unfold is_u64, u64_max, alt_hex, hex. intros Ra Rb E.
  apply (inj (String.append _)) in E.
  pose proof (unhex_go 16 a "") as Ha. pose proof (unhex_go 16 b "") as Hb.
  rewrite E, Hb in Ha by (change (Z.of_nat 16) with 16%Z; lia).
  cbn in Ha. rewrite Ha; [done|lia].
Qed.

Section walk.
Variable dump : LoadedDump.
Variable ptr_size : nat.
Local Notation read fp := (read_ptr dump fp ptr_size).
Local Notation word := (Z.of_nat ptr_size).

(** ** Words of memory *)

Definition word_at (va : Z) : option Z :=
  from_le <$> mapM (λ i, byte_at (ld_mmap dump) (regions (ld_memory dump)) (va + Z.of_nat i)) (seq 0 ptr_size).

Lemma read_ptr_word va v :
  wf_regions (ld_mmap dump) (regions (ld_memory dump)) → 0 < ptr_size →
  read va = Some v → word_at va = Some v.
Proof.
  intros W P. unfold read_ptr, dump_read_at.
  pose proof (read_at_cases (ld_mmap dump) (ld_memory dump) va ptr_size W P) as C.
  destruct (read_at _ _ va ptr_size) as [bs|bs|]; [| |done].
  - destruct C as [L C]. rewrite decide_True by lia. intros [= <-].
    unfold word_at. rewrite take_ge by lia. apply fmap_Some. exists bs. split; [|done].
    apply mapM_Some, Forall2_same_length_lookup. rewrite length_seq. split; [lia|].
    intros i j b [-> Hi]%lookup_seq Hb. rewrite <-C by lia. done.
  - destruct C as [L _]. rewrite decide_False by lia. done.
Qed.
Lemma read_ptr_u64 va v : ptr_size ≤ 8 → read va = Some v → is_u64 v.
Proof.
  intros P. unfold read_ptr. intros E.
  assert (∃ bs : bytes, v = from_le (take ptr_size bs)) as [bs ->]
    by (destruct (dump_read_at _ _ _); try case_decide; simplify_eq; eauto).
  pose proof (from_le_bound (take ptr_size bs)) as B. rewrite length_take in B.
  assert (256 ^ Z.of_nat (ptr_size `min` length bs) ≤ 256 ^ 8)%Z by (apply Z.pow_le_mono_r; lia).
  unfold is_u64, u64_max. lia.
Qed.

(** ** The chain *)

Definition fp_frame (k : nat) (link : Z * Z) : StackFrame :=
  frame_for_ip dump k link.2 (Some (link.1 +sat Z.of_nat (ptr_size * 2))) "fp_chain"
    (match module_at dump link.2 with Some _ => "high" | None => "medium" end).

Definition climbs (fp saved : Z) : Prop := (fp < saved)%Z ∧ looks_like_stack_ptr dump saved = true.

(** The links a walk of at most [n] steps from [fp] follows, and why it ends. *)
Inductive walks : nat → Z → list (Z * Z) → string → Prop :=
  | walks_cap fp : walks 0 fp [] "depth_cap"
  | walks_missing n fp :
      read fp = None ∨ read (fp +sat word) = None → walks (S n) fp [] "missing_memory"
  | walks_done n fp saved :
      read fp = Some saved → read (fp +sat word) = Some 0%Z → walks (S n) fp [] "done"
  | walks_broken n fp saved ret :
      read fp = Some saved → read (fp +sat word) = Some ret → ret ≠ 0%Z → ¬ climbs fp saved →
      walks (S n) fp [(fp, ret)] "broken_fp"
  | walks_on n fp saved ret links died :
      read fp = Some saved → read (fp +sat word) = Some ret → ret ≠ 0%Z → climbs fp saved →
      walks n saved links died → walks (S n) fp ((fp, ret) :: links) died.

Lemma climbs_test fp saved :
  (saved <=? fp)%Z || negb (looks_like_stack_ptr dump saved) = false ↔ climbs fp saved.
Proof.
  unfold climbs. rewrite orb_false_iff, negb_false_iff, Z.leb_gt. done.
Qed.

Lemma imap_next {A B} (f : nat → A → B) k x l :
  imap (λ i, f (k + i)) (x :: l) = f k x :: imap (λ i, f (S k + i)) l.
Proof.
  rewrite imap_cons, Nat.add_0_r. f_equal. apply imap_ext. intros i y _. cbn.
  by rewrite Nat.add_succ_r.
Qed.

(** A frame pointer only climbs, so that the set of visited ones never stops
    the loop. *)
Lemma fp_loop_walks n fp (seen : gset Z) frames :
  (∀ x, x ∈ seen → (x < fp)%Z) →
  ∃ links died, walks n fp links died ∧
    fp_loop dump ptr_size n fp seen frames
    = (frames ++ imap (λ i, fp_frame (length frames + i)) links, died).
Proof.
  revert fp seen frames. induction n as [|n IH]; intros fp seen frames S.
  { exists [], "depth_cap". rewrite app_nil_r. split; [constructor|done]. }
  cbn [fp_loop]. rewrite decide_False by (intros H%S; lia).
  destruct (read fp) as [saved|] eqn:Es;
    [|exists [], "missing_memory"; rewrite app_nil_r; split; [constructor; by left|done]].
  destruct (read (fp +sat word)) as [ret|] eqn:Er;
    [|exists [], "missing_memory"; rewrite app_nil_r; split; [constructor; by right|done]].
  destruct (Z.eqb_spec ret 0) as [->|Rn].
  { exists [], "done". rewrite app_nil_r. split; [by econstructor|done]. }
  destruct ((saved <=? fp)%Z || negb (looks_like_stack_ptr dump saved)) eqn:C.
  - exists [(fp, ret)], "broken_fp". split.
    + econstructor; [done..|]. rewrite <-climbs_test. by rewrite C.
    + by rewrite imap_next.
  - apply climbs_test in C.
    destruct (IH saved ({[fp]} ∪ seen)
      (frames ++ [fp_frame (length frames) (fp, ret)])) as (links & died & Hw & E).
    { intros x [->%elem_of_singleton|Hx%S]%elem_of_union; destruct C; lia. }
    exists ((fp, ret) :: links), died. split; [by econstructor|].
    unfold fp_frame in E at 1. cbn [fst snd] in E. rewrite E. f_equal.
    rewrite <-app_assoc, length_app, imap_next. cbn [length]. do 2 f_equal.
    apply imap_ext. intros i y _. cbn. f_equal. lia.
Qed.

Lemma walks_length n fp links died : walks n fp links died → length links ≤ n.
Proof. induction 1; cbn; lia. Qed.
Lemma walks_above n fp links died :
  walks n fp links died → Forall (λ l, fp ≤ l.1)%Z links.
Proof.
  induction 1 as [| | | |n fp saved ret links died _ _ _ [C _] _ IH]; repeat constructor; cbn; try lia.
  eapply Forall_impl; [exact IH|]. cbn. intros; lia.
Qed.
Lemma walks_climb n fp links died :
  walks n fp links died → StronglySorted (λ a b, a.1 < b.1)%Z links.
Proof.
  induction 1 as [| | | |n fp saved ret links died _ _ _ [C _] H IH]; repeat constructor; [done|].
  eapply Forall_impl; [by eapply walks_above|]. cbn. intros; lia.
Qed.
Lemma walks_read n fp links died :
  walks n fp links died → Forall (λ l, read (l.1 +sat word) = Some l.2 ∧ l.2 ≠ 0%Z) links.
Proof. induction 1; repeat constructor; done. Qed.
End walk.

(** ** The scan *)

Section scan.
Variable dump : LoadedDump.
Variable ptr_size : nat.
Local Notation word := (Z.of_nat ptr_size).

(** The slots of the stack, upwards from [addr]. *)
Fixpoint slot_addrs (n : nat) (addr : Z) : list Z :=
  match n with
  | 0 => []
  | S n => addr :: slot_addrs n (addr +sat word)
  end.
(** A slot that holds an address in a module, with the stack pointer above it. *)
Definition return_slot (addr : Z) : option (Z * Z) :=
  val ← read_ptr dump addr ptr_size;
  if (0x10000 <=? val)%Z && bool_decide (is_Some (module_at dump val))
  then Some (addr +sat word, val) else None.
(** Runs of equal addresses, each reduced to its first. *)
Fixpoint runs (prev : option Z) (l : list (Z * Z)) : list (Z * Z) :=
  match l with
  | [] => []
  | x :: l => if decide (prev = Some x.2) then runs prev l else x :: runs (Some x.2) l
  end.
Definition return_slots (n : nat) (sp : Z) : list (Z * Z) := omap return_slot (slot_addrs n sp).

Definition sp_frame (k : nat) (hit : Z * Z) : StackFrame :=
  frame_for_ip dump k hit.2 (Some hit.1) "sp_scan" "low".

Lemma sp_loop_slots max_more n addr frames prev :
  ptr_size ≤ 8 → sf_ip <$> last frames = alt_hex <$> prev →
  (∀ v, prev = Some v → is_u64 v) →
  sp_loop dump ptr_size max_more n addr frames
  = frames ++ imap (λ i, sp_frame (length frames + i))
      (take (max_more - length frames) (runs prev (return_slots n addr))).
Proof.
  intros P. revert addr frames prev. induction n as [|n IH]; intros addr frames prev L U.
  { cbn. by rewrite take_nil, app_nil_r. }
  cbn [sp_loop]. case_decide as F.
  { replace (max_more - length frames) with 0 by lia. cbn. by rewrite app_nil_r. }
  unfold return_slots. cbn [slot_addrs omap list_omap]. fold (return_slots n (addr +sat word)).
  unfold return_slot at 1. destruct (read_ptr dump addr ptr_size) as [val|] eqn:R; cbn [mbind option_bind];
    [|by apply IH].
  rewrite Z.leb_antisym. destruct (val <? 0x10000)%Z; cbn [negb andb]; [by apply IH|].
  destruct (module_at dump val) as [md|] eqn:M; [|by apply IH].
  rewrite bool_decide_true by (by eexists). cbn [runs].
  rewrite L. assert (is_u64 val) as Uv by (by eapply read_ptr_u64).
  cbn [snd]. destruct (decide (prev = Some val)) as [->|N].
  { rewrite decide_True by done. by apply IH. }
  rewrite decide_False.
  - rewrite (IH _ _ (Some val)); [|by rewrite last_snoc|by intros v [= <-]].
    rewrite length_app. cbn [length].
    destruct (max_more - length frames) as [|k] eqn:K; [lia|].
    replace (max_more - (length frames + 1)) with k by lia. cbn [take].
    rewrite imap_next, <-app_assoc. cbn [app]. f_equal. f_equal.
    apply imap_ext. intros i x _. cbn. f_equal. lia.
  - intros E. destruct prev as [p|]; [|done]. apply (inj Some) in E. apply N. f_equal.
    apply alt_hex_inj; [by apply U|done|done].
Qed.
End scan.

Lemma renumber_imap {A} (f : nat → A → StackFrame) k l :
  (∀ i j x, f j x = mkFrame j (sf_ip (f i x)) (sf_sp (f i x)) (sf_module (f i x))
     (sf_module_base (f i x)) (sf_offset (f i x)) (sf_method (f i x)) (sf_confidence (f i x))) →
  renumber k (imap f l) = imap (λ i, f (k + i)) l.
Proof.
  intros F. assert (∀ g, (∀ i x, ∃ j, g i x = f j x) → renumber k (imap g l) = imap (λ i, f (k + i)) l) as H;
    [|by apply H; eauto].
  revert k. induction l as [|x l IH]; intros k g G; [done|].
  rewrite imap_next, imap_cons. cbn [renumber].
  destruct (G 0 x) as [j ->]. rewrite <-F. f_equal. apply IH. intros i y. apply G.
Qed.
Lemma renumber_length k l : length (renumber k l) = length l.
Proof. revert k. induction l; intros; cbn; auto. Qed.
Lemma renumber_index k l i f : renumber k l !! i = Some f → sf_index f = k + i.
Proof.
  revert k i. induction l as [|x l IH]; intros k i; [done|]. destruct i as [|i]; cbn.
  - intros [= <-]. cbn. lia.
  - intros ->%IH. lia.
Qed.

Lemma ptr_size_le d : 0 < ptr_size_of d ≤ 8.
Proof. unfold ptr_size_of. destruct (_ =? _)%Z; lia. Qed.
Lemma clamp_frames_bound n : 1 ≤ clamp_frames n ≤ 256.
Proof. unfold clamp_frames, MAX_FRAMES_HARD. lia. Qed.

Lemma fp_chain_length d fp n : length (walk_fp_chain d fp n).1 ≤ n.
Proof.
  unfold walk_fp_chain. destruct (fp_loop_walks (pd_dump d) (ptr_size_of d) n fp ∅ [])
    as (links & died & H & ->); [set_solver|].
  cbn [fst app]. rewrite length_imap. by eapply walks_length.
Qed.
Lemma sp_scan_eq d sp n :
  let hits := runs None (return_slots (pd_dump d) (ptr_size_of d) MAX_SCAN_SLOTS sp) in
  walk_sp_scan d sp n =
    (imap (sp_frame (pd_dump d)) (take n hits), if decide (n ≤ length hits) then "depth_cap" else "done").
Proof.
  intros hits. unfold walk_sp_scan.
  rewrite (sp_loop_slots _ _ _ _ _ _ None); [|pose proof (ptr_size_le d); lia|done..].
  cbn [length app]. rewrite Nat.sub_0_r. fold hits. rewrite length_imap, length_take. f_equal.
  repeat case_decide; lia || done.
Qed.
Lemma sp_scan_length d sp n : length (walk_sp_scan d sp n).1 ≤ n.
Proof. rewrite sp_scan_eq. cbn [fst]. rewrite length_imap, length_take. lia. Qed.

(** ** The claims *)

Lemma died_scan d sp n : (walk_sp_scan d sp n).2 = "depth_cap" ∨ (walk_sp_scan d sp n).2 = "done".
Proof. unfold walk_sp_scan. cbn [snd]. case_decide; auto. Qed.

(** A stack walk returns at most 256 frames and at most as many as asked for
    (one, if none is asked for), and frame [i] of the answer has index [i];
    without a thread or an instruction pointer the answer is empty and says so. *)
Theorem stack_walk_bounded d tid max_frames :
  let s := walk_thread_stack d tid max_frames in
  length (ts_frames s) ≤ clamp_frames max_frames ≤ 256 ∧
  (∀ i f, ts_frames s !! i = Some f → sf_index f = i) ∧
  (ts_frames s = [] ↔ (t ← select_thread d tid; instruction_pointer t) = None) ∧
  (ts_frames s = [] → ts_died s = "no_context").
Proof.
  pose proof (clamp_frames_bound max_frames) as C. set (m := clamp_frames max_frames) in *.
  assert (∀ f0 more,
    sf_index f0 = 0 → length more ≤ m - 1 →
    length (f0 :: renumber 1 more) ≤ m ≤ 256 ∧
    (∀ i f, (f0 :: renumber 1 more) !! i = Some f → sf_index f = i)) as G.
  { intros f0 more E L. cbn [length]. rewrite renumber_length. split; [lia|].
    intros [|i] f; cbn; [by intros [= <-]|]. intros ->%renumber_index. done. }
  cbn zeta. unfold walk_thread_stack. fold m.
  destruct (select_thread d tid) as [t|]; [|split_and!; cbn; [lia..|done|done|done]].
  cbn [mbind option_bind]. destruct (instruction_pointer t) as [ip|];
    [|split_and!; cbn; [lia..|done|done|done]].
  assert (∀ f0 more died, sf_index f0 = 0 → length more ≤ m - 1 →
    let s := mkStack (thread_id t) (f0 :: renumber 1 more) died (is_exception_thread t) in
    length (ts_frames s) ≤ m ≤ 256 ∧ (∀ i f, ts_frames s !! i = Some f → sf_index f = i) ∧
    (ts_frames s = [] ↔ Some ip = None) ∧ (ts_frames s = [] → ts_died s = "no_context")) as G'.
  { intros f0 more died E L. cbn zeta. cbn [ts_frames ts_died].
    destruct (G f0 more E L). split_and!; [lia..|done|done|done]. }
  destruct (frame_pointer t) as [fp|], (stack_pointer t) as [sp|].
  - pose proof (fp_chain_length d fp (m - 1)). pose proof (sp_scan_length d sp (m - 1)).
    destruct (_ && _); [destruct (walk_fp_chain _ _ _)|destruct (walk_sp_scan _ _ _)]; by apply G'.
  - apply (G' _ []); cbn; [done|lia].
  - pose proof (sp_scan_length d sp (m - 1)). destruct (walk_sp_scan _ _ _). by apply G'.
  - apply (G' _ []); cbn; [done|lia].
Qed.

(** C33: when the frame pointer is readable and not below the stack pointer, the
    frames after the first are the return addresses of the chain of saved frame
    pointers, each a nonzero word of the dump's memory, in climbing order, up to
    the cap; and the reason the walk gives is the reason the chain ends. *)
Theorem stack_walk_chain d tid max_frames t ip sp fp :
  wf_regions (ld_mmap (pd_dump d)) (regions (ld_memory (pd_dump d))) →
  select_thread d tid = Some t → instruction_pointer t = Some ip →
  stack_pointer t = Some sp → frame_pointer t = Some fp →
  (sp ≤ fp)%Z → looks_like_stack_ptr (pd_dump d) fp = true →
  let s := walk_thread_stack d tid max_frames in
  ∃ links,
    walks (pd_dump d) (ptr_size_of d) (clamp_frames max_frames - 1) fp links (ts_died s) ∧
    ts_frames s = frame_for_ip (pd_dump d) 0 ip (Some sp) "thread_context" "high"
      :: imap (λ i, fp_frame (pd_dump d) (ptr_size_of d) (S i)) links ∧
    StronglySorted (λ a b, a.1 < b.1)%Z links ∧
    Forall (λ l, word_at (pd_dump d) (ptr_size_of d) (l.1 +sat Z.of_nat (ptr_size_of d)) = Some l.2
                 ∧ l.2 ≠ 0%Z) links.
Proof.
  intros W Et Ei Es Ef Le Lk. cbn zeta. unfold walk_thread_stack. rewrite Et, Ei, Es, Ef, Lk.
  rewrite (proj2 (Z.leb_le sp fp)) by done. cbn [andb].
  unfold walk_fp_chain.
  destruct (fp_loop_walks (pd_dump d) (ptr_size_of d) (clamp_frames max_frames - 1) fp ∅ [])
    as (links & died & H & ->); [set_solver|].
  cbn [length app ts_frames ts_died]. exists links. split_and!; [done| | |].
  - f_equal. change (λ i, fp_frame ?a ?b (0 + i)) with (fp_frame a b). by rewrite renumber_imap.
  - by eapply walks_climb.
  - eapply Forall_impl; [by eapply walks_read|]. intros l [R N]. split; [|done].
    eapply read_ptr_word; [done| |done]. pose proof (ptr_size_le d). lia.
Qed.

(** Without such a frame pointer, the frames after the first are the first
    of the words in the 4096 slots above the stack pointer that lie in a module
    and above the first 64 KiB, runs of the same address counted once; the walk
    is cut exactly when there are as many as it may return. *)
Theorem stack_scan_correct d tid max_frames t ip sp :
  select_thread d tid = Some t → instruction_pointer t = Some ip → stack_pointer t = Some sp →
  (∀ fp, frame_pointer t = Some fp → (sp ≤ fp)%Z → looks_like_stack_ptr (pd_dump d) fp = false) →
  let s := walk_thread_stack d tid max_frames in
  let hits := runs None (return_slots (pd_dump d) (ptr_size_of d) MAX_SCAN_SLOTS sp) in
  let n := clamp_frames max_frames - 1 in
  ts_frames s = frame_for_ip (pd_dump d) 0 ip (Some sp) "thread_context" "high"
    :: imap (λ i, sp_frame (pd_dump d) (S i)) (take n hits) ∧
  ts_died s = if decide (n ≤ length hits) then "depth_cap" else "done".
Proof.
  intros Et Ei Es Ef. cbn zeta. unfold walk_thread_stack. rewrite Et, Ei, Es.
  set (n := clamp_frames max_frames - 1).
  rewrite sp_scan_eq. cbn [fst snd].
  rewrite renumber_imap by done. cbn [Nat.add].
  destruct (frame_pointer t) as [fp|]; [|by split].
  destruct (Z.leb_spec sp fp) as [L|L]; [|by split]. by rewrite (Ef fp eq_refl L).
Qed.

(** ** A stack of two frames *)

Definition stack_words (ws : list Z) : bytes := concat (to_le 8 <$> ws).
Definition stack_dump (ws : list Z) : LoadedDump :=
  mkDump "s" [mkModule 0x400000 0x1000 "app.exe" "app.exe" 0 0 1000 true true false]
    (stack_words ws) (mkMap [mkRegion 0x20000 (8 * Z.of_nat (length ws)) 0] 0 MemoryList).
Definition stack_process (fp : Z) (ws : list Z) : ProcessDump :=
  mkProcess (stack_dump ws) 64 (Some 7%Z)
    [mkThread 3 None None None false;
     mkThread 7 (Some 0x400010%Z) (Some 0x20000%Z) (Some fp) false].
Definition two_frames : list Z := [0x400900; 0x20018; 0x400123; 0x20028; 0x400456; 0; 0]%Z.

Example two_frames_walked :
  (λ s, ((λ f, (sf_ip f, sf_method f)) <$> ts_frames s, ts_died s))
    (walk_thread_stack (stack_process 0x20008%Z two_frames) None 32)
  = ([("0x400010", "thread_context"); ("0x400123", "fp_chain"); ("0x400456", "fp_chain")], "done").
Proof. vm_compute. reflexivity. Qed.

Lemma stack_walk_chain_witness :
  ∃ links, length links = 2 ∧
    walks (stack_dump two_frames) 8 31 0x20008%Z links "done".
Proof.
  destruct (stack_walk_chain (stack_process 0x20008%Z two_frames) None 32
    (mkThread 7 (Some 0x400010) (Some 0x20000) (Some 0x20008) false)%Z 0x400010%Z 0x20000%Z 0x20008%Z)
    as (links & H & E & _ & _); [|done..|by vm_compute|].
  - split; [|repeat constructor]. repeat constructor; vm_compute; congruence || lia.
  - exists links. split; [|exact H]. apply (f_equal length) in E. cbn [length] in E.
    rewrite length_imap in E. apply eq_add_S. rewrite <-E. vm_compute. reflexivity.
Defined.

Lemma stack_scan_correct_witness :
  ts_frames (walk_thread_stack (stack_process 0x10%Z two_frames) None 3)
  = frame_for_ip (stack_dump two_frames) 0 0x400010%Z (Some 0x20000)%Z "thread_context" "high"
    :: imap (λ i, sp_frame (stack_dump two_frames) (S i))
         (take 2 (runs None (return_slots (stack_dump two_frames) 8 MAX_SCAN_SLOTS 0x20000%Z))).
Proof.
  apply (stack_scan_correct (stack_process 0x10%Z two_frames) None 3
    (mkThread 7 (Some 0x400010) (Some 0x20000) (Some 0x10) false)%Z 0x400010%Z 0x20000%Z); [done..|].
  intros fp [= <-] H. by destruct (H eq_refl).
Defined.

(** A readable frame pointer that is no frame ends the walk: the stack is not
    scanned, although the scan would find the return addresses. *)
Example no_scan_after_chain :
  let d := stack_process 0x20028%Z two_frames in
  (λ s, (length (ts_frames s), ts_died s)) (walk_thread_stack d None 32) = (1, "done") ∧
  sf_ip <$> (walk_sp_scan d 0x20000%Z 31).1 = ["0x400900"; "0x400123"; "0x400456"].
Proof. vm_compute. split; reflexivity. Qed.
