(* ===== verification/DumpSymbols.v ===== *)
(** Names out of a dump's memory: the export directories of its modules,
    [src/loader/dump/exports.rs], and the import slots of a module project,
    [attach_dump_origin_and_resolve_iat] of [src/project/mod.rs].

    [None] is a panic (a slice out of range); the lookups that return
    [Option] in the source have an [option] inside. Decoding a name's bytes,
    [String::from_utf8_lossy], is a parameter. *)

From Stdlib Require Import Strings.Byte Strings.Ascii Strings.String.
From S2P Require Import Prelude Text Data Journal Activity MemoryMap Loader ModulePe Serving Targets Stackwalk.
Import Targets Symbols AddressSpace.

Local Open Scope string_scope.

(** [let Some(x) = e else { return None }], in a function that may panic *)
Definition or_none {A B} (e : option A) (k : A → option (option B)) : option (option B) :=
  match e with None => Some None | Some x => k x end.
Local Notation "x ←? e ; k" := (or_none e (λ x, k))
  (at level 20, e at level 100, k at level 200, only parsing).

(** ** Export directories *)

Definition MZ : bytes := [x4d; x5a].

(** [read_bytes] of exports.rs *)
Definition read_some (dump : LoadedDump) (va : Z) (len : nat) : option bytes :=
  match dump_read_at dump va len with
  | ReadOk b => Some b
  | Partial b => if decide (b = []) then None else Some b
  | Unmapped => None
  end.

(** The first [n] bytes as an integer, of a slice known to be as long. *)
Definition le_prefix (n : nat) (b : bytes) : Z := from_le (take n b).

Record ExportDir := mkExports {
  num_functions : Z;
  num_names : Z;
  addr_table_rva : Z;
  name_ptr_rva : Z;
  ord_table_rva : Z
}.

(** What one turn of the name loop does: return [None] at a failed read, go on
    at a short or foreign entry, or find the name of [rva] at an RVA. *)
Inductive ExportEntry := Unreadable | Skip | Hit (name_rva : Z).

Definition export_entry (dump : LoadedDump) (base rva : Z) (dir : ExportDir) (i : Z) : ExportEntry :=
  match read_some dump (base +wrap name_ptr_rva dir +wrap i * 4) 4 with
  | None => Unreadable
  | Some name_rva_bytes =>
      if decide (length name_rva_bytes < 4) then Skip
      else
        match read_some dump (base +wrap ord_table_rva dir +wrap i * 2) 2 with
        | None => Unreadable
        | Some ord_bytes =>
            if decide (length ord_bytes < 2) then Skip
            else
              let ord := le_prefix 2 ord_bytes in
              if (num_functions dir <=? ord)%Z then Skip
              else
                match read_some dump (base +wrap addr_table_rva dir +wrap ord * 4) 4 with
                | None => Unreadable
                | Some func_rva_bytes =>
                    if decide (length func_rva_bytes < 4) then Skip
                    else if negb (le_prefix 4 func_rva_bytes =? rva)%Z then Skip
                    else Hit (le_prefix 4 name_rva_bytes)
                end
        end
  end.

(** [name_bytes.iter().position(|&b| b == 0)] and the bytes before it *)
Fixpoint until_nul (b : bytes) : bytes :=
  match b with
  | [] => []
  | x :: b => if decide (x = x00) then [] else x :: until_nul b
  end.

(** The name a hit returns. *)
Definition export_string (dump : LoadedDump) (base name_rva : Z) : option bytes :=
  name_bytes ← read_some dump (base +wrap name_rva) 128;
  let name := until_nul name_bytes in
  if decide (name = []) then None else Some name.

(** The loop over the name table; [n] entries from [i] are left. *)
Fixpoint names_loop (dump : LoadedDump) (base rva : Z) (dir : ExportDir) (n : nat) (i : Z) : option bytes :=
  match n with
  | 0 => None
  | S n =>
      match export_entry dump base rva dir i with
      | Unreadable => None
      | Skip => names_loop dump base rva dir n (i + 1)
      | Hit name_rva => export_string dump base name_rva
      end
  end.

(** [export_name_from_dir] *)
Definition export_name_from_dir (dump : LoadedDump) (base size rva : Z) (pe_hdr : bytes)
    (export_dir_off : nat) : option (option bytes) :=
  export_rva ← read_le pe_hdr export_dir_off 4;
  export_size ← read_le pe_hdr (export_dir_off + 4) 4;
  if (export_rva =? 0)%Z || (export_size <? 40)%Z then Some None
  else if (size <=? export_rva)%Z then Some None
  else
    dir ←? read_some dump (base +wrap export_rva) 40;
    if decide (length dir < 40) then Some None
    else
      num_functions ← read_le dir 20 4;
      num_names ← read_le dir 24 4;
      addr_table_rva ← read_le dir 28 4;
      name_ptr_rva ← read_le dir 32 4;
      ord_table_rva ← read_le dir 36 4;
      if (num_functions =? 0)%Z || (100000 <? num_functions)%Z then Some None
      else
        Some (names_loop dump base rva
          (mkExports num_functions num_names addr_table_rva name_ptr_rva ord_table_rva)
          (Z.to_nat (Z.min num_names 50000)) 0).

(** Where the export entry of the data directories is, by the magic. *)
Definition export_dir_offset (magic : Z) : option nat :=
  if (magic =? 0x10b)%Z then Some (24 + 96)
  else if (magic =? 0x20b)%Z then Some (24 + 112)
  else None.

(** [export_name_at] *)
Definition export_name_at (dump : LoadedDump) (base size rva : Z) : option (option bytes) :=
  hdr ←? read_some dump base 0x200;
  if decide (length hdr < 0x40 ∨ take 2 hdr ≠ MZ) then Some None
  else
    e_lfanew ← read_le hdr 0x3c 4;
    pe_hdr ←? read_some dump (base +wrap e_lfanew) 0x200;
    if decide (length pe_hdr < 24 ∨ take 4 pe_hdr ≠ PE_SIGNATURE) then Some None
    else
      magic ← read_le pe_hdr 24 2;
      export_dir_off ←? export_dir_offset magic;
      if decide (length pe_hdr < export_dir_off + 8)
      then
        pe_hdr ←? read_some dump (base +wrap e_lfanew) (export_dir_off + 8);
        if decide (length pe_hdr < export_dir_off + 8) then Some None
        else export_name_from_dir dump base size rva pe_hdr export_dir_off
      else export_name_from_dir dump base size rva pe_hdr export_dir_off.

(** ** Import slots *)

Section import_slots.
Variable from_utf8_lossy : bytes → string.

(** [resolve_va_symbol] *)
Definition resolve_va_symbol (dump : LoadedDump) (va : Z) : option (option string) :=
  m ←? module_at dump va;
  let offset := va -sat dm_base m in
  name ← export_name_at dump (dm_base m) (dm_size m) offset;
  Some (Some (match name with
              | Some name => dm_name m +:+ "!" +:+ from_utf8_lossy name
              | None => dm_name m +:+ "+" +:+ alt_hex offset
              end)).

Variable dump : LoadedDump.
Variable module_base : Z.
Variable a : AddressSpace.
Variable image : bytes.
Variable bitness : Z.

(** [iter().filter(..)] over the symbols, in the order [entries] *)
Definition is_import_slot (s : Symbol) : bool :=
  bool_decide (sym_kind s = Import_) || String.prefix "__imp_" (sym_name s) || String.prefix "_imp_" (sym_name s).
Definition import_slots (entries : list (Z * Symbol)) : list (Z * string) :=
  (λ '(va, s), (va, sym_name s)) <$> filter (λ '(_, s), is_import_slot s = true) entries.

Definition ptr_size : nat := Z.to_nat (bitness / 8).

(** The pointer in a slot; [Some None] when the loop goes on. *)
Definition slot_pointer (iat_va : Z) : option (option Z) :=
  bytes ←? read_bytes a image (Some (ld_mmap dump, ld_memory dump)) iat_va ptr_size;
  if decide (length bytes < ptr_size) then Some None
  else
    target ← (if decide (ptr_size = 8)
              then Some (if decide (length bytes = 8) then from_le bytes else 0%Z)
              else read_le bytes 0 4);
    if (target <? 0x10000)%Z then Some None else Some (Some target).

(** [&sym[bang + 1..]] for the first exclamation mark *)
Definition after_bang (sym : string) : option string :=
  match String.index 0 "!" sym with
  | Some bang => Some (String.substring (bang + 1) (String.length sym) sym)
  | None => None
  end.
Definition imp_name (sym : string) : string := "__imp_" +:+ default sym (after_bang sym).

(** Names the resolution may replace. *)
Definition replaceable (old_name : string) : bool :=
  String.prefix "FUN_" old_name || String.prefix "sub_" old_name || String.prefix "__imp_" old_name
  || String.prefix "_imp_" old_name || contains "ordinal" old_name.

(** Whether the target lies in the module itself. *)
Definition in_own_module (target : Z) : bool :=
  let extent := Z.max 0x1000 (foldr Z.max 0%Z (vsize <$> sections a)) in
  (module_base <=? target)%Z && (target <? module_base +sat extent)%Z.

(** One import slot of the loop. *)
Definition resolve_slot (symbols : gmap Z Symbol) (slot : Z * string) : option (gmap Z Symbol) :=
  pointer ← slot_pointer slot.1;
  match pointer with
  | None => Some symbols
  | Some target =>
      sym ← resolve_va_symbol dump target;
      match sym with
      | None => Some symbols
      | Some sym =>
          let symbols := if replaceable slot.2 then Symbols.insert slot.1 (imp_name sym) Import_ symbols
                         else symbols in
          Some (if in_own_module target then symbols
                else
                  match after_bang sym with
                  | Some api =>
                      match Symbols.name symbols target with
                      | None => Symbols.insert target api Import_ symbols
                      | Some _ => symbols
                      end
                  | None => symbols
                  end)
      end
  end.

(** [attach_dump_origin_and_resolve_iat]; [entries] is the order in which the
    hash map lists the symbols. *)
Definition resolve_iat (entries : list (Z * Symbol)) (symbols : gmap Z Symbol) : option (gmap Z Symbol) :=
  foldl (λ acc slot, t ← acc; resolve_slot t slot) (Some symbols) (import_slots entries).

End import_slots.
