(* ===== verification/DumpSymbolsCorrect.v ===== *)
(** Export lookups and the import slots of module projects: names are those of
    the export directory, the one panic, and the symbol table after the import
    slots are resolved. *)

From Stdlib Require Import Strings.Byte Strings.Ascii Strings.String.
From S2P Require Import Prelude Text Data Journal Activity MemoryMap Loader ModulePe ModulePeCorrect Serving Targets Stackwalk StackwalkCorrect DumpSymbols.
Import Targets Symbols AddressSpace.

(** ** Reading memory *)

Section reads.
Variable dump : LoadedDump.
Local Notation memory := (byte_at (ld_mmap dump) (regions (ld_memory dump))).
Hypothesis W : wf_regions (ld_mmap dump) (regions (ld_memory dump)).

(** The region of the dump that holds [va]. *)
Definition held (va : Z) (r : IndexedRegion) : Prop :=
  r ∈ regions (ld_memory dump) ∧ (va_start r ≤ va < va_start r + rg_size r)%Z.

(** The bytes from [va] to the end of its region, [len] of them at most. *)
Definition window (va : Z) (len : nat) (bs : bytes) : Prop :=
  ∃ r, held va r ∧ length bs = Nat.min len (Z.to_nat (va_start r + rg_size r - va)) ∧
    ∀ i b, bs !! i = Some b → memory (va + Z.of_nat i) = Some b.

Lemma held_unique va r r' : held va r → held va r' → r = r'.
Proof.
  intros [H1 V1] [H2 V2]. apply in_region_iff in V1, V2.
  pose proof (find_region _ _ _ _ W H1 V1). pose proof (find_region _ _ _ _ W H2 V2). congruence.
Qed.
Lemma window_unique va len bs bs' : window va len bs → window va len bs' → bs = bs'.
Proof.
  intros (r & H & L & B) (r' & H' & L' & B'). pose proof (held_unique _ _ _ H H') as <-.
  apply list_eq_same_length with (length bs); [lia|done|].
  intros i x y _ X Y. apply B in X. apply B' in Y. congruence.
Qed.

Lemma read_some_window va len bs : 0 < len → read_some dump va len = Some bs ↔ window va len bs.
Proof.
  intros P.
  assert (∀ bs, read_some dump va len = Some bs → window va len bs) as S.
  { clear bs. intros bs. unfold read_some, dump_read_at, read_at. rewrite decide_False by lia.
    pose proof (search_spec (ld_mmap dump) _ va W) as S.
    destruct (regions (ld_memory dump) !! _) as [r|] eqn:R; [|done]. destruct S as (Hin & V & F).
    destruct (Z.ltb_spec va (va_start r)); [done|]. destruct (Z.leb_spec (region_end r) va); [done|].
    cbn [orb]. pose proof (proj1 (Forall_forall _ _) (proj1 W) r Hin) as Wr.
    rewrite (region_end_eq _ _ Wr) in V.
    assert (in_region va r = true) as I by (apply in_region_iff; lia).
    destruct (slice_from_region_spec _ r va len Wr I P) as (b & E & L & _ & B).
    intros Eb. assert (b = bs) as <-.
    { destruct (slice_from_region _ r va len) as [b'|b'|]; [|case_decide; [done|]|done]; simplify_eq/=; done. }
    exists r. split; [split; [done|lia]|]. split; [done|]. intros i x Hx.
    pose proof (lookup_lt_Some _ _ _ Hx). rewrite <-Hx, B by done.
    apply byte_at_region; [done..|]. apply in_region_iff. lia. }
  split; [apply S|]. intros Wd. destruct (read_some dump va len) as [bs'|] eqn:E.
  { f_equal. eapply window_unique; [by apply S|done]. }
  exfalso. destruct Wd as (r & [Hin V] & L & _). apply in_region_iff in V as I.
  pose proof (proj1 (Forall_forall _ _) (proj1 W) r Hin) as Wr.
  unfold read_some, dump_read_at in E. pose proof (read_at_cases _ (ld_memory dump) va len W P) as C.
  destruct (read_at _ _ va len) as [b|b|]; [done| |].
  - case_decide as N; [|done]. subst b. destruct C as [C _]. cbn in C. lia.
  - unfold mapped in C. rewrite (find_region _ _ _ _ W Hin I) in C. done.
Qed.

(** An integer of [n] bytes, all in the region of its address; and an address
    whose region ends before. *)
Definition word (va : Z) (n : nat) (v : Z) : Prop :=
  ∃ bs, window va n bs ∧ length bs = n ∧ v = from_le bs.
Definition short (va : Z) (n : nat) : Prop := ∃ bs, window va n bs ∧ length bs < n.

(** The three outcomes of reading a word. *)
Lemma read_word va n :
  0 < n →
  match read_some dump va n with
  | None => (∀ v, ¬ word va n v) ∧ ¬ short va n
  | Some bs => if decide (length bs < n) then short va n ∧ ∀ v, ¬ word va n v
               else ¬ short va n ∧ ∀ v, word va n v ↔ v = le_prefix n bs
  end.
Proof.
  intros P. pose proof (λ b, read_some_window va n b P) as R.
  destruct (read_some dump va n) as [bs|] eqn:E.
  - pose proof (proj1 (R bs) eq_refl) as Wb. pose proof Wb as (r & _ & Lr & _). case_decide as D.
    + split; [by exists bs|]. intros v (b & Wb' & L & _). rewrite (window_unique _ _ _ _ Wb Wb') in D. lia.
    + split.
      * intros (b & Wb' & L). rewrite (window_unique _ _ _ _ Wb Wb') in D. lia.
      * intros v. unfold le_prefix. rewrite take_ge by lia. split.
        -- intros (b & Wb' & _ & ->). by rewrite (window_unique _ _ _ _ Wb Wb').
        -- intros ->. exists bs. split; [done|]. split; [lia|done].
  - split.
    + intros v (b & Wb & _). by apply R in Wb.
    + intros (b & Wb & _). by apply R in Wb.
Qed.

(** ** The export directory *)

(** Entry [i] of the directory names the function at [rva], at [name_rva]. *)
Definition names (base rva : Z) (dir : ExportDir) (i name_rva : Z) : Prop :=
  word (base +wrap name_ptr_rva dir +wrap i * 4) 4 name_rva ∧
  ∃ ord, word (base +wrap ord_table_rva dir +wrap i * 2) 2 ord ∧ (ord < num_functions dir)%Z ∧
    word (base +wrap addr_table_rva dir +wrap ord * 4) 4 rva.

(** Entry [i] can be read and is of no use: a part of it is cut off, its ordinal
    has no function, or its function is another. *)
Definition foreign (base rva : Z) (dir : ExportDir) (i : Z) : Prop :=
  let name_va := (base +wrap name_ptr_rva dir +wrap i * 4)%Z in
  let ord_va := (base +wrap ord_table_rva dir +wrap i * 2)%Z in
  short name_va 4 ∨
  (∃ name_rva, word name_va 4 name_rva) ∧
  (short ord_va 2 ∨
   ∃ ord, word ord_va 2 ord ∧
     ((num_functions dir ≤ ord)%Z ∨ short (base +wrap addr_table_rva dir +wrap ord * 4) 4 ∨
      ∃ f, word (base +wrap addr_table_rva dir +wrap ord * 4) 4 f ∧ f ≠ rva)).

(** [name] is the string at [va]: the bytes before the first zero among the 128
    from there, or before the end of the region. *)
Definition string_at (va : Z) (name : bytes) : Prop :=
  ∃ bs, window va 128 bs ∧ name ≠ [] ∧ x00 ∉ name ∧ (bs = name ∨ ∃ rest, bs = name ++ x00 :: rest).

Lemma until_nul_spec bs name :
  until_nul bs = name ↔ x00 ∉ name ∧ (bs = name ∨ ∃ rest, bs = name ++ x00 :: rest).
Proof.
  revert name. induction bs as [|x bs IH]; intros name; cbn [until_nul].
  - split; [intros <-; split; [apply not_elem_of_nil|by left]|].
    intros [_ [<-|(rest & E)]]; [done|]. by destruct name.
  - case_decide as D.
    + subst x. split.
      * intros <-. split; [apply not_elem_of_nil|]. right. by exists bs.
      * intros [N [<-|(rest & E)]]; [by exfalso; apply N; left|].
        destruct name as [|y name]; [done|]. injection E as <- _. exfalso. apply N. by left.
    + split.
      * intros <-. destruct (proj1 (IH _) eq_refl) as [N C]. split; [by rewrite not_elem_of_cons|].
        destruct C as [C|(rest & C)]; [left; by rewrite <-C|right; exists rest; by rewrite C at 1].
      * intros [N C]. destruct name as [|y name].
        { destruct C as [|(rest & C)]; [done|]. by injection C. }
        apply not_elem_of_cons in N as [_ N].
        destruct C as [C|(rest & C)]; injection C as <- C; f_equal; apply IH; (split; [done|]);
          [by left|right; by exists rest].
Qed.

Lemma export_string_iff base name_rva name :
  export_string dump base name_rva = Some name ↔ string_at (base +wrap name_rva) name.
Proof.
  unfold export_string, string_at. rewrite bind_Some. split.
  - intros (bs & E & K). apply read_some_window in E; [|lia]. cbv zeta in K. case_decide as D; [done|].
    injection K as <-. exists bs. split; [done|]. split; [done|]. by apply until_nul_spec.
  - intros (bs & E & N & S). exists bs. split; [by apply read_some_window; [lia|]|].
    apply until_nul_spec in S as ->. by rewrite decide_False.
Qed.

(** One turn of the loop, exactly. *)
Lemma export_entry_cases base rva dir i :
  match export_entry dump base rva dir i with
  | Unreadable => ¬ foreign base rva dir i ∧ ∀ name_rva, ¬ names base rva dir i name_rva
  | Skip => foreign base rva dir i ∧ ∀ name_rva, ¬ names base rva dir i name_rva
  | Hit name_rva => ¬ foreign base rva dir i ∧ ∀ name_rva', names base rva dir i name_rva' ↔ name_rva' = name_rva
  end.
Proof.
  unfold export_entry, foreign, names. cbv zeta.
  set (nv := (base +wrap name_ptr_rva dir +wrap i * 4)%Z). set (ov := (base +wrap ord_table_rva dir +wrap i * 2)%Z).
  pose proof (read_word nv 4 ltac:(lia)) as R1. destruct (read_some dump nv 4) as [b1|]; [|naive_solver].
  case_decide; [naive_solver|]. destruct R1 as [S1 W1].
  assert (∃ n, word nv 4 n) as X1 by (eexists; by apply W1).
  pose proof (read_word ov 2 ltac:(lia)) as R2. destruct (read_some dump ov 2) as [b2|]; [|naive_solver].
  case_decide; [naive_solver|]. destruct R2 as [S2 W2].
  pose proof (proj2 (W2 _) eq_refl) as X2. set (ord := le_prefix 2 b2) in *.
  assert (∀ o, word ov 2 o → o = ord) as U2 by (intros o; apply W2).
  set (fv := (base +wrap addr_table_rva dir +wrap ord * 4)%Z).
  destruct (Z.leb_spec (num_functions dir) ord).
  { split; [naive_solver|]. intros nr (_ & o & ->%U2 & Lt & _). lia. }
  pose proof (read_word fv 4 ltac:(lia)) as R3. destruct (read_some dump fv 4) as [b3|].
  2: { split; [|intros nr (_ & o & ->%U2 & _ & X); by apply R3 in X].
       intros [?|[_ [?|(o & ->%U2 & [?|[?|(f & X & _)]])]]]; [done|done|lia|naive_solver|by apply R3 in X]. }
  case_decide.
  { split; [naive_solver|]. intros nr (_ & o & ->%U2 & _ & X). by apply R3 in X. }
  destruct R3 as [S3 W3]. pose proof (proj2 (W3 _) eq_refl) as X3.
  destruct (Z.eqb_spec (le_prefix 4 b3) rva) as [<-|D]; cbn [negb].
  - split.
    + intros [?|[_ [?|(o & ->%U2 & [?|[?|(f & ->%W3 & ?)]])]]]; done || lia.
    + intros nr. split; [by intros [->%W1 _]|]. intros ->. split; [by apply W1|]. by exists ord.
  - split; [naive_solver|]. intros nr (_ & o & ->%U2 & _ & X%W3). congruence.
Qed.

(** The loop returns the string of the first entry that is not foreign, if
    that one names the function. *)
Lemma names_loop_iff base rva dir n i name :
  names_loop dump base rva dir n i = Some name ↔
  ∃ k name_rva, k < n ∧ (∀ j, j < k → foreign base rva dir (i + Z.of_nat j)) ∧
    names base rva dir (i + Z.of_nat k) name_rva ∧ string_at (base +wrap name_rva) name.
Proof.
  revert i. induction n as [|n IH]; intros i; cbn [names_loop].
  { split; [done|]. intros (k & ? & ? & _). lia. }
  pose proof (export_entry_cases base rva dir i) as C.
  destruct (export_entry dump base rva dir i) as [| |nr] eqn:E; destruct C as [C1 C2].
  - split; [done|]. intros (k & nr & _ & F & Nm & _). destruct k as [|k].
    + rewrite Z.add_0_r in Nm. by apply C2 in Nm.
    + specialize (F 0 ltac:(lia)). by rewrite Z.add_0_r in F.
  - rewrite IH. split.
    + intros (k & nr & Lk & F & Nm & St). exists (S k), nr. split; [lia|]. split; [|split; [|done]].
      * intros [|j] Lj; [by rewrite Z.add_0_r|]. replace (i + Z.of_nat (S j))%Z with (i + 1 + Z.of_nat j)%Z by lia.
        apply F. lia.
      * by replace (i + Z.of_nat (S k))%Z with (i + 1 + Z.of_nat k)%Z by lia.
    + intros (k & nr & Lk & F & Nm & St). destruct k as [|k]; [rewrite Z.add_0_r in Nm; by apply C2 in Nm|].
      exists k, nr. split; [lia|]. replace (i + 1 + Z.of_nat k)%Z with (i + Z.of_nat (S k))%Z by lia.
      split; [|done]. intros j Lj. replace (i + 1 + Z.of_nat j)%Z with (i + Z.of_nat (S j))%Z by lia.
      apply F. lia.
  - rewrite export_string_iff. split.
    + intros St. exists 0, nr. rewrite Z.add_0_r. split; [lia|]. split; [intros j Lj; lia|].
      split; [by apply C2|done].
    + intros (k & nr' & _ & F & Nm & St). destruct k as [|k].
      * rewrite Z.add_0_r in Nm. by apply C2 in Nm as ->.
      * specialize (F 0 ltac:(lia)). by rewrite Z.add_0_r in F.
Qed.

(** The integer of [n] bytes at [off] of a block. *)
Definition field (bs : bytes) (off n : nat) (v : Z) : Prop := v = from_le (take n (drop off bs)).

(** The forty bytes of an export directory at [va]. *)
Definition directory_at (va : Z) (dir : ExportDir) : Prop :=
  ∃ bs, window va 40 bs ∧ length bs = 40 ∧
    field bs 20 4 (num_functions dir) ∧ field bs 24 4 (num_names dir) ∧
    field bs 28 4 (addr_table_rva dir) ∧ field bs 32 4 (name_ptr_rva dir) ∧ field bs 36 4 (ord_table_rva dir).

(** The PE header of the module at [base], at most 512 bytes of it. *)
Definition pe_header_at (base : Z) (pe : bytes) : Prop :=
  ∃ hdr e_lfanew, window base 0x200 hdr ∧ 0x40 ≤ length hdr ∧ take 2 hdr = MZ ∧ field hdr 0x3c 4 e_lfanew ∧
    window (base +wrap e_lfanew) 0x200 pe ∧ 24 ≤ length pe ∧ take 4 pe = PE_SIGNATURE.

(** Where the header has the entry of the export directory: past the optional
    header of PE32, or of PE32+. *)
Definition export_entry_at (pe : bytes) (off : nat) : Prop :=
  26 ≤ length pe ∧ (field pe 24 2 0x10b ∧ off = 24 + 96 ∨ field pe 24 2 0x20b ∧ off = 24 + 112) ∧
  off + 8 ≤ length pe.

(** The directory that the entry at [off] of the header points at exports
    [name] at [rva]. *)
Definition exported_by (base size rva : Z) (pe : bytes) (off : nat) (name : bytes) : Prop :=
  ∃ export_rva export_size dir i name_rva,
    field pe off 4 export_rva ∧ field pe (off + 4) 4 export_size ∧
    (0 < export_rva < size)%Z ∧ (40 ≤ export_size)%Z ∧
    directory_at (base +wrap export_rva) dir ∧ (0 < num_functions dir ≤ 100000)%Z ∧
    (0 ≤ i < Z.min (num_names dir) 50000)%Z ∧ (∀ j, (0 ≤ j < i)%Z → foreign base rva dir j) ∧
    names base rva dir i name_rva ∧ string_at (base +wrap name_rva) name.

(** The module at [base], of [size] bytes, exports [name] at [rva]. *)
Definition exports (base size rva : Z) (name : bytes) : Prop :=
  ∃ pe off, pe_header_at base pe ∧ export_entry_at pe off ∧ exported_by base size rva pe off name.

(** The header ends before the magic of the optional header. *)
Definition header_cut (base : Z) : Prop := ∃ pe, pe_header_at base pe ∧ length pe < 26.
End reads.

(** ** Export lookups *)

Lemma read_le_inside b off n : off + n ≤ length b → ∃ v, read_le b off n = Some v.
Proof. intros L. unfold read_le, slice. rewrite decide_True by done. by eexists. Qed.
Lemma read_le_outside b off n : length b < off + n → read_le b off n = None.
Proof. intros L. unfold read_le, slice. by rewrite decide_False by lia. Qed.

Lemma read_le_field b off n v : off + n ≤ length b → read_le b off n = Some v ↔ field b off n v.
Proof.
  intros L. unfold read_le, slice, field. rewrite decide_True by done.
  split; [by intros [= <-]|by intros ->].
Qed.

Lemma le_field_nonneg b off n v : field b off n v → (0 ≤ v)%Z.
Proof. intros ->. apply from_le_bound. Qed.
Lemma field_eq b off n v v' : field b off n v → field b off n v' → v = v'.
Proof. by intros -> ->. Qed.

Lemma directory_at_eq dump va dir dir' :
  wf_regions (ld_mmap dump) (regions (ld_memory dump)) →
  directory_at dump va dir → directory_at dump va dir' → dir = dir'.
Proof.
  intros W (b & Wb & _ & F1 & F2 & F3 & F4 & F5) (b' & Wb' & _ & G1 & G2 & G3 & G4 & G5).
  pose proof (window_unique dump W _ _ _ _ Wb Wb') as <-.
  destruct dir, dir'; cbn in *. f_equal; by eapply field_eq.
Qed.

Ltac read_field b o :=
  let v := fresh "v" in let E := fresh "E" in
  destruct (read_le_inside b o 4) as [v E]; [lia|]; rewrite E; cbn [mbind option_bind];
  apply read_le_field in E; [|lia].

Lemma from_dir_cases dump base size rva pe off :
  wf_regions (ld_mmap dump) (regions (ld_memory dump)) → off + 8 ≤ length pe →
  ∃ o, export_name_from_dir dump base size rva pe off = Some o ∧
    ∀ name, o = Some name ↔ exported_by dump base size rva pe off name.
Proof.
  intros W L. unfold export_name_from_dir, or_none, exported_by.
  destruct (read_le_inside pe off 4) as [er Er]; [lia|]. rewrite Er. cbn [mbind option_bind].
  destruct (read_le_inside pe (off + 4) 4) as [es Es]; [lia|]. rewrite Es. cbn [mbind option_bind].
  apply read_le_field in Er, Es; [|lia..]. pose proof (le_field_nonneg _ _ _ _ Er).
  assert (∀ e, field pe off 4 e → e = er) as Ur by (intros e; intros; by eapply field_eq).
  assert (∀ e, field pe (off + 4) 4 e → e = es) as Us by (intros e; intros; by eapply field_eq).
  destruct (Z.eqb_spec er 0); cbn [orb].
  { eexists. split; [done|]. intros name. split; [done|]. intros (? & ? & ? & ? & ? & ->%Ur & _ & ? & _). lia. }
  destruct (Z.ltb_spec es 40).
  { eexists. split; [done|]. intros name. split; [done|]. intros (? & ? & ? & ? & ? & _ & ->%Us & _ & ? & _). lia. }
  destruct (Z.leb_spec size er).
  { eexists. split; [done|]. intros name. split; [done|]. intros (? & ? & ? & ? & ? & ->%Ur & _ & ? & _). lia. }
  pose proof (λ b, read_some_window dump W (base +wrap er) 40 b ltac:(lia)) as R.
  destruct (read_some dump _ 40) as [db|].
  2: { eexists. split; [done|]. intros name. split; [done|].
       intros (? & ? & ? & ? & ? & ->%Ur & _ & _ & _ & (b & Wb & _) & _). by apply R in Wb. }
  pose proof (proj1 (R db) eq_refl) as Wb. pose proof Wb as (r & _ & Lr & _). case_decide.
  { eexists. split; [done|]. intros name. split; [done|].
    intros (? & ? & ? & ? & ? & ->%Ur & _ & _ & _ & (b & Wb' & Lb & _) & _).
    rewrite (window_unique dump W _ _ _ _ Wb Wb') in *. lia. }
  read_field db 20. read_field db 24. read_field db 28. read_field db 32. read_field db 36.
  set (dir := mkExports v v0 v1 v2 v3).
  assert (directory_at dump (base +wrap er) dir) as Dir
    by (exists db; split; [done|]; split; [lia|]; by split_and!).
  assert (∀ d, directory_at dump (base +wrap er) d → d = dir) as Ud
    by (intros d Hd; by eapply directory_at_eq).
  pose proof (le_field_nonneg _ _ _ _ E).
  destruct (Z.eqb_spec v 0); cbn [orb].
  { eexists. split; [done|]. intros name. split; [done|].
    intros (? & ? & ? & ? & ? & ->%Ur & _ & _ & _ & ->%Ud & ? & _). cbn in *. lia. }
  destruct (Z.ltb_spec 100000 v).
  { eexists. split; [done|]. intros name. split; [done|].
    intros (? & ? & ? & ? & ? & ->%Ur & _ & _ & _ & ->%Ud & ? & _). cbn in *. lia. }
  eexists. split; [done|]. intros name. rewrite names_loop_iff by done. split.
  - intros (k & nr & Lk & F & Nm & St). exists er, es, dir, (Z.of_nat k), nr.
    split; [done|]. split; [done|]. split; [lia|]. split; [lia|]. split; [done|]. split; [cbn; lia|].
    split; [cbn; lia|]. split; [|by split]. intros j Lj. replace j with (0 + Z.of_nat (Z.to_nat j))%Z by lia.
    apply F. lia.
  - intros (? & ? & ? & i & nr & ->%Ur & _ & _ & _ & ->%Ud & _ & Li & F & Nm & St). cbn [num_names dir] in Li.
    exists (Z.to_nat i), nr. split; [lia|]. replace (0 + Z.of_nat (Z.to_nat i))%Z with i by lia.
    split; [|done]. intros j Lj. apply F. lia.
Qed.

Lemma pe_header_unique dump base pe pe' :
  wf_regions (ld_mmap dump) (regions (ld_memory dump)) →
  pe_header_at dump base pe → pe_header_at dump base pe' → pe = pe'.
Proof.
  intros W (h & e & Wh & _ & _ & F & Wp & _) (h' & e' & Wh' & _ & _ & F' & Wp' & _).
  pose proof (window_unique dump W _ _ _ _ Wh Wh') as <-. pose proof (field_eq _ _ _ _ _ F F') as <-.
  by eapply window_unique.
Qed.

(** The header, as the lookup reads it. *)
Lemma header_cases dump base :
  wf_regions (ld_mmap dump) (regions (ld_memory dump)) →
  match read_some dump base 0x200 with
  | Some hdr =>
      if decide (length hdr < 0x40 ∨ take 2 hdr ≠ MZ) then ∀ pe, ¬ pe_header_at dump base pe
      else ∃ lf, read_le hdr 0x3c 4 = Some lf ∧
        match read_some dump (base +wrap lf) 0x200 with
        | Some pe => if decide (length pe < 24 ∨ take 4 pe ≠ PE_SIGNATURE)
                     then ∀ pe, ¬ pe_header_at dump base pe
                     else pe_header_at dump base pe ∧ window dump (base +wrap lf) 0x200 pe
        | None => ∀ pe, ¬ pe_header_at dump base pe
        end
  | None => ∀ pe, ¬ pe_header_at dump base pe
  end.
Proof.
  intros W. pose proof (λ b, read_some_window dump W base 0x200 b ltac:(lia)) as R.
  destruct (read_some dump base 0x200) as [hdr|].
  2: { intros pe (h & lf & Wh & _). by apply R in Wh. }
  pose proof (proj1 (R hdr) eq_refl) as Wh.
  assert (∀ h, window dump base 0x200 h → h = hdr) as Uh by (intros h; intros; by eapply window_unique).
  case_decide as D1; [intros pe (h & lf & ->%Uh & L & M & _); destruct D1; [lia|done]|].
  apply Decidable.not_or in D1 as [L1 M1]. apply dec_stable in M1.
  destruct (read_le_inside hdr 0x3c 4) as [lf El]; [lia|]. exists lf. split; [done|].
  apply read_le_field in El; [|lia].
  pose proof (λ b, read_some_window dump W (base +wrap lf) 0x200 b ltac:(lia)) as Rp.
  destruct (read_some dump (base +wrap lf) 0x200) as [pe|].
  2: { intros pe (h & lf' & ->%Uh & _ & _ & F & Wp & _). rewrite (field_eq _ _ _ _ _ F El) in Wp. by apply Rp in Wp. }
  pose proof (proj1 (Rp pe) eq_refl) as Wp. case_decide as D2.
  - intros pe' (h & lf' & ->%Uh & _ & _ & F & Wp' & L & M). rewrite (field_eq _ _ _ _ _ F El) in Wp'.
    pose proof (window_unique dump W _ _ _ _ Wp Wp') as <-. destruct D2; [lia|done].
  - apply Decidable.not_or in D2 as [L2 M2]. apply dec_stable in M2. split; [|done].
    exists hdr, lf. split_and!; done || lia.
Qed.

(** What an export lookup does, exactly: it panics when the module's header ends
    before the magic of its optional header (the length check admits 24 bytes,
    the magic is read at 24..26), and otherwise returns the exported name. *)
Theorem export_name_correct dump base size rva :
  wf_regions (ld_mmap dump) (regions (ld_memory dump)) →
  match export_name_at dump base size rva with
  | None => header_cut dump base
  | Some found => ¬ header_cut dump base ∧ ∀ name, found = Some name ↔ exports dump base size rva name
  end.
Proof.
  intros W. pose proof (header_cases dump base W) as H. unfold export_name_at, or_none, exports, header_cut.
  assert ((∀ pe, ¬ pe_header_at dump base pe) →
    (¬ ∃ pe, pe_header_at dump base pe ∧ length pe < 26) ∧
    ∀ name, None = Some name ↔ ∃ pe off, pe_header_at dump base pe ∧ export_entry_at pe off ∧
      exported_by dump base size rva pe off name) as No by naive_solver.
  destruct (read_some dump base 0x200) as [hdr|]; [|by apply No]. case_decide; [by apply No|].
  destruct H as (lf & -> & H). cbn [mbind option_bind].
  destruct (read_some dump (base +wrap lf) 0x200) as [pe|]; [|by apply No].
  case_decide as D; [by apply No|]. clear No. destruct H as [Hp Wp].
  assert (∀ p, pe_header_at dump base p → p = pe) as Up by (intros p; intros; by eapply pe_header_unique).
  destruct (decide (length pe < 26)).
  { rewrite read_le_outside by lia. by exists pe. }
  destruct (read_le_inside pe 24 2) as [magic Em]; [lia|]. rewrite Em. cbn [mbind option_bind].
  apply read_le_field in Em; [|lia]. unfold export_entry_at.
  assert (¬ ∃ pe, pe_header_at dump base pe ∧ length pe < 26) as Nc by (intros (p & ->%Up & ?); lia).
  assert (∀ off, (field pe 24 2 0x10b ∧ off = 24 + 96 ∨ field pe 24 2 0x20b ∧ off = 24 + 112) ↔
    export_dir_offset magic = Some off) as Eo.
  { intros off. unfold export_dir_offset.
    assert (∀ m, field pe 24 2 m ↔ m = magic) as U
      by (intros m; split; [intros; by eapply field_eq|by intros ->]). rewrite !U.
    destruct (Z.eqb_spec magic 0x10b) as [->|N1]; [|destruct (Z.eqb_spec magic 0x20b) as [->|N2]].
    - split; [by intros [[_ ->]|[? _]]|]. intros [= <-]. by left.
    - split; [by intros [[? _]|[_ ->]]|]. intros [= <-]. by right.
    - split; [|done]. by intros [[? _]|[? _]]. }
  destruct (export_dir_offset magic) as [off|].
  2: { split; [done|]. intros name. split; [done|]. intros (p & off & ->%Up & (_ & X & _) & _). by apply Eo in X. }
  assert (length pe < off + 8 → ∀ name, None = Some name ↔ ∃ pe off, pe_header_at dump base pe ∧
    export_entry_at pe off ∧ exported_by dump base size rva pe off name) as Short.
  { intros Ls name. split; [done|]. intros (p & o & ->%Up & (_ & X%Eo & ?) & _). simplify_eq. lia. }
  case_decide as Ds.
  - pose proof (λ b, read_some_window dump W (base +wrap lf) (off + 8) b ltac:(lia)) as R.
    destruct (read_some dump _ (off + 8)) as [pe'|]; [|split; [done|by apply Short]].
    rewrite decide_True; [split; [done|by apply Short]|].
    assert (off + 8 ≤ 0x200) as Lo by (destruct (proj2 (Eo off) eq_refl) as [[_ ->]|[_ ->]]; lia).
    destruct (proj1 (R pe') eq_refl) as (r & Hr & L' & _). destruct Wp as (r' & Hr' & L & _).
    rewrite (held_unique dump W _ _ _ Hr' Hr) in L. lia.
  - destruct (from_dir_cases dump base size rva pe off W ltac:(lia)) as (o & -> & Ho). split; [done|].
    intros name. rewrite Ho. split.
    + intros X. exists pe, off. split; [done|]. split; [|done]. split; [lia|]. split; [by apply Eo|lia].
    + intros (p & o' & ->%Up & (_ & X%Eo & _) & Y). by simplify_eq.
Qed.

(** ** Import slots *)

Section import_slots.
Variable from_utf8_lossy : bytes → string.
Variable dump : LoadedDump.
Variable module_base : Z.
Variable a : AddressSpace.
Variable image : bytes.
Variable bitness : Z.
Local Notation resolve_va_symbol := (resolve_va_symbol from_utf8_lossy dump).
Local Notation resolve_slot := (resolve_slot from_utf8_lossy dump module_base a image bitness).
Local Notation resolve_all := (foldl (λ acc slot, t ← acc; resolve_slot t slot)).
Implicit Types t : gmap Z Symbol.

(** What the pointer in a slot resolves to: its value and the symbol there. *)
Definition resolution (iat_va : Z) : option (option (Z * string)) :=
  pointer ← slot_pointer dump a image bitness iat_va;
  match pointer with
  | None => Some None
  | Some target => sym ← resolve_va_symbol target; Some (match sym with Some s => Some (target, s) | None => None end)
  end.

(** The symbol a slot gives its own address, [s] being the one there. *)
Definition slot_symbol (slot : Z * string) (s : option Symbol) : option Symbol :=
  match resolution slot.1 with
  | Some (Some (_, sym)) => if replaceable slot.2 then Some (mkSymbol (imp_name sym) Import_) else s
  | _ => s
  end.
(** The slot names the address [va] outside the module. *)
Definition names_target (slot : Z * string) (va : Z) (api : string) : Prop :=
  ∃ sym, resolution slot.1 = Some (Some (va, sym)) ∧ in_own_module module_base a va = false ∧
    after_bang sym = Some api.

Lemma resolution_target iat_va va sym :
  resolution iat_va = Some (Some (va, sym)) → resolve_va_symbol va = Some (Some sym).
Proof.
  unfold resolution. intros ([target|] & _ & E)%bind_Some; [|done].
  apply bind_Some in E as ([s|] & Er & E); simplify_eq/=. done.
Qed.
Lemma names_target_agree slot slot' va api api' :
  names_target slot va api → names_target slot' va api' → api = api'.
Proof.
  intros (s & E%resolution_target & _ & A) (s' & E'%resolution_target & _ & A').
  rewrite E in E'. by simplify_eq.
Qed.

(** One slot: its own symbol, and that of its target if it had none. *)
Lemma resolve_slot_lookup t t' slot :
  is_Some (t !! slot.1) → resolve_slot t slot = Some t' →
  t' !! slot.1 = slot_symbol slot (t !! slot.1) ∧
  (∀ va s, va ≠ slot.1 → t !! va = Some s → t' !! va = Some s) ∧
  (∀ va, t !! va = None →
     t' !! va = None ∧ (∀ api, ¬ names_target slot va api)
     ∨ ∃ api, names_target slot va api ∧ t' !! va = Some (mkSymbol api Import_)).
Proof.
  intros [s0 Hs0]. unfold resolve_slot, slot_symbol, names_target, resolution.
  destruct (slot_pointer _ _ _ _ slot.1) as [[target|]|]; cbn [mbind option_bind]; [| |done].
  2: { intros [= <-]. split_and!; [done..|]. intros va N. left. split; [done|]. by intros api (? & ? & _). }
  destruct (resolve_va_symbol target) as [[sym|]|]; cbn [mbind option_bind fmap option_fmap option_map]; [| |done].
  2: { intros [= <-]. split_and!; [done..|]. intros va N. left. split; [done|]. by intros api (? & ? & _). }
  unfold Symbols.name, Symbols.get, Symbols.insert. set (t1 := if replaceable _ then _ else _).
  assert (∀ va, va ≠ slot.1 → t1 !! va = t !! va) as T1
    by (intros va Hv; unfold t1; destruct (replaceable _); [by rewrite lookup_insert_ne|done]).
  assert (t1 !! slot.1 = if replaceable slot.2 then Some (mkSymbol (imp_name sym) Import_) else t !! slot.1) as T2
    by (unfold t1; destruct (replaceable _); [by rewrite lookup_insert_eq|done]).
  assert (is_Some (t1 !! slot.1)) as T3 by (rewrite T2; destruct (replaceable _); [done|by rewrite Hs0]).
  assert (∀ va, t !! va = None → t1 !! va = None) as T4
    by (intros va N; rewrite T1; [done|]; intros ->; by rewrite Hs0 in N).
  destruct (in_own_module module_base a target) eqn:Own.
  { intros [= <-]. split_and!; [done|intros va s ? <-; auto|]. intros va N. left.
    split; [auto|]. intros api (? & E & O & _). simplify_eq; congruence. }
  destruct (after_bang sym) as [api|] eqn:Bang.
  2: { intros [= <-]. split_and!; [done|intros va s ? <-; auto|]. intros va N. left.
    split; [auto|]. intros api (? & E & _ & A). simplify_eq; congruence. }
  destruct (t1 !! target) as [s1|] eqn:Tt; cbn [fmap option_fmap option_map]; intros [= <-].
  - split_and!; [done|intros va s ? <-; auto|]. intros va N. left. split; [auto|].
    intros api' (? & E & _). simplify_eq; rewrite (T4 _ N) in Tt; congruence.
  - assert (target ≠ slot.1) by (intros ->; rewrite Tt in T3; by destruct T3).
    split_and!.
    + by rewrite lookup_insert_ne.
    + intros va s Hv Hs. rewrite lookup_insert_ne; [by rewrite T1|]. intros ->. by rewrite T1, Hs in Tt.
    + intros va N. destruct (decide (va = target)) as [->|D].
      * right. exists api. rewrite lookup_insert_eq. split; [by exists sym|done].
      * left. rewrite lookup_insert_ne by done. split; [auto|]. intros api' (? & E & _). simplify_eq; congruence.
Qed.

Lemma resolve_none l : resolve_all None l = None.
Proof. by induction l. Qed.

Lemma resolve_all_lookup l t final :
  NoDup l.*1 → (∀ slot, slot ∈ l → is_Some (t !! slot.1)) → resolve_all (Some t) l = Some final →
  (∀ slot, slot ∈ l → final !! slot.1 = slot_symbol slot (t !! slot.1)) ∧
  (∀ va s, va ∉ l.*1 → t !! va = Some s → final !! va = Some s) ∧
  (∀ va, t !! va = None →
     final !! va = None ∧ (∀ slot api, slot ∈ l → ¬ names_target slot va api)
     ∨ ∃ slot api, slot ∈ l ∧ names_target slot va api ∧ final !! va = Some (mkSymbol api Import_)).
Proof.
  revert t. induction l as [|slot l IH]; intros t ND K; cbn [foldl].
  { intros [= <-]. split_and!; [by intros ? ?%not_elem_of_nil|done|].
    intros va N. left. split; [done|]. by intros ? ? ?%not_elem_of_nil. }
  cbn [mbind option_bind]. destruct (resolve_slot t slot) as [t'|] eqn:E; [|by rewrite resolve_none].
  intros F. apply NoDup_cons in ND as [Nin ND].
  assert (is_Some (t !! slot.1)) as Ks by (apply K; by left).
  destruct (resolve_slot_lookup _ _ _ Ks E) as (H1 & H2 & H3).
  assert (∀ x, x ∈ l → x.1 ≠ slot.1) as Ne.
  { intros x Hx Eq. apply Nin. rewrite <-Eq. by apply list_elem_of_fmap_2. }
  assert (∀ x, x ∈ l → t' !! x.1 = t !! x.1) as Same.
  { intros x Hx. destruct (K x) as [s Hs]; [by right|]. rewrite Hs. apply H2; auto. }
  destruct (IH t' ND) as (G1 & G2 & G3);
    [intros x Hx; rewrite (Same x Hx); apply K; by right|exact F|].
  split_and!.
  - intros x [->|Hx]%elem_of_cons; [|by rewrite G1, Same].
    destruct (slot_symbol slot (t !! slot.1)) as [s|] eqn:Es; [by apply G2; [|rewrite H1]|].
    exfalso. destruct Ks as [s Hs]. rewrite Hs in Es. unfold slot_symbol in Es.
    by destruct (resolution _) as [[[]|]|]; [destruct (replaceable _)|..].
  - intros va s Hva Hs. apply not_elem_of_cons in Hva as [Hva Hl]. by apply G2; [|apply H2].
  - intros va N. destruct (H3 va N) as [[N' No]|(api & Nt & Hs)].
    + destruct (G3 va N') as [[Hf Nl]|(x & api & Hx & Nt & Hf)].
      * left. split; [done|]. intros x api [->|Hx]%elem_of_cons; [apply No|by apply Nl].
      * right. exists x, api. split_and!; [by right|done..].
    + right. exists slot, api. split_and!; [by left|done|]. apply G2; [|done].
      intros (x & -> & Hx)%list_elem_of_fmap. destruct (K x) as [s' Hs']; [by right|]. by rewrite N in Hs'.
Qed.

(** A panic is that of a slot. *)
Lemma resolve_slot_panics t slot : resolve_slot t slot = None ↔ resolution slot.1 = None.
Proof.
  unfold resolve_slot, resolution. destruct (slot_pointer _ _ _ _ slot.1) as [[target|]|]; cbn [mbind option_bind]; [|done..].
  by destruct (resolve_va_symbol target) as [[sym|]|].
Qed.
Lemma resolve_all_panics t l : resolve_all (Some t) l = None ↔ ∃ slot, slot ∈ l ∧ resolution slot.1 = None.
Proof.
  revert t. induction l as [|slot l IH]; intros t; cbn [foldl].
  { split; [done|]. by intros (? & ?%not_elem_of_nil & _). }
  cbn [mbind option_bind]. pose proof (resolve_slot_panics t slot) as P.
  destruct (resolve_slot t slot) as [t'|].
  - rewrite IH. split; [intros (x & ? & ?); exists x; by split; [right|]|].
    intros (x & [->|?]%elem_of_cons & E); [by apply P in E|by exists x].
  - rewrite resolve_none. split; [|done]. intros _. exists slot. split; [by left|by apply P].
Qed.

(** ** What the slots mean *)

(** The first module, section, ... with a property. *)
Definition first_with {A} (P : A → Prop) (l : list A) (x : A) : Prop :=
  ∃ l1 l2, l = l1 ++ x :: l2 ∧ P x ∧ ∀ y, y ∈ l1 → ¬ P y.

Lemma find_first_with {A} (p : A → bool) (P : A → Prop) l x :
  (∀ y, y ∈ l → p y = true ↔ P y) → find_first p l = Some x ↔ first_with P l x.
Proof.
  induction l as [|y l IH]; intros H; cbn [find_first].
  { split; [done|]. intros (l1 & l2 & E & _). by destruct l1. }
  pose proof (H y ltac:(by left)) as Hy. destruct (p y) eqn:E.
  - split.
    + intros [= <-]. exists [], l. split; [done|]. split; [by apply Hy|]. by intros ? ?%not_elem_of_nil.
    + intros ([|z l1] & l2 & El & Px & N); injection El as <- _; [done|].
      exfalso. apply (N y); [by left|by apply Hy].
  - rewrite IH by (intros z Hz; apply H; by right). split.
    + intros (l1 & l2 & -> & Px & N). exists (y :: l1), l2. split; [done|]. split; [done|].
      intros z [->|Hz]%elem_of_cons; [intros ?%Hy; done|by apply N].
    + intros ([|z l1] & l2 & El & Px & N); injection El as <- ->; [apply Hy in Px; done|].
      exists l1, l2. split; [done|]. split; [done|]. intros z Hz. apply N. by right.
Qed.

Definition in_module (va : Z) (m : DumpModule) : Prop :=
  (dm_base m ≤ va < dm_base m + dm_size m)%Z ∧ (va < u64_max)%Z.

(** The symbol at an address of the dump: the export of the module there, or
    the module and the offset when it exports nothing at that address. *)
Definition symbol_at (va : Z) (sym : string) : Prop :=
  ∃ m, first_with (in_module va) (modules dump) m ∧
    ((∃ name, exports dump (dm_base m) (dm_size m) (va - dm_base m) name ∧
        sym = dm_name m +:+ "!" +:+ from_utf8_lossy name) ∨
     (∀ name, ¬ exports dump (dm_base m) (dm_size m) (va - dm_base m) name) ∧
        sym = dm_name m +:+ "+" +:+ alt_hex (va - dm_base m)).
(** The module there has a header the lookup panics on. *)
Definition cut_at (va : Z) : Prop :=
  ∃ m, first_with (in_module va) (modules dump) m ∧ header_cut dump (dm_base m).

(** The [n] bytes of the image's file behind [va]. *)
Definition image_run (va : Z) (n : nat) (bs : bytes) : Prop :=
  ∃ s, first_with (λ s, (image_base a + vaddr s ≤ va < image_base a + vaddr s + vsize s)%Z) (sections a) s ∧
    let off := (va - image_base a - vaddr s)%Z in
    (off < raw_size s)%Z ∧ length bs = n ∧
    ∀ i b, bs !! i = Some b → image !! (Z.to_nat (raw_addr s + off) + i) = Some b.

(** The pointer of [n] bytes at [slot]: little-endian, from the image, or from
    the dump where the image has no bytes; below 64 KiB it is none. *)
Definition pointer_at (n : nat) (slot target : Z) : Prop :=
  (0x10000 ≤ target)%Z ∧ ∃ bs, length bs = n ∧ target = from_le bs ∧
    (image_run slot n bs ∨ (∀ bs', ¬ image_run slot n bs') ∧ window dump slot n bs).

Definition import_symbol (s : Symbol) : Prop :=
  sym_kind s = Import_ ∨ ∃ rest, sym_name s = "__imp_" +:+ rest ∨ sym_name s = "_imp_" +:+ rest.
Definition placeholder (name : string) : Prop :=
  (∃ p rest, p ∈ ["FUN_"; "sub_"; "__imp_"; "_imp_"] ∧ name = p +:+ rest) ∨
  ∃ before after, name = before +:+ "ordinal" +:+ after.

(** The part of a symbol after its first exclamation mark. *)
Definition api_of (sym api : string) : Prop :=
  ∃ pre, sym = pre +:+ "!" +:+ api ∧ ∀ x y, pre ≠ x +:+ "!" +:+ y.
(** The name a slot gets from the symbol it points at. *)
Definition slot_name (sym name : string) : Prop :=
  (∃ api, api_of sym api ∧ name = "__imp_" +:+ api) ∨ (∀ api, ¬ api_of sym api) ∧ name = "__imp_" +:+ sym.

(** Outside the module: below it, or past its longest section and 4 KiB. *)
Definition outside (va : Z) : Prop :=
  (va < module_base)%Z ∨ (u64_max ≤ va)%Z ∨
  (module_base + 0x1000 ≤ va)%Z ∧ ∀ s, s ∈ sections a → (module_base + vsize s ≤ va)%Z.

Lemma substring_all k m s : String.length s ≤ m → String.substring k m s = String.substring k (String.length s) s.
Proof.
  revert k m. induction s as [|c s IH]; intros k m L; [by destruct k, m|]. cbn [String.length] in L.
  destruct m as [|m]; [lia|]. destruct k as [|k]; cbn [String.substring String.length].
  - f_equal. rewrite (IH 0 m) by lia. done.
  - rewrite (IH k (S m)), (IH k (S (String.length s))) by lia. done.
Qed.
Lemma bang_tail s : String.substring 0 (String.length s) s = s.
Proof. induction s as [|c s IH]; [done|]. cbn. by rewrite IH. Qed.

Lemma after_bang_cons c s :
  after_bang (String c s) = if decide (c = "!"%char) then Some s else after_bang s.
Proof.
  unfold after_bang. cbn [String.index String.prefix]. destruct (ascii_dec "!" c) as [<-|N].
  - rewrite decide_True by done. destruct s as [|c s]; [done|]. cbv beta iota.
    f_equal. change (String.substring 0 (String.length (String "!" (String c s))) (String c s) = String c s).
    rewrite substring_all by (cbn; lia). apply bang_tail.
  - rewrite decide_False by congruence. destruct (String.index 0 "!" s) as [k|]; [|done]. f_equal.
    cbn [String.substring Nat.add String.length]. apply substring_all. lia.
Qed.

Lemma after_bang_iff sym api : after_bang sym = Some api ↔ api_of sym api.
Proof.
  induction sym as [|c s IH].
  - split; [done|]. intros (pre & E & _). by destruct pre.
  - rewrite after_bang_cons. case_decide as D.
    + subst c. split.
      * intros [= ->]. exists "". split; [done|]. intros [|] y; by cbn.
      * intros ([|c pre] & E & N); injection E; [by intros ->|]. intros -> <-. by edestruct (N "" pre).
    + rewrite IH. split; intros (pre & E & N).
      * exists (String c pre). split; [by rewrite E|]. intros [|x0 x] y Ex; injection Ex; [congruence|].
        intros Ep _. by apply (N x y).
      * destruct pre as [|c' pre]; injection E; [intros _ ?; congruence|]. intros -> <-.
        exists pre. split; [done|]. intros x y ->. by apply (N (String c x) y).
Qed.

(** The slots of the symbol table, whatever the order it lists them in. *)
Lemma elem_of_import_slots entries t va name :
  entries ≡ₚ map_to_list t →
  (va, name) ∈ import_slots entries ↔ ∃ s, t !! va = Some s ∧ is_import_slot s = true ∧ sym_name s = name.
Proof.
  intros P. unfold import_slots. rewrite list_elem_of_fmap. split.
  - intros ([va' s] & E & [Hs Hin]%list_elem_of_filter). simplify_eq/=.
    rewrite P, elem_of_map_to_list in Hin. by exists s.
  - intros (s & Hs & I & <-). exists (va, s). split; [done|]. apply list_elem_of_filter.
    rewrite P, elem_of_map_to_list. done.
Qed.
Lemma import_slots_NoDup entries t :
  entries ≡ₚ map_to_list t → NoDup (import_slots entries).*1.
Proof.
  intros P. unfold import_slots. rewrite <-list_fmap_compose.
  apply (NoDup_fmap_2_strong) ; [|apply NoDup_filter; rewrite P; apply NoDup_map_to_list].
  intros [k1 s1] [k2 s2] [_ H1]%list_elem_of_filter [_ H2]%list_elem_of_filter E. cbn in E. subst k2.
  rewrite P, elem_of_map_to_list in H1, H2. congruence.
Qed.

Section meaning.
Hypothesis W : wf_regions (ld_mmap dump) (regions (ld_memory dump)).
Hypothesis Wa : wf_space a.
Variable n : nat.
Hypothesis Bits : bitness = 64%Z ∧ n = 8 ∨ bitness = 32%Z ∧ n = 4.

Lemma resolve_va_symbol_cases va :
  match resolve_va_symbol va with
  | None => cut_at va
  | Some found => ¬ cut_at va ∧ ∀ sym, found = Some sym ↔ symbol_at va sym
  end.
Proof using W.
  clear Bits Wa n.
  unfold resolve_va_symbol, or_none, symbol_at, cut_at, module_at.
  pose proof (λ m, find_first_with (λ m, (dm_base m <=? va)%Z && (va <? dm_base m +sat dm_size m)%Z)
    (in_module va) (modules dump) m) as F.
  assert (∀ y, y ∈ modules dump → (dm_base y <=? va)%Z && (va <? dm_base y +sat dm_size y)%Z = true ↔ in_module va y) as Hy
    by (intros y _; unfold in_module; rewrite andb_true_iff, Z.leb_le, Z.ltb_lt; mach).
  destruct (find_first _ (modules dump)) as [m|]; cycle 1.
  { split; [by intros (m & H%F & _)|]. intros sym. split; [done|]. by intros (m & H%F & _). }
  pose proof (proj1 (F m Hy) eq_refl) as Fm.
  assert (∀ m', first_with (in_module va) (modules dump) m' → m' = m) as U
    by (intros m' H%(F m' Hy); by simplify_eq).
  assert (va -sat dm_base m = va - dm_base m)%Z as -> by (destruct Fm as (? & ? & _ & [? _] & _); mach).
  pose proof (export_name_correct dump (dm_base m) (dm_size m) (va - dm_base m) W) as E.
  destruct (export_name_at _ _ _ _) as [found|]; cbn [mbind option_bind]; [|by exists m].
  destruct E as [Nc E]. split; [by intros (m' & ->%U & ?)|]. intros sym. split.
  - intros [= <-]. exists m. split; [done|]. destruct found as [name|].
    + left. exists name. split; [by apply E|done].
    + right. split; [|done]. intros name X. by apply E in X.
  - intros (m' & ->%U & [(name & X & ->)|[X ->]]).
    + by apply E in X as ->.
    + destruct found as [name|]; [|done]. by destruct (X name (proj1 (E name) eq_refl)).
Qed.

Lemma n_small : 0 < n ≤ 8. Proof. destruct Bits as [[_ ->]|[_ ->]]; lia. Qed.
Lemma ptr_size_n : ptr_size bitness = n. Proof. by destruct Bits as [[-> ->]|[-> ->]]. Qed.

Lemma image_run_iff va bs : slice_for_va a image va (Z.of_nat n) = Some bs ↔ image_run va n bs.
Proof.
  pose proof n_small. destruct Wa as [B Ws]. rewrite Forall_forall in Ws.
  unfold slice_for_va, image_run, section_at_va. rewrite bind_Some.
  assert (∀ s, s ∈ sections a → contains_va (image_base a) s va = true ↔
    (image_base a + vaddr s ≤ va < image_base a + vaddr s + vsize s)%Z) as C
    by (intros s Hs; apply contains_va_iff; [done|by apply Ws]).
  setoid_rewrite (find_first_with _ _ _ _ C). clear C. f_equiv; intros s.
  split; intros [Hf H2]; (split; [done|]); destruct Hf as (l1 & l2 & El & V & _);
    assert (s ∈ sections a) as Hs by (rewrite El; apply elem_of_app; right; by left);
    pose proof (Ws s Hs) as Wf; pose proof Wf as [? ? ? ? ? ?]; cbv zeta in *.
  - apply bind_Some in H2 as (off & Ho%va_to_offset_iff & H2); [|done..]. destruct Ho as [R ->].
    destruct (_ <? _)%Z; [done|]. unfold get_range in H2.
    match type of H2 with context [(?x <=? ?y)%Z] => destruct (Z.leb_spec x y) as [Le|] end; [|done].
    injection H2 as <-. split; [lia|]. rewrite Nat2Z.id.
    split; [rewrite length_take, length_drop; mach|]. intros i b Hi.
    apply lookup_take_Some in Hi as [Hi _]. by rewrite lookup_drop in Hi.
  - destruct H2 as (R & L & Bs). apply bind_Some. eexists. split; [apply va_to_offset_iff; [done..|]; split; [lia|done]|].
    assert (∃ b, bs !! (n - 1) = Some b) as [b Hb] by (apply lookup_lt_is_Some; lia).
    apply Bs, lookup_lt_Some in Hb as Ll. rewrite (proj2 (Z.ltb_ge _ _)) by mach.
    unfold get_range. rewrite (proj2 (Z.leb_le _ _)) by mach. rewrite Nat2Z.id. f_equal.
    apply list_eq_same_length with n; [done|rewrite length_take, length_drop; mach|].
    intros i x y _ Hx Hy. apply lookup_take_Some in Hx as [Hx _]. rewrite lookup_drop in Hx.
    apply Bs in Hy. congruence.
Qed.

Lemma image_run_unique va bs bs' : image_run va n bs → image_run va n bs' → bs = bs'.
Proof. intros H%image_run_iff H'%image_run_iff. congruence. Qed.

Lemma project_read_iff va bs :
  read_bytes a image (Some (ld_mmap dump, ld_memory dump)) va n = Some bs ↔
  image_run va n bs ∨ (∀ bs', ¬ image_run va n bs') ∧ window dump va n bs.
Proof.
  pose proof n_small. unfold read_bytes. rewrite decide_False by lia.
  change (read_dump (Some (ld_mmap dump, ld_memory dump)) va n) with (read_some dump va n).
  pose proof (λ bs, image_run_iff va bs) as I. destruct (slice_for_va _ _ _ _) as [sl|].
  - pose proof (proj1 (I sl) eq_refl) as Hs. pose proof Hs as (? & _ & _ & L & _). rewrite decide_True by done.
    split; [intros [= <-]; by left|].
    intros [Hb|[N _]]; [f_equal; by eapply image_run_unique|by destruct (N sl)].
  - assert (∀ bs', ¬ image_run va n bs') as N by (intros bs' H'; by apply I in H').
    rewrite read_some_window by (done || lia).
    split; [intros X; by right|]. by intros [X|[_ X]]; [destruct (N bs)|].
Qed.

Lemma slot_pointer_cases va :
  ∃ found, slot_pointer dump a image bitness va = Some found ∧ ∀ t : Z, found = Some t ↔ pointer_at n va t.
Proof.
  pose proof n_small. unfold slot_pointer, or_none, pointer_at. rewrite ptr_size_n.
  pose proof (project_read_iff va) as R. destruct (read_bytes _ _ _ va n) as [bs|].
  2: { eexists. split; [done|]. intros t. split; [done|]. intros (_ & bs & _ & _ & Hb). by apply R in Hb. }
  assert (∀ b, image_run va n b ∨ (∀ bs', ¬ image_run va n bs') ∧ window dump va n b → b = bs) as U
    by (intros b Hb; apply R in Hb; congruence).
  case_decide as D.
  { eexists. split; [done|]. intros t. split; [done|]. intros (_ & b & L & _ & ->%U). lia. }
  pose proof (proj1 (R bs) eq_refl) as Hb.
  assert (length bs = n) as L by (destruct Hb as [(? & _ & _ & L & _)|[_ (? & _ & L & _)]]; lia).
  assert ((if decide (n = 8) then Some (if decide (length bs = 8) then from_le bs else 0%Z)
           else read_le bs 0 4) = Some (from_le bs)) as ->.
  { destruct Bits as [[_ E]|[_ E]].
    - by rewrite !decide_True by congruence.
    - rewrite decide_False by lia. unfold read_le, slice. rewrite decide_True by lia.
      rewrite drop_0, (take_ge bs) by lia. done. }
  cbn [mbind option_bind]. destruct (Z.ltb_spec (from_le bs) 0x10000).
  - eexists. split; [done|]. intros t. split; [done|]. intros (? & b & _ & -> & ->%U). lia.
  - eexists. split; [done|]. intros t. split; [intros [= <-]; split; [lia|by exists bs]|].
    by intros (_ & b & _ & -> & ->%U).
Qed.

Lemma resolution_cases va :
  match resolution va with
  | None => ∃ target, pointer_at n va target ∧ cut_at target
  | Some found => (∀ target, pointer_at n va target → ¬ cut_at target) ∧
      ∀ target sym, found = Some (target, sym) ↔ pointer_at n va target ∧ symbol_at target sym
  end.
Proof.
  unfold resolution. destruct (slot_pointer_cases va) as (found & -> & P). cbn [mbind option_bind].
  destruct found as [target|].
  2: { split; [by intros ? H%P|]. intros target sym. split; [done|]. by intros [H%P _]. }
  pose proof (proj1 (P target) eq_refl) as Pt.
  assert (∀ t : Z, pointer_at n va t → t = target) as U by (intros t Ht; apply P in Ht; congruence).
  pose proof (resolve_va_symbol_cases target) as R.
  destruct (resolve_va_symbol target) as [o|]; cbn [mbind option_bind]; [|by exists target].
  destruct R as [Nc R]. split; [by intros t ->%U|]. intros t sym. split.
  - destruct o as [s|]; [|done]. intros [= <- <-]. split; [done|by apply R].
  - intros [->%U Hs]. by apply R in Hs as ->.
Qed.

Lemma is_import_slot_iff s : is_import_slot s = true ↔ import_symbol s.
Proof.
  unfold is_import_slot, import_symbol. rewrite !orb_true_iff, bool_decide_eq_true, !prefix_app.
  split; [intros [[?|[r ?]]|[r ?]]|intros [?|(r & [?|?])]]; eauto.
Qed.
Lemma replaceable_iff name : replaceable name = true ↔ placeholder name.
Proof.
  unfold replaceable, placeholder. rewrite !orb_true_iff, !prefix_app, contains_app. split.
  - intros [[[[H|H]|H]|H]|H]; [left; destruct H as [r ->]; eexists _, r; split; [|done];
      rewrite !elem_of_cons; tauto ..|by right].
  - intros [(p & r & Hp & ->)|?]; [|by right]. left.
    rewrite !elem_of_cons, elem_of_nil in Hp. destruct Hp as [->|[->|[->|[->|[]]]]]; eauto 10.
Qed.
Lemma imp_name_iff sym name : imp_name sym = name ↔ slot_name sym name.
Proof.
  unfold imp_name, slot_name. pose proof (after_bang_iff sym) as A.
  destruct (after_bang sym) as [api|]; cbn [default from_option id].
  - split; [intros <-; left; exists api; by split; [apply A|]|].
    intros [(x & H%A & ->)|[N _]]; [by simplify_eq|]. by destruct (N api (proj1 (A api) eq_refl)).
  - split; [intros <-; right; split; [|done]; by intros api H%A|].
    by intros [(x & H%A & _)|[_ ->]].
Qed.
Lemma outside_iff va : in_own_module module_base a va = false ↔ outside va.
Proof.
  unfold in_own_module, outside. set (m := foldr Z.max 0%Z (vsize <$> sections a)).
  assert ((0 ≤ m)%Z ∧ ∀ x, (x < 0)%Z ∨ (m ≤ x)%Z ↔ (x < 0)%Z ∨ ∀ s, s ∈ sections a → (vsize s ≤ x)%Z) as [M0 M].
  { subst m. induction (sections a) as [|s l [I0 IH]]; cbn [fmap list_fmap foldr].
    - split; [lia|]. intros x. split; [intros [?|?]; [by left|right; by intros ? ?%not_elem_of_nil]|].
      intros _. lia.
    - split; [lia|]. intros x. specialize (IH x). split.
      + intros [?|H]; [by left|]. destruct IH as [IH _]. destruct (IH ltac:(right; lia)) as [?|H']; [by left|].
        right. intros s' [->|?]%elem_of_cons; [lia|auto].
      + intros [?|H]; [by left|]. destruct IH as [_ IH].
        destruct IH as [?|?]; [right; intros; apply H; by right|by left|].
        right. specialize (H s ltac:(by left)). lia. }
  specialize (M (va - module_base)%Z).
  assert ((∀ s, s ∈ sections a → (vsize s ≤ va - module_base)%Z) ↔
          ∀ s, s ∈ sections a → (module_base + vsize s ≤ va)%Z) as Q
    by (split; intros H s Hs; specialize (H s Hs); lia). rewrite Q in M. clear Q.
  rewrite andb_false_iff, Z.leb_gt, Z.ltb_ge. split.
  - intros [?|H]; [by left|]. destruct (decide (va < module_base)%Z); [by left|].
    destruct (decide (u64_max ≤ va)%Z); [by right; left|]. right. right. split; [mach|].
    destruct M as [M _]. destruct M as [?|?]; [mach|lia|done].
  - intros [?|[?|[? H]]]; [by left|right; mach|]. destruct M as [_ M].
    destruct M as [?|?]; [by right|lia|right; mach].
Qed.

(** An import slot of the table points outside the module at [va], at the
    function [api] of the module there. *)
Definition named (symbols : gmap Z Symbol) (va : Z) (api : string) : Prop :=
  outside va ∧ ∃ slot s sym, symbols !! slot = Some s ∧ import_symbol s ∧ pointer_at n slot va ∧
    symbol_at va sym ∧ api_of sym api.

Lemma names_target_iff slot va api :
  resolution slot.1 ≠ None →
  names_target slot va api ↔
  outside va ∧ ∃ sym, pointer_at n slot.1 va ∧ symbol_at va sym ∧ api_of sym api.
Proof.
  unfold names_target. pose proof (resolution_cases slot.1) as R. setoid_rewrite after_bang_iff.
  rewrite <-outside_iff. destruct (resolution slot.1) as [o|]; [intros _|done]. destruct R as [_ R]. split.
  - intros (sym & [= ->] & O & A). split; [done|]. exists sym. by destruct (proj1 (R va sym) eq_refl).
  - intros (O & sym & P & S & A). exists sym. by rewrite (proj2 (R va sym)).
Qed.

(** C34: For a project of a dump module, 32 or 64 bit, with well-formed sections and
    dump regions, in whatever order the symbols are listed: the resolution of import
    slots panics exactly when a slot points into a module whose header ends before the
    magic of its optional header. Otherwise an import slot with a placeholder name
    (FUN_, sub_, __imp_, _imp_, ordinal) that points into a module of the dump is
    renamed to __imp_ and the symbol there: the export that the first usable entry of
    the export directory of the module, read from the dump, gives to that address, or
    module and offset. Every other symbol is kept. An address without symbol gets one
    exactly if a slot points at it, it lies outside the module and a symbol with an
    exclamation mark is there; the symbol is the part after the first mark. Pointers
    are the little-endian words of the image at the slot, or of the dump where the
    image has no bytes, and at least 64 KiB. *)
Theorem iat_resolution_correct entries symbols :
  entries ≡ₚ map_to_list symbols →
  match resolve_iat from_utf8_lossy dump module_base a image bitness entries symbols with
  | None =>
      ∃ slot s target, symbols !! slot = Some s ∧ import_symbol s ∧ pointer_at n slot target ∧ cut_at target
  | Some final =>
      (∀ slot s target, symbols !! slot = Some s → import_symbol s → pointer_at n slot target → ¬ cut_at target) ∧
      (∀ va s target sym name,
         symbols !! va = Some s → import_symbol s → placeholder (sym_name s) →
         pointer_at n va target → symbol_at target sym → slot_name sym name →
         final !! va = Some (mkSymbol name Import_)) ∧
      (∀ va s, symbols !! va = Some s →
         ¬ (import_symbol s ∧ placeholder (sym_name s) ∧ ∃ target sym, pointer_at n va target ∧ symbol_at target sym) →
         final !! va = Some s) ∧
      (∀ va api, symbols !! va = None → named symbols va api → final !! va = Some (mkSymbol api Import_)) ∧
      (∀ va, symbols !! va = None → (∀ api, ¬ named symbols va api) → final !! va = None)
  end.
Proof.
  intros P. pose proof (elem_of_import_slots entries symbols) as In.
  assert (∀ va s, symbols !! va = Some s → import_symbol s → (va, sym_name s) ∈ import_slots entries) as Slot
    by (intros va s Hs I; apply In; [done|]; exists s; by rewrite is_import_slot_iff).
  assert (∀ slot, slot ∈ import_slots entries → ∃ s, symbols !! slot.1 = Some s ∧ import_symbol s ∧ sym_name s = slot.2) as Back.
  { intros [va name] H. apply In in H as (s & Hs & I & E); [|done]. exists s. by rewrite <-is_import_slot_iff. }
  pose proof (resolve_all_panics symbols (import_slots entries)) as Pn. unfold resolve_iat.
  destruct (resolve_all (Some symbols) _) as [final|] eqn:E.
  2: { destruct (proj1 Pn eq_refl) as (slot & (s & Hs & I & _)%Back & R).
       pose proof (resolution_cases slot.1) as C. rewrite R in C. destruct C as (t & ? & ?). by exists slot.1, s, t. }
  assert (∀ slot, slot ∈ import_slots entries → resolution slot.1 ≠ None) as Ok
    by (intros slot Hs R; discriminate (proj2 Pn (ex_intro _ slot (conj Hs R)))).
  destruct (resolve_all_lookup (import_slots entries) symbols final) as (H1 & H2 & H3); [| |exact E|].
  { by eapply import_slots_NoDup. }
  { intros slot (s & Hs & _)%Back. by exists s. }
  assert (∀ va s, symbols !! va = Some s → import_symbol s → resolution va ≠ None) as Ok'
    by (intros va s Hs I; exact (Ok _ (Slot va s Hs I))).
  split; [|split; [|split; [|split]]].
  - intros va s t Hs I Pt. pose proof (Ok' va s Hs I). pose proof (resolution_cases va) as C.
    destruct (resolution va); [|done]. by apply C.
  - intros va s t sym name Hs I Pl Pt Sy Nm. pose proof (Ok' va s Hs I). pose proof (resolution_cases va) as C.
    pose proof (H1 _ (Slot va s Hs I)) as F. cbn [fst] in F. rewrite F. unfold slot_symbol. cbn [fst snd].
    destruct (resolution va) as [o|]; [|done]. rewrite (proj2 (proj2 C t sym)) by done.
    apply replaceable_iff in Pl as ->. by apply imp_name_iff in Nm as ->.
  - intros va s Hs N. destruct (is_import_slot s) eqn:I.
    + apply is_import_slot_iff in I. pose proof (resolution_cases va) as C.
      pose proof (H1 _ (Slot va s Hs I)) as F. cbn [fst] in F. rewrite F, Hs. unfold slot_symbol. cbn [fst snd].
      destruct (resolution va) as [[[t sym]|]|]; [|done..].
      destruct (replaceable (sym_name s)) eqn:Rp; [|done]. exfalso. apply N. split; [done|].
      split; [by apply replaceable_iff|]. exists t, sym. by apply C.
    + apply H2; [|done]. intros (slot & -> & (s' & Hs' & I' & _)%Back)%list_elem_of_fmap. simplify_eq.
      apply is_import_slot_iff in I'. congruence.
  - intros va api Nn (O & slot & s & sym & Hs & I & Pt & Sy & A).
    assert (names_target (slot, sym_name s) va api) as Nt
      by (apply names_target_iff; [exact (Ok _ (Slot _ _ Hs I))|]; split; [done|]; by exists sym).
    destruct (H3 va Nn) as [[_ No]|(slot' & api' & _ & Nt' & ->)].
    + by destruct (No (slot, sym_name s) api (Slot _ _ Hs I)).
    + by rewrite (names_target_agree _ _ _ _ _ Nt Nt').
  - intros va Nn No. destruct (H3 va Nn) as [[? _]|(slot & api & Hin & Nt & _)]; [done|]. exfalso.
    apply names_target_iff in Nt as (O & sym & Pt & Sy & A); [|by apply Ok].
    destruct (Back _ Hin) as (s & Hs & I & _). apply (No api). split; [done|]. by exists slot.1, s, sym.
Qed.
End meaning.
End import_slots.

(** ** A module with one export, and a project that imports it *)

Definition place (image : bytes) (patch : nat * bytes) : bytes :=
  default image (patch_at image patch.1 patch.2).
Definition export_image : bytes :=
  foldl place (replicate 0x400 x00)
    [(0, MZ); (0x3c, to_le 4 0x80); (0x80, PE_SIGNATURE); (0x98, to_le 2 0x20b);
     (0x108, to_le 4 0x200); (0x10c, to_le 4 40);
     (0x214, to_le 4 1); (0x218, to_le 4 1); (0x21c, to_le 4 0x240); (0x220, to_le 4 0x250);
     (0x224, to_le 4 0x260); (0x240, to_le 4 0x300); (0x250, to_le 4 0x270);
     (0x270, [x46; x6f; x6f])].
(** The module is at 0x400000; the dump has the first [n] bytes of it. *)
Definition export_dump (n : nat) : LoadedDump :=
  mkDump "s" [mkModule 0x400000 0x400 "k32.dll" "k32.dll" 0 0 1000 true false false]
    (take n export_image) (mkMap [mkRegion 0x400000 (Z.of_nat n) 0] 0 MemoryList).

Lemma export_dump_wf n :
  0 < n ≤ 0x400 → wf_regions (ld_mmap (export_dump n)) (regions (ld_memory (export_dump n))).
Proof.
  intros R. split; [|repeat constructor]. repeat constructor; unfold is_u64, u64_max; cbn [va_start rg_size rg_data];
    try lia. change (ld_mmap (export_dump n)) with (take n export_image). rewrite length_take.
  change (length export_image) with 0x400. lia.
Qed.

Example foo_found :
  resolve_va_symbol string_of_list_byte (export_dump 0x400) 0x400300 = Some (Some "k32.dll!Foo") ∧
  resolve_va_symbol string_of_list_byte (export_dump 0x400) 0x400310 = Some (Some "k32.dll+0x310") ∧
  resolve_va_symbol string_of_list_byte (export_dump 0x98) 0x400300 = None.
Proof. vm_compute. repeat split; reflexivity. Qed.

Lemma export_name_correct_witness : exports (export_dump 0x400) 0x400000 0x400 0x300 [x46; x6f; x6f].
Proof.
  pose proof (export_name_correct (export_dump 0x400) 0x400000 0x400 0x300 (export_dump_wf 0x400 ltac:(lia))) as H.
  assert (export_name_at (export_dump 0x400) 0x400000 0x400 0x300 = Some (Some [x46; x6f; x6f])) as E
    by (vm_compute; reflexivity).
  rewrite E in H. by apply H.
Defined.

(** A project whose section at 0x10001000 holds one pointer. *)
Definition iat_space : AddressSpace := mkSpace 0x10000000 [mkSection 0x1000 0x1000 0 8 0x40000040].
Definition iat_image : bytes := to_le 8 0x400300.
Definition iat_symbols (name : string) : gmap Z Symbol := {[0x10001000%Z := mkSymbol name Import_]}.

Example iat_named :
  map_to_list <$> resolve_iat string_of_list_byte (export_dump 0x400) 0x10000000 iat_space iat_image 64
    [(0x10001000%Z, mkSymbol "__imp_ordinal_7" Import_)] (iat_symbols "__imp_ordinal_7")
  = Some (map_to_list (<[0x400300%Z := mkSymbol "Foo" Import_]> (iat_symbols "__imp_Foo"))).
Proof. vm_compute. reflexivity. Qed.

(** When the dump lacks the export directory of the module imported from, the
    name an import table gave is replaced by module and offset. *)
Example known_import_lost :
  let dump := mkDump "s" (modules (export_dump 0)) [] empty_map in
  map_to_list <$> resolve_iat string_of_list_byte dump 0x10000000 iat_space iat_image 64
    [(0x10001000%Z, mkSymbol "__imp_Foo" Import_)] (iat_symbols "__imp_Foo")
  = Some (map_to_list (iat_symbols "__imp_k32.dll+0x300")).
Proof. vm_compute. reflexivity. Qed.

Lemma iat_space_wf : wf_space iat_space.
Proof. split; [done|]. repeat constructor; cbn; mach || done. Qed.

Lemma iat_resolution_correct_witness :
  let d := export_dump 0x400 in
  pointer_at d iat_space iat_image 8 0x10001000 0x400300 ∧
  symbol_at string_of_list_byte d 0x400300 "k32.dll!Foo" ∧
  ∃ final : gmap Z Symbol,
    resolve_iat string_of_list_byte d 0x10000000 iat_space iat_image 64
      [(0x10001000%Z, mkSymbol "__imp_ordinal_7" Import_)] (iat_symbols "__imp_ordinal_7") = Some final ∧
    final !! 0x10001000%Z = Some (mkSymbol "__imp_Foo" Import_).
Proof.
  intros d. pose proof (export_dump_wf 0x400 ltac:(lia)) as W. change (export_dump 0x400) with d in W.
  assert (64%Z = 64%Z ∧ 8 = 8 ∨ 64%Z = 32%Z ∧ 8 = 4) as Bits by by left.
  assert (pointer_at d iat_space iat_image 8 0x10001000 0x400300) as P.
  { destruct (slot_pointer_cases d iat_space iat_image 64 W iat_space_wf 8 Bits 0x10001000) as (f & E & P).
    apply P. assert (slot_pointer d iat_space iat_image 64 0x10001000 = Some (Some 0x400300%Z)) as F
      by (vm_compute; reflexivity). congruence. }
  assert (symbol_at string_of_list_byte d 0x400300 "k32.dll!Foo") as S.
  { pose proof (resolve_va_symbol_cases string_of_list_byte d W 0x400300) as C.
    assert (resolve_va_symbol string_of_list_byte d 0x400300 = Some (Some "k32.dll!Foo")) as F
      by (vm_compute; reflexivity). rewrite F in C. by apply C. }
  split; [exact P|]. split; [exact S|].
  pose proof (iat_resolution_correct string_of_list_byte d 0x10000000 iat_space iat_image 64 W iat_space_wf 8 Bits
    [(0x10001000%Z, mkSymbol "__imp_ordinal_7" Import_)] (iat_symbols "__imp_ordinal_7")) as H.
  assert ([(0x10001000%Z, mkSymbol "__imp_ordinal_7" Import_)] ≡ₚ map_to_list (iat_symbols "__imp_ordinal_7")) as M
    by (unfold iat_symbols; by rewrite map_to_list_singleton).
  specialize (H M). destruct (resolve_iat _ _ _ _ _ _ _ _) as [final|] eqn:E.
  - exists final. split; [done|]. destruct H as (_ & H & _).
    apply (H _ (mkSymbol "__imp_ordinal_7" Import_) 0x400300%Z "k32.dll!Foo"); [vm_compute; reflexivity|by left| |exact P|exact S|].
    + left. exists "__imp_", "ordinal_7". split; [|done]. rewrite !elem_of_cons. tauto.
    + by apply imp_name_iff.
  - assert (is_Some (resolve_iat string_of_list_byte d 0x10000000 iat_space iat_image 64
      [(0x10001000%Z, mkSymbol "__imp_ordinal_7" Import_)] (iat_symbols "__imp_ordinal_7"))) as [? F]
      by (vm_compute; by eexists). rewrite E in F. discriminate F.
Defined.
