(* ===== verification/Indirect.v ===== *)
(** Jumps and calls through memory, [src/analysis/indirect.rs], and import
    thunks, [src/analysis/thunks.rs].

    What the decoder says of an instruction's memory operand is a class,
    [OperandView]; [OperandLaws] is what its documentation says of relative
    operands. [None] is a panic. *)

From Stdlib Require Import Strings.Byte Strings.Ascii Strings.String.
From S2P Require Import Prelude Text Data Ops Journal Activity MemoryMap Loader FlowGraph ModulePe Serving Targets CodeIndex Callees.
Import AddressSpace Functions.

(** ** Operands *)

Inductive Mnemonic :=
  | JmpMnemonic | CallMnemonic | PushMnemonic | MovMnemonic | SubMnemonic | LeaMnemonic | NopMnemonic
  | OtherMnemonic.
#[global] Instance Mnemonic_eq_dec : EqDecision Mnemonic.
Proof. solve_decision. Defined.

(** [mnemonic()], [op0_kind()] compared with a memory operand and a register,
    [op0_register()], [op1_register()], [memory_base()], [memory_index()],
    [memory_displacement64()], [ip_rel_memory_address()] *)
Class OperandView := {
  mnemonic : Instruction → Mnemonic;
  op0_is_memory : Instruction → bool;
  op0_is_register : Instruction → bool;
  op0_register : Instruction → Register;
  op1_register : Instruction → Register;
  memory_base : Instruction → Register;
  memory_index : Instruction → Register;
  memory_displacement64 : Instruction → Z;
  ip_rel_memory_address : Instruction → Z
}.
(** The displacement of a RIP-relative operand is the absolute address. *)
Class OperandLaws `{!OperandView} := {
  displacement_absolute i : memory_base i = RIP → memory_displacement64 i = ip_rel_memory_address i;
  displacement_u64 i : is_u64 (memory_displacement64 i)
}.

Definition MAX_TABLE_SCAN_BYTES : nat := 8 * 1024.
Definition MAX_TABLE_ENTRIES : nat := 512.

(** ** Pointers in the image *)

(** [read_u32_le], [read_u64_le]: zero when there are not enough bytes. *)
Definition read_uint_le (n : nat) (bs : bytes) : Z :=
  if decide (n ≤ length bs) then from_le (take n bs) else 0%Z.
Definition read_word_le (ptr_size : nat) (bs : bytes) : Z :=
  if decide (ptr_size = 8) then read_uint_le 8 bs else read_uint_le 4 bs.

(** [read_pointer]; 0 when nothing is mapped there. *)
Definition read_pointer (a : AddressSpace) (image : bytes) (va : Z) (ptr_size : nat) : Z :=
  match slice_for_va a image va (Z.of_nat ptr_size) with
  | Some bs => read_word_le ptr_size bs
  | None => 0%Z
  end.

(** [bytes.chunks_exact(n)]; [count] bounds the chunks. *)
Fixpoint chunks_exact (count n : nat) (bs : bytes) : list bytes :=
  match count with
  | 0 => []
  | S count => if decide (length bs < n) then [] else take n bs :: chunks_exact count n (drop n bs)
  end.

(** The loop of [read_pointer_table]; [room] entries may follow. *)
Fixpoint table_loop (a : AddressSpace) (ptr_size room : nat) (chunks : list bytes) : list Z :=
  match room, chunks with
  | S room, chunk :: chunks =>
      let ptr := read_word_le ptr_size chunk in
      if (ptr =? 0)%Z || negb (is_executable_va a ptr) then []
      else ptr :: table_loop a ptr_size room chunks
  | _, _ => []
  end.

(** [read_pointer_table] *)
Definition read_pointer_table (a : AddressSpace) (image : bytes) (table_va : Z) (ptr_size : nat) : list Z :=
  let max_bytes := MAX_TABLE_SCAN_BYTES / ptr_size * ptr_size in
  match slice_for_va a image table_va (Z.of_nat max_bytes) with
  | None => []
  | Some bs => table_loop a ptr_size MAX_TABLE_ENTRIES (chunks_exact (length bs) ptr_size bs)
  end.

(** ** Resolution *)

Section resolve.
Context `{!OperandView}.

(** [rip_relative_target_va] *)
Definition rip_relative_target_va (i : Instruction) (bitness : Z) : option Z :=
  if negb (bitness =? 64)%Z then None
  else if decide (memory_base i ≠ RIP ∨ memory_index i ≠ NoRegister) then None
  else Some (ip_rel_memory_address i).

Record ResolvedIndirect := mkResolved {
  ri_function_entry : Z;
  ri_block_entry : Z;
  ri_jump_va : Z;
  ri_table_va : Z;
  ri_target_va : Z
}.

Variable code_index : CodeIndex.
Variable a : AddressSpace.
Variable image : bytes.
Variable bitness : Z.

Definition pointer_size : nat := Z.to_nat (bitness / 8).

(** The address in memory through which the last instruction of a block
    transfers control, when it does so with this flow and mnemonic. *)
Definition transfer_slot (flow : FlowControl.FlowControl) (m : Mnemonic) (block : BasicBlock)
    : option (DecodedInstr * Z) :=
  dec ← at_va code_index (bb_exit_va block);
  if decide (flow_control (instr dec) ≠ flow ∨ mnemonic (instr dec) ≠ m) then None
  else if negb (op0_is_memory (instr dec)) then None
  else va ← rip_relative_target_va (instr dec) bitness; Some (dec, va).

(** The body of the loop of [resolve_indirect_jumps]. *)
Definition jump_edges (f : Function) (block : BasicBlock) : list ResolvedIndirect :=
  match transfer_slot FlowControl.IndirectBranch JmpMnemonic block with
  | None => []
  | Some (dec, table_va) =>
      map (mkResolved (fn_entry_va f) (bb_entry_va block) (ip dec) table_va)
        (read_pointer_table a image table_va pointer_size)
  end.

(** The body of the loop of [resolve_indirect_calls]. *)
Definition call_edges (f : Function) (block : BasicBlock) : list ResolvedIndirect :=
  match transfer_slot FlowControl.IndirectCall CallMnemonic block with
  | None => []
  | Some (dec, slot_va) =>
      let thunk_target := read_pointer a image slot_va pointer_size in
      let target_va := if negb (thunk_target =? 0)%Z && is_executable_va a thunk_target
                       then thunk_target else slot_va in
      if (target_va =? 0)%Z then []
      else [mkResolved (fn_entry_va f) (bb_entry_va block) (ip dec) slot_va target_va]
  end.

(** Every block of every function, in the order of the table. *)
Definition resolved (edges : Function → BasicBlock → list ResolvedIndirect) (functions : gmap Z Function)
    : list ResolvedIndirect :=
  concat (map (λ f, concat (map (edges f) (fn_blocks f))) (btree_values functions)).

Definition with_blocks (f : Function) (blocks : list BasicBlock) : Function :=
  mkFunction (fn_id f) (fn_entry_va f) blocks (fn_outgoing f) (fn_stack_frame f) (fn_signature f).
Definition push_successor (e : Edge) (b : BasicBlock) : BasicBlock :=
  mkBlock (bb_entry_va b) (bb_exit_va b) (bb_instr_count b) (bb_successors b ++ [e]) (bb_predecessors b).

(** [find_block_mut] and the push *)
Definition push_edge (functions : gmap Z Function) (function_entry block_entry : Z) (e : Edge)
    : gmap Z Function :=
  match f ← functions !! function_entry;
        with_blocks f <$> update_first (entry_is block_entry) (push_successor e) (fn_blocks f) with
  | Some f => <[function_entry := f]> functions
  | None => functions
  end.

(** One resolved transfer: the edge and its two references. *)
Definition apply_resolved (kind : EdgeKind) (xkind : XrefKind) (acc : gmap Z Function * XrefIndex)
    (r : ResolvedIndirect) : gmap Z Function * XrefIndex :=
  let '(functions, xrefs) := acc in
  (push_edge functions (ri_function_entry r) (ri_block_entry r) (mkEdge (ri_target_va r) kind),
   Callees.add (mkXref (ri_jump_va r) (ri_table_va r) DataRead)
     (Callees.add (mkXref (ri_jump_va r) (ri_target_va r) xkind) xrefs)).

(** [for func in functions.iter_mut() { func.recompute_predecessors() }] *)
Definition recompute_all (functions : gmap Z Function) : option (gmap Z Function) :=
  foldl (λ acc '(va, f), t ← acc; f' ← recompute_predecessors f; Some (<[va := f']> t))
    (Some functions) (btree_entries functions).

Definition resolve_with (edges : Function → BasicBlock → list ResolvedIndirect) (kind : EdgeKind)
    (xkind : XrefKind) (functions : gmap Z Function) (xrefs : XrefIndex)
    : option (gmap Z Function * XrefIndex) :=
  let '(functions, xrefs) := foldl (apply_resolved kind xkind) (functions, xrefs) (resolved edges functions) in
  functions ← recompute_all functions;
  Some (functions, xrefs).

(** [resolve_indirect_jumps], [resolve_indirect_calls] *)
Definition resolve_indirect_jumps : gmap Z Function → XrefIndex → option (gmap Z Function * XrefIndex) :=
  resolve_with jump_edges Functions.Indirect Callees.Indirect.
Definition resolve_indirect_calls : gmap Z Function → XrefIndex → option (gmap Z Function * XrefIndex) :=
  resolve_with call_edges Functions.Call Callees.Call.

(** ** Thunks *)

(** [memory_target_va]; [next_ip] is that of the instruction, which wraps. *)
Definition memory_target_va (i : Instruction) : option Z :=
  if decide (memory_base i = RIP ∧ memory_index i = NoRegister ∧ bitness = 64%Z)
  then Some (instr_next_ip i +wrap as_i32 (memory_displacement64 i))
  else if decide (memory_base i = NoRegister ∧ memory_index i = NoRegister)
  then Some (memory_displacement64 i)
  else None.

Record ThunkRename := mkThunk { thunk_va : Z; api_name : string; tr_slot_va : Z }.

(** The body of the loop of [find_thunk_renames]. *)
Definition thunk_rename (symbols : gmap Z Symbols.Symbol) (f : Function) : option ThunkRename :=
  match fn_blocks f with
  | [b] =>
      if negb (bb_instr_count b =? 1) then None
      else
        dec ← at_va code_index (fn_entry_va f);
        if decide (mnemonic (instr dec) ≠ JmpMnemonic) then None
        else if negb (op0_is_memory (instr dec)) then None
        else
          slot_va ← memory_target_va (instr dec);
          sym ← Symbols.get symbols slot_va;
          if decide (Symbols.sym_kind sym ≠ Symbols.Import_) then None
          else
            api ← strip_prefix "__imp_" (Symbols.sym_name sym);
            if decide (api = EmptyString) then None
            else Some (mkThunk (fn_entry_va f) api slot_va)
  | _ => None
  end.

(** [find_thunk_renames] *)
Definition find_thunk_renames (functions : gmap Z Function) (symbols : gmap Z Symbols.Symbol)
    : list ThunkRename :=
  omap (thunk_rename symbols) (btree_values functions).

(** [apply_thunk_renames], and the loop of [Project::open] *)
Definition apply_thunk_renames (symbols : gmap Z Symbols.Symbol) (renames : list ThunkRename)
    : gmap Z Symbols.Symbol :=
  foldl (λ t r, Symbols.insert (thunk_va r) (api_name r) Symbols.Import_ t) symbols renames.

End resolve.
