(* ===== verification/IndirectCorrect.v ===== *)
(** Resolved jumps and calls, thunks, and the opening of a project from the
    analysis of its image on. First what pushing edges does to the blocks of a
    table, recomputing all predecessors, the references added, and the table of
    pointers in the image; then resolution and opening. *)

From Stdlib Require Import Strings.Byte Strings.Ascii Strings.String.
From S2P Require Import Prelude Text Data Ops Journal Activity MemoryMap Loader FlowGraph ModulePe Serving Targets CodeIndex CodeIndexFacts Discovery DiscoveryFacts Callees DiscoveryCorrect Unwind Analysis Indirect.
Import AddressSpace Functions.

(** ** Tagged lists *)

Lemma filter_no_match {A} (P : A → Prop) `{!∀ x, Decision (P x)} (l : list A) :
  (∀ x, x ∈ l → ¬ P x) → filter P l = [].
Proof.
  induction l as [|x l IH]; intros Hx; [done|].
  rewrite filter_cons_False by (apply Hx; by left). apply IH. intros y Hy. apply Hx. by right.
Qed.
Lemma filter_all_match {A} (P : A → Prop) `{!∀ x, Decision (P x)} (l : list A) :
  (∀ x, x ∈ l → P x) → filter P l = l.
Proof.
  induction l as [|x l IH]; intros Hx; [done|].
  rewrite filter_cons_True by (apply Hx; by left). f_equal. apply IH. intros y Hy. apply Hx. by right.
Qed.

(** Among lists tagged by distinct keys, those of one key. *)
Lemma filter_tagged {A B K} `{!EqDecision K} (key : A → K) (tag : B → K) (g : A → list B) l x :
  NoDup (map key l) → (∀ y r, y ∈ l → r ∈ g y → tag r = key y) → x ∈ l →
  filter (λ r, tag r = key x) (concat (map g l)) = g x.
Proof.
  induction l as [|y l IH]; cbn [map concat]; [by intros _ _ ?%not_elem_of_nil|].
  intros [Ny ND]%NoDup_cons T. rewrite filter_app.
  assert (∀ z, z ∈ l → key z ≠ key y) as Ne
    by (intros z Hz E; apply Ny; rewrite <-E; by apply list_elem_of_fmap_2).
  intros [->|Hx]%elem_of_cons.
  - rewrite filter_all_match by (intros r; apply T; by left). rewrite filter_no_match; [apply app_nil_r|].
    intros r Hr E. apply list_elem_of_In, in_concat in Hr as (l' & Hl & Hr).
    apply list_elem_of_In in Hr. apply list_elem_of_In, list_elem_of_fmap in Hl as (z & -> & Hz).
    apply (Ne z Hz). rewrite <-E. symmetry. apply T; [by right|done].
  - rewrite filter_no_match.
    + apply IH; [done| |done]. intros z r Hz. apply T. by right.
    + intros r Hr E. apply (Ne x Hx). rewrite <-E. apply T; [by left|done].
Qed.

(** ** Tables whose functions are keyed by their entries *)

Definition wf_table (t : gmap Z Function) : Prop :=
  ∀ fe f, t !! fe = Some f → fn_entry_va f = fe ∧ distinct_blocks f.

Lemma table_entries t : wf_table t → NoDup (map fn_entry_va (btree_values t)).
Proof.
  intros W. unfold btree_values.
  assert (∀ l : list (Z * Function), (∀ x, x ∈ l → fn_entry_va x.2 = x.1) →
    map fn_entry_va l.*2 = l.*1) as E.
  { induction l as [|x l IH]; intros H; [done|]. csimpl. rewrite (H x) by (by left).
    f_equal. apply IH. intros y Hy. apply H. by right. }
  rewrite E.
  - rewrite btree_entries_perm. apply NoDup_fst_map_to_list.
  - intros [fe f] H%elem_of_btree_entries. by apply W.
Qed.

Section pushes.
Variable kind : EdgeKind.
Implicit Types (r : ResolvedIndirect) (t : gmap Z Function).

Definition add_successors (es : list Edge) (b : BasicBlock) : BasicBlock :=
  mkBlock (bb_entry_va b) (bb_exit_va b) (bb_instr_count b) (bb_successors b ++ es) (bb_predecessors b).
Definition edge_of r : Edge := mkEdge (ri_target_va r) kind.
(** The edges that the list gives block [be] of function [fe]. *)
Definition edges_for (rs : list ResolvedIndirect) (fe be : Z) : list Edge :=
  map edge_of (filter (λ r, (ri_function_entry r, ri_block_entry r) = (fe, be)) rs).

Lemma push_distinct be e blocks :
  NoDup (map bb_entry_va blocks) →
  default blocks (update_first (entry_is be) (push_successor e) blocks)
  = map (λ b, add_successors (if decide (bb_entry_va b = be) then [e] else []) b) blocks.
Proof.
  assert (∀ b, add_successors [] b = b) as Id
    by (intros []; unfold add_successors; cbn; by rewrite app_nil_r).
  induction blocks as [|b blocks IH]; cbn [map update_first]; [done|].
  intros [Nb ND]%NoDup_cons. unfold entry_is at 1. destruct (Z.eqb_spec (bb_entry_va b) be) as [<-|Ne].
  - change (push_successor e b :: blocks = add_successors (if decide (bb_entry_va b = bb_entry_va b) then [e] else []) b ::
      map (λ b0, add_successors (if decide (bb_entry_va b0 = bb_entry_va b) then [e] else []) b0) blocks).
    rewrite decide_True by done. f_equal.
    rewrite <-(list_fmap_id blocks) at 1. apply list_fmap_ext. intros i x Hx. cbn.
    rewrite decide_False; [by rewrite Id|]. intros E. apply Nb. rewrite <-E.
    by eapply list_elem_of_fmap_2, list_elem_of_lookup_2.
  - rewrite decide_False, Id by done.
    destruct (update_first _ _ blocks) as [bs|]; cbn in *; by rewrite <-IH.
Qed.

Lemma push_edge_lookup t r fe :
  wf_table t →
  push_edge t (ri_function_entry r) (ri_block_entry r) (edge_of r) !! fe
  = (λ f, with_blocks f (map (λ b, add_successors (edges_for [r] fe (bb_entry_va b)) b) (fn_blocks f)))
      <$> t !! fe.
Proof.
  assert (∀ f bs, bs = fn_blocks f → with_blocks f bs = f) as Id by (by intros [] ? ->).
  assert (∀ b, add_successors [] b = b) as Id'
    by (intros []; unfold add_successors; cbn; by rewrite app_nil_r).
  intros W. unfold push_edge, edges_for.
  destruct (decide (fe = ri_function_entry r)) as [->|Ne].
  - destruct (t !! ri_function_entry r) as [f|] eqn:Ef; cbn [mbind option_bind]; [|by rewrite Ef].
    pose proof (push_distinct (ri_block_entry r) (edge_of r) (fn_blocks f)) as P.
    destruct (W _ _ Ef) as [_ D]. specialize (P D).
    transitivity (Some (with_blocks f (map (λ b, add_successors
      (if decide (bb_entry_va b = ri_block_entry r) then [edge_of r] else []) b) (fn_blocks f)))).
    2: { cbn [fmap option_fmap option_map]. do 2 f_equal. apply map_ext. intros b.
         rewrite filter_cons, filter_nil. repeat case_decide; congruence || done. }
    rewrite <-P. destruct (update_first _ _ _) as [bs|]; cbn [fmap option_fmap option_map].
    + by rewrite lookup_insert_eq.
    + rewrite Ef. f_equal. by rewrite Id.
  - replace (match _ with Some f => _ | None => _ end !! fe) with (t !! fe)
      by (destruct (_ ≫= _); [by rewrite lookup_insert_ne|done]).
    destruct (t !! fe) as [f|]; [|done]. cbn [fmap option_fmap option_map]. f_equal. symmetry. apply Id.
    rewrite <-(list_fmap_id (fn_blocks f)) at 2. apply list_fmap_ext. intros i b _.
    rewrite filter_no_match; [apply Id'|]. intros x ->%list_elem_of_singleton. congruence.
Qed.

Lemma with_successors_distinct f g :
  distinct_blocks f → distinct_blocks (with_blocks f (map (λ b, add_successors (g b) b) (fn_blocks f))).
Proof. unfold distinct_blocks. cbn [fn_blocks with_blocks]. by rewrite map_map. Qed.
Lemma push_edge_wf t r :
  wf_table t → wf_table (push_edge t (ri_function_entry r) (ri_block_entry r) (edge_of r)).
Proof.
  intros W fe f'. rewrite push_edge_lookup by done. intros (f & Hf & ->)%fmap_Some.
  destruct (W fe f Hf). split; [done|]. by apply with_successors_distinct.
Qed.

Lemma apply_all_lookup xkind rs t x fe :
  wf_table t →
  wf_table (foldl (apply_resolved kind xkind) (t, x) rs).1 ∧
  (foldl (apply_resolved kind xkind) (t, x) rs).1 !! fe
  = (λ f, with_blocks f (map (λ b, add_successors (edges_for rs fe (bb_entry_va b)) b) (fn_blocks f)))
      <$> t !! fe.
Proof.
  revert t x. induction rs as [|r rs IH]; intros t x W; cbn [foldl].
  - split; [done|]. cbn [fst]. destruct (t !! fe) as [f|]; [|done]. cbn. f_equal.
    destruct f as [i e bs o s g]. unfold with_blocks. cbn. f_equal.
    rewrite <-(list_fmap_id bs) at 1. apply list_fmap_ext. intros k [] _. unfold add_successors. cbn.
    by rewrite app_nil_r.
  - set (x' := Callees.add (mkXref (ri_jump_va r) (ri_table_va r) DataRead)
      (Callees.add (mkXref (ri_jump_va r) (ri_target_va r) xkind) x)).
    change (apply_resolved kind xkind (t, x) r)
      with (push_edge t (ri_function_entry r) (ri_block_entry r) (edge_of r), x').
    destruct (IH _ x' (push_edge_wf t r W)) as [W' ->].
    split; [done|]. rewrite push_edge_lookup by done.
    destruct (t !! fe) as [f|]; [|done]. cbn [fmap option_fmap option_map]. f_equal.
    unfold with_blocks. cbn [fn_id fn_entry_va fn_blocks fn_outgoing fn_stack_frame fn_signature]. f_equal.
    rewrite map_map. apply map_ext. intros b. unfold add_successors.
    cbn [bb_entry_va bb_exit_va bb_instr_count bb_successors bb_predecessors]. f_equal.
    rewrite <-app_assoc. f_equal. unfold edges_for.
    change (r :: rs) with ([r] ++ rs). by rewrite filter_app, map_app.
Qed.
End pushes.

(** ** Recomputing every function *)

Lemma recompute_entries (es : list (Z * Function)) (t : gmap Z Function) :
  NoDup es.*1 → (∀ va f, (va, f) ∈ es → distinct_blocks f) →
  ∃ t' : gmap Z Function, foldl (λ acc '(va, f), t ← acc; f' ← recompute_predecessors f; Some (<[va := f']> t)) (Some t) es
    = Some t' ∧
    (∀ va f, (va, f) ∈ es → t' !! va = recompute_predecessors f) ∧
    (∀ va, va ∉ es.*1 → t' !! va = t !! va).
Proof.
  revert t. induction es as [|[va f] es IH]; intros t ND D.
  { exists t. split_and!; [done|by intros ?? ?%not_elem_of_nil|done]. }
  apply NoDup_cons in ND as [Nin ND].
  destruct (recompute_ok f) as (f' & E & _); [apply (D va); by left|].
  cbn [foldl mbind option_bind]. rewrite E. cbn [mbind option_bind].
  destruct (IH (<[va := f']> t) ND) as (t' & Et & H1 & H2); [intros ?? ?; eapply D; by right|].
  exists t'. split; [done|]. split.
  - intros va' g [[= -> ->]|Hin]%elem_of_cons; [|by apply H1].
    rewrite H2 by done. by rewrite lookup_insert_eq, E.
  - intros va' Hn. apply not_elem_of_cons in Hn as [Ne Hn]. rewrite H2 by done.
    by apply lookup_insert_ne.
Qed.

Lemma recompute_all_lookup t :
  wf_table t →
  ∃ t' : gmap Z Function, recompute_all t = Some t' ∧ ∀ va, t' !! va = t !! va ≫= recompute_predecessors.
Proof.
  intros W. destruct (recompute_entries (btree_entries t) t) as (t' & E & H1 & H2).
  - rewrite btree_entries_perm. apply NoDup_fst_map_to_list.
  - intros va f H%elem_of_btree_entries. by apply (W va).
  - exists t'. split; [exact E|]. intros va. destruct (t !! va) as [f|] eqn:Ef.
    + cbn [mbind option_bind]. by apply H1, elem_of_btree_entries.
    + rewrite H2, Ef; [done|]. intros ([va' f] & -> & Hin)%list_elem_of_fmap.
      apply elem_of_btree_entries in Hin. cbn in Ef. congruence.
Qed.

(** ** References *)

Lemma elem_of_xrefs_to_add x y idx va :
  y ∈ xrefs_to (Callees.add x idx) va ↔ y ∈ xrefs_to idx va ∨ y = x ∧ to_va x = va.
Proof.
  unfold xrefs_to, Callees.add. cbn [to]. destruct (decide (to_va x = va)) as [<-|Ne].
  - rewrite lookup_insert_eq. cbn [default from_option]. change (id ?l) with l.
    rewrite elem_of_app, list_elem_of_singleton. naive_solver.
  - rewrite lookup_insert_ne by done. naive_solver.
Qed.

(** The two references of a resolved transfer. *)
Definition target_xref (xkind : XrefKind) (r : ResolvedIndirect) : Xref :=
  mkXref (ri_jump_va r) (ri_target_va r) xkind.
Definition table_xref (r : ResolvedIndirect) : Xref := mkXref (ri_jump_va r) (ri_table_va r) DataRead.

Lemma elem_of_resolved_xrefs kind xkind rs t idx y va :
  y ∈ xrefs_to (foldl (apply_resolved kind xkind) (t, idx) rs).2 va ↔
  y ∈ xrefs_to idx va ∨ to_va y = va ∧ ∃ r, r ∈ rs ∧ (y = target_xref xkind r ∨ y = table_xref r).
Proof.
  revert t idx. induction rs as [|r rs IH]; intros t idx; cbn [foldl].
  - cbn [snd]. split; [by left|]. intros [?|(_ & r & ?%not_elem_of_nil & _)]; done.
  - unfold apply_resolved at 2. rewrite IH. fold (target_xref xkind r) (table_xref r).
    rewrite !elem_of_xrefs_to_add. setoid_rewrite elem_of_cons. naive_solver.
Qed.

(** ** Pointers in the image *)

Lemma chunks_lookup count n bs i c :
  0 < n → chunks_exact count n bs !! i = Some c →
  c = take n (drop (i * n) bs) ∧ i * n + n ≤ length bs.
Proof.
  intros P. revert bs i. induction count as [|count IH]; intros bs i; cbn [chunks_exact]; [done|].
  case_decide; [done|]. destruct i as [|i]; cbn [lookup list_lookup].
  - intros [= <-]. split; [done|lia].
  - intros E. apply IH in E as [-> L]. rewrite length_drop in L. rewrite drop_drop. split; [f_equal; f_equal; lia|lia].
Qed.
Lemma chunks_some count n bs i :
  0 < n → i < count → i * n + n ≤ length bs → is_Some (chunks_exact count n bs !! i).
Proof.
  intros P. revert bs i. induction count as [|count IH]; intros bs i Hi L; [lia|]. cbn [chunks_exact].
  rewrite decide_False by nia. destruct i as [|i]; cbn [lookup list_lookup]; [done|].
  apply IH; [lia|]. rewrite length_drop. lia.
Qed.

Section table.
Variable a : AddressSpace.
Variable n : nat.
Definition entry_ok (v : Z) : Prop := v ≠ 0%Z ∧ is_executable_va a v = true.

(** A table is its words up to the first that is no code address. *)
Lemma table_loop_spec room chunks :
  let l := table_loop a n room chunks in
  length l ≤ room ∧
  (∀ i v, l !! i = Some v → entry_ok v ∧ ∃ c, chunks !! i = Some c ∧ v = read_word_le n c) ∧
  (length l < room → ∀ c, chunks !! length l = Some c → ¬ entry_ok (read_word_le n c)).
Proof.
  cbn zeta. revert chunks. induction room as [|room IH]; intros chunks; cbn [table_loop].
  { split_and!; [done|done|cbn; lia]. }
  destruct chunks as [|c chunks]; [split_and!; [cbn; lia|done|done]|].
  destruct (Z.eqb_spec (read_word_le n c) 0) as [E|E]; cbn [orb].
  { split_and!; [cbn; lia|done|]. intros _ x [= <-] [N _]. done. }
  destruct (is_executable_va a (read_word_le n c)) eqn:X; cbn [negb].
  2: { split_and!; [cbn; lia|done|]. intros _ x [= <-] [_ N]. congruence. }
  destruct (IH chunks) as (L & H1 & H2). split_and!; [cbn; lia| |].
  - intros [|i] v; [intros [= <-]; split; [done|by exists c]|]. apply H1.
  - cbn [length]. intros Hl x Hx. apply H2; [lia|done].
Qed.
End table.

(** The word at entry [i] of a table at [va], from the file. *)
Definition table_word (a : AddressSpace) (image : bytes) (s : Section_) (va : Z) (i : nat) : option Z :=
  read_le image (Z.to_nat (raw_addr s + (va - image_base a - vaddr s)) + i * 8) 8.

(** The 8 KiB from [va] on are bytes of the file: [va] has file content in the
    section that holds it, and so many bytes of the file follow. *)
Definition table_window (a : AddressSpace) (image : bytes) (va : Z) (s : Section_) : Prop :=
  section_at_va a va = Some s ∧ (va - image_base a - vaddr s < raw_size s)%Z ∧
  (raw_addr s + (va - image_base a - vaddr s) + 8192 ≤ Z.of_nat (length image))%Z.

(** The entries of the table at [va]: the words of the file from there on, up to
    the first that is no code address, at most 512; none without a window. *)
Definition pointer_run (a : AddressSpace) (image : bytes) (va : Z) (l : list Z) : Prop :=
  (∃ s, table_window a image va s ∧ length l ≤ 512 ∧
     (∀ i v, l !! i = Some v → entry_ok a v ∧ table_word a image s va i = Some v) ∧
     (length l < 512 → ∃ v, table_word a image s va (length l) = Some v ∧ ¬ entry_ok a v)) ∨
  ((¬ ∃ s, table_window a image va s) ∧ l = []).

(** They are determined by the file. *)
Lemma pointer_run_unique a image va l l' :
  pointer_run a image va l → pointer_run a image va l' → l = l'.
Proof.
  assert (∀ l1 l2, pointer_run a image va l1 → pointer_run a image va l2 →
            length l1 ≤ length l2 → l1 = l2) as H.
  { intros l1 l2 [(s & W & L1 & E1 & S1)|[N1 ->]] [(s' & W' & L2 & E2 & S2)|[N2 ->]] L;
      [|by (exfalso; apply N2; eauto)|by (exfalso; apply N1; eauto)|done].
    assert (s' = s) as -> by (destruct W as [Hs _], W' as [Hs' _]; congruence).
    assert (length l1 = length l2) as Q.
    { destruct (decide (length l1 = length l2)) as [|Ne]; [done|]. exfalso.
      destruct S1 as (v & Ev & Nv); [lia|].
      destruct (lookup_lt_is_Some_2 l2 (length l1)) as [w Hw]; [lia|].
      destruct (E2 _ _ Hw) as [Ok Ew]. congruence. }
    apply list_eq. intros i. destruct (l1 !! i) as [v|] eqn:E.
    - destruct (lookup_lt_is_Some_2 l2 i) as [w Hw]; [apply lookup_lt_Some in E; lia|].
      destruct (E1 _ _ E) as [_ Ev], (E2 _ _ Hw) as [_ Ew]. congruence.
    - symmetry. apply lookup_ge_None in E. apply lookup_ge_None. lia. }
  intros H1 H2. destruct (decide (length l ≤ length l')); [by apply H|symmetry; apply H; [done..|lia]].
Qed.

(** A chunk of the bytes of the window is a word of the file. *)
Lemma window_word a image va s bs i :
  wf_space a → slice_for_va a image va 8192 = Some bs → section_at_va a va = Some s → i < 1024 →
  table_word a image s va i = Some (read_word_le 8 (take 8 (drop (i * 8) bs))).
Proof.
  intros W E Es Hi.
  destruct (slice_for_va_spec a image va 8192 bs W) as (s' & Es' & Lb & R & B); [lia|done|].
  assert (s' = s) as -> by congruence.
  pose proof (section_at_va_spec a va s W Es) as (_ & Ws & Rva).
  assert (length bs = 8 * 1024) as Lb' by lia. clear Lb.
  unfold table_word, read_le, slice.
  set (o := Z.to_nat (raw_addr s + (va - image_base a - vaddr s))).
  assert (∀ j, j < 8 * 1024 → bs !! j = image !! (o + j)) as Bj.
  { intros j Hj. pose proof (B (Z.of_nat j)) as Bz. rewrite Nat2Z.id in Bz. rewrite Bz by lia. f_equal.
    unfold o. destruct Ws. mach. }
  assert (o + i * 8 + 8 ≤ length image) as Lo.
  { assert (is_Some (image !! (o + (i * 8 + 7)))) as Hs by (rewrite <-Bj by lia; apply lookup_lt_is_Some; lia).
    apply lookup_lt_is_Some in Hs. lia. }
  rewrite decide_True by done. cbn [fmap option_fmap option_map]. f_equal.
  unfold read_word_le, read_uint_le. rewrite decide_True by done.
  rewrite decide_True by (rewrite length_take, length_drop; lia).
  rewrite take_take, Nat.min_id. f_equal. apply list_eq. intros j.
  destruct (decide (j < 8)) as [Hj|Hj]; [|by rewrite !lookup_take_ge by lia].
  rewrite !lookup_take_lt by done. rewrite !lookup_drop, Bj by lia. f_equal. lia.
Qed.

Lemma window_iff a image va s :
  wf_space a →
  table_window a image va s ↔ section_at_va a va = Some s ∧ is_Some (slice_for_va a image va 8192).
Proof.
  intros W. unfold table_window. split.
  - intros (Es & R & L). split; [done|]. pose proof (section_at_va_spec a va s W Es) as (_ & Ws & Rv).
    destruct W as [B _]. unfold slice_for_va. rewrite Es. cbn [mbind option_bind].
    rewrite (proj2 (va_to_offset_iff _ _ va (raw_addr s + (va - image_base a - vaddr s))%Z B Ws)) by (split; [lia|done]).
    cbn [mbind option_bind]. destruct Ws. rewrite (proj2 (Z.ltb_ge _ _)) by mach.
    unfold get_range. by rewrite (proj2 (Z.leb_le _ _)) by lia.
  - intros [Es [bs E]]. destruct (slice_for_va_spec a image va 8192 bs W) as (s' & Es' & Lb & R & _); [lia|done|].
    assert (s' = s) as -> by congruence. split_and!; [done..|].
    pose proof (section_at_va_spec a va s W Es) as (_ & Ws & Rv). destruct W as [B _].
    unfold slice_for_va in E. rewrite Es in E. cbn [mbind option_bind] in E.
    destruct (va_to_offset (image_base a) s va) as [off|] eqn:O; [|done]. cbn [mbind option_bind] in E.
    apply (va_to_offset_iff _ _ _ _ B Ws) in O as [_ ->]. destruct (_ <? _)%Z; [done|].
    unfold get_range in E. by destruct (Z.leb_spec (raw_addr s + (va - image_base a - vaddr s) + 8192)
      (Z.of_nat (length image))).
Qed.

(** [read_pointer_table] reads the entries of the table. *)
Lemma read_pointer_table_spec a image va :
  wf_space a → pointer_run a image va (read_pointer_table a image va 8).
Proof.
  intros W. unfold read_pointer_table.
  change (Z.of_nat (MAX_TABLE_SCAN_BYTES / 8 * 8)) with 8192%Z.
  destruct (slice_for_va a image va 8192) as [bs|] eqn:E.
  2: { right. split; [|done]. intros [s [_ [b Hb]]%window_iff]; [congruence|done]. }
  destruct (slice_for_va_spec a image va 8192 bs W) as (s & Es & Lb & _); [lia|done|].
  destruct (table_loop_spec a 8 MAX_TABLE_ENTRIES (chunks_exact (length bs) 8 bs)) as (L & H & Stop).
  set (l := table_loop _ _ _ _) in *. change MAX_TABLE_ENTRIES with 512 in *.
  left. exists s. split; [apply window_iff; eauto|]. split_and!; [exact L| |].
  - intros i v Hv. destruct (H i v Hv) as (Ok & c & Hc & ->). split; [done|].
    apply chunks_lookup in Hc as [-> Lc]; [|lia]. eapply window_word; eauto. lia.
  - intros Hl. destruct (chunks_some (length bs) 8 bs (length l)) as [c Hc]; [lia..|].
    exists (read_word_le 8 c). split; [|by apply Stop].
    apply chunks_lookup in Hc as [-> Lc]; [|lia]. eapply window_word; eauto. lia.
Qed.

(** Nothing is read when fewer than 8 KiB of the file follow. *)
Lemma table_needs_8k a image va s :
  wf_space a → section_at_va a va = Some s →
  (Z.of_nat (length image) < raw_addr s + (va - image_base a - vaddr s) + 8192)%Z →
  read_pointer_table a image va 8 = [].
Proof.
  intros W Es L. pose proof (section_at_va_spec a va s W Es) as (_ & Ws & R). destruct W as [B _].
  unfold read_pointer_table. change (MAX_TABLE_SCAN_BYTES / 8 * 8) with (8 * 1024).
  unfold slice_for_va. rewrite Es. cbn [mbind option_bind].
  destruct (va_to_offset (image_base a) s va) as [off|] eqn:O; [|done]. cbn [mbind option_bind].
  apply (va_to_offset_iff _ _ _ _ B Ws) in O as [_ ->].
  destruct (_ <? _)%Z; [done|]. unfold get_range.
  by rewrite (proj2 (Z.leb_gt _ _)) by lia.
Qed.

Section resolve.
Context `{!OperandView}.
Variable ci : CodeIndex.
Variable a : AddressSpace.
Variable image : bytes.
Variable bitness : Z.
Local Notation jump_edges := (jump_edges ci a image bitness).
Local Notation call_edges := (call_edges ci a image bitness).

(** ** One resolution *)

Definition tagged (edges : Function → BasicBlock → list ResolvedIndirect) : Prop :=
  ∀ f b r, r ∈ edges f b → ri_function_entry r = fn_entry_va f ∧ ri_block_entry r = bb_entry_va b.

Lemma jump_edges_tagged : tagged jump_edges.
Proof.
  intros f b r. unfold Indirect.jump_edges. destruct (transfer_slot _ _ _ _ _) as [[dec va]|];
    [|by intros ?%not_elem_of_nil].
  by intros (v & -> & _)%list_elem_of_fmap.
Qed.
Lemma call_edges_tagged : tagged call_edges.
Proof.
  intros f b r. unfold Indirect.call_edges. destruct (transfer_slot _ _ _ _ _) as [[dec va]|];
    [|by intros ?%not_elem_of_nil].
  destruct (_ =? _)%Z; [by intros ?%not_elem_of_nil|]. by intros ->%list_elem_of_singleton.
Qed.

Lemma edges_for_resolved kind edges t fe f b :
  wf_table t → tagged edges → t !! fe = Some f → b ∈ fn_blocks f →
  edges_for kind (resolved edges t) fe (bb_entry_va b) = map (edge_of kind) (edges f b).
Proof.
  intros W T Hf Hb. destruct (W _ _ Hf) as [<- D]. unfold edges_for, resolved. f_equal.
  transitivity (filter (λ r, ri_block_entry r = bb_entry_va b)
    (filter (λ r, ri_function_entry r = fn_entry_va f)
      (concat (map (λ f0, concat (map (edges f0) (fn_blocks f0))) (btree_values t))))).
  { rewrite list_filter_filter. apply list_filter_iff. intros r. split; [by intros [= -> ->]|].
    by intros [-> ->]. }
  rewrite (filter_tagged fn_entry_va ri_function_entry (λ f0, concat (map (edges f0) (fn_blocks f0))));
    [|by apply table_entries| |apply elem_of_btree_values; eauto].
  2: { intros g r _ Hr. apply list_elem_of_In, in_concat in Hr as (l & Hl & Hr).
       apply list_elem_of_In in Hr. apply list_elem_of_In, list_elem_of_fmap in Hl as (x & -> & _).
       by apply (T g x r). }
  apply (filter_tagged bb_entry_va ri_block_entry (edges f)); [exact D| |done].
  intros x r _ Hr. by apply (T f x r).
Qed.

(** The blocks of a function with the edges of a resolution after their own. *)
Definition extended (kind : EdgeKind) (edges : Function → BasicBlock → list ResolvedIndirect) (f : Function)
    : list (Z * Z * nat * list Edge) :=
  map (λ b, (bb_entry_va b, bb_exit_va b, bb_instr_count b,
             bb_successors b ++ map (edge_of kind) (edges f b))) (fn_blocks f).

Definition resolution_ok (kind : EdgeKind) (xkind : XrefKind)
    (edges : Function → BasicBlock → list ResolvedIndirect) (t t' : gmap Z Function) (x x' : XrefIndex) : Prop :=
  wf_table t' ∧ dom t' =@{gset Z} dom t ∧
  (∀ fe f, t !! fe = Some f → ∃ f', t' !! fe = Some f' ∧ predecessors_ok (fn_blocks f') ∧
     map outline (fn_blocks f') = extended kind edges f) ∧
  ∀ y va, y ∈ xrefs_to x' va ↔
    y ∈ xrefs_to x va ∨ to_va y = va ∧ ∃ fe f b r, t !! fe = Some f ∧ b ∈ fn_blocks f ∧ r ∈ edges f b ∧
      (y = target_xref xkind r ∨ y = table_xref r).

Lemma elem_of_resolved edges t r :
  r ∈ resolved edges t ↔ ∃ fe f b, t !! fe = Some f ∧ b ∈ fn_blocks f ∧ r ∈ edges f b.
Proof.
  unfold resolved. rewrite list_elem_of_In, in_concat. split.
  - intros (l & Hl & Hr). apply list_elem_of_In, list_elem_of_fmap in Hl as (f & -> & Hf).
    apply in_concat in Hr as (l & Hl & Hr). apply list_elem_of_In in Hr.
    apply list_elem_of_In, list_elem_of_fmap in Hl as (b & -> & Hb).
    apply elem_of_btree_values in Hf as [fe Hf]. by exists fe, f, b.
  - intros (fe & f & b & Hf & Hb & Hr). eexists. split.
    + apply list_elem_of_In, list_elem_of_fmap. exists f. split; [done|]. apply elem_of_btree_values. eauto.
    + apply in_concat. exists (edges f b). split; [|by apply list_elem_of_In].
      apply list_elem_of_In, list_elem_of_fmap. eauto.
Qed.

Lemma resolve_with_ok edges kind xkind t x :
  wf_table t → tagged edges →
  ∃ t' x', resolve_with edges kind xkind t x = Some (t', x') ∧
    resolution_ok kind xkind edges t t' x x'.
Proof.
  intros W T. unfold resolve_with.
  pose proof (λ fe, apply_all_lookup kind xkind (resolved edges t) t x fe W) as A.
  pose proof (λ y va, elem_of_resolved_xrefs kind xkind (resolved edges t) t x y va) as X.
  destruct (foldl _ _ _) as [t1 x1]. cbn [fst snd] in A, X.
  destruct (recompute_all_lookup t1) as (t' & -> & R); [by apply (A 0%Z)|]. cbn [mbind option_bind].
  exists t', x1. split; [done|].
  assert (∀ fe f, t !! fe = Some f → ∃ f', t' !! fe = Some f' ∧ fn_entry_va f' = fe ∧
    predecessors_ok (fn_blocks f') ∧ map outline (fn_blocks f') = extended kind edges f) as F.
  { intros fe f Hf. destruct (A fe) as [W1 E]. rewrite Hf in E. cbn [fmap option_fmap option_map] in E.
    destruct (W1 _ _ E) as [_ D]. destruct (recompute_ok _ D) as (f' & Er & O & Ee & P).
    exists f'. rewrite R, E. split; [exact Er|]. split; [rewrite Ee; exact (proj1 (W fe f Hf))|]. split; [exact P|].
    rewrite O. cbn [with_blocks fn_blocks]. unfold extended. rewrite map_map. apply map_ext_in.
    intros b Hb%list_elem_of_In. unfold outline, add_successors. cbn. by erewrite edges_for_resolved. }
  assert (∀ fe, is_Some (t' !! fe) ↔ is_Some (t !! fe)) as Dm.
  { intros fe. split; [|intros [f (f' & -> & _)%F]; done].
    rewrite R. destruct (A fe) as [_ ->]. destruct (t !! fe); [done|]. by intros []. }
  split_and!.
  - intros fe f' Hf'. destruct (t !! fe) as [f|] eqn:Ef; [|by apply mk_is_Some, Dm in Hf' as []; congruence].
    destruct (F fe f Ef) as (g & Hg & Eg & _ & O). rewrite Hg in Hf'. injection Hf' as ->. split; [done|].
    unfold distinct_blocks. assert (map bb_entry_va (fn_blocks f') = map bb_entry_va (fn_blocks f)) as ->.
    { transitivity (map (λ o, o.1.1.1) (map outline (fn_blocks f'))); [by rewrite map_map|].
      rewrite O. unfold extended. by rewrite map_map. }
    by apply (W fe).
  - apply set_eq. intros fe. rewrite !elem_of_dom. apply Dm.
  - intros fe f Hf. destruct (F fe f Hf) as (f' & ? & _ & ? & ?). eauto.
  - intros y va. rewrite X. setoid_rewrite elem_of_resolved. naive_solver.
Qed.
End resolve.
