(* ===== verification/Opening.v ===== *)
(** Opening an image, [src/project/mod.rs] from the analysis on: the frames
    recovered from prologues ([src/analysis/stack_frame.rs]), the names of
    functions, and the indirect transfers. What the PDB gives is an argument. *)

From Stdlib Require Import Strings.Byte Strings.Ascii Strings.String.
From S2P Require Import Prelude Text Data Ops Journal Activity MemoryMap Loader FlowGraph ModulePe Serving Targets CodeIndex Discovery Callees Unwind Analysis Indirect.
Import AddressSpace Functions Types.

Local Open Scope string_scope.

Definition MAX_PROLOGUE_INSTRUCTIONS : nat := 12.
Definition MAX_LOCAL_SLOTS : nat := 64.

Section opening.
Context `{!OperandView}.
Variable code_index : CodeIndex.
Variable bitness : Z.

(** ** Frames from prologues *)

(** [is_immediate_op] *)
Definition is_immediate_op (i : Instruction) (op_index : nat) : bool :=
  match operands i !! op_index with
  | Some (MemoryOperand, _) | Some (OtherOperand, _) | None => false
  | Some _ => true
  end.
Definition immediate (i : Instruction) (op_index : nat) : Z := default 0%Z (snd <$> operands i !! op_index).

(** [lea_stack_adjustment] *)
Definition lea_stack_adjustment (i : Instruction) : option Z :=
  if negb (op0_is_register i) then None
  else if decide (memory_base i ≠ RSP ∧ memory_base i ≠ ESP) then None
  else if decide (memory_index i ≠ NoRegister) then None
  else
    let disp := memory_displacement64 i in
    if (bitness =? 64)%Z then
      let signed := as_i32 disp in
      if (signed <? 0)%Z then Some (- signed)%Z else None
    else Some disp.

(** [is_prologue_terminator] *)
Definition is_prologue_terminator (i : Instruction) : bool :=
  match flow_control i with
  | FlowControl.Return | FlowControl.UnconditionalBranch | FlowControl.ConditionalBranch
  | FlowControl.Call | FlowControl.IndirectBranch | FlowControl.IndirectCall => true
  | _ => bool_decide (mnemonic i = NopMnemonic)
  end.

(** What one instruction of a prologue tells: whether the scan ends, whether
    the frame pointer is set up, and the size it sets. *)
Inductive PrologueStep := EndPrologue | FramePointer | LocalSize (n : Z) | PassOver.

Definition in_frame_range (n : Z) : bool := (0 <? n)%Z && (n <=? 0x1000000)%Z.

Definition prologue_step (i : Instruction) : PrologueStep :=
  if decide (mnemonic i = PushMnemonic ∧ (op0_register i = RBP ∨ op0_register i = EBP)) then FramePointer
  else if decide (mnemonic i = MovMnemonic ∧ (op0_register i = RBP ∨ op0_register i = EBP) ∧
                  (op1_register i = RSP ∨ op1_register i = ESP)) then FramePointer
  else if decide (mnemonic i = SubMnemonic ∧
                  (op0_register i = RSP ∨ op0_register i = ESP ∨ op0_register i = RIP) ∧
                  is_immediate_op i 1 = true) then
    if in_frame_range (immediate i 1) then LocalSize (immediate i 1) else PassOver
  else
    let lea := if decide (mnemonic i = LeaMnemonic ∧ (op0_register i = RSP ∨ op0_register i = ESP))
               then n ← lea_stack_adjustment i; if in_frame_range n then Some n else None
               else None in
    match lea with
    | Some n => LocalSize n
    | None => if is_prologue_terminator i then EndPrologue else PassOver
    end.

(** The loop of [analyze_prologue]; [steps] instructions may follow. *)
Fixpoint prologue_loop (steps : nat) (va : Z) (uses_frame_pointer : bool) (local_size : Z) : bool * Z :=
  match steps, at_va code_index va with
  | S steps, Some dec =>
      match prologue_step (instr dec) with
      | EndPrologue => (uses_frame_pointer, local_size)
      | FramePointer => prologue_loop steps (next_ip dec) true local_size
      | LocalSize n => prologue_loop steps (next_ip dec) uses_frame_pointer n
      | PassOver => prologue_loop steps (next_ip dec) uses_frame_pointer local_size
      end
  | _, _ => (uses_frame_pointer, local_size)
  end.

(** The loop that lays out the slots; [room] may follow. *)
Fixpoint local_slots (room : nat) (ptr_size local_size offset : Z) : list StackVariable :=
  match room with
  | 0 => []
  | S room =>
      if (offset <=? local_size)%Z then
        mkVar (Some ("var_" +:+ hex offset)) (Unknown (ptr_size * 8)) (- offset) ptr_size
          :: local_slots room ptr_size local_size (offset + ptr_size)
      else []
  end.

(** [analyze_prologue] *)
Definition analyze_prologue (entry ptr_size : Z) : option StackFrame :=
  let '(uses_frame_pointer, local_size) := prologue_loop MAX_PROLOGUE_INSTRUCTIONS entry false 0 in
  if (local_size =? 0)%Z && negb uses_frame_pointer then None
  else Some (mkFrame local_size 0 ptr_size (local_slots MAX_LOCAL_SLOTS ptr_size local_size ptr_size) []).

(** [recover_frames] *)
Definition recover_frame (f : Function) : Function :=
  match fn_stack_frame f with
  | Some _ => f
  | None =>
      match analyze_prologue (fn_entry_va f) (bitness / 8) with
      | Some frame => with_stack_frame frame f
      | None => f
      end
  end.
Definition recover_frames (functions : gmap Z Function) : gmap Z Function := recover_frame <$> functions.

(** ** Names *)

(** The names given to discovered functions. *)
Definition auto_name (symbols : gmap Z Symbol) (f : Function) : gmap Z Symbol :=
  let fun_name := "FUN_" +:+ hex8 (fn_entry_va f) in
  match Symbols.name symbols (fn_entry_va f) with
  | None => Symbols.insert (fn_entry_va f) fun_name Symbols.Function_ symbols
  | Some n =>
      if String.prefix "sub_" n then Symbols.insert (fn_entry_va f) fun_name Symbols.Function_ symbols
      else symbols
  end.

(** The function and address a line of a linker map names. *)
Definition map_line (line : string) : option (Z * string) :=
  let parts := words_of "" line in
  if decide (length parts < 4)%nat then None
  else
    fi ← position (λ p, bool_decide (p = "f")) parts;
    if decide (fi < 2 ∨ length parts ≤ fi + 1)%nat then None
    else
      name ← parts !! (fi - 2)%nat;
      va_s ← parts !! (fi - 1)%nat;
      obj ← parts !! (fi + 1)%nat;
      if contains ":" obj || negb (ends_with ".obj" obj) then None
      else if negb (forallb is_ident_char (String.list_ascii_of_string name)) || String.prefix "?" name
              || String.prefix "_" name || bool_decide (String.length name < 2)%nat then None
      else va ← from_str_radix 16 va_s; Some (va, name).

(** One line applied to the symbols. *)
Definition apply_map_line (symbols : gmap Z Symbol) (line : string) : gmap Z Symbol :=
  match map_line line with
  | None => symbols
  | Some (va, name) =>
      match Symbols.name symbols va with
      | None => Symbols.insert va name Symbols.Function_ symbols
      | Some n =>
          if String.prefix "FUN_" n || String.prefix "sub_" n
          then Symbols.insert va name Symbols.Function_ symbols else symbols
      end
  end.
(** [apply_adjacent_msvc_map_names]; no text when the file cannot be read. *)
Definition apply_adjacent_msvc_map_names (text : option string) (symbols : gmap Z Symbol) : gmap Z Symbol :=
  foldl apply_map_line symbols (lines_of "" (default "" text)).

(** ** The stages *)

Definition with_signature (sigs : gmap Z FunctionSignature) (f : Function) : Function :=
  match sigs !! fn_entry_va f with
  | Some sig => mkFunction (fn_id f) (fn_entry_va f) (fn_blocks f) (fn_outgoing f) (fn_stack_frame f) (Some sig)
  | None => f
  end.

(** The recovered frames beside those of the PDB. *)
Definition collect_frames (frames : gmap Z StackFrame) (functions : gmap Z Function) : gmap Z StackFrame :=
  foldl (λ m f, match fn_stack_frame f with
                | Some frame => <[fn_entry_va f := frame]> m
                | None => m
                end) frames (btree_values functions).

Record Opened := mkOpened {
  op_functions : gmap Z Function;
  op_xrefs : XrefIndex;
  op_symbols : gmap Z Symbol;
  op_frames : gmap Z StackFrame
}.

(** From the frames to the resolved calls. *)
Definition open_stages (image : bytes) (a : AddressSpace) (map_text : option string)
    (pdb_frames : gmap Z StackFrame) (sigs : gmap Z FunctionSignature)
    (functions : gmap Z Function) (xrefs : XrefIndex) (symbols : gmap Z Symbol) : option Opened :=
  let functions := with_signature sigs <$> apply_frames pdb_frames functions in
  let functions := recover_frames functions in
  let frames := collect_frames pdb_frames functions in
  let symbols := foldl auto_name symbols (btree_values functions) in
  let symbols := apply_adjacent_msvc_map_names map_text symbols in
  let symbols := apply_thunk_renames symbols (find_thunk_renames code_index bitness functions symbols) in
  r ← resolve_indirect_jumps code_index a image bitness functions xrefs;
  r ← resolve_indirect_calls code_index a image bitness r.1 r.2;
  Some (mkOpened r.1 r.2 symbols frames).
End opening.

(** [Project::open] from the decoded image on. *)
Definition open_image `{!OperandView, !MemoryUse} {D : Type} `{!Decoder D} (image : bytes) (a : AddressSpace)
    (bitness entry_va : Z) (symbols : gmap Z Symbol) (hints : list Z) (map_text : option string)
    (pdb_frames : gmap Z StackFrame) (sigs : gmap Z FunctionSignature) : option Opened :=
  an ← build_analysis (D := D) image a bitness entry_va symbols hints;
  open_stages (an_code_index an) bitness image a map_text pdb_frames sigs
    (an_functions an) (an_xrefs an) symbols.
