(* ===== verification/OpeningCorrect.v ===== *)
(** Opening an image: it does not fail, what it builds is well-formed, frames
    recovered from prologues are what they should be, and the transfers through
    memory that are resolved or missed. *)

From Stdlib Require Import Strings.Byte Strings.Ascii Strings.String.
From S2P Require Import Prelude Text Data Ops OpsFacts Journal Persist Activity MemoryMap Loader FlowGraph ModulePe Serving Targets CodeIndex CodeIndexFacts Discovery DiscoveryFacts Callees DiscoveryCorrect Unwind UnwindCorrect Analysis Indirect IndirectCorrect Opening.
Import Images.
Import AddressSpace Functions Types.

(** ** Recovered frames *)

Lemma local_slots_lookup room p size off (i : nat) :
  (0 < p)%Z → (0 < off)%Z →
  local_slots room p size off !! i
  = if decide (i < room ∧ (off + Z.of_nat i * p ≤ size)%Z)
    then Some (mkVar (Some (String.append "var_" (hex (off + Z.of_nat i * p)))) (Unknown (p * 8))
                 (- (off + Z.of_nat i * p)) p)
    else None.
Proof.
  intros P. revert off i. induction room as [|room IH]; intros off i O; cbn [local_slots].
  { rewrite decide_False by lia. done. }
  destruct (Z.leb_spec off size) as [L|L].
  - destruct i as [|i]; cbn [lookup list_lookup].
    + rewrite decide_True by lia. by replace (off + Z.of_nat 0 * p)%Z with off by lia.
    + rewrite IH by lia. replace (off + p + Z.of_nat i * p)%Z with (off + Z.of_nat (S i) * p)%Z by lia.
      repeat case_decide; done || lia.
  - rewrite decide_False by nia. done.
Qed.

Lemma local_slots_wf room p size off :
  (0 < p)%Z → (0 < off)%Z →
  NoDup (sv_offset <$> local_slots room p size off) ∧
  Forall (λ v, sv_offset v ≤ 0)%Z (local_slots room p size off).
Proof.
  intros P O. split.
  - apply NoDup_alt. intros i j x. rewrite !list_lookup_fmap, !local_slots_lookup by done.
    repeat case_decide; cbn; intros; simplify_eq. nia.
  - apply Forall_lookup. intros i v. rewrite local_slots_lookup by done.
    case_decide; [|done]. intros [= <-]. cbn. nia.
Qed.

Section recovered.
Context `{!OperandView}.
Variable ci : CodeIndex.
Variable bitness : Z.

Lemma recovered_wf entry frame :
  (8 ≤ bitness)%Z → analyze_prologue ci bitness entry (bitness / 8) = Some frame → wf_frame frame.
Proof.
  intros B. unfold analyze_prologue. destruct (prologue_loop _ _ _ _ _ _) as [fp size].
  destruct (_ && _); [done|]. intros E. apply (inj Some) in E as <-.
  assert (1 ≤ bitness / 8)%Z by (apply Z.div_le_lower_bound; lia).
  destruct (local_slots_wf MAX_LOCAL_SLOTS (bitness / 8) size (bitness / 8)); [lia..|].
  set (l := local_slots _ _ _ _) in *. clearbody l. by split; cbn; [|constructor| |constructor].
Qed.

(** The size a prologue sets is in range. *)
Lemma prologue_size steps va fp size :
  (0 ≤ size ≤ 0x1000000)%Z → (0 ≤ (prologue_loop ci bitness steps va fp size).2 ≤ 0x1000000)%Z.
Proof.
  revert va fp size. induction steps as [|steps IH]; intros va fp size R; cbn [prologue_loop]; [done|].
  destruct (at_va ci va) as [dec|]; [|done].
  assert (∀ n, prologue_step bitness (instr dec) = LocalSize n → (0 ≤ n ≤ 0x1000000)%Z) as S.
  { intros n. unfold prologue_step, in_frame_range.
    repeat case_decide; try done.
    - destruct ((0 <? _)%Z && _) eqn:E; [|done]. intros [= <-]. apply andb_true_iff in E as [?%Z.ltb_lt ?%Z.leb_le]. lia.
    - destruct (lea_stack_adjustment bitness (instr dec)) as [m|]; cbn [mbind option_bind];
        [|by destruct (is_prologue_terminator _)].
      destruct ((0 <? m)%Z && (m <=? 0x1000000)%Z) eqn:E; [|by destruct (is_prologue_terminator _)].
      intros [= <-]. apply andb_true_iff in E as [?%Z.ltb_lt ?%Z.leb_le]. lia.
    - by destruct (is_prologue_terminator _). }
  destruct (prologue_step _ _) as [| |n|]; auto.
Qed.
End recovered.

(** ** Tables through the stages *)

Lemma wf_table_fmap g t :
  (∀ f, fn_entry_va (g f) = fn_entry_va f ∧ fn_blocks (g f) = fn_blocks f) → wf_table t → wf_table (g <$> t).
Proof.
  intros G W fe f'. rewrite lookup_fmap. intros (f & Hf & ->)%fmap_Some.
  destruct (G f) as [-> Eb]. destruct (W fe f Hf) as [Ee D]. split; [done|].
  unfold distinct_blocks. by rewrite Eb.
Qed.

Definition named (symbols : gmap Z Symbol) (va : Z) : Prop := is_Some (symbols !! va).

Lemma insert_named symbols va va' s : named symbols va → named (<[va' := s]> symbols) va.
Proof. intros H. unfold named. rewrite lookup_insert_is_Some. destruct (decide (va' = va)); auto. Qed.
Lemma foldl_named {A} (g : gmap Z Symbol → A → gmap Z Symbol) l symbols va :
  (∀ t x, named t va → named (g t x) va) → named symbols va → named (foldl g symbols l) va.
Proof. intros G. revert symbols. induction l; cbn [foldl]; auto. Qed.

Lemma auto_name_keeps t f va : named t va → named (auto_name t f) va.
Proof.
  intros H. unfold auto_name. destruct (Symbols.name _ _); [destruct (String.prefix _ _)|]; try done;
    by apply insert_named.
Qed.
Lemma auto_name_names t f : named (auto_name t f) (fn_entry_va f).
Proof.
  unfold auto_name, Symbols.name, Symbols.get. destruct (t !! fn_entry_va f) as [s|] eqn:E; cbn.
  - destruct (String.prefix _ _); unfold named, Symbols.insert; [by rewrite lookup_insert_eq|by rewrite E].
  - unfold named, Symbols.insert. by rewrite lookup_insert_eq.
Qed.
Lemma map_line_keeps t l va : named t va → named (apply_map_line t l) va.
Proof.
  intros H. unfold apply_map_line. destruct (map_line l) as [[]|]; [|done].
  destruct (Symbols.name _ _); [destruct (_ || _)|]; try done; by apply insert_named.
Qed.

Lemma all_named l symbols f : f ∈ l → named (foldl auto_name symbols l) (fn_entry_va f).
Proof.
  intros Hf. apply list_elem_of_split in Hf as (l1 & l2 & ->). rewrite foldl_app. cbn [foldl].
  apply foldl_named; [intros; by apply auto_name_keeps|apply auto_name_names].
Qed.

Lemma elem_of_collect_frames frames t va fr :
  collect_frames frames t !! va = Some fr →
  frames !! va = Some fr ∨ ∃ fe f, t !! fe = Some f ∧ fn_stack_frame f = Some fr.
Proof.
  unfold collect_frames. 
  assert (∀ (l : list Function) (m : gmap Z StackFrame), (∀ f, f ∈ l → ∃ fe, t !! fe = Some f) →
    foldl (λ m f, match fn_stack_frame f with Some frame => <[fn_entry_va f := frame]> m | None => m end) m l
      !! va = Some fr →
    m !! va = Some fr ∨ ∃ fe f, t !! fe = Some f ∧ fn_stack_frame f = Some fr) as G.
  { induction l as [|f l IH]; intros m Hl; cbn [foldl]; [by left|].
    intros H. apply IH in H as [H|H]; [|by right|intros; apply Hl; by right].
    destruct (fn_stack_frame f) as [frame|] eqn:E; [|by left].
    apply lookup_insert_Some in H as [[_ <-]|[_ H]]; [|by left].
    right. destruct (Hl f) as [fe Hfe]; [by left|]. by exists fe, f. }
  apply G. intros f Hf. by apply elem_of_btree_values.
Qed.

(** ** The stages *)

Section stages.
Context `{!OperandView}.
Variable ci : CodeIndex.
Variable bitness : Z.
Variable image : bytes.
Variable a : AddressSpace.

(** The functions with what the PDB and the prologues say of them. *)
Definition framed (pdb_frames : gmap Z StackFrame) (sigs : gmap Z FunctionSignature) (t : gmap Z Function)
    : gmap Z Function :=
  recover_frames ci bitness (with_signature sigs <$> apply_frames pdb_frames t).

Lemma recover_frame_same f :
  fn_entry_va (recover_frame ci bitness f) = fn_entry_va f ∧ fn_blocks (recover_frame ci bitness f) = fn_blocks f.
Proof. unfold recover_frame. destruct (fn_stack_frame f); [done|]. by destruct (analyze_prologue _ _ _ _). Qed.
Lemma with_signature_same sigs f :
  fn_entry_va (with_signature sigs f) = fn_entry_va f ∧ fn_blocks (with_signature sigs f) = fn_blocks f.
Proof. unfold with_signature. by destruct (sigs !! _). Qed.
Lemma framed_wf pdb sigs t : wf_table t → wf_table (framed pdb sigs t).
Proof.
  intros W. unfold framed, recover_frames.
  apply wf_table_fmap, wf_table_fmap, wf_table_fmap; [apply recover_frame_same|apply with_signature_same| |done].
  intros f. by destruct (pdb !! fn_entry_va f).
Qed.
Lemma framed_lookup pdb sigs t fe :
  framed pdb sigs t !! fe =
    (λ f, recover_frame ci bitness (with_signature sigs
       (match pdb !! fn_entry_va f with Some fr => with_stack_frame fr f | None => f end))) <$> t !! fe.
Proof.
  unfold framed, recover_frames, apply_frames. rewrite !lookup_fmap. by destruct (t !! fe).
Qed.

(** A frame is that of the PDB, or was recovered where there was none. *)
Lemma framed_frame pdb sigs t fe f fr :
  wf_table t → (∀ fe f, t !! fe = Some f → fn_stack_frame f = None) →
  framed pdb sigs t !! fe = Some f → fn_stack_frame f = Some fr →
  pdb !! fe = Some fr ∨ pdb !! fe = None ∧ analyze_prologue ci bitness fe (bitness / 8) = Some fr.
Proof.
  intros W N. rewrite framed_lookup. intros (g & Hg & ->)%fmap_Some.
  destruct (W fe g Hg) as [Ee _]. pose proof (N fe g Hg) as Ng. rewrite Ee.
  unfold recover_frame, with_signature.
  destruct (pdb !! fe) as [fr0|] eqn:Ef; cbn [with_stack_frame fn_entry_va].
  - destruct (sigs !! _); cbn; intros [= <-]; by left.
  - rewrite Ee. destruct (sigs !! _); cbn [fn_stack_frame fn_entry_va]; rewrite Ng, ?Ee;
      (destruct (analyze_prologue ci bitness fe (bitness / 8)) as [fr'|] eqn:Ea;
        [cbn [with_stack_frame fn_stack_frame]; intros E; right; split; congruence
        |cbn [fn_stack_frame]; congruence]).
Qed.

(** The opened image: functions keyed by their entries with predecessor lists
    that are inverse to their successor lists, every function with a name, and
    well-formed frames if those of the debug information are. *)
Definition opened_ok (pdb_frames : gmap Z StackFrame) (t : gmap Z Function) (o : Opened) : Prop :=
  wf_table (op_functions o) ∧ dom (op_functions o) =@{gset Z} dom t ∧
  (∀ fe f, op_functions o !! fe = Some f →
     predecessors_ok (fn_blocks f) ∧ is_Some (Symbols.name (op_symbols o) fe)) ∧
  ((∀ va fr, pdb_frames !! va = Some fr → wf_frame fr) →
   ∀ va fr, op_frames o !! va = Some fr → wf_frame fr) ∧
  ∀ fe f, t !! fe = Some f → ∃ f', op_functions o !! fe = Some f' ∧
    Forall2 (λ b b', bb_entry_va b' = bb_entry_va b ∧ bb_exit_va b' = bb_exit_va b ∧
                     bb_instr_count b' = bb_instr_count b ∧ bb_successors b `prefix_of` bb_successors b')
      (fn_blocks f) (fn_blocks f').

Definition grown (b b' : BasicBlock) : Prop :=
  bb_entry_va b' = bb_entry_va b ∧ bb_exit_va b' = bb_exit_va b ∧
  bb_instr_count b' = bb_instr_count b ∧ bb_successors b `prefix_of` bb_successors b'.
Lemma extended_grown kind edges f f' :
  map outline (fn_blocks f') = extended kind edges f → Forall2 grown (fn_blocks f) (fn_blocks f').
Proof.
  unfold extended. generalize (fn_blocks f'), (fn_blocks f). intros l'.
  induction l' as [|b' l' IH]; intros [|b l] E; try done; try by constructor.
  cbn [map] in E. injection E as E1 E2 E3 E4 E. constructor; [|by apply IH].
  unfold grown. rewrite E1, E2, E3, E4. repeat (split; [done|]). by exists (map (edge_of kind) (edges f b)).
Qed.
Lemma grown_trans l1 l2 l3 : Forall2 grown l1 l2 → Forall2 grown l2 l3 → Forall2 grown l1 l3.
Proof.
  intros Hl. revert l3. induction Hl as [|b1 b2 l1 l2 (?&?&?&?) Hl IH]; intros l3 Hl3.
  - apply Forall2_nil_inv_l in Hl3 as ->. constructor.
  - apply Forall2_cons_inv_l in Hl3 as (b3 & l4 & (?&?&?&?) & Hl4 & ->). constructor; [|by apply IH].
    split_and!; try congruence. by etransitivity.
Qed.

Lemma open_stages_ok map_text pdb sigs t xrefs symbols :
  (8 ≤ bitness)%Z → wf_table t → (∀ fe f, t !! fe = Some f → fn_stack_frame f = None) →
  ∃ o, open_stages ci bitness image a map_text pdb sigs t xrefs symbols = Some o ∧ opened_ok pdb t o.
Proof.
  intros B W N. unfold open_stages. fold (framed pdb sigs t).
  pose proof (framed_wf pdb sigs t W) as Wf. set (t1 := framed pdb sigs t) in *.
  destruct (resolve_with_ok (jump_edges ci a image bitness) Functions.Indirect Callees.Indirect t1 xrefs Wf)
    as (t2 & x2 & E2 & W2 & D2 & F2 & _); [apply jump_edges_tagged|].
  fold (resolve_indirect_jumps ci a image bitness) in E2. rewrite E2. cbn [mbind option_bind fst snd].
  destruct (resolve_with_ok (call_edges ci a image bitness) Functions.Call Callees.Call t2 x2 W2)
    as (t3 & x3 & E3 & W3 & D3 & F3 & _); [apply call_edges_tagged|].
  fold (resolve_indirect_calls ci a image bitness) in E3. rewrite E3. cbn [mbind option_bind fst snd].
  eexists. split; [done|]. unfold opened_ok. cbn [op_functions op_symbols op_frames].
  assert (dom t1 =@{gset Z} dom t) as D1.
  { apply set_eq. intros fe. rewrite !elem_of_dom. unfold t1. rewrite framed_lookup. apply fmap_is_Some. }
  split_and!; [done|by rewrite D3, D2| | |].
  - intros fe f3 Hf3.
    assert (is_Some (t1 !! fe)) as [f1 Hf1].
    { apply elem_of_dom. rewrite <-D2, <-D3. apply elem_of_dom. eauto. }
    destruct (F2 _ _ Hf1) as (f2 & Hf2 & _). destruct (F3 _ _ Hf2) as (f3' & Hf3' & Pr & _).
    assert (f3' = f3) as -> by congruence. split; [done|].
    unfold Symbols.name, Symbols.get. apply fmap_is_Some. change (named ?t fe) with (is_Some (t !! fe)).
    apply (foldl_named _ _ _ fe); [intros; by apply insert_named|].
    apply (foldl_named apply_map_line _ _ fe); [intros; by apply map_line_keeps|].
    destruct (Wf _ _ Hf1) as [<- _]. apply all_named, elem_of_btree_values. eauto.
  - intros P va fr [Hp|(fe & f & Hf & Hs)]%elem_of_collect_frames; [by eapply P|].
    destruct (framed_frame pdb sigs t fe f fr W N Hf Hs) as [Hp|[_ Hr]]; [by eapply P|by eapply recovered_wf].
  - intros fe f Hf.
    assert (∃ f1, t1 !! fe = Some f1 ∧ fn_blocks f1 = fn_blocks f) as (f1 & Hf1 & Eb).
    { unfold t1. rewrite framed_lookup, Hf. eexists. split; [done|].
      rewrite (proj2 (recover_frame_same _)), (proj2 (with_signature_same _ _)). by destruct (pdb !! _). }
    destruct (F2 _ _ Hf1) as (f2 & Hf2 & _ & O2). destruct (F3 _ _ Hf2) as (f3 & Hf3 & _ & O3).
    exists f3. split; [done|]. rewrite <-Eb. eapply grown_trans; eapply extended_grown; eassumption.
Qed.
End stages.

(** ** Opening an image *)

Lemma discovered_wf ci space seeds hints :
  progresses ci →
  ∃ table, discover_functions_with_entry_hints ci space seeds hints = Some table ∧ wf_table table ∧
    ∀ fe f, table !! fe = Some f → fn_stack_frame f = None.
Proof.
  intros P. destruct (discover_ok ci space seeds hints P) as (_ & d & E & C & _).
  unfold discover_functions_with_entry_hints. rewrite E. exists (functions d). split; [done|].
  split; intros fe f Hf; destruct (co_function _ _ _ _ C fe f Hf) as (Ee & [_ Es] & S & _); [|done].
  split; [done|]. by apply (strict_NoDup bb_entry_va) in S.
Qed.

Section opening.
Context {D : Type} `{!Decoder D, !DecoderLaws D, !MemoryUse}.

Lemma build_analysis_wf image a bitness entry_va symbols hints :
  sweepable a → below_top a →
  ∃ an, build_analysis image a bitness entry_va symbols hints = Some an ∧ wf_table (an_functions an) ∧
    ∀ fe f, an_functions an !! fe = Some f → fn_stack_frame f = None.
Proof.
  intros Sw T. destruct (swept_progresses image a bitness Sw T) as (ci & E & P).
  set (rf := runtime_functions_of image a bitness).
  destruct (discovered_wf ci a (seeds_of entry_va symbols rf hints) hints P) as (t & Et & W & N).
  unfold build_analysis. rewrite E. cbn [mbind option_bind]. fold rf.
  exists (mkAnalysis ci rf t (build_xrefs a bitness ci)). cbn [an_functions]. split; [|done].
  case_decide as Dh; [|by rewrite Et]. unfold discover_functions. subst hints. by rewrite Et.
Qed.

Context `{!OperandView}.

(** C11: For a bitness of at least 8, an image whose executable sections neither
    overlap nor reach the last address opens whatever its bytes, map and entry hints:
    no stage panics, functions keep their discovered blocks and edges, predecessors
    invert successors and every function is named. If moreover the stack frames read
    from the debug information are well formed (no offset twice among the arguments or
    among the locals, arguments above and locals at or below the return address), so
    are all frames of the project, and it meets the invariant that edits keep and undo
    relies on. *)
Theorem opening_ok image a bitness entry_va symbols hints map_text pdb_frames sigs path sha types globals :
  sweepable a → below_top a → (8 ≤ bitness)%Z →
  ∃ an o, build_analysis image a bitness entry_va symbols hints = Some an ∧
    open_image (D := D) image a bitness entry_va symbols hints map_text pdb_frames sigs = Some o ∧
    opened_ok pdb_frames (an_functions an) o ∧
    ((∀ va fr, pdb_frames !! va = Some fr → wf_frame fr) →
     wf_project (open_base path sha (op_functions o) (op_symbols o) types (op_frames o) globals sigs entry_va)).
Proof.
  intros Sw T B. destruct (build_analysis_wf image a bitness entry_va symbols hints Sw T) as (an & E & W & N).
  destruct (open_stages_ok (an_code_index an) bitness image a map_text pdb_frames sigs (an_functions an)
    (an_xrefs an) symbols B W N) as (o & Eo & O).
  exists an, o. split; [done|]. unfold open_image. rewrite E. cbn [mbind option_bind]. split_and!; [done..|].
  destruct O as (_ & _ & _ & F & _). intros P. constructor; cbn; [exact (F P)|]. intros va c Hc. by rewrite lookup_empty in Hc.
Qed.
End opening.

(** ** Jump tables *)

Section tables.
Context `{!OperandView}.
Variable ci : CodeIndex.
Variable a : AddressSpace.
Variable image : bytes.

(** A block whose last instruction jumps through the memory at [va], addressed
    relative to the instruction pointer. *)
Definition jumps_through (b : BasicBlock) (dec : DecodedInstr) (va : Z) : Prop :=
  at_va ci (bb_exit_va b) = Some dec ∧ flow_control (instr dec) = FlowControl.IndirectBranch ∧
  mnemonic (instr dec) = JmpMnemonic ∧ op0_is_memory (instr dec) = true ∧
  memory_base (instr dec) = RIP ∧ memory_index (instr dec) = NoRegister ∧
  va = ip_rel_memory_address (instr dec).

Lemma transfer_slot_jumps b dec va :
  transfer_slot ci 64 FlowControl.IndirectBranch JmpMnemonic b = Some (dec, va) ↔ jumps_through b dec va.
Proof.
  unfold transfer_slot, jumps_through, rip_relative_target_va. change (negb (64 =? 64)%Z) with false. cbn iota.
  split.
  - intros (dec' & Ed & Et)%bind_Some. case_decide as Dc; [done|].
    destruct (op0_is_memory (instr dec')) eqn:O; [|done]. cbn [negb] in Et.
    case_decide as Dm; [done|]. cbn [mbind option_bind] in Et. simplify_eq.
    split_and!; try done; match goal with |- ?x = ?y => destruct (decide (x = y)); [done|tauto] end.
  - intros (Ed & F & M & O & B & I & ->). rewrite Ed. cbn [mbind option_bind].
    rewrite decide_False by tauto. rewrite O. cbn [negb]. by rewrite decide_False by tauto.
Qed.

(** The targets of the table a block ends with a jump through. *)
Definition table_targets (b : BasicBlock) : list Z :=
  match transfer_slot ci 64 FlowControl.IndirectBranch JmpMnemonic b with
  | Some (_, table_va) => read_pointer_table a image table_va 8
  | None => []
  end.

(** C30: In a 64-bit image with well-formed sections and a function table keyed by
    entry with distinct block entries, resolving jumps through tables appends to the
    successors of each block that ends with a jump through RIP-relative memory one
    edge per entry of that table, in order, and to no other block anything. The
    entries are all of the words of the file from the address of the table on up to
    the first that is zero or not executable, at most 512 of them; when the address
    has no file content, or fewer than 8192 bytes of the file follow it, nothing is
    read. The references added are those of the new edges and of their tables, and
    predecessor lists are inverse again. *)
Theorem indirect_jumps_resolved functions xrefs :
  wf_space a → wf_table functions →
  ∃ functions' xrefs', resolve_indirect_jumps ci a image 64 functions xrefs = Some (functions', xrefs') ∧
    dom functions' =@{gset Z} dom functions ∧
    (∀ fe f, functions !! fe = Some f →
       ∃ f', functions' !! fe = Some f' ∧ predecessors_ok (fn_blocks f') ∧
         map outline (fn_blocks f') =
           map (λ b, (bb_entry_va b, bb_exit_va b, bb_instr_count b,
                      bb_successors b ++ map (λ v, mkEdge v Functions.Indirect) (table_targets b))) (fn_blocks f)) ∧
    (∀ b dec table_va, jumps_through b dec table_va → pointer_run a image table_va (table_targets b)) ∧
    (∀ b, (¬ ∃ dec table_va, jumps_through b dec table_va) → table_targets b = []) ∧
    (∀ x va, x ∈ xrefs_to xrefs' va ↔
       x ∈ xrefs_to xrefs va ∨ to_va x = va ∧
         ∃ fe f b dec table_va v, functions !! fe = Some f ∧ b ∈ fn_blocks f ∧
           jumps_through b dec table_va ∧ v ∈ table_targets b ∧
           (x = mkXref (ip dec) v Callees.Indirect ∨ x = mkXref (ip dec) table_va DataRead)).
Proof.
  intros Wa W.
  destruct (resolve_with_ok (jump_edges ci a image 64) Functions.Indirect Callees.Indirect functions xrefs W)
    as (t' & x' & E & _ & Dm & F & X); [apply jump_edges_tagged|].
  exists t', x'. split; [exact E|]. split; [done|]. split_and!.
  - intros fe f Hf. destruct (F fe f Hf) as (f' & Hf' & Pr & O). exists f'. split_and!; [done..|].
    rewrite O. unfold extended. apply map_ext. intros b. do 2 f_equal. unfold jump_edges, table_targets.
    destruct (transfer_slot _ _ _ _ _) as [[dec va]|]; [|done]. by rewrite map_map.
  - intros b dec va Hj%transfer_slot_jumps. unfold table_targets. rewrite Hj. by apply read_pointer_table_spec.
  - intros b N. unfold table_targets. destruct (transfer_slot _ _ _ _ _) as [[dec va]|] eqn:Et; [|done].
    destruct N. exists dec, va. by apply transfer_slot_jumps.
  - intros x va. rewrite X. unfold jump_edges, table_targets. split; (intros [?|[? Hx0]]; [by left|right; split; [done|]]).
    + destruct Hx0 as (fe & f & b & r & Hf & Hb & Hr & Hx).
      destruct (transfer_slot _ _ _ _ _) as [[dec tv]|] eqn:Et; [|by apply not_elem_of_nil in Hr].
      apply list_elem_of_fmap in Hr as (v & -> & Hv).
      exists fe, f, b, dec, tv, v. rewrite Et. split_and!; [done..|by apply transfer_slot_jumps|done|exact Hx].
    + destruct Hx0 as (fe & f & b & dec & tv & v & Hf & Hb & Et%transfer_slot_jumps & Hv & Hx).
      exists fe, f, b, (mkResolved (fn_entry_va f) (bb_entry_va b) (ip dec) tv v). rewrite Et in Hv |- *.
      split_and!; [done..| |exact Hx]. apply list_elem_of_fmap. eauto.
Qed.
End tables.

(** ** Thunks *)

Section thunks.
Context `{!OperandView, !OperandLaws}.

Lemma as_i32_mod z : ((as_i32 z - z) mod 2 ^ 32 = 0)%Z.
Proof.
  unfold as_i32. pose proof (Z.div_mod (z + 2 ^ 31) (2 ^ 32)).
  replace ((z + 2 ^ 31) mod 2 ^ 32 - 2 ^ 31 - z)%Z with (- ((z + 2 ^ 31) / 2 ^ 32) * 2 ^ 32)%Z by lia.
  apply Z.mod_mul. lia.
Qed.

(** The address computed for a relative operand is not the operand's, unless the
    next instruction is at a multiple of 4 GiB. *)
Lemma relative_slot_wrong i :
  memory_base i = RIP → memory_index i = NoRegister → ((ins_ip i + Z.of_nat (ins_len i)) mod 2 ^ 32 ≠ 0)%Z →
  memory_target_va 64 i ≠ Some (ip_rel_memory_address i).
Proof.
  intros B I N. unfold memory_target_va. rewrite decide_True by done.
  rewrite (displacement_absolute i B). set (t := ip_rel_memory_address i).
  intros [= E]. apply N. pose proof (as_i32_mod t) as M. unfold instr_next_ip, wrap_add in E.
  rewrite Zplus_mod_idemp_l in E. rewrite <-E in M at 2.
  set (n := (ins_ip i + Z.of_nat (ins_len i))%Z) in *. set (d := as_i32 t) in *.
  pose proof (Z.div_mod (n + d) (2 ^ 64)). pose proof (Z.div_mod (d - (n + d) mod 2 ^ 64) (2 ^ 32)).
  replace n with ((2 ^ 32 * ((n + d) / 2 ^ 64) - (d - (n + d) mod 2 ^ 64) / 2 ^ 32) * 2 ^ 32)%Z by lia.
  apply Z.mod_mul. lia.
Qed.

(** In a 64-bit image no function that jumps through a relative operand is
    renamed after the import slot it jumps through: the slot's address is
    computed by adding the next instruction's address to a displacement that is
    absolute already. (Unless the next instruction is at a multiple of 4 GiB.) *)
Theorem x64_thunk_missed ci functions symbols r dec :
  r ∈ find_thunk_renames ci 64 functions symbols →
  at_va ci (thunk_va r) = Some dec →
  memory_base (instr dec) = RIP → memory_index (instr dec) = NoRegister →
  ((ins_ip (instr dec) + Z.of_nat (ins_len (instr dec))) mod 2 ^ 32 ≠ 0)%Z →
  tr_slot_va r ≠ ip_rel_memory_address (instr dec).
Proof.
  unfold find_thunk_renames. intros (f & _ & Hr)%list_elem_of_omap Hd B I N.
  unfold thunk_rename in Hr. destruct (fn_blocks f) as [|b [|]]; try done.
  destruct (negb _); [done|]. apply bind_Some in Hr as (dec' & Ed & Hr).
  case_decide; [done|]. destruct (negb _); [done|].
  apply bind_Some in Hr as (slot & Es & Hr). apply bind_Some in Hr as (sym & _ & Hr).
  case_decide; [done|]. apply bind_Some in Hr as (api & _ & Hr). case_decide; [done|]. simplify_eq/=.
  intros Eq. rewrite Eq in Es. by eapply relative_slot_wrong.
Qed.
End thunks.

(** ** A jump through a table *)

Module SampleOperands.
(** Indirect transfers are relative to the instruction pointer; their operand is
    kept in the branch target. *)
Definition indirect (i : Instruction) : bool :=
  match flow_control i with FlowControl.IndirectBranch | FlowControl.IndirectCall => true | _ => false end.
#[global] Instance view : OperandView := {
  mnemonic i := match flow_control i with
                | FlowControl.IndirectBranch => JmpMnemonic
                | FlowControl.IndirectCall => CallMnemonic
                | _ => OtherMnemonic
                end;
  op0_is_memory := indirect;
  op0_is_register _ := false;
  op0_register _ := NoRegister;
  op1_register _ := NoRegister;
  memory_base i := if indirect i then RIP else NoRegister;
  memory_index _ := NoRegister;
  memory_displacement64 i := (near_branch_target i mod 2 ^ 64)%Z;
  ip_rel_memory_address i := (near_branch_target i mod 2 ^ 64)%Z
}.
#[global] Instance laws : OperandLaws.
Proof.
  constructor; [done|]. intros i. cbn. unfold is_u64, u64_max.
  pose proof (Z.mod_pos_bound (near_branch_target i) (2 ^ 64)). lia.
Qed.
End SampleOperands.

Definition table_jump : DecodedInstr :=
  mkDecoded 0x1000 6 (replicate 16 xff) (mkInstruction 0x1000 6 false FlowControl.IndirectBranch 0x2000 []).
Definition table_function : Function :=
  mkFunction 0x1000 0x1000 [mkBlock 0x1000 0x1000 1 [mkEdge 0 Functions.Indirect] []] [] None None.
Definition table_space : AddressSpace :=
  mkSpace 0 [mkSection 0x1000 0x1000 0 0x1000 0x60000020; mkSection 0x2000 0x3000 0 0x3000 0x40000040].
(** The table, followed by [pad] more words. *)
Definition table_image (pad : nat) : bytes :=
  concat (to_le 8 <$> [0x1000; 0x1004; 0]%Z) ++ concat (replicate pad (replicate 8 x00)).

Lemma table_space_wf : wf_space table_space.
Proof.
  split; [by vm_compute|]. repeat constructor; cbn; unfold u64_max, u32_max; lia.
Qed.
Lemma table_function_wf : wf_table {[0x1000%Z := table_function]}.
Proof.
  intros fe f [<- <-]%lookup_singleton_Some. split; [done|]. repeat constructor. apply not_elem_of_nil.
Qed.

Lemma indirect_jumps_resolved_witness :
  ∃ functions' xrefs', resolve_indirect_jumps [table_jump] table_space (table_image 1024) 64
      {[0x1000%Z := table_function]} (mkXrefs ∅ ∅) = Some (functions', xrefs') ∧
    mkXref 0x1000 0x1004 Callees.Indirect ∈ xrefs_to xrefs' 0x1004.
Proof.
  destruct (indirect_jumps_resolved [table_jump] table_space (table_image 1024)
    {[0x1000%Z := table_function]} (mkXrefs ∅ ∅) table_space_wf table_function_wf)
    as (t' & x' & E & _ & _ & _ & _ & X).
  exists t', x'. split; [exact E|]. apply X. right. split; [done|].
  exists 0x1000%Z, table_function, (mkBlock 0x1000 0x1000 1 [mkEdge 0 Functions.Indirect] []), table_jump, 0x2000%Z, 0x1004%Z.
  split_and!; [done|by apply list_elem_of_singleton|by apply transfer_slot_jumps| |by left].
  apply (bool_decide_unpack _). vm_compute. exact I.
Defined.

(** The same table less than 8 KiB before the end of the file is not read. *)
Example table_at_end_missed :
  table_targets [table_jump] table_space (table_image 1024) (mkBlock 0x1000 0x1000 1 [] []) = [0x1000; 0x1004]%Z ∧
  table_targets [table_jump] table_space (table_image 1000) (mkBlock 0x1000 0x1000 1 [] []) = [].
Proof. vm_compute. split; reflexivity. Qed.

(** An import thunk keeps its name; an import at the address computed instead
    gives its name. *)
Definition import_at (va : Z) (name : string) : gmap Z Symbol := {[va := mkSymbol name Import_]}.
Example thunk_not_renamed :
  find_thunk_renames [table_jump] 64 {[0x1000%Z := table_function]} (import_at 0x2000 "__imp_Foo") = [] ∧
  find_thunk_renames [table_jump] 64 {[0x1000%Z := table_function]} (import_at 0x3006 "__imp_Foo")
    = [mkThunk 0x1000 "Foo" 0x3006].
Proof. vm_compute. split; reflexivity. Qed.

Lemma x64_thunk_missed_witness : 
  tr_slot_va (mkThunk 0x1000 "Foo" 0x3006) ≠ ip_rel_memory_address (instr table_jump).
Proof.
  apply (x64_thunk_missed [table_jump] {[0x1000%Z := table_function]} (import_at 0x3006 "__imp_Foo")
    (mkThunk 0x1000 "Foo" 0x3006) table_jump); [|done..|by vm_compute].
  rewrite (proj2 thunk_not_renamed). by apply list_elem_of_singleton.
Defined.

#[local] Existing Instance no_memory_use.

Lemma opening_ok_witness :
  ∃ o, open_image (D := ByteDecoder.t) pdata_image pdata_space 64 0x140001000 ∅ [] None ∅ ∅ = Some o ∧
    (∀ fe f, op_functions o !! fe = Some f → is_Some (Symbols.name (op_symbols o) fe)) ∧
    wf_project (open_base "a.exe" "sha" (op_functions o) (op_symbols o) (mkTypes ∅ ∅ ∅) (op_frames o) ∅ ∅ 0x140001000).
Proof.
  destruct (opening_ok (D := ByteDecoder.t) pdata_image pdata_space 64 0x140001000 ∅ [] None ∅ ∅ "a.exe" "sha"
    (mkTypes ∅ ∅ ∅) ∅) as (an & o & _ & E & (_ & _ & H & _) & Wp).
  - apply pdata_sweepable.
  - apply pdata_sweepable.
  - lia.
  - exists o. split; [exact E|]. split; [intros fe f Hf; by apply (H fe f)|].
    apply Wp. intros va fr Hf. by rewrite lookup_empty in Hf.
Defined.
