(* ===== verification/Semantic.v ===== *)
(** The semantic model of the second decompiler: decompiler/v2/semantic.rs, and
    the observations of observation.rs it lists; then that the model is
    consistent: its lists agree with each other and with the operations of the
    function. *)

From S2P Require Import Prelude Cfg CfgFrontier Ssa Pcode Region.

(** ** Observations *)

Module ObservationKind.
Inductive t :=
  | Call (target_hint : option Z) (arg_count : Z)
  | Load (is_stack : bool)
  | Store (is_stack : bool)
  | Return
  | ExceptionalExit
  | Barrier
  | Cleanup
  | CompilerArtifact (tag : string).
End ObservationKind.

Record Observation := mkObservation {
  obs_id : nat;
  obs_block : nat;
  obs_kind : ObservationKind.t;
  obs_va : option Z;
  ordinal : nat
}.

Definition is_critical (k : ObservationKind.t) : bool :=
  match k with
  | ObservationKind.Load _ | ObservationKind.CompilerArtifact _ => false
  | _ => true
  end.

(** ** The model *)

Module Terminator.
Inductive t :=
  | Jump (target : nat)
  | Branch (cond_hint : string) (false_target true_target : nat)
  | Switch (targets : list nat)
  | Return
  | TailCall (target_hint : option Z)
  | Unreachable.
End Terminator.

Record ExitValueClass := mkExitClass { class_tag : string; has_return : bool }.

Record SemanticModel := mkSemantic {
  n_blocks : nat;
  sem_entry : nat;
  sem_succ : list (list nat);
  sem_pred : list (list nat);
  terminators : list Terminator.t;
  observations : list Observation;
  by_block : gmap nat (list nat);
  cookie_blocks : gset nat;
  exception_blocks : gset nat;
  exit_class : ExitValueClass
}.

Section semantic.
Context {P : Type} `{PcodeView P}.
Notation SsaOp := (SsaOp P).
Notation SsaBlock := (SsaBlock P).
Notation SsaFunction := (SsaFunction P).
Implicit Types (op : SsaOp) (block : SsaBlock) (ssa : SsaFunction).

Definition is_phi op : bool := match kind op with Phi _ => true | Pcode _ => false end.
Definition is_return op : bool := pcode_is (λ p, match p with Return => true | _ => false end) op.

(** Ops that never surface as critical effects. *)
Definition is_nonsurface_op op : bool :=
  is_frame_pointer_adjust op || is_param_home_store op || is_noise_stack_reload op || is_phi op.

(** The callee of a direct call: an address, unless it is a register. *)
Definition direct_target (dest : Varnode) : option Z :=
  match space dest with Const | Ram => Some (offset dest) | _ => None end.

Definition kind_of_pcode (p : PcodeOp) : option ObservationKind.t :=
  match p with
  | Call dest => Some (ObservationKind.Call (direct_target dest) 0)
  | CallInd _ => Some (ObservationKind.Call None 0)
  | Store _ => Some (ObservationKind.Store false)
  | Load _ => Some (ObservationKind.Load false)
  | Return => Some ObservationKind.Return
  | _ => None
  end.
Definition surface_kind op : option ObservationKind.t :=
  if is_nonsurface_op op then None
  else match kind op with Pcode p => kind_of_pcode (view p) | Phi _ => None end.

(** What [return_ops] collects. *)
Definition return_op op : option string :=
  if is_nonsurface_op op then None
  else
    match kind op with
    | Pcode p =>
        match view p with
        | IntXor => Some "xor"
        | IntAdd _ _ | IntSub _ _ => Some "arith"
        | IntSLess | IntLess => Some "cmp"
        | _ => None
        end
    | Phi _ => None
    end.

(** The observations of block [bid], numbered from [next_id]. *)
Definition observe_block (next_id bid : nat) block : list Observation :=
  imap (λ i '(k, v), mkObservation (next_id + i) bid k (if (v =? 0)%Z then None else Some v) i)
    (omap (λ op, k ← surface_kind op; Some (k, va op)) (sb_ops block)).

Definition classify_terminator block (succ : list nat) : Terminator.t :=
  let has f := has_pcode f block in
  if has (λ p, match p with Return => true | _ => false end) then Terminator.Return
  else if has (λ p, match p with BranchInd _ => true | _ => false end) && bool_decide (2 ≤ length succ)
  then Terminator.Switch succ
  else
    match has (λ p, match p with CBranch => true | _ => false end), succ with
    | true, f :: t :: _ => Terminator.Branch "cond" f t
    | _, [t] => Terminator.Jump t
    | _, [] => Terminator.Unreachable
    | _, _ => Terminator.Switch succ
    end.

Definition is_cookie_like block : bool :=
  let has f := has_pcode f block in
  negb (has (λ p, match p with Call _ | CallInd _ => true | _ => false end))
  && has (λ p, match p with IntXor => true | _ => false end)
  && has (λ p, match p with Load _ => true | _ => false end)
  && bool_decide (length (sb_ops block) ≤ 12).

Definition is_exception_like block : bool :=
  has_pcode (λ p, match p with BranchInd _ => true | _ => false end) block
  && bool_decide (4 ≤ length (successor_ids block)).

Definition sem_successors (architectural_cfg : bool) ssa : list (list nat) :=
  map (λ raw, ascending (list_to_set
         (if architectural_cfg then map (λ s, resolve_jump_target ssa s 16) raw else raw)))
    (adj_from_ssa ssa).1.

Definition sem_predecessors (n : nat) (succ : list (list nat)) : list (list nat) :=
  map (λ b, ascending (list_to_set (omap (λ '(i, ss), if decide (b ∈ ss) then Some i else None)
                                     (imap pair succ))))
    (seq 0 n).

(** One block of the loop; the accumulator is the observations so far and
    [by_block]. *)
Definition observe (acc : list Observation * gmap nat (list nat)) (ib : nat * SsaBlock)
    : list Observation * gmap nat (list nat) :=
  let new := observe_block (length acc.1) ib.1 ib.2 in
  (acc.1 ++ new, match new with [] => acc.2 | _ => <[ib.1 := map obs_id new]> acc.2 end).

Definition blocks_where (f : SsaBlock → bool) ssa : gset nat :=
  list_to_set (omap (λ '(i, b), if f b then Some i else None) (imap pair (blocks ssa))).

Definition exit_tag (return_ops : list string) (has_return : bool) : string :=
  if decide ("xor" ∈ return_ops) then "xor"
  else if decide ("cmp" ∈ return_ops) then "arg_select"
  else if decide ("arith" ∈ return_ops) then "arith"
  else if has_return then "return" else "none".

Definition surface_return op : bool :=
  match surface_kind op with Some ObservationKind.Return => true | _ => false end.

Definition build (architectural_cfg : bool) ssa : SemanticModel :=
  let n := length (blocks ssa) in
  let succ := sem_successors architectural_cfg ssa in
  let '(observations, by_block) := foldl observe ([], ∅) (imap pair (blocks ssa)) in
  let ops := concat (map sb_ops (blocks ssa)) in
  let has_return := existsb surface_return ops in
  mkSemantic n 0 succ (sem_predecessors n succ) (zip_with classify_terminator (blocks ssa) succ)
    observations by_block (blocks_where is_cookie_like ssa) (blocks_where is_exception_like ssa)
    (mkExitClass (exit_tag (omap return_op ops) has_return) has_return).

Definition from_raw_pcode ssa : SemanticModel := build true ssa.
Definition from_ssa ssa : SemanticModel := from_raw_pcode ssa.
End semantic.

Definition block_observations (m : SemanticModel) (b : nat) : list Observation :=
  match by_block m !! b with
  | Some ids => omap (λ id, List.find (λ o, bool_decide (obs_id o = id)) (observations m)) ids
  | None => []
  end.

Definition critical_effects (m : SemanticModel) : list Observation :=
  filter (λ o, is_critical (obs_kind o)) (observations m).

(** ** Consistency *)

Section semantic_facts.
Context {P : Type} `{PcodeView P}.
Variable ssa : SsaFunction P.
Implicit Types (block : SsaBlock P).

Lemma observe_block_kinds next_id bid block :
  map obs_kind (observe_block next_id bid block) = omap surface_kind (sb_ops block).
Proof.
  unfold observe_block.
  transitivity (map fst (omap (λ op, k ← surface_kind op; Some (k, va op)) (sb_ops block))).
  - generalize (omap (λ op, k ← surface_kind op; Some (k, va op)) (sb_ops block)) as l.
    intros l. generalize next_id as n. intros n.
    cut (∀ j, map obs_kind (imap (λ i '(k, v), mkObservation (n + (j + i)) bid k
                (if (v =? 0)%Z then None else Some v) (j + i)) l) = map fst l); [intros E; apply (E 0)|].
    induction l as [|[k v] l IH]; intros j; cbn; [done|]. f_equal.
    rewrite <-(IH (S j)). f_equal. apply imap_ext. intros i [k' v'] _. cbn. by rewrite Nat.add_succ_r.
  - induction (sb_ops block) as [|op l IH]; cbn; [done|]. destruct (surface_kind op); cbn; by rewrite IH.
Qed.
Lemma observe_block_lookup next_id bid block i o :
  observe_block next_id bid block !! i = Some o → obs_id o = next_id + i ∧ obs_block o = bid ∧ ordinal o = i.
Proof.
  unfold observe_block. rewrite list_lookup_imap. by intros ([k v] & _ & ->)%fmap_Some.
Qed.

(** The observations of the blocks before [b], and what [by_block] holds then. *)
Definition observed (acc : list Observation * gmap nat (list nat)) (b : nat) : Prop :=
  map obs_kind acc.1 = omap surface_kind (concat (map sb_ops (take b (blocks ssa)))) ∧
  (∀ i o, acc.1 !! i = Some o → obs_id o = i ∧ obs_block o < b) ∧
  (∀ c, from_option id [] (acc.2 !! c) = map obs_id (filter (λ o, obs_block o = c) acc.1)).

Lemma filter_same_block (l : list Observation) b c :
  Forall (λ o, obs_block o = b) l → filter (λ o, obs_block o = c) l = if decide (c = b) then l else [].
Proof.
  induction 1 as [|o l E _ IH]; [by case_decide|]. rewrite filter_cons, IH, E.
  destruct (decide (c = b)) as [->|N]; [by rewrite !decide_True|by rewrite decide_False by congruence].
Qed.

Lemma observe_step acc b block :
  blocks ssa !! b = Some block → observed acc b → observed (observe acc (b, block)) (S b).
Proof.
  intros Hb (K & Id & By). set (new := observe_block (length acc.1) b block).
  assert (Forall (λ o, obs_block o = b) new) as Nb.
  { apply Forall_lookup. intros i o Ho. by apply observe_block_lookup in Ho as (_ & ? & _). }
  assert ((observe acc (b, block)).1 = acc.1 ++ new) as E1 by done.
  assert (filter (λ o, obs_block o = b) acc.1 = []) as Fb.
  { clear -Id. assert (Forall (λ o, obs_block o ≠ b) acc.1) as F.
    { apply Forall_lookup. intros i o Ho. apply Id in Ho. lia. }
    clear Id. induction F as [|o l N _ IH]; [done|]. rewrite filter_cons_False by done. exact IH. }
  split; [|split].
  - rewrite E1, map_app, K. erewrite take_S_r by done.
    rewrite map_app, concat_app, omap_app. cbn. rewrite app_nil_r. f_equal. apply observe_block_kinds.
  - rewrite E1. intros i o [Ho|[L Ho]]%lookup_app_Some; [apply Id in Ho; lia|].
    apply observe_block_lookup in Ho as (? & ? & _). lia.
  - intros c. rewrite E1, filter_app, map_app, <-By, (filter_same_block new b c Nb).
    unfold observe. cbn [fst snd]. fold new. destruct (decide (c = b)) as [->|N].
    + assert (from_option id [] (acc.2 !! b) = []) as Z by by rewrite By, Fb.
      destruct new; [by rewrite Z|]. by rewrite lookup_insert_eq, Z.
    + rewrite app_nil_r. destruct new; [done|]. by rewrite lookup_insert_ne by done.
Qed.

Lemma observe_all :
  observed (foldl observe ([], ∅) (imap pair (blocks ssa))) (length (blocks ssa)).
Proof.
  cut (∀ l b acc, drop b (blocks ssa) = l → observed acc b →
    observed (foldl observe acc (imap (λ i x, (b + i, x)) l)) (b + length l)).
  - intros G. apply (G (blocks ssa) 0); [done|]. split_and!; [done|done|]. done.
  - induction l as [|block l IH]; intros b acc D O; cbn; [by rewrite Nat.add_0_r|].
    assert (blocks ssa !! b = Some block) as Hb.
    { rewrite <-(Nat.add_0_r b), <-lookup_drop, D. done. }
    rewrite Nat.add_succ_r, <-Nat.add_succ_l, Nat.add_0_r.
    rewrite (imap_ext _ (λ i x, (S b + i, x))) by (intros; cbn; by rewrite Nat.add_succ_r).
    apply IH; [|by apply observe_step]. by rewrite <-Nat.add_1_r, <-drop_drop, D.
Qed.

Lemma find_by_id (obs : list Observation) o :
  (∀ i o, obs !! i = Some o → obs_id o = i ∧ obs_block o < length (blocks ssa)) → o ∈ obs →
  List.find (λ o', bool_decide (obs_id o' = obs_id o)) obs = Some o.
Proof.
  intros Id Ho. destruct (List.find _ obs) as [o'|] eqn:E.
  - apply List.find_some in E as [Ho' Eq%bool_decide_eq_true].
    apply list_elem_of_In, list_elem_of_lookup in Ho' as [j Hj].
    apply list_elem_of_lookup in Ho as [i Hi].
    destruct (Id _ _ Hj) as [<- _]. destruct (Id _ _ Hi) as [<- _]. congruence.
  - apply List.find_none with (x := o) in E; [|by apply list_elem_of_In].
    by rewrite bool_decide_true in E.
Qed.

(** C21: the semantic model agrees with the function and with itself. It has a
    list of successors, of predecessors and a terminator per block; successors
    are ascending, and predecessors their inverse; the observations are the
    surface effects of all operations in order, numbered consecutively; each
    block's observations are those with its number; and a return is recorded
    exactly when one is observed. *)
Theorem semantic_model_consistent :
  let m := from_raw_pcode ssa in
  let n := length (blocks ssa) in
  (length (sem_succ m) = n ∧ length (sem_pred m) = n ∧ length (terminators m) = n) ∧
  (∀ b ss, sem_succ m !! b = Some ss → StronglySorted lt ss) ∧
  (∀ t ps b, sem_pred m !! t = Some ps → b ∈ ps ↔ ∃ ss, sem_succ m !! b = Some ss ∧ t ∈ ss) ∧
  map obs_kind (observations m) = omap surface_kind (concat (map sb_ops (blocks ssa))) ∧
  (∀ i o, observations m !! i = Some o → obs_id o = i ∧ obs_block o < n) ∧
  (∀ b, block_observations m b = filter (λ o, obs_block o = b) (observations m)) ∧
  (has_return (exit_class m) = true ↔ ObservationKind.Return ∈ map obs_kind (observations m)).
Proof.
  cbn zeta. unfold from_raw_pcode, build. pose proof observe_all as (K & Id & By).
  rewrite take_ge in K by lia.
  destruct (foldl observe _ _) as [obs byb]. cbn [fst snd] in *. cbn [sem_succ sem_pred terminators observations exit_class has_return].
  assert (length (sem_successors true ssa) = length (blocks ssa)) as Ls.
  { unfold sem_successors, adj_from_ssa. cbn. by rewrite !length_map. }
  split_and!; try done.
  - unfold sem_predecessors. by rewrite length_map, length_seq.
  - rewrite length_zip_with, Ls. lia.
  - intros b ss Hs. unfold sem_successors in Hs. rewrite list_lookup_fmap in Hs. apply fmap_Some in Hs as (raw & _ & ->).
    apply ascending_sorted.
  - intros t ps b Hp. unfold sem_predecessors in Hp. rewrite list_lookup_fmap in Hp. apply fmap_Some in Hp as (t' & Ht & ->).
    apply lookup_seq in Ht as [-> _]. rewrite elem_of_ascending, elem_of_list_to_set, list_elem_of_omap.
    split.
    + intros ([i ss] & Hi & E). case_decide; [|done]. simplify_eq. exists ss. split; [|done].
      apply list_elem_of_lookup in Hi as [j Hj]. rewrite list_lookup_imap in Hj.
      apply fmap_Some in Hj as (x & Hx & [= -> ->]). done.
    + intros (ss & Hs & Hin). exists (b, ss). rewrite decide_True by done. split; [|done].
      apply list_elem_of_lookup. exists b. by rewrite list_lookup_imap, Hs.
  - intros b. unfold block_observations. cbn [by_block observations]. specialize (By b).
    destruct (byb !! b) as [ids|]; cbn in By; [|by destruct (filter _ _)].
    rewrite By. clear By. set (l := filter _ obs).
    assert (∀ o, o ∈ l → List.find (λ o', bool_decide (obs_id o' = obs_id o)) obs = Some o) as F.
    { intros o [_ Ho]%list_elem_of_filter. by apply find_by_id. }
    induction l as [|o l IH]; cbn; [done|]. rewrite F by by left. f_equal. apply IH. intros. apply F. by right.
  - rewrite K. split.
    + intros (op & Hop & R)%existsb_exists. apply list_elem_of_omap. exists op.
      split; [by apply list_elem_of_In|]. unfold surface_return in R. by destruct (surface_kind op) as [[]|].
    + intros (op & Hop & R)%list_elem_of_omap. apply existsb_exists. exists op.
      split; [by apply list_elem_of_In|]. unfold surface_return. by rewrite R.
Qed.
End semantic_facts.
