(* ===== verification/Ast.v ===== *)
(** The typed AST of decompiler/v2/ast.rs, the contracts of contracts.rs that
    ride with it, and the printer of print_ast.rs. *)

From stdpp Require Import pretty.
From Stdlib Require Import Strings.Ascii Strings.String.
From S2P Require Import Prelude Activity.

(** ** Expressions and statements *)

Module Expr.
Inductive t :=
  | Name (name : string)
  | Int (value bits : Z)
  | UInt (value bits : Z)
  | BinOp (op : string) (lhs rhs : t)
  | UnaryOp (op : string) (arg : t)
  | Cast (ty : string) (arg : t)
  | Call (target : string) (args : list t)
  | Load (addr : t)
  | Select (cond then_e else_e : t)
  | Compare (op : string) (lhs rhs : t).
End Expr.

(** A case: the values it answers and its body. *)
Record SwitchCaseOf (S : Type) := mkCase { values : list Z; case_body : list S }.
Arguments mkCase {S}.
Arguments values {S}.
Arguments case_body {S}.

Module Stmt.
Inductive t :=
  | Label (name : string)
  | Goto (target : string)
  | Return (expr : option Expr.t)
  | Assign (dest : string) (expr : Expr.t)
  | Expr (expr : Expr.t)
  | If (cond : Expr.t) (then_body else_body : list t)
  | While (cond : Expr.t) (body : list t)
  | Switch (scrutinee : Expr.t) (cases : list (SwitchCaseOf t)) (default_body : list t)
  | Break
  | Continue
  | Comment (text : string)
  | RawBlock (text : string).
End Stmt.
Notation SwitchCase := (SwitchCaseOf Stmt.t).

Record TypedAst := mkAst { ast_name : string; params : list string; ret_ty : string; body : list Stmt.t }.

Definition empty_function (name : string) : TypedAst := mkAst name [] "uint64" [].

(** ** contracts.rs *)

Record LoopContractV2 := mkLoop { loop_kind : string; body_depth : Z; multi_exit : bool }.
Record CaseContractV2 := mkCaseContract {
  case_count : nat;
  has_default : bool;
  labels : list Z;
  case_source : string
}.
Record ReturnExitContract := mkExit { exit_block_id : nat; value_class : string }.
Record ContractBundle := mkContracts {
  loops : list LoopContractV2;
  bundle_cases : list CaseContractV2;
  return_class : string;
  bundle_has_return : bool;
  return_exits : list ReturnExitContract
}.

Definition bool_u8 (b : bool) : string := if b then "1" else "0".
Definition debug_labels (l : list Z) : string := "[" +:+ join ", " (map pretty l) +:+ "]".

Definition fingerprint (c : ContractBundle) : string :=
  join "|"
    (["loops=" +:+ pretty (length (loops c))]
     ++ map (λ l, "L:" +:+ loop_kind l +:+ ":d" +:+ pretty (body_depth l) +:+ ":m" +:+ bool_u8 (multi_exit l))
          (loops c)
     ++ ["ret:" +:+ return_class c; "cases=" +:+ pretty (length (bundle_cases c))]
     ++ map (λ x, "C:" +:+ pretty (case_count x) +:+ ":def" +:+ bool_u8 (has_default x) +:+ ":"
                  +:+ debug_labels (labels x)) (bundle_cases c)).

(** ** Candidates *)

Record CoverageMaps := mkCoverage { edges : list string; effects : list string }.
Record TypedAstCandidate := mkCandidate {
  ast : TypedAst;
  coverage : CoverageMaps;
  residual_edges : nat;
  case_partitions : list CaseContractV2;
  cost : Z;
  nesting : Z;
  hit_cap : bool
}.

(** [c.ast.body = body], and the other counters of a candidate. *)
Definition with_body (b : list Stmt.t) (c : TypedAstCandidate) : TypedAstCandidate :=
  mkCandidate (mkAst (ast_name (ast c)) (params (ast c)) (ret_ty (ast c)) b) (coverage c)
    (residual_edges c) (case_partitions c) (cost c) (nesting c) (hit_cap c).
Definition with_score (residual : nat) (cost nesting : Z) (c : TypedAstCandidate) : TypedAstCandidate :=
  mkCandidate (ast c) (coverage c) residual (case_partitions c) cost nesting (hit_cap c).
Definition with_cap (hit : bool) (c : TypedAstCandidate) : TypedAstCandidate :=
  mkCandidate (ast c) (coverage c) (residual_edges c) (case_partitions c) (cost c) (nesting c) hit.

(** [i32::saturating_sub] *)
Definition i32_sub (a b : Z) : Z := (Z.max (- 2 ^ 31) (Z.min (2 ^ 31 - 1) (a - b)))%Z.

(** ** print_ast.rs *)

Definition bin_bp (op : string) : nat :=
  if decide (op ∈ ["*"; "/"; "%"]) then 11
  else if decide (op ∈ ["+"; "-"]) then 10
  else if decide (op ∈ ["<<"; ">>"]) then 9
  else if decide (op = "&") then 6
  else if decide (op = "^") then 5
  else if decide (op = "|") then 4
  else if decide (op = "&&") then 3
  else if decide (op = "||") then 2
  else 8.

Definition paren_if (s : string) (need : bool) : string := if need then "(" +:+ s +:+ ")" else s.

Definition below (a b : nat) : bool := bool_decide (a < b).

Fixpoint print_expr (e : Expr.t) (parent_bp : nat) : string :=
  match e with
  | Expr.Name name => name
  | Expr.Int value _ =>
      if (value <? 0)%Z then "-" +:+ alt_hex (- value) else alt_hex value
  | Expr.UInt value _ => alt_hex value
  | Expr.BinOp op lhs rhs =>
      let bp := bin_bp op in
      paren_if (print_expr lhs bp +:+ " " +:+ op +:+ " " +:+ print_expr rhs (bp + 1)) (below bp parent_bp)
  | Expr.UnaryOp op arg => paren_if (op +:+ print_expr arg 14) (below 14 parent_bp)
  | Expr.Cast ty arg => "(" +:+ ty +:+ ")" +:+ print_expr arg 14
  | Expr.Call target args =>
      target +:+ "(" +:+ join ", " (map (λ x, print_expr x 0) args) +:+ ")"
  | Expr.Load addr => "*(" +:+ print_expr addr 0 +:+ ")"
  | Expr.Select cond then_e else_e =>
      paren_if (print_expr cond 3 +:+ " ? " +:+ print_expr then_e 3 +:+ " : " +:+ print_expr else_e 2)
        (below 2 parent_bp)
  | Expr.Compare op lhs rhs =>
      paren_if (print_expr lhs 7 +:+ " " +:+ op +:+ " " +:+ print_expr rhs 8) (below 7 parent_bp)
  end.

(** [" ".repeat(n)] *)
Fixpoint ind (n : nat) : string := match n with 0 => "" | S n => " " +:+ ind n end.
Definition newline : string := String (ascii_of_nat 10) EmptyString.
Definition line (i text : string) : string := i +:+ text +:+ newline.

Fixpoint print_stmt (s : Stmt.t) (depth : nat) : string :=
  let i := ind depth in
  let print_stmts := λ l, foldr (λ s text, print_stmt s (depth + 1) +:+ text) "" l in
  match s with
  | Stmt.Label name => line "" (name +:+ ":")
  | Stmt.Goto target => line i ("goto " +:+ target +:+ ";")
  | Stmt.Return (Some e) => line i ("return " +:+ print_expr e 0 +:+ ";")
  | Stmt.Return None => line i "return;"
  | Stmt.Assign dest expr => line i (dest +:+ " = " +:+ print_expr expr 0 +:+ ";")
  | Stmt.Expr expr => line i (print_expr expr 0 +:+ ";")
  | Stmt.If cond then_body else_body =>
      line i ("if (" +:+ print_expr cond 0 +:+ ") {") +:+ print_stmts then_body +:+
      match else_body with
      | [] => line i "}"
      | _ => line i "} else {" +:+ print_stmts else_body +:+ line i "}"
      end
  | Stmt.While cond body =>
      line i ("while (" +:+ print_expr cond 0 +:+ ") {") +:+ print_stmts body +:+ line i "}"
  | Stmt.Switch scrutinee cases default_body =>
      line i ("switch (" +:+ print_expr scrutinee 0 +:+ ") {") +:+
      foldr (λ c text, foldr (λ v text, line i (" case " +:+ pretty v +:+ ":") +:+ text) "" (values c)
                       +:+ print_stmts (case_body c) +:+ text) "" cases +:+
      match default_body with
      | [] => ""
      | _ => line i " default:" +:+ print_stmts default_body
      end +:+ line i "}"
  | Stmt.Break => line i "break;"
  | Stmt.Continue => line i "continue;"
  | Stmt.Comment text => line i ("/* " +:+ text +:+ " */")
  | Stmt.RawBlock _ => line i "/* residual:raw_block_rejected */"
  end.

Definition print_stmts (l : list Stmt.t) (depth : nat) : string :=
  foldr (λ s text, print_stmt s depth +:+ text) "" l.

Definition print_typed_ast (a : TypedAst) : string :=
  line "" (ret_ty a +:+ " " +:+ ast_name a +:+ "(" +:+ join ", " (params a) +:+ ") {")
  +:+ print_stmts (body a) 1 +:+ line "" "}".

(** ** ssa_expr.rs *)

(** [expr_class_tag] *)
Definition expr_class_tag (e : Expr.t) : string :=
  match e with
  | Expr.UInt value _ => "const:" +:+ alt_hex value
  | Expr.Int value _ => "const:" +:+ pretty value
  | Expr.Compare op _ _ => "compare:" +:+ op
  | Expr.BinOp op _ _ => "binop:" +:+ op
  | Expr.UnaryOp op _ => "unary:" +:+ op
  | Expr.Select _ _ _ => "select"
  | Expr.Call _ _ => "call"
  | Expr.Load _ => "load"
  | Expr.Cast _ _ => "cast"
  | Expr.Name _ => "name"
  end.

Example print_sample :
  print_expr (Expr.Select (Expr.Compare "<" (Expr.Name "a") (Expr.Name "b"))
                (Expr.Int 1 32) (Expr.BinOp "+" (Expr.Int (-5) 32) (Expr.Name "x"))) 0
  = "a < b ? 0x1 : -0x5 + x".
Proof. reflexivity. Qed.
