(* ===== verification/AstSem.v ===== *)
(** What a typed AST means: the C the printer prints, run statement by statement
    with a continuation, observed through its actions. The reference semantics
    the extraction of candidates is compared with. Then labels and the search
    for them: a label that is not there is not found, one that is there is
    found, and statements related one by one are searched alike. *)

From S2P Require Import Prelude Ast.

(** ** Traces of labelled transition systems *)

Section traces.
Context {S A : Type}.
Variable step : S → option A → S → Prop.

(** The finite prefixes of what a state can do. *)
Inductive traces : S → list A → Prop :=
  | traces_nil s : traces s []
  | traces_step s o s' tr : step s o s' → traces s' tr → traces s (option_list o ++ tr).

(** Steps without an action, then one with it (or none). *)
Inductive weak : S → option A → S → Prop :=
  | weak_refl s : weak s None s
  | weak_last s o s' : step s o s' → weak s o s'
  | weak_silent s o s' s'' : step s None s' → weak s' o s'' → weak s o s''.

Lemma weak_traces s o s' tr : weak s o s' → traces s' tr → traces s (option_list o ++ tr).
Proof.
  induction 1 as [|s o s' St|s o s' s'' St _ IH]; intros T; [done|by eapply traces_step|].
  apply (traces_step s None s'); auto.
Qed.
End traces.

(** A relation every step of the first system keeps by steps of the second. *)
Section simulation.
Context {S T A : Type}.
Variable step1 : S → option A → S → Prop.
Variable step2 : T → option A → T → Prop.
Variable R : S → T → Prop.

Definition simulates : Prop :=
  ∀ s t o s', R s t → step1 s o s' → ∃ t', weak step2 t o t' ∧ R s' t'.

Lemma simulates_traces s t tr : simulates → R s t → traces step1 s tr → traces step2 t tr.
Proof.
  intros Sim HR Tr. revert t HR. induction Tr as [s|s o s' tr St Tr IH]; intros t HR; [constructor|].
  destruct (Sim s t o s' HR St) as (t' & W & HR'). eapply weak_traces; eauto.
Qed.
End simulation.

(** Two readings of the same steps. *)
Lemma traces_relabelled {S A B} (step1 : S → option A → S → Prop) (step2 : S → option B → S → Prop)
    (D : A → B → Prop) :
  (∀ s o s', step1 s o s' → ∃ e, step2 s e s' ∧ option_Forall2 D o e) →
  ∀ s tr, traces step1 s tr → ∃ tr', traces step2 s tr' ∧ Forall2 D tr tr'.
Proof.
  intros L s tr Tr. induction Tr as [s|s o s' tr St Tr (tr' & Tr' & F)].
  - exists []. split; constructor.
  - destruct (L _ _ _ St) as (e & St' & De). exists (option_list e ++ tr').
    split; [by eapply traces_step|]. apply Forall2_app; [|done]. destruct De; repeat constructor; done.
Qed.

(** ** Configurations *)

Inductive Action :=
  | Do (e : Expr.t)
  | Set_ (dest : string) (e : Expr.t)
  | Ret (e : option Expr.t)
  | Test (e : Expr.t) (v : Z).

(** What follows the statements at hand: statements, the loop they are the body
    of, the end of the switch they are in. *)
Inductive Kont :=
  | KStop
  | KSeq (l : list Stmt.t) (k : Kont)
  | KLoop (cond : Expr.t) (body : list Stmt.t) (k : Kont)
  | KSwitch (k : Kont).

Inductive Config := Running (l : list Stmt.t) (k : Kont) | Finished.

(** ** Labels *)

Definition case_bodies (cases : list SwitchCase) : list Stmt.t := concat (map case_body cases).

(** The statement after label [name], looked for in [s], which is followed by
    [rest] and [k]; a case runs into the ones after it. *)
Fixpoint find_stmt (name : string) (s : Stmt.t) (rest : list Stmt.t) (k : Kont) {struct s}
    : option (list Stmt.t * Kont) :=
  let find_list := fix find_list (l follow : list Stmt.t) (k : Kont) {struct l} :=
    match l with
    | [] => None
    | s :: l =>
        match find_stmt name s (l ++ follow) k with Some r => Some r | None => find_list l follow k end
    end in
  match s with
  | Stmt.Label n => if decide (n = name) then Some (rest, k) else None
  | Stmt.If _ a b =>
      match find_list a [] (KSeq rest k) with
      | Some r => Some r
      | None => find_list b [] (KSeq rest k)
      end
  | Stmt.While c b => find_list b [] (KLoop c b (KSeq rest k))
  | Stmt.Switch _ cases d =>
      (fix find_cases (l : list SwitchCase) :=
         match l with
         | [] => find_list d [] (KSwitch (KSeq rest k))
         | c :: l =>
             match find_list (case_body c) (case_bodies l ++ d) (KSwitch (KSeq rest k)) with
             | Some r => Some r
             | None => find_cases l
             end
         end) cases
  | _ => None
  end.

Fixpoint find_list (name : string) (l follow : list Stmt.t) (k : Kont) : option (list Stmt.t * Kont) :=
  match l with
  | [] => None
  | s :: l =>
      match find_stmt name s (l ++ follow) k with Some r => Some r | None => find_list name l follow k end
  end.

(** ** Steps *)

(** The condition that is observed, and what it decides when its value is [v];
    constants are not observed. *)
Fixpoint branch (c : Expr.t) (v : Z) : option Expr.t * bool :=
  match c with
  | Expr.Int n _ | Expr.UInt n _ => (None, negb (n =? 0)%Z)
  | Expr.UnaryOp op a =>
      if decide (op = "!") then let '(o, b) := branch a v in (o, negb b) else (Some c, negb (v =? 0)%Z)
  | _ => (Some c, negb (v =? 0)%Z)
  end.

Definition observed (c : Expr.t) (v : Z) : option Action := (λ e, Test e v) <$> (branch c v).1.

(** The statements a switch goes on with: from the first case that answers [v],
    or the default. *)
Fixpoint case_entry (v : Z) (cases : list SwitchCase) (default_body : list Stmt.t) : list Stmt.t :=
  match cases with
  | [] => default_body
  | c :: l =>
      if decide (v ∈ values c) then case_body c ++ case_bodies l ++ default_body
      else case_entry v l default_body
  end.

Fixpoint break_to (k : Kont) : option Kont :=
  match k with
  | KStop => None
  | KSeq _ k => break_to k
  | KLoop _ _ k | KSwitch k => Some k
  end.
Fixpoint continue_to (k : Kont) : option (list Stmt.t * Kont) :=
  match k with
  | KStop => None
  | KSeq _ k | KSwitch k => continue_to k
  | KLoop c b k => Some ([Stmt.While c b], k)
  end.

Definition resume (x : list Stmt.t * Kont) : Config := Running x.1 x.2.

(** One step of the function with body [root]; [v] is the value of the
    condition, should the step test one. *)
Definition step (root : list Stmt.t) (v : Z) (c : Config) : option (option Action * Config) :=
  match c with
  | Finished => None
  | Running [] k =>
      Some (None, match k with
                  | KStop => Finished
                  | KSeq l k => Running l k
                  | KLoop c b k => Running [Stmt.While c b] k
                  | KSwitch k => Running [] k
                  end)
  | Running (s :: l) k =>
      match s with
      | Stmt.Label _ | Stmt.Comment _ | Stmt.RawBlock _ => Some (None, Running l k)
      | Stmt.Goto name => r ← find_list name root [] KStop; Some (None, resume r)
      | Stmt.Return e => Some (Some (Ret e), Finished)
      | Stmt.Assign dest e => Some (Some (Set_ dest e), Running l k)
      | Stmt.Expr e => Some (Some (Do e), Running l k)
      | Stmt.If c a b => Some (observed c v, Running (if (branch c v).2 then a else b) (KSeq l k))
      | Stmt.While c b =>
          Some (observed c v, if (branch c v).2 then Running b (KLoop c b (KSeq l k)) else Running l k)
      | Stmt.Switch e cases d =>
          Some (Some (Test e v), Running (case_entry v cases d) (KSwitch (KSeq l k)))
      | Stmt.Break => k ← break_to k; Some (None, Running [] k)
      | Stmt.Continue => r ← continue_to k; Some (None, resume r)
      end
  end.

Definition steps_to (root : list Stmt.t) (c : Config) (o : option Action) (c' : Config) : Prop :=
  ∃ v, step root v c = Some (o, c').
Definition start (root : list Stmt.t) : Config := Running root KStop.
Definition ast_traces (root : list Stmt.t) : list Action → Prop := traces (steps_to root) (start root).

(** What the function does when its tests give the values [vs] in turn. *)
Fixpoint run (fuel : nat) (root : list Stmt.t) (vs : list Z) (c : Config) : list Action :=
  match fuel with
  | 0 => []
  | S fuel =>
      match step root (default 0%Z (head vs)) c with
      | None => []
      | Some (o, c) =>
          option_list o ++ run fuel root (match o with Some (Test _ _) => tail vs | _ => vs end) c
      end
  end.
Lemma run_traces fuel root vs c : traces (steps_to root) c (run fuel root vs c).
Proof.
  revert vs c. induction fuel as [|fuel IH]; intros vs c; cbn; [constructor|].
  destruct (step _ _ c) as [[o c']|] eqn:E; [|constructor].
  eapply traces_step; [by eexists|apply IH].
Qed.

(** ** Labels of statements *)

Fixpoint stmt_labels (s : Stmt.t) : list string :=
  let list_labels := fix list_labels (l : list Stmt.t) :=
    match l with [] => [] | s :: l => stmt_labels s ++ list_labels l end in
  match s with
  | Stmt.Label n => [n]
  | Stmt.If _ a b => list_labels a ++ list_labels b
  | Stmt.While _ b => list_labels b
  | Stmt.Switch _ cases d =>
      (fix cases_labels (l : list SwitchCase) :=
         match l with [] => list_labels d | c :: l => list_labels (case_body c) ++ cases_labels l end) cases
  | _ => []
  end.
Fixpoint list_labels (l : list Stmt.t) : list string :=
  match l with [] => [] | s :: l => stmt_labels s ++ list_labels l end.

(** Induction over statements and the lists in them. *)
Section stmt_ind.
Variable Ps : Stmt.t → Prop.
Variable Pl : list Stmt.t → Prop.
Hypothesis nil_case : Pl [].
Hypothesis cons_case : ∀ s l, Ps s → Pl l → Pl (s :: l).
Hypothesis leaf_case : ∀ s,
  match s with Stmt.If _ _ _ | Stmt.While _ _ | Stmt.Switch _ _ _ => True | _ => Ps s end.
Hypothesis if_case : ∀ c a b, Pl a → Pl b → Ps (Stmt.If c a b).
Hypothesis while_case : ∀ c b, Pl b → Ps (Stmt.While c b).
Hypothesis switch_case : ∀ e cases d,
  Forall (λ c, Pl (case_body c)) cases → Pl d → Ps (Stmt.Switch e cases d).

Fixpoint stmt_rec' (s : Stmt.t) : Ps s :=
  let list_rec := fix list_rec (l : list Stmt.t) : Pl l :=
    match l with [] => nil_case | s :: l => cons_case s l (stmt_rec' s) (list_rec l) end in
  match s with
  | Stmt.If c a b => if_case c a b (list_rec a) (list_rec b)
  | Stmt.While c b => while_case c b (list_rec b)
  | Stmt.Switch e cases d =>
      switch_case e cases d
        ((fix cases_rec (l : list SwitchCase) : Forall (λ c, Pl (case_body c)) l :=
            match l with
            | [] => List.Forall_nil _
            | c :: l => List.Forall_cons _ c l (list_rec (case_body c)) (cases_rec l)
            end) cases)
        (list_rec d)
  | Stmt.Label n => leaf_case (Stmt.Label n)
  | Stmt.Goto n => leaf_case (Stmt.Goto n)
  | Stmt.Return e => leaf_case (Stmt.Return e)
  | Stmt.Assign d e => leaf_case (Stmt.Assign d e)
  | Stmt.Expr e => leaf_case (Stmt.Expr e)
  | Stmt.Break => leaf_case Stmt.Break
  | Stmt.Continue => leaf_case Stmt.Continue
  | Stmt.Comment x => leaf_case (Stmt.Comment x)
  | Stmt.RawBlock x => leaf_case (Stmt.RawBlock x)
  end.
Lemma stmts_ind l : Pl l.
Proof. induction l as [|s l IH]; [exact nil_case|apply cons_case; [apply stmt_rec'|exact IH]]. Qed.
End stmt_ind.

Lemma list_labels_app l1 l2 : list_labels (l1 ++ l2) = list_labels l1 ++ list_labels l2.
Proof. induction l1 as [|s l1 IH]; cbn; [done|]. by rewrite IH, app_assoc. Qed.

(** The nested searches of [find_stmt] and [stmt_labels] are [find_list] and
    [list_labels]. *)
Lemma labels_nested l :
  (fix go (l : list Stmt.t) := match l with [] => [] | s :: l => stmt_labels s ++ go l end) l = list_labels l.
Proof. by induction l as [|s l IH]; cbn; [|rewrite IH]. Qed.

Definition cases_labels (cases : list SwitchCase) : list string :=
  list_labels (concat (map case_body cases)).

Lemma stmt_labels_if c a b : stmt_labels (Stmt.If c a b) = list_labels a ++ list_labels b.
Proof. cbn. by rewrite !labels_nested. Qed.
Lemma stmt_labels_while c b : stmt_labels (Stmt.While c b) = list_labels b.
Proof. cbn. by rewrite !labels_nested. Qed.
Lemma stmt_labels_switch e cases d :
  stmt_labels (Stmt.Switch e cases d) = cases_labels cases ++ list_labels d.
Proof.
  cbn. unfold cases_labels. induction cases as [|c l IH]; cbn; [by rewrite labels_nested|].
  by rewrite labels_nested, IH, list_labels_app, app_assoc.
Qed.

Section find.
Variable name : string.

Fixpoint find_cases (l : list SwitchCase) (d : list Stmt.t) (k : Kont) : option (list Stmt.t * Kont) :=
  match l with
  | [] => find_list name d [] k
  | c :: l =>
      match find_list name (case_body c) (case_bodies l ++ d) k with
      | Some r => Some r
      | None => find_cases l d k
      end
  end.

Lemma find_nested l follow k :
  (fix go (l follow : list Stmt.t) (k : Kont) {struct l} :=
     match l with
     | [] => None
     | s :: l => match find_stmt name s (l ++ follow) k with Some r => Some r | None => go l follow k end
     end) l follow k = find_list name l follow k.
Proof. induction l as [|s l IH]; cbn; [done|]. by rewrite IH. Qed.

Lemma find_stmt_if c a b rest k :
  find_stmt name (Stmt.If c a b) rest k =
    match find_list name a [] (KSeq rest k) with
    | Some r => Some r
    | None => find_list name b [] (KSeq rest k)
    end.
Proof. cbn. by rewrite !find_nested. Qed.
Lemma find_stmt_while c b rest k :
  find_stmt name (Stmt.While c b) rest k = find_list name b [] (KLoop c b (KSeq rest k)).
Proof. cbn. by rewrite find_nested. Qed.
Lemma find_stmt_switch e cases d rest k :
  find_stmt name (Stmt.Switch e cases d) rest k = find_cases cases d (KSwitch (KSeq rest k)).
Proof.
  cbn. induction cases as [|c l IH]; cbn; [by rewrite find_nested|]. by rewrite find_nested, IH.
Qed.

(** ** What is not there is not found *)

Lemma find_absent_stmt s : name ∉ stmt_labels s → ∀ rest k, find_stmt name s rest k = None.
Proof.
  apply (stmt_rec' (λ s, name ∉ stmt_labels s → ∀ rest k, find_stmt name s rest k = None)
           (λ l, name ∉ list_labels l → ∀ follow k, find_list name l follow k = None)); clear s.
  - done.
  - intros s l IHs IHl [Ns Nl]%not_elem_of_app follow k. cbn. by rewrite IHs, IHl.
  - intros [n|n|e|d e|e| | | | | |t|t]; cbn; try done.
    intros N rest k. case_decide; [subst; set_solver|done].
  - intros c a b IHa IHb N rest k. rewrite stmt_labels_if in N. rewrite find_stmt_if.
    apply not_elem_of_app in N as [Na Nb]. by rewrite IHa, IHb.
  - intros c b IHb N rest k. rewrite stmt_labels_while in N. rewrite find_stmt_while. by apply IHb.
  - intros e cases d IHc IHd N rest k. rewrite stmt_labels_switch in N. rewrite find_stmt_switch.
    generalize (KSwitch (KSeq rest k)) as k'. intros k'. unfold cases_labels in N.
    induction IHc as [|c l Hc _ IH]; cbn in *; [by apply IHd|].
    rewrite list_labels_app, <-app_assoc in N. apply not_elem_of_app in N as [Nc N].
    rewrite Hc by done. by apply IH.
Qed.
Lemma find_absent l follow k : name ∉ list_labels l → find_list name l follow k = None.
Proof.
  revert follow k. induction l as [|s l IH]; intros follow k N; [done|]. cbn in *.
  apply not_elem_of_app in N as [Ns Nl]. rewrite find_absent_stmt by done. by apply IH.
Qed.

Lemma find_app l1 l2 follow k :
  name ∉ list_labels l1 → find_list name (l1 ++ l2) follow k = find_list name l2 follow k.
Proof.
  intros N. induction l1 as [|s l1 IH]; cbn in *; [done|]. apply not_elem_of_app in N as [Ns Nl].
  rewrite find_absent_stmt by done. by apply IH.
Qed.
Lemma find_here l follow k : find_list name (Stmt.Label name :: l) follow k = Some (l ++ follow, k).
Proof. cbn. by rewrite decide_True. Qed.
End find.

(** Leaf statements have no labels. *)
Lemma leaves_no_labels l :
  Forall (λ s, stmt_labels s = []) l → list_labels l = [].
Proof. induction 1 as [|s l E _ IH]; cbn; [done|]. by rewrite E, IH. Qed.

(** ** Related statements are searched and run alike *)

Section related.
(** Statements that correspond, and what the outermost continuation becomes. *)
Variable Rs : Stmt.t → Stmt.t → Prop.
Variable K0 : Kont.
Context `{!Reflexive Rs}.

Inductive kont_related : Kont → Kont → Prop :=
  | kr_stop : kont_related KStop K0
  | kr_seq l l' k k' : Forall2 Rs l l' → kont_related k k' → kont_related (KSeq l k) (KSeq l' k')
  | kr_loop c b k k' : kont_related k k' → kont_related (KLoop c b k) (KLoop c b k')
  | kr_switch k k' : kont_related k k' → kont_related (KSwitch k) (KSwitch k').

Definition place_related (x y : list Stmt.t * Kont) : Prop := Forall2 Rs x.1 y.1 ∧ kont_related x.2 y.2.

Lemma find_same_stmt name s rest rest' k k' :
  Forall2 Rs rest rest' → kont_related k k' →
  option_Forall2 place_related (find_stmt name s rest k) (find_stmt name s rest' k').
Proof.
  revert s rest rest' k k'.
  apply (stmt_rec' (λ s, ∀ rest rest' k k', Forall2 Rs rest rest' → kont_related k k' →
             option_Forall2 place_related (find_stmt name s rest k) (find_stmt name s rest' k'))
           (λ l, ∀ follow follow' k k', Forall2 Rs follow follow' → kont_related k k' →
             option_Forall2 place_related (find_list name l follow k) (find_list name l follow' k'))).
  - constructor.
  - intros s l IHs IHl follow follow' k k' F Kr. cbn.
    assert (Forall2 Rs (l ++ follow) (l ++ follow')) as F' by by apply Forall2_app.
    destruct (IHs _ _ k k' F' Kr); [by constructor|]. by apply IHl.
  - intros [n|n|e|d e|e| | | | | |x|x]; cbn; try done; intros; try constructor.
    case_decide; by constructor.
  - intros c a b IHa IHb rest rest' k k' F Kr. rewrite !find_stmt_if.
    assert (kont_related (KSeq rest k) (KSeq rest' k')) by by constructor.
    destruct (IHa [] [] (KSeq rest k) (KSeq rest' k')); [done..|by constructor|]. by apply IHb.
  - intros c b IHb rest rest' k k' F Kr. rewrite !find_stmt_while. apply IHb; [done|]. by repeat constructor.
  - intros e cases d IHc IHd rest rest' k k' F Kr. rewrite !find_stmt_switch.
    assert (kont_related (KSwitch (KSeq rest k)) (KSwitch (KSeq rest' k'))) as Kr' by by repeat constructor.
    revert Kr'. generalize (KSwitch (KSeq rest k)) (KSwitch (KSeq rest' k')). intros q q' Kr'.
    induction IHc as [|c l Hc _ IH]; cbn; [by apply IHd|].
    destruct (Hc (case_bodies l ++ d) (case_bodies l ++ d) q q'); [done..|by constructor|done].
Qed.
Lemma find_same_list name l follow follow' k k' :
  Forall2 Rs follow follow' → kont_related k k' →
  option_Forall2 place_related (find_list name l follow k) (find_list name l follow' k').
Proof.
  intros F Kr. induction l as [|s l IH]; cbn; [constructor|].
  destruct (find_same_stmt name s (l ++ follow) (l ++ follow') k k'); [by apply Forall2_app|done|by constructor|done].
Qed.

Lemma break_related k k' :
  K0 = KStop → kont_related k k' → option_Forall2 kont_related (break_to k) (break_to k').
Proof. intros E. induction 1; cbn; [rewrite E; constructor|done|by constructor..]. Qed.
Lemma continue_related k k' :
  K0 = KStop → kont_related k k' → option_Forall2 place_related (continue_to k) (continue_to k').
Proof. intros E. induction 1; cbn; [rewrite E; constructor|done|repeat constructor; [done|done]|done]. Qed.

Inductive config_related : Config → Config → Prop :=
  | cr_running l l' k k' : Forall2 Rs l l' → kont_related k k' → config_related (Running l k) (Running l' k')
  | cr_finished : config_related Finished Finished.
End related.
