(* ===== verification/CfgAst.v ===== *)
(** From the control-flow graph to typed ASTs: decompiler/v2/cfg_ast.rs. *)

From stdpp Require Import pretty.
From S2P Require Import Prelude Text Activity Ssa Pcode Region Semantic Ast.

Definition label_of (b : nat) : string := "L_" +:+ pretty b.
Definition cond_of (b : nat) : Expr.t := Expr.Name ("cond_" +:+ pretty b).
Definition goto (b : nat) : Stmt.t := Stmt.Goto (label_of b).
Definition edge_name (b t : nat) : string := pretty b +:+ "->" +:+ pretty t.

(** [as i32] *)
Definition i32_wrap (z : Z) : Z := ((z + 2 ^ 31) mod 2 ^ 32 - 2 ^ 31)%Z.

(** ** The lossless seed *)

Section seed.
Context {P : Type} `{PcodeView P}.
Notation SsaOp := (SsaOp P).
Notation SsaBlock := (SsaBlock P).
Notation SsaFunction := (SsaFunction P).
Implicit Types (op : SsaOp) (block : SsaBlock) (ssa : SsaFunction).

(** [format!("{p:?}")] of the decoder crate's operation. *)
Variable debug_pcode : P → string.

Definition mentions (words : list string) block : bool :=
  existsb (λ op, match kind op with
                 | Pcode p => existsb (λ w, contains w (debug_pcode p)) words
                 | Phi _ => false
                 end) (sb_ops block).

Definition arg1 : Expr.t := Expr.Name "arg1".
Definition arg2 : Expr.t := Expr.Name "arg2".

Definition leaf_return_expr block : option Expr.t :=
  if mentions ["SLess"; "Less"; "Equal"; "SLessEqual"] block then Some (Expr.Compare "<" arg1 arg2)
  else if mentions ["Xor"] block then Some (Expr.BinOp "^" arg1 arg2)
  else if mentions ["Add"; "IntAdd"] block then Some (Expr.BinOp "+" arg1 arg2)
  else None.

(** The statement and the effect of an operation, if it has one. *)
Definition op_stmt block op : option (Stmt.t * string) :=
  match kind op with
  | Phi _ => None
  | Pcode p =>
      match view p with
      | Call dest =>
          let tgt := match direct_target dest with
                     | Some t => "FUN_" +:+ hex t
                     | None => "call_" +:+ hex (va op)
                     end in
          Some (Stmt.Expr (Expr.Call tgt []), "call:" +:+ tgt)
      | CallInd _ =>
          let tgt := "icall_" +:+ hex (va op) in
          Some (Stmt.Expr (Expr.Call tgt []), "call:" +:+ tgt)
      | Store _ => Some (Stmt.Assign ("mem_" +:+ hex (va op)) (Expr.Name "store_val"), "store:" +:+ hex (va op))
      | Return => Some (Stmt.Return (Some (default (Expr.Name "ret") (leaf_return_expr block))), "return")
      | _ => None
      end
  end.

Definition has_return_op block : bool := existsb is_return (sb_ops block).

(** The statements that leave block [bi], with the edges and effects they cover. *)
Definition block_exit (bi : nat) block (succs : list nat) : list Stmt.t * list string * list string :=
  match succs with
  | [] => if has_return_op block then ([], [], []) else ([Stmt.Return None], [], ["return"])
  | [t] => (if decide (t = bi + 1) then [] else [goto t], [edge_name bi t], [])
  | [t0; t1] => ([Stmt.If (cond_of bi) [goto t0] [goto t1]], [edge_name bi t0; edge_name bi t1], [])
  | _ => (map goto succs, map (edge_name bi) succs, [])
  end.

Definition op_stmts block (ops : list SsaOp) : list Stmt.t := omap (λ op, fst <$> op_stmt block op) ops.
Definition op_effects block (ops : list SsaOp) : list string := omap (λ op, snd <$> op_stmt block op) ops.

Definition succs_of (sem : SemanticModel) (bi : nat) : list nat := default [] (sem_succ sem !! bi).

Definition block_stmts (sem : SemanticModel) (bi : nat) block : list Stmt.t :=
  Stmt.Label (label_of bi) :: op_stmts block (sb_ops block) ++ (block_exit bi block (succs_of sem bi)).1.1.
Definition block_edges (sem : SemanticModel) (bi : nat) block : list string :=
  (block_exit bi block (succs_of sem bi)).1.2.
Definition block_effects (sem : SemanticModel) (bi : nat) block : list string :=
  op_effects block (sb_ops block) ++ (block_exit bi block (succs_of sem bi)).2.

Definition is_goto (s : Stmt.t) : bool := match s with Stmt.Goto _ => true | _ => false end.
Definition is_nested (s : Stmt.t) : bool :=
  match s with Stmt.If _ _ _ | Stmt.While _ _ | Stmt.Switch _ _ _ => true | _ => false end.
Definition count (f : Stmt.t → bool) (l : list Stmt.t) : nat := length (List.filter f l).

Definition seed_lossless_ast ssa (sem : SemanticModel) (contracts : ContractBundle) (name : string)
    (params : list string) : TypedAstCandidate :=
  let per_block {A} (f : nat → SsaBlock → list A) := concat (imap f (blocks ssa)) in
  let effects := per_block (block_effects sem) in
  let missing := has_return (exit_class sem) && negb (bool_decide ("return" ∈ effects)) in
  let body := per_block (block_stmts sem)
              ++ if missing then [Stmt.Return (Some (Expr.Name "ret"))] else [] in
  let residual := count is_goto body in
  let nesting := (1 + i32_wrap (Z.of_nat (count is_nested body)))%Z in
  mkCandidate (mkAst name params "uint64" body)
    (mkCoverage (per_block (block_edges sem)) (effects ++ if missing then ["return"] else []))
    residual (bundle_cases contracts) (i32_wrap (i32_wrap (Z.of_nat residual) * 10 + nesting)) nesting false.
End seed.

(** ** Alternatives *)

Section alternatives.
Context {P : Type} `{PcodeView P}.
Implicit Types (ssa : SsaFunction P) (seed : TypedAstCandidate).

Definition has_back_edge ssa : bool :=
  existsb (λ '(i, b), existsb (λ s, bool_decide (s ≤ i)) (successor_ids b)) (imap pair (blocks ssa)).

Definition try_while_from_backedge ssa seed : option TypedAstCandidate :=
  if has_back_edge ssa then
    Some (with_score (residual_edges seed) (i32_sub (cost seed) 5) (nesting seed + 1)
            (with_body [Stmt.While (Expr.Int 1 1) (body (ast seed))] seed))
  else None.

Definition label_case (v : Z) : SwitchCase :=
  mkCase [v] [Stmt.Return (Some (Expr.Int v 64)); Stmt.Break].

(** The labels of the first contract, or else of the first switch. *)
Definition switch_labels (contracts : ContractBundle) (switches : list SwitchInfo) : list Z :=
  match bundle_cases contracts, switches with
  | c :: _, _ => labels c
  | [], s :: _ => map fst (cases s)
  | [], [] => []
  end.

Definition label_switch (labels : list Z) : Stmt.t :=
  Stmt.Switch (Expr.Name "arg1") (map label_case labels) [Stmt.Return (Some (Expr.Int 0 64))].

Definition try_switch_ast seed (contracts : ContractBundle) (switches : list SwitchInfo)
    : option TypedAstCandidate :=
  match switch_labels contracts switches with
  | [] => None
  | labels =>
      let n_cases := length labels in
      Some (with_score (residual_edges seed - n_cases) (i32_sub (cost seed) (i32_wrap (Z.of_nat n_cases) * 3))
              (nesting seed + 1)
              (with_body (label_switch labels :: body (ast seed)) seed))
  end.

(** The first [if] of the body, inverted. *)
Fixpoint invert_first_if (l : list Stmt.t) : option (list Stmt.t) :=
  match l with
  | [] => None
  | Stmt.If c a b :: l => Some (Stmt.If (Expr.UnaryOp "!" c) b a :: l)
  | s :: l => cons s <$> invert_first_if l
  end.

Definition try_invert_outer_if_ast seed : option TypedAstCandidate :=
  b ← invert_first_if (body (ast seed));
  Some (with_score (residual_edges seed) (i32_sub (cost seed) 1) (nesting seed) (with_body b seed)).

Definition generate_alternatives seed ssa (contracts : ContractBundle) (switches : list SwitchInfo)
    (max : nat) : list TypedAstCandidate :=
  take (Nat.max max 1)
    (seed :: option_list (try_while_from_backedge ssa seed)
     ++ (match bundle_cases contracts, switches with
         | [], [] => []
         | _, _ => option_list (try_switch_ast seed contracts switches)
         end)
     ++ option_list (try_invert_outer_if_ast seed)).
End alternatives.
