(* ===== verification/CfgAstCorrect.v ===== *)
(** The seed does what the control-flow graph does, and what the alternatives
    made from a candidate do instead of it. *)

From stdpp Require Import pretty.
From S2P Require Import Prelude Text Activity Cfg CfgDom CfgFrontier Ssa Pcode Region Semantic Ast AstSem CfgAst.

#[global] Instance label_of_inj : Inj (=) (=) label_of.
Proof. intros a b E. apply (inj (String.append "L_")) in E. by apply (inj pretty) in E. Qed.

(** ** The seed *)

Section seed.
Context {P : Type} `{PcodeView P}.
Variable debug_pcode : P → string.
Variable ssa : SsaFunction P.
Variable sem : SemanticModel.
Implicit Types (op : SsaOp P) (block : SsaBlock P).
Notation op_stmt := (op_stmt debug_pcode).
Notation op_stmts := (op_stmts debug_pcode).

Definition action_of (s : Stmt.t) : option Action :=
  match s with
  | Stmt.Expr e => Some (Do e)
  | Stmt.Assign dest e => Some (Set_ dest e)
  | Stmt.Return e => Some (Ret e)
  | _ => None
  end.

(** The reference: the operations of a block in order, each with its action,
    then the edge the block's condition chooses. [cond_b] is the condition under
    which block [b] goes to the lower-numbered of two successors. *)
Inductive CfgState := At (b : nat) (ops : list (SsaOp P)) | Left_.

Definition ops_at (b : nat) : list (SsaOp P) := from_option sb_ops [] (blocks ssa !! b).

Inductive cfg_step : CfgState → option Action → CfgState → Prop :=
  | cfg_silent b block op ops :
      blocks ssa !! b = Some block → op_stmt block op = None →
      cfg_step (At b (op :: ops)) None (At b ops)
  | cfg_op b block op ops s eff :
      blocks ssa !! b = Some block → op_stmt block op = Some (s, eff) → is_return op = false →
      cfg_step (At b (op :: ops)) (action_of s) (At b ops)
  | cfg_return b block op ops s eff :
      blocks ssa !! b = Some block → op_stmt block op = Some (s, eff) → is_return op = true →
      cfg_step (At b (op :: ops)) (action_of s) Left_
  | cfg_exit b : succs_of sem b = [] → cfg_step (At b []) (Some (Ret None)) Left_
  | cfg_jump b t : succs_of sem b = [t] → cfg_step (At b []) None (At t (ops_at t))
  | cfg_branch b t0 t1 v :
      succs_of sem b = [t0; t1] →
      cfg_step (At b []) (Some (Test (cond_of b) v))
        (if (v =? 0)%Z then At t1 (ops_at t1) else At t0 (ops_at t0)).

Definition chunks : list (list Stmt.t) := imap (block_stmts debug_pcode sem) (blocks ssa).
Variable tail : list Stmt.t.
Definition rest_from (b : nat) : list Stmt.t := concat (drop b chunks) ++ tail.
Definition root : list Stmt.t := rest_from 0.

(** What follows the operations [ops] of block [b]. *)
Definition from_op (b : nat) block (ops : list (SsaOp P)) : list Stmt.t :=
  op_stmts block ops ++ (block_exit b block (succs_of sem b)).1.1 ++ rest_from (S b).

(** The program the body runs in, and what follows the body there. *)
Variable prog : list Stmt.t.
Variable K : Kont.
Hypothesis Prog : ∀ name, find_list name prog [] KStop = find_list name root [] K.
Hypothesis In_range : ∀ b t, t ∈ succs_of sem b → t < length (blocks ssa).
Hypothesis Two : ∀ b, length (succs_of sem b) ≤ 2.

Lemma rest_from_block b block :
  blocks ssa !! b = Some block →
  rest_from b = Stmt.Label (label_of b) :: from_op b block (sb_ops block).
Proof.
  intros Hb. unfold rest_from, from_op.
  rewrite (drop_S chunks (block_stmts debug_pcode sem b block) b)
    by (unfold chunks; rewrite list_lookup_imap, Hb; done).
  cbn. by rewrite <-!app_assoc.
Qed.

Lemma op_stmt_leaf block op s eff :
  op_stmt block op = Some (s, eff) → stmt_labels s = [] ∧ is_Some (action_of s).
Proof.
  unfold CfgAst.op_stmt. destruct (kind op) as [|p]; [done|].
  destruct (view p); try done; intros [= <- <-]; cbn; by eauto.
Qed.
Lemma op_stmts_labels block ops : list_labels (op_stmts block ops) = [].
Proof.
  apply leaves_no_labels, Forall_forall. intros s Hs.
  apply list_elem_of_omap in Hs as (op & _ & Hs).
  destruct (op_stmt block op) as [[s' eff]|] eqn:E; [|done]. simplify_eq/=.
  by apply op_stmt_leaf in E as [? _].
Qed.
Lemma exit_labels b block : list_labels (block_exit b block (succs_of sem b)).1.1 = [].
Proof.
  unfold block_exit. destruct (succs_of sem b) as [|t [|t' [|]]]; cbn; [by case_match| |done|].
  - by case_decide.
  - apply leaves_no_labels. repeat constructor. apply Forall_forall.
    intros s Hs. by apply list_elem_of_fmap in Hs as (? & -> & _).
Qed.

(** A goto to a block finds what follows its label. *)
Lemma find_block_label t block :
  blocks ssa !! t = Some block →
  find_list (label_of t) root [] K = Some (from_op t block (sb_ops block), K).
Proof.
  intros Ht. unfold root. generalize (Nat.le_0_l t). generalize 0 as i.
  enough (∀ d i, t = i + d →
    find_list (label_of t) (rest_from i) [] K = Some (from_op t block (sb_ops block), K)) as G.
  { intros i L. apply (G (t - i)). lia. }
  induction d as [|d IH]; intros i E.
  - replace i with t by lia. erewrite rest_from_block by done. by rewrite find_here, app_nil_r.
  - destruct (lookup_lt_is_Some_2 (blocks ssa) i) as [bi Hi].
    { apply lookup_lt_Some in Ht. lia. }
    erewrite rest_from_block by done. unfold from_op.
    rewrite (app_comm_cons _ _ (Stmt.Label (label_of i))), (app_assoc _ _ (rest_from (S i))).
    rewrite find_app; [apply IH; lia|].
    rewrite list_labels_app. cbn. rewrite op_stmts_labels, exit_labels. cbn.
    rewrite list_elem_of_singleton. intros E'%(inj label_of). lia.
Qed.

(** ** The relation *)

Inductive related : Config → CfgState → Prop :=
  | rel_ops b block ops :
      blocks ssa !! b = Some block → has_return_op block = existsb is_return ops →
      related (Running (from_op b block ops) K) (At b ops)
  | rel_label b : b < length (blocks ssa) → related (Running (rest_from b) K) (At b (ops_at b))
  | rel_goto t l k : t < length (blocks ssa) → related (Running (goto t :: l) k) (At t (ops_at t))
  | rel_end : related Finished Left_.

Lemma related_start b block :
  blocks ssa !! b = Some block → related (Running (from_op b block (sb_ops block)) K) (At b (ops_at b)).
Proof. intros Hb. unfold ops_at. rewrite Hb. by constructor. Qed.

(** A goto, or the label of a block, leads to the block's operations. *)
Lemma goto_step t l k :
  t < length (blocks ssa) → ∃ c,
    (∀ v, step prog v (Running (goto t :: l) k) = Some (None, c)) ∧ related c (At t (ops_at t)).
Proof.
  intros [block Ht]%lookup_lt_is_Some_2.
  eexists. split; [|by apply related_start].
  intros v. unfold goto. cbn [step]. erewrite Prog, find_block_label by done. reflexivity.
Qed.
Lemma label_step b :
  b < length (blocks ssa) → ∃ c,
    (∀ v, step prog v (Running (rest_from b) K) = Some (None, c)) ∧ related c (At b (ops_at b)).
Proof.
  intros [block Hb]%lookup_lt_is_Some_2.
  eexists. split; [|by apply related_start]. intros v. erewrite rest_from_block by done. reflexivity.
Qed.

Lemma return_stmt block op s eff :
  op_stmt block op = Some (s, eff) → is_return op = match s with Stmt.Return _ => true | _ => false end.
Proof.
  unfold CfgAst.op_stmt, is_return, pcode_is. destruct (kind op) as [|p]; [done|].
  by destruct (view p); try done; intros [= <- <-].
Qed.
Lemma silent_no_return block op : op_stmt block op = None → is_return op = false.
Proof.
  unfold CfgAst.op_stmt, is_return, pcode_is. destruct (kind op) as [|p]; [done|]. by destruct (view p).
Qed.

Lemma sim_ops b block ops o c' :
  blocks ssa !! b = Some block → has_return_op block = existsb is_return ops →
  steps_to prog (Running (from_op b block ops) K) o c' →
  ∃ t', weak cfg_step (At b ops) o t' ∧ related c' t'.
Proof.
  intros Hb. induction ops as [|op ops IH]; intros Hr [v St].
  - unfold from_op in St. cbn [CfgAst.op_stmts omap list_omap app] in St. cbn in Hr.
    pose proof (In_range b) as In. pose proof (Two b) as T2.
    unfold block_exit in St. destruct (succs_of sem b) as [|t0 [|t1 [|]]] eqn:Es; [| | |cbn in T2; lia].
    + rewrite Hr in St. cbn in St. simplify_eq. eexists. split; [by apply weak_last, cfg_exit|constructor].
    + assert (t0 < length (blocks ssa)) as L by (apply In; set_solver).
      assert (cfg_step (At b []) None (At t0 (ops_at t0))) as J by by apply cfg_jump.
      case_decide as D; cbn [fst snd app] in St.
      * subst t0. rewrite Nat.add_1_r in L, J. destruct (label_step (S b) L) as (c & Hc & Rc).
        rewrite Hc in St. simplify_eq. eexists. split; [by apply weak_last|done].
      * destruct (goto_step t0 (rest_from (S b)) K L) as (c & Hc & Rc).
        rewrite Hc in St. simplify_eq. eexists. split; [by apply weak_last|done].
    + cbn in St. simplify_eq. eexists. split; [apply weak_last; by apply (cfg_branch b t0 t1 v)|].
      destruct (v =? 0)%Z; constructor; apply In; set_solver.
  - destruct (op_stmt block op) as [[s eff]|] eqn:E.
    + pose proof (return_stmt _ _ _ _ E) as Rt. unfold from_op, CfgAst.op_stmts in St.
      cbn in St. rewrite E in St. cbn in St.
      destruct s; try by destruct (op_stmt_leaf _ _ _ _ E) as [_ [? ?]].
      1: exists Left_; cbn in St; simplify_eq; split; [|constructor];
        by apply weak_last, (cfg_return b block op ops _ eff Hb E).
      all: exists (At b ops); cbn in St; simplify_eq; split;
        [by apply weak_last, (cfg_op b block op ops _ eff Hb E)|constructor; [done|]].
      all: cbn in Hr; by rewrite Rt in Hr.
    + pose proof (silent_no_return _ _ E) as Rt. cbn in Hr. rewrite Rt in Hr.
      destruct (IH Hr) as (t' & W & R).
      { exists v. unfold from_op, CfgAst.op_stmts in *. cbn in St. by rewrite E in St. }
      exists t'. split; [|done]. eapply weak_silent; [by eapply cfg_silent|done].
Qed.

Lemma seed_simulates : simulates (steps_to prog) cfg_step related.
Proof.
  intros c t o c' R St. destruct R as [b block ops Hb Hr|b L|t l k L|].
  - by eapply sim_ops.
  - destruct (label_step b L) as (c & Hc & Rc). destruct St as [v St]. rewrite Hc in St. simplify_eq.
    eexists. split; [apply weak_refl|done].
  - destruct (goto_step t l k L) as (c & Hc & Rc). destruct St as [v St]. rewrite Hc in St. simplify_eq.
    eexists. split; [apply weak_refl|done].
  - by destruct St as [v ?].
Qed.

Lemma cfg_sim_ops b block ops o t' :
  blocks ssa !! b = Some block → has_return_op block = existsb is_return ops →
  cfg_step (At b ops) o t' →
  ∃ c', weak (steps_to prog) (Running (from_op b block ops) K) o c' ∧ related c' t'.
Proof.
  intros Hb Hr St. pose proof (In_range b) as In.
  inversion St as [? bl op ops' Hb' E|? bl op ops' s eff Hb' E Rt|? bl op ops' s eff Hb' E Rt
                  |? Es|? t Es|? t0 t1 v Es]; subst; simplify_eq.
  - pose proof (silent_no_return _ _ E) as Rt. cbn in Hr. rewrite Rt in Hr.
    eexists. split; [apply weak_refl|]. replace (from_op b block (op :: ops')) with (from_op b block ops').
    + by constructor.
    + unfold from_op, CfgAst.op_stmts. cbn. by rewrite E.
  - cbn in Hr. rewrite Rt in Hr. cbn in Hr.
    exists (Running (from_op b block ops') K). split; [|by constructor].
    apply weak_last. exists 0%Z. unfold from_op, CfgAst.op_stmts. cbn. rewrite E. cbn.
    rewrite (return_stmt _ _ _ _ E) in Rt.
    destruct (op_stmt_leaf _ _ _ _ E) as [_ [a Ha]]. by destruct s.
  - exists Finished. split; [|constructor]. apply weak_last. exists 0%Z.
    unfold from_op, CfgAst.op_stmts. cbn. rewrite E. cbn. rewrite (return_stmt _ _ _ _ E) in Rt. by destruct s.
  - exists Finished. split; [|constructor]. apply weak_last. exists 0%Z.
    unfold from_op, block_exit. cbn in Hr |- *. by rewrite Es, Hr.
  - assert (t < length (blocks ssa)) as L by (apply In; rewrite Es; set_solver).
    unfold from_op, block_exit. cbn. rewrite Es. eexists. split; [apply weak_refl|]. cbn.
    case_decide as D; cbn; [|by constructor]. subst t. rewrite Nat.add_1_r in *. by constructor.
  - eexists. split.
    + apply weak_last. exists v. unfold from_op, block_exit. cbn. by rewrite Es.
    + cbn. destruct (v =? 0)%Z; constructor; apply In; rewrite Es; set_solver.
Qed.

Lemma cfg_simulates : simulates cfg_step (steps_to prog) (λ t c, related c t).
Proof.
  assert (∀ b c c0 o t', steps_to prog c None c0 → related c0 (At b (ops_at b)) →
    (∃ block, blocks ssa !! b = Some block ∧ c0 = Running (from_op b block (sb_ops block)) K) →
    cfg_step (At b (ops_at b)) o t' → ∃ c', weak (steps_to prog) c o c' ∧ related c' t') as Go.
  { intros b c c0 o t' S0 R (block & Hb & ->) St. unfold ops_at in St. rewrite Hb in St.
    apply (cfg_sim_ops b block) in St as (c' & W & R'); [|done..]. exists c'. split; [|done].
    by eapply weak_silent. }
  intros t c o t' R St. destruct R as [b block ops Hb Hr|b L|t l k L|].
  - by eapply cfg_sim_ops.
  - apply lookup_lt_is_Some_2 in L as [block Hb].
    eapply (Go b _ _ o t'); [|by apply related_start| |done]; [|by exists block].
    exists 0%Z. by erewrite rest_from_block.
  - apply lookup_lt_is_Some_2 in L as [block Hb].
    eapply (Go t _ _ o t'); [|by apply related_start| |done]; [|by exists block].
    exists 0%Z. unfold goto. cbn [step]. by erewrite Prog, find_block_label.
  - inversion St.
Qed.

Lemma seed_traces_cfg tr :
  0 < length (blocks ssa) → traces (steps_to prog) (Running root K) tr ↔ traces cfg_step (At 0 (ops_at 0)) tr.
Proof.
  intros L. assert (related (Running root K) (At 0 (ops_at 0))) as R by by constructor.
  split; intros Tr.
  - eapply simulates_traces; [exact seed_simulates|exact R|exact Tr].
  - eapply (simulates_traces _ _ _ _ _ _ cfg_simulates); [exact R|exact Tr].
Qed.
End seed.

(** ** The successors of the model *)

Section model.
Context {P : Type} `{PcodeView P}.
Variable ssa : SsaFunction P.

(** Successor identifiers are indices of blocks. *)
Definition closed_ids : Prop :=
  ∀ b block t, blocks ssa !! b = Some block → t ∈ successor_ids block → t < length (blocks ssa).

Lemma resolve_in_range limit b :
  closed_ids → b < length (blocks ssa) → resolve_jump_target ssa b limit < length (blocks ssa).
Proof.
  intros C. revert b. induction limit as [|limit IH]; intros b L; cbn; [done|].
  destruct (blocks ssa !! b) as [block|] eqn:E; [|done]. destruct (negb _); [done|].
  destruct (successor_ids block) as [|next l] eqn:Es; [done|]. case_decide; [done|].
  apply IH, (C b block); [done|]. rewrite Es. set_solver.
Qed.

Lemma elem_of_succs b t :
  t ∈ succs_of (from_raw_pcode ssa) b ↔
  ∃ block s, blocks ssa !! b = Some block ∧ s ∈ successor_ids block ∧ t = resolve_jump_target ssa s 16.
Proof.
  unfold succs_of, from_raw_pcode, build. destruct (foldl observe _ _) as [obs byb]. cbn [sem_succ].
  unfold sem_successors, adj_from_ssa. cbn [fst]. rewrite !list_lookup_fmap.
  destruct (blocks ssa !! b) as [block|]; cbn; [|set_solver].
  rewrite elem_of_ascending, elem_of_list_to_set, list_elem_of_fmap. naive_solver.
Qed.
End model.

(** ** What the program observes *)

(** The reference, from the p-code alone: the calls, stores, returns and choices
    of successors a run of the control-flow graph makes, in order. *)
Section events.
Context {P : Type} `{PcodeView P}.
Variable debug_pcode : P → string.
Variable ssa : SsaFunction P.

Inductive Event :=
  | Called (target : Z)
  | CalledRegister (at_ : Z)
  | CalledThrough (at_ : Z)
  | Stored (at_ : Z)
  | Returned
  | RanOut (b : nat)
  | Chose (b t : nat).

(** The event of an operation at an address, if it has one. *)
Inductive op_event : P → Z → option Event → Prop :=
  | ev_call p a dest :
      view p = Call dest → space dest = Const ∨ space dest = Ram → op_event p a (Some (Called (offset dest)))
  | ev_call_register p a dest :
      view p = Call dest → space dest = RegisterSpace ∨ space dest = UniqueSpace →
      op_event p a (Some (CalledRegister a))
  | ev_call_through p a dest : view p = CallInd dest → op_event p a (Some (CalledThrough a))
  | ev_store p a dest : view p = Store dest → op_event p a (Some (Stored a))
  | ev_none p a :
      (∀ dest, view p ≠ Call dest ∧ view p ≠ CallInd dest ∧ view p ≠ Store dest) → view p ≠ Return →
      op_event p a None.

(** Block [b] continues at [t]: a successor, past blocks that only jump. *)
Definition continues_at (b t : nat) : Prop :=
  ∃ block s, blocks ssa !! b = Some block ∧ s ∈ successor_ids block ∧ t = resolve_jump_target ssa s 16.

Inductive event_step : CfgState (P := P) → option Event → CfgState → Prop :=
  | es_phi b block op ops vars :
      blocks ssa !! b = Some block → kind op = Phi vars → event_step (At b (op :: ops)) None (At b ops)
  | es_op b block op ops p o :
      blocks ssa !! b = Some block → kind op = Pcode p → op_event p (va op) o →
      event_step (At b (op :: ops)) o (At b ops)
  | es_return b block op ops p :
      blocks ssa !! b = Some block → kind op = Pcode p → view p = Return →
      event_step (At b (op :: ops)) (Some Returned) Left_
  | es_exit b : (¬ ∃ t, continues_at b t) → event_step (At b []) (Some (RanOut b)) Left_
  | es_jump b t :
      continues_at b t → (∀ t', continues_at b t' → t' = t) → event_step (At b []) None (At t (ops_at ssa t))
  | es_branch b t t' :
      continues_at b t → continues_at b t' → t' ≠ t →
      event_step (At b []) (Some (Chose b t)) (At t (ops_at ssa t)).

(** How the printed C says it. A test of the name [cond_b] says that block [b]
    goes to the lower-numbered of its two successors. *)
Inductive denotes : Action → Event → Prop :=
  | den_call t : denotes (Do (Expr.Call ("FUN_" +:+ hex t) [])) (Called t)
  | den_call_register a : denotes (Do (Expr.Call ("call_" +:+ hex a) [])) (CalledRegister a)
  | den_call_through a : denotes (Do (Expr.Call ("icall_" +:+ hex a) [])) (CalledThrough a)
  | den_store a : denotes (Set_ ("mem_" +:+ hex a) (Expr.Name "store_val")) (Stored a)
  | den_return e : denotes (Ret (Some e)) Returned
  | den_ran_out b : denotes (Ret None) (RanOut b)
  | den_branch b t v :
      (∀ t', continues_at b t' → if decide (v = 0)%Z then t' ≤ t else t ≤ t') →
      denotes (Test (Expr.Name ("cond_" +:+ pretty b)) v) (Chose b t).

Notation sem := (from_raw_pcode ssa).
Hypothesis Two : ∀ b, length (succs_of sem b) ≤ 2.

Lemma continues_iff b t : continues_at b t ↔ t ∈ succs_of sem b.
Proof. symmetry. apply elem_of_succs. Qed.

Lemma succs_ascending b : StronglySorted lt (succs_of sem b).
Proof.
  unfold succs_of, from_raw_pcode, build. destruct (foldl observe _ _) as [obs byb]. cbn [sem_succ].
  unfold sem_successors. rewrite list_lookup_fmap. destruct (_ !! b); cbn; [|constructor].
  apply ascending_sorted.
Qed.
(** No successor, one, or two in order. *)
Lemma succs_cases b :
  (succs_of sem b = [] ∧ ¬ ∃ t, continues_at b t) ∨
  (∃ t, succs_of sem b = [t] ∧ continues_at b t ∧ ∀ t', continues_at b t' → t' = t) ∨
  (∃ t0 t1, succs_of sem b = [t0; t1] ∧ t0 < t1 ∧ continues_at b t0 ∧ continues_at b t1 ∧
     ∀ t', continues_at b t' → t' = t0 ∨ t' = t1).
Proof.
  setoid_rewrite continues_iff. pose proof (Two b) as L. pose proof (succs_ascending b) as S.
  destruct (succs_of sem b) as [|t0 [|t1 [|t2 l]]]; [left|right; left|right; right|cbn in L; lia].
  - split; [done|]. by intros [t ?%not_elem_of_nil].
  - exists t0. split_and!; [done|by left|]. by intros t' ?%list_elem_of_singleton.
  - exists t0, t1. apply StronglySorted_inv in S as [_ S]. apply Forall_cons in S as [S _].
    split_and!; [done|lia|by left|by right; left|]. intros t'. rewrite !elem_of_cons. set_solver.
Qed.

Lemma op_steps b block op ops :
  blocks ssa !! b = Some block →
  (∀ o s', cfg_step debug_pcode ssa sem (At b (op :: ops)) o s' →
     ∃ e, event_step (At b (op :: ops)) e s' ∧ option_Forall2 denotes o e) ∧
  (∀ e s', event_step (At b (op :: ops)) e s' →
     ∃ o, cfg_step debug_pcode ssa sem (At b (op :: ops)) o s' ∧ option_Forall2 denotes o e).
Proof.
  intros Hb. split.
  - intros o s' St. inversion St as [? bl ? ? Hb' E|? bl ? ? s eff Hb' E R|? bl ? ? s eff Hb' E R| | |]; subst;
      rewrite Hb in Hb'; injection Hb' as <-; unfold op_stmt in E; unfold is_return, pcode_is in *;
      destruct (kind op) as [vars|p] eqn:K; try done.
    + exists None. split; [by eapply es_phi|constructor].
    + exists None. split; [|constructor]. eapply es_op; [done..|]. destruct (view p) eqn:V; try done; (apply ev_none; [intros ?; by rewrite V|by rewrite V]).
    + destruct (view p) as [| |ptr| | | | | | | | |dest|dest| | |] eqn:V; try done; injection E as <- <-; cbn [action_of].
      * eexists. split; [by eapply es_op, ev_store|]. repeat constructor.
      * unfold direct_target. destruct (space dest) eqn:Sp; eexists;
          (split; [eapply es_op; [done..|]; first [by eapply ev_call; [done|auto]|by eapply ev_call_register; [done|auto]]|]);
          repeat constructor.
      * eexists. split; [by eapply es_op, ev_call_through|]. repeat constructor.
    + destruct (view p) eqn:V; try done. injection E as <- <-. eexists. split; [by eapply es_return|]. repeat constructor.
  - intros e s' St. inversion St as [? bl ? ? vars Hb' K|? bl ? ? p o Hb' K Ev|? bl ? ? p Hb' K V| | |]; subst;
      rewrite Hb in Hb'; injection Hb' as <-.
    + exists None. split; [|constructor]. eapply cfg_silent; [done|]. unfold op_stmt. by rewrite K.
    + inversion Ev as [? ? dest V Sp|? ? dest V Sp|? ? dest V|? ? dest V|? ? N R]; subst.
      * eexists. split; [eapply cfg_op; [done| |]; [unfold op_stmt; rewrite K, V; reflexivity|unfold is_return, pcode_is; by rewrite K, V]|].
        cbn [action_of]. unfold direct_target. destruct Sp as [-> | ->]; repeat constructor.
      * eexists. split; [eapply cfg_op; [done| |]; [unfold op_stmt; rewrite K, V; reflexivity|unfold is_return, pcode_is; by rewrite K, V]|].
        cbn [action_of]. unfold direct_target. destruct Sp as [-> | ->]; repeat constructor.
      * eexists. split; [eapply cfg_op; [done| |]; [unfold op_stmt; rewrite K, V; reflexivity|unfold is_return, pcode_is; by rewrite K, V]|].
        repeat constructor.
      * eexists. split; [eapply cfg_op; [done| |]; [unfold op_stmt; rewrite K, V; reflexivity|unfold is_return, pcode_is; by rewrite K, V]|].
        repeat constructor.
      * exists None. split; [|constructor]. eapply cfg_silent; [done|]. unfold op_stmt. rewrite K.
        destruct (view p) as [| |ptr| | | | | | | | |dest|dest| | |] eqn:V; try done; exfalso;
          first [by destruct (N ptr) as (_ & _ & ?)|by destruct (N dest) as (? & ? & _)].
    + eexists. split; [eapply cfg_return; [done| |]; [unfold op_stmt; rewrite K, V; reflexivity|unfold is_return, pcode_is; by rewrite K, V]|].
      repeat constructor.
Qed.

Lemma branch_steps b :
  (∀ o s', cfg_step debug_pcode ssa sem (At b []) o s' →
     ∃ e, event_step (At b []) e s' ∧ option_Forall2 denotes o e) ∧
  (∀ e s', event_step (At b []) e s' →
     ∃ o, cfg_step debug_pcode ssa sem (At b []) o s' ∧ option_Forall2 denotes o e).
Proof.
  destruct (succs_cases b) as [[E N]|[(t & E & C & U)|(t0 & t1 & E & Lt & C0 & C1 & U)]]; split.
  - intros o s' St. inversion St as [| | |? E'|? ? E'|? ? ? ? E']; subst; rewrite E in E'; try done.
    eexists. split; [by apply es_exit|]. repeat constructor.
  - intros e s' St. inversion St as [| | |? N'|? t C ?|? t t' C]; subst; [|by destruct N; exists t..].
    eexists. split; [by apply cfg_exit|]. repeat constructor.
  - intros o s' St. inversion St as [| | |? E'|? ? E'|? ? ? ? E']; subst; rewrite E in E'; try done.
    injection E' as <-. exists None. split; [by apply es_jump|constructor].
  - intros e s' St. inversion St as [| | |? N'|? t2 C' ?|? t2 t' C' C2 Ne]; subst.
    + by destruct N'; exists t.
    + rewrite (U _ C'). exists None. split; [by apply cfg_jump|constructor].
    + by rewrite (U _ C'), (U _ C2) in Ne.
  - intros o s' St. inversion St as [| | |? E'|? ? E'|? ? ? v E']; subst; rewrite E in E'; try done.
    injection E' as <- <-. destruct (Z.eqb_spec v 0) as [Z|Z]; eexists.
    + split; [by eapply (es_branch b t1 t0); [done..|lia]|]. constructor. constructor.
      intros t' C. rewrite decide_True by done. destruct (U _ C) as [-> | ->]; lia.
    + split; [by eapply (es_branch b t0 t1); [done..|lia]|]. constructor. constructor.
      intros t' C. rewrite decide_False by done. destruct (U _ C) as [-> | ->]; lia.
  - intros e s' St. inversion St as [| | |? N'|? t2 C' U'|? t2 t' C' C2 Ne]; subst.
    + by destruct N'; exists t0.
    + exfalso. pose proof (U' _ C0). pose proof (U' _ C1). lia.
    + destruct (U _ C') as [-> | ->]; eexists.
      * split; [exact (cfg_branch debug_pcode ssa sem b t0 t1 1 E)|]. constructor. constructor.
        intros t2 C. rewrite decide_False by done. destruct (U _ C) as [-> | ->]; lia.
      * split; [exact (cfg_branch debug_pcode ssa sem b t0 t1 0 E)|]. constructor. constructor.
        intros t2 C. rewrite decide_True by done. destruct (U _ C) as [-> | ->]; lia.
Qed.

(** The runs of the graph with the actions of the code are those of the
    reference. *)
Lemma cfg_traces_events s :
  (∀ tr, traces (cfg_step debug_pcode ssa sem) s tr →
     ∃ evs, traces event_step s evs ∧ Forall2 denotes tr evs) ∧
  (∀ evs, traces event_step s evs →
     ∃ tr, traces (cfg_step debug_pcode ssa sem) s tr ∧ Forall2 denotes tr evs).
Proof.
  assert (∀ s, (∀ o s', cfg_step debug_pcode ssa sem s o s' →
       ∃ e, event_step s e s' ∧ option_Forall2 denotes o e) ∧
     (∀ e s', event_step s e s' →
       ∃ o, cfg_step debug_pcode ssa sem s o s' ∧ option_Forall2 denotes o e)) as L.
  { intros [b [|op ops]|]; [apply branch_steps| |split; intros ? ? St; inversion St].
    destruct (blocks ssa !! b) as [block|] eqn:Hb; [by eapply op_steps|].
    split; intros ? ? St; inversion St; congruence. }
  split.
  - apply (traces_relabelled _ _ denotes). intros x. apply L.
  - intros evs Tr. destruct (traces_relabelled event_step (cfg_step debug_pcode ssa sem) (flip denotes)) with (s := s) (tr := evs)
      as (tr & Tr' & F); [|done|exists tr; split; [done|by apply Forall2_flip]].
    intros x e x' St. destruct (proj2 (L x) e x' St) as (o & St' & D). exists o. split; [done|].
    destruct D; by constructor.
Qed.
End events.
