(* ===== verification/AlternativesCorrect.v ===== *)
(** What the alternatives of a candidate do: an inverted [if] changes nothing, a
    loop around a body that never ends changes nothing, and a switch in front
    replaces the body. *)

From stdpp Require Import pretty.
From S2P Require Import Prelude Text Activity Cfg Ssa Pcode Region Semantic Ast AstSem CfgAst CfgAstCorrect.

(** ** The inverted [if] *)

Section invert.
Variables (c : Expr.t) (a b : list Stmt.t).
Hypothesis Disjoint : ∀ name, name ∈ list_labels a → name ∈ list_labels b → False.

Definition inverted (s s' : Stmt.t) : Prop :=
  s = s' ∨ s = Stmt.If c a b ∧ s' = Stmt.If (Expr.UnaryOp "!" c) b a.
#[local] Instance inverted_refl : Reflexive inverted.
Proof. by left. Qed.
Notation config_rel := (config_related inverted KStop).
Notation place_rel := (place_related inverted KStop).

Lemma find_inverted name l l' follow follow' k k' :
  Forall2 inverted l l' → Forall2 inverted follow follow' → kont_related inverted KStop k k' →
  option_Forall2 place_rel (find_list name l follow k) (find_list name l' follow' k').
Proof.
  intros F Ff Kr. induction F as [|s s' l l' [<-|[-> ->]] F IH]; cbn [find_list]; [constructor| |].
  - destruct (find_same_stmt inverted KStop name s (l ++ follow) (l' ++ follow') k k');
      [by apply Forall2_app|done|by constructor|done].
  - rewrite !find_stmt_if.
    assert (kont_related inverted KStop (KSeq (l ++ follow) k) (KSeq (l' ++ follow') k')) as Kr'.
    { constructor; [by apply Forall2_app|done]. }
    pose proof (find_same_list inverted KStop name a [] [] _ _ ltac:(done) Kr') as Fa.
    pose proof (find_same_list inverted KStop name b [] [] _ _ ltac:(done) Kr') as Fb.
    destruct (decide (name ∈ list_labels a)) as [Ia|Na].
    + assert (name ∉ list_labels b) as Nb by by intros Ib; eapply Disjoint.
      rewrite (find_absent name b _ _ Nb) in Fb |- *. rewrite (find_absent name b _ _ Nb).
      destruct Fa; [by constructor|done].
    + rewrite (find_absent name a _ _ Na) in Fa |- *. rewrite (find_absent name a _ _ Na).
      destruct Fb; [by constructor|done].
Qed.

Lemma branch_not v : branch (Expr.UnaryOp "!" c) v = ((branch c v).1, negb (branch c v).2).
Proof. cbn. by destruct (branch c v). Qed.

Lemma step_inverted root root' v x y :
  Forall2 inverted root root' → config_rel x y →
  option_Forall2 (λ p q, p.1 = q.1 ∧ config_rel p.2 q.2) (step root v x) (step root' v y).
Proof.
  intros Fr [l l' k k' F Kr|]; [|constructor].
  assert (∀ p q, place_rel p q → config_rel (resume p) (resume q)) as Rs by by (intros [] [] []; constructor).
  destruct F as [|s s' l l' [<-|[-> ->]] F].
  - destruct Kr; repeat constructor; done.
  - assert (kont_related inverted KStop (KSeq l k) (KSeq l' k')) as Kr' by by constructor.
    destruct s; cbn [step]; try by repeat constructor.
    + destruct (find_inverted target root root' [] [] KStop KStop Fr); [done|constructor| |constructor].
      constructor. split; [done|]. by apply Rs.
    + constructor. split; [done|]. cbn. destruct (branch _ _).2; constructor; try done. by constructor.
    + destruct (break_related inverted KStop k k' eq_refl Kr); constructor. split; [done|]. by constructor.
    + destruct (continue_related inverted KStop k k' eq_refl Kr); constructor. split; [done|]. by apply Rs.
  - cbn [step]. unfold observed. rewrite branch_not. cbn [fst snd].
    constructor. split; [done|]. constructor; [|by constructor]. by destruct (branch c v).2.
Qed.
End invert.

Lemma invert_first_if_spec l l' :
  invert_first_if l = Some l' →
  ∃ pre c a b post, l = pre ++ Stmt.If c a b :: post ∧
                    l' = pre ++ Stmt.If (Expr.UnaryOp "!" c) b a :: post.
Proof.
  revert l'. induction l as [|s l IH]; intros l' E; cbn in E; [done|].
  assert ((∃ c a b, s = Stmt.If c a b) ∨ cons s <$> invert_first_if l = Some l')
    as [(c & a & b & ->)|E'] by (destruct s; eauto).
  - simplify_eq. by exists [], c, a, b, l.
  - apply fmap_Some in E' as (l0 & E' & ->). apply IH in E' as (pre & c & a & b & post & -> & ->).
    by exists (s :: pre), c, a, b, post.
Qed.

(** Both directions at once: the steps of related configurations are related. *)
Lemma lockstep_traces (R : Config → Config → Prop) root root' x y tr :
  (∀ v x y, R x y →
     option_Forall2 (λ p q, p.1 = q.1 ∧ R p.2 q.2) (step root v x) (step root' v y)) →
  R x y → traces (steps_to root) x tr ↔ traces (steps_to root') y tr.
Proof.
  intros L HR. split; intros Tr.
  - eapply (simulates_traces _ (steps_to root') R); [|exact HR|exact Tr].
    intros s t o s' HR' [v St]. pose proof (L v s t HR') as F. rewrite St in F.
    inversion F as [? [o' t'] [E HR''] E1 E2|]; subst. cbn in E. subst o'. exists t'.
    split; [|done]. apply weak_last. by exists v.
  - eapply (simulates_traces _ (steps_to root) (λ t s, R s t)); [|exact HR|exact Tr].
    intros t s o t' HR' [v St]. pose proof (L v s t HR') as F. rewrite St in F.
    inversion F as [[o' s'] ? [E HR''] E1 E2|]; subst. cbn in E. subst o'. exists s'.
    split; [|done]. apply weak_last. by exists v.
Qed.

Lemma inverted_if_traces_eq l l' tr :
  NoDup (list_labels l) → invert_first_if l = Some l' → ast_traces l tr ↔ ast_traces l' tr.
Proof.
  intros N (pre & c & a & b & post & -> & ->)%invert_first_if_spec.
  assert (∀ name, name ∈ list_labels a → name ∈ list_labels b → False) as D.
  { intros name Ia Ib. rewrite list_labels_app in N. apply NoDup_app in N as (_ & _ & N).
    cbn [list_labels] in N. rewrite stmt_labels_if in N. apply NoDup_app in N as (N & _).
    apply NoDup_app in N as (_ & N & _). by eapply N. }
  assert (∀ l, Forall2 (inverted c a b) l l) as Rf by (induction l; constructor; [by left|done]).
  assert (Forall2 (inverted c a b) (pre ++ Stmt.If c a b :: post)
            (pre ++ Stmt.If (Expr.UnaryOp "!" c) b a :: post)) as F.
  { apply Forall2_app; [done|]. constructor; [by right|done]. }
  apply (lockstep_traces (config_related (inverted c a b) KStop)).
  - intros v x y HR. by apply step_inverted.
  - constructor; [done|constructor].
Qed.

(** ** The loop around the body *)

Definition looped (body : list Stmt.t) : Kont := KLoop (Expr.Int 1 1) body (KSeq [] KStop).

Lemma looped_prog body name :
  find_list name [Stmt.While (Expr.Int 1 1) body] [] KStop = find_list name body [] (looped body).
Proof. cbn [find_list]. rewrite find_stmt_while. by destruct (find_list _ _ _ _). Qed.

Lemma looped_start body tr :
  ast_traces [Stmt.While (Expr.Int 1 1) body] tr ↔
  traces (steps_to [Stmt.While (Expr.Int 1 1) body]) (Running body (looped body)) tr.
Proof.
  unfold ast_traces, start. split.
  - inversion 1 as [|? o s' tr' [v St] Tr]; subst; [constructor|]. by injection St as <- <-.
  - intros Tr. eapply (traces_step _ _ None); [|exact Tr]. by exists 0%Z.
Qed.

(** ** The switch in front *)

(** What [switch (arg1)] returns. *)
Definition switch_answer (ls : list Z) (v : Z) : Z := if decide (v ∈ ls) then v else 0%Z.

Lemma case_entry_labels v ls :
  ∃ rest, case_entry v (map label_case ls) [Stmt.Return (Some (Expr.Int 0 64))]
          = Stmt.Return (Some (Expr.Int (switch_answer ls v) 64)) :: rest.
Proof.
  unfold switch_answer. induction ls as [|w ls [rest IH]]; cbn [map case_entry].
  { rewrite decide_False by set_solver. by exists []. }
  unfold label_case at 1. cbn [values case_body]. destruct (decide (v ∈ [w])) as [D|D].
  - apply list_elem_of_singleton in D as ->. rewrite decide_True by set_solver. eexists. reflexivity.
  - exists rest. rewrite IH. do 4 f_equal. apply decide_ext. set_solver.
Qed.

(** What the function with the switch in front does: it tests [arg1] and
    returns a label or zero. *)
Lemma switch_traces ls l tr :
  ast_traces (label_switch ls :: l) tr ↔
  ∃ v, tr `prefix_of` [Test (Expr.Name "arg1") v; Ret (Some (Expr.Int (switch_answer ls v) 64))].
Proof.
  split.
  - intros Tr. inversion Tr as [|? o s' tr' [v St] Tr']; subst; [exists 0%Z; apply prefix_nil|].
    cbn in St. injection St as <- <-. exists v. cbn. apply prefix_cons.
    destruct (case_entry_labels v ls) as [rest E]. rewrite E in Tr'.
    inversion Tr' as [|? o s' tr'' [w St] Tr'']; subst; [apply prefix_nil|].
    cbn in St. injection St as <- <-. cbn. apply prefix_cons.
    inversion Tr'' as [|? o s' ? [w' St] ?]; subst; [apply prefix_nil|done].
  - intros [v Pre]. destruct (case_entry_labels v ls) as [rest E].
    set (e := Expr.Int _ _) in *. 
    assert (traces (steps_to (label_switch ls :: l))
              (Running (case_entry v (map label_case ls) [Stmt.Return (Some (Expr.Int 0 64))])
                 (KSwitch (KSeq l KStop))) [Ret (Some e)]) as T1.
    { rewrite E. apply (traces_step _ _ (Some (Ret (Some e))) Finished []); [by exists 0%Z|constructor]. }
    destruct tr as [|x tr]; [constructor|]. apply prefix_cons_inv_1 in Pre as Ex.
    apply prefix_cons_inv_2 in Pre. subst x.
    eapply (traces_step _ _ (Some (Test (Expr.Name "arg1") v))); [by exists v|].
    destruct tr as [|x tr]; [constructor|]. apply prefix_cons_inv_1 in Pre as Ex.
    apply prefix_cons_inv_2, prefix_nil_inv in Pre. by subst.
Qed.

(** ** A body that ends is run again by the loop around it *)

Section restart.
Variable body : list Stmt.t.
Notation prog := [Stmt.While (Expr.Int 1 1) body].
Variable k0 : Kont.
Let K0 : Kont := KLoop (Expr.Int 1 1) body (KSeq [] k0).
Notation rel := (config_related eq K0).
Hypothesis Labels : list_labels body = [].

Lemma step_looped v x y o x' :
  rel x y → x ≠ Running [] KStop → step body v x = Some (o, x') →
  ∃ y', step prog v y = Some (o, y') ∧ rel x' y'.
Proof.
  intros [l l' k k' F Kr|] N St; [|done].
  assert (l' = l) as -> by (symmetry; by apply list_eq_Forall2).
  assert (∀ k1 k1' l1, kont_related eq K0 k1 k1' → rel (Running l1 k1) (Running l1 k1')) as Rs.
  { intros k1 k1' l1 Kr1. by constructor. }
  destruct l as [|s l].
  { destruct Kr as [|l1 l1' k k' F1 Kr| |]; [done| | |]; cbn in St |- *; simplify_eq; eexists; (split; [done|]).
    - by constructor.
    - by apply Rs.
    - by apply Rs. }
  destruct s; cbn [step] in St |- *; try (injection St as <- <-; eexists; split; [done|]; by apply Rs).
  - rewrite find_absent in St by (rewrite Labels; set_solver). done.
  - injection St as <- <-. eexists. split; [done|constructor].
  - injection St as <- <-. eexists. split; [done|]. apply Rs. by constructor.
  - injection St as <- <-. eexists. split; [done|].
    destruct (branch _ _).2; apply Rs; [|done]. by repeat constructor.
  - injection St as <- <-. eexists. split; [done|]. apply Rs. by repeat constructor.
  - apply bind_Some in St as (k1 & E & St). simplify_eq.
    assert (∃ k1', break_to k' = Some k1' ∧ kont_related eq K0 k1 k1') as (k1' & -> & Kr1).
    { clear -Kr E. induction Kr; cbn in *; simplify_eq; eauto. }
    eexists. split; [done|]. by apply Rs.
  - apply bind_Some in St as ([l1 k1] & E & St). simplify_eq.
    assert (∃ k1', continue_to k' = Some (l1, k1') ∧ kont_related eq K0 k1 k1') as (k1' & -> & Kr1).
    { clear -Kr E. induction Kr; cbn in *; simplify_eq; eauto. }
    eexists. split; [done|]. by apply Rs.
Qed.

(** Runs of the body up to its end. *)
Inductive completes : Config → list Action → Prop :=
  | completes_end : completes (Running [] KStop) []
  | completes_step c o c' tr :
      steps_to body c o c' → completes c' tr → completes c (option_list o ++ tr).

Lemma completes_looped c tr y tr' :
  completes c tr → rel c y → traces (steps_to prog) (Running prog (KSeq [] k0)) tr' →
  traces (steps_to prog) y (tr ++ tr').
Proof.
  intros C HR T. revert y HR. induction C as [|c o c' tr [v St] C IH]; intros y HR.
  - inversion HR as [l l' k k' F Kr|]; subst. inversion F; subst. inversion Kr; subst.
    eapply (traces_step _ _ None); [by exists 0%Z|]. exact T.
  - assert (c = Running [] KStop ∨ c ≠ Running [] KStop) as [->|N]
      by (destruct c as [[|? ?] []|]; first [by left|by right]).
    + cbn in St. simplify_eq. inversion C as [|? ? ? ? [? ?]]; subst. done.
    + destruct (step_looped v c y o c' HR N St) as (y' & St' & HR').
      rewrite <-app_assoc. eapply traces_step; [by exists v|]. by apply IH.
Qed.
End restart.

(** A body that comes to its end is repeated as often as one likes. *)
Lemma looped_restarts body tr n :
  list_labels body = [] → completes body (start body) tr →
  ast_traces [Stmt.While (Expr.Int 1 1) body] (concat (replicate n tr)).
Proof.
  intros L C. unfold ast_traces, start. generalize KStop as k.
  induction n as [|n IH]; intros k; [constructor|].
  eapply (traces_step _ _ None); [by exists 0%Z|]. cbn [replicate concat].
  apply (completes_looped body k L (start body)); [done| |apply IH].
  apply cr_running; [by apply list_eq_Forall2|constructor].
Qed.

(** ** Claims *)

Section claims.
Context {P : Type} `{PcodeView P}.
Variable debug_pcode : P → string.
Variable ssa : SsaFunction P.
Implicit Types (contracts : ContractBundle).
Notation sem := (from_raw_pcode ssa).

Lemma chunk_labels :
  list_labels (concat (chunks debug_pcode ssa sem)) = label_of <$> seq 0 (length (blocks ssa)).
Proof.
  unfold chunks. cut (∀ l i, list_labels (concat (imap (λ j, block_stmts debug_pcode sem (i + j)) l))
                     = label_of <$> seq i (length l)); [intros E; apply (E _ 0)|].
  induction l as [|b l IH]; intros i; cbn [imap concat length seq fmap list_fmap list_labels]; [done|].
  rewrite Nat.add_0_r, list_labels_app.
  change (list_labels (block_stmts debug_pcode sem i b))
    with (label_of i :: list_labels (op_stmts debug_pcode b (sb_ops b)
                                     ++ (block_exit i b (succs_of sem i)).1.1)).
  rewrite list_labels_app, op_stmts_labels, exit_labels. cbn [app]. f_equal.
  rewrite <-(IH (S i)). do 2 f_equal. apply imap_ext. intros j x _. cbn. by rewrite Nat.add_succ_r.
Qed.

Lemma seed_runs_cfg contracts switches name params max cand tr :
  closed_ids ssa → (∀ b, length (succs_of sem b) ≤ 2) → 0 < length (blocks ssa) →
  switch_labels contracts switches = [] →
  cand ∈ generate_alternatives (seed_lossless_ast debug_pcode ssa sem contracts name params) ssa
           contracts switches max →
  ast_traces (body (ast cand)) tr ↔ traces (cfg_step debug_pcode ssa sem) (At 0 (ops_at ssa 0)) tr.
Proof.
  intros C Two Ne NoL Hc. set (seed := seed_lossless_ast _ _ _ _ _ _) in Hc.
  assert (∃ tail, body (ast seed) = root debug_pcode ssa sem tail ∧ list_labels tail = []) as (tail & E & Lt).
  { eexists. split; [reflexivity|]. by destruct (_ && _). }
  assert (∀ b t, t ∈ succs_of sem b → t < length (blocks ssa)) as In.
  { intros b t (block & s & Hb & Hs & ->)%elem_of_succs. apply resolve_in_range; [done|]. by eapply C. }
  assert (∀ prog K, (∀ name, find_list name prog [] KStop = find_list name (body (ast seed)) [] K) →
    traces (steps_to prog) (Running (body (ast seed)) K) tr
    ↔ traces (cfg_step debug_pcode ssa sem) (At 0 (ops_at ssa 0)) tr) as Base.
  { intros prog K Hp. rewrite E in Hp |- *. by apply seed_traces_cfg. }
  apply (subseteq_take _ _ _) in Hc. apply elem_of_cons in Hc as [->|Hc]; [by apply Base|].
  apply elem_of_app in Hc as [Hc|Hc].
  { unfold try_while_from_backedge in Hc. destruct (has_back_edge ssa); [|by apply not_elem_of_nil in Hc].
    apply list_elem_of_singleton in Hc as ->. cbn [with_score with_body ast body].
    rewrite looped_start. apply Base, looped_prog. }
  apply elem_of_app in Hc as [Hc|Hc].
  { unfold try_switch_ast in Hc. rewrite NoL in Hc. destruct (bundle_cases contracts), switches;
      by apply not_elem_of_nil in Hc. }
  unfold try_invert_outer_if_ast in Hc.
  destruct (invert_first_if (body (ast seed))) as [l|] eqn:El; [|by apply not_elem_of_nil in Hc].
  apply list_elem_of_singleton in Hc as ->. cbn [with_score with_body ast body].
  rewrite <-(inverted_if_traces_eq (body (ast seed)) l tr); [by apply Base| |done].
  rewrite E. unfold root, rest_from. rewrite list_labels_app, drop_0, chunk_labels, Lt, app_nil_r.
  apply NoDup_fmap_2; [apply _|apply NoDup_seq].
Qed.

(** C4: For a function with blocks whose successor ids are blocks, at most two
    successors per block (after jump-only blocks are skipped) and no case labels from
    contracts or switches (switch_labels = []), the seed of labels and gotos, the seed
    wrapped in a loop and the seed with its first if inverted do exactly what the
    control-flow graph does: their runs and the runs of the reference correspond
    action by action in both directions. The reference reads the p-code itself: direct
    calls with the address called, calls through registers and indirect calls, stores,
    returns, running off a block without successors, and the successor chosen. A
    printed test of cond_b is read as: block b goes to the lower-numbered of its two
    successors; the terminators of the semantic model read it the other way
    (Diamond.arms_swapped), so the claim does not say that the printed condition is
    the one the machine tests. *)
Theorem seed_lossless contracts switches name params max cand :
  closed_ids ssa → (∀ b, length (succs_of sem b) ≤ 2) → 0 < length (blocks ssa) →
  switch_labels contracts switches = [] →
  cand ∈ generate_alternatives (seed_lossless_ast debug_pcode ssa sem contracts name params) ssa
           contracts switches max →
  (∀ tr, ast_traces (body (ast cand)) tr →
     ∃ evs, traces (event_step ssa) (At 0 (ops_at ssa 0)) evs ∧ Forall2 (denotes ssa) tr evs) ∧
  (∀ evs, traces (event_step ssa) (At 0 (ops_at ssa 0)) evs →
     ∃ tr, ast_traces (body (ast cand)) tr ∧ Forall2 (denotes ssa) tr evs).
Proof.
  intros C Two Ne NoL Hc. destruct (cfg_traces_events debug_pcode ssa Two (At 0 (ops_at ssa 0))) as [F B].
  pose proof (λ tr, seed_runs_cfg contracts switches name params max cand tr C Two Ne NoL Hc) as R. split.
  - intros tr Tr. by apply F, R.
  - intros evs Tr. destruct (B evs Tr) as (tr & Tr' & D). exists tr. split; [by apply R|done].
Qed.
End claims.

(** ** A branch with two arms that meet *)

Module Diamond.
Definition op (a : Z) (p : PcodeOp) : SsaOp PcodeOp := mkOp a (Pcode p) None [].
Definition block (i : nat) (ops : list (SsaOp PcodeOp)) (succs : list nat) : SsaBlock PcodeOp :=
  mkSsaBlock i (0x1000 + 0x10 * Z.of_nat i) ops [] succs.
Definition fn (l : list (SsaBlock PcodeOp)) : SsaFunction PcodeOp := mkSsaFunction 0x1000 64 l 0.
Definition no_debug (p : PcodeOp) : string := "".

Definition diamond : SsaFunction PcodeOp :=
  fn [block 0 [op 0x1000 CBranch] [2; 1];
      block 1 [op 0x1010 (Call (mkVarnode Ram 0x2000 8))] [3];
      block 2 [op 0x1020 (Store (mkVarnode RegisterSpace 0 8))] [3];
      block 3 [op 0x1030 Return] []].
Definition contracts : ContractBundle := mkContracts [] [] "none" true [].
Definition seed_of (ssa : SsaFunction PcodeOp) : TypedAstCandidate :=
  seed_lossless_ast no_debug ssa (from_raw_pcode ssa) contracts "f" [].

Lemma diamond_closed : closed_ids diamond.
Proof.
  intros b bl t Hb Ht. do 4 (destruct b as [|b]; [injection Hb as <-; cbn in Ht |- *; set_solver by lia|]). done.
Qed.
Lemma diamond_two b : length (succs_of (from_raw_pcode diamond) b) ≤ 2.
Proof. do 4 (destruct b as [|b]; [vm_compute; lia|]). vm_compute. lia. Qed.

Example diamond_runs :
  run 20 (body (ast (seed_of diamond))) [1%Z] (start (body (ast (seed_of diamond))))
    = [Test (Expr.Name "cond_0") 1; Do (Expr.Call "FUN_2000" []); Ret (Some (Expr.Name "ret"))]
  ∧ run 20 (body (ast (seed_of diamond))) [0%Z] (start (body (ast (seed_of diamond))))
    = [Test (Expr.Name "cond_0") 0; Set_ "mem_1020" (Expr.Name "store_val"); Ret (Some (Expr.Name "ret"))].
Proof. by vm_compute. Qed.

(** The arm taken when the condition holds is the one the model calls the false
    target. *)
Example arms_swapped :
  terminators (from_raw_pcode diamond) !! 0 = Some (Terminator.Branch "cond" 1 2) ∧
  Stmt.If (cond_of 0) [goto 1] [goto 2] ∈ body (ast (seed_of diamond)).
Proof. split; [by vm_compute|]. vm_compute. set_solver. Qed.

(** Of three successors only the lowest is reached. *)
Example multiway_loses_edges :
  let ssa := fn [block 0 [op 0x1000 (BranchInd (mkVarnode RegisterSpace 0 8))] [1; 2; 3]; block 1 [op 0x1010 Return] [];
                 block 2 [op 0x1020 (Call (mkVarnode Ram 0x2000 8)); op 0x1024 Return] [];
                 block 3 [op 0x1030 Return] []] in
  edges (coverage (seed_of ssa)) = ["0->1"; "0->2"; "0->3"] ∧
  run 20 (body (ast (seed_of ssa))) [] (start (body (ast (seed_of ssa)))) = [Ret (Some (Expr.Name "ret"))].
Proof. by vm_compute. Qed.
End Diamond.

Lemma seed_lossless_witness :
  closed_ids Diamond.diamond ∧ (∀ b, length (succs_of (from_raw_pcode Diamond.diamond) b) ≤ 2) ∧
  ∃ evs, traces (event_step Diamond.diamond) (At 0 (ops_at Diamond.diamond 0)) evs ∧
    Forall2 (denotes Diamond.diamond)
      [Test (Expr.Name "cond_0") 1; Do (Expr.Call "FUN_2000" []); Ret (Some (Expr.Name "ret"))] evs.
Proof.
  split_and!; [exact Diamond.diamond_closed|exact Diamond.diamond_two|].
  apply (seed_lossless Diamond.no_debug Diamond.diamond Diamond.contracts [] "f" [] 1 (Diamond.seed_of Diamond.diamond)).
  - exact Diamond.diamond_closed.
  - exact Diamond.diamond_two.
  - cbn. lia.
  - reflexivity.
  - by left.
  - rewrite <-(proj1 Diamond.diamond_runs). apply run_traces.
Defined.
