(* ===== verification/CheckAst.v ===== *)
(** The checker of typed candidates: decompiler/v2/check_ast.rs, and the report
    and options of artifact.rs. Of the HIR the checker sees the argument counts
    of its call sites. *)

From Stdlib Require Import Strings.Ascii Strings.String.
From S2P Require Import Prelude Text Activity Ssa Region Semantic Ast.

Local Open Scope string_scope.

(** ** artifact.rs *)

Inductive FailureStage := StageDiscovery | StageLift | StageHir | StageContracts | StageExtract | StageChecker | StagePrinter.

Record CheckReport := mkReport {
  accepted : bool;
  edges_covered : nat;
  effects_covered : nat;
  rejects : list string;
  candidates_tried : nat;
  candidates_accepted : nat;
  failure_stage : option FailureStage;
  hit_candidate_cap : bool
}.

Definition with_rejects (acc : bool) (rs : list string) (stage : option FailureStage) (r : CheckReport) : CheckReport :=
  mkReport acc (edges_covered r) (effects_covered r) rs (candidates_tried r) (candidates_accepted r)
    stage (hit_candidate_cap r).
(** [accepted = false; rejects.push(reason); failure_stage = Some(stage)] *)
Definition reject (stage : FailureStage) (reason : string) (r : CheckReport) : CheckReport :=
  with_rejects false (rejects r ++ [reason]) (Some stage) r.
Definition reject_if (b : bool) (stage : FailureStage) (reason : string) (r : CheckReport) : CheckReport :=
  if b then reject stage reason r else r.
Definition with_counts (tried accepted_n : nat) (hit : bool) (r : CheckReport) : CheckReport :=
  mkReport (accepted r) (edges_covered r) (effects_covered r) (rejects r) tried accepted_n
    (failure_stage r) hit.

(** ** What the statements hold *)

Definition effects_has (effects : list string) (kind : string) : bool :=
  existsb (λ e, String.eqb e kind || String.prefix (kind +:+ ":") e) effects.

Fixpoint stmt_has_return (s : Stmt.t) : bool :=
  match s with
  | Stmt.Return _ => true
  | Stmt.If _ a b => existsb stmt_has_return a || existsb stmt_has_return b
  | Stmt.While _ b => existsb stmt_has_return b
  | Stmt.Switch _ cases d =>
      existsb (λ c, existsb stmt_has_return (case_body c)) cases || existsb stmt_has_return d
  | _ => false
  end.
Definition ast_has_return (l : list Stmt.t) : bool := existsb stmt_has_return l.

(** The classes of the returned values, with repetitions. *)
Fixpoint stmt_return_classes (s : Stmt.t) : list string :=
  match s with
  | Stmt.Return (Some e) => [expr_class_tag e]
  | Stmt.Return None => ["void"]
  | Stmt.If _ a b => flat_map stmt_return_classes a ++ flat_map stmt_return_classes b
  | Stmt.While _ b => flat_map stmt_return_classes b
  | Stmt.Switch _ cases d =>
      flat_map (λ c, flat_map stmt_return_classes (case_body c)) cases ++ flat_map stmt_return_classes d
  | _ => []
  end.
Definition return_classes (l : list Stmt.t) : gset string := list_to_set (flat_map stmt_return_classes l).

(** [collect_expr_call_arg_counts] *)
Fixpoint expr_call_arg_counts (e : Expr.t) : list nat :=
  match e with
  | Expr.Call _ args => length args :: flat_map expr_call_arg_counts args
  | Expr.BinOp _ l r | Expr.Compare _ l r => expr_call_arg_counts l ++ expr_call_arg_counts r
  | Expr.UnaryOp _ a | Expr.Cast _ a | Expr.Load a => expr_call_arg_counts a
  | Expr.Select c a b => expr_call_arg_counts c ++ expr_call_arg_counts a ++ expr_call_arg_counts b
  | Expr.Name _ | Expr.Int _ _ | Expr.UInt _ _ => []
  end.
Fixpoint stmt_call_arg_counts (s : Stmt.t) : list nat :=
  match s with
  | Stmt.Return (Some e) | Stmt.Assign _ e | Stmt.Expr e => expr_call_arg_counts e
  | Stmt.If c a b =>
      expr_call_arg_counts c ++ flat_map stmt_call_arg_counts a ++ flat_map stmt_call_arg_counts b
  | Stmt.While c b => expr_call_arg_counts c ++ flat_map stmt_call_arg_counts b
  | Stmt.Switch e cases d =>
      expr_call_arg_counts e ++ flat_map (λ c, flat_map stmt_call_arg_counts (case_body c)) cases
      ++ flat_map stmt_call_arg_counts d
  | _ => []
  end.
Definition call_arg_counts (l : list Stmt.t) : list nat := flat_map stmt_call_arg_counts l.

(** *** Placeholders *)

Definition chars (s : string) : list ascii := String.list_ascii_of_string s.

(** [collect_assigned_names] *)
Fixpoint stmt_assigned_names (s : Stmt.t) : list string :=
  match s with
  | Stmt.Assign dest _ =>
      if negb (String.eqb dest "") && forallb is_ident_char (chars dest) then [dest] else []
  | Stmt.If _ a b => flat_map stmt_assigned_names a ++ flat_map stmt_assigned_names b
  | Stmt.While _ b => flat_map stmt_assigned_names b
  | Stmt.Switch _ cases d =>
      flat_map (λ c, flat_map stmt_assigned_names (case_body c)) cases ++ flat_map stmt_assigned_names d
  | _ => []
  end.

(** [trim_matches] of what cannot be in a name *)
Fixpoint drop_nonident (l : list ascii) : list ascii :=
  match l with
  | c :: l' => if is_ident_char c then l else drop_nonident l'
  | [] => []
  end.
Definition trim_nonident (s : string) : string :=
  String.string_of_list_ascii (reverse (drop_nonident (reverse (drop_nonident (chars s))))).

Definition param_name (param : string) : option string :=
  name ← last (words_of "" param);
  let name := trim_nonident name in
  if decide (name = "") then None else Some name.

Definition is_digit (c : ascii) : bool := let n := nat_of_ascii c in bool_decide (48 ≤ n ≤ 57)%nat.
Definition is_synthetic (name : string) : bool :=
  bool_decide (name ∈ ["a"; "b"; "ret"]) ||
  match strip_prefix "cond_" name with
  | Some suffix => negb (String.eqb suffix "") && forallb is_digit (chars suffix)
  | None => false
  end.

Section placeholders.
Variable bound : gset string.

(** [expr_has_unresolved_placeholder] *)
Fixpoint expr_unresolved (e : Expr.t) : bool :=
  match e with
  | Expr.Name name => is_synthetic name && negb (bool_decide (name ∈ bound))
  | Expr.Call _ args => existsb expr_unresolved args
  | Expr.BinOp _ l r | Expr.Compare _ l r => expr_unresolved l || expr_unresolved r
  | Expr.UnaryOp _ a | Expr.Cast _ a | Expr.Load a => expr_unresolved a
  | Expr.Select c a b => expr_unresolved c || expr_unresolved a || expr_unresolved b
  | Expr.Int _ _ | Expr.UInt _ _ => false
  end.
(** [stmts_have_unresolved_placeholders] *)
Fixpoint stmt_unresolved (s : Stmt.t) : bool :=
  match s with
  | Stmt.Return (Some e) | Stmt.Assign _ e | Stmt.Expr e => expr_unresolved e
  | Stmt.If c a b => expr_unresolved c || existsb stmt_unresolved a || existsb stmt_unresolved b
  | Stmt.While c b => expr_unresolved c || existsb stmt_unresolved b
  | Stmt.Switch e cases d =>
      expr_unresolved e || existsb (λ c, existsb stmt_unresolved (case_body c)) cases
      || existsb stmt_unresolved d
  | _ => false
  end.
End placeholders.

Definition bound_names (a : TypedAst) : gset string :=
  list_to_set (omap param_name (params a)) ∪ list_to_set (flat_map stmt_assigned_names (body a)).
Definition ast_has_unresolved_placeholders (a : TypedAst) : bool :=
  existsb (stmt_unresolved (bound_names a)) (body a).

(** ** The checks, in order *)

Definition total_edges (sem : SemanticModel) : nat := sum_list (map length (sem_succ sem)).
Definition too_many_residual (sem : SemanticModel) (cand : TypedAstCandidate) : bool :=
  bool_decide (length (edges (coverage cand)) + residual_edges cand < total_edges sem - 1)%nat
  && bool_decide (total_edges sem / 2 + 4 < residual_edges cand)%nat.

Definition return_covered (cand : TypedAstCandidate) : bool :=
  effects_has (effects (coverage cand)) "return" || ast_has_return (body (ast cand)).

Definition expected_classes (contracts : ContractBundle) : gset string :=
  list_to_set (filter (λ c, c ≠ "unknown") (map value_class (return_exits contracts))).
Definition check_classes (contracts : ContractBundle) (l : list Stmt.t) (r : CheckReport) : CheckReport :=
  let expected := expected_classes contracts in
  let actual := return_classes l in
  if decide (size expected ≤ 1)%nat then r
  else if decide (size actual < size expected)%nat
  then reject StageChecker "collapsed_distinct_return_exits" r
  else if decide (expected ⊆ actual) then r
  else reject StageChecker "changed_distinct_return_exit_classes" r.

(** [hir]: the number of arguments of each call site. *)
Definition check_hir (hir : list nat) (a : TypedAst) (r : CheckReport) : CheckReport :=
  let actual := call_arg_counts (body a) in
  let r :=
    if decide (length actual < length hir)%nat then reject StageChecker "dropped_call_count" r
    else reject_if (bool_decide (length actual = length hir) && bool_decide (sum_list actual < sum_list hir)%nat)
           StageChecker "dropped_call_arguments" r in
  reject_if (ast_has_unresolved_placeholders a) StageChecker "unresolved_ast_placeholders" r.

Definition is_raw_block (s : Stmt.t) : bool := match s with Stmt.RawBlock _ => true | _ => false end.
Definition is_empty (l : list Stmt.t) : bool := match l with [] => true | _ => false end.

Definition initial_report (cand : TypedAstCandidate) : CheckReport :=
  mkReport true (length (edges (coverage cand))) (length (effects (coverage cand))) [] 1 0 None (hit_cap cand).

Definition check_typed_candidate_with_hir (sem : SemanticModel) (contracts : ContractBundle)
    (cand : TypedAstCandidate) (hir : option (list nat)) : CheckReport :=
  let l := body (ast cand) in
  let r := initial_report cand in
  let r := reject_if (too_many_residual sem cand) StageChecker "too_many_residual_edges" r in
  let r := reject_if (has_return (exit_class sem) && negb (return_covered cand)) StageChecker
             "missing_return_effect" r in
  let r := check_classes contracts l r in
  let r := match hir with Some hir => check_hir hir (ast cand) r | None => r end in
  let r := reject_if (is_empty l) StageExtract "empty_ast" r in
  let r := reject_if (existsb is_raw_block l) StageExtract "raw_block_not_allowed_on_pure" r in
  if accepted r then with_counts (candidates_tried r) 1 (hit_candidate_cap r) r else r.

Definition check_typed_candidate (sem : SemanticModel) (contracts : ContractBundle)
    (cand : TypedAstCandidate) : CheckReport := check_typed_candidate_with_hir sem contracts cand None.

Definition reject_if_missing_effect (cand : TypedAstCandidate) (effect : string) : bool :=
  negb (effects_has (effects (coverage cand)) effect
        || (String.eqb effect "return" && ast_has_return (body (ast cand)))).
