(* ===== verification/V2Engine.v ===== *)
(** The engine of the second decompiler: decompiler/v2/engine.rs, with the modes
    and the artifact of artifact.rs. The region extractor, the contracts, the
    HIR and the legacy text are inputs; [fold] stands for the textual fold of
    structure/emit_fold.rs. *)

From stdpp Require Import pretty.
From Stdlib Require Import Strings.Ascii Strings.String.
From S2P Require Import Prelude Text Data Activity Ssa Pcode Region Semantic Ast CfgAst CheckAst.
Import Types.

Local Open Scope string_scope.

(** ** artifact.rs *)

Inductive DecompileMode := LegacyMode | ShadowV2 | V2Mode.
Inductive DecompileEngine := EngineV2 | EngineLegacy.

Record DecompileOptions := mkOptions {
  opt_mode : DecompileMode;
  allow_legacy_fallback : bool;
  shadow_only : bool;
  max_candidates : nat;
  beam_width : nat
}.
Definition production : DecompileOptions := mkOptions V2Mode true false (Z.to_nat 2048) 8.
Definition pure_no_fallback : DecompileOptions := mkOptions V2Mode false false (Z.to_nat 2048) 8.
Definition legacy_only : DecompileOptions := mkOptions LegacyMode true false (Z.to_nat 2048) 8.
Definition shadow_v2 : DecompileOptions := mkOptions ShadowV2 true true (Z.to_nat 2048) 8.

Definition effective_mode (o : DecompileOptions) : DecompileMode :=
  if shadow_only o then ShadowV2 else opt_mode o.

Record LegacyDelta := mkDelta {
  pure_text_len : nat;
  legacy_text_len : nat;
  texts_equal : bool;
  pure_engine_would_be : string
}.

Record DecompileArtifact := mkArtifact {
  text : string;
  ast_summary : string;
  typed_ast : option TypedAst;
  art_contracts : ContractBundle;
  check_report : CheckReport;
  presentation_cost : Z;
  diagnostics : list string;
  engine : DecompileEngine;
  fallback_reason : option string;
  contract_fingerprint : string;
  legacy_delta : option LegacyDelta;
  art_hit_candidate_cap : bool
}.

(** ** Candidates *)

Section engine.
Context {P : Type} `{PcodeView P}.
Variable ssa : SsaFunction P.
Variable sem : SemanticModel.
Variable contracts : ContractBundle.
Variable switches : list SwitchInfo.
Variable hir : list nat.
Variable opts : DecompileOptions.
Variables region_cand seed : TypedAstCandidate.
Implicit Types c : TypedAstCandidate.

Definition all_candidates : list TypedAstCandidate :=
  region_cand :: generate_alternatives region_cand ssa contracts switches (Nat.max (beam_width opts) 1)
  ++ [seed].
Definition cap_hit : bool := bool_decide (max_candidates opts ≤ length all_candidates)%nat.

(** [sort_by_key(|c| (c.residual_edges, c.cost))] *)
Definition key_le c c' : Prop :=
  (residual_edges c < residual_edges c')%nat ∨ residual_edges c = residual_edges c' ∧ (cost c ≤ cost c')%Z.
#[export] Instance key_le_dec : RelDecision key_le.
Proof. unfold RelDecision, key_le. apply _. Defined.
Definition candidates : list TypedAstCandidate := merge_sort key_le (take (max_candidates opts) all_candidates).

Definition check c : CheckReport := check_typed_candidate_with_hir sem contracts (with_cap cap_hit c) (Some hir).

(** ** The loop over the candidates *)

Definition better c (best : option (TypedAstCandidate * CheckReport)) : bool :=
  match best with Some (b, _) => bool_decide (cost c < cost b)%Z | None => true end.

(** The candidate accepted first, or the cheapest rejected one; and how many were
    tried. *)
Fixpoint try_candidates (l : list TypedAstCandidate) (tried : nat)
    (best : option (TypedAstCandidate * CheckReport))
    : TypedAstCandidate * CheckReport + option (TypedAstCandidate * CheckReport) * nat :=
  match l with
  | [] => inr (best, tried)
  | c :: l =>
      let tried := S tried in
      let rep := check c in
      if accepted rep then inl (with_cap cap_hit c, with_counts tried 1 cap_hit rep)
      else
        let rep := with_counts tried (candidates_accepted rep) cap_hit rep in
        try_candidates l tried
          (if better c best then Some (with_cap cap_hit c, rep) else best)
  end.

Definition select : TypedAstCandidate * CheckReport :=
  match try_candidates candidates 0 None with
  | inl chosen => chosen
  | inr (Some (c, rep), tried) =>
      (c, with_counts (Nat.max tried 1) (candidates_accepted rep) cap_hit rep)
  | inr (None, tried) =>
      let rep := check seed in
      (with_cap cap_hit seed, with_counts (Nat.max tried 1) (candidates_accepted rep) cap_hit rep)
  end.

(** The selection, and the verdict of the HIR validation on it. *)
Definition selected (hir_ok : bool) : TypedAstCandidate * CheckReport :=
  let '(c, rep) := select in
  (c, if hir_ok then rep
      else with_rejects false (rejects rep ++ ["hir_validation_failed"]) (Some StageHir) rep).

(** ** The artifact *)

Variable fold : string → string.
(** The text [legacy_decompile] gives. *)
Variable legacy_decompile : string.

Definition legacy_text : string :=
  match effective_mode opts with
  | LegacyMode | ShadowV2 => legacy_decompile
  | V2Mode => if allow_legacy_fallback opts then legacy_decompile else ""
  end.

Definition normalize_decomp_text (s : string) : string :=
  join newline (filter (λ l, l ≠ "") (map trim_end (lines_of "" s))).

Definition first_reject (r : CheckReport) : string := default "checker_reject" (head (rejects r)).
Definition show_bool (b : bool) : string := if b then "true" else "false".

Definition legacy_artifact (txt reason : string) (rep : CheckReport) (delta : LegacyDelta) : DecompileArtifact :=
  mkArtifact txt ("legacy_fallback:" +:+ reason) None contracts rep (i32_wrap (Z.of_nat (edges_covered rep)))
    ["fallback:" +:+ reason] EngineLegacy (Some reason) (fingerprint contracts) (Some delta) cap_hit.

Definition decompile_function_v2_with_raw (hir_ok : bool) : DecompileArtifact :=
  let '(cand, rep) := selected hir_ok in
  let pure_text := fold (print_typed_ast (ast cand)) in
  let delta := mkDelta (String.length pure_text) (String.length legacy_text)
                 (String.eqb (normalize_decomp_text pure_text) (normalize_decomp_text legacy_text)) "V2" in
  let made txt summary rep diags eng :=
    mkArtifact txt summary (Some (ast cand)) contracts rep (cost cand) diags eng None
      (fingerprint contracts) (Some delta) cap_hit in
  match effective_mode opts with
  | LegacyMode => made legacy_text "legacy_mode" rep ["legacy_mode"] EngineLegacy
  | ShadowV2 =>
      made (if String.eqb legacy_text "" then pure_text else legacy_text)
        ("shadow_v2_cost=" +:+ pretty (cost cand)) rep ["shadow_v2"] EngineLegacy
  | V2Mode =>
      let fall_back := allow_legacy_fallback opts && negb (String.eqb (trim legacy_text) "") in
      if negb (String.eqb (trim pure_text) "") then
        if negb (accepted rep) && fall_back
        then legacy_artifact legacy_text (first_reject rep) rep delta
        else
          let rep := if accepted rep then rep
                     else with_rejects (accepted rep) (rejects rep ++ ["shipped_best_rejected_candidate"])
                            (failure_stage rep) rep in
          made pure_text
            ("v2_typed_ast residual=" +:+ pretty (residual_edges cand) +:+ " effects="
             +:+ pretty (length (effects (coverage cand))) +:+ " nesting=" +:+ pretty (nesting cand)
             +:+ " accepted=" +:+ show_bool (accepted rep))
            rep ["v2_typed_ast_printer"; "v2_no_structure_emit"; "v2_no_presentation"] EngineV2
      else if fall_back
      then legacy_artifact legacy_text (first_reject rep) rep delta
      else made pure_text ("v2_pure_no_fallback residual=" +:+ pretty (residual_edges cand)) rep
             ["v2_no_fallback"; "v2_empty"] EngineV2
  end.
End engine.

(** ** The signature *)

Definition signature_bits (sig : option FunctionSignature) (entry : Z) : string * list string :=
  let fun_name := "FUN_" +:+ hex entry in
  match sig with
  | Some s =>
      (if String.eqb (sig_name s) "" then fun_name else sig_name s,
       imap (λ i p, "u64 " +:+ if String.eqb p.1 "" then "arg" +:+ pretty (i + 1)%nat else p.1) (sig_params s))
  | None => (fun_name, [])
  end.
