(* ===== verification/V2EngineCorrect.v ===== *)
(** What the checker accepts, which candidate the engine ships, and a candidate
    it always prefers to the function. *)

From stdpp Require Import pretty.
From Stdlib Require Import Strings.String.
From S2P Require Import Prelude Text Data Activity Cfg Ssa Pcode Region Semantic Ast AstSem CfgAst.
From S2P Require Import CfgAstCorrect AlternativesCorrect CheckAst V2Engine.


(** ** The checker *)

Lemma accepted_reject_if b stage reason r :
  accepted (reject_if b stage reason r) = accepted r && negb b.
Proof. destruct b; cbn; [by rewrite andb_false_r|by rewrite andb_true_r]. Qed.

Lemma accepted_check_classes contracts l r :
  accepted (check_classes contracts l r) =
  accepted r && bool_decide (size (expected_classes contracts) ≤ 1 ∨
                             expected_classes contracts ⊆ return_classes l).
Proof.
  unfold check_classes. destruct (decide (size _ ≤ 1)) as [S|S].
  { by rewrite bool_decide_true, andb_true_r by by left. }
  destruct (decide (size (return_classes l) < _)) as [L|L].
  { rewrite bool_decide_false, andb_false_r; [done|]. intros [?|Sub]; [done|].
    apply subseteq_size in Sub. lia. }
  destruct (decide (_ ⊆ _)) as [Sub|N].
  - by rewrite bool_decide_true, andb_true_r by by right.
  - rewrite bool_decide_false, andb_false_r; [done|]. by intros [?|?].
Qed.

(** The call sites of the HIR are kept. *)
Definition calls_kept (hir : list nat) (l : list Stmt.t) : Prop :=
  length hir ≤ length (call_arg_counts l) ∧
  (length (call_arg_counts l) = length hir → sum_list hir ≤ sum_list (call_arg_counts l)).

Lemma accepted_check_hir hir a r :
  accepted (check_hir hir a r) = true ↔
  accepted r = true ∧ calls_kept hir (body a) ∧ ast_has_unresolved_placeholders a = false.
Proof.
  unfold check_hir, calls_kept. rewrite accepted_reject_if, andb_true_iff, negb_true_iff.
  case_decide; [cbn; intuition (try lia; done)|].
  rewrite accepted_reject_if, andb_true_iff, negb_true_iff, andb_false_iff, !bool_decide_eq_false.
  intuition lia.
Qed.

(** What an accepted candidate has. *)
Record passes (sem : SemanticModel) (contracts : ContractBundle) (hir : list nat)
    (cand : TypedAstCandidate) : Prop := {
  pass_residual : too_many_residual sem cand = false;
  pass_return : has_return (exit_class sem) = true → return_covered cand = true;
  pass_classes : size (expected_classes contracts) ≤ 1 ∨
                 expected_classes contracts ⊆ return_classes (body (ast cand));
  pass_calls : calls_kept hir (body (ast cand));
  pass_placeholders : ast_has_unresolved_placeholders (ast cand) = false;
  pass_body : body (ast cand) ≠ [];
  pass_raw : existsb is_raw_block (body (ast cand)) = false
}.

Lemma check_accepts sem contracts hir cand :
  accepted (check_typed_candidate_with_hir sem contracts cand (Some hir)) = true
  ↔ passes sem contracts hir cand.
Proof.
  unfold check_typed_candidate_with_hir.
  match goal with |- accepted (if accepted ?r then _ else _) = true ↔ _ => set (rep := r) end.
  assert (accepted (if accepted rep then with_counts (candidates_tried rep) 1 (hit_candidate_cap rep) rep
                    else rep) = accepted rep) as -> by by destruct (accepted rep) eqn:E.
  unfold rep. clear rep.
  rewrite !accepted_reject_if, !andb_true_iff, !negb_true_iff, accepted_check_hir, accepted_check_classes,
    !andb_true_iff, bool_decide_eq_true, !accepted_reject_if. cbn [initial_report accepted andb].
  rewrite !andb_true_iff, !negb_true_iff, andb_false_iff, negb_false_iff.
  assert (∀ l, is_empty l = false ↔ l ≠ []) as Em by (by intros []).
  rewrite Em. split.
  - intros (((((Re & [Rt|Rt]) & Cl) & Ca & Pl) & Ne) & Rw); split; try done; by rewrite Rt.
  - intros [Re Rt Cl Ca Pl Ne Rw]. split_and!; try done.
    destruct (has_return (exit_class sem)); [right; by apply Rt|by left].
Qed.

(** ** The switch in front passes where the candidate does *)

Lemma label_switch_calls ls : stmt_call_arg_counts (label_switch ls) = [].
Proof. unfold label_switch. cbn. rewrite app_nil_r. induction ls as [|v ls IH]; cbn; [done|]. exact IH. Qed.
Lemma label_switch_names ls : stmt_assigned_names (label_switch ls) = [].
Proof. unfold label_switch. cbn. rewrite app_nil_r. induction ls as [|v ls IH]; cbn; [done|]. exact IH. Qed.
Lemma label_switch_resolved bound ls : stmt_unresolved bound (label_switch ls) = false.
Proof. unfold label_switch. cbn. rewrite orb_false_r. induction ls as [|v ls IH]; cbn; [done|]. exact IH. Qed.
Lemma label_switch_returns ls : stmt_has_return (label_switch ls) = true.
Proof. unfold label_switch. cbn. apply orb_true_r. Qed.

(** The candidate with the switch in front. *)
Definition fronted (ls : list Z) (cand : TypedAstCandidate) : TypedAstCandidate :=
  with_score (residual_edges cand - length ls) (i32_sub (cost cand) (i32_wrap (Z.of_nat (length ls)) * 3))
    (nesting cand + 1) (with_body (label_switch ls :: body (ast cand)) cand).

Lemma try_switch_fronted seed contracts switches ls :
  switch_labels contracts switches = ls → ls ≠ [] → try_switch_ast seed contracts switches = Some (fronted ls seed).
Proof. unfold try_switch_ast. intros -> N. by destruct ls. Qed.

#[local] Arguments label_switch : simpl never.

Lemma fronted_passes sem contracts hir ls cand hit :
  residual_edges cand ≤ total_edges sem / 2 + 4 →
  passes sem contracts hir (with_cap hit cand) → passes sem contracts hir (with_cap hit (fronted ls cand)).
Proof.
  intros Small [Re Rt Cl [Ca1 Ca2] Pl Ne Rw]. cbn in *. split; cbn.
  - unfold too_many_residual. apply andb_false_iff. right. apply bool_decide_eq_false. cbn. lia.
  - intros _. unfold return_covered. cbn. by rewrite label_switch_returns, orb_true_r.
  - destruct Cl as [?|Sub]; [by left|right]. unfold return_classes in *. cbn [flat_map].
    rewrite list_to_set_app. set_solver.
  - unfold calls_kept, call_arg_counts in *. cbn [flat_map]. by rewrite label_switch_calls.
  - unfold ast_has_unresolved_placeholders, bound_names in *. cbn [body params existsb flat_map].
    by rewrite label_switch_names, label_switch_resolved.
  - done.
  - done.
Qed.

(** ** The selection *)

Section engine.
Context {P : Type} `{PcodeView P}.
Variable ssa : SsaFunction P.
Variable sem : SemanticModel.
Variable contracts : ContractBundle.
Variable switches : list SwitchInfo.
Variable hir : list nat.
Variable opts : DecompileOptions.
Variables region_cand seed : TypedAstCandidate.
Notation candidates := (candidates ssa contracts switches opts region_cand seed).
Notation cap_hit := (cap_hit ssa contracts switches opts region_cand seed).
Notation check := (check ssa sem contracts switches hir opts region_cand seed).
Notation try_candidates := (try_candidates ssa sem contracts switches hir opts region_cand seed).
Notation select := (select ssa sem contracts switches hir opts region_cand seed).
Notation key_le := V2Engine.key_le.
Implicit Types c : TypedAstCandidate.

#[local] Instance key_le_trans : Transitive key_le.
Proof. intros x y z. unfold V2Engine.key_le. lia. Qed.
#[local] Instance key_le_total : Total key_le.
Proof. intros x y. unfold V2Engine.key_le. lia. Qed.

(** The cheapest of the rejected candidates; the earliest of the cheapest. *)
Definition cheapest (l : list TypedAstCandidate) c : Prop := c ∈ l ∧ ∀ c', c' ∈ l → (cost c ≤ cost c')%Z.

Definition best_of (l : list TypedAstCandidate) (best : option (TypedAstCandidate * CheckReport)) : Prop :=
  match best with
  | None => l = []
  | Some (b, rep) => ∃ c, cheapest l c ∧ b = with_cap cap_hit c ∧ rejects rep = rejects (check c) ∧ accepted rep = false
  end.

Lemma try_candidates_spec before l best :
  Forall (λ c, accepted (check c) = false) before → best_of before best →
  match try_candidates l (length before) best with
  | inl (c, rep) =>
      ∃ l1 c0 l2, l = l1 ++ c0 :: l2 ∧ c = with_cap cap_hit c0 ∧
        Forall (λ c, accepted (check c) = false) l1 ∧ accepted (check c0) = true ∧
        accepted rep = true ∧ rejects rep = rejects (check c0) ∧
        candidates_tried rep = length before + length l1 + 1
  | inr (best, tried) =>
      tried = length before + length l ∧ Forall (λ c, accepted (check c) = false) l ∧ best_of (before ++ l) best
  end.
Proof.
  revert before best. induction l as [|c l IH]; intros before best F B; cbn [V2Engine.try_candidates].
  { by rewrite Nat.add_0_r, app_nil_r. }
  destruct (accepted (check c)) eqn:A.
  { exists [], c, l. cbn. split_and!; done || lia. }
  set (rep := with_counts _ _ _ (check c)).
  set (best' := if better c best then _ else best).
  assert (best_of (before ++ [c]) best') as B'.
  { unfold best', better, best_of in *. destruct best as [[b rb]|].
    - destruct B as (b0 & [In Min] & -> & Rj & Ac). cbn [with_cap cost]. case_bool_decide as L.
      + exists c. split_and!; [|done..]. split; [set_solver|]. intros c' [H'| ->%list_elem_of_singleton]%elem_of_app; [|lia].
        specialize (Min c' H'). lia.
      + exists b0. split_and!; [|done..]. split; [set_solver|].
        intros c' [H'| ->%list_elem_of_singleton]%elem_of_app; [by apply Min|lia].
    - subst before. exists c. split_and!; [|done..]. split; [set_solver|].
      intros c' ->%list_elem_of_singleton. done. }
  specialize (IH (before ++ [c]) best'). rewrite length_app, Nat.add_1_r in IH.
  assert (Forall (λ c, accepted (check c) = false) (before ++ [c])) as F' by (apply Forall_app; by repeat constructor).
  specialize (IH F' B').
  destruct (try_candidates l (S (length before)) best') as [[c1 r1]|[b1 t1]].
  - destruct IH as (l1 & c0 & l2 & -> & -> & F1 & A1 & A2 & Rj & Tr). exists (c :: l1), c0, l2.
    split_and!; try done; [by constructor|]. cbn. lia.
  - destruct IH as (Tr & F1 & B1). split_and!; [cbn; lia|by constructor|]. by rewrite <-app_assoc in B1.
Qed.

Definition rejected_all (l : list TypedAstCandidate) : Prop := Forall (λ c, accepted (check c) = false) l.

Lemma select_spec :
  let '(c, rep) := select in
  (∃ l1 c0 l2, candidates = l1 ++ c0 :: l2 ∧ c = with_cap cap_hit c0 ∧ rejected_all l1 ∧
     accepted (check c0) = true ∧ accepted rep = true) ∨
  (rejected_all candidates ∧ accepted rep = false ∧ ∃ c0, cheapest candidates c0 ∧ c = with_cap cap_hit c0) ∨
  (candidates = [] ∧ c = with_cap cap_hit seed).
Proof.
  unfold V2Engine.select. pose proof (try_candidates_spec [] candidates None) as T. cbn [length app best_of] in T.
  specialize (T (List.Forall_nil _) eq_refl).
  destruct (try_candidates candidates 0 None) as [[c rep]|[[[c rep]|] tried]].
  - left. destruct T as (l1 & c0 & l2 & ? & ? & ? & ? & ? & _). by exists l1, c0, l2.
  - right. left. destruct T as (_ & F & c0 & Ch & -> & _ & A). split_and!; [done..|]. by exists c0.
  - right. right. by destruct T as (_ & _ & ->).
Qed.

Lemma elem_of_candidates c : c ∈ candidates ↔ c ∈ take (max_candidates opts)
  (all_candidates ssa contracts switches opts region_cand seed).
Proof. unfold V2Engine.candidates. by rewrite merge_sort_Permutation. Qed.

Lemma candidates_nonempty : 0 < max_candidates opts → candidates ≠ [].
Proof.
  intros L E. assert (region_cand ∈ candidates) as In; [|rewrite E in In; by apply not_elem_of_nil in In].
  apply elem_of_candidates. destruct (max_candidates opts); [lia|]. by left.
Qed.

Lemma check_passes c :
  accepted (check c) = true ↔ passes sem contracts hir (with_cap cap_hit c).
Proof. apply check_accepts. Qed.

(** What is selected passes the checker exactly when it is accepted, and it is
    accepted exactly when some candidate passes. *)
Lemma select_accepted :
  0 < max_candidates opts →
  (accepted select.2 = true ↔ ∃ c, c ∈ candidates ∧ passes sem contracts hir (with_cap cap_hit c)) ∧
  ∃ c, c ∈ candidates ∧ select.1 = with_cap cap_hit c ∧
       (accepted select.2 = true → passes sem contracts hir (with_cap cap_hit c)).
Proof.
  intros L. pose proof select_spec as S. destruct (select) as [c rep]. cbn [fst snd].
  destruct S as [(l1 & c0 & l2 & E & -> & F & A & Ar)|[(F & Ar & c0 & [In _] & ->)|[E _]]].
  - assert (c0 ∈ candidates) as In by (rewrite E; set_solver). apply check_passes in A.
    split; [split; [|done]|]; intros; exists c0; by split_and!.
  - split; [|exists c0; split_and!; [done..|by rewrite Ar]]. rewrite Ar. split; [done|].
    intros (c & Hc & Pc%check_passes). eapply Forall_forall in F; [|exact Hc]. congruence.
  - by apply candidates_nonempty in L.
Qed.
End engine.

(** ** Claims *)

Section claims.
Context {P : Type} `{PcodeView P}.
Variable ssa : SsaFunction P.
Variable sem : SemanticModel.
Variable contracts : ContractBundle.
Variable switches : list SwitchInfo.
Variable hir : list nat.
Variable opts : DecompileOptions.
Variables region_cand seed : TypedAstCandidate.
Notation candidates := (candidates ssa contracts switches opts region_cand seed).
Notation cap_hit := (cap_hit ssa contracts switches opts region_cand seed).
Notation selection := (V2Engine.select ssa sem contracts switches hir opts region_cand seed).

Notation artifact := (decompile_function_v2_with_raw ssa sem contracts switches hir opts region_cand seed).

(** The verdict, and the candidate that text by the second engine prints. *)
Lemma artifact_report fold legacy hir_ok :
  0 < max_candidates opts →
  let a := artifact fold legacy hir_ok in
  (accepted (check_report a) = true ↔
     hir_ok = true ∧ ∃ c, c ∈ candidates ∧ passes sem contracts hir (with_cap cap_hit c)) ∧
  (engine a = EngineV2 →
     ∃ c, c ∈ candidates ∧ typed_ast a = Some (ast c) ∧ text a = fold (print_typed_ast (ast c)) ∧
          (accepted (check_report a) = true → passes sem contracts hir (with_cap cap_hit c))).
Proof.
  intros L. destruct (select_accepted ssa sem contracts switches hir opts region_cand seed L)
    as [Acc (c & Hc & Ec & Pc)].
  cbn zeta. unfold decompile_function_v2_with_raw, selected.
  destruct selection as [cand rep]. cbn [fst snd] in *. subst cand.
  set (rep' := if hir_ok then rep else _).
  assert (accepted rep' = true ↔ hir_ok = true ∧
    ∃ c, c ∈ candidates ∧ passes sem contracts hir (with_cap cap_hit c)) as Acc'.
  { unfold rep'. destruct hir_ok; cbn; [rewrite Acc; naive_solver|naive_solver]. }
  assert (accepted rep' = true → passes sem contracts hir (with_cap cap_hit c)) as Pc'.
  { intros E. apply Pc. unfold rep' in E. by destruct hir_ok. }
  assert (∀ (b : bool) x y z, accepted (if b then rep' else with_rejects (accepted rep') x y z) = accepted rep') as Keep
    by by intros [].
  destruct (effective_mode opts); [by split|by split|].
  destruct (negb (String.eqb (trim _) "")).
  - destruct (negb (accepted rep') && _); [by split|]. cbn. rewrite Keep.
    split; [done|]. intros _. exists c. by split_and!.
  - destruct (allow_legacy_fallback opts && _); [by split|]. split; [done|]. intros _. exists c. by split_and!.
Qed.

(** C15: the artifact is honest. Its report says accepted exactly when the HIR is
    valid and some candidate passes every check; text by the second engine is
    the printed AST of a candidate, the one the report is about; legacy text
    appears only where the mode or the fallback asks for it, and a fallback only
    for a rejected candidate or an empty text, with its reason. *)
Theorem artifact_honest fold legacy hir_ok :
  0 < max_candidates opts →
  let a := artifact fold legacy hir_ok in
  (accepted (check_report a) = true ↔
     hir_ok = true ∧ ∃ c, c ∈ candidates ∧ passes sem contracts hir (with_cap cap_hit c)) ∧
  (engine a = EngineV2 →
     ∃ c, c ∈ candidates ∧ typed_ast a = Some (ast c) ∧ text a = fold (print_typed_ast (ast c)) ∧
          (accepted (check_report a) = true → passes sem contracts hir (with_cap cap_hit c))) ∧
  (engine a = EngineLegacy → effective_mode opts = V2Mode →
     allow_legacy_fallback opts = true ∧ text a = legacy ∧ is_Some (fallback_reason a) ∧ typed_ast a = None) ∧
  (engine a = EngineLegacy → effective_mode opts ≠ V2Mode → fallback_reason a = None) ∧
  (effective_mode opts = LegacyMode → text a = legacy).
Proof.
  intros L. destruct (artifact_report fold legacy hir_ok L) as [Acc Who].
  split; [exact Acc|]. split; [exact Who|]. clear Acc Who. cbn zeta.
  unfold decompile_function_v2_with_raw, legacy_text. destruct (selected _ _ _ _ _ _ _ _ _) as [cand rep].
  destruct (effective_mode opts); [by split_and!..|].
  destruct (negb (String.eqb (trim _) "")).
  - destruct (negb (accepted rep) && _) eqn:F; [|by split_and!].
    apply andb_true_iff in F as [_ [A _]%andb_true_iff]. rewrite A. cbn. split_and!; done || by eexists.
  - destruct (allow_legacy_fallback opts && _) eqn:F; [|by split_and!].
    apply andb_true_iff in F as [A _]. rewrite A. cbn. split_and!; done || by eexists.
Qed.

(** The switch in front comes before everything made from the candidate. *)
Lemma fronted_first ls c :
  switch_labels contracts switches = ls → 2 ≤ length ls →
  (- 2 ^ 31 + 3 * Z.of_nat (length ls) ≤ cost region_cand < 2 ^ 31)%Z →
  c ∈ all_candidates ssa contracts switches opts region_cand seed →
  V2Engine.key_le c (fronted ls region_cand) → c = fronted ls region_cand ∨ c = seed.
Proof.
  intros Els L2 Co Hc Ke. unfold all_candidates in Hc.
  assert (i32_wrap (Z.of_nat (length ls)) = Z.of_nat (length ls)) as W
    by (unfold i32_wrap; rewrite Z.mod_small by lia; lia).
  assert (cost (fronted ls region_cand) = cost region_cand - 3 * Z.of_nat (length ls))%Z as Cf.
  { cbn. rewrite W. unfold i32_sub. lia. }
  assert (∀ d c, (0 ≤ d ≤ 5)%Z → residual_edges c = residual_edges region_cand →
    (i32_sub (cost region_cand) d ≤ cost c)%Z → ¬ V2Engine.key_le c (fronted ls region_cand)) as No.
  { intros d c' D Er Ec [Lt|[_ Le]]; [rewrite Er in Lt; cbn in Lt; lia|]. rewrite Cf in Le. unfold i32_sub in Ec. lia. }
  assert (¬ V2Engine.key_le region_cand (fronted ls region_cand)) as NoR.
  { apply (No 0%Z); try done. unfold i32_sub. lia. }
  apply elem_of_cons in Hc as [->|Hc]; [done|].
  apply elem_of_app in Hc as [Hc| ->%list_elem_of_singleton]; [|by right].
  apply (subseteq_take _ _ _) in Hc. apply elem_of_cons in Hc as [->|Hc]; [done|].
  apply elem_of_app in Hc as [Hc|Hc].
  { unfold try_while_from_backedge in Hc. destruct (has_back_edge ssa); [|by apply not_elem_of_nil in Hc].
    apply list_elem_of_singleton in Hc as ->. by eapply (No 5%Z) in Ke. }
  apply elem_of_app in Hc as [Hc|Hc].
  { left. rewrite (try_switch_fronted region_cand contracts switches ls Els) in Hc by (by destruct ls; cbn in L2; [lia|]).
    destruct (bundle_cases contracts), switches; try (by apply not_elem_of_nil in Hc);
      by apply list_elem_of_singleton in Hc. }
  unfold try_invert_outer_if_ast in Hc.
  destruct (invert_first_if (body (ast region_cand))) as [l|]; [|by apply not_elem_of_nil in Hc].
  apply list_elem_of_singleton in Hc as ->. by eapply (No 1%Z) in Ke.
Qed.

Lemma fronted_generated ls :
  switch_labels contracts switches = ls → ls ≠ [] → 3 ≤ beam_width opts → 6 ≤ max_candidates opts →
  fronted ls region_cand ∈ candidates.
Proof.
  intros Els N Bw Mc. apply elem_of_candidates.
  unfold all_candidates, generate_alternatives.
  rewrite (try_switch_fronted region_cand contracts switches ls Els N).
  assert (switch_labels contracts switches ≠ []) as N' by by rewrite Els.
  rewrite take_ge.
  - right. apply elem_of_app. left.
    replace (Nat.max (Nat.max (beam_width opts) 1) 1) with (S (S (S (beam_width opts - 3)))) by lia.
    destruct (try_while_from_backedge ssa region_cand); unfold switch_labels in N';
      destruct (bundle_cases contracts), switches; cbn; try done; set_solver.
  - cbn. rewrite length_app, length_take. cbn. rewrite !length_app.
    destruct (try_while_from_backedge ssa region_cand), (try_invert_outer_if_ast region_cand),
      (bundle_cases contracts), switches; cbn; lia.
Qed.

End claims.

(** ** A function with a switch *)

Module SwitchSample.
Definition ssa : SsaFunction PcodeOp :=
  Diamond.fn [Diamond.block 0 [Diamond.op 0x1000 (Call (mkVarnode Ram 0x2000 8)); Diamond.op 0x1004 Return] []].
Definition sem : SemanticModel := from_raw_pcode ssa.
Definition contracts : ContractBundle :=
  mkContracts [] [mkCaseContract 2 false [1; 2]%Z "branch_ind"] "return" true [].
(** The call and the return, as a region extractor gives them. *)
Definition region_cand : TypedAstCandidate :=
  mkCandidate (mkAst "f" ["u64 arg1"] "uint64"
                 [Stmt.Expr (Expr.Call "FUN_2000" [Expr.Name "arg1"]); Stmt.Return (Some (Expr.UInt 0 64))])
    (mkCoverage [] ["call:FUN_2000"; "return"]) 0 [] 1 1 false.
Definition seed : TypedAstCandidate :=
  seed_lossless_ast Diamond.no_debug ssa sem contracts "f" ["u64 arg1"].
Definition artifact : DecompileArtifact :=
  decompile_function_v2_with_raw ssa sem contracts [] [1] production region_cand seed id "legacy" true.

Lemma region_passes : passes sem contracts [1]
  (with_cap (cap_hit ssa contracts [] production region_cand seed) region_cand).
Proof. apply check_accepts. by vm_compute. Qed.
Lemma seed_fails : ¬ passes sem contracts [1]
  (with_cap (cap_hit ssa contracts [] production region_cand seed) seed).
Proof. intros H%check_accepts. by vm_compute in H. Qed.

Example shipped_text :
  engine artifact = EngineV2 ∧ accepted (check_report artifact) = true ∧
  lines_of "" (text artifact) =
    ["uint64 f(u64 arg1) {"; " switch (arg1) {"; "  case 1:"; "  return 0x1;"; "  break;"; "  case 2:";
     "  return 0x2;"; "  break;"; "  default:"; "  return 0x0;"; " }"; " FUN_2000(arg1);"; " return 0x0;"; "}"].
Proof. by vm_compute. Qed.
End SwitchSample.
Import SwitchSample.

Lemma artifact_honest_witness :
  0 < max_candidates production ∧
  ∃ c, typed_ast artifact = Some (ast c) ∧ text artifact = print_typed_ast (ast c).
Proof.
  split; [vm_compute; lia|].
  destruct (artifact_honest ssa sem contracts [] [1] production region_cand seed id "legacy" true)
    as (_ & E & _); [vm_compute; lia|].
  destruct E as (c & _ & T & X & _); [exact (proj1 shipped_text)|]. by exists c.
Defined.

