(* ===== verification/PrintParse.v ===== *)
(** The expressions print_ast.rs prints are read back as C: a lexer that takes
    the longest operator, and a precedence-climbing parser, against the printer's
    spacing and binding powers; and the expressions whose text means something
    else. *)

From Stdlib Require Import Strings.Ascii Strings.String.
From S2P Require Import Prelude Text Activity Ast.

Local Open Scope string_scope.
Local Open Scope list_scope.
Local Open Scope nat_scope.

(** ** Tokens *)

Inductive Tok :=
  | TName (s : string)
  | TNum (z : Z)
  | TOp (op : string)
  | TType (ty : string)
  | TOpen | TClose | TComma | TQuestion | TColon.
Inductive Piece := T (t : Tok) | Space.

Definition tok_text (t : Tok) : string :=
  match t with
  | TName s | TOp s | TType s => s
  | TNum z => alt_hex z
  | TOpen => "(" | TClose => ")" | TComma => "," | TQuestion => "?" | TColon => ":"
  end.
Definition piece_text (p : Piece) : string := match p with T t => tok_text t | Space => " " end.
Definition text_of (l : list Piece) : string := foldr (λ p s, piece_text p +:+ s) "" l.
Definition toks (l : list Piece) : list Tok := omap (λ p, match p with T t => Some t | Space => None end) l.

Definition infix (t : Tok) : list Piece := [Space; T t; Space].
Definition paren_pieces (l : list Piece) (need : bool) : list Piece :=
  if need then T TOpen :: l ++ [T TClose] else l.
Fixpoint commas (l : list (list Piece)) : list Piece :=
  match l with
  | [] => []
  | [x] => x
  | x :: l => x ++ [T TComma; Space] ++ commas l
  end.

(** The text of [print_expr] in pieces. *)
Fixpoint pieces (e : Expr.t) (parent_bp : nat) : list Piece :=
  match e with
  | Expr.Name name => [T (TName name)]
  | Expr.Int value _ => if (value <? 0)%Z then [T (TOp "-"); T (TNum (- value))] else [T (TNum value)]
  | Expr.UInt value _ => [T (TNum value)]
  | Expr.BinOp op lhs rhs =>
      let bp := bin_bp op in
      paren_pieces (pieces lhs bp ++ infix (TOp op) ++ pieces rhs (bp + 1)) (below bp parent_bp)
  | Expr.UnaryOp op arg => paren_pieces (T (TOp op) :: pieces arg 14) (below 14 parent_bp)
  | Expr.Cast ty arg => [T TOpen; T (TType ty); T TClose] ++ pieces arg 14
  | Expr.Call target args =>
      [T (TName target); T TOpen] ++ commas (map (λ x, pieces x 0) args) ++ [T TClose]
  | Expr.Load addr => [T (TOp "*"); T TOpen] ++ pieces addr 0 ++ [T TClose]
  | Expr.Select cond then_e else_e =>
      paren_pieces (pieces cond 3 ++ infix TQuestion ++ pieces then_e 3 ++ infix TColon ++ pieces else_e 2)
        (below 2 parent_bp)
  | Expr.Compare op lhs rhs =>
      paren_pieces (pieces lhs 7 ++ infix (TOp op) ++ pieces rhs 8) (below 7 parent_bp)
  end.
Definition tokens (e : Expr.t) (bp : nat) : list Tok := toks (pieces e bp).

(** ** The grammar of C *)

Inductive CExpr :=
  | CName (s : string)
  | CNum (z : Z)
  | CUn (op : string) (e : CExpr)
  | CCast (ty : string) (e : CExpr)
  | CBin (op : string) (l r : CExpr)
  | CCond (c t f : CExpr)
  | CCall (f : string) (args : list CExpr).

Definition relational : list string := ["<"; "<="; ">"; ">="].
Definition equality : list string := ["=="; "!="].
Definition unary_ops : list string := ["-"; "+"; "!"; "~"; "*"; "&"].
(** The levels of C's binary operators, the tightest highest. *)
Definition c_level (op : string) : option nat :=
  if decide (op ∈ ["*"; "/"; "%"]) then Some 11
  else if decide (op ∈ ["+"; "-"]) then Some 10
  else if decide (op ∈ ["<<"; ">>"]) then Some 9
  else if decide (op ∈ relational) then Some 8
  else if decide (op ∈ equality) then Some 7
  else if decide (op = "&") then Some 6
  else if decide (op = "^") then Some 5
  else if decide (op = "|") then Some 4
  else if decide (op = "&&") then Some 3
  else if decide (op = "||") then Some 2
  else None.

Fixpoint parse_unary (fuel : nat) (l : list Tok) : option (CExpr * list Tok) :=
  match fuel with
  | 0 => None
  | S fuel =>
      match l with
      | TNum z :: l => Some (CNum z, l)
      | TName f :: TOpen :: TClose :: l => Some (CCall f [], l)
      | TName f :: TOpen :: l => '(args, l) ← parse_args fuel l; Some (CCall f args, l)
      | TName s :: l => Some (CName s, l)
      | TOp op :: l =>
          if decide (op ∈ unary_ops) then '(e, l) ← parse_unary fuel l; Some (CUn op e, l) else None
      | TOpen :: TType ty :: TClose :: l => '(e, l) ← parse_unary fuel l; Some (CCast ty e, l)
      | TOpen :: l =>
          match parse_expr fuel 0 l with Some (e, TClose :: l) => Some (e, l) | _ => None end
      | _ => None
      end
  end
with parse_expr (fuel min : nat) (l : list Tok) : option (CExpr * list Tok) :=
  match fuel with
  | 0 => None
  | S fuel => '(e, l) ← parse_unary fuel l; parse_ops fuel min e l
  end
with parse_ops (fuel min : nat) (lhs : CExpr) (l : list Tok) : option (CExpr * list Tok) :=
  match fuel with
  | 0 => None
  | S fuel =>
      match l with
      | TOp op :: l' =>
          match c_level op with
          | Some p =>
              if decide (min ≤ p) then '(rhs, l) ← parse_expr fuel (S p) l'; parse_ops fuel min (CBin op lhs rhs) l
              else Some (lhs, l)
          | None => Some (lhs, l)
          end
      | TQuestion :: l' =>
          if decide (min ≤ 1) then
            match parse_expr fuel 0 l' with
            | Some (t, TColon :: l) => '(f, l) ← parse_expr fuel 1 l; parse_ops fuel min (CCond lhs t f) l
            | _ => None
            end
          else Some (lhs, l)
      | _ => Some (lhs, l)
      end
  end
with parse_args (fuel : nat) (l : list Tok) : option (list CExpr * list Tok) :=
  match fuel with
  | 0 => None
  | S fuel =>
      match parse_expr fuel 0 l with
      | Some (e, TComma :: l) => '(es, l) ← parse_args fuel l; Some (e :: es, l)
      | Some (e, TClose :: l) => Some ([e], l)
      | _ => None
      end
  end.

(** ** The lexer of C *)

(** Words of letters, digits and underscores; numbers; and the longest operator
    that fits. Comments, strings and digraphs are not read: no expression here
    has one. *)
Definition ident_start (c : ascii) : bool :=
  let n := nat_of_ascii c in bool_decide (65 ≤ n ≤ 90 ∨ 97 ≤ n ≤ 122 ∨ n = 95).
Definition keywords : list string :=
  ["auto"; "break"; "case"; "const"; "continue"; "default"; "do"; "else"; "enum"; "extern"; "for"; "goto"; "if";
   "inline"; "register"; "restrict"; "return"; "sizeof"; "static"; "struct"; "switch"; "typedef"; "union";
   "volatile"; "while"].
Definition operators3 : list string := ["<<="; ">>="; "..."].
Definition operators2 : list string :=
  ["->"; "++"; "--"; "<<"; ">>"; "<="; ">="; "=="; "!="; "&&"; "||"; "*="; "/="; "%="; "+="; "-="; "&="; "^="; "|=";
   "//"; "/*"; "##"].
Definition operators1 : list string :=
  ["<"; ">"; "="; "!"; "&"; "|"; "*"; "/"; "%"; "+"; "-"; "^"; "~"; "."; ";"; "#"; "["; "]"; "{"; "}"].

(** The word a text begins with, and the rest. *)
Fixpoint span_word (s : string) : string * string :=
  match s with
  | String c r => if is_ident_char c then let '(w, r) := span_word r in (String c w, r) else ("", s)
  | "" => ("", "")
  end.
Definition read_number (w : string) : option Z :=
  match w with
  | String "0" (String "x" digits) => if decide (digits = "") then None else parse_digits 16 0 digits
  | _ => parse_digits 10 0 w
  end.

Section lexer.
Variable is_type : string → bool.

Definition read_word (w : string) : option Tok :=
  if is_type w then Some (TType w) else if decide (w ∈ keywords) then None else Some (TName w).
Definition read_char (c : ascii) : option Tok :=
  if Ascii.eqb c "(" then Some TOpen
  else if Ascii.eqb c ")" then Some TClose
  else if Ascii.eqb c "," then Some TComma
  else if Ascii.eqb c "?" then Some TQuestion
  else if Ascii.eqb c ":" then Some TColon
  else if decide (String c "" ∈ operators1) then Some (TOp (String c "")) else None.
Definition read_operator (s : string) : option (Tok * string) :=
  match s with
  | "" => None
  | String c r =>
      match r with
      | String d r2 =>
          match r2 with
          | String e r3 =>
              if decide (String c (String d (String e "")) ∈ operators3)
              then Some (TOp (String c (String d (String e ""))), r3)
              else if decide (String c (String d "") ∈ operators2) then Some (TOp (String c (String d "")), r2)
              else (λ t, (t, r)) <$> read_char c
          | "" =>
              if decide (String c (String d "") ∈ operators2) then Some (TOp (String c (String d "")), r2)
              else (λ t, (t, r)) <$> read_char c
          end
      | "" => (λ t, (t, r)) <$> read_char c
      end
  end.
(** The next token, or white space. *)
Definition next (s : string) : option (option Tok * string) :=
  match s with
  | "" => None
  | String c r =>
      if is_space c then Some (None, r)
      else if ident_start c then let '(w, r) := span_word s in t ← read_word w; Some (Some t, r)
      else if is_ident_char c then let '(w, r) := span_word s in z ← read_number w; Some (Some (TNum z), r)
      else '(t, r) ← read_operator s; Some (Some t, r)
  end.
Fixpoint lex_go (fuel : nat) (s : string) : option (list Tok) :=
  match s with
  | "" => Some []
  | _ =>
      match fuel with
      | 0 => None
      | S fuel => '(t, r) ← next s; ts ← lex_go fuel r; Some (option_list t ++ ts)
      end
  end.
(** Every token takes a character. *)
Definition lex (s : string) : option (list Tok) := lex_go (String.length s) s.

(** Reading a text as an expression of C. *)
Definition read_c (fuel : nat) (s : string) : option CExpr :=
  ts ← lex s;
  match parse_expr fuel 0 ts with Some (e, []) => Some e | _ => None end.
End lexer.

(** ** What is printed *)

(** The expression of C an expression stands for. *)
Fixpoint erase (e : Expr.t) : CExpr :=
  match e with
  | Expr.Name name => CName name
  | Expr.Int value _ => if (value <? 0)%Z then CUn "-" (CNum (- value)) else CNum value
  | Expr.UInt value _ => CNum value
  | Expr.BinOp op l r | Expr.Compare op l r => CBin op (erase l) (erase r)
  | Expr.UnaryOp op a => CUn op (erase a)
  | Expr.Cast ty a => CCast ty (erase a)
  | Expr.Call f args => CCall f (map erase args)
  | Expr.Load a => CUn "*" (erase a)
  | Expr.Select c a b => CCond (erase c) (erase a) (erase b)
  end.

Definition is_select (e : Expr.t) : bool := match e with Expr.Select _ _ _ => true | _ => false end.
Definition is_equality (e : Expr.t) : bool :=
  match e with Expr.Compare op _ _ => bool_decide (op ∈ equality) | _ => false end.

(** The expressions the binding powers are right for: operators of C, no
    selection at the left of an [||] and no equality at the left of an order. *)
Fixpoint printable (e : Expr.t) : bool :=
  match e with
  | Expr.Name _ | Expr.Int _ _ | Expr.UInt _ _ => true
  | Expr.BinOp op l r =>
      bool_decide (c_level op = Some (bin_bp op)) && bool_decide (op ∉ relational)
      && negb (bool_decide (op = "||") && is_select l) && printable l && printable r
  | Expr.UnaryOp op a => bool_decide (op ∈ unary_ops) && printable a
  | Expr.Cast _ a | Expr.Load a => printable a
  | Expr.Call _ args => forallb printable args
  | Expr.Select c a b => printable c && printable a && printable b
  | Expr.Compare op l r =>
      bool_decide (op ∈ relational ++ equality)
      && negb (bool_decide (op ∈ relational) && is_equality l) && printable l && printable r
  end.

(** *** What is lexed as it is printed *)

(** A word of C. *)
Definition is_word (w : string) : bool :=
  match w with
  | String c r => ident_start c && forallb is_ident_char (list_ascii_of_string r)
  | "" => false
  end.
(** An operator that grows with the first character of its argument. *)
Definition fuses (op : string) (a : Expr.t) : bool :=
  match a with
  | Expr.UnaryOp op' _ => bool_decide (op = op' ∧ op ∈ ["-"; "+"; "&"])
  | Expr.Int v _ => bool_decide (op = "-" ∧ (v < 0)%Z)
  | _ => false
  end.
(** Names and callees are words of C and neither types nor keywords, the types
    of casts are types, literals fit their 64 bits, and no prefix operator
    meets the same one. *)
Fixpoint lexable (is_type : string → bool) (e : Expr.t) : bool :=
  let is_name w := is_word w && negb (is_type w) && bool_decide (w ∉ keywords) in
  match e with
  | Expr.Name n => is_name n
  | Expr.Int v _ => bool_decide (-(2 ^ 63) < v < 2 ^ 63)%Z
  | Expr.UInt v _ => bool_decide (0 ≤ v < 2 ^ 64)%Z
  | Expr.BinOp _ l r | Expr.Compare _ l r => lexable is_type l && lexable is_type r
  | Expr.UnaryOp op a => negb (fuses op a) && lexable is_type a
  | Expr.Cast ty a => is_word ty && is_type ty && lexable is_type a
  | Expr.Call f args => is_name f && forallb (lexable is_type) args
  | Expr.Load a => lexable is_type a
  | Expr.Select c a b => lexable is_type c && lexable is_type a && lexable is_type b
  end.

(** The text is that of the pieces. *)
Lemma text_of_app l l' : text_of (l ++ l') = text_of l +:+ text_of l'.
Proof.
  induction l as [|p l IH]; [done|].
  change (piece_text p +:+ text_of (l ++ l') = (piece_text p +:+ text_of l) +:+ text_of l').
  by rewrite IH, string_app_assoc.
Qed.
Lemma text_of_cons p l : text_of (p :: l) = piece_text p +:+ text_of l.
Proof. done. Qed.
Lemma text_of_paren l need : text_of (paren_pieces l need) = paren_if (text_of l) need.
Proof. destruct need; [|done]. cbn [paren_pieces paren_if]. by rewrite text_of_cons, text_of_app. Qed.
Lemma text_of_infix t l : text_of (infix t ++ l) = " " +:+ tok_text t +:+ " " +:+ text_of l.
Proof. done. Qed.
Lemma text_of_commas l : text_of (commas l) = join ", " (map text_of l).
Proof.
  induction l as [|x [|y l] IH]; [done..|].
  change (commas (x :: y :: l)) with (x ++ [T TComma; Space] ++ commas (y :: l)).
  rewrite !text_of_app, IH. done.
Qed.

Section expr_ind.
Variable Q : Expr.t → Prop.
Hypothesis name_case : ∀ n, Q (Expr.Name n).
Hypothesis int_case : ∀ v b, Q (Expr.Int v b).
Hypothesis uint_case : ∀ v b, Q (Expr.UInt v b).
Hypothesis bin_case : ∀ op l r, Q l → Q r → Q (Expr.BinOp op l r).
Hypothesis un_case : ∀ op a, Q a → Q (Expr.UnaryOp op a).
Hypothesis cast_case : ∀ ty a, Q a → Q (Expr.Cast ty a).
Hypothesis call_case : ∀ f args, Forall Q args → Q (Expr.Call f args).
Hypothesis load_case : ∀ a, Q a → Q (Expr.Load a).
Hypothesis select_case : ∀ c a b, Q c → Q a → Q b → Q (Expr.Select c a b).
Hypothesis compare_case : ∀ op l r, Q l → Q r → Q (Expr.Compare op l r).
Fixpoint expr_ind' (e : Expr.t) : Q e :=
  match e with
  | Expr.Name n => name_case n
  | Expr.Int v b => int_case v b
  | Expr.UInt v b => uint_case v b
  | Expr.BinOp op l r => bin_case op l r (expr_ind' l) (expr_ind' r)
  | Expr.UnaryOp op a => un_case op a (expr_ind' a)
  | Expr.Cast ty a => cast_case ty a (expr_ind' a)
  | Expr.Call f args =>
      call_case f args ((fix go (l : list Expr.t) : Forall Q l :=
        match l with [] => List.Forall_nil _ | x :: l => List.Forall_cons _ x l (expr_ind' x) (go l) end) args)
  | Expr.Load a => load_case a (expr_ind' a)
  | Expr.Select c a b => select_case c a b (expr_ind' c) (expr_ind' a) (expr_ind' b)
  | Expr.Compare op l r => compare_case op l r (expr_ind' l) (expr_ind' r)
  end.
End expr_ind.

Lemma pieces_text e : ∀ bp, text_of (pieces e bp) = print_expr e bp.
Proof.
  induction e as [n|v b|v b|op l r IHl IHr|op a IH|ty a IH|f args IH|a IH|c a b IHc IHa IHb|op l r IHl IHr]
    using expr_ind'; intros bp; cbn [pieces print_expr].
  - rewrite text_of_cons. apply string_app_nil_r.
  - destruct (v <? 0)%Z; rewrite !text_of_cons; cbn [piece_text tok_text text_of foldr]; by rewrite string_app_nil_r.
  - rewrite text_of_cons. apply string_app_nil_r.
  - by rewrite text_of_paren, text_of_app, text_of_infix, IHl, IHr.
  - rewrite text_of_paren, text_of_cons, IH. done.
  - cbn [app]. by rewrite !text_of_cons, IH.
  - cbn [app]. rewrite !text_of_cons, text_of_app, text_of_commas, map_map.
    replace (map (λ x, text_of (pieces x 0)) args) with (map (λ x, print_expr x 0) args); [done|].
    apply map_ext_Forall. eapply Forall_impl; [exact IH|]. intros x Hx. cbn. by rewrite Hx.
  - cbn [app]. by rewrite !text_of_cons, text_of_app, IH.
  - by rewrite text_of_paren, !(text_of_app (pieces _ _)), !text_of_infix, !(text_of_app (pieces _ _)), text_of_infix, IHc, IHa, IHb.
  - by rewrite text_of_paren, text_of_app, text_of_infix, IHl, IHr.
Qed.

(** ** The text is lexed to its tokens *)

Section lexing.
Variable is_type : string → bool.

(** What can follow a word or a number. *)
Definition ends_word (r : string) : Prop := match r with "" => True | String c _ => is_ident_char c = false end.
(** What follows an expression. *)
Definition closes (r : string) : Prop :=
  match r with "" => True | String c _ => c = " "%char ∨ c = ")"%char ∨ c = ","%char end.
Lemma closes_ends r : closes r → ends_word r.
Proof. destruct r as [|c r]; [done|]. by intros [->|[->| ->]]. Qed.

(** Each piece is what the lexer reads at its place. *)
Fixpoint munched (l : list Piece) : Prop :=
  match l with
  | [] => True
  | Space :: l => munched l
  | T t :: l =>
      next is_type (tok_text t +:+ text_of l) = Some (Some t, text_of l) ∧ tok_text t ≠ "" ∧ munched l
  end.

Lemma lex_go_nonempty fuel s :
  s ≠ "" → lex_go is_type (S fuel) s = ('(t, r) ← next is_type s; ts ← lex_go is_type fuel r; Some (option_list t ++ ts)).
Proof. by destruct s. Qed.
Lemma lex_munched l fuel : munched l → length l ≤ fuel → lex_go is_type fuel (text_of l) = Some (toks l).
Proof.
  revert fuel. induction l as [|[t|] l IH]; intros fuel M L; [by destruct fuel| |];
    (destruct fuel as [|fuel]; [cbn in L; lia|]); cbn [length] in L; rewrite text_of_cons; cbn [piece_text].
  - destruct M as (E & Ne & M). rewrite lex_go_nonempty, E by (by destruct (tok_text t)).
    cbn [mbind option_bind]. rewrite IH by (done || lia). done.
  - rewrite lex_go_nonempty by done. change (next is_type (" " +:+ text_of l)) with (Some (@None Tok, text_of l)).
    cbn [mbind option_bind]. rewrite IH by (done || lia). done.
Qed.
Lemma length_text l : munched l → length l ≤ String.length (text_of l).
Proof.
  assert (∀ a b, String.length (a +:+ b) = String.length a + String.length b) as A.
  { induction a as [|c a IH]; intros b; [done|].
    change (S (String.length (a +:+ b)) = S (String.length a + String.length b)). by rewrite IH. }
  induction l as [|[t|] l IH]; intros M; [done| |]; rewrite text_of_cons, A; cbn [length piece_text].
  - destruct M as (_ & Ne & M). specialize (IH M). destruct (tok_text t); [done|]. cbn [String.length]. lia.
  - specialize (IH M). cbn [String.length]. lia.
Qed.
Lemma lex_text l : munched l → lex is_type (text_of l) = Some (toks l).
Proof. intros M. apply lex_munched; [done|by apply length_text]. Qed.

(** *** One token *)

Lemma start_ident c : ident_start c = true → is_ident_char c = true ∧ is_space c = false.
Proof.
  unfold ident_start, is_ident_char, is_space. rewrite bool_decide_eq_true, bool_decide_eq_false.
  intros H. split; [apply bool_decide_eq_true|]; lia.
Qed.
Lemma span_word_app w r :
  forallb is_ident_char (list_ascii_of_string w) = true → ends_word r → span_word (w +:+ r) = (w, r).
Proof.
  intros F E. induction w as [|c w IH].
  - destruct r as [|c r]; [done|]. change (span_word (String c r) = ("", String c r)). cbn [span_word].
    by rewrite E.
  - cbn [list_ascii_of_string forallb] in F. apply andb_true_iff in F as [Hc F].
    change (span_word (String c (w +:+ r)) = (String c w, r)). cbn [span_word]. by rewrite Hc, IH.
Qed.
Lemma next_word w t r :
  is_word w = true → read_word is_type w = Some t → ends_word r → next is_type (w +:+ r) = Some (Some t, r).
Proof.
  destruct w as [|c w]; [done|]. cbn [is_word]. intros [Hs F]%andb_true_iff R E.
  destruct (start_ident c Hs) as [Hi Hw].
  assert (span_word (String c w +:+ r) = (String c w, r)) as Sp.
  { apply span_word_app; [|done]. cbn [list_ascii_of_string forallb]. by rewrite Hi, F. }
  change (String c w +:+ r) with (String c (w +:+ r)) in *. unfold next. by rewrite Hw, Hs, Sp, R.
Qed.
Lemma hex_digit_ident d : (0 ≤ d < 16)%Z → is_ident_char (hex_digit d) = true.
Proof. apply (hex_digits_all (λ d, is_ident_char (hex_digit d) = true)). repeat constructor. Qed.
Lemma hex_ident s : is_hex s → forallb is_ident_char (list_ascii_of_string s) = true.
Proof.
  induction s as [|c s IH]; [done|]. intros [(d & Hd & ->) H]%is_hex_cons.
  cbn [list_ascii_of_string forallb]. by rewrite hex_digit_ident, IH.
Qed.
Lemma next_num z r : (0 ≤ z < 2 ^ 64)%Z → ends_word r → next is_type (alt_hex z +:+ r) = Some (Some (TNum z), r).
Proof.
  intros Z E. assert (is_hex (hex z)) as H by (apply hex_go_hex; [lia|by constructor]).
  assert (span_word (alt_hex z +:+ r) = (alt_hex z, r)) as Sp.
  { apply span_word_app; [|done]. unfold alt_hex. by apply (hex_ident (hex z)) in H. }
  assert (read_number (alt_hex z) = Some z) as Rd.
  { unfold alt_hex. change ("0x" +:+ hex z) with (String "0" (String "x" (hex z))). cbn [read_number].
    rewrite decide_False by apply hex_not_empty. unfold hex.
    rewrite parse_hex_go; [done| |unfold u64_max; lia|lia]. change (16 ^ Z.of_nat 16)%Z with (2 ^ 64)%Z. lia. }
  unfold alt_hex in *. change (("0x" +:+ hex z) +:+ r) with (String "0" ("x" +:+ hex z +:+ r)) in *.
  unfold next. change (is_space "0") with false. change (ident_start "0") with false.
  change (is_ident_char "0") with true. cbn iota. by rewrite Sp, Rd.
Qed.

(** The brackets, commas and marks of selections stand alone. *)
Definition mark (t : Tok) : Prop := t = TOpen ∨ t = TClose ∨ t = TComma ∨ t = TQuestion ∨ t = TColon.
Lemma next_mark t r : mark t → next is_type (tok_text t +:+ r) = Some (Some t, r).
Proof. intros [->|[->|[->|[->| ->]]]]; by destruct r as [|d [|e r]]. Qed.

(** The operators between operands, with a space behind. *)
Lemma level_operators op p : c_level op = Some p →
  op ∈ ["*"; "/"; "%"; "+"; "-"; "<<"; ">>"; "<"; "<="; ">"; ">="; "=="; "!="; "&"; "^"; "|"; "&&"; "||"].
Proof.
  unfold c_level, relational, equality. repeat case_decide; try done; intros _; subst; try set_solver.
Qed.
Lemma next_infix op p r : c_level op = Some p →
  next is_type (op +:+ " " +:+ r) = Some (Some (TOp op), " " +:+ r) ∧ op ≠ "".
Proof.
  intros H%level_operators.
  repeat (apply elem_of_cons in H as [->|H]; [split; [by destruct r|done]|]). by apply not_elem_of_nil in H.
Qed.

(** A prefix operator before a character it does not grow with. *)
Definition apart (op r : string) : Prop :=
  match r with "" => False | String d _ => op +:+ String d "" ∉ operators2 end.
Lemma next_prefix op r : op ∈ unary_ops → apart op r →
  next is_type (op +:+ r) = Some (Some (TOp op), r) ∧ op ≠ "".
Proof.
  intros Ho A. destruct r as [|d r]; [done|]. unfold apart in A.
  assert (∀ c, op = String c "" → is_space c = false → ident_start c = false → is_ident_char c = false →
    (∀ e, String c (String d (String e "")) ∉ operators3) → read_char c = Some (TOp op) →
    next is_type (op +:+ String d r) = Some (Some (TOp op), String d r)) as G.
  { intros c -> Sp Si Ic O3 Rc. change (String c "" +:+ String d r) with (String c (String d r)).
    change (String c "" +:+ String d "") with (String c (String d "")) in A.
    unfold next. rewrite Sp, Si, Ic. unfold read_operator.
    destruct r as [|e r]; rewrite ?(decide_False (P := String c (String d (String e "")) ∈ operators3)) by done;
      rewrite decide_False, Rc by done; done. }
  unfold unary_ops in Ho.
  repeat (apply elem_of_cons in Ho as [->|Ho];
    [split; [eapply G; [reflexivity..| |reflexivity]; intros e He;
             repeat (apply elem_of_cons in He as [He|He]; [done|]); by apply not_elem_of_nil in He|done]|]).
  by apply not_elem_of_nil in Ho.
Qed.
Lemma apart_char op c r :
  bool_decide (op +:+ String c "" ∉ operators2) = true → apart op (String c r).
Proof. by intros H%bool_decide_eq_true. Qed.
Lemma start_apart op c : op ∈ unary_ops → ident_start c = true → bool_decide (op +:+ String c "" ∉ operators2) = true.
Proof.
  intros Ho. unfold unary_ops in Ho.
  repeat (apply elem_of_cons in Ho as [->|Ho];
    [destruct c as [[] [] [] [] [] [] [] []]; vm_compute; done|]). by apply not_elem_of_nil in Ho.
Qed.
Lemma apart_word op w r : op ∈ unary_ops → is_word w = true → apart op (w +:+ r).
Proof.
  intros Ho Hw. destruct w as [|c w]; [done|]. cbn [is_word] in Hw. apply andb_true_iff in Hw as [Hs _].
  change (String c w +:+ r) with (String c (w +:+ r)). by apply apart_char, start_apart.
Qed.

(** *** Pieces *)

Lemma munched_prefix op l : op ∈ unary_ops → apart op (text_of l) → munched l → munched (T (TOp op) :: l).
Proof. intros Ho A M. destruct (next_prefix op (text_of l) Ho A) as [Nx Ne]. by split_and!. Qed.
Lemma munched_mark t l : mark t → munched l → munched (T t :: l).
Proof.
  intros Mt M. cbn [munched]. split_and!; [by apply next_mark| |done]. by destruct Mt as [->|[->|[->|[->| ->]]]].
Qed.
Lemma munched_infix t l :
  t = TQuestion ∨ t = TColon ∨ (∃ op p, t = TOp op ∧ c_level op = Some p) → munched l → munched (infix t ++ l).
Proof.
  intros Ht M. unfold infix. cbn [app munched]. rewrite text_of_cons. cbn [piece_text].
  destruct Ht as [->|[->|(op & p & -> & C)]]; [by split_and!; [apply next_mark; unfold mark; auto|done|done]..|].
  destruct (next_infix op p (text_of l) C) as [E Ne]. split_and!; [exact E|exact Ne|done].
Qed.
Lemma munched_paren l need rest :
  (∀ rest, munched rest → closes (text_of rest) → munched (l ++ rest)) →
  munched rest → closes (text_of rest) → munched (paren_pieces l need ++ rest).
Proof.
  intros H M C. destruct need; cbn [paren_pieces]; [|by apply H].
  change ((T TOpen :: l ++ [T TClose]) ++ rest) with (T TOpen :: (l ++ [T TClose]) ++ rest).
  rewrite <-app_assoc. apply munched_mark; [by left|]. apply H; [|by right; left].
  apply munched_mark; [by right; left|done].
Qed.

Lemma bin_bp_14 op : bin_bp op < 14.
Proof. unfold bin_bp. repeat case_decide; lia. Qed.
(** The argument of a prefix operator is apart from it. *)
Lemma apart_argument op a rest :
  op ∈ unary_ops → printable a = true → lexable is_type a = true → fuses op a = false →
  apart op (text_of (pieces a 14 ++ rest)).
Proof.
  intros Ho Pa La Fa. rewrite text_of_app, pieces_text.
  assert (∀ c r, c = "("%char ∨ c = "0"%char ∨ c = "*"%char → apart op (String c r)) as Ch.
  { intros c r Hc. apply apart_char. clear -Ho Hc. unfold unary_ops in Ho.
    repeat (apply elem_of_cons in Ho as [->|Ho]; [by destruct Hc as [->|[->| ->]]|]). by apply not_elem_of_nil in Ho. }
  destruct a as [n|v b|v b|op' l r|op' x|ty x|f args|x|c x y|op' l r]; cbn [print_expr lexable printable fuses] in *.
  - apply andb_true_iff in La as [[La _]%andb_true_iff _]. by apply apart_word.
  - destruct (Z.ltb_spec v 0) as [Ng|]; [|apply Ch; auto].
    apply bool_decide_eq_false in Fa. assert (op ≠ "-") as No by (intros ->; by apply Fa).
    apply apart_char. clear -Ho No. unfold unary_ops in Ho.
    repeat (apply elem_of_cons in Ho as [->|Ho]; [done|]). by apply not_elem_of_nil in Ho.
  - apply Ch; auto.
  - unfold below. rewrite bool_decide_true by apply bin_bp_14. apply Ch; auto.
  - apply andb_true_iff in Pa as [Op%bool_decide_eq_true _]. apply bool_decide_eq_false in Fa.
    unfold below. rewrite bool_decide_false by lia. cbn [paren_if]. rewrite string_app_assoc.
    unfold unary_ops in Op. 
    repeat (apply elem_of_cons in Op as [->|Op];
      [apply apart_char; clear -Ho Fa; unfold unary_ops in Ho;
       repeat (apply elem_of_cons in Ho as [->|Ho];
         [first [done|exfalso; apply Fa; split; [done|set_solver]]|]); by apply not_elem_of_nil in Ho|]).
    by apply not_elem_of_nil in Op.
  - apply Ch; auto.
  - apply andb_true_iff in La as [[[La _]%andb_true_iff _]%andb_true_iff _].
    rewrite !string_app_assoc. by apply apart_word.
  - apply Ch; auto.
  - apply Ch; auto.
  - apply Ch; auto.
Qed.

Lemma munched_word t rest :
  is_word (tok_text t) = true → read_word is_type (tok_text t) = Some t → munched rest → ends_word (text_of rest) →
  munched (T t :: rest).
Proof. intros W R M E. cbn [munched]. split_and!; [by apply next_word|by destruct (tok_text t)|done]. Qed.
Lemma munched_name w rest :
  is_word w && negb (is_type w) && bool_decide (w ∉ keywords) = true → munched rest → ends_word (text_of rest) →
  munched (T (TName w) :: rest).
Proof.
  rewrite !andb_true_iff, negb_true_iff, bool_decide_eq_true. intros [[W Ty] K] M E. apply munched_word; [done| |done..].
  cbn [tok_text]. unfold read_word. by rewrite Ty, decide_False.
Qed.
Lemma munched_num z rest : (0 ≤ z < 2 ^ 64)%Z → munched rest → ends_word (text_of rest) → munched (T (TNum z) :: rest).
Proof. intros Z M E. cbn [munched]. split_and!; [by apply next_num|done|done]. Qed.

Lemma munched_args args rest :
  Forall (λ e, ∀ bp rest, munched rest → closes (text_of rest) → munched (pieces e bp ++ rest)) args →
  munched rest → closes (text_of rest) → munched (commas (map (λ x, pieces x 0) args) ++ rest).
Proof.
  intros F M C. induction F as [|x [|y l] Hx F IH]; [done|by apply Hx|].
  change (commas (map (λ x, pieces x 0) (x :: y :: l)))
    with (pieces x 0 ++ [T TComma; Space] ++ commas (map (λ x, pieces x 0) (y :: l))).
  rewrite <-!app_assoc. apply Hx; [|by right; right]. apply munched_mark; [by unfold mark; auto|]. exact IH.
Qed.

Lemma munched_bin op p l r rest :
  c_level op = Some p → munched rest → closes (text_of rest) →
  (∀ rest, munched rest → closes (text_of rest) → munched (l ++ rest)) →
  (∀ rest, munched rest → closes (text_of rest) → munched (r ++ rest)) →
  munched ((l ++ infix (TOp op) ++ r) ++ rest).
Proof.
  intros Hc M C Hl Hr. rewrite <-!app_assoc. apply Hl; [|by left]. apply munched_infix; [|by apply Hr].
  right; right. eauto.
Qed.
Lemma compare_has_level op : op ∈ relational ++ equality → is_Some (c_level op).
Proof. intros [H|H]%elem_of_app; unfold relational, equality in H; repeat (apply elem_of_cons in H as [->|H]; [done|]); by apply not_elem_of_nil in H. Qed.

Lemma munched_pieces e : printable e = true → lexable is_type e = true →
  ∀ bp rest, munched rest → closes (text_of rest) → munched (pieces e bp ++ rest).
Proof.
  induction e as [n|v b|v b|op l r IHl IHr|op a IH|ty a IH|f args IH|a IH|c a b IHc IHa IHb|op l r IHl IHr]
    using expr_ind'; cbn [printable lexable pieces]; intros Pr Lx bp rest M C; pose proof (closes_ends _ C) as E.
  - by apply munched_name.
  - apply bool_decide_eq_true in Lx. destruct (Z.ltb_spec v 0); cbn [app].
    + assert (munched (T (TNum (- v)) :: rest)) as Mn by (apply munched_num; [lia|done..]).
      apply munched_prefix; [by compute_done|by apply apart_char|exact Mn].
    + apply munched_num; [lia|done..].
  - apply bool_decide_eq_true in Lx. by apply munched_num.
  - rewrite !andb_true_iff, !bool_decide_eq_true in Pr. destruct Pr as [[[[Cl _] _] Pl] Pr].
    apply andb_true_iff in Lx as [Ll Lr]. apply munched_paren; [|done..].
    intros rest' M' C'. eapply munched_bin; [exact Cl|done..|by apply IHl|by apply IHr].
  - apply andb_true_iff in Pr as [Op%bool_decide_eq_true Pa]. apply andb_true_iff in Lx as [Fu%negb_true_iff La].
    apply munched_paren; [|done..]. intros rest' M' C'. cbn [app].
    apply munched_prefix; [done|by apply apart_argument|by apply IH].
  - rewrite !andb_true_iff in Lx. destruct Lx as [[W Ty] La]. cbn [app].
    apply munched_mark; [by left|]. apply munched_word; [done| | |done].
    + cbn [tok_text]. unfold read_word. by rewrite Ty.
    + apply munched_mark; [by unfold mark; auto|]. by apply IH.
  - apply andb_true_iff in Lx as [Nm La]. rewrite <-!app_assoc. cbn [app].
    apply munched_name; [done| |done]. apply munched_mark; [by left|]. apply munched_args; [| |by right; left].
    + clear -IH Pr La. induction IH as [|x l Hx _ IHl]; [constructor|]. cbn in Pr, La.
      apply andb_true_iff in Pr as [P1 P2]. apply andb_true_iff in La as [L1 L2]. constructor; auto.
    + by apply munched_mark; [unfold mark; auto|].
  - rewrite <-!app_assoc. cbn [app]. apply munched_prefix; [by compute_done|by apply apart_char|].
    apply munched_mark; [by left|]. apply IH; [done..| |by right; left].
    by apply munched_mark; [unfold mark; auto|].
  - rewrite !andb_true_iff in Pr, Lx. destruct Pr as [[Pc Pa] Pb], Lx as [[Lc La] Lb].
    apply munched_paren; [|done..]. intros rest' M' C'. rewrite <-!app_assoc.
    apply IHc; [done..| |by left]. apply munched_infix; [by left|]. apply IHa; [done..| |by left].
    apply munched_infix; [by right; left|]. by apply IHb.
  - rewrite !andb_true_iff, bool_decide_eq_true in Pr. destruct Pr as [[[Op _] Pl] Pr].
    apply andb_true_iff in Lx as [Ll Lr]. destruct (compare_has_level op Op) as [p Cl].
    apply munched_paren; [|done..].
    intros rest' M' C'. eapply munched_bin; [exact Cl|done..|by apply IHl|by apply IHr].
Qed.

(** The printed text is lexed to the tokens of the expression. *)
Lemma lex_print e : printable e = true → lexable is_type e = true →
  lex is_type (print_expr e 0) = Some (tokens e 0).
Proof.
  intros Pr Lx. rewrite <-pieces_text. apply lex_text. rewrite <-(app_nil_r (pieces e 0)).
  by apply munched_pieces.
Qed.
End lexing.

(** ** Parses, whatever the fuel from some point on *)

Definition eventually {A} (f : nat → option A) (x : A) : Prop := ∃ n0, ∀ n, n0 ≤ n → f n = Some x.
Notation UNARY l := (eventually (λ n, parse_unary n l)).
Notation EXPR min l := (eventually (λ n, parse_expr n min l)).
Notation OPS min e l := (eventually (λ n, parse_ops n min e l)).
Notation ARGS l := (eventually (λ n, parse_args n l)).

(** With one unit of fuel more than two other parses need. *)
Lemma eventually_next {A B C} (f : nat → option A) (x : A) (g : nat → option B) y (h : nat → option C) z :
  eventually g y → eventually h z →
  (∀ n, g n = Some y → h n = Some z → f (S n) = Some x) → eventually f x.
Proof.
  intros [a Ha] [b Hb] F. exists (S (a + b)). intros [|n] L; [lia|]. apply F; [apply Ha|apply Hb]; lia.
Qed.
Lemma eventually_next3 {A B C D} (f : nat → option A) (x : A) (g : nat → option B) y (h : nat → option C) z
    (k : nat → option D) w :
  eventually g y → eventually h z → eventually k w →
  (∀ n, g n = Some y → h n = Some z → k n = Some w → f (S n) = Some x) → eventually f x.
Proof.
  intros [a Ha] [b Hb] [c Hc] F. exists (S (a + b + c)).
  intros [|n] L; [lia|]. apply F; [apply Ha|apply Hb|apply Hc]; lia.
Qed.
Lemma eventually_S {A} (f : nat → option A) (x : A) : (∀ n, f (S n) = Some x) → eventually f x.
Proof. intros F. exists 1. intros [|n] L; [lia|apply F]. Qed.

(** What follows an expression: no operator that binds at [k] or tighter, and
    no opening parenthesis. *)
Definition stops (k : nat) (l : list Tok) : Prop :=
  match l with
  | TOp op :: _ => match c_level op with Some p => p < k | None => True end
  | TQuestion :: _ => 1 < k
  | TOpen :: _ => False
  | _ => True
  end.
Definition no_open (l : list Tok) : Prop := match l with TOpen :: _ => False | _ => True end.
Definition starts (l : list Tok) : Prop := match l with TType _ :: _ | TClose :: _ | [] => False | _ => True end.

Lemma expr_intro min l e l' res : UNARY l (e, l') → OPS min e l' res → EXPR min l res.
Proof. intros U O. apply (eventually_next _ _ _ _ _ _ U O). intros n E1 E2. cbn. by rewrite E1. Qed.
Lemma ops_stop min e l : stops min l → OPS min e l (e, l).
Proof.
  intros S. apply eventually_S. intros n. destruct l as [|[] l]; cbn in *; try done.
  - destruct (c_level op); [by rewrite decide_False by lia|done].
  - by rewrite decide_False by lia.
Qed.
Lemma ops_bin min e op p l r l' res :
  c_level op = Some p → min ≤ p → EXPR (S p) l (r, l') → OPS min (CBin op e r) l' res →
  OPS min e (TOp op :: l) res.
Proof.
  intros C L E O. apply (eventually_next _ _ _ _ _ _ E O). intros n E1 E2. cbn.
  by rewrite C, decide_True, E1 by done.
Qed.
Lemma ops_cond min e l t l1 f l2 res :
  min ≤ 1 → EXPR 0 l (t, TColon :: l1) → EXPR 1 l1 (f, l2) → OPS min (CCond e t f) l2 res →
  OPS min e (TQuestion :: l) res.
Proof.
  intros L E1 E2 O. apply (eventually_next3 _ _ _ _ _ _ _ _ E1 E2 O). intros n X1 X2 X3. cbn.
  by rewrite decide_True, X1, X2 by done.
Qed.
Lemma unary_num z l : UNARY (TNum z :: l) (CNum z, l).
Proof. by apply eventually_S. Qed.
Lemma unary_name s l : no_open l → UNARY (TName s :: l) (CName s, l).
Proof. intros S. apply eventually_S. intros n. by destruct l as [|[] l]. Qed.
Lemma unary_op op l e l' : op ∈ unary_ops → UNARY l (e, l') → UNARY (TOp op :: l) (CUn op e, l').
Proof.
  intros I U. apply (eventually_next _ _ _ _ _ _ U U). intros n E _. cbn. by rewrite decide_True, E by done.
Qed.
Lemma unary_cast ty l e l' : UNARY l (e, l') → UNARY (TOpen :: TType ty :: TClose :: l) (CCast ty e, l').
Proof. intros U. apply (eventually_next _ _ _ _ _ _ U U). intros n E _. cbn. by rewrite E. Qed.
Lemma unary_paren l e l' : starts l → EXPR 0 l (e, TClose :: l') → UNARY (TOpen :: l) (e, l').
Proof.
  intros S E. apply (eventually_next _ _ _ _ _ _ E E). intros n En _. cbn.
  destruct l as [|[] l]; try done; by rewrite En.
Qed.
Lemma unary_call f l args l' : starts l → ARGS l (args, l') → UNARY (TName f :: TOpen :: l) (CCall f args, l').
Proof.
  intros S E. apply (eventually_next _ _ _ _ _ _ E E). intros n En _. cbn.
  destruct l as [|[] l]; try done; by rewrite En.
Qed.
Lemma unary_call0 f l : UNARY (TName f :: TOpen :: TClose :: l) (CCall f [], l).
Proof. by apply eventually_S. Qed.
Lemma args_last l e l' : EXPR 0 l (e, TClose :: l') → ARGS l ([e], l').
Proof. intros E. apply (eventually_next _ _ _ _ _ _ E E). intros n En _. cbn. by rewrite En. Qed.
Lemma args_more l e l1 es l' : EXPR 0 l (e, TComma :: l1) → ARGS l1 (es, l') → ARGS l (e :: es, l').
Proof. intros E A. apply (eventually_next _ _ _ _ _ _ E A). intros n E1 E2. cbn. by rewrite E1, E2. Qed.

(** ** The pieces of an expression *)

Lemma toks_app l l' : toks (l ++ l') = toks l ++ toks l'.
Proof. apply omap_app. Qed.
Lemma toks_paren l need : toks (paren_pieces l need) = if need then TOpen :: toks l ++ [TClose] else toks l.
Proof. destruct need; cbn; [|done]. unfold toks. by rewrite omap_app. Qed.

Lemma tokens_start e bp l : starts (tokens e bp ++ l).
Proof.
  unfold tokens. revert bp l.
  induction e as [n|v b|v b|op x r IHl IHr|op a IH|ty a IH|f args IH|a IH|c a b IHc IHa IHb|op x r IHl IHr]
    using expr_ind'; intros bp l; cbn [pieces]; rewrite ?toks_paren, ?toks_app; try done.
  - by destruct (v <? 0)%Z.
  - destruct (below _ _); [done|]. rewrite <-app_assoc. apply IHl.
  - by destruct (below _ _).
  - destruct (below _ _); [done|]. rewrite <-app_assoc. apply IHc.
  - destruct (below _ _); [done|]. rewrite <-app_assoc. apply IHl.
Qed.

(** The level of an expression printed without parentheses, and the power the
    printer gives it. *)
Definition level (e : Expr.t) : nat :=
  match e with
  | Expr.BinOp op _ _ | Expr.Compare op _ _ => default 0 (c_level op)
  | Expr.Select _ _ _ => 1
  | _ => 14
  end.
Definition power (e : Expr.t) : nat :=
  match e with
  | Expr.BinOp op _ _ => bin_bp op
  | Expr.Compare _ _ _ => 7
  | Expr.Select _ _ _ => 2
  | _ => 14
  end.
(** What may follow it. *)
Definition ends_at (e : Expr.t) : nat := if is_select e then 1 else S (level e).

Lemma tok_stops_mono k k' l : stops k l → k ≤ k' → stops k' l.
Proof. destruct l as [|[] l]; cbn; try done; [|lia]. destruct (c_level op); lia. Qed.
Lemma stops_no_open k l : stops k l → no_open l.
Proof. by destruct l as [|[] l]. Qed.
Lemma below_spec a b : below a b = true ↔ a < b.
Proof. unfold below. by rewrite bool_decide_eq_true. Qed.

Lemma tokens_paren e bp :
  bp ≤ 14 → tokens e bp = if decide (power e < bp) then TOpen :: tokens e 0 ++ [TClose] else tokens e 0.
Proof.
  intros L. unfold tokens. destruct e; cbn [pieces power]; try (by rewrite decide_False by lia);
    rewrite !toks_paren; unfold below.
  all: rewrite (bool_decide_false (_ < 0)) by lia; case_bool_decide;
    [by rewrite decide_True by done|by rewrite decide_False by done].
Qed.

Lemma c_level_range op p : c_level op = Some p → 2 ≤ p ≤ 11.
Proof. unfold c_level. repeat case_decide; intros [= <-]; lia. Qed.
Lemma bin_level op : c_level op = Some (bin_bp op) → op ∉ relational → bin_bp op ≠ 8 ∧ bin_bp op ≠ 7 ∧ 2 ≤ bin_bp op ≤ 11.
Proof.
  unfold relational. intros C N. pose proof (c_level_range _ _ C).
  assert (bin_bp op ≠ 7) by (unfold bin_bp; repeat case_decide; lia).
  split_and!; try lia. intros E. rewrite E in C. unfold c_level in C.
  by repeat case_decide.
Qed.
Lemma compare_level op : op ∈ relational ++ equality →
  c_level op = Some (if decide (op ∈ relational) then 8 else 7).
Proof. unfold relational, equality. cbn. rewrite !elem_of_cons, elem_of_nil. intros [->|[->|[->|[->|[->|[->|[]]]]]]]; done. Qed.

Definition parsed (e : Expr.t) : Prop :=
  (power e = 14 → ∀ rest, no_open rest → UNARY (tokens e 0 ++ rest) (erase e, rest)) ∧
  (∀ min rest res, min ≤ level e → stops (ends_at e) rest → OPS min (erase e) rest res →
     EXPR min (tokens e 0 ++ rest) res).

Lemma parsed_at e bp min rest res :
  parsed e → bp ≤ 14 → (bp ≤ power e → min ≤ level e ∧ stops (ends_at e) rest) → no_open rest →
  OPS min (erase e) rest res → EXPR min (tokens e bp ++ rest) res.
Proof.
  intros [U E] L C N O. rewrite tokens_paren by done. destruct (decide (power e < bp)) as [D|D].
  - eapply expr_intro; [|exact O]. cbn [app]. rewrite <-app_assoc.
    apply unary_paren; [apply tokens_start|]. apply E; [lia|done|by apply ops_stop].
  - destruct C; [lia|]. by apply E.
Qed.
Lemma parsed_unary e rest : parsed e → no_open rest → UNARY (tokens e 14 ++ rest) (erase e, rest).
Proof.
  intros [U E] N. rewrite tokens_paren by done. destruct (decide (power e < 14)) as [D|D].
  - cbn [app]. rewrite <-app_assoc.
    apply unary_paren; [apply tokens_start|]. apply E; [lia|done|by apply ops_stop].
  - apply U; [|done]. destruct e; cbn [power] in *; try done; [|lia..].
    unfold bin_bp in *. repeat case_decide; lia.
Qed.
Lemma parsed_primary e :
  is_select e = false → level e = 14 →
  (∀ rest, no_open rest → UNARY (tokens e 0 ++ rest) (erase e, rest)) → parsed e.
Proof.
  intros S L U. split; [auto|]. intros min rest res M St O. eapply expr_intro; [|exact O].
  apply U. by eapply stops_no_open.
Qed.

(** ** The induction *)

Lemma power_level e n :
  printable e = true → n ≤ power e → 3 ≤ n → n ≤ level e ∧ n ≤ ends_at e.
Proof.
  unfold ends_at. destruct e; cbn [power level is_select printable]; intros Pr; try lia.
  - rewrite !andb_true_iff, !bool_decide_eq_true in Pr. destruct Pr as [[[[C _] _] _] _]. rewrite C. cbn. lia.
  - rewrite !andb_true_iff, bool_decide_eq_true in Pr. destruct Pr as [[[C _] _] _].
    rewrite (compare_level _ C). cbn. case_decide; lia.
Qed.

Lemma parsed_bin op p l r :
  c_level op = Some p → parsed l → parsed r →
  (∀ bl br, bl ≤ 14 → br ≤ 14 →
   (bl ≤ power l → p ≤ level l ∧ S p ≤ ends_at l) → (br ≤ power r → S p ≤ level r ∧ S p ≤ ends_at r) →
   ∀ min rest res, min ≤ p → stops (S p) rest → OPS min (CBin op (erase l) (erase r)) rest res →
   EXPR min (tokens l bl ++ TOp op :: tokens r br ++ rest) res).
Proof.
  intros C Pl Pr bl br Ll Lr Cl Cr min rest res M St O.
  apply parsed_at; [done..| | |].
  - intros B. destruct (Cl B). split; [lia|]. cbn. rewrite C. lia.
  - done.
  - eapply ops_bin; [exact C|done| |exact O]. apply parsed_at; [done..| | |by apply ops_stop].
    + intros B. destruct (Cr B). split; [lia|]. by eapply tok_stops_mono.
    + by eapply stops_no_open.
Qed.

Lemma parsed_args args rest :
  Forall parsed args → args ≠ [] → 
  ARGS (toks (commas (map (λ x, pieces x 0) args)) ++ TClose :: rest) (map erase args, rest).
Proof.
  intros F. induction F as [|e l Pe F IH]; [done|]. intros _.
  assert (∀ t l', (t = TComma ∨ t = TClose) → EXPR 0 (tokens e 0 ++ t :: l') (erase e, t :: l')) as Ex.
  { intros t l' Ht. apply parsed_at; [done|lia| | |apply ops_stop]; [|by destruct Ht as [-> | ->]..].
    split; [lia|]. by destruct Ht as [-> | ->]. }
  destruct l as [|e' l].
  - apply args_last, Ex. by right.
  - change (commas (map (λ x, pieces x 0) (e :: e' :: l)))
      with (pieces e 0 ++ [T TComma; Space] ++ commas (map (λ x, pieces x 0) (e' :: l))).
    rewrite !toks_app, <-!app_assoc. eapply args_more; [|by apply IH]. apply (Ex TComma). by left.
Qed.

Lemma parsed_binop op l r :
  (printable l = true → parsed l) ∧ (printable r = true → parsed r) →
  printable (Expr.BinOp op l r) = true → parsed (Expr.BinOp op l r).
Proof.
  intros [IHl IHr]. cbn [printable]. intros Pr.
  rewrite !andb_true_iff, !bool_decide_eq_true, negb_true_iff, andb_false_iff, bool_decide_eq_false in Pr.
  destruct Pr as [[[[C Nr] Or] Pl] Pr]. pose proof (bin_level op C Nr) as (N8 & N7 & B).
  assert (bin_bp op = 2 → op = "||") as Two.
  { clear. unfold bin_bp. repeat case_decide; done. }
  split; [cbn [power]; lia|]. intros min rest res M St O. cbn [level ends_at is_select] in *.
  unfold ends_at in St. cbn [is_select level] in St. rewrite C in M, St. cbn [default from_option id] in M, St.
  unfold tokens. cbn [pieces]. rewrite toks_paren. unfold below. rewrite bool_decide_false by lia.
  rewrite !toks_app, <-!app_assoc. cbn [infix toks omap list_omap app].
  apply (parsed_bin op (bin_bp op) l r C); auto; try lia.
  - intros Bl. destruct (decide (bin_bp op = 2)) as [E2|N2].
    + destruct Or as [Or|Or]; [by destruct Or; apply Two|].
      destruct (decide (3 ≤ power l)) as [P3|P3].
      { pose proof (power_level l 3 Pl P3). unfold ends_at. rewrite Or. lia. }
      assert (power l = 2) as Pl2 by lia.
      destruct l; try done; cbn [power level ends_at is_select] in *; try lia.
      unfold ends_at. cbn [is_select level]. cbn [printable] in Pl.
      rewrite !andb_true_iff, !bool_decide_eq_true in Pl. destruct Pl as [[[[C' _] _] _] _].
      rewrite C'. cbn. lia.
    + destruct (power_level l (bin_bp op) Pl Bl) as [H1 H2]; [lia|]. split; [done|].
      unfold ends_at in *. destruct (is_select l); lia.
  - intros Br. destruct (power_level r (bin_bp op + 1) Pr Br) as [H1 H2]; [lia|]. lia.
Qed.

Lemma parsed_call f args :
  Forall (λ e, printable e = true → parsed e) args →
  printable (Expr.Call f args) = true → parsed (Expr.Call f args).
Proof.
  intros IH. cbn [printable]. intros Pr.
  apply parsed_primary; [done..|]. intros rest N. unfold tokens. cbn [pieces erase].
  assert (Forall parsed args) as F.
  { clear N. induction IH as [|x l Hx _ IHl]; [constructor|]. cbn in Pr. apply andb_true_iff in Pr as [P1 P2].
    constructor; auto. }
  rewrite !toks_app, <-!app_assoc. cbn [toks omap list_omap app].
  destruct args as [|x l]; [apply unary_call0|].
  apply unary_call; [|by apply parsed_args].
  destruct l; cbn [map commas]; rewrite ?toks_app, <-?app_assoc; apply tokens_start.
Qed.

Lemma parsed_select c a b :
  (printable c = true → parsed c) → (printable a = true → parsed a) → (printable b = true → parsed b) →
  printable (Expr.Select c a b) = true → parsed (Expr.Select c a b).
Proof.
  intros IHc IHa IHb. cbn [printable]. intros Pr.
  rewrite !andb_true_iff in Pr. destruct Pr as [[Pc Pa] Pb]. split; [cbn; lia|].
  intros min rest res M St O. cbn [level] in M. unfold ends_at in St. cbn [is_select] in St.
  unfold tokens. cbn [pieces erase]. rewrite toks_paren. unfold below. rewrite bool_decide_false by lia.
  rewrite !toks_app, <-!app_assoc. cbn [infix toks omap list_omap app].
  apply parsed_at; [auto|lia| |done|].
  { intros B. destruct (power_level c 3 Pc B) as [H1 H2]; [lia|]. split; [lia|]. cbn. lia. }
  eapply ops_cond; [done| | |exact O].
  - apply parsed_at; [auto|lia| |done|by apply ops_stop].
    intros B. destruct (power_level a 3 Pa B); [lia|]. split; [lia|done].
  - apply parsed_at; [auto|lia| |by eapply stops_no_open|by apply ops_stop].
    intros B. unfold ends_at. destruct (decide (3 ≤ power b)) as [P3|P3].
    + destruct (power_level b 3 Pb P3) as [H1 H2]; [lia|]. unfold ends_at in H2. split; [lia|].
      eapply tok_stops_mono; [exact St|]. destruct (is_select b); lia.
    + destruct b; cbn [power level is_select printable] in *; try lia; [|split; [lia|done]].
      rewrite !andb_true_iff, !bool_decide_eq_true in Pb. destruct Pb as [[[[C' _] _] _] _].
      rewrite C'. cbn. split; [lia|]. eapply tok_stops_mono; [exact St|lia].
Qed.

Lemma parsed_compare op l r :
  (printable l = true → parsed l) ∧ (printable r = true → parsed r) →
  printable (Expr.Compare op l r) = true → parsed (Expr.Compare op l r).
Proof.
  intros [IHl IHr]. cbn [printable]. intros Pr.
  rewrite !andb_true_iff, bool_decide_eq_true, negb_true_iff, andb_false_iff, bool_decide_eq_false in Pr.
  destruct Pr as [[[Op Eq] Pl] Pr]. pose proof (compare_level op Op) as C.
  set (q := if decide (op ∈ relational) then 8 else 7) in *.
  assert (7 ≤ q ≤ 8) as Q by (unfold q; case_decide; lia).
  split; [cbn; lia|]. intros min rest res M St O.
  unfold ends_at in St. cbn [is_select level] in *. rewrite C in M, St. cbn [default from_option id] in M, St.
  unfold tokens. cbn [pieces]. rewrite toks_paren. unfold below. rewrite bool_decide_false by lia.
  rewrite !toks_app, <-!app_assoc. cbn [infix toks omap list_omap app].
  apply (parsed_bin op q l r C); auto; try lia.
  - intros Bl. destruct (decide (8 ≤ power l)) as [P8|P8].
    + destruct (power_level l 8 Pl P8) as [H1 H2]; [lia|]. unfold ends_at in *. destruct l; cbn in *; lia.
    + assert (power l = 7) as P7 by lia. destruct (power_level l 7 Pl Bl) as [H1 H2]; [lia|].
      destruct l as [| | |opl x y| | | | | |opl x y]; cbn [power] in P7; try lia.
      { cbn [printable] in Pl. rewrite !andb_true_iff, !bool_decide_eq_true in Pl.
        destruct Pl as [[[[C' Nr'] _] _] _]. by destruct (bin_level opl C' Nr') as (_ & ? & _). }
      cbn [printable is_equality] in *. rewrite !andb_true_iff, bool_decide_eq_true in Pl.
      destruct Pl as [[[Opl _] _] _]. unfold ends_at in *. cbn [is_select level] in *.
      rewrite (compare_level opl Opl) in *. cbn [default from_option id] in *. unfold q.
      destruct (decide (op ∈ relational)) as [R|R]; [|case_decide; lia].
      destruct Eq as [Eq|Eq]; [done|]. apply bool_decide_eq_false in Eq.
      rewrite decide_True; [lia|]. apply elem_of_app in Opl as [?|?]; done.
  - intros Br. destruct (decide (9 ≤ power r)) as [P9|P9].
    + destruct (power_level r 9 Pr P9) as [H1 H2]; [lia|]. lia.
    + assert (power r = 8) as P8 by lia. destruct r as [| | |opr x y| | | | | |opr x y]; cbn [power] in P8; try lia.
      cbn [printable] in Pr. rewrite !andb_true_iff, !bool_decide_eq_true in Pr.
      destruct Pr as [[[[C' Nr'] _] _] _]. by destruct (bin_level opr C' Nr') as (? & _).
Qed.

Lemma parsed_printable e : printable e = true → parsed e.
Proof.
  induction e as [n|v b|v b|op l r IHl IHr|op a IH|ty a IH|f args IH|a IH|c a b IHc IHa IHb|op l r IHl IHr]
    using expr_ind'; intros Pr.
  - apply parsed_primary; [done..|]. intros rest N. by apply unary_name.
  - apply parsed_primary; [done..|]. intros rest N. unfold tokens. cbn [pieces erase].
    destruct (v <? 0)%Z; [|apply unary_num]. apply unary_op; [by compute_done|apply unary_num].
  - apply parsed_primary; [done..|]. intros rest N. apply unary_num.
  - by apply parsed_binop.
  - apply andb_true_iff in Pr as [Op Pa]. apply bool_decide_eq_true in Op.
    apply parsed_primary; [done..|]. intros rest N. unfold tokens. cbn [pieces erase]. rewrite toks_paren.
    unfold below. rewrite bool_decide_false by lia. by apply unary_op, parsed_unary; auto.
  - apply parsed_primary; [done..|]. intros rest N. unfold tokens. cbn [pieces erase]. rewrite toks_app.
    by apply unary_cast, parsed_unary; auto.
  - by apply parsed_call.
  - apply parsed_primary; [done..|]. intros rest N. unfold tokens. cbn [pieces erase].
    rewrite !toks_app, <-!app_assoc. cbn [toks omap list_omap app].
    apply unary_op; [by compute_done|]. apply unary_paren; [apply tokens_start|].
    apply parsed_at; [auto|lia|by split; [lia|]|done|by apply ops_stop].
  - by apply parsed_select.
  - by apply parsed_compare.
Qed.

(** C26: The printed text of an expression, lexed as C (longest operator first, with
    any set of type names) and parsed by the grammar of C, is read back as that
    expression, if: operators are those of C; no selection is at the left of an || and
    no equality at the left of an order; names and callees are C words that are
    neither types nor keywords; the types of casts are one-word types; literals fit
    their 64 bits (an i64 not its least value, on which the negation overflows); and
    no prefix -, + or & stands before the same operator or a minus before a negative
    literal. Text outside of these conditions is read otherwise (Misprints: --0x5,
    --x, a ? b : c || d, a == b < c). *)
Theorem print_parse is_type e :
  printable e = true → lexable is_type e = true →
  ∃ n0, ∀ n, n0 ≤ n → read_c is_type n (print_expr e 0) = Some (erase e).
Proof.
  intros Pr Lx. pose proof (parsed_at e 0 0 [] (erase e, []) (parsed_printable e Pr)) as Q. rewrite app_nil_r in Q.
  destruct Q as [n0 Q]; [lia|by split; [lia|]|done|by apply ops_stop|]. exists n0. intros n L.
  unfold read_c. rewrite (lex_print is_type e Pr Lx). cbn [mbind option_bind]. by rewrite Q.
Qed.

(** ** Text that means something else *)

Module Misprints.
Definition v (s : string) : Expr.t := Expr.Name s.

Example select_under_or :
  let e := Expr.BinOp "||" (Expr.Select (v "a") (v "b") (v "c")) (v "d") in
  print_expr e 0 = "a ? b : c || d" ∧
  parse_expr 20 0 (tokens e 0) = Some (CCond (CName "a") (CName "b") (CBin "||" (CName "c") (CName "d")), []) ∧
  erase e = CBin "||" (CCond (CName "a") (CName "b") (CName "c")) (CName "d").
Proof. by vm_compute. Qed.

Example equality_under_order :
  let e := Expr.Compare "<" (Expr.Compare "==" (v "a") (v "b")) (v "c") in
  print_expr e 0 = "a == b < c" ∧
  parse_expr 20 0 (tokens e 0) = Some (CBin "==" (CName "a") (CBin "<" (CName "b") (CName "c")), []).
Proof. by vm_compute. Qed.

(** Two operators that C reads as one. *)
Example minus_of_negative :
  print_expr (Expr.UnaryOp "-" (Expr.Int (-5) 32)) 0 = "--0x5" ∧
  print_expr (Expr.UnaryOp "-" (Expr.UnaryOp "-" (v "x"))) 0 = "--x" ∧
  lex (λ _, false) "--0x5" = Some [TOp "--"; TNum 5] ∧ lex (λ _, false) "--x" = Some [TOp "--"; TName "x"] ∧
  read_c (λ _, false) 20 "--x" = None.
Proof. by vm_compute. Qed.
End Misprints.

Import Misprints.
Definition is_int_type (w : string) : bool := bool_decide (w ∈ ["int32_t"; "uint64_t"]).
Lemma print_parse_witness :
  let e := Expr.Select (Expr.BinOp "||" (v "a") (Expr.Compare "==" (Expr.Compare "<" (v "b") (Expr.Int (-1) 32)) (v "c")))
             (Expr.Cast "int32_t" (Expr.BinOp "*" (Expr.BinOp "+" (v "x") (v "y")) (Expr.Load (v "p"))))
             (Expr.Call "f" [Expr.UnaryOp "!" (v "x"); Expr.BinOp "-" (v "y") (Expr.BinOp "-" (v "z") (v "w"))]) in
  printable e = true ∧ lexable is_int_type e = true ∧
  print_expr e 0 = "(a || b < -0x1 == c) ? (int32_t)((x + y) * *(p)) : f(!x, y - (z - w))" ∧
  ∃ n0, ∀ n, n0 ≤ n → read_c is_int_type n (print_expr e 0) = Some (erase e).
Proof.
  cbn zeta. split_and!; [by vm_compute|by vm_compute|by vm_compute|]. apply print_parse; by vm_compute.
Defined.
