(* ===== verification/Hir.v ===== *)
(** The semantic IR over the SSA form: decompiler/hir.rs, with
    [reaching_register_at_return] of decompiler/ssa/mod.rs and the tail-call
    test of decompiler/normalize/mod.rs it uses. Arena indices are [nat]; the
    2^32 entries at which an arena panics are not modelled. *)

From S2P Require Import Prelude Cfg Ssa Pcode Simplify Region.

(** ** Registers *)

Module Slice.
Inductive Gpr := Rax | Rcx | Rdx | Rbx | Rsp | Rbp | Rsi | Rdi
  | R8 | R9 | R10 | R11 | R12 | R13 | R14 | R15.
Inductive Register := RGpr (g : Gpr) | Rip | Vector (index : Z) | Rflags.
#[export] Instance Gpr_eq_dec : EqDecision Gpr.
Proof. solve_decision. Defined.
#[export] Instance Register_eq_dec : EqDecision Register.
Proof. solve_decision. Defined.

Definition X86_MAX_VECTOR_REGISTER_COUNT : Z := 32.
Definition container_bits (r : Register) : option Z :=
  match r with
  | RGpr _ | Rip | Rflags => Some 64%Z
  | Vector i => if (i <? X86_MAX_VECTOR_REGISTER_COUNT)%Z then Some 512%Z else None
  end.
Definition vector (index : Z) : option Register :=
  if (index <? X86_MAX_VECTOR_REGISTER_COUNT)%Z then Some (Vector index) else None.

Inductive RegisterSliceError :=
  | InvalidVectorRegister (index : Z)
  | EmptySlice
  | OutOfBounds (register : Register) (bit_offset bit_width container_bits : Z).

(** The fields are private: a slice comes from [new] or [gpr]. *)
Record RegisterSlice := mkSlice { register : Register; bit_offset : Z; bit_width : Z }.

Definition new (r : Register) (bit_offset bit_width : Z) : RegisterSliceError + RegisterSlice :=
  match container_bits r with
  | None => inl (InvalidVectorRegister (match r with Vector i => i | _ => 0%Z end))
  | Some bits =>
      if (bit_width =? 0)%Z then inl EmptySlice
      else if (bits <? bit_offset + bit_width)%Z then inl (OutOfBounds r bit_offset bit_width bits)
      else inr (mkSlice r bit_offset bit_width)
  end.
Definition gpr (g : Gpr) : RegisterSlice := mkSlice (RGpr g) 0 64.
Definition xmm (index : Z) := new (Vector index) 0 128.
Definition ymm (index : Z) := new (Vector index) 0 256.
Definition zmm (index : Z) := new (Vector index) 0 512.
Definition full (r : Register) : RegisterSliceError + RegisterSlice :=
  match container_bits r with
  | None => inl (InvalidVectorRegister (match r with Vector i => i | _ => 0%Z end))
  | Some bits => new r 0 bits
  end.

Definition overlaps (a b : RegisterSlice) : bool :=
  bool_decide (register a = register b) &&
  ((bit_offset a <? bit_offset b + bit_width b) && (bit_offset b <? bit_offset a + bit_width a))%Z.

Inductive RegisterWriteSemantics := PreserveOutsideSlice | ZeroExtendToContainer.
Definition write_semantics (s : RegisterSlice) : RegisterWriteSemantics :=
  match register s with
  | RGpr _ => if ((bit_offset s =? 0) && (bit_width s =? 32))%Z then ZeroExtendToContainer
              else PreserveOutsideSlice
  | _ => PreserveOutsideSlice
  end.
End Slice.

(** ** Provenance *)

Module Origin.
Record PcodeOrigin := mkOrigin { instruction_va : Z; lowered_operation_ordinal : nat }.
Record OriginSpan := mkSpan { span_first : PcodeOrigin; span_last : PcodeOrigin }.
Definition single (va : Z) (ordinal : nat) : OriginSpan :=
  mkSpan (mkOrigin va ordinal) (mkOrigin va ordinal).
Inductive ProvenanceKind := Lifted | Abi | MergePhi | Entry | Simplified | Recovered | Synthetic.
Record Provenance := mkProvenance {
  primary : option OriginSpan;
  contributors : list OriginSpan;
  prov_kind : ProvenanceKind
}.
Definition lifted (span : OriginSpan) : Provenance := mkProvenance (Some span) [] Lifted.
Definition derived (k : ProvenanceKind) (p : option OriginSpan) (c : list OriginSpan) : Provenance :=
  mkProvenance p c k.
Definition synthetic (k : ProvenanceKind) : Provenance := derived k None [].
Definition spans (p : Provenance) : list OriginSpan := option_list (primary p) ++ contributors p.
End Origin.
Import Origin.

(** ** The arena *)

Notation ValueId := nat (only parsing).
Notation MemoryObjectId := nat (only parsing).
Notation CallSiteId := nat (only parsing).
Notation OperationId := nat (only parsing).

Record Value := mkValue { value_id : ValueId; value_width : option Z; value_provenance : Provenance }.

Module MemoryObject.
Inductive AliasClass := Stack | GlobalClass | ReadOnly | Import | TlsClass | HeapClass | UnknownClass.
Inductive MemoryObjectKind :=
  | StackSlot (frame_offset : Z)
  | Global (va : Z)
  | ReadOnlyData (va : Z)
  | ImportSlot (iat_va : Z)
  | Tls (offset : Z)
  | Heap (allocation : option ValueId)
  | Unknown.
Definition kind_alias_class (k : MemoryObjectKind) : AliasClass :=
  match k with
  | StackSlot _ => Stack
  | Global _ => GlobalClass
  | ReadOnlyData _ => ReadOnly
  | ImportSlot _ => Import
  | Tls _ => TlsClass
  | Heap _ => HeapClass
  | Unknown => UnknownClass
  end.
Record t := mk {
  object_id : MemoryObjectId;
  object_kind : MemoryObjectKind;
  size_bytes : option Z;
  alignment : option Z;
  object_provenance : Provenance
}.
End MemoryObject.

(** ** Calls *)

Module Win64.
Definition SHADOW_SPACE_BYTES : Z := 32.
Definition STACK_ARGUMENT_SLOT_BYTES : Z := 8.

Inductive CallTarget :=
  | Direct (va : Z)
  | ImportTarget (iat_va : Z) (symbol : option string)
  | Indirect (target : ValueId) (candidates : list Z)
  | UnknownTarget.
Inductive ArgumentClass := Integer | FloatingPoint | AggregateByReference | UnknownArgument.
Inductive ArgumentLocation := InRegister (s : Slice.RegisterSlice) | OnStack (offset_from_pre_call_rsp : Z).

(** The slices of literal registers are valid; the alternative stands for the
    [expect]. *)
Definition valid (s : Slice.RegisterSliceError + Slice.RegisterSlice) : Slice.RegisterSlice :=
  match s with inr s => s | inl _ => Slice.gpr Slice.Rax end.

(** [Win64ArgumentLocation::standard] *)
Definition standard_location (position : Z) (class : ArgumentClass) : option ArgumentLocation :=
  if (4 <=? position)%Z
  then Some (OnStack (SHADOW_SPACE_BYTES + STACK_ARGUMENT_SLOT_BYTES * (position - 4)))
  else
    match class with
    | Integer | AggregateByReference =>
        Some (InRegister (Slice.gpr
          (if (position =? 0)%Z then Slice.Rcx else if (position =? 1)%Z then Slice.Rdx
           else if (position =? 2)%Z then Slice.R8 else Slice.R9)))
    | FloatingPoint => Some (InRegister (valid (Slice.xmm position)))
    | UnknownArgument => None
    end.

Record Argument := mkArgument {
  position : Z;
  arg_value : ValueId;
  class : ArgumentClass;
  locations : list ArgumentLocation
}.
(** [Win64Argument::standard] *)
Definition standard (position : Z) (value : ValueId) (class : ArgumentClass) : option Argument :=
  location ← standard_location position class; Some (mkArgument position value class [location]).

Inductive ResultClass := IntegerResult | FloatingPointResult | AggregateIndirect | UnknownResult.
Inductive ResultLocation :=
  | ResultRegister (s : Slice.RegisterSlice)
  | ResultIndirect (storage_pointer : ValueId) (returned_pointer : option Slice.RegisterSlice).
Record CallResult := mkResult { result_value : ValueId; result_class : ResultClass; result_location : ResultLocation }.
Definition integer (value : ValueId) : CallResult :=
  mkResult value IntegerResult (ResultRegister (Slice.gpr Slice.Rax)).
Definition floating_point (value : ValueId) : CallResult :=
  mkResult value FloatingPointResult (ResultRegister (valid (Slice.xmm 0))).
Definition aggregate_indirect (value storage_pointer : ValueId) : CallResult :=
  mkResult value AggregateIndirect (ResultIndirect storage_pointer (Some (Slice.gpr Slice.Rax))).

Inductive MemoryClobber := NoMemory | Objects (objects : list MemoryObjectId) | AnyMemory.
Record CallClobbers := mkClobbers { registers : list Slice.RegisterSlice; memory : MemoryClobber }.
Definition windows_x64_default : CallClobbers :=
  mkClobbers (map Slice.gpr [Slice.Rax; Slice.Rcx; Slice.Rdx; Slice.R8; Slice.R9; Slice.R10; Slice.R11]
              ++ valid (Slice.full Slice.Rflags) :: map (λ i, valid (Slice.zmm i)) [0; 1; 2; 3; 4; 5]%Z)
    AnyMemory.
Definition clobbers_register (c : CallClobbers) (s : Slice.RegisterSlice) : bool :=
  existsb (λ clobber, Slice.overlaps clobber s) (registers c).
Definition clobbers_memory (c : CallClobbers) (object : MemoryObjectId) : bool :=
  match memory c with
  | NoMemory => false
  | Objects objects => bool_decide (object ∈ objects)
  | AnyMemory => true
  end.

Record CallSite := mkCallSite {
  call_provenance : Provenance;
  target : CallTarget;
  arguments : list Argument;
  result : option CallResult;
  clobbers : CallClobbers
}.
Definition new (p : Provenance) (t : CallTarget) (args : list Argument) : CallSite :=
  mkCallSite p t args None windows_x64_default.

Definition stack_end (l : ArgumentLocation) : option Z :=
  match l with
  | OnStack offset => Some ((offset + STACK_ARGUMENT_SLOT_BYTES) mod 2 ^ 32)%Z
  | InRegister _ => None
  end.
Definition required_outgoing_stack_bytes (c : CallSite) : Z :=
  foldr Z.max SHADOW_SPACE_BYTES (omap stack_end (flat_map locations (arguments c))).
End Win64.

(** ** The function *)

Inductive HirOperationKind := PcodeOperation | PhiOperation | SelectOperation | LoadOperation
  | StoreOperation | CallOperation | CastOperation | CompareOperation.
Record HirOperation := mkOperation {
  op_id : OperationId;
  op_kind : HirOperationKind;
  inputs : list ValueId;
  output : option ValueId;
  op_provenance : Provenance
}.

Record HirFunction := mkHir {
  values : list Value;
  operations : list HirOperation;
  memory_objects : list MemoryObject.t;
  call_sites : list Win64.CallSite;
  exit_values : gmap nat ValueId;
  memory_versions : gmap MemoryObjectId Z
}.
Definition empty_hir : HirFunction := mkHir [] [] [] [] ∅ ∅.

Definition add_value (width : option Z) (p : Provenance) (h : HirFunction) : ValueId * HirFunction :=
  let id := length (values h) in
  (id, mkHir (values h ++ [mkValue id width p]) (operations h) (memory_objects h) (call_sites h)
         (exit_values h) (memory_versions h)).
Definition add_operation (k : HirOperationKind) (inputs : list ValueId) (output : option ValueId)
    (p : Provenance) (h : HirFunction) : OperationId * HirFunction :=
  let id := length (operations h) in
  (id, mkHir (values h) (operations h ++ [mkOperation id k inputs output p]) (memory_objects h)
         (call_sites h) (exit_values h) (memory_versions h)).
Definition add_memory_object (k : MemoryObject.MemoryObjectKind) (size align : option Z)
    (p : Provenance) (h : HirFunction) : MemoryObjectId * HirFunction :=
  let id := length (memory_objects h) in
  (id, mkHir (values h) (operations h) (memory_objects h ++ [MemoryObject.mk id k size align p])
         (call_sites h) (exit_values h) (memory_versions h)).
Definition add_call_site (c : Win64.CallSite) (h : HirFunction) : CallSiteId * HirFunction :=
  (length (call_sites h),
   mkHir (values h) (operations h) (memory_objects h) (call_sites h ++ [c]) (exit_values h)
     (memory_versions h)).
(** [value_mut(id).provenance = p] *)
Definition set_value_provenance (id : ValueId) (p : Provenance) (h : HirFunction) : HirFunction :=
  mkHir (alter (λ v, mkValue (value_id v) (value_width v) p) id (values h)) (operations h)
    (memory_objects h) (call_sites h) (exit_values h) (memory_versions h).
Definition set_exit_value (block : nat) (id : ValueId) (h : HirFunction) : HirFunction :=
  mkHir (values h) (operations h) (memory_objects h) (call_sites h) (<[block := id]> (exit_values h))
    (memory_versions h).

(** ** [validate]: the first error *)

Inductive HirValidationError :=
  | ValueIdMismatch (expected actual : ValueId)
  | OperationIdMismatch (expected actual : OperationId)
  | MemoryObjectIdMismatch (expected actual : MemoryObjectId)
  | InvalidValueWidth (value : ValueId)
  | InvalidMemoryObjectSize (object : MemoryObjectId)
  | InvalidMemoryAlignment (object : MemoryObjectId) (alignment : Z)
  | UnknownValue (value : ValueId)
  | UnknownMemoryObject (object : MemoryObjectId)
  | EmptyArgumentLocations (call : CallSiteId) (position : Z)
  | DuplicateArgumentPosition (call : CallSiteId) (position : Z)
  | InvalidStackArgumentLocation (call : CallSiteId) (position offset_from_pre_call_rsp : Z).

(** [None] is [Ok(())]; checks run from left to right. *)
Notation Check := (option HirValidationError).
Definition require (ok : bool) (e : HirValidationError) : Check := if ok then None else Some e.
Definition and_then (a b : Check) : Check := match a with Some e => Some e | None => b end.
Infix "&&&" := and_then (at level 40, left associativity) : windy_scope.
Definition each {A} (f : A → Check) (l : list A) : Check := foldr (λ x, and_then (f x)) None l.

Definition is_power_of_two (z : Z) : bool := (0 <? z)%Z && (z =? 2 ^ Z.log2 z)%Z.

Section validate.
Variable h : HirFunction.

Definition require_value (v : ValueId) : Check :=
  require (bool_decide (v < length (values h))) (UnknownValue v).
Definition require_memory_object (o : MemoryObjectId) : Check :=
  require (bool_decide (o < length (memory_objects h))) (UnknownMemoryObject o).

Definition check_value '(index, v) : Check :=
  require (bool_decide (value_id v = index)) (ValueIdMismatch index (value_id v)) &&&
  require (negb (bool_decide (value_width v = Some 0%Z))) (InvalidValueWidth (value_id v)).

Definition check_object '(index, o) : Check :=
  let id := MemoryObject.object_id o in
  require (bool_decide (id = index)) (MemoryObjectIdMismatch index id) &&&
  require (negb (bool_decide (MemoryObject.size_bytes o = Some 0%Z))) (InvalidMemoryObjectSize id) &&&
  match MemoryObject.alignment o with
  | Some a => require (is_power_of_two a) (InvalidMemoryAlignment id a)
  | None => None
  end &&&
  match MemoryObject.object_kind o with
  | MemoryObject.Heap (Some v) => require_value v
  | _ => None
  end.

Definition check_operation '(index, o) : Check :=
  require (bool_decide (op_id o = index)) (OperationIdMismatch index (op_id o)) &&&
  each require_value (inputs o) &&&
  match output o with Some v => require_value v | None => None end.

Definition check_location (call : CallSiteId) (position : Z) (l : Win64.ArgumentLocation) : Check :=
  match l with
  | Win64.OnStack offset =>
      require (negb ((offset <? Win64.SHADOW_SPACE_BYTES)
                     || negb (offset mod Win64.STACK_ARGUMENT_SLOT_BYTES =? 0))%Z)
        (InvalidStackArgumentLocation call position offset)
  | Win64.InRegister _ => None
  end.
Definition is_nil {A} (l : list A) : bool := match l with [] => true | _ => false end.
Fixpoint check_arguments (call : CallSiteId) (positions : gset Z) (l : list Win64.Argument) : Check :=
  match l with
  | [] => None
  | a :: l =>
      require_value (Win64.arg_value a) &&&
      require (negb (bool_decide (Win64.position a ∈ positions)))
        (DuplicateArgumentPosition call (Win64.position a)) &&&
      require (negb (is_nil (Win64.locations a))) (EmptyArgumentLocations call (Win64.position a)) &&&
      each (check_location call (Win64.position a)) (Win64.locations a) &&&
      check_arguments call ({[Win64.position a]} ∪ positions) l
  end.

Definition check_call '(call, c) : Check :=
  match Win64.target c with Win64.Indirect t _ => require_value t | _ => None end &&&
  check_arguments call ∅ (Win64.arguments c) &&&
  match Win64.result c with
  | Some r =>
      require_value (Win64.result_value r) &&&
      match Win64.result_location r with
      | Win64.ResultIndirect p _ => require_value p
      | Win64.ResultRegister _ => None
      end
  | None => None
  end &&&
  match Win64.memory (Win64.clobbers c) with
  | Win64.Objects objects => each require_memory_object objects
  | _ => None
  end.

Definition exit_list : list ValueId := omap (exit_values h !!.) (ascending (dom (exit_values h))).

Definition validate : Check :=
  each check_value (imap pair (values h)) &&&
  each check_object (imap pair (memory_objects h)) &&&
  each check_operation (imap pair (operations h)) &&&
  each require_value exit_list &&&
  each check_call (imap pair (call_sites h)).
End validate.

(** ** [reaching_register_at_return], decompiler/ssa/mod.rs *)

Section reaching.
Context {P : Type} `{PcodeView P}.
Notation SsaOp := (SsaOp P).
Notation SsaBlock := (SsaBlock P).
Notation SsaFunction := (SsaFunction P).
Implicit Types (op : SsaOp) (block : SsaBlock) (ssa : SsaFunction).

Definition in_register (base_offset : Z) (v : SsaVar) : bool :=
  match location v with Register b => (b =? base_offset)%Z | _ => false end.
Definition is_return_op op : bool := pcode_is (λ p, match p with Return => true | _ => false end) op.

Definition block_with_id ssa (b : nat) : option SsaBlock :=
  find_first (λ block, bool_decide (sb_id block = b)) (blocks ssa).

Variable base_offset : Z.

(** The use of the return, or else the last definition before it. *)
Definition explicit_return_use block : option SsaVar :=
  i ← position is_return_op (sb_ops block);
  op ← sb_ops block !! i;
  find_first (in_register base_offset) (uses op).
Definition local_definition block : option SsaVar :=
  let end_ := default (length (sb_ops block)) (position is_return_op (sb_ops block)) in
  find_first (in_register base_offset) (omap def (reverse (take end_ (sb_ops block)))).
Definition found_in block : option SsaVar :=
  match explicit_return_use block with Some v => Some v | None => local_definition block end.

Definition Memo : Type := gmap nat (option SsaVar).

(** The loop over the predecessors; [rec] is the recursive call. *)
Fixpoint incoming (rec : Memo → nat → option (option SsaVar * Memo)) (preds : list nat)
    (common : option SsaVar) (memo : Memo) : option (option SsaVar * Memo) :=
  match preds with
  | [] => Some (common, memo)
  | p :: preds =>
      '(r, memo) ← rec memo p;
      match r, common with
      | None, _ => Some (None, memo)
      | Some v, Some existing =>
          if decide (existing = v) then incoming rec preds common memo else Some (None, memo)
      | Some v, None => incoming rec preds (Some v) memo
      end
  end.

(** [visiting] is back to what it was when a call returns. *)
Fixpoint resolve (fuel : nat) ssa (visiting : gset nat) (memo : Memo) (b : nat)
    : option (option SsaVar * Memo) :=
  match fuel with
  | 0 => None
  | S fuel =>
      match memo !! b with
      | Some cached => Some (cached, memo)
      | None =>
          if decide (b ∈ visiting) then Some (None, memo)
          else
            '(resolved, memo) ←
              match block_with_id ssa b with
              | None => Some (None, memo)
              | Some block =>
                  match found_in block with
                  | Some v => Some (Some v, memo)
                  | None => incoming (resolve fuel ssa ({[b]} ∪ visiting)) (predecessor_ids block) None memo
                  end
              end;
            Some (resolved, <[b := resolved]> memo)
      end
  end.

Definition reaching_register_at_return ssa (b : nat) : option SsaVar :=
  block ← block_with_id ssa b;
  if existsb is_return_op (sb_ops block)
  then r ← resolve (length (blocks ssa) + 2) ssa ∅ ∅ b; r.1
  else None.
End reaching.

(** ** [lower_from_ssa] *)

Record SsaLowering := mkLowering {
  hir : HirFunction;
  var_values : gmap SsaVar ValueId;
  key_operations : gmap (nat * nat) OperationId;
  key_call_sites : gmap (nat * nat) CallSiteId
}.

Definition ssa_value_bit_width (var : SsaVar) : option Z :=
  match location var with
  | Unique _ _ size =>
      let bits := (size * 8)%Z in
      if (65535 <? size)%Z || (65535 <? bits)%Z || (bits =? 0)%Z then None else Some bits
  | _ => None
  end.

Definition ensure_ssa_value (p : Provenance) (is_definition : bool) (s : SsaLowering) (var : SsaVar)
    : ValueId * SsaLowering :=
  match var_values s !! var with
  | Some id =>
      (id, if is_definition
           then mkLowering (set_value_provenance id p (hir s)) (var_values s) (key_operations s) (key_call_sites s)
           else s)
  | None =>
      let '(id, h) := add_value (ssa_value_bit_width var) p (hir s) in
      (id, mkLowering h (<[var := id]> (var_values s)) (key_operations s) (key_call_sites s))
  end.

Fixpoint ensure_all (p : Provenance) (s : SsaLowering) (vars : list SsaVar) : list ValueId * SsaLowering :=
  match vars with
  | [] => ([], s)
  | v :: vars =>
      let '(id, s) := ensure_ssa_value p false s v in
      let '(ids, s) := ensure_all p s vars in
      (id :: ids, s)
  end.

Section lowering.
Context {P : Type} `{PcodeView P}.
Notation SsaOp := (SsaOp P).
Notation SsaBlock := (SsaBlock P).
Notation SsaFunction := (SsaFunction P).
Implicit Types (op : SsaOp) (block : SsaBlock) (ssa : SsaFunction) (s : SsaLowering).

Definition op_inputs op : list SsaVar :=
  match kind op with Pcode _ => uses op | Phi p => omap id (args p) end.
Definition op_output op : option SsaVar :=
  match kind op with Pcode _ => def op | Phi p => Some (out p) end.
Definition op_hir_kind op : HirOperationKind :=
  match kind op with Pcode _ => PcodeOperation | Phi _ => PhiOperation end.
Definition op_source (index : nat) op : Provenance :=
  match kind op with Pcode _ => lifted (single (va op) index) | Phi _ => synthetic MergePhi end.

Definition lower_op (block_id : nat) s (iop : nat * SsaOp) : SsaLowering :=
  let '(index, op) := iop in
  let p := op_source index op in
  let use_provenance := derived Entry (primary p) (contributors p) in
  let '(ins, s) := ensure_all use_provenance s (op_inputs op) in
  let '(out, s) :=
    match op_output op with
    | Some var => let '(id, s) := ensure_ssa_value p true s var in (Some id, s)
    | None => (None, s)
    end in
  let '(id, h) := add_operation (op_hir_kind op) ins out p (hir s) in
  mkLowering h (var_values s) (<[(block_id, index) := id]> (key_operations s)) (key_call_sites s).

Definition lower_block s block : SsaLowering := foldl (lower_op (sb_id block)) s (imap pair (sb_ops block)).

Definition record_exit ssa s block : SsaLowering :=
  match reaching_register_at_return 0 ssa (sb_id block) with
  | Some var =>
      match var_values s !! var with
      | Some value =>
          mkLowering (set_exit_value (sb_id block) value (hir s)) (var_values s) (key_operations s)
            (key_call_sites s)
      | None => s
      end
  | None => s
  end.

Definition lower_from_ssa ssa : SsaLowering :=
  foldl (record_exit ssa) (foldl lower_block (mkLowering empty_hir ∅ ∅ ∅) (blocks ssa)) (blocks ssa).

Definition exit_ssa_var s (block_id : nat) : option SsaVar :=
  value ← exit_values (hir s) !! block_id;
  fst <$> find_first (λ e, bool_decide (e.2 = value)) (map_to_list (var_values s)).

(** ** [lift_win64_calls] *)

(** decompiler/normalize/mod.rs *)
Definition external_tail_call_in_block ssa block (dest : Varnode) : option Z :=
  let va := offset dest in
  match space dest with
  | Const | Ram =>
      if (va <? 0x1000)%Z then None
      else if has_pcode (λ p, match p with CBranch | BranchInd _ | Call _ | CallInd _ => true | _ => false end) block
      then None
      else
        last ← last (sb_ops block);
        match kind last with
        | Pcode p =>
            match view p with
            | Branch last_dest =>
                if negb (offset last_dest =? va)%Z
                   || existsb (λ b, (sb_entry_va b =? va)%Z) (blocks ssa)
                   || existsb (λ b, existsb (λ op, (Ssa.va op =? va)%Z) (sb_ops b)) (blocks ssa)
                then None else Some va
            | _ => None
            end
        | Phi _ => None
        end
  | _ => None
  end.
Definition external_tail_call_target ssa (dest : Varnode) : option Z :=
  match blocks ssa with [b] => external_tail_call_in_block ssa b dest | _ => None end.

Definition REG_BASES : list Z :=
  [0x00; 0x08; 0x10; 0x18; 0x20; 0x28; 0x30; 0x38; 0x80; 0x88; 0x90; 0x98; 0xa0; 0xa8; 0xb0; 0xb8]%Z.
(** The bases ascend, so the loop stops at the first above [offset]. *)
Fixpoint last_base (offset : Z) (best : option Z) (bases : list Z) : option Z :=
  match bases with
  | [] => best
  | b :: bases => if (b <=? offset)%Z then last_base offset (Some b) bases else best
  end.
Definition register_container_base (offset : Z) : Z :=
  match last_base offset None REG_BASES with
  | Some b => if (offset - b <? 8)%Z then b else offset
  | None => offset
  end.

Definition is_pcode_call op : bool :=
  pcode_is (λ p, match p with Call _ | CallInd _ => true | _ => false end) op.

(** The loop over [ops[..call_index].iter().rev()] of both searches below;
    [true] when it met neither a call nor a definition. *)
Fixpoint prior_definition (base_offset : Z) (prior : list SsaOp) : option SsaVar * bool :=
  match prior with
  | [] => (None, true)
  | op :: prior =>
      if is_pcode_call op then (None, false)
      else
        match def op with
        | Some d => if in_register base_offset d then (Some d, false) else prior_definition base_offset prior
        | None => prior_definition base_offset prior
        end
  end.
Definition before block (index : nat) : list SsaOp := reverse (take index (sb_ops block)).

Definition same_block_reaching_register block (call_index : nat) (base_offset : Z) : option SsaVar :=
  (prior_definition base_offset (before block call_index)).1.
Definition reaching_register_for_indirect_target block (call_index : nat) op (base_offset : Z) : option SsaVar :=
  match prior_definition base_offset (before block call_index) with
  | (r, false) => r
  | (_, true) => find_first (in_register base_offset) (uses op)
  end.

Definition is_direct_call op : bool := pcode_is (λ p, match p with Call _ => true | _ => false end) op.
Definition is_tail_branch op : bool := pcode_is (λ p, match p with Branch _ => true | _ => false end) op.

Section calls.
Variable ids : gmap SsaVar ValueId.

Definition lift_call_target block (call_index : nat) op (dest : Varnode) : Win64.CallTarget :=
  let indirect v :=
    match v with Some t => Win64.Indirect t [] | None => Win64.UnknownTarget end in
  match space dest with
  | Const | Ram => Win64.Direct (offset dest)
  | RegisterSpace =>
      indirect (var ← reaching_register_for_indirect_target block call_index op
                        (register_container_base (offset dest)); ids !! var)
  | UniqueSpace =>
      indirect (var ← find_first (λ v, bool_decide (location v = Unique (va op) (offset dest) (vn_size dest)))
                        (uses op); ids !! var)
  end.

Definition WIN64_GPR_ARGUMENT_REGISTERS : list Z := [0x08; 0x10; 0x80; 0x88]%Z.

(** The argument at a position and its register. *)
Definition lift_argument block (call_index : nat) op (pr : nat * Z) : option Win64.Argument :=
  let '(position, base) := pr in
  if (if is_direct_call op then existsb (in_register base) (uses op) else (base =? 0x08)%Z)
  then
    var ← same_block_reaching_register block call_index base;
    value ← ids !! var;
    Win64.standard (Z.of_nat position) value Win64.Integer
  else None.

Definition lift_same_block_win64_arguments block (call_index : nat) op : list Win64.Argument :=
  if negb (is_direct_call op) && negb (is_tail_branch op) then []
  else omap (lift_argument block call_index op) (imap pair WIN64_GPR_ARGUMENT_REGISTERS).
End calls.

(** The destination of an operation that is a call site. *)
Definition call_dest ssa op : option Varnode :=
  match kind op with
  | Phi _ => None
  | Pcode p =>
      match view p with
      | Call dest | CallInd dest => Some dest
      | Branch dest => (λ _, dest) <$> external_tail_call_target ssa dest
      | BranchInd dest =>
          match space dest with
          | RegisterSpace => if decide (length (blocks ssa) = 1) then Some dest else None
          | _ => None
          end
      | _ => None
      end
  end.

Definition lift_op ssa block (acc : SsaLowering * list CallSiteId) (iop : nat * SsaOp)
    : SsaLowering * list CallSiteId :=
  let '(s, lifted) := acc in
  let '(index, op) := iop in
  let key := (sb_id block, index) in
  match call_dest ssa op with
  | None => acc
  | Some dest =>
      match key_call_sites s !! key with
      | Some _ => acc
      | None =>
          match operation_id ← key_operations s !! key; operations (hir s) !! operation_id with
          | None => acc
          | Some operation =>
              let p := derived Abi (primary (op_provenance operation)) (contributors (op_provenance operation)) in
              let call := Win64.new p (lift_call_target (var_values s) block index op dest)
                            (lift_same_block_win64_arguments (var_values s) block index op) in
              let '(id, h) := add_call_site call (hir s) in
              (mkLowering h (var_values s) (key_operations s) (<[key := id]> (key_call_sites s)),
               lifted ++ [id])
          end
      end
  end.
Definition lift_win64_calls ssa s : SsaLowering * list CallSiteId :=
  foldl (λ acc block, foldl (lift_op ssa block) acc (imap pair (sb_ops block))) (s, []) (blocks ssa).
End lowering.
