(* ===== verification/Reaching.v ===== *)
(** The search for the value a return yields ([Hir.resolve]) against the
    definition it stands for: every way into the block defines the register by
    the same variable last. *)

From S2P Require Import Prelude Ssa Pcode Simplify Region Hir.

Section reaching.
Context {P : Type} `{PcodeView P}.
Variable base_offset : Z.
Variable ssa : SsaFunction P.
Notation found := (found_in base_offset).
Notation at_id := (block_with_id ssa).

(** ** What is searched for *)

Inductive reaches : nat → SsaVar → Prop :=
  | reaches_here b block v : at_id b = Some block → found block = Some v → reaches b v
  | reaches_from b block v :
      at_id b = Some block → found block = None → predecessor_ids block ≠ [] →
      (∀ p, p ∈ predecessor_ids block → reaches p v) → reaches b v.

(** A block without a definition, and one of its predecessors. *)
Definition through (b p : nat) : Prop :=
  ∃ block, at_id b = Some block ∧ found block = None ∧ p ∈ predecessor_ids block.

Lemma reaches_through b p v : reaches b v → through b p → reaches p v.
Proof. intros [] (block' & E & N & I); simplify_eq; eauto. Qed.
Lemma reaches_tc b p v : reaches b v → tc through b p → reaches p v.
Proof. intros R T. revert R. induction T; eauto using reaches_through. Qed.

Lemma reaches_unique b v v' : reaches b v → reaches b v' → v = v'.
Proof.
  intros R. revert v'. induction R as [b block v E F|b block v E F N _ IH];
    intros v' V; inversion V as [? ? ? E' F'|? ? ? E' F' N' R']; simplify_eq; try done.
  destruct (predecessor_ids block) as [|p l]; [by destruct N|]. apply (IH p); [by left|]. apply R'. by left.
Qed.

(** A cycle without a definition has no value. *)
Lemma no_cycle b v : reaches b v → ¬ tc through b b.
Proof.
  assert (∀ b block, at_id b = Some block → found block ≠ None → ¬ tc through b b) as Start.
  { intros x block E F T. assert (∃ p, through x p) as (p & block' & E' & F' & _) by (inversion T; eauto).
    simplify_eq. }
  induction 1 as [b block v E F|b block v E F N R IH]; [apply (Start _ _ E); congruence|].
  intros T. assert (∃ p, through b p ∧ rtc through p b) as (p & (block' & E' & _ & I) & T').
  { inversion T as [? ? S|? p ? S T']; subst; [by exists b|exists p; eauto using tc_rtc]. }
  simplify_eq. apply (IH p I). eapply tc_rtc_l; [exact T'|]. apply tc_once. by exists block.
Qed.

(** ** The search *)

Definition answers (x : nat) (r : option SsaVar) : Prop := ∀ v, r = Some v ↔ reaches x v.
Definition good (memo : Memo) : Prop := ∀ x r, memo !! x = Some r → answers x r.
Definition ids : gset nat := list_to_set (map sb_id (blocks ssa)).

Lemma good_insert memo b r : good memo → answers b r → good (<[b := r]> memo).
Proof. intros G A x r' [[<- <-]|[_ Hx]]%lookup_insert_Some; [done|by apply G]. Qed.

Lemma at_id_ids b block : at_id b = Some block → b ∈ ids.
Proof.
  intros [I E%bool_decide_eq_true]%find_first_Some. unfold ids.
  apply elem_of_list_to_set, list_elem_of_fmap. eauto.
Qed.

Definition finds (r : option (option SsaVar * Memo)) (spec : option SsaVar → Prop) : Prop :=
  ∃ res memo, r = Some (res, memo) ∧ good memo ∧ spec res.

Lemma incoming_finds rec preds : ∀ common memo,
  good memo →
  (∀ p memo, p ∈ preds → good memo → finds (rec memo p) (answers p)) →
  finds (incoming rec preds common memo)
    (λ r, ∀ v, r = Some v ↔ (common = Some v ∨ common = None ∧ preds ≠ []) ∧ ∀ p, p ∈ preds → reaches p v).
Proof.
  induction preds as [|p preds IH]; intros common memo G R; cbn [incoming].
  { exists common, memo. do 2 (split; [done|]). intros v. split.
    - intros ->. split; [by left|]. by intros p ?%not_elem_of_nil.
    - by intros [[->|[_ []]] _]. }
  destruct (R p memo) as (r & memo1 & -> & G1 & A); [by left|done|]. cbn.
  assert (∀ q memo, q ∈ preds → good memo → finds (rec memo q) (answers q)) as R' by (intros; apply R; [by right|done]).
  assert (∀ v, (∀ q, q ∈ p :: preds → reaches q v) ↔ reaches p v ∧ ∀ q, q ∈ preds → reaches q v) as Split.
  { intros v. setoid_rewrite elem_of_cons. naive_solver. }
  destruct r as [v1|].
  - pose proof (proj1 (A v1) eq_refl) as R1.
    assert (∀ v, reaches p v ↔ v = v1) as P1 by (split; [intros; by eapply reaches_unique|by intros ->]).
    destruct common as [c|]; [case_decide as C|].
    + subst c. destruct (IH (Some v1) memo1 G1 R') as (r & memo2 & -> & G2 & S).
      exists r, memo2. do 2 (split; [done|]). intros v. rewrite S, Split, P1. naive_solver.
    + exists None, memo1. do 2 (split; [done|]). intros v. rewrite Split, P1. naive_solver.
    + destruct (IH (Some v1) memo1 G1 R') as (r & memo2 & -> & G2 & S).
      exists r, memo2. do 2 (split; [done|]). intros v. rewrite S, Split, P1. naive_solver.
  - exists None, memo1. do 2 (split; [done|]). intros v. rewrite Split, <-(A v). naive_solver.
Qed.

Lemma resolve_finds fuel : ∀ visiting memo b,
  good memo → (∀ y, y ∈ visiting → tc through y b) → size (ids ∖ visiting) < fuel →
  finds (resolve base_offset fuel ssa visiting memo b) (answers b).
Proof.
  induction fuel as [|fuel IH]; intros vis memo b G Above L; [lia|]. cbn [resolve].
  destruct (memo !! b) as [cached|] eqn:Em; [exists cached, memo; eauto|].
  case_decide as V.
  { exists None, memo. do 2 (split; [done|]). intros v. split; [done|].
    intros R. by destruct (no_cycle b v R (Above b V)). }
  assert (finds match at_id b with
    | None => Some (None, memo)
    | Some block =>
        match found block with
        | Some v => Some (Some v, memo)
        | None => incoming (resolve base_offset fuel ssa ({[b]} ∪ vis)) (predecessor_ids block) None memo
        end
    end (answers b)) as (r & memo1 & -> & G1 & A).
  2:{ exists r, (<[b := r]> memo1). split; [done|]. split; [by apply good_insert|done]. }
  destruct (at_id b) as [block|] eqn:E.
  2:{ exists None, memo. do 2 (split; [done|]). intros v. split; [done|]. intros R; inversion R; congruence. }
  destruct (found block) as [v1|] eqn:F.
  { exists (Some v1), memo. do 2 (split; [done|]). intros v. split.
    - intros [= <-]. by eapply reaches_here.
    - intros R. f_equal. eapply reaches_unique; [by eapply reaches_here|done]. }
  destruct (incoming_finds (resolve base_offset fuel ssa ({[b]} ∪ vis)) (predecessor_ids block) None memo)
    as (r & memo1 & -> & G1 & A); [done| |].
  - intros p memo' Hp G'. apply IH; [done| |].
    + assert (through b p) as T by by exists block.
      intros y [->%elem_of_singleton|Hy]%elem_of_union; [by apply tc_once|]. eapply tc_r; eauto.
    + assert (ids ∖ ({[b]} ∪ vis) ⊂ ids ∖ vis) as S%subset_size by (pose proof (at_id_ids _ _ E); set_solver).
      lia.
  - exists r, memo1. do 2 (split; [done|]). intros v. rewrite A. split.
    + intros [[?|[_ N]] R]; [done|]. by eapply reaches_from.
    + intros R. inversion R; simplify_eq. split; [by right|done].
Qed.

(** ** Ways into the block *)

(** A walk against the edges: each block is a predecessor of the one before it. *)
Fixpoint walk (b : nat) (w : list nat) : Prop :=
  match w with
  | [] => True
  | p :: w => (∃ block, at_id b = Some block ∧ p ∈ predecessor_ids block) ∧ walk p w
  end.
(** The definition nearest to its start. *)
Definition found_at (b : nat) : option SsaVar := at_id b ≫= found_in base_offset.
Fixpoint nearest (w : list nat) : option SsaVar :=
  match w with
  | [] => None
  | b :: w => match found_at b with Some v => Some v | None => nearest w end
  end.

(** Every way back from [b] meets [v] first, within [n] edges. *)
Definition all_ways (n b : nat) (v : SsaVar) : Prop :=
  ∀ w, walk b w →
    match nearest (b :: w) with
    | Some v' => v' = v
    | None => length w < n ∧ ∃ p, walk b (w ++ [p])
    end.

Lemma found_at_through b p w : found_at b = None → walk b (p :: w) → through b p ∧ walk p w.
Proof.
  intros F [(block & E & Hp) W]. unfold found_at in F. rewrite E in F. split; [|done]. by exists block.
Qed.

Lemma all_ways_reaches n : ∀ b v, all_ways n b v → reaches b v.
Proof.
  induction n as [|n IH]; intros b v A; pose proof (A [] I) as A0; cbn [nearest] in A0;
    (destruct (found_at b) as [v'|] eqn:F;
      [subst v'; unfold found_at in F; destruct (at_id b) eqn:E; [by eapply reaches_here|done]|]);
    destruct A0 as [L (p & W)]; [cbn in L; lia|].
  destruct W as [(block & E & Hp) _]. pose proof F as F'. unfold found_at in F'. rewrite E in F'.
  eapply reaches_from; [done..|by intros N; rewrite N in Hp; apply not_elem_of_nil in Hp|].
  intros q Hq. apply IH. intros w W.
  pose proof (A (q :: w) (conj (ex_intro _ block (conj E Hq)) W)) as A1.
  cbn [nearest] in A1. rewrite F in A1. cbn [nearest].
  destruct (found_at q); [done|]. destruct (nearest w); [done|].
  destruct A1 as (L1 & r & _ & W'). cbn in L1. split; [lia|]. by exists r.
Qed.

Lemma reaches_nearest b v : reaches b v → ∀ w v', walk b w → nearest (b :: w) = Some v' → v' = v.
Proof.
  intros R w. revert b R. induction w as [|p w IH]; intros b R v' W N; cbn [nearest] in N;
    (destruct (found_at b) as [u|] eqn:F;
      [simplify_eq; unfold found_at in F; destruct (at_id b) eqn:E; [|done];
       eapply reaches_unique; [by eapply reaches_here|done]|]); [done|].
  destruct (found_at_through b p w F W) as [T W']. apply (IH p); [by eapply reaches_through|done|done].
Qed.

Lemma reaches_extends b v : reaches b v → ∀ w, walk b w → nearest (b :: w) = None → ∃ p, walk b (w ++ [p]).
Proof.
  intros R w. revert b R. induction w as [|p w IH]; intros b R W N; cbn [nearest] in N;
    (destruct (found_at b) as [u|] eqn:F; [done|]).
  - destruct R as [b block v E F'|b block v E F' Np R]; unfold found_at in F; rewrite E in F.
    { by cbn in F; rewrite F' in F. }
    destruct (predecessor_ids block) as [|p l] eqn:Ep; [done|]. exists p. split; [|done].
    exists block. rewrite Ep. split; [done|by left].
  - destruct (found_at_through b p w F W) as [T W'].
    destruct (IH p (reaches_through _ _ _ R T) W' N) as (q & Wq). exists q. by destruct W.
Qed.

Lemma walk_through b w : walk b w → nearest (b :: w) = None → Forall (tc through b) w.
Proof.
  revert b. induction w as [|p w IH]; intros b W N; [constructor|]. cbn [nearest] in N.
  destruct (found_at b) eqn:F; [done|]. destruct (found_at_through b p w F W) as [T W'].
  constructor; [by apply tc_once|]. eapply Forall_impl; [by apply IH|]. intros q Tq. by eapply tc_l.
Qed.
Lemma walk_in_ids b w p : walk b (w ++ [p]) → Forall (.∈ ids) (b :: w).
Proof.
  revert b. induction w as [|q w IH]; intros b [(block & E & _) W]; constructor;
    try (by eapply at_id_ids); [constructor|]. by apply IH.
Qed.
Lemma reaches_short b v w : reaches b v → walk b w → nearest (b :: w) = None → length w < size ids.
Proof.
  intros R W N. destruct (reaches_extends b v R w W N) as (p & Wp).
  assert (NoDup (b :: w)) as D.
  { clear p Wp. revert b R W N. induction w as [|p w IH]; intros b R W N; [repeat constructor; set_solver|].
    constructor.
    - intros I. pose proof (walk_through _ _ W N) as F. rewrite Forall_forall in F.
      by apply (no_cycle b v R), F.
    - cbn [nearest] in N. destruct (found_at b) eqn:F; [done|].
      destruct (found_at_through b p w F W) as [T W']. apply IH; [by eapply reaches_through|done|done]. }
  pose proof (walk_in_ids b w p Wp) as I. rewrite Forall_forall in I.
  assert (list_to_set (b :: w) ⊆ ids) as S by (intros x Hx%elem_of_list_to_set; auto).
  apply subseteq_size in S. rewrite (size_list_to_set (C := gset nat)) in S by done. cbn in S. lia.
Qed.

Lemma reaches_all_ways b v : reaches b v ↔ all_ways (size ids) b v.
Proof.
  split; [|apply all_ways_reaches]. intros R w W. destruct (nearest (b :: w)) eqn:N.
  - by eapply reaches_nearest.
  - split; [by eapply reaches_short|by eapply reaches_extends].
Qed.

Definition returns (b : nat) : Prop := ∃ block, at_id b = Some block ∧ existsb is_return_op (sb_ops block) = true.

Lemma reaching_exact b v :
  reaching_register_at_return base_offset ssa b = Some v ↔ returns b ∧ reaches b v.
Proof.
  unfold reaching_register_at_return, returns.
  destruct (at_id b) as [block|] eqn:E; cbn; [|naive_solver].
  destruct (resolve_finds (length (blocks ssa) + 2) ∅ ∅ b) as (r & memo & -> & _ & A).
  - by intros ??.
  - set_solver.
  - assert (size (ids ∖ ∅) ≤ length (blocks ssa)); [|lia].
    rewrite difference_empty_L. unfold ids. rewrite <-(length_map sb_id).
    apply size_list_to_set_le.
  - cbn. destruct (existsb _ _) eqn:X.
    + rewrite (A v). split; [intros; split; eauto|by intros [_ ?]].
    + split; [done|]. intros [(? & ? & ?) _]. congruence.
Qed.

(** C19: the value of a return is the one every way into it agrees on: walking
    back from the block along predecessors, each way meets a definition of the
    register, after fewer edges than there are blocks, and the first it meets
    is that variable. If there is such a variable it is found, whatever loops
    the search runs into. *)
Theorem return_value_exact b v :
  reaching_register_at_return base_offset ssa b = Some v ↔ returns b ∧ all_ways (size ids) b v.
Proof. by rewrite <-reaches_all_ways, reaching_exact. Qed.
End reaching.
