(* ===== verification/HirCorrect.v ===== *)
(** What lowering into the semantic IR and lifting its calls keep true; then the
    claims: what lowering records, that it is always valid, which call sites and
    arguments are lifted, and what the second engine makes of it. *)

From S2P Require Import Prelude Cfg CfgFrontier Ssa Pcode Simplify Region Hir Reaching.
Import Origin.

(** ** Checks *)

Lemma and_then_None a b : and_then a b = None ↔ a = None ∧ b = None.
Proof. destruct a; cbn; naive_solver. Qed.
Lemma each_None {A} (f : A → option HirValidationError) l : each f l = None ↔ Forall (λ x, f x = None) l.
Proof.
  induction l as [|x l IH]; cbn [each foldr]; [split; [constructor|done]|].
  rewrite and_then_None, Forall_cons, <-IH. done.
Qed.
Lemma require_None ok e : require ok e = None ↔ ok = true.
Proof. by destruct ok. Qed.
Lemma require_value_None h v : require_value h v = None ↔ v < length (values h).
Proof. unfold require_value. by rewrite require_None, bool_decide_eq_true. Qed.
Lemma imap_pair_Forall {A} (Q : nat * A → Prop) (l : list A) :
  Forall Q (imap pair l) ↔ ∀ i x, l !! i = Some x → Q (i, x).
Proof.
  rewrite Forall_forall. setoid_rewrite elem_of_lookup_imap. split.
  - intros H i x E. apply H. eauto.
  - intros H ix (i & x & -> & E). by apply H.
Qed.

(** ** The lowering state *)

Implicit Types (s : SsaLowering) (v : SsaVar).

Record wf s : Prop := {
  wf_inj v w i : var_values s !! v = Some i → var_values s !! w = Some i → v = w;
  wf_onto i : i < length (values (hir s)) ↔ ∃ v, var_values s !! v = Some i;
  wf_value i x : values (hir s) !! i = Some x → value_id x = i ∧ value_width x ≠ Some 0%Z;
}.

Lemma wf_lt s v i : wf s → var_values s !! v = Some i → i < length (values (hir s)).
Proof. intros W E. apply (wf_onto s W). eauto. Qed.

(** What stays the same while values are added. *)
Record grown (vars : list SsaVar) s s' : Prop := {
  gr_wf : wf s';
  gr_sub : var_values s ⊆ var_values s';
  gr_dom v : is_Some (var_values s' !! v) ↔ is_Some (var_values s !! v) ∨ v ∈ vars;
  gr_operations : operations (hir s') = operations (hir s);
  gr_keys : key_operations s' = key_operations s;
  gr_calls : key_call_sites s' = key_call_sites s;
  gr_sites : call_sites (hir s') = call_sites (hir s);
  gr_objects : memory_objects (hir s') = memory_objects (hir s);
  gr_exits : exit_values (hir s') = exit_values (hir s);
}.

Lemma grew_refl s : wf s → grown [] s s.
Proof. intros W. split; try done. intros v. split; [by left|by intros [?|?%not_elem_of_nil]]. Qed.
Lemma grew_trans l1 l2 s1 s2 s3 : grown l1 s1 s2 → grown l2 s2 s3 → grown (l1 ++ l2) s1 s3.
Proof.
  intros A B. split; try (etrans; [apply B|apply A]); [apply B|etrans; [apply A|apply B]|].
  intros v. rewrite (gr_dom _ _ _ B), (gr_dom _ _ _ A), elem_of_app. tauto.
Qed.

Lemma ssa_value_bit_width_nonzero v : ssa_value_bit_width v ≠ Some 0%Z.
Proof.
  unfold ssa_value_bit_width. destruct (location v); try done.
  destruct ((_ || _ || _)%bool) eqn:E; [done|]. apply orb_false_iff in E as [_ E%Z.eqb_neq]. congruence.
Qed.

Lemma ensure_grown p d s v : wf s →
  ∃ id s', ensure_ssa_value p d s v = (id, s') ∧ grown [v] s s' ∧ var_values s' !! v = Some id.
Proof.
  intros W. unfold ensure_ssa_value. destruct (var_values s !! v) as [id|] eqn:E.
  - eexists _, _. split; [done|]. assert (∀ u, is_Some (var_values s !! u) ↔ is_Some (var_values s !! u) ∨ u ∈ [v]) as D.
    { intros u. rewrite list_elem_of_singleton. split; [by left|]. intros [?| ->]; [done|]. by rewrite E. }
    destruct d; (split; [split; try done|done]).
    split; cbn.
    + apply (wf_inj s W).
    + intros i. rewrite length_alter. apply (wf_onto s W).
    + intros i x. rewrite list_lookup_alter. case_decide; [subst i|exact (wf_value s W i x)].
      intros (y & Ey & ->)%fmap_Some. exact (wf_value s W id y Ey).
  - cbn. eexists _, _. split; [done|]. split; [split; try done; cbn|by cbn; rewrite lookup_insert_eq].
    + split; cbn.
      * intros u w i [[<- <-]|[Nu Hu]]%lookup_insert_Some [[<- Ei]|[Nw Hw]]%lookup_insert_Some; try done.
        -- pose proof (wf_lt s w _ W Hw). lia.
        -- subst i. pose proof (wf_lt s u _ W Hu). lia.
        -- by eapply (wf_inj s W).
      * intros i. rewrite length_app. cbn. setoid_rewrite lookup_insert_Some. split.
        -- intros L. destruct (decide (i = length (values (hir s)))) as [->|]; [eauto|].
           assert (i < length (values (hir s))) as (u & Hu)%(wf_onto s W) by lia.
           exists u. right. split; [congruence|done].
        -- intros (u & [[_ <-]|[_ Hu]]); [lia|]. pose proof (wf_lt s u _ W Hu). lia.
      * intros i x [Hx|(L & [Ei <-]%list_lookup_singleton_Some)]%lookup_app_Some; [by apply (wf_value s W)|].
        cbn. split; [lia|apply ssa_value_bit_width_nonzero].
    + by apply insert_subseteq.
    + intros u. rewrite list_elem_of_singleton, lookup_insert_is_Some. destruct (decide (u = v)) as [->|N].
      * split; [by right|by left].
      * split; [intros [?|[_ ?]]; [congruence|by left]|intros [?|?]; [by right|done]].
Qed.

Lemma ensure_all_grown p vars : ∀ s, wf s →
  ∃ ids s', ensure_all p s vars = (ids, s') ∧ grown vars s s' ∧
    Forall2 (λ v id, var_values s' !! v = Some id) vars ids.
Proof.
  induction vars as [|v vars IH]; intros s W; cbn [ensure_all].
  { eexists _, _. split; [done|]. split; [by apply grew_refl|constructor]. }
  destruct (ensure_grown p false s v W) as (id & s1 & -> & G1 & E1).
  destruct (IH s1 (gr_wf _ _ _ G1)) as (ids & s2 & -> & G2 & F).
  eexists _, _. split; [done|]. split; [apply (grew_trans [v] vars _ s1 _ G1 G2)|].
  constructor; [|done]. by eapply lookup_weaken, (gr_sub _ _ _ G2).
Qed.

(** ** Operations *)

Section lowering.
Context {P : Type} `{PcodeView P}.
Notation SsaOp := (SsaOp P).
Notation SsaBlock := (SsaBlock P).
Notation SsaFunction := (SsaFunction P).
Implicit Types (op : SsaOp) (block : SsaBlock) (ssa : SsaFunction).

Definition op_vars op : list SsaVar := op_inputs op ++ option_list (op_output op).

(** The HIR operation of [op], the values of variables given. *)
Record lowered (ids : gmap SsaVar nat) (index : nat) op (o : HirOperation) : Prop := {
  lo_inputs : Forall2 (λ v id, ids !! v = Some id) (op_inputs op) (inputs o);
  lo_output : option_Forall2 (λ v id, ids !! v = Some id) (op_output op) (output o);
  lo_kind : op_kind o = op_hir_kind op;
  lo_source : op_provenance o = op_source index op;
}.
Lemma lowered_weaken ids ids' index op o : ids ⊆ ids' → lowered ids index op o → lowered ids' index op o.
Proof.
  intros S [A B C D]. split; try done.
  - eapply Forall2_impl; [exact A|]. intros v id E. by apply (lookup_weaken ids).
  - destruct B; constructor. by apply (lookup_weaken ids).
Qed.

(** The operations of the function with their blocks and indices. *)
Definition all_ops ssa : list (SsaBlock * (nat * SsaOp)) :=
  flat_map (λ b, map (pair b) (imap pair (sb_ops b))) (blocks ssa).
Definition key_of (x : SsaBlock * (nat * SsaOp)) : nat * nat := (sb_id x.1, x.2.1).

Record Lowered (done : list (SsaBlock * (nat * SsaOp))) s : Prop := {
  ld_wf : wf s;
  ld_ops : Forall2 (λ x o, lowered (var_values s) x.2.1 x.2.2 o) done (operations (hir s));
  ld_ids : ∀ i o, operations (hir s) !! i = Some o → op_id o = i;
  ld_vars : ∀ v, is_Some (var_values s !! v) ↔ ∃ x, x ∈ done ∧ v ∈ op_vars x.2.2;
  ld_key : ∀ k j, key_operations s !! k = Some j → key_of <$> done !! j = Some k;
  ld_keys : ∀ k, k ∈ map key_of done → is_Some (key_operations s !! k);
  ld_rest : memory_objects (hir s) = [] ∧ call_sites (hir s) = [] ∧ key_call_sites s = ∅ ∧
    exit_values (hir s) = ∅;
}.

Lemma lower_op_grown s b index op : wf s →
  ∃ s1 ins out, lower_op b s (index, op)
    = mkLowering (add_operation (op_hir_kind op) ins out (op_source index op) (hir s1)).2 (var_values s1)
        (<[(b, index) := length (operations (hir s))]> (key_operations s1)) (key_call_sites s1) ∧
    grown (op_vars op) s s1 ∧
    lowered (var_values s1) index op
      (mkOperation (length (operations (hir s))) (op_hir_kind op) ins out (op_source index op)).
Proof.
  intros W. unfold lower_op.
  destruct (ensure_all_grown (derived Entry (primary (op_source index op)) (contributors (op_source index op)))
    (op_inputs op) s W) as (ins & s1 & -> & G1 & F1).
  unfold op_vars. destruct (op_output op) as [v|] eqn:Eo.
  - destruct (ensure_grown (op_source index op) true s1 v (gr_wf _ _ _ G1)) as (id & s2 & -> & G2 & E2).
    exists s2, ins, (Some id). cbn. rewrite (gr_operations _ _ _ G2), (gr_operations _ _ _ G1).
    split; [done|]. split; [by eapply grew_trans|]. split; cbn; try done.
    + eapply Forall2_impl; [exact F1|]. intros u i Ei. by eapply lookup_weaken, (gr_sub _ _ _ G2).
    + rewrite Eo. by constructor.
  - exists s1, ins, None. cbn. rewrite (gr_operations _ _ _ G1). split; [done|].
    split; [by rewrite app_nil_r|]. split; cbn; try done. rewrite Eo. constructor.
Qed.

Lemma lower_op_lowered done s x : Lowered done s → Lowered (done ++ [x]) (lower_op (sb_id x.1) s x.2).
Proof.
  destruct x as [block [index op]]. intros L. cbn [fst snd].
  destruct (lower_op_grown s (sb_id block) index op (ld_wf _ _ L)) as (s1 & ins & out & -> & G & O).
  pose proof (Forall2_length _ _ _ (ld_ops _ _ L)) as Len.
  pose proof (gr_operations _ _ _ G) as Eo. destruct (gr_wf _ _ _ G) as [I N V].
  split; cbn [hir var_values key_operations key_call_sites add_operation snd operations memory_objects call_sites exit_values].
  - by split.
  - rewrite Eo. apply Forall2_app; [|constructor; [exact O|constructor]].
    eapply Forall2_impl; [exact (ld_ops _ _ L)|]. intros y o Q.
    by eapply lowered_weaken, Q; apply (gr_sub _ _ _ G).
  - intros i o. rewrite Eo. intros [Hi|(Li & [Ei <-]%list_lookup_singleton_Some)]%lookup_app_Some.
    + by apply (ld_ids _ _ L).
    + cbn. lia.
  - intros v. rewrite (gr_dom _ _ _ G), (ld_vars _ _ L). setoid_rewrite elem_of_app.
    setoid_rewrite list_elem_of_singleton. split.
    + intros [(y & Hy & Hv)|Hv]; [exists y; auto|]. exists (block, (index, op)). auto.
    + intros (y & [Hy| ->] & Hv); [left; eauto|by right].
  - rewrite (gr_keys _ _ _ G). intros k j [[<- <-]|[Nk Hk]]%lookup_insert_Some.
    + by rewrite <-Len, list_lookup_middle.
    + apply (ld_key _ _ L) in Hk. destruct (done !! j) eqn:Ej; [|done].
      by rewrite lookup_app_l, Ej by (by eapply lookup_lt_Some).
  - rewrite (gr_keys _ _ _ G), map_app. intros k [Hk|Ek%list_elem_of_singleton]%elem_of_app.
    + apply lookup_insert_is_Some'. right. by apply (ld_keys _ _ L).
    + subst k. by rewrite lookup_insert_eq.
  - rewrite (gr_objects _ _ _ G), (gr_sites _ _ _ G), (gr_calls _ _ _ G), (gr_exits _ _ _ G). apply (ld_rest _ _ L).
Qed.

Lemma foldl_lower_lowered l : ∀ done s, Lowered done s →
  Lowered (done ++ l) (foldl (λ s x, lower_op (sb_id x.1) s x.2) s l).
Proof.
  induction l as [|x l IH]; intros done s L; [by rewrite app_nil_r|]. cbn.
  rewrite cons_middle, app_assoc. by apply IH, lower_op_lowered.
Qed.

Lemma foldl_map_list {A B C} (f : C → B → C) (g : A → B) l c : foldl f c (map g l) = foldl (λ c a, f c (g a)) c l.
Proof. revert c. induction l; intros c; cbn; auto. Qed.
(** A loop over the operations of each block is a loop over all of them. *)
Lemma foldl_all_ops {A} (f : A → SsaBlock * (nat * SsaOp) → A) ssa a :
  foldl f a (all_ops ssa)
  = foldl (λ a b, foldl (λ a iop, f a (b, iop)) a (imap pair (sb_ops b))) a (blocks ssa).
Proof.
  unfold all_ops. revert a. induction (blocks ssa) as [|b l IH]; intros a; [done|].
  cbn [flat_map foldl]. rewrite foldl_app, <-IH. by rewrite foldl_map_list.
Qed.

Definition lowered_blocks ssa : SsaLowering := foldl lower_block (mkLowering empty_hir ∅ ∅ ∅) (blocks ssa).
Lemma lowered_blocks_ok ssa : Lowered (all_ops ssa) (lowered_blocks ssa).
Proof.
  pose proof (foldl_lower_lowered (all_ops ssa) [] (mkLowering empty_hir ∅ ∅ ∅)) as L.
  rewrite foldl_all_ops in L. apply L. split; cbn.
  - split; cbn; [done| |done]. intros i. split; [lia|]. by intros (v & ?%lookup_empty_Some).
  - constructor.
  - done.
  - intros v. split; [by intros (i & ?%lookup_empty_Some)|by intros (x & ?%not_elem_of_nil & _)].
  - by intros k j ?%lookup_empty_Some.
  - by intros k ?%not_elem_of_nil.
  - done.
Qed.

(** ** Exits *)

Lemma record_exit_same ssa s block :
  let s' := record_exit ssa s block in
  values (hir s') = values (hir s) ∧ operations (hir s') = operations (hir s) ∧
  memory_objects (hir s') = memory_objects (hir s) ∧ call_sites (hir s') = call_sites (hir s) ∧
  var_values s' = var_values s ∧ key_operations s' = key_operations s ∧ key_call_sites s' = key_call_sites s ∧
  exit_values (hir s') =
    match reaching_register_at_return 0 ssa (sb_id block) ≫= (var_values s !!.) with
    | Some id => <[sb_id block := id]> (exit_values (hir s))
    | None => exit_values (hir s)
    end.
Proof.
  unfold record_exit. destruct (reaching_register_at_return _ _ _) as [v|]; [|done]. cbn.
  by destruct (var_values s !! v).
Qed.

(** What recording the exits of [l] gives. *)
Record exited ssa (l : list SsaBlock) s s' : Prop := {
  ex_values : values (hir s') = values (hir s);
  ex_operations : operations (hir s') = operations (hir s);
  ex_objects : memory_objects (hir s') = memory_objects (hir s);
  ex_sites : call_sites (hir s') = call_sites (hir s);
  ex_vars : var_values s' = var_values s;
  ex_keys : key_operations s' = key_operations s;
  ex_calls : key_call_sites s' = key_call_sites s;
  ex_exits : ∀ b, exit_values (hir s') !! b =
    if decide (b ∈ map sb_id l)
    then match reaching_register_at_return 0 ssa b ≫= (var_values s !!.) with
         | Some id => Some id
         | None => exit_values (hir s) !! b
         end
    else exit_values (hir s) !! b;
}.

Lemma record_exits ssa l : ∀ s, exited ssa l s (foldl (record_exit ssa) s l).
Proof.
  induction l as [|block l IH]; intros s; [by split|]. cbn [foldl].
  destruct (record_exit_same ssa s block) as (A & B & C & D & E & F & G & X).
  destruct (IH (record_exit ssa s block)) as [A' B' C' D' E' F' G' X'].
  split; try congruence. intros b. rewrite X', E, X. cbn [map]. clear -b.
  destruct (decide (b = sb_id block)) as [->|Nb].
  - rewrite (decide_True (P := sb_id block ∈ sb_id block :: _)) by (by left).
    destruct (reaching_register_at_return 0 ssa (sb_id block) ≫= _) as [id|]; [rewrite lookup_insert_eq|];
      by case_decide.
  - assert (∀ m : gmap nat nat, match reaching_register_at_return 0 ssa (sb_id block) ≫= (var_values s !!.) with
      | Some id => <[sb_id block:=id]> m | None => m end !! b = m !! b) as ->.
    { intros m. destruct (reaching_register_at_return 0 ssa (sb_id block) ≫= _); [by rewrite lookup_insert_ne|done]. }
    destruct (decide (b ∈ map sb_id l)) as [I|I].
    + by rewrite decide_True by (by right).
    + rewrite decide_False; [done|]. intros [?|?]%elem_of_cons; done.
Qed.

(** ** Calls *)

Definition lifted_call (ids : gmap SsaVar nat) (p : Provenance) (x : SsaBlock * (nat * SsaOp)) (dest : Varnode)
    : Win64.CallSite :=
  Win64.new p (lift_call_target ids x.1 x.2.1 x.2.2 dest) (lift_same_block_win64_arguments ids x.1 x.2.1 x.2.2).

Lemma lift_op_cases ssa acc x :
  lift_op ssa x.1 acc x.2 = acc ∧
    (call_dest ssa x.2.2 = None ∨ is_Some (key_call_sites acc.1 !! key_of x) ∨
     key_operations acc.1 !! key_of x ≫= (operations (hir acc.1) !!.) = None) ∨
  ∃ dest o, call_dest ssa x.2.2 = Some dest ∧ key_call_sites acc.1 !! key_of x = None ∧
    key_operations acc.1 !! key_of x ≫= (operations (hir acc.1) !!.) = Some o ∧
    let call := lifted_call (var_values acc.1)
      (derived Abi (primary (op_provenance o)) (contributors (op_provenance o))) x dest in
    let id := length (call_sites (hir acc.1)) in
    lift_op ssa x.1 acc x.2 =
      (mkLowering (add_call_site call (hir acc.1)).2 (var_values acc.1) (key_operations acc.1)
         (<[key_of x := id]> (key_call_sites acc.1)), acc.2 ++ [id]).
Proof.
  destruct acc as [s lifted], x as [block [index op]]. unfold lift_op, key_of. cbn [fst snd].
  destruct (call_dest ssa op) as [dest|]; [|by left; split; [|left]].
  destruct (key_call_sites s !! (sb_id block, index)) eqn:Ek; [left; split; [done|right; left; eauto]|].
  destruct (key_operations s !! (sb_id block, index) ≫= (operations (hir s) !!.)) as [o|] eqn:Eo;
    [|left; split; [done|by right; right]].
  right. exists dest, o. split_and!; done.
Qed.

Lemma lift_all_ops ssa s : lift_win64_calls ssa s = foldl (λ acc x, lift_op ssa x.1 acc x.2) (s, []) (all_ops ssa).
Proof. unfold lift_win64_calls. by rewrite foldl_all_ops. Qed.

Lemma prior_definition_def base prior v b : prior_definition base prior = (Some v, b) →
  in_register base v = true ∧ b = false ∧ ∃ op, op ∈ prior ∧ def op = Some v.
Proof.
  induction prior as [|op prior IH]; cbn; [done|]. destruct (is_pcode_call op); [done|].
  destruct (def op) as [d|] eqn:D.
  - destruct (in_register base d) eqn:R.
    + intros [= -> <-]. split; [done|]. split; [done|]. exists op. split; [by left|done].
    + intros (? & ? & o & Ho & Do)%IH. split_and!; [done..|]. exists o. split; [by right|done].
  - intros (? & ? & o & Ho & Do)%IH. split_and!; [done..|]. exists o. split; [by right|done].
Qed.

(** *** Lifted calls are valid *)

Lemma lift_argument_value ids block i op pr a : lift_argument ids block i op pr = Some a →
  ∃ v value, same_block_reaching_register block i pr.2 = Some v ∧ ids !! v = Some value ∧
    Win64.standard (Z.of_nat pr.1) value Win64.Integer = Some a.
Proof.
  destruct pr as [position base]. unfold lift_argument. cbn [fst snd]. destruct (if is_direct_call op then _ else _); [|done].
  destruct (same_block_reaching_register _ _ _) as [v|]; [|done]. cbn.
  destruct (ids !! v) as [value|] eqn:E; [|done]. cbn. eauto.
Qed.

Lemma standard_argument position value class a : Win64.standard position value class = Some a →
  Win64.position a = position ∧ Win64.arg_value a = value ∧ ∃ l, Win64.locations a = [l] ∧
    Win64.standard_location position class = Some l.
Proof. unfold Win64.standard. destruct (Win64.standard_location _ _) as [l|]; [|done]. intros [= <-]. eauto. Qed.

Lemma check_arguments_ok h call l : ∀ seen,
  Forall (λ a, Win64.arg_value a < length (values h) ∧ Win64.locations a ≠ [] ∧
               Forall (λ x, check_location call (Win64.position a) x = None) (Win64.locations a)) l →
  NoDup (map Win64.position l) → (∀ a, a ∈ l → Win64.position a ∉ seen) →
  check_arguments h call seen l = None.
Proof.
  induction l as [|a l IH]; intros seen F N D; [done|]. cbn [check_arguments].
  apply Forall_cons in F as [(V & Ne & Loc) F]. apply NoDup_cons in N as [Na N].
  rewrite !and_then_None, require_value_None, !require_None, each_None. split_and!; try done.
  - rewrite bool_decide_false; [done|]. apply D. by left.
  - by destruct (Win64.locations a).
  - apply IH; [done..|]. intros a' Ha'. rewrite elem_of_union, elem_of_singleton. intros [E|I].
    + apply Na. rewrite <-E. by apply list_elem_of_fmap_2.
    + revert I. apply D. by right.
Qed.

Lemma lift_arguments_omap ids block i op :
  lift_same_block_win64_arguments ids block i op =
  if is_direct_call op || is_tail_branch op
  then omap (lift_argument ids block i op) (imap pair WIN64_GPR_ARGUMENT_REGISTERS) else [].
Proof. unfold lift_same_block_win64_arguments. by destruct (is_direct_call op), (is_tail_branch op). Qed.

Lemma lift_argument_standard ids block i op pr a :
  pr ∈ imap pair WIN64_GPR_ARGUMENT_REGISTERS → lift_argument ids block i op pr = Some a →
  Win64.position a = Z.of_nat pr.1 ∧ ∃ g, Win64.locations a = [Win64.InRegister (Slice.gpr g)].
Proof.
  intros Hp (v & value & _ & _ & S)%lift_argument_value.
  apply standard_argument in S as (-> & _ & l & -> & S). split; [done|].
  cbn in Hp. repeat (apply elem_of_cons in Hp as [->|Hp]; [injection S as <-; eauto|]).
  by apply not_elem_of_nil in Hp.
Qed.

Lemma lifted_arguments_positions ids block i op :
  NoDup (map Win64.position (lift_same_block_win64_arguments ids block i op)).
Proof.
  rewrite lift_arguments_omap. destruct (_ || _); [|constructor].
  assert (∀ l, (∀ pr, pr ∈ l → pr ∈ imap pair WIN64_GPR_ARGUMENT_REGISTERS) → NoDup l.*1 →
    NoDup (map Win64.position (omap (lift_argument ids block i op) l))) as G.
  { induction l as [|pr l IH]; intros Sub N; [constructor|]. cbn in N. apply NoDup_cons in N as [Np N].
    cbn [omap list_omap]. destruct (lift_argument ids block i op pr) as [a|] eqn:E; [|by apply IH; [intros; apply Sub; right|]].
    cbn. apply NoDup_cons. split; [|by apply IH; [intros; apply Sub; right|]].
    intros (a' & Ea & Ha')%list_elem_of_fmap. apply list_elem_of_omap in Ha' as (pr' & Hp' & E').
    apply lift_argument_standard in E as [E _]; [|apply Sub; by left].
    apply lift_argument_standard in E' as [E' _]; [|apply Sub; by right].
    apply Np. apply list_elem_of_fmap. exists pr'. split; [lia|done]. }
  apply G; [done|]. by apply (bool_decide_unpack _).
Qed.

Lemma lifted_call_valid h ids p x dest id :
  (∀ v i, ids !! v = Some i → i < length (values h)) →
  check_call h (id, lifted_call ids p x dest) = None.
Proof.
  intros Known. cbn [check_call lifted_call Win64.new Win64.target Win64.arguments Win64.result Win64.clobbers
    Win64.windows_x64_default Win64.memory]. rewrite !and_then_None. split_and!; try done.
  - unfold lift_call_target.
    destruct (space dest); try done.
    + destruct (reaching_register_for_indirect_target _ _ _ _) as [v|]; [|done]. cbn.
      destruct (ids !! v) eqn:E; [|done]. apply require_value_None. by eapply Known.
    + destruct (find_first _ _) as [v|]; [|done]. cbn.
      destruct (ids !! v) eqn:E; [|done]. apply require_value_None. by eapply Known.
  - apply check_arguments_ok; [|apply lifted_arguments_positions|set_solver].
    rewrite lift_arguments_omap. destruct (_ || _); [|constructor].
    apply Forall_forall. intros a Ha. apply list_elem_of_omap in Ha as (pr & Hpr & E).
    destruct (lift_argument_standard _ _ _ _ _ _ Hpr E) as (_ & g & ->).
    apply lift_argument_value in E as (v & value & _ & Ev & S).
    apply standard_argument in S as (_ & -> & _). split; [by eapply Known|]. split; [done|].
    by repeat constructor.
Qed.

(** *** The definition an argument has *)

(** The operations leave a register alone and call nothing. *)
Definition quiet (base : Z) op : Prop :=
  is_pcode_call op = false ∧ ∀ d, def op = Some d → in_register base d = false.
Definition defines (base : Z) op v : Prop :=
  is_pcode_call op = false ∧ def op = Some v ∧ in_register base v = true.

Lemma prior_definition_spec base v prior : (prior_definition base prior).1 = Some v ↔
  ∃ l op l', prior = l ++ op :: l' ∧ defines base op v ∧ Forall (quiet base) l.
Proof.
  induction prior as [|op prior IH]; [split; [done|by intros ([|]& ? & ? & ? & _)]|].
  assert (∀ op', quiet base op' ∨ (∃ u, defines base op' u) ∨ is_pcode_call op' = true) as Or.
  { intros op'. unfold quiet, defines. destruct (is_pcode_call op'); [by right; right|].
    destruct (def op') as [d|]; [destruct (in_register base d) eqn:R|].
    - right. left. by exists d.
    - left. split; [done|]. by intros ? [= <-].
    - by left. }
  assert (∀ u, quiet base op → defines base op u → False) as X.
  { intros u [_ Q] (_ & D & R). rewrite (Q u D) in R. done. }
  cbn [prior_definition]. destruct (Or op) as [Q|[(u & D)|C]].
  - pose proof Q as [-> Qd]. assert (∀ r, match def op with
      | Some d => if in_register base d then (Some d, false) else r | None => r end = r) as ->.
    { intros r. destruct (def op) as [d|]; [by rewrite (Qd d)|done]. }
    rewrite IH. split.
    + intros (l & o & l' & -> & D & F). exists (op :: l), o, l'. split; [done|]. split; [done|by constructor].
    + intros ([|y l] & o & l' & E & D & F); injection E as <- ->; [by destruct (X v)|].
      apply Forall_cons in F as [_ F]. by exists l, o, l'.
  - pose proof D as (-> & Ed & R). rewrite Ed, R. cbn. split.
    + intros [= ->]. exists [], op, prior. split; [done|]. split; [done|constructor].
    + intros ([|y l] & o & l' & E & (_ & D' & _) & F); injection E as <- ->; [congruence|].
      apply Forall_cons in F as [Q _]. by destruct (X u).
  - rewrite C. split; [done|]. intros ([|y l] & o & l' & E & D & F); injection E as <- ->.
    + destruct D; congruence.
    + apply Forall_cons in F as [[Q _] _]. congruence.
Qed.

(** The last definition before an index, with no call since. *)
Lemma same_block_spec base block i v : same_block_reaching_register block i base = Some v ↔
  ∃ l op l', take i (sb_ops block) = l ++ op :: l' ∧ defines base op v ∧ Forall (quiet base) l'.
Proof.
  unfold same_block_reaching_register, before. rewrite prior_definition_spec. split.
  - intros (l & op & l' & E & D & F). exists (reverse l'), op, (reverse l).
    split; [|split; [done|by apply Forall_reverse]].
    rewrite <-(reverse_involutive (take _ _)), E, reverse_app, reverse_cons, <-app_assoc. done.
  - intros (l & op & l' & E & D & F). exists (reverse l'), op, (reverse l).
    split; [|split; [done|by apply Forall_reverse]].
    rewrite E, reverse_app, reverse_cons, <-app_assoc. done.
Qed.
End lowering.

Section claims.
Context {P : Type} `{PcodeView P}.
Notation SsaOp := (SsaOp P).
Notation SsaBlock := (SsaBlock P).
Notation SsaFunction := (SsaFunction P).
Implicit Types (op : SsaOp) (block : SsaBlock).
Variable ssa : SsaFunction.

Notation L := (lower_from_ssa ssa).

Lemma lower_exited : exited ssa (blocks ssa) (lowered_blocks ssa) L.
Proof. apply record_exits. Qed.

Lemma reaching_block b v : reaching_register_at_return 0 ssa b = Some v → b ∈ map sb_id (blocks ssa).
Proof.
  unfold reaching_register_at_return. destruct (block_with_id ssa b) as [block|] eqn:E; [|done].
  intros _. apply find_first_Some in E as [I <-%bool_decide_eq_true]. by apply list_elem_of_fmap_2.
Qed.

Lemma exits_known b id : exit_values (hir L) !! b = Some id ↔
  ∃ v, reaching_register_at_return 0 ssa b = Some v ∧ var_values L !! v = Some id.
Proof.
  pose proof lower_exited as X. rewrite (ex_exits _ _ _ _ X), (ex_vars _ _ _ _ X).
  destruct (ld_rest _ _ (lowered_blocks_ok ssa)) as (_ & _ & _ & ->). rewrite lookup_empty.
  destruct (reaching_register_at_return 0 ssa b) as [v|] eqn:R; cbn.
  - rewrite decide_True by (by eapply reaching_block).
    destruct (var_values (lowered_blocks ssa) !! v) eqn:Ev; split; [intros [= <-]; eauto|naive_solver|done|naive_solver].
  - case_decide; naive_solver.
Qed.

Lemma lower_wf : wf L.
Proof.
  pose proof lower_exited as X. destruct (ld_wf _ _ (lowered_blocks_ok ssa)) as [I N V].
  split; rewrite ?(ex_vars _ _ _ _ X), ?(ex_values _ _ _ _ X); done.
Qed.
Lemma lower_ops : Forall2 (λ x o, lowered (var_values L) x.2.1 x.2.2 o) (all_ops ssa) (operations (hir L)).
Proof.
  pose proof lower_exited as X. rewrite (ex_vars _ _ _ _ X), (ex_operations _ _ _ _ X).
  apply (ld_ops _ _ (lowered_blocks_ok ssa)).
Qed.
Lemma lower_vars v : is_Some (var_values L !! v) ↔ ∃ x, x ∈ all_ops ssa ∧ v ∈ op_vars x.2.2.
Proof. rewrite (ex_vars _ _ _ _ lower_exited). apply (ld_vars _ _ (lowered_blocks_ok ssa)). Qed.

(** Block ids are the positions of the blocks, so keys are unique. *)
Lemma keys_unique : NoDup (map sb_id (blocks ssa)) → NoDup (map key_of (all_ops ssa)).
Proof.
  unfold all_ops. induction (blocks ssa) as [|b l IH]; cbn; [constructor|]. intros [Nb Nd]%NoDup_cons.
  rewrite map_app. apply NoDup_app. split; [|split; [|by apply IH]].
  - assert (map key_of (map (pair b) (imap pair (sb_ops b))) = pair (sb_id b) <$> seq 0 (length (sb_ops b))) as ->.
    { rewrite map_map, <-(imap_seq_0 (sb_ops b)). exact (fmap_imap _ _ (sb_ops b)). }
    apply NoDup_fmap_2; [by intros ?? [= ?]|apply NoDup_seq].
  - intros k (x & -> & Hx)%list_elem_of_fmap (y & E & Hy)%list_elem_of_fmap. apply Nb.
    apply list_elem_of_fmap in Hx as (ix & -> & _).
    apply list_elem_of_In, in_flat_map in Hy as (c & Hc%list_elem_of_In & Hy%list_elem_of_In).
    apply list_elem_of_fmap in Hy as (iy & -> & _). injection E as E _. cbn in E. rewrite E.
    by apply list_elem_of_fmap_2.
Qed.

Lemma lower_keys k j : NoDup (map sb_id (blocks ssa)) →
  key_operations L !! k = Some j ↔ key_of <$> all_ops ssa !! j = Some k.
Proof.
  intros Nd%keys_unique. rewrite (ex_keys _ _ _ _ lower_exited).
  pose proof (lowered_blocks_ok ssa) as B. split; [apply (ld_key _ _ B)|]. intros E.
  destruct (ld_keys _ _ B k) as [i Ei].
  { rewrite <-list_lookup_fmap in E. by eapply list_elem_of_lookup_2. }
  pose proof (ld_key _ _ B k i Ei) as E'. rewrite <-list_lookup_fmap in E, E'.
  by rewrite Ei, (NoDup_lookup _ _ _ _ Nd E E').
Qed.

(** A variable the search finds is defined, or used by the return. *)
Lemma found_occurs base block v : block ∈ blocks ssa → found_in base block = Some v →
  ∃ x, x ∈ all_ops ssa ∧ (def x.2.2 = Some v ∨ is_return_op x.2.2 = true ∧ v ∈ uses x.2.2).
Proof.
  intros Hb F. assert (∀ op, op ∈ sb_ops block → ∃ x, x ∈ all_ops ssa ∧ x.2.2 = op) as In.
  { intros op [i Hi]%list_elem_of_lookup. exists (block, (i, op)). split; [|done]. unfold all_ops.
    apply list_elem_of_In, in_flat_map. exists block. split; [by apply list_elem_of_In|].
    apply list_elem_of_In, list_elem_of_fmap. exists (i, op). split; [done|].
    apply elem_of_lookup_imap. eauto. }
  unfold found_in in F. destruct (explicit_return_use base block) as [u|] eqn:E.
  - injection F as <-. unfold explicit_return_use in E.
    destruct (position is_return_op (sb_ops block)) as [i|] eqn:Ep; [|done]. cbn in E.
    destruct (sb_ops block !! i) as [op|] eqn:Eo; [|done]. cbn in E.
    destruct (In op) as (x & Hx & <-); [by eapply list_elem_of_lookup_2|].
    exists x. split; [done|]. right. split; [|by apply find_first_Some in E as [? _]].
    apply position_split in Ep as (l1 & op' & l2 & El & <- & R & _).
    rewrite El, list_lookup_middle in Eo by done. by injection Eo as <-.
  - unfold local_definition in F. apply find_first_Some in F as [I _].
    apply list_elem_of_omap in I as (op & Ho & Ed).
    destruct (In op) as (x & Hx & <-); [|eauto].
    rewrite elem_of_reverse in Ho. apply elem_of_take in Ho as (i & Hi & _).
    by eapply list_elem_of_lookup_2.
Qed.

Lemma reaches_occurs base b v : reaches base ssa b v →
  ∃ x, x ∈ all_ops ssa ∧ (def x.2.2 = Some v ∨ is_return_op x.2.2 = true ∧ v ∈ uses x.2.2).
Proof.
  induction 1 as [b block v E F|b block v E F N R IH].
  - apply find_first_Some in E as [I _]. by eapply found_occurs.
  - destruct (predecessor_ids block) as [|p l]; [by destruct N|]. apply (IH p). by left.
Qed.

(** ** Claims on lowering *)

(** Lowering loses nothing. The operations are those of the function in
    order, each with its kind and its source, and reads and defines the values
    of the variables the operation reads and defines; a value stands for one
    variable, each variable of the function has one, and each value belongs to
    some variable. With the identity of blocks as construction gives them, keys
    lead to the operations at them. *)
Theorem lowering_lossless :
  Forall2 (λ x o, lowered (var_values L) x.2.1 x.2.2 o) (all_ops ssa) (operations (hir L)) ∧
  (∀ v, is_Some (var_values L !! v) ↔ ∃ x, x ∈ all_ops ssa ∧ v ∈ op_vars x.2.2) ∧
  (∀ v w i, var_values L !! v = Some i → var_values L !! w = Some i → v = w) ∧
  (∀ i, i < length (values (hir L)) ↔ ∃ v, var_values L !! v = Some i) ∧
  (NoDup (map sb_id (blocks ssa)) →
   ∀ k j, key_operations L !! k = Some j ↔ key_of <$> all_ops ssa !! j = Some k).
Proof.
  split; [apply lower_ops|]. split; [apply lower_vars|]. split; [apply (wf_inj _ lower_wf)|].
  split; [apply (wf_onto _ lower_wf)|]. intros N k j. by apply lower_keys.
Qed.

(** The value recorded for an exit leads back to the variable the search
    found, and to none where the search found none. (A phi defines its output,
    as construction makes it.) *)
Theorem exit_value_roundtrip b :
  (∀ x p, x ∈ all_ops ssa → kind x.2.2 = Phi p → def x.2.2 = Some (out p)) →
  exit_ssa_var L b = reaching_register_at_return 0 ssa b.
Proof.
  intros Phis. unfold exit_ssa_var.
  destruct (exit_values (hir L) !! b) as [id|] eqn:E; cbn.
  - apply exits_known in E as (v & -> & Ev).
    destruct (find_first _ _) as [[w i]|] eqn:F; cbn.
    + apply find_first_Some in F as [I <-%bool_decide_eq_true]. apply elem_of_map_to_list in I.
      f_equal. by eapply (wf_inj _ lower_wf).
    + exfalso. pose proof (proj1 (find_first_None _ _) F (v, id)) as Q. cbn in Q.
      rewrite bool_decide_true in Q by done. discriminate Q. by apply elem_of_map_to_list.
  - destruct (reaching_register_at_return 0 ssa b) as [v|] eqn:R; [|done]. exfalso.
    apply reaching_exact in R as R'. destruct R' as [_ R'].
    destruct (reaches_occurs 0 b v R') as (x & Hx & Hv).
    assert (is_Some (var_values L !! v)) as [id Ei].
    { apply lower_vars. exists x. split; [done|]. unfold op_vars, op_inputs, op_output, is_return_op, pcode_is in *.
      rewrite elem_of_app. destruct (kind x.2.2) as [p|] eqn:K.
      - rewrite (Phis x p Hx K) in Hv. right. destruct Hv as [[= <-]|[? _]]; [by left|done].
      - destruct Hv as [->|[_ ?]]; [right; by left|by left]. }
    assert (exit_values (hir L) !! b = Some id) by (apply exits_known; eauto). congruence.
Qed.

(** ** Lifting calls *)

(** What lifting keeps of [L]. *)
Record kept (acc : SsaLowering * list nat) : Prop := {
  kp_values : values (hir acc.1) = values (hir L);
  kp_operations : operations (hir acc.1) = operations (hir L);
  kp_objects : memory_objects (hir acc.1) = [];
  kp_exits : exit_values (hir acc.1) = exit_values (hir L);
  kp_vars : var_values acc.1 = var_values L;
  kp_keys : key_operations acc.1 = key_operations L;
  kp_calls : Forall (λ c, ∃ p x dest, c = lifted_call (var_values L) p x dest) (call_sites (hir acc.1));
}.

Lemma lift_op_kept acc x : kept acc → kept (lift_op ssa x.1 acc x.2).
Proof.
  intros [A B C D E F G].
  destruct (lift_op_cases ssa acc x) as [[-> _]|(dest & o & _ & _ & _ & ->)]; [by split|].
  split; cbn; try done. apply Forall_app. split; [done|]. rewrite E. constructor; [eauto|done].
Qed.
Lemma lower_kept : kept (L, []).
Proof.
  pose proof lower_exited as X. destruct (ld_rest _ _ (lowered_blocks_ok ssa)) as (M & S & _ & _).
  split; cbn; try done; [by rewrite (ex_objects _ _ _ _ X)|]. rewrite (ex_sites _ _ _ _ X), S. constructor.
Qed.
Lemma lift_kept l : ∀ acc, kept acc → kept (foldl (λ acc x, lift_op ssa x.1 acc x.2) acc l).
Proof. induction l as [|x l IH]; intros acc K; [done|]. by apply IH, lift_op_kept. Qed.
Lemma lifted_kept : kept (lift_win64_calls ssa L).
Proof. rewrite lift_all_ops. apply lift_kept, lower_kept. Qed.

Lemma kept_valid acc : kept acc → validate (hir acc.1) = None.
Proof.
  intros [A B C D E F G]. unfold validate. rewrite !and_then_None, !each_None, C, A, B.
  split_and!.
  - apply imap_pair_Forall. intros i x Hx. apply (wf_value _ lower_wf) in Hx as [Ei W].
    cbn. rewrite and_then_None, !require_None. by rewrite bool_decide_true, bool_decide_false.
  - constructor.
  - apply imap_pair_Forall. intros i o Ho. cbn. rewrite !and_then_None, require_None, each_None.
    pose proof lower_ops as F2.
    destruct (Forall2_lookup_r _ _ _ _ _ F2 Ho) as (x & _ & [Ins Out _ _]). split_and!.
    + rewrite (ex_operations _ _ _ _ lower_exited) in Ho.
      by rewrite bool_decide_true by (by apply (ld_ids _ _ (lowered_blocks_ok ssa))).
    + apply Forall_lookup. intros j id Hj.
      destruct (Forall2_lookup_r _ _ _ _ _ Ins Hj) as (v & _ & Ev).
      apply require_value_None. rewrite A. by eapply wf_lt; [apply lower_wf|].
    + destruct Out as [v id Ev|]; [|done]. apply require_value_None. rewrite A.
      by eapply wf_lt; [apply lower_wf|].
  - unfold exit_list. rewrite D. apply Forall_forall. intros id (b & _ & Hb)%list_elem_of_omap.
    apply exits_known in Hb as (v & _ & Ev). apply require_value_None. rewrite A.
    by eapply wf_lt; [apply lower_wf|].
  - apply imap_pair_Forall. intros i c Hc. rewrite Forall_lookup in G.
    destruct (G i c Hc) as (p & x & dest & ->). apply lifted_call_valid.
    intros v j Ev. rewrite A. by eapply wf_lt; [apply lower_wf|].
Qed.

(** C29: the semantic IR is always valid: whatever the SSA function, lowering it
    and lifting its calls gives a function that validation accepts. *)
Theorem hir_always_valid : validate (hir L) = None ∧ validate (hir (lift_win64_calls ssa L).1) = None.
Proof. split; [apply (kept_valid (L, [])), lower_kept|apply kept_valid, lifted_kept]. Qed.

(** *** Which calls *)

Definition call_at (x : SsaBlock * (nat * SsaOp)) : option Win64.CallSite :=
  (λ dest, lifted_call (var_values L)
             (derived Abi (primary (op_source x.2.1 x.2.2)) (contributors (op_source x.2.1 x.2.2))) x dest)
  <$> call_dest ssa x.2.2.

Record sites (done : list (SsaBlock * (nat * SsaOp))) (acc : SsaLowering * list nat) : Prop := {
  st_kept : kept acc;
  st_sites : call_sites (hir acc.1) = omap call_at done;
  st_ids : acc.2 = seq 0 (length (omap call_at done));
  st_keys : ∀ k, is_Some (key_call_sites acc.1 !! k) ↔ ∃ x, x ∈ done ∧ key_of x = k ∧ is_Some (call_dest ssa x.2.2);
}.

Lemma key_operation j x : NoDup (map sb_id (blocks ssa)) → all_ops ssa !! j = Some x →
  ∃ o, key_operations L !! key_of x ≫= (operations (hir L) !!.) = Some o ∧ op_provenance o = op_source x.2.1 x.2.2.
Proof.
  intros Nd Hj. assert (key_operations L !! key_of x = Some j) as -> by (apply lower_keys; [done|by rewrite Hj]).
  destruct (Forall2_lookup_l _ _ _ _ _ lower_ops Hj) as (o & Ho & [_ _ _ So]). exists o. by rewrite So.
Qed.

Lemma lift_op_sites done x rest acc : NoDup (map sb_id (blocks ssa)) → all_ops ssa = done ++ x :: rest →
  sites done acc → sites (done ++ [x]) (lift_op ssa x.1 acc x.2).
Proof.
  intros Nd Ea [K S I Ks]. pose proof (lift_op_kept acc x K) as K'.
  destruct (key_operation (length done) x Nd) as (o & Ho & So); [by rewrite Ea, list_lookup_middle|].
  assert (key_call_sites acc.1 !! key_of x = None) as Fresh.
  { apply eq_None_not_Some. rewrite Ks. intros (y & Hy & Ek & _).
    pose proof (keys_unique Nd) as Nk. rewrite Ea, map_app in Nk.
    apply NoDup_app in Nk as (_ & D & _). apply (D (key_of y)); [by apply list_elem_of_fmap_2|].
    rewrite Ek. by left. }
  rewrite <-(kp_keys _ K), <-(kp_operations _ K) in Ho.
  assert (omap call_at [x] = option_list (call_at x)) as Ox by (cbn; by destruct (call_at x)).
  assert (∀ k, (∃ y, y ∈ done ++ [x] ∧ key_of y = k ∧ is_Some (call_dest ssa y.2.2)) ↔
    is_Some (key_call_sites acc.1 !! k) ∨ key_of x = k ∧ is_Some (call_dest ssa x.2.2)) as Dom.
  { intros k. rewrite Ks. setoid_rewrite elem_of_app. setoid_rewrite list_elem_of_singleton. naive_solver. }
  destruct (lift_op_cases ssa acc x) as [[E Why]|(dest & o' & Ed & _ & Ho' & E)].
  - assert (call_dest ssa x.2.2 = None) as Ed.
    { destruct Why as [?|[[? ?]|?]]; [done|congruence|congruence]. }
    rewrite E in *. assert (omap call_at (done ++ [x]) = omap call_at done) as Eo.
    { rewrite omap_app, Ox. unfold call_at. rewrite Ed. by rewrite app_nil_r. }
    split; rewrite ?Eo; try done. intros k. rewrite Dom, Ed. split; [by left|by intros [?|[_ [? ?]]]].
  - rewrite Ho in Ho'. injection Ho' as <-. rewrite E in K'. rewrite E.
    assert (omap call_at (done ++ [x]) = omap call_at done ++
      [lifted_call (var_values L) (derived Abi (primary (op_source x.2.1 x.2.2)) (contributors (op_source x.2.1 x.2.2))) x dest]) as Eo.
    { rewrite omap_app, Ox. unfold call_at at 2. by rewrite Ed. }
    split; [done|..]; cbn; rewrite ?Eo.
    + by rewrite S, (kp_vars _ K), So.
    + by rewrite I, S, length_app, seq_app.
    + intros k. rewrite Dom, Ed, lookup_insert_is_Some. destruct (decide (key_of x = k)); naive_solver.
Qed.

Lemma lift_sites l : NoDup (map sb_id (blocks ssa)) → ∀ done acc, all_ops ssa = done ++ l → sites done acc →
  sites (done ++ l) (foldl (λ acc x, lift_op ssa x.1 acc x.2) acc l).
Proof.
  intros Nd. induction l as [|x l IH]; intros done acc E S; [by rewrite app_nil_r|]. cbn.
  rewrite cons_middle, app_assoc in *. apply IH; [done|]. eapply lift_op_sites; [done| |done].
  by rewrite E, <-app_assoc.
Qed.

Lemma lifted_sites : NoDup (map sb_id (blocks ssa)) → sites (all_ops ssa) (lift_win64_calls ssa L).
Proof.
  intros Nd. rewrite lift_all_ops. apply (lift_sites (all_ops ssa) Nd [] (L, [])); [done|].
  pose proof lower_exited as X. destruct (ld_rest _ _ (lowered_blocks_ok ssa)) as (_ & S & C & _).
  split; cbn; [apply lower_kept|by rewrite (ex_sites _ _ _ _ X)|done|].
  intros k. rewrite (ex_calls _ _ _ _ X), C, lookup_empty.
  split; [by intros [? ?]|by intros (x & ?%not_elem_of_nil & _)].
Qed.

(** Lifting again adds nothing. *)
Lemma lift_again : NoDup (map sb_id (blocks ssa)) →
  lift_win64_calls ssa (lift_win64_calls ssa L).1 = ((lift_win64_calls ssa L).1, []).
Proof.
  intros Nd. pose proof (lifted_sites Nd) as [_ _ _ Ks]. rewrite lift_all_ops.
  set (s := (lift_win64_calls ssa L).1) in *. clearbody s.
  assert (∀ l, (∀ x, x ∈ l → x ∈ all_ops ssa) → foldl (λ acc x, lift_op ssa x.1 acc x.2) (s, []) l = (s, [])) as G; [|by apply G].
  induction l as [|x l IH]; intros Sub; [done|]. cbn [foldl].
  destruct (lift_op_cases ssa (s, []) x) as [[-> _]|(dest & o & Ed & Ek & _)].
  - apply IH. intros y Hy. apply Sub. by right.
  - exfalso. cbn in Ek. assert (is_Some (key_call_sites s !! key_of x)) as [? ?]; [|congruence].
    apply Ks. exists x. split; [apply Sub; by left|]. by rewrite Ed.
Qed.

(** C28: the calls are exactly those of the function. One call site per call,
    tail call or indirect tail jump, in order, with the source of its operation;
    lifting again adds none. A direct call has an argument in exactly the
    registers of its contract that the block defines with no call since, a tail
    call in RCX at most, and the value is that of the last definition. *)
Theorem calls_exact :
  NoDup (map sb_id (blocks ssa)) →
  let s := (lift_win64_calls ssa L).1 in
  call_sites (hir s) = omap call_at (all_ops ssa) ∧
  lift_win64_calls ssa s = (s, []) ∧
  ∀ x c a, call_at x = Some c →
    a ∈ Win64.arguments c ↔
    ∃ i base v value, WIN64_GPR_ARGUMENT_REGISTERS !! i = Some base ∧
      (is_direct_call x.2.2 = true ∧ (∃ u, u ∈ uses x.2.2 ∧ in_register base u = true) ∨
       is_tail_branch x.2.2 = true ∧ base = 0x08%Z) ∧
      (∃ l op l', take x.2.1 (sb_ops x.1) = l ++ op :: l' ∧ defines base op v ∧ Forall (quiet base) l') ∧
      var_values L !! v = Some value ∧
      Win64.standard (Z.of_nat i) value Win64.Integer = Some a.
Proof.
  intros Nd s. destruct (lifted_sites Nd) as [_ S _ _]. split; [exact S|]. split; [by apply lift_again|].
  intros x c a Ec. unfold call_at in Ec. destruct (call_dest ssa x.2.2) as [dest|]; [|done].
  injection Ec as <-. cbn [lifted_call Win64.new Win64.arguments]. rewrite lift_arguments_omap.
  assert (is_direct_call x.2.2 = true → is_tail_branch x.2.2 = false) as Excl.
  { unfold is_direct_call, is_tail_branch, pcode_is. by repeat case_match. }
  setoid_rewrite <-same_block_spec. split.
  - destruct (_ || _) eqn:K; [|by intros ?%not_elem_of_nil].
    intros ([i base] & Hp & E)%list_elem_of_omap. apply elem_of_lookup_imap in Hp as (j & b & [= -> ->] & Hj).
    pose proof E as (v & value & Ev & Eid & St)%lift_argument_value. exists j, b, v, value.
    split_and!; [done| |done..]. unfold lift_argument in E. destruct (is_direct_call x.2.2).
    + left. split; [done|]. destruct (existsb _ _) eqn:Ex; [|done]. apply existsb_exists in Ex as (u & Hu & R).
      exists u. by rewrite list_elem_of_In.
    + right. split; [done|]. destruct (Z.eqb_spec b 0x08); [done|]. done.
  - intros (i & base & v & value & Hi & Kind & Ev & Eid & St).
    assert (is_direct_call x.2.2 || is_tail_branch x.2.2 = true) as ->.
    { apply orb_true_iff. destruct Kind as [[? _]|[? _]]; [by left|by right]. }
    apply list_elem_of_omap. exists (i, base). split; [apply elem_of_lookup_imap; eauto|].
    unfold lift_argument. destruct Kind as [[-> (u & Hu & R)]|[T ->]].
    + assert (existsb (in_register base) (uses x.2.2) = true) as -> by (apply existsb_exists; exists u; by rewrite <-list_elem_of_In).
      by rewrite Ev; cbn; rewrite Eid.
    + destruct (is_direct_call x.2.2); [by rewrite Excl in T|]. cbn. rewrite Ev. cbn. by rewrite Eid.
Qed.
End claims.

(** ** A caller with an entry loop *)

Module EntryLoop.
Definition rax : Location := Register 0.
Definition op (va : Z) (p : PcodeOp) : SsaOp PcodeOp := mkOp va (Pcode p) None [].
Definition set_rax (va ver : Z) : SsaOp PcodeOp := mkOp va (Pcode OtherOp) (Some (mkVar rax ver)) [].
Definition fn (l : list (SsaBlock PcodeOp)) : SsaFunction PcodeOp := mkSsaFunction 0x1000 64 l 0.

(** Block 0, the entry, is also the target of block 1. *)
Definition entry_loop : SsaFunction PcodeOp :=
  fn [mkSsaBlock 0 0x1000 [op 0x1000 CBranch] [1] [1; 2];
      mkSsaBlock 1 0x1008 [set_rax 0x1008 2; op 0x100c (Branch (mkVarnode Const 0x1000 8))] [0] [0];
      mkSsaBlock 2 0x1010 [op 0x1010 Return] [0] []].

(** Construction gives this function no phi at its entry, and the search takes
    the only predecessor for the only way in: the value returned when the loop
    is not entered is the caller's. *)
Example entry_value_ignored :
  (build_ssa [[mkFlat 0x1000 tt None []]; [mkFlat 0x1008 tt (Some rax) []]; [mkFlat 0x1010 tt None []]]
     [[1; 2]; [0]; []] [[1]; [0]; [0]] 0
   = Some ([[]; []; []],
           [[mkOp 0x1000 (Pcode tt) None []]; [mkOp 0x1008 (Pcode tt) (Some (mkVar rax 2)) []];
            [mkOp 0x1010 (Pcode tt) None []]])) ∧
  reaching_register_at_return 0 entry_loop 2 = Some (mkVar rax 2).
Proof. by vm_compute. Qed.

(** A call with a contract of RCX and RDX, of which the block defines RCX. *)
Definition caller : SsaFunction PcodeOp :=
  fn [mkSsaBlock 0 0x1000
        [mkOp 0x1000 (Pcode OtherOp) (Some (mkVar (Register 8) 1)) [];
         mkOp 0x1004 (Pcode (Call (mkVarnode Ram 0x2000 8))) (Some (mkVar rax 1))
           [mkVar (Register 8) 1; mkVar (Register 16) 0];
         op 0x1008 Return] [] []].
End EntryLoop.
Import EntryLoop.

Lemma exit_value_roundtrip_witness :
  exit_ssa_var (lower_from_ssa caller) 0 = Some (mkVar rax 1).
Proof.
  rewrite (exit_value_roundtrip caller 0); [by vm_compute|].
  intros x p Hx K. exfalso. cbn in Hx. repeat (apply elem_of_cons in Hx as [->|Hx]; [done|]).
  by apply not_elem_of_nil in Hx.
Defined.

Lemma calls_exact_witness :
  map (λ c, (Win64.target c, map Win64.position (Win64.arguments c)))
    (call_sites (hir (lift_win64_calls caller (lower_from_ssa caller)).1))
  = [(Win64.Direct 0x2000, [0%Z])].
Proof.
  destruct (calls_exact caller) as [-> _]; [apply (bool_decide_unpack _); by vm_compute|]. by vm_compute.
Defined.

Lemma lowering_lossless_witness : key_operations (lower_from_ssa caller) !! (0, 1) = Some 1.
Proof.
  destruct (lowering_lossless caller) as (_ & _ & _ & _ & K). apply K; [|by vm_compute].
  apply (bool_decide_unpack _). by vm_compute.
Defined.
