(* ===== verification/V2Whole.v ===== *)
(** The second engine on the semantic IR of the function it decompiles: engine.rs
    up to the candidates, over [Hir], [Semantic] and [CfgAst]. The candidate of
    the region tree and the contracts stay inputs. *)

From Stdlib Require Import Strings.String.
From S2P Require Import Prelude Text Data Activity Cfg Ssa Pcode Simplify Region Semantic Ast CfgAst AlternativesCorrect.
From S2P Require Import CheckAst V2Engine.
From S2P Require Import V2EngineCorrect Hir HirCorrect.

Section whole.
Context {P : Type} `{PcodeView P}.
Variable debug_pcode : P → string.
Implicit Types (ssa : SsaFunction P).

Definition lowering ssa : SsaLowering := (lift_win64_calls ssa (lower_from_ssa ssa)).1.

(** What the checker reads of the call sites. *)
Definition argument_counts (h : HirFunction) : list nat :=
  map (λ c, length (Win64.arguments c)) (call_sites h).
Definition is_valid (h : HirFunction) : bool := match validate h with None => true | Some _ => false end.

Definition decompile_raw ssa (contracts : ContractBundle) (switches : list SwitchInfo) (opts : DecompileOptions)
    (region_cand : TypedAstCandidate) (name : string) (params : list string)
    (fold : string → string) (legacy : string) : DecompileArtifact :=
  let h := hir (lowering ssa) in
  let sem := from_raw_pcode ssa in
  decompile_function_v2_with_raw ssa sem contracts switches (argument_counts h) opts region_cand
    (seed_lossless_ast debug_pcode ssa sem contracts name params) fold legacy (is_valid h).

Definition is_call_site ssa (x : SsaBlock P * (nat * SsaOp P)) : bool :=
  match call_dest ssa x.2.2 with Some _ => true | None => false end.

(** C16: an accepted decompilation keeps the calls. The verdict on the semantic IR
    never rejects: a report is accepted exactly when a candidate passes the
    checks. For a function with block ids as construction gives them, the
    statements of an accepted artifact have at least as many calls as the
    function has call sites, and where as many, no fewer arguments than were
    recovered for them. *)
Theorem accepted_keeps_calls ssa contracts switches opts region_cand name params fold legacy :
  NoDup (map sb_id (blocks ssa)) → 0 < max_candidates opts →
  let a := decompile_raw ssa contracts switches opts region_cand name params fold legacy in
  let sem := from_raw_pcode ssa in
  let counts := argument_counts (hir (lowering ssa)) in
  let seed := seed_lossless_ast debug_pcode ssa sem contracts name params in
  (accepted (check_report a) = true ↔
     ∃ c, c ∈ candidates ssa contracts switches opts region_cand seed ∧
          passes sem contracts counts (with_cap (cap_hit ssa contracts switches opts region_cand seed) c)) ∧
  (engine a = EngineV2 → accepted (check_report a) = true →
     ∃ t, typed_ast a = Some t ∧ text a = fold (print_typed_ast t) ∧
       let calls := call_arg_counts (body t) in
       let sites := length (List.filter (is_call_site ssa) (all_ops ssa)) in
       sites ≤ length calls ∧ (length calls = sites → sum_list counts ≤ sum_list calls)).
Proof.
  intros Nd M. cbn zeta. unfold decompile_raw.
  assert (is_valid (hir (lowering ssa)) = true) as ->.
  { unfold is_valid, lowering. by rewrite (kept_valid ssa _ (lifted_kept ssa)). }
  set (counts := argument_counts _). set (seed := seed_lossless_ast _ _ _ _ _ _).
  destruct (artifact_report ssa (from_raw_pcode ssa) contracts switches counts opts region_cand seed fold legacy true M)
    as (Acc & V2).
  split; [rewrite Acc; naive_solver|]. intros E A. destruct (V2 E) as (c & Hc & Et & Ex & Pc).
  exists (ast c). split; [done|]. split; [done|]. destruct (Pc A) as [_ _ _ [Le Su] _ _ _].
  assert (length counts = length (List.filter (is_call_site ssa) (all_ops ssa))) as <-; [|done].
  unfold counts, argument_counts, lowering. rewrite length_map.
  rewrite (st_sites _ _ _ (lifted_sites ssa Nd)). unfold call_at, is_call_site.
  induction (all_ops ssa) as [|x l IH]; [done|]. cbn. by destruct (call_dest ssa x.2.2); cbn; rewrite IH.
Qed.
End whole.

Local Open Scope string_scope.
Local Open Scope nat_scope.

(** The function with one call of [V2EngineCorrect.SwitchSample]. *)
Definition sample_contracts : ContractBundle := mkContracts [] [] "return" true [].
Definition sample : DecompileArtifact :=
  decompile_raw Diamond.no_debug SwitchSample.ssa sample_contracts [] production SwitchSample.region_cand "f"
    ["u64 arg1"] id "legacy".

Lemma accepted_keeps_calls_witness :
  accepted (check_report sample) = true ∧ ∃ t, typed_ast sample = Some t ∧ 1 ≤ length (call_arg_counts (body t)).
Proof.
  assert (accepted (check_report sample) = true ∧ engine sample = EngineV2) as [A E] by by vm_compute.
  split; [exact A|].
  destruct (accepted_keeps_calls Diamond.no_debug SwitchSample.ssa sample_contracts [] production
    SwitchSample.region_cand "f" ["u64 arg1"] id "legacy") as [_ K].
  - apply (bool_decide_unpack _). by vm_compute.
  - vm_compute. lia.
  - destruct (K E A) as (t & Et & _ & Le & _). exists t. split; [exact Et|].
    etrans; [|exact Le]. by vm_compute.
Defined.
