(* ===== verification/Bel.v ===== *)
(** The data of the evidence index, [src/analysis/bel/mod.rs]: entities, text
    and hashes, the index and its configuration, and the overlay that carries
    the annotations made since the index was built.

    Entity identifiers are positions in a vector, [nat]; a roaring bitmap is the
    set of identifiers it holds, iterated in ascending order; strings are their
    UTF-8 bytes. An index out of range is [None] in [from_project]. The query
    side reads text by identifier with [text_at], which BelFacts shows to stay in
    range. *)

From Stdlib Require Import Strings.Ascii Strings.String.
From stdpp Require Import pretty.
From S2P Require Import Prelude Text Data Ops Activity Cfg.

Local Open Scope string_scope.
Local Open Scope list_scope.
Local Open Scope nat_scope.

Notation EntityId := nat (only parsing).

(** ** Text *)

Definition to_ascii_lowercase (c : ascii) : ascii :=
  let n := nat_of_ascii c in
  if decide (65 ≤ n ≤ 90) then ascii_of_nat (n + 32) else c.
Fixpoint normalize_ascii (s : string) : string :=
  match s with
  | "" => ""
  | String c s => String (to_ascii_lowercase c) (normalize_ascii s)
  end.

(** [Ord] of [str]: the bytes, lexicographically. *)
Fixpoint str_lt (a b : string) : bool :=
  match a, b with
  | _, "" => false
  | "", String _ _ => true
  | String x a, String y b =>
      bool_decide (nat_of_ascii x < nat_of_ascii y) || (Ascii.eqb x y && str_lt a b)
  end.
Definition str_le (a b : string) : Prop := str_lt b a = false.
#[export] Instance str_le_dec a b : Decision (str_le a b).
Proof. unfold str_le. apply _. Defined.

Fixpoint str_take (n : nat) (s : string) : string :=
  match n, s with
  | S n, String c s => String c (str_take n s)
  | _, _ => ""
  end.
Fixpoint str_drop (n : nat) (s : string) : string :=
  match n, s with
  | S n, String _ s => str_drop n s
  | _, _ => s
  end.

(** [slice::windows] *)
Fixpoint windows (k : nat) (s : string) : list string :=
  if decide (String.length s < k) then []
  else str_take k s :: match s with "" => [] | String _ s => windows k s end.

(** [split] at everything but ASCII letters, digits and underscores. Between the
    bytes of one character outside ASCII the program does not split; the tokens
    that are not empty are the same. *)
Fixpoint split_tokens (cur s : string) : list string :=
  match s with
  | "" => [cur]
  | String c s =>
      if is_ident_char c then split_tokens (cur +:+ String c "") s
      else cur :: split_tokens "" s
  end.

(** [chars().count()]: the bytes that do not continue a character. *)
Fixpoint chars_count (s : string) : nat :=
  match s with
  | "" => 0
  | String c s =>
      let n := nat_of_ascii c in
      (if decide (128 ≤ n ≤ 191) then 0 else 1) + chars_count s
  end.

(** [format!("{va:016x}")] *)
Fixpoint zero_digits (n : nat) : string := match n with 0 => "" | S n => "0" +:+ zero_digits n end.
Definition hex_width (width : nat) (v : Z) : string :=
  zero_digits (width - String.length (hex v)) +:+ hex v.

(** ** Hashes and syncmers *)

Definition string_bytes (s : string) : list Z :=
  map (λ c, Z.of_N (N_of_ascii c)) (list_ascii_of_string s).

(** FNV-1a, on 64 bits *)
Definition FNV_OFFSET : Z := 0xcbf29ce484222325.
Definition FNV_PRIME : Z := 0x100000001b3.
Definition stable_u64_hash (bs : list Z) : Z :=
  foldl (λ hash byte, (Z.lxor hash byte * FNV_PRIME) mod 2 ^ 64)%Z FNV_OFFSET bs.

Definition is_closed_syncmer (window : string) (s : nat) : bool :=
  let first := str_take s window in
  let minimum := foldl (λ m c, if str_lt c m then c else m) first (tail (windows s window)) in
  String.eqb first minimum || String.eqb (str_drop (String.length window - s) window) minimum.

(** [Vec::dedup] *)
Fixpoint dedup {A} `{EqDecision A} (l : list A) : list A :=
  match l with
  | [] => []
  | x :: l' =>
      match l' with
      | y :: _ => if decide (x = y) then dedup l' else x :: dedup l'
      | [] => [x]
      end
  end.

Definition window_hash (window : string) : Z := stable_u64_hash (string_bytes window).
Definition closed_syncmer_hashes (text : string) (k s : nat) : list Z :=
  if decide (k = 0 ∨ s = 0 ∨ k ≤ s ∨ String.length text < k) then []
  else dedup (sort_by_key id
         (map window_hash (List.filter (λ w, is_closed_syncmer w s) (windows k text)))).

(** ** Entities *)

Module EntityKind.
Inductive EntityKind :=
  | Symbol | String_ | Instruction | Function | Import | Export | Comment | MemoryCard | Type_
  | Motif | OntologyClass.
#[global] Instance EntityKind_eq_dec : EqDecision EntityKind.
Proof. solve_decision. Defined.
Definition index (k : EntityKind) : nat :=
  match k with
  | Symbol => 0 | String_ => 1 | Instruction => 2 | Function => 3 | Import => 4 | Export => 5
  | Comment => 6 | MemoryCard => 7 | Type_ => 8 | Motif => 9 | OntologyClass => 10
  end.
Definition of_index (n : nat) : EntityKind :=
  match n with
  | 0 => Symbol | 1 => String_ | 2 => Instruction | 3 => Function | 4 => Import | 5 => Export
  | 6 => Comment | 7 => MemoryCard | 8 => Type_ | 9 => Motif | _ => OntologyClass
  end.
#[global] Instance EntityKind_countable : Countable EntityKind.
Proof. refine (inj_countable' index of_index _). by intros []. Defined.
End EntityKind.
Notation EntityKind := EntityKind.EntityKind.

Record Entity := mkEntity {
  en_id : EntityId;
  en_kind : EntityKind;
  en_display : string;
  en_va : option Z;
  en_file_offset : option Z;
  en_func_entry : option Z
}.

(** The bitmaps of a hash map, [entry(k).or_default().insert(x)]. *)
Definition post {K} `{Countable K} (k : K) (x : EntityId) (m : gmap K (gset EntityId))
    : gmap K (gset EntityId) := <[k := default ∅ (m !! k) ∪ {[x]}]> m.

(** The entries of a [BTreeMap], in order. *)
Definition id_entries {A} (m : gmap EntityId A) : list (EntityId * A) :=
  omap (λ k, pair k <$> m !! k) (ascending (dom m)).
Definition name_le {A} (a b : string * A) : Prop := str_le a.1 b.1.
#[export] Instance name_le_dec {A} (a b : string * A) : Decision (name_le a b).
Proof. unfold name_le. apply _. Defined.
Definition name_entries {A} (m : gmap string A) : list (string * A) :=
  merge_sort name_le (map_to_list m).

(** [sort_unstable] of values with their entities *)
Definition value_le (a b : Z * EntityId) : Prop := (a.1 < b.1)%Z ∨ a.1 = b.1 ∧ a.2 ≤ b.2.
#[export] Instance value_le_dec a b : Decision (value_le a b).
Proof. unfold value_le. apply _. Defined.
Definition sort_values (l : list (Z * EntityId)) : list (Z * EntityId) := merge_sort value_le l.

(** ** Signatures *)

Module Signature.
Record SparseFunctionSignature := mkSignature { bits : list Z }.

Definition new (width_bits : Z) : SparseFunctionSignature :=
  mkSignature (replicate (Z.to_nat ((width_bits + 63) / 64)) 0%Z).

(** [evidence.to_le_bytes()] *)
Definition id_bytes (evidence : EntityId) : list Z :=
  let v := Z.of_nat evidence in
  [v mod 256; v / 256 mod 256; v / 65536 mod 256; v / 16777216 mod 256]%Z.
Definition bit_of (evidence : EntityId) (width_bits : Z) : Z :=
  (stable_u64_hash (id_bytes evidence) mod width_bits)%Z.
(** The vector was made for the width, so the word exists. *)
Definition insert (evidence : EntityId) (width_bits : Z) (s : SparseFunctionSignature)
    : SparseFunctionSignature :=
  if (width_bits =? 0)%Z then s
  else
    let bit := bit_of evidence width_bits in
    mkSignature (alter (λ word, Z.lor word (Z.shiftl 1 (bit mod 64))) (Z.to_nat (bit / 64)) (bits s)).

Definition count_ones (word : Z) : nat :=
  length (List.filter (λ i, Z.testbit word (Z.of_nat i)) (seq 0 64)).
Definition overlap (a b : SparseFunctionSignature) : nat :=
  sum_list_with (λ '(l, r), count_ones (Z.land l r)) (zip (bits a) (bits b)).
Definition union_assign (a b : SparseFunctionSignature) : SparseFunctionSignature :=
  mkSignature (imap (λ i l, match bits b !! i with Some r => Z.lor l r | None => l end) (bits a)).
Definition is_empty (s : SparseFunctionSignature) : bool := forallb (λ word, word =? 0)%Z (bits s).
End Signature.
Import Signature (SparseFunctionSignature).

(** ** Configuration *)

Record BelConfig := mkConfig {
  syncmer_k : nat;
  syncmer_s : nat;
  signature_width_bits : Z;
  rarity_threshold : nat;
  hot_table_size : nat;
  cf_quorum : nat;
  safety_cardinality : Z;
  max_lattice_depth : nat;
  relationship_depth : nat;
  enable_fm_index : bool;
  memory_budget_mb : Z;
  deadline_check_interval : Z
}.
#[export] Instance BelConfig_eq_dec : EqDecision BelConfig.
Proof. solve_decision. Defined.

Definition BelConfig_default : BelConfig :=
  mkConfig 5 3 1024 8 256 2 100000 2 1 false 768 4096.

Inductive BelBuildError :=
  | Cancelled
  | Deadline
  | TooManyEntities
  | InvalidConfig (message : string)
  | Fst (message : string).

Definition validate_config (c : BelConfig) : option BelBuildError :=
  if decide (syncmer_k c = 0 ∨ syncmer_s c = 0 ∨ syncmer_k c ≤ syncmer_s c) then
    Some (InvalidConfig "syncmer parameters require 0 < s < k")
  else if decide (signature_width_bits c = 0 ∨ signature_width_bits c mod 64 ≠ 0)%Z then
    Some (InvalidConfig "signature_width_bits must be a non-zero multiple of 64")
  else if decide (deadline_check_interval c = 0)%Z then
    Some (InvalidConfig "deadline_check_interval must be non-zero")
  else if enable_fm_index c then
    Some (InvalidConfig "FM-index is optional and not enabled in this build; use complete syncmer/linear substring search")
  else None.

(** ** Annotation slots *)

Inductive SlotKind :=
  | SymbolSlot | AddressComment | FunctionComment | MemoryCardSlot | GlobalType | FunctionType.
#[export] Instance SlotKind_eq_dec : EqDecision SlotKind.
Proof. solve_decision. Defined.
#[export] Instance SlotKind_countable : Countable SlotKind.
Proof.
  refine (inj_countable'
    (λ k, match k with SymbolSlot => 0 | AddressComment => 1 | FunctionComment => 2
          | MemoryCardSlot => 3 | GlobalType => 4 | FunctionType => 5 end)
    (λ n, match n with 0 => SymbolSlot | 1 => AddressComment | 2 => FunctionComment
          | 3 => MemoryCardSlot | 4 => GlobalType | _ => FunctionType end) _). by intros [].
Defined.

Record SlotKey := mkSlotKey { sk_kind : SlotKind; sk_va : Z }.
#[export] Instance SlotKey_eq_dec : EqDecision SlotKey.
Proof. solve_decision. Defined.
#[export] Instance SlotKey_countable : Countable SlotKey.
Proof.
  refine (inj_countable' (λ k, (sk_kind k, sk_va k)) (λ '(k, v), mkSlotKey k v) _). by intros [].
Defined.

Record AnnotationSlot := mkSlot {
  sl_sort_key : string;
  sl_slot : SlotKey;
  sl_kind : EntityKind;
  sl_display : string;
  sl_va : option Z;
  sl_function_va : option Z
}.

(** [DataTypeManager::render] of project/types.rs *)
Fixpoint render (ty : DataType) : string :=
  match ty with
  | Void => "void"
  | Bool => "bool"
  | Int b => "int" +:+ pretty b
  | Uint b => "uint" +:+ pretty b
  | Float => "float"
  | Double => "double"
  | Ptr inner => render inner +:+ "*"
  | Array inner count => render inner +:+ "[" +:+ pretty count +:+ "]"
  | FuncPtr params return_type =>
      render return_type +:+ "(*)(" +:+ join "," (map render params) +:+ ")"
  | Named n => n
  | Unknown b => "unknown" +:+ pretty b
  end.

(** [owner_function_entry] *)
Definition in_block (va : Z) (b : Functions.BasicBlock) : bool :=
  ((Functions.bb_entry_va b <=? va) && (va <=? Functions.bb_exit_va b))%Z.
Definition owner_function_entry (p : Project) (va : Z) : option Z :=
  Functions.fn_entry_va <$>
    find_first (λ f, existsb (in_block va) (Functions.fn_blocks f)) (btree_values (functions p)).

Definition symbol_entity_kind (k : SymbolKind) : EntityKind :=
  match k with
  | Import_ => EntityKind.Import
  | Export_ => EntityKind.Export
  | Function_ | Data_ | User => EntityKind.Symbol
  end.

Definition symbol_slot (p : Project) (e : Z * string * SymbolKind) : AnnotationSlot :=
  let '(va, name, kind) := e in
  mkSlot ("00:" +:+ hex_width 16 va) (mkSlotKey SymbolSlot va) (symbol_entity_kind kind) name (Some va)
    (Functions.fn_entry_va <$> function_at p va).

Definition is_empty_str (s : string) : bool := bool_decide (s = "").
Definition card_display (card : FunctionMemoryCard) : string :=
  join " | " (List.filter (λ part, negb (is_empty_str part))
    [default "" (mc_purpose card); join " " (mc_tags card); join " " (mc_key_apis card);
     join " " (mc_key_strings card); default "" (mc_purity card)]).
Definition signature_display (signature : FunctionSignature) : string :=
  sig_name signature +:+ "(" +:+
    join ", " (map (λ '(name, ty), name +:+ ": " +:+ render ty) (sig_params signature)) +:+
    ") -> " +:+ render (sig_ret signature).

(** A slot about an address, and one about the function there. *)
Definition address_slot (p : Project) (prefix : string) (sk : SlotKind) (k : EntityKind) (e : Z * string)
    : AnnotationSlot :=
  mkSlot (prefix +:+ hex_width 16 e.1) (mkSlotKey sk e.1) k e.2 (Some e.1) (owner_function_entry p e.1).
Definition function_slot (prefix : string) (sk : SlotKind) (k : EntityKind) (e : Z * string)
    : AnnotationSlot :=
  mkSlot (prefix +:+ hex_width 16 e.1) (mkSlotKey sk e.1) k e.2 (Some e.1) (Some e.1).

Definition current_annotation_slots (p : Project) : list AnnotationSlot :=
  (map (symbol_slot p) (Symbols.entries (symbols p)) ++
  map (address_slot p "10:" AddressComment EntityKind.Comment) (btree_entries (by_addr (comments p))) ++
  map (function_slot "11:" FunctionComment EntityKind.Comment) (btree_entries (by_function (comments p))) ++
  map (function_slot "20:" MemoryCardSlot EntityKind.MemoryCard)
    (btree_entries (card_display <$> function_memory p)) ++
  map (address_slot p "30:" GlobalType EntityKind.Type_) (btree_entries (render <$> typed_globals p)) ++
  map (function_slot "31:" FunctionType EntityKind.Type_)
    (btree_entries (signature_display <$> function_signatures p)))%list.

Definition slot_le (a b : AnnotationSlot) : Prop := str_le (sl_sort_key a) (sl_sort_key b).
#[export] Instance slot_le_dec a b : Decision (slot_le a b).
Proof. unfold slot_le. apply _. Defined.
(** [slots.sort_by(|left, right| left.0.cmp(&right.0))] *)
Definition sorted_slots (p : Project) : list AnnotationSlot :=
  merge_sort slot_le (current_annotation_slots p).

(** ** The finite-state transducer library

    [MapBuilder::memory], [insert], [into_inner], [Map::new], [as_bytes] and
    [get] of the [fst] crate; [FstLaws] is what its documentation says of them:
    keys go in in lexicographic order, and the map has what went in. *)
Class FstLib := {
  fst_builder : Type;
  fst_bytes : Type;
  fst_map : Type;
  fst_memory : fst_builder;
  fst_insert : string → Z → fst_builder → string + fst_builder;
  fst_into_inner : fst_builder → string + fst_bytes;
  fst_new : fst_bytes → string + fst_map;
  fst_as_bytes : fst_map → fst_bytes;
  fst_get : fst_map → string → option Z;
  fst_len : fst_map → nat
}.

Class FstLaws `{!FstLib} := {
  fst_contents : fst_builder → list (string * Z);
  fst_memory_contents : fst_contents fst_memory = [];
  fst_insert_ok b k v :
    Forall (λ e, str_lt e.1 k = true) (fst_contents b) →
    ∃ b', fst_insert k v b = inr b' ∧ fst_contents b' = (fst_contents b ++ [(k, v)])%list;
  fst_finish b : ∃ bs m, fst_into_inner b = inr bs ∧ fst_new bs = inr m ∧
    (∀ k, fst_get m k = snd <$> find_first (λ e, String.eqb e.1 k) (fst_contents b)) ∧
    fst_len m = length (fst_contents b);
  fst_reload m : fst_new (fst_as_bytes m) = inr m
}.

(** ** The index *)

Record SyncmerPostings := mkSyncmers {
  syn_map : gmap Z (gset EntityId);
  syn_k : nat;
  syn_s : nat;
  syn_complete : bool
}.
Record SignatureStore := mkSignatures {
  signatures : list SparseFunctionSignature;
  rare_vocab : list EntityId;
  rare_lookup : gset EntityId;
  width_bits : Z
}.
Record Propagation := mkPropagation {
  surface_to_funcs : gmap EntityId (gset EntityId);
  hot_table : gmap EntityId (gset EntityId);
  function_neighbors : gmap EntityId (gset EntityId)
}.
Record EvidenceOntology := mkOntology {
  classes : gmap string EntityId;
  edges : gmap EntityId (list EntityId);
  func_labels : gmap EntityId (gset EntityId)
}.
Record MotifIndex := mkMotifs {
  motif_tokens : gmap string (gset EntityId);
  motif_entities : gmap string EntityId
}.

Record BelMemoryBreakdown := mkMemory {
  entities_bytes : Z;
  normalized_bytes : Z;
  surface_posting_bytes : Z;
  token_posting_bytes : Z;
  syncmer_posting_bytes : Z;
  numeric_bytes : Z;
  signature_bytes : Z;
  propagation_bytes : Z;
  estimated_total_bytes : Z
}.
(** The elapsed time of the build is left out. *)
Record BelStats := mkStats {
  st_entities : nat;
  st_functions : nat;
  st_names : nat;
  st_tokens : nat;
  st_syncmers : nat;
  st_syncmer_occurrences : nat;
  st_syncmer_complete : bool;
  st_numerics : nat;
  st_motifs : nat;
  st_ontology_classes : nat;
  st_rare_evidence : nat;
  st_fm_index_enabled : bool;
  st_memory : BelMemoryBreakdown
}.

Section index.
Context `{!FstLib}.

Record NameFst := mkNameFst {
  nf_map : fst_map;
  nf_postings : list (gset EntityId);
  sorted_ids : list EntityId
}.

(** The cache of the last overlay is in [overlay_of]. *)
Record BelIndex := mkIndex {
  entities : list Entity;
  normalized : list string;
  name_fst : NameFst;
  kind_postings : gmap EntityKind (gset EntityId);
  token_postings : gmap string (gset EntityId);
  syncmer_postings : SyncmerPostings;
  numeric : list (Z * EntityId);
  signature_store : SignatureStore;
  propagation : Propagation;
  ontology : EvidenceOntology;
  motifs : MotifIndex;
  function_by_va : gmap Z EntityId;
  slots : gmap SlotKey EntityId;
  config : BelConfig;
  generation : Z;
  base_op_seq : Z;
  stats : BelStats
}.
End index.

(** ** Overlays *)

Record Overlay := mkOverlay {
  ov_entities : list Entity;
  ov_normalized : list string;
  ov_names : gmap string (gset EntityId);
  tombstones : gset EntityId;
  surface_tombstones : gset EntityId;
  display_overrides : gmap EntityId string;
  normalized_overrides : gmap EntityId string;
  signature_deltas : gmap EntityId SparseFunctionSignature;
  ov_surface_to_funcs : gmap EntityId (gset EntityId);
  ov_numeric : list (Z * EntityId);
  ov_generation : Z;
  base_entity_count : nat
}.

Definition bury (id : EntityId) (o : Overlay) : Overlay :=
  mkOverlay (ov_entities o) (ov_normalized o) (ov_names o) (tombstones o ∪ {[id]})
    (surface_tombstones o) (display_overrides o) (normalized_overrides o) (signature_deltas o)
    (ov_surface_to_funcs o) (ov_numeric o) (ov_generation o) (base_entity_count o).
(** The four insertions of a renamed function. *)
Definition override (id : EntityId) (display normalized : string) (o : Overlay) : Overlay :=
  mkOverlay (ov_entities o) (ov_normalized o) (post normalized id (ov_names o)) (tombstones o)
    (surface_tombstones o ∪ {[id]}) (<[id := display]> (display_overrides o))
    (<[id := normalized]> (normalized_overrides o)) (signature_deltas o)
    (ov_surface_to_funcs o) (ov_numeric o) (ov_generation o) (base_entity_count o).
Definition with_numeric (f : list (Z * EntityId) → list (Z * EntityId)) (o : Overlay) : Overlay :=
  mkOverlay (ov_entities o) (ov_normalized o) (ov_names o) (tombstones o)
    (surface_tombstones o) (display_overrides o) (normalized_overrides o) (signature_deltas o)
    (ov_surface_to_funcs o) (f (ov_numeric o)) (ov_generation o) (base_entity_count o).
Definition next_generation (o : Overlay) : Overlay :=
  mkOverlay (ov_entities o) (ov_normalized o) (ov_names o) (tombstones o)
    (surface_tombstones o) (display_overrides o) (normalized_overrides o) (signature_deltas o)
    (ov_surface_to_funcs o) (ov_numeric o) (ov_generation o +sat 1) (base_entity_count o).

(** [AnnotationChange] *)
Inductive AnnotationChange :=
  | Upsert (kind : EntityKind) (display : string) (va function_va : option Z)
      (replaces : option EntityId)
  | Tombstone (entity_id : EntityId).

Section overlay.
Context `{!FstLib}.
Variable index : BelIndex.

(** [Overlay::empty] *)
Definition empty (generation : Z) : Overlay :=
  mkOverlay [] [] ∅ ∅ ∅ ∅ ∅ ∅ ∅ [] generation (length (entities index)).

(** The relationship and the signature of an entity of the overlay, when its
    function is one of the index. *)
Definition relate (id : EntityId) (function_va : option Z)
    (m : gmap EntityId (gset EntityId) * gmap EntityId SparseFunctionSignature)
    : gmap EntityId (gset EntityId) * gmap EntityId SparseFunctionSignature :=
  match function_va ≫= (function_by_va index !!.) with
  | None => m
  | Some function_id =>
      let width := signature_width_bits (config index) in
      (post id function_id m.1,
       <[function_id := Signature.insert id width (default (Signature.new width) (m.2 !! function_id))]> m.2)
  end.

(** [Overlay::push_entity] *)
Definition push_entity (kind : EntityKind) (display normalized : string) (va function_va : option Z)
    (o : Overlay) : Overlay :=
  let id := base_entity_count o + length (ov_entities o) in
  let '(s2f, deltas) := relate id function_va (ov_surface_to_funcs o, signature_deltas o) in
  mkOverlay (ov_entities o ++ [mkEntity id kind display va None function_va])
    (ov_normalized o ++ [normalized]) (post normalized id (ov_names o)) (tombstones o)
    (surface_tombstones o) (display_overrides o) (normalized_overrides o) deltas s2f
    (match va with Some v => ov_numeric o ++ [(v, id)] | None => ov_numeric o end)
    (ov_generation o) (base_entity_count o).

(** The body of the loop of [Overlay::from_project]; [None] is an identifier
    that is not one of the index. *)
Definition overlay_slot (o : Overlay) (s : AnnotationSlot) : option Overlay :=
  let text := normalize_ascii (sl_display s) in
  let base_id := slots index !! sl_slot s in
  same ← match base_id with
         | None => Some false
         | Some id => e ← entities index !! id; Some (String.eqb (en_display e) (sl_display s))
         end;
  if (same : bool) then Some o
  else
    o ← match sk_kind (sl_slot s), function_by_va index !! sk_va (sl_slot s) with
        | SymbolSlot, Some function_id =>
            e ← entities index !! function_id;
            Some (if String.eqb (en_display e) (sl_display s) then o
                  else override function_id (sl_display s) text o)
        | _, _ => Some o
        end;
    let o := match base_id with Some id => bury id o | None => o end in
    Some (push_entity (sl_kind s) (sl_display s) text (sl_va s) (sl_function_va s) o).

(** [Overlay::from_project] *)
Definition from_project (p : Project) : option Overlay :=
  with_numeric sort_values <$> fold_opt overlay_slot (empty (op_seq p)) (sorted_slots p).

(** [BelIndex::overlay], with the cache it reads and writes. *)
Definition overlay_of (cache : option (Z * Overlay)) (p : Project) : option (Overlay * option (Z * Overlay)) :=
  match cache with
  | Some (generation, o) =>
      if (generation =? op_seq p)%Z then Some (o, cache)
      else o ← from_project p; Some (o, Some (op_seq p, o))
  | None => o ← from_project p; Some (o, Some (op_seq p, o))
  end.

(** [Overlay::apply_change] *)
Definition apply_change (change : AnnotationChange) (o : Overlay) : Overlay :=
  let o :=
    match change with
    | Upsert kind display va function_va replaces =>
        let o := match replaces with Some id => bury id o | None => o end in
        push_entity kind display (normalize_ascii display) va function_va o
    | Tombstone id => bury id o
    end in
  with_numeric sort_values (next_generation o).

(** What [Overlay::compact] collects. *)
Record Compacted := mkCompacted {
  cp_names : gmap string (gset EntityId);
  cp_numeric : list (Z * EntityId);
  cp_relations : gmap EntityId (gset EntityId) * gmap EntityId SparseFunctionSignature
}.
Definition compact_entity (o : Overlay) (c : Compacted) (e : Entity) (text : string) : Compacted :=
  if decide (en_id e ∈ tombstones o) then c
  else mkCompacted (post text (en_id e) (cp_names c))
         (match en_va e with Some v => cp_numeric c ++ [(v, en_id e)] | None => cp_numeric c end)
         (relate (en_id e) (en_func_entry e) (cp_relations c)).
(** The loop: [cancelled] is what the flag says each time it is read. *)
Fixpoint compact_loop (o : Overlay) (cancelled : nat → bool) (position : nat)
    (l : list (Entity * string)) (c : Compacted) : option Compacted :=
  match l with
  | [] => Some c
  | (e, text) :: l =>
      if bool_decide (Z.of_nat position mod deadline_check_interval (config index) = 0)%Z
         && cancelled position then None
      else compact_loop o cancelled (S position) l (compact_entity o c e text)
  end.
(** [Overlay::compact]; [None] is the error, with the overlay unchanged. *)
Definition compact (cancelled : nat → bool) (o : Overlay) : option Overlay :=
  c ← compact_loop o cancelled 0 (zip (ov_entities o) (ov_normalized o)) (mkCompacted ∅ [] (∅, ∅));
  let names := foldl (λ m '(id, text), post text id m) (cp_names c) (id_entries (normalized_overrides o)) in
  Some (mkOverlay (ov_entities o) (ov_normalized o) names (tombstones o)
          (surface_tombstones o) (display_overrides o) (normalized_overrides o)
          (cp_relations c).2 (cp_relations c).1 (sort_values (cp_numeric c))
          (ov_generation o +sat 1) (base_entity_count o)).

(** ** Reading through an overlay *)

(** [Overlay::entity], [Overlay::normalized], [Overlay::display] *)
Definition own_entity (o : Overlay) (id : EntityId) : option Entity :=
  if decide (id < base_entity_count o) then None else ov_entities o !! (id - base_entity_count o).
Definition own_normalized (o : Overlay) (id : EntityId) : option string :=
  match normalized_overrides o !! id with
  | Some text => Some text
  | None =>
      if decide (id < base_entity_count o) then None else ov_normalized o !! (id - base_entity_count o)
  end.
Definition own_display (o : Overlay) (id : EntityId) : option string := display_overrides o !! id.

(** [BelIndex::entity], [BelIndex::normalized], [BelIndex::display] *)
Definition entity (o : Overlay) (id : EntityId) : option Entity :=
  if decide (id ∈ tombstones o) then None
  else match entities index !! id with
       | Some e => Some e
       | None => own_entity o id
       end.
Definition normalized_of (o : Overlay) (id : EntityId) : option string :=
  match normalized_overrides o !! id with
  | Some text => Some text
  | None =>
      if decide (id < base_entity_count o) then
        (if decide (id ∈ tombstones o) then None else normalized index !! id)
      else own_normalized o id
  end.
Definition display_of (o : Overlay) (id : EntityId) : option string :=
  match own_display o id with
  | Some text => Some text
  | None => en_display <$> entity o id
  end.

(** [index.normalized[id as usize]] *)
Definition text_at (id : EntityId) : string := default "" (normalized index !! id).
End overlay.
