(* ===== verification/BelBuild.v ===== *)
(** The construction of the evidence index, [IndexBuilder] of
    [src/analysis/bel/mod.rs].

    A step runs in [M]: it may stop with an error, and it counts how often the
    cancellation flag and the deadline were read; [check] is what each reading
    says. Progress reports change nothing and are left out. *)

From Stdlib Require Import Strings.Ascii Strings.String.
From stdpp Require Import pretty.
From S2P Require Import Prelude Text Data Ops Activity Loader Cfg CodeIndex Callees Bel.
Import AddressSpace.
Import Signature (SparseFunctionSignature).

Local Open Scope string_scope.
Local Open Scope list_scope.
Local Open Scope nat_scope.

(** ** Steps *)

Definition M (A : Type) : Type := nat → BelBuildError + (A * nat).
#[export] Instance M_ret : MRet M := λ A x n, inr (x, n).
#[export] Instance M_bind : MBind M := λ A B k m n,
  match m n with inl e => inl e | inr (x, n) => k x n end.
Definition raise {A} (e : BelBuildError) : M A := λ _, inl e.

(** A loop whose body may stop. *)
Fixpoint foldM {A B} (f : B → A → M B) (l : list A) (b : B) : M B :=
  match l with
  | [] => mret b
  | x :: l => b ← f b x; foldM f l b
  end.

(** What an index is built from. The strings are [pe.triage.strings] with their
    file offsets. *)
Record Analysed := mkAnalysed {
  an_project : Project;
  an_code_index : CodeIndex;
  an_xrefs : XrefIndex;
  an_space : AddressSpace;
  an_strings : list (Z * string)
}.

(** The text the instruction formatter gives, with the symbols it resolves. *)
Class Formatter := { format : gmap Z Symbol → Instruction → string }.

Record IndexBuilder := mkBuilder {
  b_entities : list Entity;
  b_normalized : list string;
  b_function_by_va : gmap Z EntityId;
  b_function_ranges : list (Z * Z * EntityId);
  b_slots : gmap SlotKey EntityId;
  b_tokens : gmap string (gset EntityId);
  b_numeric : list (Z * EntityId);
  b_propagation : Propagation;
  b_motifs : MotifIndex;
  b_ontology : EvidenceOntology
}.
(** [IndexBuilder::new]; the syncmers are in [build_syncmers]. *)
Definition new_builder : IndexBuilder :=
  mkBuilder [] [] ∅ [] ∅ ∅ [] (mkPropagation ∅ ∅ ∅) (mkMotifs ∅ ∅) (mkOntology ∅ ∅ ∅).

Section setters.
Implicit Types b : IndexBuilder.
Definition with_functions (f : gmap Z EntityId) (r : list (Z * Z * EntityId)) b :=
  mkBuilder (b_entities b) (b_normalized b) f r (b_slots b) (b_tokens b)
    (b_numeric b) (b_propagation b) (b_motifs b) (b_ontology b).
Definition with_slot (k : SlotKey) (id : EntityId) b :=
  mkBuilder (b_entities b) (b_normalized b) (b_function_by_va b) (b_function_ranges b)
    (<[k := id]> (b_slots b)) (b_tokens b) (b_numeric b) (b_propagation b) (b_motifs b) (b_ontology b).
Definition with_tokens (t : gmap string (gset EntityId)) (n : list (Z * EntityId)) b :=
  mkBuilder (b_entities b) (b_normalized b) (b_function_by_va b) (b_function_ranges b)
    (b_slots b) t n (b_propagation b) (b_motifs b) (b_ontology b).
Definition with_propagation (p : Propagation) b :=
  mkBuilder (b_entities b) (b_normalized b) (b_function_by_va b) (b_function_ranges b)
    (b_slots b) (b_tokens b) (b_numeric b) p (b_motifs b) (b_ontology b).
Definition with_motif (name : string) (functions : gset EntityId) (id : EntityId) b :=
  mkBuilder (b_entities b) (b_normalized b) (b_function_by_va b) (b_function_ranges b)
    (b_slots b) (b_tokens b) (b_numeric b) (b_propagation b)
    (mkMotifs (<[name := functions]> (motif_tokens (b_motifs b))) (<[name := id]> (motif_entities (b_motifs b))))
    (b_ontology b).
Definition with_ontology (o : EvidenceOntology) b :=
  mkBuilder (b_entities b) (b_normalized b) (b_function_by_va b) (b_function_ranges b)
    (b_slots b) (b_tokens b) (b_numeric b) (b_propagation b) (b_motifs b) o.
End setters.
Definition map_surface (f : gmap EntityId (gset EntityId) → gmap EntityId (gset EntityId)) (p : Propagation) :=
  mkPropagation (f (surface_to_funcs p)) (hot_table p) (function_neighbors p).
Definition set_surface (id : EntityId) (functions : gset EntityId) (b : IndexBuilder) : IndexBuilder :=
  with_propagation (map_surface (insert id functions) (b_propagation b)) b.

Section build.
Context `{!Formatter}.
Variable an : Analysed.
Variable config : BelConfig.
Variable check : nat → option BelBuildError.

Notation p := (an_project an).

(** [BelBuildControl::check_active], [checkpoint] *)
Definition check_active : M unit := λ n,
  match check n with Some e => inl e | None => inr ((), S n) end.
Definition at_interval (position : nat) : bool :=
  (Z.of_nat position mod deadline_check_interval config =? 0)%Z.
Definition checkpoint (completed total : nat) : M unit :=
  if (completed =? 0) || at_interval completed || (completed =? total) then check_active
  else mret ().
(** [if position % interval == 0 { check_active()? }] *)
Definition check_at (position : nat) : M unit :=
  if at_interval position then check_active else mret ().

Definition is_ascii_uppercase (c : ascii) : bool :=
  bool_decide (65 ≤ nat_of_ascii c ≤ 90).
Definition has_uppercase (s : string) : bool := existsb is_ascii_uppercase (list_ascii_of_string s).

(** [IndexBuilder::push_entity] *)
Definition push_entity (kind : EntityKind) (display : string) (va file_offset func_entry : option Z)
    (b : IndexBuilder) : M (EntityId * IndexBuilder) :=
  let id := length (b_entities b) in
  if (u32_max <? Z.of_nat id)%Z then raise TooManyEntities
  else
    let text := if has_uppercase display then normalize_ascii display else display in
    let numeric := match va with Some v => b_numeric b ++ [(v, id)] | None => b_numeric b end in
    let numeric := match file_offset with Some v => numeric ++ [(v, id)] | None => numeric end in
    mret (id,
      mkBuilder (b_entities b ++ [mkEntity id kind display va file_offset func_entry])
        (b_normalized b ++ [text]) (b_function_by_va b) (b_function_ranges b) (b_slots b)
        (b_tokens b) numeric (b_propagation b) (b_motifs b) (b_ontology b)).

(** [Function::name] of analysis/functions.rs *)
Definition function_name (syms : gmap Z Symbol) (f : Functions.Function) : string :=
  let raw := symbol_or_hex syms (Functions.fn_entry_va f) in
  match strip_prefix "sub_" raw with
  | Some rest => "FUN_" +:+ rest
  | None => raw
  end.

Definition range_le (x y : Z * Z * EntityId) : Prop :=
  (x.1.1 < y.1.1)%Z ∨ x.1.1 = y.1.1 ∧ ((x.1.2 < y.1.2)%Z ∨ x.1.2 = y.1.2 ∧ x.2 ≤ y.2).
#[local] Instance range_le_dec x y : Decision (range_le x y).
Proof. unfold range_le. apply _. Defined.

(** [blocks.iter().map(|block| block.exit_va).max().unwrap_or(entry_va)] *)
Definition function_end (f : Functions.Function) : Z :=
  match map Functions.bb_exit_va (Functions.fn_blocks f) with
  | [] => Functions.fn_entry_va f
  | x :: l => foldl Z.max x l
  end.

(** [IndexBuilder::add_functions] *)
Definition add_function (b : IndexBuilder) (e : nat * Functions.Function) : M IndexBuilder :=
  let '(position, f) := e in
  checkpoint position (size (functions p));;
  let entry := Functions.fn_entry_va f in
  '(id, b) ← push_entity EntityKind.Function (function_name (symbols p) f) (Some entry) None (Some entry) b;
  mret (with_functions (<[entry := id]> (b_function_by_va b))
          (b_function_ranges b ++ [(entry, function_end f, id)]) b).
Definition add_functions (b : IndexBuilder) : M IndexBuilder :=
  b ← foldM add_function (imap pair (btree_values (functions p))) b;
  let b := with_functions (b_function_by_va b) (merge_sort range_le (b_function_ranges b)) b in
  checkpoint (size (functions p)) (size (functions p));; mret b.

(** [IndexBuilder::owner_function_va] *)
Definition owner_function_va (b : IndexBuilder) (va : Z) : option Z :=
  match MemoryMap.partition_point (λ r, (r.1.1 <=? va)%Z) (b_function_ranges b) with
  | 0 => None
  | S position =>
      '(_, end_, id) ← b_function_ranges b !! position;
      if (va <=? end_)%Z then b_entities b !! id ≫= en_va else None
  end.

(** [IndexBuilder::add_symbols] *)
Definition symbol_le (x y : Z * string * SymbolKind) : Prop :=
  (x.1.1 < y.1.1)%Z ∨ x.1.1 = y.1.1 ∧ str_le x.1.2 y.1.2.
#[local] Instance symbol_le_dec x y : Decision (symbol_le x y).
Proof. unfold symbol_le. apply _. Defined.
Definition add_symbol (total : nat) (b : IndexBuilder) (e : nat * (Z * string * SymbolKind)) : M IndexBuilder :=
  let '(position, (va, name, kind)) := e in
  checkpoint position total;;
  '(id, b) ← push_entity (symbol_entity_kind kind) name (Some va) None (owner_function_va b va) b;
  mret (with_slot (mkSlotKey SymbolSlot va) id b).
Definition add_symbols (b : IndexBuilder) : M IndexBuilder :=
  let l := merge_sort symbol_le (Symbols.entries (symbols p)) in
  b ← foldM (add_symbol (length l)) (imap pair l) b;
  checkpoint (length l) (length l);; mret b.

(** [IndexBuilder::add_strings] *)
Definition string_le (x y : Z * string) : Prop := (x.1 < y.1)%Z ∨ x.1 = y.1 ∧ str_le x.2 y.2.
#[local] Instance string_le_dec x y : Decision (string_le x y).
Proof. unfold string_le. apply _. Defined.
Definition add_string (total : nat) (b : IndexBuilder) (e : nat * (Z * string)) : M IndexBuilder :=
  let '(position, (offset, value)) := e in
  checkpoint position total;;
  '(_, b) ← push_entity EntityKind.String_ value (offset_to_va (an_space an) offset) (Some offset) None b;
  mret b.
Definition add_strings (b : IndexBuilder) : M IndexBuilder :=
  let l := merge_sort string_le (an_strings an) in
  b ← foldM (add_string (length l)) (imap pair l) b;
  checkpoint (length l) (length l);; mret b.

(** [insert_instruction_tokens] *)
Definition insert_token (instruction_id : EntityId) (function_id : option EntityId)
    (postings : gmap string (gset EntityId)) (raw : string) : gmap string (gset EntityId) :=
  let token := if has_uppercase raw then normalize_ascii raw else raw in
  let postings := post token instruction_id postings in
  match function_id with Some f => post token f postings | None => postings end.
Definition insert_instruction_tokens (postings : gmap string (gset EntityId)) (text : string)
    (instruction_id : EntityId) (function_id : option EntityId) : gmap string (gset EntityId) :=
  foldl (insert_token instruction_id function_id) postings
    (List.filter (λ t, negb (is_empty_str t)) (split_tokens "" text)).

(** [is_immediate] *)
Definition is_immediate (k : OpKind) : bool := negb (bool_decide (k = MemoryOperand ∨ k = OtherOperand)).

(** [while range_cursor + 1 < ranges.len() && ranges[range_cursor + 1].0 <= ip];
    as many rounds as there are ranges suffice. *)
Fixpoint advance_cursor (fuel : nat) (ranges : list (Z * Z * EntityId)) (ip : Z) (cursor : nat) : nat :=
  match fuel with
  | 0 => cursor
  | S fuel =>
      match ranges !! S cursor with
      | Some r => if (r.1.1 <=? ip)%Z then advance_cursor fuel ranges ip (S cursor) else cursor
      | None => cursor
      end
  end.

(** [IndexBuilder::add_instructions] *)
Definition add_instruction (s : IndexBuilder * nat) (e : nat * DecodedInstr) : M (IndexBuilder * nat) :=
  let '(b, cursor) := s in
  let '(position, dec) := e in
  checkpoint position (length (an_code_index an));;
  let ranges := b_function_ranges b in
  let cursor := advance_cursor (length ranges) ranges (ip dec) cursor in
  let function_id :=
    r ← ranges !! cursor;
    if ((r.1.1 <=? ip dec) && (ip dec <=? r.1.2))%Z then Some r.2 else None in
  let function_va := function_id ≫= λ id, b_entities b !! id ≫= en_va in
  let display := format (symbols p) (instr dec) in
  '(id, b) ← push_entity EntityKind.Instruction display (Some (ip dec)) None function_va b;
  let immediates :=
    omap (λ o, if is_immediate o.1 then Some (o.2, id) else None) (operands (instr dec)) in
  mret (with_tokens (insert_instruction_tokens (b_tokens b) display id function_id)
          (b_numeric b ++ immediates) b, cursor).
Definition add_instructions (b : IndexBuilder) : M IndexBuilder :=
  let total := length (an_code_index an) in
  '(b, _) ← foldM add_instruction (imap pair (an_code_index an)) (b, 0);
  checkpoint total total;; mret b.

(** [IndexBuilder::add_annotations] *)
Definition add_annotation (total : nat) (b : IndexBuilder) (e : nat * AnnotationSlot) : M IndexBuilder :=
  let '(position, s) := e in
  checkpoint position total;;
  if decide (sk_kind (sl_slot s) = SymbolSlot) then mret b
  else
    '(id, b) ← push_entity (sl_kind s) (sl_display s) (sl_va s) None (sl_function_va s) b;
    mret (with_slot (sl_slot s) id b).
Definition add_annotations (b : IndexBuilder) : M IndexBuilder :=
  let l := sorted_slots p in
  b ← foldM (add_annotation (length l)) (imap pair l) b;
  checkpoint (length l) (length l);; mret b.

(** The tests of [IndexBuilder::add_motifs]. *)
Definition is_backedge (block : Functions.BasicBlock) : bool :=
  existsb (λ e, negb (Functions.eg_target e =? 0)%Z && (Functions.eg_target e <=? Functions.bb_entry_va block)%Z)
    (Functions.bb_successors block).
Definition is_indirect (dec : DecodedInstr) : bool :=
  bool_decide (flow_control (instr dec) = FlowControl.IndirectCall ∨
               flow_control (instr dec) = FlowControl.IndirectBranch).
Definition function_motifs (f : Functions.Function) : list string :=
  let blocks := Functions.fn_blocks f in
  ((if decide (Functions.fn_outgoing f = []) then ["leaf_function"] else []) ++
  (if decide (5 ≤ length (Functions.fn_outgoing f)) then ["dispatcher"] else []) ++
  (if existsb is_backedge blocks then ["loop_backedge"] else []) ++
  (if existsb (λ b, bool_decide (1 < length (Functions.bb_successors b))) blocks
   then ["conditional_control"] else []) ++
  (if existsb (λ b, existsb is_indirect
                      (window (an_code_index an) (Functions.bb_entry_va b) (Functions.bb_instr_count b))) blocks
   then ["indirect_dispatch"] else []))%list.
Definition detect_motifs (by_va : gmap Z EntityId) (detected : gmap string (gset EntityId))
    (e : nat * Functions.Function) : M (gmap string (gset EntityId)) :=
  let '(position, f) := e in
  checkpoint position (size (functions p));;
  match by_va !! Functions.fn_entry_va f with
  | None => mret detected
  | Some function_id => mret (foldl (λ m name, post name function_id m) detected (function_motifs f))
  end.
Definition push_motif (b : IndexBuilder) (e : string * gset EntityId) : M IndexBuilder :=
  let '(name, functions) := e in
  '(id, b) ← push_entity EntityKind.Motif name None None None b;
  mret (set_surface id functions (with_motif name functions id b)).
(** [IndexBuilder::add_motifs] *)
Definition add_motifs (b : IndexBuilder) : M IndexBuilder :=
  detected ← foldM (detect_motifs (b_function_by_va b)) (imap pair (btree_values (functions p))) ∅;
  b ← foldM push_motif (name_entries detected) b;
  checkpoint (size (functions p)) (size (functions p));; mret b.

(** ** Relationships *)

Definition is_code_kind (k : EntityKind) : bool :=
  bool_decide (k = EntityKind.Instruction ∨ k = EntityKind.Function).
Definition relate_xref (id : EntityId) (b : IndexBuilder) (e : nat * Xref) : M IndexBuilder :=
  let '(position, x) := e in
  check_at position;;
  mret match owner_function_va b (from_va x) ≫= (b_function_by_va b !!.) with
       | Some function_id =>
           with_propagation (map_surface (post id function_id) (b_propagation b)) b
       | None => b
       end.
Definition relate_entity (total : nat) (b : IndexBuilder) (e : nat * Entity) : M IndexBuilder :=
  let '(position, ent) := e in
  checkpoint position total;;
  if is_code_kind (en_kind ent) then mret b
  else
    let b := match en_func_entry ent ≫= (b_function_by_va b !!.) with
             | Some function_id =>
                 with_propagation (map_surface (post (en_id ent) function_id) (b_propagation b)) b
             | None => b
             end in
    match en_va ent with
    | None => mret b
    | Some va => foldM (relate_xref (en_id ent)) (imap pair (xrefs_to (an_xrefs an) va)) b
    end.

Definition relate_call (source : EntityId) (b : IndexBuilder) (e : nat * Z) : M IndexBuilder :=
  let '(position, target_va) := e in
  check_at position;;
  mret match b_function_by_va b !! target_va with
       | Some target =>
           let pr := b_propagation b in
           with_propagation (mkPropagation (surface_to_funcs pr) (hot_table pr)
             (post target source (post source target (function_neighbors pr)))) b
       | None => b
       end.
Definition relate_function (b : IndexBuilder) (e : nat * Functions.Function) : M IndexBuilder :=
  let '(position, f) := e in
  check_at position;;
  match b_function_by_va b !! Functions.fn_entry_va f with
  | None => mret b
  | Some source => foldM (relate_call source) (imap pair (Functions.fn_outgoing f)) b
  end.
(** [IndexBuilder::build_relationships] *)
Definition build_relationships (b : IndexBuilder) : M IndexBuilder :=
  let total := length (b_entities b) in
  b ← foldM (relate_entity total) (imap pair (b_entities b)) b;
  b ← foldM relate_function (imap pair (btree_values (functions p))) b;
  checkpoint total total;; mret b.

(** ** The ontology *)

Definition CLASSES : list (string * list string) :=
  [("network", ["socket"; "connect"; "recv"; "send"; "winhttp"; "internet"]);
   ("crypto", ["bcrypt"; "crypt"; "aes"; "sha"; "md5"; "chacha"; "encrypt"; "decrypt"]);
   ("filesystem", ["createfile"; "readfile"; "writefile"; "deletefile"; "path"]);
   ("process", ["createprocess"; "openprocess"; "thread"; "process"]);
   ("memory", ["virtualalloc"; "virtualfree"; "heapalloc"; "memcpy"; "memmove"]);
   ("registry", ["regopen"; "regquery"; "regset"; "registry"]);
   ("user_interface", ["createwindow"; "messagebox"; "dispatchmessage"; "dialog"])].

Definition add_class (name : string) (id : EntityId) (o : EvidenceOntology) : EvidenceOntology :=
  mkOntology (<[name := id]> (classes o)) (edges o) (func_labels o).
Definition set_edges (id : EntityId) (l : list EntityId) (o : EvidenceOntology) : EvidenceOntology :=
  mkOntology (classes o) (<[id := l]> (edges o)) (func_labels o).
(** [edges.entry(parent).or_default().push(child)] *)
Definition push_child (parent child : EntityId) (o : EvidenceOntology) : EvidenceOntology :=
  set_edges parent (default [] (edges o !! parent) ++ [child]) o.

(** The functions of a class: those of the entities that name one of its words. *)
Definition class_member (needles : list string) (class_id : EntityId) (b : IndexBuilder) (ent : Entity) : bool :=
  negb ((en_id ent =? class_id) || bool_decide (en_kind ent = EntityKind.OntologyClass)) &&
  existsb (λ needle, contains needle (default "" (b_normalized b !! en_id ent))) needles.
Definition add_member (needles : list string) (class_id : EntityId) (b : IndexBuilder) (position total : nat)
    (functions : gset EntityId) (e : nat * Entity) : M (gset EntityId) :=
  let '(entity_position, ent) := e in
  checkpoint (position * length (b_entities b) + entity_position) total;;
  mret (if class_member needles class_id b ent then
          functions ∪ default ∅ (surface_to_funcs (b_propagation b) !! en_id ent)
        else functions).
Definition add_label (class_id : EntityId) (total : nat) (b : IndexBuilder) (e : nat * EntityId) : M IndexBuilder :=
  let '(position, function_id) := e in
  checkpoint position total;;
  let o := b_ontology b in
  mret (with_ontology (mkOntology (classes o) (edges o) (post function_id class_id (func_labels o))) b).
Definition label_functions (class_id : EntityId) (functions : gset EntityId) (b : IndexBuilder) : M IndexBuilder :=
  foldM (add_label class_id (size functions)) (imap pair (ascending functions)) b.

(** What [add_ontology] keeps of each base class. *)
Record BaseClass := mkBase { bc_name : string; bc_id : EntityId; bc_functions : gset EntityId }.

Definition add_base_class (membership_total : nat) (s : IndexBuilder * list BaseClass)
    (e : nat * (string * list string)) : M (IndexBuilder * list BaseClass) :=
  let '(b, base) := s in
  let '(position, (class, needles)) := e in
  checkpoint position (length CLASSES);;
  '(class_id, b) ← push_entity EntityKind.OntologyClass class None None None b;
  let b := with_ontology (add_class class class_id (b_ontology b)) b in
  functions ← foldM (add_member needles class_id b position membership_total) (imap pair (b_entities b)) ∅;
  b ← label_functions class_id functions b;
  mret (set_surface class_id functions b, (base ++ [mkBase class class_id functions])%list).

Fixpoint pairs {A} (l : list A) : list (A * A) :=
  match l with
  | [] => []
  | x :: l => (map (pair x) l ++ pairs l)%list
  end.
Definition add_cooccurrence (pair_total : nat) (b : IndexBuilder) (e : nat * (BaseClass * BaseClass))
    : M IndexBuilder :=
  let '(pair_position, (lc, rc)) := e in
  check_active;;
  let functions := bc_functions lc ∩ bc_functions rc in
  if decide (functions = ∅) then mret b
  else
    let name := bc_name lc +:+ "+" +:+ bc_name rc in
    '(class_id, b) ← push_entity EntityKind.OntologyClass name None None None b;
    let b := with_ontology (push_child (bc_id rc) class_id (push_child (bc_id lc) class_id
               (add_class name class_id (b_ontology b)))) b in
    b ← label_functions class_id functions b;
    mret (set_surface class_id functions b).

(** [IndexBuilder::add_ontology]. The checkpoint of a pair has interval 1, so it
    reads the clock each time. *)
Definition add_ontology (b : IndexBuilder) : M IndexBuilder :=
  '(root, b) ← push_entity EntityKind.OntologyClass "evidence" None None None b;
  let b := with_ontology (add_class "evidence" root (b_ontology b)) b in
  let membership_total := length CLASSES * length (b_entities b) in
  '(b, base) ← foldM (add_base_class membership_total) (imap pair CLASSES) (b, []);
  let b := set_surface root (⋃ (map bc_functions base)) b in
  let b := with_ontology (set_edges root (map bc_id base) (b_ontology b)) b in
  b ← foldM (add_cooccurrence (length (pairs base))) (imap pair (pairs base)) b;
  checkpoint (length CLASSES) (length CLASSES);; mret b.

(** ** Syncmers *)

Definition occurrence_budget : Z := ((memory_budget_mb config *sat (1024 * 1024)) / 4 / 4)%Z.

(** The windows of one text; [None] when the budget is exceeded. *)
Fixpoint window_loop (position occurrences : nat) (unique : gset Z) (l : list string) : M (option (gset Z)) :=
  match l with
  | [] => mret (Some unique)
  | w :: l =>
      check_at position;;
      let unique := if is_closed_syncmer w (syncmer_s config) then {[window_hash w]} ∪ unique else unique in
      if (occurrence_budget <? Z.of_nat (occurrences + size unique))%Z then mret None
      else window_loop (S position) occurrences unique l
  end.

Definition post_all (id : EntityId) (hashes : gset Z) (m : gmap Z (gset EntityId)) : gmap Z (gset EntityId) :=
  foldl (λ m h, post h id m) m (elements hashes).

(** The loop of [build_syncmers]: the postings and how many they are; [None]
    when it broke off. *)
Fixpoint syncmer_loop (total : nat) (l : list (nat * string)) (m : gmap Z (gset EntityId)) (occurrences : nat)
    : M (option (gmap Z (gset EntityId) * nat)) :=
  match l with
  | [] => mret (Some (m, occurrences))
  | (position, text) :: l =>
      checkpoint position total;;
      unique ← window_loop 0 occurrences ∅ (windows (syncmer_k config) text);
      match unique with
      | None => mret None
      | Some unique => syncmer_loop total l (post_all position unique m) (occurrences + size unique)
      end
  end.
(** [IndexBuilder::build_syncmers]: postings, occurrences, completeness. *)
Definition build_syncmers (b : IndexBuilder) : M (SyncmerPostings * nat) :=
  let total := length (b_normalized b) in
  r ← syncmer_loop total (imap pair (b_normalized b)) ∅ 0;
  checkpoint total total;;
  mret match r with
       | Some (m, occurrences) => (mkSyncmers m (syncmer_k config) (syncmer_s config) true, occurrences)
       | None => (mkSyncmers ∅ (syncmer_k config) (syncmer_s config) false, 0)
       end.

(** ** Signatures and the hot table *)

Definition rare_entity (b : IndexBuilder) (e : EntityId * gset EntityId) : option (Z * EntityId) :=
  let '(id, functions) := e in
  let degree := size functions in
  if bool_decide (0 < degree ≤ rarity_threshold config) &&
     negb (match b_entities b !! id with Some ent => is_code_kind (en_kind ent) | None => false end)
  then Some (Z.of_nat degree, id) else None.
Definition collect_rare (b : IndexBuilder) (l : list (Z * EntityId)) (e : nat * (EntityId * gset EntityId))
    : M (list (Z * EntityId)) :=
  check_at e.1;; mret match rare_entity b e.2 with Some x => (l ++ [x])%list | None => l end.
Definition sign_function (evidence : EntityId) (sigs : list SparseFunctionSignature) (e : nat * EntityId)
    : M (list SparseFunctionSignature) :=
  check_at e.1;; mret (alter (Signature.insert evidence (signature_width_bits config)) e.2 sigs).
Definition sign_evidence (b : IndexBuilder) (s : list SparseFunctionSignature * gset EntityId) (e : nat * EntityId)
    : M (list SparseFunctionSignature * gset EntityId) :=
  let '(sigs, lookup) := s in
  let '(position, evidence) := e in
  check_at position;;
  let functions := default ∅ (surface_to_funcs (b_propagation b) !! evidence) in
  sigs ← foldM (sign_function evidence) (imap pair (ascending functions)) sigs;
  mret (sigs, lookup ∪ {[evidence]}).
(** [IndexBuilder::build_signatures]. A hash map is walked in some order; the
    sort after it makes the order of the map immaterial. *)
Definition build_signatures (b : IndexBuilder) : M SignatureStore :=
  let width := signature_width_bits config in
  rare ← foldM (collect_rare b) (imap pair (map_to_list (surface_to_funcs (b_propagation b)))) [];
  let vocab := map snd (sort_values rare) in
  '(sigs, lookup) ← foldM (sign_evidence b) (imap pair vocab)
      (replicate (size (b_function_by_va b)) (Signature.new width), ∅);
  mret (mkSignatures sigs vocab lookup width).

Definition degree_ge (x y : Z * EntityId) : Prop := value_le y x.
#[local] Instance degree_ge_dec x y : Decision (degree_ge x y).
Proof. unfold degree_ge. apply _. Defined.
Definition hot_entry (pr : Propagation) (m : gmap EntityId (gset EntityId)) (e : nat * (Z * EntityId))
    : M (gmap EntityId (gset EntityId)) :=
  check_at e.1;;
  mret match surface_to_funcs pr !! e.2.2 with
       | Some functions => <[e.2.2 := functions]> m
       | None => m
       end.
(** [IndexBuilder::build_hot_table] *)
Definition build_hot_table (b : IndexBuilder) : M IndexBuilder :=
  let pr := b_propagation b in
  let l := map_to_list (surface_to_funcs pr) in
  foldM (λ _ i, check_at i) (seq 0 (length l)) ();;
  let by_degree := merge_sort degree_ge (map (λ '(id, functions), (Z.of_nat (size functions), id)) l) in
  hot ← foldM (hot_entry pr) (imap pair (take (hot_table_size config) by_degree)) (hot_table pr);
  mret (with_propagation (mkPropagation (surface_to_funcs pr) hot (function_neighbors pr)) b).

(** ** The whole build *)

Context `{!FstLib}.

(** The groups of equal names, and one step of [build_name_fst] into them. *)
Definition push_group (text : nat → string) (grouped : list (string * gset EntityId)) (id : EntityId)
    : list (string * gset EntityId) :=
  match vec_pop grouped with
  | Some ((key, postings), rest) =>
      if String.eqb key (text id) then (rest ++ [(key, postings ∪ {[id]})])%list
      else (grouped ++ [(text id, {[id]})])%list
  | None => [(text id, {[id]})]
  end.
Definition text_le (l : list string) (x y : EntityId) : Prop :=
  let tx := default "" (l !! x) in let ty := default "" (l !! y) in
  str_lt tx ty = true ∨ tx = ty ∧ x ≤ y.
#[local] Instance text_le_dec l x y : Decision (text_le l x y).
Proof. unfold text_le. apply _. Defined.
Definition fst_error {A} (r : string + A) : M A :=
  match r with inl message => raise (Fst message) | inr x => mret x end.
(** [build_name_fst] *)
Definition build_name_fst (texts : list string) : M NameFst :=
  let ids := merge_sort (text_le texts) (seq 0 (length texts)) in
  let grouped := foldl (push_group (λ id, default "" (texts !! id))) [] ids in
  builder ← foldM (λ m (e : nat * (string * gset EntityId)), fst_error (fst_insert e.2.1 (Z.of_nat e.1) m))
              (imap pair grouped) fst_memory;
  bs ← fst_error (fst_into_inner builder);
  m ← fst_error (fst_new bs);
  mret (mkNameFst m (map snd grouped) ids).

Definition build_kind_postings (l : list Entity) : gmap EntityKind (gset EntityId) :=
  foldl (λ m e, post (en_kind e) (en_id e) m) ∅ l.

(** [estimate_memory]; an [Entity] is 72 bytes, a value with its entity 16. The
    normalized text is shared with the display when they are equal. *)
Definition ENTITY_SIZE : Z := 72.
Definition VALUE_SIZE : Z := 16.
Definition sum_of {A} (f : A → Z) (l : list A) : Z := foldr Z.add 0%Z (map f l).
Definition bitmap_bytes {K} `{Countable K} (m : gmap K (gset EntityId)) : Z :=
  sum_of (λ e, Z.of_nat (size e.2) * 4)%Z (map_to_list m).
Definition estimate_memory (b : IndexBuilder) (names : NameFst) (kinds : gmap EntityKind (gset EntityId))
    (syncmers : gmap Z (gset EntityId)) (sigs : SignatureStore) : BelMemoryBreakdown :=
  let text_bytes s := Z.of_nat (String.length s) in
  let entities := (Z.of_nat (length (b_entities b)) * ENTITY_SIZE +
                   sum_of (λ e, text_bytes (en_display e)) (b_entities b))%Z in
  let normalized := sum_of (λ x, if String.eqb x.1 (en_display x.2) then 0%Z else text_bytes x.1)
                      (zip (b_normalized b) (b_entities b)) in
  let surface := (sum_of (λ s, Z.of_nat (size s) * 4)%Z (nf_postings names) + bitmap_bytes kinds)%Z in
  let tokens := bitmap_bytes (b_tokens b) in
  let syn := bitmap_bytes syncmers in
  let numeric := (Z.of_nat (length (b_numeric b)) * VALUE_SIZE)%Z in
  let signature := (sum_of (λ s, Z.of_nat (length (Signature.bits s)) * 8)%Z (signatures sigs) +
                    Z.of_nat (length (rare_vocab sigs)) * 4 + Z.of_nat (size (rare_lookup sigs)) * 4)%Z in
  let pr := b_propagation b in
  let prop := (bitmap_bytes (surface_to_funcs pr) + bitmap_bytes (hot_table pr) +
               bitmap_bytes (function_neighbors pr))%Z in
  mkMemory entities normalized surface tokens syn numeric signature prop
    (entities + normalized + surface + tokens + syn + numeric + signature + prop)%Z.

Definition index_generation : Z :=
  stable_u64_hash (string_bytes (image_sha256 p +:+ ":" +:+ pretty (syncmer_k config) +:+ ":" +:+
    pretty (syncmer_s config) +:+ ":" +:+ pretty (signature_width_bits config))).

Definition with_sorted_numeric (b : IndexBuilder) : IndexBuilder :=
  with_tokens (b_tokens b) (dedup (sort_values (b_numeric b))) b.

(** [IndexBuilder::finish]. Its first checkpoint, at 0, reads the clock. *)
Definition finish (b : IndexBuilder) : M BelIndex :=
  check_active;;
  b ← build_relationships b;
  b ← add_ontology b;
  '(syncmers, occurrences) ← build_syncmers b;
  let b := with_sorted_numeric b in
  names ← build_name_fst (b_normalized b);
  let kinds := build_kind_postings (b_entities b) in
  sigs ← build_signatures b;
  b ← build_hot_table b;
  mret (mkIndex (b_entities b) (b_normalized b) names kinds (b_tokens b) syncmers (b_numeric b) sigs
    (b_propagation b) (b_ontology b) (b_motifs b) (b_function_by_va b) (b_slots b) config index_generation
    (op_seq p)
    (mkStats (length (b_entities b)) (size (b_function_by_va b)) (fst_len (nf_map names))
       (size (b_tokens b)) (size (syn_map syncmers)) occurrences (syn_complete syncmers)
       (length (b_numeric b)) (size (motif_tokens (b_motifs b))) (size (classes (b_ontology b)))
       (length (rare_vocab sigs)) (enable_fm_index config)
       (estimate_memory b names kinds (syn_map syncmers) sigs))).

(** [BelIndex::build] *)
Definition build : M BelIndex :=
  match validate_config config with
  | Some e => raise e
  | None =>
      b ← add_functions new_builder;
      b ← add_symbols b;
      b ← add_strings b;
      b ← add_instructions b;
      b ← add_annotations b;
      b ← add_motifs b;
      finish b
  end.
End build.
