(* ===== verification/BelQuery.v ===== *)
(** Queries of the evidence index, [src/analysis/bel/query.rs].

    A query runs in [Q], which threads its [Budget]; [expired n] is whether the
    [n]-th reading of the clock finds the deadline passed. The regular expression
    library is [RegexLib], and [length_specificity], whose logarithm the standard
    library leaves imprecise, is a parameter. *)

From Stdlib Require Import Strings.Ascii Strings.String.
From stdpp Require Import pretty.
From S2P Require Import Prelude Text Data Ops Activity MemoryMap Cfg Bel.
Import Signature (SparseFunctionSignature).

Local Open Scope string_scope.
Local Open Scope list_scope.
Local Open Scope nat_scope.

(** ** Queries *)

Inductive SearchMode :=
  | Auto | Exact | Prefix | Substring | Numeric | Regex | Token | Relationship | MotifMode
  | OntologyMode | MultiEvidence.
#[export] Instance SearchMode_eq_dec : EqDecision SearchMode.
Proof. solve_decision. Defined.

Record Query := mkQuery {
  q_text : string;
  q_mode : SearchMode;
  q_evidence : list string;
  q_quorum : option nat;
  q_relationship_depth : nat;
  q_kinds : list EntityKind
}.

Inductive BelQueryError :=
  | EmptyQuery
  | InvalidRegex (message : string)
  | InvalidNumber (text : string)
  | InvalidCursor
  | TooLarge (what : string).

Inductive ProvenanceLayer :=
  | SurfaceLayer | TokenLayer | NumericLayer | SignatureLayer | OneHop | MotifLayer | OntologyLayer
  | OverlayLayer.
#[export] Instance ProvenanceLayer_eq_dec : EqDecision ProvenanceLayer.
Proof. solve_decision. Defined.
Definition layer_index (l : ProvenanceLayer) : nat :=
  match l with
  | SurfaceLayer => 0 | TokenLayer => 1 | NumericLayer => 2 | SignatureLayer => 3 | OneHop => 4
  | MotifLayer => 5 | OntologyLayer => 6 | OverlayLayer => 7
  end.
#[export] Instance ProvenanceLayer_countable : Countable ProvenanceLayer.
Proof.
  refine (inj_countable' layer_index
    (λ n, match n with 0 => SurfaceLayer | 1 => TokenLayer | 2 => NumericLayer | 3 => SignatureLayer
          | 4 => OneHop | 5 => MotifLayer | 6 => OntologyLayer | _ => OverlayLayer end) _). by intros [].
Defined.

Record Provenance := mkProvenance {
  pv_layer : ProvenanceLayer;
  pv_seed : option string;
  pv_source_entity : option EntityId;
  pv_detail : string
}.
#[export] Instance Provenance_eq_dec : EqDecision Provenance.
Proof. solve_decision. Defined.

Module MatchKind.
Inductive MatchKind :=
  | Relationship | Ontology | Regex | Substring | Token | Prefix | Numeric | Exact.
Definition weight (k : MatchKind) : Z :=
  match k with
  | Exact => 1000 | Numeric => 950 | Prefix => 850 | Token => 800 | Substring => 700
  | Regex => 650 | Ontology => 500 | Relationship => 400
  end%Z.
Definition exactness (k : MatchKind) : Z :=
  match k with
  | Exact | Numeric => 100 | Prefix | Token => 85 | Substring | Regex => 70 | Ontology => 60
  | Relationship => 50
  end%Z.
Definition debug (k : MatchKind) : string :=
  match k with
  | Relationship => "Relationship" | Ontology => "Ontology" | Regex => "Regex"
  | Substring => "Substring" | Token => "Token" | Prefix => "Prefix" | Numeric => "Numeric"
  | Exact => "Exact"
  end.
End MatchKind.
Notation MatchKind := MatchKind.MatchKind.

Record CandidateSet := mkCandidates {
  cs_ids : gset EntityId;
  cs_complete : bool;
  cs_timed_out : bool;
  cs_estimated : option nat;
  cs_strategy : string;
  cs_match_kind : MatchKind
}.

Record CandidateEvidence := mkEvidence {
  ce_match_kind : MatchKind;
  ce_provenance : list Provenance;
  seed_entities : gset EntityId;
  evidence_kinds : gset ProvenanceLayer;
  affinity_micros : Z;
  signature_overlap : nat;
  ontology_boost : nat;
  ce_strategy : string
}.
Definition new_evidence (k : MatchKind) (strategy : string) : CandidateEvidence :=
  mkEvidence k [] ∅ ∅ 0 0 0 strategy.
Definition add_provenance (pv : Provenance) (c : CandidateEvidence) : CandidateEvidence :=
  mkEvidence (ce_match_kind c)
    (if decide (pv ∈ ce_provenance c) then ce_provenance c else ce_provenance c ++ [pv])
    (match pv_source_entity pv with Some seed => seed_entities c ∪ {[seed]} | None => seed_entities c end)
    (evidence_kinds c ∪ {[pv_layer pv]})
    (affinity_micros c) (signature_overlap c) (ontology_boost c) (ce_strategy c).
Definition add_affinity (n : Z) (c : CandidateEvidence) : CandidateEvidence :=
  mkEvidence (ce_match_kind c) (ce_provenance c) (seed_entities c) (evidence_kinds c)
    (affinity_micros c + n)%Z (signature_overlap c) (ontology_boost c) (ce_strategy c).
Definition with_scores (overlap boost : nat) (c : CandidateEvidence) : CandidateEvidence :=
  mkEvidence (ce_match_kind c) (ce_provenance c) (seed_entities c) (evidence_kinds c)
    (affinity_micros c) overlap boost (ce_strategy c).
Definition with_provenance (l : list Provenance) (c : CandidateEvidence) : CandidateEvidence :=
  mkEvidence (ce_match_kind c) l (seed_entities c) (evidence_kinds c)
    (affinity_micros c) (signature_overlap c) (ontology_boost c) (ce_strategy c).

Notation Evidence := (gmap EntityId CandidateEvidence) (only parsing).

(** ** Numbers and cursors *)

(** [parse_number] *)
Definition parse_number (value : string) : option Z :=
  match strip_prefix "0x" value with
  | Some hex => from_str_radix 16 hex
  | None =>
      match strip_prefix "0X" value with
      | Some hex => from_str_radix 16 hex
      | None => from_str_radix 10 value
      end
  end.

(** [split('.')] *)
Fixpoint split_char (sep : ascii) (cur s : string) : list string :=
  match s with
  | "" => [cur]
  | String c s => if Ascii.eqb c sep then cur :: split_char sep "" s else split_char sep (cur +:+ String c "") s
  end.

Module CursorKey.
Record t := mkCursor {
  index_generation : Z;
  overlay_generation : Z;
  query_hash : Z;
  score_micros : Z;
  entity_id : EntityId;
  va : Z
}.

(** [as u64] and [as i64] *)
Definition as_u64 (v : Z) : Z := (v mod 2 ^ 64)%Z.
Definition as_i64 (v : Z) : Z := if (v <? 2 ^ 63)%Z then v else (v - 2 ^ 64)%Z.
(** [u32::from_str_radix] *)
Definition u32_of_hex (s : string) : option EntityId :=
  v ← from_str_radix 16 s; if (u32_max <? v)%Z then None else Some (Z.to_nat v).

Definition encode (c : t) : string :=
  "bel1." +:+ hex_width 16 (index_generation c) +:+ "." +:+ hex_width 16 (overlay_generation c) +:+ "." +:+
  hex_width 16 (query_hash c) +:+ "." +:+ hex_width 16 (as_u64 (score_micros c)) +:+ "." +:+
  hex_width 8 (Z.of_nat (entity_id c)) +:+ "." +:+ hex_width 16 (va c).

Definition decode (value : string) : option t :=
  match split_char "."%char "" value with
  | ["bel1"; ig; og; qh; sc; id; a] =>
      ig ← from_str_radix 16 ig;
      og ← from_str_radix 16 og;
      qh ← from_str_radix 16 qh;
      sc ← from_str_radix 16 sc;
      id ← u32_of_hex id;
      a ← from_str_radix 16 a;
      Some (mkCursor ig og qh (as_i64 sc) id a)
  | _ => None
  end.
End CursorKey.

(** ** Budgets *)

Record Budget := mkBudget { bg_iterations : Z; bg_timed_out : bool; bg_reads : nat }.
Definition new_budget : Budget := mkBudget 0 false 0.

Definition Q (A : Type) : Type := Budget → A * Budget.
#[export] Instance Q_ret : MRet Q := λ A x b, (x, b).
#[export] Instance Q_bind : MBind Q := λ A B k m b, let '(x, b) := m b in k x b.

(** What the body of a loop does next: go on, or leave the loop. *)
Inductive Flow (S : Type) := Next (s : S) | Stop (s : S).
Arguments Next {S} s.
Arguments Stop {S} s.

(** A loop, and whether it ran through. *)
Fixpoint each {A S} (body : A → S → Q (Flow S)) (l : list A) (s : S) : Q (S * bool) :=
  match l with
  | [] => mret (s, true)
  | x :: l =>
      r ← body x s;
      match r with
      | Next s => each body l s
      | Stop s => mret (s, false)
      end
  end.

(** Candidates found so far, and whether they can be all. *)
Notation Found := (gset EntityId * bool)%type.
Definition incomplete (s : Found) : Found := (s.1, false).
Definition found (id : EntityId) (s : Found) : Found := (s.1 ∪ {[id]}, s.2).

Class RegexLib := { regex_new : string → string + (string → bool) }.

(** ** Required literals of regular expressions *)

Definition is_ascii_str (s : string) : bool :=
  forallb (λ c, bool_decide (nat_of_ascii c < 128)) (list_ascii_of_string s).
Definition one_of (set : string) (c : ascii) : bool :=
  existsb (Ascii.eqb c) (list_ascii_of_string set).
(** [if !current.is_empty() { runs.push(take(&mut current)) }] *)
Definition flush (current : string) (runs : list string) : list string :=
  if is_empty_str current then runs else runs ++ [current].
Fixpoint literal_runs (in_class : bool) (current : string) (runs : list string) (s : string)
    : option (list string) :=
  match s with
  | "" => Some (flush current runs)
  | String c s =>
      if in_class then literal_runs (negb (Ascii.eqb c "]")) "" (flush current runs) s
      else if Ascii.eqb c "[" then literal_runs true "" (flush current runs) s
      else if Ascii.eqb c "\" then
        match s with
        | String e s =>
            if one_of ".+()[]{}^$|*?\" e then literal_runs false (current +:+ String e "") runs s else None
        | "" => None
        end
      else if one_of ".+()^$" c then literal_runs false "" (flush current runs) s
      else literal_runs false (current +:+ String c "") runs s
  end.
(** [max_by_key(String::len)]: the last of the longest. *)
Definition longest (l : list string) : option string :=
  foldl (λ best s, match best with
                   | Some b => if decide (String.length s < String.length b) then Some b else Some s
                   | None => Some s
                   end) None l.
Definition required_regex_literal (pattern : string) : option string :=
  if negb (is_ascii_str pattern) then None
  else if existsb (one_of "|*?{") (list_ascii_of_string pattern) then None
  else
    runs ← literal_runs false "" [] pattern;
    run ← longest runs;
    if decide (3 ≤ String.length run) then Some run else None.

Definition debug_mode (m : SearchMode) : string :=
  match m with
  | Auto => "Auto" | Exact => "Exact" | Prefix => "Prefix" | Substring => "Substring"
  | Numeric => "Numeric" | Regex => "Regex" | Token => "Token" | Relationship => "Relationship"
  | MotifMode => "Motif" | OntologyMode => "Ontology" | MultiEvidence => "MultiEvidence"
  end.
Definition debug_kind (k : EntityKind) : string :=
  match k with
  | EntityKind.Symbol => "Symbol" | EntityKind.String_ => "String" | EntityKind.Instruction => "Instruction"
  | EntityKind.Function => "Function" | EntityKind.Import => "Import" | EntityKind.Export => "Export"
  | EntityKind.Comment => "Comment" | EntityKind.MemoryCard => "MemoryCard" | EntityKind.Type_ => "Type"
  | EntityKind.Motif => "Motif" | EntityKind.OntologyClass => "OntologyClass"
  end.

(** [classify_query] *)
Definition mode_prefixes : list (string * SearchMode) :=
  [("exact:", Exact); ("prefix:", Prefix); ("substring:", Substring); ("number:", Numeric);
   ("numeric:", Numeric); ("regex:", Regex); ("token:", Token); ("related:", Relationship);
   ("motif:", MotifMode); ("ontology:", OntologyMode)].
Fixpoint match_prefix (l : list (string * SearchMode)) (text : string) : option (SearchMode * string) :=
  match l with
  | [] => None
  | (prefix, mode) :: l =>
      match strip_prefix prefix text with
      | Some rest => Some (mode, trim rest)
      | None => match_prefix l text
      end
  end.
Definition classify_query (q : Query) : SearchMode * string :=
  let text := trim (q_text q) in
  if negb (bool_decide (q_mode q = Auto)) then (q_mode q, text)
  else
    match match_prefix mode_prefixes text with
    | Some r => r
    | None =>
        if decide (q_evidence q ≠ []) then (MultiEvidence, text)
        else
          match strip_prefix "/" text with
          | Some regex => (Regex, regex)
          | None => match parse_number text with Some _ => (Numeric, text) | None => (Substring, text) end
          end
    end.

(** [query_fingerprint] *)
Definition query_fingerprint (q : Query) (mode : SearchMode) (text : string) : Z :=
  let value := debug_mode mode +:+ "|" +:+ text +:+ "|" +:+ pretty (default 0 (q_quorum q)) +:+ "|" +:+
    pretty (q_relationship_depth q) +:+ "|[" +:+ join ", " (map debug_kind (q_kinds q)) +:+ "]" in
  stable_u64_hash (string_bytes
    (foldl (λ v e, v +:+ "|" +:+ normalize_ascii e) value (q_evidence q))).

Definition has_token (token text : string) : bool :=
  existsb (String.eqb token) (split_tokens "" text).

Section query.
Context `{!FstLib, !RegexLib}.
Variable length_specificity : nat → Z.
Variable expired : nat → bool.
Variable index : BelIndex.
Variable o : Overlay.

(** [Budget::tick], on the interval of the configuration *)
Definition tick : Q bool := λ b,
  if bg_timed_out b then (false, b)
  else
    let check := (bg_iterations b mod Z.max 1 (deadline_check_interval (config index)) =? 0)%Z in
    let iterations := bg_iterations b +sat 1 in
    if check then
      if expired (bg_reads b) then (false, mkBudget iterations true (S (bg_reads b)))
      else (true, mkBudget iterations false (S (bg_reads b)))
    else (true, mkBudget iterations false (bg_reads b)).
Definition timed_out : Q bool := λ b, (bg_timed_out b, b).

(** [if !budget.tick() { complete = false; break; }] before the body *)
Definition ticked {A S} (spoil : S → S) (f : A → S → Flow S) (x : A) (s : S) : Q (Flow S) :=
  ok ← tick; mret (if (ok : bool) then f x s else Stop (spoil s)).

(** ** Candidates *)

Definition hidden (id : EntityId) : bool :=
  bool_decide (id ∈ tombstones o ∨ id ∈ surface_tombstones o).
Definition safety_limit (text : string) : Z :=
  if decide (chars_count text < 3) then Z.min (safety_cardinality (config index)) 10000
  else safety_cardinality (config index).
Definition at_safety (text : string) (ids : gset EntityId) : bool :=
  (safety_limit text <=? Z.of_nat (size ids))%Z.

Definition take_id (id : EntityId) (s : Found) : Flow Found := Next (found id s).
Definition take_visible (id : EntityId) (s : Found) : Flow Found :=
  Next (if hidden id then s else found id s).

(** [collect_exact] *)
Definition collect_exact (text : string) : Q CandidateSet :=
  '(s, through) ← each (ticked incomplete take_id) (ascending (default ∅ (ov_names o !! text))) (∅, true);
  if negb through then
    mret (mkCandidates s.1 false true (Some (size s.1)) "fst_exact" MatchKind.Exact)
  else
    let postings := default ∅ (i ← fst_get (nf_map (name_fst index)) text;
                               nf_postings (name_fst index) !! Z.to_nat i) in
    '(s, _) ← each (ticked incomplete take_visible) (ascending postings) s;
    timed ← timed_out;
    mret (mkCandidates s.1 s.2 timed (Some (size s.1)) "fst_exact" MatchKind.Exact).

(** [collect_prefix] *)
Definition prefix_name (text : string) (e : string * gset EntityId) (s : Found) : Q (Flow Found) :=
  ok ← tick;
  if negb ok then mret (Stop (incomplete s))
  else if String.prefix text e.1 then
    '(s, _) ← each (ticked incomplete take_id) (ascending e.2) s;
    mret (if at_safety text s.1 then Stop (incomplete s) else Next s)
  else mret (Next s).
Definition prefix_base (text : string) (id : EntityId) (s : Found) : Q (Flow Found) :=
  if negb s.2 then mret (Stop s)
  else
    ok ← tick;
    mret (if negb ok then Stop (incomplete s)
          else if negb (String.prefix text (text_at index id)) then Stop s
          else
            let s := if hidden id then s else found id s in
            if at_safety text s.1 then Stop (incomplete s) else Next s).
Definition collect_prefix (text : string) : Q CandidateSet :=
  '(s, _) ← each (prefix_name text) (name_entries (ov_names o)) (∅, true);
  let ids := sorted_ids (name_fst index) in
  let start := partition_point (λ id, str_lt (text_at index id) text) ids in
  '(s, _) ← each (prefix_base text) (drop start ids) s;
  timed ← timed_out;
  mret (mkCandidates s.1 s.2 timed (Some (size s.1)) "fst_prefix" MatchKind.Prefix).

(** [collect_overlay_substring] *)
Definition take_if (test : string → bool) (e : EntityId * string) (s : Found) : Flow Found :=
  Next (if test e.2 then found e.1 s else s).
Definition overlay_texts : list (EntityId * string) :=
  imap (λ position text, (base_entity_count o + position, text)) (ov_normalized o).
Definition collect_overlay_substring (text : string) : Q Found :=
  let test := contains text in
  '(s, through) ← each (ticked incomplete (take_if test)) (id_entries (normalized_overrides o)) (∅, true);
  if negb through then mret s
  else
    '(s, _) ← each (ticked incomplete (take_if test)) overlay_texts s;
    mret s.

(** [all_base_ids], [base_kind_ids] *)
Definition all_base_ids : Q Found :=
  '(s, _) ← each (ticked incomplete take_id) (sorted_ids (name_fst index)) (∅, true);
  mret s.
Definition base_kind_ids (kinds : list EntityKind) : Q Found :=
  '(s, _) ← each (λ kind s,
      '(s, through) ← each (ticked incomplete take_id)
                        (ascending (default ∅ (kind_postings index !! kind))) s;
      mret (if (through : bool) then Next s else Stop s)) kinds (∅, true);
  mret s.

(** [collect_substring]: the candidates to verify, how they were found, and the
    estimate. *)
Definition intersect_postings (postings : list (gset EntityId)) : Q Found :=
  match sort_by_key (λ ids : gset EntityId, Z.of_nat (size ids)) postings with
  | [] => mret (∅, true)
  | first :: rest =>
      '(s, _) ← each (ticked incomplete
                   (λ id s, Next (if forallb (λ ids : gset EntityId, bool_decide (id ∈ ids)) rest
                                  then found id s else s)))
                 (ascending first) (∅, true);
      mret s
  end.
Definition verify_substring (text : string) (id : EntityId) (s : Found) : Q (Flow Found) :=
  if negb s.2 || at_safety text s.1 then mret (Stop (incomplete s))
  else
    ok ← tick;
    mret (if negb ok then Stop (incomplete s)
          else if hidden id then Next s
          else if match normalized_of index o id with Some t => contains text t | None => false end then
            let s := found id s in
            if at_safety text s.1 then Stop (incomplete s) else Next s
          else Next s).
Definition substring_source (text : string) (kinds : list EntityKind) : Q (option (Found * string * nat)) :=
  let syn := syncmer_postings index in
  let hashes := closed_syncmer_hashes text (syn_k syn) (syn_s syn) in
  if syn_complete syn && negb (bool_decide (hashes = [])) then
    let postings := omap (syn_map syn !!.) hashes in
    if decide (length postings ≠ length hashes) then mret None
    else
      s ← intersect_postings postings;
      mret (Some (s, "closed_syncmer_verify", size s.1))
  else
    s ← (if decide (kinds = []) then all_base_ids else base_kind_ids kinds);
    let strategy := if syn_complete syn then "short_query_linear_verify" else "budget_safe_linear_verify" in
    mret (Some (s, strategy, if (s.2 : bool) then length (entities index) else 0)).
Definition collect_substring (text : string) (kinds : list EntityKind) : Q CandidateSet :=
  source ← substring_source text kinds;
  match source with
  | None =>
      s ← collect_overlay_substring text;
      timed ← timed_out;
      mret (mkCandidates s.1 s.2 timed (Some 0) "syncmer_empty_verify" MatchKind.Substring)
  | Some (src, strategy, estimate) =>
      s ← collect_overlay_substring text;
      '(s, _) ← each (verify_substring text) (ascending src.1) (s.1, src.2 && s.2);
      timed ← timed_out;
      mret (mkCandidates s.1 s.2 timed (Some estimate) strategy MatchKind.Substring)
  end.

(** [collect_numeric]; [equal_range] is the part of a sorted vector with a value. *)
Definition equal_range (value : Z) (l : list (Z * EntityId)) : list EntityId :=
  let start := partition_point (λ e, (e.1 <? value)%Z) l in
  let stop := partition_point (λ e, (e.1 <=? value)%Z) l in
  map snd (take (stop - start) (drop start l)).
Definition numeric_base (id : EntityId) (s : Found) : Q (Flow Found) :=
  if negb s.2 then mret (Stop s)
  else
    ok ← tick;
    mret (if negb ok then Stop (incomplete s)
          else Next (if decide (id ∈ tombstones o) then s else found id s)).
Definition collect_numeric (text : string) : Q (BelQueryError + CandidateSet) :=
  match parse_number text with
  | None => mret (inl (InvalidNumber text))
  | Some value =>
      '(s, _) ← each (ticked incomplete take_id) (equal_range value (ov_numeric o)) (∅, true);
      '(s, _) ← each numeric_base (equal_range value (numeric index)) s;
      timed ← timed_out;
      mret (inr (mkCandidates s.1 s.2 timed (Some (size s.1)) "sorted_numeric" MatchKind.Numeric))
  end.

(** [collect_regex] *)
Definition verify_regex (is_match : string → bool) (literal : string) (id : EntityId) (s : Found)
    : Flow Found :=
  match display_of index o id with
  | Some display =>
      if is_match display then
        let s := found id s in
        if at_safety literal s.1 then Stop (incomplete s) else Next s
      else Next s
  | None => Next s
  end.
Definition collect_regex (pattern : string) (kinds : list EntityKind) : Q (BelQueryError + CandidateSet) :=
  match regex_new pattern with
  | inl message => mret (inl (InvalidRegex message))
  | inr is_match =>
      let required := normalize_ascii <$> required_regex_literal pattern in
      seed ← match required with
             | None =>
                 s ← all_base_ids; timed ← timed_out;
                 mret (mkCandidates s.1 s.2 timed (Some (length (entities index))) "regex_linear_verify"
                         MatchKind.Regex)
             | Some literal => collect_substring literal kinds
             end;
      '(s, _) ← each (ticked incomplete (take_if is_match)) (id_entries (display_overrides o))
                  (∅, cs_complete seed);
      '(s, _) ← each (ticked incomplete (take_if is_match))
                  (map (λ e, (en_id e, en_display e)) (ov_entities o)) s;
      '(s, _) ← each (ticked incomplete (verify_regex is_match (default "" required)))
                  (ascending (cs_ids seed)) s;
      timed ← timed_out;
      mret (inr (mkCandidates s.1 s.2 timed (cs_estimated seed)
        (match required with Some _ => "required_literal_then_regex" | None => "regex_linear_verify" end)
        MatchKind.Regex))
  end.

(** [collect_token] *)
Definition when_complete {A} (f : A → Found → Flow Found) (x : A) (s : Found) : Q (Flow Found) :=
  if negb s.2 then mret (Stop s) else ticked incomplete f x s.
Definition collect_token (text : string) : Q CandidateSet :=
  '(s, _) ← each (ticked incomplete (take_if (has_token text))) (id_entries (normalized_overrides o)) (∅, true);
  '(s, _) ← each (when_complete (take_if (has_token text))) overlay_texts s;
  '(s, _) ← each (when_complete take_visible) (ascending (default ∅ (token_postings index !! text))) s;
  timed ← timed_out;
  mret (mkCandidates s.1 s.2 timed (Some (size s.1)) "token_primary" MatchKind.Token).

Definition kind_allowed (kinds : list EntityKind) (id : EntityId) : bool :=
  bool_decide (kinds = []) ||
  match entity index o id with Some e => bool_decide (en_kind e ∈ kinds) | None => false end.

(** [restrict_candidate_kinds] *)
Definition restrict_candidate_kinds (kinds : list EntityKind) (ids : gset EntityId) : Q Found :=
  if decide (kinds = []) then mret (ids, true)
  else
    '(s, _) ← each (ticked incomplete (λ id s, Next (if kind_allowed kinds id then found id s else s)))
                (ascending ids) (∅, true);
    mret s.

(** [collect_surface] *)
Definition collect_surface (mode : SearchMode) (text : string) (kinds : list EntityKind)
    : Q (BelQueryError + CandidateSet) :=
  r ← match mode with
      | Exact => c ← collect_exact text; mret (inr c)
      | Prefix => c ← collect_prefix text; mret (inr c)
      | Substring | Auto => c ← collect_substring text kinds; mret (inr c)
      | Numeric => collect_numeric text
      | Regex => collect_regex text kinds
      | Token => c ← collect_token text; mret (inr c)
      | _ => mret (inr (mkCandidates ∅ true false (Some 0) "unsupported_surface" MatchKind.Substring))
      end;
  match r with
  | inl e => mret (inl e)
  | inr c =>
      s ← restrict_candidate_kinds kinds (cs_ids c);
      timed ← timed_out;
      mret (inr (mkCandidates s.1 (cs_complete c && s.2) (cs_timed_out c || timed) (cs_estimated c)
                   (cs_strategy c) (cs_match_kind c)))
  end.

(** ** Relationships *)

(** [relationship_postings] *)
Definition relationship_postings (id : EntityId) : option (gset EntityId) :=
  let pr := propagation index in
  let functions :=
    match ov_surface_to_funcs o !! id with
    | Some f => f
    | None => match hot_table pr !! id with
              | Some f => f
              | None => default ∅ (surface_to_funcs pr !! id)
              end
    end in
  let functions :=
    match entity index o id with
    | None => functions
    | Some item =>
        if decide (en_kind item = EntityKind.Function) then functions ∪ {[en_id item]}
        else match en_func_entry item ≫= (function_by_va index !!.) with
             | Some function_id => functions ∪ {[function_id]}
             | None => functions
             end
    end in
  if decide (functions = ∅) then None else Some functions.

(** [token_function_sources] *)
Definition token_source (candidates : gset EntityId) (id : EntityId) (m : gmap EntityId EntityId)
    : gmap EntityId EntityId :=
  match entity index o id with
  | None => m
  | Some instruction =>
      if decide (en_kind instruction ≠ EntityKind.Instruction) then m
      else match en_func_entry instruction ≫= (function_by_va index !!.) with
           | Some function_id =>
               if decide (function_id ∈ candidates ∧ m !! function_id = None)
               then <[function_id := id]> m else m
           | None => m
           end
  end.
Definition token_function_sources (candidates : gset EntityId) : Q (gmap EntityId EntityId * bool) :=
  each (ticked id (λ i m, Next (token_source candidates i m))) (ascending candidates) ∅.

(** [evidence.entry(function).or_insert_with(..)] and a change of it *)
Definition update_evidence (function : EntityId) (fresh : CandidateEvidence)
    (f : CandidateEvidence → CandidateEvidence) (ev : Evidence) : Evidence :=
  <[function := f (default fresh (ev !! function))]> ev.

(** [1_000_000 / df] *)
Definition affinity (df : nat) : Z := (1000000 / Z.of_nat (Nat.max 1 df))%Z.

(** [extend_relationships]; [false] is a return at the deadline. *)
Definition hop_function (seed_text : string) (seed : EntityId) (df : nat) (function : EntityId)
    (s : Evidence * gset EntityId) : Flow (Evidence * gset EntityId) :=
  Next (update_evidence function (new_evidence MatchKind.Relationship "one_hop")
          (λ c, add_provenance (mkProvenance OneHop (Some seed_text) (Some seed) "exact surface-to-function edge")
                  (add_affinity (affinity df) c)) s.1,
        s.2 ∪ {[function]}).
Definition hop_seed (seed_text : string) (seed : EntityId) (s : Evidence * gset EntityId)
    : Q (Flow (Evidence * gset EntityId)) :=
  ok ← tick;
  if negb ok then mret (Stop s)
  else
    match relationship_postings seed with
    | None => mret (Next s)
    | Some functions =>
        '(s, through) ← each (ticked id (hop_function seed_text seed (size functions))) (ascending functions) s;
        mret (if (through : bool) then Next s else Stop s)
    end.
Definition hop_neighbors (visited : gset EntityId) (function : EntityId) (next : gset EntityId)
    : Q (Flow (gset EntityId)) :=
  ok ← tick;
  if negb ok then mret (Stop next)
  else
    '(next, through) ← each (ticked id (λ n next, Next (if decide (n ∈ visited) then next else next ∪ {[n]})))
        (ascending (default ∅ (function_neighbors (propagation index) !! function))) next;
    mret (if (through : bool) then Next next else Stop next).
Definition hop_found (seed_text : string) (hop : nat) (function : EntityId) (s : Evidence * gset EntityId)
    : Flow (Evidence * gset EntityId) :=
  Next (update_evidence function (new_evidence MatchKind.Relationship "bounded_relationship")
          (add_provenance (mkProvenance OneHop (Some seed_text) None
             ("exact call-graph hop " +:+ pretty (hop + 1)))) s.1,
        s.2 ∪ {[function]}).
Definition hop_level (seed_text : string) (hop : nat) (s : Evidence * gset EntityId * gset EntityId)
    : Q (Flow (Evidence * gset EntityId * gset EntityId)) :=
  let '(ev, visited, frontier) := s in
  '(next, through) ← each (hop_neighbors visited) (ascending frontier) ∅;
  if negb through then mret (Stop s)
  else
    '((ev, visited), through) ← each (ticked id (hop_found seed_text hop)) (ascending next) (ev, visited);
    mret (if (through : bool) then Next (ev, visited, next) else Stop (ev, visited, next)).
Definition lattice_depth (requested : nat) : nat :=
  Nat.min (Nat.max (if decide (requested = 0) then relationship_depth (config index) else requested) 1)
    (max_lattice_depth (config index)).
Definition extend_relationships (seeds : gset EntityId) (requested_depth : nat) (seed_text : string)
    (ev : Evidence) : Q Evidence :=
  '((ev, frontier), through) ← each (hop_seed seed_text) (ascending seeds) (ev, ∅);
  if negb through then mret ev
  else
    '(ev, _, _, _) ← each (hop_level seed_text) (seq 1 (lattice_depth requested_depth - 1))
                         (ev, frontier, frontier);
    mret ev.

(** ** Several clauses *)

(** The clauses with, for each function, how many reach it and from where. *)
Record Quorum := mkQuorumState {
  counts : gmap EntityId nat;
  sources : gmap EntityId (list (string * EntityId * nat));
  qm_complete : bool;
  qm_estimated : nat
}.
Definition spoil_quorum (s : Quorum) : Quorum := mkQuorumState (counts s) (sources s) false (qm_estimated s).
(** One clause's functions so far, with their sources. *)
Notation ClauseState := (gset EntityId * gmap EntityId (list (string * EntityId * nat)) * bool)%type.
Definition spoil_clause (s : ClauseState) : ClauseState := (s.1, false).
Definition clause_function (clause : string) (seed : EntityId) (df : nat) (function : EntityId) (s : ClauseState)
    : Flow ClauseState :=
  let '(functions, srcs, complete) := s in
  Next (functions ∪ {[function]},
        <[function := default [] (srcs !! function) ++ [(clause, seed, df)]]> srcs, complete).
Definition clause_seed (clause : string) (seed : EntityId) (s : ClauseState) : Q (Flow ClauseState) :=
  ok ← tick;
  if negb ok then mret (Stop (spoil_clause s))
  else
    match relationship_postings seed with
    | None => mret (Next s)
    | Some functions =>
        '(s, _) ← each (ticked spoil_clause (clause_function clause seed (Nat.max 1 (size functions))))
                    (ascending functions) s;
        mret (Next s)
    end.
Definition count_function (function : EntityId) (s : gmap EntityId nat * bool) : Flow (gmap EntityId nat * bool) :=
  Next (<[function := S (default 0 (s.1 !! function))]> s.1, s.2).
Definition quorum_clause (clause : string) (s : Quorum) : Q (Flow Quorum) :=
  ok ← tick;
  if negb ok then mret (Stop (spoil_quorum s))
  else
    seeds ← collect_substring (normalize_ascii (trim clause)) [];
    '((functions, srcs, complete), _) ← each (clause_seed clause) (ascending (cs_ids seeds))
        (∅, sources s, qm_complete s && cs_complete seeds);
    '((cnt, complete), _) ← each (ticked (λ s : gmap EntityId nat * bool, (s.1, false)) count_function)
        (ascending functions) (counts s, complete);
    mret (Next (mkQuorumState cnt srcs complete
                  (qm_estimated s + default (size (cs_ids seeds)) (cs_estimated seeds)))).
Definition source_evidence (e : string * EntityId * nat) (s : CandidateEvidence * bool)
    : Flow (CandidateEvidence * bool) :=
  let '(clause, seed, df) := e in
  Next (add_provenance (mkProvenance OneHop (Some clause) (Some seed) "independent verified evidence seed")
          (add_affinity (affinity df) s.1), s.2).
Definition quorum_function (quorum : nat) (srcs : gmap EntityId (list (string * EntityId * nat)))
    (e : EntityId * nat) (s : Evidence * bool) : Q (Flow (Evidence * bool)) :=
  let '(function, count) := e in
  ok ← tick;
  if negb ok then mret (Stop (s.1, false))
  else if decide (count < quorum) then mret (Next s)
  else
    '((c, complete), _) ← each (ticked (λ s : CandidateEvidence * bool, (s.1, false)) source_evidence)
        (default [] (srcs !! function))
        (new_evidence MatchKind.Relationship "quorum_signature_cascade", s.2);
    mret (Next (<[function := c]> s.1, complete)).
Definition query_clauses (q : Query) : list string :=
  if is_empty_str (trim (q_text q)) then q_evidence q else trim (q_text q) :: q_evidence q.
Definition query_quorum (q : Query) : nat :=
  Nat.min (Nat.max (default (cf_quorum (config index)) (q_quorum q)) 1) (length (query_clauses q)).
(** [collect_multi_evidence] *)
Definition collect_multi_evidence (q : Query) (ev : Evidence)
    : Q (BelQueryError + (Evidence * bool * option nat)) :=
  let clauses := query_clauses q in
  if decide (clauses = []) then mret (inl EmptyQuery)
  else
    '(s, _) ← each quorum_clause clauses (mkQuorumState ∅ ∅ true 0);
    '((ev, complete), _) ← each (quorum_function (query_quorum q) (sources s)) (id_entries (counts s))
        (ev, qm_complete s);
    mret (inr (ev, complete, Some (qm_estimated s))).

(** ** Motifs and the ontology *)

Definition motif_function (text name : string) (df : nat) (source : option EntityId) (function : EntityId)
    (ev : Evidence) : Flow Evidence :=
  Next (update_evidence function (new_evidence MatchKind.Exact "motif_postings")
          (λ c, add_affinity (affinity df)
                  (add_provenance (mkProvenance MotifLayer (Some text) source ("structural motif " +:+ name)) c)) ev).
Definition motif_entry (text : string) (e : string * gset EntityId) (ev : Evidence) : Q (Flow Evidence) :=
  let '(name, functions) := e in
  ok ← tick;
  if negb ok then mret (Stop ev)
  else if negb (contains text name) then mret (Next ev)
  else
    '(ev, through) ← each (ticked id (motif_function text name (size functions)
                                        (motif_entities (motifs index) !! name))) (ascending functions) ev;
    mret (if (through : bool) then Next ev else Stop ev).
(** [collect_motif] *)
Definition collect_motif (text : string) (ev : Evidence) : Q (Evidence * bool) :=
  each (motif_entry text) (name_entries (motif_tokens (motifs index))) ev.

Definition boost (c : CandidateEvidence) : CandidateEvidence :=
  with_scores (signature_overlap c) (S (ontology_boost c)) c.
Definition ontology_function (text name : string) (class_id function : EntityId) (ev : Evidence) : Flow Evidence :=
  Next (update_evidence function (new_evidence MatchKind.Ontology "ontology_postings")
          (λ c, add_provenance (mkProvenance OntologyLayer (Some text) (Some class_id) ("ontology class " +:+ name))
                  (boost c)) ev).
Definition ontology_entry (text : string) (e : string * EntityId) (ev : Evidence) : Q (Flow Evidence) :=
  let '(name, class_id) := e in
  ok ← tick;
  if negb ok then mret (Stop ev)
  else if negb (contains text name) then mret (Next ev)
  else
    '(ev, through) ← each (ticked id (ontology_function text name class_id))
        (ascending (default ∅ (surface_to_funcs (propagation index) !! class_id))) ev;
    mret (if (through : bool) then Next ev else Stop ev).
(** [collect_ontology] *)
Definition collect_ontology (text : string) (ev : Evidence) : Q (Evidence * bool) :=
  each (ontology_entry text) (name_entries (classes (ontology index))) ev.

(** ** Ranking *)

(** [query_signature] *)
Definition sign_seed (seed : EntityId) (s : SparseFunctionSignature) : Flow SparseFunctionSignature :=
  Next (if decide (seed ∈ rare_lookup (signature_store index) ∨ length (entities index) ≤ seed)
        then Signature.insert seed (width_bits (signature_store index)) s else s).
Definition sign_candidate (ev : Evidence) (id : EntityId) (s : SparseFunctionSignature)
    : Q (Flow SparseFunctionSignature) :=
  ok ← tick;
  if negb ok then mret (Stop s)
  else
    match ev !! id with
    | None => mret (Next s)
    | Some c =>
        '(s, through) ← each (ticked Datatypes.id sign_seed) (ascending (seed_entities c)) s;
        mret (if (through : bool) then Next s else Stop s)
    end.
Definition query_signature (ev : Evidence) : Q (SparseFunctionSignature * bool) :=
  each (sign_candidate ev) (ascending (dom ev)) (Signature.new (width_bits (signature_store index))).

Record ScoredHit := mkHit {
  sh_entity_id : EntityId;
  sh_va : Z;
  sh_score_micros : Z;
  sh_candidate : CandidateEvidence
}.

(** [compare_hits] is [Less] or [Equal]: the better score first, then the
    smaller identifier, then the smaller address. *)
Definition hit_lt (x y : ScoredHit) : Prop :=
  (sh_score_micros y < sh_score_micros x)%Z ∨
  sh_score_micros y = sh_score_micros x ∧
    (sh_entity_id x < sh_entity_id y ∨ sh_entity_id x = sh_entity_id y ∧ (sh_va x < sh_va y)%Z).
#[local] Instance hit_lt_dec x y : Decision (hit_lt x y).
Proof. unfold hit_lt. apply _. Defined.
Definition hit_le (x y : ScoredHit) : Prop := ¬ hit_lt y x.
#[local] Instance hit_le_dec x y : Decision (hit_le x y).
Proof. unfold hit_le. apply _. Defined.

Definition is_after_cursor (hit : ScoredHit) (c : CursorKey.t) : bool :=
  bool_decide (
    (sh_score_micros hit < CursorKey.score_micros c)%Z ∨
    sh_score_micros hit = CursorKey.score_micros c ∧
      (CursorKey.entity_id c < sh_entity_id hit ∨
       sh_entity_id hit = CursorKey.entity_id c ∧ (CursorKey.va c < sh_va hit)%Z)).

Definition cursor_for (query_hash : Z) (hit : ScoredHit) : string :=
  CursorKey.encode (CursorKey.mkCursor (generation index) (ov_generation o) query_hash
    (sh_score_micros hit) (sh_entity_id hit) (sh_va hit)).

(** [(layer, source_entity, &detail)] compared; [None] is less than [Some]. *)
Definition opt_id (x : option EntityId) : nat := match x with None => 0 | Some i => S i end.
Definition provenance_le (x y : Provenance) : Prop :=
  layer_index (pv_layer x) < layer_index (pv_layer y) ∨
  pv_layer x = pv_layer y ∧
    (opt_id (pv_source_entity x) < opt_id (pv_source_entity y) ∨
     pv_source_entity x = pv_source_entity y ∧ str_le (pv_detail x) (pv_detail y)).
#[local] Instance provenance_le_dec x y : Decision (provenance_le x y).
Proof. unfold provenance_le. apply _. Defined.

(** The function whose signature and labels rank an entity. *)
Definition hit_function (id : EntityId) (ent : Entity) : option EntityId :=
  match en_func_entry ent ≫= (function_by_va index !!.) with
  | Some f => Some f
  | None => if decide (en_kind ent = EntityKind.Function) then Some id else None
  end.
Definition visible_overlap (signature : SparseFunctionSignature) (function_id : EntityId) : option nat :=
  if Signature.is_empty signature then None
  else
    s ← signatures (signature_store index) !! function_id;
    Some (match signature_deltas o !! function_id with
          | Some delta => Signature.overlap (Signature.union_assign s delta) signature
          | None => Signature.overlap s signature
          end).
Definition rank_function (signature : SparseFunctionSignature) (function_id : EntityId) (c : CandidateEvidence)
    : CandidateEvidence :=
  let labels := match func_labels (ontology index) !! function_id with
                | Some l => size l
                | None => 0
                end in
  match visible_overlap signature function_id with
  | None => with_scores (signature_overlap c) labels c
  | Some n =>
      let c := with_scores n labels c in
      if decide (0 < n) then
        add_provenance (mkProvenance SignatureLayer None None
          (pretty n +:+ " fixed-width evidence bit(s) overlap")) c
      else c
  end.
Definition score_micros (display : string) (c : CandidateEvidence) : Z :=
  (MatchKind.weight (ce_match_kind c) * 1000000
   + Z.quot (affinity_micros c * MatchKind.exactness (ce_match_kind c)) 100
   + Z.of_nat (size (evidence_kinds c)) * 100000
   + Z.of_nat (signature_overlap c) * 10000
   + Z.of_nat (ontology_boost c) * 25000
   + length_specificity (String.length display))%Z.

(** The body of the ranking loop up to the push. *)
Definition rank (signature : SparseFunctionSignature) (id : EntityId) (c : CandidateEvidence)
    : option ScoredHit :=
  ent ← entity index o id;
  let display := default (en_display ent) (display_of index o id) in
  let c := match hit_function id ent with Some f => rank_function signature f c | None => c end in
  let c := with_provenance (merge_sort provenance_le (ce_provenance c)) c in
  Some (mkHit (en_id ent) (default u64_max (en_va ent)) (score_micros display c) c).

(** The heap as the list of what it holds, best first; the root is the last.
    [heap_limit] is the page and one more. *)
Fixpoint insert_hit (h : ScoredHit) (l : list ScoredHit) : list ScoredHit :=
  match l with
  | [] => [h]
  | x :: l => if decide (hit_lt h x) then h :: x :: l else x :: insert_hit h l
  end.
Definition push_hit (heap_limit : nat) (h : ScoredHit) (heap : list ScoredHit) : list ScoredHit :=
  if decide (length heap < heap_limit) then insert_hit h heap
  else
    match vec_pop heap with
    | Some (worst, rest) => if decide (hit_lt h worst) then insert_hit h rest else heap
    | None => heap
    end.

Record Ranking := mkRanking {
  rk_heap : list ScoredHit;
  rk_total : nat;
  rk_after_cursor : nat;
  rk_complete : bool
}.
Definition spoil_ranking (s : Ranking) : Ranking :=
  mkRanking (rk_heap s) (rk_total s) (rk_after_cursor s) false.
Definition rank_hit (ev : Evidence) (signature : SparseFunctionSignature) (cursor : option CursorKey.t)
    (heap_limit : nat) (id : EntityId) (s : Ranking) : Q (Flow Ranking) :=
  match ev !! id with
  | None => mret (Next s)
  | Some c =>
      ok ← tick;
      mret (if negb ok then Stop (spoil_ranking s)
            else
              match rank signature id c with
              | None => Next s
              | Some hit =>
                  let total := S (rk_total s) in
                  if match cursor with Some c => negb (is_after_cursor hit c) | None => false end
                  then Next (mkRanking (rk_heap s) total (rk_after_cursor s) (rk_complete s))
                  else Next (mkRanking (push_hit heap_limit hit (rk_heap s)) total
                               (S (rk_after_cursor s)) (rk_complete s))
              end)
  end.

(** ** Searches *)

Inductive TotalKind := ExactTotal | LowerBound.

(** [Hit], with the score in millionths. *)
Record Hit := mkResultHit {
  h_entity_id : EntityId;
  h_kind : EntityKind;
  h_display : string;
  h_va : option Z;
  h_file_offset : option Z;
  h_function_va : option Z;
  h_provenance : list Provenance;
  h_score_micros : Z;
  h_reason : string;
  h_strategy : string
}.

(** The elapsed time is left out. *)
Record SearchResult := mkResult {
  hits : list Hit;
  total : nat;
  total_kind : TotalKind;
  next_cursor : option string;
  truncated : bool;
  timeout_or_partial : bool;
  refinement_suggestion : option string;
  estimated_candidates : option nat;
  strategy : string;
  result_index_generation : Z;
  result_overlay_generation : Z
}.

Definition result_hit (ranked : ScoredHit) : option Hit :=
  let c := sh_candidate ranked in
  ent ← entity index o (sh_entity_id ranked);
  Some (mkResultHit (en_id ent) (en_kind ent) (default (en_display ent) (display_of index o (sh_entity_id ranked)))
    (en_va ent) (en_file_offset ent) (en_func_entry ent) (ce_provenance c) (sh_score_micros ranked)
    (MatchKind.debug (ce_match_kind c) +:+ " match; " +:+ pretty (size (evidence_kinds c)) +:+
       " independent evidence kind(s); " +:+ pretty (size (seed_entities c)) +:+ " seed(s)")
    (ce_strategy c)).

(** The evidence of one surface candidate. *)
Definition surface_layer (mode : SearchMode) (id : EntityId) : ProvenanceLayer :=
  match mode with
  | Numeric => NumericLayer
  | Token => TokenLayer
  | _ => if decide (base_entity_count o ≤ id) then OverlayLayer else SurfaceLayer
  end.
Definition surface_evidence (mode : SearchMode) (text : string) (c : CandidateSet)
    (srcs : gmap EntityId EntityId) (id : EntityId) : CandidateEvidence :=
  let source := default id (srcs !! id) in
  let detail := if decide (source = id) then "verified " +:+ debug_mode mode +:+ " match"
                else "verified token aggregate via instruction entity " +:+ pretty source in
  let df := match relationship_postings id with Some s => Nat.max 1 (size s) | None => 1 end in
  add_affinity (1000000 / Z.of_nat df)%Z
    (add_provenance (mkProvenance (surface_layer mode id) (Some text) (Some source) detail)
       (new_evidence (cs_match_kind c) (cs_strategy c))).
Definition surface_hit (mode : SearchMode) (text : string) (kinds : list EntityKind) (c : CandidateSet)
    (srcs : gmap EntityId EntityId) (id : EntityId) (s : Evidence * bool) : Flow (Evidence * bool) :=
  Next (if kind_allowed kinds id then (<[id := surface_evidence mode text c srcs id]> s.1, s.2) else s).

(** What the collection of [search] gives: evidence, completeness, estimate and
    strategy. *)
Record Collected := mkCollected {
  co_evidence : Evidence;
  co_complete : bool;
  co_estimated : option nat;
  co_strategy : string
}.
Definition collect_modes (q : Query) (mode : SearchMode) (query_text text : string)
    : Q (BelQueryError + Collected) :=
  match mode with
  | Relationship =>
      r ← collect_surface Substring text [];
      match r with
      | inl e => mret (inl e)
      | inr seeds =>
          ev ← extend_relationships (cs_ids seeds) (q_relationship_depth q) text ∅;
          mret (inr (mkCollected ev (cs_complete seeds) (cs_estimated seeds) "seed_one_hop"))
      end
  | MultiEvidence =>
      r ← collect_multi_evidence q ∅;
      match r with
      | inl e => mret (inl e)
      | inr (ev, complete, estimated) =>
          mret (inr (mkCollected ev complete estimated "quorum_signature_cascade"))
      end
  | MotifMode =>
      '(ev, complete) ← collect_motif text ∅;
      mret (inr (mkCollected ev complete (Some (size ev)) "motif_postings"))
  | OntologyMode =>
      '(ev, complete) ← collect_ontology text ∅;
      mret (inr (mkCollected ev complete (Some (size ev)) "ontology_postings"))
  | _ =>
      r ← collect_surface mode (if decide (mode = Regex) then query_text else text) (q_kinds q);
      match r with
      | inl e => mret (inl e)
      | inr c =>
          '(srcs, srcs_complete) ← (if decide (mode = Token) then token_function_sources (cs_ids c)
                                    else mret (∅, true));
          '((ev, complete), _) ← each (ticked (λ s : Evidence * bool, (s.1, false))
                                        (surface_hit mode query_text (q_kinds q) c srcs))
              (ascending (cs_ids c)) (∅, cs_complete c && srcs_complete);
          mret (inr (mkCollected ev (complete && (cs_complete c && negb (cs_timed_out c)))
                       (cs_estimated c) (cs_strategy c)))
      end
  end.

Definition MAX_QUERY_BYTES : Z := 16384.
Definition MAX_EVIDENCE_CLAUSES : nat := 64.
Definition too_long (s : string) : bool := (MAX_QUERY_BYTES <? Z.of_nat (String.length s))%Z.
(** The guards of [search], before any work. *)
Definition query_guard (q : Query) : option BelQueryError :=
  if too_long (q_text q) || existsb too_long (q_evidence q) then
    Some (TooLarge "query text and each evidence clause are capped at 16 KiB")
  else if decide (MAX_EVIDENCE_CLAUSES < length (q_evidence q)) then
    Some (TooLarge "multi-evidence queries are capped at 64 clauses")
  else None.
Definition open_cursor (query_hash : Z) (cursor : option string) : BelQueryError + option CursorKey.t :=
  match cursor with
  | None => inr None
  | Some value =>
      match CursorKey.decode value with
      | None => inl InvalidCursor
      | Some c =>
          if bool_decide (CursorKey.index_generation c ≠ generation index ∨
                          CursorKey.overlay_generation c ≠ ov_generation o ∨
                          CursorKey.query_hash c ≠ query_hash)%Z
          then inl InvalidCursor else inr (Some c)
      end
  end.

Definition refinement (mode : SearchMode) (text : string) (complete : bool) (total : nat) : option string :=
  if negb complete then
    Some "Result is a deterministic lower bound. Refine the query, use exact/prefix/token mode, or increase the deadline."
  else if bool_decide (mode = Substring) && bool_decide (chars_count text < 3) && bool_decide (1000 < total) then
    Some "Short query matched broadly. Prefer at least three characters or select an entity kind."
  else None.

(** The page of a ranking, [limit.clamp(1, 512)] *)
Definition page_limit (limit : nat) : nat := Nat.min (Nat.max limit 1) 512.
Definition page_of (limit : nat) (rk : Ranking) : list ScoredHit :=
  take (page_limit limit) (merge_sort hit_le (rk_heap rk)).
Definition next_page (query_hash : Z) (limit : nat) (rk : Ranking) : option string :=
  if bool_decide (page_limit limit < rk_after_cursor rk) || negb (rk_complete rk)
  then cursor_for query_hash <$> last (page_of limit rk) else None.

(** The ranking of what was collected. *)
Definition rank_all (cursor : option CursorKey.t) (limit : nat) (co : Collected) : Q Ranking :=
  let ev := co_evidence co in
  timed ← timed_out;
  '(signature, signed) ← query_signature ev;
  '(rk, _) ← each (rank_hit ev signature cursor (S (page_limit limit))) (ascending (dom ev))
               (mkRanking [] 0 0 (co_complete co && negb timed && signed));
  mret rk.

(** [search] *)
Definition search_in (q : Query) (limit : nat) (cursor : option string) : Q (BelQueryError + SearchResult) :=
  match query_guard q with
  | Some e => mret (inl e)
  | None =>
      let '(mode, query_text) := classify_query q in
      let text := normalize_ascii query_text in
      if is_empty_str text && negb (bool_decide (mode = MultiEvidence)) then mret (inl EmptyQuery)
      else
        let query_hash := query_fingerprint q mode text in
        match open_cursor query_hash cursor with
        | inl e => mret (inl e)
        | inr cursor =>
            r ← collect_modes q mode query_text text;
            match r with
            | inl e => mret (inl e)
            | inr co =>
                rk ← rank_all cursor limit co;
                let has_more := bool_decide (page_limit limit < rk_after_cursor rk) in
                mret (inr (mkResult (omap result_hit (page_of limit rk)) (rk_total rk)
                  (if rk_complete rk then ExactTotal else LowerBound) (next_page query_hash limit rk)
                  (has_more || negb (rk_complete rk)) (negb (rk_complete rk))
                  (refinement mode text (rk_complete rk) (rk_total rk)) (co_estimated co) (co_strategy co)
                  (generation index) (ov_generation o)))
            end
        end
  end.
Definition search (q : Query) (limit : nat) (cursor : option string) : BelQueryError + SearchResult :=
  (search_in q limit cursor new_budget).1.

(** ** The linear verifier *)

Definition live (id : EntityId) : bool := bool_decide (is_Some (entity index o id)).
Definition add_if (b : bool) (id : EntityId) (ids : gset EntityId) : gset EntityId :=
  if b then ids ∪ {[id]} else ids.

Definition oracle_numeric (number : Z) : gset EntityId :=
  let go ids id := add_if (live id) id ids in
  foldl go (foldl go ∅ (equal_range number (numeric index))) (equal_range number (ov_numeric o)).

Definition oracle_token_base (token : string) (ids : gset EntityId) (e : Entity) : gset EntityId :=
  if negb (bool_decide (en_kind e = EntityKind.Instruction)) || hidden (en_id e) then ids
  else if has_token token (text_at index (en_id e)) then
    let ids := ids ∪ {[en_id e]} in
    match en_func_entry e ≫= (function_by_va index !!.) with
    | Some function_id => ids ∪ {[function_id]}
    | None => ids
    end
  else ids.
Definition oracle_token (token : string) : gset EntityId :=
  let go ids (e : EntityId * string) := add_if (has_token token e.2) e.1 ids in
  foldl go (foldl go (foldl (oracle_token_base token) ∅ (entities index))
              (id_entries (normalized_overrides o))) overlay_texts.

Definition oracle_match (mode : SearchMode) (text : string) (is_match : string → bool) (id : EntityId) : bool :=
  let candidate := default "" (normalized_of index o id) in
  match mode with
  | Exact => String.eqb candidate text
  | Prefix => String.prefix text candidate
  | Substring => contains text candidate
  | Regex => match display_of index o id with Some display => is_match display | None => false end
  | _ => false
  end.
(** [linear_oracle_ids]; its numbers and tokens return before the last loop. *)
Definition linear_oracle_ids (mode : SearchMode) (text : string) : BelQueryError + list EntityId :=
  let normalized := normalize_ascii text in
  let scan is_match :=
    List.filter (λ id, live id && oracle_match mode normalized is_match id)
      (seq 0 (base_entity_count o + length (ov_entities o))) in
  match mode with
  | Regex => match regex_new text with inl message => inl (InvalidRegex message) | inr m => inr (scan m) end
  | Numeric => match parse_number text with
               | None => inl (InvalidNumber text)
               | Some number => inr (ascending (oracle_numeric number))
               end
  | Token => inr (ascending (oracle_token normalized))
  | _ => inr (scan (λ _, false))
  end.
End query.
