(* ===== verification/BelFacts.v ===== *)
(** Lemmas about the evidence index: the order of strings, substrings and
    syncmers; loops under a budget ([gives], [finishes]); and the
    well-formedness of an index and an overlay that the queries rely on. *)

From Stdlib Require Import Strings.Ascii Strings.String.
From S2P Require Import Prelude Text Data Ops Activity MemoryMap Cfg CfgFrontier Bel BelQuery.

Local Open Scope string_scope.
Local Open Scope list_scope.
Local Open Scope nat_scope.

(** ** Strings *)

Lemma ascii_lt_ne x y : nat_of_ascii x < nat_of_ascii y → Ascii.eqb x y = false.
Proof. intros L. apply Ascii.eqb_neq. intros ->. lia. Qed.
Lemma nat_of_ascii_inj x y : nat_of_ascii x = nat_of_ascii y → x = y.
Proof. intros E. rewrite <-(ascii_nat_embedding x), <-(ascii_nat_embedding y). by rewrite E. Qed.

(** The comparison of two strings that start with a byte. *)
Lemma str_lt_cons x a y b :
  str_lt (String x a) (String y b) = true ↔
    nat_of_ascii x < nat_of_ascii y ∨ x = y ∧ str_lt a b = true.
Proof.
  cbn [str_lt]. rewrite orb_true_iff, bool_decide_eq_true, andb_true_iff, Ascii.eqb_eq. done.
Qed.
Lemma str_lt_irrefl a : str_lt a a = false.
Proof.
  induction a as [|x a IH]; [done|]. apply not_true_iff_false. rewrite str_lt_cons.
  intros [L|[_ L]]; [lia|congruence].
Qed.
Lemma str_lt_trans a b c : str_lt a b = true → str_lt b c = true → str_lt a c = true.
Proof.
  revert b c. induction a as [|x a IH]; intros [|y b] [|z c] L1 L2; try done.
  apply str_lt_cons in L1, L2. apply str_lt_cons.
  destruct L1 as [L1|[-> L1]], L2 as [L2|[-> L2]]; [left; lia|by left|by left|right; eauto].
Qed.
Lemma str_lt_total a b : str_lt a b = true ∨ a = b ∨ str_lt b a = true.
Proof.
  revert b. induction a as [|x a IH]; intros [|y b]; [by right; left|by left|by right; right|].
  rewrite !str_lt_cons.
  destruct (Nat.lt_trichotomy (nat_of_ascii x) (nat_of_ascii y)) as [L|[E|L]]; [by left; left| |by right; right; left].
  apply nat_of_ascii_inj in E as ->. destruct (IH b) as [L|[->|L]]; eauto 6.
Qed.
Lemma str_lt_le a b : str_lt a b = true → str_le a b.
Proof.
  intros L. unfold str_le. apply not_true_iff_false. intros G.
  pose proof (str_lt_trans _ _ _ L G) as H. by rewrite str_lt_irrefl in H.
Qed.
Lemma str_le_antisym a b : str_le a b → str_le b a → a = b.
Proof. unfold str_le. intros L1 L2. destruct (str_lt_total a b) as [L|[E|L]]; congruence. Qed.
#[export] Instance str_le_total : Total str_le.
Proof.
  intros a b. destruct (str_lt_total a b) as [L|[->|L]].
  - left. by apply str_lt_le.
  - left. apply str_lt_irrefl.
  - right. by apply str_lt_le.
Qed.
#[export] Instance str_le_trans : Transitive str_le.
Proof.
  intros a b c L1 L2. unfold str_le in *. apply not_true_iff_false. intros L.
  destruct (str_lt_total a b) as [M|[->|M]]; [|congruence|congruence].
  pose proof (str_lt_trans _ _ _ L M). congruence.
Qed.

(** What starts with [p] lies from [p] on, in one piece. *)
Lemma prefix_not_below p s : String.prefix p s = true → str_lt s p = false.
Proof.
  revert s. induction p as [|x p IH]; intros s; [by destruct s|].
  destruct s as [|y s]; [done|]. cbn [String.prefix]. destruct (ascii_dec x y) as [->|]; [|done].
  intros P. apply not_true_iff_false. rewrite str_lt_cons. intros [L|[_ L]]; [lia|].
  rewrite IH in L; done.
Qed.
Lemma prefix_between p a b :
  str_lt a p = false → str_le a b → String.prefix p b = true → String.prefix p a = true.
Proof.
  revert a b. induction p as [|x p IH]; intros a b L1 L2 P; [by destruct a|].
  destruct b as [|y b]; [done|]. cbn [String.prefix] in P.
  destruct (ascii_dec x y) as [<-|]; [|done]. destruct a as [|z a]; [done|].
  apply not_true_iff_false in L1. unfold str_le in L2. apply not_true_iff_false in L2.
  rewrite str_lt_cons in L1, L2.
  assert (z = x) as ->.
  { apply nat_of_ascii_inj. destruct (Nat.lt_trichotomy (nat_of_ascii z) (nat_of_ascii x)) as [?|[?|?]]; tauto. }
  cbn [String.prefix]. destruct (ascii_dec x x); [|done].
  apply (IH a b); [|unfold str_le|done]; apply not_true_iff_false; tauto.
Qed.

Lemma length_app_str a b : String.length (a +:+ b) = String.length a + String.length b.
Proof. induction a as [|x a IH]; [done|]. change (S (String.length (a +:+ b)) = S (String.length a + String.length b)). by rewrite IH. Qed.

Lemma normalize_app a b : normalize_ascii (a +:+ b) = normalize_ascii a +:+ normalize_ascii b.
Proof.
  induction a as [|c a IH]; [done|].
  change (String (to_ascii_lowercase c) (normalize_ascii (a +:+ b)) =
          String (to_ascii_lowercase c) (normalize_ascii a +:+ normalize_ascii b)). by rewrite IH.
Qed.

(** ** Windows and syncmers *)

Lemma str_take_app k a b : k ≤ String.length a → str_take k (a +:+ b) = str_take k a.
Proof.
  revert k. induction a as [|x a IH]; intros k L; [simpl in L; by replace k with 0 by lia|].
  destruct k as [|k]; [done|]. simpl in L.
  change (String x (str_take k (a +:+ b)) = String x (str_take k a)). by rewrite IH by lia.
Qed.
Lemma windows_cons k x s :
  windows k (String x s) =
    if decide (S (String.length s) < k) then [] else str_take k (String x s) :: windows k s.
Proof. done. Qed.
Lemma windows_nil k s : String.length s < k → windows k s = [].
Proof. intros L. destruct s; cbn [windows]; by case_decide. Qed.
(** A window of a part is a window of the whole. *)
Lemma windows_left k p r w : w ∈ windows k p → w ∈ windows k (p +:+ r).
Proof.
  induction p as [|x p IH].
  - cbn [windows]. case_decide as D; [by intros ?%not_elem_of_nil|].
    intros ->%list_elem_of_singleton. assert (k = 0) as -> by (simpl in D; lia).
    change ("" +:+ r) with r. destruct r; by left.
  - rewrite windows_cons. case_decide as D; [by intros ?%not_elem_of_nil|].
    change (String x p +:+ r) with (String x (p +:+ r)). rewrite windows_cons.
    rewrite decide_False by (rewrite length_app_str; lia).
    intros [->|H]%elem_of_cons; [|right; by apply IH].
    change (String x (p +:+ r)) with (String x p +:+ r). rewrite str_take_app by (simpl; lia). by left.
Qed.
Lemma windows_right k a s w : w ∈ windows k s → w ∈ windows k (a +:+ s).
Proof.
  induction a as [|x a IH]; [done|]. intros H%IH.
  change (String x a +:+ s) with (String x (a +:+ s)). rewrite windows_cons.
  case_decide as D; [|by right]. rewrite windows_nil in H by lia. by apply not_elem_of_nil in H.
Qed.
Lemma windows_contains k p s w : contains p s = true → w ∈ windows k p → w ∈ windows k s.
Proof. intros (a & r & ->)%contains_app H. by apply windows_right, windows_left. Qed.

Lemma elem_of_dedup {A} `{EqDecision A} (l : list A) x : x ∈ dedup l ↔ x ∈ l.
Proof.
  induction l as [|y l IH]; [done|]. cbn [dedup]. destruct l as [|z l]; [done|].
  case_decide as D; [subst; rewrite IH; set_solver|]. rewrite !(elem_of_cons _ _ y), IH. done.
Qed.
Lemma elem_of_list_filter {A} (f : A → bool) l x : x ∈ List.filter f l ↔ f x = true ∧ x ∈ l.
Proof. rewrite !list_elem_of_In, filter_In. tauto. Qed.

(** The hashes of a text are those of its closed syncmers. *)
Lemma elem_of_hashes text k s h :
  0 < s < k →
  h ∈ closed_syncmer_hashes text k s ↔
    ∃ w, w ∈ windows k text ∧ is_closed_syncmer w s = true ∧ h = window_hash w.
Proof.
  intros Hs. unfold closed_syncmer_hashes. case_decide as D.
  - split; [by intros ?%not_elem_of_nil|]. intros (w & Hw & _). rewrite windows_nil in Hw by lia.
    by apply not_elem_of_nil in Hw.
  - rewrite elem_of_dedup, sort_by_key_perm, list_elem_of_In, in_map_iff.
    setoid_rewrite <-list_elem_of_In. setoid_rewrite elem_of_list_filter. naive_solver.
Qed.
(** The syncmers of a query are those of every text it is part of. *)
Lemma hashes_contains p text k s h :
  0 < s < k → contains p text = true →
  h ∈ closed_syncmer_hashes p k s → h ∈ closed_syncmer_hashes text k s.
Proof.
  intros Hs C. rewrite !elem_of_hashes by done. intros (w & Hw & Hc & ->).
  exists w. split; [by eapply windows_contains|done].
Qed.

(** ** Sorted lists *)

Lemma sorted_weaken {A} (R R' : relation A) l :
  (∀ x y, R x y → R' x y) → StronglySorted R l → StronglySorted R' l.
Proof.
  intros I. induction 1 as [|x l S IH F]; constructor; [done|]. eapply Forall_impl; [exact F|]. apply I.
Qed.
Lemma sorted_lookup {A} (R : relation A) l i j x y :
  StronglySorted R l → l !! i = Some x → l !! j = Some y → i < j → R x y.
Proof.
  intros S. revert i j. induction S as [|z l S IH F]; intros i j Hi Hj L; [done|].
  destruct j as [|j]; [lia|]. destruct i as [|i]; simplify_eq/=.
  - rewrite Forall_forall in F. apply F. by eapply list_elem_of_lookup_2.
  - apply (IH i j); [done..|lia].
Qed.
Lemma dedup_sorted {A} `{EqDecision A} (R : relation A) (l : list A) :
  StronglySorted R l → StronglySorted R (dedup l).
Proof.
  induction 1 as [|x l S IH F]; [constructor|]. cbn [dedup]. destruct l as [|y l]; [by repeat constructor|].
  case_decide; [done|]. constructor; [done|]. rewrite Forall_forall in F.
  apply Forall_forall. intros z Hz. apply F. by apply (elem_of_dedup (y :: l)).
Qed.
#[local] Instance value_le_total : Total value_le.
Proof.
  intros [x i] [y j]. unfold value_le. cbn. destruct (Z.lt_trichotomy x y) as [?|[?|?]]; [auto| |auto].
  destruct (Nat.le_ge_cases i j); auto.
Qed.
#[local] Instance value_le_trans : Transitive value_le.
Proof. intros [x i] [y j] [z k]. unfold value_le. cbn. lia. Qed.
Lemma sort_values_sorted l : StronglySorted (λ x y : Z * EntityId, (x.1 ≤ y.1)%Z) (sort_values l).
Proof.
  apply (sorted_weaken value_le); [intros [x i] [y j]; unfold value_le; cbn; lia|].
  apply (StronglySorted_merge_sort value_le).
Qed.

(** ** Loops under a budget

    [gives m ids]: what [m] finds is among [ids], and is [ids] when it says it is
    complete. [finishes m]: while no deadline passes, [m] is complete. *)

Definition calm (b : Budget) : Prop := bg_timed_out b = false.
Definition gives (m : Q Found) (ids : gset EntityId) : Prop :=
  ∀ b, (m b).1.1 ⊆ ids ∧ ((m b).1.2 = true → (m b).1.1 = ids).
Definition finishes (m : Q Found) : Prop := ∀ b, calm b → (m b).1.2 = true ∧ calm (m b).2.

Definition payload {S} (r : Flow S) : S := match r with Next s | Stop s => s end.
Definition goes_on {S} (r : Flow S) : bool := match r with Next _ => true | Stop _ => false end.

(** What the bodies of the loops do: an element [x] adds at most [g x], and all
    of it unless the result says it is not complete. *)
Definition body_gives {A} (body : A → Found → Q (Flow Found)) (g : A → gset EntityId) : Prop :=
  ∀ x s b, let r := (body x s b).1 in
    s.1 ⊆ (payload r).1 ∧ (payload r).1 ⊆ s.1 ∪ g x ∧
    ((payload r).2 = true → s.2 = true ∧ goes_on r = true ∧ (payload r).1 = s.1 ∪ g x).
(** Within [U] a calm body stays calm and complete. *)
Definition body_finishes {A} (body : A → Found → Q (Flow Found)) (g : A → gset EntityId)
    (U : gset EntityId) : Prop :=
  ∀ x s b, calm b → s.2 = true → s.1 ⊆ U → g x ⊆ U →
    goes_on (body x s b).1 = true ∧ (payload (body x s b).1).2 = true ∧ calm (body x s b).2.

Lemma each_cons {A S} (body : A → S → Q (Flow S)) x l s b :
  each body (x :: l) s b =
    match body x s b with
    | (Next s, b) => each body l s b
    | (Stop s, b) => ((s, false), b)
    end.
Proof. cbn [each]. unfold mbind, Q_bind. by destruct (body x s b) as [[] ?]. Qed.

Lemma each_gives {A} (body : A → Found → Q (Flow Found)) g l s b :
  body_gives body g →
  let r := (each body l s b).1 in
  s.1 ⊆ r.1.1 ∧ r.1.1 ⊆ s.1 ∪ ⋃ (g <$> l) ∧
  (r.1.2 = true → s.2 = true ∧ r.2 = true ∧ r.1.1 = s.1 ∪ ⋃ (g <$> l)).
Proof.
  intros G. cbv zeta. revert s b. induction l as [|x l IH]; intros s b.
  { change (each body [] s b) with ((s, true), b). cbn [fst snd]. rewrite fmap_nil, union_list_nil.
    rewrite (union_empty_r_L s.1). done. }
  rewrite each_cons, fmap_cons, union_list_cons, (assoc_L (∪)). destruct (G x s b) as (G1 & G2 & G3).
  destruct (body x s b) as [[s'|s'] b']; cbn [fst snd payload goes_on] in *.
  - destruct (IH s' b') as (I1 & I2 & I3). split; [by etrans|]. split.
    + etrans; [done|]. by apply union_mono_r.
    + intros H. destruct (I3 H) as (H1 & H2 & ->). destruct (G3 H1) as (? & _ & ->). done.
  - split; [done|]. split; [etrans; [done|apply union_subseteq_l]|]. intros H.
    destruct (G3 H) as (_ & ? & _). done.
Qed.

Lemma each_finishes {A} (body : A → Found → Q (Flow Found)) g U l s b :
  body_gives body g → body_finishes body g U →
  calm b → s.2 = true → s.1 ∪ ⋃ (g <$> l) ⊆ U →
  (each body l s b).1.2 = true ∧ (each body l s b).1.1.2 = true ∧ calm (each body l s b).2.
Proof.
  intros G F. revert s b. induction l as [|x l IH]; intros s b Hb Hs; [done|].
  rewrite each_cons, fmap_cons, union_list_cons, (assoc_L (∪)). intros HU.
  destruct (G x s b) as (_ & G2 & _).
  assert (s.1 ∪ g x ⊆ U) as Hx by (etrans; [apply union_subseteq_l|exact HU]).
  destruct (F x s b) as (F1 & F2 & F3); [done..|set_solver|set_solver|].
  destruct (body x s b) as [[s'|s'] b']; cbn [fst snd payload goes_on] in *; [|done].
  apply IH; [done..|]. etrans; [|exact HU]. by apply union_mono_r.
Qed.

Section loops.
Context `{!FstLib}.
Variable expired : nat → bool.
Variable index : BelIndex.
Notation tick := (tick expired index).

Lemma tick_calm b : (∀ n, expired n = false) → calm b → (tick b).1 = true ∧ calm (tick b).2.
Proof.
  intros X C. unfold BelQuery.tick. rewrite C. case_match; [|done]. by rewrite X.
Qed.

(** A ticked step that adds [g x]. *)
Lemma ticked_gives {A} (f : A → Found → Flow Found) g :
  (∀ x s, f x s = Next (s.1 ∪ g x, s.2)) → body_gives (ticked expired index incomplete f) g.
Proof.
  intros F x s b. unfold ticked, mbind, Q_bind. destruct (tick b) as [ok b'].
  destruct ok; cbn [mret Q_ret fst snd payload goes_on incomplete]; [rewrite F|];
    cbn [payload goes_on fst snd]; [|split; [done|split; [apply union_subseteq_l|done]]].
  split; [apply union_subseteq_l|done].
Qed.
Lemma ticked_finishes {A} (f : A → Found → Flow Found) g U :
  (∀ x s, f x s = Next (s.1 ∪ g x, s.2)) → (∀ n, expired n = false) →
  body_finishes (ticked expired index incomplete f) g U.
Proof.
  intros F X x s b C Hs _ _. unfold ticked, mbind, Q_bind.
  destruct (tick_calm b X C) as [T C']. destruct (tick b) as [ok b']. cbn in *. subst ok. by rewrite F.
Qed.

(** The test before the tick, [if !complete || !budget.tick()]. *)
Lemma when_complete_gives {A} (f : A → Found → Flow Found) g :
  (∀ x s, f x s = Next (s.1 ∪ g x, s.2)) → body_gives (when_complete expired index f) g.
Proof.
  intros F x s b. unfold when_complete. destruct s as [ids [|]]; cbn [snd negb].
  - by apply ticked_gives.
  - cbn [mret Q_ret fst snd payload goes_on]. split; [done|split; [apply union_subseteq_l|done]].
Qed.
Lemma when_complete_finishes {A} (f : A → Found → Flow Found) g U :
  (∀ x s, f x s = Next (s.1 ∪ g x, s.2)) → (∀ n, expired n = false) →
  body_finishes (when_complete expired index f) g U.
Proof.
  intros F X x s b C Hs. unfold when_complete. rewrite Hs. by apply ticked_finishes.
Qed.
End loops.

(** The unions of the loops. *)
Lemma union_singletons (l : list EntityId) : ⋃ ((λ x, {[x]} : gset EntityId) <$> l) = list_to_set l.
Proof. induction l as [|x l IH]; [done|]. rewrite fmap_cons, union_list_cons, IH. done. Qed.
Lemma elem_of_union_fmap {A} (g : A → gset EntityId) l i : i ∈ ⋃ (g <$> l) ↔ ∃ x, x ∈ l ∧ i ∈ g x.
Proof. rewrite elem_of_union_list. setoid_rewrite list_elem_of_fmap. naive_solver. Qed.

(** ** Well-formed indexes and overlays *)

Section wf.
Context `{!FstLib}.
Variable index : BelIndex.

Definition exact_postings (text : string) : gset EntityId :=
  default ∅ (i ← fst_get (nf_map (name_fst index)) text; nf_postings (name_fst index) !! Z.to_nat i).

Record wf_index : Prop := mkWfIndex {
  wi_ids i e : entities index !! i = Some e → en_id e = i;
  wi_texts : normalized index = map (λ e, normalize_ascii (en_display e)) (entities index);
  wi_sorted : StronglySorted (λ x y, str_le (text_at index x) (text_at index y))
                (sorted_ids (name_fst index));
  wi_all : sorted_ids (name_fst index) ≡ₚ seq 0 (length (entities index));
  wi_names text id : id ∈ exact_postings text ↔ normalized index !! id = Some text;
  wi_kinds k id :
    id ∈ default ∅ (kind_postings index !! k) ↔ ∃ e, entities index !! id = Some e ∧ en_kind e = k;
  wi_syncmer_params : 0 < syn_s (syncmer_postings index) < syn_k (syncmer_postings index);
  wi_syncmers h id : syn_complete (syncmer_postings index) = true →
    id ∈ default ∅ (syn_map (syncmer_postings index) !! h) ↔
      ∃ text, normalized index !! id = Some text ∧
        h ∈ closed_syncmer_hashes text (syn_k (syncmer_postings index)) (syn_s (syncmer_postings index));
  wi_numeric : StronglySorted (λ x y : Z * EntityId, (x.1 ≤ y.1)%Z) (numeric index);
  wi_tokens token id : token ≠ "" →
    id ∈ default ∅ (token_postings index !! token) ↔
      ∃ e, e ∈ entities index ∧ en_kind e = EntityKind.Instruction ∧
        has_token token (text_at index (en_id e)) = true ∧
        (id = en_id e ∨ en_func_entry e ≫= (function_by_va index !!.) = Some id);
  wi_functions va id : function_by_va index !! va = Some id →
    ∃ e, entities index !! id = Some e ∧ en_kind e = EntityKind.Function ∧ en_va e = Some va;
  wi_slots k id : slots index !! k = Some id →
    ∃ e, entities index !! id = Some e ∧ en_kind e ≠ EntityKind.Function ∧
      en_kind e ≠ EntityKind.Instruction;
  wi_slots_inj k k' id : slots index !! k = Some id → slots index !! k' = Some id → k = k'
}.

(** A name of the overlay, by the text it has there. *)
Definition overlay_name (o : Overlay) (id : EntityId) (text : string) : Prop :=
  normalized_overrides o !! id = Some text ∨
  ∃ i, id = base_entity_count o + i ∧ ov_normalized o !! i = Some text.

Record wf_overlay (o : Overlay) : Prop := mkWfOverlay {
  wo_base : base_entity_count o = length (entities index);
  wo_ids i e : ov_entities o !! i = Some e → en_id e = base_entity_count o + i;
  wo_texts : ov_normalized o = map (λ e, normalize_ascii (en_display e)) (ov_entities o);
  wo_names_sound text id : id ∈ default ∅ (ov_names o !! text) → overlay_name o id text;
  wo_names_all text id : id ∉ tombstones o → overlay_name o id text →
    id ∈ default ∅ (ov_names o !! text);
  wo_overrides : normalized_overrides o = normalize_ascii <$> display_overrides o;
  wo_surface : surface_tombstones o = dom (display_overrides o);
  wo_override_base id : id ∈ surface_tombstones o → id < base_entity_count o;
  wo_numeric : StronglySorted (λ x y : Z * EntityId, (x.1 ≤ y.1)%Z) (ov_numeric o)
}.
Lemma wo_names o text id : wf_overlay o → id ∉ tombstones o →
  id ∈ default ∅ (ov_names o !! text) ↔ overlay_name o id text.
Proof. intros W T. split; [by apply wo_names_sound|by apply wo_names_all]. Qed.
End wf.
