(* ===== verification/BelSurface.v ===== *)
(** The surface modes of the evidence index: each collector against the
    definition of its matches. [BelSurface.exact] and its likes say what a collector
    finds on any budget; [collect_surface_gives] puts them together. *)

From Stdlib Require Import Strings.Ascii Strings.String.
From S2P Require Import Prelude Text Data Ops Activity MemoryMap Cfg CfgFrontier Bel BelQuery BelFacts.

Local Open Scope string_scope.
Local Open Scope list_scope.
Local Open Scope nat_scope.

(** ** Regular expressions *)

(** The expressions whose reading is fixed here: ASCII literals (escaped where
    they are special), any character, anchors, classes of letters and digits,
    groups, sequences, alternatives, and the three plain repetitions. *)
Inductive Re :=
  | ReEmpty
  | ReLit (c : ascii)
  | ReAny
  | ReStart
  | ReEnd
  | ReClass (negated : bool) (items : list (ascii * ascii))
  | ReGroup (r : Re)
  | ReSeq (r1 r2 : Re)
  | ReAlt (r1 r2 : Re)
  | ReStar (r : Re)
  | RePlus (r : Re)
  | ReOpt (r : Re).

Definition special (c : ascii) : bool := one_of ".+()[]{}^$|*?\" c.
Definition class_char (c : ascii) : bool :=
  let n := nat_of_ascii c in
  bool_decide (48 ≤ n ≤ 57 ∨ 65 ≤ n ≤ 90 ∨ 97 ≤ n ≤ 122).

(** How an expression is written. *)
Definition item_text (x : ascii * ascii) : string :=
  if Ascii.eqb x.1 x.2 then String x.1 "" else String x.1 (String "-" (String x.2 "")).
Fixpoint re_text (r : Re) : string :=
  match r with
  | ReEmpty => ""
  | ReLit c => if special c then String "\" (String c "") else String c ""
  | ReAny => "."
  | ReStart => "^"
  | ReEnd => "$"
  | ReClass negated items =>
      "[" +:+ (if negated then "^" else "") +:+ foldr (λ x s, item_text x +:+ s) "" items +:+ "]"
  | ReGroup r => "(" +:+ re_text r +:+ ")"
  | ReSeq r1 r2 => re_text r1 +:+ re_text r2
  | ReAlt r1 r2 => re_text r1 +:+ "|" +:+ re_text r2
  | ReStar r => re_text r +:+ "*"
  | RePlus r => re_text r +:+ "+"
  | ReOpt r => re_text r +:+ "?"
  end.

(** What binds it: 0 what can be repeated, 1 a sequence, 2 an alternative. *)
Definition re_level (r : Re) : nat :=
  match r with
  | ReLit _ | ReAny | ReStart | ReEnd | ReClass _ _ | ReGroup _ => 0
  | ReEmpty | ReSeq _ _ | ReStar _ | RePlus _ | ReOpt _ => 1
  | ReAlt _ _ => 2
  end.
(** Written so, it is read back as it is. *)
Fixpoint re_wf (r : Re) : Prop :=
  match r with
  | ReEmpty | ReAny | ReStart | ReEnd => True
  | ReLit c => nat_of_ascii c < 128
  | ReClass _ items => items ≠ [] ∧
      Forall (λ x, class_char x.1 = true ∧ class_char x.2 = true ∧ nat_of_ascii x.1 ≤ nat_of_ascii x.2) items
  | ReGroup r => re_wf r
  | ReSeq r1 r2 => re_wf r1 ∧ re_wf r2 ∧ re_level r1 ≤ 1 ∧ re_level r2 ≤ 1
  | ReAlt r1 r2 => re_wf r1 ∧ re_wf r2
  | ReStar r | RePlus r | ReOpt r => re_wf r ∧ re_level r = 0
  end.

(** Letters of either case are the same. *)
Definition same_letter (c d : ascii) : Prop := to_ascii_lowercase c = to_ascii_lowercase d.
Definition in_item (c : ascii) (x : ascii * ascii) : Prop :=
  ∃ d, same_letter c d ∧ nat_of_ascii x.1 ≤ nat_of_ascii d ≤ nat_of_ascii x.2.

(** The texts an expression matches. Where anchors hold is left open. *)
Inductive re_match : Re → string → Prop :=
  | match_empty : re_match ReEmpty ""
  | match_lit c d : same_letter c d → re_match (ReLit c) (String d "")
  | match_any d : re_match ReAny (String d "")
  | match_start : re_match ReStart ""
  | match_end : re_match ReEnd ""
  | match_class negated items d :
      (negated = false ↔ ∃ x, x ∈ items ∧ in_item d x) → re_match (ReClass negated items) (String d "")
  | match_group r y : re_match r y → re_match (ReGroup r) y
  | match_seq r1 r2 y1 y2 : re_match r1 y1 → re_match r2 y2 → re_match (ReSeq r1 r2) (y1 +:+ y2)
  | match_left r1 r2 y : re_match r1 y → re_match (ReAlt r1 r2) y
  | match_right r1 r2 y : re_match r2 y → re_match (ReAlt r1 r2) y
  | match_star_none r : re_match (ReStar r) ""
  | match_star_more r y1 y2 : re_match r y1 → re_match (ReStar r) y2 → re_match (ReStar r) (y1 +:+ y2)
  | match_plus r y1 y2 : re_match r y1 → re_match (ReStar r) y2 → re_match (RePlus r) (y1 +:+ y2)
  | match_opt_none r : re_match (ReOpt r) ""
  | match_opt_some r y : re_match r y → re_match (ReOpt r) y.

(** What the library documents of them: a text that matches has a part the
    expression describes. *)
Class RegexLaws `{RL : !RegexLib} := {
  regex_found r is_match d : re_wf r → regex_new (re_text r) = inr is_match → is_match d = true →
    ∃ x y z, d = x +:+ y +:+ z ∧ re_match r y
}.

(** A required literal is in every match. *)
Definition literal_honoured (pattern : string) (is_match : string → bool) : Prop :=
  ∀ literal d, required_regex_literal pattern = Some literal → is_match d = true →
    contains (normalize_ascii literal) (normalize_ascii d) = true.

(** *** The literal of an expression *)

(** The literals collected are in the text, and the one being read ends it. *)
Definition run_inv (w current : string) (runs : list string) : Prop :=
  (∀ run, run ∈ runs → contains (normalize_ascii run) (normalize_ascii w) = true) ∧
  ∃ u, normalize_ascii w = u +:+ normalize_ascii current.

Lemma app_str_assoc a b c : (a +:+ b) +:+ c = a +:+ (b +:+ c).
Proof. induction a as [|x a IH]; [done|]. change (String x ((a +:+ b) +:+ c) = String x (a +:+ (b +:+ c))). by rewrite IH. Qed.
Lemma app_str_nil a : a +:+ "" = a.
Proof. induction a as [|x a IH]; [done|]. change (String x (a +:+ "") = String x a). by rewrite IH. Qed.

Lemma contains_grow p s y : contains p s = true → contains p (s +:+ y) = true.
Proof. rewrite !contains_app. intros (a & r & ->). exists a, (r +:+ y). by rewrite !app_str_assoc. Qed.

Lemma runs_grow w y (runs : list string) :
  (∀ run, run ∈ runs → contains (normalize_ascii run) (normalize_ascii w) = true) →
  ∀ run, run ∈ runs → contains (normalize_ascii run) (normalize_ascii (w +:+ y)) = true.
Proof. intros H run Hr. rewrite normalize_app. by apply contains_grow, H. Qed.

(** Ending the literal being read. *)
Lemma flush_inv w y current runs : run_inv w current runs → run_inv (w +:+ y) "" (flush current runs).
Proof.
  intros [R [u E]]. split; [|exists (normalize_ascii (w +:+ y)); cbn [normalize_ascii]; by rewrite app_str_nil].
  apply runs_grow. unfold flush. destruct (is_empty_str current); [done|].
  intros run [?| ->%list_elem_of_singleton]%elem_of_app; [by apply R|].
  rewrite E, contains_app. exists u, "". by rewrite app_str_nil.
Qed.
Lemma flush_none runs : flush "" runs = runs.
Proof. done. Qed.
Lemma lit_inv w c d current runs :
  same_letter c d → run_inv w current runs → run_inv (w +:+ String d "") (current +:+ String c "") runs.
Proof.
  intros S [R [u E]]. split; [by apply runs_grow|]. exists u. rewrite !normalize_app, E, app_str_assoc.
  do 2 f_equal. cbn [normalize_ascii]. by rewrite S.
Qed.

(** No alternative and no repetition that may be none. *)
Definition plain_text (s : string) : bool := negb (existsb (one_of "|*?{") (list_ascii_of_string s)).
Lemma plain_app a b : plain_text (a +:+ b) = plain_text a && plain_text b.
Proof.
  unfold plain_text. rewrite <-negb_orb. f_equal. induction a as [|c a IH]; [done|].
  change (one_of "|*?{" c || existsb (one_of "|*?{") (list_ascii_of_string (a +:+ b)) =
    (one_of "|*?{" c || existsb (one_of "|*?{") (list_ascii_of_string a)) || existsb (one_of "|*?{") (list_ascii_of_string b)).
  by rewrite IH, orb_assoc.
Qed.

(** A character read as itself. *)
Lemma plain_char c : special c = false → plain_text (String c "") = true →
  Ascii.eqb c "[" = false ∧ Ascii.eqb c "\" = false ∧ one_of ".+()^$" c = false.
Proof.
  unfold special, one_of. cbn [list_ascii_of_string existsb]. intros H _.
  repeat match type of H with (_ || _ = false) => apply orb_false_iff in H as [? H] end.
  split_and!; [done..|]. by repeat (apply orb_false_iff; split).
Qed.
Lemma class_chars_skip (items : list (ascii * ascii)) (negated : bool) rest runs :
  Forall (λ x, class_char x.1 = true ∧ class_char x.2 = true ∧ nat_of_ascii x.1 ≤ nat_of_ascii x.2) items →
  literal_runs true "" runs
    (((if negated then "^" else "") +:+ foldr (λ x s, item_text x +:+ s) "" items +:+ "]") +:+ rest) =
  literal_runs false "" runs rest.
Proof.
  intros F.
  assert (∀ c s, c ≠ "]"%char → literal_runs true "" runs (String c s) = literal_runs true "" runs s) as Sk.
  { intros c s Hc. cbn [literal_runs]. by destruct (Ascii.eqb_spec c "]") as [->|]. }
  assert (∀ c, class_char c = true → c ≠ "]"%char) as Nb by (intros c Hc ->; by vm_compute in Hc).
  assert (literal_runs true "" runs (((foldr (λ x s, item_text x +:+ s) "" items) +:+ "]") +:+ rest) =
    literal_runs false "" runs rest) as H.
  { induction F as [|x items (H1 & H2 & _) F IH]; [done|]. cbn [foldr]. unfold item_text at 1.
    destruct (Ascii.eqb x.1 x.2); rewrite !app_str_assoc in *.
    - match goal with |- literal_runs true "" runs (_ +:+ ?s) = _ =>
        change (literal_runs true "" runs (String x.1 s) = literal_runs false "" runs rest) end.
      rewrite Sk by auto. exact IH.
    - match goal with |- literal_runs true "" runs (_ +:+ ?s) = _ =>
        change (literal_runs true "" runs (String x.1 (String "-" (String x.2 s))) = literal_runs false "" runs rest) end.
      rewrite !Sk by auto. exact IH. }
  destruct negated; exact H.
Qed.

(** Reading an expression as the code does collects literals every match has. *)
Lemma literal_runs_re r : re_wf r → plain_text (re_text r) = true →
  ∀ current runs, ∃ current' runs',
    (∀ rest, literal_runs false current runs (re_text r +:+ rest) = literal_runs false current' runs' rest) ∧
    ∀ w y, re_match r y → run_inv w current runs → run_inv (w +:+ y) current' runs'.
Proof.
  assert (∀ w current runs, run_inv w current runs → run_inv (w +:+ "") current runs) as Nil
    by (intros; by rewrite app_str_nil).
  induction r as [|c| | | |negated items|r IH|r1 IH1 r2 IH2|r1 IH1 r2 IH2|r IH|r IH|r IH];
    cbn [re_wf re_text]; intros W P current runs.
  - exists current, runs. split; [done|]. intros w y M. inversion M; subst. apply Nil.
  - exists (current +:+ String c ""), runs. split.
    + intros rest. destruct (special c) eqn:S.
      * change (literal_runs false current runs (String "\" (String c rest)) =
          literal_runs false (current +:+ String c "") runs rest).
        cbn [literal_runs]. cbn [Ascii.eqb Bool.eqb]. unfold special in S. by rewrite S.
      * destruct (plain_char c S P) as (E1 & E2 & E3).
        change (literal_runs false current runs (String c rest) =
          literal_runs false (current +:+ String c "") runs rest).
        cbn [literal_runs]. by rewrite E1, E2, E3.
    + intros w y M. inversion M; subst. by apply lit_inv.
  - exists "", (flush current runs). split; [done|]. intros w y _. apply flush_inv.
  - exists "", (flush current runs). split; [done|]. intros w y _. apply flush_inv.
  - exists "", (flush current runs). split; [done|]. intros w y _. apply flush_inv.
  - exists "", (flush current runs). split; [|intros w y _; apply flush_inv]. destruct W as [_ W].
    intros rest. rewrite app_str_assoc. change ("[" +:+ ?s) with (String "[" s).
    by apply (class_chars_skip items negated rest (flush current runs)).
  - rewrite !plain_app, !andb_true_iff in P. destruct P as (_ & P & _).
    destruct (IH W P "" (flush current runs)) as (current' & runs' & E & I).
    exists "", (flush current' runs'). split.
    + intros rest. rewrite !app_str_assoc.
      transitivity (literal_runs false "" (flush current runs) (re_text r +:+ (")" +:+ rest))); [done|]. by rewrite E.
    + intros w y M Iv. inversion M; subst. rewrite <-(app_str_nil (w +:+ y)). apply flush_inv.
      apply I; [done|]. rewrite <-(app_str_nil w). by apply flush_inv.
  - destruct W as (W1 & W2 & _). rewrite plain_app, andb_true_iff in P. destruct P as [P1 P2].
    destruct (IH1 W1 P1 current runs) as (c1 & l1 & E1 & I1). destruct (IH2 W2 P2 c1 l1) as (c2 & l2 & E2 & I2).
    exists c2, l2. split.
    + intros rest. by rewrite app_str_assoc, E1, E2.
    + intros w y M Iv. inversion M; subst. rewrite <-app_str_assoc. apply I2; [done|]. by apply I1.
  - rewrite !plain_app, !andb_true_iff in P. destruct P as (_ & P & _). by vm_compute in P.
  - rewrite plain_app, andb_true_iff in P. destruct P as (_ & P). by vm_compute in P.
  - destruct W as [W _]. rewrite plain_app, andb_true_iff in P. destruct P as (P & _).
    destruct (IH W P current runs) as (current' & runs' & E & I). exists "", (flush current' runs'). split.
    + intros rest. rewrite app_str_assoc, E. done.
    + intros w y M Iv. inversion M; subst. rewrite <-app_str_assoc. apply flush_inv. by apply I.
  - rewrite plain_app, andb_true_iff in P. destruct P as (_ & P). by vm_compute in P.
Qed.

Lemma longest_in l s : longest l = Some s → s ∈ l.
Proof.
  unfold longest. enough (∀ best, foldl (λ best s, match best with
      | Some b => if decide (String.length s < String.length b) then Some b else Some s
      | None => Some s end) best l = Some s → best = Some s ∨ s ∈ l) as H by (intros E; by apply H in E as [|]).
  induction l as [|x l IH]; intros best; cbn [foldl]; [by left|]. intros E%IH. rewrite elem_of_cons.
  destruct E as [E|?]; [|tauto]. destruct best as [b|]; [case_decide|]; simplify_eq; auto.
Qed.

(** The literal required of an expression is in every text that matches it. *)
Lemma required_honoured `{RL : !RegexLib, RW : !RegexLaws} r is_match :
  re_wf r → regex_new (re_text r) = inr is_match → literal_honoured (re_text r) is_match.
Proof.
  intros W R literal d E M. unfold required_regex_literal in E. destruct (negb (is_ascii_str _)); [done|].
  destruct (existsb _ _) eqn:P; [done|]. apply bind_Some in E as (runs & Er & E).
  apply bind_Some in E as (run & El & E). case_decide; [|done]. injection E as <-.
  destruct (regex_found r is_match d W R M) as (x & y & z & -> & My).
  destruct (literal_runs_re r W) with (current := "") (runs := @nil string) as (c & l & Eq & I).
  { unfold plain_text. by rewrite P. }
  specialize (Eq ""). rewrite app_str_nil, Er in Eq. cbn [literal_runs] in Eq. injection Eq as ->.
  assert (run_inv y c l) as Iv.
  { apply (I "" y My). split; [by intros ? ?%not_elem_of_nil|by exists ""]. }
  destruct (flush_inv y "" c l Iv) as [C _]. rewrite app_str_nil in C.
  specialize (C run (longest_in _ _ El)). rewrite contains_app in C. destruct C as (u & v & C).
  rewrite !normalize_app, C, contains_app. exists (normalize_ascii x +:+ u), (v +:+ normalize_ascii z).
  by rewrite !app_str_assoc.
Qed.

Section surface.
Context `{FL : !FstLib, RL : !RegexLib}.
Variable expired : nat → bool.
Variable index : BelIndex.
Variable o : Overlay.
Hypothesis WI : wf_index index.
Hypothesis WO : wf_overlay index o.

Notation text_of := (normalized_of index o).

(** ** Reading *)

Lemma live_iff id : live index o id = true ↔ id ∉ tombstones o ∧ id < base_entity_count o + length (ov_entities o).
Proof.
  unfold live. rewrite bool_decide_eq_true. unfold entity. case_decide as D; [split; [by intros []|tauto]|].
  unfold own_entity. rewrite (wo_base _ _ WO).
  destruct (entities index !! id) as [e|] eqn:E.
  - apply lookup_lt_Some in E. split; [split; [done|lia]|eauto].
  - apply lookup_ge_None in E. case_decide; [lia|]. rewrite lookup_lt_is_Some. intuition lia.
Qed.

Lemma surface_override id : id ∈ surface_tombstones o ↔ is_Some (normalized_overrides o !! id).
Proof.
  rewrite (wo_surface _ _ WO), elem_of_dom, (wo_overrides _ _ WO), lookup_fmap.
  by rewrite fmap_is_Some.
Qed.

(** The text of a live entity: overridden, of the index, or of the overlay. *)
Lemma text_of_live id text : id ∉ tombstones o →
  text_of id = Some text ↔
    overlay_name o id text ∨ (id ∉ surface_tombstones o ∧ normalized index !! id = Some text).
Proof.
  intros T. unfold normalized_of, overlay_name, own_normalized. rewrite surface_override.
  destruct (normalized_overrides o !! id) as [t|] eqn:E.
  { split; [naive_solver|]. intros [[?|(i & -> & _)]|[H _]]; [done| |by destruct H].
    assert (base_entity_count o + i ∈ surface_tombstones o) as S by (by apply surface_override).
    apply (wo_override_base _ _ WO) in S. lia. }
  assert (length (normalized index) = base_entity_count o) as L.
  { by rewrite (wi_texts _ WI), length_map, (wo_base _ _ WO). }
  assert (¬ is_Some (None (A := string))) as N by (by intros []).
  case_decide as D.
  - rewrite decide_False by done. split.
    + intros H. by right.
    + intros [[?|(i & -> & _)]|[_ H]]; [done|lia|done].
  - split.
    + intros H. left. right. exists (id - base_entity_count o). split; [lia|done].
    + intros [[?|(i & -> & H)]|[_ H]]; [done| |].
      * by replace (base_entity_count o + i - base_entity_count o) with i by lia.
      * apply lookup_lt_Some in H. lia.
Qed.

Lemma text_at_lookup id text : normalized index !! id = Some text → text_at index id = text.
Proof. unfold text_at. by intros ->. Qed.
Lemma text_at_some id : id < length (entities index) → normalized index !! id = Some (text_at index id).
Proof.
  intros L. unfold text_at. destruct (lookup_lt_is_Some_2 (normalized index) id) as [t ->]; [|done].
  by rewrite (wi_texts _ WI), length_map.
Qed.

(** What the collectors of names are to find: the live entities whose text
    passes a test. Entities that are not live may be among what they find; every
    reader skips them. *)
Definition passes (test : string → bool) (id : EntityId) : Prop :=
  ∃ text, text_of id = Some text ∧ test text = true.
(** As sets: from the overlay, and from the index. *)
Definition overlay_hits (test : string → bool) : gset EntityId :=
  ⋃ ((λ e, if test e.2 then {[e.1]} else ∅) <$> id_entries (normalized_overrides o)) ∪
  ⋃ ((λ e, if test e.2 then {[e.1]} else ∅) <$> overlay_texts o).
Definition base_hits (test : string → bool) : gset EntityId :=
  ⋃ ((λ id, if hidden o id then ∅ else
            if test (text_at index id) then {[id]} else ∅) <$> seq 0 (length (entities index))).

Lemma elem_of_id_entries {A} (m : gmap EntityId A) k x : (k, x) ∈ id_entries m ↔ m !! k = Some x.
Proof.
  unfold id_entries. rewrite list_elem_of_omap. split.
  - intros (k' & Hk & E). destruct (m !! k') eqn:Em; [|done]. by simplify_eq/=.
  - intros E. exists k. rewrite E. split; [|done]. apply elem_of_ascending. by apply elem_of_dom_2 in E.
Qed.
Lemma elem_of_overlay_hits test id :
  id ∈ overlay_hits test ↔ ∃ text, overlay_name o id text ∧ test text = true.
Proof.
  unfold overlay_hits. rewrite elem_of_union, !elem_of_union_fmap. unfold overlay_name, overlay_texts. split.
  - intros [([k t] & H & Ht)|([k t] & H & Ht)]; destruct (test t) eqn:E; simpl in Ht; rewrite E in Ht; try set_solver;
      apply elem_of_singleton in Ht as ->; exists t; (split; [|done]).
    + left. by apply elem_of_id_entries.
    + right. apply elem_of_lookup_imap in H as (i & t' & E' & H). simplify_eq. eauto.
  - intros (t & [H|(i & -> & H)] & Ht).
    + left. exists (id, t). split; [by apply elem_of_id_entries|]. simpl. rewrite Ht. set_solver.
    + right. exists (base_entity_count o + i, t). split; [|simpl; rewrite Ht; set_solver].
      apply elem_of_lookup_imap. eauto.
Qed.
Lemma elem_of_base_hits test id :
  id ∈ base_hits test ↔
    id < length (entities index) ∧ hidden o id = false ∧ test (text_at index id) = true.
Proof.
  unfold base_hits. rewrite elem_of_union_fmap. split.
  - intros (x & Hx%elem_of_seq & H). destruct (hidden o x) eqn:Eh; [set_solver|].
    destruct (test _) eqn:Et; [|set_solver]. apply elem_of_singleton in H as ->. split; [lia|done].
  - intros (L & Hh & Ht). exists id. rewrite Hh, Ht. split; [apply elem_of_seq; lia|set_solver].
Qed.
Lemma hidden_false id : hidden o id = false ↔ id ∉ tombstones o ∧ id ∉ surface_tombstones o.
Proof. unfold hidden. rewrite bool_decide_eq_false. tauto. Qed.

(** Together they are the live entities that pass. *)
Lemma hits_pass test id : live index o id = true →
  id ∈ overlay_hits test ∪ base_hits test ↔ passes test id.
Proof.
  intros [T _]%live_iff. rewrite elem_of_union, elem_of_overlay_hits, elem_of_base_hits, hidden_false.
  unfold passes. split.
  - intros [(t & N & P)|(L & [_ S] & P)].
    + exists t. split; [|done]. apply text_of_live; auto.
    + exists (text_at index id). split; [|done]. apply text_of_live; [done|]. right. split; [done|].
      by apply text_at_some.
  - intros (t & H & P). apply text_of_live in H as [N|[S H]]; [| |done].
    + left. eauto.
    + right. rewrite (text_at_lookup _ _ H). split; [|done]. apply lookup_lt_Some in H.
      by rewrite (wi_texts _ WI), length_map in H.
Qed.

(** ** The collectors *)

Definition found_of (m : Q CandidateSet) : Q Found := c ← m; mret (cs_ids c, cs_complete c).

Lemma take_id_step : ∀ (x : EntityId) (s : Found), take_id x s = Next (s.1 ∪ {[x]}, s.2).
Proof. done. Qed.
Definition visible_id (id : EntityId) : gset EntityId := if hidden o id then ∅ else {[id]}.
Lemma take_visible_step x s : take_visible o x s = Next (s.1 ∪ visible_id x, s.2).
Proof.
  unfold take_visible, visible_id. destruct (hidden o x); [|done].
  rewrite (union_empty_r_L s.1). by destruct s.
Qed.
Definition chosen (test : string → bool) (e : EntityId * string) : gset EntityId :=
  if test e.2 then {[e.1]} else ∅.
Lemma take_if_step test e s : take_if test e s = Next (s.1 ∪ chosen test e, s.2).
Proof.
  unfold take_if, chosen. destruct (test e.2); [done|]. rewrite (union_empty_r_L s.1). by destruct s.
Qed.

(** What a loop adds, and that it finishes within [U]. *)
Definition loop_gives {A} (body : A → Found → Q (Flow Found)) (l : list A) (V : gset EntityId) : Prop :=
  ∀ s b, let r := (each body l s b).1.1 in
    r.1 ⊆ s.1 ∪ V ∧ (r.2 = true → s.2 = true ∧ r.1 = s.1 ∪ V).
Definition loop_finishes {A} (body : A → Found → Q (Flow Found)) (l : list A) (V U : gset EntityId) : Prop :=
  ∀ s b, calm b → s.2 = true → s.1 ∪ V ⊆ U →
    (each body l s b).1.1.2 = true ∧ calm (each body l s b).2.

Lemma body_loop {A} (body : A → Found → Q (Flow Found)) g l :
  body_gives body g → loop_gives body l (⋃ (g <$> l)).
Proof. intros G s b. destruct (each_gives body g l s b G) as (_ & E2 & E3). naive_solver. Qed.
Lemma body_loop_finishes {A} (body : A → Found → Q (Flow Found)) g l U :
  body_gives body g → body_finishes body g U → loop_finishes body l (⋃ (g <$> l)) U.
Proof. intros G F s b C Hs HU. destruct (each_finishes body g U l s b G F C Hs HU) as (_ & ? & ?). done. Qed.

(** A loop after what was found so far. *)
Lemma gives_each {A} (body : A → Found → Q (Flow Found)) l m U V :
  gives m U → loop_gives body l V →
  gives (s ← m; '(s, _) ← each body l s; mret s) (U ∪ V).
Proof.
  intros GM GB b. unfold mbind, Q_bind. destruct (GM b) as [M1 M2]. destruct (m b) as [s b1].
  cbn [fst snd] in *. destruct (GB s b1) as (E2 & E3).
  destruct (each body l s b1) as [[r t] b2]. cbn [fst snd mret Q_ret] in *. split.
  - etrans; [exact E2|]. by apply union_mono_r.
  - intros H. destruct (E3 H) as (H1 & ->). by rewrite M2.
Qed.
Lemma finishes_each {A} (body : A → Found → Q (Flow Found)) l m U V :
  gives m U → finishes m → loop_finishes body l V (U ∪ V) →
  finishes (s ← m; '(s, _) ← each body l s; mret s).
Proof.
  intros GM FM FB b C. unfold mbind, Q_bind. destruct (GM b) as [M1 _]. destruct (FM b C) as [M3 M4].
  destruct (m b) as [s b1]. cbn [fst snd] in *.
  destruct (FB s b1 M4 M3) as (E2 & E3); [by apply union_mono_r|].
  by destruct (each body l s b1) as [[r t] b2].
Qed.
(** The same when the deadline in the first loop ends the search. *)
Lemma gives_guarded {A B} (body : A → Found → Q (Flow Found)) g l (body' : B → Found → Q (Flow Found)) l' V :
  body_gives body g → loop_gives body' l' V →
  gives ('(s, through) ← each body l (∅, true);
         if negb through then mret s else '(s, _) ← each body' l' s; mret s) (⋃ (g <$> l) ∪ V).
Proof.
  intros G G' b. unfold mbind, Q_bind. destruct (each_gives body g l (∅, true) b G) as (_ & E2 & E3).
  destruct (each body l (∅, true) b) as [[s t] b1]. cbn [fst snd] in *.
  rewrite (union_empty_l_L (⋃ (g <$> l))) in E2, E3. destruct t; cbn [negb].
  - destruct (G' s b1) as (F2 & F3). destruct (each body' l' s b1) as [[r t'] b2].
    cbn [fst snd mret Q_ret] in *. split.
    + etrans; [exact F2|]. by apply union_mono_r.
    + intros H. destruct (F3 H) as (H1 & ->). by destruct (E3 H1) as (_ & _ & ->).
  - cbn [fst snd mret Q_ret]. split; [etrans; [exact E2|apply union_subseteq_l]|].
    intros H. by destruct (E3 H) as (_ & ? & _).
Qed.
Lemma finishes_guarded {A B} (body : A → Found → Q (Flow Found)) g l (body' : B → Found → Q (Flow Found)) l' V :
  body_gives body g → body_finishes body g (⋃ (g <$> l) ∪ V) → loop_finishes body' l' V (⋃ (g <$> l) ∪ V) →
  finishes ('(s, through) ← each body l (∅, true);
         if negb through then mret s else '(s, _) ← each body' l' s; mret s).
Proof.
  intros G F F' b C. unfold mbind, Q_bind.
  destruct (each_gives body g l (∅, true) b G) as (_ & E2 & _).
  destruct (each_finishes body g _ l (∅, true) b G F C eq_refl) as (E1 & E3 & E4).
  { cbn [fst]. rewrite (union_empty_l_L (⋃ (g <$> l))). apply union_subseteq_l. }
  destruct (each body l (∅, true) b) as [[s t] b1]. cbn [fst snd] in *. subst t. cbn [negb].
  rewrite (union_empty_l_L (⋃ (g <$> l))) in E2.
  destruct (F' s b1 E4 E3) as (H1 & H2); [by apply union_mono_r|].
  by destruct (each body' l' s b1) as [[r t'] b2].
Qed.
Lemma gives_start : gives (mret (∅, true)) ∅.
Proof. done. Qed.
Lemma finishes_start : finishes (mret (∅, true)).
Proof. done. Qed.

Lemma at_safety_mono text (X Y : gset EntityId) :
  X ⊆ Y → at_safety index text Y = false → at_safety index text X = false.
Proof.
  unfold at_safety. rewrite !Z.leb_gt. intros S%subseteq_size. lia.
Qed.

Lemma gives_ext m m' U : (∀ b, m b = m' b) → gives m' U → gives m U.
Proof. intros E G b. rewrite E. apply G. Qed.
Lemma finishes_ext m m' : (∀ b, m b = m' b) → finishes m' → finishes m.
Proof. intros E G b C. rewrite E. by apply G. Qed.
Lemma gives_eq m U V : U = V → gives m U → gives m V.
Proof. by intros ->. Qed.

(** *** Exact *)

Definition exact_hits (text : string) : gset EntityId :=
  ⋃ ((λ x, {[x]}) <$> ascending (default ∅ (ov_names o !! text))) ∪
  ⋃ (visible_id <$> ascending (exact_postings index text)).
Lemma exact_chain text b :
  found_of (collect_exact expired index o text) b =
  ('(s, through) ← each (ticked expired index incomplete take_id)
                     (ascending (default ∅ (ov_names o !! text))) (∅, true);
   if negb through then mret s
   else '(s, _) ← each (ticked expired index incomplete (take_visible o)) (ascending (exact_postings index text)) s;
        mret s) b.
Proof.
  unfold found_of, collect_exact. fold (exact_postings index text). unfold mbind, Q_bind.
  pose proof (each_gives _ _ (ascending (default ∅ (ov_names o !! text))) (∅, true) b
    (ticked_gives expired index take_id _ take_id_step)) as (_ & _ & G).
  destruct (each _ _ _ b) as [[s t] b1]. cbn [fst snd] in G. destruct t; cbn [negb].
  - destruct (each _ _ s b1) as [[r t] b2]. cbn. by destruct r.
  - cbn. destruct s as [ids [|]]; [|done]. by destruct G as (_ & ? & _).
Qed.
Lemma exact_gives text : gives (found_of (collect_exact expired index o text)) (exact_hits text).
Proof.
  eapply gives_ext; [apply exact_chain|].
  apply gives_guarded; [apply ticked_gives, take_id_step|]. apply body_loop, ticked_gives, take_visible_step.
Qed.
Lemma exact_finishes text : (∀ n, expired n = false) →
  finishes (found_of (collect_exact expired index o text)).
Proof.
  intros X. eapply finishes_ext; [apply exact_chain|].
  apply (finishes_guarded _ (λ x, {[x]}) _ _ _ (⋃ (visible_id <$> ascending (exact_postings index text))));
    [apply ticked_gives, take_id_step|apply ticked_finishes; [apply take_id_step|done]|].
  apply body_loop_finishes; [apply ticked_gives, take_visible_step|].
  apply ticked_finishes; [apply take_visible_step|done].
Qed.
Lemma exact_spec text id : live index o id = true →
  id ∈ exact_hits text ↔ passes (λ t, String.eqb t text) id.
Proof.
  intros L. rewrite <-hits_pass by done. apply live_iff in L as [T _].
  unfold exact_hits. rewrite !elem_of_union. apply Morphisms_Prop.or_iff_morphism.
  - rewrite union_singletons, elem_of_list_to_set, elem_of_ascending, (wo_names _ _ _ _ WO) by done.
    rewrite elem_of_overlay_hits. setoid_rewrite String.eqb_eq. naive_solver.
  - rewrite elem_of_union_fmap, elem_of_base_hits, String.eqb_eq. setoid_rewrite elem_of_ascending.
    setoid_rewrite (wi_names _ WI). unfold visible_id. split.
    + intros (x & Hx & H). destruct (hidden o x) eqn:Eh; [set_solver|]. apply elem_of_singleton in H as ->.
      split; [|split; [done|by apply text_at_lookup]].
      apply lookup_lt_Some in Hx. by rewrite (wi_texts _ WI), length_map in Hx.
    + intros (Lx & Eh & <-). exists id. rewrite Eh. split; [by apply text_at_some|set_solver].
Qed.

(** *** Substrings of the overlay *)

Lemma overlay_substring_gives text :
  gives (collect_overlay_substring expired index o text) (overlay_hits (contains text)).
Proof.
  apply gives_guarded; [apply ticked_gives, take_if_step|]. apply body_loop, ticked_gives, take_if_step.
Qed.
Lemma overlay_substring_finishes text : (∀ n, expired n = false) →
  finishes (collect_overlay_substring expired index o text).
Proof.
  intros X. apply (finishes_guarded _ (chosen (contains text)) _ _ _ (⋃ (chosen (contains text) <$> overlay_texts o)));
    [apply ticked_gives, take_if_step|apply ticked_finishes; [apply take_if_step|done]|].
  apply body_loop_finishes; [apply ticked_gives, take_if_step|].
  apply ticked_finishes; [apply take_if_step|done].
Qed.

Lemma name_entries_elem {A} (m : gmap string A) k x : (k, x) ∈ name_entries m ↔ m !! k = Some x.
Proof. unfold name_entries. rewrite merge_sort_Permutation. apply elem_of_map_to_list. Qed.

(** *** Prefixes *)

Definition name_part (test : string → bool) (e : string * gset EntityId) : gset EntityId :=
  if test e.1 then e.2 else ∅.
Lemma take_all_union (ids : gset EntityId) : ⋃ ((λ x, {[x]} : gset EntityId) <$> ascending ids) = ids.
Proof. rewrite union_singletons. apply set_eq. intros x. by rewrite elem_of_list_to_set, elem_of_ascending. Qed.

Lemma prefix_name_gives text : body_gives (prefix_name expired index text) (name_part (String.prefix text)).
Proof.
  intros e s b. unfold prefix_name, name_part, mbind, Q_bind. cbv zeta.
  destruct (tick expired index b) as [ok b1]. destruct ok; cbn [negb].
  2:{ cbn [mret Q_ret fst snd payload goes_on incomplete].
      split; [done|]. split; [apply union_subseteq_l|done]. }
  destruct (String.prefix text e.1); [|cbn [mret Q_ret fst snd payload goes_on];
    rewrite (union_empty_r_L s.1); done].
  destruct (each_gives _ _ (ascending e.2) s b1 (ticked_gives expired index take_id _ take_id_step)) as (E1 & E2 & E3).
  rewrite take_all_union in E2, E3.
  destruct (each _ _ s b1) as [[r t] b2]. cbn [fst snd] in *.
  destruct (at_safety index text r.1); cbn [mret Q_ret fst snd payload goes_on incomplete]; [done|].
  split; [done|]. split; [done|]. intros H. by destruct (E3 H) as (? & _ & ->).
Qed.
Lemma prefix_name_finishes text U : (∀ n, expired n = false) → at_safety index text U = false →
  body_finishes (prefix_name expired index text) (name_part (String.prefix text)) U.
Proof.
  intros X SU e s b C Hs HU Hg. unfold prefix_name, name_part, mbind, Q_bind in *.
  destruct (tick_calm expired index b X C) as [T C1]. destruct (tick expired index b) as [ok b1].
  cbn [fst snd] in T, C1. subst ok. cbn [negb].
  destruct (String.prefix text e.1); [|done].
  destruct (each_gives _ _ (ascending e.2) s b1 (ticked_gives expired index take_id _ take_id_step)) as (E1 & E2 & E3).
  destruct (each_finishes _ _ (s.1 ∪ e.2) (ascending e.2) s b1 (ticked_gives expired index take_id _ take_id_step)
              (ticked_finishes expired index take_id _ _ take_id_step X) C1 Hs) as (F1 & F2 & F3).
  { by rewrite take_all_union. }
  rewrite take_all_union in E2.
  destruct (each _ _ s b1) as [[r t] b2]. cbn [fst snd] in *.
  rewrite (at_safety_mono text r.1 U); [done| |done]. etrans; [exact E2|]. by apply union_subseteq.
Qed.

(** The walk over the sorted names from the first that is not below the text. *)
Definition base_part (test : string → bool) (id : EntityId) : gset EntityId :=
  if test (text_at index id) then visible_id id else ∅.
Lemma visible_step (id : EntityId) (s : Found) : (if hidden o id then s else found id s) = (s.1 ∪ visible_id id, s.2).
Proof.
  unfold visible_id. destruct (hidden o id); [|done]. rewrite (union_empty_r_L s.1). by destruct s.
Qed.
Definition sorted_names (l : list EntityId) : Prop :=
  StronglySorted (λ x y, str_le (text_at index x) (text_at index y)) l.
Lemma no_more_prefix text id l :
  sorted_names (id :: l) → str_lt (text_at index id) text = false →
  String.prefix text (text_at index id) = false →
  ⋃ (base_part (String.prefix text) <$> (id :: l)) = ∅.
Proof.
  intros S%StronglySorted_inv L P. destruct S as [_ S]. rewrite Forall_forall in S.
  apply set_eq. intros x. rewrite elem_of_union_fmap. split; [|by intros ?%not_elem_of_empty].
  intros (y & Hy & H). unfold base_part in H. destruct (String.prefix text (text_at index y)) eqn:E;
    [|by apply not_elem_of_empty in H].
  apply elem_of_cons in Hy as [->|Hy]; [congruence|].
  pose proof (prefix_between _ _ _ L (S y Hy) E). congruence.
Qed.
Lemma not_below_tail text id l : sorted_names (id :: l) → str_lt (text_at index id) text = false →
  ∀ y l', l = y :: l' → str_lt (text_at index y) text = false.
Proof.
  intros S%StronglySorted_inv L y l' ->. destruct S as [_ S]. apply Forall_cons in S as [S _].
  change (str_le text (text_at index y)). by trans (text_at index id).
Qed.
Lemma prefix_base_loop text l s b :
  sorted_names l → (∀ y l', l = y :: l' → str_lt (text_at index y) text = false) →
  let V := ⋃ (base_part (String.prefix text) <$> l) in
  let r := (each (prefix_base expired index o text) l s b).1.1 in
  r.1 ⊆ s.1 ∪ V ∧ (r.2 = true → s.2 = true ∧ r.1 = s.1 ∪ V).
Proof.
  revert s b. induction l as [|id l IH]; intros s b S L.
  { cbn zeta. change (each _ [] s b) with ((s, true), b). rewrite fmap_nil, union_list_nil.
    cbn [fst snd]. by rewrite (union_empty_r_L s.1). }
  rewrite each_cons. cbv zeta. specialize (L id l eq_refl). unfold prefix_base at 1 3 5.
  destruct (s.2) eqn:Es; cbn [negb];
    [|cbn [mret Q_ret fst snd]; rewrite Es; split; [apply union_subseteq_l|done]].
  unfold mbind, Q_bind. destruct (tick expired index b) as [ok b1].
  destruct ok; cbn [negb mret Q_ret fst snd incomplete]; [|split; [apply union_subseteq_l|done]].
  destruct (String.prefix text (text_at index id)) eqn:P; cbn [negb].
  2:{ rewrite no_more_prefix by done. rewrite (union_empty_r_L s.1). cbn [fst snd]. done. }
  rewrite fmap_cons, union_list_cons. unfold base_part at 1 3. rewrite P, visible_step. cbn [fst snd].
  rewrite (assoc_L (∪) s.1). destruct (at_safety index text _); cbn [fst snd incomplete];
    [split; [apply union_subseteq_l|done]|].
  apply StronglySorted_inv in S as S'. destruct S' as [S' _].
  destruct (IH (s.1 ∪ visible_id id, s.2) b1 S' (not_below_tail _ _ _ S L)) as [I1 I2].
  cbn [fst snd] in *. rewrite Es in *. done.
Qed.
Lemma prefix_base_finishes text U l s b : (∀ n, expired n = false) → at_safety index text U = false →
  sorted_names l → (∀ y l', l = y :: l' → str_lt (text_at index y) text = false) →
  calm b → s.2 = true → s.1 ∪ ⋃ (base_part (String.prefix text) <$> l) ⊆ U →
  (each (prefix_base expired index o text) l s b).1.1.2 = true ∧
  calm (each (prefix_base expired index o text) l s b).2.
Proof.
  intros X SU. revert s b. induction l as [|id l IH]; intros s b S L C Hs HU; [done|].
  rewrite each_cons. specialize (L id l eq_refl). unfold prefix_base at 1 3. rewrite Hs. cbn [negb].
  unfold mbind, Q_bind. destruct (tick_calm expired index b X C) as [T C1].
  destruct (tick expired index b) as [ok b1]. cbn [fst snd] in T, C1. subst ok.
  cbn [negb mret Q_ret].
  destruct (String.prefix text (text_at index id)) eqn:P; cbn [negb]; [|done].
  rewrite fmap_cons, union_list_cons in HU. unfold base_part at 1 in HU. rewrite P in HU.
  rewrite (assoc_L (∪) s.1) in HU. rewrite visible_step. cbn [fst snd].
  rewrite (at_safety_mono text _ U); [|etrans; [|exact HU]; apply union_subseteq_l|done].
  apply StronglySorted_inv in S as S'. destruct S' as [S' _].
  apply (IH (s.1 ∪ visible_id id, s.2) b1 S' (not_below_tail _ _ _ S L) C1 Hs). done.
Qed.

Lemma partition_split {A} (p : A → bool) l :
  Forall (λ x, p x = true) (take (partition_point p l) l) ∧
  (∀ y l', drop (partition_point p l) l = y :: l' → p y = false).
Proof.
  induction l as [|x l [I1 I2]]; [by split; [constructor|]|]. cbn [partition_point].
  destruct (p x) eqn:E; cbn [take drop]; [split; [by constructor|done]|].
  split; [constructor|]. by intros y l' [= <- <-].
Qed.

Definition from_start (text : string) : list EntityId :=
  drop (partition_point (λ id, str_lt (text_at index id) text) (sorted_ids (name_fst index)))
    (sorted_ids (name_fst index)).
Lemma from_start_sorted text :
  sorted_names (from_start text) ∧
  (∀ y l', from_start text = y :: l' → str_lt (text_at index y) text = false).
Proof.
  split; [|apply partition_split]. unfold from_start.
  generalize (partition_point (λ id, str_lt (text_at index id) text) (sorted_ids (name_fst index))).
  pose proof (wi_sorted _ WI) as S. revert S. generalize (sorted_ids (name_fst index)).
  intros l S n. revert n. induction S as [|x l S IH F]; intros [|n]; [constructor..| |apply IH].
  by constructor.
Qed.
Lemma base_from_start text :
  ⋃ (base_part (String.prefix text) <$> from_start text) = base_hits (String.prefix text).
Proof.
  apply set_eq. intros id. rewrite elem_of_union_fmap, elem_of_base_hits. unfold base_part, visible_id.
  assert (∀ x, x ∈ sorted_ids (name_fst index) ↔ x < length (entities index)) as A.
  { intros x. rewrite (wi_all _ WI), elem_of_seq. lia. }
  split.
  - intros (x & Hx & H). destruct (String.prefix text (text_at index x)) eqn:P; [|set_solver].
    destruct (hidden o x) eqn:Eh; [set_solver|]. apply elem_of_singleton in H as ->.
    split; [|done]. apply A. unfold from_start in Hx. by eapply subseteq_drop.
  - intros (Lx & Eh & P). exists id. rewrite P, Eh. split; [|set_solver].
    apply A in Lx. rewrite <-(take_drop (partition_point (λ id, str_lt (text_at index id) text)
      (sorted_ids (name_fst index)))) in Lx. apply elem_of_app in Lx as [Lx|Lx]; [|done].
    destruct (partition_split (λ id, str_lt (text_at index id) text) (sorted_ids (name_fst index))) as [F _].
    rewrite Forall_forall in F. apply F in Lx. simpl in Lx. rewrite prefix_not_below in Lx by done. done.
Qed.

Definition prefix_hits (text : string) : gset EntityId :=
  ⋃ (name_part (String.prefix text) <$> name_entries (ov_names o)) ∪ base_hits (String.prefix text).
Lemma prefix_chain text b :
  found_of (collect_prefix expired index o text) b =
  (s ← (s ← mret (∅, true); '(s, _) ← each (prefix_name expired index text) (name_entries (ov_names o)) s; mret s);
   '(s, _) ← each (prefix_base expired index o text) (from_start text) s; mret s) b.
Proof.
  unfold found_of, collect_prefix. fold (from_start text). unfold mbind, Q_bind. cbn [mret Q_ret].
  destruct (each (prefix_name expired index text) _ _ b) as [[s t] b1]. cbn [mret Q_ret].
  destruct (each (prefix_base expired index o text) (from_start text) s b1) as [[[ids c] t'] b2]. done.
Qed.
Lemma prefix_gives text : gives (found_of (collect_prefix expired index o text)) (prefix_hits text).
Proof.
  eapply gives_ext; [apply prefix_chain|]. unfold prefix_hits. rewrite <-base_from_start.
  destruct (from_start_sorted text) as [S F].
  apply gives_each; [|intros s b; by apply prefix_base_loop].
  eapply gives_eq; [apply (union_empty_l_L (⋃ (name_part (String.prefix text) <$> name_entries (ov_names o))))|].
  apply gives_each; [apply gives_start|]. apply body_loop, prefix_name_gives.
Qed.
Lemma prefix_finishes text : (∀ n, expired n = false) → at_safety index text (prefix_hits text) = false →
  finishes (found_of (collect_prefix expired index o text)).
Proof.
  intros X SU. eapply finishes_ext; [apply prefix_chain|].
  destruct (from_start_sorted text) as [S F]. unfold prefix_hits in SU. rewrite <-base_from_start in SU.
  eapply (finishes_each _ _ _ (∅ ∪ ⋃ (name_part (String.prefix text) <$> name_entries (ov_names o)))).
  - apply gives_each; [apply gives_start|]. apply body_loop, prefix_name_gives.
  - eapply finishes_each; [apply gives_start|apply finishes_start|].
    apply body_loop_finishes; [apply prefix_name_gives|].
    apply prefix_name_finishes; [done|]. eapply at_safety_mono; [|exact SU].
    rewrite (union_empty_l_L (⋃ _)). apply union_subseteq_l.
  - intros s b C Hs HU. eapply prefix_base_finishes; [done| |done..]. eapply at_safety_mono; [|exact SU].
    by rewrite (union_empty_l_L (⋃ (name_part _ <$> _))).
Qed.
Lemma prefix_spec text id : live index o id = true →
  id ∈ prefix_hits text ↔ passes (String.prefix text) id.
Proof.
  intros L. rewrite <-hits_pass by done. apply live_iff in L as [T _].
  unfold prefix_hits. rewrite !elem_of_union. apply Morphisms_Prop.or_iff_morphism; [|done].
  rewrite elem_of_union_fmap, elem_of_overlay_hits. unfold name_part. split.
  - intros ([t ids] & H%name_entries_elem & Hid). simpl in Hid.
    destruct (String.prefix text t) eqn:P; [|set_solver]. exists t. split; [|done].
    apply (wo_names _ _ _ _ WO); [done|]. by rewrite H.
  - intros (t & N & P). apply (wo_names _ _ _ _ WO) in N; [|done].
    destruct (ov_names o !! t) as [ids|] eqn:E; [|set_solver].
    exists (t, ids). split; [by apply name_entries_elem|]. simpl. by rewrite P.
Qed.

(** *** Substrings *)

(** What is found lies in [U] and, when complete, has all of [L]. *)
Definition between (m : Q Found) (L U : gset EntityId) : Prop :=
  ∀ b, (m b).1.1 ⊆ U ∧ ((m b).1.2 = true → L ⊆ (m b).1.1).
Lemma gives_between m U : gives m U → between m U U.
Proof. intros G b. destruct (G b) as [G1 G2]. split; [done|]. by intros H%G2; rewrite H. Qed.

Lemma elem_of_base_seq id : id ∈ (list_to_set (seq 0 (length (entities index))) : gset EntityId) ↔
  id < length (entities index).
Proof. rewrite elem_of_list_to_set, elem_of_seq. lia. Qed.
Definition base_ids : gset EntityId := list_to_set (seq 0 (length (entities index))).

Lemma all_base_gives : gives (all_base_ids expired index) base_ids.
Proof.
  intros b. unfold all_base_ids, mbind, Q_bind.
  pose proof (body_loop _ _ (sorted_ids (name_fst index)) (ticked_gives expired index take_id _ take_id_step) (∅, true) b)
    as [E1 E2].
  assert (list_to_set (sorted_ids (name_fst index)) = base_ids) as E.
  { unfold base_ids. apply set_eq. intros x. rewrite !elem_of_list_to_set. by rewrite (wi_all _ WI). }
  rewrite union_singletons, E in E1, E2. cbn [fst snd] in E1, E2. rewrite (union_empty_l_L base_ids) in E1, E2.
  destruct (each _ _ _ b) as [[s t] b1]. cbn [fst snd mret Q_ret] in *. split; [done|]. intros H. by apply E2.
Qed.
Lemma all_base_finishes : (∀ n, expired n = false) → finishes (all_base_ids expired index).
Proof.
  intros X b C. unfold all_base_ids, mbind, Q_bind.
  destruct (each_finishes _ _ (∅ ∪ ⋃ ((λ x, {[x]}) <$> sorted_ids (name_fst index))) (sorted_ids (name_fst index))
    (∅, true) b (ticked_gives expired index take_id _ take_id_step)
    (ticked_finishes expired index take_id _ _ take_id_step X) C eq_refl) as (_ & ? & ?); [done|].
  by destruct (each _ _ _ b) as [[s t] b1].
Qed.

Definition kind_ids (kind : EntityKind) : gset EntityId := default ∅ (kind_postings index !! kind).
Definition kind_body (kind : EntityKind) (s : Found) : Q (Flow Found) :=
  '(s, through) ← each (ticked expired index incomplete take_id) (ascending (kind_ids kind)) s;
  mret (if (through : bool) then Next s else Stop s).
Lemma kind_body_gives : body_gives kind_body kind_ids.
Proof.
  intros k s b. cbv zeta. unfold kind_body, mbind, Q_bind.
  destruct (each_gives _ _ (ascending (kind_ids k)) s b (ticked_gives expired index take_id _ take_id_step))
    as (E1 & E2 & E3). rewrite take_all_union in E2, E3.
  destruct (each _ _ s b) as [[r t] b1]. cbn [fst snd] in *.
  destruct t; cbn [mret Q_ret fst snd payload goes_on]; (split; [done|]); (split; [done|]); intros H;
    destruct (E3 H) as (? & ? & ?); done.
Qed.
Lemma kind_body_finishes U : (∀ n, expired n = false) → body_finishes kind_body kind_ids U.
Proof.
  intros X k s b C Hs HU Hk. unfold kind_body, mbind, Q_bind.
  destruct (each_finishes _ _ (s.1 ∪ kind_ids k) (ascending (kind_ids k)) s b
    (ticked_gives expired index take_id _ take_id_step)
    (ticked_finishes expired index take_id _ _ take_id_step X) C Hs) as (F1 & F2 & F3).
  { by rewrite take_all_union. }
  destruct (each _ _ s b) as [[r t] b1]. cbn [fst snd] in *. by subst t.
Qed.
Lemma kind_ids_gives kinds : gives (base_kind_ids expired index kinds) (⋃ (kind_ids <$> kinds)).
Proof.
  intros b. change (base_kind_ids expired index kinds) with
    ('(s, _) ← each kind_body kinds (∅, true); mret s). unfold mbind, Q_bind.
  pose proof (body_loop _ _ kinds kind_body_gives (∅, true) b) as [E1 E2]. cbn [fst snd] in E1, E2.
  rewrite (union_empty_l_L (⋃ (kind_ids <$> kinds))) in E1, E2.
  destruct (each _ _ _ b) as [[s t] b1]. cbn [fst snd mret Q_ret] in *. split; [done|]. intros H. by apply E2.
Qed.
Lemma kind_ids_finishes kinds : (∀ n, expired n = false) → finishes (base_kind_ids expired index kinds).
Proof.
  intros X b C. change (base_kind_ids expired index kinds) with
    ('(s, _) ← each kind_body kinds (∅, true); mret s). unfold mbind, Q_bind.
  destruct (each_finishes _ _ (∅ ∪ ⋃ (kind_ids <$> kinds)) kinds (∅, true) b kind_body_gives
    (kind_body_finishes _ X) C eq_refl) as (_ & ? & ?); [done|].
  by destruct (each _ _ _ b) as [[s t] b1].
Qed.

(** The intersection of the postings of a query's syncmers. *)
Definition common (postings : list (gset EntityId)) (id : EntityId) : Prop :=
  Forall (λ ids : gset EntityId, id ∈ ids) postings.
Lemma intersect_spec postings b : postings ≠ [] →
  let r := (intersect_postings expired index postings b).1 in
  (∀ id, id ∈ r.1 → common postings id) ∧
  (r.2 = true → ∀ id, common postings id → id ∈ r.1) ∧
  ((∀ n, expired n = false) → calm b → r.2 = true ∧ calm (intersect_postings expired index postings b).2).
Proof.
  intros N. cbv zeta. unfold intersect_postings.
  pose proof (sort_by_key_perm (λ ids : gset EntityId, Z.of_nat (size ids)) postings) as P.
  destruct (sort_by_key _ postings) as [|first rest]; [by apply Permutation_nil_l in P|].
  set (g := λ id, if forallb (λ ids : gset EntityId, bool_decide (id ∈ ids)) rest then {[id]} else ∅ : gset EntityId).
  assert (∀ (x : EntityId) (s : Found),
    Next (if forallb (λ ids : gset EntityId, bool_decide (x ∈ ids)) rest then found x s else s) =
      Next (s.1 ∪ g x, s.2)) as St.
  { intros x s. unfold g. destruct (forallb _ rest); [done|]. rewrite (union_empty_r_L s.1). by destruct s. }
  assert (∀ id, id ∈ ⋃ (g <$> ascending first) ↔ common postings id) as E.
  { intros id. unfold common. rewrite <-P, Forall_cons, elem_of_union_fmap. unfold g. split.
    - intros (x & Hx%elem_of_ascending & H). destruct (forallb _ rest) eqn:F; [|set_solver].
      apply elem_of_singleton in H as ->. split; [done|]. apply Forall_forall. intros ids Hids.
      rewrite forallb_forall in F. apply list_elem_of_In in Hids. by apply F, bool_decide_eq_true in Hids.
    - intros [H1 H2]. exists id. split; [by apply elem_of_ascending|].
      rewrite (proj2 (forallb_forall _ _)); [set_solver|]. intros ids Hids%list_elem_of_In.
      apply bool_decide_eq_true. rewrite Forall_forall in H2. by apply H2. }
  unfold mbind, Q_bind.
  destruct (body_loop _ g (ascending first) (ticked_gives expired index _ g St) (∅, true) b) as [E1 E2].
  cbn [fst snd] in E1, E2. rewrite (union_empty_l_L (⋃ (g <$> ascending first))) in E1, E2.
  split; [|split].
  - intros id. rewrite <-E. destruct (each _ _ _ b) as [[s t] b1]. cbn [fst snd mret Q_ret] in *. apply E1.
  - intros H id. rewrite <-E. destruct (each _ _ _ b) as [[s t] b1]. cbn [fst snd mret Q_ret] in *.
    by destruct (E2 H) as [_ ->].
  - intros X C. destruct (each_finishes _ _ (∅ ∪ ⋃ (g <$> ascending first)) (ascending first) (∅, true) b
      (ticked_gives expired index _ g St) (ticked_finishes expired index _ g _ St X) C eq_refl) as (_ & F2 & F3); [done|].
    by destruct (each _ _ _ b) as [[s t] b1].
Qed.

Lemma kind_allowed_base kinds id : id < length (entities index) → hidden o id = false →
  kind_allowed index o kinds id = true → kinds = [] ∨ id ∈ ⋃ (kind_ids <$> kinds).
Proof.
  intros L [T _]%hidden_false. unfold kind_allowed. rewrite orb_true_iff, bool_decide_eq_true.
  intros [->|H]; [by left|right]. unfold entity in H. rewrite decide_False in H by done.
  destruct (lookup_lt_is_Some_2 (entities index) id L) as [e E]. rewrite E in H.
  apply bool_decide_eq_true in H. apply elem_of_union_fmap. exists (en_kind e). split; [done|].
  apply (wi_kinds _ WI). eauto.
Qed.

(** The candidates to verify include every base match the kinds allow. *)
Lemma source_spec text kinds b :
  match (substring_source expired index text kinds b).1 with
  | None => base_hits (contains text) = ∅
  | Some (src, _, _) =>
      (∀ id, id ∈ src.1 → id < length (entities index)) ∧
      (src.2 = true → ∀ id, id ∈ base_hits (contains text) → kind_allowed index o kinds id = true → id ∈ src.1) ∧
      ((∀ n, expired n = false) → calm b → src.2 = true)
  end ∧
  ((∀ n, expired n = false) → calm b → calm (substring_source expired index text kinds b).2).
Proof.
  unfold substring_source. cbv zeta. set (syn := syncmer_postings index).
  set (hashes := closed_syncmer_hashes text (syn_k syn) (syn_s syn)).
  pose proof (wi_syncmer_params _ WI) as Ps. fold syn in Ps.
  assert (syn_complete syn = true → ∀ h id, h ∈ hashes → id ∈ base_hits (contains text) →
    id ∈ default ∅ (syn_map syn !! h)) as Hpost.
  { intros Cs h id Hh (L & _ & Ct)%elem_of_base_hits. apply (wi_syncmers _ WI); [done|].
    exists (text_at index id). split; [by apply text_at_some|]. fold syn. by eapply hashes_contains. }
  destruct (syn_complete syn && negb (bool_decide (hashes = []))) eqn:Ec.
  - apply andb_true_iff in Ec as [Cs Nh]. apply negb_true_iff, bool_decide_eq_false in Nh.
    specialize (Hpost Cs). case_decide as D.
    + split; [|done]. cbn [mret Q_ret fst]. apply set_eq. intros id. split; [|by intros ?%not_elem_of_empty].
      intros Hid. destruct D. clear -Hpost Hid. induction hashes as [|h hs IH]; [done|]. cbn [omap list_omap].
      pose proof (Hpost h id (list_elem_of_here _ _) Hid) as Hh. destruct (syn_map syn !! h); [|set_solver].
      simpl. f_equal. apply IH. intros h' id' H'. apply Hpost. by right.
    + assert (omap (syn_map syn !!.) hashes ≠ []) as Np.
      { intros E. rewrite E in D. by destruct hashes. }
      assert (∀ ids, ids ∈ omap (syn_map syn !!.) hashes ↔ ∃ h, h ∈ hashes ∧ syn_map syn !! h = Some ids) as El.
      { intros ids. rewrite list_elem_of_omap. done. }
      unfold mbind, Q_bind. destruct (intersect_spec _ b Np) as (I1 & I2 & I3).
      destruct (intersect_postings expired index _ b) as [s b1]. cbn [mret Q_ret fst snd] in *.
      split; [split; [|split]|].
      * intros id Hid%I1. unfold common in Hid. rewrite Forall_forall in Hid.
        destruct (omap (syn_map syn !!.) hashes) as [|ids l] eqn:Eo; [done|].
        destruct (proj1 (El ids)) as (h & _ & Hh); [by left|].
        assert (id ∈ default ∅ (syn_map syn !! h)) as H by (rewrite Hh; apply Hid; by left).
        apply (wi_syncmers _ WI) in H as (t & Ht & _); [|done]. apply lookup_lt_Some in Ht.
        by rewrite (wi_texts _ WI), length_map in Ht.
      * intros Hc id Hid _. apply (I2 Hc). apply Forall_forall. intros ids (h & Hh & E)%El.
        specialize (Hpost h id Hh Hid). by rewrite E in Hpost.
      * intros X C. by destruct (I3 X C).
      * intros X C. by destruct (I3 X C).
  - clear Hpost. unfold mbind, Q_bind. case_decide as Dk.
    + destruct (all_base_gives b) as [A1 A2]. pose proof (λ X, all_base_finishes X b) as A3.
      destruct (all_base_ids expired index b) as [s b1]. cbn [mret Q_ret fst snd] in *.
      split; [split; [|split]|].
      * intros id Hid. apply elem_of_base_seq. by apply A1.
      * intros Hc id (L & _)%elem_of_base_hits _. rewrite (A2 Hc). by apply elem_of_base_seq.
      * intros X C. by destruct (A3 X C).
      * intros X C. by destruct (A3 X C).
    + destruct (kind_ids_gives kinds b) as [A1 A2]. pose proof (λ X, kind_ids_finishes kinds X b) as A3.
      destruct (base_kind_ids expired index kinds b) as [s b1]. cbn [mret Q_ret fst snd] in *.
      split; [split; [|split]|].
      * intros id Hid%A1. apply elem_of_union_fmap in Hid as (k & _ & Hid).
        apply (wi_kinds _ WI) in Hid as (e & He & _). by apply lookup_lt_Some in He.
      * intros Hc id (L & Eh & _)%elem_of_base_hits Hk. rewrite (A2 Hc).
        by destruct (kind_allowed_base kinds id L Eh Hk).
      * intros X C. by destruct (A3 X C).
      * intros X C. by destruct (A3 X C).
Qed.

Definition verify_part (text : string) (id : EntityId) : gset EntityId :=
  if hidden o id then ∅
  else if match text_of id with Some t => contains text t | None => false end then {[id]} else ∅.
Lemma verify_part_base text id : id < length (entities index) →
  id ∈ verify_part text id ↔ id ∈ base_hits (contains text).
Proof.
  intros L. unfold verify_part. rewrite elem_of_base_hits.
  destruct (hidden o id) eqn:Eh; [split; [by intros ?%not_elem_of_empty|by intros (_ & ? & _)]|].
  apply hidden_false in Eh as [T S].
  rewrite (proj2 (text_of_live id (text_at index id) T)) by (right; split; [done|by apply text_at_some]).
  destruct (contains text _); [|split; [by intros ?%not_elem_of_empty|by intros (_ & _ & ?)]]. set_solver.
Qed.
Lemma verify_part_id text id x : x ∈ verify_part text id → x = id.
Proof. unfold verify_part. repeat case_match; set_solver. Qed.

Lemma verify_gives text : body_gives (verify_substring expired index o text) (verify_part text).
Proof.
  intros id s b. cbv zeta. unfold verify_substring, verify_part.
  destruct (negb s.2 || at_safety index text s.1) eqn:Eg.
  { cbn [mret Q_ret fst snd payload goes_on incomplete]. split; [done|]. split; [apply union_subseteq_l|done]. }
  unfold mbind, Q_bind. destruct (tick expired index b) as [ok b1].
  destruct ok; cbn [negb mret Q_ret fst snd];
    [|cbn [payload goes_on incomplete fst snd]; split; [done|]; split; [apply union_subseteq_l|done]].
  destruct (hidden o id); [cbn [payload goes_on]; rewrite (union_empty_r_L s.1); done|].
  destruct (match text_of id with Some t => contains text t | None => false end);
    [|cbn [payload goes_on]; rewrite (union_empty_r_L s.1); done].
  destruct (at_safety index text (found id s).1); cbn [payload goes_on incomplete found fst snd];
    (split; [apply union_subseteq_l|]); done.
Qed.
Lemma verify_finishes text U : (∀ n, expired n = false) → at_safety index text U = false →
  body_finishes (verify_substring expired index o text) (verify_part text) U.
Proof.
  intros X SU id s b C Hs HU Hg. unfold verify_substring, verify_part in *. rewrite Hs.
  rewrite (at_safety_mono text s.1 U) by done. cbn [negb orb]. unfold mbind, Q_bind.
  destruct (tick_calm expired index b X C) as [T C1]. destruct (tick expired index b) as [ok b1].
  cbn [fst snd] in T, C1. subst ok. cbn [negb mret Q_ret fst snd].
  destruct (hidden o id); [done|].
  destruct (match text_of id with Some t => contains text t | None => false end); [|done].
  rewrite (at_safety_mono text _ U); [done| |done]. cbn [found fst]. by apply union_subseteq.
Qed.

Definition substring_hits (text : string) : gset EntityId :=
  overlay_hits (contains text) ∪ base_hits (contains text).
(** What a search for a part owes when only some kinds are asked for. *)
Definition allowed_hits (kinds : list EntityKind) (X : gset EntityId) : gset EntityId :=
  filter (λ id, kind_allowed index o kinds id = true) X.
Lemma elem_of_allowed kinds X id : id ∈ allowed_hits kinds X ↔ kind_allowed index o kinds id = true ∧ id ∈ X.
Proof. unfold allowed_hits. by rewrite elem_of_filter. Qed.

Lemma verified_ids text (src : gset EntityId) : (∀ id, id ∈ src → id < length (entities index)) →
  ⋃ (verify_part text <$> ascending src) ⊆ base_hits (contains text) ∧
  ∀ id, id ∈ src → id ∈ base_hits (contains text) → id ∈ ⋃ (verify_part text <$> ascending src).
Proof.
  intros Hs. split.
  - intros id (x & Hx%elem_of_ascending & H)%elem_of_union_fmap. assert (id = x) as -> by (by eapply verify_part_id).
    apply verify_part_base; auto.
  - intros id Hid H. apply elem_of_union_fmap. exists id. split; [by apply elem_of_ascending|].
    apply verify_part_base; auto.
Qed.

Lemma substring_between text kinds :
  between (found_of (collect_substring expired index o text kinds))
    (allowed_hits kinds (substring_hits text)) (substring_hits text).
Proof.
  intros b. unfold found_of, collect_substring, mbind, Q_bind.
  destruct (source_spec text kinds b) as [Hsrc _].
  destruct (substring_source expired index text kinds b) as [[[[src strategy] estimate]|] b1]; cbn [fst] in Hsrc.
  - destruct Hsrc as (S1 & S2 & _). destruct (overlay_substring_gives text b1) as [O1 O2].
    destruct (collect_overlay_substring expired index o text b1) as [s b2]. cbn [fst snd] in O1, O2.
    destruct (body_loop _ _ (ascending src.1) (verify_gives text) (s.1, src.2 && s.2) b2) as [V1 V2].
    destruct (each _ _ _ b2) as [[r t] b3]. cbn [mret Q_ret fst snd cs_ids cs_complete timed_out] in *.
    destruct (verified_ids text src.1 S1) as [W1 W2]. split.
    + etrans; [exact V1|]. by apply union_mono.
    + intros H. destruct (V2 H) as [[Hc Ho]%andb_true_iff ->]. rewrite (O2 Ho).
      intros id [Hk [Hid|Hid]%elem_of_union]%elem_of_allowed; [set_solver|].
      apply elem_of_union_r, W2; [|done]. by apply S2.
  - destruct (overlay_substring_gives text b1) as [O1 O2].
    destruct (collect_overlay_substring expired index o text b1) as [s b2].
    cbn [mret Q_ret fst snd cs_ids cs_complete timed_out] in *. split; [set_solver|].
    intros H. rewrite (O2 H). unfold substring_hits. rewrite Hsrc. intros id [_ Hid]%elem_of_allowed. set_solver.
Qed.
Lemma substring_finishes text kinds : (∀ n, expired n = false) →
  at_safety index text (substring_hits text) = false →
  finishes (found_of (collect_substring expired index o text kinds)).
Proof.
  intros X SU b C. unfold found_of, collect_substring, mbind, Q_bind.
  destruct (source_spec text kinds b) as [Hsrc Cb]. specialize (Cb X C).
  destruct (substring_source expired index text kinds b) as [[[[src strategy] estimate]|] b1]; cbn [fst snd] in Hsrc, Cb.
  - destruct Hsrc as (S1 & _ & S3). specialize (S3 X C).
    destruct (overlay_substring_gives text b1) as [O1 O2]. destruct (overlay_substring_finishes text X b1 Cb) as [O3 O4].
    destruct (collect_overlay_substring expired index o text b1) as [s b2]. cbn [fst snd] in O1, O2, O3, O4.
    destruct (verified_ids text src.1 S1) as [W1 W2].
    destruct (body_loop_finishes _ _ (ascending src.1) _ (verify_gives text) (verify_finishes text _ X SU)
      (s.1, src.2 && s.2) b2 O4) as [F1 F2].
    { by rewrite S3, O3. }
    { by apply union_mono. }
    destruct (each _ _ _ b2) as [[r t] b3]. done.
  - destruct (overlay_substring_finishes text X b1 Cb) as [O3 O4].
    by destruct (collect_overlay_substring expired index o text b1) as [s b2].
Qed.
Lemma substring_spec text id : live index o id = true →
  id ∈ substring_hits text ↔ passes (contains text) id.
Proof. apply hits_pass. Qed.

(** *** Numbers *)

Definition unburied (id : EntityId) : gset EntityId := if decide (id ∈ tombstones o) then ∅ else {[id]}.
Lemma numeric_step (x : EntityId) (s : Found) :
  (Next (if decide (x ∈ tombstones o) then s else found x s) : Flow Found) = Next (s.1 ∪ unburied x, s.2).
Proof. unfold unburied. case_decide; [|done]. rewrite (union_empty_r_L s.1). by destruct s. Qed.
Lemma numeric_base_eq id s b : numeric_base expired index o id s b =
  when_complete expired index (λ x s, Next (if decide (x ∈ tombstones o) then s else found x s)) id s b.
Proof.
  unfold numeric_base, when_complete, ticked. destruct (negb s.2); [done|]. unfold mbind, Q_bind.
  by destruct (tick expired index b) as [[|] b1].
Qed.
Lemma numeric_base_gives : body_gives (numeric_base expired index o) unburied.
Proof. intros x s b. cbv zeta. rewrite numeric_base_eq. by apply when_complete_gives, numeric_step. Qed.
Lemma numeric_base_finishes U : (∀ n, expired n = false) →
  body_finishes (numeric_base expired index o) unburied U.
Proof.
  intros X x s b. rewrite numeric_base_eq.
  by apply (when_complete_finishes expired index _ unburied U numeric_step X).
Qed.
Definition numeric_hits (value : Z) : gset EntityId :=
  ⋃ ((λ x, {[x]}) <$> equal_range value (ov_numeric o)) ∪ ⋃ (unburied <$> equal_range value (numeric index)).
Definition numeric_run (value : Z) : Q Found :=
  s ← (s ← mret (∅, true); '(s, _) ← each (ticked expired index incomplete take_id) (equal_range value (ov_numeric o)) s; mret s);
  '(s, _) ← each (numeric_base expired index o) (equal_range value (numeric index)) s; mret s.
Lemma numeric_gives value : gives (numeric_run value) (numeric_hits value).
Proof.
  apply gives_each.
  - eapply gives_eq; [apply (union_empty_l_L (⋃ ((λ x, {[x]}) <$> equal_range value (ov_numeric o))))|].
    apply gives_each; [apply gives_start|]. apply body_loop, ticked_gives, take_id_step.
  - apply body_loop, numeric_base_gives.
Qed.
Lemma numeric_finishes value : (∀ n, expired n = false) → finishes (numeric_run value).
Proof.
  intros X. eapply (finishes_each _ _ _ (∅ ∪ ⋃ ((λ x, {[x]}) <$> equal_range value (ov_numeric o)))).
  - apply gives_each; [apply gives_start|]. apply body_loop, ticked_gives, take_id_step.
  - eapply finishes_each; [apply gives_start|apply finishes_start|].
    apply body_loop_finishes; [apply ticked_gives, take_id_step|]. apply ticked_finishes; [apply take_id_step|done].
  - apply body_loop_finishes; [apply numeric_base_gives|by apply numeric_base_finishes].
Qed.

Lemma elem_of_oracle_numeric value id :
  id ∈ oracle_numeric index o value ↔
    live index o id = true ∧
    (id ∈ equal_range value (numeric index) ∨ id ∈ equal_range value (ov_numeric o)).
Proof.
  unfold oracle_numeric. cbv zeta.
  assert (∀ l (X : gset EntityId), id ∈ foldl (λ ids id, add_if (live index o id) id ids) X l ↔
    id ∈ X ∨ live index o id = true ∧ id ∈ l) as E.
  { induction l as [|x l IH]; intros Y; cbn [foldl]; [set_solver|]. rewrite IH. unfold add_if.
    destruct (live index o x) eqn:Lx; rewrite ?elem_of_union, ?elem_of_singleton, elem_of_cons; [naive_solver|].
    naive_solver congruence. }
  rewrite !E. set_solver.
Qed.
Lemma numeric_spec value id : live index o id = true →
  id ∈ numeric_hits value ↔ id ∈ oracle_numeric index o value.
Proof.
  intros L. rewrite elem_of_oracle_numeric. apply live_iff in L as L'. destruct L' as [T _].
  unfold numeric_hits. rewrite elem_of_union, union_singletons, elem_of_list_to_set, elem_of_union_fmap.
  unfold unburied. split.
  - intros [H|(x & Hx & H)]; [tauto|]. case_decide; [set_solver|]. apply elem_of_singleton in H as ->. tauto.
  - intros [_ [H|H]]; [right|by left]. exists id. rewrite decide_False by done. set_solver.
Qed.

(** *** Tokens *)

Definition token_run (token : string) : Q Found :=
  s ← (s ← (s ← mret (∅, true);
            '(s, _) ← each (ticked expired index incomplete (take_if (has_token token)))
                        (id_entries (normalized_overrides o)) s; mret s);
       '(s, _) ← each (when_complete expired index (take_if (has_token token))) (overlay_texts o) s; mret s);
  '(s, _) ← each (when_complete expired index (take_visible o))
              (ascending (default ∅ (token_postings index !! token))) s; mret s.
Definition token_hits (token : string) : gset EntityId :=
  overlay_hits (has_token token) ∪ ⋃ (visible_id <$> ascending (default ∅ (token_postings index !! token))).
Lemma token_chain token b : found_of (collect_token expired index o token) b = token_run token b.
Proof.
  unfold found_of, collect_token, token_run, mbind, Q_bind. cbn [mret Q_ret].
  destruct (each _ (id_entries (normalized_overrides o)) _ b) as [[s t] b1]. cbn [mret Q_ret].
  destruct (each _ (overlay_texts o) _ b1) as [[s' t'] b2]. cbn [mret Q_ret].
  by destruct (each _ _ _ b2) as [[[ids c] t''] b3].
Qed.
Lemma token_overlay_gives token : gives
  (s ← (s ← mret (∅, true);
        '(s, _) ← each (ticked expired index incomplete (take_if (has_token token)))
                    (id_entries (normalized_overrides o)) s; mret s);
   '(s, _) ← each (when_complete expired index (take_if (has_token token))) (overlay_texts o) s; mret s)
  (overlay_hits (has_token token)).
Proof.
  apply gives_each; [|apply body_loop, when_complete_gives, take_if_step].
  eapply gives_eq; [apply (union_empty_l_L (⋃ (chosen (has_token token) <$> id_entries (normalized_overrides o))))|].
  apply gives_each; [apply gives_start|]. apply body_loop, ticked_gives, take_if_step.
Qed.
Lemma token_gives token : gives (token_run token) (token_hits token).
Proof.
  apply gives_each; [apply token_overlay_gives|]. apply body_loop, when_complete_gives, take_visible_step.
Qed.
Lemma token_finishes token : (∀ n, expired n = false) → finishes (token_run token).
Proof.
  intros X. eapply finishes_each; [apply token_overlay_gives| |].
  - eapply (finishes_each _ _ _ (∅ ∪ ⋃ (chosen (has_token token) <$> id_entries (normalized_overrides o)))).
    + apply gives_each; [apply gives_start|]. apply body_loop, ticked_gives, take_if_step.
    + eapply finishes_each; [apply gives_start|apply finishes_start|].
      apply body_loop_finishes; [apply ticked_gives, take_if_step|].
      apply ticked_finishes; [apply take_if_step|done].
    + apply body_loop_finishes; [apply when_complete_gives, take_if_step|].
      apply when_complete_finishes; [apply take_if_step|done].
  - apply body_loop_finishes; [apply when_complete_gives, take_visible_step|].
    apply when_complete_finishes; [apply take_visible_step|done].
Qed.

(** The linear verifier of tokens. *)
Definition token_of_code (token : string) (e : Entity) (id : EntityId) : Prop :=
  en_kind e = EntityKind.Instruction ∧ hidden o (en_id e) = false ∧
  has_token token (text_at index (en_id e)) = true ∧
  (id = en_id e ∨ en_func_entry e ≫= (function_by_va index !!.) = Some id).
Lemma elem_of_oracle_token token id :
  id ∈ oracle_token index o token ↔
    (∃ e, e ∈ entities index ∧ token_of_code token e id) ∨ id ∈ overlay_hits (has_token token).
Proof.
  unfold oracle_token. cbv zeta.
  assert (∀ l (X : gset EntityId), id ∈ foldl (λ ids (e : EntityId * string), add_if (has_token token e.2) e.1 ids) X l ↔
    id ∈ X ∨ id ∈ ⋃ (chosen (has_token token) <$> l)) as E1.
  { induction l as [|x l IH]; intros Y; cbn [foldl]; [set_solver|].
    rewrite IH, fmap_cons, union_list_cons, elem_of_union. unfold add_if at 1, chosen at 2.
    destruct (has_token token x.2); set_solver. }
  assert (∀ l (X : gset EntityId), id ∈ foldl (oracle_token_base index o token) X l ↔
    id ∈ X ∨ ∃ e, e ∈ l ∧ token_of_code token e id) as E2.
  { induction l as [|x l IH]; intros Y; cbn [foldl].
    { split; [by left|]. by intros [?|(e & ?%not_elem_of_nil & _)]. }
    rewrite IH. setoid_rewrite elem_of_cons.
    assert (id ∈ oracle_token_base index o token Y x ↔ id ∈ Y ∨ token_of_code token x id) as ->; [|naive_solver].
    unfold oracle_token_base, token_of_code. destruct (decide (en_kind x = EntityKind.Instruction)) as [Ek|Ek].
    - rewrite bool_decide_true by done. cbn [negb orb]. destruct (hidden o (en_id x)); [naive_solver|].
      destruct (has_token token (text_at index (en_id x))); [|naive_solver].
      destruct (en_func_entry x ≫= (function_by_va index !!.)) as [f|]; set_solver.
    - rewrite bool_decide_false by done. cbn [negb orb]. naive_solver. }
  rewrite !E1, E2. unfold overlay_hits. rewrite elem_of_union. set_solver.
Qed.
(** Renamed functions apart, the two agree on live entities. *)
Definition code_visible : Prop :=
  ∀ e, e ∈ entities index → en_kind e = EntityKind.Instruction → hidden o (en_id e) = false.
Lemma token_spec token id : token ≠ "" → code_visible → live index o id = true → id ∉ surface_tombstones o →
  id ∈ token_hits token ↔ id ∈ oracle_token index o token.
Proof.
  intros Nt V L S. unfold token_hits. rewrite elem_of_oracle_token, elem_of_union, elem_of_union_fmap.
  unfold visible_id, token_of_code. split.
  - intros [H|(x & Hx%elem_of_ascending & H)]; [tauto|]. destruct (hidden o x); [set_solver|].
    apply elem_of_singleton in H as ->. apply (wi_tokens _ WI) in Hx as (e & He & Ek & Ht & Hid); [|done].
    left. exists e. auto.
  - intros [(e & He & Ek & _ & Ht & Hid)|H]; [right|by left]. exists id.
    rewrite (proj2 (hidden_false id)) by (split; [by apply live_iff in L as [? _]|done]).
    split; [|set_solver]. apply elem_of_ascending, (wi_tokens _ WI); eauto.
Qed.

(** *** Regular expressions *)

Definition regex_part (is_match : string → bool) (id : EntityId) : gset EntityId :=
  match display_of index o id with Some d => if is_match d then {[id]} else ∅ | None => ∅ end.
Lemma verify_regex_gives is_match literal :
  body_gives (ticked expired index incomplete (verify_regex index o is_match literal)) (regex_part is_match).
Proof.
  intros id s b. cbv zeta. unfold ticked, mbind, Q_bind. destruct (tick expired index b) as [ok b1].
  unfold verify_regex, regex_part. destruct ok; cbn [mret Q_ret fst snd payload goes_on incomplete];
    [|split; [done|]; split; [apply union_subseteq_l|done]].
  destruct (display_of index o id) as [d|]; [|cbn [payload goes_on]; by rewrite (union_empty_r_L s.1)].
  destruct (is_match d); [|cbn [payload goes_on]; by rewrite (union_empty_r_L s.1)].
  destruct (at_safety index literal (found id s).1); cbn [payload goes_on incomplete found fst snd];
    (split; [apply union_subseteq_l|]); done.
Qed.

Definition own_displays : list (EntityId * string) := map (λ e, (en_id e, en_display e)) (ov_entities o).
Definition regex_overlay (is_match : string → bool) : gset EntityId :=
  ⋃ (chosen is_match <$> id_entries (display_overrides o)) ∪ ⋃ (chosen is_match <$> own_displays).
Definition displays (is_match : string → bool) (id : EntityId) : Prop :=
  ∃ d, display_of index o id = Some d ∧ is_match d = true.

Lemma elem_of_chosen test l id : id ∈ ⋃ (chosen test <$> l) ↔ ∃ t, (id, t) ∈ l ∧ test t = true.
Proof.
  rewrite elem_of_union_fmap. unfold chosen. split.
  - intros ([k t] & H & Hid). simpl in Hid. destruct (test t) eqn:E; [|set_solver].
    apply elem_of_singleton in Hid as ->. eauto.
  - intros (t & H & E). exists (id, t). simpl. rewrite E. set_solver.
Qed.
Lemma own_entity_at i : entity index o (base_entity_count o + i) =
  if decide (base_entity_count o + i ∈ tombstones o) then None else ov_entities o !! i.
Proof.
  unfold entity. case_decide; [done|]. rewrite (lookup_ge_None_2 (entities index)) by (rewrite <-(wo_base _ _ WO); lia).
  unfold own_entity. rewrite decide_False by lia. f_equal. lia.
Qed.
(** A live match is found in the overlay, or is an entity of the index that is
    shown under its own name. *)
Lemma regex_live is_match id : live index o id = true →
  displays is_match id ↔ id ∈ regex_overlay is_match ∨
    (id < length (entities index) ∧ hidden o id = false ∧ displays is_match id).
Proof.
  intros L. pose proof L as [T B]%live_iff. unfold regex_overlay.
  rewrite elem_of_union, !elem_of_chosen. unfold displays, display_of, own_display. split.
  - destruct (display_overrides o !! id) as [d|] eqn:Ed.
    { intros (d' & [= <-] & M). left. left. exists d. split; [by apply elem_of_id_entries|done]. }
    intros (d & E & M). destruct (decide (id < length (entities index))) as [Lt|Ge].
    + right. split; [done|]. split; [|eauto]. apply hidden_false. split; [done|].
      rewrite (wo_surface _ _ WO), elem_of_dom, Ed. by intros [].
    + left. right. exists d. split; [|done]. rewrite <-(wo_base _ _ WO) in Ge.
      replace id with (base_entity_count o + (id - base_entity_count o)) in E by lia.
      rewrite own_entity_at in E. case_decide; [done|].
      destruct (ov_entities o !! (id - base_entity_count o)) as [e|] eqn:Ee; [|done]. injection E as <-.
      unfold own_displays. apply list_elem_of_In, in_map_iff. exists e.
      rewrite (wo_ids _ _ WO _ _ Ee). split; [f_equal; lia|]. by apply list_elem_of_lookup_2, list_elem_of_In in Ee.
  - intros [[(d & H%elem_of_id_entries & M)|(d & H & M)]|(_ & _ & H)]; [|  |done].
    + rewrite H. eauto.
    + unfold own_displays in H. apply list_elem_of_In, in_map_iff in H as (e & [= <- <-] & H).
      apply list_elem_of_In, list_elem_of_lookup in H as [i Ei]. pose proof (wo_ids _ _ WO _ _ Ei) as Eid.
      destruct (display_overrides o !! en_id e) as [d'|] eqn:Ed.
      { assert (en_id e ∈ surface_tombstones o) as S by (rewrite (wo_surface _ _ WO), elem_of_dom, Ed; eauto).
        apply (wo_override_base _ _ WO) in S. lia. }
      exists (en_display e). rewrite Eid, own_entity_at, <-Eid, decide_False, Ei by done. done.
Qed.

Lemma regex_between pattern kinds is_match :
  regex_new pattern = inr is_match →
  ∀ b, match (collect_regex expired index o pattern kinds b).1 with
       | inl _ => False
       | inr c =>
           (∀ id, live index o id = true → id ∈ cs_ids c → displays is_match id) ∧
           (literal_honoured pattern is_match → cs_complete c = true →
            ∀ id, live index o id = true → kind_allowed index o kinds id = true →
              displays is_match id → id ∈ cs_ids c)
       end.
Proof.
  intros R b. unfold collect_regex. rewrite R. cbv zeta.
  set (required := normalize_ascii <$> required_regex_literal pattern).
  set (seedm := (match required with Some _ => _ | None => _ end : Q CandidateSet)).
  assert (∀ b, literal_honoured pattern is_match → cs_complete (seedm b).1 = true → ∀ id, live index o id = true →
    kind_allowed index o kinds id = true → id < length (entities index) → hidden o id = false →
    displays is_match id → id ∈ cs_ids (seedm b).1) as HS.
  { intros b0 Hon Hc id L Hk Lt Eh (d & Ed & M). unfold seedm in *. destruct required as [literal|] eqn:Er.
    - destruct (substring_between literal kinds b0) as [_ B]. unfold found_of, mbind, Q_bind in B.
      destruct (collect_substring expired index o literal kinds b0) as [c b1]. cbn [mret Q_ret fst snd] in *.
      apply (B Hc), elem_of_allowed. split; [done|]. apply elem_of_union_r, elem_of_base_hits.
      split; [done|]. split; [done|].
      destruct (required_regex_literal pattern) as [lit|] eqn:El; [|done]. injection Er as <-.
      apply hidden_false in Eh as [T S].
      assert (text_at index id = normalize_ascii d) as ->; [|by apply Hon].
      apply text_at_lookup. rewrite (wi_texts _ WI), list_lookup_fmap.
      unfold display_of, own_display in Ed. rewrite (wo_surface _ _ WO), not_elem_of_dom in S. rewrite S in Ed.
      unfold entity in Ed. rewrite decide_False in Ed by done.
      destruct (lookup_lt_is_Some_2 (entities index) id Lt) as [e He]. rewrite He in *. by injection Ed as <-.
    - destruct (all_base_gives b0) as [_ A]. unfold mbind, Q_bind, timed_out in *.
      destruct (all_base_ids expired index b0) as [s b1]. cbn [mret Q_ret fst snd cs_ids cs_complete] in *.
      rewrite (A Hc). by apply elem_of_base_seq. }
  unfold mbind, Q_bind. specialize (HS b). destruct (seedm b) as [seed b1]. cbn [fst] in HS.
  destruct (body_loop _ _ (id_entries (display_overrides o))
    (ticked_gives expired index _ _ (take_if_step is_match)) (∅, cs_complete seed) b1) as [A1 A2].
  destruct (each _ (id_entries (display_overrides o)) _ b1) as [[s t] b2]. cbn [fst snd] in A1, A2.
  destruct (body_loop _ _ own_displays (ticked_gives expired index _ _ (take_if_step is_match)) s b2) as [B1 B2].
  fold own_displays. destruct (each _ own_displays _ b2) as [[s2 t2] b3]. cbn [fst snd] in B1, B2.
  destruct (body_loop _ _ (ascending (cs_ids seed)) (verify_regex_gives is_match (default "" required)) s2 b3) as [C1 C2].
  destruct (each _ (ascending (cs_ids seed)) _ b3) as [[s3 t3] b4]. cbn [fst snd mret Q_ret cs_ids cs_complete timed_out] in *.
  rewrite (union_empty_l_L (⋃ _)) in A1, A2. split.
  - intros id L Hid%C1. apply elem_of_union in Hid as [Hid%B1|Hid].
    + apply regex_live; [done|]. left. unfold regex_overlay. apply elem_of_union in Hid as [Hid%A1|Hid]; set_solver.
    + apply elem_of_union_fmap in Hid as (x & _ & H). unfold regex_part in H.
      destruct (display_of index o x) as [d|] eqn:Ed; [|set_solver]. destruct (is_match d) eqn:M; [|set_solver].
      apply elem_of_singleton in H as ->. by exists d.
  - intros Hon H id L Hk D. destruct (C2 H) as [H2 ->]. destruct (B2 H2) as [H1 ->]. destruct (A2 H1) as [H0 ->].
    apply regex_live in D as [D|(Lt & Eh & D)]; [|  |done].
    + apply elem_of_union_l. exact D.
    + apply elem_of_union_r, elem_of_union_fmap. exists id. split; [by apply elem_of_ascending, HS|].
      destruct D as (d & Ed & M). unfold regex_part. rewrite Ed, M. set_solver.
Qed.

(** *** All of them *)

Lemma restrict_gives kinds ids : gives (restrict_candidate_kinds expired index o kinds ids) (allowed_hits kinds ids).
Proof.
  unfold restrict_candidate_kinds. case_decide as D.
  { intros b. assert (allowed_hits kinds ids = ids) as ->; [|done]. apply set_eq. intros id.
    rewrite elem_of_allowed. unfold kind_allowed. rewrite (bool_decide_true _ D). naive_solver. }
  set (g := λ id, if kind_allowed index o kinds id then {[id]} else ∅ : gset EntityId).
  assert (∀ (x : EntityId) (s : Found),
    Next (if kind_allowed index o kinds x then found x s else s) = Next (s.1 ∪ g x, s.2)) as St.
  { intros x s. unfold g. destruct (kind_allowed _ _ _ _); [done|]. rewrite (union_empty_r_L s.1). by destruct s. }
  intros b. unfold mbind, Q_bind.
  destruct (body_loop _ g (ascending ids) (ticked_gives expired index _ g St) (∅, true) b) as [A1 A2].
  assert (⋃ (g <$> ascending ids) = allowed_hits kinds ids) as E.
  { apply set_eq. intros id. rewrite elem_of_union_fmap, elem_of_allowed. unfold g. split.
    - intros (x & Hx%elem_of_ascending & H). destruct (kind_allowed _ _ _ x) eqn:Ek; [|set_solver].
      by apply elem_of_singleton in H as ->.
    - intros [Hk Hid]. exists id. rewrite Hk. split; [by apply elem_of_ascending|set_solver]. }
  rewrite E in A1, A2. cbn [fst snd] in A1, A2. rewrite (union_empty_l_L (allowed_hits kinds ids)) in A1, A2.
  destruct (each _ _ _ b) as [[s t] b1]. cbn [mret Q_ret fst snd] in *. split; [done|]. intros H. by apply A2.
Qed.
Lemma restrict_finishes kinds ids : (∀ n, expired n = false) →
  finishes (restrict_candidate_kinds expired index o kinds ids).
Proof.
  intros X. unfold restrict_candidate_kinds. case_decide; [done|].
  set (g := λ id, if kind_allowed index o kinds id then {[id]} else ∅ : gset EntityId).
  assert (∀ (x : EntityId) (s : Found),
    Next (if kind_allowed index o kinds x then found x s else s) = Next (s.1 ∪ g x, s.2)) as St.
  { intros x s. unfold g. destruct (kind_allowed _ _ _ _); [done|]. rewrite (union_empty_r_L s.1). by destruct s. }
  intros b C. unfold mbind, Q_bind.
  destruct (each_finishes _ g (∅ ∪ ⋃ (g <$> ascending ids)) (ascending ids) (∅, true) b
    (ticked_gives expired index _ g St) (ticked_finishes expired index _ g _ St X) C eq_refl) as (_ & F2 & F3); [done|].
  by destruct (each _ _ _ b) as [[s t] b1].
Qed.

(** A collector that finds between [L], of the allowed kinds, and [U], followed by the
    restriction to those kinds. *)
Lemma restricted (m : Q CandidateSet) (P : EntityId → Prop) kinds :
  (∀ b, (∀ id, live index o id = true → id ∈ cs_ids (m b).1 → P id) ∧
        (cs_complete (m b).1 = true → ∀ id, live index o id = true → kind_allowed index o kinds id = true →
           P id → id ∈ cs_ids (m b).1)) →
  ∀ b, let c := (m b).1 in
  let s := (restrict_candidate_kinds expired index o kinds (cs_ids c) (m b).2).1 in
  (∀ id, live index o id = true → id ∈ s.1 → P id ∧ kind_allowed index o kinds id = true) ∧
  (cs_complete c && s.2 = true → ∀ id, live index o id = true →
     (id ∈ s.1 ↔ P id ∧ kind_allowed index o kinds id = true)).
Proof.
  intros H b. cbv zeta. destruct (H b) as [H1 H2]. destruct (m b) as [c b1]. cbn [fst snd] in *.
  destruct (restrict_gives kinds (cs_ids c) b1) as [R1 R2].
  assert (∀ id, live index o id = true →
    id ∈ (restrict_candidate_kinds expired index o kinds (cs_ids c) b1).1.1 →
    P id ∧ kind_allowed index o kinds id = true) as A.
  { intros id L [Hk Hid]%R1%elem_of_allowed. split; [by apply H1|done]. }
  split; [done|]. intros [Hc Hs]%andb_true_iff id L. split; [by apply A|]. intros [HP Hk].
  rewrite (R2 Hs). apply elem_of_allowed. split; [done|]. by apply H2.
Qed.
End surface.
