(* ===== verification/BelCorrect.v ===== *)
(** What a search of the evidence index finds. *)

From Stdlib Require Import Strings.Ascii Strings.String.
From S2P Require Import Prelude Text Data Ops Activity MemoryMap Cfg CfgFrontier Bel BelQuery BelFacts BelSurface.

Local Open Scope string_scope.
Local Open Scope list_scope.
Local Open Scope nat_scope.

(** ** Lists of identifiers in ascending order *)

Lemma filter_sorted (f : nat → bool) l : StronglySorted lt l → StronglySorted lt (List.filter f l).
Proof.
  induction 1 as [|x l S IH F]; [constructor|]. cbn [List.filter]. destruct (f x); [|done].
  constructor; [done|]. rewrite Forall_forall in *. intros y Hy. apply F. by apply elem_of_list_filter in Hy as [_ ?].
Qed.
Lemma seq_sorted n k : StronglySorted lt (seq n k).
Proof.
  revert n. induction k as [|k IH]; intros n; [constructor|]. cbn [seq]. constructor; [done|].
  apply Forall_forall. intros x Hx%elem_of_seq. lia.
Qed.
Lemma sorted_same (l l' : list nat) : StronglySorted lt l → StronglySorted lt l' →
  (∀ x, x ∈ l ↔ x ∈ l') → l = l'.
Proof.
  intros S S' E.
  assert (∀ k, StronglySorted lt k → NoDup k) as N.
  { induction 1 as [|x k _ IH F]; [constructor|]. constructor; [|done]. intros Hx.
    rewrite Forall_forall in F. specialize (F x Hx). lia. }
  apply (StronglySorted_unique_strong lt); [lia|done|done|]. apply NoDup_Permutation; auto.
Qed.

(** ** Numbers are the same in lower case *)

Lemma to_lower_digit c : digit_value (to_ascii_lowercase c) = digit_value c.
Proof. destruct c as [[] [] [] [] [] [] [] []]; vm_compute; reflexivity. Qed.
Lemma parse_digits_lower radix acc s : parse_digits radix acc (normalize_ascii s) = parse_digits radix acc s.
Proof.
  revert acc. induction s as [|c s IH]; intros acc; [done|]. cbn [normalize_ascii parse_digits].
  rewrite to_lower_digit. destruct (_ <=? _)%Z; [done|]. cbv zeta. destruct (_ <? _)%Z; [done|]. apply IH.
Qed.
Lemma substring_drop n m s : String.length s ≤ m → String.substring n m s = str_drop n s.
Proof.
  revert n m. induction s as [|c s IH]; intros n m L; [by destruct n, m|].
  destruct n as [|n]; cbn [String.substring str_drop].
  - destruct m as [|m]; [simpl in L; lia|]. f_equal. apply (IH 0). simpl in L. lia.
  - apply IH. simpl in L. lia.
Qed.
Lemma strip_prefix_cons x p c s :
  strip_prefix (String x p) (String c s) = if ascii_dec x c then strip_prefix p s else None.
Proof.
  unfold strip_prefix. cbn [String.prefix]. destruct (ascii_dec x c); [|done].
  destruct (String.prefix p s); [|done]. rewrite !substring_drop by lia. done.
Qed.
Lemma strip_prefix_nil s : strip_prefix "" s = Some s.
Proof. unfold strip_prefix. destruct s; cbn [String.prefix]; rewrite substring_drop; done. Qed.

(** The characters that matter keep their meaning in lower case. *)
Lemma lower_plus c : Ascii.eqb "+" (to_ascii_lowercase c) = Ascii.eqb "+" c.
Proof. destruct c as [[] [] [] [] [] [] [] []]; vm_compute; reflexivity. Qed.
Lemma lower_zero c : Ascii.eqb "0" (to_ascii_lowercase c) = Ascii.eqb "0" c.
Proof. destruct c as [[] [] [] [] [] [] [] []]; vm_compute; reflexivity. Qed.
Lemma lower_x c : Ascii.eqb "x" (to_ascii_lowercase c) = Ascii.eqb "x" c || Ascii.eqb "X" c.
Proof. destruct c as [[] [] [] [] [] [] [] []]; vm_compute; reflexivity. Qed.
Lemma lower_no_X c : Ascii.eqb "X" (to_ascii_lowercase c) = false.
Proof. destruct c as [[] [] [] [] [] [] [] []]; vm_compute; reflexivity. Qed.
Lemma strip_prefix_eqb x p c s :
  strip_prefix (String x p) (String c s) = if Ascii.eqb x c then strip_prefix p s else None.
Proof.
  rewrite strip_prefix_cons. destruct (ascii_dec x c) as [->|N]; [by rewrite Ascii.eqb_refl|].
  by rewrite (proj2 (Ascii.eqb_neq x c)).
Qed.

Lemma from_str_radix_lower radix s : from_str_radix radix (normalize_ascii s) = from_str_radix radix s.
Proof.
  unfold from_str_radix. cbv zeta.
  assert (default (normalize_ascii s) (strip_prefix "+" (normalize_ascii s)) =
          normalize_ascii (default s (strip_prefix "+" s))) as ->.
  { destruct s as [|c s]; [done|]. cbn [normalize_ascii]. rewrite !strip_prefix_eqb, !strip_prefix_nil, lower_plus.
    by destruct (Ascii.eqb "+" c). }
  destruct (default s _) as [|c r]; [done|]. rewrite !decide_False by done. apply parse_digits_lower.
Qed.
Lemma parse_number_lower s : parse_number (normalize_ascii s) = parse_number s.
Proof.
  pose proof (from_str_radix_lower 10 s) as E10. unfold parse_number.
  destruct s as [|c s]; [done|]. destruct s as [|d s].
  - cbn [normalize_ascii] in *. rewrite !strip_prefix_eqb. by repeat case_match.
  - cbn [normalize_ascii] in *. rewrite !strip_prefix_eqb, !strip_prefix_nil, lower_zero, lower_x, lower_no_X, E10.
    destruct (Ascii.eqb "0" c); [|done].
    destruct (Ascii.eqb "x" d); cbn [orb]; [apply from_str_radix_lower|].
    destruct (Ascii.eqb "X" d); [apply from_str_radix_lower|done].
Qed.

(** ** Surface searches *)

Section surface.
Context `{FL : !FstLib, RL : !RegexLib}.
Variable index : BelIndex.
Variable o : Overlay.

(** The entities whose text passes a test, live or not. *)
Definition matching (test : string → bool) : list EntityId :=
  List.filter (λ id, match normalized_of index o id with Some t => test t | None => false end)
    (seq 0 (base_entity_count o + length (ov_entities o))).
(** Fewer matches than the safety limit, where the mode has one. *)
Definition few (mode : SearchMode) (text : string) : Prop :=
  let bounded test := (Z.of_nat (length (matching test)) < safety_limit index text)%Z in
  match mode with
  | Exact | Numeric => True
  | Prefix => bounded (String.prefix text)
  | Substring => bounded (contains text)
  | _ => False
  end.
(** The modes the linear verifier scans texts or numbers for. *)
Definition scanned (mode : SearchMode) : Prop :=
  mode = Exact ∨ mode = Prefix ∨ mode = Substring ∨ mode = Numeric ∨ mode = Regex.
Definition search_text (mode : SearchMode) (text : string) : string :=
  match mode with Regex => text | _ => normalize_ascii text end.

Definition shown (kinds : list EntityKind) (id : EntityId) : bool :=
  live index o id && kind_allowed index o kinds id.

(** Half of it: what a search shows the linear verifier finds, and both refuse
    the same texts. *)
Definition sound (expired : nat → bool) (mode : SearchMode) (text : string) (kinds : list EntityKind) (b : Budget) : Prop :=
  match (collect_surface expired index o mode (search_text mode text) kinds b).1,
        linear_oracle_ids index o mode text with
  | inl _, inl _ => True
  | inr c, inr ids => ∀ id, id ∈ cs_ids c → shown kinds id = true → id ∈ ids
  | _, _ => False
  end.

(** The result of a surface search against the identifiers of the linear
    verifier: nothing else is shown, all of it when the search is complete, and
    with time and few matches it is. *)
Definition agrees (expired : nat → bool) (mode : SearchMode) (text : string) (kinds : list EntityKind) (b : Budget) : Prop :=
  match (collect_surface expired index o mode (search_text mode text) kinds b).1,
        linear_oracle_ids index o mode text with
  | inl _, inl _ => True
  | inr c, inr ids =>
      (∀ id, id ∈ cs_ids c → shown kinds id = true → id ∈ ids) ∧
      (cs_complete c = true →
         List.filter (shown kinds) (ascending (cs_ids c)) = List.filter (shown kinds) ids) ∧
      ((∀ n, expired n = false) → bg_timed_out b = false → few mode (search_text mode text) →
         cs_complete c = true)
  | _, _ => False
  end.

Variable expired : nat → bool.
Hypothesis WI : wf_index index.
Hypothesis WO : wf_overlay index o.

Lemma live_text id : live index o id = true → is_Some (normalized_of index o id).
Proof.
  intros L. pose proof L as [T B]%(live_iff expired index o WO).
  destruct (decide (id ∈ surface_tombstones o)) as [S|S].
  - apply (surface_override index o WO) in S as [t E]. exists t.
    apply (text_of_live expired index o WI WO); [done|]. left. by left.
  - destruct (decide (id < length (entities index))) as [Lt|Ge].
    + exists (text_at index id). apply (text_of_live expired index o WI WO); [done|]. right. split; [done|].
      by apply text_at_some.
    + rewrite <-(wo_base _ _ WO) in Ge.
      destruct (lookup_lt_is_Some_2 (ov_normalized o) (id - base_entity_count o)) as [t E].
      { rewrite (wo_texts _ _ WO), length_map. lia. }
      exists t. apply (text_of_live expired index o WI WO); [done|]. left. right.
      exists (id - base_entity_count o). split; [lia|done].
Qed.
Lemma passes_iff test id : live index o id = true →
  passes index o test id ↔ test (default "" (normalized_of index o id)) = true.
Proof. intros [t E]%live_text. unfold passes. rewrite E. naive_solver. Qed.

(** The scan of the verifier. *)
Lemma elem_of_scan f id :
  id ∈ List.filter (λ id, live index o id && f id) (seq 0 (base_entity_count o + length (ov_entities o))) ↔
  live index o id = true ∧ f id = true.
Proof.
  rewrite elem_of_list_filter, andb_true_iff, elem_of_seq. split; [tauto|].
  intros [L F]. pose proof L as [_ B]%(live_iff expired index o WO). split; [done|lia].
Qed.
Lemma hits_bound (test : string → bool) (X : gset EntityId) limit :
  X ⊆ overlay_hits o test ∪ base_hits index o test →
  (Z.of_nat (length (matching test)) < limit)%Z → (limit <=? Z.of_nat (size X))%Z = false.
Proof.
  intros S L. apply Z.leb_gt. enough (size X ≤ length (matching test)) by lia.
  etrans; [apply subseteq_size, S|].
  assert (overlay_hits o test ∪ base_hits index o test ⊆ list_to_set (matching test)) as S'.
  { intros id H. apply elem_of_list_to_set, elem_of_list_filter. rewrite elem_of_seq.
    apply elem_of_union in H as [(t & N & P)%(elem_of_overlay_hits index o WI WO)|(Lt & [T S']%(hidden_false expired) & P)%(elem_of_base_hits index o WI WO)].
    - assert (normalized_of index o id = Some t ∧ id < base_entity_count o + length (ov_entities o)) as [-> B]; [|split; [done|lia]].
      destruct N as [E|(i & -> & E)].
      + unfold normalized_of. rewrite E. split; [done|].
        assert (id ∈ surface_tombstones o) as S2%(wo_override_base _ _ WO); [|lia].
        apply (surface_override index o WO). by rewrite E.
      + pose proof (lookup_lt_Some _ _ _ E) as Li. rewrite (wo_texts _ _ WO), length_map in Li. split; [|lia].
        unfold normalized_of. destruct (normalized_overrides o !! (base_entity_count o + i)) eqn:E'.
        { assert (base_entity_count o + i ∈ surface_tombstones o) as S2%(wo_override_base _ _ WO); [|lia].
          apply (surface_override index o WO). by rewrite E'. }
        rewrite decide_False by lia. unfold own_normalized. rewrite E', decide_False by lia.
        by replace (base_entity_count o + i - base_entity_count o) with i by lia.
    - rewrite (proj2 (text_of_live expired index o WI WO id (text_at index id) T)), (wo_base _ _ WO).
      + split; [done|lia].
      + right. split; [done|by apply text_at_some]. }
  etrans; [apply subseteq_size, S'|]. apply size_list_to_set_le.
Qed.

(** A collector, restricted to the kinds asked for. *)
Definition surface_run (m : Q CandidateSet) (kinds : list EntityKind) : Q CandidateSet :=
  c ← m;
  s ← restrict_candidate_kinds expired index o kinds (cs_ids c);
  timed ← timed_out;
  mret (mkCandidates s.1 (cs_complete c && s.2) (cs_timed_out c || timed) (cs_estimated c)
          (cs_strategy c) (cs_match_kind c)).

Lemma run_agrees m (P : EntityId → Prop) kinds ids b :
  (∀ b, (∀ id, live index o id = true → id ∈ cs_ids (m b).1 → P id) ∧
        (cs_complete (m b).1 = true → ∀ id, live index o id = true → kind_allowed index o kinds id = true →
           P id → id ∈ cs_ids (m b).1)) →
  (∀ id, live index o id = true → P id ↔ id ∈ ids) → StronglySorted lt ids →
  let c := (surface_run m kinds b).1 in
  (∀ id, id ∈ cs_ids c → shown kinds id = true → id ∈ ids) ∧
  (cs_complete c = true → List.filter (shown kinds) (ascending (cs_ids c)) = List.filter (shown kinds) ids).
Proof.
  intros H HP S. unfold surface_run, mbind, Q_bind, timed_out.
  destruct (restricted expired index o WI WO m P kinds H b) as [R1 R2].
  destruct (m b) as [c b1]. cbn [fst snd] in R1, R2.
  destruct (restrict_candidate_kinds expired index o kinds (cs_ids c) b1) as [s b2].
  cbn [mret Q_ret fst snd cs_ids cs_complete] in *. unfold shown. split.
  - intros id Hid [L _]%andb_true_iff. apply HP; [done|]. by apply R1.
  - intros Hc. apply sorted_same; [apply filter_sorted, ascending_sorted|by apply filter_sorted|].
    intros id. rewrite !elem_of_list_filter, elem_of_ascending, andb_true_iff. split.
    + intros [[L Hk] Hid]. split; [done|]. apply HP; [done|]. by apply R1.
    + intros [[L Hk] Hid]. split; [done|]. apply (R2 Hc id L). split; [by apply HP|done].
Qed.
Lemma run_sound m (P : EntityId → Prop) kinds (ids : list EntityId) b :
  (∀ b id, live index o id = true → id ∈ cs_ids (m b).1 → P id) →
  (∀ id, live index o id = true → P id ↔ id ∈ ids) →
  ∀ id, id ∈ cs_ids (surface_run m kinds b).1 → shown kinds id = true → id ∈ ids.
Proof.
  intros H HP.
  set (m' := (λ b, let '(c, b1) := m b in
    (mkCandidates (cs_ids c) false (cs_timed_out c) (cs_estimated c) (cs_strategy c) (cs_match_kind c), b1)) : Q CandidateSet).
  destruct (restricted expired index o WI WO m' P kinds) with (b := b) as [R _].
  { intros b0. unfold m'. specialize (H b0). destruct (m b0) as [c b1]. by split. }
  unfold surface_run, mbind, Q_bind, timed_out, m' in *. destruct (m b) as [c b1]. cbn [fst snd cs_ids] in *.
  destruct (restrict_candidate_kinds expired index o kinds (cs_ids c) b1) as [s b2].
  cbn [mret Q_ret fst snd cs_ids cs_complete] in *. unfold shown.
  intros id Hid [L _]%andb_true_iff. apply HP; [done|]. by apply R.
Qed.
Lemma run_finishes m kinds b : (∀ n, expired n = false) → finishes (found_of m) → calm b →
  cs_complete (surface_run m kinds b).1 = true.
Proof.
  intros X F C. unfold surface_run, mbind, Q_bind, timed_out. destruct (F b C) as [F1 F2].
  unfold found_of, mbind, Q_bind in F1, F2. destruct (m b) as [c b1]. cbn [mret Q_ret fst snd] in *.
  destruct (restrict_finishes expired index o kinds (cs_ids c) X b1 F2) as [G1 G2].
  destruct (restrict_candidate_kinds expired index o kinds (cs_ids c) b1) as [s b2].
  cbn [mret Q_ret fst snd cs_complete] in *. by rewrite F1, G1.
Qed.
(** A collector that gives exactly a set. *)
Lemma gives_run m X (P : EntityId → Prop) kinds :
  gives (found_of m) X → (∀ id, live index o id = true → id ∈ X ↔ P id) →
  ∀ b, (∀ id, live index o id = true → id ∈ cs_ids (m b).1 → P id) ∧
       (cs_complete (m b).1 = true → ∀ id, live index o id = true → kind_allowed index o kinds id = true →
          P id → id ∈ cs_ids (m b).1).
Proof.
  intros G E b. destruct (G b) as [G1 G2]. unfold found_of, mbind, Q_bind in G1, G2.
  destruct (m b) as [c b1]. cbn [mret Q_ret fst snd] in *. split.
  - intros id L Hid. apply E; [done|]. by apply G1.
  - intros Hc id L _ HP. rewrite (G2 Hc). by apply E.
Qed.

Definition scan_ids (f : EntityId → bool) : list EntityId :=
  List.filter (λ id, live index o id && f id) (seq 0 (base_entity_count o + length (ov_entities o))).
Lemma scan_sorted f : StronglySorted lt (scan_ids f).
Proof. apply filter_sorted, seq_sorted. Qed.

Lemma prefix_subset text : prefix_hits index o text ⊆ overlay_hits o (String.prefix text) ∪ base_hits index o (String.prefix text).
Proof.
  unfold prefix_hits. apply union_mono; [|done]. intros id ([t ids] & H & Hid)%elem_of_union_fmap.
  apply name_entries_elem in H. unfold name_part in Hid. simpl in Hid.
  destruct (String.prefix text t) eqn:P; [|set_solver]. apply (elem_of_overlay_hits index o WI WO).
  exists t. split; [|done]. apply (wo_names_sound _ _ WO). by rewrite H.
Qed.

Lemma names_agree mode text kinds b m test :
  (∀ b, (collect_surface expired index o mode (normalize_ascii text) kinds b).1 = inr (surface_run m kinds b).1) →
  linear_oracle_ids index o mode text = inr (scan_ids (oracle_match index o mode (normalize_ascii text) (λ _, false))) →
  (∀ id, oracle_match index o mode (normalize_ascii text) (λ _, false) id = test (default "" (normalized_of index o id))) →
  search_text mode text = normalize_ascii text →
  (∀ b, (∀ id, live index o id = true → id ∈ cs_ids (m b).1 → passes index o test id) ∧
        (cs_complete (m b).1 = true → ∀ id, live index o id = true → kind_allowed index o kinds id = true →
           passes index o test id → id ∈ cs_ids (m b).1)) →
  (few mode (normalize_ascii text) → (∀ n, expired n = false) → finishes (found_of m)) →
  agrees expired mode text kinds b.
Proof.
  intros EC EO EM ES H F. unfold agrees. rewrite ES, EC, EO.
  destruct (run_agrees m (passes index o test) kinds
    (scan_ids (oracle_match index o mode (normalize_ascii text) (λ _, false))) b H) as [R1 R2].
  - intros id L. rewrite passes_iff by done. unfold scan_ids. rewrite elem_of_scan, EM. tauto.
  - apply scan_sorted.
  - split; [done|]. split; [done|]. intros X' C Fe. apply run_finishes; auto.
Qed.

Lemma substring_pair text kinds b :
  (∀ id, live index o id = true → id ∈ cs_ids (collect_substring expired index o text kinds b).1 →
     passes index o (contains text) id) ∧
  (cs_complete (collect_substring expired index o text kinds b).1 = true →
     ∀ id, live index o id = true → kind_allowed index o kinds id = true →
       passes index o (contains text) id → id ∈ cs_ids (collect_substring expired index o text kinds b).1).
Proof.
  destruct (substring_between expired index o WI WO text kinds b) as [B1 B2].
  unfold found_of, mbind, Q_bind in B1, B2.
  destruct (collect_substring expired index o text kinds b) as [c b1]. cbn [mret Q_ret fst snd] in *. split.
  - intros id L Hid. apply (substring_spec expired index o WI WO); [done|]. by apply B1.
  - intros Hc id L Hk HP. apply (B2 Hc), elem_of_allowed; try done. split; [done|].
    by apply (substring_spec expired index o WI WO).
Qed.

Lemma numeric_agrees text kinds b : agrees expired Numeric text kinds b.
Proof.
  unfold agrees, search_text, linear_oracle_ids. cbv zeta.
  unfold collect_surface, collect_numeric. rewrite parse_number_lower.
  destruct (parse_number text) as [value|]; [|done].
  set (m := '(s, _) ← each (ticked expired index incomplete take_id) (equal_range value (ov_numeric o)) (∅, true);
            '(s, _) ← each (numeric_base expired index o) (equal_range value (numeric index)) s;
            timed ← timed_out;
            mret (mkCandidates s.1 s.2 timed (Some (size s.1)) "sorted_numeric" MatchKind.Numeric) : Q CandidateSet).
  assert (∀ b, found_of m b = numeric_run expired index o value b) as E.
  { intros b0. unfold found_of, m, numeric_run, mbind, Q_bind. cbn [mret Q_ret].
    destruct (each _ (equal_range value (ov_numeric o)) _ b0) as [[s t] b1]. cbn [mret Q_ret].
    by destruct (each _ _ _ b1) as [[[ids c] t'] b2]. }
  pose proof (gives_run m (numeric_hits index o value) (λ id, id ∈ oracle_numeric index o value) kinds) as G.
  specialize (G (gives_ext _ _ _ E (numeric_gives expired index o value)) (numeric_spec expired index o WI WO value)).
  destruct (run_agrees m _ kinds (ascending (oracle_numeric index o value)) b G) as [R1 R2].
  { intros id _. by rewrite elem_of_ascending. }
  { apply ascending_sorted. }
  pose proof (λ X, run_finishes m kinds b X (finishes_ext _ _ E (numeric_finishes expired index o value X))) as R3.
  unfold surface_run, m, mbind, Q_bind in *.
  destruct (each _ (equal_range value (ov_numeric o)) _ b) as [[s t] b1]. cbn [mret Q_ret] in *.
  destruct (each _ _ _ b1) as [[s' t'] b2]. cbn [mret Q_ret timed_out] in *.
  destruct (restrict_candidate_kinds expired index o kinds _ b2) as [s2 b3]. cbn [mret Q_ret fst snd] in *.
  split; [done|]. split; [done|]. intros X C _. by apply R3.
Qed.

(** The collector of a valid expression. *)
Definition regex_run (text : string) (kinds : list EntityKind) : Q CandidateSet :=
  r ← collect_regex expired index o text kinds;
  mret (match r with inr c => c | inl _ => mkCandidates ∅ true false None "" MatchKind.Regex end).
Lemma regex_run_eq text kinds is_match b : regex_new text = inr is_match →
  ∃ c, (collect_regex expired index o text kinds b).1 = inr c ∧
    regex_run text kinds b = (c, (collect_regex expired index o text kinds b).2).
Proof.
  intros R. pose proof (regex_between expired index o WI WO text kinds is_match R b) as H.
  unfold regex_run, mbind, Q_bind. destruct (collect_regex expired index o text kinds b) as [[e|c] b1]; [done|]. by exists c.
Qed.
Lemma regex_surface text kinds is_match b : regex_new text = inr is_match →
  ∃ c, (collect_surface expired index o Regex text kinds b).1 = inr c ∧
    (surface_run (regex_run text kinds) kinds b).1 = c.
Proof.
  intros R. destruct (regex_run_eq text kinds is_match b R) as (c & Ec & Em).
  unfold collect_surface, surface_run, mbind, Q_bind in *. rewrite Em.
  destruct (collect_regex expired index o text kinds b) as [r b1]. cbn [fst snd] in *. subst r.
  destruct (restrict_candidate_kinds expired index o kinds (cs_ids c) b1) as [s b2]. cbn [mret Q_ret]. eauto.
Qed.
Lemma displays_scan text is_match id : live index o id = true →
  displays index o is_match id ↔ id ∈ scan_ids (oracle_match index o Regex text is_match).
Proof.
  intros L. unfold scan_ids. rewrite elem_of_scan. unfold displays, oracle_match.
  destruct (display_of index o id) as [d|]; naive_solver.
Qed.

Lemma regex_sound text kinds b : sound expired Regex text kinds b.
Proof.
  unfold sound, search_text, linear_oracle_ids. cbv zeta.
  destruct (regex_new text) as [message|is_match] eqn:R.
  { unfold collect_surface, collect_regex. by rewrite R. }
  destruct (regex_surface text kinds is_match b R) as (c & -> & <-).
  apply (run_sound _ (displays index o is_match)); [|intros id; apply displays_scan].
  intros b0. destruct (regex_run_eq text kinds is_match b0 R) as (c0 & Ec & ->). cbn [fst].
  pose proof (regex_between expired index o WI WO text kinds is_match R b0) as H. rewrite Ec in H. apply H.
Qed.

Lemma regex_agrees text kinds b :
  (∀ is_match, regex_new text = inr is_match → literal_honoured text is_match) →
  agrees expired Regex text kinds b.
Proof.
  intros Hon. unfold agrees, search_text, linear_oracle_ids. cbv zeta.
  destruct (regex_new text) as [message|is_match] eqn:R.
  { unfold collect_surface, collect_regex. by rewrite R. }
  specialize (Hon is_match eq_refl).
  destruct (regex_surface text kinds is_match b R) as (c & -> & <-).
  destruct (run_agrees (regex_run text kinds) (displays index o is_match) kinds
    (scan_ids (oracle_match index o Regex (normalize_ascii text) is_match)) b) as [R1 R2].
  { intros b0. destruct (regex_run_eq text kinds is_match b0 R) as (c0 & Ec & ->). cbn [fst].
    pose proof (regex_between expired index o WI WO text kinds is_match R b0) as H. rewrite Ec in H.
    split; [apply H|]. by apply H. }
  { intros id. apply displays_scan. }
  { apply scan_sorted. }
  split; [done|]. split; [done|]. by intros _ _ [].
Qed.

Lemma agrees_sound mode text kinds b : agrees expired mode text kinds b → sound expired mode text kinds b.
Proof.
  unfold agrees, sound. destruct (collect_surface _ _ _ _ _ _ _) as [[e|c] b1]; cbn [fst];
    destruct (linear_oracle_ids _ _ _ _); try done. by intros [? _].
Qed.

(** Each mode the verifier scans for. *)
Lemma surface_agrees mode text kinds b :
  scanned mode →
  (mode = Regex → ∀ is_match, regex_new text = inr is_match → literal_honoured text is_match) →
  agrees expired mode text kinds b.
Proof.
  intros [-> | [-> | [-> | [-> | ->]]]] Hon.
  - apply names_agree with (m := collect_exact expired index o (normalize_ascii text))
      (test := λ t, String.eqb t (normalize_ascii text)); [|done|done|done| |].
    + intros b0. unfold collect_surface, surface_run, mbind, Q_bind.
      destruct (collect_exact _ _ _ _ b0) as [c b1]. cbn [mret Q_ret].
      by destruct (restrict_candidate_kinds expired index o kinds (cs_ids c) b1) as [s b2].
    + eapply gives_run; [apply exact_gives|]. intros id L. by apply (exact_spec expired index o WI WO).
    + intros _ X. by apply exact_finishes.
  - apply names_agree with (m := collect_prefix expired index o (normalize_ascii text))
      (test := String.prefix (normalize_ascii text)); [|done|done|done| |].
    + intros b0. unfold collect_surface, surface_run, mbind, Q_bind.
      destruct (collect_prefix _ _ _ _ b0) as [c b1]. cbn [mret Q_ret].
      by destruct (restrict_candidate_kinds expired index o kinds (cs_ids c) b1) as [s b2].
    + eapply gives_run; [apply (prefix_gives expired index o WI WO)|].
      intros id L. by apply (prefix_spec expired index o WI WO).
    + intros Fe X. apply (prefix_finishes expired index o WI WO); [done|].
      eapply hits_bound; [apply prefix_subset|exact Fe].
  - apply names_agree with (m := collect_substring expired index o (normalize_ascii text) kinds)
      (test := contains (normalize_ascii text)); [|done|done|done| |].
    + intros b0. unfold collect_surface, surface_run, mbind, Q_bind.
      destruct (collect_substring _ _ _ _ _ b0) as [c b1]. cbn [mret Q_ret].
      by destruct (restrict_candidate_kinds expired index o kinds (cs_ids c) b1) as [s b2].
    + intros b0. apply substring_pair.
    + intros Fe X. apply (substring_finishes expired index o WI WO); [done|].
      apply (hits_bound (contains (normalize_ascii text))); [done|exact Fe].
  - apply numeric_agrees.
  - apply regex_agrees. by apply Hon.
Qed.
(** Whatever the expression, a search shows nothing else. *)
Lemma surface_sound mode text kinds b : scanned mode → sound expired mode text kinds b.
Proof.
  intros S. destruct (decide (mode = Regex)) as [->|N]; [apply regex_sound|].
  by apply agrees_sound, surface_agrees.
Qed.
End surface.
