(* ===== verification/BelBuildFacts.v ===== *)
(** The index the builder makes is well formed. A step [m] has [wp m P] when it
    ends with a value in [P] or with an error that is allowed: the cancellation
    or the deadline the control reports, or too many entities. *)

From Stdlib Require Import Strings.Ascii Strings.String.
From S2P Require Import Prelude Text Data Ops Activity Loader Cfg CfgFrontier CodeIndex Callees Bel BelBuild BelQuery BelFacts.
Import Signature (SparseFunctionSignature).

Local Open Scope string_scope.
Local Open Scope list_scope.
Local Open Scope nat_scope.

(** ** Steps *)

Section steps.
Variable check : nat → option BelBuildError.

Definition allowed (e : BelBuildError) : Prop := e = TooManyEntities ∨ ∃ n, check n = Some e.
Definition wp {A} (m : M A) (P : A → Prop) : Prop :=
  ∀ n, match m n with inl e => allowed e | inr (x, _) => P x end.

Lemma wp_ret {A} (x : A) P : P x → wp (mret x) P.
Proof. intros H n. exact H. Qed.
Lemma wp_bind {A B} (m : M A) (k : A → M B) P :
  wp m (λ x, wp (k x) P) → wp (x ← m; k x) P.
Proof.
  intros H n. unfold mbind, M_bind. specialize (H n). destruct (m n) as [e|[x n']]; [done|]. apply H.
Qed.
Lemma wp_mono {A} (m : M A) (P P' : A → Prop) : wp m P → (∀ x, P x → P' x) → wp m P'.
Proof. intros H I n. specialize (H n). destruct (m n) as [e|[x n']]; auto. Qed.
Lemma wp_foldM {A B} (f : B → A → M B) (I : list A → B → Prop) l b :
  I [] b → (∀ pre x b, pre ++ [x] `prefix_of` l → I pre b → wp (f b x) (I (pre ++ [x]))) →
  wp (foldM f l b) (I l).
Proof.
  intros H0 Hs. assert (∀ pre post b, l = pre ++ post → I pre b → wp (foldM f post b) (I l)) as G.
  { intros pre post. revert pre. induction post as [|x post IH]; intros pre b0 E Hb.
    - rewrite app_nil_r in E. subst. by apply wp_ret.
    - cbn [foldM]. apply wp_bind. eapply wp_mono.
      + apply Hs; [|exact Hb]. exists post. rewrite E. by rewrite <-app_assoc.
      + intros b1 H1. apply (IH (pre ++ [x])); [|done]. rewrite E. by rewrite <-app_assoc. }
  by apply (G [] l).
Qed.
(** The same for an invariant that does not speak of the position. *)
Lemma wp_foldM_inv {A B} (f : B → A → M B) (I : B → Prop) l b :
  I b → (∀ x b, x ∈ l → I b → wp (f b x) I) → wp (foldM f l b) I.
Proof.
  intros H0 Hs. apply (wp_foldM f (λ _, I)); [done|]. intros pre x b0 [post E] Hb. apply Hs; [|done].
  rewrite E. set_solver.
Qed.

Lemma wp_check_active P : P () → wp (check_active check) P.
Proof. intros H n. unfold check_active. destruct (check n) eqn:E; [right; eauto|done]. Qed.
Lemma wp_checkpoint config completed total P : P () → wp (checkpoint config check completed total) P.
Proof. intros H. unfold checkpoint. case_match; [by apply wp_check_active|by apply wp_ret]. Qed.
Lemma wp_check_at config position P : P () → wp (check_at config check position) P.
Proof. intros H. unfold check_at. case_match; [by apply wp_check_active|by apply wp_ret]. Qed.
End steps.

(** ** Text in lower case *)

Lemma lower_ident c : is_ident_char (to_ascii_lowercase c) = is_ident_char c.
Proof. destruct c as [[] [] [] [] [] [] [] []]; vm_compute; reflexivity. Qed.
Lemma lower_not_upper c : is_ascii_uppercase c = false → to_ascii_lowercase c = c.
Proof. unfold is_ascii_uppercase, to_ascii_lowercase. rewrite bool_decide_eq_false. intros N. by rewrite decide_False. Qed.
Lemma no_uppercase s : has_uppercase s = false → normalize_ascii s = s.
Proof.
  unfold has_uppercase. induction s as [|c s IH]; [done|]. cbn [list_ascii_of_string existsb normalize_ascii].
  intros [H1 H2]%orb_false_iff. by rewrite lower_not_upper, IH.
Qed.
Lemma lowered s : (if has_uppercase s then normalize_ascii s else s) = normalize_ascii s.
Proof. destruct (has_uppercase s) eqn:E; [done|]. by rewrite no_uppercase. Qed.

Lemma split_tokens_lower cur s :
  split_tokens (normalize_ascii cur) (normalize_ascii s) = map normalize_ascii (split_tokens cur s).
Proof.
  revert cur. induction s as [|c s IH]; intros cur; [done|]. cbn [normalize_ascii split_tokens].
  rewrite lower_ident. destruct (is_ident_char c); [|by cbn [map]; rewrite <-(IH "")].
  rewrite <-IH, normalize_app. done.
Qed.
Lemma has_token_iff token text : has_token token text = true ↔ token ∈ split_tokens "" text.
Proof.
  unfold has_token. rewrite existsb_exists. setoid_rewrite <-list_elem_of_In. split.
  - intros (x & H & E%String.eqb_eq). by subst.
  - intros H. exists token. by rewrite String.eqb_refl.
Qed.

(** ** Postings *)

Lemma elem_of_post {K} `{Countable K} (k k' : K) x y (m : gmap K (gset EntityId)) :
  y ∈ default ∅ (post k x m !! k') ↔ (k = k' ∧ y = x) ∨ y ∈ default ∅ (m !! k').
Proof.
  unfold post. destruct (decide (k = k')) as [->|N].
  - rewrite lookup_insert_eq. cbn [default]. set_solver.
  - rewrite lookup_insert_ne by done. naive_solver.
Qed.

Lemma insert_token_spec instruction_id function_id postings raw token id :
  id ∈ default ∅ (insert_token instruction_id function_id postings raw !! token) ↔
    id ∈ default ∅ (postings !! token) ∨
    (token = normalize_ascii raw ∧ (id = instruction_id ∨ function_id = Some id)).
Proof.
  unfold insert_token. rewrite lowered. cbv zeta.
  destruct function_id as [f|]; rewrite !elem_of_post; naive_solver.
Qed.
Lemma insert_tokens_spec postings text instruction_id function_id token id : token ≠ "" →
  id ∈ default ∅ (insert_instruction_tokens postings text instruction_id function_id !! token) ↔
    id ∈ default ∅ (postings !! token) ∨
    (has_token token (normalize_ascii text) = true ∧ (id = instruction_id ∨ function_id = Some id)).
Proof.
  intros N. rewrite has_token_iff. unfold insert_instruction_tokens.
  rewrite (split_tokens_lower "" text : split_tokens "" (normalize_ascii text) = _).
  generalize (split_tokens "" text). intros l. revert postings.
  induction l as [|t l IH]; intros postings; cbn [List.filter foldl map].
  { split; [by left|]. by intros [?|[?%not_elem_of_nil _]]. }
  rewrite elem_of_cons. unfold is_empty_str at 1. case_bool_decide as E; cbn [negb].
  - subst t. rewrite IH. naive_solver.
  - cbn [foldl]. rewrite IH, insert_token_spec. naive_solver.
Qed.

(** ** The builder *)

Section builder.
Context `{FM : !Formatter, FL : !FstLib, FW : !FstLaws}.
Variable an : Analysed.
Variable config : BelConfig.
Variable check : nat → option BelBuildError.
Notation p := (an_project an).
Notation wp := (wp check).

Record good (b : IndexBuilder) : Prop := mkGood {
  g_ids i e : b_entities b !! i = Some e → en_id e = i;
  g_texts : b_normalized b = map (λ e, normalize_ascii (en_display e)) (b_entities b);
  g_functions va id : b_function_by_va b !! va = Some id →
    ∃ e, b_entities b !! id = Some e ∧ en_kind e = EntityKind.Function ∧ en_va e = Some va;
  g_ranges r : r ∈ b_function_ranges b → b_function_by_va b !! r.1.1 = Some r.2;
  g_slots k id : b_slots b !! k = Some id →
    ∃ e, b_entities b !! id = Some e ∧ en_kind e ≠ EntityKind.Function ∧ en_kind e ≠ EntityKind.Instruction;
  g_tokens token id : token ≠ "" →
    id ∈ default ∅ (b_tokens b !! token) ↔
      ∃ e, e ∈ b_entities b ∧ en_kind e = EntityKind.Instruction ∧
        has_token token (normalize_ascii (en_display e)) = true ∧
        (id = en_id e ∨ en_func_entry e ≫= (b_function_by_va b !!.) = Some id);
  g_inj k k' id : b_slots b !! k = Some id → b_slots b !! k' = Some id → k = k'
}.

(** What a step that adds an entity leaves. *)
Definition pushed (b b' : IndexBuilder) (e : Entity) : Prop :=
  b_entities b' = b_entities b ++ [e] ∧
  b_normalized b' = b_normalized b ++ [normalize_ascii (en_display e)] ∧
  b_function_by_va b' = b_function_by_va b ∧ b_function_ranges b' = b_function_ranges b ∧
  b_slots b' = b_slots b ∧ b_tokens b' = b_tokens b.

Lemma wp_push kind display va file_offset func_entry b (P : EntityId * IndexBuilder → Prop) :
  (∀ b', pushed b b' (mkEntity (length (b_entities b)) kind display va file_offset func_entry) →
     P (length (b_entities b), b')) →
  wp (push_entity kind display va file_offset func_entry b) P.
Proof.
  intros H n. unfold push_entity. destruct (_ <? _)%Z; [by left|]. apply H.
  unfold pushed. cbn. by rewrite lowered.
Qed.

(** Adding an entity that is not an instruction. *)
Lemma good_pushed b b' e : good b → pushed b b' e → en_id e = length (b_entities b) →
  en_kind e ≠ EntityKind.Instruction → good b'.
Proof.
  intros [G1 G2 G3 G4 G5 G6 G7] (E1 & E2 & E3 & E4 & E5 & E6) Ei Ek. split; [| | | | | |by rewrite E5].
  - intros i e'. rewrite E1. intros [H|[H1 H2]]%lookup_app_Some; [by apply G1|].
    apply list_lookup_singleton_Some in H2 as [H2 <-]. lia.
  - by rewrite E1, E2, map_app, G2.
  - intros va id. rewrite E3. intros (e' & H & ?)%G3. exists e'. split; [|done]. rewrite E1. by apply lookup_app_l_Some.
  - intros r. rewrite E4, E3. apply G4.
  - intros k id. rewrite E5. intros (e' & H & ?)%G5. exists e'. split; [|done]. rewrite E1. by apply lookup_app_l_Some.
  - intros token id N. rewrite E6, (G6 token id N), E1, E3. split; intros (e' & H & H2); exists e'; (split; [|done]).
    + apply elem_of_app. by left.
    + apply elem_of_app in H as [H|H]; [done|]. apply list_elem_of_singleton in H as ->. by destruct H2.
Qed.

(** Fields the invariant does not read. *)
Definition same_core (b b' : IndexBuilder) : Prop :=
  b_entities b' = b_entities b ∧ b_normalized b' = b_normalized b ∧
  b_function_by_va b' = b_function_by_va b ∧ b_function_ranges b' = b_function_ranges b ∧
  b_slots b' = b_slots b ∧ b_tokens b' = b_tokens b.
Lemma good_core b b' : same_core b b' → good b → good b'.
Proof.
  intros (E1 & E2 & E3 & E4 & E5 & E6) [G1 G2 G3 G4 G5 G6 G7].
  split; rewrite ?E1, ?E2, ?E3, ?E4, ?E5, ?E6; auto.
Qed.
Lemma good_slot b k id e : good b → b_entities b !! id = Some e →
  en_kind e ≠ EntityKind.Function → en_kind e ≠ EntityKind.Instruction →
  (∀ k', b_slots b !! k' ≠ Some id) → good (with_slot k id b).
Proof.
  intros [G1 G2 G3 G4 G5 G6 G7] He K1 K2 Fr. split; try done.
  - intros k' id'. cbn. intros [[<- <-]|[_ H]]%lookup_insert_Some; [by exists e|by eapply G5].
  - intros k1 k2 id'. cbn. rewrite !lookup_insert_Some. specialize (G7 k1 k2 id'). naive_solver.
Qed.
Lemma pushed_last b b' e : pushed b b' e → b_entities b' !! length (b_entities b) = Some e.
Proof. intros (-> & _). by apply list_lookup_middle. Qed.

Lemma new_builder_good : good new_builder.
Proof.
  split; [done|done|done|by intros r ?%not_elem_of_nil|done| |done].
  intros token id _. cbn. rewrite lookup_empty. split; [by intros ?%not_elem_of_empty|].
  by intros (e & ?%not_elem_of_nil & _).
Qed.

(** *** Functions *)

Definition keyed : Prop := ∀ fe f, functions p !! fe = Some f → Functions.fn_entry_va f = fe.
Lemma keyed_entries : keyed → NoDup (map Functions.fn_entry_va (btree_values (functions p))).
Proof.
  intros K. unfold btree_values. pose proof (btree_entries_perm (functions p)) as P.
  assert (∀ l : list (Z * Functions.Function), (∀ x, x ∈ l → Functions.fn_entry_va x.2 = x.1) →
    map Functions.fn_entry_va l.*2 = l.*1) as E.
  { induction l as [|x l IH]; intros H; [done|]. csimpl. rewrite (H x) by (by left).
    f_equal. apply IH. intros y Hy. apply H. by right. }
  rewrite E; [rewrite P; apply NoDup_fst_map_to_list|].
  intros [fe f] H%elem_of_btree_entries. by apply K.
Qed.

(** The builder while functions are added. *)
Record functions_only (entries : list Z) (b : IndexBuilder) : Prop := mkFunctionsOnly {
  fo_good : good b;
  fo_kinds e : e ∈ b_entities b → en_kind e = EntityKind.Function;
  fo_tokens : b_tokens b = ∅;
  fo_entries va : is_Some (b_function_by_va b !! va) ↔ va ∈ entries
}.
Lemma add_function_good entries position f b :
  Functions.fn_entry_va f ∉ entries → functions_only entries b →
  wp (add_function an config check b (position, f)) (functions_only (entries ++ [Functions.fn_entry_va f])).
Proof.
  intros N [G K T En]. unfold add_function. cbv zeta. apply wp_bind, wp_checkpoint, wp_bind, wp_push.
  set (entry := Functions.fn_entry_va f) in *. intros b' Hp. apply wp_ret.
  set (id := length (b_entities b)) in *.
  assert (good b') as G'.
  { eapply good_pushed; [exact G|exact Hp|done|done]. }
  pose proof (pushed_last _ _ _ Hp) as He. fold id in He. destruct Hp as (E1 & E2 & E3 & E4 & E5 & E6).
  destruct G' as [G1 G2 G3 G4 G5 G6 G7]. split; [split; [| | | | | |exact G7]| | |]; cbn.
  - done.
  - done.
  - intros va i. intros [[<- <-]|[Ne H]]%lookup_insert_Some; [by eexists|by apply G3].
  - intros r. intros [H|H]%elem_of_app.
    + rewrite lookup_insert_ne; [by apply G4|]. intros Ee. apply G4 in H. rewrite E3, <-Ee in H.
      apply N, En. by rewrite H.
    + apply list_elem_of_singleton in H as ->. apply lookup_insert_eq.
  - done.
  - intros token i _. rewrite E6, T, lookup_empty. split; [by intros ?%not_elem_of_empty|].
    intros (e & H & Ke & _). rewrite E1 in H. apply elem_of_app in H as [H|H]; [by rewrite K in Ke|].
    by apply list_elem_of_singleton in H as ->.
  - intros e. rewrite E1. intros [H|H]%elem_of_app; [by apply K|]. by apply list_elem_of_singleton in H as ->.
  - by rewrite E6.
  - intros va. rewrite lookup_insert_is_Some, E3, En, elem_of_app, list_elem_of_singleton.
    destruct (decide (entry = va)); naive_solver.
Qed.
Lemma imap_pair_values {A} (l : list A) : (imap pair l).*2 = l.
Proof.
  rewrite fmap_imap. rewrite (imap_ext _ (const Datatypes.id)) by done. by rewrite imap_const, list_fmap_id.
Qed.
Lemma add_functions_good : keyed → wp (add_functions an config check new_builder) good.
Proof.
  intros K. unfold add_functions. apply wp_bind.
  eapply wp_mono; [apply (wp_foldM _ _ (λ pre b, functions_only (map Functions.fn_entry_va pre.*2) b))|].
  - split; [apply new_builder_good|by intros e ?%not_elem_of_nil|done|].
    intros va. cbn. rewrite lookup_empty. split; [by intros []|by intros ?%not_elem_of_nil].
  - intros pre [position f] b Hpre Hb. rewrite fmap_app, map_app. apply add_function_good; [|exact Hb].
    destruct Hpre as [post E]. apply (f_equal (λ l, map Functions.fn_entry_va l.*2)) in E.
    cbv beta in E. rewrite imap_pair_values, !fmap_app in E. pose proof (keyed_entries K) as ND. rewrite E in ND.
    apply NoDup_app in ND as (ND & _). apply NoDup_app in ND as (_ & ND & _). intros H. by apply (ND _ H); left.
  - intros b Hb. cbv zeta. apply wp_bind, wp_checkpoint, wp_ret. destruct (fo_good _ _ Hb) as [G1 G2 G3 G4 G5 G6 G7].
    split; try done. cbn. intros r. rewrite merge_sort_Permutation. apply G4.
Qed.

(** *** Symbols, strings, annotations and motifs *)

Lemma good_push_step kind display va file_offset func_entry b (k : EntityId * IndexBuilder → M IndexBuilder) :
  kind ≠ EntityKind.Instruction → good b →
  (∀ b' id, good b' → b_entities b' !! id = Some (mkEntity id kind display va file_offset func_entry) →
     (∀ k', b_slots b' !! k' ≠ Some id) → wp (k (id, b')) good) →
  wp (r ← push_entity kind display va file_offset func_entry b; k r) good.
Proof.
  intros Hk G H. apply wp_bind, wp_push. intros b' Hp. apply H.
  - eapply good_pushed; [exact G|exact Hp|done|done].
  - by apply (pushed_last _ _ _ Hp).
  - destruct Hp as (_ & _ & _ & _ & -> & _). intros k' Hs. apply (g_slots _ G) in Hs as (e & He & _).
    apply lookup_lt_Some in He. lia.
Qed.

Lemma symbol_kind_plain k : symbol_entity_kind k ≠ EntityKind.Function ∧ symbol_entity_kind k ≠ EntityKind.Instruction.
Proof. by destruct k. Qed.
Lemma add_symbols_good b : good b → wp (add_symbols an config check b) good.
Proof.
  intros G. unfold add_symbols. cbv zeta. apply wp_bind. eapply wp_mono.
  - apply (wp_foldM_inv _ _ good); [done|]. intros [position [[va name] kind]] b' _ Gb.
    unfold add_symbol. apply wp_bind, wp_checkpoint.
    destruct (symbol_kind_plain kind) as [K1 K2].
    apply (good_push_step _ _ _ _ _ _ (λ '(id, b0), mret (with_slot _ id b0))); [done..|].
    intros b2 id G2 He Fr. apply wp_ret. by eapply good_slot.
  - intros b' Gb. by apply wp_bind, wp_checkpoint, wp_ret.
Qed.
Lemma add_strings_good b : good b → wp (add_strings an config check b) good.
Proof.
  intros G. unfold add_strings. cbv zeta. apply wp_bind. eapply wp_mono.
  - apply (wp_foldM_inv _ _ good); [done|]. intros [position [offset value]] b' _ Gb.
    unfold add_string. apply wp_bind, wp_checkpoint.
    apply (good_push_step _ _ _ _ _ _ (λ '(_, b0), mret b0)); [done..|]. intros b2 id G2 _ _. by apply wp_ret.
  - intros b' Gb. by apply wp_bind, wp_checkpoint, wp_ret.
Qed.

Lemma slot_kinds s : s ∈ current_annotation_slots p →
  sl_kind s ≠ EntityKind.Function ∧ sl_kind s ≠ EntityKind.Instruction.
Proof.
  unfold current_annotation_slots. rewrite !elem_of_app.
  intros [H|[H|[H|[H|[H|H]]]]]; apply list_elem_of_In, in_map_iff in H as (x & <- & _); try done.
  destruct x as [[va name] kind]. apply symbol_kind_plain.
Qed.
Lemma add_annotations_good b : good b → wp (add_annotations an config check b) good.
Proof.
  intros G. unfold add_annotations. cbv zeta. apply wp_bind. eapply wp_mono.
  - apply (wp_foldM_inv _ _ good); [done|]. intros [position s] b' Hs Gb.
    unfold add_annotation. apply wp_bind, wp_checkpoint. case_decide; [by apply wp_ret|].
    destruct (slot_kinds s) as [K1 K2].
    { apply (list_elem_of_fmap_2 snd) in Hs. rewrite imap_pair_values in Hs. unfold sorted_slots in Hs.
      by rewrite merge_sort_Permutation in Hs. }
    apply (good_push_step _ _ _ _ _ _ (λ '(id, b0), mret (with_slot (sl_slot s) id b0))); [done..|].
    intros b2 id G2 He Fr. apply wp_ret. by eapply good_slot.
  - intros b' Gb. by apply wp_bind, wp_checkpoint, wp_ret.
Qed.
Lemma add_motifs_good b : good b → wp (add_motifs an config check b) good.
Proof.
  intros G. unfold add_motifs. apply wp_bind. eapply wp_mono.
  - apply (wp_foldM_inv _ _ (λ _, True)); [done|]. intros [position f] m _ _.
    unfold detect_motifs. apply wp_bind, wp_checkpoint. case_match; by apply wp_ret.
  - intros detected _. apply wp_bind. eapply wp_mono.
    + apply (wp_foldM_inv _ _ good); [done|]. intros [name fs] b' _ Gb. unfold push_motif.
      apply (good_push_step _ _ _ _ _ _ (λ '(id, b0), mret (set_surface id fs (with_motif name fs id b0)))); [done..|].
      intros b2 id G2 _ _. apply wp_ret. eapply good_core; [|exact G2]. done.
    + intros b' Gb. by apply wp_bind, wp_checkpoint, wp_ret.
Qed.

(** *** Instructions *)

Lemma add_instruction_good position dec b cursor : good b →
  wp (add_instruction an config check (b, cursor) (position, dec)) (λ r, good r.1).
Proof.
  intros G. unfold add_instruction. cbv zeta. apply wp_bind, wp_checkpoint, wp_bind, wp_push.
  set (cursor' := advance_cursor _ _ _ _).
  set (function_id := r ← b_function_ranges b !! cursor'; _).
  set (function_va := function_id ≫= _). intros b' Hp. apply wp_ret. cbn [fst].
  assert (∀ id, function_id = Some id ↔ function_va ≫= (b_function_by_va b !!.) = Some id) as Hf.
  { intros id. unfold function_va. destruct function_id as [f|] eqn:Ef; [|done]. cbn.
    unfold function_id in Ef. destruct (b_function_ranges b !! cursor') as [r|] eqn:Er; [|done]. cbn in Ef.
    case_match; [|done]. injection Ef as <-. apply list_elem_of_lookup_2, (g_ranges _ G) in Er.
    destruct (g_functions _ G _ _ Er) as (e & -> & _ & Ev). cbn. rewrite Ev. cbn. by rewrite Er. }
  pose proof G as [G1 G2 G3 G4 G5 G6 G7]. destruct Hp as (E1 & E2 & E3 & E4 & E5 & E6).
  split; cbn; [| | | | | |by rewrite E5].
  - intros i e. rewrite E1. intros [H|[H1 H2]]%lookup_app_Some; [by apply G1|].
    apply list_lookup_singleton_Some in H2 as [H2 <-]. cbn. lia.
  - by rewrite E1, E2, map_app, G2.
  - intros va id. rewrite E3. intros (e' & H & ?)%G3. exists e'. split; [|done]. rewrite E1. by apply lookup_app_l_Some.
  - intros r. rewrite E4, E3. apply G4.
  - intros k id. rewrite E5. intros (e' & H & ?)%G5. exists e'. split; [|done]. rewrite E1. by apply lookup_app_l_Some.
  - intros token id N. rewrite insert_tokens_spec, E6, (G6 token id N), E1, E3 by done.
    setoid_rewrite elem_of_app. setoid_rewrite list_elem_of_singleton. rewrite Hf. split.
    + intros [(e & H & H2)|(Ht & Hid)]; [by eauto|].
      exists (mkEntity (length (b_entities b)) EntityKind.Instruction (format (symbols p) (instr dec))
                (Some (ip dec)) None function_va). auto.
    + intros (e & [H|H] & Ke & Ht & Hid); [left; eauto|subst e; right; auto].
Qed.
Lemma add_instructions_good b : good b → wp (add_instructions an config check b) good.
Proof.
  intros G. unfold add_instructions. cbv zeta. apply wp_bind. eapply wp_mono.
  - apply (wp_foldM_inv _ _ (λ r, good r.1)); [done|]. intros [position dec] [b' cursor] _ Gb.
    by apply add_instruction_good.
  - intros [b' cursor] Gb. by apply wp_bind, wp_checkpoint, wp_ret.
Qed.

(** *** Relationships and the ontology *)

Lemma good_propagation pr b : good b → good (with_propagation pr b).
Proof. by apply good_core. Qed.
Lemma good_ontology on b : good b → good (with_ontology on b).
Proof. by apply good_core. Qed.

Lemma build_relationships_good b : good b → wp (build_relationships an config check b) good.
Proof.
  intros G. unfold build_relationships. cbv zeta. apply wp_bind. eapply wp_mono.
  - apply (wp_foldM_inv _ _ good); [done|]. intros [position e] b' _ Gb. unfold relate_entity.
    apply wp_bind, wp_checkpoint. case_match; [by apply wp_ret|]. cbv zeta.
    set (b2 := match en_func_entry e ≫= _ with Some _ => _ | None => _ end).
    assert (good b2) as G2 by (unfold b2; case_match; [by apply good_propagation|done]).
    destruct (en_va e); [|by apply wp_ret]. apply (wp_foldM_inv _ _ good); [done|].
    intros [xp x] b3 _ G3. unfold relate_xref. apply wp_bind, wp_check_at, wp_ret.
    case_match; [by apply good_propagation|done].
  - intros b' Gb. apply wp_bind. eapply wp_mono.
    + apply (wp_foldM_inv _ _ good); [done|]. intros [position f] b2 _ G2. unfold relate_function.
      apply wp_bind, wp_check_at. case_match; [|by apply wp_ret].
      apply (wp_foldM_inv _ _ good); [done|]. intros [tp t] b3 _ G3. unfold relate_call.
      apply wp_bind, wp_check_at, wp_ret. case_match; [by apply good_propagation|done].
    + intros b2 G2. by apply wp_bind, wp_checkpoint, wp_ret.
Qed.

Lemma label_functions_good class_id fs b : good b → wp (label_functions config check class_id fs b) good.
Proof.
  intros G. apply (wp_foldM_inv _ _ good); [done|]. intros [position f] b' _ Gb. unfold add_label.
  apply wp_bind, wp_checkpoint. cbv zeta. apply wp_ret. by apply good_ontology.
Qed.
Lemma add_base_class_good total b base position class needles : good b →
  wp (add_base_class config check total (b, base) (position, (class, needles))) (λ r, good r.1).
Proof.
  intros G. unfold add_base_class. apply wp_bind, wp_checkpoint, wp_bind, wp_push. intros b' Hp. cbv zeta.
  assert (good b') as G' by (eapply good_pushed; [exact G|exact Hp|done|done]).
  apply wp_bind. eapply wp_mono; [apply (wp_foldM_inv _ _ (λ _, True)); [done|]|].
  - intros [ep e] fs _ _. unfold add_member. by apply wp_bind, wp_checkpoint, wp_ret.
  - intros fs _. apply wp_bind. eapply wp_mono; [apply label_functions_good; by apply good_ontology|].
    intros b2 G2. apply wp_ret. by apply good_propagation.
Qed.
Lemma add_ontology_good b : good b → wp (add_ontology config check b) good.
Proof.
  intros G. unfold add_ontology. apply wp_bind, wp_push. intros b' Hp. cbv zeta.
  assert (good b') as G' by (eapply good_pushed; [exact G|exact Hp|done|done]).
  apply wp_bind. eapply wp_mono.
  - apply (wp_foldM_inv _ _ (λ r, good r.1)); [by apply good_ontology|].
    intros [position [class needles]] [b2 base] _ G2. by apply add_base_class_good.
  - intros [b2 base] G2. apply wp_bind. eapply wp_mono.
    + apply (wp_foldM_inv _ _ good); [by apply good_ontology, good_propagation|].
      intros [pp [l r]] b3 _ G3. unfold add_cooccurrence. apply wp_bind, wp_check_active. cbv zeta.
      case_decide; [by apply wp_ret|]. apply wp_bind, wp_push. intros b4 Hp4.
      assert (good b4) as G4 by (eapply good_pushed; [exact G3|exact Hp4|done|done]).
      apply wp_bind. eapply wp_mono; [apply label_functions_good; by apply good_ontology|].
      intros b5 G5. apply wp_ret. by apply good_propagation.
    + intros b3 G3. by apply wp_bind, wp_checkpoint, wp_ret.
Qed.

(** *** Syncmers *)

Hypothesis params : 0 < syncmer_s config < syncmer_k config.
Definition text_hashes (text : string) : list Z := closed_syncmer_hashes text (syncmer_k config) (syncmer_s config).

Lemma window_loop_spec position occurrences unique l :
  wp (window_loop config check position occurrences unique l)
    (λ r, match r with
          | None => True
          | Some u => ∀ h, h ∈ u ↔ h ∈ unique ∨
              ∃ w, w ∈ l ∧ is_closed_syncmer w (syncmer_s config) = true ∧ h = window_hash w
          end).
Proof.
  revert position unique. induction l as [|w l IH]; intros position unique; cbn [window_loop].
  { apply wp_ret. intros h. split; [by left|]. by intros [?|(w & ?%not_elem_of_nil & _)]. }
  apply wp_bind, wp_check_at. cbv zeta. destruct (_ <? _)%Z; [by apply wp_ret|].
  eapply wp_mono; [apply IH|]. intros [u|] H; [|done]. intros h. rewrite (H h).
  setoid_rewrite elem_of_cons. destruct (is_closed_syncmer w (syncmer_s config)) eqn:E;
    rewrite ?elem_of_union, ?elem_of_singleton; naive_solver congruence.
Qed.
Lemma post_all_spec id hashes m h id' :
  id' ∈ default ∅ (post_all id hashes m !! h) ↔ (id' = id ∧ h ∈ hashes) ∨ id' ∈ default ∅ (m !! h).
Proof.
  unfold post_all. rewrite <-(elem_of_elements hashes). generalize (elements hashes). intros l. revert m.
  induction l as [|x l IH]; intros m; cbn [foldl].
  { split; [by right|]. by intros [[_ ?%not_elem_of_nil]|?]. }
  rewrite IH, elem_of_post, elem_of_cons. naive_solver.
Qed.
Lemma syncmer_loop_spec total l m occurrences :
  wp (syncmer_loop config check total l m occurrences)
    (λ r, match r with
          | None => True
          | Some (m', _) => ∀ h id, id ∈ default ∅ (m' !! h) ↔
              id ∈ default ∅ (m !! h) ∨ ∃ text, (id, text) ∈ l ∧ h ∈ text_hashes text
          end).
Proof.
  revert m occurrences. induction l as [|[position text] l IH]; intros m occurrences; cbn [syncmer_loop].
  { apply wp_ret. intros h id. split; [by left|]. by intros [?|(t & ?%not_elem_of_nil & _)]. }
  apply wp_bind, wp_checkpoint, wp_bind. eapply wp_mono; [apply window_loop_spec|].
  intros [u|] Hu; [|by apply wp_ret]. eapply wp_mono; [apply IH|]. intros [[m' n']|] H; [|done].
  intros h id. rewrite (H h id), post_all_spec. setoid_rewrite elem_of_cons.
  assert (h ∈ u ↔ h ∈ text_hashes text) as ->; [|naive_solver].
  rewrite (Hu h). unfold text_hashes. rewrite elem_of_hashes by done. set_solver.
Qed.
Lemma elem_of_imap_pair {A} (l : list A) i x : (i, x) ∈ imap pair l ↔ l !! i = Some x.
Proof. rewrite elem_of_lookup_imap. naive_solver. Qed.
Lemma build_syncmers_spec b :
  wp (build_syncmers config check b)
    (λ r, syn_k r.1 = syncmer_k config ∧ syn_s r.1 = syncmer_s config ∧
      (syn_complete r.1 = true → ∀ h id, id ∈ default ∅ (syn_map r.1 !! h) ↔
         ∃ text, b_normalized b !! id = Some text ∧ h ∈ text_hashes text)).
Proof.
  unfold build_syncmers. cbv zeta. apply wp_bind. eapply wp_mono; [apply syncmer_loop_spec|].
  intros r Hr. apply wp_bind, wp_checkpoint, wp_ret. destruct r as [[m n]|]; cbn; [|done].
  split; [done|]. split; [done|]. intros _ h id. rewrite (Hr h id), lookup_empty. cbn [default].
  setoid_rewrite elem_of_imap_pair. set_solver.
Qed.

(** *** Names *)

Section names.
Variable text : nat → string.
Lemma push_group_spec ids grouped id :
  (∀ j, j ∈ ids → str_lt (text j) (text id) = true ∨ text j = text id) →
  StronglySorted (λ x y : string * gset EntityId, str_lt x.1 y.1 = true) grouped →
  (∀ k S, (k, S) ∈ grouped → ∃ j, j ∈ ids ∧ text j = k) →
  let grouped' := push_group text grouped id in
  StronglySorted (λ x y : string * gset EntityId, str_lt x.1 y.1 = true) grouped' ∧
  (∀ k S, (k, S) ∈ grouped' → ∃ j, j ∈ ids ++ [id] ∧ text j = k) ∧
  (∀ k i, (∃ S, (k, S) ∈ grouped' ∧ i ∈ S) ↔ (∃ S, (k, S) ∈ grouped ∧ i ∈ S) ∨ (k = text id ∧ i = id)).
Proof.
  intros Hle HS HK. cbv zeta. unfold push_group. revert HS HK.
  induction grouped as [|[key S] rest _] using rev_ind; intros HS HK.
  { cbn [vec_pop reverse]. change (vec_pop ([] : list (string * gset EntityId))) with (@None ((string * gset EntityId) * list (string * gset EntityId))).
    split; [by repeat constructor|]. split.
    - intros k S [= -> ->]%list_elem_of_singleton. exists id. split; [set_solver|done].
    - intros k i. split.
      + intros (S & [= -> ->]%list_elem_of_singleton & ->%elem_of_singleton). by right.
      + intros [(S & ?%not_elem_of_nil & _)|[-> ->]]; [done|]. exists {[id]}. split; [by left|set_solver]. }
  rewrite vec_pop_snoc. apply StronglySorted_app in HS as (HS1 & HS2 & _).
  destruct (HK key S) as (j & Hj & Ej); [set_solver|]. destruct (String.eqb_spec key (text id)) as [E|E].
  - split; [|split].
    + apply StronglySorted_app. split; [|split; [done|by repeat constructor]].
      intros x y Hx ->%list_elem_of_singleton. by apply (HS1 x (key, S)); [|left].
    + intros k S' [H|H]%elem_of_app.
      * destruct (HK k S') as (j' & ? & ?); [set_solver|]. exists j'. split; [set_solver|done].
      * apply list_elem_of_singleton in H as [= -> ->]. exists id. split; [set_solver|done].
    + intros k i. setoid_rewrite elem_of_app. setoid_rewrite list_elem_of_singleton. split.
      * intros (S' & [H|[= -> ->]] & Hi); [left; eauto|].
        apply elem_of_union in Hi as [Hi|Hi%elem_of_singleton]; [left; eauto|by right].
      * intros [(S' & [H|[= -> ->]] & Hi)|[-> ->]]; [eauto| |]; exists (S ∪ {[id]}); (split; [|set_solver]); right; congruence.
  - assert (str_lt key (text id) = true) as Lt.
    { subst key. by destruct (Hle j Hj). }
    split; [|split].
    + apply StronglySorted_app. split; [|split; [|by repeat constructor]].
      * intros x y [Hx|Hx]%elem_of_app ->%list_elem_of_singleton.
        -- eapply str_lt_trans; [apply (HS1 x (key, S)); [done|by left]|done].
        -- by apply list_elem_of_singleton in Hx as ->.
      * apply StronglySorted_app. split; [done|]. split; [done|by repeat constructor].
    + intros k S' [H|H]%elem_of_app.
      * destruct (HK k S' H) as (j' & ? & ?). exists j'. split; [set_solver|done].
      * apply list_elem_of_singleton in H as [= -> ->]. exists id. split; [set_solver|done].
    + intros k i. setoid_rewrite elem_of_app at 1. setoid_rewrite list_elem_of_singleton at 1. split.
      * intros (S' & [H|[= -> ->]] & Hi); [left; eauto|]. right. set_solver.
      * intros [(S' & H & Hi)|[-> ->]]; [eauto|]. exists {[id]}. set_solver.
Qed.
Lemma groups_spec ids :
  StronglySorted (λ x y, str_lt (text x) (text y) = true ∨ text x = text y) ids →
  let grouped := foldl (push_group text) [] ids in
  StronglySorted (λ x y : string * gset EntityId, str_lt x.1 y.1 = true) grouped ∧
  (∀ k S, (k, S) ∈ grouped → ∃ j, j ∈ ids ∧ text j = k) ∧
  (∀ k i, (∃ S, (k, S) ∈ grouped ∧ i ∈ S) ↔ i ∈ ids ∧ text i = k).
Proof.
  cbv zeta. induction ids as [|id ids IH] using rev_ind; intros S.
  { split; [constructor|]. split; [by intros k S' ?%not_elem_of_nil|]. intros k i. split.
    - by intros (? & ?%not_elem_of_nil & _).
    - by intros [?%not_elem_of_nil _]. }
  apply StronglySorted_app in S as (S1 & S2 & _). destruct (IH S2) as (I1 & I2 & I3).
  rewrite foldl_app. cbn [foldl].
  destruct (push_group_spec ids (foldl (push_group text) [] ids) id) as (P1 & P2 & P3); [|done..|].
  { intros j Hj. by apply S1; [|left]. }
  split; [done|]. split; [done|]. intros k i. rewrite P3, I3, elem_of_app, list_elem_of_singleton. naive_solver.
Qed.
End names.

Definition contents_of (grouped : list (string * gset EntityId)) : list (string * Z) :=
  imap (λ i g, (g.1, Z.of_nat i)) grouped.
Lemma find_contents grouped key S i :
  StronglySorted (λ x y : string * gset EntityId, str_lt x.1 y.1 = true) grouped →
  grouped !! i = Some (key, S) →
  snd <$> find_first (λ e, String.eqb e.1 key) (contents_of grouped) = Some (Z.of_nat i).
Proof.
  intros HS Hi. destruct (find_first _ _) as [[k z]|] eqn:F.
  - apply find_first_Some in F as [F E%String.eqb_eq]. cbn in E. subst k. unfold contents_of in F.
    apply elem_of_lookup_imap in F as (i' & [k' S'] & [= -> ->] & Hi'). cbn [fmap option_fmap option_map snd].
    do 2 f_equal. destruct (Nat.lt_trichotomy i i') as [L|[->|L]]; [|done|].
    + eapply sorted_lookup in L; [|done..]. cbn in L. by rewrite str_lt_irrefl in L.
    + eapply sorted_lookup in L; [|done..]. cbn in L. by rewrite str_lt_irrefl in L.
  - exfalso. assert ((key, Z.of_nat i) ∈ contents_of grouped) as H.
    { unfold contents_of. apply elem_of_lookup_imap. by exists i, (key, S). }
    pose proof (proj1 (find_first_None _ _) F _ H) as E. cbn in E. by rewrite String.eqb_refl in E.
Qed.
Lemma find_contents_inv grouped key z :
  snd <$> find_first (λ e, String.eqb e.1 key) (contents_of grouped) = Some z →
  ∃ i S, z = Z.of_nat i ∧ grouped !! i = Some (key, S).
Proof.
  destruct (find_first _ _) as [[k z']|] eqn:F; [|done]. intros [= ->].
  apply find_first_Some in F as [F E%String.eqb_eq]. cbn in E. subst k. unfold contents_of in F.
  apply elem_of_lookup_imap in F as (i & [k S] & [= -> ->] & Hi). eauto.
Qed.

#[local] Instance text_le_total l : Total (text_le l).
Proof.
  intros x y. unfold text_le. cbv zeta.
  destruct (str_lt_total (default "" (l !! x)) (default "" (l !! y))) as [?|[?|?]]; [auto| |auto].
  destruct (Nat.le_ge_cases x y); auto.
Qed.
#[local] Instance text_le_trans l : Transitive (text_le l).
Proof.
  intros x y z. unfold text_le. cbv zeta. intros [H1|[E1 L1]] [H2|[E2 L2]].
  - left. by eapply str_lt_trans.
  - left. by rewrite <-E2.
  - left. by rewrite E1.
  - right. split; [congruence|lia].
Qed.
Definition by_text (texts : list string) : list nat := merge_sort (text_le texts) (seq 0 (length texts)).
Lemma by_text_sorted texts : StronglySorted (text_le texts) (by_text texts).
Proof. apply (StronglySorted_merge_sort (text_le texts)). Qed.
Lemma by_text_all texts : by_text texts ≡ₚ seq 0 (length texts).
Proof. apply merge_sort_Permutation. Qed.

Lemma insert_groups_spec grouped :
  StronglySorted (λ x y : string * gset EntityId, str_lt x.1 y.1 = true) grouped →
  wp (foldM (λ m (e : nat * (string * gset EntityId)), fst_error (fst_insert e.2.1 (Z.of_nat e.1) m))
        (imap pair grouped) fst_memory)
    (λ b, fst_contents b = contents_of grouped).
Proof.
  intros S. eapply wp_mono.
  - apply (wp_foldM _ _ (λ pre b, fst_contents b = map (λ e, (e.2.1, Z.of_nat e.1)) pre)).
    { apply fst_memory_contents. }
    intros pre [i [k ids]] b [post E] Hb.
    destruct (fst_insert_ok b k (Z.of_nat i)) as (b' & Hi & Hc).
    + rewrite Hb. apply Forall_forall. intros [k' z] ([j [k2 S2]] & [= -> ->] & Hj)%list_elem_of_fmap.
      apply list_elem_of_lookup in Hj as [n Hn]. cbn.
      assert (imap pair grouped !! n = Some (j, (k2, S2))) as H1.
      { rewrite E, <-app_assoc. by apply lookup_app_l_Some. }
      assert (imap pair grouped !! length pre = Some (i, (k, ids))) as H2.
      { rewrite E, <-app_assoc. cbn [app]. by rewrite list_lookup_middle. }
      apply list_lookup_imap_Some in H1 as (g1 & H1 & [= -> <-]), H2 as (g2 & H2 & [= -> <-]).
      apply lookup_lt_Some in Hn. by apply (sorted_lookup _ grouped _ _ _ _ S H1 H2).
    + cbn. rewrite Hi. apply wp_ret. by rewrite map_app, Hc, Hb.
  - intros b ->. unfold contents_of. by rewrite (fmap_imap pair).
Qed.

Lemma build_name_fst_spec texts :
  wp (build_name_fst texts) (λ n, sorted_ids n = by_text texts ∧ ∀ text id,
    id ∈ default ∅ (i ← fst_get (nf_map n) text; nf_postings n !! Z.to_nat i) ↔ texts !! id = Some text).
Proof.
  unfold build_name_fst. cbv zeta. fold (by_text texts). set (text := λ id, default "" (texts !! id)).
  destruct (groups_spec text (by_text texts)) as (G1 & G2 & G3).
  { eapply sorted_weaken; [|apply by_text_sorted]. intros x y [?|[? _]]; auto. }
  set (grouped := foldl _ [] _) in *. apply wp_bind. eapply wp_mono; [by apply insert_groups_spec|].
  intros b Hb. destruct (fst_finish b) as (bs & m & E1 & E2 & Hg & _). rewrite E1. apply wp_bind. cbn [fst_error].
  apply wp_ret. rewrite E2. apply wp_bind. cbn [fst_error]. apply wp_ret, wp_ret. cbn.
  split; [done|]. intros key id. rewrite Hg, Hb.
  assert (texts !! id = Some key ↔ id ∈ by_text texts ∧ text id = key) as ->.
  { rewrite by_text_all, elem_of_seq. unfold text. destruct (texts !! id) as [t|] eqn:E; cbn.
       - apply lookup_lt_Some in E. split; [intros [= ->]; split; [lia|done]|]. by intros [_ ->].
       - apply lookup_ge_None in E. split; [done|]. intros [? _]. lia. }
  rewrite <-G3. split.
  - destruct (snd <$> _) as [z|] eqn:F; [|by intros ?%not_elem_of_empty].
    apply find_contents_inv in F as (i & S & -> & Hi). cbn. rewrite Nat2Z.id, list_lookup_fmap, Hi.
    intros H. exists S. split; [by eapply list_elem_of_lookup_2|done].
  - intros (S & [i Hi]%list_elem_of_lookup & H). rewrite (find_contents grouped key S i) by done. cbn.
    by rewrite Nat2Z.id, list_lookup_fmap, Hi.
Qed.

(** *** Kinds and numbers *)

Lemma kind_postings_spec l k id :
  id ∈ default ∅ (build_kind_postings l !! k) ↔ ∃ e, e ∈ l ∧ en_kind e = k ∧ en_id e = id.
Proof.
  unfold build_kind_postings. induction l as [|e l IH] using rev_ind.
  { cbn. rewrite lookup_empty. split; [by intros ?%not_elem_of_empty|by intros (e & ?%not_elem_of_nil & _)]. }
  rewrite foldl_app. cbn [foldl]. rewrite elem_of_post, IH. setoid_rewrite elem_of_app.
  setoid_rewrite list_elem_of_singleton. naive_solver.
Qed.

(** *** The whole build *)

Lemma build_signatures_any b : wp (build_signatures config check b) (λ _, True).
Proof.
  unfold build_signatures. cbv zeta. apply wp_bind. eapply wp_mono; [apply (wp_foldM_inv _ _ (λ _, True)); [done|]|].
  - intros x l _ _. unfold collect_rare. by apply wp_bind, wp_check_at, wp_ret.
  - intros rare _. apply wp_bind. eapply wp_mono; [apply (wp_foldM_inv _ _ (λ _, True)); [done|]|].
    + intros [position evidence] [sigs lookup] _ _. unfold sign_evidence. apply wp_bind, wp_check_at. cbv zeta.
      apply wp_bind. eapply wp_mono; [apply (wp_foldM_inv _ _ (λ _, True)); [done|]|].
      * intros x s _ _. unfold sign_function. by apply wp_bind, wp_check_at, wp_ret.
      * intros s _. by apply wp_ret.
    + intros [sigs lookup] _. by apply wp_ret.
Qed.
Lemma build_hot_table_core b : wp (build_hot_table config check b) (λ b', same_core b b' ∧ b_numeric b' = b_numeric b).
Proof.
  unfold build_hot_table. cbv zeta. apply wp_bind. eapply wp_mono; [apply (wp_foldM_inv _ _ (λ _, True)); [done|]|].
  - intros i [] _ _. by apply wp_check_at.
  - intros [] _. apply wp_bind. eapply wp_mono; [apply (wp_foldM_inv _ _ (λ _, True)); [done|]|].
    + intros e m _ _. unfold hot_entry. by apply wp_bind, wp_check_at, wp_ret.
    + intros hot _. by apply wp_ret.
Qed.

Lemma finish_spec b : good b → wp (finish an config check b) wf_index.
Proof.
  intros G. unfold finish. apply wp_bind, wp_check_active, wp_bind.
  eapply wp_mono; [by apply build_relationships_good|]. intros b1 G1. apply wp_bind.
  eapply wp_mono; [by apply add_ontology_good|]. intros b2 G2. apply wp_bind.
  eapply wp_mono; [apply build_syncmers_spec|]. intros [syn occ] (K1 & K2 & K3). cbv zeta. apply wp_bind.
  eapply wp_mono; [apply build_name_fst_spec|]. intros names [N1 N2]. apply wp_bind.
  eapply wp_mono; [apply build_signatures_any|]. intros sigs _. apply wp_bind.
  eapply wp_mono; [apply build_hot_table_core|]. intros b3 [(E1 & E2 & E3 & _ & E5 & E6) En]. apply wp_ret.
  cbn [fst snd] in *. pose proof G2 as [I1 I2 I3 _ I5 I6 I7].
  assert (length (b_normalized b2) = length (b_entities b2)) as EL by (by rewrite I2, length_map).
  split; cbn; rewrite ?E1, ?E2, ?E3, ?E5, ?E6, ?En; try done.
  - rewrite N1. eapply sorted_weaken; [|apply by_text_sorted]. intros x y. unfold text_at. cbn.
    intros [?|[-> _]]; [by apply str_lt_le|]. unfold str_le. apply str_lt_irrefl.
  - rewrite N1, by_text_all. cbn. by rewrite EL.
  - intros k id. rewrite kind_postings_spec. split.
    + intros (e & [i Hi]%list_elem_of_lookup & Hk & <-). pose proof (I1 _ _ Hi). subst i. eauto.
    + intros (e & He & Hk). exists e. split; [by eapply list_elem_of_lookup_2|]. split; [done|by apply I1].
  - by rewrite K1, K2.
  - intros h id Hc. rewrite K1, K2. by apply K3.
  - apply dedup_sorted, sort_values_sorted.
  - intros token id Nt. rewrite (I6 token id Nt). split; intros (e & He & Hk & Ht & Hid);
      exists e; cbn in He.
    + split; [done|]. split; [done|]. split; [|done]. unfold text_at. cbn. rewrite I2.
      apply list_elem_of_lookup in He as [i Hi]. rewrite (I1 _ _ Hi), list_lookup_fmap, Hi. done.
    + split; [done|]. split; [done|]. split; [|done]. unfold text_at in Ht. cbn in Ht. rewrite I2 in Ht.
      apply list_elem_of_lookup in He as [i Hi]. by rewrite (I1 _ _ Hi), list_lookup_fmap, Hi in Ht.
Qed.
End builder.

(** The parameters that pass [validate_config]. *)
Lemma valid_params config : validate_config config = None → 0 < syncmer_s config < syncmer_k config.
Proof. unfold validate_config. case_decide; [done|]. lia. Qed.

Lemma build_spec `{FM : !Formatter, FL : !FstLib, FW : !FstLaws} an config check :
  keyed an → validate_config config = None → wp check (build an config check) wf_index.
Proof.
  intros K V. unfold build. rewrite V. pose proof (valid_params _ V) as P.
  apply wp_bind. eapply wp_mono; [by apply add_functions_good|]. intros b1 G1.
  apply wp_bind. eapply wp_mono; [by apply add_symbols_good|]. intros b2 G2.
  apply wp_bind. eapply wp_mono; [by apply add_strings_good|]. intros b3 G3.
  apply wp_bind. eapply wp_mono; [by apply add_instructions_good|]. intros b4 G4.
  apply wp_bind. eapply wp_mono; [by apply add_annotations_good|]. intros b5 G5.
  apply wp_bind. eapply wp_mono; [by apply add_motifs_good|]. intros b6 G6.
  by apply finish_spec.
Qed.
