(* ===== verification/BelOverlay.v ===== *)
(** The overlay of the annotations made since the index was built: on an index
    that is well formed, [from_project] always gives a well-formed overlay, and
    what is seen through it is what the annotations are now. *)

From Stdlib Require Import Strings.Ascii Strings.String.
From S2P Require Import Prelude Text Data Ops Activity MemoryMap Loader Cfg CfgFrontier CodeIndex Callees Bel BelBuild BelQuery BelFacts BelSurface BelBuildFacts.

Local Open Scope string_scope.
Local Open Scope list_scope.
Local Open Scope nat_scope.

(** ** The slots of a project are distinct *)

#[local] Instance mkSlotKey_inj k : Inj (=) (=) (mkSlotKey k).
Proof. by intros x y [= ->]. Qed.
Lemma NoDup_tagged (l : list (SlotKind * list Z)) :
  NoDup l.*1 → Forall (λ x, NoDup x.2) l → NoDup (concat (map (λ x, mkSlotKey x.1 <$> x.2) l)).
Proof.
  induction l as [|[k vas] l IH]; csimpl; intros N F; [constructor|].
  apply NoDup_cons in N as [Nk N]. apply Forall_cons in F as [Fv F]. apply NoDup_app. split; [by apply NoDup_fmap_2; [apply _|]|].
  split; [|by apply IH]. intros s (va & -> & _)%list_elem_of_fmap Hs. apply Nk.
  apply list_elem_of_In, in_concat in Hs as (keys & Hk & Hs). apply in_map_iff in Hk as ([k' vas'] & <- & Hk).
  apply list_elem_of_In, list_elem_of_fmap in Hs as (va' & [= <- _] & _).
  apply list_elem_of_fmap. exists (k, vas'). split; [done|by apply list_elem_of_In].
Qed.
Lemma btree_keys {A} (m : gmap Z A) : NoDup (btree_entries m).*1.
Proof. rewrite btree_entries_perm. apply NoDup_fst_map_to_list. Qed.

Lemma slots_distinct p : NoDup (map sl_slot (sorted_slots p)).
Proof.
  change (NoDup (sl_slot <$> sorted_slots p)). unfold sorted_slots. rewrite merge_sort_Permutation.
  assert (sl_slot <$> current_annotation_slots p = concat (map (λ x, mkSlotKey x.1 <$> x.2)
    [(SymbolSlot, (map_to_list (symbols p)).*1);
     (AddressComment, (btree_entries (by_addr (comments p))).*1);
     (FunctionComment, (btree_entries (by_function (comments p))).*1);
     (MemoryCardSlot, (btree_entries (card_display <$> function_memory p)).*1);
     (GlobalType, (btree_entries (render <$> typed_globals p)).*1);
     (FunctionType, (btree_entries (signature_display <$> function_signatures p)).*1)])) as ->.
  { unfold current_annotation_slots. cbn [map concat fst snd]. rewrite app_nil_r, !fmap_app.
    unfold Symbols.entries. repeat f_equal; change (map ?f ?l) with (f <$> l); rewrite <-!list_fmap_compose;
      by apply list_fmap_ext; intros ? []. }
  apply NoDup_tagged; [by apply (bool_decide_unpack _)|].
  repeat constructor; try apply btree_keys. apply NoDup_fst_map_to_list.
Qed.

(** ** Steps on an overlay *)

Section overlay.
Context `{FL : !FstLib}.
Variable index : BelIndex.
Hypothesis WI : wf_index index.
Implicit Types (o : Overlay) (s : AnnotationSlot).

(** Well formed once its numbers are sorted, the last step of [from_project]. *)
Definition loose o : Prop := wf_overlay index (with_numeric sort_values o).

Lemma empty_loose generation : loose (empty index generation).
Proof.
  split; cbn; try done.
  - intros text id _ [?|(i & _ & ?)]; done.
  - constructor.
Qed.
Lemma bury_loose id o : loose o → loose (bury id o).
Proof.
  intros [W1 W2 W3 W4 W5 W6 W7 W8 W9]. split; try done. intros text id' N. apply W5. cbn in *. set_solver.
Qed.
Lemma override_loose id display o :
  id < base_entity_count o → normalized_overrides o !! id = None →
  loose o → loose (override id display (normalize_ascii display) o).
Proof.
  intros L N [W1 W2 W3 W4 W5 W6 W7 W8 W9]. cbn in *. split; cbn; try done.
  - intros text id'. rewrite elem_of_post. intros [[<- ->]|H].
    + left. cbn. apply lookup_insert_eq.
    + destruct (W4 _ _ H) as [E|E]; [|by right]. left. cbn in *.
      rewrite lookup_insert_ne; [done|]. intros ->. by rewrite N in E.
  - intros text id' T. rewrite elem_of_post. intros [E|E].
    + cbn in E. apply lookup_insert_Some in E as [[<- <-]|[_ E]]; [by left|]. right. apply W5; [done|by left].
    + right. apply W5; [done|by right].
  - by rewrite fmap_insert, W6.
  - rewrite dom_insert_L, W7. set_solver.
  - intros id'. rewrite elem_of_union, elem_of_singleton. intros [?| ->]; [by apply W8|done].
Qed.

(** The entity [push_entity] adds. *)
Definition added (kind : EntityKind) (display : string) (va function_va : option Z) o : Entity :=
  mkEntity (base_entity_count o + length (ov_entities o)) kind display va None function_va.
Lemma push_fields kind display text va function_va o :
  let o' := Bel.push_entity index kind display text va function_va o in
  ov_entities o' = ov_entities o ++ [added kind display va function_va o] ∧
  ov_normalized o' = ov_normalized o ++ [text] ∧
  ov_names o' = post text (base_entity_count o + length (ov_entities o)) (ov_names o) ∧
  tombstones o' = tombstones o ∧ surface_tombstones o' = surface_tombstones o ∧
  display_overrides o' = display_overrides o ∧ normalized_overrides o' = normalized_overrides o ∧
  base_entity_count o' = base_entity_count o.
Proof. unfold Bel.push_entity. cbv zeta. by destruct (relate _ _ _ _) as [s2f deltas]. Qed.
Lemma push_loose kind display va function_va o :
  loose o → loose (Bel.push_entity index kind display (normalize_ascii display) va function_va o).
Proof.
  destruct (push_fields kind display (normalize_ascii display) va function_va o)
    as (E1 & E2 & E3 & E4 & E5 & E6 & E7 & E8).
  set (o' := Bel.push_entity _ _ _ _ _ _ _) in *. set (id := base_entity_count o + length (ov_entities o)) in *.
  intros [W1 W2 W3 W4 W5 W6 W7 W8 W9]. cbn in *. assert (length (ov_normalized o) = length (ov_entities o)) as EL by (by rewrite W3, length_map).
  assert (∀ id' text', overlay_name (with_numeric sort_values o') id' text' ↔
    overlay_name (with_numeric sort_values o) id' text' ∨ (id' = id ∧ text' = normalize_ascii display)) as EN.
  { intros id' text'. unfold overlay_name. cbn. rewrite E7, E8, E2. setoid_rewrite lookup_app_Some.
    setoid_rewrite list_lookup_singleton_Some. split.
    - intros [?|(i & -> & [?|(L & Hi & <-)])]; [by left; left|left; right; by exists i|right]. split; [unfold id; lia|done].
    - intros [[?|(i & -> & ?)]|[-> ->]]; [by left|right; exists i; auto|right]. exists (length (ov_entities o)).
      split; [done|]. right. split; [lia|]. split; [lia|done]. }
  split; cbn; rewrite ?E4, ?E5, ?E6, ?E7, ?E8; try done.
  - intros i e. rewrite E1. intros [H|[L Hi]]%lookup_app_Some; [by apply W2|].
    apply list_lookup_singleton_Some in Hi as [Hi <-]. cbn. lia.
  - by rewrite E1, E2, map_app, W3.
  - intros text' id'. rewrite E3, elem_of_post, EN. intros [[<- ->]|H]; [by right|left]. by apply W4.
  - intros text' id' T. rewrite E3, elem_of_post, EN. intros [H|[-> ->]]; [right|by left]. by apply W5.
  - apply sort_values_sorted.
Qed.

(** ** The loop of [from_project] *)

(** The entity of the index that stands for a slot. *)
Definition stands (s : AnnotationSlot) (id : EntityId) (e : Entity) : Prop :=
  slots index !! sl_slot s = Some id ∧ entities index !! id = Some e.
Definition renames (s : AnnotationSlot) (id : EntityId) : Prop :=
  sk_kind (sl_slot s) = SymbolSlot ∧ function_by_va index !! sk_va (sl_slot s) = Some id.
Definition unchanged s : Prop := ∃ id e, stands s id e ∧ en_display e = sl_display s.
(** The entity an overlay has for a slot. *)
Definition entity_for s e : Prop :=
  en_kind e = sl_kind s ∧ en_display e = sl_display s ∧ en_va e = sl_va s ∧ en_func_entry e = sl_function_va s.

(** The overlay after the slots [l]. *)
Record applied (l : list AnnotationSlot) (o : Overlay) : Prop := mkApplied {
  ap_loose : loose o;
  ap_buried id : id ∈ tombstones o ↔ ∃ s e, s ∈ l ∧ stands s id e ∧ en_display e ≠ sl_display s;
  ap_renamed id d : display_overrides o !! id = Some d →
    ∃ s, s ∈ l ∧ renames s id ∧ ¬ unchanged s ∧ sl_display s = d;
  ap_functions s id e : s ∈ l → renames s id → ¬ unchanged s → entities index !! id = Some e →
    default (en_display e) (display_overrides o !! id) = sl_display s;
  ap_new e : e ∈ ov_entities o → ∃ s, s ∈ l ∧ ¬ unchanged s ∧ entity_for s e;
  ap_all s : s ∈ l → ¬ unchanged s → ∃ e, e ∈ ov_entities o ∧ entity_for s e
}.

Lemma empty_applied generation : applied [] (empty index generation).
Proof.
  split; cbn; [apply empty_loose|..].
  - intros id. split; [by intros ?%not_elem_of_empty|]. by intros (s & e & ?%not_elem_of_nil & _).
  - done.
  - by intros s id e ?%not_elem_of_nil.
  - by intros e ?%not_elem_of_nil.
  - by intros s ?%not_elem_of_nil.
Qed.

Lemma renames_once s s' id : renames s id → renames s' id → sl_slot s = sl_slot s'.
Proof.
  intros [K F] [K' F']. apply (wi_functions _ WI) in F as (e & He & _ & V), F' as (e' & He' & _ & V').
  destruct (sl_slot s) as [k va], (sl_slot s') as [k' va']. cbn in *. congruence.
Qed.
Lemma fresh_slot l s s' : NoDup (map sl_slot (l ++ [s])) → s' ∈ l → sl_slot s' ≠ sl_slot s.
Proof.
  change (map sl_slot ?l) with (sl_slot <$> l). rewrite fmap_app, NoDup_app. intros (_ & N & _) H E.
  apply (N (sl_slot s')); [by apply list_elem_of_fmap_2|]. rewrite E. by left.
Qed.
Lemma not_renamed l s o id : NoDup (map sl_slot (l ++ [s])) → applied l o → renames s id →
  display_overrides o !! id = None.
Proof.
  intros N A R. destruct (display_overrides o !! id) as [d|] eqn:E; [|done].
  apply (ap_renamed _ _ A) in E as (s' & H & R' & _). exfalso. apply (fresh_slot l s s'); try done. by eapply renames_once.
Qed.
Lemma stands_fun s id e id' e' : stands s id e → stands s id' e' → id = id' ∧ e = e'.
Proof. intros [S H] [S' H']. rewrite S in S'. injection S' as <-. rewrite H in H'. by injection H' as <-. Qed.

(** A slot that is as the index has it. *)
Lemma unchanged_applied l s o : unchanged s → applied l o → applied (l ++ [s]) o.
Proof.
  intros (id & e & St & D) [A1 A2 A3 A4 A5 A6].
  assert (unchanged s) as U by (by exists id, e).
  split; try done; setoid_rewrite elem_of_app; setoid_rewrite list_elem_of_singleton.
  - intros id'. rewrite A2. split; [intros (s' & e' & H); exists s', e'; naive_solver|].
    intros (s' & e' & [Hs| ->] & St' & D'); [by exists s', e'|]. by destruct (stands_fun _ _ _ _ _ St St') as [-> ->].
  - intros id' d H. destruct (A3 _ _ H) as (s' & H'). exists s'. naive_solver.
  - intros s' id' e' [Hs| ->] R C; [by apply (A4 s')|done].
  - intros e' H. destruct (A5 _ H) as (s' & H'). exists s'. naive_solver.
  - intros s' [H| ->] C; [by apply A6|done].
Qed.

(** A slot the index has otherwise, or not at all. *)
Definition renamed s o : Overlay :=
  match sk_kind (sl_slot s), function_by_va index !! sk_va (sl_slot s) with
  | SymbolSlot, Some id =>
      match entities index !! id with
      | Some e => if String.eqb (en_display e) (sl_display s) then o
                  else override id (sl_display s) (normalize_ascii (sl_display s)) o
      | None => o
      end
  | _, _ => o
  end.
Definition buried s o : Overlay :=
  match slots index !! sl_slot s with Some id => bury id o | None => o end.
Definition changed_slot s o : Overlay :=
  Bel.push_entity index (sl_kind s) (sl_display s) (normalize_ascii (sl_display s)) (sl_va s) (sl_function_va s)
    (buried s (renamed s o)).

(** What [renamed] is: nothing, or the renaming of one function. *)
Lemma renamed_cases s o :
  (renamed s o = o ∧ ∀ id e, renames s id → entities index !! id = Some e → en_display e = sl_display s) ∨
  ∃ id, renames s id ∧ renamed s o = override id (sl_display s) (normalize_ascii (sl_display s)) o.
Proof.
  unfold renamed, renames. destruct (sk_kind (sl_slot s)); try (left; split; [done|by intros ? ? [? _]]).
  destruct (function_by_va index !! sk_va (sl_slot s)) as [id|]; [|left; split; [done|by intros ? ? [_ ?]]].
  destruct (entities index !! id) as [e|] eqn:He.
  - destruct (String.eqb_spec (en_display e) (sl_display s)); [|right; by exists id].
    left. split; [done|]. intros id' e' [_ E'] He'. congruence.
  - left. split; [done|]. intros id' e' [_ E'] He'. congruence.
Qed.
Lemma buried_fields s o :
  ov_entities (buried s o) = ov_entities o ∧ display_overrides (buried s o) = display_overrides o ∧
  ∀ id, id ∈ tombstones (buried s o) ↔ slots index !! sl_slot s = Some id ∨ id ∈ tombstones o.
Proof.
  unfold buried. destruct (slots index !! sl_slot s) as [id|]; cbn; split_and!; try done; [set_solver|naive_solver].
Qed.

Lemma changed_loose l s o : NoDup (map sl_slot (l ++ [s])) → applied l o → loose (changed_slot s o).
Proof.
  intros N A. apply push_loose. assert (loose (renamed s o)) as L.
  { pose proof (ap_loose _ _ A) as L. destruct (renamed_cases s o) as [[-> _]|(id & R & ->)]; [done|].
    apply override_loose; [| |done].
    2: { pose proof (wo_overrides _ _ L) as E. cbn in E. by rewrite E, lookup_fmap, (not_renamed l s o id). }
    destruct R as [_ (e & He & _)%(wi_functions _ WI)]. apply lookup_lt_Some in He. by rewrite (wo_base _ _ L : base_entity_count o = _). }
  unfold buried. destruct (slots index !! sl_slot s); [by apply bury_loose|done].
Qed.
Lemma changed_fields l s o : NoDup (map sl_slot (l ++ [s])) → applied l o →
  let o' := changed_slot s o in
  (∃ e, ov_entities o' = ov_entities o ++ [e] ∧ entity_for s e) ∧
  (∀ id, id ∈ tombstones o' ↔ slots index !! sl_slot s = Some id ∨ id ∈ tombstones o) ∧
  (∀ id, ¬ renames s id → display_overrides o' !! id = display_overrides o !! id) ∧
  ∀ id e, renames s id → entities index !! id = Some e →
    default (en_display e) (display_overrides o' !! id) = sl_display s ∧
    ∀ d, display_overrides o' !! id = Some d → d = sl_display s.
Proof.
  intros N A. cbv zeta. unfold changed_slot.
  destruct (push_fields (sl_kind s) (sl_display s) (normalize_ascii (sl_display s)) (sl_va s)
    (sl_function_va s) (buried s (renamed s o))) as (E1 & _ & _ & E4 & _ & E6 & _).
  destruct (buried_fields s (renamed s o)) as (B1 & B2 & B3). rewrite B1 in E1. rewrite B2 in E6.
  split_and!.
  - rewrite E1. exists (added (sl_kind s) (sl_display s) (sl_va s) (sl_function_va s) (buried s (renamed s o))).
    split; [|done]. by destruct (renamed_cases s o) as [[-> _]|(id & _ & ->)].
  - intros id. rewrite E4, B3. by destruct (renamed_cases s o) as [[-> _]|(id' & _ & ->)].
  - intros id R. rewrite E6. destruct (renamed_cases s o) as [[-> _]|(id' & R' & ->)]; [done|].
    cbn. apply lookup_insert_ne. by intros ->.
  - intros id e R He. rewrite E6. destruct (renamed_cases s o) as [[-> D]|(id' & R' & ->)].
    + rewrite (not_renamed l s o id) by done. split; [by eapply D|done].
    + assert (id' = id) as -> by (destruct R as [_ R], R' as [_ R']; congruence).
      cbn. rewrite lookup_insert_eq. split; [done|]. by intros d [= ->].
Qed.
Lemma changed_applied l s o : NoDup (map sl_slot (l ++ [s])) → ¬ unchanged s → applied l o →
  applied (l ++ [s]) (changed_slot s o).
Proof.
  intros N C A. pose proof (changed_loose l s o N A) as L. pose proof A as [A1 A2 A3 A4 A5 A6].
  destruct (changed_fields l s o N A) as ((a & F1 & Fa) & F2 & F3 & F4).
  set (o' := changed_slot s o) in *.
  assert (∀ id, renames s id → ∃ e, entities index !! id = Some e) as RE.
  { intros id [_ (e & He & _)%(wi_functions _ WI)]. by exists e. }
  split; try done; setoid_rewrite elem_of_app; setoid_rewrite list_elem_of_singleton.
  - intros id. rewrite F2, A2. split.
    + intros [Sl|(s' & e & H)]; [|exists s', e; naive_solver].
      destruct (wi_slots _ WI _ _ Sl) as (e & He & _). exists s, e. split; [by right|]. split; [by split|].
      intros D. apply C. exists id, e. by split; [split|].
    + intros (s' & e & [Hs| ->] & St & D); [right; by exists s', e|left; apply St].
  - intros id d H. destruct (decide (renames s id)) as [R|R].
    + exists s. split; [by right|]. split; [done|]. split; [done|]. destruct (RE id R) as [e He].
      destruct (F4 id e R He) as [_ D]. symmetry. by apply D.
    + rewrite F3 in H by done. destruct (A3 _ _ H) as (s' & H'). exists s'. naive_solver.
  - intros s' id e [Hs| ->] R U He; [|by apply F4]. rewrite F3; [by apply (A4 s')|].
    intros R'. apply (fresh_slot l s s'); try done. by eapply renames_once.
  - intros e. rewrite F1, elem_of_app, list_elem_of_singleton. intros [H| ->]; [|by exists s; auto].
    destruct (A5 _ H) as (s' & H'). exists s'. naive_solver.
  - intros s' [H| ->] U; rewrite F1; setoid_rewrite elem_of_app; setoid_rewrite list_elem_of_singleton.
    + destruct (A6 _ H U) as (e & H'). exists e. naive_solver.
    + exists a. auto.
Qed.

(** One round of the loop. *)
Lemma overlay_slot_cases s o :
  (unchanged s ∧ overlay_slot index o s = Some o) ∨ (¬ unchanged s ∧ overlay_slot index o s = Some (changed_slot s o)).
Proof.
  unfold overlay_slot, unchanged, stands. cbv zeta.
  assert (match sk_kind (sl_slot s), function_by_va index !! sk_va (sl_slot s) with
          | SymbolSlot, Some function_id =>
              e ← entities index !! function_id;
              Some (if String.eqb (en_display e) (sl_display s) then o
                    else override function_id (sl_display s) (normalize_ascii (sl_display s)) o)
          | _, _ => Some o
          end = Some (renamed s o)) as ->.
  { unfold renamed. destruct (sk_kind (sl_slot s)); try done.
    destruct (function_by_va index !! sk_va (sl_slot s)) as [id|] eqn:E; [|done].
    by apply (wi_functions _ WI) in E as (e & -> & _). }
  cbn [mbind option_bind]. unfold changed_slot, buried. destruct (slots index !! sl_slot s) as [id|] eqn:E.
  - destruct (wi_slots _ WI _ _ E) as (e & He & _). rewrite He. cbn [mbind option_bind].
    destruct (String.eqb_spec (en_display e) (sl_display s)) as [D|D]; [left; split; [by exists id, e|done]|].
    right. split; [|done]. intros (id' & e' & [[= <-] He'] & D'). congruence.
  - right. split; [|done]. by intros (id' & e' & [? _] & _).
Qed.
Lemma overlay_loop l l' o : NoDup (map sl_slot (l ++ l')) → applied l o →
  ∃ o', fold_opt (overlay_slot index) o l' = Some o' ∧ applied (l ++ l') o'.
Proof.
  revert l o. induction l' as [|s l' IH]; intros l o N A; cbn [fold_opt]; [exists o; by rewrite app_nil_r|].
  change (s :: l') with ([s] ++ l') in N |- *. rewrite (assoc_L (++)) in N |- *.
  assert (NoDup (map sl_slot (l ++ [s]))) as N1.
  { change (map sl_slot ?l) with (sl_slot <$> l) in *. rewrite fmap_app, NoDup_app in N. apply N. }
  destruct (overlay_slot_cases s o) as [[U ->]|[C ->]]; cbn [mbind option_bind]; apply IH; try done.
  - by apply unchanged_applied.
  - by apply changed_applied.
Qed.
Lemma from_project_applied p :
  ∃ o, from_project index p = Some (with_numeric sort_values o) ∧ applied (sorted_slots p) o.
Proof.
  destruct (overlay_loop [] (sorted_slots p) (empty index (op_seq p)) (slots_distinct p)) as (o & E & A).
  { apply empty_applied. }
  exists o. split; [|done]. unfold from_project. by rewrite E.
Qed.
End overlay.
