(* ===== verification/BelPaging.v ===== *)
(** Pages of a search: cursors come back as they were written, the heap keeps
    the best hits, and following the cursors lists every hit once, in order. *)

From Stdlib Require Import Strings.Ascii Strings.String.
From S2P Require Import Prelude Text Data Ops Activity MemoryMap Cfg CfgFrontier Bel BelQuery BelFacts BelSurface BelCorrect.
Import Signature (SparseFunctionSignature).

Local Open Scope string_scope.
Local Open Scope list_scope.
Local Open Scope nat_scope.

(** ** Cursors *)

Lemma hex_width_hex w v : (0 ≤ v)%Z → is_hex (hex_width w v).
Proof.
  intros L. unfold hex_width. induction (w - String.length (hex v)) as [|n IH].
  - change (is_hex (hex v)). apply hex_go_hex; [done|constructor].
  - change (is_hex (String (hex_digit 0) (zero_digits n +:+ hex v))). apply is_hex_cons. split; [by exists 0%Z|done].
Qed.
Lemma from_str_hex_width w v : is_u64 v → from_str_radix 16 (hex_width w v) = Some v.
Proof.
  intros [L U]. pose proof (hex_width_hex w v L) as H. unfold from_str_radix. cbv zeta.
  assert (hex_width w v ≠ "") as N.
  { unfold hex_width. destruct (w - _); [apply hex_not_empty|done]. }
  assert (strip_prefix "+" (hex_width w v) = None) as ->.
  { destruct (hex_width w v) as [|c s]; [done|]. apply is_hex_cons in H as [(d & Hd & ->) _].
    rewrite strip_prefix_eqb. by destruct (hex_digit_plain d Hd) as [_ ->]. }
  cbn [default]. rewrite decide_False by done. unfold hex_width.
  induction (w - String.length (hex v)) as [|n IH].
  - change (parse_digits 16 0 (hex v) = Some v). unfold hex. rewrite parse_hex_go; [done| |done|lia].
    split; [done|]. unfold u64_max in U. cbn. lia.
  - change (parse_digits 16 0 (String "0" (zero_digits n +:+ hex v)) = Some v). cbn. exact IH.
Qed.

Lemma split_char_dot cur s rest :
  is_hex s → split_char "." cur (s +:+ "." +:+ rest) = (cur +:+ s) :: split_char "." "" rest.
Proof.
  revert cur. induction s as [|c s IH]; intros cur H.
  - change ("" +:+ "." +:+ rest) with (String "." rest). cbn [split_char]. rewrite Ascii.eqb_refl. by rewrite string_app_nil_r.
  - apply is_hex_cons in H as [(d & Hd & ->) H].
    change (String (hex_digit d) s +:+ "." +:+ rest) with (String (hex_digit d) (s +:+ "." +:+ rest)).
    cbn [split_char]. destruct (hex_digit_plain d Hd) as [-> _]. rewrite IH by done. by rewrite string_app_assoc.
Qed.
Lemma split_char_end cur s : is_hex s → split_char "." cur s = [cur +:+ s].
Proof.
  revert cur. induction s as [|c s IH]; intros cur H; cbn [split_char]; [by rewrite string_app_nil_r|].
  apply is_hex_cons in H as [(d & Hd & ->) H]. destruct (hex_digit_plain d Hd) as [-> _].
  rewrite IH by done. by rewrite string_app_assoc.
Qed.

(** The fields fit their machine integers. *)
Definition is_i64 (v : Z) : Prop := (- 2 ^ 63 ≤ v < 2 ^ 63)%Z.
#[export] Instance is_i64_dec v : Decision (is_i64 v).
Proof. unfold is_i64. apply _. Defined.
Definition cursor_fits (c : CursorKey.t) : Prop :=
  is_u64 (CursorKey.index_generation c) ∧ is_u64 (CursorKey.overlay_generation c) ∧
  is_u64 (CursorKey.query_hash c) ∧ is_i64 (CursorKey.score_micros c) ∧
  (Z.of_nat (CursorKey.entity_id c) ≤ u32_max)%Z ∧ is_u64 (CursorKey.va c).

Lemma score_round v : is_i64 v → is_u64 (CursorKey.as_u64 v) ∧ CursorKey.as_i64 (CursorKey.as_u64 v) = v.
Proof.
  unfold is_i64, is_u64, u64_max, CursorKey.as_u64, CursorKey.as_i64. intros L.
  pose proof (Z.mod_pos_bound v (2 ^ 64) ltac:(lia)). split; [lia|].
  destruct (Z.ltb_spec (v mod 2 ^ 64) (2 ^ 63)) as [B|B].
  - destruct (Z.le_gt_cases 0 v) as [P|P]; [by rewrite Z.mod_small by lia|].
    rewrite <-(Z_mod_plus_full v 1), Z.mod_small in B by lia. lia.
  - destruct (Z.le_gt_cases 0 v) as [P|P]; [rewrite Z.mod_small in B by lia; lia|].
    rewrite <-(Z_mod_plus_full v 1), Z.mod_small by lia. lia.
Qed.
Lemma decode_encode c : cursor_fits c → CursorKey.decode (CursorKey.encode c) = Some c.
Proof.
  destruct c as [ig og qh sc id va]. unfold cursor_fits. cbn [CursorKey.index_generation CursorKey.overlay_generation
    CursorKey.query_hash CursorKey.score_micros CursorKey.entity_id CursorKey.va].
  intros (I1 & I2 & I3 & [I4 E4]%score_round & I5 & I6).
  assert (is_u64 (Z.of_nat id)) as I7 by (unfold is_u64, u64_max, u32_max in *; lia).
  unfold CursorKey.encode, CursorKey.decode.
  cbn [CursorKey.index_generation CursorKey.overlay_generation CursorKey.query_hash CursorKey.score_micros
    CursorKey.entity_id CursorKey.va].
  change ("bel1." +:+ ?r) with (String "b" (String "e" (String "l" (String "1" (String "." r))))).
  cbn [split_char Ascii.eqb Bool.eqb].
  rewrite !split_char_dot by (apply hex_width_hex; first [apply I1|apply I2|apply I3|apply I4|apply I7]).
  rewrite split_char_end by (apply hex_width_hex; apply I6).
  change ("" +:+ ?s) with s. cbn.
  rewrite !from_str_hex_width by done. unfold CursorKey.u32_of_hex. rewrite from_str_hex_width by done. cbn.
  rewrite (proj2 (Z.ltb_ge _ _)) by done. cbn. by rewrite E4, Nat2Z.id.
Qed.

(** ** The order of hits *)

#[export] Existing Instances hit_lt_dec hit_le_dec.

Lemma hit_lt_irrefl x : ¬ hit_lt x x.
Proof. unfold hit_lt. lia. Qed.
#[export] Instance hit_lt_trans : Transitive hit_lt.
Proof. intros x y z. unfold hit_lt. lia. Qed.
#[export] Instance hit_le_trans : Transitive hit_le.
Proof. intros x y z. unfold hit_le, hit_lt. lia. Qed.
#[export] Instance hit_le_total : Total hit_le.
Proof. intros x y. unfold hit_le, hit_lt. lia. Qed.
Lemma hit_lt_le x y : hit_lt x y → hit_le x y.
Proof. unfold hit_le, hit_lt. lia. Qed.
Lemma hit_lt_ids x y : sh_entity_id x ≠ sh_entity_id y → hit_lt x y ∨ hit_lt y x.
Proof. unfold hit_lt. lia. Qed.

(** Two lists in the order of hits with the same elements are equal. *)
Lemma sorted_hits_cases l x y : StronglySorted hit_lt l → x ∈ l → y ∈ l → x = y ∨ hit_lt x y ∨ hit_lt y x.
Proof.
  induction 1 as [|z l S IH F]; [by intros ?%not_elem_of_nil|]. rewrite Forall_forall in F.
  rewrite !elem_of_cons. intros [->|Hx] [->|Hy]; auto.
Qed.
Lemma hits_unique l l' : StronglySorted hit_lt l → StronglySorted hit_le l' → l ≡ₚ l' → l' = l.
Proof.
  intros S S' P. symmetry. apply (StronglySorted_unique_strong hit_le); [|by eapply sorted_weaken; [apply hit_lt_le|]|done..].
  intros x y Hx Hy%(elem_of_Permutation_proper y _ _ P) L1 L2.
  destruct (sorted_hits_cases l x y) as [?|[?|?]]; done.
Qed.
Lemma merge_hits l : StronglySorted hit_lt l → merge_sort hit_le l = l.
Proof.
  intros S. apply hits_unique; [done|apply (StronglySorted_merge_sort hit_le)|]. by rewrite merge_sort_Permutation.
Qed.

(** ** The heap *)

Lemma insert_hit_perm h l : insert_hit h l ≡ₚ h :: l.
Proof.
  induction l as [|x l IH]; [done|]. cbn [insert_hit]. case_decide; [done|]. rewrite IH. apply Permutation_swap.
Qed.
Lemma insert_hit_sorted h l : (∀ x, x ∈ l → hit_lt h x ∨ hit_lt x h) → StronglySorted hit_lt l →
  StronglySorted hit_lt (insert_hit h l).
Proof.
  intros Hc. induction 1 as [|x l S IH F]; cbn [insert_hit]; [by repeat constructor|].
  rewrite Forall_forall in F. case_decide as D.
  - constructor; [constructor; [done|by apply Forall_forall]|]. constructor; [done|].
    apply Forall_forall. intros y Hy. etrans; [done|by apply F].
  - constructor; [apply IH; intros y Hy; apply Hc; by right|]. apply Forall_forall. intros y.
    rewrite insert_hit_perm, elem_of_cons. intros [->|Hy]; [|by apply F]. by destruct (Hc x) as [?|?]; [left| |].
Qed.
Lemma insert_hit_before h l1 l2 : Forall (λ x, ¬ hit_lt h x) l1 → insert_hit h (l1 ++ l2) = l1 ++ insert_hit h l2.
Proof.
  induction 1 as [|x l1 N F IH]; [done|]. change ((x :: l1) ++ l2) with (x :: (l1 ++ l2)). cbn [insert_hit].
  rewrite decide_False by done. by rewrite IH.
Qed.
Lemma insert_hit_after h l1 x l2 : hit_lt h x → insert_hit h (l1 ++ x :: l2) = insert_hit h l1 ++ x :: l2.
Proof.
  intros L. induction l1 as [|y l1 IH]; [cbn; by rewrite decide_True|].
  change ((y :: l1) ++ x :: l2) with (y :: (l1 ++ x :: l2)). cbn [insert_hit]. case_decide; [done|]. by rewrite IH.
Qed.

(** The heap holds the best hits of those pushed. *)
Lemma push_hit_best limit h l : 0 < limit → StronglySorted hit_lt l →
  push_hit limit h (take limit l) = take limit (insert_hit h l).
Proof.
  intros Lp Hs. unfold push_hit. rewrite length_take.
  destruct (decide (length l < limit)) as [Sh|Lo].
  { rewrite decide_True by lia. rewrite !take_ge; [done|rewrite (Permutation_length (insert_hit_perm h l)); simpl; lia|lia]. }
  rewrite decide_False by lia. destruct limit as [|limit]; [lia|].
  destruct (lookup_lt_is_Some_2 l limit) as [worst Hw]; [lia|].
  rewrite (take_S_r _ _ _ Hw), vec_pop_snoc.
  assert (insert_hit h l = insert_hit h (take limit l ++ worst :: drop (S limit) l)) as ->
    by (by rewrite take_drop_middle).
  assert (length (take limit l) = limit) as Lt by (rewrite length_take; lia).
  rewrite <-(take_drop_middle l limit worst Hw) in Hs.
  case_decide as D.
  - rewrite insert_hit_after by done. assert (length (insert_hit h (take limit l)) = S limit) as Li
      by (rewrite (Permutation_length (insert_hit_perm h _)); cbn; lia).
    rewrite take_app_le by lia. by rewrite (take_ge (insert_hit _ _)) by lia.
  - change (take limit l ++ worst :: drop (S limit) l) with (take limit l ++ [worst] ++ drop (S limit) l) in Hs |- *.
    rewrite (assoc_L (++)) in Hs |- *. rewrite insert_hit_before.
    + rewrite take_app_le by (rewrite length_app; cbn; lia). by rewrite (take_ge (_ ++ _)) by (rewrite length_app; cbn; lia).
    + apply Forall_app. split; [|by constructor]. apply Forall_forall. intros x Hx Lx. apply D.
      etrans; [done|]. apply StronglySorted_app in Hs as (_ & Hs & _). apply StronglySorted_app in Hs as (Hs & _ & _).
      apply Hs; [done|by left].
Qed.

Definition push_all (l hits : list ScoredHit) : list ScoredHit := foldl (λ l h, insert_hit h l) l hits.
Lemma push_all_perm l hits : push_all l hits ≡ₚ l ++ hits.
Proof.
  unfold push_all. revert l. induction hits as [|h hits IH]; intros l; cbn [foldl]; [by rewrite app_nil_r|].
  rewrite IH, insert_hit_perm. cbn [app]. by rewrite Permutation_middle.
Qed.
Lemma push_all_sorted l hits : StronglySorted hit_lt l → NoDup (map sh_entity_id (l ++ hits)) →
  StronglySorted hit_lt (push_all l hits).
Proof.
  unfold push_all. revert l. induction hits as [|h hits IH]; intros l S N; [done|]. cbn [foldl].
  apply IH.
  - apply insert_hit_sorted; [|done]. intros x Hx. apply hit_lt_ids. intros E.
    change (map sh_entity_id ?l) with (sh_entity_id <$> l) in N. rewrite fmap_app, NoDup_app in N.
    destruct N as (_ & N & _). apply (N (sh_entity_id x)); [by apply list_elem_of_fmap_2|]. rewrite <-E. by left.
  - change (map sh_entity_id ?l) with (sh_entity_id <$> l) in *. rewrite insert_hit_perm. cbn [app].
    by rewrite Permutation_middle.
Qed.

(** ** Searches in time *)

(** [keeps m]: while no deadline passes, [m] leaves the budget calm. *)
Definition keeps {A} (m : Q A) : Prop := ∀ b, calm b → calm (m b).2.

Section time.
Context `{FL : !FstLib, RL : !RegexLib}.
Variable length_specificity : nat → Z.
Variable expired : nat → bool.
Variable index : BelIndex.
Variable o : Overlay.
Hypothesis in_time : ∀ n, expired n = false.

Lemma keeps_ret {A} (x : A) : keeps (mret x : Q A).
Proof. by intros b C. Qed.
Lemma keeps_bind {A B} (m : Q A) (k : A → Q B) : keeps m → (∀ x, keeps (k x)) → keeps (x ← m; k x).
Proof.
  intros Hm Hk b C. unfold mbind, Q_bind. specialize (Hm b C). destruct (m b) as [x b']. by apply Hk.
Qed.
Lemma keeps_timed_out : keeps timed_out.
Proof. by intros b C. Qed.
Lemma keeps_tick : keeps (tick expired index).
Proof. intros b C. by apply tick_calm. Qed.
Lemma keeps_each {A S} (body : A → S → Q (Flow S)) l s : (∀ x s, keeps (body x s)) → keeps (each body l s).
Proof.
  intros Hb. revert s. induction l as [|x l IH]; intros s; cbn [each]; [apply keeps_ret|].
  apply keeps_bind; [apply Hb|]. intros [?|?]; [apply IH|apply keeps_ret].
Qed.
Lemma keeps_ticked {A S} (spoil : S → S) (f : A → S → Flow S) x s : keeps (ticked expired index spoil f x s).
Proof. apply keeps_bind; [apply keeps_tick|]. intros ok. apply keeps_ret. Qed.

Ltac keeps_step :=
  match goal with
  | |- keeps (mret _) => apply keeps_ret
  | |- keeps timed_out => apply keeps_timed_out
  | |- keeps (tick _ _) => apply keeps_tick
  | |- keeps (ticked _ _ _ _ _ _) => apply keeps_ticked
  | |- keeps (each _ _ _) => apply keeps_each; intros ? ?
  | |- keeps (mbind _ _) => apply keeps_bind; [|intros ?]
  | |- keeps (let _ := _ in _) => cbv zeta
  | |- keeps (collect_substring _ _ _ _ _) => fail 1
  | |- keeps _ => case_match
  end.
Ltac keeps := repeat keeps_step.

Lemma keeps_substring text kinds : keeps (collect_substring expired index o text kinds).
Proof.
  unfold collect_substring, substring_source, all_base_ids, base_kind_ids, intersect_postings,
    collect_overlay_substring, verify_substring. keeps.
Qed.
Lemma keeps_surface mode text kinds : keeps (collect_surface expired index o mode text kinds).
Proof.
  unfold collect_surface, restrict_candidate_kinds. apply keeps_bind; [|intros ?; keeps].
  destruct mode; keeps; try apply keeps_substring;
    unfold collect_exact, collect_prefix, collect_numeric, collect_regex, collect_token, all_base_ids,
      prefix_name, prefix_base, numeric_base, when_complete; keeps; apply keeps_substring.
Qed.
Lemma keeps_relationships seeds depth text ev : keeps (extend_relationships expired index o seeds depth text ev).
Proof. unfold extend_relationships, hop_seed, hop_level, hop_neighbors. keeps. Qed.
Lemma keeps_multi q ev : keeps (collect_multi_evidence expired index o q ev).
Proof.
  unfold collect_multi_evidence, quorum_clause, quorum_function, clause_seed. keeps. apply keeps_substring.
Qed.
Lemma keeps_modes q mode query_text text : keeps (collect_modes expired index o q mode query_text text).
Proof.
  unfold collect_modes, collect_motif, collect_ontology, motif_entry, ontology_entry, token_function_sources.
  destruct mode; keeps; try apply keeps_surface; try apply keeps_relationships; apply keeps_multi.
Qed.

(** A loop whose body always goes on runs through. *)
Lemma each_through {A S} (body : A → S → Q (Flow S)) l s b :
  (∀ x s b, calm b → goes_on (body x s b).1 = true ∧ calm (body x s b).2) → calm b →
  (each body l s b).1.2 = true ∧ calm (each body l s b).2.
Proof.
  intros Hb. revert s b. induction l as [|x l IH]; intros s b C; [done|]. rewrite each_cons.
  destruct (Hb x s b C) as [H1 H2]. destruct (body x s b) as [[s'|s'] b']; cbn in *; [by apply IH|done].
Qed.
(** A ticked loop is a fold. *)
Lemma each_fold {A S} (spoil : S → S) (f : A → S → Flow S) (g : A → S → S) l s b :
  (∀ x s, f x s = Next (g x s)) → calm b →
  ∃ b', each (ticked expired index spoil f) l s b = ((foldl (λ s x, g x s) s l, true), b') ∧ calm b'.
Proof.
  intros Hf. revert s b. induction l as [|x l IH]; intros s b C; [by exists b|]. rewrite each_cons.
  unfold ticked, mbind, Q_bind. destruct (tick_calm expired index b in_time C) as [T C'].
  destruct (tick expired index b) as [ok b']. cbn in T, C'. subst ok. cbn. rewrite Hf. by apply IH.
Qed.
Lemma signature_through ev b : calm b →
  (query_signature expired index ev b).1.2 = true ∧ calm (query_signature expired index ev b).2.
Proof.
  intros C. apply each_through; [|done]. intros id s b0 C0. unfold sign_candidate, mbind, Q_bind.
  destruct (tick_calm expired index b0 in_time C0) as [T C1]. destruct (tick expired index b0) as [ok b1].
  cbn in T, C1. subst ok. cbn [negb]. destruct (ev !! id) as [c|]; [|done].
  destruct (each_fold Datatypes.id (sign_seed index) (λ seed s,
    if decide (seed ∈ rare_lookup (signature_store index) ∨ length (entities index) ≤ seed)
    then Signature.insert seed (width_bits (signature_store index)) s else s) (ascending (seed_entities c)) s b1)
    as (b2 & E & C2); [done|done|]. by rewrite E.
Qed.

(** ** The ranking loop *)

Hypothesis WI : wf_index index.
Hypothesis WO : wf_overlay index o.

Definition rank_of (ev : Evidence) (signature : SparseFunctionSignature) (id : EntityId) : option ScoredHit :=
  c ← ev !! id; rank length_specificity index o signature id c.
Definition after (cursor : option CursorKey.t) (hit : ScoredHit) : bool :=
  match cursor with Some c => is_after_cursor hit c | None => true end.

Lemma entity_own_id id e : entity index o id = Some e → en_id e = id.
Proof.
  unfold entity. case_decide; [done|]. destruct (entities index !! id) as [e'|] eqn:E.
  - intros [= <-]. by apply (wi_ids _ WI).
  - unfold own_entity. case_decide; [done|]. intros Hi%(wo_ids _ _ WO). lia.
Qed.
Lemma rank_of_id ev signature id h : rank_of ev signature id = Some h → sh_entity_id h = id.
Proof.
  unfold rank_of, rank. destruct (ev !! id) as [c|]; [|done]. cbn. destruct (entity index o id) as [e|] eqn:E; [|done].
  cbn. intros [= <-]. cbn. by apply entity_own_id.
Qed.
Lemma ranked_ids ev signature ids : NoDup ids → NoDup (map sh_entity_id (omap (rank_of ev signature) ids)).
Proof.
  induction 1 as [|id ids Hid N IH]; [constructor|]. cbn [omap list_omap].
  destruct (rank_of ev signature id) as [h|] eqn:E; [|done]. cbn [map]. constructor; [|done].
  rewrite (rank_of_id _ _ _ _ E). intros (h' & E' & H)%list_elem_of_fmap. apply list_elem_of_omap in H as (id' & H & R).
  apply rank_of_id in R. congruence.
Qed.

(** One round: nothing to rank, a hit on an earlier page, or one pushed. *)
Definition ranked_step (cursor : option CursorKey.t) (limit : nat) (s : Ranking) (r : option ScoredHit) : Ranking :=
  match r with
  | None => s
  | Some h =>
      if after cursor h
      then mkRanking (push_hit limit h (rk_heap s)) (S (rk_total s)) (S (rk_after_cursor s)) (rk_complete s)
      else mkRanking (rk_heap s) (S (rk_total s)) (rk_after_cursor s) (rk_complete s)
  end.
Lemma rank_hit_step ev signature cursor limit id s b : calm b →
  ∃ b', rank_hit length_specificity expired index o ev signature cursor limit id s b =
    (Next (ranked_step cursor limit s (rank_of ev signature id)), b') ∧ calm b'.
Proof.
  intros C. unfold rank_hit, rank_of. destruct (ev !! id) as [c|]; [|by exists b].
  unfold mbind at 1, Q_bind. destruct (tick_calm expired index b in_time C) as [T C'].
  destruct (tick expired index b) as [ok b']. cbn in T, C'. subst ok. exists b'. split; [|done].
  cbn. destruct (rank length_specificity index o signature id c) as [h|]; [|done]. cbn. unfold after.
  destruct cursor as [c0|]; [|done]. by destruct (is_after_cursor h c0).
Qed.
Lemma rank_loop ev signature cursor limit ids s l b :
  0 < limit → calm b → rk_heap s = take limit l → StronglySorted hit_lt l →
  NoDup (map sh_entity_id (l ++ List.filter (after cursor) (omap (rank_of ev signature) ids))) →
  let found := omap (rank_of ev signature) ids in
  let kept := List.filter (after cursor) found in
  (each (rank_hit length_specificity expired index o ev signature cursor limit) ids s b).1 =
    (mkRanking (take limit (push_all l kept)) (rk_total s + length found) (rk_after_cursor s + length kept)
       (rk_complete s), true).
Proof.
  intros Lp. cbv zeta. revert s l b. induction ids as [|id ids IH]; intros s l b C Hh Hs N.
  { cbn. rewrite !Nat.add_0_r, <-Hh. by destruct s. }
  rewrite each_cons. destruct (rank_hit_step ev signature cursor limit id s b C) as (b' & -> & C').
  cbn [omap list_omap] in N |- *. unfold ranked_step.
  destruct (rank_of ev signature id) as [h|]; [|by apply IH].
  cbn [List.filter length]. cbn [List.filter] in N. destruct (after cursor h) eqn:Ea.
  - rewrite (IH _ (insert_hit h l)); [|done|cbn; rewrite Hh; by apply push_hit_best| |].
    + cbn [rk_total rk_after_cursor rk_complete length push_all foldl]. do 2 f_equal; lia.
    + apply insert_hit_sorted; [|done]. intros x Hx. apply hit_lt_ids. intros E.
      change (map sh_entity_id ?l) with (sh_entity_id <$> l) in N. rewrite fmap_app, NoDup_app in N.
      destruct N as (_ & N & _). apply (N (sh_entity_id x)); [by apply list_elem_of_fmap_2|]. rewrite <-E. by left.
    + change (map sh_entity_id ?l) with (sh_entity_id <$> l) in *. rewrite insert_hit_perm. cbn [app].
      by rewrite Permutation_middle.
  - rewrite (IH _ l); [|done..]. cbn [rk_total rk_after_cursor rk_complete]. do 2 f_equal; lia.
Qed.

(** ** Pages *)

(** Following the cursors of a search, as a client does. *)
Fixpoint follow (fuel : nat) (q : Query) (limit : nat) (cursor : option string) : list SearchResult :=
  match fuel with
  | 0 => []
  | S fuel =>
      match search length_specificity expired index o q limit cursor with
      | inl _ => []
      | inr r => r :: match next_cursor r with Some c => follow fuel q limit (Some c) | None => [] end
      end
  end.

Lemma after_key query_hash h x :
  is_after_cursor x (CursorKey.mkCursor (generation index) (ov_generation o) query_hash
    (sh_score_micros h) (sh_entity_id h) (sh_va h)) = bool_decide (hit_lt h x).
Proof. unfold is_after_cursor. apply bool_decide_ext. unfold hit_lt. cbn. lia. Qed.

Lemma filter_after h pre post : StronglySorted hit_lt (pre ++ h :: post) →
  List.filter (λ x, bool_decide (hit_lt h x)) (pre ++ h :: post) = post.
Proof.
  intros S. apply StronglySorted_app in S as (S1 & _ & S2). rewrite List.filter_app. cbn [List.filter].
  rewrite bool_decide_eq_false_2 by apply hit_lt_irrefl. apply StronglySorted_cons in S2 as [F _].
  assert (List.filter (λ x, bool_decide (hit_lt h x)) pre = []) as ->.
  { induction pre as [|x pre IH]; [done|]. cbn [List.filter]. rewrite bool_decide_eq_false_2.
    - apply IH. intros y z Hy. apply S1. by right.
    - intros L. apply (hit_lt_irrefl h). etrans; [done|]. by apply S1; left. }
  cbn [app]. induction F as [|x post L F IH]; [done|]. cbn [List.filter]. rewrite bool_decide_eq_true_2 by done.
  f_equal. apply IH. intros y z Hy Hz. apply S1; [done|]. apply elem_of_cons in Hz as [->|Hz]; [by left|by right; right].
Qed.
Lemma list_filter_perm {A} (f : A → bool) l l' : l ≡ₚ l' → List.filter f l ≡ₚ List.filter f l'.
Proof.
  induction 1 as [|x l l' P IH|x y l|l1 l2 l3 P1 IH1 P2 IH2]; cbn [List.filter]; [done| | |by etrans].
  - destruct (f x); by rewrite IH.
  - destruct (f x), (f y); try done. apply Permutation_swap.
Qed.
Lemma list_filter_sorted {A} (R : relation A) (f : A → bool) l : StronglySorted R l → StronglySorted R (List.filter f l).
Proof.
  induction 1 as [|x l S IH F]; [constructor|]. cbn [List.filter]. destruct (f x); [|done]. constructor; [done|].
  rewrite Forall_forall in *. intros y Hy. apply F. by apply elem_of_list_filter in Hy as [_ ?].
Qed.

(** What was collected, and its ranking. *)
Section pages.
Variable co : Collected.
Variable b : Budget.
Hypothesis calm_b : calm b.
Hypothesis complete : co_complete co = true.
Notation ev := (co_evidence co).
Definition signature_of : SparseFunctionSignature := (query_signature expired index ev b).1.1.
Definition found_hits : list ScoredHit := omap (rank_of ev signature_of) (ascending (dom ev)).
Definition ranking : list ScoredHit := push_all [] found_hits.

Lemma ids_nodup : NoDup (map sh_entity_id found_hits).
Proof.
  apply ranked_ids. unfold ascending. rewrite merge_sort_Permutation. apply NoDup_elements.
Qed.
Lemma ranking_perm : ranking ≡ₚ found_hits.
Proof. apply (push_all_perm []). Qed.
Lemma ranking_sorted : StronglySorted hit_lt ranking.
Proof. apply push_all_sorted; [constructor|apply ids_nodup]. Qed.
Lemma kept_nodup f : NoDup (map sh_entity_id (List.filter f found_hits)).
Proof.
  pose proof ids_nodup as N. revert N. generalize found_hits. intros l. induction l as [|x l IH]; [done|].
  cbn [map List.filter]. intros [Nx N]%NoDup_cons. destruct (f x); [|by apply IH]. cbn [map]. constructor; [|by apply IH].
  intros (y & E & Hy)%list_elem_of_fmap. apply Nx. apply elem_of_list_filter in Hy as [_ Hy]. rewrite E.
  by apply list_elem_of_fmap_2.
Qed.
Lemma kept_sorted f : push_all [] (List.filter f found_hits) = List.filter f ranking.
Proof.
  symmetry. apply hits_unique.
  - apply push_all_sorted; [constructor|apply kept_nodup].
  - eapply sorted_weaken; [apply hit_lt_le|]. apply list_filter_sorted, ranking_sorted.
  - rewrite (push_all_perm []). cbn [app]. apply list_filter_perm. symmetry. apply ranking_perm.
Qed.

Lemma rank_all_spec cursor limit :
  (rank_all length_specificity expired index o cursor limit co b).1 =
    mkRanking (take (S (page_limit limit)) (List.filter (after cursor) ranking)) (length ranking)
      (length (List.filter (after cursor) ranking)) true.
Proof.
  unfold rank_all, timed_out, mbind, Q_bind. destruct (signature_through ev b calm_b) as [T C].
  pose proof (eq_refl : signature_of = (query_signature expired index ev b).1.1) as Es.
  destruct (query_signature expired index ev b) as [[sig signed] b1]. cbn in T, C, Es. subst sig signed.
  rewrite calm_b, complete. cbn [negb andb].
  assert ((each (rank_hit length_specificity expired index o ev signature_of cursor (S (page_limit limit)))
             (ascending (dom ev)) (mkRanking [] 0 0 true) b1).1 =
    (mkRanking (take (S (page_limit limit)) (List.filter (after cursor) ranking)) (length ranking)
      (length (List.filter (after cursor) ranking)) true, true)) as E.
  { rewrite (rank_loop _ _ _ _ _ _ []); [|lia|done|by rewrite take_nil|constructor|apply (kept_nodup (after cursor))].
    fold found_hits. rewrite kept_sorted. cbn [rk_total rk_after_cursor rk_complete plus]. do 2 f_equal.
    - by rewrite (Permutation_length ranking_perm).
    - rewrite <-kept_sorted. by rewrite (Permutation_length (push_all_perm [] _)). }
  destruct (each _ _ _ b1) as [[rk through] b2]. cbn [fst] in E. by injection E as ->.
Qed.

(** The page that starts the rest of the ranking, [rest]. *)
Lemma page_of_rest limit rest total n : StronglySorted hit_lt rest →
  page_of limit (mkRanking (take (S (page_limit limit)) rest) total n true) = take (page_limit limit) rest.
Proof.
  intros Hs. unfold page_of. cbn [rk_heap]. rewrite merge_hits.
  - rewrite take_take. by rewrite Nat.min_l by lia.
  - rewrite <-(take_drop (S (page_limit limit)) rest) in Hs. by apply StronglySorted_app in Hs as (_ & ? & _).
Qed.
End pages.

Section client.
Variable q : Query.
Variable limit : nat.
Variable co : Collected.
Notation mode := (classify_query q).1.
Notation query_text := (classify_query q).2.
Notation text := (normalize_ascii query_text).
Notation query_hash := (query_fingerprint q mode text).
Notation collected := (collect_modes expired index o q mode query_text text new_budget).

(** The search gets past its guards and collects everything in time. *)
Record answers : Prop := mkAnswers {
  an_guard : query_guard q = None;
  an_text : text ≠ "" ∨ mode = MultiEvidence;
  an_collected : collected.1 = inr co;
  an_complete : co_complete co = true
}.
Hypothesis An : answers.

Definition hits_ranked : list ScoredHit := ranking co collected.2.

(** What a cursor can hold. *)
Definition hit_fits (h : ScoredHit) : Prop :=
  is_i64 (sh_score_micros h) ∧ (Z.of_nat (sh_entity_id h) ≤ u32_max)%Z ∧ is_u64 (sh_va h).
Definition fits : Prop := is_u64 (generation index) ∧ is_u64 (ov_generation o) ∧ Forall hit_fits hits_ranked.
#[export] Instance fits_dec : Decision fits.
Proof. unfold fits, hit_fits. apply _. Defined.
Hypothesis Fit : fits.

Lemma collected_calm : calm collected.2.
Proof. by apply keeps_modes. Qed.

(** The result of a search whose hits left are [rest]. *)
Definition page_result (rest : list ScoredHit) (r : SearchResult) : Prop :=
  hits r = omap (result_hit index o) (take (page_limit limit) rest) ∧ total r = length hits_ranked ∧
  total_kind r = ExactTotal ∧ timeout_or_partial r = false ∧
  next_cursor r = (if decide (page_limit limit < length rest)
                   then cursor_for index o query_hash <$> last (take (page_limit limit) rest) else None).

Lemma search_after cursor key :
  open_cursor index o query_hash cursor = inr key →
  ∃ r, search length_specificity expired index o q limit cursor = inr r ∧
    page_result (List.filter (after key) hits_ranked) r.
Proof.
  intros Ho. destruct An as [G Tx Co Cm]. unfold search, search_in. rewrite G.
  destruct (classify_query q) as [m qt] eqn:Ec. cbn [fst snd] in *. cbv zeta.
  assert (is_empty_str (normalize_ascii qt) && negb (bool_decide (m = MultiEvidence)) = false) as ->.
  { apply andb_false_iff. unfold is_empty_str. destruct Tx as [N|M]; [left; by apply bool_decide_eq_false|right].
    by rewrite bool_decide_eq_true_2. }
  rewrite Ho. unfold mbind at 1, Q_bind.
  pose proof (rank_all_spec co (collect_modes expired index o q m qt (normalize_ascii qt) new_budget).2) as Rk.
  pose proof collected_calm as Cal. rewrite Ec in Cal. cbn [fst snd] in Cal. specialize (Rk Cal Cm key limit).
  assert (hits_ranked = ranking co (collect_modes expired index o q m qt (normalize_ascii qt) new_budget).2) as Eh
    by (unfold hits_ranked; by rewrite Ec).
  destruct (collect_modes expired index o q m qt (normalize_ascii qt) new_budget) as [c b1]. cbn [fst snd] in *. subst c.
  unfold mbind at 1, Q_bind. destruct (rank_all length_specificity expired index o key limit co b1) as [rk b2].
  cbn [fst] in Rk. subst rk. cbn [mret Q_ret fst]. eexists. split; [done|].
  rewrite <-Eh. unfold page_result. rewrite Ec. cbn [fst snd]. unfold next_page.
  rewrite page_of_rest by (rewrite Eh; apply list_filter_sorted, ranking_sorted).
  cbn. split_and!; try done. rewrite orb_false_r. by rewrite <-decide_bool_decide.
Qed.

Lemma page_limit_pos : 0 < page_limit limit.
Proof. unfold page_limit. lia. Qed.
Lemma stable_hash_u64 bs : is_u64 (stable_u64_hash bs).
Proof.
  unfold stable_u64_hash. assert (is_u64 FNV_OFFSET) as H by (unfold is_u64, u64_max, FNV_OFFSET; lia). revert H.
  generalize FNV_OFFSET. induction bs as [|x bs IH]; intros h H; [done|]. cbn [foldl]. apply IH.
  pose proof (Z.mod_pos_bound (Z.lxor h x * FNV_PRIME) (2 ^ 64) ltac:(lia)). unfold is_u64, u64_max. lia.
Qed.
Lemma open_cursor_for h : h ∈ hits_ranked →
  open_cursor index o query_hash (Some (cursor_for index o query_hash h)) =
    inr (Some (CursorKey.mkCursor (generation index) (ov_generation o) query_hash
                 (sh_score_micros h) (sh_entity_id h) (sh_va h))).
Proof.
  intros Hh. unfold open_cursor, cursor_for. rewrite decode_encode.
  - cbn [CursorKey.index_generation CursorKey.overlay_generation CursorKey.query_hash].
    by rewrite bool_decide_eq_false_2 by tauto.
  - unfold cursor_fits. cbn. destruct Fit as (F1 & F2 & F3). rewrite Forall_forall in F3.
    destruct (F3 h Hh) as (F4 & F5 & F6).
    split_and!; try done; apply stable_hash_u64.
Qed.

(** A page lists what is left up to the limit. *)
Definition page_ok (r : SearchResult) : Prop :=
  total r = length hits_ranked ∧ total_kind r = ExactTotal ∧ timeout_or_partial r = false ∧
  length (hits r) ≤ page_limit limit.
Lemma omap_length_le {A B} (f : A → option B) l : length (omap f l) ≤ length l.
Proof. induction l as [|x l IH]; [done|]. cbn. destruct (f x); cbn; lia. Qed.
Lemma page_result_ok rest r : page_result rest r → page_ok r.
Proof.
  intros (E & ? & ? & ? & _). split_and!; try done. rewrite E. etrans; [apply omap_length_le|]. rewrite length_take. lia.
Qed.

Lemma follow_rest fuel cursor key pre rest :
  open_cursor index o query_hash cursor = inr key → hits_ranked = pre ++ rest →
  List.filter (after key) hits_ranked = rest → length rest < fuel →
  concat (map hits (follow fuel q limit cursor)) = omap (result_hit index o) rest ∧
  Forall page_ok (follow fuel q limit cursor).
Proof.
  revert cursor key pre rest. induction fuel as [|fuel IH]; intros cursor key pre rest Ho Ep Ef L; [lia|].
  cbn [follow]. destruct (search_after cursor key Ho) as (r & -> & Pr). rewrite Ef in Pr.
  pose proof (page_result_ok _ _ Pr) as Ok. destruct Pr as (Eh & _ & _ & _ & ->). case_decide as D.
  - pose proof page_limit_pos as Lp.
    destruct (last (take (page_limit limit) rest)) as [h|] eqn:El.
    2: { apply last_None in El. apply (f_equal length) in El. rewrite length_take in El. cbn in El. lia. }
    apply last_Some in El as [pre' El]. cbn [fmap option_fmap option_map].
    assert (hits_ranked = (pre ++ pre') ++ h :: drop (page_limit limit) rest) as Er.
    { rewrite Ep, <-(take_drop (page_limit limit) rest) at 1. rewrite El. by rewrite <-!app_assoc. }
    destruct (IH (Some (cursor_for index o query_hash h))
      (Some (CursorKey.mkCursor (generation index) (ov_generation o) query_hash
                 (sh_score_micros h) (sh_entity_id h) (sh_va h)))
      ((pre ++ pre') ++ [h]) (drop (page_limit limit) rest)) as [I1 I2].
    + apply open_cursor_for. rewrite Er. apply elem_of_app. right. by left.
    + rewrite Er. by rewrite <-!app_assoc.
    + rewrite Er. erewrite List.filter_ext; [apply filter_after|intros x; apply after_key].
      rewrite <-Er. apply ranking_sorted.
    + rewrite length_drop. lia.
    + cbn [map concat]. split; [|by constructor]. rewrite I1, Eh, <-omap_app. by rewrite take_drop.
  - cbn [map concat]. split; [|by constructor; [|constructor]]. rewrite Eh, app_nil_r. by rewrite take_ge by lia.
Qed.
Lemma filter_true {A} (l : list A) : List.filter (λ _, true) l = l.
Proof. induction l as [|x l IH]; [done|]. cbn. by rewrite IH. Qed.

(** From the first page on. *)
Lemma follow_all fuel : length hits_ranked < fuel →
  concat (map hits (follow fuel q limit None)) = omap (result_hit index o) hits_ranked ∧
  Forall page_ok (follow fuel q limit None).
Proof. intros L. apply (follow_rest fuel None None []); [done..|apply filter_true|done]. Qed.

(** Every hit ranked is shown, under its identifier. *)
Lemma hits_shown : map h_entity_id (omap (result_hit index o) hits_ranked) = map sh_entity_id hits_ranked.
Proof.
  assert (∀ h, h ∈ hits_ranked → ∃ x, result_hit index o h = Some x ∧ h_entity_id x = sh_entity_id h) as Hx.
  { intros h Hh. unfold hits_ranked in Hh. rewrite ranking_perm in Hh. apply list_elem_of_omap in Hh as (id & _ & R).
    pose proof (rank_of_id _ _ _ _ R) as E. subst id. unfold rank_of in R.
    destruct (co_evidence co !! sh_entity_id h); [|done]. cbn in R. unfold rank in R. unfold result_hit.
    destruct (entity index o (sh_entity_id h)) as [e|] eqn:Ee; [|done]. cbn. eexists. split; [done|]. cbn.
    by apply entity_own_id. }
  induction hits_ranked as [|h l IH]; [done|]. destruct (Hx h) as (x & E & Ei); [by left|].
  cbn [omap list_omap map]. rewrite E. cbn [map]. rewrite Ei. f_equal. apply IH. intros y Hy. apply Hx. by right.
Qed.
(** The entities ranked are those collected that are live. *)
Lemma hits_ranked_ids : map sh_entity_id hits_ranked ≡ₚ
  List.filter (live index o) (ascending (dom (co_evidence co))).
Proof.
  change (map sh_entity_id ?l) with (sh_entity_id <$> l). unfold hits_ranked. rewrite ranking_perm. unfold found_hits.
  assert (∀ id, id ∈ ascending (dom (co_evidence co)) → is_Some (co_evidence co !! id)) as D.
  { intros id Hid%elem_of_ascending. by apply elem_of_dom in Hid. }
  induction (ascending (dom (co_evidence co))) as [|id l IH]; [done|]. cbn [omap list_omap List.filter].
  destruct (D id) as [c Ec]; [by left|].
  assert (sh_entity_id <$> omap (rank_of (co_evidence co) (signature_of co collected.2)) l ≡ₚ List.filter (live index o) l) as I.
  { apply IH. intros id' Hid. apply D. by right. }
  unfold live at 1. destruct (rank_of _ _ id) as [h|] eqn:R.
  - pose proof (rank_of_id _ _ _ _ R) as <-. unfold rank_of in R. rewrite Ec in R. cbn in R. unfold rank in R.
    destruct (entity index o (sh_entity_id h)); [|done]. cbn. by rewrite I.
  - unfold rank_of in R. rewrite Ec in R. cbn in R. unfold rank in R.
    destruct (entity index o id); [done|]. by rewrite bool_decide_eq_false_2 by (by intros []).
Qed.

(** The order in which hits are shown: the better score first, then the smaller
    identifier. *)
Definition shown_before (x y : Hit) : Prop :=
  (h_score_micros y < h_score_micros x)%Z ∨
  h_score_micros y = h_score_micros x ∧ h_entity_id x < h_entity_id y.
Lemma shown_sorted l : StronglySorted hit_lt l → NoDup (map sh_entity_id l) →
  (∀ h x, h ∈ l → result_hit index o h = Some x → h_entity_id x = sh_entity_id h) →
  StronglySorted shown_before (omap (result_hit index o) l).
Proof.
  induction 1 as [|h l Hs IH F]; [constructor|]. cbn [map]. intros [Nh N]%NoDup_cons Hx. cbn [omap list_omap].
  assert (StronglySorted shown_before (omap (result_hit index o) l)) as I
    by (apply IH; [done|]; intros h' x Hh; apply Hx; by right).
  destruct (result_hit index o h) as [x|] eqn:E; [|done]. constructor; [done|].
  apply Forall_forall. intros y (h' & Hh & E')%list_elem_of_omap. rewrite Forall_forall in F. specialize (F h' Hh).
  assert (sh_entity_id h ≠ sh_entity_id h') as Ne.
  { intros Ei. apply Nh. rewrite Ei. by apply list_elem_of_fmap_2. }
  pose proof (Hx h x ltac:(by left) E) as Ex. pose proof (Hx h' y ltac:(by right) E') as Ey.
  assert (∀ h x, result_hit index o h = Some x → h_score_micros x = sh_score_micros h) as Sc.
  { intros h0 x0. unfold result_hit. destruct (entity index o (sh_entity_id h0)); [|done]. by intros [= <-]. }
  unfold shown_before. rewrite Ex, Ey, (Sc _ _ E), (Sc _ _ E'). unfold hit_lt in F. lia.
Qed.
Lemma hits_in_order : StronglySorted shown_before (omap (result_hit index o) hits_ranked).
Proof.
  apply shown_sorted; [apply ranking_sorted| |].
  - change (map sh_entity_id ?l) with (sh_entity_id <$> l). unfold hits_ranked. rewrite ranking_perm. apply ids_nodup.
  - intros h x Hh. unfold hits_ranked in Hh. rewrite ranking_perm in Hh. apply list_elem_of_omap in Hh as (id & _ & R).
    pose proof (rank_of_id _ _ _ _ R) as <-. unfold result_hit.
    destruct (entity index o (sh_entity_id h)) as [e|] eqn:Ee; [|done]. intros [= <-]. by apply entity_own_id.
Qed.

(** What a client sees of a search: all the live entities collected, each once,
    best first, in pages within the limit that give the exact total. *)
Definition lists (ids : list EntityId) (pages : list SearchResult) : Prop :=
  let shown := concat (map hits pages) in
  map h_entity_id shown ≡ₚ ids ∧ StronglySorted shown_before shown ∧
  Forall (λ r, total r = length shown ∧ total_kind r = ExactTotal ∧ timeout_or_partial r = false ∧
               length (hits r) ≤ page_limit limit) pages.
Lemma follow_lists fuel : length (List.filter (live index o) (ascending (dom (co_evidence co)))) < fuel →
  lists (List.filter (live index o) (ascending (dom (co_evidence co)))) (follow fuel q limit None).
Proof.
  intros L. destruct (follow_all fuel) as [E F].
  { by rewrite <-(length_map sh_entity_id), hits_ranked_ids. }
  unfold lists. cbv zeta. rewrite E, hits_shown. split; [apply hits_ranked_ids|]. split; [apply hits_in_order|].
  eapply Forall_impl; [exact F|]. intros r (-> & ? & ? & ?). split_and!; try done.
  by rewrite <-(length_map h_entity_id), hits_shown, length_map.
Qed.
End client.

(** ** Surface searches in full *)

(** [holds m P]: in time, what [m] gives satisfies [P]. *)
Definition holds {A} (m : Q A) (P : A → Prop) : Prop := ∀ b, calm b → P (m b).1 ∧ calm (m b).2.
Lemma holds_keeps {A} (m : Q A) : keeps m → holds m (λ _, True).
Proof. intros K b C. split; [done|by apply K]. Qed.
Lemma holds_ret {A} (x : A) (P : A → Prop) : P x → holds (mret x) P.
Proof. by intros H b C. Qed.
Lemma holds_timed_out : holds timed_out (λ t, t = false).
Proof. by intros b C. Qed.
Lemma holds_bind {A B} (m : Q A) (k : A → Q B) P P' :
  holds m P → (∀ x, P x → holds (k x) P') → holds (x ← m; k x) P'.
Proof.
  intros Hm Hk b C. unfold mbind, Q_bind. destruct (Hm b C) as [Hp C']. destruct (m b) as [x b']. by apply Hk.
Qed.
Lemma holds_bind_any {A B} (m : Q A) (k : A → Q B) P :
  keeps m → (∀ x, holds (k x) P) → holds (x ← m; k x) P.
Proof. intros K Hk. eapply holds_bind; [by apply holds_keeps|]. intros x _. apply Hk. Qed.

Definition untimed (r : BelQueryError + CandidateSet) : Prop :=
  match r with inr c => cs_timed_out c = false | inl _ => True end.
(** The last two steps of a collector. *)
Lemma holds_stamp (f : bool → CandidateSet) :
  (∀ t, cs_timed_out (f t) = t) → holds (timed ← timed_out; mret (f timed)) (λ c, cs_timed_out c = false).
Proof. intros Hf. eapply holds_bind; [apply holds_timed_out|]. intros t ->. apply holds_ret. by rewrite Hf. Qed.

Ltac untimed_steps :=
  repeat match goal with
  | |- holds (x ← timed_out; mret _) _ => by apply holds_stamp
  | |- holds (mbind _ _) _ => apply holds_bind_any; [solve [keeps]|intros ?]
  | |- holds _ _ => case_match
  end.
Lemma exact_untimed text : holds (collect_exact expired index o text) (λ c, cs_timed_out c = false).
Proof.
  unfold collect_exact. eapply holds_bind with (P := λ r, r.2 = true).
  - intros b C. apply each_through; [|done]. intros x s b0 C0. unfold ticked, mbind, Q_bind.
    destruct (tick_calm expired index b0 in_time C0) as [T C1]. destruct (tick expired index b0) as [ok b1].
    cbn in T, C1. by subst ok.
  - intros [s through] Ht. cbn in Ht. subst through. cbn [negb]. cbv zeta. untimed_steps.
Qed.
Lemma prefix_untimed text : holds (collect_prefix expired index o text) (λ c, cs_timed_out c = false).
Proof. unfold collect_prefix, prefix_name, prefix_base. cbv zeta. untimed_steps. Qed.
Lemma substring_untimed text kinds : holds (collect_substring expired index o text kinds) (λ c, cs_timed_out c = false).
Proof.
  unfold collect_substring, substring_source, all_base_ids, base_kind_ids, intersect_postings,
    collect_overlay_substring, verify_substring. cbv zeta. untimed_steps.
Qed.
Lemma numeric_untimed text : holds (collect_numeric expired index o text) untimed.
Proof.
  unfold collect_numeric, numeric_base. case_match; [|by apply holds_ret].
  apply holds_bind_any; [keeps|]. intros [s ?]. apply holds_bind_any; [keeps|]. intros [s' ?].
  eapply holds_bind; [apply holds_timed_out|]. intros ? ->. by apply holds_ret.
Qed.

(** The modes that are always complete with few matches. *)
Definition counted (mode : SearchMode) : Prop :=
  mode = Exact ∨ mode = Prefix ∨ mode = Substring ∨ mode = Numeric.
Lemma surface_untimed mode text kinds : counted mode → holds (collect_surface expired index o mode text kinds) untimed.
Proof.
  intros Hm. unfold collect_surface. eapply holds_bind with (P := untimed).
  - destruct Hm as [->|[->|[->| ->]]]; [eapply holds_bind; [apply exact_untimed|]|eapply holds_bind; [apply prefix_untimed|]
      |eapply holds_bind; [apply substring_untimed|]|apply numeric_untimed]; intros c Hc; by apply holds_ret.
  - intros [e|c] Hc; [by apply holds_ret|]. apply holds_bind_any; [unfold restrict_candidate_kinds; keeps|]. intros s.
    eapply holds_bind; [apply holds_timed_out|]. intros t ->. apply holds_ret. cbn in *. by rewrite Hc.
Qed.

(** The evidence of a surface search is about its candidates. *)
Lemma surface_fold mode text kinds c srcs l (s : gmap EntityId CandidateEvidence * bool) id :
  let r := foldl (λ s i, if kind_allowed index o kinds i
                  then (<[i := surface_evidence index o mode text c srcs i]> s.1, s.2) else s) s l in
  r.2 = s.2 ∧ (id ∈ dom r.1 ↔ id ∈ dom s.1 ∨ (id ∈ l ∧ kind_allowed index o kinds id = true)).
Proof.
  cbv zeta. revert s. induction l as [|x l IH]; intros s; cbn [foldl].
  { split; [done|]. split; [by left|]. by intros [?|[?%not_elem_of_nil _]]. }
  destruct (IH (if kind_allowed index o kinds x then (<[x := surface_evidence index o mode text c srcs x]> s.1, s.2) else s))
    as [-> ->]. rewrite elem_of_cons. destruct (kind_allowed index o kinds x) eqn:Ek; cbn [fst snd].
  - split; [done|]. rewrite dom_insert_L, elem_of_union, elem_of_singleton. naive_solver congruence.
  - split; [done|]. naive_solver congruence.
Qed.
Lemma modes_surface q mode query_text c :
  counted mode →
  (collect_surface expired index o mode (normalize_ascii query_text) (q_kinds q) new_budget).1 = inr c →
  cs_complete c = true →
  ∃ co, (collect_modes expired index o q mode query_text (normalize_ascii query_text) new_budget).1 = inr co ∧
    co_complete co = true ∧
    ∀ id, id ∈ dom (co_evidence co) ↔ id ∈ cs_ids c ∧ kind_allowed index o (q_kinds q) id = true.
Proof.
  intros Hm Ec Hc. destruct (surface_untimed mode (normalize_ascii query_text) (q_kinds q) Hm new_budget) as [Ut C]; [done|].
  assert (collect_modes expired index o q mode query_text (normalize_ascii query_text) =
    (r ← collect_surface expired index o mode (normalize_ascii query_text) (q_kinds q);
      match r with
      | inl e => mret (inl e)
      | inr c =>
          '((ev, complete), _) ← each (ticked expired index (λ s : gmap EntityId CandidateEvidence * bool, (s.1, false))
                                        (surface_hit index o mode query_text (q_kinds q) c ∅))
              (ascending (cs_ids c)) (∅, cs_complete c && true);
          mret (inr (mkCollected ev (complete && (cs_complete c && negb (cs_timed_out c)))
                       (cs_estimated c) (cs_strategy c)))
      end)) as -> by (by destruct Hm as [->|[->|[->| ->]]]).
  unfold mbind at 1, Q_bind. destruct (collect_surface _ _ _ _ _ _ new_budget) as [r b1]. cbn [fst snd] in *. subst r.
  cbn in Ut. rewrite Ut, Hc. unfold mbind at 1, Q_bind.
  destruct (each_fold (λ s : gmap EntityId CandidateEvidence * bool, (s.1, false))
    (surface_hit index o mode query_text (q_kinds q) c ∅)
    (λ i s, if kind_allowed index o (q_kinds q) i
            then (<[i := surface_evidence index o mode query_text c ∅ i]> s.1, s.2) else s)
    (ascending (cs_ids c)) (∅, true && true) b1) as (b2 & -> & _); [done|done|].
  pose proof (λ id, surface_fold mode query_text (q_kinds q) c ∅ (ascending (cs_ids c)) (∅, true) id) as Sf. cbv zeta in Sf.
  cbn [andb]. destruct (foldl _ _ _) as [ev complete]. cbn [fst snd] in Sf. destruct (Sf 0) as [-> _].
  cbn. eexists. split; [done|]. cbn. split; [done|]. intros id. rewrite (proj2 (Sf id)), elem_of_ascending, dom_empty_L.
  set_solver.
Qed.

(** The pages of a surface search list what the linear verifier finds. *)
Lemma surface_lists q limit ids fuel :
  query_guard q = None → normalize_ascii (classify_query q).2 ≠ "" → counted (classify_query q).1 →
  few index o (classify_query q).1 (normalize_ascii (classify_query q).2) →
  linear_oracle_ids index o (classify_query q).1 (classify_query q).2 = inr ids →
  (∀ co, (collect_modes expired index o q (classify_query q).1 (classify_query q).2
            (normalize_ascii (classify_query q).2) new_budget).1 = inr co → fits q co) →
  length (List.filter (shown index o (q_kinds q)) ids) < fuel →
  lists limit (List.filter (shown index o (q_kinds q)) ids) (follow fuel q limit None).
Proof.
  intros G Tx Hm Fe Or Fits L.
  assert (scanned (classify_query q).1) as Hs by (unfold scanned, counted in *; tauto).
  pose proof (surface_agrees index o expired WI WO (classify_query q).1 (classify_query q).2 (q_kinds q) new_budget Hs) as Ag.
  assert (search_text (classify_query q).1 (classify_query q).2 = normalize_ascii (classify_query q).2) as Es.
  { by destruct Hm as [->|[->|[->| ->]]]. }
  unfold agrees in Ag. rewrite Or, Es in Ag.
  destruct (collect_surface _ _ _ _ _ _ _) as [r b1] eqn:Ec. cbn [fst] in Ag.
  destruct r as [e|c]; [exfalso; apply Ag|destruct Ag as (_ & A2 & A3)].
  1, 2: intros E; destruct Hm as [E'|[E'|[E'|E']]]; congruence.
  specialize (A3 in_time eq_refl Fe). specialize (A2 A3).
  destruct (modes_surface q (classify_query q).1 (classify_query q).2 c) as (co & E & Cm & D); [done|by rewrite Ec|done|].
  assert (List.filter (live index o) (ascending (dom (co_evidence co))) = List.filter (shown index o (q_kinds q)) ids) as El.
  { rewrite <-A2. apply sorted_same; [apply filter_sorted, ascending_sorted|apply filter_sorted, ascending_sorted|].
    intros id. rewrite !elem_of_list_filter, !elem_of_ascending, D. unfold shown. rewrite andb_true_iff. tauto. }
  rewrite <-El in L |- *. apply follow_lists; [|by apply Fits|done]. split; [done|by left|done|done].
Qed.
End time.
