(* ===== verification/BelClaims.v ===== *)
(** The claims about the evidence index: what is built, what the overlay shows,
    and what a search lists, with a small image as their witness. *)

From Stdlib Require Import Strings.Ascii Strings.String.
From S2P Require Import Prelude Text Data Ops Activity MemoryMap Loader Cfg CfgFrontier CodeIndex Callees Bel BelBuild BelQuery BelFacts BelSurface BelCorrect BelBuildFacts BelOverlay BelPaging.
Import Data.Types AddressSpace.

Local Open Scope string_scope.
Local Open Scope list_scope.
Local Open Scope nat_scope.

(** ** A small image *)

(** A finite-state transducer as the list of its entries. *)
#[export] Instance sample_fst : FstLib := {|
  fst_builder := list (string * Z);
  fst_bytes := list (string * Z);
  fst_map := list (string * Z);
  fst_memory := [];
  fst_insert k v b :=
    match last b with
    | Some (k', _) => if str_lt k' k then inr (b ++ [(k, v)]) else inl "key out of order"
    | None => inr [(k, v)]
    end;
  fst_into_inner b := inr b;
  fst_new bs := inr bs;
  fst_as_bytes m := m;
  fst_get m k := snd <$> find_first (λ e, String.eqb e.1 k) m;
  fst_len m := length m
|}.
#[export] Instance sample_fst_laws : FstLaws.
Proof.
  unshelve econstructor; [exact Datatypes.id|..]; cbn; [done| |eauto 10|done].
  intros b k v F. destruct (last b) as [[k' v']|] eqn:E.
  - apply last_Some in E as [l ->]. apply Forall_app in F as [_ F]. apply Forall_cons in F as [F _]. cbn in F.
    rewrite F. eauto.
  - apply last_None in E as ->. eauto.
Defined.
(** A library that reads letters, digits and points, and refuses the rest. *)
Fixpoint match_here (pattern s : string) : bool :=
  match pattern, s with
  | "", _ => true
  | String c pattern, String d s =>
      (Ascii.eqb c "." || Ascii.eqb (to_ascii_lowercase c) (to_ascii_lowercase d)) && match_here pattern s
  | _, _ => false
  end.
Fixpoint match_any_from (pattern s : string) : bool :=
  match_here pattern s || match s with "" => false | String _ s => match_any_from pattern s end.
Definition simple_pattern (pattern : string) : bool :=
  forallb (λ c, class_char c || Ascii.eqb c ".") (list_ascii_of_string pattern).
#[export] Instance sample_regex : RegexLib := {|
  regex_new pattern := if simple_pattern pattern then inr (match_any_from pattern) else inl "not supported"
|}.

Lemma match_any_split pattern s :
  match_any_from pattern s = true → ∃ x y, s = x +:+ y ∧ match_here pattern y = true.
Proof.
  induction s as [|c s IH]; cbn [match_any_from]; intros [H|H]%orb_true_iff; try done.
  - by exists "", "".
  - by exists "", (String c s).
  - destruct (IH H) as (x & y & -> & M). by exists (String c x), y.
Qed.
Lemma simple_app a b : simple_pattern (a +:+ b) = simple_pattern a && simple_pattern b.
Proof.
  unfold simple_pattern. induction a as [|c a IH]; [done|].
  change ((class_char c || Ascii.eqb c ".") && forallb (λ c, class_char c || Ascii.eqb c ".") (list_ascii_of_string (a +:+ b)) =
    ((class_char c || Ascii.eqb c ".") && forallb (λ c, class_char c || Ascii.eqb c ".") (list_ascii_of_string a)) &&
    forallb (λ c, class_char c || Ascii.eqb c ".") (list_ascii_of_string b)).
  by rewrite IH, andb_assoc.
Qed.
(** A simple pattern is a sequence of literals and points. *)
Lemma match_here_re r rest s : simple_pattern (re_text r) = true → match_here (re_text r +:+ rest) s = true →
  ∃ y z, s = y +:+ z ∧ re_match r y ∧ match_here rest z = true.
Proof.
  revert rest s. induction r as [|c| | | |negated items|r IH|r1 IH1 r2 IH2|r1 IH1 r2 IH2|r IH|r IH|r IH];
    cbn [re_text]; intros rest s P M;
    try (exfalso; rewrite ?simple_app in P; repeat (apply andb_true_iff in P as [? P]); by vm_compute in P).
  - exists "", s. split_and!; [done|constructor|done].
  - destruct (special c) eqn:S; [by vm_compute in P|].
    change (match_here (String c rest) s = true) in M. destruct s as [|d s]; [done|]. cbn [match_here] in M.
    apply andb_true_iff in M as [[->%Ascii.eqb_eq|E%Ascii.eqb_eq]%orb_true_iff M]; [by vm_compute in S|].
    exists (String d ""), s. split_and!; [done|by constructor|done].
  - change (match_here (String "." rest) s = true) in M. destruct s as [|d s]; [done|]. cbn [match_here] in M.
    apply andb_true_iff in M as [_ M]. exists (String d ""), s. split_and!; [done|constructor|done].
  - rewrite simple_app, andb_true_iff in P. destruct P as [P1 P2]. rewrite app_str_assoc in M.
    destruct (IH1 _ _ P1 M) as (y1 & z1 & -> & M1 & M'). destruct (IH2 _ _ P2 M') as (y2 & z2 & -> & M2 & M'').
    exists (y1 +:+ y2), z2. split_and!; [by rewrite app_str_assoc|by constructor|done].
Qed.
#[export] Instance sample_regex_laws : RegexLaws.
Proof.
  constructor. intros r is_match d _. unfold regex_new, sample_regex.
  destruct (simple_pattern (re_text r)) eqn:P; [|done]. intros [= <-] (x & y & -> & M)%match_any_split.
  destruct (match_here_re r "" y P) as (u & v & -> & Mu & _); [by rewrite app_str_nil|].
  exists x, u, v. done.
Qed.
#[export] Instance sample_format : Formatter := {|
  format symbols i :=
    match symbols !! near_branch_target i with
    | Some s => "call " +:+ sym_name s
    | None => "ret"
    end
|}.

Definition sample_function (va : Z) : Functions.Function :=
  Functions.mkFunction 0 va [Functions.mkBlock va (va + 5) 2 [] []] [] None None.
Definition sample_symbols : gmap Z Symbol :=
  {[ 0x1000%Z := mkSymbol "Entry" Function_; 0x1010%Z := mkSymbol "sub_1010" Function_;
     0x2000%Z := mkSymbol "CreateFileW" Import_ ]}.
(** The image with symbols and comments, after some operations. *)
Definition sample_image (syms : gmap Z Symbol) (notes : gmap Z string) (seq : Z) : Project :=
  mkProject "a.exe" "sha"
    {[ 0x1000%Z := sample_function 0x1000; 0x1010%Z := sample_function 0x1010 ]}
    syms (mkComments notes ∅) (mkTypes ∅ ∅ ∅) ∅ ∅ ∅ None seq ∅ [] ∅.
Definition sample_instruction (va : Z) (flow : FlowControl.FlowControl) (target : Z) : DecodedInstr :=
  mkDecoded va 5 [] (mkInstruction va 5 false flow target []).
Definition sample_analysed : Analysed :=
  mkAnalysed (sample_image sample_symbols {[ 0x1005%Z := "opens the log" ]} 0)
    [sample_instruction 0x1000 FlowControl.Call 0x2000; sample_instruction 0x1005 FlowControl.Return 0;
     sample_instruction 0x1010 FlowControl.Call 0x1000; sample_instruction 0x1015 FlowControl.Return 0]
    (mkXrefs ∅ ∅) (mkSpace 0 []) [(0x400%Z, "file.log")].
Definition sample_config : BelConfig := mkConfig 5 3 64 8 256 2 100000 2 1 false 768 4096.
(** The project after a function was renamed, its comment changed and another
    one made. *)
Definition sample_later : Project :=
  sample_image (<[0x1010%Z := mkSymbol "CloseFile" User]> sample_symbols)
    {[ 0x1005%Z := "writes the file"; 0x1015%Z := "done" ]} 3.
Definition sample_build : BelBuildError + (BelIndex * nat) := build sample_analysed sample_config (λ _, None) 0.

(** ** The claims *)

Section claims.
Context `{FM : !Formatter, FL : !FstLib, FW : !FstLaws, RL : !RegexLib}.

(** The index a build gave. *)
Definition built (an : Analysed) (config : BelConfig) (check : nat → option BelBuildError) (index : BelIndex) : Prop :=
  keyed an ∧ ∃ n n', build an config check n = inr (index, n').
Lemma built_wf an config check index : built an config check index → wf_index index.
Proof.
  intros (K & n & n' & E). destruct (validate_config config) as [e|] eqn:V.
  { unfold build in E. by rewrite V in E. }
  pose proof (build_spec an config check K V n) as W. by rewrite E in W.
Qed.

(** C23: building the evidence index of a project whose functions are keyed by
    their entries ends with a well-formed index, or with the error of an invalid
    configuration, of the control (cancelled, out of time) or of too many
    entities. In a well-formed index every entity has its position as its
    identifier and its lower-case display as its text; the names are in order and
    the transducer, the kinds, the syncmers (when complete) and the tokens post
    exactly the entities that have them. *)
Theorem index_well_formed an config check n :
  keyed an →
  match build an config check n with
  | inr (index, _) => wf_index index
  | inl e => validate_config config = Some e ∨ e = TooManyEntities ∨ ∃ m, check m = Some e
  end.
Proof.
  intros K. destruct (validate_config config) as [e|] eqn:V.
  - unfold build. rewrite V. by left.
  - pose proof (build_spec an config check K V n) as W.
    destruct (build an config check n) as [e|[index n']]; [by right|done].
Qed.

(** *** The overlay *)

Section overlay.
Variable index : BelIndex.
Hypothesis WI : wf_index index.
Variable p : Project.
Variable o : Overlay.
Hypothesis Ap : applied index (sorted_slots p) o.
Notation current := (current_annotation_slots p).

Lemma current_sorted s : s ∈ sorted_slots p ↔ s ∈ current.
Proof. unfold sorted_slots. by rewrite merge_sort_Permutation. Qed.
Lemma one_per_slot s s' : s ∈ current → s' ∈ current → sl_slot s = sl_slot s' → s = s'.
Proof.
  rewrite <-!current_sorted. pose proof (slots_distinct p) as N. intros [i Hi]%list_elem_of_lookup [j Hj]%list_elem_of_lookup E.
  assert (i = j) as ->; [|congruence].
  apply (NoDup_lookup _ i j (sl_slot s) N); change (map sl_slot ?l) with (sl_slot <$> l); rewrite list_lookup_fmap, ?Hi, ?Hj; cbn; congruence.
Qed.
Lemma buried_slot id : id ∈ tombstones o →
  ∃ k e, slots index !! k = Some id ∧ entities index !! id = Some e ∧
    en_kind e ≠ EntityKind.Function ∧ en_kind e ≠ EntityKind.Instruction.
Proof.
  intros (s & e & _ & [Sl He] & _)%(ap_buried _ _ _ Ap). exists (sl_slot s), e.
  destruct (wi_slots _ WI _ _ Sl) as (e' & He' & K1 & K2). rewrite He in He'. by injection He' as <-.
Qed.
Lemma overridden_function id : is_Some (display_overrides o !! id) →
  ∃ e, entities index !! id = Some e ∧ en_kind e = EntityKind.Function.
Proof.
  intros [d (s & _ & [_ R] & _)%(ap_renamed _ _ _ Ap)]. apply (wi_functions _ WI) in R as (e & He & K & _). eauto.
Qed.
Lemma no_override id e : entities index !! id = Some e → en_kind e ≠ EntityKind.Function →
  display_overrides o !! id = None.
Proof.
  intros He K. destruct (display_overrides o !! id) as [d|] eqn:E; [|done].
  destruct (overridden_function id) as (e' & He' & K'); [by rewrite E|]. congruence.
Qed.

Definition visible (id : EntityId) (e : Entity) (display : string) : Prop :=
  entity index o id = Some e ∧ display_of index o id = Some display ∧
  normalized_of index o id = Some (normalize_ascii display).

Lemma unchanged_visible s : s ∈ current → unchanged index s → ∃ id e, visible id e (sl_display s).
Proof.
  intros Hs (id & e & [Sl He] & D). exists id, e.
  assert (id ∉ tombstones o) as T.
  { intros (s' & e' & Hs' & [Sl' He'] & D')%(ap_buried _ _ _ Ap). apply current_sorted in Hs'.
    rewrite (one_per_slot s s' Hs Hs' (wi_slots_inj _ WI _ _ _ Sl Sl')) in D. congruence. }
  destruct (wi_slots _ WI _ _ Sl) as (e' & He' & K & _). rewrite He in He'. injection He' as <-.
  pose proof (no_override id e He K) as NO.
  assert (entity index o id = Some e) as Ee by (unfold entity; by rewrite decide_False, He).
  split; [done|]. split.
  - unfold display_of, own_display. rewrite NO, Ee. cbn. by rewrite D.
  - pose proof (wo_overrides _ _ (ap_loose _ _ _ Ap)) as Ov. cbn in Ov. unfold normalized_of. rewrite Ov, lookup_fmap, NO. cbn.
    pose proof (wo_base _ _ (ap_loose _ _ _ Ap)) as B. cbn in B. rewrite decide_True by (rewrite B; by eapply lookup_lt_Some).
    rewrite decide_False by done. rewrite (wi_texts _ WI), list_lookup_fmap, He. cbn. by rewrite D.
Qed.
Lemma new_visible e : e ∈ ov_entities o → visible (en_id e) e (en_display e).
Proof.
  pose proof (ap_loose _ _ _ Ap) as L. pose proof (wo_base _ _ L) as B. cbn in B. intros [i Hi]%list_elem_of_lookup.
  pose proof (wo_ids _ _ L i e Hi) as Ei. cbn in Ei.
  assert (entities index !! en_id e = None) as Nb by (apply lookup_ge_None; lia).
  assert (en_id e ∉ tombstones o) as T by (intros (k & e' & _ & He & _)%buried_slot; congruence).
  assert (display_overrides o !! en_id e = None) as NO.
  { destruct (display_overrides o !! en_id e) as [d|] eqn:E; [|done].
    destruct (overridden_function (en_id e)) as (e' & He' & _); [by rewrite E|]. congruence. }
  assert (entity index o (en_id e) = Some e) as Ee.
  { unfold entity, own_entity. rewrite decide_False by done. rewrite Nb, decide_False by lia. rewrite Ei.
    by replace (base_entity_count o + i - base_entity_count o) with i by lia. }
  split; [done|]. split; [unfold display_of, own_display; by rewrite NO, Ee|].
  pose proof (wo_overrides _ _ L) as Ov. cbn in Ov. unfold normalized_of, own_normalized. rewrite Ov, lookup_fmap, NO. cbn.
  rewrite !decide_False by lia. pose proof (wo_texts _ _ L) as Tx. cbn in Tx. rewrite Tx, list_lookup_fmap, Ei.
  replace (base_entity_count o + i - base_entity_count o) with i by lia. by rewrite Hi.
Qed.
Lemma code_is_visible : code_visible index o.
Proof.
  intros e [i Hi]%list_elem_of_lookup K. apply (hidden_false (λ _, false)). pose proof (wi_ids _ WI _ _ Hi) as <-. split.
  - intros (k & e' & _ & He & _ & K')%buried_slot. congruence.
  - pose proof (wo_surface _ _ (ap_loose _ _ _ Ap)) as Su. cbn in Su. rewrite Su, elem_of_dom.
    intros (e' & He & K')%overridden_function. congruence.
Qed.
Lemma decide_unchanged s : unchanged index s ∨ ¬ unchanged index s.
Proof.
  unfold unchanged, stands. destruct (slots index !! sl_slot s) as [id|] eqn:E; [|right; by intros (id & e & [? _] & _)].
  destruct (entities index !! id) as [e|] eqn:He; [|right; intros (id' & e & [[= <-] ?] & _); congruence].
  destruct (decide (en_display e = sl_display s)) as [D|D]; [left; by exists id, e|].
  right. intros (id' & e' & [[= <-] He'] & D'). congruence.
Qed.
Lemma annotation_visible s : s ∈ current → ∃ id e, visible id e (sl_display s).
Proof.
  intros Hs. destruct (decide_unchanged s) as [U|C]; [by apply unchanged_visible|].
  apply current_sorted in Hs. destruct (ap_all _ _ _ Ap s Hs C) as (e & He & _ & D & _).
  exists (en_id e), e. rewrite <-D. by apply new_visible.
Qed.
End overlay.

(** C12: on a built index, an overlay can be made of any later state of the
    project. Every annotation the project has now (symbols, comments, memory
    cards, types) is seen through it with its present text; every entity the
    overlay adds is a present annotation and is seen; an annotation of the index
    that is still seen is the one its slot has now, or its slot is empty now; and a
    function whose symbol changed is seen under the new name. *)
Theorem overlay_shows_annotations an config check index p :
  built an config check index →
  ∃ o, from_project index p = Some o ∧ wf_overlay index o ∧
    (∀ s, s ∈ current_annotation_slots p → ∃ id e, visible index o id e (sl_display s)) ∧
    (∀ e, e ∈ ov_entities o → visible index o (en_id e) e (en_display e) ∧
       ∃ s, s ∈ current_annotation_slots p ∧ entity_for s e) ∧
    (∀ k id e, slots index !! k = Some id → entity index o id = Some e →
       (∃ s, s ∈ current_annotation_slots p ∧ sl_slot s = k ∧ sl_display s = en_display e) ∨
       ∀ s, s ∈ current_annotation_slots p → sl_slot s ≠ k) ∧
    (∀ s id, s ∈ current_annotation_slots p → renames index s id → ¬ unchanged index s →
       display_of index o id = Some (sl_display s)).
Proof.
  intros WI%built_wf. destruct (from_project_applied index WI p) as (o & -> & Ap).
  exists (with_numeric sort_values o). split; [done|]. split; [apply (ap_loose _ _ _ Ap)|]. split_and!.
  - by apply (annotation_visible index WI p o Ap).
  - intros e He. split; [by apply (new_visible index WI p o Ap)|].
    destruct (ap_new _ _ _ Ap e He) as (s & Hs & _ & E). exists s. by rewrite <-current_sorted.
  - intros k id e Sl. destruct (wi_slots _ WI _ _ Sl) as (e' & He & _). unfold entity. cbn. case_decide as T; [done|].
    rewrite He. intros [= <-]. destruct (decide (k ∈ map sl_slot (current_annotation_slots p))) as [H|H].
    + left. apply list_elem_of_fmap in H as (s & -> & Hs). exists s. split; [done|]. split; [done|].
      destruct (decide (sl_display s = en_display e')) as [?|D]; [done|]. exfalso. apply T. apply (ap_buried _ _ _ Ap).
      exists s, e'. split; [by apply current_sorted|]. split; [done|congruence].
    + right. intros s Hs E. apply H. rewrite <-E. by apply list_elem_of_fmap_2.
  - intros s id Hs R C. destruct R as [K F]. pose proof F as (e & He & Kf & _)%(wi_functions _ WI).
    pose proof (ap_functions _ _ _ Ap s id e (proj2 (current_sorted p s) Hs) (conj K F) C He) as D.
    unfold display_of, own_display. cbn. destruct (display_overrides o !! id) as [d|]; cbn in D; [by rewrite D|].
    unfold entity. cbn. rewrite decide_False; [rewrite He; cbn; by rewrite D|].
    intros (k & e' & _ & He' & K' & _)%(buried_slot index WI p o Ap). congruence.
Qed.

(** *** Searches *)

(** C5: On a built index seen through the overlay of its project, a surface search
    (exact, prefix, substring, numeric or regular expression) shows nothing the linear
    verifier does not find among the kinds asked for, whatever the expression and also
    when the deadline passes; invalid numbers and expressions are refused by both. It
    shows exactly what the verifier finds when it says it is complete, if the mode is
    not the regular expression or the expression is one that forces no literal or one
    of the fragment BelSurface.Re: ASCII literals (escaped where special), points,
    anchors, classes of letters and digits, groups, sequences, alternatives, *, + and
    ?. It is complete in time with fewer matches than the safety limit (not claimed
    for regular expressions). Of the library only this is assumed: a text matching an
    expression of the fragment has a part that it describes, case ignored. Outside the
    fragment completeness fails (BelClaims.bracket_class_literal). *)
Theorem surface_matches_verifier `{RW : !RegexLaws} an config check index p o expired mode text kinds b :
  built an config check index → from_project index p = Some o → scanned mode →
  sound index o expired mode text kinds b ∧
  ((mode = Regex → required_regex_literal text = None ∨ ∃ r, re_wf r ∧ re_text r = text) →
   agrees index o expired mode text kinds b).
Proof.
  intros WI%built_wf. destruct (from_project_applied index WI p) as (o' & -> & Ap). intros [= <-] S.
  pose proof (ap_loose _ _ _ Ap) as WO. split; [by apply surface_sound|]. intros Rx.
  apply surface_agrees; [done..|]. intros Em is_match R. destruct (Rx Em) as [N|(r & W & <-)].
  - intros literal d E. by rewrite N in E.
  - by apply required_honoured.
Qed.

(** C3: in time, the pages of an exact, prefix, substring or numeric search with
    fewer matches than the safety limit list exactly the entities the linear
    verifier finds that are of the kinds asked for: following the cursors, each
    appears once, the best score first, at most a page at a time, and every page
    gives the exact total. *)
Theorem search_lists_verified length_specificity an config check index p o q limit ids fuel :
  built an config check index → from_project index p = Some o →
  query_guard q = None → normalize_ascii (classify_query q).2 ≠ "" → counted (classify_query q).1 →
  few index o (classify_query q).1 (normalize_ascii (classify_query q).2) →
  linear_oracle_ids index o (classify_query q).1 (classify_query q).2 = inr ids →
  (∀ co, (collect_modes (λ _, false) index o q (classify_query q).1 (classify_query q).2
            (normalize_ascii (classify_query q).2) new_budget).1 = inr co →
     fits length_specificity (λ _, false) index o q co) →
  length (List.filter (shown index o (q_kinds q)) ids) < fuel →
  lists limit (List.filter (shown index o (q_kinds q)) ids)
    (follow length_specificity (λ _, false) index o fuel q limit None).
Proof.
  intros WI%built_wf. destruct (from_project_applied index WI p) as (o' & -> & Ap). intros [= <-].
  apply surface_lists; [done|done|apply (ap_loose _ _ _ Ap)].
Qed.

(** C13: whatever the mode of a search, when everything was collected in time,
    following its cursors from the first page lists every live entity collected
    exactly once, the best score first; the pages hold at most the limit and each
    gives the exact total. *)
Theorem search_pages_once length_specificity an config check index p o q limit co fuel :
  built an config check index → from_project index p = Some o →
  answers (λ _, false) index o q co → fits length_specificity (λ _, false) index o q co →
  length (List.filter (live index o) (ascending (dom (co_evidence co)))) < fuel →
  lists limit (List.filter (live index o) (ascending (dom (co_evidence co))))
    (follow length_specificity (λ _, false) index o fuel q limit None).
Proof.
  intros WI%built_wf. destruct (from_project_applied index WI p) as (o' & -> & Ap). intros [= <-].
  intros A F L. eapply follow_lists; [done|exact WI|apply (ap_loose _ _ _ Ap)|exact A|exact F|exact L].
Qed.

(** A cursor is read back as it was written, and a search takes it only for
    the index, the overlay and the query it was made for. *)
Theorem cursor_round_trip index o query_hash c :
  cursor_fits c →
  CursorKey.decode (CursorKey.encode c) = Some c ∧
  open_cursor index o query_hash (Some (CursorKey.encode c)) =
    if decide (CursorKey.index_generation c = generation index ∧
               CursorKey.overlay_generation c = ov_generation o ∧ CursorKey.query_hash c = query_hash)
    then inr (Some c) else inl InvalidCursor.
Proof.
  intros F. split; [by apply decode_encode|]. unfold open_cursor. rewrite decode_encode by done.
  case_decide as D; [rewrite bool_decide_eq_false_2 by tauto|rewrite bool_decide_eq_true_2 by (destruct (decide (CursorKey.index_generation c = generation index)), (decide (CursorKey.overlay_generation c = ov_generation o)); tauto)]; done.
Qed.
End claims.

(** ** Witnesses *)

Definition sample_weight (n : nat) : Z := (100000 / Z.of_nat (S n))%Z.
Notation on_time := (λ _ : nat, false).
Notation no_stop := (λ _ : nat, @None BelBuildError).

Lemma sample_keyed : keyed sample_analysed.
Proof.
  intros fe f H. cbn in H. apply lookup_insert_Some in H as [[<- <-]|[_ H]]; [done|].
  by apply lookup_singleton_Some in H as [<- <-].
Qed.
(** A fact that holds of the sample's index by evaluation. *)
Lemma on_sample (P : BelIndex → Prop) :
  match sample_build with inr (index, _) => P index | inl _ => False end →
  ∃ index, built sample_analysed sample_config no_stop index ∧ P index.
Proof.
  destruct sample_build as [e|[index n]] eqn:E; [intros []|]. intros H. exists index. split; [|exact H].
  split; [apply sample_keyed|]. exists 0, n. exact E.
Qed.

Lemma index_well_formed_witness :
  keyed sample_analysed ∧ match sample_build with inr (index, _) => wf_index index | inl _ => False end.
Proof.
  split; [exact sample_keyed|].
  pose proof (index_well_formed sample_analysed sample_config no_stop 0 sample_keyed) as W.
  change (build sample_analysed sample_config no_stop 0) with sample_build in W.
  assert (match sample_build with inr _ => true | inl _ => false end = true) as Ok by (vm_compute; reflexivity).
  destruct sample_build as [e|[index n]]; [discriminate Ok|exact W].
Defined.

Lemma overlay_shows_annotations_witness :
  ∃ index, built sample_analysed sample_config no_stop index ∧
    ∃ o, from_project index sample_later = Some o ∧ wf_overlay index o.
Proof.
  destruct (on_sample (λ _, True)) as (index & B & _); [by vm_compute|]. exists index. split; [exact B|].
  destruct (overlay_shows_annotations sample_analysed sample_config no_stop index sample_later B) as (o & E & W & _).
  by exists o.
Defined.

(** The overlay of the later project, and a query of it. *)
Definition sample_query (text : string) : Query := mkQuery text Auto [] None 0 [].
Definition on_later (index : BelIndex) (P : Overlay → bool) : Prop :=
  match from_project index sample_later with Some o => P o = true | None => False end.

(** The expression [cl.sefile]; the literal searched by is [sefile]. *)
Definition sample_expression : Re :=
  foldr (λ c r, ReSeq (if Ascii.eqb c "." then ReAny else ReLit c) r) ReEmpty (list_ascii_of_string "cl.sefile").
Lemma surface_matches_verifier_witness :
  required_regex_literal (re_text sample_expression) = Some "sefile" ∧
  ∃ index o, built sample_analysed sample_config no_stop index ∧ from_project index sample_later = Some o ∧
    linear_oracle_ids index o Regex (re_text sample_expression) = inr [1; 20] ∧
    agrees index o on_time Regex (re_text sample_expression) [] new_budget.
Proof.
  split; [by vm_compute|].
  destruct (on_sample (λ index, on_later index (λ o,
    bool_decide (match linear_oracle_ids index o Regex (re_text sample_expression) with
                 | inr ids => ids = [1; 20] | inl _ => False end)))) as (index & B & L); [by vm_compute|].
  unfold on_later in L. destruct (from_project index sample_later) as [o|] eqn:E; [|done]. exists index, o.
  split; [exact B|]. split; [exact E|]. split.
  { apply bool_decide_eq_true in L. destruct (linear_oracle_ids _ _ _ _); [done|by subst]. }
  apply (surface_matches_verifier sample_analysed sample_config no_stop index sample_later o on_time Regex
    (re_text sample_expression) [] new_budget B E); [by do 4 right|].
  intros _. right. exists sample_expression. split; [|done]. repeat split; vm_compute; lia.
Defined.

(** What a search of the sample finds, checked by evaluation. *)
Definition sample_search : Query := sample_query "substring: FILE".
Definition sample_related : Query := sample_query "related: CreateFile".
Definition collected_by (index : BelIndex) (o : Overlay) (q : Query) : BelQueryError + Collected :=
  (collect_modes on_time index o q (classify_query q).1 (classify_query q).2
     (normalize_ascii (classify_query q).2) new_budget).1.
Definition in_bounds (index : BelIndex) (o : Overlay) (q : Query) : bool :=
  match collected_by index o q with
  | inr co => bool_decide (fits sample_weight on_time index o q co) && co_complete co
  | inl _ => false
  end.
Definition finds (index : BelIndex) (o : Overlay) (ids : list EntityId) : bool :=
  bool_decide (Z.of_nat (length (matching index o (contains "file"))) < safety_limit index "file")%Z &&
  match linear_oracle_ids index o Substring "FILE" with
  | inr l => bool_decide (l = ids)
  | inl _ => false
  end.

(** Through the later overlay: the renamed function, the import, the string, the
    call, the class of files, the new symbol and the new comment. *)
Lemma search_lists_verified_witness :
  ∃ index o, built sample_analysed sample_config no_stop index ∧ from_project index sample_later = Some o ∧
    lists 2 (List.filter (shown index o []) [1; 4; 5; 6; 15; 20; 21])
      (follow sample_weight on_time index o 8 sample_search 2 None).
Proof.
  destruct (on_sample (λ index, on_later index (λ o, in_bounds index o sample_search &&
    finds index o [1; 4; 5; 6; 15; 20; 21]))) as (index & B & L); [by vm_compute|].
  unfold on_later in L. destruct (from_project index sample_later) as [o|] eqn:E; [|done].
  apply andb_true_iff in L as [Lf [Lw Lo]%andb_true_iff]. apply bool_decide_eq_true in Lw.
  destruct (linear_oracle_ids index o Substring "FILE") as [?|l] eqn:Eo; [done|]. apply bool_decide_eq_true in Lo. subst l.
  exists index, o. split; [exact B|]. split; [exact E|].
  apply (search_lists_verified sample_weight sample_analysed sample_config no_stop index sample_later o sample_search 2
    [1; 4; 5; 6; 15; 20; 21] 8 B E); [reflexivity|done|right; right; by left|exact Lw|exact Eo| |].
  - intros co Ec. unfold in_bounds, collected_by in Lf. rewrite Ec in Lf. apply andb_true_iff in Lf as [Lf _].
    by apply bool_decide_eq_true in Lf.
  - apply Nat.lt_succ_r. apply (List.filter_length_le (shown index o []) [1; 4; 5; 6; 15; 20; 21]).
Defined.

Lemma search_pages_once_witness :
  ∃ index o co, built sample_analysed sample_config no_stop index ∧ from_project index sample_later = Some o ∧
    lists 1 (List.filter (live index o) (ascending (dom (co_evidence co))))
      (follow sample_weight on_time index o
         (S (length (List.filter (live index o) (ascending (dom (co_evidence co)))))) sample_related 1 None).
Proof.
  destruct (on_sample (λ index, on_later index (λ o, in_bounds index o sample_related))) as (index & B & L);
    [by vm_compute|].
  unfold on_later in L. destruct (from_project index sample_later) as [o|] eqn:E; [|done].
  unfold in_bounds in L. destruct (collected_by index o sample_related) as [?|co] eqn:Ec; [done|].
  apply andb_true_iff in L as [Lf Lc]. apply bool_decide_eq_true in Lf.
  exists index, o, co. split; [exact B|]. split; [exact E|].
  apply (search_pages_once sample_weight sample_analysed sample_config no_stop index sample_later o sample_related 1 co _ B E);
    [|exact Lf|lia].
  split; [reflexivity|by left|exact Ec|exact Lc].
Defined.

Definition sample_cursor : CursorKey.t := CursorKey.mkCursor 7 3 (2 ^ 64 - 1) (-4) 20 0x140001000.
Lemma cursor_round_trip_witness :
  cursor_fits sample_cursor ∧ CursorKey.decode (CursorKey.encode sample_cursor) = Some sample_cursor.
Proof.
  assert (cursor_fits sample_cursor) as F by (unfold cursor_fits, is_u64, is_i64, u64_max, u32_max; cbn; lia).
  split; [exact F|].
  destruct (on_sample (λ index, on_later index (λ _, true))) as (index & _ & L); [by vm_compute|].
  unfold on_later in L. destruct (from_project index sample_later) as [o|]; [|done].
  apply (cursor_round_trip index o 0 sample_cursor F).
Defined.

(** ** What the code misses *)

(** A comment deleted after the index was built is still found: [from_project]
    buries only slots that have a new annotation. *)
Lemma deleted_comment_stays :
  ∃ index, built sample_analysed sample_config no_stop index ∧
    match from_project index (sample_image sample_symbols ∅ 1) with
    | Some o => linear_oracle_ids index o Exact "opens the log" = inr [10]
    | None => False
    end.
Proof. apply on_sample. vm_compute. reflexivity. Qed.

(** A function renamed since is left out of the functions found by a token, while
    the verifier keeps it. *)
Lemma renamed_function_left_out :
  ∃ index, built sample_analysed sample_config no_stop index ∧
    match from_project index sample_later with
    | Some o => elements (cs_ids (collect_token on_time index o "entry" new_budget).1) = [8] ∧
                linear_oracle_ids index o Token "entry" = inr [1; 8]
    | None => False
    end.
Proof. apply on_sample. vm_compute. split; done. Qed.

(** The literal required of an expression whose class starts with a bracket is
    not part of what it matches. *)
Lemma bracket_class_literal :
  required_regex_literal "[]abcd]" = Some "abcd]".
Proof. reflexivity. Qed.

(** Clauses are joined with a bar, so that two queries share their cursors. *)
Lemma fingerprints_collide :
  query_fingerprint (mkQuery "x" MultiEvidence ["a|b"] None 0 []) MultiEvidence "x" =
  query_fingerprint (mkQuery "x" MultiEvidence ["a"; "b"] None 0 []) MultiEvidence "x".
Proof. reflexivity. Qed.
