(* ===== verification/BelCache.v ===== *)
(** The evidence index on disk and in its cell, [src/analysis/bel/mod.rs]: the
    wire layout with [save_to], [validate] and [load_from], and [get_or_build],
    where the callers of one project share one construction.

    A hash map is listed in an order of its own ([HashOrder]); a caller of
    [get_or_build] moves by turns of one atomic action each, between which the
    others move. *)

From Stdlib Require Import Strings.Byte Strings.Ascii Strings.String.
From stdpp Require Import pretty.
From S2P Require Import Prelude Text Data Ops Journal Activity MemoryMap Loader Cfg Serving CodeIndex Callees Bel BelBuild BelFacts BelSurface BelBuildFacts BelClaims.
Import Signature (SparseFunctionSignature).

Local Open Scope string_scope.
Local Open Scope list_scope.
Local Open Scope nat_scope.

(** ** The wire layout *)

Definition BEL_DISK_CACHE_MAX_BYTES : Z := 512 * 1024 * 1024.
Definition BEL_DISK_FORMAT_VERSION : Z := 1.

(** [data_dir.join("bel").join(..)], below the data directory *)
Definition bel_cache_path (sha256 : string) : list string := ["bel"; sha256 +:+ ".bel"].

Record WireEntity := mkWireEntity {
  we_id : EntityId;
  we_kind : EntityKind;
  we_display : string;
  we_va : option Z;
  we_file_offset : option Z;
  we_func_entry : option Z
}.
Record WirePropagation := mkWirePropagation {
  wp_surface_to_funcs : list (EntityId * gset EntityId);
  wp_hot_table : list (EntityId * gset EntityId);
  wp_function_neighbors : list (EntityId * gset EntityId)
}.
Record WireOntology := mkWireOntology {
  wo_classes : list (string * EntityId);
  wo_edges : list (EntityId * list EntityId);
  wo_func_labels : list (EntityId * gset EntityId)
}.
Record WireMotifs := mkWireMotifs {
  wm_tokens : list (string * gset EntityId);
  wm_entities : list (string * EntityId)
}.

Section wire.
Context `{!FstLib}.

Record BelDiskIndex := mkDiskIndex {
  format_version : Z;
  dk_config : BelConfig;
  dk_generation : Z;
  dk_base_op_seq : Z;
  dk_entities : list WireEntity;
  dk_normalized : list string;
  name_fst_bytes : fst_bytes;
  name_postings : list (gset EntityId);
  dk_sorted_ids : list EntityId;
  dk_kind_postings : list (EntityKind * gset EntityId);
  token_map : list (string * gset EntityId);
  syncmer_map : list (Z * gset EntityId);
  dk_syncmer_k : nat;
  dk_syncmer_s : nat;
  dk_syncmer_complete : bool;
  numeric_sorted : list (Z * EntityId);
  dk_signatures : list SparseFunctionSignature;
  dk_rare_vocab : list EntityId;
  dk_rare_lookup : gset EntityId;
  dk_signature_width_bits : Z;
  dk_propagation : WirePropagation;
  dk_ontology : WireOntology;
  dk_motifs : WireMotifs;
  dk_function_by_va : list (Z * EntityId);
  dk_slots : list (SlotKey * EntityId);
  dk_stats : BelStats
}.
End wire.

(** The order in which a hash map lists its entries is the map's own. *)
Class HashOrder := {
  hash_entries {K} `{Countable K} {A} : gmap K A → list (K * A)
}.
Class HashOrderLaws `{!HashOrder} : Prop := {
  hash_entries_all {K} `{Countable K} {A} (m : gmap K A) : hash_entries m ≡ₚ map_to_list m
}.
(** [collect] into a map: the last entry of a key stays. *)
Definition collect {K} `{Countable K} {A} (l : list (K * A)) : gmap K A :=
  foldl (λ m e, <[e.1 := e.2]> m) ∅ l.
#[global] Arguments collect : simpl never.

(** [postcard::to_allocvec] and [postcard::from_bytes] on the wire layout. *)
Class IndexCodec `{!FstLib} := {
  wire_to_allocvec : BelDiskIndex → Result bytes;
  wire_from_bytes : bytes → Result BelDiskIndex
}.
Class IndexCodecLaws `{!FstLib, !IndexCodec} : Prop := {
  wire_reads w bs : wire_to_allocvec w = Ok bs → wire_from_bytes bs = Ok w
}.

(** [Display] of [BelBuildError] *)
Definition error_text (e : BelBuildError) : string :=
  match e with
  | Cancelled => "BEL build cancelled"
  | Deadline => "BEL build deadline expired"
  | TooManyEntities => "BEL entity count exceeds u32 capacity"
  | InvalidConfig message => "invalid BEL configuration: " +:+ message
  | Fst message => "could not build BEL FST: " +:+ message
  end.

(** ** Saving and loading *)

Section disk.
Context `{!FstLib, !HashOrder, !IndexCodec}.

(** [BelDiskIndex::validate] *)
Definition validate (requested : BelConfig) (w : BelDiskIndex) : Result () :=
  if decide (format_version w = BEL_DISK_FORMAT_VERSION) then
    if decide (dk_config w = requested) then
      match validate_config (dk_config w) with
      | Some e => Err (error_text e)
      | None =>
          if decide (length (dk_entities w) = length (dk_normalized w)) then
            if decide (length (dk_entities w) = st_entities (dk_stats w)) then Ok ()
            else Err "BEL cache stats/entity count mismatch"
          else Err "BEL cache entity/normalized alignment broken"
      end
    else Err "BEL cache config mismatch; rebuild required"
  else Err ("BEL cache format v" +:+ pretty (format_version w) +:+ " is not supported (expected v1)").

Definition wire_entity (e : Entity) : WireEntity :=
  mkWireEntity (en_id e) (en_kind e) (en_display e) (en_va e) (en_file_offset e) (en_func_entry e).
Definition of_wire_entity (e : WireEntity) : Entity :=
  mkEntity (we_id e) (we_kind e) (we_display e) (we_va e) (we_file_offset e) (we_func_entry e).

(** The wire layout [save_to] makes of an index; ordered maps are listed in
    order. *)
Definition to_wire (i : BelIndex) : BelDiskIndex :=
  mkDiskIndex BEL_DISK_FORMAT_VERSION (config i) (generation i) (base_op_seq i)
    (map wire_entity (entities i)) (normalized i)
    (fst_as_bytes (nf_map (name_fst i))) (nf_postings (name_fst i)) (sorted_ids (name_fst i))
    (hash_entries (kind_postings i)) (hash_entries (token_postings i))
    (hash_entries (syn_map (syncmer_postings i))) (syn_k (syncmer_postings i))
    (syn_s (syncmer_postings i)) (syn_complete (syncmer_postings i)) (numeric i)
    (signatures (signature_store i)) (rare_vocab (signature_store i))
    (rare_lookup (signature_store i)) (width_bits (signature_store i))
    (mkWirePropagation (hash_entries (surface_to_funcs (propagation i)))
       (hash_entries (hot_table (propagation i))) (hash_entries (function_neighbors (propagation i))))
    (mkWireOntology (name_entries (classes (ontology i))) (hash_entries (edges (ontology i)))
       (hash_entries (func_labels (ontology i))))
    (mkWireMotifs (name_entries (motif_tokens (motifs i))) (name_entries (motif_entities (motifs i))))
    (hash_entries (function_by_va i)) (hash_entries (slots i)) (stats i).

(** The index [load_from] makes of a valid wire layout and its transducer. *)
Definition of_wire (w : BelDiskIndex) (m : fst_map) : BelIndex :=
  mkIndex (map of_wire_entity (dk_entities w)) (dk_normalized w)
    (mkNameFst m (name_postings w) (dk_sorted_ids w)) (collect (dk_kind_postings w))
    (collect (token_map w))
    (mkSyncmers (collect (syncmer_map w)) (dk_syncmer_k w) (dk_syncmer_s w) (dk_syncmer_complete w))
    (numeric_sorted w)
    (mkSignatures (dk_signatures w) (dk_rare_vocab w) (dk_rare_lookup w) (dk_signature_width_bits w))
    (mkPropagation (collect (wp_surface_to_funcs (dk_propagation w)))
       (collect (wp_hot_table (dk_propagation w))) (collect (wp_function_neighbors (dk_propagation w))))
    (mkOntology (collect (wo_classes (dk_ontology w))) (collect (wo_edges (dk_ontology w)))
       (collect (wo_func_labels (dk_ontology w))))
    (mkMotifs (collect (wm_tokens (dk_motifs w))) (collect (wm_entities (dk_motifs w))))
    (collect (dk_function_by_va w)) (collect (dk_slots w)) (dk_config w) (dk_generation w)
    (dk_base_op_seq w) (dk_stats w).

(** The outcome of the directory's creation and of the write. *)
Record SaveIo := mkSaveIo { io_dir : bool; io_write : WriteOutcome }.

(** [BelIndex::save_to], with the file it writes. The texts of errors of the file
    system are not modelled. *)
Definition save_to (io : SaveIo) (i : BelIndex) (file : option bytes) : Result bool * option bytes :=
  if decide (BEL_DISK_CACHE_MAX_BYTES < estimated_total_bytes (st_memory (stats i)))%Z then (Ok false, file)
  else
    match wire_to_allocvec (to_wire i) with
    | Err e => (Err e, file)
    | Ok bs =>
        if decide (BEL_DISK_CACHE_MAX_BYTES < Z.of_nat (length bs))%Z then (Ok false, file)
        else if io_dir io then
          (match io_write io with WriteOk => Ok true | _ => Err "write" end,
           write_file (io_write io) bs file)
        else (Err "create_dir_all", file)
    end.

(** [BelIndex::load_from] *)
Definition load_from (file : option bytes) (requested : BelConfig) : Result BelIndex :=
  match file with
  | None => Err "read"
  | Some bs =>
      match wire_from_bytes bs with
      | Err e => Err ("BEL cache decode failed: " +:+ e)
      | Ok w =>
          match validate requested w with
          | Err e => Err e
          | Ok _ =>
              match fst_new (name_fst_bytes w) with
              | inl e => Err ("BEL cache FST decode failed: " +:+ e)
              | inr m => Ok (of_wire w m)
              end
          end
      end
  end.
End disk.

(** ** The shared construction *)

(** A caller of [get_or_build]: its project, configuration and control. Reads
    of the flag and of the clock during the build are [cl_check]. *)
Record Caller := mkCaller {
  cl_project : Analysed;
  cl_config : BelConfig;
  cl_deadline : option Z;
  cl_check : nat → option BelBuildError
}.

Section share.
Context `{!Formatter, !FstLib, !HashOrder, !IndexCodec}.

(** [BelIndexCell], with the holder of the mutex around [building]; and what the
    callers share besides: the file, and the indexes that threads are still to
    save. *)
Record Shared := mkShared {
  ready : option BelIndex;
  building : bool;
  lock : option nat;
  disk_probe : bool;
  sh_file : option bytes;
  sh_saves : list BelIndex
}.
(** [BelIndexCell::default] *)
Definition new_cell (file : option bytes) : Shared := mkShared None false None true file [].
Definition with_ready (r : option BelIndex) (s : Shared) : Shared :=
  mkShared r (building s) (lock s) (disk_probe s) (sh_file s) (sh_saves s).
Definition with_building (b : bool) (s : Shared) : Shared :=
  mkShared (ready s) b (lock s) (disk_probe s) (sh_file s) (sh_saves s).
Definition with_lock (l : option nat) (s : Shared) : Shared :=
  mkShared (ready s) (building s) l (disk_probe s) (sh_file s) (sh_saves s).
Definition probed (s : Shared) : Shared :=
  mkShared (ready s) (building s) (lock s) false (sh_file s) (sh_saves s).
Definition spawn_save (i : BelIndex) (s : Shared) : Shared :=
  mkShared (ready s) (building s) (lock s) (disk_probe s) (sh_file s) (sh_saves s ++ [i]).

(** [OnceLock::set] *)
Definition set_ready (i : BelIndex) (s : Shared) : Shared :=
  match ready s with Some _ => s | None => with_ready (Some i) s end.

(** [BelIndexCell::is_building], when the mutex is free. *)
Definition is_building (s : Shared) : bool := building s.

Notation BuildResult := (BelBuildError + BelIndex)%type.
(** Where a caller is: before the first read of the cell, before the probe, at
    the file, before the loaded index is set, before or after a lock of the
    mutex, after the cell was read under the lock, in the build, at the end of
    the build, before the lease is dropped, after it, and done. *)
Inductive Phase :=
  | Entering
  | Probing
  | Loading
  | Installing (loaded : BelIndex)
  | Waiting
  | Locked
  | Checked
  | Building
  | Built (result : BuildResult)
  | Releasing (result : BuildResult)
  | Installed (built : BelIndex)
  | Finished (answer : BuildResult).

(** Why a waiting caller stops, by its flag and the clock. *)
Definition wait_error (c : Caller) (cancelled : bool) (now : Z) : option BelBuildError :=
  if cancelled then Some Cancelled
  else match cl_deadline c with
       | Some deadline => if (deadline <? now)%Z then Some Deadline else None
       | None => None
       end.

(** [BelIndex::build] *)
Definition build_of (c : Caller) : BuildResult :=
  match build (cl_project c) (cl_config c) (cl_check c) 0 with inl e => inl e | inr (i, _) => inr i end.

(** The turn of caller [me] in [get_or_build]; [None] while it is blocked on the
    mutex or done. Dropping the lease locks the mutex ([BelBuildLease::drop]). *)
Definition turn (c : Caller) (me : nat) (cancelled : bool) (now : Z) (ph : Phase) (s : Shared)
    : option (Phase * Shared) :=
  match ph with
  | Entering => Some (match ready s with Some i => Finished (inr i) | None => Probing end, s)
  | Probing => Some (if disk_probe s then Loading else Waiting, probed s)
  | Loading =>
      Some (match load_from (sh_file s) (cl_config c) with Ok i => Installing i | Err _ => Waiting end, s)
  | Installing i =>
      Some match ready s with
           | Some _ => (Waiting, s)
           | None => (Finished (inr i), with_ready (Some i) s)
           end
  | Waiting => match lock s with Some _ => None | None => Some (Locked, with_lock (Some me) s) end
  | Locked =>
      Some match ready s with
           | Some i => (Finished (inr i), with_lock None s)
           | None => (Checked, s)
           end
  | Checked =>
      Some (if building s then
              (match wait_error c cancelled now with Some e => Finished (inl e) | None => Waiting end,
               with_lock None s)
            else (Building, with_lock None (with_building true s)))
  | Building => Some (Built (build_of c), s)
  | Built r => Some (Releasing r, match r with inr i => set_ready i s | inl _ => s end)
  | Releasing r =>
      match lock s with
      | Some _ => None
      | None =>
          Some (match r with inr i => Installed i | inl e => Finished (inl e) end, with_building false s)
      end
  | Installed i =>
      let installed := default i (ready s) in
      Some (Finished (inr installed), spawn_save installed s)
  | Finished _ => None
  end.

(** The callers and the threads that save, in any interleaving; a step carries
    the result of the build it ends. *)
Record System := mkSystem { sy_phases : list Phase; sy_shared : Shared }.
Definition build_ended (ph ph' : Phase) : list BuildResult :=
  match ph, ph' with Building, Built r => [r] | _, _ => [] end.
Inductive step (callers : list Caller) : System → list BuildResult → System → Prop :=
  | step_turn me c cancelled now ph ph' phases s s' :
      callers !! me = Some c → phases !! me = Some ph → turn c me cancelled now ph s = Some (ph', s') →
      step callers (mkSystem phases s) (build_ended ph ph') (mkSystem (<[me := ph']> phases) s')
  | step_save io i r file phases ready building lock probe file0 saves1 saves2 :
      save_to io i file0 = (r, file) →
      step callers (mkSystem phases (mkShared ready building lock probe file0 (saves1 ++ i :: saves2))) []
        (mkSystem phases (mkShared ready building lock probe file (saves1 ++ saves2))).
Inductive steps (callers : list Caller) : System → list BuildResult → System → Prop :=
  | steps_refl s : steps callers s [] s
  | steps_then s1 r1 s2 r2 s3 :
      steps callers s1 r1 s2 → step callers s2 r2 s3 → steps callers s1 (r1 ++ r2) s3.

(** The project was just opened and the callers arrive. *)
Definition arriving (callers : list Caller) (file : option bytes) : System :=
  mkSystem (replicate (length callers) Entering) (new_cell file).

(** [get_or_build] of a caller that is alone, up to its answer. *)
Fixpoint alone (c : Caller) (fuel : nat) (ph : Phase) (s : Shared) : option (BuildResult * Shared) :=
  match ph, fuel with
  | Finished r, _ => Some (r, s)
  | _, 0 => None
  | _, S fuel => '(ph, s) ← turn c 0 false 0 ph s; alone c fuel ph s
  end.
Definition get_or_build (c : Caller) (s : Shared) : option (BuildResult * Shared) := alone c 10 Entering s.
End share.

(** ** What is saved is what is loaded *)

Lemma collect_listed {K} `{Countable K} {A} (m : gmap K A) l : l ≡ₚ map_to_list m → collect l = m.
Proof.
  intros P. transitivity (list_to_map (reverse l) : gmap K A).
  { clear P. unfold collect. induction l as [|e l IH] using rev_ind; [done|].
    rewrite foldl_app, reverse_snoc. cbn. by rewrite IH. }
  assert (E : reverse l ≡ₚ map_to_list m) by by rewrite reverse_Permutation.
  rewrite (list_to_map_proper _ (map_to_list m)), list_to_map_to_list; [done| |done].
  rewrite E. apply NoDup_fst_map_to_list.
Qed.
Lemma collect_hash `{HashOrderLaws} {K} `{Countable K} {A} (m : gmap K A) : collect (hash_entries m) = m.
Proof. apply collect_listed, hash_entries_all. Qed.
Lemma collect_names {A} (m : gmap string A) : collect (name_entries m) = m.
Proof. apply collect_listed. unfold name_entries. by rewrite merge_sort_Permutation. Qed.
Lemma wire_entities l : map of_wire_entity (map wire_entity l) = l.
Proof. rewrite map_map. rewrite <-(map_id l) at 2. apply map_ext. by intros []. Qed.

Section roundtrip.
Context `{FL : !FstLib, FW : !FstLaws, HO : !HashOrder, HL : !HashOrderLaws, IC : !IndexCodec, IL : !IndexCodecLaws}.

Lemma of_to_wire i : of_wire (to_wire i) (nf_map (name_fst i)) = i.
Proof.
  unfold of_wire, to_wire. destruct i as [? ? [] ? ? [] ? [] [] [] [] ? ? ? ? ? ?]. cbn.
  by rewrite wire_entities, !collect_hash, !collect_names.
Qed.

(** What [validate] asks of an index that was saved. *)
Definition aligned (i : BelIndex) : Prop :=
  validate_config (config i) = None ∧ length (entities i) = length (normalized i) ∧
  length (entities i) = st_entities (stats i).
Lemma validate_wire i requested : aligned i →
  validate requested (to_wire i) =
    if decide (config i = requested) then Ok () else Err "BEL cache config mismatch; rebuild required".
Proof.
  intros (V & L & S). unfold validate. rewrite decide_True by done. cbn. case_decide; [|done].
  rewrite V, length_map, !decide_True by done. done.
Qed.

(** A save that says it wrote leaves the encoding of the index. *)
Lemma save_wrote io i file file' : save_to io i file = (Ok true, file') →
  ∃ bs, file' = Some bs ∧ wire_from_bytes bs = Ok (to_wire i).
Proof.
  unfold save_to. case_decide; [done|]. destruct (wire_to_allocvec _) as [bs|] eqn:E; [|done].
  case_decide; [done|]. destruct (io_dir io), (io_write io); try done. cbn. intros [= <-].
  eauto using wire_reads.
Qed.
Lemma load_saved_index io i file file' requested :
  aligned i → save_to io i file = (Ok true, file') →
  load_from file' requested =
    if decide (config i = requested) then Ok i else Err "BEL cache config mismatch; rebuild required".
Proof.
  intros A (bs & -> & R)%save_wrote. cbn. rewrite R, (validate_wire _ _ A).
  case_decide; [|done]. cbn. by rewrite fst_reload, of_to_wire.
Qed.
(** Nothing is written of an index that is not saved. *)
Lemma save_skipped io i file r file' : save_to io i file = (r, file') → r = Ok false → file' = file.
Proof.
  intros E ->. revert E. unfold save_to. case_decide; [congruence|]. destruct (wire_to_allocvec _); [|congruence].
  case_decide; [congruence|]. destruct (io_dir io), (io_write io); congruence.
Qed.
(** The first check a file fails is the error of the load. *)
Lemma load_rejects bs w requested :
  wire_from_bytes bs = Ok w →
  format_version w ≠ BEL_DISK_FORMAT_VERSION ∨ dk_config w ≠ requested ∨
    validate_config requested ≠ None ∨ length (dk_entities w) ≠ length (dk_normalized w) ∨
    length (dk_entities w) ≠ st_entities (dk_stats w) →
  ∃ message, load_from (Some bs) requested = Err message.
Proof.
  intros R Bad. cbn. rewrite R. unfold validate. case_decide; [|by eauto]. case_decide as E; [|by eauto].
  rewrite E. destruct (validate_config requested) eqn:V; [by eauto|].
  repeat case_decide; eauto. exfalso. naive_solver.
Qed.
End roundtrip.

(** ** One construction, one index

    Each caller is judged by itself ([caller_ok]), given who holds the lease [h]
    and how many builds have succeeded [n]; what a turn does to the rest is its
    [guarantee], under which the judgement of the other callers is stable. *)

Section proofs.
Context `{FM : !Formatter, FL : !FstLib, HO : !HashOrder, IC : !IndexCodec}.
Variable callers : list Caller.
Variable file0 : option bytes.

(** The errors a caller may get: of its own build, or of its own waiting. *)
Definition own_error (c : Caller) (e : BelBuildError) : Prop :=
  build_of c = inl e ∨ ∃ cancelled now, wait_error c cancelled now = Some e.
(** Where the index comes from: the file at the start, or a build. *)
Definition origin (i : BelIndex) : Prop :=
  ∃ c, c ∈ callers ∧ (load_from file0 (cl_config c) = Ok i ∨ build_of c = inr i).
(** What the file may hold: what it held, or a prefix of the installed index. *)
Definition file_ok (s : Shared) : Prop :=
  sh_file s = file0 ∨
  ∃ i bs k, ready s = Some i ∧ wire_to_allocvec (to_wire i) = Ok bs ∧ sh_file s = Some (take k bs).

Definition holds_lock (ph : Phase) : Prop := match ph with Locked | Checked => True | _ => False end.
Definition in_lease (ph : Phase) : Prop :=
  match ph with Building | Built _ | Releasing _ => True | _ => False end.

Definition phase_ok (c : Caller) (h : option nat) (n : nat) (s : Shared) (ph : Phase) : Prop :=
  match ph with
  | Installing i => is_Some (ready s) ∨ load_from file0 (cl_config c) = Ok i
  | Checked => h = None → n = 0
  | Building => n = 0
  | Built (inr i) => build_of c = inr i
  | Built (inl e) | Releasing (inl e) => own_error c e ∧ n = 0
  | Releasing (inr _) | Installed _ => is_Some (ready s)
  | Finished (inr i) => ready s = Some i
  | Finished (inl e) => own_error c e
  | _ => True
  end.
Definition caller_ok (c : Caller) (me : nat) (h : option nat) (n : nat) (s : Shared) (ph : Phase) : Prop :=
  (lock s = Some me ↔ holds_lock ph) ∧ (h = Some me ↔ in_lease ph) ∧ phase_ok c h n s ph.

Record shared_ok (h : option nat) (n : nat) (s : Shared) : Prop := mkSharedOk {
  so_building : building s = bool_decide (is_Some h);
  so_once : n ≤ 1;
  so_success : n = 1 → is_Some (ready s) ∨ is_Some h;
  so_file : file_ok s;
  so_saves i : i ∈ sh_saves s → ready s = Some i;
  so_origin i : ready s = Some i → origin i;
  so_lock i : lock s = Some i → i < length callers;
  so_lease i : h = Some i → i < length callers
}.

(** What the turn of [me] leaves alone. *)
Record guarantee (me : nat) (h : option nat) (n : nat) (s : Shared) (h' : option nat) (n' : nat) (s' : Shared)
    : Prop := mkGuarantee {
  gu_ready i : ready s = Some i → ready s' = Some i;
  gu_lock i : i ≠ me → lock s = Some i ↔ lock s' = Some i;
  gu_lease i : i ≠ me → h = Some i ↔ h' = Some i;
  gu_count : n' = n ∨ h = Some me;
  gu_locked i : i ≠ me → lock s = Some i → h' = h
}.

Lemma caller_ok_stable c i me ph h n s h' n' s' :
  i ≠ me → guarantee me h n s h' n' s' → caller_ok c i h n s ph → caller_ok c i h' n' s' ph.
Proof.
  intros Ne [R L H N K] (OL & OH & P). split_and!.
  - rewrite <-L by done. done.
  - rewrite <-H by done. done.
  - assert (Nh : h = Some i → n' = n) by (intros Hi; destruct N; [done|congruence]).
    destruct ph as [| | |x| | | | |[e|x]|[e|x]|x|[e|x]]; cbn in *; try done;
      try (destruct P as [x' P]; eexists; by apply R).
    + destruct P as [[x' P]|P]; [left; eexists; by apply R|by right].
    + intros Hh. rewrite (K i) in Hh by naive_solver. rewrite Hh in N. destruct N as [->|]; [auto|done].
    + rewrite Nh by naive_solver. done.
    + rewrite Nh by naive_solver. done.
    + rewrite Nh by naive_solver. done.
    + by apply R.
Qed.

Fixpoint successes (rs : list (BelBuildError + BelIndex)) : nat :=
  match rs with [] => 0 | inr _ :: rs => S (successes rs) | inl _ :: rs => successes rs end.
Lemma successes_app a b : successes (a ++ b) = successes a + successes b.
Proof. induction a as [|[e|i] a IH]; cbn; lia. Qed.

Lemma load_ok c s i :
  file_ok s → load_from (sh_file s) (cl_config c) = Ok i →
  is_Some (ready s) ∨ load_from file0 (cl_config c) = Ok i.
Proof. intros [E|(x & bs & k & R & _)] L; [right; by rewrite <-E|left; eauto]. Qed.
Lemma set_ready_some i s : is_Some (ready (set_ready i s)).
Proof. unfold set_ready. destruct (ready s) eqn:E; rewrite ?E; cbn; eauto. Qed.

(** The holder of the lease after a turn. *)
Definition lease_after (me : nat) (ph ph' : Phase) (h : option nat) : option nat :=
  match ph, ph' with
  | Checked, Building => Some me
  | Releasing _, _ => None
  | _, _ => h
  end.
Definition turned (c : Caller) (me : nat) (ph : Phase) (h : option nat) (n : nat) (s : Shared)
    (ph' : Phase) (s' : Shared) : Prop :=
  let h' := lease_after me ph ph' h in
  let n' := n + successes (build_ended ph ph') in
  shared_ok h' n' s' ∧ caller_ok c me h' n' s' ph' ∧ guarantee me h n s h' n' s'.

(** A turn that changes at most what the others do not look at. *)
Lemma quiet_turn c me ph h n s ph' :
  shared_ok h n s → caller_ok c me h n s ph →
  lease_after me ph ph' h = h → build_ended ph ph' = [] →
  (holds_lock ph ↔ holds_lock ph') → (in_lease ph ↔ in_lease ph') → phase_ok c h n s ph' →
  turned c me ph h n s ph' s.
Proof.
  intros SO (OL & OH & _) E1 E2 L H P. unfold turned. rewrite E1, E2. cbn. rewrite Nat.add_0_r.
  split_and!; [done|split_and!; [by rewrite OL|by rewrite OH|done]|by constructor; auto].
Qed.

Lemma turn_entering c me h n s ph' s' :
  shared_ok h n s → caller_ok c me h n s Entering →
  Some (match ready s with Some i => Finished (inr i) | None => Probing end, s) = Some (ph', s') →
  turned c me Entering h n s ph' s'.
Proof.
  intros SO CO [= <- <-]. apply quiet_turn; try done; by destruct (ready s) eqn:R.
Qed.
Lemma turn_probing c me h n s ph' s' :
  shared_ok h n s → caller_ok c me h n s Probing →
  Some (if disk_probe s then Loading else Waiting, probed s) = Some (ph', s') →
  turned c me Probing h n s ph' s'.
Proof.
  intros SO (OL & OH & _) [= <- <-]. unfold turned.
  assert (lease_after me Probing (if disk_probe s then Loading else Waiting) h = h) as -> by by destruct (disk_probe s).
  cbn. rewrite Nat.add_0_r. split_and!.
  - by destruct SO.
  - destruct (disk_probe s); by split_and!.
  - by constructor; auto.
Qed.
Lemma turn_loading c me h n s ph' s' :
  shared_ok h n s → caller_ok c me h n s Loading →
  Some (match load_from (sh_file s) (cl_config c) with Ok i => Installing i | Err _ => Waiting end, s) = Some (ph', s') →
  turned c me Loading h n s ph' s'.
Proof.
  intros SO CO [= <- <-]. apply quiet_turn; try done; destruct (load_from (sh_file s) (cl_config c)) eqn:R; try done.
  cbn. eapply load_ok; [apply SO|done].
Qed.

(** The first set of the cell. *)
Lemma shared_ready h n s i : origin i → ready s = None → shared_ok h n s → shared_ok h n (with_ready (Some i) s).
Proof.
  intros Or Rn []. constructor; cbn; try done.
  - intros _. left. eauto.
  - left. destruct so_file0 as [E|(x & bs & k & R & _)]; [done|congruence].
  - intros x Hx%so_saves0. congruence.
  - by intros x [= <-].
Qed.
Lemma set_turn me h n s i : guarantee me h n s h n (set_ready i s).
Proof. unfold set_ready. destruct (ready s) eqn:R; constructor; cbn; auto; congruence. Qed.

Lemma turn_installing c me i h n s ph' s' :
  callers !! me = Some c → shared_ok h n s → caller_ok c me h n s (Installing i) →
  Some match ready s with Some _ => (Waiting, s) | None => (Finished (inr i), with_ready (Some i) s) end
    = Some (ph', s') →
  turned c me (Installing i) h n s ph' s'.
Proof.
  intros Hc SO CO. pose proof CO as (OL & OH & P). destruct (ready s) eqn:R; intros [= <- <-].
  { by apply quiet_turn. }
  cbn in P. destruct P as [[? ?]|P]; [congruence|]. unfold turned. cbn. rewrite Nat.add_0_r. split_and!.
  - apply shared_ready; [|done|done]. exists c. split; [by eapply list_elem_of_lookup_2|by left].
  - by split_and!.
  - pose proof (set_turn me h n s i) as G. unfold set_ready in G. by rewrite R in G.
Qed.
Lemma turn_waiting c me h n s ph' s' :
  callers !! me = Some c → shared_ok h n s → caller_ok c me h n s Waiting →
  match lock s with Some _ => None | None => Some (Locked, with_lock (Some me) s) end = Some (ph', s') →
  turned c me Waiting h n s ph' s'.
Proof.
  intros Hc SO (OL & OH & _). destruct (lock s) eqn:Lk; [done|]. intros [= <- <-].
  unfold turned. cbn. rewrite Nat.add_0_r. split_and!.
  - destruct SO. constructor; cbn; try done. intros i [= <-]. by eapply lookup_lt_Some.
  - by split_and!.
  - constructor; cbn; auto. intros i Ne. rewrite Lk. split; congruence.
Qed.

(** The mutex is released. *)
Lemma unlock_turn c me ph h n s ph' :
  shared_ok h n s → caller_ok c me h n s ph → lock s = Some me →
  lease_after me ph ph' h = h → build_ended ph ph' = [] →
  ¬ holds_lock ph' → (in_lease ph ↔ in_lease ph') → phase_ok c h n (with_lock None s) ph' →
  turned c me ph h n s ph' (with_lock None s).
Proof.
  intros SO (OL & OH & _) Lk E1 E2 L H P. unfold turned. rewrite E1, E2. cbn. rewrite Nat.add_0_r.
  split_and!.
  - by destruct SO.
  - split_and!; [done|by rewrite OH|done].
  - constructor; cbn; auto. intros i Ne. rewrite Lk. split; congruence.
Qed.
Lemma turn_locked c me h n s ph' s' :
  shared_ok h n s → caller_ok c me h n s Locked →
  Some match ready s with Some i => (Finished (inr i), with_lock None s) | None => (Checked, s) end
    = Some (ph', s') →
  turned c me Locked h n s ph' s'.
Proof.
  intros SO CO. pose proof CO as (OL & OH & P). assert (lock s = Some me) as Lk by by apply OL.
  destruct (ready s) eqn:R; intros [= <- <-].
  { apply unlock_turn; try done; cbn; tauto. }
  apply quiet_turn; try done. cbn. intros ->. destruct SO.
  assert (n = 0 ∨ n = 1) as [?|E] by lia; [done|]. apply so_success0 in E. rewrite R in E. by destruct E as [[? ?]|[? ?]].
Qed.
Lemma turn_checked c me cancelled now h n s ph' s' :
  callers !! me = Some c → shared_ok h n s → caller_ok c me h n s Checked →
  Some (if building s then
          (match wait_error c cancelled now with Some e => Finished (inl e) | None => Waiting end, with_lock None s)
        else (Building, with_lock None (with_building true s))) = Some (ph', s') →
  turned c me Checked h n s ph' s'.
Proof.
  intros Hc SO CO. pose proof CO as (OL & OH & P). assert (lock s = Some me) as Lk by by apply OL.
  destruct (building s) eqn:B.
  { destruct (wait_error c cancelled now) as [e|] eqn:G; intros [= <- <-]; apply unlock_turn; try done; cbn; try tauto.
    right. eauto. }
  intros [= <- <-]. destruct SO. rewrite so_building0 in B. apply bool_decide_eq_false in B.
  destruct h; [by destruct B|]. cbn in P. unfold turned. cbn. rewrite Nat.add_0_r. split_and!.
  - constructor; cbn; try done; [eauto|]. intros i [= <-]. by eapply lookup_lt_Some.
  - split_and!; cbn; [done|done|auto].
  - constructor; cbn; auto; [intros i Ne; rewrite Lk; split; congruence|intros i Ne; split; congruence|congruence].
Qed.

Lemma turn_building c me h n s ph' s' :
  shared_ok h n s → caller_ok c me h n s Building →
  Some (Built (build_of c), s) = Some (ph', s') → turned c me Building h n s ph' s'.
Proof.
  intros SO (OL & OH & ->) [= <- <-]. assert (h = Some me) as -> by by apply OH.
  unfold turned. cbn. split_and!.
  - destruct SO. constructor; try done; destruct (build_of c); cbn; try lia; eauto.
  - split_and!; [done|done|]. cbn. destruct (build_of c) eqn:E; [|done]. split; [by left|done].
  - constructor; auto.
Qed.
Lemma turn_built c me r h n s ph' s' :
  callers !! me = Some c → shared_ok h n s → caller_ok c me h n s (Built r) →
  Some (Releasing r, match r with inr i => set_ready i s | inl _ => s end) = Some (ph', s') →
  turned c me (Built r) h n s ph' s'.
Proof.
  intros Hc SO CO. pose proof CO as (OL & OH & P). destruct r as [e|i]; intros [= <- <-]; [by apply quiet_turn|].
  unfold turned. cbn. rewrite Nat.add_0_r. split_and!.
  - unfold set_ready. destruct (ready s) eqn:R; [done|]. apply shared_ready; [|done|done].
    exists c. split; [by eapply list_elem_of_lookup_2|by right].
  - split_and!; [|done|apply set_ready_some]. by unfold set_ready; destruct (ready s).
  - apply set_turn.
Qed.
Lemma turn_releasing c me r h n s ph' s' :
  shared_ok h n s → caller_ok c me h n s (Releasing r) →
  match lock s with
  | Some _ => None
  | None => Some (match r with inr i => Installed i | inl e => Finished (inl e) end, with_building false s)
  end = Some (ph', s') →
  turned c me (Releasing r) h n s ph' s'.
Proof.
  intros SO (OL & OH & P). assert (h = Some me) as -> by by apply OH.
  destruct (lock s) eqn:Lk; [done|]. intros [= <- <-].
  unfold turned. cbn [lease_after build_ended successes]. rewrite Nat.add_0_r. split_and!.
  - destruct SO. constructor; cbn; try done. intros ->. left. by destruct r as [e|i]; [destruct P|].
  - split_and!; cbn; [rewrite Lk|..]; destruct r as [e|i]; try done. by destruct P.
  - constructor; cbn; auto; [intros i Ne; split; congruence|]. intros i Ne. by rewrite Lk.
Qed.
Lemma turn_installed c me i h n s ph' s' :
  shared_ok h n s → caller_ok c me h n s (Installed i) →
  (let installed := default i (ready s) in Some (Finished (inr installed), spawn_save installed s)) = Some (ph', s') →
  turned c me (Installed i) h n s ph' s'.
Proof.
  intros SO (OL & OH & x & R). cbn. rewrite R. intros [= <- <-].
  unfold turned. cbn. rewrite Nat.add_0_r. split_and!.
  - destruct SO. constructor; cbn; try done. intros j [Hj|Hj]%elem_of_app; [auto|].
    apply list_elem_of_singleton in Hj as ->. done.
  - by split_and!.
  - by constructor; auto.
Qed.

Lemma turn_ok c me cancelled now ph s ph' s' h n :
  callers !! me = Some c → shared_ok h n s → caller_ok c me h n s ph →
  turn c me cancelled now ph s = Some (ph', s') → turned c me ph h n s ph' s'.
Proof.
  destruct ph; cbn -[default]; try by eauto using turn_entering, turn_probing, turn_loading, turn_installing, turn_waiting,
    turn_locked, turn_checked, turn_building, turn_built, turn_releasing, turn_installed.
Qed.

(** The invariant of the callers together. *)
Record sys_ok (h : option nat) (n : nat) (y : System) : Prop := mkSysOk {
  sy_length : length (sy_phases y) = length callers;
  sy_ok : shared_ok h n (sy_shared y);
  sy_caller i c ph :
    callers !! i = Some c → sy_phases y !! i = Some ph → caller_ok c i h n (sy_shared y) ph
}.

Lemma arriving_ok : sys_ok None 0 (arriving callers file0).
Proof.
  constructor; cbn; [apply length_replicate|constructor; try done; [lia|by left|by intros i ?%not_elem_of_nil]|].
  intros i c ph _ [-> _]%lookup_replicate. by split_and!.
Qed.
Lemma save_file_ok io i s r file :
  ready s = Some i → file_ok s → save_to io i (sh_file s) = (r, file) →
  file = file0 ∨ ∃ x bs k, ready s = Some x ∧ wire_to_allocvec (to_wire x) = Ok bs ∧ file = Some (take k bs).
Proof.
  intros R F. unfold save_to. case_decide; [intros [= _ <-]; apply F|].
  destruct (wire_to_allocvec _) as [bs|] eqn:W; [|intros [= _ <-]; apply F].
  case_decide; [intros [= _ <-]; apply F|]. destruct (io_dir io); [|intros [= _ <-]; apply F].
  destruct (io_write io) as [| |k]; intros [= _ <-]; [|apply F|right; by exists i, bs, k].
  right. exists i, bs, (length bs). by rewrite firstn_all.
Qed.

Lemma sys_step_ok y rs y' h n : step callers y rs y' → sys_ok h n y →
  ∃ h', sys_ok h' (n + successes rs) y'.
Proof.
  intros St [Len SO Each]. destruct St as [me c cancelled now ph ph' phases s s' Hc Hp T
    |io i r file phases rd bd lk probe file1 saves1 saves2 Sv]; cbn in *.
  - destruct (turn_ok _ _ _ _ _ _ _ _ _ _ Hc SO (Each _ _ _ Hc Hp) T) as (SO' & CO & G).
    eexists. constructor; cbn; [by rewrite length_insert|exact SO'|]. intros i ci phi Hci Hi.
    destruct (decide (i = me)) as [->|Ne].
    + rewrite list_lookup_insert_eq in Hi by (by eapply lookup_lt_Some). naive_solver.
    + rewrite list_lookup_insert_ne in Hi by done. eapply caller_ok_stable; eauto.
  - rewrite Nat.add_0_r. assert (rd = Some i) as ->.
    { apply (so_saves _ _ _ SO). cbn. apply elem_of_app. right. by left. }
    exists h. constructor; [done| |].
    + destruct SO. constructor; cbn; try done.
      * by eapply (save_file_ok io i (mkShared (Some i) bd lk probe file1 (saves1 ++ i :: saves2))).
      * intros j Hj. apply so_saves0. cbn. set_solver.
    + intros j c ph Hj Hph. specialize (Each j c ph Hj Hph). exact Each.
Qed.
Lemma sys_steps_ok rs y : steps callers (arriving callers file0) rs y → ∃ h, sys_ok h (successes rs) y.
Proof.
  remember (arriving callers file0) as y0 eqn:E. induction 1 as [|y1 r1 y2 r2 y3 _ IH St]; subst.
  - exists None. apply arriving_ok.
  - destruct (IH eq_refl) as [h I]. rewrite successes_app. by eapply sys_step_ok.
Qed.

(** ** Every caller can be served *)

(** Waiting, holding the mutex and having checked count alike: a caller may go
    round while another builds. *)
Definition weight (ph : Phase) : nat :=
  match ph with
  | Entering => 10 | Probing => 9 | Loading => 8 | Installing _ => 7
  | Waiting | Locked | Checked => 6
  | Building => 4 | Built _ => 3 | Releasing _ => 2 | Installed _ => 1 | Finished _ => 0
  end.
Definition work (phases : list Phase) : nat := sum_list_with weight phases.
Lemma work_insert me ph ph' phases :
  phases !! me = Some ph → work (<[me := ph']> phases) + weight ph = work phases + weight ph'.
Proof.
  intros E. rewrite insert_take_drop by (by eapply lookup_lt_Some).
  rewrite <-(take_drop_middle phases me ph E) at 3. unfold work. rewrite !sum_list_with_app. cbn. lia.
Qed.

(** A run of the callers that does not add work, or takes some away. *)
Definition run_to (y y' : System) : Prop := ∃ rs, steps callers y rs y'.
Lemma steps_trans y1 r1 y2 r2 y3 : steps callers y1 r1 y2 → steps callers y2 r2 y3 → steps callers y1 (r1 ++ r2) y3.
Proof.
  intros S1 S2. induction S2 as [|? ra ? rb ? _ IH St]; [by rewrite app_nil_r|]. rewrite app_assoc. eauto using steps.
Qed.
Lemma run_trans y1 y2 y3 : run_to y1 y2 → run_to y2 y3 → run_to y1 y3.
Proof. intros [r1 S1] [r2 S2]. eexists. by eapply steps_trans. Qed.
Lemma run_turn me c ph ph' phases s s' :
  callers !! me = Some c → phases !! me = Some ph → turn c me false 0 ph s = Some (ph', s') →
  run_to (mkSystem phases s) (mkSystem (<[me := ph']> phases) s') ∧
  (<[me := ph']> phases) !! me = Some ph' ∧
  work (<[me := ph']> phases) + weight ph = work phases + weight ph'.
Proof.
  intros Hc Hp T. split_and!.
  - eexists. eapply steps_then; [apply steps_refl|]. by eapply step_turn.
  - apply list_lookup_insert_eq. by eapply lookup_lt_Some.
  - by apply work_insert.
Qed.

(** A caller that checked the cell goes on, and the mutex is free. *)
Lemma checked_on me c phases s :
  callers !! me = Some c → phases !! me = Some Checked →
  ∃ phases' s', run_to (mkSystem phases s) (mkSystem phases' s') ∧ lock s' = None ∧ work phases' ≤ work phases ∧
    (building s = false → work phases' < work phases).
Proof.
  intros Hc Hp. destruct (building s) eqn:B.
  - destruct (run_turn me c Checked (match wait_error c false 0 with Some e => Finished (inl e) | None => Waiting end)
                phases s (with_lock None s)) as (R & _ & W); [done|done|cbn; by rewrite B|].
    eexists _, _. split_and!; [exact R|done| |done]. destruct (wait_error _ _ _); cbn in W; lia.
  - destruct (run_turn me c Checked Building phases s (with_lock None (with_building true s))) as (R & _ & W);
      [done|done|cbn; by rewrite B|].
    eexists _, _. split_and!; [exact R|done|..]; cbn in W; lia.
Qed.
Lemma locked_on me c phases s :
  callers !! me = Some c → phases !! me = Some Locked →
  ∃ phases' s', run_to (mkSystem phases s) (mkSystem phases' s') ∧ lock s' = None ∧ work phases' ≤ work phases ∧
    (building s = false → work phases' < work phases).
Proof.
  intros Hc Hp. destruct (ready s) as [i|] eqn:Rd.
  - destruct (run_turn me c Locked (Finished (inr i)) phases s (with_lock None s)) as (R & _ & W);
      [done|done|cbn; by rewrite Rd|].
    eexists _, _. split_and!; [exact R|done|..]; cbn in W; lia.
  - destruct (run_turn me c Locked Checked phases s s) as (R & Hp' & W); [done|done|cbn; by rewrite Rd|].
    edestruct checked_on as (ph2 & s2 & R2 & L2 & W2 & B2); [exact Hc|exact Hp'|].
    exists ph2, s2. cbn in W. split_and!; [by eapply run_trans|done|lia|intros B; specialize (B2 B); lia].
Qed.
Lemma mutex_freed h n y : sys_ok h n y →
  ∃ y', run_to y y' ∧ lock (sy_shared y') = None ∧ work (sy_phases y') ≤ work (sy_phases y).
Proof.
  intros [Len SO Each]. destruct y as [phases s]. cbn in *. destruct (lock s) as [i|] eqn:L.
  2: { exists (mkSystem phases s). split_and!; [exists []; constructor|done|done]. }
  pose proof (so_lock _ _ _ SO _ L) as Lt.
  destruct (lookup_lt_is_Some_2 callers i Lt) as [c Hc]. rewrite <-Len in Lt.
  destruct (lookup_lt_is_Some_2 phases i Lt) as [ph Hp].
  destruct (Each _ _ _ Hc Hp) as (OL & _ & _). apply OL in L. destruct ph; try done.
  - destruct (locked_on i c phases s Hc Hp) as (ph' & s' & ? & ? & ? & _). by exists (mkSystem ph' s').
  - destruct (checked_on i c phases s Hc Hp) as (ph' & s' & ? & ? & ? & _). by exists (mkSystem ph' s').
Qed.

(** The caller that holds the lease comes nearer to its end. *)
Lemma lease_on me c ph phases s :
  callers !! me = Some c → phases !! me = Some ph → in_lease ph → lock s = None →
  ∃ phases' s', run_to (mkSystem phases s) (mkSystem phases' s') ∧ work phases' < work phases.
Proof.
  intros Hc Hp IL L. destruct ph as [| | |x| | | | |r|r|x|r]; try done;
    (edestruct (run_turn me c) as (R & _ & W); [done|exact Hp|cbn; rewrite ?L; done|]);
    eexists _, _; (split; [exact R|]); try destruct r; cbn in W; lia.
Qed.
Lemma caller_on h n me c ph phases s :
  sys_ok h n (mkSystem phases s) → lock s = None →
  callers !! me = Some c → phases !! me = Some ph → (∀ r, ph ≠ Finished r) →
  ∃ phases' s', run_to (mkSystem phases s) (mkSystem phases' s') ∧ work phases' < work phases.
Proof.
  intros [Len SO Each] L Hc Hp NF. cbn in *. destruct (Each _ _ _ Hc Hp) as (OL & OH & _).
  assert (Own : ∀ ph' s', turn c me false 0 ph s = Some (ph', s') → weight ph' < weight ph →
    ∃ phases' s', run_to (mkSystem phases s) (mkSystem phases' s') ∧ work phases' < work phases).
  { intros ph' s' T Lt. edestruct (run_turn me c) as (R & _ & W); [done|exact Hp|exact T|].
    eexists _, _. split; [exact R|lia]. }
  destruct ph as [| | |x| | | | |r|r|x|r]; 
    try (by eapply (lease_on me c _ phases s Hc Hp)); try (by rewrite (proj2 OL I) in L).
  - eapply Own; [done|]. destruct (ready s); cbn; lia.
  - eapply Own; [done|]. destruct (disk_probe s); cbn; lia.
  - eapply Own; [done|]. destruct (load_from _ _); cbn; lia.
  - cbn in Own. destruct (ready s); (eapply Own; [done|cbn; lia]).
  - destruct h as [j|].
    + pose proof (so_lease _ _ _ SO j eq_refl) as Lt. destruct (lookup_lt_is_Some_2 callers j Lt) as [cj Hcj].
      rewrite <-Len in Lt. destruct (lookup_lt_is_Some_2 phases j Lt) as [phj Hpj].
      destruct (Each _ _ _ Hcj Hpj) as (_ & OHj & _). eapply lease_on; [exact Hcj|exact Hpj|by apply OHj|done].
    + pose proof (so_building _ _ _ SO) as B. cbn in B.
      edestruct (run_turn me c Waiting) as (R & Hp' & W); [done|done|cbn; by rewrite L|].
      edestruct locked_on as (ph2 & s2 & R2 & _ & _ & B2); [exact Hc|exact Hp'|]. cbn in W.
      exists ph2, s2. split; [by eapply run_trans|]. specialize (B2 B). lia.
  - eapply Own; [done|cbn; lia].
  - by destruct (NF r).
Qed.

Lemma run_sys_ok y y' h n : run_to y y' → sys_ok h n y → ∃ h' n', sys_ok h' n' y'.
Proof.
  intros [rs St]. revert h n. induction St as [|? ? ? ? ? _ IH St]; intros h n I; [by eexists _, _|].
  destruct (IH _ _ I) as (h1 & n1 & I1). destruct (sys_step_ok _ _ _ _ _ St I1) as [h2 I2]. eauto.
Qed.
(** From wherever the callers are, there is a way for all to get an answer. *)
Lemma all_served h n y : sys_ok h n y →
  ∃ y', run_to y y' ∧ ∀ ph, ph ∈ sy_phases y' → ∃ r, ph = Finished r.
Proof.
  remember (work (sy_phases y)) as k eqn:K. revert h n y K.
  induction k as [k IH] using lt_wf_ind. intros h n y -> Iy.
  destruct (mutex_freed _ _ _ Iy) as ([phases s] & R & L & W). cbn [sy_phases sy_shared] in L, W.
  destruct (run_sys_ok _ _ _ _ R Iy) as (h1 & n1 & I1).
  destruct (decide (Forall (λ ph, weight ph = 0) phases)) as [All|NotAll].
  { exists (mkSystem phases s). split; [done|]. intros ph Hph. rewrite Forall_forall in All. apply All in Hph. destruct ph; try done. eauto. }
  apply not_Forall_Exists, Exists_exists in NotAll as (ph & [me Hp]%list_elem_of_lookup & NW); [|apply _].
  assert (me < length callers) as Lt by (rewrite <-(sy_length _ _ _ I1); by eapply lookup_lt_Some).
  destruct (lookup_lt_is_Some_2 callers me Lt) as [c Hc].
  destruct (caller_on _ _ me c ph phases s I1 L Hc Hp) as (ph2 & s2 & R2 & W2).
  { intros r ->. by destruct NW. }
  destruct (run_sys_ok _ _ _ _ R2 I1) as (h2 & n2 & I2).
  destruct (IH (work ph2) ltac:(lia) h2 n2 (mkSystem ph2 s2) eq_refl I2) as (y' & R3 & Fin).
  exists y'. split; [by eapply run_trans, run_trans|done].
Qed.

(** *** The claim *)

Lemma sys_phase h n y i ph : sys_ok h n y → sy_phases y !! i = Some ph →
  ∃ c, callers !! i = Some c ∧ caller_ok c i h n (sy_shared y) ph.
Proof.
  intros I Hp. assert (i < length callers) as Lt by (rewrite <-(sy_length _ _ _ I); by eapply lookup_lt_Some).
  destruct (lookup_lt_is_Some_2 callers i Lt) as [c Hc]. exists c. split; [done|]. by apply (sy_caller _ _ _ I).
Qed.

(** C14: however the callers of one project and the threads that save move,
    from the opening of the project on: one caller builds at a time, and at most
    one build ever succeeds; all that get an index get the same one, which is the
    index of the file at the start or of the build of one of them; an error is
    of the caller's own build or waiting; the file keeps what it held or holds a
    prefix of that index. And from every point there is a way for all callers to
    get an answer: nobody is stuck. *)
Theorem one_index_for_all rs y :
  steps callers (arriving callers file0) rs y →
  successes rs ≤ 1 ∧
  (∀ i j p q, sy_phases y !! i = Some p → sy_phases y !! j = Some q → in_lease p → in_lease q → i = j) ∧
  (∀ i j x x', sy_phases y !! i = Some (Finished (inr x)) → sy_phases y !! j = Some (Finished (inr x')) →
    x = x' ∧ ready (sy_shared y) = Some x ∧ origin x) ∧
  (∀ i e, sy_phases y !! i = Some (Finished (inl e)) → ∃ c, callers !! i = Some c ∧ own_error c e) ∧
  file_ok (sy_shared y) ∧
  ∃ y', run_to y y' ∧ ∀ ph, ph ∈ sy_phases y' → ∃ r, ph = Finished r.
Proof.
  intros [h I]%sys_steps_ok. pose proof (sy_ok _ _ _ I) as SO. split_and!.
  - apply SO.
  - intros i j p q (ci & _ & _ & Hi & _)%(sys_phase _ _ _ _ _ I) (cj & _ & _ & Hj & _)%(sys_phase _ _ _ _ _ I) Li Lj.
    apply Hi in Li. apply Hj in Lj. congruence.
  - intros i j x x' (ci & _ & _ & _ & Ri)%(sys_phase _ _ _ _ _ I) (cj & _ & _ & _ & Rj)%(sys_phase _ _ _ _ _ I).
    cbn in Ri, Rj. split_and!; [congruence|done|by apply SO].
  - intros i e (c & Hc & _ & _ & E)%(sys_phase _ _ _ _ _ I). by exists c.
  - apply SO.
  - by eapply all_served.
Qed.
End proofs.

(** ** A caller that is alone *)

Section reopen.
Context `{FM : !Formatter, FL : !FstLib, FW : !FstLaws, HO : !HashOrder, HL : !HashOrderLaws}.
Context `{IC : !IndexCodec, IL : !IndexCodecLaws}.

Lemma alone_turn c fuel ph s ph' s' :
  (∀ r, ph ≠ Finished r) → turn c 0 false 0 ph s = Some (ph', s') → alone c (S fuel) ph s = alone c fuel ph' s'.
Proof. intros N T. destruct ph; cbn [alone]; by rewrite ?T. Qed.
Ltac take_turn := etransitivity; [eapply alone_turn; [done|reflexivity]|].
(** It loads the file when that is valid for its configuration, and builds
    otherwise; what it built is to be saved. *)
Lemma get_or_build_alone c file :
  get_or_build c (new_cell file) =
    Some match load_from file (cl_config c) with
         | Ok i => (inr i, mkShared (Some i) false None false file [])
         | Err _ =>
             match build_of c with
             | inr i => (inr i, mkShared (Some i) false None false file [i])
             | inl e => (inl e, mkShared None false None false file [])
             end
         end.
Proof.
  unfold get_or_build. do 3 take_turn. cbn [sh_file new_cell disk_probe probed].
  destruct (load_from file (cl_config c)) as [i|e]; [by take_turn|].
  do 5 take_turn. destruct (build_of c) as [e'|i].
  - by take_turn.
  - by do 2 take_turn.
Qed.

Lemma get_or_build_saved c index io file file' :
  aligned index → Bel.config index = cl_config c → save_to io index file = (Ok true, file') →
  get_or_build c (new_cell file') = Some (inr index, mkShared (Some index) false None false file' []).
Proof.
  intros A C S. by rewrite get_or_build_alone, (load_saved_index _ _ _ _ _ A S), C, decide_True.
Qed.

Lemma bind_inv {A B} (m : M A) (k : A → M B) n x n' :
  (m ≫= k) n = inr (x, n') → ∃ a n1, m n = inr (a, n1) ∧ k a n1 = inr (x, n').
Proof. unfold mbind, M_bind. destruct (m n) as [|[a n1]]; [done|eauto]. Qed.
Lemma build_stats an config check n index n' :
  build an config check n = inr (index, n') →
  validate_config config = None ∧ Bel.config index = config ∧ st_entities (stats index) = length (entities index).
Proof.
  unfold build. destruct (validate_config config); [done|]. intros E. split; [done|].
  repeat (apply bind_inv in E as (? & ? & _ & E)).
  unfold finish in E. repeat (apply bind_inv in E as (? & ? & _ & E)).
  match type of E with (let '(_, _) := ?p in _) _ = _ => destruct p end.
  repeat (apply bind_inv in E as (? & ? & _ & E)). by injection E as <- _.
Qed.

Lemma built_aligned an config check index : built an config check index → aligned index ∧ Bel.config index = config.
Proof.
  intros B. pose proof (built_wf _ _ _ _ B) as W. destruct B as (_ & n & n' & E).
  destruct (build_stats _ _ _ _ _ _ E) as (V & C & S). unfold aligned. rewrite C, S.
  by rewrite (wi_texts _ W), length_map.
Qed.

(** C24: an index that was built and saved is the index the project gets when
    it is opened again: [load_from] gives back the very index for the
    configuration it was built with and an error for any other, and
    [get_or_build] of the reopened project answers it without a build. With a
    file that is rejected it builds, answers what the build gives, and leaves a
    successful build to be saved. *)
Theorem index_survives_restart an config check index io file file' :
  built an config check index → save_to io index file = (Ok true, file') →
  load_from file' config = Ok index ∧
  (∀ requested, requested ≠ config → ∃ message, load_from file' requested = Err message) ∧
  ∀ c, get_or_build c (new_cell file') = Some
    (if decide (cl_config c = config) then (inr index, mkShared (Some index) false None false file' [])
     else match build_of c with
          | inr i => (inr i, mkShared (Some i) false None false file' [i])
          | inl e => (inl e, mkShared None false None false file' [])
          end).
Proof.
  intros [A C]%built_aligned S.
  assert (L : ∀ requested, load_from file' requested =
    if decide (config = requested) then Ok index else Err "BEL cache config mismatch; rebuild required").
  { intros requested. rewrite (load_saved_index _ _ _ _ _ A S). by rewrite C. }
  split_and!.
  - by rewrite L, decide_True.
  - intros requested Ne. rewrite L, decide_False by done. eauto.
  - intros c. rewrite get_or_build_alone, L. destruct (decide (cl_config c = config)) as [->|Ne].
    + by rewrite decide_True.
    + by rewrite decide_False.
Qed.
End reopen.

(** ** Turns that can be run *)

Section schedule.
Context `{FM : !Formatter, FL : !FstLib, HO : !HashOrder, IC : !IndexCodec}.

(** The turns of the callers named, uncancelled, at time 0. *)
Fixpoint schedule (callers : list Caller) (turns : list nat) (y : System) : option System :=
  match turns with
  | [] => Some y
  | me :: turns =>
      c ← callers !! me;
      ph ← sy_phases y !! me;
      '(ph', s') ← turn c me false 0 ph (sy_shared y);
      schedule callers turns (mkSystem (<[me := ph']> (sy_phases y)) s')
  end.
Lemma schedule_steps callers turns y y' : schedule callers turns y = Some y' → run_to callers y y'.
Proof.
  revert y. induction turns as [|me turns IH]; cbn; intros y E; [injection E as <-; exists []; constructor|].
  apply bind_Some in E as (c & Hc & E). apply bind_Some in E as (ph & Hp & E).
  apply bind_Some in E as ([ph' s'] & T & E). eapply run_trans; [|by apply IH].
  destruct y. eexists. eapply steps_then; [apply steps_refl|]. by eapply step_turn.
Qed.
End schedule.

(** ** A file *)

#[export] Instance sample_hash_order : HashOrder := {| hash_entries K _ _ A m := map_to_list m |}.
#[export] Instance sample_hash_laws : HashOrderLaws.
Proof. by constructor. Defined.

#[export] Instance signature_eq_dec : EqDecision SparseFunctionSignature.
Proof. solve_decision. Defined.
#[export] Instance signature_countable : Countable SparseFunctionSignature.
Proof. refine (inj_countable' Signature.bits Signature.mkSignature _). by intros []. Defined.
#[export] Instance config_countable : Countable BelConfig.
Proof.
  refine (inj_countable' (λ c, (syncmer_k c, syncmer_s c, signature_width_bits c, rarity_threshold c,
      hot_table_size c, cf_quorum c, safety_cardinality c, max_lattice_depth c, relationship_depth c,
      enable_fm_index c, memory_budget_mb c, deadline_check_interval c))
    (λ '(a, b, c, d, e, f, g, h, i, j, k, l), mkConfig a b c d e f g h i j k l) _). by intros [].
Defined.
#[export] Instance memory_eq_dec : EqDecision BelMemoryBreakdown.
Proof. solve_decision. Defined.
#[export] Instance memory_countable : Countable BelMemoryBreakdown.
Proof.
  refine (inj_countable' (λ m, (entities_bytes m, normalized_bytes m, surface_posting_bytes m, token_posting_bytes m,
      syncmer_posting_bytes m, numeric_bytes m, signature_bytes m, propagation_bytes m, estimated_total_bytes m))
    (λ '(a, b, c, d, e, f, g, h, i), mkMemory a b c d e f g h i) _). by intros [].
Defined.
#[export] Instance stats_eq_dec : EqDecision BelStats.
Proof. solve_decision. Defined.
#[export] Instance stats_countable : Countable BelStats.
Proof.
  refine (inj_countable' (λ w, (st_entities w, st_functions w, st_names w, st_tokens w, st_syncmers w, st_syncmer_occurrences
      w, st_syncmer_complete w, st_numerics w, st_motifs w, st_ontology_classes w, st_rare_evidence
      w, st_fm_index_enabled w, st_memory w))
    (λ '(v0, v1, v2, v3, v4, v5, v6, v7, v8, v9, v10, v11, v12), mkStats v0 v1 v2 v3 v4 v5 v6 v7 v8
      v9 v10 v11 v12) _). by intros [].
Defined.
#[export] Instance wire_entity_eq_dec : EqDecision WireEntity.
Proof. solve_decision. Defined.
#[export] Instance wire_entity_countable : Countable WireEntity.
Proof.
  refine (inj_countable' (λ w, (we_id w, we_kind w, we_display w, we_va w, we_file_offset w, we_func_entry w))
    (λ '(v0, v1, v2, v3, v4, v5), mkWireEntity v0 v1 v2 v3 v4 v5) _). by intros [].
Defined.
#[export] Instance wire_propagation_eq_dec : EqDecision WirePropagation.
Proof. solve_decision. Defined.
#[export] Instance wire_propagation_countable : Countable WirePropagation.
Proof.
  refine (inj_countable' (λ w, (wp_surface_to_funcs w, wp_hot_table w, wp_function_neighbors w))
    (λ '(v0, v1, v2), mkWirePropagation v0 v1 v2) _). by intros [].
Defined.
#[export] Instance wire_ontology_eq_dec : EqDecision WireOntology.
Proof. solve_decision. Defined.
#[export] Instance wire_ontology_countable : Countable WireOntology.
Proof.
  refine (inj_countable' (λ w, (wo_classes w, wo_edges w, wo_func_labels w))
    (λ '(v0, v1, v2), mkWireOntology v0 v1 v2) _). by intros [].
Defined.
#[export] Instance wire_motifs_eq_dec : EqDecision WireMotifs.
Proof. solve_decision. Defined.
#[export] Instance wire_motifs_countable : Countable WireMotifs.
Proof.
  refine (inj_countable' (λ w, (wm_tokens w, wm_entities w))
    (λ '(v0, v1), mkWireMotifs v0 v1) _). by intros [].
Defined.
#[export] Instance sample_fst_eq_dec : EqDecision fst_bytes := (_ : EqDecision (list (string * Z))).
#[export] Instance sample_fst_countable : Countable fst_bytes := (_ : Countable (list (string * Z))).
#[export] Instance disk_eq_dec : EqDecision BelDiskIndex.
Proof. solve_decision. Defined.
#[export] Instance disk_countable : Countable BelDiskIndex.
Proof.
  refine (inj_countable' (λ w, (format_version w, dk_config w, dk_generation w, dk_base_op_seq w, dk_entities w,
      dk_normalized w, name_fst_bytes w, name_postings w, dk_sorted_ids w, dk_kind_postings w,
      token_map w, syncmer_map w, dk_syncmer_k w, dk_syncmer_s w, dk_syncmer_complete w,
      numeric_sorted w, dk_signatures w, dk_rare_vocab w, dk_rare_lookup w, dk_signature_width_bits
      w, dk_propagation w, dk_ontology w, dk_motifs w, dk_function_by_va w, dk_slots w, dk_stats w))
    (λ '(v0, v1, v2, v3, v4, v5, v6, v7, v8, v9, v10, v11, v12, v13, v14, v15, v16, v17, v18, v19,
      v20, v21, v22, v23, v24, v25), mkDiskIndex v0 v1 v2 v3 v4 v5 v6 v7 v8 v9 v10 v11 v12 v13 v14
      v15 v16 v17 v18 v19 v20 v21 v22 v23 v24 v25) _). by intros [].
Defined.

(** One known index has a code of one byte; other indexes are the digits of their
    number, after a zero and closed by a brace. *)
Section codec.
Variable known : option BelDiskIndex.
Definition encode_with (w : BelDiskIndex) : bytes :=
  if decide (Some w = known) then [x01] else x00 :: SampleCodec.digits (countable.encode w) ++ [x7d].
Definition decode_with (bs : bytes) : option BelDiskIndex :=
  match bs with
  | [] => None
  | b :: bs => if decide (b = x01) then known else SampleCodec.parse_digits bs ≫= countable.decode
  end.
Lemma decode_encode_with w : decode_with (encode_with w) = Some w.
Proof.
  unfold encode_with. destruct (decide (Some w = known)) as [E|E]; cbv [decode_with].
  - by rewrite decide_True.
  - rewrite decide_False, SampleCodec.parse_digits_digits by done. apply countable.decode_encode.
Qed.
Definition codec_with : IndexCodec := {|
  wire_to_allocvec w := Ok (encode_with w);
  wire_from_bytes bs := match decode_with bs with Some w => Ok w | None => Err "not an index" end
|}.
Lemma codec_with_laws : @IndexCodecLaws _ codec_with.
Proof.
  constructor. intros w bs [= <-]. cbv [wire_from_bytes codec_with]. by rewrite decode_encode_with.
Defined.
End codec.

Definition wire_of_build (r : BelBuildError + (BelIndex * nat)) : option BelDiskIndex :=
  match r with inr (i, _) => Some (to_wire i) | inl _ => None end.
#[export] Instance sample_index_codec : IndexCodec := codec_with (wire_of_build sample_build).
#[export] Instance sample_index_laws : IndexCodecLaws := codec_with_laws _.

(** ** Witnesses *)

Definition sample_caller : Caller := mkCaller sample_analysed sample_config None no_stop.
Definition sample_io : SaveIo := mkSaveIo true WriteOk.
Lemma sample_saved P :
  match sample_build with
  | inr (i, _) => P i ∧ (estimated_total_bytes (st_memory (stats i)) <=? BEL_DISK_CACHE_MAX_BYTES)%Z = true
  | inl _ => False
  end →
  ∃ index, built sample_analysed sample_config no_stop index ∧ build_of sample_caller = inr index ∧
    save_to sample_io index None = (Ok true, Some [x01]) ∧ P index.
Proof.
  destruct sample_build as [e|[index n]] eqn:E; [intros []|]. intros [HP Le]. exists index.
  assert (wire_to_allocvec (to_wire index) = Ok [x01]) as W.
  { change (Ok (encode_with (wire_of_build sample_build) (to_wire index)) = Ok [x01]). rewrite E.
    unfold encode_with. by rewrite decide_True. }
  split; [|split; [|split; [|exact HP]]].
  - split; [exact sample_keyed|]. exists 0, n. exact E.
  - unfold build_of, sample_caller. cbn [cl_project cl_config cl_check].
    change (build sample_analysed sample_config no_stop 0) with sample_build. rewrite E. reflexivity.
  - unfold save_to. rewrite decide_False by lia. rewrite W. reflexivity.
Qed.

Lemma index_survives_restart_witness :
  ∃ index file', built sample_analysed sample_config no_stop index ∧ save_to sample_io index None = (Ok true, file') ∧
    get_or_build sample_caller (new_cell file') = Some (inr index, mkShared (Some index) false None false file' []).
Proof.
  destruct (sample_saved (λ _, True)) as (index & B & _ & S & _); [vm_compute; done|].
  exists index, (Some [x01]). split; [exact B|]. split; [exact S|].
  destruct (index_survives_restart sample_analysed sample_config no_stop index sample_io None (Some [x01]) B S)
    as (_ & _ & G).
  rewrite G. cbn [cl_config sample_caller]. by rewrite decide_True.
Defined.

(** Two callers arrive; the second finds the first one building and waits. *)
Local Notation two := [sample_caller; sample_caller].
Definition sample_first : list nat := [0; 0; 0; 0; 0; 0; 1; 1; 1; 1; 1; 0].
Definition sample_then : list nat := [0; 0; 0; 1; 1].
Definition sample_built_in (r : BelBuildError + BelIndex) : System :=
  mkSystem [Built r; Waiting] (mkShared None true None false None []).
Definition sample_end (i : BelIndex) : System :=
  mkSystem [Finished (inr i); Finished (inr i)] (mkShared (Some i) false None false None [i]).
Lemma sample_run : ∃ index rs, steps two (arriving two None) rs (sample_end index).
Proof.
  destruct (sample_saved (λ _, True)) as (index & _ & E & _); [vm_compute; done|]. exists index.
  assert (schedule two sample_first (arriving two None) = Some (sample_built_in (build_of sample_caller))) as R1
    by reflexivity.
  rewrite E in R1. eapply (run_trans two); [exact (schedule_steps _ _ _ _ R1)|].
  apply (schedule_steps two sample_then). reflexivity.
Qed.
Lemma one_index_for_all_witness :
  ∃ index rs, steps two (arriving two None) rs (sample_end index) ∧ successes rs ≤ 1 ∧
    ready (sy_shared (sample_end index)) = Some index.
Proof.
  destruct sample_run as (index & rs & St). exists index, rs. split; [exact St|].
  destruct (one_index_for_all two None rs (sample_end index) St) as (N & _ & A & _). split; [exact N|].
  destruct (A 0 1 index index eq_refl eq_refl) as (_ & R & _). exact R.
Defined.

(** ** What the cache misses *)

(** The cache is found by the hash of the image, and nothing in it is compared
    with the project: an index saved before the debug information of the image
    was there is answered for the project that knows more functions. *)
Definition sample_debug : Analysed :=
  let p := an_project sample_analysed in
  mkAnalysed
    (mkProject (pe_path p) (image_sha256 p) (<[0x1020%Z := sample_function 0x1020]> (functions p))
       (symbols p) (comments p) (types p) (function_frames p) (typed_globals p) (function_signatures p)
       (focus p) (op_seq p) (function_memory p) (alias_history p) (ssa_cache p))
    (an_code_index sample_analysed) (an_xrefs sample_analysed) (an_space sample_analysed)
    (an_strings sample_analysed).
Definition debug_caller : Caller := mkCaller sample_debug sample_config None no_stop.
Lemma stale_index_answered :
  ∃ index file' fresh, save_to sample_io index None = (Ok true, file') ∧
    image_sha256 (an_project sample_debug) = image_sha256 (an_project sample_analysed) ∧
    get_or_build debug_caller (new_cell file') = Some (inr index, mkShared (Some index) false None false file' []) ∧
    build_of debug_caller = inr fresh ∧
    function_by_va index !! 0x1020%Z = None ∧ is_Some (function_by_va fresh !! 0x1020%Z).
Proof.
  destruct (sample_saved (λ i, function_by_va i !! 0x1020%Z = None)) as (index & B & _ & S & F);
    [vm_compute; done|].
  assert (match build_of debug_caller with
          | inr fresh => bool_decide (is_Some (function_by_va fresh !! 0x1020%Z))
          | inl _ => false
          end = true) as Fresh by (vm_compute; reflexivity).
  destruct (build_of debug_caller) as [?|fresh] eqn:E; [discriminate Fresh|].
  apply bool_decide_eq_true in Fresh. exists index, (Some [x01]), fresh. split; [exact S|]. split; [reflexivity|].
  split; [|split; [reflexivity|split; [exact F|exact Fresh]]].
  apply built_aligned in B as [A C]. exact (get_or_build_saved debug_caller index _ _ _ A C S).
Qed.
