(* ===== verification/GlobalSearch.v ===== *)
(** The search over symbols, strings and disassembly, [src/analysis/search.rs],
    and its pages, [search_summary_page] of [src/llm/query.rs].

    Instruction texts and immediates are indexed by the first search that needs
    them and kept with the analysis. A loop looks at the deadline every 4096
    steps; [expired] is what it sees, by position. *)

From Stdlib Require Import Strings.Ascii Strings.String.
From S2P Require Import Prelude Text Data Ops Activity MemoryMap Loader CodeIndex Callees Bel BelBuild BelQuery BelFacts BelSurface BelBuildFacts BelPaging BelClaims.

Local Open Scope string_scope.
Local Open Scope list_scope.
Local Open Scope nat_scope.

Definition DEADLINE_CHECK_INTERVAL : nat := 4096.

Inductive SearchHit :=
  | InstructionHit (va : Z) (text : string)
  | SymbolHit (va : Z) (name : string)
  | StringHit (offset : Z) (value : string).
Record SearchOutcome := mkOutcome {
  so_hits : list SearchHit;
  so_timed_out : bool;
  so_index_ready : bool
}.

(** [Analysis::instruction_search] and [Analysis::immediate_search]. *)
Record SearchCaches := mkCaches {
  instruction_search : option (list string);
  immediate_search : option (list (Z * nat))
}.
Definition no_caches : SearchCaches := mkCaches None None.

(** [RegexBuilder::new(&regex::escape(query)).case_insensitive(true)]; patterns
    are read by [regex_new]. *)
Class LiteralRegex := { literal_regex : string → option (string → bool) }.

(** [eq_ignore_ascii_case] *)
Fixpoint eq_ignore_ascii_case (a b : string) : bool :=
  match a, b with
  | "", "" => true
  | String x a, String y b =>
      Ascii.eqb (to_ascii_lowercase x) (to_ascii_lowercase y) && eq_ignore_ascii_case a b
  | _, _ => false
  end.
Definition contains_ascii_case_insensitive (haystack needle : string) : bool :=
  if is_empty_str needle then true
  else existsb (λ window, eq_ignore_ascii_case window needle) (windows (String.length needle) haystack).

(** A loop over the instructions that looks at the deadline. *)
Fixpoint each_instruction {A} (expired : nat → bool) (f : nat → DecodedInstr → list A) (position : nat)
    (code : list DecodedInstr) : option (list A) :=
  match code with
  | [] => Some []
  | d :: code =>
      if (position mod DEADLINE_CHECK_INTERVAL =? 0) && expired position then None
      else app (f position d) <$> each_instruction expired f (S position) code
  end.

(** The immediates of an instruction, each once. *)
Definition immediates (i : Instruction) : list Z :=
  foldl (λ seen o, if is_immediate o.1 then if decide (o.2 ∈ seen) then seen else seen ++ [o.2] else seen)
    [] (operands i).
(** [ImmediateSearchIndex::build], [instruction_indices] *)
Definition build_immediates (expired : nat → bool) (code : list DecodedInstr) : option (list (Z * nat)) :=
  sort_values <$> each_instruction expired (λ position d, map (λ v, (v, position)) (immediates (instr d))) 0 code.
Definition instruction_indices (value : Z) (postings : list (Z * nat)) : list nat := equal_range value postings.

Section search.
Context `{!Formatter, !RegexLib, !LiteralRegex}.
Variable an : Analysed.
Notation p := (an_project an).
Notation code := (an_code_index an).

(** [InstructionSearchIndex::build] *)
Definition build_texts (expired : nat → bool) : option (list string) :=
  each_instruction expired (λ _ d, [format (symbols p) (instr d)]) 0 code.

Definition build_regex (query : string) : option (string → bool) :=
  match strip_prefix "/" query with
  | Some pattern => match regex_new pattern with inr is_match => Some is_match | inl _ => None end
  | None => literal_regex query
  end.

Definition search_symbols (query : string) : list SearchHit :=
  omap (λ '(va, name, _), if contains_ascii_case_insensitive name query then Some (SymbolHit va name) else None)
    (Symbols.entries (symbols p)).
Definition search_strings (query : string) : list SearchHit :=
  omap (λ '(offset, value), if contains_ascii_case_insensitive value query then Some (StringHit offset value) else None)
    (an_strings an).

(** [search_immediate]; the outer [None] is an index out of range. *)
Definition immediate_hit (i : nat) : option SearchHit :=
  d ← code !! i; Some (InstructionHit (ip d) (format (symbols p) (instr d))).
Definition search_immediate (expired : nat → bool) (value : Z) (c : SearchCaches)
    : option (list SearchHit * bool * SearchCaches) :=
  match (match immediate_search c with Some index => Some index | None => build_immediates expired code end) with
  | None => Some ([], true, c)
  | Some index =>
      hits ← mapM immediate_hit (instruction_indices value index);
      Some (hits ++ match Symbols.name (symbols p) value with Some name => [SymbolHit value name] | None => [] end,
            false, mkCaches (instruction_search c) (Some index))
  end.

(** [search_instructions_regex]: [building] and [scanning] are what its two loops
    see of the deadline. *)
Fixpoint scan_texts (scanning : nat → bool) (is_match : string → bool) (position : nat) (texts : list string)
    : option (list SearchHit * bool) :=
  match texts with
  | [] => Some ([], false)
  | text :: texts =>
      if (position mod DEADLINE_CHECK_INTERVAL =? 0) && scanning position then Some ([], true)
      else
        hit ← (if is_match text then d ← code !! position; Some [InstructionHit (ip d) text] else Some []);
        '(hits, timed_out) ← scan_texts scanning is_match (S position) texts;
        Some (hit ++ hits, timed_out)
  end.
Definition search_instructions_regex (building scanning : nat → bool) (is_match : string → bool) (c : SearchCaches)
    : option (list SearchHit * bool * SearchCaches) :=
  match (match instruction_search c with Some texts => Some texts | None => build_texts building end) with
  | None => Some ([], true, c)
  | Some texts =>
      '(hits, timed_out) ← scan_texts scanning is_match 0 texts;
      Some (hits, timed_out, mkCaches (Some texts) (immediate_search c))
  end.

Definition index_ready (c : SearchCaches) : bool := bool_decide (is_Some (instruction_search c)).
(** [search_everything_bounded] *)
Definition search_everything_bounded (building scanning : nat → bool) (query : string) (c : SearchCaches)
    : option (SearchOutcome * SearchCaches) :=
  if is_empty_str query then Some (mkOutcome [] false (index_ready c), c)
  else
    match parse_number query with
    | Some value =>
        '(hits, timed_out, c) ← search_immediate building value c;
        Some (mkOutcome (hits ++ search_symbols query ++ search_strings query) timed_out (index_ready c), c)
    | None =>
        let out := search_symbols query ++ search_strings query in
        match build_regex query with
        | Some is_match =>
            '(hits, timed_out, c) ← search_instructions_regex building scanning is_match c;
            Some (mkOutcome (out ++ hits) timed_out (index_ready c), c)
        | None => Some (mkOutcome out false (index_ready c), c)
        end
    end.
(** [search_everything] *)
Definition search_everything (query : string) (c : SearchCaches) : option (list SearchHit * SearchCaches) :=
  '(outcome, c) ← search_everything_bounded (λ _, false) (λ _, false) query c; Some (so_hits outcome, c).

(** ** Pages *)

Record SearchSummaryPage := mkPage {
  pg_hits : list string;
  pg_total : nat;
  pg_offset : nat;
  pg_limit : nat;
  pg_next_offset : option nat;
  pg_truncated : bool;
  pg_timed_out : bool;
  pg_fast_path : bool;
  pg_index_ready : bool
}.
Definition render_hit (hit : SearchHit) : string :=
  match hit with
  | InstructionHit va text => "insn " +:+ alt_hex va +:+ ": " +:+ text
  | SymbolHit va name => "sym " +:+ alt_hex va +:+ ": " +:+ name
  | StringHit offset value => "str @" +:+ alt_hex offset +:+ ": " +:+ value
  end.

(** The loops of the fast path: a match is shown when it is on the page. *)
Definition fast_match (offset limit : nat) (s : list string * nat) (shown : string) : list string * nat :=
  (if (offset <=? s.2) && (length s.1 <? limit) then s.1 ++ [shown] else s.1, S s.2).
Definition fast_symbol (query : string) (offset limit : nat) (s : list string * nat) (e : Z * string * SymbolKind)
    : list string * nat :=
  if contains_ascii_case_insensitive e.1.2 query
  then fast_match offset limit s ("sym " +:+ alt_hex e.1.1 +:+ ": " +:+ e.1.2) else s.
Definition fast_string (query : string) (offset limit : nat) (s : list string * nat) (e : Z * string)
    : list string * nat :=
  if contains_ascii_case_insensitive e.2 query
  then fast_match offset limit s ("str @" +:+ hex e.1 +:+ ": " +:+ e.2) else s.

Definition next_of (next total : nat) : option nat := if next <? total then Some next else None.
(** [search_summary_page]. An offset that saturates is beyond every total. *)
Definition search_summary_page (building scanning : nat → bool) (query : string) (offset limit : nat)
    (fast_only : bool) (c : SearchCaches) : option (SearchSummaryPage * SearchCaches) :=
  let limit := Nat.max 1 (Nat.min limit 128) in
  if is_empty_str query then Some (mkPage [] 0 offset limit None false false true (index_ready c), c)
  else if fast_only && negb (String.prefix "/" query) && bool_decide (parse_number query = None) then
    let '(fast, total) :=
      foldl (fast_string query offset limit)
        (foldl (fast_symbol query offset limit) ([], 0) (Symbols.entries (symbols p))) (an_strings an) in
    let next := offset + length fast in
    Some (mkPage fast total offset limit (next_of next total) (next <? total) false true (index_ready c), c)
  else if fast_only then Some (mkPage [] 0 offset limit None false false true (index_ready c), c)
  else
    '(outcome, c) ← search_everything_bounded building scanning query c;
    let total := length (so_hits outcome) in
    let hits := map render_hit (take limit (drop offset (so_hits outcome))) in
    let next := offset + length hits in
    Some (mkPage hits total offset limit (next_of next total) (next <? total) (so_timed_out outcome) false
            (so_index_ready outcome), c).
End search.

(** ** Text without case *)

Lemma eq_ignore_iff a b : eq_ignore_ascii_case a b = true ↔ normalize_ascii a = normalize_ascii b.
Proof.
  revert b. induction a as [|x a IH]; intros [|y b]; try done. cbn [eq_ignore_ascii_case normalize_ascii].
  rewrite andb_true_iff, IH, Ascii.eqb_eq. split; [by intros [-> ->]|by intros [= -> ->]].
Qed.
Lemma normalize_split x y s : normalize_ascii s = x +:+ y →
  ∃ a b, s = a +:+ b ∧ normalize_ascii a = x ∧ normalize_ascii b = y.
Proof.
  revert s. induction x as [|c x IH]; intros s E; [by exists "", s|].
  destruct s as [|d s]; [done|]. cbn [normalize_ascii] in E.
  change (String (to_ascii_lowercase d) (normalize_ascii s) = String c (x +:+ y)) in E.
  injection E as E1 E2. destruct (IH s E2) as (a & b & -> & <- & <-).
  exists (String d a), b. split_and!; [done| |done]. cbn [normalize_ascii]. by rewrite E1.
Qed.
Lemma normalize_length s : String.length (normalize_ascii s) = String.length s.
Proof. induction s as [|c s IH]; [done|]. cbn. by rewrite IH. Qed.

Lemma str_take_all s : str_take (String.length s) s = s.
Proof. induction s as [|c s IH]; [done|]. cbn. by rewrite IH. Qed.
Lemma windows_self w : w ∈ windows (String.length w) w.
Proof.
  destruct w as [|c w]; [by left|]. rewrite windows_cons. case_decide as D; [cbn in D; lia|].
  rewrite str_take_all. by left.
Qed.
Lemma str_take_prefix k s : k ≤ String.length s → String.length (str_take k s) = k ∧ ∃ r, s = str_take k s +:+ r.
Proof.
  revert s. induction k as [|k IH]; intros s L; [split; [done|by exists s]|]. destruct s as [|c s]; [simpl in L; lia|].
  cbn in L. destruct (IH s) as (E & r & R); [lia|]. cbn [str_take]. split; [cbn; by rewrite E|].
  exists r. change (String c s = String c (str_take k s +:+ r)). by rewrite <-R.
Qed.
Lemma windows_iff k s w : w ∈ windows k s ↔ String.length w = k ∧ contains w s = true.
Proof.
  split; [|intros [<- C]; eapply windows_contains, windows_self; done]. rewrite contains_app.
  induction s as [|c s IH].
  - cbn [windows]. case_decide as D; [by intros ?%not_elem_of_nil|]. intros ->%list_elem_of_singleton.
    assert (k = 0) as -> by (simpl in D; lia). split; [done|by exists "", ""].
  - rewrite windows_cons. case_decide as D; [by intros ?%not_elem_of_nil|].
    intros [->|(L & a & r & ->)%IH]%elem_of_cons; [|split; [done|by exists (String c a), r]].
    destruct (str_take_prefix k (String c s)) as (E & r & R); [cbn; lia|]. split; [done|by exists "", r].
Qed.
(** A text contains another up to the case of ASCII letters. *)
Lemma contains_lowered haystack needle :
  contains_ascii_case_insensitive haystack needle = contains (normalize_ascii needle) (normalize_ascii haystack).
Proof.
  apply eq_iff_eq_true. unfold contains_ascii_case_insensitive, is_empty_str. rewrite contains_app.
  case_bool_decide as N; [subst; split; [|done]; intros _; by exists "", (normalize_ascii haystack)|].
  rewrite existsb_exists. split.
  - intros (w & [_ (a & r & ->)%contains_app]%list_elem_of_In%windows_iff & E%eq_ignore_iff).
    exists (normalize_ascii a), (normalize_ascii r). by rewrite !normalize_app, E.
  - intros (x & y & E). destruct (normalize_split _ _ _ E) as (a & b & -> & <- & E2).
    destruct (normalize_split _ _ _ E2) as (w & r & -> & Ew & <-). exists w. split; [|by apply eq_ignore_iff].
    apply list_elem_of_In, windows_iff. split; [by rewrite <-(normalize_length w), Ew, normalize_length|].
    apply contains_app. by exists a, r.
Qed.

(** ** The indexes *)

Lemma equal_range_filter value l : StronglySorted (λ x y : Z * nat, (x.1 ≤ y.1)%Z) l →
  equal_range value l = map snd (List.filter (λ e, (e.1 =? value)%Z) l).
Proof.
  unfold equal_range. induction 1 as [|[v i] l S IH F]; [done|]. cbn [partition_point List.filter fst snd].
  destruct (Z.lt_trichotomy v value) as [Lt|[->|Gt]].
  - rewrite (proj2 (Z.ltb_lt v value)), (proj2 (Z.leb_le v value)), (proj2 (Z.eqb_neq v value)) by lia.
    exact IH.
  - rewrite Z.ltb_irrefl, Z.leb_refl, Z.eqb_refl. cbn [Nat.sub drop take map snd]. f_equal.
    rewrite <-IH. replace (partition_point (λ e, (e.1 <? value)%Z) l) with 0; [by rewrite Nat.sub_0_r, drop_0|].
    destruct l as [|[w j] l]; [done|]. apply Forall_cons in F as [F _]. cbn in F |- *.
    by rewrite (proj2 (Z.ltb_ge w value)).
  - rewrite (proj2 (Z.ltb_ge v value)), (proj2 (Z.leb_gt v value)), (proj2 (Z.eqb_neq v value)) by lia.
    cbn. assert (List.filter (λ e, (e.1 =? value)%Z) l = []) as ->; [|done].
    clear -F Gt. induction F as [|[w j] l Fw F IH]; [done|]. cbn in *. by rewrite (proj2 (Z.eqb_neq w value)) by lia.
Qed.

(** The immediates of an instruction, and the positions of those with one. *)
Definition has_immediate (v : Z) (d : DecodedInstr) : bool :=
  existsb (λ o, is_immediate o.1 && (o.2 =? v)%Z) (operands (instr d)).
Fixpoint positions (test : DecodedInstr → bool) (n : nat) (l : list DecodedInstr) : list nat :=
  match l with
  | [] => []
  | d :: l => if test d then n :: positions test (S n) l else positions test (S n) l
  end.

Lemma immediates_from l seen : NoDup seen →
  let l' := foldl (λ seen o, if is_immediate o.1 then if decide (o.2 ∈ seen) then seen else seen ++ [o.2] else seen)
    seen (l : list (OpKind * Z)) in
  NoDup l' ∧ ∀ v, v ∈ l' ↔ v ∈ seen ∨ existsb (λ o, is_immediate o.1 && (o.2 =? v)%Z) l = true.
Proof.
  revert seen. induction l as [|[k w] l IH]; intros seen ND; cbn [foldl existsb fst snd].
  { split; [done|]. intros v. split; [auto|by intros [?|?]]. }
  set (seen' := if is_immediate k then _ else seen).
  assert (NoDup seen' ∧ ∀ v, v ∈ seen' ↔ v ∈ seen ∨ is_immediate k && (w =? v)%Z = true) as [ND' E].
  { unfold seen'. destruct (is_immediate k); cbn [andb]; [|split; [done|]; intros v; split; [auto|by intros [?|?]]].
    case_decide as D.
    - split; [done|]. intros v. split; [auto|]. intros [?|Ev%Z.eqb_eq]; [done|]. by subst.
    - split; [apply NoDup_app; split_and!; [done| |apply NoDup_singleton]; set_solver|].
      intros v. rewrite elem_of_app, list_elem_of_singleton, Z.eqb_eq. naive_solver. }
  destruct (IH seen' ND') as [N M]. split; [exact N|]. intros v. rewrite M, E, orb_true_iff. tauto.
Qed.
Lemma immediates_spec d : NoDup (immediates (instr d)) ∧
  ∀ v, v ∈ immediates (instr d) ↔ has_immediate v d = true.
Proof.
  destruct (immediates_from (operands (instr d)) []) as [N M]; [constructor|]. split; [exact N|].
  intros v. unfold immediates, has_immediate. rewrite M. split; [by intros [?%not_elem_of_nil|?]|auto].
Qed.
Lemma filter_tag v n l : NoDup l →
  List.filter (λ e : Z * nat, (e.1 =? v)%Z) (map (λ w, (w, n)) l) = if decide (v ∈ l) then [(v, n)] else [].
Proof.
  induction 1 as [|w l N ND IH]; [done|]. cbn [map List.filter fst]. rewrite IH.
  destruct (Z.eqb_spec w v) as [->|Ne].
  - by rewrite decide_False, decide_True by set_solver.
  - destruct (decide (v ∈ l)); [rewrite decide_True by set_solver|rewrite decide_False by set_solver]; done.
Qed.

Section loops.
Context {A : Type} (expired : nat → bool) (f : nat → DecodedInstr → list A).
(** What the loop collects when it is not stopped. *)
Fixpoint collected (n : nat) (l : list DecodedInstr) : list A :=
  match l with [] => [] | d :: l => f n d ++ collected (S n) l end.
Lemma each_collected n l r : each_instruction expired f n l = Some r → r = collected n l.
Proof.
  revert n r. induction l as [|d l IH]; intros n r; cbn [each_instruction collected]; [by intros [= <-]|].
  destruct (_ && _); [done|]. intros E. destruct (each_instruction expired f (S n) l) as [r'|] eqn:E'; [|done].
  cbn in E. injection E as <-. by rewrite (IH _ _ E').
Qed.
Lemma each_never n l : (∀ k, expired k = false) → each_instruction expired f n l = Some (collected n l).
Proof.
  intros N. revert n. induction l as [|d l IH]; intros n; [done|]. cbn [each_instruction collected].
  rewrite N, andb_false_r, IH. done.
Qed.
End loops.

(** The postings of the immediates, sorted. *)
Definition all_postings (code : list DecodedInstr) : list (Z * nat) :=
  sort_values (collected (λ position d, map (λ v, (v, position)) (immediates (instr d))) 0 code).
Lemma filter_postings v n code :
  List.filter (λ e : Z * nat, (e.1 =? v)%Z)
    (collected (λ position d, map (λ v, (v, position)) (immediates (instr d))) n code) =
  map (pair v) (positions (has_immediate v) n code).
Proof.
  revert n. induction code as [|d code IH]; intros n; [done|]. cbn [collected positions].
  destruct (immediates_spec d) as [N M]. rewrite List.filter_app, (filter_tag v n _ N), IH.
  destruct (has_immediate v d) eqn:E; [rewrite decide_True by by apply M|rewrite decide_False]; [done..|].
  rewrite M, E. done.
Qed.
Lemma positions_above test n code i : i ∈ positions test n code → n ≤ i.
Proof.
  revert n. induction code as [|d code IH]; intros n; cbn [positions]; [by intros ?%not_elem_of_nil|].
  destruct (test d); [intros [->|H%IH]%elem_of_cons; lia|intros H%IH; lia].
Qed.
Lemma tagged_sorted v test n code : StronglySorted value_le (map (pair v) (positions test n code)).
Proof.
  revert n. induction code as [|d code IH]; intros n; cbn [positions]; [constructor|].
  destruct (test d); [|done]. cbn [map]. constructor; [done|]. rewrite Forall_forall.
  intros e (i & -> & Hi%positions_above)%list_elem_of_fmap. right. cbn. lia.
Qed.
Lemma immediate_positions v code :
  instruction_indices v (all_postings code) = positions (has_immediate v) 0 code.
Proof.
  unfold instruction_indices. rewrite equal_range_filter by apply sort_values_sorted.
  assert (List.filter (λ e : Z * nat, (e.1 =? v)%Z) (all_postings code) =
          map (pair v) (positions (has_immediate v) 0 code)) as ->; [|by rewrite map_map, map_id].
  assert (AntiSymm (=) value_le) as AS.
  { intros [x i] [y j]. unfold value_le. cbn. intros ? ?. f_equal; lia. }
  apply (StronglySorted_unique value_le).
  - pose proof value_le_trans. pose proof value_le_total. apply list_filter_sorted, (StronglySorted_merge_sort value_le).
  - apply tagged_sorted.
  - rewrite <-filter_postings. apply list_filter_perm. apply merge_sort_Permutation.
Qed.

(** ** What a search finds *)

Section correct.
Context `{FM : !Formatter, RL : !RegexLib, LR : !LiteralRegex}.
Variable an : Analysed.
Notation p := (an_project an).
Notation code := (an_code_index an).

Definition text_of (d : DecodedInstr) : string := format (symbols p) (instr d).
Definition matching_code (test : DecodedInstr → bool) : list SearchHit :=
  map (λ d, InstructionHit (ip d) (text_of d)) (List.filter test code).
(** The reference: every instruction, symbol and string looked at, in order. *)
Definition everything (query : string) : list SearchHit :=
  match parse_number query with
  | Some value =>
      matching_code (has_immediate value) ++
      match Symbols.name (symbols p) value with Some name => [SymbolHit value name] | None => [] end ++
      search_symbols an query ++ search_strings an query
  | None =>
      search_symbols an query ++ search_strings an query ++
      match build_regex query with Some is_match => matching_code (λ d, is_match (text_of d)) | None => [] end
  end.
(** Caches made of this code and these symbols. *)
Definition fresh_caches (c : SearchCaches) : Prop :=
  (∀ texts, instruction_search c = Some texts → texts = map text_of code) ∧
  (∀ index, immediate_search c = Some index → index = all_postings code).

Lemma drop_cons {A} n (l : list A) x l' : drop n l = x :: l' → l !! n = Some x ∧ drop (S n) l = l'.
Proof.
  intros E. split; [|by rewrite <-Nat.add_1_r, <-drop_drop, E].
  rewrite <-(Nat.add_0_r n), <-lookup_drop, E. done.
Qed.
Lemma hits_at test n l : drop n code = l →
  mapM (immediate_hit an) (positions test n l) =
    Some (map (λ d, InstructionHit (ip d) (text_of d)) (List.filter test l)).
Proof.
  revert n. induction l as [|d l IH]; intros n D; [done|]. destruct (drop_cons _ _ _ _ D) as [L D'].
  cbn [positions List.filter]. destruct (test d); [|by apply IH].
  cbn [mapM map]. rewrite (IH (S n) D').
  assert (immediate_hit an n = Some (InstructionHit (ip d) (text_of d))) as -> by (unfold immediate_hit; by rewrite L).
  done.
Qed.
Lemma scan_from scanning is_match n l : drop n code = l →
  let full := map (λ d, InstructionHit (ip d) (text_of d)) (List.filter (λ d, is_match (text_of d)) l) in
  ∃ hits timed_out, scan_texts an scanning is_match n (map text_of l) = Some (hits, timed_out) ∧
    prefix hits full ∧ (timed_out = false → hits = full) ∧ ((∀ k, scanning k = false) → timed_out = false).
Proof.
  revert n. induction l as [|d l IH]; intros n D; cbn [map scan_texts]; [by eexists _, _; split_and!|].
  destruct (_ && scanning n) eqn:Late.
  { exists [], true. split_and!; [done|apply prefix_nil|done|]. intros N. by rewrite N, andb_false_r in Late. }
  destruct (drop_cons _ _ _ _ D) as [L D']. destruct (IH (S n) D') as (hits & t & E & Pr & Ex & Nv).
  cbn [List.filter]. destruct (is_match (text_of d)); rewrite ?L; cbn [mbind option_bind]; rewrite E.
  - cbn. eexists _, t. split_and!; [done|by apply prefix_cons| |done]. intros T. by rewrite Ex.
  - cbn. by exists hits, t.
Qed.

Lemma immediate_spec expired value c : fresh_caches c →
  ∃ hits timed_out c', search_immediate an expired value c = Some (hits, timed_out, c') ∧ fresh_caches c' ∧
    (timed_out = true → hits = []) ∧
    (timed_out = false → hits = matching_code (has_immediate value) ++
       match Symbols.name (symbols p) value with Some name => [SymbolHit value name] | None => [] end) ∧
    ((∀ k, expired k = false) → timed_out = false).
Proof.
  intros [FT FI]. unfold search_immediate.
  destruct (match immediate_search c with Some index => Some index | None => _ end) as [index|] eqn:E.
  - assert (index = all_postings code) as ->.
    { destruct (immediate_search c) as [i|]; [injection E as <-; by apply FI|]. unfold build_immediates in E.
      destruct (each_instruction _ _ _ _) as [l|] eqn:El; [|done]. apply each_collected in El as ->. by injection E as <-. }
    rewrite immediate_positions, hits_at by done. cbn [mbind option_bind]. eexists _, false, _.
    split_and!; [done|split; cbn; [done|by intros ? [= <-]]|done..].
  - exists [], true, c. split_and!; [done|done|done|done|]. intros N. destruct (immediate_search c); [done|].
    unfold build_immediates in E. by rewrite each_never in E.
Qed.
Lemma regex_spec building scanning is_match c : fresh_caches c →
  let full := matching_code (λ d, is_match (text_of d)) in
  ∃ hits timed_out c', search_instructions_regex an building scanning is_match c = Some (hits, timed_out, c') ∧
    fresh_caches c' ∧ prefix hits full ∧ (timed_out = false → hits = full) ∧
    ((∀ k, building k = false) → (∀ k, scanning k = false) → timed_out = false).
Proof.
  intros [FT FI]. unfold search_instructions_regex.
  destruct (match instruction_search c with Some texts => Some texts | None => _ end) as [texts|] eqn:E.
  - assert (texts = map text_of code) as ->.
    { destruct (instruction_search c) as [i|]; [injection E as <-; by apply FT|].
      apply each_collected in E as ->. clear. generalize 0. induction code as [|d l IH]; intros n; [done|].
      cbn. by rewrite IH. }
    destruct (scan_from scanning is_match 0 code eq_refl) as (hits & t & -> & Pr & Ex & Nv).
    cbn [mbind option_bind]. eexists _, _, _. split_and!; [done|split; cbn; [by intros ? [= <-]|done]|done|done|auto].
  - exists [], true, c. split_and!; [done|done|apply prefix_nil|done|]. intros N _.
    destruct (instruction_search c); [done|]. unfold build_texts in E. by rewrite each_never in E.
Qed.

(** With caches of the present code and symbols a search answers, keeps
    such caches, and in time finds exactly what looking at every instruction,
    symbol and string finds, in order; stopped by the deadline it says so and
    what it found is part of that. *)
Theorem search_exact building scanning query c : query ≠ "" → fresh_caches c →
  ∃ outcome c', search_everything_bounded an building scanning query c = Some (outcome, c') ∧ fresh_caches c' ∧
    sublist (so_hits outcome) (everything query) ∧
    (so_timed_out outcome = false → so_hits outcome = everything query) ∧
    ((∀ k, building k = false) → (∀ k, scanning k = false) → so_timed_out outcome = false).
Proof.
  intros Ne FC. unfold search_everything_bounded, everything, is_empty_str. rewrite bool_decide_false by done.
  destruct (parse_number query) as [value|].
  - destruct (immediate_spec building value c FC) as (hits & t & c' & -> & FC' & T & Ex & Nv).
    cbn [mbind option_bind]. eexists _, _. split; [done|]. cbn [so_hits so_timed_out]. split_and!; [done| |..].
    + destruct t; [rewrite T by done|rewrite Ex by done; by rewrite <-app_assoc].
      cbn [app]. rewrite app_assoc. by apply sublist_inserts_l.
    + intros E. by rewrite Ex, <-app_assoc.
    + auto.
  - destruct (build_regex query) as [is_match|].
    + destruct (regex_spec building scanning is_match c FC) as (hits & t & c' & -> & FC' & Pr & Ex & Nv).
      cbn [mbind option_bind]. eexists _, _. split; [done|]. cbn [so_hits so_timed_out]. rewrite <-app_assoc. split_and!; [done| |..].
      * apply sublist_app; [done|]. apply sublist_app; [done|]. destruct Pr as [r ->]. by apply sublist_inserts_r.
      * intros E. by rewrite Ex.
      * auto.
    + eexists _, _. split; [done|]. cbn [so_hits so_timed_out]. by rewrite app_nil_r.
Qed.

(** *** Pages *)

Definition clamped (limit : nat) : nat := Nat.max 1 (Nat.min limit 128).
Definition fast_text (hit : SearchHit) : string :=
  match hit with StringHit offset value => "str @" +:+ hex offset +:+ ": " +:+ value | _ => render_hit hit end.
(** What the pages are cut from. *)
Definition page_source (query : string) (fast_only : bool) : list string :=
  if fast_only then
    if negb (String.prefix "/" query) && bool_decide (parse_number query = None)
    then map fast_text (search_symbols an query ++ search_strings an query) else []
  else map render_hit (everything query).
(** The page at an offset. *)
Definition cut (source : list string) (offset limit : nat) (pg : SearchSummaryPage) : Prop :=
  pg_hits pg = take (clamped limit) (drop offset source) ∧ pg_total pg = length source ∧
  pg_next_offset pg = next_of (offset + length (pg_hits pg)) (length source) ∧
  pg_truncated pg = bool_decide (is_Some (pg_next_offset pg)).

Lemma fast_match_cut offset limit source shown :
  fast_match offset limit (take limit (drop offset source), length source) shown =
    (take limit (drop offset (source ++ [shown])), length (source ++ [shown])).
Proof.
  unfold fast_match. cbn [fst snd]. rewrite length_app, Nat.add_1_r. f_equal.
  rewrite length_take, length_drop. destruct (Nat.leb_spec offset (length source)) as [Le|Gt]; cbn [andb].
  - rewrite drop_app_le by done. destruct (Nat.ltb_spec (limit `min` (length source - offset)) limit).
    + rewrite !take_ge by (rewrite ?length_app, ?length_drop; cbn; lia). done.
    + rewrite take_app_le by (rewrite length_drop; lia). done.
  - rewrite !drop_ge by (rewrite ?length_app; cbn; lia). done.
Qed.
(** A loop that shows the elements that match. *)
Lemma fast_loop {E} (f : list string * nat → E → list string * nat) (show : E → option SearchHit) offset limit :
  (∀ s e, f s e = match show e with Some hit => fast_match offset limit s (fast_text hit) | None => s end) →
  ∀ l source, foldl f (take limit (drop offset source), length source) l =
    let all := source ++ map fast_text (omap show l) in (take limit (drop offset all), length all).
Proof.
  intros H. induction l as [|e l IH]; intros source; cbn [foldl]; [by rewrite app_nil_r|].
  rewrite H. cbn [omap list_omap]. destruct (show e) as [hit|]; [|by rewrite IH].
  rewrite fast_match_cut, IH. cbv zeta. by rewrite <-app_assoc.
Qed.
Lemma fast_loops query offset limit :
  let shown := map fast_text (search_symbols an query ++ search_strings an query) in
  foldl (fast_string query offset limit) (foldl (fast_symbol query offset limit) ([], 0) (Symbols.entries (symbols p)))
    (an_strings an) = (take limit (drop offset shown), length shown).
Proof.
  assert ((@nil string, 0) = (take limit (drop offset (@nil string)), length (@nil string))) as ->
    by by rewrite drop_nil, take_nil.
  rewrite (fast_loop _ (λ '(va, name, _), if contains_ascii_case_insensitive name query
                         then Some (SymbolHit va name) else None)).
  2: { intros s [[va name] k]. unfold fast_symbol. cbn. by destruct (contains_ascii_case_insensitive name query). }
  cbv zeta. rewrite (fast_loop _ (λ '(o, v), if contains_ascii_case_insensitive v query
                         then Some (StringHit o v) else None)).
  2: { intros s [o v]. unfold fast_string. cbn. by destruct (contains_ascii_case_insensitive v query). }
  cbv zeta. rewrite map_app. done.
Qed.
Lemma next_truncated next total : (next <? total) = bool_decide (is_Some (next_of next total)).
Proof. unfold next_of. destruct (next <? total); [by rewrite bool_decide_true|by rewrite bool_decide_false by (by intros [])]. Qed.
Lemma page_cut building scanning query offset limit fast_only c :
  query ≠ "" → fresh_caches c → (∀ k, building k = false) → (∀ k, scanning k = false) →
  ∃ pg c', search_summary_page an building scanning query offset limit fast_only c = Some (pg, c') ∧
    fresh_caches c' ∧ pg_timed_out pg = false ∧ cut (page_source query fast_only) offset limit pg.
Proof.
  intros Ne FC Nb Ns. unfold search_summary_page, page_source. fold (clamped limit).
  unfold is_empty_str. rewrite bool_decide_false by done.
  destruct fast_only; cbn [andb].
  - destruct (negb _ && _).
    + rewrite (fast_loops query offset (clamped limit)). eexists _, c. split; [done|].
      split_and!; [done|done|]. split_and!; [done|done|done|]. cbn. apply next_truncated.
    + eexists _, c. split; [done|]. split_and!; [done|done|]. unfold cut. cbn. rewrite drop_nil, take_nil.
      split_and!; try done.
  - destruct (search_exact building scanning query c Ne FC) as (outcome & c' & -> & FC' & _ & Ex & Nv).
    cbn [mbind option_bind]. eexists _, c'. split; [done|]. rewrite Ex by auto.
    split_and!; [done|by apply Nv|]. unfold cut. cbn. rewrite skipn_map, firstn_map, !length_map.
    split_and!; try done. apply next_truncated.
Qed.

(** Following the offsets, with no deadline. *)
Fixpoint pages_from (fuel : nat) (query : string) (limit : nat) (fast_only : bool) (offset : nat) (c : SearchCaches)
    : option (list string) :=
  match fuel with
  | 0 => None
  | S fuel =>
      '(pg, c) ← search_summary_page an (λ _, false) (λ _, false) query offset limit fast_only c;
      match pg_next_offset pg with
      | Some next => app (pg_hits pg) <$> pages_from fuel query limit fast_only next c
      | None => Some (pg_hits pg)
      end
  end.
(** Pages taken from the first one on list what they are cut from, each once. *)
Theorem pages_list_source query limit fast_only offset c fuel :
  query ≠ "" → fresh_caches c → length (page_source query fast_only) - offset < fuel →
  pages_from fuel query limit fast_only offset c = Some (drop offset (page_source query fast_only)).
Proof.
  intros Ne. set (source := page_source query fast_only). revert offset c.
  induction fuel as [|fuel IH]; intros offset c FC F; [lia|]. cbn [pages_from].
  destruct (page_cut (λ _, false) (λ _, false) query offset limit fast_only c) as (pg & c' & -> & FC' & _ & H & _ & N & _);
    [done..|]. fold source in H, N. cbn [mbind option_bind]. rewrite N. unfold next_of.
  rewrite H, length_take, length_drop. assert (1 ≤ clamped limit) by (unfold clamped; lia).
  destruct (Nat.ltb_spec (offset + clamped limit `min` (length source - offset)) (length source)) as [Lt|Ge].
  - rewrite IH by (done || lia). cbn. f_equal. rewrite <-(take_drop (clamped limit) (drop offset source)) at 2.
    rewrite drop_drop. do 2 f_equal. lia.
  - by rewrite take_ge by (rewrite length_drop; lia).
Qed.
End correct.

(** ** A sample, and what the caches miss *)

#[export] Instance sample_literal : LiteralRegex := {|
  literal_regex query := Some (λ text, contains (normalize_ascii query) (normalize_ascii text))
|}.
Lemma no_caches_fresh `{!Formatter} an : fresh_caches an no_caches.
Proof. by split. Qed.
Lemma search_exact_witness :
  ∃ outcome c, search_everything_bounded sample_analysed (λ _, false) (λ _, false) "ENTRY" no_caches = Some (outcome, c) ∧
    so_hits outcome = [SymbolHit 0x1000 "Entry"; InstructionHit 0x1010 "call Entry"].
Proof.
  destruct (search_exact sample_analysed (λ _, false) (λ _, false) "ENTRY" no_caches)
    as (outcome & c & E & _ & _ & Ex & Nv); [done|by apply no_caches_fresh|].
  exists outcome, c. split; [exact E|]. rewrite Ex by by apply Nv. vm_compute. reflexivity.
Defined.

(** The texts are made once: after a rename a search still sees the old name in
    the instructions, and not the new one. *)
Definition sample_renamed : Analysed :=
  mkAnalysed (sample_image (<[0x1000%Z := mkSymbol "Start" User]> sample_symbols) {[ 0x1005%Z := "opens the log" ]} 1)
    (an_code_index sample_analysed) (an_xrefs sample_analysed) (an_space sample_analysed) (an_strings sample_analysed).
Lemma renamed_text_stays :
  match search_everything sample_analysed "entry" no_caches with
  | Some (_, c) =>
      fst <$> search_everything sample_renamed "start" c = Some [SymbolHit 0x1000 "Start"] ∧
      everything sample_renamed "start" = [SymbolHit 0x1000 "Start"; InstructionHit 0x1010 "call Start"] ∧
      fst <$> search_everything sample_renamed "entry" c = Some [InstructionHit 0x1010 "call Entry"]
  | None => False
  end.
Proof. vm_compute. by split_and!. Qed.
