(* ===== verification/MemWalk.v ===== *)
(** Structured reads of memory for agents, [src/analysis/mem_walk.rs], with the
    strings of [src/llm/query.rs] they resolve pointers to.

    A [Value] is a JSON document; an object is its entries, of which [insert]
    replaces or adds one. *)

From Stdlib Require Import Strings.Byte Strings.Ascii Strings.String.
From stdpp Require Import pretty.
From S2P Require Import Prelude Text Data Ops Journal Activity MemoryMap Loader CodeIndex Callees Indirect BelBuild.
Import AddressSpace.

Local Open Scope string_scope.
Local Open Scope list_scope.
Local Open Scope nat_scope.

(** ** Documents *)

Inductive Value :=
  | VNull
  | VBool (b : bool)
  | VNum (n : Z)
  | VStr (s : string)
  | VArr (l : list Value)
  | VObj (m : list (string * Value)).
Notation Map := (list (string * Value)).

Definition obj_get (k : string) (m : Map) : option Value :=
  snd <$> find_first (λ e, String.eqb e.1 k) m.
(** [Map::insert] *)
Fixpoint obj_insert (k : string) (v : Value) (m : Map) : Map :=
  match m with
  | [] => [(k, v)]
  | (k', v') :: m => if String.eqb k' k then (k, v) :: m else (k', v') :: obj_insert k v m
  end.
Definition kind (s : string) : string * Value := ("kind", VStr s).
Definition va_text (va : Z) : Value := VStr (alt_hex va).
Definition is_kind (s : string) (m : Map) : bool :=
  match obj_get "kind" m with Some (VStr k) => String.eqb k s | _ => false end.

Definition MAX_POINTER_COUNT : nat := 256.
Definition MAX_WALK_NODES : nat := 128.
Definition MAX_STRUCT_ARRAY : nat := 64.
Definition MAX_FIELDS_PER_NODE : nat := 16.
(** [clamp(1, max)] *)
Definition clamp (max n : nat) : nat := Nat.max 1 (Nat.min n max).

Record FieldSpec := mkField {
  fs_name : string;
  fs_offset : Z;
  fs_kind : string;
  fs_size : option nat
}.

(** ** Strings *)

Record StringRef := mkStringRef { sr_va : Z; sr_value : string; sr_encoding : string }.

Definition is_ascii_whitespace (n : Z) : bool := bool_decide (n ∈ [9; 10; 12; 13; 32]%Z).
(** [is_ascii_graphic() || is_ascii_whitespace()] *)
Definition is_text (n : Z) : bool := ((33 <=? n) && (n <=? 126))%Z || is_ascii_whitespace n.
Definition char_of (n : Z) : ascii := ascii_of_nat (Z.to_nat n).

(** The text up to the first byte that is not text. *)
Fixpoint text_run (bs : bytes) : string :=
  match bs with
  | [] => ""
  | b :: bs => if is_text (byte_val b) then String (char_of (byte_val b)) (text_run bs) else ""
  end.

(** The code units up to a zero; [None] when one is not printable. *)
Fixpoint wide_units (max : nat) (bs : bytes) : option (list Z) :=
  match max, bs with
  | S max, lo :: hi :: bs =>
      let u := (byte_val lo + 256 * byte_val hi)%Z in
      if (u =? 0)%Z then Some []
      else if ((u <? 32) && negb (bool_decide (u ∈ [9; 10; 13])))%Z then None
      else if ((127 <=? u) && (u <? 160))%Z then None
      else cons u <$> wide_units max bs
  | _, _ => Some []
  end.

Section walk.
Variable p : Project.
Variable a : AddressSpace.
Variable image : bytes.
Variable bitness : Z.
(** [triage.sections]: name, address and size; [None] when the header has none. *)
Variable triage : option (list (string * Z * Z)).

(** [read_printable_asciiz] *)
Definition read_printable_asciiz (va : Z) (max_len min_len : nat) : option string :=
  bs ← slice_for_va a image va (Z.of_nat max_len);
  let run := text_run bs in
  if String.length run <? min_len then None else Some run.

(** [read_printable_utf16le]. Units that are no text in ASCII are refused, with
    or without being valid UTF-16. *)
Definition read_printable_utf16le (va : Z) (max_chars min_len : nat) : option string :=
  bs ← slice_for_va a image va (Z.of_nat (max_chars * 2 + 2));
  if length bs <? 2 then None
  else
    units ← wide_units max_chars bs;
    if length units <? min_len then None
    else if forallb is_text units then Some (string_of_list_ascii (map char_of units)) else None.

(** [try_read_string_at_va] *)
Definition try_read_string_at_va (va : Z) (min_len : nat) : option StringRef :=
  match read_printable_asciiz va 256 min_len with
  | Some s => Some (mkStringRef va s "ascii")
  | None =>
      match read_printable_utf16le va 256 min_len with
      | Some s => Some (mkStringRef va s "utf16")
      | None => None
      end
  end.

(** ** Resolved pointers *)

Definition ptr_size : nat := Z.to_nat (bitness / 8).
Definition pointer_at (va : Z) : Z := read_pointer a image va ptr_size.

(** [section_name_at]; the offset is truncated to 32 bits. *)
Definition section_name_at (va : Z) : option string :=
  section ← section_at_va a va;
  let rva := ((va -sat image_base a) mod 2 ^ 32)%Z in
  match triage ≫= find_first (λ '(_, start, size), (start <=? rva)%Z && (rva <? sat_add32 start (Z.max 1 size))%Z) with
  | Some (name, _, _) => Some name
  | None => Some ("sect_" +:+ hex (vaddr section))
  end.

Definition symbol_kind_text (k : SymbolKind) : string :=
  match k with
  | Import_ => "import" | Export_ => "export" | Function_ => "function" | Data_ => "data" | User => "user"
  end.
(** [name.strip_prefix("__imp_").unwrap_or(name)] *)
Definition import_name (name : string) : string := default name (strip_prefix "__imp_" name).
Definition is_import_slot (name : string) : bool := String.prefix "__imp_" name.
Notation f_name f := (function_name (symbols p) f).

(** [Function::size], [Function::block_last_len] of analysis/functions.rs *)
Definition block_last_len (b : Functions.BasicBlock) : Z :=
  if Functions.bb_instr_count b =? 0 then 0%Z
  else ((Functions.bb_exit_va b - Functions.bb_entry_va b + 1) / Z.of_nat (Functions.bb_instr_count b))%Z.
Definition function_size (f : Functions.Function) : Z :=
  match last (Functions.fn_blocks f) with
  | Some b => ((Functions.bb_exit_va b -sat Functions.fn_entry_va f) + block_last_len b)%Z
  | None => 0%Z
  end.

(** [resolve_value_shallow] *)
Definition resolve_value_shallow (va : Z) : Value :=
  if (va =? 0)%Z then VObj [kind "null"]
  else
    let m := [("va", va_text va)] in
    let name := Symbols.name (symbols p) va in
    let m := match name with Some name => obj_insert "symbol" (VStr name) m | None => m end in
    match name, function_at p va, try_read_string_at_va va 2 with
    | Some name, f, s =>
        if is_import_slot name
        then VObj (obj_insert "import" (VStr (import_name name)) (obj_insert "kind" (VStr "import") m))
        else
          match f, s with
          | Some f, _ => VObj (obj_insert "function" (VStr (f_name f)) (obj_insert "kind" (VStr "function") m))
          | None, Some s => VObj (obj_insert "string" (VStr (sr_value s)) (obj_insert "kind" (VStr "string") m))
          | None, None => VObj (obj_insert "kind" (VStr "pointer") m)
          end
    | None, Some f, _ => VObj (obj_insert "function" (VStr (f_name f)) (obj_insert "kind" (VStr "function") m))
    | None, None, Some s => VObj (obj_insert "string" (VStr (sr_value s)) (obj_insert "kind" (VStr "string") m))
    | None, None, None => VObj (obj_insert "kind" (VStr "pointer") m)
    end.

(** The steps of [resolve_value]: symbol, function or code, string, section, and
    what a plain pointer points to. *)
Definition add_symbol (va : Z) (m : Map) : Map :=
  match Symbols.get (symbols p) va with
  | Some sym =>
      let m := obj_insert "symbol_kind" (VStr (symbol_kind_text (sym_kind sym)))
                 (obj_insert "symbol" (VStr (sym_name sym)) m) in
      if is_import_slot (sym_name sym)
      then obj_insert "kind" (VStr "import") (obj_insert "import" (VStr (import_name (sym_name sym))) m) else m
  | None => m
  end.
Definition add_function_at (va : Z) (m : Map) : Map :=
  match function_at p va with
  | Some f =>
      obj_insert "size" (VNum (function_size f)) (obj_insert "entry_va" (va_text (Functions.fn_entry_va f))
        (obj_insert "function" (VStr (f_name f)) (obj_insert "kind" (VStr "function") m)))
  | None => if is_executable_va a va then obj_insert "kind" (VStr "code") m else m
  end.
Definition string_value (s : StringRef) : Value :=
  VObj [("value", VStr (sr_value s)); ("encoding", VStr (sr_encoding s))].
Definition add_string_at (va : Z) (m : Map) : Map :=
  match try_read_string_at_va va 2 with
  | Some s =>
      let m := if is_kind "pointer" m || is_kind "code" m && negb (bool_decide (is_Some (obj_get "function" m)))
               then obj_insert "kind" (VStr "string") m else m in
      obj_insert "string" (string_value s) m
  | None => m
  end.
Definition add_section (va : Z) (m : Map) : Map :=
  match section_name_at va with Some s => obj_insert "section" (VStr s) m | None => m end.
Definition add_target (va : Z) (m : Map) : Map :=
  if is_kind "pointer" m then
    let inner := pointer_at va in
    if negb (inner =? 0)%Z && is_valid_va a inner then obj_insert "points_to" (resolve_value_shallow inner) m else m
  else m.
(** [resolve_value] *)
Definition resolve_value (va : Z) : Value :=
  if (va =? 0)%Z then VObj [kind "null"]
  else VObj (add_target va (add_section va (add_string_at va (add_function_at va (add_symbol va
         [kind "pointer"; ("va", va_text va)]))))).

(** What is shown of a pointer's value. *)
Definition resolved (value : Z) : Value :=
  if negb (value =? 0)%Z && is_valid_va a value then resolve_value value
  else if (value =? 0)%Z then VObj [kind "null"]
  else VObj [kind "unmapped"; ("va", va_text value)].
Definition cite (k : string) (va : Z) : string * Value := ("cite", VObj [kind k; ("va", va_text va)]).

(** ** Tables of pointers *)

(** The entries from slot [i] on; the product with the stride wraps around. *)
Fixpoint pointer_entries (va stride : Z) (i count : nat) : list Value :=
  match count with
  | 0 => []
  | S count =>
      let slot := (va +sat (Z.of_nat i * stride) mod 2 ^ 64)%Z in
      if is_valid_va a slot then
        let value := pointer_at slot in
        VObj [("slot_va", va_text slot); ("value", va_text value); ("resolved", resolved value)]
          :: pointer_entries va stride (S i) count
      else []
  end.
(** [read_pointers] *)
Definition read_pointers (va : Z) (count : nat) (stride : option Z) : Value :=
  let count := clamp MAX_POINTER_COUNT count in
  let stride := Z.max 1 (default (Z.of_nat ptr_size) stride) in
  let entries := pointer_entries va stride 0 count in
  VObj [("va", va_text va); ("count", VNum (Z.of_nat (length entries))); ("stride", VNum stride);
        ("ptr_size", VNum (Z.of_nat ptr_size)); ("entries", VArr entries); cite "data" va].

(** ** Fields *)

(** [slice_for_va(..).unwrap_or_default()] *)
Definition slice_or_empty (va : Z) (len : nat) : bytes := default [] (slice_for_va a image va (Z.of_nat len)).
Definition signed (width : Z) (v : Z) : Z := if (v <? 2 ^ (width - 1))%Z then v else (v - 2 ^ width)%Z.
Definition hex_byte (b : byte) : string :=
  let n := byte_val b in if (n <? 16)%Z then "0" +:+ hex n else hex n.

(** [decode_field] *)
Definition decode_field (va : Z) (k : string) (size : option nat) : Value :=
  if negb (is_valid_va a va) then VObj [("error", VStr "unmapped"); ("va", va_text va)]
  else if bool_decide (k = "ptr" ∨ k = "pointer") then
    let value := pointer_at va in VObj [("raw", va_text value); ("resolved", resolved value)]
  else if bool_decide (k = "string") then
    let value := pointer_at va in
    match (if (value =? 0)%Z then None else try_read_string_at_va value 1), try_read_string_at_va va 1 with
    | Some s, _ => VObj [("ptr", va_text value); ("value", VStr (sr_value s)); ("encoding", VStr (sr_encoding s))]
    | None, Some s => VObj [("inline", VBool true); ("value", VStr (sr_value s)); ("encoding", VStr (sr_encoding s))]
    | None, None => VObj [("raw_ptr", va_text value); ("string", VNull)]
    end
  else if bool_decide (k = "u32") then VNum (read_uint_le 4 (slice_or_empty va 4))
  else if bool_decide (k = "u64") then va_text (read_uint_le 8 (slice_or_empty va 8))
  else if bool_decide (k = "i32") then VNum (signed 32 (read_uint_le 4 (slice_or_empty va 4)))
  else if bool_decide (k = "i64") then VNum (signed 64 (read_uint_le 8 (slice_or_empty va 8)))
  else if bool_decide (k = "bytes") then
    let bs := slice_or_empty va (clamp 64 (default 8 size)) in
    VObj [("len", VNum (Z.of_nat (length bs))); ("hex", VStr (join " " (map hex_byte bs)))]
  else VObj [("error", VStr ("unknown field kind '" +:+ k +:+ "'"))].

(** The fields at an address, by name. *)
Definition decode_fields (base : Z) (fields : list FieldSpec) : Map :=
  foldl (λ m f, obj_insert (fs_name f) (decode_field (base +sat fs_offset f) (fs_kind f) (fs_size f)) m)
    [] (take MAX_FIELDS_PER_NODE fields).

(** ** Lists *)

Definition next_of_node (next_offset cur : Z) : Z := pointer_at (cur +sat next_offset).
Definition list_node (next_offset : Z) (fields : list FieldSpec) (cur : Z) : Value :=
  VObj [("va", va_text cur); ("fields", VObj (decode_fields cur fields));
        ("next", va_text (next_of_node next_offset cur))].
(** The loop: the nodes, where it stands, and why it stopped. *)
Fixpoint walk_loop (next_offset : Z) (fields : list FieldSpec) (rounds : nat) (cur : Z) (seen : list Z)
    : list Value * Z * option string :=
  match rounds with
  | 0 => ([], cur, None)
  | S rounds =>
      if (cur =? 0)%Z then ([], cur, Some "null")
      else if negb (is_valid_va a cur) then ([], cur, Some "unmapped")
      else if decide (cur ∈ seen) then ([], cur, Some "cycle")
      else
        let '(nodes, last, died) := walk_loop next_offset fields rounds (next_of_node next_offset cur) (cur :: seen) in
        (list_node next_offset fields cur :: nodes, last, died)
  end.
(** The nodes and the reason [walk_list] reports. *)
Definition walk_nodes (head_va next_offset : Z) (max_nodes : nat) (fields : list FieldSpec)
    : list Value * option string :=
  let max_nodes := clamp MAX_WALK_NODES max_nodes in
  let '(nodes, cur, died) := walk_loop next_offset fields max_nodes head_va [] in
  (nodes, if bool_decide (died = None) && negb (cur =? 0)%Z && (max_nodes <=? length nodes)
          then Some "node_cap" else died).
(** [walk_list] *)
Definition walk_list (head_va next_offset : Z) (max_nodes : nat) (fields : list FieldSpec) : Value :=
  let '(nodes, died) := walk_nodes head_va next_offset max_nodes fields in
  VObj [("head_va", va_text head_va); ("next_offset", VNum next_offset); ("nodes", VArr nodes);
        ("count", VNum (Z.of_nat (length nodes)));
        ("died", match died with Some s => VStr s | None => VNull end); cite "data" head_va].

(** ** Arrays of structures *)

Fixpoint struct_items (va stride : Z) (fields : list FieldSpec) (i count : nat) : list Value :=
  match count with
  | 0 => []
  | S count =>
      let base := (va +sat (Z.of_nat i * stride) mod 2 ^ 64)%Z in
      if is_valid_va a base then
        VObj [("index", VNum (Z.of_nat i)); ("va", va_text base); ("fields", VObj (decode_fields base fields))]
          :: struct_items va stride fields (S i) count
      else []
  end.
(** [read_struct_array] *)
Definition read_struct_array (va stride : Z) (count : nat) (fields : list FieldSpec) : Value :=
  let stride := Z.max 1 stride in
  let items := struct_items va stride fields 0 (clamp MAX_STRUCT_ARRAY count) in
  VObj [("va", va_text va); ("stride", VNum stride); ("count", VNum (Z.of_nat (length items)));
        ("items", VArr items); cite "data" va].

(** ** One address *)

(** [containing_function] *)
Definition containing_function (va : Z) : option Functions.Function :=
  find_first (λ f,
    (Functions.fn_entry_va f <=? va)%Z &&
    (va <=? match last (Functions.fn_blocks f) with
            | Some b => Functions.bb_exit_va b
            | None => Functions.fn_entry_va f
            end)%Z) (btree_values (functions p)).

Definition describe_symbol (va : Z) (m : Map) : Map :=
  match Symbols.get (symbols p) va with
  | Some sym =>
      let m := obj_insert "symbol_kind" (VStr (symbol_kind_text (sym_kind sym)))
                 (obj_insert "symbol" (VStr (sym_name sym)) m) in
      if bool_decide (sym_kind sym = Import_) || is_import_slot (sym_name sym)
      then obj_insert "import" (VStr (import_name (sym_name sym))) m else m
  | None => m
  end.
Definition describe_function (va : Z) (m : Map) : Map :=
  match function_at p va, containing_function va with
  | Some f, _ =>
      obj_insert "function" (VObj [("name", VStr (f_name f)); ("entry_va", va_text (Functions.fn_entry_va f));
                                   ("size", VNum (function_size f))]) m
  | None, Some f =>
      obj_insert "containing_function"
        (VObj [("name", VStr (f_name f)); ("entry_va", va_text (Functions.fn_entry_va f));
               ("offset", VNum (va -sat Functions.fn_entry_va f))]) m
  | None, None => m
  end.
Definition describe_string (va : Z) (m : Map) : Map :=
  match try_read_string_at_va va 2 with Some s => obj_insert "string" (string_value s) m | None => m end.
Definition describe_pointer (va : Z) (m : Map) : Map :=
  if is_valid_va a va && negb (is_executable_va a va) then
    let value := pointer_at va in
    if negb (value =? 0)%Z && is_valid_va a value
    then obj_insert "as_pointer" (VObj [("value", va_text value); ("resolved", resolve_value_shallow value)]) m else m
  else m.
(** [describe_address] *)
Definition describe_address (va : Z) : Value :=
  VObj (obj_insert "cite" (VObj [kind "address"; ("va", va_text va)])
    (describe_pointer va (describe_string va (describe_function va (describe_symbol va (add_section va
      [("va", va_text va); ("mapped", VBool (is_valid_va a va));
       ("executable", VBool (is_executable_va a va))])))))).
End walk.

(** ** What a walk visits *)

Section facts.
Variable p : Project.
Variable a : AddressSpace.
Variable image : bytes.
Variable bitness : Z.
Variable triage : option (list (string * Z * Z)).
Variable next_offset : Z.
Variable fields : list FieldSpec.
Notation next := (next_of_node a image bitness next_offset).
Notation node := (list_node p a image bitness triage next_offset fields).

(** The address the list has at position [i]. *)
Fixpoint chain (head : Z) (i : nat) : Z := match i with 0 => head | S i => chain (next head) i end.
(** [k] nodes from [head] on that are mapped, and neither repeated nor among
    [seen]. *)
Definition visits (head : Z) (seen : list Z) (k : nat) : Prop :=
  ∀ i, i < k → chain head i ≠ 0%Z ∧ is_valid_va a (chain head i) = true ∧ chain head i ∉ seen ∧
    ∀ j, j < i → chain head j ≠ chain head i.
(** Why there is no node at position [k]. *)
Definition stops (head : Z) (seen : list Z) (k : nat) (died : string) : Prop :=
  died = "null" ∧ chain head k = 0%Z ∨
  died = "unmapped" ∧ chain head k ≠ 0%Z ∧ is_valid_va a (chain head k) = false ∨
  died = "cycle" ∧ chain head k ≠ 0%Z ∧
    (chain head k ∈ seen ∨ ∃ j, j < k ∧ chain head j = chain head k).

Lemma walk_spec rounds head seen :
  let '(nodes, cur, died) := walk_loop p a image bitness triage next_offset fields rounds head seen in
  ∃ k, k ≤ rounds ∧ nodes = map (λ i, node (chain head i)) (seq 0 k) ∧ visits head seen k ∧ cur = chain head k ∧
    match died with Some d => k < rounds ∧ stops head seen k d | None => k = rounds end.
Proof.
  revert head seen. induction rounds as [|rounds IH]; intros head seen; cbn [walk_loop].
  { exists 0. split_and!; try done. intros i ?. lia. }
  destruct (Z.eqb_spec head 0) as [->|Nz].
  { exists 0. split_and!; [lia|done|intros i ?; lia|done|lia|by left]. }
  destruct (is_valid_va a head) eqn:V; cbn [negb].
  2: { exists 0. split_and!; [lia|done|intros i ?; lia|done|lia|]. right. left. done. }
  case_decide as D.
  { exists 0. split_and!; [lia|done|intros i ?; lia|done|lia|]. right. right. auto. }
  specialize (IH (next head) (head :: seen)).
  destruct (walk_loop _ _ _ _ _ _ _ _ _ _) as [[nodes cur] died]. destruct IH as (k & Le & -> & Vi & -> & St).
  exists (S k). split_and!; [lia| | |done|].
  - cbn [seq map]. rewrite <-seq_shift, map_map. reflexivity.
  - intros [|i] Hi; [split_and!; [done..|intros j ?; lia]|].
    destruct (Vi i) as (N1 & N2 & N3 & N4); [lia|]. cbn [chain]. split_and!; [done|done|set_solver|].
    intros [|j] Hj; cbn [chain]; [set_solver|apply N4; lia].
  - destruct died as [d|]; [|by rewrite St]. destruct St as [Lt St]. split; [lia|]. cbn [chain].
    destruct St as [[-> Z0]|[(-> & Nz' & V')|(-> & Nz' & C)]]; [by left|by right; left|]. right. right.
    split_and!; [done|done|]. destruct C as [[E|C]%elem_of_cons|(j & Hj & E)].
    + right. exists 0. split; [lia|done].
    + by left.
    + right. exists (S j). split; [lia|done].
Qed.

(** A walk lists the nodes of the chain from its head, in order, each
    mapped and none twice, up to the first that is null, unmapped or was seen, or
    to the cap; and it says which of these ended it. *)
Theorem walk_list_exact head max_nodes :
  let '(nodes, died) := walk_nodes p a image bitness triage head next_offset max_nodes fields in
  ∃ k, k ≤ clamp MAX_WALK_NODES max_nodes ∧ nodes = map (λ i, node (chain head i)) (seq 0 k) ∧ visits head [] k ∧
    match died with
    | Some d => k < clamp MAX_WALK_NODES max_nodes ∧ stops head [] k d ∨
                d = "node_cap" ∧ k = clamp MAX_WALK_NODES max_nodes ∧ chain head k ≠ 0%Z
    | None => k = clamp MAX_WALK_NODES max_nodes ∧ chain head k = 0%Z
    end.
Proof.
  unfold walk_nodes. pose proof (walk_spec (clamp MAX_WALK_NODES max_nodes) head []) as W.
  destruct (walk_loop _ _ _ _ _ _ _ _ _ _) as [[nodes cur] died]. destruct W as (k & Le & -> & Vi & -> & St).
  exists k. rewrite length_map, length_seq. destruct died as [d|].
  - rewrite bool_decide_false by done. cbn [andb]. split_and!; [done|reflexivity|exact Vi|]. by left.
  - rewrite bool_decide_true by done. subst k. rewrite (proj2 (Nat.leb_le _ _)), andb_true_r by done. cbn [andb].
    split_and!; [done|reflexivity|exact Vi|].
    destruct (Z.eqb_spec (chain head (clamp MAX_WALK_NODES max_nodes)) 0) as [E|E]; cbn [negb]; [by split|by right].
Qed.

(** The entries of a table are the slots up to the first that is not mapped. *)
Definition slot_at (va stride : Z) (i : nat) : Z := (va +sat (Z.of_nat i * stride) mod 2 ^ 64)%Z.
Lemma pointer_entries_exact va stride i count :
  ∃ k, k ≤ count ∧
    pointer_entries p a image bitness triage va stride i count =
      map (λ j, let slot := slot_at va stride j in let value := pointer_at a image bitness slot in
        VObj [("slot_va", va_text slot); ("value", va_text value);
              ("resolved", resolved p a image bitness triage value)]) (seq i k) ∧
    (∀ j, i ≤ j < i + k → is_valid_va a (slot_at va stride j) = true) ∧
    (k < count → is_valid_va a (slot_at va stride (i + k)) = false).
Proof.
  revert i. induction count as [|count IH]; intros i; cbn [pointer_entries].
  { exists 0. split_and!; [done|done|intros; lia|lia]. }
  fold (slot_at va stride i). destruct (is_valid_va a (slot_at va stride i)) eqn:V.
  - destruct (IH (S i)) as (k & Le & -> & Va & St). exists (S k). split_and!; [lia|done| |].
    + intros j Hj. destruct (decide (j = i)) as [->|]; [done|]. apply Va. lia.
    + intros Lt. replace (i + S k) with (S i + k) by lia. apply St. lia.
  - exists 0. split_and!; [lia|done|intros; lia|]. by rewrite Nat.add_0_r.
Qed.
End facts.

(** ** Samples *)

Definition sample_cells (words : list Z) : bytes :=
  concat (map (λ w, [default x00 (Byte.of_N (Z.to_N w)); x00; x00; x00]) words).
Definition sample_data (size : Z) : AddressSpace := mkSpace 0 [mkSection 0x10 size 0 size 0].
Definition sample_project : Project :=
  mkProject "a.exe" "sha" ∅ ∅ (mkComments ∅ ∅) (Types.mkTypes ∅ ∅ ∅) ∅ ∅ ∅ None 0 ∅ [] ∅.
Definition sample_walk (words : list Z) (max_nodes : nat) : nat * option string :=
  let '(nodes, died) := walk_nodes sample_project (sample_data 12) (sample_cells words) 32 None 0x10 0 max_nodes [] in
  (length nodes, died).

(** Two nodes that point at each other; a list that ends; one that leaves. *)
Example walk_ring : sample_walk [0x14; 0x10; 0]%Z 8 = (2, Some "cycle").
Proof. vm_compute. reflexivity. Qed.
Example walk_ends : sample_walk [0x18; 0x10; 0]%Z 8 = (2, Some "null").
Proof. vm_compute. reflexivity. Qed.
Example walk_leaves : sample_walk [0x40; 0x10; 0]%Z 8 = (1, Some "unmapped").
Proof. vm_compute. reflexivity. Qed.
(** A list of as many nodes as asked for has no reason for its end. *)
Example walk_fills : sample_walk [0x18; 0x10; 0]%Z 2 = (2, None).
Proof. vm_compute. reflexivity. Qed.

(** A text with less than 256 bytes of the file behind it is not found: the
    bytes asked for must all be there. *)
Definition sample_text : bytes := [x6f; x70; x65; x6e; x00].
Lemma text_near_end_missed :
  try_read_string_at_va (sample_data 5) sample_text 0x10 2 = None ∧
  sr_value <$> try_read_string_at_va (sample_data 300) (sample_text ++ replicate 300 x00) 0x10 2 = Some "open".
Proof. split; vm_compute; reflexivity. Qed.

(** The product of a position and the stride wraps around, so that a slot comes
    again. *)
Lemma stride_wraps va : slot_at va (2 ^ 63) 2 = slot_at va (2 ^ 63) 0.
Proof. reflexivity. Qed.
