(* ===== verification/Queries.v ===== *)
(** The listing queries of [src/llm/query.rs] about a function: its callers and
    callees, the text and the imports it uses, its summary, and the questions left
    open. With them [DataTypeManager::render] and [FunctionTable::block_at_va]. *)

From Stdlib Require Import Strings.Byte Strings.Ascii Strings.String.
From stdpp Require Import pretty.
From S2P Require Import Prelude Text Data Ops Journal Activity MemoryMap Loader CodeIndex CodeIndexFacts DiscoveryFacts Callees Indirect Bel BelBuild MemWalk.
Import AddressSpace Symbols.

Local Open Scope string_scope.
Local Open Scope list_scope.
Local Open Scope nat_scope.

(** ** Records *)

Record FunctionSummary := mkSummary {
  sm_name : string;
  sm_va : Z;
  sm_size : Z;
  sm_blocks : nat;
  sm_instructions : nat;
  sm_has_pdb_frame : bool;
  sm_callers : list string;
  sm_callees : list string
}.

(** ** [src/project/types.rs] and [src/analysis/functions.rs] *)

(** [DataTypeManager::render] *)
Fixpoint render (ty : DataType) : string :=
  match ty with
  | Void => "void"
  | Bool => "bool"
  | Int b => "int" +:+ pretty b
  | Uint b => "uint" +:+ pretty b
  | Float => "float"
  | Double => "double"
  | Ptr inner => render inner +:+ "*"
  | Array inner count => render inner +:+ "[" +:+ pretty count +:+ "]"
  | FuncPtr params ret => render ret +:+ "(*)(" +:+ join "," (map render params) +:+ ")"
  | Named n => n
  | Unknown b => "unknown" +:+ pretty b
  end.

(** [FunctionTable::block_at_va] *)
Definition block_at_va (t : gmap Z Functions.Function) (va : Z) : option (Z * Functions.BasicBlock) :=
  head (omap (λ f, pair (Functions.fn_entry_va f) <$>
    find_first (λ b, Functions.bb_entry_va b =? va)%Z (Functions.fn_blocks f)) (btree_values t)).

(** The first function in order of entry with a block there. *)
Lemma block_at_va_Some t va fe b :
  block_at_va t va = Some (fe, b) →
  Functions.bb_entry_va b = va ∧ ∃ f, f ∈ btree_values t ∧ Functions.fn_entry_va f = fe ∧ b ∈ Functions.fn_blocks f.
Proof.
  unfold block_at_va. intros E%head_Some_elem_of. apply list_elem_of_omap in E as (f & Hf & E).
  apply fmap_Some in E as (b' & Eb & [= -> ->]). apply find_first_Some in Eb as [Hb Ev%Z.eqb_eq]. eauto.
Qed.
Lemma block_at_va_None t va :
  block_at_va t va = None ↔
  ∀ f b, f ∈ btree_values t → b ∈ Functions.fn_blocks f → Functions.bb_entry_va b ≠ va.
Proof.
  unfold block_at_va. rewrite head_None. split.
  - intros E f b Hf Hb Ev. assert (∃ b', find_first (λ b', Functions.bb_entry_va b' =? va)%Z
      (Functions.fn_blocks f) = Some b') as [b' F].
    { destruct (find_first _ _) eqn:F; [eauto|]. rewrite find_first_None in F. specialize (F b Hb). lia. }
    eapply (not_elem_of_nil (Functions.fn_entry_va f, b')). rewrite <-E. apply list_elem_of_omap.
    exists f. split; [done|]. by rewrite F.
  - intros N. apply elem_of_nil_inv. intros [fe b] (f & Hf & E)%list_elem_of_omap.
    apply fmap_Some in E as (b' & Eb & [= -> ->]). apply find_first_Some in Eb as [Hb Ev%Z.eqb_eq]. by eapply N.
Qed.

(** The text of a type does not determine it. *)
Example render_ambiguous : render (Int 32) = render (Named "int32") ∧ Int 32 ≠ Named "int32".
Proof. done. Qed.

(** ** Callers and callees *)

Section queries.
Context `{!OperandView, !MemoryUse}.
Variable project : Project.
Variable code_index : CodeIndex.
Variable xrefs : XrefIndex.
Variable a : AddressSpace.
Variable image : bytes.
Variable bitness : Z.
Notation symbol va := (symbol_or_hex (symbols project) va).

(** [containing_function_name] *)
Definition containing_function_name (va : Z) : string :=
  match containing_function project va with
  | Some f => function_name (symbols project) f
  | None => symbol va
  end.

Definition is_call (x : Xref) : bool := bool_decide (x_kind x = Call).
Definition is_transfer (x : Xref) : bool :=
  match x_kind x with Call | JumpUnconditional | JumpTaken => true | _ => false end.

(** [caller_names], [callee_names] *)
Definition caller_names (f : Functions.Function) : list string :=
  take MAX_LIST (map (λ x, symbol (from_va x)) (List.filter is_transfer (xrefs_to xrefs (Functions.fn_entry_va f)))).
Definition callee_names (f : Functions.Function) : list string :=
  take MAX_LIST (map (λ x, symbol (to_va x)) (List.filter is_call (xrefs_from xrefs (Functions.fn_entry_va f)))).

(** [function_summary] *)
Definition function_summary (va : Z) : option FunctionSummary :=
  func ← function_at project va;
  Some (mkSummary (function_name (symbols project) func) (Functions.fn_entry_va func) (function_size func)
    (length (Functions.fn_blocks func)) (list_sum (map Functions.bb_instr_count (Functions.fn_blocks func)))
    (bool_decide (is_Some (Functions.fn_stack_frame func))) (caller_names func) (callee_names func)).

(** [function_callers] *)
Definition function_callers (va : Z) : list (Z * string) :=
  take MAX_LIST (map (λ x, (from_va x, containing_function_name (from_va x)))
    (List.filter is_call (xrefs_to xrefs va))).

(** [format!("{:?}", x.kind)] *)
Definition debug_kind (k : XrefKind) : string :=
  match k with
  | Call => "Call" | JumpUnconditional => "JumpUnconditional" | JumpTaken => "JumpTaken"
  | DataRead => "DataRead" | DataWrite => "DataWrite" | Callees.Indirect => "Indirect"
  end.
(** [xrefs_to_named] *)
Definition xrefs_to_named (va : Z) : list (Z * string * string) :=
  take MAX_LIST (map (λ x, (from_va x, symbol (from_va x), debug_kind (x_kind x))) (xrefs_to xrefs va)).

(** [functions_named] *)
Definition named_like (needle : string) (f : Functions.Function) : option (Z * string) :=
  let name := function_name (symbols project) f in
  if contains needle (normalize_ascii name) then Some (Functions.fn_entry_va f, name) else None.
Definition functions_named (pattern : string) : list (Z * string) :=
  take MAX_LIST (omap (named_like (normalize_ascii pattern)) (btree_values (functions project))).

(** ** Text *)

(** [memory_target_va]; 0 for what is not a constant. *)
Definition memory_target (i : Instruction) (um : UsedMemory) : Z :=
  if decide (um_base um = RIP ∨ um_base um = EIP) then (instr_next_ip i +wrap um_displacement um)%Z
  else if decide (um_base um = NoRegister ∧ um_index um = NoRegister) then um_displacement um
  else 0%Z.
(** The immediates taken for addresses. *)
Definition pointer_immediate (o : OpKind * Z) : option Z :=
  match o.1 with
  | Immediate64 | Immediate32to64 => Some o.2
  | Immediate32 => if (bitness =? 32)%Z then Some o.2 else None
  | _ => None
  end.
(** The addresses an instruction may refer to, in the order they are tried. *)
Definition pointers_of (dec : DecodedInstr) : list Z :=
  map (memory_target (instr dec)) (used_memory (instr dec)) ++ omap pointer_immediate (operands (instr dec)).

(** The state of [strings_in_function]: the addresses seen and the strings
    found, or the strings returned early. *)
Notation Found := (list StringRef + gset Z * list StringRef)%type.
Definition try_target (min_len : nat) (s : Found) (target : Z) : Found :=
  match s with
  | inl out => inl out
  | inr (seen, out) =>
      if (target =? 0)%Z || negb (is_data_va a target) || bool_decide (target ∈ seen) then s
      else
        match try_read_string_at_va a image target min_len with
        | None => inr ({[target]} ∪ seen, out)
        | Some sref =>
            let out := out ++ [sref] in
            if MAX_LIST <=? length out then inl out else inr ({[target]} ∪ seen, out)
        end
  end.
(** The walk over the instructions of a block; [None] when fuel is missing. *)
Fixpoint strings_walk (fuel min_len : nat) (exit_va cur : Z) (s : Found) : option Found :=
  match fuel, s with
  | _, inl out => Some (inl out)
  | 0, _ => None
  | S fuel, _ =>
      match at_va code_index cur with
      | None => Some s
      | Some dec =>
          let s := foldl (try_target min_len) s (pointers_of dec) in
          if (cur =? exit_va)%Z then Some s else strings_walk fuel min_len exit_va (next_ip dec) s
      end
  end.
(** [strings_in_function]; no instruction is visited twice in a block. *)
Definition strings_in_function (va : Z) (min_len : nat) : option (list StringRef) :=
  match function_at project va with
  | None => Some []
  | Some func =>
      s ← fold_opt (λ s b, strings_walk (S (length code_index)) min_len (Functions.bb_exit_va b)
                             (Functions.bb_entry_va b) s) (inr (∅, [])) (Functions.fn_blocks func);
      Some match s with inl out => out | inr (_, out) => out end
  end.

(** ** Imports *)

(** [imported_api_for_instruction] *)
Definition imported_api_for_instruction (i : Instruction) : option string :=
  if decide (flow_control i ≠ FlowControl.IndirectCall) then None
  else
    slot_va ← rip_relative_target_va i bitness;
    name ← Symbols.name (symbols project) slot_va;
    strip_prefix "__imp_" name.

Definition add_new (out : list string) (api : string) : list string :=
  if bool_decide (api ∈ out) then out else out ++ [api].
(** The imports among the callees. *)
Definition direct_apis (va : Z) : list string :=
  foldl add_new [] (omap (λ e, strip_prefix "__imp_" e.2) (function_callees project va)).
(** The loop over the instructions of the blocks; it returns when the list has
    reached exactly [MAX_LIST]. *)
Fixpoint indirect_apis (instrs : list DecodedInstr) (out : list string) : list string :=
  match instrs with
  | [] => out
  | dec :: instrs =>
      match imported_api_for_instruction (instr dec) with
      | None => indirect_apis instrs out
      | Some api =>
          if bool_decide (api ∈ out) then indirect_apis instrs out
          else
            let out := out ++ [api] in
            if length out =? MAX_LIST then out else indirect_apis instrs out
      end
  end.
(** The instructions looked at. *)
Definition block_window (b : Functions.BasicBlock) : list DecodedInstr :=
  take (Functions.bb_instr_count b) (window code_index (Functions.bb_entry_va b) (Functions.bb_instr_count b)).
(** [apis_called] *)
Definition apis_called (va : Z) : list string :=
  match function_at project va with
  | None => []
  | Some func => indirect_apis (concat (map block_window (Functions.fn_blocks func))) (direct_apis va)
  end.

(** ** Open questions *)

(** [l.get(key).and_then(|v| v.as_str())] of a document *)
Definition get_str (k : string) (v : Value) : option string :=
  match v with VObj m => match obj_get k m with Some (VStr s) => Some s | _ => None end | _ => None end.
Definition get_array (k : string) (v : Value) : option (list Value) :=
  match v with VObj m => match obj_get k m with Some (VArr l) => Some l | _ => None end | _ => None end.

Definition unknown_local (l : Value) : bool :=
  match get_str "type" l with Some t => contains "unknown" t || bool_decide (t = "Unknown") | None => false end.
Definition unknown_callee (c : Value) : bool :=
  match get_str "name" c with
  | Some n => String.prefix "sub_" n || String.prefix "FUN_" n || bool_decide (n = "unknown")
  | None => false
  end.
Definition has_purpose (memory : Value) : bool :=
  match get_str "purpose" memory with Some s => negb (bool_decide (s = "")) | None => false end.

(** [Vec::dedup] *)
Fixpoint dedup_strings (l : list string) : list string :=
  match l with
  | x :: ((y :: _) as l') => if bool_decide (x = y) then dedup_strings l' else x :: dedup_strings l'
  | _ => l
  end.

(** [evidence_open_questions]: the questions and the hints before they are
    joined. *)
Definition open_questions (va : Z) (entities : option Value) (memory : Value) (callees apis : list Value)
    : list string * list string :=
  let '(q, hints) :=
    match entities ≫= get_array "locals" with
    | Some locals =>
        let unknown := length (List.filter unknown_local locals) in
        if 0 <? unknown
        then ([pretty unknown +:+ " stack local(s) still Unknown-typed"],
              ["apply_type_recovery"; "get_function_dataflow"])
        else ([], [])
    | None => ([], [])
    end in
  let unknown_callees := length (List.filter unknown_callee callees) in
  let '(q, hints) :=
    if 0 <? unknown_callees
    then (q ++ [pretty unknown_callees +:+ " callee(s) still generic FUN_*/sub_* / unknown"],
          hints ++ ["get_function_callees"])
    else (q, hints) in
  let '(q, hints) :=
    if negb (has_purpose memory) && negb (bool_decide (apis = []))
    then (q ++ ["no function_memory.purpose yet despite import APIs"], hints ++ ["set_function_memory"])
    else (q, hints) in
  let '(q, hints) :=
    if bool_decide (function_memory project !! va = None) && bool_decide (apis = []) && (unknown_callees =? 0)
       && bool_decide (q = [])
    then (["no durable memory card; consider summarizing after renames"], hints ++ ["set_function_memory"])
    else (q, hints) in
  if bool_decide (q = [])
  then (["no major gaps detected; verify claims before large rename batches"], hints ++ ["verify_claims"])
  else (q, hints).
Definition evidence_open_questions (va : Z) (entities : option Value) (memory : Value) (callees apis : list Value)
    : list string * string :=
  let '(q, hints) := open_questions va entities memory callees apis in
  let hints := dedup_strings hints in
  (q, if bool_decide (hints = []) then "get_function_agent_text" else join (" " +:+ ARROW +:+ " ") hints).
End queries.

(** ** Callers *)

Section facts.
Context `{OV : !OperandView, MU : !MemoryUse}.
Variable project : Project.
Variable ci : CodeIndex.
Variable a : AddressSpace.
Variable image : bytes.
Variable bitness : Z.
Notation xrefs := (build_xrefs a bitness ci).

(** The direct calls of an image, in order of address. *)
Definition calls (d : DecodedInstr) : bool :=
  bool_decide (flow_control (instr d) = FlowControl.Call) && negb (near_branch_target (instr d) =? 0)%Z.
Definition call_ref (d : DecodedInstr) : Xref := mkXref (ip d) (near_branch_target (instr d)) Call.

Lemma filter_calls : List.filter is_call (all_xrefs a bitness ci) = map call_ref (List.filter calls ci).
Proof.
  unfold all_xrefs. rewrite List.filter_app.
  assert (List.filter is_call (concat (map (data_xrefs a bitness) ci)) = []) as ->.
  { apply elem_of_nil_inv. intros x [Hx C]%list_elem_of_In%filter_In.
    apply in_concat in Hx as (l & (d & <- & _)%in_map_iff & Hx).
    destruct (data_xref_ok a bitness d x) as (_ & _ & _ & [K|K]); [by apply list_elem_of_In|..];
      unfold is_call in C; by rewrite K in C. }
  rewrite app_nil_r. induction ci as [|d l IH]; [done|]. cbn [omap list_omap List.filter].
  unfold branch_xref at 1, calls at 1. destruct (flow_control (instr d)) eqn:F; simpl; rewrite <-?IH; try done.
  all: destruct (Z.eqb_spec (near_branch_target (instr d)) 0) as [E|E]; simpl; rewrite <-?IH; try done.
Qed.

Lemma filter_comm {A} (P : A → Prop) `{∀ x, Decision (P x)} (q : A → bool) (l : list A) :
  List.filter q (filter P l) = filter P (List.filter q l).
Proof.
  induction l as [|x l IH]; [done|]. rewrite filter_cons. simpl.
  case_decide as D; destruct (q x) eqn:Q; simpl; rewrite ?Q, ?filter_cons; try rewrite decide_True by done;
    try rewrite decide_False by done; by rewrite IH.
Qed.

Lemma filter_map_ref (P : Xref → Prop) `{∀ x, Decision (P x)} (l : list DecodedInstr) :
  filter P (map call_ref l) = map call_ref (filter (λ d, P (call_ref d)) l).
Proof. induction l as [|d l IH]; [done|]. cbn [map]. rewrite !filter_cons. case_decide; cbn [map]; by rewrite IH. Qed.

(** The callers reported of an address are its direct calls, in order of
    address, up to the limit of the list. *)
Theorem function_callers_exact va :
  function_callers project xrefs va =
  take MAX_LIST (map (λ d, (ip d, containing_function_name project (ip d)))
    (filter (λ d, near_branch_target (instr d) = va) (List.filter calls ci))).
Proof.
  unfold function_callers. rewrite (proj1 (build_xrefs_exact a bitness ci va)), filter_comm, filter_calls,
    filter_map_ref, map_map. done.
Qed.

(** The callees of a summary are those of the instruction at the entry alone. *)
Theorem summary_callees_exact f :
  callee_names project xrefs f =
  take MAX_LIST (map (λ d, symbol_or_hex (symbols project) (near_branch_target (instr d)))
    (filter (λ d, ip d = Functions.fn_entry_va f) (List.filter calls ci))).
Proof.
  unfold callee_names. rewrite (proj2 (build_xrefs_exact a bitness ci _)), filter_comm, filter_calls,
    filter_map_ref, map_map. done.
Qed.

(** A function that does not begin with a call has no callee in its summary. *)
Corollary summary_callees_missed f :
  (∀ d, d ∈ ci → ip d = Functions.fn_entry_va f → flow_control (instr d) ≠ FlowControl.Call) →
  callee_names project xrefs f = [].
Proof.
  intros N. rewrite summary_callees_exact.
  assert (filter (λ d, ip d = Functions.fn_entry_va f) (List.filter calls ci) = []) as ->; [|done].
  apply elem_of_nil_inv. intros d. rewrite list_elem_of_filter, list_elem_of_In, filter_In.
  intros (E & Hd & [C%bool_decide_eq_true _]%andb_true_iff). apply list_elem_of_In in Hd. by eapply N.
Qed.

(** When no two functions' ranges meet, the caller named is the function one of
    whose blocks the call is in. *)
Definition covers (f : Functions.Function) (va : Z) : Prop :=
  (Functions.fn_entry_va f ≤ va ≤ match last (Functions.fn_blocks f) with
                                   | Some b => Functions.bb_exit_va b | None => Functions.fn_entry_va f end)%Z.
Theorem caller_named va fe f :
  functions project !! fe = Some f → covers f va →
  (∀ fe' f', functions project !! fe' = Some f' → covers f' va → f' = f) →
  containing_function_name project va = function_name (symbols project) f.
Proof.
  intros Hf C U. unfold containing_function_name, containing_function.
  destruct (find_first _ _) as [g|] eqn:E.
  - apply find_first_Some in E as [(k & Hk)%elem_of_btree_values P]. f_equal.
    apply (U k g Hk). unfold covers. lia.
  - rewrite find_first_None in E. exfalso.
    assert (f ∈ btree_values (functions project)) as Hin by (apply elem_of_btree_values; eauto).
    specialize (E f Hin). unfold covers in C. lia.
Qed.
End facts.

(** ** Text *)

Section strings.
Context `{OV : !OperandView, MU : !MemoryUse}.
Variable project : Project.
Variable ci : CodeIndex.
Variable a : AddressSpace.
Variable image : bytes.
Variable bitness : Z.
Variable min_len : nat.
Notation read target := (try_read_string_at_va a image target min_len).
Notation try := (try_target a image min_len).

(** The addresses of data among [ts], each at its first place. *)
Fixpoint fresh (seen : gset Z) (ts : list Z) : list Z :=
  match ts with
  | [] => []
  | t :: ts =>
      if (t =? 0)%Z || negb (is_data_va a t) || bool_decide (t ∈ seen) then fresh seen ts
      else t :: fresh ({[t]} ∪ seen) ts
  end.

Lemma elem_of_fresh seen ts t :
  t ∈ fresh seen ts ↔ t ∈ ts ∧ t ≠ 0%Z ∧ is_data_va a t = true ∧ t ∉ seen.
Proof.
  revert seen. induction ts as [|u ts IH]; intros seen; cbn [fresh].
  { split; [by intros ?%not_elem_of_nil|by intros [?%not_elem_of_nil _]]. }
  destruct (Z.eqb_spec u 0) as [->|Nz]; cbn [orb].
  { rewrite IH, elem_of_cons. naive_solver. }
  destruct (is_data_va a u) eqn:V; cbn [negb orb].
  2: { rewrite IH, elem_of_cons. naive_solver congruence. }
  case_bool_decide as D; rewrite ?elem_of_cons, IH.
  - naive_solver.
  - destruct (decide (t = u)) as [->|]; set_solver.
Qed.
Lemma fresh_NoDup seen ts : NoDup (fresh seen ts).
Proof.
  revert seen. induction ts as [|u ts IH]; intros seen; cbn [fresh]; [constructor|].
  destruct (_ || _); [done|]. constructor; [|done]. rewrite elem_of_fresh. set_solver.
Qed.

Definition found (s : list StringRef + gset Z * list StringRef) : list StringRef :=
  match s with inl out => out | inr (_, out) => out end.
(** A state says truthfully whether the list is full. *)
Definition full_ok (s : list StringRef + gset Z * list StringRef) : Prop :=
  match s with inl out => length out = MAX_LIST | inr (_, out) => length out < MAX_LIST end.

Lemma try_returned out ts : foldl try (inl out) ts = inl out.
Proof. by induction ts. Qed.

Lemma try_step seen out t :
  try (inr (seen, out)) t =
  if (t =? 0)%Z || negb (is_data_va a t) || bool_decide (t ∈ seen) then inr (seen, out)
  else
    match read t with
    | None => inr ({[t]} ∪ seen, out)
    | Some sref =>
        if MAX_LIST <=? length (out ++ [sref]) then inl (out ++ [sref]) else inr ({[t]} ∪ seen, out ++ [sref])
    end.
Proof. done. Qed.

(** Trying addresses one after the other is reading those that are new, up to
    the limit. *)
Lemma try_all seen out ts :
  length out < MAX_LIST →
  full_ok (foldl try (inr (seen, out)) ts) ∧
  found (foldl try (inr (seen, out)) ts) = take MAX_LIST (out ++ omap (λ t, read t) (fresh seen ts)).
Proof.
  revert seen out. induction ts as [|t ts IH]; intros seen out Lt; cbn [foldl fresh].
  { cbn [found full_ok omap list_omap]. rewrite app_nil_r, take_ge by lia. done. }
  rewrite try_step. destruct (_ || _); [by apply IH|].
  cbn [omap list_omap]. destruct (read t) as [sref|]; [|by apply IH].
  destruct (Nat.leb_spec MAX_LIST (length (out ++ [sref]))) as [Le|Gt].
  - rewrite try_returned. cbn [found full_ok].
    assert (length (out ++ [sref]) = MAX_LIST) as L by (rewrite length_app in Le |- *; simpl in *; lia).
    split; [done|]. rewrite (cons_middle sref out (omap _ _)), (app_assoc out), <-L. by rewrite take_app_length.
  - destruct (IH ({[t]} ∪ seen) (out ++ [sref]) Gt) as [K ->]. split; [done|]. by rewrite <-app_assoc.
Qed.

(** The instructions a walk of a block visits. *)
Fixpoint block_instrs (fuel : nat) (exit_va cur : Z) : list DecodedInstr :=
  match fuel, at_va ci cur with
  | S fuel, Some dec =>
      dec :: (if (cur =? exit_va)%Z then [] else block_instrs fuel exit_va (next_ip dec))
  | _, _ => []
  end.
Definition block_targets (b : Functions.BasicBlock) : list Z :=
  concat (map (pointers_of bitness)
    (block_instrs (length ci) (Functions.bb_exit_va b) (Functions.bb_entry_va b))).

(** The instructions from an address on. *)
Definition ahead (cur : Z) : nat := length (filter (λ d, (cur ≤ ip d)%Z) ci).
Lemma ahead_next d : progresses ci → d ∈ ci → ahead (next_ip d) < ahead (ip d).
Proof.
  intros P Hd. destruct (P d Hd) as [L U].
  assert (ip d < next_ip d)%Z as Lt by (unfold next_ip, sat_add; lia).
  unfold ahead. induction ci as [|e l IH]; [by apply not_elem_of_nil in Hd|]. rewrite !filter_cons.
  assert (length (filter (λ d0, (next_ip d ≤ ip d0)%Z) l) ≤ length (filter (λ d0, (ip d ≤ ip d0)%Z) l)) as M.
  { clear -Lt. induction l as [|e l IH]; [done|]. rewrite !filter_cons. repeat case_decide; simpl; lia. }
  apply elem_of_cons in Hd as [->|Hd].
  - rewrite decide_False, decide_True by lia. simpl. lia.
  - assert (length (filter (λ d0, (next_ip d ≤ ip d0)%Z) l) < length (filter (λ d0, (ip d ≤ ip d0)%Z) l)).
    { apply IH; [|done]. intros x Hx. apply P. by right. }
    repeat case_decide; simpl; lia.
Qed.

Lemma strings_walk_ok rounds fuel exit_va cur s :
  progresses ci → ahead cur ≤ rounds → ahead cur < fuel →
  strings_walk ci a image bitness fuel min_len exit_va cur s =
  Some (foldl try s (concat (map (pointers_of bitness) (block_instrs rounds exit_va cur)))).
Proof.
  intros P. revert rounds cur s. induction fuel as [|fuel IH]; intros rounds cur s R F; [lia|].
  destruct s as [out|[seen out]]; [by rewrite try_returned|].
  cbn [strings_walk]. destruct (at_va ci cur) as [d|] eqn:E.
  - destruct (at_va_Some ci cur d E) as [Hd <-]. pose proof (ahead_next d P Hd).
    destruct rounds as [|rounds]; [lia|]. cbn [block_instrs map concat]. rewrite E.
    destruct (ip d =? exit_va)%Z; cbn [map concat]; rewrite foldl_app; [done|]. apply IH; lia.
  - destruct rounds; cbn [block_instrs]; by rewrite ?E.
Qed.

(** The text reported of a function is that at the addresses of data which the
    instructions of its blocks name, each address once, in the order met, up to
    the limit; the query always returns. *)
Theorem strings_in_function_exact va f :
  progresses ci → function_at project va = Some f →
  strings_in_function project ci a image bitness va min_len =
  Some (take MAX_LIST (omap (λ t, read t) (fresh ∅ (concat (map block_targets (Functions.fn_blocks f)))))).
Proof.
  intros P Hf. unfold strings_in_function. rewrite Hf.
  assert (∀ s bs, fold_opt (λ s b, strings_walk ci a image bitness (S (length ci)) min_len
      (Functions.bb_exit_va b) (Functions.bb_entry_va b) s) s bs =
    Some (foldl try s (concat (map block_targets bs)))) as ->.
  { intros s bs. revert s. induction bs as [|b bs IH]; intros s; [done|].
    cbn [fold_opt map concat]. rewrite foldl_app.
    assert (ahead (Functions.bb_entry_va b) ≤ length ci) by apply length_filter.
    rewrite (strings_walk_ok (length ci)) by (done || lia). apply IH. }
  cbn [mbind option_bind].
  destruct (try_all ∅ [] (concat (map block_targets (Functions.fn_blocks f)))) as [_ E]; [by vm_compute; lia|].
  cbn [app] in E. by rewrite <-E.
Qed.
End strings.

(** ** Imports *)

Section apis.
Context `{OV : !OperandView}.
Variable project : Project.
Variable ci : CodeIndex.
Variable bitness : Z.
Notation api_of d := (imported_api_for_instruction project bitness (instr d)).

Lemma add_new_NoDup l out : NoDup out → NoDup (foldl add_new out l).
Proof.
  revert out. induction l as [|x l IH]; intros out N; [done|]. apply IH.
  unfold add_new. case_bool_decide; [done|]. apply NoDup_app. split_and!; [done| |apply NoDup_singleton].
  intros y Hy ->%list_elem_of_singleton. done.
Qed.
Lemma elem_of_add_new l out x : x ∈ foldl add_new out l ↔ x ∈ out ∨ x ∈ l.
Proof.
  revert out. induction l as [|y l IH]; intros out; cbn [foldl]; [set_solver|]. rewrite IH, elem_of_cons.
  unfold add_new. case_bool_decide; rewrite ?elem_of_app, ?list_elem_of_singleton; naive_solver.
Qed.

(** The loop over instructions adds what is new, and stops only at the limit. *)
Lemma indirect_apis_spec instrs out :
  NoDup out →
  let l := indirect_apis project bitness instrs out in
  NoDup l ∧ (∀ x, x ∈ l → x ∈ out ∨ ∃ d, d ∈ instrs ∧ api_of d = Some x) ∧
  (∀ x, x ∈ out → x ∈ l) ∧
  (length l = MAX_LIST ∨ ∀ d x, d ∈ instrs → api_of d = Some x → x ∈ l) ∧
  (length out < MAX_LIST → length l ≤ MAX_LIST).
Proof.
  revert out. induction instrs as [|d instrs IH]; intros out N; cbn [indirect_apis].
  { split_and!; [done|auto|done| |lia]. right. by intros d x ?%not_elem_of_nil. }
  destruct (api_of d) as [api|] eqn:E.
  2: { destruct (IH out N) as (I1 & I2 & I3 & I4 & I5). split_and!; [done| |done| |done].
       - intros x [?|(e & ? & ?)]%I2; [by left|]. right. exists e. split; [by right|done].
       - destruct I4 as [?|I4]; [by left|]. right. intros e x [->|He]%elem_of_cons Ex; [congruence|by eapply I4]. }
  case_bool_decide as D.
  { destruct (IH out N) as (I1 & I2 & I3 & I4 & I5). split_and!; [done| |done| |done].
    - intros x [?|(e & ? & ?)]%I2; [by left|]. right. exists e. split; [by right|done].
    - destruct I4 as [?|I4]; [by left|]. right. intros e x [->|He]%elem_of_cons Ex; [|by eapply I4].
      apply I3. congruence. }
  assert (NoDup (out ++ [api])) as N'.
  { apply NoDup_app. split_and!; [done| |apply NoDup_singleton]. by intros y Hy ->%list_elem_of_singleton. }
  assert (∀ x, x ∈ out ++ [api] ↔ x ∈ out ∨ x = api) as M
    by (intros; rewrite elem_of_app, list_elem_of_singleton; done).
  destruct (Nat.eqb_spec (length (out ++ [api])) MAX_LIST) as [F|F].
  - split_and!; [done| |set_solver|by left|lia]. intros x [?| ->]%M; [by left|].
    right. exists d. split; [by left|done].
  - destruct (IH _ N') as (I1 & I2 & I3 & I4 & I5). split_and!; [done| |set_solver| |].
    + intros x [[?| ->]%M|(e & ? & ?)]%I2; [by left| |]; right; [exists d|exists e]; set_solver.
    + destruct I4 as [?|I4]; [by left|]. right. intros e x [->|He]%elem_of_cons Ex; [|by eapply I4].
      apply I3, M. right. congruence.
    + intros L. apply I5. rewrite length_app in F |- *. simpl in *. lia.
Qed.

(** Where a function calls an import: through a named callee, or through an
    import slot in an instruction of one of its blocks. *)
Definition calls_api (f : Functions.Function) (va : Z) (x : string) : Prop :=
  (∃ e, e ∈ function_callees project va ∧ strip_prefix "__imp_" e.2 = Some x) ∨
  ∃ b d, b ∈ Functions.fn_blocks f ∧ d ∈ block_window ci b ∧ api_of d = Some x.

Lemma elem_of_direct va x :
  x ∈ direct_apis project va ↔ ∃ e, e ∈ function_callees project va ∧ strip_prefix "__imp_" e.2 = Some x.
Proof.
  unfold direct_apis. rewrite elem_of_add_new, list_elem_of_omap.
  split; [intros [?%not_elem_of_nil|?]; done|by right].
Qed.

(** The imports listed are distinct and called by the function; all of them are
    listed unless the list has reached its limit; and the list stays within the
    limit when the named callees alone do not fill it. *)
Theorem apis_called_exact va f :
  function_at project va = Some f →
  let l := apis_called project ci bitness va in
  NoDup l ∧ (∀ x, x ∈ l → calls_api f va x) ∧
  (length l = MAX_LIST ∨ ∀ x, calls_api f va x → x ∈ l) ∧
  (length (direct_apis project va) < MAX_LIST → length l ≤ MAX_LIST).
Proof.
  intros Hf. unfold apis_called. rewrite Hf.
  assert (NoDup (direct_apis project va)) as N by (apply add_new_NoDup; constructor).
  destruct (indirect_apis_spec (concat (map (block_window ci) (Functions.fn_blocks f))) _ N) as (I1 & I2 & I3 & I4 & I5).
  assert (∀ d, d ∈ concat (map (block_window ci) (Functions.fn_blocks f)) ↔
               ∃ b, b ∈ Functions.fn_blocks f ∧ d ∈ block_window ci b) as W.
  { intros d. rewrite list_elem_of_In, in_concat. split.
    - intros (l & (b & <- & Hb)%in_map_iff & Hd). exists b. by rewrite !list_elem_of_In.
    - intros (b & Hb%list_elem_of_In & Hd%list_elem_of_In). eexists. split; [by apply in_map|done]. }
  split_and!; [done| | |done].
  - intros x [Hx%elem_of_direct|(d & (b & Hb & Hd)%W & E)]%I2; [by left|right; eauto].
  - destruct I4 as [?|I4]; [by left|]. right. intros x [Hx%elem_of_direct|(b & d & Hb & Hd & E)].
    + by apply I3.
    + eapply I4; [|done]. apply W. eauto.
Qed.
End apis.

(** ** Open questions *)

(** There is always a question, and always a hint: the text for no hint is never
    given. *)
Theorem open_questions_hint project va entities memory callees apis :
  let '(q, hints) := open_questions project va entities memory callees apis in q ≠ [] ∧ hints ≠ [].
Proof.
  unfold open_questions.
  destruct (entities ≫= get_array "locals") as [locals|]; cbn zeta.
  1: destruct (0 <? length (List.filter unknown_local locals)).
  all: destruct (0 <? length (List.filter unknown_callee callees));
    destruct (negb (has_purpose memory) && negb (bool_decide (apis = [])));
    simpl; repeat case_match; simplify_eq/=; split; try done; by destruct (function_memory project !! va).
Qed.

(** ** What the queries miss *)

Module Example.
(** Indirect calls are relative; their slot is kept in the branch target. *)
#[export] Instance view : OperandView := {
  mnemonic _ := CallMnemonic;
  op0_is_memory _ := true;
  op0_is_register _ := false;
  op0_register _ := NoRegister;
  op1_register _ := NoRegister;
  memory_base _ := RIP;
  memory_index _ := NoRegister;
  memory_displacement64 i := near_branch_target i;
  ip_rel_memory_address i := near_branch_target i
}.
(** An instruction names the data at its branch target. *)
#[export] Instance uses : MemoryUse := {
  used_memory i := [mkUsed NoRegister NoRegister (near_branch_target i) OpAccess.Read]
}.

Definition insn (va : Z) (flow : FlowControl.FlowControl) (target : Z) : DecodedInstr :=
  mkDecoded va 5 [] (mkInstruction va 5 false flow target [(MemoryOperand, 0%Z)]).
Definition call_to (va : Z) : Functions.Edge := Functions.mkEdge va Functions.Call.
Definition project_of (fs : list Functions.Function) (syms : list (Z * string)) : Project :=
  mkProject "a.exe" "sha" (list_to_map (map (λ f, (Functions.fn_entry_va f, f)) fs))
    (list_to_map (map (λ '(va, n), (va, mkSymbol n Import_)) syms)) (mkComments ∅ ∅) (Types.mkTypes ∅ ∅ ∅)
    ∅ ∅ ∅ None 0 ∅ [] ∅.
Definition function (blocks : list Functions.BasicBlock) : Functions.Function :=
  Functions.mkFunction 0 (match blocks with b :: _ => Functions.bb_entry_va b | [] => 0%Z end) blocks [] None None.

(** [1000 nop; 1005 call 2000; 100a call [3000]; 100f call [3008]; 1014 ret] *)
Definition code : CodeIndex :=
  [insn 0x1000 FlowControl.Next 0; insn 0x1005 FlowControl.Call 0x2000;
   insn 0x100a FlowControl.IndirectCall 0x3000; insn 0x100f FlowControl.IndirectCall 0x3008;
   insn 0x1014 FlowControl.Return 0]%Z.
Definition data : AddressSpace := mkSpace 0 [mkSection 0x3000 0x400 0 0x400 0x40000000].
Definition file : bytes := [x68; x69; x00] ++ replicate 1021 x00.

Definition body (edges : list Functions.Edge) : list Functions.BasicBlock :=
  [Functions.mkBlock 0x1000 0x1014 5 edges []]%Z.
Definition simple : Project := project_of [function (body [call_to 0x2000])] [].

(** The summary of a function that calls 0x2000 names no callee; the list of its
    callees does. *)
Lemma summary_callees_missed_witness :
  callee_names simple (build_xrefs data 64 code) (function (body [call_to 0x2000%Z])) = [] ∧
  function_callees simple 0x1000 = [(0x2000%Z, "FUN_00002000")].
Proof.
  split; [|by vm_compute]. apply summary_callees_missed.
  intros d Hd E. unfold code in Hd. repeat apply elem_of_cons in Hd as [->|Hd]; [done..|].
  by apply not_elem_of_nil in Hd.
Defined.

(** The text of a function. *)
Lemma strings_in_function_exact_witness :
  strings_in_function simple code data file 64 0x1000 2 = Some [mkStringRef 0x3000 "hi" "ascii"].
Proof.
  rewrite (strings_in_function_exact simple code data file 64 2 0x1000 (function (body [call_to 0x2000%Z]))).
  - by vm_compute.
  - intros d Hd. unfold code in Hd. repeat apply elem_of_cons in Hd as [->|Hd]; [split; [simpl; lia|by vm_compute]..|].
    by apply not_elem_of_nil in Hd.
  - done.
Defined.

(** A callee is listed once more when another one was called in between. *)
Example callee_listed_twice :
  map fst (function_callees (project_of [function (body (map call_to [0x2000; 0x2010; 0x2000]%Z))] []) 0x1000) =
  [0x2000; 0x2010; 0x2000]%Z.
Proof. by vm_compute. Qed.

(** When named imports alone fill the list, it grows past its limit. *)
Definition many : list Z := map (λ n, 0x4000 + Z.of_nat n)%Z (seq 0 32).
Definition busy : Project :=
  project_of [function (body (map call_to many))]
    (map (λ va, (va, "__imp_" +:+ hex va)) ([0x3000; 0x3008]%Z ++ many)).
Example apis_over_limit : MAX_LIST = 32 ∧ length (apis_called busy code 64 0x1000) = 34.
Proof. split; by vm_compute. Qed.

(** The caller named is the first function whose range covers the call, not the
    one it is in: here the call at 0x2005 lies in the function at 0x2000. *)
Definition split_function : Functions.Function :=
  function [Functions.mkBlock 0x1000 0x1005 2 [] []; Functions.mkBlock 0x3000 0x3005 2 [] []]%Z.
Definition inner : Functions.Function := function [Functions.mkBlock 0x2000 0x2005 2 [] []]%Z.
Definition interleaved : Project := project_of [split_function; inner] [].
Example caller_misnamed :
  containing_function_name interleaved 0x2005 = "FUN_00001000" ∧
  owner_function_entry interleaved 0x2005 = Some 0x2000%Z.
Proof. split; by vm_compute. Qed.

Lemma caller_named_witness :
  containing_function_name (project_of [inner] []) 0x2005 = "FUN_00002000".
Proof.
  rewrite (caller_named (project_of [inner] []) 0x2005 0x2000 inner); [by vm_compute|done|by vm_compute|].
  intros fe f Hf _. unfold project_of in Hf. simpl in Hf. apply lookup_insert_Some in Hf as [[_ <-]|[_ Hf]]; [done|].
  by rewrite lookup_empty in Hf.
Defined.
End Example.
